(* ===== verification/_CoqProject ===== *)
-Q . S2P
Prelude.v
Blob.v
Pod2.v
Models.v
Payload.v
DonState.v
Podlang.v
TxModel.v
TxPredicates.v
Replay.v
ReplayFacts.v
TxBuilder.v
TxBuilderFacts.v
TxTheorems.v
ContainerDb.v
StateMachine.v
Economy.v
StateLog.v
Archiver.v
Node.v
SyncLoop.v
Relayer.v
ObjectNames.v
DriverStore.v
Driver.v
Actions.v
DriverObjects.v
Registry.v
Runs.v
Events.v
Settler.v
Workers.v
Sdk.v
SdkCalls.v
SdkMeta.v
SdkPodlang.v
SdkExec.v
SdkAlign.v
SdkFit.v
SdkPhases.v
SdkDerive.v
SdkRegistry.v
SdkToy.v
SdkRunToy.v
SdkFindings.v
Catalog.v
Plugins.v
Toys.v
PluginsToy.v
ArchiverNames.v
ArchiverStore.v
ArchiverNode.v
ArchiverTrees.v
ArchiverFacts.v
ArchiverChain.v
ArchiverRun.v
ArchiverToy.v
SyncApi.v
SyncClient.v
SyncToy.v
Update.v
UpdateFacts.v
UpdateAtomic.v
UpdateToy.v
EthClients.v
EthFacts.v
EthToy.v
Circuits.v
LtEqU256.v
Vdf.v
IntroToy.v
