(* ===== verification/Prelude.v ===== *)
(** * The Digital Objects Network: a verification development

    Objects of the network are dictionaries that live on their owners' disks.
    A transaction consumes objects (revealing their nullifiers) and creates
    others (publishing their commitments), with a zero-knowledge proof that it
    follows the rules of the classes involved. The proof travels in an Ethereum
    blob. This development models the Rust code that carries a transaction
    from an owner's disk to the state everyone derives, and proves what each
    part promises to the next.

    ** The program and the files that model it

    - txlib (libs/txlib) builds transactions: events are recorded in a hash
      chain, replayed statement by statement, and finalized into one statement
      [TxFinalized]. [Podlang.v]: the predicate language with its semantics.
      [TxModel.v]: objects, events and the abstract meaning of a transaction.
      [TxPredicates.v]: the podlang modules of libs/txlib/src/predicates as data.
      [Replay.v]: replay.rs. [TxBuilder.v]: lib.rs. [ReplayFacts.v],
      [TxBuilderFacts.v] and [TxTheorems.v] prove them correct.
    - The driver (libs/driver) runs on the owner's machine. It claims the input
      files of a proof, records the proved transaction on disk, offers it to
      the relayer, asks the synchronizer what became of it, and moves the object
      files accordingly. [ObjectNames.v]: the names of object files
      (object_store.rs, QualifiedName of wire-types). [DriverStore.v]: the
      object and transaction directories and the table of held inputs
      (object_store.rs, transactions.rs, object_record.rs, holds.rs,
      wire-types/src/transactions.rs) over a file system whose every call may
      fail. [Driver.v]: the pipeline (pipeline.rs): [record_tx] is
      [Driver::record], [settle_query] and [settle_apply] the two halves of
      [settle_with] before and under the store lock; the other operations keep
      their names. [Actions.v]: the inputs of an action and whether it can be
      run (execute.rs, catalog.rs and the queries of driver.rs).
      [DriverObjects.v]: listing, renaming, discarding and importing objects
      (driver.rs, creation_proof.rs).
    - The SDK (libs/sdk) turns the scripts of a plugin into predicates and runs
      them. A script is run twice: at Load it only records what it declares, at
      Execute it computes with values and the records become statements.
      [Sdk.v]: variables, instructions and the action context. [SdkCalls.v]: the
      host calls a script makes; a script is the list of its calls, with handles
      given by the position of their cell. [SdkMeta.v]: the metadata of loaded
      actions and classes. [SdkPodlang.v]: fmt_podlang.rs, with the predicates
      themselves in place of their text. [SdkExec.v]: [exe_action] and
      [build_action]. [SdkAlign.v] and [SdkFit.v] relate rendering and execution,
      [SdkPhases.v] and [SdkDerive.v] the two runs of a script; [SdkRegistry.v]
      has the registry of variables, [SdkToy.v] and [SdkRunToy.v] a concrete
      module, and [SdkFindings.v] scripts that load and cannot be executed.
    - Plugins (libs/pexe, pexe_catalog.rs, catalog.rs and [install_plugin] of the
      driver) are archives of a manifest and a script. [Catalog.v]: the format,
      the loading of a module and the catalog of actions and classes.
      [Plugins.v]: installation and its roll-back, and execution through the
      catalog. [PluginsToy.v]: a concrete plugin.
    - The daemon (services/dobjd) runs the driver for its clients. [Registry.v]:
      registry.rs. [Runs.v]: the state of runs and proof jobs and the event
      stream of a run (runs.rs, proof_jobs.rs, routes/actions.rs). [Events.v]:
      events.rs and routes/wait.rs. [Settler.v]: settle.rs. [Workers.v]: what a
      run or a proof job does, from [Driver::prove] to the settled transaction
      (runs.rs, proof_jobs.rs, state.rs, [prove] of pipeline.rs).
    - The introduction pods (libs/intro-pods) prove what actions ask for beyond
      pod2's own predicates: a comparison and a delay. [Circuits.v]: the gates they
      use, as an interface. [LtEqU256.v]: lt-eq-u256-pod. [Vdf.v]: vdfpod.
      [IntroToy.v]: pods that evaluate.
    - The updater (interfaces/cli/src/update.rs) replaces the installed binaries
      by those of a release. [Update.v]: the whole of it. [UpdateFacts.v] and
      [UpdateAtomic.v]: its theorems; [UpdateToy.v]: a concrete update.
    - The relayer (services/relayer) takes payloads over HTTP, keeps one job per
      transaction in Postgres and broadcasts it as a blob transaction, polling
      its receipt and raising its fee. [Relayer.v]: api.rs, db.rs, worker.rs.
    - The payload library (libs/payload) is the format of a transaction in a
      blob. [Blob.v]: blob.rs. [Payload.v]: payload.rs, lib.rs, proof.rs.
    - The archiver (services/archiver) follows the chain, keeps the blobs of the
      network on disk and serves them by versioned hash. [Archiver.v]: the blob
      endpoint of api.rs. [ArchiverNames.v]: file and directory names of node.rs.
      [ArchiverStore.v]: [Store], over a file system whose every call may fail.
      [ArchiverNode.v]: [Node], and [follow_chain] of main.rs. [ArchiverTrees.v],
      [ArchiverFacts.v] and [ArchiverChain.v] keep its invariant,
      [ArchiverRun.v] has the states it can reach, [ArchiverToy.v] a concrete run
      ([Toys.v] holds what the concrete instances share).
    - The Ethereum clients (libs/eth-clients) are what the services ask nodes
      with. [EthClients.v]: common.rs, beacon and execution.rs. [EthFacts.v]: its
      theorems; [EthToy.v]: a scripted node.
    - The synchronizer (services/synchronizer) derives the state of the network
      from the chain. [DonState.v]: don_state.rs and the headers of txlib.
      [ContainerDb.v]: the queries of container_db.rs over pod2's Merkle
      containers. [StateMachine.v]: state_machine.rs, the validation of payloads
      and the derivation of one slot. [StateLog.v]: state_log_db.rs, the tables
      of committed slots. [Node.v]: node.rs, from a beacon block to a committed
      slot. [SyncLoop.v]: sync_loop.rs and catchup.rs, slot after slot with
      reorgs. [SyncApi.v]: api.rs, the handlers over log and containers.
      [SyncClient.v]: the driver's client of that API (libs/driver/src/clients);
      [SyncToy.v] runs both. [Economy.v] composes txlib and the state machine.
    - [Prelude.v] (this file) has the monads, machine integers, byte and list
      lemmas and the automation the others share; [Pod2.v] the interfaces to
      pod2 and plonky2 with the laws relied on; [Models.v] the simplest
      functions that satisfy them.

    ** How the code is rendered

    A Rust function is a function of the same name. [Result] carries
    [Fail] for a returned error and [Panic] for an unwinding one, which no [?]
    of the source catches. State is passed by the monad [eff S A := S -> Result
    A * S]: the state survives an error, as a disk or a table does. Integers are
    [Z] with the casts and wrap-arounds of the release build written out
    ([as_i64], [as_u32], [saturating_add_u64], ...). Maps and sets are
    [gmap] and [gset]; where the source iterates over a HashMap the model
    iterates over [map_to_list] and no theorem depends on the order. Error texts keep
    the words of the source but not always every interpolated value; logging
    and metrics are dropped. A column or file that is
    written with an encoder and read with its decoder holds the value itself;
    the round trips of the codecs written in the repository are proved.
    [Path::exists] and [Path::is_file] report an error as absence; the model's
    are exact.

    Third-party code is a class of operations ([Pod2], [Plonky2],
    [MerkleStore], [Engine]) and, apart, a class of its documented laws ([Pod2Laws],
    [MerkleModel], [HexLaws]); definitions use the operations, theorems the
    laws, and the witnesses instantiate both. The world outside a process is a
    class too ([Chain], [Host], [EthGateway], [Machine], [Clients]): it may give
    a different answer at every call, fail, tear a write, or do the work
    and lose the answer. A process that dies between two calls is one whose
    later calls are all refused. What the source does under one lock, or
    in one database transaction, is one step; other steps come between. The
    threads of the daemon act between any two calls of a worker: they are an
    arbitrary function of the state.

    ** What is proved

    - The rules of the network: over any sequence of parsed and derived slots no
      object is spent or created twice, if the parser is sound
      (C1); a true [TxFinalized]
      statement has a legal transaction behind it (C2);
      finalizing equals the plain interpretation of the recorded events
      (C6), whose chain every sequence of builder
      calls keeps (C7); grounding and minting succeed
      ([grounding_succeeds], C29); the predicates fit the budget
      of a pod2 module ([modules_within_budget]).
    - Agreement on the state: [derive_slot_state] implements the abstract
      ledger, accepting exactly the acceptable payloads
      (C3), none of which spends or creates twice
      (C4); every state of the sync loop is derived
      from a parent-linked chain whatever reorgs happen
      (C5), a reorg rewinds to the last common block
      (C19), the tables stay consistent and roll back
      (C23, [commit_rollback_restores]), the API answers
      membership as the ledger behind one head has it
      ([membership_answers_ledger]) and the driver's client, over batches and
      heads that change between them, reads that ledger (C21,
      C22).
    - Safe keeping on the driver's side: an object file is never an input of
      two transactions or proofs at once, as long as reads succeed
      (C12); a
      transaction the driver gives up can never land (C14) and one
      offered to the relayer is never deleted (C15);
      records follow their life cycle (C40); a failed
      recording whose clean-up goes through leaves nothing behind
      (C32); names never
      collide ([object_names_never_shadow]); imports and renames lose nothing
      (C33, [rename_object_safe]); an action is reported
      feasible exactly when its candidates will be accepted
      (C37).
    - The daemon: every run comes to the outcome of its own transaction and every
      proof job ends, once (C16, [proof_job_finishes]), with a consistent history ([run_lifecycle]) that a
      client can follow without loss ([event_stream_complete],
      C38); a failed submission was never made
      (C18); finished transactions are announced in
      their final state (C17); retries are bounded
      (C39).
    - The SDK: what a coherent execution proves is accepted, clause by clause, for
      the predicate its action was rendered to (C8); a
      script that makes the same host calls at Load and at Execute and assigns
      nothing through handles records the same (C9); variables and timestamps stay
      consistent through renames (C25); objects whose fields are
      read stay wildcards ([field_reads_never_anchored_twice]); the guard branches
      are found where they are emitted ([class_branch_found]) and mutated objects
      are paired ([mutations_paired]).
    - Plugins: the catalog says of actions and classes what the modules say
      (C26); installing is all or nothing
      (C34); the SDK executes an action only on objects of
      the listed classes ([other_inputs_refused]); packages round-trip
      ([pexe_roundtrip]).
    - The archive: whatever fails and however often the archiver is started
      again, the disk holds a chain of complete blocks with at most one
      incomplete block on top (C20); a turn adds a block
      or removes the last one ([turns_follow_the_chain]), a rewind ends
      ([rewind_removes_last_block]), and a synchronizer reads from it the blobs
      that were committed to (C27).
    - Introduction pods: the comparison pod proves exactly the comparisons that
      hold (C10), the delay pod exactly counts hashes
      (C11), whatever witness a prover chooses.
    - Asking a node for a block ends, with the block or an error on which the
      services start over (C28); retries are bounded and never
      without a pause ([retry_ends]); block ids round-trip
      ([block_id_roundtrip]).
    - Updates are all or nothing (C35), and the tag of a
      release never leads out of the staging directory (C36).
    - Delivery: the relayer's jobs are well formed, unique per transaction and
      confirmed only by a receipt (C13); they follow
      their life cycle ([relay_jobs_evolve]); posting is idempotent
      ([submit_proof_idempotent]); a job is delivered in two turns when nothing
      fails ([relay_job_confirmed]).
    - The format: the statement of an accepted payload is valid if the proof
      system is sound (C24);
      payloads and blobs round-trip (C30,
      C31); decoding is total but for two bare magic bytes
      ([from_bytes_total]).
    - What modelling found: two magic bytes alone panic the synchronizer,
      a blob used twice in a block blocks it ([get_blobs_repeated_fails] in
      [Archiver.v]), failed nonce queries are retried without limit
      ([nonce_errors_bypass_retry_limit] in [Relayer.v]), a record that
      cannot be read unlocks its inputs ([unreadable_record_frees_inputs] in
      [Driver.v]), three kinds of script load but panic later
      ([SdkFindings.v]), a plugin that panics while it is loaded stays
      installed ([panicking_plugin_stays] in [PluginsToy.v]), and the text shown
      for an action can be another's ([extract_predicate_takes_suffix]),
      an interrupted removal can leave a block in the archive that counts as
      complete ([interrupted_removal_keeps_header]), a failed update can leave
      the daemon stopped ([failed_swap_leaves_daemon_stopped]), the comparison pod
      checks its inputs by their representation ([precheck_on_representation]),
      and a delay pod with a large count panics ([large_count_panics]).

    ** Fuel and bounds

    [first_free] searches for a free name with [fuel] candidates;
    [object_names_never_shadow] shows that one more than the names taken is
    enough, and [name_fuel] gives that. [find_divergence_loop] walks back at most
    to the start slot, which is its fuel; the archiver's [rewind] at most to slot 0,
    and its [last_header] retries at most once per name below by_slot. The search for a generated variable name
    ends within one try more than there are variables ([new_witness_total]);
    sub-actions nest no deeper than the fuel of [exe_action], and a nonce search
    follows [fuel] rounds, both arguments of the run. The submission loop counts its
    retries down; a request is retried at most as often as the shortest pause fits in the
    time of its backoff ([attempts]). Loops over lists are structural. Theorems that need machine
    integers not to overflow say so (block numbers below 2^62, slots below
    2^31).

    ** Not modelled

    The shrink circuit, the script engine (a script is the list of host calls it
    makes in one run; what decides between calls, such as a default for a missing
    argument, is the engine's), the text of podlang, the package tool,
    the HTTP layers and configuration, the RocksDB glue of the node store, the
    caching of circuits, and the front ends. *)

From Stdlib Require Export ZArith Lia.
From Stdlib Require Import Wf_nat.
From Stdlib Require Export Strings.Byte.
From stdpp Require Export base gmap strings list pretty.

#[export] Set Default Goal Selector "!".

(** ** Results, failures and the error monad

    Rust's [Result<A, E>]; [E] is [failure] for code returning
    [anyhow::Result]. A failing [assert!], [expect], [unwrap] or slice index
    unwinds instead of returning, so it is a failure of its own kind that no
    [?] or [match] on [Err] of the source intercepts. *)

Inductive result (E A : Type) : Type :=
| Ok (a : A)
| Err (e : E).
Arguments Ok {E A} a.
Arguments Err {E A} e.

Inductive failure : Type :=
| Fail (msg : string)
| Panic (msg : string).

Abbreviation Result := (result failure).

Definition rbind {E A B} (c : result E A) (k : A -> result E B) : result E B :=
  match c with
  | Ok a => k a
  | Err e => Err e
  end.

Definition rmap {E A B} (f : A -> B) (c : result E A) : result E B :=
  rbind c (fun a => Ok (f a)).

Declare Scope result_scope.
Delimit Scope result_scope with result.
Notation "'let?' x := c 'in' k" := (rbind c (fun x => k))
  (at level 10, x pattern, c at level 200, k at level 200) : result_scope.
Notation "c1 ;? c2" := (rbind c1 (fun _ => c2))
  (at level 100, right associativity) : result_scope.
Open Scope result_scope.

(** [Result::is_ok] *)
Definition is_ok {E A} (c : result E A) : bool :=
  match c with Ok _ => true | Err _ => false end.

(** [assert!(b, msg)] *)
Definition rassert (b : bool) (msg : string) : Result unit :=
  if b then Ok tt else Err (Panic msg).

(** [bail!] / [ensure!] *)
Definition rensure (b : bool) (msg : string) : Result unit :=
  if b then Ok tt else Err (Fail msg).

(** [Option::expect] *)
Definition expect {A} (o : option A) (msg : string) : Result A :=
  match o with Some a => Ok a | None => Err (Panic msg) end.

(** [Option::ok_or_else] *)
Definition ok_or {A} (o : option A) (msg : string) : Result A :=
  match o with Some a => Ok a | None => Err (Fail msg) end.

(** [Result::unwrap]: a returned error becomes a panic. *)
Definition runwrap {A} (c : Result A) : Result A :=
  match c with
  | Err (Fail m) => Err (Panic m)
  | _ => c
  end.

(** [iter().map(f).collect::<Result<Vec<_>>>()]: stops at the first error. *)
Fixpoint try_map {E A B} (f : A -> result E B) (l : list A) : result E (list B) :=
  match l with
  | [] => Ok []
  | a :: l' => let? b := f a in let? bs := try_map f l' in Ok (b :: bs)
  end.

(** A [for] loop whose body may return early with an error. *)
Fixpoint try_fold {E A S} (f : S -> A -> result E S) (s : S) (l : list A) : result E S :=
  match l with
  | [] => Ok s
  | a :: l' => let? s' := f s a in try_fold f s' l'
  end.

Section Results.
Context {E : Type}.

Lemma rassert_Ok b msg u : rassert b msg = Ok u <-> b = true.
Proof. destruct b, u; split; done. Qed.

Lemma rbind_Ok {A B} (c : result E A) (k : A -> result E B) b :
  rbind c k = Ok b <-> exists a, c = Ok a /\ k a = Ok b.
Proof. destruct c; simpl; naive_solver. Qed.

Lemma rbind_Err {A B} (c : result E A) (k : A -> result E B) e :
  rbind c k = Err e <-> c = Err e \/ exists a, c = Ok a /\ k a = Err e.
Proof. destruct c; simpl; naive_solver. Qed.

Lemma rbind_assoc {A B C} (c : result E A) (k : A -> result E B) (h : B -> result E C) :
  rbind (rbind c k) h = rbind c (fun a => rbind (k a) h).
Proof. by destruct c. Qed.

Lemma try_map_Ok {A B} (f : A -> result E B) l bs :
  try_map f l = Ok bs <-> Forall2 (fun a b => f a = Ok b) l bs.
Proof.
  revert bs; induction l as [|a l IH]; intros bs; simpl.
  - split; [intros [= <-]; constructor | by inversion 1].
  - rewrite rbind_Ok; setoid_rewrite rbind_Ok; setoid_rewrite IH. split.
    + intros (b & Hb & bs' & Hl & [= <-]). by constructor.
    + inversion 1; subst; naive_solver.
Qed.

Lemma try_map_pure {A B} (f : A -> result E B) (g : A -> B) l :
  (forall a, a ∈ l -> f a = Ok (g a)) -> try_map f l = Ok (map g l).
Proof.
  induction l as [|a l IH]; intros H; simpl; [done|].
  rewrite H by set_solver; simpl. rewrite IH; [done | set_solver].
Qed.

Lemma try_fold_app {A S} (f : S -> A -> result E S) s l1 l2 :
  try_fold f s (l1 ++ l2) = let? s' := try_fold f s l1 in try_fold f s' l2.
Proof.
  revert s; induction l1 as [|a l1 IH]; intros s; simpl; [done|].
  rewrite rbind_assoc. destruct (f s a); simpl; [apply IH | done].
Qed.

(** The loop rule: an invariant indexed by what has been consumed. *)
Lemma try_fold_inv {A S} (f : S -> A -> result E S) (I : list A -> S -> Prop) s l s' :
  I [] s ->
  (forall pre a t t', I pre t -> f t a = Ok t' -> I (pre ++ [a]) t') ->
  try_fold f s l = Ok s' -> I l s'.
Proof.
  intros H0 Hstep.
  assert (Hgen : forall l pre t, I pre t -> try_fold f t l = Ok s' -> I (pre ++ l) s').
  { clear H0 s l. induction l as [|a l IH]; intros pre t Hpre; simpl.
    - intros [= <-]. by rewrite app_nil_r.
    - rewrite rbind_Ok. intros (t' & Ht & Hl).
      change (a :: l) with ([a] ++ l). rewrite (assoc_L (++)). eapply IH; eauto. }
  intros Hl. apply (Hgen l [] s H0 Hl).
Qed.
End Results.

(** Turn every [rbind .. = Ok ..] hypothesis into its components. *)
Ltac inv_ok :=
  repeat match goal with
  | H : rbind ?c ?k = Ok _ |- _ =>
      let a := fresh "a" in let Ha := fresh "Ha" in let Hk := fresh "Hk" in
      apply rbind_Ok in H as (a & Ha & Hk); simpl in Hk
  | H : Ok _ = Ok _ |- _ => injection H; clear H; intros; subst
  | H : Err _ = Ok _ |- _ => discriminate H
  | H : Ok _ = Err _ |- _ => discriminate H
  end.

(** Split on the scrutinee of a [match] or [if] in the named hypothesis. *)
Ltac case_in H :=
  match type of H with
  | context [match ?x with _ => _ end] => destruct x eqn:?
  end.

(** ** Machine integers

    A [w]-bit integer is a [Z]; casts are written out. *)
Section MachineIntegers.
Local Open Scope Z_scope.

Definition wrapu (w z : Z) : Z := z mod 2 ^ w.
Definition wraps (w z : Z) : Z :=
  let m := wrapu w z in if m <? 2 ^ (w - 1) then m else m - 2 ^ w.

Definition as_u32 : Z -> Z := wrapu 32.
Definition as_u64 : Z -> Z := wrapu 64.
Definition as_i32 : Z -> Z := wraps 32.
Definition as_i64 : Z -> Z := wraps 64.

Definition u32_max : Z := 2 ^ 32 - 1.
Definition u64_max : Z := 2 ^ 64 - 1.
Definition i64_max : Z := 2 ^ 63 - 1.
Definition i64_min : Z := - 2 ^ 63.

Definition saturating_add_u32 (a b : Z) : Z := Z.min u32_max (a + b).
Definition saturating_sub_u32 (a b : Z) : Z := Z.max 0 (a - b).
Definition saturating_sub_u64 (a b : Z) : Z := Z.max 0 (a - b).
Definition saturating_add_u64 (a b : Z) : Z := Z.min u64_max (a + b).
Definition saturating_mul_u64 (a b : Z) : Z := Z.min u64_max (a * b).
Definition saturating_sub_i64 (a b : Z) : Z := Z.max i64_min (Z.min i64_max (a - b)).

Lemma wrapu_id w z : 0 <= z < 2 ^ w -> wrapu w z = z.
Proof. apply Z.mod_small. Qed.

Lemma wraps_id w z : 0 < w -> - 2 ^ (w - 1) <= z < 2 ^ (w - 1) -> wraps w z = z.
Proof.
  intros Hw Hz. unfold wraps, wrapu.
  assert (Hp : 2 ^ w = 2 * 2 ^ (w - 1)).
  { rewrite <- Z.pow_succ_r by lia. f_equal; lia. }
  destruct (Z_lt_le_dec z 0).
  - assert (Hm : z mod 2 ^ w = z + 2 ^ w).
    { symmetry; apply Z.mod_unique with (-1); lia. }
    rewrite Hm. destruct (Z.ltb_spec (z + 2 ^ w) (2 ^ (w - 1))); lia.
  - rewrite Z.mod_small by lia. destruct (Z.ltb_spec z (2 ^ (w - 1))); lia.
Qed.

Lemma as_i32_id z : 0 <= z < 2 ^ 31 -> as_i32 z = z.
Proof. intros; apply wraps_id; [lia|]. change (2 ^ (32 - 1)) with (2 ^ 31). lia. Qed.

Lemma as_i64_id z : 0 <= z < 2 ^ 63 -> as_i64 z = z.
Proof. intros; apply wraps_id; [lia|]. change (2 ^ (64 - 1)) with (2 ^ 63). lia. Qed.

Lemma as_u64_id z : 0 <= z < 2 ^ 64 -> as_u64 z = z.
Proof. apply wrapu_id. Qed.

Lemma as_u32_id z : 0 <= z < 2 ^ 32 -> as_u32 z = z.
Proof. apply wrapu_id. Qed.
End MachineIntegers.

(** ** Bytes

    A Rust [u8] is a [Byte.byte]; multi-byte integers are read and written
    little-endian or big-endian exactly as [to_le_bytes], [from_le_bytes],
    [to_be_bytes] and [from_be_bytes] do. *)
Section Bytes.
Local Open Scope Z_scope.

Definition byte_val (b : byte) : Z := Z.of_N (Byte.to_N b).
Definition byte_of (z : Z) : byte := default x00 (Byte.of_N (Z.to_N (z mod 256))).

Fixpoint le_bytes (n : nat) (z : Z) : list byte :=
  match n with
  | O => []
  | S n' => byte_of z :: le_bytes n' (z / 256)
  end.

Fixpoint le_value (bs : list byte) : Z :=
  match bs with
  | [] => 0
  | b :: bs' => byte_val b + 256 * le_value bs'
  end.

Definition be_bytes (n : nat) (z : Z) : list byte := rev (le_bytes n z).
Definition be_value (bs : list byte) : Z := le_value (rev bs).

Lemma byte_val_range b : 0 <= byte_val b < 256.
Proof.
  unfold byte_val. pose proof (Byte.to_N_bounded b) as H. lia.
Qed.

Lemma byte_val_of z : byte_val (byte_of z) = z mod 256.
Proof.
  unfold byte_val, byte_of.
  pose proof (Z.mod_pos_bound z 256 ltac:(lia)) as Hr.
  destruct (Byte.of_N (Z.to_N (z mod 256))) as [b|] eqn:E; simpl.
  - apply Byte.to_of_N in E. rewrite E. lia.
  - apply Byte.of_N_None_iff in E. lia.
Qed.

Lemma byte_of_val b : byte_of (byte_val b) = b.
Proof.
  unfold byte_of. rewrite Z.mod_small by apply byte_val_range.
  unfold byte_val. rewrite N2Z.id, Byte.of_to_N. done.
Qed.

Lemma length_le_bytes n z : length (le_bytes n z) = n.
Proof. revert z; induction n as [|n IH]; intros z; simpl; [done | by rewrite IH]. Qed.

Lemma length_be_bytes n z : length (be_bytes n z) = n.
Proof. unfold be_bytes. rewrite length_rev. apply length_le_bytes. Qed.

Lemma le_value_bytes n z : le_value (le_bytes n z) = z mod 256 ^ Z.of_nat n.
Proof.
  revert z; induction n as [|n IH]; intros z; cbn [le_bytes le_value].
  - by rewrite Z.mod_1_r.
  - rewrite IH, byte_val_of, Nat2Z.inj_succ, Z.pow_succ_r by lia.
    rewrite Z.rem_mul_r by lia. lia.
Qed.

Lemma le_value_bound bs : 0 <= le_value bs < 256 ^ Z.of_nat (length bs).
Proof.
  induction bs as [|b bs IH]; cbn [le_value length]; [lia|].
  pose proof (byte_val_range b).
  rewrite Nat2Z.inj_succ, Z.pow_succ_r by lia. lia.
Qed.

Lemma le_bytes_value bs : le_bytes (length bs) (le_value bs) = bs.
Proof.
  induction bs as [|b bs IH]; cbn [le_value length le_bytes]; [done|].
  pose proof (byte_val_range b) as Hb. f_equal.
  - rewrite <- (byte_of_val b) at 2. unfold byte_of.
    by rewrite (Z.mul_comm 256), Z.mod_add by lia.
  - rewrite (Z.mul_comm 256), Z.div_add, (Z.div_small (byte_val b)) by lia. apply IH.
Qed.

Lemma be_value_bytes n z : be_value (be_bytes n z) = z mod 256 ^ Z.of_nat n.
Proof. unfold be_value, be_bytes. rewrite rev_involutive. apply le_value_bytes. Qed.

Lemma be_value_bound bs : 0 <= be_value bs < 256 ^ Z.of_nat (length bs).
Proof. unfold be_value. rewrite <- (length_rev bs). apply le_value_bound. Qed.
End Bytes.

Create HintDb don.
#[export] Hint Rewrite length_le_bytes length_be_bytes : don.
#[export] Hint Rewrite @length_app @length_take @length_drop @length_replicate : don.
#[export] Hint Resolve byte_val_range le_value_bound be_value_bound : don.

(** ** Slices

    [slice::chunks], [copy_from_slice] into a range, indexed writes and
    [&s[n..]], with the panics of their bounds checks. *)
Section Slices.
Context {A : Type}.

Fixpoint chunks_fuel (fuel n : nat) (l : list A) : list (list A) :=
  match fuel, l with
  | O, _ | _, [] => []
  | S f, _ => take n l :: chunks_fuel f n (drop n l)
  end.
Definition chunks (n : nat) (l : list A) : list (list A) := chunks_fuel (length l) n l.

Definition copy_at (buf : list A) (off : nat) (src : list A) : Result (list A) :=
  if (off + length src <=? length buf)%nat
  then Ok (take off buf ++ src ++ drop (off + length src) buf)
  else Err (Panic "range end index out of range").

Definition write_at (buf : list A) (off : nat) (x : A) : Result (list A) :=
  if (off <? length buf)%nat then Ok (<[off:=x]> buf)
  else Err (Panic "index out of bounds").

Definition slice_from (n : nat) (l : list A) : Result (list A) :=
  if (n <=? length l)%nat then Ok (drop n l)
  else Err (Panic "range start index out of range").

Lemma chunks_fuel_ge n l f :
  (0 < n)%nat -> (length l <= f)%nat -> chunks_fuel f n l = chunks n l.
Proof.
  intros Hn. unfold chunks.
  assert (Hgen : forall k l f, (length l <= k)%nat -> (length l <= f)%nat ->
    chunks_fuel f n l = chunks_fuel k n l).
  { clear l f. intros k. induction k as [|k IH]; intros l f Hk Hf.
    - destruct l; simpl in Hk; [|lia]. by destruct f.
    - destruct f as [|f]; [destruct l; simpl in Hf; [done|lia]|].
      destruct l as [|x l]; [done|]. simpl. f_equal. apply IH;
      rewrite length_drop; simpl in *; lia. }
  intros Hf. apply Hgen; [done | lia].
Qed.

Lemma chunks_nil n : chunks n (@nil A) = [].
Proof. done. Qed.

Lemma chunks_cons n l :
  (0 < n)%nat -> l <> [] -> chunks n l = take n l :: chunks n (drop n l).
Proof.
  intros Hn Hl. destruct l as [|x l]; [done|].
  unfold chunks at 1. simpl. f_equal. apply chunks_fuel_ge; [done|].
  rewrite length_drop; simpl; lia.
Qed.

(** Induction on a list by whole chunks. *)
Lemma chunk_ind n (Hn : (0 < n)%nat) (P : list A -> Prop) :
  P [] -> (forall l, l <> [] -> P (drop n l) -> P l) -> forall l, P l.
Proof.
  intros H0 Hs l. induction l as [l IH] using (induction_ltof1 _ (@length A)).
  destruct (decide (l = [])) as [->|Hl]; [done|].
  apply Hs; [done|]. apply IH. unfold ltof. rewrite length_drop.
  destruct l; simpl in *; [done|lia].
Qed.

Lemma chunks_length_le n l c : (0 < n)%nat -> c ∈ chunks n l -> (0 < length c <= n)%nat.
Proof.
  intros Hn. revert c. induction l as [|l Hl IH] using (chunk_ind n Hn); [inversion 1|].
  intros c. rewrite chunks_cons by done. rewrite elem_of_cons. intros [->|Hc]; [|auto].
  rewrite length_take. destruct l; simpl; [done|lia].
Qed.

Lemma concat_chunks n l : (0 < n)%nat -> concat (chunks n l) = l.
Proof.
  intros Hn. induction l as [|l Hl IH] using (chunk_ind n Hn); [done|].
  rewrite chunks_cons by done. simpl. rewrite IH. apply take_drop.
Qed.

Lemma chunks_concat n (ls : list (list A)) :
  (0 < n)%nat -> Forall (fun c => length c = n) ls -> chunks n (concat ls) = ls.
Proof.
  intros Hn. induction 1 as [|c ls Hc _ IH]; [done|]. simpl.
  rewrite chunks_cons by (done || (destruct c; simpl in *; [lia|done])).
  rewrite take_app_length', drop_app_length' by done. by rewrite IH.
Qed.

Lemma length_chunks n l :
  (0 < n)%nat -> length (chunks n l) = ((length l + (n - 1)) / n)%nat.
Proof.
  intros Hn. induction l as [|l Hl IH] using (chunk_ind n Hn).
  - simpl. symmetry. apply Nat.div_small. lia.
  - rewrite chunks_cons by done. simpl. rewrite IH, length_drop.
    assert (0 < length l)%nat by (destruct l; simpl; [done|lia]).
    destruct (Nat.le_gt_cases n (length l)).
    + replace (length l + (n - 1))%nat with ((length l - n + (n - 1)) + 1 * n)%nat by lia.
      rewrite Nat.div_add by lia. lia.
    + replace (length l - n)%nat with 0%nat by lia.
      rewrite (Nat.div_small (0 + _)) by lia.
      replace (length l + (n - 1))%nat with ((length l - 1) + 1 * n)%nat by lia.
      rewrite Nat.div_add, Nat.div_small by lia. lia.
Qed.
End Slices.

(** ** Strings *)

(** [str::strip_prefix] *)
Fixpoint strip_prefix (p s : string) : option string :=
  match p, s with
  | EmptyString, _ => Some s
  | String a p', String b s' => if decide (a = b) then strip_prefix p' s' else None
  | _, EmptyString => None
  end.

Lemma strip_prefix_app p s : strip_prefix p (p +:+ s) = Some s.
Proof. induction p as [|a p IH]; simpl; [done|]. by rewrite decide_True. Qed.

(** ** Effects

    Code that mutates a store and may fail part-way: the store survives a
    failure, so the outcome is a result together with the store reached.
    [let! x := c in k] and [c1 ;! c2] sequence; [?] and early [return Err]
    are the failing branch of a bind. *)
Definition eff (S A : Type) : Type := S -> Result A * S.

Section Effects.
Context {S : Type}.

Definition eret {A} (a : A) : eff S A := fun s => (Ok a, s).
Definition ethrow {A} (e : failure) : eff S A := fun s => (Err e, s).
Definition elift {A} (c : Result A) : eff S A := fun s => (c, s).
Definition eget : eff S S := fun s => (Ok s, s).
Definition eput (s : S) : eff S unit := fun _ => (Ok tt, s).
Definition eread {A} (f : S -> Result A) : eff S A := fun s => (f s, s).
Definition ebind {A B} (c : eff S A) (k : A -> eff S B) : eff S B :=
  fun s => match c s with
           | (Ok a, s') => k a s'
           | (Err e, s') => (Err e, s')
           end.

(** [match c { Ok(..), Err(..) }]: a panic is not caught. *)
Definition etry {A} (c : eff S A) : eff S (result string A) := fun s =>
  match c s with
  | (Ok a, s') => (Ok (Ok a), s')
  | (Err (Fail m), s') => (Ok (Err m), s')
  | (Err (Panic m), s') => (Err (Panic m), s')
  end.

(** A [Drop] that runs however the scope is left. *)
Definition efinally {A} (c : eff S A) (drop : S -> S) : eff S A := fun s =>
  let '(r, s') := c s in (r, drop s').

(** A [for] loop threading a local accumulator. *)
Fixpoint efold {A B} (f : B -> A -> eff S B) (b : B) (l : list A) : eff S B :=
  match l with
  | [] => eret b
  | a :: l' => ebind (f b a) (fun b' => efold f b' l')
  end.
End Effects.

Declare Scope eff_scope.
Delimit Scope eff_scope with eff.
Notation "'let!' x := c 'in' k" := (ebind c (fun x => k))
  (at level 10, x pattern, c at level 200, k at level 200) : eff_scope.
Notation "c1 ;! c2" := (ebind c1 (fun _ => c2))
  (at level 100, right associativity) : eff_scope.
Open Scope eff_scope.

(** Weakest preconditions: [wp c Q E s] says that running [c] from [s]
    establishes [Q] if it returns and [E] if it fails. *)
Definition wp {S A} (c : eff S A) (Q : A -> S -> Prop) (E : failure -> S -> Prop) (s : S) : Prop :=
  match c s with
  | (Ok a, s') => Q a s'
  | (Err e, s') => E e s'
  end.

Section WeakestPreconditions.
Context {S : Type}.
Implicit Types s : S.

Lemma wp_ret {A} (a : A) Q E s : Q a s -> wp (eret a) Q E s.
Proof. done. Qed.

Lemma wp_bind {A B} (c : eff S A) (k : A -> eff S B) Q E s :
  wp c (fun a => wp (k a) Q E) E s -> wp (ebind c k) Q E s.
Proof. unfold wp, ebind. by destruct (c s) as [[a|e] s']. Qed.

Lemma wp_lift {A} (c : Result A) Q E s :
  (forall a, c = Ok a -> Q a s) -> (forall e, c = Err e -> E e s) -> wp (elift c) Q E s.
Proof. unfold wp, elift. destruct c; auto. Qed.

Lemma wp_Ok {A B} (c : Result B) b (k : B -> eff S A) Q E s :
  c = Ok b -> wp (k b) Q E s -> wp (ebind (elift c) k) Q E s.
Proof. by intros ->. Qed.

Lemma wp_Err {A B} (c : Result B) e (k : B -> eff S A) (Q : A -> S -> Prop) (E : failure -> S -> Prop) s :
  c = Err e -> E e s -> wp (ebind (elift c) k) Q E s.
Proof. by intros ->. Qed.

Lemma wp_get {A} (k : S -> eff S A) Q E s : wp (k s) Q E s -> wp (ebind eget k) Q E s.
Proof. done. Qed.

Lemma wp_put {A} s' (k : unit -> eff S A) Q E s : wp (k tt) Q E s' -> wp (ebind (eput s') k) Q E s.
Proof. done. Qed.

Lemma wp_mono {A} (c : eff S A) (Q Q' : A -> S -> Prop) (E E' : failure -> S -> Prop) s :
  wp c Q E s -> (forall a s', Q a s' -> Q' a s') -> (forall e s', E e s' -> E' e s') ->
  wp c Q' E' s.
Proof. unfold wp. destruct (c s) as [[a|e] s']; auto. Qed.

Lemma wp_try {A} (c : eff S A) (Q : result string A -> S -> Prop) E s :
  wp c (fun a => Q (Ok a))
    (fun f s => match f with Fail m => Q (Err m) s | Panic m => E (Panic m) s end) s ->
  wp (etry c) Q E s.
Proof. unfold wp, etry. by destruct (c s) as [[a|[m|m]] s']. Qed.

Lemma wp_finally {A} (c : eff S A) (drop : S -> S) (Q : A -> S -> Prop) (E : failure -> S -> Prop) s :
  wp c (fun a s => Q a (drop s)) (fun f s => E f (drop s)) s -> wp (efinally c drop) Q E s.
Proof. unfold wp, efinally. by destruct (c s) as [[a|e] s']. Qed.

Lemma wp_always {A} (c : eff S A) (P : S -> Prop) s r s' :
  wp c (fun _ => P) (fun _ => P) s -> c s = (r, s') -> P s'.
Proof. unfold wp. intros H Hc. rewrite Hc in H. by destruct r. Qed.

Lemma wp_conj {A} (c : eff S A) (Q Q' : A -> S -> Prop) (E E' : failure -> S -> Prop) s :
  wp c Q E s -> wp c Q' E' s ->
  wp c (fun a s => Q a s /\ Q' a s) (fun e s => E e s /\ E' e s) s.
Proof. unfold wp. destruct (c s) as [[a|e] s']; auto. Qed.

Lemma wp_run {A} (c : eff S A) (Q : A -> S -> Prop) E s a s' :
  wp c Q E s -> c s = (Ok a, s') -> Q a s'.
Proof. unfold wp. intros H Hc. by rewrite Hc in H. Qed.

Lemma wp_of_run {A} (c : eff S A) (Q : A -> S -> Prop) (E : failure -> S -> Prop) s :
  (forall a s', c s = (Ok a, s') -> Q a s') ->
  (forall e s', c s = (Err e, s') -> E e s') -> wp c Q E s.
Proof. unfold wp. destruct (c s) as [[a|e] s']; eauto. Qed.

(** The loop rule: an invariant indexed by what has been consumed; the body may
    use that the element comes from the list. *)
Lemma wp_fold_in {A B} (f : B -> A -> eff S B) (I : list A -> B -> S -> Prop) E b l s :
  I [] b s ->
  (forall pre a post b s, l = pre ++ a :: post -> I pre b s ->
     wp (f b a) (fun b' => I (pre ++ [a]) b') E s) ->
  wp (efold f b l) (I l) E s.
Proof.
  intros H0 Hs.
  assert (Hgen : forall l' pre b s, l = pre ++ l' -> I pre b s -> wp (efold f b l') (I l) E s).
  { clear H0. intros l'. induction l' as [|a l' IH]; intros pre b' s' Heq HI.
    - apply wp_ret. rewrite app_nil_r in Heq. by subst.
    - apply wp_bind. eapply wp_mono; [by apply (Hs pre a l') | | done].
      intros b'' s'' HI'. apply (IH (pre ++ [a])); [|done]. by rewrite <- (assoc_L (++)). }
  by apply (Hgen l []).
Qed.

Lemma wp_fold {A B} (f : B -> A -> eff S B) (I : list A -> B -> S -> Prop) E b l s :
  I [] b s ->
  (forall pre a b s, I pre b s -> wp (f b a) (fun b' => I (pre ++ [a]) b') E s) ->
  wp (efold f b l) (I l) E s.
Proof. intros H0 Hs. apply wp_fold_in; auto. Qed.
End WeakestPreconditions.

(** ** Preservation

    [preserves P c]: however [c] ends, it leaves [P] as it was. *)
Definition preserves {S A} (P : S -> Prop) (c : eff S A) : Prop :=
  forall s, P s -> wp c (fun _ => P) (fun _ => P) s.

Section Preservation.
Context {S : Type} (P : S -> Prop).

Lemma preserves_ret {A} (a : A) : preserves P (eret a).
Proof. by intros s. Qed.
Lemma preserves_throw {A} e : preserves P (@ethrow S A e).
Proof. by intros s. Qed.
Lemma preserves_lift {A} (c : Result A) : preserves P (elift c).
Proof. intros s Hs. by apply wp_lift. Qed.
Lemma preserves_get : preserves P eget.
Proof. by intros s. Qed.
Lemma preserves_read {A} (f : S -> Result A) : preserves P (eread f).
Proof. intros s Hs. unfold wp, eread. by destruct (f s). Qed.
Lemma preserves_bind {A B} (c : eff S A) (k : A -> eff S B) :
  preserves P c -> (forall a, preserves P (k a)) -> preserves P (ebind c k).
Proof.
  intros Hc Hk s Hs. apply wp_bind. eapply wp_mono; [by apply Hc|by intros; apply Hk|done].
Qed.
Lemma preserves_lift_bind {A B} (c : Result A) (k : A -> eff S B) :
  (forall a, c = Ok a -> preserves P (k a)) -> preserves P (ebind (elift c) k).
Proof. intros Hk s Hs. apply wp_bind, wp_lift; [|done]. intros a Ha. by apply Hk. Qed.
Lemma preserves_try {A} (c : eff S A) : preserves P c -> preserves P (etry c).
Proof. intros Hc s Hs. apply wp_try. eapply wp_mono; [by apply Hc|done|by intros []]. Qed.
Lemma preserves_finally {A} (c : eff S A) (drop : S -> S) :
  preserves P c -> (forall s, P s -> P (drop s)) -> preserves P (efinally c drop).
Proof. intros Hc Hd s Hs. apply wp_finally. eapply wp_mono; [by apply Hc|auto..]. Qed.
Lemma preserves_fold {A B} (f : B -> A -> eff S B) b l :
  (forall b a, preserves P (f b a)) -> preserves P (efold f b l).
Proof.
  intros Hf. revert b. induction l as [|a l IH]; intros b; [apply preserves_ret|].
  apply preserves_bind; auto.
Qed.
End Preservation.

#[export] Hint Resolve preserves_ret preserves_throw preserves_lift preserves_get preserves_read
  preserves_try : don.

(** Walk through a program, splitting its branches. *)
Ltac keeps :=
  repeat first
    [ progress intros
    | solve [auto with don nocore]
    | apply preserves_bind | apply preserves_try | apply preserves_fold
    | case_match ].
