(* ===== verification/Blob.v ===== *)
(** * The simple blob coding scheme (libs/payload/src/blob.rs)

    One EIP-4844 blob is 4096 field elements of 32 bytes. The first element
    carries the payload length, each further one a zero byte and 31 bytes of
    data. [encode_simple_blob] is the source's buffer-filling loop;
    [blob_layout] is the layout its comment describes, as a reference. *)

From S2P Require Import Prelude.

Module Blob.
Local Open Scope Z_scope.

(** ** Definitions *)

(** [alloy]'s constant: the byte width of an EIP-4844 field element. *)
Definition FIELD_ELEMENT_BYTES_USIZE : Z := 32.

Definition SIMPLE_BLOB_BYTES : Z := 4096 * FIELD_ELEMENT_BYTES_USIZE.
Definition MAX_SIMPLE_BLOB_PAYLOAD_BYTES : Z := (4096 - 1) * (FIELD_ELEMENT_BYTES_USIZE - 1).

Definition decode_simple_blob (blob_bytes : list byte) : Result (list byte) :=
  let len := Z.of_nat (length blob_bytes) in
  if len <? 9 then
    Err (Fail ("Invalid blob length " +:+ pretty len +:+ "; expected at least 9 bytes"))
  else if negb (len mod FIELD_ELEMENT_BYTES_USIZE =? 0) then
    Err (Fail ("Invalid blob length " +:+ pretty len +:+ "; expected multiple of "
               +:+ pretty FIELD_ELEMENT_BYTES_USIZE))
  else
    let data_len := be_value (take 8 (drop 1 blob_bytes)) in
    let field_elements := len / FIELD_ELEMENT_BYTES_USIZE in
    if field_elements <? 1 then Err (Fail ("Invalid blob length " +:+ pretty len))
    else
      let max_data_len := (field_elements - 1) * (FIELD_ELEMENT_BYTES_USIZE - 1) in
      if data_len >? max_data_len then
        Err (Fail ("Given blob of length " +:+ pretty len +:+ " cannot accommodate "
                   +:+ pretty data_len +:+ " bytes"))
      else
        let? parts := try_map (slice_from 1)
                        (drop 1 (chunks (Z.to_nat FIELD_ELEMENT_BYTES_USIZE) blob_bytes)) in
        Ok (take (Z.to_nat data_len) (concat parts)).

(** The body of the encoder's loop: chunk [i] goes behind the zero byte of
    field element [i + 1]. *)
Definition write_chunk (blob : list byte) (ic : nat * list byte) : Result (list byte) :=
  let '(i, chunk) := ic in
  let offset := ((i + 1) * Z.to_nat FIELD_ELEMENT_BYTES_USIZE)%nat in
  let? blob := write_at blob offset x00 in
  copy_at blob (offset + 1) chunk.

Definition encode_simple_blob (data : list byte) : Result (list byte) :=
  let len := Z.of_nat (length data) in
  if len >? MAX_SIMPLE_BLOB_PAYLOAD_BYTES then
    Err (Fail ("Payload length " +:+ pretty len +:+ " exceeds simple-blob maximum "
               +:+ pretty MAX_SIMPLE_BLOB_PAYLOAD_BYTES))
  else
    let blob := replicate (Z.to_nat SIMPLE_BLOB_BYTES) x00 in
    let? blob := copy_at blob 1 (be_bytes 8 (as_u64 len)) in
    try_fold write_chunk blob
      (imap pair (chunks (Z.to_nat (FIELD_ELEMENT_BYTES_USIZE - 1)) data)).

(** ** The reference layout *)

Definition header_element (len : Z) : list byte := x00 :: be_bytes 8 len ++ replicate 23 x00.
Definition data_element (c : list byte) : list byte :=
  x00 :: c ++ replicate (31 - length c) x00.
Definition blob_elements (data : list byte) : list (list byte) :=
  header_element (Z.of_nat (length data)) :: map data_element (chunks 31 data).
Definition blob_layout (data : list byte) : list byte :=
  concat (blob_elements data)
  ++ replicate (Z.to_nat SIMPLE_BLOB_BYTES - length (concat (blob_elements data))) x00.

(** ** Lemmas *)

Lemma blob_size : Z.of_nat (Z.to_nat SIMPLE_BLOB_BYTES) = 131072.
Proof. rewrite Z2Nat.id; [done | discriminate]. Qed.

Lemma copy_at_zeros (pre src : list byte) n k :
  (k + length src <= n)%nat ->
  copy_at (pre ++ replicate n x00) (length pre + k) src
  = Ok ((pre ++ replicate k x00 ++ src) ++ replicate (n - (k + length src)) x00).
Proof.
  intros Hn. unfold copy_at. rewrite length_app, length_replicate.
  destruct (Nat.leb_spec (length pre + k + length src) (length pre + n)); [|lia].
  f_equal. rewrite take_app_add, drop_app_ge by lia.
  replace (length pre + k + length src - length pre)%nat with (k + length src)%nat by lia.
  rewrite take_replicate, drop_replicate, <- !(assoc_L (++)).
  by replace (k `min` n)%nat with k by lia.
Qed.

(** The header write: the length field after one zero byte. *)
Lemma copy_header z n :
  (32 <= n)%nat ->
  copy_at (replicate n x00) 1 (be_bytes 8 z) = Ok (header_element z ++ replicate (n - 32) x00).
Proof.
  intros Hn. etrans; [apply (copy_at_zeros [] (be_bytes 8 z) n 1); rewrite length_be_bytes; lia|].
  rewrite length_be_bytes. f_equal. unfold header_element.
  change (replicate 1 x00) with [x00]. cbn [app]. f_equal.
  rewrite <- (assoc_L (++)). f_equal. rewrite <- replicate_add. f_equal. lia.
Qed.

Lemma write_at_zeros (pre : list byte) n :
  (0 < n)%nat ->
  write_at (pre ++ replicate n x00) (length pre) x00 = Ok (pre ++ replicate n x00).
Proof.
  intros Hn. unfold write_at. rewrite length_app, length_replicate.
  destruct (Nat.ltb_spec (length pre) (length pre + n)); [|lia].
  f_equal. apply list_insert_id. rewrite lookup_app_r, Nat.sub_diag by lia.
  by apply lookup_replicate_2.
Qed.

Lemma length_data_element c : (length c <= 31)%nat -> length (data_element c) = 32%nat.
Proof. intros. unfold data_element. simpl. autorewrite with don. lia. Qed.

Lemma length_header_element z : length (header_element z) = 32%nat.
Proof. unfold header_element. simpl. by autorewrite with don. Qed.

(** Writing one chunk extends the filled prefix by one field element. *)
Lemma write_chunk_spec pre (i n : nat) c :
  length pre = ((i + 1) * 32)%nat -> (length c <= 31)%nat -> (32 <= n)%nat ->
  write_chunk (pre ++ replicate n x00) (i, c)
  = Ok ((pre ++ data_element c) ++ replicate (n - 32) x00).
Proof.
  intros Hp Hc Hn. unfold write_chunk, FIELD_ELEMENT_BYTES_USIZE.
  change (Z.to_nat 32) with 32%nat. rewrite <- Hp.
  rewrite write_at_zeros by lia. cbn [rbind].
  rewrite copy_at_zeros by lia. f_equal. unfold data_element.
  rewrite <- !(assoc_L (++)). f_equal. simpl. f_equal. rewrite <- (assoc_L (++)). f_equal.
  rewrite <- replicate_add. f_equal. lia.
Qed.

Lemma write_chunks_spec cs pre (i n : nat) :
  length pre = ((i + 1) * 32)%nat -> Forall (fun c => (length c <= 31)%nat) cs ->
  (length cs * 32 <= n)%nat ->
  try_fold write_chunk (pre ++ replicate n x00) (imap (fun j c => (i + j, c)%nat) cs)
  = Ok ((pre ++ concat (map data_element cs)) ++ replicate (n - length cs * 32) x00).
Proof.
  revert pre i n. induction cs as [|c cs IH]; intros pre i n Hp Hc Hn.
  - simpl. by rewrite app_nil_r, Nat.sub_0_r.
  - inversion Hc; subst. cbn [imap try_fold length] in *. rewrite Nat.add_0_r.
    rewrite write_chunk_spec by (done || lia). cbn [rbind].
    assert (Hf : imap ((fun j c => (i + j, c)%nat) ∘ S) cs = imap (fun j c => (S i + j, c)%nat) cs).
    { apply imap_ext. intros j x _. simpl. f_equal; lia. }
    rewrite Hf, IH; [| |done|lia].
    + cbn [map concat]. rewrite !(assoc_L (++)). do 3 f_equal. lia.
    + rewrite length_app, length_data_element by lia. lia.
Qed.

Lemma length_concat_const {A} (n : nat) (ls : list (list A)) :
  Forall (fun c => length c = n) ls -> length (concat ls) = (length ls * n)%nat.
Proof. induction 1 as [|c ls Hc _ IH]; simpl; [done|]. rewrite length_app. lia. Qed.

Lemma blob_elements_length data : Forall (fun e => length e = 32%nat) (blob_elements data).
Proof.
  constructor; [apply length_header_element|].
  apply Forall_forall. intros e (c & -> & Hc)%list_elem_of_fmap.
  apply length_data_element. apply (chunks_length_le 31) in Hc; lia.
Qed.

Definition fits (data : list byte) : Prop :=
  Z.of_nat (length data) <= MAX_SIMPLE_BLOB_PAYLOAD_BYTES.

Lemma fits_chunks data : fits data -> (length (chunks 31 data) <= 4095)%nat.
Proof.
  unfold fits, MAX_SIMPLE_BLOB_PAYLOAD_BYTES, FIELD_ELEMENT_BYTES_USIZE. intros H.
  rewrite length_chunks by lia. apply Nat.lt_succ_r, Nat.Div0.div_lt_upper_bound. lia.
Qed.

Lemma fits_u64 data : fits data -> as_u64 (Z.of_nat (length data)) = Z.of_nat (length data).
Proof.
  unfold fits, MAX_SIMPLE_BLOB_PAYLOAD_BYTES, FIELD_ELEMENT_BYTES_USIZE. intros H.
  apply as_u64_id. lia.
Qed.

(** The loop fills the buffer with the reference layout. *)
Lemma encode_eq_layout data : fits data -> encode_simple_blob data = Ok (blob_layout data).
Proof.
  intros Hf. pose proof (fits_chunks _ Hf) as Hc. unfold encode_simple_blob.
  destruct (Z.of_nat (length data) >? MAX_SIMPLE_BLOB_PAYLOAD_BYTES) eqn:E.
  { unfold fits in Hf. lia. }
  rewrite fits_u64 by done.
  rewrite copy_header by (pose proof blob_size; lia). cbn [rbind].
  change (Z.to_nat (FIELD_ELEMENT_BYTES_USIZE - 1)) with 31%nat.
  rewrite (write_chunks_spec (chunks 31 data) _ 0).
  - unfold blob_layout. cbn [blob_elements concat]. do 2 f_equal. f_equal.
    rewrite length_app, length_header_element, (length_concat_const 32), length_map; [lia|].
    pose proof (blob_elements_length data) as Hl. by inversion Hl.
  - apply length_header_element.
  - apply Forall_forall. intros c Hin%(chunks_length_le 31); lia.
  - pose proof blob_size. lia.
Qed.

Lemma layout_elements data :
  fits data ->
  blob_layout data
  = concat (blob_elements data
            ++ replicate (4095 - length (chunks 31 data)) (replicate 32 x00)).
Proof.
  intros Hf%fits_chunks. unfold blob_layout. rewrite concat_app. f_equal.
  rewrite (length_concat_const 32) by apply blob_elements_length.
  unfold blob_elements at 1. cbn [length]. rewrite length_map.
  generalize dependent (length (chunks 31 data)). intros k Hk.
  assert (Hr : forall m, concat (replicate m (replicate 32 x00)) = replicate (m * 32) x00).
  { intros m. induction m as [|m IH]; [done|]. rewrite replicate_S. cbn [concat].
    rewrite IH, <- replicate_add. f_equal. }
  rewrite Hr. f_equal. pose proof blob_size. lia.
Qed.

Lemma layout_length data : fits data -> Z.of_nat (length (blob_layout data)) = SIMPLE_BLOB_BYTES.
Proof.
  intros Hf. pose proof (fits_chunks _ Hf) as Hc. unfold blob_layout.
  rewrite length_app, length_replicate, (length_concat_const 32) by apply blob_elements_length.
  unfold blob_elements. cbn [length]. rewrite length_map.
  change SIMPLE_BLOB_BYTES with 131072 at 2. pose proof blob_size. lia.
Qed.

Lemma chunks_layout data :
  fits data ->
  chunks 32 (blob_layout data)
  = blob_elements data ++ replicate (4095 - length (chunks 31 data)) (replicate 32 x00).
Proof.
  intros Hf. rewrite layout_elements by done. apply chunks_concat; [lia|].
  apply Forall_app; split; [apply blob_elements_length|].
  apply Forall_replicate. by rewrite length_replicate.
Qed.

Lemma drop_data_element c : drop 1 (data_element c) = c ++ replicate (31 - length c) x00.
Proof. done. Qed.

(** Concatenating the data parts of the elements gives the data and padding. *)
Lemma concat_data_parts data :
  exists k, concat (map (drop 1) (map data_element (chunks 31 data))) = data ++ replicate k x00.
Proof.
  induction data as [|l Hl (k & IH)] using (chunk_ind 31 ltac:(lia)); [by exists 0%nat|].
  rewrite chunks_cons by (done || lia). cbn [map concat]. rewrite IH.
  rewrite drop_data_element, length_take.
  destruct (Nat.le_gt_cases 31 (length l)) as [Hle|Hgt].
  - exists k. replace (31 - (31 `min` length l))%nat with 0%nat by lia. simpl.
    rewrite app_nil_r, (assoc_L (++)). by rewrite take_drop.
  - exists (31 - length l + k)%nat. rewrite take_ge, drop_ge by lia.
    rewrite Nat.min_r, <- (assoc_L (++)) by lia. simpl. by rewrite replicate_add.
Qed.

Lemma decode_layout data : fits data -> decode_simple_blob (blob_layout data) = Ok data.
Proof.
  intros Hf. unfold decode_simple_blob. rewrite layout_length by done.
  cbn [SIMPLE_BLOB_BYTES]. change (SIMPLE_BLOB_BYTES <? 9) with false. cbn [negb].
  change (SIMPLE_BLOB_BYTES mod FIELD_ELEMENT_BYTES_USIZE =? 0) with true. cbn [negb].
  change (SIMPLE_BLOB_BYTES / FIELD_ELEMENT_BYTES_USIZE) with 4096.
  change (4096 <? 1) with false.
  assert (Hlen : be_value (take 8 (drop 1 (blob_layout data))) = Z.of_nat (length data)).
  { assert (Hd : exists r, drop 1 (blob_layout data) = be_bytes 8 (Z.of_nat (length data)) ++ r).
    { unfold blob_layout, blob_elements, header_element. eexists. cbn [concat].
      rewrite <- !app_comm_cons, <- !(assoc_L (++)). reflexivity. }
    destruct Hd as [r ->]. rewrite take_app_length' by (symmetry; apply length_be_bytes).
    rewrite be_value_bytes, Z.mod_small; [done|].
    unfold fits, MAX_SIMPLE_BLOB_PAYLOAD_BYTES, FIELD_ELEMENT_BYTES_USIZE in Hf. lia. }
  rewrite Hlen.
  change ((4096 - 1) * (FIELD_ELEMENT_BYTES_USIZE - 1)) with MAX_SIMPLE_BLOB_PAYLOAD_BYTES.
  destruct (Z.of_nat (length data) >? MAX_SIMPLE_BLOB_PAYLOAD_BYTES) eqn:E.
  { unfold fits in Hf. lia. }
  change (Z.to_nat FIELD_ELEMENT_BYTES_USIZE) with 32%nat. rewrite chunks_layout by done.
  change (drop 1 (blob_elements data ++ ?r)) with (map data_element (chunks 31 data) ++ r).
  rewrite (try_map_pure _ (drop 1)).
  - cbn [rbind]. rewrite map_app, concat_app, Nat2Z.id.
    destruct (concat_data_parts data) as [k ->].
    by rewrite <- (assoc_L (++)), take_app_length.
  - intros e He. unfold slice_from.
    assert (Hl : length e = 32%nat).
    { apply elem_of_app in He as [(c & -> & Hc)%list_elem_of_fmap|He].
      - apply length_data_element. apply (chunks_length_le 31) in Hc; lia.
      - apply elem_of_replicate_inv in He as ->. by rewrite length_replicate. }
    by rewrite Hl.
Qed.

(** Which inputs [decode_simple_blob] refuses, and that nothing else goes wrong. *)
Lemma chunks_of_elements (blob : list byte) :
  Z.of_nat (length blob) mod 32 = 0 -> Forall (fun c => length c = 32%nat) (chunks 32 blob).
Proof.
  induction blob as [|l Hl IH] using (chunk_ind 32 ltac:(lia)); intros Hm; [constructor|].
  rewrite chunks_cons by (done || lia).
  assert (Hge : (32 <= length l)%nat).
  { destruct (Nat.le_gt_cases 32 (length l)); [done|].
    rewrite Z.mod_small in Hm by lia. destruct l; simpl in *; [done|lia]. }
  constructor; [rewrite length_take; lia|].
  apply IH. rewrite length_drop, Nat2Z.inj_sub by lia.
  rewrite <- (Z.mod_add _ 1) by lia.
  replace (Z.of_nat (length l) - Z.of_nat 32 + 1 * 32) with (Z.of_nat (length l)) by lia. done.
Qed.

Lemma length_data_parts (blob : list byte) :
  Z.of_nat (length blob) mod 32 = 0 ->
  Z.of_nat (length (concat (map (drop 1) (drop 1 (chunks 32 blob)))))
  = (Z.of_nat (length blob) / 32 - 1) `max` 0 * 31.
Proof.
  intros Hm. pose proof (chunks_of_elements _ Hm) as Hc.
  assert (Hl : length blob = (length (chunks 32 blob) * 32)%nat).
  { rewrite <- (concat_chunks 32 blob) at 1 by lia. by apply length_concat_const. }
  rewrite (length_concat_const 31).
  2: { apply Forall_fmap, Forall_drop. eapply Forall_impl; [exact Hc|].
       intros c Hc'. simpl in Hc' |- *. rewrite length_drop, Hc'. done. }
  rewrite length_map, length_drop, Hl.
  replace (Z.of_nat (length (chunks 32 blob) * 32)) with (Z.of_nat (length (chunks 32 blob)) * 32)
    by lia.
  rewrite Z.div_mul by lia. lia.
Qed.

(** ** Properties *)

(** C31: every payload of at most [MAX_SIMPLE_BLOB_PAYLOAD_BYTES] bytes encodes,
    without panicking, to a blob of exactly [SIMPLE_BLOB_BYTES] bytes that
    decodes back to the payload; a longer payload is refused with an error. *)
Theorem simple_blob_roundtrip (data : list byte) :
  if Z.of_nat (length data) <=? MAX_SIMPLE_BLOB_PAYLOAD_BYTES
  then exists blob, encode_simple_blob data = Ok blob
         /\ Z.of_nat (length blob) = SIMPLE_BLOB_BYTES
         /\ decode_simple_blob blob = Ok data
  else exists msg, encode_simple_blob data = Err (Fail msg).
Proof.
  destruct (Z.leb_spec (Z.of_nat (length data)) MAX_SIMPLE_BLOB_PAYLOAD_BYTES) as [Hf|Hf].
  - exists (blob_layout data).
    split_and!; [by apply encode_eq_layout | by apply layout_length | by apply decode_layout].
  - unfold encode_simple_blob.
    destruct (Z.of_nat (length data) >? MAX_SIMPLE_BLOB_PAYLOAD_BYTES) eqn:E; [eauto | lia].
Qed.

(** Each of the 4096 field elements of an encoded blob, read as the
    big-endian integer EIP-4844 takes it for, is below [2^248], hence below the
    BLS scalar modulus: every blob the encoder produces is a valid blob. *)
Theorem encoded_elements_canonical (data blob : list byte) :
  encode_simple_blob data = Ok blob ->
  length (chunks 32 blob) = 4096%nat
  /\ Forall (fun e => length e = 32%nat /\ be_value e < 2 ^ 248) (chunks 32 blob).
Proof.
  intros He. assert (Hf : fits data).
  { unfold encode_simple_blob in He. unfold fits.
    destruct (Z.of_nat (length data) >? MAX_SIMPLE_BLOB_PAYLOAD_BYTES) eqn:E; [done|lia]. }
  rewrite encode_eq_layout in He by done. injection He as <-. rewrite chunks_layout by done.
  pose proof (fits_chunks _ Hf). split.
  { rewrite length_app, length_replicate. unfold blob_elements. simpl. rewrite length_map. lia. }
  assert (Hz : forall c, length c = 31%nat -> be_value (x00 :: c) < 2 ^ 248).
  { intros c Hc. unfold be_value. simpl.
    assert (Ha : forall l, le_value (l ++ [x00]) = le_value l).
    { induction l as [|b l IH]; simpl; [done|]. by rewrite IH. }
    rewrite Ha. change (2 ^ 248) with (256 ^ Z.of_nat 31). rewrite <- Hc, <- (length_rev c).
    apply le_value_bound. }
  apply Forall_app; split; [constructor|].
  - split; [apply length_header_element|]. apply Hz. by autorewrite with don.
  - apply Forall_forall. intros e (c & -> & Hc%(chunks_length_le 31))%list_elem_of_fmap; [|lia].
    split; [apply length_data_element; lia|]. apply Hz. autorewrite with don. lia.
  - apply Forall_replicate. split; [done|]. by apply (Hz (replicate 31 x00)).
Qed.

Lemma encoded_elements_canonical_witness :
  exists blob, encode_simple_blob [x01; xff] = Ok blob /\ length (chunks 32 blob) = 4096%nat.
Proof.
  assert (He : encode_simple_blob [x01; xff] = Ok (blob_layout [x01; xff])).
  { apply encode_eq_layout. unfold fits, MAX_SIMPLE_BLOB_PAYLOAD_BYTES, FIELD_ELEMENT_BYTES_USIZE.
    simpl. lia. }
  exists (blob_layout [x01; xff]). split; [exact He|].
  exact (proj1 (encoded_elements_canonical _ _ He)).
Defined.

(** [decode_simple_blob] never panics, whatever bytes the chain serves: it
    returns either an error, or exactly as many bytes as the length field of
    the first element says, which then fit the remaining elements. *)
Theorem decode_simple_blob_total (blob : list byte) :
  (exists msg, decode_simple_blob blob = Err (Fail msg))
  \/ (exists data, decode_simple_blob blob = Ok data
        /\ Z.of_nat (length data) = be_value (take 8 (drop 1 blob))
        /\ Z.of_nat (length data) <= (Z.of_nat (length blob) / 32 - 1) * 31).
Proof.
  unfold decode_simple_blob, FIELD_ELEMENT_BYTES_USIZE. change (Z.to_nat 32) with 32%nat.
  destruct (Z.ltb_spec (Z.of_nat (length blob)) 9); [eauto|].
  destruct (Z.eqb_spec (Z.of_nat (length blob) mod 32) 0) as [Hm|]; simpl; [|eauto].
  destruct (Z.ltb_spec (Z.of_nat (length blob) / 32) 1) as [|Hfe]; [eauto|].
  destruct (_ >? _) eqn:Hmax; [eauto|]. right.
  rewrite (try_map_pure _ (drop 1)).
  2: { intros c Hc. pose proof (Forall_drop _ 1 _ (chunks_of_elements _ Hm)) as Hl.
       rewrite Forall_forall in Hl. unfold slice_from. by rewrite (Hl _ Hc). }
  eexists; split; [done|].
  pose proof (length_data_parts _ Hm) as Hl. pose proof (be_value_bound (take 8 (drop 1 blob))).
  rewrite length_take. lia.
Qed.

End Blob.
