(* ===== verification/Pod2.v ===== *)
(** * The pod2, plonky2 and hex interfaces

    The proof system (pod2 and plonky2) is third-party code. What the
    repository takes from it is stated here once, as classes of operations and
    classes of the documented laws the repository relies on; every component
    that calls it is parametrised by the operations and only its theorems, not
    its definitions, use the laws.

    A pod2 [Value] compares and hashes by its raw four-limb form, so a [Value]
    is identified with that form ([Hash]): [Value::from(hash)] is the identity
    and [Value::from(container)] is the container's commitment. *)

From S2P Require Import Prelude.

(** ** Hashes *)

Record Hash : Type := MkHash { limb0 : Z; limb1 : Z; limb2 : Z; limb3 : Z }.
Abbreviation Value := Hash.

Definition limbs (h : Hash) : list Z := [limb0 h; limb1 h; limb2 h; limb3 h].
Definition EMPTY_HASH : Hash := MkHash 0 0 0 0.

#[export] Instance Hash_eq_dec : EqDecision Hash.
Proof. solve_decision. Defined.

#[export] Instance Hash_countable : Countable Hash.
Proof.
  apply (inj_countable' (fun h => (limb0 h, limb1 h, limb2 h, limb3 h))
           (fun '(a, b, c, d) => MkHash a b c d)).
  by intros [].
Defined.

#[export] Instance byte_eq_dec : EqDecision byte.
Proof. exact Byte.byte_eq_dec. Defined.

#[export] Instance byte_countable : Countable byte.
Proof.
  apply (inj_countable' Byte.to_N (fun n => default x00 (Byte.of_N n))).
  intros b. by rewrite Byte.of_to_N.
Defined.

(** ** Plonky2: field elements and proofs

    A field element [F] is the [u64] it wraps. *)
Class Plonky2 : Type := {
  ORDER : Z;
  to_canonical_u64 : Z -> Z;
  CompressedProof : Type;
  ProofWithPis : Type;
  CommonCircuitData : Type;
  VerifierCircuitData : Type;
  write_compressed_proof : CompressedProof -> list byte;
  (** The decoded proof and the reader's position after it. *)
  read_compressed_proof : CommonCircuitData -> list byte -> Result (CompressedProof * nat);
  decompress : CompressedProof -> list Z -> VerifierCircuitData -> CommonCircuitData ->
    Result ProofWithPis;
  verify : VerifierCircuitData -> ProofWithPis -> Result unit;
  (** The shape a proof of the given circuit has. *)
  proof_shape : CommonCircuitData -> CompressedProof -> Prop;
}.

Definition canonical `{Plonky2} (x : Z) : Prop := (0 <= x < ORDER)%Z.
Definition canonical_hash `{Plonky2} (h : Hash) : Prop := Forall canonical (limbs h).

Class Plonky2Laws `{Plonky2} : Prop := {
  ORDER_range : (0 < ORDER <= 2 ^ 64)%Z;
  to_canonical_id x : canonical x -> to_canonical_u64 x = x;
  (** Serialisation is self-delimiting on proofs of the circuit's shape. *)
  read_write_proof cd p rest :
    proof_shape cd p ->
    read_compressed_proof cd (write_compressed_proof p ++ rest)
    = Ok (p, length (write_compressed_proof p));
  read_proof_within cd bs p n :
    read_compressed_proof cd bs = Ok (p, n) -> (n <= length bs)%nat;
  read_proof_no_panic cd bs m : read_compressed_proof cd bs <> Err (Panic m);
}.

(** ** pod2: values, commitments and statements *)
Class Pod2 : Type := {
  CustomPredicateRef : Type;
  (** [Value::from(i64)], [Value::from(&str)]. *)
  value_of_i64 : Z -> Value;
  value_of_str : string -> Value;
  hash_values : list Value -> Hash;
  (** Commitment of an in-memory [Array], [Set] and [Dictionary]. *)
  array_commitment : list Value -> Hash;
  set_commitment : gset Value -> Hash;
  dict_commitment : gmap string Value -> Hash;
  (** [Statement::Custom(pred, args).hash()] *)
  custom_statement_hash : CustomPredicateRef -> list Value -> Hash;
  (** [mainpod::public_inputs(sts_root, vds_root, is_main)] *)
  public_inputs : Hash -> Hash -> bool -> list Z;
  (** [ToHex::encode_hex] and [FromHex::from_hex] of a hash. *)
  hash_encode_hex : Hash -> string;
  hash_from_hex : string -> Result Hash;
  (** [F::from_noncanonical_u64] *)
  from_noncanonical_u64 : Z -> Z;
  (** [RawValue::to_bytes] *)
  raw_to_bytes : Hash -> list byte;
}.

(** An in-memory container is what it holds. *)
Abbreviation Dictionary := (gmap string Value).

(** [Dictionary::insert], [update] and [delete], [Set::insert]. *)
Class Containers : Type := {
  dict_ins : Dictionary -> string -> Value -> Result Dictionary;
  dict_upd : Dictionary -> string -> Value -> Result Dictionary;
  dict_del : Dictionary -> string -> Result Dictionary;
  set_ins : gset Value -> Value -> Result (gset Value);
}.

(** An insertion refuses what is there, an update and a deletion what is not. *)
Class ContainerLaws `{Containers} : Prop := {
  dict_ins_new d k v : d !! k = None -> dict_ins d k v = Ok (<[k := v]> d);
  dict_ins_old d k v : is_Some (d !! k) -> exists m, dict_ins d k v = Err (Fail m);
  dict_upd_old d k v : is_Some (d !! k) -> dict_upd d k v = Ok (<[k := v]> d);
  dict_upd_new d k v : d !! k = None -> exists m, dict_upd d k v = Err (Fail m);
  dict_del_old d k : is_Some (d !! k) -> dict_del d k = Ok (delete k d);
  dict_del_new d k : d !! k = None -> exists m, dict_del d k = Err (Fail m);
  set_ins_new s v : v ∉ s -> set_ins s v = Ok ({[v]} ∪ s);
  set_ins_old s v : v ∈ s -> exists m, set_ins s v = Err (Fail m);
}.

Class Pod2Laws `{Plonky2, Pod2} : Prop := {
  hex_roundtrip h : canonical_hash h -> hash_from_hex (hash_encode_hex h) = Ok h;
  hex_no_prefix h : strip_prefix "0x" (hash_encode_hex h) = None;
  raw_to_bytes_le h :
    canonical_hash h -> raw_to_bytes h = concat (map (le_bytes 8) (limbs h));
}.

(** Commitments bind: equal commitments have equal contents. Collision
    resistance is only assumed where a theorem names this class. *)
Class CommitmentBinding `{Pod2} : Prop := {
  set_commitment_inj : Inj (=) (=) set_commitment;
  dict_commitment_inj : Inj (=) (=) dict_commitment;
  array_commitment_inj : Inj (=) (=) array_commitment;
}.

Lemma canonical_hash_limbs `{Plonky2} h :
  canonical_hash h ->
  canonical (limb0 h) /\ canonical (limb1 h) /\ canonical (limb2 h) /\ canonical (limb3 h).
Proof. unfold canonical_hash, limbs. rewrite !Forall_cons. naive_solver. Qed.
