(* ===== verification/Models.v ===== *)
(** * Concrete instances of the third-party interfaces

    The simplest functions that satisfy the laws of [Pod2.v]. They show that
    the laws are consistent and give the witnesses something to run. Hashes
    are injective encodings, so that distinct contents have distinct roots. *)

From Stdlib Require Import Ascii.
From S2P Require Import Prelude Pod2.

Module Toy.

Definition hash_of {A} `{Countable A} (a : A) : Hash := MkHash (Zpos (encode a)) 0 0 0.

#[export] Instance hash_of_inj {A} `{Countable A} : Inj (=) (=) (@hash_of A _ _).
Proof. intros a b [= Heq]. by apply (inj encode). Qed.

(** Commitments: empty containers commit to the empty value, the others to an
    encoding tagged with the kind of container. *)
Definition commit_of {A} `{Countable A} (tag : Z) (empty a : A) : Hash :=
  if decide (a = empty) then EMPTY_HASH else MkHash (Zpos (encode a)) 0 0 tag.

Lemma commit_of_inj {A} `{Countable A} tag (empty : A) : Inj (=) (=) (commit_of tag empty).
Proof.
  intros a b. unfold commit_of. do 2 case_decide; subst; try done.
  intros [= Heq]. by apply (inj encode).
Qed.

Lemma commit_of_tags {A B} `{Countable A, Countable B} t u (ea a : A) (eb b : B) :
  t <> u -> commit_of t ea a = commit_of u eb b -> a = ea /\ b = eb.
Proof. intros Ht. unfold commit_of. do 2 case_decide; try done. by intros [= _ ?]. Qed.

(** Hex: the encoding of the hash as a string of two letters. *)
Fixpoint pos_to_string (p : positive) : string :=
  match p with
  | xH => EmptyString
  | xO p' => String "a"%char (pos_to_string p')
  | xI p' => String "b"%char (pos_to_string p')
  end.

Fixpoint string_to_pos (s : string) : option positive :=
  match s with
  | EmptyString => Some xH
  | String c s' =>
      if decide (c = "a"%char) then xO <$> string_to_pos s'
      else if decide (c = "b"%char) then xI <$> string_to_pos s' else None
  end.

Lemma string_to_pos_of p : string_to_pos (pos_to_string p) = Some p.
Proof. induction p as [p IH|p IH|]; simpl; [by rewrite IH..|done]. Qed.

#[export] Instance toy_plonky2 : Plonky2 := {|
  ORDER := 18446744069414584321;
  to_canonical_u64 x := x mod 18446744069414584321;
  CompressedProof := byte;
  ProofWithPis := byte * list Z;
  CommonCircuitData := unit;
  VerifierCircuitData := unit;
  write_compressed_proof p := [p];
  read_compressed_proof _ bs :=
    match bs with [] => Err (Fail "eof") | b :: _ => Ok (b, 1%nat) end;
  decompress p pis _ _ := Ok (p, pis);
  verify _ _ := Ok tt;
  proof_shape _ _ := True;
|}%Z.

#[export] Instance toy_plonky2_laws : Plonky2Laws.
Proof.
  split; simpl; intros; try done.
  - unfold canonical in *; simpl in *. by apply Z.mod_small.
  - destruct bs; simplify_eq/=. lia.
  - by destruct bs.
Qed.

#[export] Instance toy_pod2 : Pod2 := {|
  CustomPredicateRef := string;
  value_of_i64 z := MkHash 1 z 0 0;
  value_of_str s := MkHash 2 (Zpos (encode s)) 0 0;
  hash_values vs := hash_of vs;
  array_commitment vs := commit_of 1 [] vs;
  set_commitment s := commit_of 2 ∅ s;
  dict_commitment d := commit_of 3 ∅ d;
  custom_statement_hash p args := hash_of (p, args);
  public_inputs a b c := limbs a ++ limbs b ++ [if c then 1%Z else 0%Z];
  hash_encode_hex h := pos_to_string (encode h);
  hash_from_hex s := ok_or (string_to_pos s ≫= decode) "invalid hex";
  from_noncanonical_u64 n := n;
  raw_to_bytes h := concat (map (le_bytes 8) (limbs h));
|}.

#[export] Instance toy_pod2_laws : Pod2Laws.
Proof.
  split; simpl; intros; try done.
  - by rewrite string_to_pos_of; simpl; rewrite decode_encode.
  - by destruct (encode h).
Qed.

#[export] Instance toy_binding : CommitmentBinding.
Proof. split; apply commit_of_inj. Qed.

#[export] Instance toy_containers : Containers := {|
  dict_ins d k v := match d !! k with None => Ok (<[k := v]> d) | Some _ => Err (Fail "key exists") end;
  dict_upd d k v := match d !! k with Some _ => Ok (<[k := v]> d) | None => Err (Fail "key not found") end;
  dict_del d k := match d !! k with Some _ => Ok (delete k d) | None => Err (Fail "key not found") end;
  set_ins s v := if decide (v ∈ s) then Err (Fail "key exists") else Ok ({[v]} ∪ s);
|}.

#[export] Instance toy_container_laws : ContainerLaws.
Proof.
  split; simpl; intros; try case_decide; try done; eauto;
    repeat match goal with
    | H : is_Some _ |- _ => destruct H as [? H]
    | H : ?d !! ?k = _ |- _ => rewrite H
    end; eauto.
Qed.

End Toy.
