(* ===== verification/Payload.v ===== *)
(** * Payloads: the wire format of a transaction (libs/payload)

    [Payload] is what a relayer puts in a blob and a synchronizer takes out of
    it: a compressed proof, the transaction commitment, the grounding state
    root, and the nullifiers and created commitments as plain lists. This file
    models the byte codec (payload.rs), the hash encodings (lib.rs) and the
    verification the synchronizer and the relayer run on a blob (proof.rs).
    The cursor a Rust reader advances is passed explicitly: a reader returns
    what it read and the bytes left. *)

From S2P Require Import Prelude Blob Pod2 Models.

Module Payload.

(** ** Definitions *)

(** *** Proof types and hash encodings (lib.rs) *)

Inductive ProofType : Type := Plonky2Proof.

Definition ProofType_from_byte (input : byte) : Result ProofType :=
  match input with
  | x00 => Ok Plonky2Proof
  | _ => Err (Fail ("unsupported PROOF_TYPE " +:+ pretty (byte_val input)))
  end.

Definition ProofType_to_byte (p : ProofType) : byte :=
  match p with Plonky2Proof => x00 end.

Definition encode_hash_hex `{Pod2} (h : Hash) : string := "0x" +:+ hash_encode_hex h.

Definition decode_hash_hex `{Pod2} (s : string) : Result Hash :=
  let trimmed := default s (strip_prefix "0x" s) in
  match hash_from_hex trimmed with
  | Ok h => Ok h
  | Err (Fail err) => Err (Fail ("invalid hash hex " +:+ s +:+ ": " +:+ err))
  | Err (Panic m) => Err (Panic m)
  end.

Definition hash_to_db_bytes `{Pod2} (h : Hash) : list byte := raw_to_bytes h.

(** [as_chunks::<8>().0]: the whole chunks, the remainder is dropped. *)
Definition whole_chunks (bs : list byte) : list (list byte) :=
  filter (fun c => length c = 8%nat) (chunks 8 bs).

Definition db_bytes_to_hash (bs : list byte) : Result Hash :=
  match whole_chunks bs with
  | [a; b; c; d] => Ok (MkHash (le_value a) (le_value b) (le_value c) (le_value d))
  | _ => Err (Fail "invalid hash byte length")
  end.

(** *** The codec (payload.rs) *)

(** [Read::read_exact] on a byte slice. *)
Definition read_exact (n : nat) (bs : list byte) : Result (list byte * list byte) :=
  if (length bs <? n)%nat then Err (Fail "failed to fill whole buffer")
  else Ok (take n bs, drop n bs).

Definition PAYLOAD_MAGIC : Z := 53515. (* 0xd10b *)

Section Codec.
Context `{Plonky2}.

Definition write_elems (bs : list byte) (elems : list Z) : list byte :=
  foldl (fun acc e => acc ++ le_bytes 8 (to_canonical_u64 e)) bs elems.

Fixpoint read_elems (n : nat) (bs : list byte) : Result (list Z * list byte) :=
  match n with
  | O => Ok ([], bs)
  | S n' =>
      let? (elem_bytes, bs) := read_exact 8 bs in
      let v := le_value elem_bytes in
      rensure (negb (ORDER <=? v)%Z) (pretty v +:+ " >= F::ORDER") ;?
      let? (elems, bs) := read_elems n' bs in
      Ok (v :: elems, bs)
  end.

(** [Hash(read_elems(..)?)]: the array length is fixed by the type. *)
Definition read_hash (bs : list byte) : Result (Hash * list byte) :=
  let? (elems, bs) := read_elems 4 bs in
  match elems with
  | [a; b; c; d] => Ok (MkHash a b c d, bs)
  | _ => Err (Panic "array length")
  end.

Definition write_hashes (buffer : list byte) (hashes : list Hash) : Result (list byte) :=
  rassert (length hashes <=? 255)%nat "assertion failed: hashes.len() <= 255" ;?
  let buffer := buffer ++ [byte_of (Z.of_nat (length hashes))] in
  Ok (foldl (fun acc h => write_elems acc (limbs h)) buffer hashes).

Fixpoint read_hashes_loop (n : nat) (bs : list byte) : Result (list Hash * list byte) :=
  match n with
  | O => Ok ([], bs)
  | S n' =>
      let? (h, bs) := read_hash bs in
      let? (hs, bs) := read_hashes_loop n' bs in
      Ok (h :: hs, bs)
  end.

Definition read_hashes (bs : list byte) : Result (list Hash * list byte) :=
  let? (buffer, bs) := read_exact 1 bs in
  read_hashes_loop (Z.to_nat (le_value buffer)) bs.

Inductive PayloadProof : Type := Plonky2P (p : CompressedProof).

Record Payload : Type := {
  proof : PayloadProof;
  tx_final : Hash;
  state_root : Hash;
  nullifiers : list Hash;
  created : list Hash;
}.

Definition PayloadProof_write_bytes (p : PayloadProof) (buffer : list byte) : list byte :=
  let 'Plonky2P q := p in
  (buffer ++ [ProofType_to_byte Plonky2Proof]) ++ write_compressed_proof q.

Definition PayloadProof_from_bytes (bs : list byte) (cd : CommonCircuitData) :
    Result (PayloadProof * nat) :=
  let? b := expect (bs !! 0%nat)
    "index out of bounds: the len is 0 but the index is 0" in
  let? proof_type := ProofType_from_byte b in
  let? bs := slice_from 1 bs in
  match proof_type with
  | Plonky2Proof =>
      match read_compressed_proof cd bs with
      | Ok (p, len) => Ok (Plonky2P p, (len + 1)%nat)
      | Err (Fail e) => Err (Fail ("read_compressed_proof: " +:+ e))
      | Err (Panic m) => Err (Panic m)
      end
  end.

Definition to_bytes (p : Payload) : Result (list byte) :=
  let buffer := le_bytes 2 PAYLOAD_MAGIC in
  let buffer := PayloadProof_write_bytes (proof p) buffer in
  let buffer := write_elems buffer (limbs (tx_final p)) in
  let buffer := write_elems buffer (limbs (state_root p)) in
  let? buffer := write_hashes buffer (nullifiers p) in
  write_hashes buffer (created p).

Definition from_bytes (bs : list byte) (cd : CommonCircuitData) : Result Payload :=
  let? (buffer, bs) := read_exact 2 bs in
  let magic := le_value buffer in
  rensure (magic =? PAYLOAD_MAGIC)%Z ("Invalid payload magic: " +:+ pretty magic) ;?
  let? (proof, len) := PayloadProof_from_bytes bs cd in
  let? bs := slice_from len bs in
  let? (tx_final, bs) := read_hash bs in
  let? (state_root, bs) := read_hash bs in
  let? (nullifiers, bs) := read_hashes bs in
  let? (created, bs) := read_hashes bs in
  Ok {| proof := proof; tx_final := tx_final; state_root := state_root;
        nullifiers := nullifiers; created := created |}.
End Codec.

(** *** Statements and verification (payload.rs, proof.rs) *)

Section Verification.
Context `{Plonky2, Pod2}.

Inductive Statement : Type := Custom (pred : CustomPredicateRef) (args : list Value).

Definition Statement_hash (st : Statement) : Hash :=
  let 'Custom pred args := st in custom_statement_hash pred args.

Definition hashes_to_set (hashes : list Hash) : gset Value := list_to_set hashes.

Definition finalized_statement (p : Payload) (predicate : CustomPredicateRef) : Statement :=
  Custom predicate
    [state_root p; tx_final p;
     set_commitment (hashes_to_set (nullifiers p));
     set_commitment (hashes_to_set (created p))].

Record ProofParser : Type := {
  txn_finalized_pred : CustomPredicateRef;
  vds_root : Hash;
  common_circuit_data : CommonCircuitData;
  verifier_circuit_data : VerifierCircuitData;
}.

Definition map_fail {A} (pre : string) (c : Result A) : Result A :=
  match c with Err (Fail e) => Err (Fail (pre +:+ e)) | _ => c end.

Definition verify_shrunk_main_pod (self : ProofParser) (pr : PayloadProof) (st : Statement) :
    Result unit :=
  let sts_root := array_commitment [Statement_hash st] in
  let pis := public_inputs sts_root (vds_root self) true in
  let 'Plonky2P compressed_proof := pr in
  let? p := map_fail "decompress proof: "
    (decompress compressed_proof pis (verifier_circuit_data self) (common_circuit_data self)) in
  map_fail "proof verification failed: " (verify (verifier_circuit_data self) p).

Definition parse_blob (self : ProofParser) (blob_bytes : list byte) : Result (option Payload) :=
  match from_bytes blob_bytes (common_circuit_data self) with
  | Ok payload =>
      let statement := finalized_statement payload (txn_finalized_pred self) in
      verify_shrunk_main_pod self (proof payload) statement ;?
      Ok (Some payload)
  | Err (Fail _) => Ok None
  | Err (Panic m) => Err (Panic m)
  end.
End Verification.

(** What the codec can carry: canonical hashes, a proof of the circuit's
    shape and at most 255 entries in each list. *)
Record wf_payload `{Plonky2} (cd : CommonCircuitData) (p : Payload) : Prop := {
  wf_proof : let 'Plonky2P q := proof p in proof_shape cd q;
  wf_tx_final : canonical_hash (tx_final p);
  wf_state_root : canonical_hash (state_root p);
  wf_nullifiers : Forall canonical_hash (nullifiers p) /\ (length (nullifiers p) <= 255)%nat;
  wf_created : Forall canonical_hash (created p) /\ (length (created p) <= 255)%nat;
}.

(** ** Lemmas *)

Section CodecLemmas.
Context `{Plonky2Laws}.

Definition elem_bytes (e : Z) : list byte := le_bytes 8 (to_canonical_u64 e).
Definition hash_bytes (h : Hash) : list byte := concat (map elem_bytes (limbs h)).

Lemma read_exact_app bs rest : read_exact (length bs) (bs ++ rest) = Ok (bs, rest).
Proof.
  unfold read_exact. rewrite length_app.
  destruct (Nat.ltb_spec (length bs + length rest) (length bs)); [lia|].
  by rewrite take_app_length, drop_app_length.
Qed.

Lemma foldl_append {A} (f : A -> list byte) (l : list A) acc :
  foldl (fun acc x => acc ++ f x) acc l = acc ++ concat (map f l).
Proof.
  revert acc; induction l as [|x l IH]; intros acc; simpl; [by rewrite app_nil_r|].
  by rewrite IH, (assoc_L (++)).
Qed.

Lemma write_elems_eq bs elems : write_elems bs elems = bs ++ concat (map elem_bytes elems).
Proof. apply (foldl_append elem_bytes). Qed.

Lemma write_hashes_eq bs hs :
  (length hs <= 255)%nat ->
  write_hashes bs hs
  = Ok (bs ++ byte_of (Z.of_nat (length hs)) :: concat (map hash_bytes hs)).
Proof.
  intros Hl. unfold write_hashes, rassert.
  destruct (Nat.leb_spec (length hs) 255); [|lia]. cbn [rbind]. f_equal.
  change (byte_of (Z.of_nat (length hs)) :: concat (map hash_bytes hs))
    with ([byte_of (Z.of_nat (length hs))] ++ concat (map hash_bytes hs)).
  rewrite (assoc_L (++)). generalize (bs ++ [byte_of (Z.of_nat (length hs))]). clear Hl H1.
  induction hs as [|h hs IH]; intros acc; cbn [foldl map concat]; [by rewrite app_nil_r|].
  by rewrite IH, write_elems_eq, <- (assoc_L (++)).
Qed.

Lemma read_elem e rest :
  canonical e -> read_exact 8 (elem_bytes e ++ rest) = Ok (elem_bytes e, rest)
                 /\ le_value (elem_bytes e) = e /\ (ORDER <=? e)%Z = false.
Proof.
  intros He. unfold elem_bytes. rewrite to_canonical_id by done. split_and!.
  - rewrite <- (read_exact_app (le_bytes 8 e) rest). by rewrite length_le_bytes.
  - rewrite le_value_bytes. apply Z.mod_small. pose proof ORDER_range. unfold canonical in *.
    change (256 ^ Z.of_nat 8)%Z with (2 ^ 64)%Z. lia.
  - unfold canonical in He. lia.
Qed.

Lemma read_elems_app elems rest :
  Forall canonical elems ->
  read_elems (length elems) (concat (map elem_bytes elems) ++ rest) = Ok (elems, rest).
Proof.
  induction 1 as [|e elems He _ IH]; [done|]. cbn [map concat length read_elems].
  rewrite <- (assoc_L (++)). destruct (read_elem e (concat (map elem_bytes elems) ++ rest) He)
    as (Hr & Hv & Ho).
  rewrite Hr. cbn [rbind]. rewrite Hv, Ho. cbn [negb rensure rbind]. by rewrite IH.
Qed.

Lemma read_hash_app h rest :
  canonical_hash h -> read_hash (hash_bytes h ++ rest) = Ok (h, rest).
Proof.
  intros Hh. unfold read_hash, hash_bytes.
  change 4%nat with (length (limbs h)). rewrite read_elems_app by done. by destruct h.
Qed.

Lemma read_hashes_loop_app hs rest :
  Forall canonical_hash hs ->
  read_hashes_loop (length hs) (concat (map hash_bytes hs) ++ rest) = Ok (hs, rest).
Proof.
  induction 1 as [|h hs Hh _ IH]; [done|]. cbn [map concat length read_hashes_loop].
  rewrite <- (assoc_L (++)), read_hash_app by done. cbn [rbind]. by rewrite IH.
Qed.

Lemma read_hashes_app hs rest :
  Forall canonical_hash hs -> (length hs <= 255)%nat ->
  read_hashes (byte_of (Z.of_nat (length hs)) :: concat (map hash_bytes hs) ++ rest) = Ok (hs, rest).
Proof.
  intros Hc Hl. unfold read_hashes.
  pose proof (read_exact_app [byte_of (Z.of_nat (length hs))] (concat (map hash_bytes hs) ++ rest))
    as Hr. cbn [app length] in Hr. rewrite Hr. clear Hr. cbn [rbind le_value].
  rewrite byte_val_of, Z.mod_small by lia. rewrite Z.mul_0_r, Z.add_0_r, Nat2Z.id.
  by apply read_hashes_loop_app.
Qed.

(** The bytes of a payload that fits the format. *)
Definition counted_bytes (hs : list Hash) : list byte :=
  byte_of (Z.of_nat (length hs)) :: concat (map hash_bytes hs).
Definition payload_bytes (p : Payload) : list byte :=
  let 'Plonky2P q := proof p in
  [x0b; xd1] ++ x00 :: write_compressed_proof q
  ++ hash_bytes (tx_final p) ++ hash_bytes (state_root p)
  ++ counted_bytes (nullifiers p) ++ counted_bytes (created p).

Lemma to_bytes_eq p :
  (length (nullifiers p) <= 255)%nat -> (length (created p) <= 255)%nat ->
  to_bytes p = Ok (payload_bytes p).
Proof.
  intros Hn Hc. unfold to_bytes. rewrite !write_elems_eq.
  rewrite write_hashes_eq by done. cbn [rbind]. rewrite write_hashes_eq by done.
  unfold payload_bytes. destruct (proof p) as [q]. f_equal.
  change (le_bytes 2 PAYLOAD_MAGIC) with [x0b; xd1].
  unfold PayloadProof_write_bytes. rewrite <- !(assoc_L (++)). done.
Qed.

Lemma proof_from_bytes_app cd q rest :
  proof_shape cd q ->
  PayloadProof_from_bytes (x00 :: write_compressed_proof q ++ rest) cd
  = Ok (Plonky2P q, S (length (write_compressed_proof q))).
Proof.
  intros Hq. unfold PayloadProof_from_bytes. cbn. rewrite drop_0, read_write_proof by done.
  by rewrite Nat.add_1_r.
Qed.

Lemma from_bytes_payload cd p rest :
  wf_payload cd p -> from_bytes (payload_bytes p ++ rest) cd = Ok p.
Proof.
  intros [Hp Ht Hs [Hn Hnl] [Hc Hcl]]. destruct p as [[q] t s ns cs].
  cbn [proof tx_final state_root nullifiers created payload_bytes] in *.
  unfold from_bytes. rewrite <- (assoc_L (++)), (read_exact_app [x0b; xd1]). cbn [rbind].
  change (le_value [x0b; xd1] =? PAYLOAD_MAGIC)%Z with true. cbn [rensure rbind].
  rewrite <- app_comm_cons, <- !(assoc_L (++)), proof_from_bytes_app by done. cbn [rbind].
  unfold slice_from. cbn [length Nat.leb]. rewrite length_app.
  rewrite leb_correct by lia. cbn [rbind].
  change (drop (S ?n) (x00 :: ?l)) with (drop n l). rewrite drop_app_length.
  rewrite read_hash_app by done. cbn [rbind]. rewrite read_hash_app by done. cbn [rbind].
  unfold counted_bytes. rewrite <- !app_comm_cons.
  rewrite read_hashes_app by done. cbn [rbind]. by rewrite read_hashes_app.
Qed.

Lemma read_elems_no_panic n bs m : read_elems n bs <> Err (Panic m).
Proof.
  revert bs; induction n as [|n IH]; intros bs; simpl; [done|].
  unfold read_exact. destruct (length bs <? 8)%nat; simpl; [done|].
  destruct (negb _); simpl; [|done].
  destruct (read_elems n _) as [[elems r]|e] eqn:E; simpl; [done|]. intros [= ->]. by eapply IH.
Qed.

Lemma read_elems_inv n bs es rest :
  read_elems n bs = Ok (es, rest) -> length es = n /\ Forall canonical es.
Proof.
  revert bs es rest; induction n as [|n IH]; intros bs es rest; simpl; [intros [= <- <-]; by split|].
  unfold read_exact. destruct (length bs <? 8)%nat; simpl; [done|].
  destruct (ORDER <=? _)%Z eqn:Ho; simpl; [done|].
  destruct (read_elems n _) as [[elems r]|e] eqn:E; simpl; [|done].
  intros [= <- <-]. apply IH in E as [<- Hc]. split; [done|].
  constructor; [|done]. split; [apply le_value_bound | lia].
Qed.

Lemma read_hash_no_panic bs m : read_hash bs <> Err (Panic m).
Proof.
  unfold read_hash. destruct (read_elems 4 bs) as [[es r]|e] eqn:E; simpl.
  - apply read_elems_inv in E as [Hl _]. by destruct es as [|? [|? [|? [|? [|]]]]].
  - intros [= ->]. by eapply read_elems_no_panic.
Qed.

Lemma read_hash_inv bs h rest : read_hash bs = Ok (h, rest) -> canonical_hash h.
Proof.
  unfold read_hash. destruct (read_elems 4 bs) as [[es r]|e] eqn:E; simpl; [|done].
  apply read_elems_inv in E as [Hl Hc].
  destruct es as [|? [|? [|? [|? [|]]]]]; try done. by intros [= <- <-].
Qed.

Lemma read_hashes_loop_no_panic n bs m : read_hashes_loop n bs <> Err (Panic m).
Proof.
  revert bs; induction n as [|n IH]; intros bs; simpl; [done|].
  rewrite rbind_Err. intros [Hh|([h r] & _ & Hl)]; [by eapply read_hash_no_panic|].
  simpl in Hl. apply rbind_Err in Hl as [Hl|([hs r'] & _ & Hl)]; [by eapply IH|done].
Qed.

Lemma read_hashes_loop_inv n bs hs rest :
  read_hashes_loop n bs = Ok (hs, rest) -> length hs = n /\ Forall canonical_hash hs.
Proof.
  revert bs hs rest; induction n as [|n IH]; intros bs hs rest; simpl; [intros [= <- <-]; by split|].
  intros ([h r] & Hh & ([hs' r'] & Hl & [= <- <-])%rbind_Ok)%rbind_Ok. simpl in *.
  apply IH in Hl as [<- Hc]. split; [done|]. constructor; [by eapply read_hash_inv | done].
Qed.

Lemma read_hashes_no_panic bs m : read_hashes bs <> Err (Panic m).
Proof.
  unfold read_hashes, read_exact. destruct (length bs <? 1)%nat; simpl; [done|].
  apply read_hashes_loop_no_panic.
Qed.

Lemma read_hashes_inv bs hs rest :
  read_hashes bs = Ok (hs, rest) -> Forall canonical_hash hs /\ (length hs <= 255)%nat.
Proof.
  unfold read_hashes, read_exact. destruct (length bs <? 1)%nat; simpl; [done|].
  intros [Hl Hc]%read_hashes_loop_inv. split; [done|]. rewrite Hl.
  pose proof (le_value_bound (take 1 bs)) as Hb.
  assert (length (take 1 bs) <= 1)%nat by (rewrite length_take; lia).
  assert (256 ^ Z.of_nat (length (take 1 bs)) <= 256 ^ 1)%Z by (apply Z.pow_le_mono_r; lia). lia.
Qed.

(** Reading the proof panics exactly when nothing follows the magic. *)
Lemma proof_from_bytes_panic bs cd m :
  PayloadProof_from_bytes bs cd = Err (Panic m) -> bs = [].
Proof.
  unfold PayloadProof_from_bytes. destruct bs as [|b bs]; [done|]. simpl.
  destruct (ProofType_from_byte b) as [[]|e] eqn:E; simpl.
  - destruct (read_compressed_proof cd (drop 0 bs)) as [[p n]|[e|m']] eqn:Er; try done.
    intros [= ->]. by apply read_proof_no_panic in Er.
  - unfold ProofType_from_byte in E. by destruct b; simplify_eq.
Qed.

Lemma proof_from_bytes_within bs cd p n :
  PayloadProof_from_bytes bs cd = Ok (p, n) -> (n <= length bs)%nat.
Proof.
  unfold PayloadProof_from_bytes. destruct bs as [|b bs]; [done|]. simpl.
  destruct (ProofType_from_byte b) as [[]|e] eqn:E; simpl; [|done].
  destruct (read_compressed_proof cd (drop 0 bs)) as [[q k]|[e|m']] eqn:Er; try done.
  intros [= <- <-]. apply read_proof_within in Er. rewrite drop_0 in Er. simpl in *. lia.
Qed.

Lemma magic_bytes bs : length bs = 2%nat -> le_value bs = PAYLOAD_MAGIC -> bs = [x0b; xd1].
Proof.
  intros Hl Hm. rewrite <- (le_bytes_value bs), Hl, Hm. reflexivity.
Qed.
End CodecLemmas.

Lemma length_whole_chunks bs : length (whole_chunks bs) = (length bs / 8)%nat.
Proof.
  unfold whole_chunks. induction bs as [|l Hl IH] using (chunk_ind 8 ltac:(lia)); [done|].
  rewrite chunks_cons by (done || lia).
  destruct (Nat.le_gt_cases 8 (length l)) as [Hle|Hgt].
  - rewrite filter_cons_True by (rewrite length_take; lia). cbn [length]. rewrite IH, length_drop.
    replace (length l) with (length l - 8 + 1 * 8)%nat at 2 by lia. rewrite Nat.div_add by lia. lia.
  - rewrite filter_cons_False by (rewrite length_take; lia).
    rewrite drop_ge by lia. rewrite Nat.div_small by lia. done.
Qed.

Lemma db_bytes_to_hash_length bs :
  (exists h, db_bytes_to_hash bs = Ok h) <-> (32 <= length bs < 40)%nat.
Proof.
  pose proof (length_whole_chunks bs) as Hl. unfold db_bytes_to_hash.
  pose proof (Nat.div_mod_eq (length bs) 8). pose proof (Nat.mod_upper_bound (length bs) 8).
  destruct (whole_chunks bs) as [|? [|? [|? [|? [|]]]]]; cbn [length] in Hl;
    (split; [intros [? ?]; try done; lia | intros ?; first [by eexists | lia]]).
Qed.

(** ** Properties *)

(** C30: a payload within the format's limits serialises without panicking, and
    its bytes decode back to it whatever follows them in the blob; a list of
    more than 255 hashes makes [to_bytes] panic instead of truncating. *)
Theorem payload_roundtrip `{Plonky2Laws} (cd : CommonCircuitData) (p : Payload) :
  (wf_payload cd p ->
     exists bs, to_bytes p = Ok bs /\ forall rest, from_bytes (bs ++ rest) cd = Ok p)
  /\ ((255 < length (nullifiers p) \/ 255 < length (created p))%nat ->
     exists m, to_bytes p = Err (Panic m)).
Proof.
  split.
  - intros Hwf. exists (payload_bytes p). split.
    + apply to_bytes_eq; by destruct Hwf as [_ _ _ [] []].
    + intros rest. by apply from_bytes_payload.
  - intros Hl. unfold to_bytes, write_hashes at 1.
    destruct (Nat.leb_spec (length (nullifiers p)) 255); simpl; [|eauto].
    unfold write_hashes, rassert. rewrite leb_correct_conv by lia. simpl. eauto.
Qed.

Definition sample_payload : @Payload Toy.toy_plonky2 :=
  {| proof := @Plonky2P Toy.toy_plonky2 x07; tx_final := MkHash 1 2 3 4;
     state_root := MkHash 5 6 7 8; nullifiers := [MkHash 9 0 0 0];
     created := [EMPTY_HASH; MkHash 1 1 1 1] |}.

Lemma payload_roundtrip_witness :
  exists bs, to_bytes sample_payload = Ok bs /\ length bs = 166%nat
    /\ forall rest, @from_bytes Toy.toy_plonky2 (bs ++ rest) tt = Ok sample_payload.
Proof.
  destruct (proj1 (@payload_roundtrip _ Toy.toy_plonky2_laws tt sample_payload)) as (bs & Hb & Hr).
  - split; simpl; unfold canonical_hash, canonical; simpl; repeat constructor; simpl; lia.
  - exists bs. split_and!; [exact Hb| |exact Hr]. vm_compute in Hb. injection Hb as <-. reflexivity.
Defined.

(** Whatever bytes a blob holds, [from_bytes] returns a payload within the
    format's limits or an error, except on the two magic bytes alone, where the
    unchecked [bytes[0]] of [PayloadProof::from_bytes] panics. *)
Theorem from_bytes_total `{Plonky2Laws} (cd : CommonCircuitData) (bs : list byte) :
  match from_bytes bs cd with
  | Ok p => canonical_hash (tx_final p) /\ canonical_hash (state_root p)
      /\ Forall canonical_hash (nullifiers p) /\ Forall canonical_hash (created p)
      /\ (length (nullifiers p) <= 255)%nat /\ (length (created p) <= 255)%nat
      /\ take 2 bs = [x0b; xd1]
  | Err (Fail _) => bs <> [x0b; xd1]
  | Err (Panic _) => bs = [x0b; xd1]
  end.
Proof.
  unfold from_bytes, read_exact.
  destruct (Nat.ltb_spec (length bs) 2) as [Hl|Hl]; simpl; [intros ->; simpl in Hl; lia|].
  destruct (Z.eqb_spec (le_value (take 2 bs)) PAYLOAD_MAGIC) as [Hm|Hm]; simpl; [|intros ->; by apply Hm].
  apply magic_bytes in Hm; [|rewrite length_take; lia].
  destruct (PayloadProof_from_bytes (drop 2 bs) cd) as [[q n]|[e|m]] eqn:Eq; simpl.
  2: { intros ->. by vm_compute in Eq. }
  2: { apply proof_from_bytes_panic in Eq. rewrite <- (take_drop 2 bs), Eq, Hm. done. }
  assert (Hne : bs <> [x0b; xd1]) by (intros ->; by vm_compute in Eq).
  apply proof_from_bytes_within in Eq. unfold slice_from. rewrite leb_correct by done. cbn [rbind].
  repeat match goal with
  | |- context [rbind (read_hash ?b) _] =>
      let E := fresh "E" in destruct (read_hash b) as [[? ?]|[?|?]] eqn:E; cbn [rbind];
      [apply read_hash_inv in E | done | by apply read_hash_no_panic in E]
  | |- context [rbind (read_hashes ?b) _] =>
      let E := fresh "E" in destruct (read_hashes b) as [[? ?]|[?|?]] eqn:E; cbn [rbind];
      [apply read_hashes_inv in E as [? ?] | done | by apply read_hashes_no_panic in E]
  end.
  by split_and!.
Qed.

Lemma from_bytes_total_witness :
  (exists m, @from_bytes Toy.toy_plonky2 [x0b; xd1] tt = Err (Panic m))
  /\ (exists m, @from_bytes Toy.toy_plonky2 [x0b; xd1; x01] tt = Err (Fail m)).
Proof.
  pose proof (@from_bytes_total _ Toy.toy_plonky2_laws tt [x0b; xd1]) as H1.
  pose proof (@from_bytes_total _ Toy.toy_plonky2_laws tt [x0b; xd1; x01]) as H2.
  assert (E1 : is_ok (@from_bytes Toy.toy_plonky2 [x0b; xd1] tt) = false) by reflexivity.
  assert (E2 : is_ok (@from_bytes Toy.toy_plonky2 [x0b; xd1; x01] tt) = false) by reflexivity.
  destruct (from_bytes [x0b; xd1] _) as [?|[?|?]]; [discriminate E1|done|].
  destruct (from_bytes [x0b; xd1; x01] _) as [?|[?|?]]; [discriminate E2|eauto|done].
Defined.

(** What the proof system promises of the circuit a parser verifies against: a
    proof that verifies was made for the public inputs of a pod, and if these
    name the parser's verifier data and a main pod, then the statements the pod
    reveals are [valid]. Public inputs and statement hashes bind what they are
    made of. *)
Class MainPodSound `{Plonky2, Pod2} (self : ProofParser) (valid : Statement -> Prop) : Prop := {
  public_inputs_bind r v m r' v' m' :
    public_inputs r v m = public_inputs r' v' m' -> r = r' /\ v = v' /\ m = m';
  statement_hash_inj : Inj (=) (=) Statement_hash;
  shrunk_pod_sound c pis q :
    decompress c pis (verifier_circuit_data self) (common_circuit_data self) = Ok q ->
    verify (verifier_circuit_data self) q = Ok tt ->
    exists sts vds main, pis = public_inputs (array_commitment (Statement_hash <$> sts)) vds main
      /\ (vds = vds_root self -> main = true -> Forall valid sts);
}.

Section Soundness.
Context `{Plonky2, Pod2, !CommitmentBinding}.
Context (self : ProofParser) (valid : Statement -> Prop) `{!MainPodSound self valid}.

Lemma map_fail_Ok {A} pre (c : Result A) a : map_fail pre c = Ok a -> c = Ok a.
Proof. by destruct c as [|[]]. Qed.

Lemma verified_statement_valid pr st : verify_shrunk_main_pod self pr st = Ok tt -> valid st.
Proof.
  unfold verify_shrunk_main_pod. destruct pr as [c].
  intros (q & Hd%map_fail_Ok & Hv%map_fail_Ok)%rbind_Ok.
  destruct (shrunk_pod_sound c _ q Hd Hv) as (sts & vds & main & Hp & Hs).
  apply public_inputs_bind in Hp as (Hr & <- & <-). apply array_commitment_inj in Hr.
  destruct sts as [|st' [|]]; [done| |done]. simpl in Hr. injection Hr as Hr.
  apply statement_hash_inj in Hr as ->. by eapply Forall_inv, Hs.
Qed.

Lemma parsed_statement_valid bs p :
  parse_blob self bs = Ok (Some p) ->
  from_bytes bs (common_circuit_data self) = Ok p
  /\ valid (finalized_statement p (txn_finalized_pred self)).
Proof.
  unfold parse_blob. destruct (from_bytes bs _) as [q|[]] eqn:Eb; try done.
  intros ([] & Hv & [= <-])%rbind_Ok. split; [done|]. by eapply verified_statement_valid.
Qed.
End Soundness.

(** C24: what an accepted blob certifies. If [parse_blob] accepts a blob, the
    bytes decode to the payload it returns, and the statement
    [TxFinalized(state_root, tx_final, nullifier set, created set)] over the
    payload's own fields is valid, whenever the proof system is sound for the
    parser's circuit. The verdict depends on the two lists only through their
    sets: bytes that carry the same proof and the same sets, in any order and
    with any repetitions, are accepted too. A blob is skipped without an error
    exactly when its bytes do not decode. *)
Theorem parse_blob_verified `{Plonky2, Pod2, !CommitmentBinding} (self : ProofParser)
    (valid : Statement -> Prop) `{!MainPodSound self valid} (bs : list byte) :
  (parse_blob self bs = Ok None <-> exists m, from_bytes bs (common_circuit_data self) = Err (Fail m))
  /\ forall p, parse_blob self bs = Ok (Some p) ->
       from_bytes bs (common_circuit_data self) = Ok p
       /\ valid (Custom (txn_finalized_pred self)
                  [state_root p; tx_final p; set_commitment (list_to_set (nullifiers p));
                   set_commitment (list_to_set (created p))])
       /\ forall bs' p', from_bytes bs' (common_circuit_data self) = Ok p' ->
            proof p' = proof p -> tx_final p' = tx_final p -> state_root p' = state_root p ->
            (forall n, n ∈ nullifiers p' <-> n ∈ nullifiers p) ->
            (forall o, o ∈ created p' <-> o ∈ created p) ->
            parse_blob self bs' = Ok (Some p').
Proof.
  split.
  - unfold parse_blob. destruct (from_bytes bs _) as [q|[m|m]]; [|by split; eauto|by split; [|intros [? ?]]].
    split; [|by intros [? ?]]. by intros ([] & _ & ?)%rbind_Ok.
  - intros p Hp. destruct (parsed_statement_valid self valid bs p Hp) as [Hb Hv].
    split_and!; [done|exact Hv|]. intros bs' p' Hb' Hpr Htx Hsr Hn Hc. revert Hp.
    unfold parse_blob. rewrite Hb, Hb'. intros ([] & Hok & _)%rbind_Ok.
    assert (finalized_statement p' (txn_finalized_pred self) = finalized_statement p (txn_finalized_pred self)) as ->.
    { unfold finalized_statement, hashes_to_set. rewrite Htx, Hsr.
      assert (list_to_set (nullifiers p') = (list_to_set (nullifiers p) : gset Value)) as -> by (apply set_eq; set_solver).
      assert (list_to_set (created p') = (list_to_set (created p) : gset Value)) as -> by (apply set_eq; set_solver).
      done. }
    by rewrite Hpr, Hok.
Qed.

Definition sample_parser : @ProofParser Toy.toy_plonky2 Toy.toy_pod2 :=
  @Build_ProofParser Toy.toy_plonky2 Toy.toy_pod2 "TxFinalized" EMPTY_HASH tt tt.

(** A proof system whose verifier data are the public inputs it accepts. *)
Module Checking.
#[local] Existing Instance Toy.toy_pod2.

#[local] Instance checking_plonky2 : Plonky2 := {|
  ORDER := @ORDER Toy.toy_plonky2;
  to_canonical_u64 := @to_canonical_u64 Toy.toy_plonky2;
  CompressedProof := byte;
  ProofWithPis := byte * list Z;
  CommonCircuitData := unit;
  VerifierCircuitData := list Z;
  write_compressed_proof p := [p];
  read_compressed_proof _ bs :=
    match bs with [] => Err (Fail "eof") | b :: _ => Ok (b, 1%nat) end;
  decompress p pis _ _ := Ok (p, pis);
  verify vcd q := if decide (q = (x2a, vcd)) then Ok tt else Err (Fail "invalid proof");
  proof_shape _ _ := True;
|}.

#[local] Instance checking_laws : Plonky2Laws.
Proof.
  split; simpl; intros; try done.
  - unfold canonical in *; simpl in *. by apply Z.mod_small.
  - destruct bs; simplify_eq/=. lia.
  - by destruct bs.
Qed.

Definition payload (cs : list Hash) : Payload := {|
  proof := Plonky2P (x2a : CompressedProof); tx_final := MkHash 1 2 3 4; state_root := MkHash 5 6 7 8;
  nullifiers := [MkHash 9 9 9 9]; created := cs |}.

Definition statement : Statement := finalized_statement (payload [EMPTY_HASH; MkHash 1 1 1 1]) ("TxFinalized" : @CustomPredicateRef Toy.toy_pod2).

Definition parser : ProofParser := {|
  txn_finalized_pred := "TxFinalized" : @CustomPredicateRef Toy.toy_pod2;
  vds_root := EMPTY_HASH; common_circuit_data := tt;
  verifier_circuit_data := public_inputs (array_commitment [Statement_hash statement]) EMPTY_HASH true |}.

#[local] Instance parser_sound : MainPodSound parser (fun st => st = statement).
Proof.
  split.
  - intros [] [] m [] [] m'. simpl. destruct m, m'; by intros [= -> -> -> -> -> -> -> ->].
  - intros [p l] [p' l'] Heq. simpl in Heq. apply Toy.hash_of_inj in Heq. by injection Heq as -> ->.
  - intros c pis q [= <-] Hv. exists [statement], EMPTY_HASH, true. cbn [verify checking_plonky2] in Hv.
    case_decide as Hq; [|done]. injection Hq as _ ->. split; [done|]. intros _ _. by constructor.
Qed.

Definition bytes (cs : list Hash) : list byte := payload_bytes (payload cs).

Lemma bytes_decode cs : Forall canonical_hash cs -> (length cs <= 255)%nat ->
  from_bytes (bytes cs) (common_circuit_data parser) = Ok (payload cs).
Proof.
  intros Hc Hl. unfold bytes. rewrite <-(app_nil_r (payload_bytes _)). apply from_bytes_payload.
  split; simpl; [done|..|by split]; unfold canonical_hash, canonical; simpl; repeat constructor; simpl; lia.
Qed.

Lemma verifies : verify_shrunk_main_pod parser (Plonky2P (x2a : CompressedProof)) statement = Ok tt.
Proof.
  unfold verify_shrunk_main_pod. cbn [decompress checking_plonky2 map_fail rbind verify].
  by rewrite decide_True by done.
Qed.

Lemma accepted : parse_blob parser (bytes [EMPTY_HASH; MkHash 1 1 1 1]) = Ok (Some (payload [EMPTY_HASH; MkHash 1 1 1 1])).
Proof.
  unfold parse_blob. rewrite bytes_decode; [|by repeat constructor|simpl; lia].
  change (finalized_statement _ _) with statement. cbn [proof payload]. by rewrite verifies.
Qed.
End Checking.

(** The proof of a payload is also accepted with a created commitment listed
    twice, and no proof is accepted for other created commitments. *)
Lemma parse_blob_verified_witness :
  is_ok (parse_blob Checking.parser (Checking.bytes [])) = false
  /\ exists p, parse_blob Checking.parser (Checking.bytes [EMPTY_HASH; MkHash 1 1 1 1; EMPTY_HASH]) = Ok (Some p).
Proof.
  assert (Hc : Forall (@canonical_hash Checking.checking_plonky2) [EMPTY_HASH; MkHash 1 1 1 1; EMPTY_HASH]).
  { unfold canonical_hash, canonical; simpl; repeat constructor; simpl; lia. }
  split; [by vm_compute|]. exists (Checking.payload [EMPTY_HASH; MkHash 1 1 1 1; EMPTY_HASH]).
  destruct (@parse_blob_verified _ _ Toy.toy_binding Checking.parser _ Checking.parser_sound
    (Checking.bytes [EMPTY_HASH; MkHash 1 1 1 1])) as [_ Hs].
  destruct (Hs _ Checking.accepted) as (_ & _ & Hset).
  apply (Hset (Checking.bytes [EMPTY_HASH; MkHash 1 1 1 1; EMPTY_HASH])); [|reflexivity..|done|].
  - apply Checking.bytes_decode; [exact Hc|simpl; lia].
  - intros o. cbn [created Checking.payload]. rewrite !elem_of_cons. intuition.
Defined.

Lemma decode_encode_hash `{Pod2Laws} (h : Hash) :
  canonical_hash h -> decode_hash_hex (encode_hash_hex h) = Ok h.
Proof.
  intros Hh. unfold decode_hash_hex, encode_hash_hex.
  rewrite strip_prefix_app. simpl. by rewrite hex_roundtrip.
Qed.

(** Hashes survive their text and database encodings, and a database value
    of any length other than 32 to 39 bytes is refused. *)
Theorem hash_encodings_roundtrip `{Pod2Laws, !Plonky2Laws} (h : Hash) :
  canonical_hash h ->
  decode_hash_hex (encode_hash_hex h) = Ok h
  /\ decode_hash_hex (hash_encode_hex h) = Ok h
  /\ length (hash_to_db_bytes h) = 32%nat
  /\ db_bytes_to_hash (hash_to_db_bytes h) = Ok h
  /\ forall bs, (exists h', db_bytes_to_hash bs = Ok h') <-> (32 <= length bs < 40)%nat.
Proof.
  intros Hh. unfold decode_hash_hex, encode_hash_hex, hash_to_db_bytes.
  rewrite strip_prefix_app, hex_no_prefix. simpl. rewrite !hex_roundtrip by done.
  split_and!; [done..| | |apply db_bytes_to_hash_length].
  - rewrite raw_to_bytes_le by done. rewrite (Blob.length_concat_const 8); [done|].
    apply Forall_fmap, Forall_true. intros. apply length_le_bytes.
  - rewrite raw_to_bytes_le by done. unfold db_bytes_to_hash, whole_chunks.
    rewrite chunks_concat; [|lia|apply Forall_fmap, Forall_true; intros; apply length_le_bytes].
    destruct h as [a b c d]. apply canonical_hash_limbs in Hh. cbn [limbs map].
    rewrite !filter_cons_True by apply length_le_bytes. rewrite filter_nil.
    rewrite !le_value_bytes. simpl in Hh. unfold canonical in Hh. pose proof ORDER_range.
    change (256 ^ Z.of_nat 8)%Z with (2 ^ 64)%Z. cbn [limb0 limb1 limb2 limb3].
    by rewrite !Z.mod_small by lia.
Qed.

Lemma hash_encodings_witness :
  db_bytes_to_hash (@hash_to_db_bytes Toy.toy_pod2 (MkHash 1 2 3 4)) = Ok (MkHash 1 2 3 4).
Proof.
  apply (@hash_encodings_roundtrip _ _ Toy.toy_pod2_laws Toy.toy_plonky2_laws (MkHash 1 2 3 4)).
  unfold canonical_hash, canonical. simpl. repeat constructor; simpl; lia.
Defined.

End Payload.
