(* ===== verification/DonState.v ===== *)
(** * State headers and the derived state (txlib::StateHeader, don_state.rs)

    The record a transaction is grounded in and the state the synchronizer
    derives at one execution block. *)

From S2P Require Import Prelude Pod2.

Module DonState.
Local Open Scope Z_scope.

(** ** txlib: grounding age and state headers *)

Definition MAX_STATE_ROOT_AGE_BLOCKS : Z := 50400.

Definition grounding_aged_out (block grounding_block : Z) : bool :=
  as_i64 (block - grounding_block) >? MAX_STATE_ROOT_AGE_BLOCKS.

Record StateHeader : Type := {
  block_number : Z;
  block_timestamp : Z;
  block_hash : Hash;
  created_root : Hash;
  nullifiers_root : Hash;
  prior_state_history_root : Hash;
}.

Definition StateHeader_new (number timestamp : Z) (bh created nullifiers prior : Hash) : StateHeader :=
  {| block_number := number; block_timestamp := timestamp; block_hash := bh;
     created_root := created; nullifiers_root := nullifiers;
     prior_state_history_root := prior |}.

Definition StateHeader_array `{Pod2} (h : StateHeader) : list Value :=
  [value_of_i64 (block_number h); value_of_i64 (block_timestamp h); block_hash h;
   created_root h; nullifiers_root h; prior_state_history_root h].

Definition StateHeader_hash `{Pod2} (h : StateHeader) : Hash :=
  array_commitment (StateHeader_array h).

(** ** pod2utils: a 256-bit value as four little-endian limbs *)

Definition b256_to_hash `{Pod2} (v : list byte) : Hash :=
  let limb i := from_noncanonical_u64 (le_value (take 8 (drop (8 * i) v))) in
  MkHash (limb 0%nat) (limb 1%nat) (limb 2%nat) (limb 3%nat).

(** ** don_state.rs *)

Record StateRoots : Type := {
  r_created : Hash;
  r_nullifiers : Hash;
  r_prior_state_history : Hash;
  r_next_state_history : Hash;
}.

Definition StateRoots_empty : StateRoots :=
  {| r_created := EMPTY_HASH; r_nullifiers := EMPTY_HASH;
     r_prior_state_history := EMPTY_HASH; r_next_state_history := EMPTY_HASH |}.

Record ExecutionBlock : Type := {
  number : Z;
  timestamp : Z;
  hash : list byte;
}.

Record StateMetadata : Type := {
  state_root : Hash;
  block : ExecutionBlock;
  created_count : Z;
  nullifier_count : Z;
  state_root_count : Z;
}.

Record DonState : Type := {
  roots : StateRoots;
  metadata : StateMetadata;
}.

Definition state_header `{Pod2} (b : ExecutionBlock) (created nullifiers prior : Hash) : StateHeader :=
  StateHeader_new (as_i64 (number b)) (as_i64 (timestamp b)) (b256_to_hash (hash b))
    created nullifiers prior.

Definition DonState_state_header `{Pod2} (s : DonState) : StateHeader :=
  state_header (block (metadata s)) (r_created (roots s)) (r_nullifiers (roots s))
    (r_prior_state_history (roots s)).

(** ** Lemmas *)

Lemma grounding_aged_out_spec b g :
  0 <= b < 2 ^ 62 -> 0 <= g < 2 ^ 62 ->
  grounding_aged_out b g = true <-> MAX_STATE_ROOT_AGE_BLOCKS < b - g.
Proof.
  intros. unfold grounding_aged_out, as_i64. rewrite wraps_id; [lia|lia|].
  change (2 ^ (64 - 1)) with (2 * 2 ^ 62). lia.
Qed.

End DonState.
