(* ===== verification/Podlang.v ===== *)
(** * Podlang: statements, predicates and their meaning

    pod2 proves statements. A native statement relates values (containment and
    updates of Merkle containers, hashes, equality); a custom statement is an
    instance of a predicate written in podlang, a conjunction or a disjunction
    of statement templates over wildcards. pod2 is third-party code: which
    native statements hold, and what its builder accepts, are the operations of
    the classes [Natives] and [Builder] with their documented laws. Predicates
    are data ([Predicate]) so that the modules of the repository
    (libs/txlib/src/predicates/) can be written down as they are; [holds] is
    the meaning they have. The last part is the glue of
    libs/pod2utils/src/macros.rs. *)

From S2P Require Import Prelude Pod2 Models.

Module Podlang.
Local Open Scope Z_scope.

(** ** Statements *)

(** The predicates of the transaction modules, whose meaning the theorems need,
    and the rest of pod2's, which only action scripts use. *)
Inductive ScriptPredicate : Type :=
| NotEqual | IntLt | IntLtEq | IntGt | IntGtEq | Sum | Product | Max
| Contains | NotContains | DictNotContains | SetNotContains
| ContainerInsert | ContainerUpdate | ContainerDelete | SetDelete | ArrayUpdate
| PublicKey | SignedBy.

#[global] Instance ScriptPredicate_eq_dec : EqDecision ScriptPredicate.
Proof. solve_decision. Defined.

Inductive NativePredicate : Type :=
| Equal | HashOf | DictContains | DictInsert | DictUpdate | DictDelete
| SetContains | SetInsert | ArrayContains
| Script (p : ScriptPredicate).

#[global] Instance NativePredicate_eq_dec : EqDecision NativePredicate.
Proof. solve_decision. Defined.

(** A custom predicate is named by its hash. *)
Inductive Pred : Type := NoPred | Native (p : NativePredicate) | Custom (h : Value).

#[global] Instance Pred_eq_dec : EqDecision Pred.
Proof. solve_decision. Defined.

(** An argument is a literal value or an entry: the value a container has at a
    key. *)
Inductive Arg : Type := Lit (v : Value) | Entry (root key : Value).

#[global] Instance Arg_eq_dec : EqDecision Arg.
Proof. solve_decision. Defined.

Record Statement : Type := St { st_pred : Pred; st_args : list Arg }.

(** [Statement::None] *)
Definition st_none : Statement := St NoPred [].

Definition is_none (st : Statement) : bool :=
  match st_pred st with NoPred => true | _ => false end.

(** ** Podlang predicates *)

(** [W x] is the wildcard [x], [L v] a literal, [K x k] the entry [x.k]. *)
Inductive TArg : Type := W (w : string) | L (v : Value) | K (w : string) (key : Value).

(** A template refers to a native predicate, to a predicate of the modules, or
    to the predicate whose hash a wildcard holds. *)
Inductive TPred : Type := TNative (p : NativePredicate) | TCustom (name : string) | TDyn (w : string).

Record Template : Type := T { t_pred : TPred; t_args : list TArg }.

Inductive Connective : Type := AND | OR.

Record Predicate : Type := MkPred {
  p_name : string;
  p_args : list string;
  p_conn : Connective;
  p_sts : list Template;
}.

(** The hash by which a predicate is referred to. *)
Class PredicateHash : Type := predicate_hash : string -> Value.

(** ** Meaning *)

Class Natives `{Pod2} : Type := {
  (** Entries of dictionaries and arrays. *)
  contains : Value -> Value -> Value -> Prop;
  dict_insert : Value -> Value -> Value -> Value -> Prop;
  dict_update : Value -> Value -> Value -> Value -> Prop;
  dict_delete : Value -> Value -> Value -> Prop;
  set_contains : Value -> Value -> Prop;
  set_insert : Value -> Value -> Value -> Prop;
  (** The predicates only scripts use. *)
  script_native : ScriptPredicate -> list Value -> Prop;
}.

(** Statements about a container whose contents are known say what the
    container operation does, and a commitment has one value at a key. *)
Class NativeLaws `{Natives} : Prop := {
  value_of_str_inj : Inj (=) (=) value_of_str;
  value_of_i64_inj a b :
    (0 <= a < 2 ^ 63) -> (0 <= b < 2 ^ 63) -> value_of_i64 a = value_of_i64 b -> a = b;
  empty_set_value : set_commitment ∅ = EMPTY_HASH;
  empty_dict_value : dict_commitment ∅ = EMPTY_HASH;
  contains_functional r k v v' : contains r k v -> contains r k v' -> v = v';
  contains_dict d k v :
    contains (dict_commitment d) k v <-> exists s, k = value_of_str s /\ d !! s = Some v;
  contains_array l k v :
    contains (array_commitment l) k v <-> exists i, k = value_of_i64 (Z.of_nat i) /\ l !! i = Some v;
  dict_insert_spec d k v r :
    dict_insert (dict_commitment d) (value_of_str k) v r
    <-> d !! k = None /\ r = dict_commitment (<[k := v]> d);
  dict_update_spec d k v r :
    dict_update (dict_commitment d) (value_of_str k) v r
    <-> is_Some (d !! k) /\ r = dict_commitment (<[k := v]> d);
  dict_delete_spec d k r :
    dict_delete (dict_commitment d) (value_of_str k) r
    <-> is_Some (d !! k) /\ r = dict_commitment (delete k d);
  set_contains_spec s v : set_contains (set_commitment s) v <-> v ∈ s;
  set_insert_spec s v r :
    set_insert (set_commitment s) v r <-> v ∉ s /\ r = set_commitment ({[v]} ∪ s);
}.

Definition native_holds `{Natives} (p : NativePredicate) (vs : list Value) : Prop :=
  match p, vs with
  | Equal, [a; b] => a = b
  | HashOf, [a; b; h] => h = hash_values [a; b]
  | DictContains, [d; k; v] => contains d k v
  | ArrayContains, [a; i; v] => contains a i v
  | DictInsert, [d; k; v; d'] => dict_insert d k v d'
  | DictUpdate, [d; k; v; d'] => dict_update d k v d'
  | DictDelete, [d; k; d'] => dict_delete d k d'
  | SetContains, [s; v] => set_contains s v
  | SetInsert, [s; v; s'] => set_insert s v s'
  | Script q, _ => script_native q vs
  | _, _ => False
  end.

(** The predicates of other modules (the guards of object classes among them):
    when they hold is theirs to say. *)
Class External : Type := external : Value -> list Value -> Prop.

Section Meaning.
Context `{Natives, PredicateHash, External} (modules : list Predicate).

Definition arg_value (a : Arg) (v : Value) : Prop :=
  match a with Lit x => v = x | Entry root key => contains root key v end.

Definition targ_value (σ : string -> Value) (a : TArg) (v : Value) : Prop :=
  match a with W w => v = σ w | L x => v = x | K w key => contains (σ w) key v end.

Definition pred_of (σ : string -> Value) (p : TPred) : Pred :=
  match p with
  | TNative q => Native q
  | TCustom name => Custom (predicate_hash name)
  | TDyn w => Custom (σ w)
  end.

(** [holds n p vs]: [p] holds of [vs] by a proof of depth at most [n]. *)
Fixpoint holds (n : nat) (p : Pred) (vs : list Value) : Prop :=
  match n with
  | O => False
  | S n' =>
      match p with
      | NoPred => False
      | Native q => native_holds q vs
      | Custom h =>
          external h vs
          \/ exists P σ, P ∈ modules /\ h = predicate_hash (p_name P) /\ vs = σ <$> p_args P
             /\ let instance t := exists ws, Forall2 (targ_value σ) (t_args t) ws
                                             /\ holds n' (pred_of σ (t_pred t)) ws in
                match p_conn P with
                | AND => Forall instance (p_sts P)
                | OR => Exists instance (p_sts P)
                end
      end
  end.

Definition true_of (p : Pred) (vs : list Value) : Prop := exists n, holds n p vs.

(** A statement is true if it is for the values of its arguments. *)
Definition valid (st : Statement) : Prop :=
  exists vs, Forall2 arg_value (st_args st) vs /\ true_of (st_pred st) vs.

Lemma holds_mono n m p vs : (n <= m)%nat -> holds n p vs -> holds m p vs.
Proof.
  revert m p vs. induction n as [|n IH]; intros m p vs Hnm; simpl; [done|].
  destruct m as [|m]; [lia|]. simpl. destruct p as [|q|h]; try done.
  intros [He|(P & σ & HP & -> & -> & Hb)]; [by left|right]. exists P, σ. split_and!; try done.
  destruct (p_conn P).
  - eapply Forall_impl; [exact Hb|]. intros t (ws & Hws & Ht). exists ws. split; [done|]. apply IH; [lia|done].
  - eapply Exists_impl; [exact Hb|]. intros t (ws & Hws & Ht). exists ws. split; [done|]. apply IH; [lia|done].
Qed.

Lemma true_of_custom P σ :
  P ∈ modules ->
  (let instance t := exists ws, Forall2 (targ_value σ) (t_args t) ws
                                /\ true_of (pred_of σ (t_pred t)) ws in
   match p_conn P with
   | AND => Forall instance (p_sts P)
   | OR => Exists instance (p_sts P)
   end) ->
  true_of (Custom (predicate_hash (p_name P))) (σ <$> p_args P).
Proof.
  intros HP Hb. simpl in Hb. destruct (p_conn P) eqn:Hc.
  - assert (Hn : exists n, Forall (fun t => exists ws, Forall2 (targ_value σ) (t_args t) ws
      /\ holds n (pred_of σ (t_pred t)) ws) (p_sts P)).
    { clear HP Hc. induction Hb as [|t ts (ws & Hws & n & Ht) _ [m IH]]; [by exists 0%nat|].
      exists (n + m)%nat. constructor.
      - exists ws. split; [done|]. eapply holds_mono; [|exact Ht]. lia.
      - eapply Forall_impl; [exact IH|]. intros t' (ws' & ? & Ht'). exists ws'. split; [done|].
        eapply holds_mono; [|exact Ht']. lia. }
    destruct Hn as [n Hn]. exists (S n). simpl. right. exists P, σ. rewrite Hc. done.
  - apply Exists_exists in Hb as (t & Ht & ws & Hws & n & Hn). exists (S n). simpl. right.
    exists P, σ. rewrite Hc. split_and!; try done. apply Exists_exists. eauto.
Qed.
End Meaning.

(** ** The builder *)

Definition match_arg (σ : string -> Value) (t : TArg) (a : Arg) : bool :=
  match t, a with
  | W w, Lit v => bool_decide (σ w = v)
  | L x, Lit v => bool_decide (x = v)
  | K w k, Entry r k' => bool_decide (σ w = r) && bool_decide (k = k')
  | _, _ => false
  end.

Fixpoint match_args (σ : string -> Value) (ts : list TArg) (l : list Arg) : bool :=
  match ts, l with
  | [], [] => true
  | t :: ts', a :: l' => match_arg σ t a && match_args σ ts' l'
  | _, _ => false
  end.

(** A statement is an instance of a template. *)
Definition matches `{PredicateHash} (σ : string -> Value) (t : Template) (st : Statement) : bool :=
  bool_decide (pred_of σ (t_pred t) = st_pred st) && match_args σ (t_args t) (st_args st).

(** The templates of [P] with the statements given for them; a disjunction
    leaves out all but one. *)
Definition slots (P : Predicate) (sts : list Statement) : list (Template * Statement) :=
  filter (fun ts => is_none (snd ts) = false) (zip (p_sts P) sts).

Definition slots_ok (P : Predicate) (sts : list Statement) : bool :=
  bool_decide (length sts = length (p_sts P))
  && bool_decide (length (slots P sts) = match p_conn P with AND => length (p_sts P) | OR => 1%nat end).

Definition instance `{PredicateHash} (P : Predicate) (σ : string -> Value) (sts : list Statement) : bool :=
  slots_ok P sts && forallb (fun ts => matches σ (fst ts) (snd ts)) (slots P sts).

(** The wildcards a list of statements determines. *)
Definition targ_wildcard (a : TArg) : list string :=
  match a with W w | K w _ => [w] | L _ => [] end.
Definition wildcards (t : Template) : list string :=
  match t_pred t with TDyn w => [w] | _ => [] end ++ (t_args t ≫= targ_wildcard).
Definition bound (P : Predicate) (sts : list Statement) : list string :=
  slots P sts ≫= fun ts => wildcards (fst ts).

(** pod2's [MultiPodBuilder]: operations that check a statement and add it, or
    fail. *)
Class Builder `{Natives, PredicateHash} : Type := {
  MerkleProof : Type;
  (** [priv_op] with a native operation; with one that carries a Merkle proof;
      with [Operation::replace_value_with_entry]; with a custom predicate. *)
  native_op : NativePredicate -> list Arg -> Result Statement;
  proof_op : Value -> Value -> Value -> MerkleProof -> Result Statement;
  replace_op : list (option Arg) -> Statement -> Result Statement;
  custom_op : Predicate -> list (string * Value) -> list Statement -> Result Statement;
  (** The proof shows that the array of that root has the value at the index. *)
  proof_ok : Value -> Value -> Value -> MerkleProof -> Prop;
}.

(** Replacing literals by entries of the same value. *)
Inductive replaces `{Natives} : list (option Arg) -> list Arg -> list Arg -> Prop :=
| replaces_nil : replaces [] [] []
| replaces_none es a l l' : replaces es l l' -> replaces (None :: es) (a :: l) (a :: l')
| replaces_some es e v l l' :
    arg_value e v -> replaces es l l' -> replaces (Some e :: es) (Lit v :: l) (e :: l').

(** What the builder accepts. *)
Class BuilderLaws `{Builder} : Prop := {
  native_op_ok p l vs :
    Forall2 arg_value l vs -> native_holds p vs -> native_op p l = Ok (St (Native p) l);
  proof_op_ok root i v pi :
    proof_ok root i v pi -> proof_op root i v pi = Ok (St (Native ArrayContains) [Lit root; Lit i; Lit v]);
  proof_ok_contains root i v pi : proof_ok root i v pi -> contains root i v;
  replace_op_ok es p l l' : replaces es l l' -> replace_op es (St p l) = Ok (St p l');
  custom_op_ok P hints sts σ :
    instance P σ sts = true -> (forall w v, (w, v) ∈ hints -> σ w = v) ->
    (forall w, w ∈ p_args P -> w ∈ hints.*1 \/ w ∈ bound P sts) ->
    custom_op P hints sts = Ok (St (Custom (predicate_hash (p_name P))) ((fun w => Lit (σ w)) <$> p_args P));
}.

Section Instances.
Context `{Natives, PredicateHash, External} (modules : list Predicate).

Lemma match_args_value σ ts l vs :
  match_args σ ts l = true -> Forall2 arg_value l vs -> Forall2 (targ_value σ) ts vs.
Proof.
  revert l vs. induction ts as [|t ts IH]; intros [|a l] vs; simpl; try done; [by intros _ ->%Forall2_nil_inv_l|].
  rewrite andb_true_iff. intros [Ha Hl] Hv. apply Forall2_cons_inv_l in Hv as (v & vs' & Hv & Hvs & ->).
  constructor; [|by apply (IH l)].
  destruct t as [w|x|w k], a as [y|r k']; simpl in *; try done; rewrite ?andb_true_iff, ?bool_decide_eq_true in Ha;
    by repeat match goal with Hx : _ /\ _ |- _ => destruct Hx end; subst.
Qed.

(** What the builder makes of true statements is true. *)
Lemma instance_valid P σ sts :
  P ∈ modules -> instance P σ sts = true ->
  (forall st, st ∈ sts -> is_none st = false -> valid modules st) ->
  true_of modules (Custom (predicate_hash (p_name P))) (σ <$> p_args P).
Proof.
  intros HP Hi Hv. apply true_of_custom; [done|]. simpl.
  apply andb_true_iff in Hi as [Hok Hm]. apply andb_true_iff in Hok as [Hlen Hcnt].
  rewrite bool_decide_eq_true in Hlen, Hcnt. rewrite forallb_forall in Hm.
  assert (Hslot : forall t st, (t, st) ∈ slots P sts -> exists ws,
    Forall2 (targ_value σ) (t_args t) ws /\ true_of modules (pred_of σ (t_pred t)) ws).
  { intros t st Hin. pose proof (Hm (t, st) (proj1 (list_elem_of_In _ _) Hin)) as Hmt. simpl in Hmt.
    apply list_elem_of_filter in Hin as [Hnone Hin]. apply elem_of_zip_r in Hin.
    apply andb_true_iff in Hmt as [Hp Ha]. rewrite bool_decide_eq_true in Hp.
    destruct (Hv st Hin Hnone) as (vs & Hvs & Ht). exists vs. rewrite Hp. split; [|done].
    by eapply match_args_value. }
  destruct (p_conn P).
  - apply Forall_forall. intros t Ht.
    apply list_elem_of_lookup_1 in Ht as [i Hi].
    destruct (lookup_lt_is_Some_2 sts i) as [st Hst]; [rewrite Hlen; by eapply lookup_lt_Some|].
    apply (Hslot t st). apply list_elem_of_filter.
    assert (Hin : (t, st) ∈ zip (p_sts P) sts)
      by (apply (list_elem_of_lookup_2 _ i), lookup_zip_Some; done).
    split; [|done]. simpl. destruct (is_none st) eqn:En; [|done]. exfalso.
    pose proof (length_filter_lt (fun ts : Template * Statement => is_none (snd ts) = false)
      (zip (p_sts P) sts) (t, st) Hin) as Hlt. simpl in Hlt. rewrite En in Hlt. specialize (Hlt ltac:(done)).
    fold (slots P sts) in Hlt. rewrite Hcnt, length_zip in Hlt. lia.
  - destruct (slots P sts) as [|[t st] l] eqn:E; [done|]. apply Exists_exists. exists t. split.
    + assert (Hin : (t, st) ∈ slots P sts) by (rewrite E; by left).
      apply list_elem_of_filter in Hin as [_ Hin]. by apply elem_of_zip_l in Hin.
    + eapply Hslot. by left.
Qed.
End Instances.

(** ** pod2utils: applying predicates by name *)

Section Apply.
Context `{Builder} (modules : list Predicate).

Definition find_custom_pred_by_name (name : string) : option Predicate :=
  snd <$> list_find (fun P => p_name P = name) modules.

(** Hints for wildcards that the predicate does not have are dropped; the
    operation is unwrapped. *)
Definition pred_wildcards (P : Predicate) : list string :=
  p_args P ++ (p_sts P ≫= wildcards).

Definition apply_custom_pred (name : string) (wildcard_map : list (string * Value))
    (sts : list Statement) : Result Statement :=
  match find_custom_pred_by_name name with
  | None => Err (Panic "predicate not found")
  | Some P =>
      runwrap (custom_op P (filter (fun wv => fst wv ∈ pred_wildcards P) wildcard_map) sts)
  end.

Definition apply_custom_pred_simple (name : string) (sts : list Statement) : Result Statement :=
  match find_custom_pred_by_name name with
  | None => Err (Panic "predicate not found")
  | Some P => custom_op P [] sts
  end.

(** [st_custom!]: the statements are given or made by native operations, whose
    errors it returns. *)
Definition st_custom (name : string) (wildcard_values : list (string * Value))
    (sts : list (Result Statement)) : Result Statement :=
  let? _ := expect (find_custom_pred_by_name name) "predicate exists" in
  let? input_sts := try_map id sts in
  apply_custom_pred name wildcard_values input_sts.
End Apply.

(** ** A concrete builder

    On the encodings of [Models.Toy], where commitments can be opened. *)
Module ToyPod.
Import Toy.

Definition opened {A} `{Countable A} (tag : Z) (empty : A) (r : Value) : option A :=
  if decide (r = EMPTY_HASH) then Some empty
  else match r with
       | MkHash (Zpos p) 0 0 t => if decide (t = tag) then decode p else None
       | _ => None
       end.

Lemma opened_commit {A} `{Countable A} tag (empty a : A) : opened tag empty (commit_of tag empty a) = Some a.
Proof.
  unfold opened, commit_of. destruct (decide (a = empty)) as [->|Ha]; [done|].
  rewrite decide_False by done. rewrite decide_True by done. apply decode_encode.
Qed.

Lemma opened_other {A B} `{Countable A, Countable B} t u (ea a : A) (eb : B) :
  t <> u -> a <> ea -> opened u eb (commit_of t ea a) = None.
Proof.
  intros Ht Ha. unfold opened, commit_of. destruct (decide (a = ea)) as [->|]; [done|].
  rewrite decide_False by done. by rewrite decide_False.
Qed.

Definition open_array : Value -> option (list Value) := opened 1 [].
Definition open_set : Value -> option (gset Value) := opened 2 ∅.
Definition open_dict : Value -> option (gmap string Value) := opened 3 ∅.
Definition open_i64 (v : Value) : option Z :=
  match v with MkHash 1 z 0 0 => Some z | _ => None end.
Definition find_key (d : gmap string Value) (k : Value) : option string :=
  fst <$> (snd <$> list_find (fun kv : string * Value => value_of_str (fst kv) = k) (map_to_list d)).

(** The value a container has at a key. *)
Definition entry_of (r k : Value) : option Value :=
  match open_dict r ≫= fun d => find_key d k ≫= fun s => d !! s with
  | Some v => Some v
  | None => match open_array r, open_i64 k with
            | Some l, Some z => if z <? 0 then None else l !! Z.to_nat z
            | _, _ => None
            end
  end.

Definition open_str (v : Value) : option string :=
  match v with MkHash 2 (Zpos p) 0 0 => decode p | _ => None end.

Definition dict_op (f : string -> gmap string Value -> option (gmap string Value)) (r k r' : Value) : Prop :=
  match open_dict r ≫= fun d => open_str k ≫= fun s => f s d with
  | Some d' => r' = dict_commitment d'
  | None => False
  end.
#[export] Instance dict_op_dec f r k r' : Decision (dict_op f r k r').
Proof. unfold dict_op. case_match; apply _. Defined.

#[export] Instance toy_natives : Natives := {|
  contains r k v := entry_of r k = Some v;
  dict_insert r k v r' :=
    dict_op (fun s d => if decide (d !! s = None) then Some (<[s := v]> d) else None) r k r';
  dict_update r k v r' :=
    dict_op (fun s d => if decide (d !! s = None) then None else Some (<[s := v]> d)) r k r';
  dict_delete r k r' :=
    dict_op (fun s d => if decide (d !! s = None) then None else Some (delete s d)) r k r';
  set_contains r v := match open_set r with Some s => v ∈ s | None => False end;
  set_insert r v r' := match open_set r with Some s => v ∉ s /\ r' = set_commitment ({[v]} ∪ s) | None => False end;
  script_native _ _ := True;
|}.

Lemma find_key_spec d s : is_Some (d !! s) -> find_key d (value_of_str s) = Some s.
Proof.
  intros [v Hv]. unfold find_key.
  destruct (list_find _ (map_to_list d)) as [[i [s' v']]|] eqn:E; simpl.
  - apply list_find_Some in E as (_ & E & _). simpl in E. injection E as E. by apply (inj encode) in E as ->.
  - exfalso. eapply list_find_None in E. rewrite Forall_forall in E.
    apply (E (s, v)); [by apply elem_of_map_to_list|done].
Qed.

Lemma find_key_Some d k s : find_key d k = Some s -> k = value_of_str s.
Proof.
  unfold find_key. destruct (list_find _ (map_to_list d)) as [[i [s' v']]|] eqn:E; simpl; [|done].
  intros [= <-]. by apply list_find_Some in E as (_ & <- & _).
Qed.

Lemma open_dict_of d : open_dict (dict_commitment d) = Some d.
Proof. exact (opened_commit 3 ∅ d). Qed.
Lemma open_array_of l : open_array (array_commitment l) = Some l.
Proof. exact (opened_commit 1 [] l). Qed.
Lemma open_set_of s : open_set (set_commitment s) = Some s.
Proof. exact (opened_commit 2 ∅ s). Qed.
Lemma open_str_of s : open_str (value_of_str s) = Some s.
Proof. exact (decode_encode s). Qed.

Lemma open_dict_array l d : open_dict (array_commitment l) = Some d -> d = ∅ /\ l = [].
Proof.
  intros Ho. destruct (decide (l = [])) as [->|Hl]; [by injection Ho as <-|].
  assert (Hn : open_dict (array_commitment l) = None) by (apply (opened_other 1 3 [] l ∅); done).
  congruence.
Qed.

Lemma open_array_dict d l : open_array (dict_commitment d) = Some l -> d = ∅ /\ l = [].
Proof.
  intros Ho. destruct (decide (d = ∅)) as [->|Hd]; [by injection Ho as <-|].
  assert (Hn : open_array (dict_commitment d) = None) by (apply (opened_other 3 1 ∅ d []); done).
  congruence.
Qed.

Lemma entry_of_dict d k v :
  entry_of (dict_commitment d) k = Some v <-> exists s, k = value_of_str s /\ d !! s = Some v.
Proof.
  unfold entry_of. rewrite open_dict_of. cbn [mbind option_bind]. split.
  - destruct (find_key d k) as [s|] eqn:Ek; cbn [mbind option_bind].
    + apply find_key_Some in Ek. destruct (d !! s) as [v'|] eqn:Ed; [intros [= <-]; eauto|].
      destruct (open_array _) as [l|] eqn:El; [|done]. apply open_array_dict in El as [-> ->].
      destruct (open_i64 k); [case_match|]; by rewrite ?lookup_nil.
    + destruct (open_array _) as [l|] eqn:El; [|done]. apply open_array_dict in El as [-> ->].
      destruct (open_i64 k); [case_match|]; by rewrite ?lookup_nil.
  - intros (s & -> & Hs). rewrite find_key_spec by eauto. cbn [mbind option_bind]. by rewrite Hs.
Qed.

Lemma entry_of_array l k v :
  entry_of (array_commitment l) k = Some v <-> exists i, k = value_of_i64 (Z.of_nat i) /\ l !! i = Some v.
Proof.
  unfold entry_of. rewrite open_array_of.
  assert (Hd : (open_dict (array_commitment l) ≫= fun d => find_key d k ≫= fun s => d !! s) = None).
  { destruct (open_dict _) as [d|] eqn:Ed; [|done]. by apply open_dict_array in Ed as [-> ->]. }
  rewrite Hd. split.
  - unfold open_i64. destruct k as [[|[]|] z [] []]; try done. case_match; [done|].
    intros Hl. exists (Z.to_nat z). split; [|done]. simpl. rewrite Z2Nat.id by lia. done.
  - intros (i & -> & Hi). simpl. destruct (Z.ltb_spec (Z.of_nat i) 0); [lia|]. by rewrite Nat2Z.id.
Qed.

#[export] Instance toy_native_laws : NativeLaws.
Proof.
  split; cbn [contains dict_insert dict_update dict_delete set_contains set_insert toy_natives];
    intros; unfold dict_op; rewrite ?open_dict_of, ?open_str_of, ?open_set_of; cbn [mbind option_bind].
  - intros a b [= Heq]. by apply (inj encode).
  - by match goal with E : value_of_i64 _ = _ |- _ => injection E end.
  - done.
  - done.
  - congruence.
  - apply entry_of_dict.
  - apply entry_of_array.
  - case_decide; naive_solver.
  - rewrite <-not_eq_None_Some. case_decide; naive_solver.
  - rewrite <-not_eq_None_Some. case_decide; naive_solver.
  - done.
  - done.
Qed.
(** The values of arguments, and whether a native statement holds of them. *)
Definition value_of (a : Arg) : option Value :=
  match a with Lit v => Some v | Entry r k => entry_of r k end.

#[export] Instance native_holds_dec p vs : Decision (native_holds p vs).
Proof.
  destruct p; simpl; repeat (case_match; try apply _);
    unfold contains, dict_insert, dict_update, dict_delete, set_contains, set_insert, script_native, toy_natives;
    try apply _; case_match; apply _.
Defined.

Lemma value_of_arg l vs : Forall2 arg_value l vs -> mapM value_of l = Some vs.
Proof.
  intros Hl. apply mapM_Some. eapply Forall2_impl; [exact Hl|]. intros [v|r k] x; simpl; [by intros ->|done].
Qed.

(** The wildcards that a statement determines when it is given for a template. *)
Definition bind_arg (ta : TArg * Arg) : list (string * Value) :=
  match ta with
  | (W w, Lit v) => [(w, v)]
  | (K w _, Entry r _) => [(w, r)]
  | _ => []
  end.

Definition bindings (t : Template) (st : Statement) : list (string * Value) :=
  match t_pred t, st_pred st with TDyn w, Custom h => [(w, h)] | _, _ => [] end
  ++ (zip (t_args t) (st_args st) ≫= bind_arg).

Definition assignment (l : list (string * Value)) (w : string) : Value :=
  default EMPTY_HASH (snd <$> (snd <$> list_find (fun wv => fst wv = w) l)).

Definition toy_hash : PredicateHash := fun s => MkHash 4 (Zpos (encode s)) 0 0.
#[export] Existing Instance toy_hash.

Fixpoint replace_all (es : list (option Arg)) (l : list Arg) : option (list Arg) :=
  match es, l with
  | [], [] => Some []
  | None :: es', a :: l' => cons a <$> replace_all es' l'
  | Some e :: es', Lit v :: l' =>
      if decide (value_of e = Some v) then cons e <$> replace_all es' l' else None
  | _, _ => None
  end.

#[export] Instance toy_builder : Builder := {|
  MerkleProof := unit;
  native_op p l :=
    match mapM value_of l with
    | Some vs => if decide (native_holds p vs) then Ok (St (Native p) l) else Err (Fail "not true")
    | None => Err (Fail "no entry")
    end;
  proof_op r i v _ :=
    if decide (entry_of r i = Some v) then Ok (St (Native ArrayContains) [Lit r; Lit i; Lit v])
    else Err (Fail "invalid proof");
  replace_op es st :=
    match replace_all es (st_args st) with
    | Some l => Ok (St (st_pred st) l)
    | None => Err (Fail "no such entry")
    end;
  custom_op P hints sts :=
    let σ := assignment (hints ++ (slots P sts ≫= fun ts => bindings (fst ts) (snd ts))) in
    if instance P σ sts
    then Ok (St (Custom (predicate_hash (p_name P))) ((fun w => Lit (σ w)) <$> p_args P))
    else Err (Fail "statements do not match");
  proof_ok r i v _ := entry_of r i = Some v;
|}.

Lemma assignment_spec l w v (σ : string -> Value) :
  (forall w' v', (w', v') ∈ l -> σ w' = v') -> (w, v) ∈ l -> assignment l w = σ w.
Proof.
  intros Hl Hin. unfold assignment. destruct (list_find _ l) as [[i [w' v']]|] eqn:E; simpl.
  - apply list_find_Some in E as (Hi & E & _). simpl in E. subst w'. symmetry. apply Hl.
    by eapply list_elem_of_lookup_2.
  - exfalso. eapply list_find_None in E. rewrite Forall_forall in E. by apply (E (w, v)).
Qed.

Lemma match_args_bind σ ts l :
  match_args σ ts l = true ->
  (forall w v, (w, v) ∈ (zip ts l ≫= bind_arg) -> σ w = v)
  /\ (forall w, w ∈ (ts ≫= targ_wildcard) -> exists v, (w, v) ∈ (zip ts l ≫= bind_arg)).
Proof.
  revert l. induction ts as [|t ts IH]; intros [|a l]; simpl; try done; [by split; intros * ?%elem_of_nil|].
  rewrite andb_true_iff. intros [Ha Hl]. destruct (IH l Hl) as [IH1 IH2]. clear IH. split.
  - intros w v [Hin|Hin]%elem_of_app; [|by apply IH1].
    destruct t, a; simpl in *; try done; rewrite ?andb_true_iff, ?bool_decide_eq_true in Ha; set_solver.
  - intros w [Hin|Hin]%elem_of_app; [|destruct (IH2 w Hin) as [v Hv]; exists v; set_solver].
    destruct t, a; simpl in *; try done; set_solver.
Qed.

Lemma matches_bind σ t st :
  matches σ t st = true ->
  (forall w v, (w, v) ∈ bindings t st -> σ w = v)
  /\ (forall w, w ∈ wildcards t -> exists v, (w, v) ∈ bindings t st).
Proof.
  intros [Hp Ha]%andb_true_iff. rewrite bool_decide_eq_true in Hp. destruct (match_args_bind _ _ _ Ha) as [H1 H2].
  unfold bindings, wildcards. rewrite <-Hp. split.
  - intros w v [Hin|Hin]%elem_of_app; [|by apply H1]. destruct (t_pred t); simpl in *; set_solver.
  - intros w [Hin|Hin]%elem_of_app; [|destruct (H2 w Hin) as [v Hv]; exists v; set_solver].
    destruct (t_pred t); simpl in *; set_solver.
Qed.

Lemma match_args_ext σ σ' ts l :
  (forall w, w ∈ (ts ≫= targ_wildcard) -> σ w = σ' w) -> match_args σ ts l = match_args σ' ts l.
Proof.
  revert l. induction ts as [|t ts IH]; intros [|a l] He; simpl; try done.
  rewrite (IH l) by set_solver. f_equal. destruct t, a; simpl; try done; by rewrite He by set_solver.
Qed.

Lemma matches_ext σ σ' t st :
  (forall w, w ∈ wildcards t -> σ w = σ' w) -> matches σ t st = matches σ' t st.
Proof.
  intros He. unfold matches, wildcards in *. rewrite (match_args_ext σ σ') by set_solver.
  f_equal. destruct (t_pred t); simpl; try done. by rewrite He by set_solver.
Qed.

Lemma replaces_all es l l' : replaces es l l' -> replace_all es l = Some l'.
Proof.
  induction 1 as [|es a l l' _ IH|es e v l l' He _ IH]; simpl; [done|by rewrite IH|].
  rewrite decide_True by (by destruct e; simpl in *; subst). by rewrite IH.
Qed.

#[export] Instance toy_builder_laws : BuilderLaws.
Proof.
  split; cbn [native_op proof_op replace_op custom_op proof_ok toy_builder]; intros.
  - rewrite (value_of_arg l vs) by done. by rewrite decide_True.
  - by rewrite decide_True.
  - done.
  - simpl. by erewrite replaces_all.
  - match goal with Hi : instance P σ sts = true |- _ => rename Hi into Hinst end.
    match goal with Hh : forall w v, _ -> σ w = v |- _ => rename Hh into Hh1 end.
    match goal with Hh : forall w, _ -> _ \/ _ |- _ => rename Hh into Hb end.
    pose proof Hinst as Hi. apply andb_true_iff in Hi as [Hok Hm]. rewrite forallb_forall in Hm.
    set (bs := hints ++ _). assert (Hbs : forall w v, (w, v) ∈ bs -> σ w = v).
    { intros w v [Hin|([t st] & Hin & Hts)%list_elem_of_bind]%elem_of_app; [by apply Hh1|].
      eapply matches_bind; [|exact Hin]. by apply (Hm (t, st)), list_elem_of_In. }
    assert (Hslot : forall t st w, (t, st) ∈ slots P sts -> w ∈ wildcards t -> assignment bs w = σ w).
    { intros t st w Hts Hw. destruct (proj2 (matches_bind σ t st ltac:(by apply (Hm (t, st)), list_elem_of_In)) w Hw) as [v Hv].
      eapply assignment_spec; [exact Hbs|]. apply elem_of_app. right. apply list_elem_of_bind. by exists (t, st). }
    assert (Hi' : instance P (assignment bs) sts = true).
    { unfold instance. rewrite Hok. simpl. apply forallb_forall. intros [t st] Hin%list_elem_of_In.
      erewrite (matches_ext _ σ); [by apply (Hm (t, st)), list_elem_of_In|]. intros w Hw. by eapply Hslot. }
    rewrite Hi'. f_equal. f_equal. apply list_fmap_ext. intros i w Hw%list_elem_of_lookup_2. f_equal.
    destruct (Hb w Hw) as [([w' v] & -> & Hin)%list_elem_of_fmap|([t st] & Hin & Hts)%list_elem_of_bind].
    + eapply assignment_spec; [exact Hbs|]. apply elem_of_app. by left.
    + by eapply Hslot.
Qed.
End ToyPod.

End Podlang.
