(* ===== verification/TxModel.v ===== *)
(** * Objects, transaction contexts and what a transaction is (libs/txlib)

    The functions of lib.rs on objects, the transaction context of replay.rs,
    and the specification that the predicates and the builder are measured
    against: a transaction is a sequence of actions, trees of insertions,
    mutations and deletions, and [replays] says when such a tree is legal and
    which objects it creates and which nullifiers it emits. *)

From S2P Require Import Prelude Pod2 Models Podlang.

Module TxModel.
Import Podlang.
Local Open Scope Z_scope.

(** ** Objects (lib.rs) *)

Definition OBJECT_NULLIFIER_VERSION : string := "txlib-nullifier-v1".
Definition STABLE_IDENTIFIER_FIELD : string := "stable_identifier".

Section Objects.
Context `{Pod2, Containers}.

Definition object_key_hash (o : Dictionary) : Result Hash :=
  let? key := ok_or (o !! "key") "object missing required key field" in
  Ok (hash_values [dict_commitment o; key]).

Definition object_type (o : Dictionary) : Result Value :=
  expect (o !! "type") "object missing required type field".

Definition object_nullifier_from_key_hash (h : Hash) : Hash :=
  hash_values [h; value_of_str OBJECT_NULLIFIER_VERSION].

Definition object_nullifier_hash (o : Dictionary) : Result Hash :=
  rmap object_nullifier_from_key_hash (object_key_hash o).

Definition compute_nullifier (o : Dictionary) : Result Hash :=
  runwrap (object_nullifier_hash o).

(** [rand_raw_value()] is an argument. *)
Definition rekey_object (random : Value) (o : Dictionary) : Result Dictionary :=
  runwrap (dict_upd o "key" random).

Definition new_obj (random : Value) : Dictionary := {["key" := random]}.

Definition with_stable_identifier (initial : Dictionary) : Result Dictionary :=
  try_fold (fun new kv => runwrap (dict_ins new (fst kv) (snd kv)))
    {[STABLE_IDENTIFIER_FIELD := dict_commitment initial]} (map_to_list initial).

(** ** The transaction context (lib.rs, replay.rs) *)

Definition build_tx (inputs created nullifiers : gset Value) (chain_start chain_end : Hash) : Dictionary :=
  <["inputs" := set_commitment inputs]> (<["created" := set_commitment created]>
  (<["nullifiers" := set_commitment nullifiers]> (<["chain_start" := chain_start]>
  {["chain_end" := chain_end]}))).

Definition tx_with (tx : Dictionary) (key : string) (value : Value) : Result Dictionary :=
  runwrap (dict_upd tx key value).
End Objects.

Record ReplayFrame : Type := MkFrame {
  rf_inputs : gset Value;
  rf_created : gset Value;
  rf_nullifiers : gset Value;
  rf_chain_start : Hash;
  rf_chain_end : Hash;
}.

Definition with_created (f : ReplayFrame) (created : gset Value) : ReplayFrame :=
  MkFrame (rf_inputs f) created (rf_nullifiers f) (rf_chain_start f) (rf_chain_end f).

Definition advance (f : ReplayFrame) (created nullifiers : gset Value) : ReplayFrame :=
  MkFrame (rf_inputs f) created nullifiers (rf_chain_start f) (rf_chain_end f).

Definition rescope (f : ReplayFrame) (chain_start chain_end : Hash) : ReplayFrame :=
  MkFrame (rf_inputs f) (rf_created f) (rf_nullifiers f) chain_start chain_end.

Definition to_tx_dict `{Pod2} (f : ReplayFrame) : Dictionary :=
  build_tx (rf_inputs f) (rf_created f) (rf_nullifiers f) (rf_chain_start f) (rf_chain_end f).

(** ** Specification *)

(** Objects are known by their commitments. *)
Inductive Event : Type :=
| EInsert (initial new : Value)
| EMutate (old new : Value)
| EDelete (old : Value)
| EAction (body : list Event).

Section Spec.
Context `{Natives} (guard : Value -> Value -> Value -> Value -> Prop).

(** The hash chain: every insertion, mutation and deletion extends it, an
    action by the events of its body. *)
Definition event_step (chain before after : Value) : Value :=
  hash_values [chain; hash_values [before; after]].

(** The nullifier of an object. *)
Definition nullifies (obj nul : Value) : Prop :=
  exists key, contains obj (value_of_str "key") key
    /\ nul = hash_values [hash_values [obj; key]; value_of_str OBJECT_NULLIFIER_VERSION].

Definition available (f : ReplayFrame) (obj : Value) : Prop :=
  obj ∈ rf_inputs f \/ obj ∈ rf_created f.

(** [replay f c e f' c']: in context [f], with the chain at [c], the event [e]
    is legal and leads to [f'] and [c']. An event is authorised by the guard
    its object's type names, with the chain bounds of the action it is part
    of. *)
Inductive replay : ReplayFrame -> Value -> Event -> ReplayFrame -> Value -> Prop :=
| replay_insert f c initial new type :
    contains new (value_of_str "type") type ->
    dict_insert initial (value_of_str STABLE_IDENTIFIER_FIELD) initial new ->
    new ∉ rf_created f ->
    guard type new (rf_chain_start f) (rf_chain_end f) ->
    replay f c (EInsert initial new) (with_created f ({[new]} ∪ rf_created f))
      (event_step c EMPTY_HASH new)
| replay_mutate f c old new type sid nul :
    contains new (value_of_str "type") type ->
    contains old (value_of_str "type") type ->
    contains new (value_of_str STABLE_IDENTIFIER_FIELD) sid ->
    contains old (value_of_str STABLE_IDENTIFIER_FIELD) sid ->
    available f old ->
    new ∉ rf_created f ->
    nullifies old nul -> nul ∉ rf_nullifiers f ->
    guard type new (rf_chain_start f) (rf_chain_end f) ->
    replay f c (EMutate old new)
      (advance f ({[new]} ∪ rf_created f) ({[nul]} ∪ rf_nullifiers f)) (event_step c old new)
| replay_delete f c old type nul :
    contains old (value_of_str "type") type ->
    available f old ->
    nullifies old nul -> nul ∉ rf_nullifiers f ->
    guard type old (rf_chain_start f) (rf_chain_end f) ->
    replay f c (EDelete old) (advance f (rf_created f) ({[nul]} ∪ rf_nullifiers f))
      (event_step c old EMPTY_HASH)
| replay_action f c body f' c' :
    body <> [] ->
    replays (rescope f c c') c body f' c' ->
    replay f c (EAction body) (advance f (rf_created f') (rf_nullifiers f')) c'
with replays : ReplayFrame -> Value -> list Event -> ReplayFrame -> Value -> Prop :=
| replays_nil f c : replays f c [] f c
| replays_cons f c e f1 c1 es f2 c2 :
    replay f c e f1 c1 -> replays f1 c1 es f2 c2 -> replays f c (e :: es) f2 c2.

Scheme replay_ind2 := Induction for replay Sort Prop
  with replays_ind2 := Induction for replays Sort Prop.
Combined Scheme replay_both from replay_ind2, replays_ind2.
End Spec.

(** The objects an event consumes and creates, in order. *)
Fixpoint consumed (e : Event) : list Value :=
  match e with
  | EInsert _ _ => []
  | EMutate old _ | EDelete old => [old]
  | EAction body => concat (map consumed body)
  end.

Fixpoint produced (e : Event) : list Value :=
  match e with
  | EInsert _ new | EMutate _ new => [new]
  | EDelete _ => []
  | EAction body => concat (map produced body)
  end.

Definition all_consumed (es : list Event) : list Value := concat (map consumed es).
Definition all_produced (es : list Event) : list Value := concat (map produced es).

(** ** What a legal transaction does *)

(** The books of a legal step: every created object is new, every consumed
    object is an input or created, and is consumed under a nullifier of its
    own that was not there before. *)
Record accounts `{Natives} (f f' : ReplayFrame) (ins outs : list Value) : Prop := {
  acc_scope : rf_inputs f' = rf_inputs f /\ rf_chain_start f' = rf_chain_start f
    /\ rf_chain_end f' = rf_chain_end f;
  acc_created : rf_created f' = list_to_set outs ∪ rf_created f;
  acc_fresh : NoDup outs /\ list_to_set outs ## rf_created f;
  acc_nullifiers : exists nuls, Forall2 nullifies ins nuls /\ NoDup nuls
    /\ rf_nullifiers f' = list_to_set nuls ∪ rf_nullifiers f
    /\ list_to_set nuls ## rf_nullifiers f;
  acc_available : Forall (fun o => o ∈ rf_inputs f \/ o ∈ rf_created f') ins;
}.

Section Accounting.
Context `{Natives}.

Lemma accounts_refl f : accounts f f [] [].
Proof.
  split; try done; [set_solver|split; [constructor|set_solver]|].
  exists []. split_and!; try constructor; set_solver.
Qed.

Lemma accounts_trans f1 f2 f3 i1 o1 i2 o2 :
  accounts f1 f2 i1 o1 -> accounts f2 f3 i2 o2 -> accounts f1 f3 (i1 ++ i2) (o1 ++ o2).
Proof.
  intros [(Hi1 & Hs1 & He1) Hc1 [Hn1 Hd1] (n1 & Hf1 & Hnd1 & Hnl1 & Hdj1) Ha1].
  intros [(Hi2 & Hs2 & He2) Hc2 [Hn2 Hd2] (n2 & Hf2 & Hnd2 & Hnl2 & Hdj2) Ha2].
  rewrite Hc1 in Hd2. rewrite Hnl1 in Hdj2. split.
  - split_and!; congruence.
  - rewrite Hc2, Hc1, list_to_set_app_L. set_solver.
  - split; [|set_solver]. apply NoDup_app. split_and!; [done| |done].
    intros x Hx1 Hx2. set_solver.
  - exists (n1 ++ n2). split_and!.
    + by apply Forall2_app.
    + apply NoDup_app. split_and!; [done| |done]. intros x Hx1 Hx2. set_solver.
    + rewrite Hnl2, Hnl1, list_to_set_app_L. set_solver.
    + set_solver.
  - apply Forall_app. split; [|by rewrite <-Hi1].
    eapply Forall_impl; [exact Ha1|]. intros o [?|?]; [by left|right]. rewrite Hc2. set_solver.
Qed.

Lemma accounts_scoped f f' s e ins outs :
  accounts (rescope f s e) f' ins outs -> accounts f (advance f (rf_created f') (rf_nullifiers f')) ins outs.
Proof. intros [? ? ? ? ?]. by split. Qed.

Lemma replay_accounts guard :
  (forall f c e f' c', replay guard f c e f' c' -> accounts f f' (consumed e) (produced e))
  /\ (forall f c es f' c', replays guard f c es f' c' -> accounts f f' (all_consumed es) (all_produced es)).
Proof.
  apply replay_both; intros; simpl.
  - split; simpl; [done|set_solver|split; [apply NoDup_singleton|set_solver]| |constructor].
    exists []. split_and!; try constructor; set_solver.
  - split; simpl; [done|set_solver|split; [apply NoDup_singleton|set_solver]| |].
    + exists [nul]. split_and!; [by constructor|apply NoDup_singleton|set_solver..].
    + unfold available in *. constructor; [set_solver|constructor].
  - split; simpl; [done|set_solver|split; [constructor|set_solver]| |].
    + exists [nul]. split_and!; [by constructor|apply NoDup_singleton|set_solver..].
    + unfold available in *. constructor; [set_solver|constructor].
  - by eapply accounts_scoped.
  - apply accounts_refl.
  - by eapply accounts_trans.
Qed.

Context `{!NativeLaws}.

Lemma nullifies_functional o n n' : nullifies o n -> nullifies o n' -> n = n'.
Proof.
  intros (k & Hk & ->) (k' & Hk' & ->). by rewrite (contains_functional _ _ _ _ Hk Hk').
Qed.

(** Objects with different nullifiers are different. *)
Lemma nullifies_NoDup ins nuls : Forall2 nullifies ins nuls -> NoDup nuls -> NoDup ins.
Proof.
  intros Hf. induction Hf as [|o n ins' nuls' Hon Hf IH]; intros Hnd; [constructor|].
  apply NoDup_cons in Hnd as [Hn Hnd]. constructor; [|by apply IH].
  intros Hin. apply Hn. apply list_elem_of_lookup_1 in Hin as [i Hi].
  destruct (Forall2_lookup_l _ _ _ _ _ Hf Hi) as (n' & Hn' & Hon').
  rewrite (nullifies_functional _ _ _ Hon Hon'). by eapply list_elem_of_lookup_2.
Qed.

(** No object is consumed twice. *)
Lemma accounts_NoDup f f' ins outs : accounts f f' ins outs -> NoDup ins.
Proof. intros [_ _ _ (nuls & Hf & Hnd & _) _]. by eapply nullifies_NoDup. Qed.
End Accounting.

End TxModel.
