(* ===== verification/TxPredicates.v ===== *)
(** * The transaction predicates (libs/txlib/src/predicates)

    The podlang modules tx_events, tx_rekey and txlib, written down clause by
    clause, and their soundness: if [TxFinalized] is true of a state header and
    of public sets, then there is a legal transaction ([TxModel.replays]),
    grounded in the objects the header commits to, that creates exactly those
    objects and emits exactly those nullifiers. *)

From S2P Require Import Prelude Pod2 Models DonState Podlang TxModel.

Module TxPredicates.
Import Podlang TxModel DonState.
Local Open Scope string_scope.

(** ** The modules *)

Section Modules.
Context `{Pod2}.

(** [x.field] of a dictionary, [x.field] of a record (its slot), a string
    literal and the literal [{}]. *)
Definition dot (w field : string) : TArg := K w (value_of_str field).
Definition slot (w : string) (i : Z) : TArg := K w (value_of_i64 i).
Definition str (s : string) : TArg := L (value_of_str s).
Definition empty : TArg := L EMPTY_HASH.

Definition native (p : NativePredicate) (args : list TArg) : Template := T (TNative p) args.
Definition call (name : string) (args : list string) : Template := T (TCustom name) (W <$> args).
Definition call' (name : string) (args : list TArg) : Template := T (TCustom name) args.

Definition tx_events : list Predicate := [
  MkPred "TxInsert" ["prev_chain"; "chain"; "initial"; "new"; "type"] AND [
    native DictContains [W "new"; str "type"; W "type"];
    native DictInsert [W "initial"; str "stable_identifier"; W "initial"; W "new"];
    native HashOf [empty; W "new"; W "event_hash"];
    native HashOf [W "prev_chain"; W "event_hash"; W "chain"]];
  MkPred "TxMutate" ["prev_chain"; "chain"; "old"; "new"; "type"] AND [
    native DictContains [W "new"; str "type"; W "type"];
    native DictContains [W "old"; str "type"; W "type"];
    native Equal [dot "old" "stable_identifier"; dot "new" "stable_identifier"];
    native HashOf [W "old"; W "new"; W "event_hash"];
    native HashOf [W "prev_chain"; W "event_hash"; W "chain"]];
  MkPred "TxDelete" ["prev_chain"; "chain"; "old"; "type"] AND [
    native DictContains [W "old"; str "type"; W "type"];
    native HashOf [W "old"; empty; W "event_hash"];
    native HashOf [W "prev_chain"; W "event_hash"; W "chain"]]].

Definition tx_rekey : list Predicate := [
  MkPred "Rekey" ["new"; "chain_start"; "chain_end"; "type"] AND [
    native DictUpdate [W "old"; str "key"; empty; W "mid"];
    native DictUpdate [W "mid"; str "key"; W "new_key"; W "new"];
    call "TxMutate" ["chain_start"; "chain_end"; "old"; "new"; "type"]]].

(** The four public arguments that most predicates thread. *)
Definition STEP : list string := ["state_header"; "before_tx"; "after_tx"; "before_chain"; "after_chain"].
Definition HEAD : list string := ["state_header"; "before_tx"; "mid_tx"; "before_chain"; "mid_chain"].
Definition TAIL : list string := ["state_header"; "mid_tx"; "after_tx"; "mid_chain"; "after_chain"].

Definition source_keys : Value := set_commitment {[value_of_str "inputs"; value_of_str "created"]}.

(** The scope fields of [before_tx] in [TxFinalized]. *)
Definition scope_fields : Dictionary :=
  <["created" := EMPTY_HASH]> (<["nullifiers" := EMPTY_HASH]>
  (<["chain_start" := EMPTY_HASH]> {["chain_end" := EMPTY_HASH]})).

Definition CREATED_SLOT : Z := 3.

Definition txlib : list Predicate := [
  MkPred "Nullify" ["nullifier"; "obj"] AND [
    native HashOf [W "obj"; dot "obj" "key"; W "obj_key_hash"];
    native HashOf [W "obj_key_hash"; str "txlib-nullifier-v1"; W "nullifier"]];
  MkPred "ReplayContents" STEP OR [
    call "ReplayElement" STEP;
    call "ReplayContentsStepInsert" STEP;
    call "ReplayContentsStepMutate" STEP;
    call "ReplayContentsStepDelete" STEP;
    call "ReplayContentsStepAction" STEP];
  MkPred "ReplayContentsStepInsert" STEP AND [call "ReplayInsert" HEAD; call "ReplayContents" TAIL];
  MkPred "ReplayContentsStepMutate" STEP AND [call "ReplayMutate" HEAD; call "ReplayContents" TAIL];
  MkPred "ReplayContentsStepDelete" STEP AND [call "ReplayDelete" HEAD; call "ReplayContents" TAIL];
  MkPred "ReplayContentsStepAction" STEP AND [call "ReplayAction" HEAD; call "ReplayContents" TAIL];
  MkPred "ReplayElement" STEP OR [
    call "ReplayInsert" STEP; call "ReplayMutate" STEP; call "ReplayDelete" STEP; call "ReplayAction" STEP];
  MkPred "ReplayAction" STEP AND [
    native DictUpdate [W "before_tx"; str "chain_start"; W "before_chain"; dot "pair" "scope_mid"];
    native DictUpdate [dot "pair" "scope_mid"; str "chain_end"; W "after_chain"; W "inner_tx"];
    call "ReplayContents" ["state_header"; "inner_tx"; "end_tx"; "before_chain"; "after_chain"];
    native DictUpdate [W "before_tx"; str "created"; dot "end_tx" "created"; dot "pair" "mid"];
    native DictUpdate [dot "pair" "mid"; str "nullifiers"; dot "end_tx" "nullifiers"; W "after_tx"]];
  MkPred "ReplayActions" STEP OR [
    call "ReplayAction" STEP; call "ReplayActionsStep" STEP; call "ReplayActionInsert" STEP];
  MkPred "ReplayActionsStep" STEP AND [call "ReplayAction" HEAD; call "ReplayActions" TAIL];
  MkPred "ReplayActionInsert" STEP AND [
    call' "TxInsert" [W "before_chain"; W "after_chain"; dot "pair" "initial"; W "new"; W "guard"];
    native SetInsert [dot "before_tx" "created"; W "new"; dot "pair" "new_created"];
    native DictUpdate [W "before_tx"; str "created"; dot "pair" "new_created"; W "after_tx"];
    T (TDyn "guard") [W "new"; W "state_header"; W "before_chain"; W "after_chain"]];
  MkPred "ReplayInsert" STEP AND [
    call' "TxInsert" [W "before_chain"; W "after_chain"; dot "pair" "initial"; W "new"; W "guard"];
    native SetInsert [dot "before_tx" "created"; W "new"; dot "pair" "new_created"];
    native DictUpdate [W "before_tx"; str "created"; dot "pair" "new_created"; W "after_tx"];
    T (TDyn "guard") [W "new"; W "state_header"; dot "before_tx" "chain_start"; dot "before_tx" "chain_end"]];
  MkPred "ReplayNullify" ["mid_tx"; "after_tx"; "old"; "source"] AND [
    native SetContains [W "source"; W "old"];
    native HashOf [W "old"; dot "old" "key"; W "obj_key_hash"];
    native HashOf [W "obj_key_hash"; str "txlib-nullifier-v1"; W "nullifier"];
    native SetInsert [dot "mid_tx" "nullifiers"; W "nullifier"; W "new_nullifiers"];
    native DictUpdate [W "mid_tx"; str "nullifiers"; W "new_nullifiers"; W "after_tx"]];
  MkPred "ReplayMutateEvent" ["before_tx"; "after_tx"; "old"; "new"] AND [
    native SetContains [L source_keys; W "source_key"];
    native DictContains [W "before_tx"; W "source_key"; W "source"];
    native SetInsert [dot "before_tx" "created"; W "new"; W "new_created"];
    native DictUpdate [W "before_tx"; str "created"; W "new_created"; W "mid_tx"];
    call "ReplayNullify" ["mid_tx"; "after_tx"; "old"; "source"]];
  MkPred "ReplayMutate" STEP AND [
    call "TxMutate" ["before_chain"; "after_chain"; "old"; "new"; "guard"];
    call "ReplayMutateEvent" ["before_tx"; "after_tx"; "old"; "new"];
    T (TDyn "guard") [W "new"; W "state_header"; dot "before_tx" "chain_start"; dot "before_tx" "chain_end"]];
  MkPred "ReplayDelete" STEP AND [
    call "TxDelete" ["before_chain"; "after_chain"; "old"; "guard"];
    native SetContains [L source_keys; dot "pair" "source_key"];
    native DictContains [W "before_tx"; dot "pair" "source_key"; dot "pair" "source"];
    call' "ReplayNullify" [W "before_tx"; W "after_tx"; W "old"; dot "pair" "source"];
    T (TDyn "guard") [W "old"; W "state_header"; dot "before_tx" "chain_start"; dot "before_tx" "chain_end"]];
  MkPred "InputsGrounded" ["inputs"; "created"] OR [
    native Equal [W "inputs"; empty];
    call "InputsGroundedSingle" ["inputs"; "created"];
    call "InputsGroundedPair" ["inputs"; "created"];
    call "InputsGroundedRecursive" ["inputs"; "created"]];
  MkPred "InputsGroundedSingle" ["inputs"; "created"] AND [
    native ArrayContains [W "created"; W "index"; W "input"];
    native SetInsert [empty; W "input"; W "inputs"]];
  MkPred "InputsGroundedPair" ["inputs"; "created"] AND [
    native ArrayContains [W "created"; W "first_index"; W "first_input"];
    native SetInsert [empty; W "first_input"; W "set_first"];
    native ArrayContains [W "created"; W "second_index"; W "second_input"];
    native SetInsert [W "set_first"; W "second_input"; W "inputs"]];
  MkPred "InputsGroundedRecursive" ["inputs"; "created"] AND [
    native ArrayContains [W "created"; W "first_index"; W "first_input"];
    native SetInsert [W "prev_inputs"; W "first_input"; W "mid"];
    native ArrayContains [W "created"; W "second_index"; W "second_input"];
    native SetInsert [W "mid"; W "second_input"; W "inputs"];
    call "InputsGrounded" ["prev_inputs"; "created"]];
  MkPred "TxFinalBindings" ["after_tx"; "tx_final"; "nullifiers"; "created"] AND [
    native DictDelete [W "after_tx"; str "inputs"; W "tx_final"];
    native DictContains [W "tx_final"; str "nullifiers"; W "nullifiers"];
    native DictContains [W "tx_final"; str "created"; W "created"]];
  MkPred "TxFinalized" ["state_header"; "tx_final"; "nullifiers"; "created"] AND [
    call' "InputsGrounded" [dot "before_tx" "inputs"; slot "state_header" CREATED_SLOT];
    native HashOf [dot "before_tx" "inputs"; empty; W "chain_start"];
    native DictInsert [L (dict_commitment scope_fields); str "inputs"; dot "before_tx" "inputs"; W "before_tx"];
    call "TxFinalBindings" ["after_tx"; "tx_final"; "nullifiers"; "created"];
    call "ReplayActions" ["state_header"; "before_tx"; "after_tx"; "chain_start"; "chain_final"]]].

Definition modules : list Predicate := tx_events ++ tx_rekey ++ txlib.
End Modules.

(** The modules are within pod2's limits: every predicate has at most five
    statements and eight wildcards, txlib has 22 predicates, and no two have the
    same name. *)
Lemma modules_within_budget `{Pod2} :
  Forall (fun P => length (p_sts P) <= 5 /\ length (remove_dups (pred_wildcards P)) <= 8) modules
  /\ length txlib = 22 /\ NoDup (p_name <$> modules).
Proof.
  split_and!; [|done|].
  - repeat (constructor; [by vm_compute; split; lia|]). constructor.
  - by apply (bool_decide_eq_true_1 (NoDup (p_name <$> modules))); vm_compute.
Qed.

(** ** Inversion *)

(** The hash of a predicate names it, and the predicates of other modules are
    not those of these. *)
Class ModuleHashes `{Pod2} `{PredicateHash} `{External} : Prop := {
  predicate_hash_inj : Inj (=) (=) predicate_hash;
  external_other name vs : is_Some (find_custom_pred_by_name modules name) -> ~ external (predicate_hash name) vs;
}.

Section Inversion.
Context `{ModuleHashes, !Natives, !NativeLaws}.
Abbreviation true n name vs := (holds modules n (Custom (predicate_hash name)) vs).

Lemma holds_native n q vs : holds modules n (Native q) vs -> native_holds q vs.
Proof. by destruct n. Qed.

Lemma find_unique name P P' :
  find_custom_pred_by_name modules name = Some P -> P' ∈ modules -> p_name P' = name -> P' = P.
Proof.
  unfold find_custom_pred_by_name. intros Hf HP' Hn.
  destruct (list_find _ _) as [[i Q]|] eqn:E; [|done]. injection Hf as ->.
  apply list_find_Some in E as (Hi & Hq & _). apply list_elem_of_lookup_1 in HP' as [j Hj].
  destruct modules_within_budget as (_ & _ & Hnd).
  assert (i = j) as ->; [|congruence].
  eapply (NoDup_lookup _ i j name); [exact Hnd| |]; rewrite list_lookup_fmap; [rewrite Hi|rewrite Hj];
    simpl in *; congruence.
Qed.

Lemma holds_module n name P vs :
  find_custom_pred_by_name modules name = Some P -> true n name vs ->
  exists n' σ, n = S n' /\ vs = σ <$> p_args P
    /\ let instance t := exists ws, Forall2 (targ_value σ) (t_args t) ws
                                    /\ holds modules n' (pred_of σ (t_pred t)) ws in
       match p_conn P with
       | AND => Forall instance (p_sts P)
       | OR => Exists instance (p_sts P)
       end.
Proof.
  intros Hf. destruct n as [|n]; [done|]. intros [He|(Q & σ & HQ & Hh & -> & Hb)].
  - by apply external_other in He.
  - assert (Q = P) as ->; [|by exists n, σ]. eapply find_unique; [exact Hf|done|].
    by apply predicate_hash_inj in Hh.
Qed.

End Inversion.

(** Invert a predicate of the modules: its arguments become the values of
    wildcards, its clauses hypotheses. *)
Ltac split_values :=
  repeat match goal with
  | H : Forall2 _ (_ :: _) _ |- _ =>
      let v := fresh "v" in let Hv := fresh "Hv" in
      apply Forall2_cons_inv_l in H as (v & ? & Hv & H & ->); cbn in Hv
  | H : Forall2 _ [] _ |- _ => apply Forall2_nil_inv_l in H; subst
  | H : ?v = ?x |- _ => is_var v; subst v
  end.

Ltac pl_clause H :=
  let ws := fresh "ws" in let Hws := fresh "Hws" in
  destruct H as (ws & Hws & H); cbn in Hws; split_values; cbn [pred_of t_pred call call' native] in H;
  try (apply holds_native in H; cbn in H; subst).

Ltac pl_clauses H :=
  lazymatch type of H with
  | Forall _ (_ :: _) =>
      let Hx := fresh "Hx" in apply Forall_cons in H as [Hx H]; cbn -[modules] in Hx; pl_clause Hx; pl_clauses H
  | Forall _ [] => clear H
  end.

Ltac pl_values :=
  repeat match goal with
  | σ : string -> Value, E : ?σ' _ = _ |- _ => constr_eq σ σ'; rewrite E in *; clear E
  | σ : string -> Value, E : _ = ?σ' _ |- _ => constr_eq σ σ'; rewrite <-E in *; clear E
  end.

Ltac pl_open H :=
  let m := fresh "m" in let σ := fresh "σ" in let Hvs := fresh "Hvs" in
  eapply holds_module in H as (m & σ & -> & Hvs & H); [|reflexivity];
  cbn -[modules] in Hvs, H; injection Hvs as; subst.

(** A conjunction, and the cases of a disjunction. *)
Ltac pl_invert H := pl_open H; pl_clauses H; pl_values.

Ltac pl_cases H :=
  lazymatch type of H with
  | Exists _ (_ :: _) => apply Exists_cons in H as [H|H]; [pl_clause H; pl_values|pl_cases H]
  | Exists _ [] => by apply Exists_nil in H
  end.

Section Events.
Context `{ModuleHashes, !Natives, !NativeLaws}.
Abbreviation true n name vs := (holds modules n (Custom (predicate_hash name)) vs).

Lemma TxInsert_inv n prev chain initial new type :
  true n "TxInsert" [prev; chain; initial; new; type] ->
  contains new (value_of_str "type") type
  /\ dict_insert initial (value_of_str STABLE_IDENTIFIER_FIELD) initial new
  /\ chain = event_step prev EMPTY_HASH new.
Proof. intros Ht. by pl_invert Ht. Qed.

Lemma TxMutate_inv n prev chain old new type :
  true n "TxMutate" [prev; chain; old; new; type] ->
  contains new (value_of_str "type") type /\ contains old (value_of_str "type") type
  /\ (exists sid, contains new (value_of_str STABLE_IDENTIFIER_FIELD) sid
                  /\ contains old (value_of_str STABLE_IDENTIFIER_FIELD) sid)
  /\ chain = event_step prev old new.
Proof. intros Ht. pl_invert Ht. eauto 10. Qed.

Lemma TxDelete_inv n prev chain old type :
  true n "TxDelete" [prev; chain; old; type] ->
  contains old (value_of_str "type") type /\ chain = event_step prev old EMPTY_HASH.
Proof. intros Ht. by pl_invert Ht. Qed.

(** *** Statements about a transaction context *)

Definition tx_value (f : ReplayFrame) : Value := dict_commitment (to_tx_dict f).

Lemma tx_contains f k v : contains (tx_value f) (value_of_str k) v -> to_tx_dict f !! k = Some v.
Proof. intros (s & Hs & Hv)%contains_dict. by apply value_of_str_inj in Hs as ->. Qed.

Lemma tx_created f v : contains (tx_value f) (value_of_str "created") v -> v = set_commitment (rf_created f).
Proof. by intros [= <-]%tx_contains. Qed.
Lemma tx_inputs f v : contains (tx_value f) (value_of_str "inputs") v -> v = set_commitment (rf_inputs f).
Proof. by intros [= <-]%tx_contains. Qed.
Lemma tx_nullifiers f v : contains (tx_value f) (value_of_str "nullifiers") v -> v = set_commitment (rf_nullifiers f).
Proof. by intros [= <-]%tx_contains. Qed.
Lemma tx_chain_start f v : contains (tx_value f) (value_of_str "chain_start") v -> v = rf_chain_start f.
Proof. by intros [= <-]%tx_contains. Qed.
Lemma tx_chain_end f v : contains (tx_value f) (value_of_str "chain_end") v -> v = rf_chain_end f.
Proof. by intros [= <-]%tx_contains. Qed.

Lemma tx_update f k v r f' :
  to_tx_dict f' = <[k := v]> (to_tx_dict f) -> dict_update (tx_value f) (value_of_str k) v r -> r = tx_value f'.
Proof. intros Hf [_ ->]%dict_update_spec. unfold tx_value. by rewrite Hf. Qed.

Lemma tx_update_created f s r :
  dict_update (tx_value f) (value_of_str "created") (set_commitment s) r -> r = tx_value (with_created f s).
Proof. by apply tx_update. Qed.
Lemma tx_update_nullifiers f s r :
  dict_update (tx_value f) (value_of_str "nullifiers") (set_commitment s) r -> r = tx_value (advance f (rf_created f) s).
Proof. by apply tx_update. Qed.
Lemma tx_update_chain_start f c r :
  dict_update (tx_value f) (value_of_str "chain_start") c r -> r = tx_value (rescope f c (rf_chain_end f)).
Proof. by apply tx_update. Qed.
Lemma tx_update_chain_end f c r :
  dict_update (tx_value f) (value_of_str "chain_end") c r -> r = tx_value (rescope f (rf_chain_start f) c).
Proof. by apply tx_update. Qed.

Lemma source_keys_inv k :
  set_contains source_keys k -> (k = value_of_str "inputs" \/ k = value_of_str "created").
Proof. intros Hk%set_contains_spec. set_solver. Qed.
End Events.

(** Evaluate the native statements about known containers. *)
Ltac rewrite_value E :=
  match type of E with
  | ?x = ?y => first [subst x | subst y | rewrite E in *; clear E]
  end.
Ltac tx_values :=
  repeat match goal with
  | H : contains (tx_value _) (value_of_str "created") _ |- _ => apply tx_created in H; rewrite_value H
  | H : contains (tx_value _) (value_of_str "inputs") _ |- _ => apply tx_inputs in H; rewrite_value H
  | H : contains (tx_value _) (value_of_str "nullifiers") _ |- _ => apply tx_nullifiers in H; rewrite_value H
  | H : contains (tx_value _) (value_of_str "chain_start") _ |- _ => apply tx_chain_start in H; rewrite_value H
  | H : contains (tx_value _) (value_of_str "chain_end") _ |- _ => apply tx_chain_end in H; rewrite_value H
  | H : contains ?r ?k ?v, H' : contains ?r ?k ?v' |- _ =>
      let E := fresh "E" in assert (E : v = v') by exact (contains_functional _ _ _ _ H H'); clear H'; rewrite_value E
  | H : set_insert (set_commitment _) _ _ |- _ =>
      let E := fresh "E" in apply set_insert_spec in H as [? E]; rewrite_value E
  | H : dict_update (tx_value _) (value_of_str "created") _ _ |- _ => apply tx_update_created in H; rewrite_value H
  | H : dict_update (tx_value _) (value_of_str "nullifiers") _ _ |- _ => apply tx_update_nullifiers in H; rewrite_value H
  | H : dict_update (tx_value _) (value_of_str "chain_start") _ _ |- _ => apply tx_update_chain_start in H; rewrite_value H
  | H : dict_update (tx_value _) (value_of_str "chain_end") _ _ |- _ => apply tx_update_chain_end in H; rewrite_value H
  end.

Section Replay.
Context `{ModuleHashes, !Natives, !NativeLaws}.
Abbreviation true n name vs := (holds modules n (Custom (predicate_hash name)) vs).

(** The guard of a type, in the context of a state header. *)
Definition guard_of (header type obj chain_start chain_end : Value) : Prop :=
  true_of modules (Custom type) [obj; header; chain_start; chain_end].

Lemma ReplayNullify_inv n f after old src :
  true n "ReplayNullify" [tx_value f; after; old; set_commitment src] ->
  old ∈ src /\ exists nul, nullifies old nul /\ nul ∉ rf_nullifiers f
    /\ after = tx_value (advance f (rf_created f) ({[nul]} ∪ rf_nullifiers f)).
Proof.
  intros Ht. pl_invert Ht. tx_values. apply set_contains_spec in Hx. split; [done|].
  eexists. split_and!; [by eexists|done|done].
Qed.

Lemma source_available f k src old :
  set_contains source_keys k -> contains (tx_value f) k src ->
  exists s, src = set_commitment s /\ (old ∈ s -> available f old).
Proof.
  intros [-> | ->]%source_keys_inv Hc; tx_values; eexists; (split; [done|]); unfold available; auto.
Qed.

Lemma ReplayInsert_inv n header f after c c' :
  true n "ReplayInsert" [header; tx_value f; after; c; c'] ->
  exists initial new f', replay (guard_of header) f c (EInsert initial new) f' c' /\ after = tx_value f'.
Proof.
  intros Ht. pl_invert Ht. tx_values. apply TxInsert_inv in Hx as (Hty & Hid & Hc). rewrite Hc.
  do 3 eexists. split; [|done]. eapply replay_insert; eauto. by eexists.
Qed.

Lemma ReplayMutateEvent_inv n f after old new :
  true n "ReplayMutateEvent" [tx_value f; after; old; new] ->
  available f old /\ new ∉ rf_created f /\ exists nul, nullifies old nul /\ nul ∉ rf_nullifiers f
    /\ after = tx_value (advance f ({[new]} ∪ rf_created f) ({[nul]} ∪ rf_nullifiers f)).
Proof.
  intros Ht. pl_invert Ht. destruct (source_available _ _ _ (σ "old") Hx Hx0) as (s & Hs & Hav). rewrite Hs in *.
  tx_values. apply ReplayNullify_inv in Hx3 as (Hin & nul & Hnul & Hnew & Ha). eauto 10.
Qed.

Lemma ReplayMutate_inv n header f after c c' :
  true n "ReplayMutate" [header; tx_value f; after; c; c'] ->
  exists old new f', replay (guard_of header) f c (EMutate old new) f' c' /\ after = tx_value f'.
Proof.
  intros Ht. pl_invert Ht. tx_values. apply TxMutate_inv in Hx as (Hty & Hty' & (sid & Hs & Hs') & Hc).
  apply ReplayMutateEvent_inv in Hx0 as (Hav & Hnew & nul & Hnul & Hfresh & Ha). rewrite Hc, Ha.
  do 3 eexists. split; [|done]. eapply replay_mutate; eauto. by eexists.
Qed.

Lemma ReplayDelete_inv n header f after c c' :
  true n "ReplayDelete" [header; tx_value f; after; c; c'] ->
  exists old f', replay (guard_of header) f c (EDelete old) f' c' /\ after = tx_value f'.
Proof.
  intros Ht. pl_invert Ht. tx_values.
  match goal with Hk : set_contains source_keys ?k, Hs : contains (tx_value f) ?k _ |- _ =>
    destruct (source_available _ _ _ (σ "old") Hk Hs) as (s & -> & Hav) end.
  apply TxDelete_inv in Hx as (Hty & Hc). apply ReplayNullify_inv in Hx2 as (Hin & nul & Hnul & Hfresh & Ha).
  rewrite Hc, Ha. do 2 eexists. split; [|done]. eapply replay_delete; eauto. by eexists.
Qed.

Lemma ReplayActionInsert_inv n header f after c c' :
  true n "ReplayActionInsert" [header; tx_value f; after; c; c'] ->
  exists e f', replay (guard_of header) f c (EAction [e]) f' c' /\ after = tx_value f'.
Proof.
  intros Ht. pl_invert Ht. tx_values. apply TxInsert_inv in Hx as (Hty & Hid & Hc).
  do 2 eexists. split.
  - eapply replay_action; [done|]. eapply replays_cons; [|apply replays_nil]. rewrite Hc at 2.
    eapply replay_insert; eauto. by eexists.
  - done.
Qed.

(** *** The recursive predicates, by induction on the depth of the proof *)

Definition action_sound (n : nat) : Prop := forall header f after c c',
  true n "ReplayAction" [header; tx_value f; after; c; c'] ->
  exists body f', replay (guard_of header) f c (EAction body) f' c' /\ after = tx_value f'.

Definition contents_sound (n : nat) : Prop := forall header f after c c',
  true n "ReplayContents" [header; tx_value f; after; c; c'] ->
  exists es f', es <> [] /\ replays (guard_of header) f c es f' c' /\ after = tx_value f'.

(** One event, then the rest. *)
Lemma step_sound header f c e f1 c1 after c2 n :
  contents_sound n -> replay (guard_of header) f c e f1 c1 ->
  true n "ReplayContents" [header; tx_value f1; after; c1; c2] ->
  exists es f', es <> [] /\ replays (guard_of header) f c es f' c2 /\ after = tx_value f'.
Proof.
  intros Hs He (es & f' & _ & Hes & ->)%Hs. exists (e :: es), f'. split_and!; [done| |done].
  by eapply replays_cons.
Qed.

Lemma ReplayElement_inv n header f after c c' :
  (forall m, m < n -> action_sound m)%nat ->
  true n "ReplayElement" [header; tx_value f; after; c; c'] ->
  exists e f', replay (guard_of header) f c e f' c' /\ after = tx_value f'.
Proof.
  intros IH Ht. pl_open Ht. pl_cases Ht.
  - apply ReplayInsert_inv in Ht as (? & ? & ? & ? & ?). eauto.
  - apply ReplayMutate_inv in Ht as (? & ? & ? & ? & ?). eauto.
  - apply ReplayDelete_inv in Ht as (? & ? & ? & ?). eauto.
  - apply IH in Ht as (? & ? & ? & ?); [eauto|lia].
Qed.

Lemma action_step n : (forall m, m < n -> contents_sound m)%nat -> action_sound n.
Proof.
  intros IH header f after c c' Ht. pl_invert Ht. tx_values.
  apply IH in Hx1 as (es & f' & Hne & Hes & He); [|lia]. rewrite He in *. tx_values.
  exists es. eexists. split; [by eapply replay_action|done].
Qed.

Lemma contents_step n :
  (forall m, m < n -> contents_sound m /\ action_sound m)%nat -> contents_sound n.
Proof.
  intros IH header f after c c' Ht. pl_open Ht. pl_cases Ht.
  - apply ReplayElement_inv in Ht as (e & f' & He & ->); [|intros k Hk; apply IH; lia].
    exists [e], f'. split_and!; [done| |done]. eapply replays_cons; [exact He|apply replays_nil].
  - pl_invert Ht. apply ReplayInsert_inv in Hx as (? & ? & f1 & He & E). rewrite E in *.
    eapply step_sound; [apply (IH m0); lia|exact He|exact Hx0].
  - pl_invert Ht. apply ReplayMutate_inv in Hx as (? & ? & f1 & He & E). rewrite E in *.
    eapply step_sound; [apply (IH m0); lia|exact He|exact Hx0].
  - pl_invert Ht. apply ReplayDelete_inv in Hx as (? & f1 & He & E). rewrite E in *.
    eapply step_sound; [apply (IH m0); lia|exact He|exact Hx0].
  - pl_invert Ht. apply IH in Hx as (? & f1 & He & E); [|lia]. rewrite E in *.
    eapply step_sound; [apply (IH m0); lia|exact He|exact Hx0].
Qed.

Lemma replay_sound n : contents_sound n /\ action_sound n.
Proof.
  induction n as [n IH] using lt_wf_ind. split; [by apply contents_step|].
  apply action_step. intros m Hm. by apply IH.
Qed.

Lemma ReplayActions_inv n header f after c c' :
  true n "ReplayActions" [header; tx_value f; after; c; c'] ->
  exists bodies f', bodies <> [] /\ replays (guard_of header) f c (EAction <$> bodies) f' c' /\ after = tx_value f'.
Proof.
  revert f after c. induction n as [n IH] using lt_wf_ind; intros f after c Ht.
  pl_open Ht. pl_cases Ht.
  - apply replay_sound in Ht as (body & f' & He & ->). exists [body], f'. split_and!; [done| |done].
    eapply replays_cons; [exact He|apply replays_nil].
  - pl_invert Ht. apply replay_sound in Hx as (body & f1 & He & E). rewrite E in *.
    apply IH in Hx0 as (bodies & f' & _ & Hes & ->); [|lia].
    exists (body :: bodies), f'. split_and!; [done| |done]. by eapply replays_cons.
  - apply ReplayActionInsert_inv in Ht as (e & f' & He & ->). exists [[e]], f'. split_and!; [done| |done].
    eapply replays_cons; [exact He|apply replays_nil].
Qed.

(** *** Grounding *)

(** Every element is at some index of the array with the given root. *)
Definition grounded (root : Value) (inputs : gset Value) : Prop :=
  forall o, o ∈ inputs -> exists i, contains root i o.

Lemma set_insert_empty v r : set_insert EMPTY_HASH v r -> r = set_commitment {[v]}.
Proof. rewrite <-empty_set_value. intros [_ ->]%set_insert_spec. f_equal. set_solver. Qed.

Lemma InputsGrounded_inv n inputs root :
  true n "InputsGrounded" [inputs; root] -> exists s, inputs = set_commitment s /\ grounded root s.
Proof.
  revert inputs. induction n as [n IH] using lt_wf_ind; intros inputs Ht.
  pl_open Ht. pl_cases Ht.
  - exists ∅. rewrite empty_set_value. split; [done|]. intros o []%elem_of_empty.
  - pl_invert Ht. apply set_insert_empty in Hx0. eexists. split; [exact Hx0|].
    intros o ->%elem_of_singleton. eauto.
  - pl_invert Ht. apply set_insert_empty in Hx0. rewrite Hx0 in *. tx_values. eexists. split; [done|].
    intros o [->%elem_of_singleton| ->%elem_of_singleton]%elem_of_union; eauto.
  - pl_invert Ht. apply IH in Hx3 as (s & Hs & Hg); [|lia]. rewrite Hs in *. tx_values.
    eexists. split; [done|].
    intros o [->%elem_of_singleton|[->%elem_of_singleton|Ho]%elem_of_union]%elem_of_union; eauto.
Qed.

(** *** Finalized transactions *)

(** The context and the chain that a transaction starts with. *)
Definition start_frame (inputs : gset Value) : ReplayFrame := MkFrame inputs ∅ ∅ EMPTY_HASH EMPTY_HASH.
Definition start_chain (inputs : gset Value) : Value := hash_values [set_commitment inputs; EMPTY_HASH].

(** The public dictionary: the context without the inputs. *)
Definition final_dict (f : ReplayFrame) : Dictionary := delete "inputs" (to_tx_dict f).

(** What [TxFinalized] certifies: there is a transaction of at least one action
    on inputs that the state header grounds, it is legal, and the public
    arguments are what it leaves. *)
Record finalized (header tx_final nullifiers created : Value)
    (inputs : gset Value) (bodies : list (list Event)) (f : ReplayFrame) : Prop := {
  fin_actions : bodies <> [];
  fin_grounded : exists root, contains header (value_of_i64 CREATED_SLOT) root /\ grounded root inputs;
  fin_replays : exists chain, replays (guard_of header) (start_frame inputs) (start_chain inputs)
    (EAction <$> bodies) f chain;
  fin_nullifiers : nullifiers = set_commitment (rf_nullifiers f);
  fin_created : created = set_commitment (rf_created f);
  fin_dict : tx_final = dict_commitment (final_dict f);
}.

Lemma header_created h v : contains (StateHeader_hash h) (value_of_i64 CREATED_SLOT) v -> v = created_root h.
Proof.
  intros (i & Hi & Hv)%contains_array. assert (i < 6)%nat by (apply lookup_lt_Some in Hv; exact Hv).
  apply value_of_i64_inj in Hi; [|unfold CREATED_SLOT; lia..]. unfold CREATED_SLOT in Hi.
  assert (i = 3%nat) as -> by lia. by injection Hv.
Qed.

Lemma before_tx_value s r :
  dict_insert (dict_commitment scope_fields) (value_of_str "inputs") (set_commitment s) r ->
  r = tx_value (start_frame s).
Proof.
  intros [_ ->]%dict_insert_spec. unfold tx_value, to_tx_dict, build_tx, scope_fields. simpl.
  by rewrite empty_set_value.
Qed.

Lemma TxFinalBindings_inv n f tx_final nullifiers created :
  true n "TxFinalBindings" [tx_value f; tx_final; nullifiers; created] ->
  tx_final = dict_commitment (final_dict f)
  /\ nullifiers = set_commitment (rf_nullifiers f) /\ created = set_commitment (rf_created f).
Proof.
  intros Ht. pl_invert Ht. apply dict_delete_spec in Hx as [_ Hx]. rewrite Hx in *.
  apply contains_dict in Hx0 as (k & Hk & Hn). apply value_of_str_inj in Hk as <-.
  apply contains_dict in Hx1 as (k & Hk & Hc). apply value_of_str_inj in Hk as <-.
  split_and!; [done|by injection Hn|by injection Hc].
Qed.

Lemma finalized_sound header tx_final nullifiers created :
  true_of modules (Custom (predicate_hash "TxFinalized")) [header; tx_final; nullifiers; created] ->
  exists inputs bodies f, finalized header tx_final nullifiers created inputs bodies f.
Proof.
  intros [n Ht]. pl_invert Ht. tx_values.
  apply InputsGrounded_inv in Hx as (s & -> & Hg). apply before_tx_value in Hx1. rewrite Hx1 in *.
  apply ReplayActions_inv in Hx3 as (bodies & f & Hne & Hr & Hf). rewrite Hf in *.
  apply TxFinalBindings_inv in Hx2 as (Hd & Hn & Hc). exists s, bodies, f. by split; eauto.
Qed.

End Replay.

End TxPredicates.
