(* ===== verification/Replay.v ===== *)
(** * Replay (libs/txlib/src/replay.rs)

    The walk over the recorded event tree that [TxBuilder::finalize] makes. It
    threads the created and nullifier sets ([ReplayFrame]) and builds, for each
    event, the statement of the predicate that replays it. *)

From S2P Require Import Prelude Pod2 Models DonState Podlang TxModel TxPredicates.

Module Replay.
Import Podlang TxModel.
Local Open Scope string_scope.

(** ** Recorded events (lib.rs) *)

Inductive ChainEvent : Type :=
| CInsert (new initial : Dictionary) (chain_after : Hash) (tx_stmt : Statement) (guard_evidence : option Statement)
| CMutate (new old : Dictionary) (chain_after : Hash) (tx_stmt : Statement) (guard_evidence : option Statement)
| CDelete (old : Dictionary) (chain_after : Hash) (tx_stmt : Statement) (guard_evidence : option Statement)
| CAction (chain_after : Hash) (contents : list ChainEvent).

(** Predicate call counts. *)
Abbreviation TxStats := (gmap string nat).

Definition record (name : string) (stats : TxStats) : TxStats :=
  <[name := S (default 0%nat (stats !! name))]> stats.

(** [Context::with_context] on a result *)
Definition with_context {A} (c : Result A) (msg : string) : Result A :=
  match c with Err (Fail _) => Err (Fail msg) | _ => c end.

Definition ALREADY_CREATED : string := "object state was already created in this transaction".
Definition ALREADY_CONSUMED : string := "object state was already consumed in this transaction".
Definition NOT_AVAILABLE : string :=
  "object state is neither a transaction input nor created earlier in this transaction".

Inductive EventTag : Type := TagInsert | TagMutate | TagDelete | TagAction.

Section Frames.
Context `{Pod2, Containers}.

Record Consumption : Type := {
  co_source_key : string;
  co_source : gset Value;
  co_new_nullifiers : gset Value;
}.

Record MutateScratch : Type := {
  ms_btx : Dictionary;
  ms_new_created : gset Value;
  ms_new_nullifiers : gset Value;
  ms_source_key : string;
  ms_source : gset Value;
}.

Definition source_for (f : ReplayFrame) (old : Dictionary) : string * gset Value :=
  if decide (dict_commitment old ∈ rf_inputs f) then ("inputs", rf_inputs f) else ("created", rf_created f).

Definition consume (f : ReplayFrame) (old : Dictionary) : Result Consumption :=
  let '(source_key, source) := source_for f old in
  rensure (bool_decide (dict_commitment old ∈ source)) NOT_AVAILABLE ;?
  let? okh := object_key_hash old in
  let? new_nullifiers :=
    with_context (set_ins (rf_nullifiers f) (object_nullifier_from_key_hash okh)) ALREADY_CONSUMED in
  Ok {| co_source_key := source_key; co_source := source; co_new_nullifiers := new_nullifiers |}.

Definition mutate_scratch (f : ReplayFrame) (old new : Dictionary) : Result MutateScratch :=
  let btx := to_tx_dict f in
  let? c := consume f old in
  let? new_created := with_context (set_ins (rf_created f) (dict_commitment new)) ALREADY_CREATED in
  Ok {| ms_btx := btx; ms_new_created := new_created; ms_new_nullifiers := co_new_nullifiers c;
        ms_source_key := co_source_key c; ms_source := co_source c |}.
End Frames.

Section Replayer.
Context `{Builder, !Containers} (modules : list Predicate).

Abbreviation M := (eff TxStats).

(** [self.record(name)]; the operations of the pod builder, unwrapped; [entry(dict, key)]. *)
Definition note (name : string) : M unit := fun s => (Ok tt, record name s).
Definition priv_op {S} (p : NativePredicate) (args : list Arg) : eff S Statement := elift (runwrap (native_op p args)).
Definition rebind {S} (es : list (option Arg)) (st : Statement) : eff S Statement := elift (runwrap (replace_op es st)).
Definition apply_simple {S} (name : string) (sts : list Statement) : eff S Statement :=
  elift (runwrap (apply_custom_pred_simple modules name sts)).
Definition custom {S} (name : string) (sts : list Statement) : eff S Statement :=
  elift (runwrap (st_custom modules name [] (Ok <$> sts))).
Definition entry {S} (d : Dictionary) (key : string) : eff S Arg :=
  elift (rmap (fun _ => Entry (dict_commitment d) (value_of_str key))
    (expect (d !! key) "referenced container entry exists")).
Definition lit_dict (d : Dictionary) : Arg := Lit (dict_commitment d).
Definition lit_set (s : gset Value) : Arg := Lit (set_commitment s).
Definition lit_str (s : string) : Arg := Lit (value_of_str s).

Definition replay_insert_pair (initial : Dictionary) (new_created : gset Value) : Dictionary :=
  <["initial" := dict_commitment initial]> {["new_created" := set_commitment new_created]}.

Definition build_replay_insert (initial new : Dictionary) (frame : ReplayFrame) (tx_stmt evidence : Statement)
    : M (Statement * gset Value) :=
  let btx := to_tx_dict frame in
  let! new_created := elift (with_context (set_ins (rf_created frame) (dict_commitment new)) ALREADY_CREATED) in
  let! atx := elift (tx_with btx "created" (set_commitment new_created)) in
  let pair := replay_insert_pair initial new_created in
  let! pair_initial := entry pair "initial" in
  let! tx_stmt_wrapped := rebind [None; None; Some pair_initial; None; None] tx_stmt in
  let! btx_created := entry btx "created" in
  let! pair_new_created := entry pair "new_created" in
  let! op_si := priv_op SetInsert [btx_created; lit_dict new; pair_new_created] in
  let! op_du := priv_op DictUpdate [lit_dict btx; lit_str "created"; pair_new_created; lit_dict atx] in
  let! btx_start := entry btx "chain_start" in
  let! btx_end := entry btx "chain_end" in
  let! rebound_evidence := rebind [None; None; Some btx_start; Some btx_end] evidence in
  let! st := apply_simple "ReplayInsert" [tx_stmt_wrapped; op_si; op_du; rebound_evidence] in
  note "ReplayInsert" ;!
  eret (st, new_created).

Definition build_replay_nullify (old mid_tx after_tx : Dictionary) (new_nullifiers source : gset Value) : M Statement :=
  let! op_contains := priv_op SetContains [lit_set source; lit_dict old] in
  let! okh := elift (runwrap (object_key_hash old)) in
  let nul := object_nullifier_from_key_hash okh in
  let! old_key := entry old "key" in
  let! op_h1 := priv_op HashOf [lit_dict old; old_key; Lit okh] in
  let! op_h2 := priv_op HashOf [Lit okh; lit_str OBJECT_NULLIFIER_VERSION; Lit nul] in
  let! mid_nullifiers := entry mid_tx "nullifiers" in
  let! op_si := priv_op SetInsert [mid_nullifiers; Lit nul; lit_set new_nullifiers] in
  let! op_du_null :=
    priv_op DictUpdate [lit_dict mid_tx; lit_str "nullifiers"; lit_set new_nullifiers; lit_dict after_tx] in
  let! st := apply_simple "ReplayNullify" [op_contains; op_h1; op_h2; op_si; op_du_null] in
  note "ReplayNullify" ;!
  eret st.

Definition source_key_set : gset Value := {[value_of_str "inputs"; value_of_str "created"]}.

Definition build_replay_mutate_event (new old : Dictionary) (scratch : MutateScratch) : M Statement :=
  let btx := ms_btx scratch in
  let! m1 := elift (tx_with btx "created" (set_commitment (ms_new_created scratch))) in
  let! atx := elift (tx_with m1 "nullifiers" (set_commitment (ms_new_nullifiers scratch))) in
  let! st_nullify := build_replay_nullify old m1 atx (ms_new_nullifiers scratch) (ms_source scratch) in
  let! op_source_key := priv_op SetContains [lit_set source_key_set; lit_str (ms_source_key scratch)] in
  let! op_source :=
    priv_op DictContains [lit_dict btx; lit_str (ms_source_key scratch); lit_set (ms_source scratch)] in
  let! btx_created := entry btx "created" in
  let! op_si := priv_op SetInsert [btx_created; lit_dict new; lit_set (ms_new_created scratch)] in
  let! op_du_created :=
    priv_op DictUpdate [lit_dict btx; lit_str "created"; lit_set (ms_new_created scratch); lit_dict m1] in
  let! st_event :=
    apply_simple "ReplayMutateEvent" [op_source_key; op_source; op_si; op_du_created; st_nullify] in
  note "ReplayMutateEvent" ;!
  eret st_event.

Definition build_replay_mutate (new old : Dictionary) (frame : ReplayFrame) (tx_stmt evidence : Statement)
    : M (Statement * gset Value * gset Value) :=
  let! scratch := elift (mutate_scratch frame old new) in
  let! st_event := build_replay_mutate_event new old scratch in
  let! btx_start := entry (ms_btx scratch) "chain_start" in
  let! btx_end := entry (ms_btx scratch) "chain_end" in
  let! rebound_evidence := rebind [None; None; Some btx_start; Some btx_end] evidence in
  let! st := apply_simple "ReplayMutate" [tx_stmt; st_event; rebound_evidence] in
  note "ReplayMutate" ;!
  eret (st, ms_new_created scratch, ms_new_nullifiers scratch).

Definition replay_delete_pair (c : Consumption) : Dictionary :=
  <["source_key" := value_of_str (co_source_key c)]> {["source" := set_commitment (co_source c)]}.

Definition build_replay_delete (old : Dictionary) (frame : ReplayFrame) (tx_stmt evidence : Statement)
    : M (Statement * gset Value * gset Value) :=
  let btx := to_tx_dict frame in
  let! c := elift (consume frame old) in
  let! atx := elift (tx_with btx "nullifiers" (set_commitment (co_new_nullifiers c))) in
  let pair := replay_delete_pair c in
  let! st_nullify := build_replay_nullify old btx atx (co_new_nullifiers c) (co_source c) in
  let! pair_source := entry pair "source" in
  let! st_nullify_wrapped := rebind [None; None; None; Some pair_source] st_nullify in
  let! pair_source_key := entry pair "source_key" in
  let! op_source_key := priv_op SetContains [lit_set source_key_set; pair_source_key] in
  let! op_source := priv_op DictContains [lit_dict btx; pair_source_key; pair_source] in
  let! btx_start := entry btx "chain_start" in
  let! btx_end := entry btx "chain_end" in
  let! rebound_evidence := rebind [None; None; Some btx_start; Some btx_end] evidence in
  let! st :=
    apply_simple "ReplayDelete" [tx_stmt; op_source_key; op_source; st_nullify_wrapped; rebound_evidence] in
  note "ReplayDelete" ;!
  eret (st, rf_created frame, co_new_nullifiers c).

Definition replay_action_pair (ms fm1 : Dictionary) : Dictionary :=
  <["scope_mid" := dict_commitment ms]> {["mid" := dict_commitment fm1]}.

(** [contents] builds [ReplayContents] for the action's events. *)
Definition build_replay_action
    (contents : Hash -> ReplayFrame -> M (Statement * Hash * gset Value * gset Value))
    (chain : Hash) (parent : ReplayFrame) (chain_after : Hash) : M (Statement * gset Value * gset Value) :=
  let btx := to_tx_dict parent in
  let! ms := elift (tx_with btx "chain_start" chain) in
  let! itx := elift (tx_with ms "chain_end" chain_after) in
  let! (st_contents, _, next_created, next_nulls) := contents chain (rescope parent chain chain_after) in
  let etx := build_tx (rf_inputs parent) next_created next_nulls chain chain_after in
  let! fm1 := elift (tx_with btx "created" (set_commitment next_created)) in
  let! atx := elift (tx_with fm1 "nullifiers" (set_commitment next_nulls)) in
  let pair := replay_action_pair ms fm1 in
  let! scope_mid := entry pair "scope_mid" in
  let! op_scope1 := priv_op DictUpdate [lit_dict btx; lit_str "chain_start"; Lit chain; scope_mid] in
  let! op_scope2 := priv_op DictUpdate [scope_mid; lit_str "chain_end"; Lit chain_after; lit_dict itx] in
  let! etx_created := entry etx "created" in
  let! mid := entry pair "mid" in
  let! op_du1 := priv_op DictUpdate [lit_dict btx; lit_str "created"; etx_created; mid] in
  let! etx_nullifiers := entry etx "nullifiers" in
  let! op_du2 := priv_op DictUpdate [mid; lit_str "nullifiers"; etx_nullifiers; lit_dict atx] in
  let! st := elift (runwrap (apply_custom_pred modules "ReplayAction"
    [("before_tx", dict_commitment btx); ("after_tx", dict_commitment atx);
     ("before_chain", chain); ("after_chain", chain_after)]
    [op_scope1; op_scope2; st_contents; op_du1; op_du2])) in
  note "ReplayAction" ;!
  eret (st, next_created, next_nulls).

(** The slot of the statement in the disjunctions [ReplayElement] and
    [ReplayContents], and the predicate for a head of that kind. *)
Definition element_slots (tag : EventTag) (st : Statement) : list Statement :=
  match tag with
  | TagInsert => [st; st_none; st_none; st_none]
  | TagMutate => [st_none; st; st_none; st_none]
  | TagDelete => [st_none; st_none; st; st_none]
  | TagAction => [st_none; st_none; st_none; st]
  end.
Definition contents_slots (tag : EventTag) (st : Statement) : list Statement :=
  match tag with
  | TagInsert => [st_none; st; st_none; st_none; st_none]
  | TagMutate => [st_none; st_none; st; st_none; st_none]
  | TagDelete => [st_none; st_none; st_none; st; st_none]
  | TagAction => [st_none; st_none; st_none; st_none; st]
  end.
Definition step_name (tag : EventTag) : string :=
  match tag with
  | TagInsert => "ReplayContentsStepInsert"
  | TagMutate => "ReplayContentsStepMutate"
  | TagDelete => "ReplayContentsStepDelete"
  | TagAction => "ReplayContentsStepAction"
  end.

Abbreviation EventReplay := (M (Statement * EventTag * Hash * gset Value * gset Value)).

Definition build_replay_element (event : EventReplay) : M (Statement * Hash * gset Value * gset Value) :=
  let! (st_inner, tag, next_chain, next_created, next_nulls) := event in
  let! st := custom "ReplayElement" (element_slots tag st_inner) in
  note "ReplayElement" ;!
  eret (st, next_chain, next_created, next_nulls).

(** The head of a longer list is replayed as [build_replay_event] replays it. *)
Definition replay_list (event : ChainEvent -> Hash -> ReplayFrame -> EventReplay)
    : list ChainEvent -> Hash -> ReplayFrame -> M (Statement * Hash * gset Value * gset Value) :=
  fix go events chain frame :=
  match events with
  | [] => ethrow (Panic "build_replay_contents: empty event list (empty action scope is forbidden)")
  | [e] =>
      let! (st_elem, next_chain, next_created, next_nulls) := build_replay_element (event e chain frame) in
      let! st := custom "ReplayContents" [st_elem; st_none; st_none; st_none; st_none] in
      note "ReplayContents" ;!
      eret (st, next_chain, next_created, next_nulls)
  | first :: rest =>
      let! (st_head, tag, chain_after, next_created, next_nulls) := event first chain frame in
      let! (st_rest, final_chain, final_created, final_nulls) :=
        go rest chain_after (advance frame next_created next_nulls) in
      let! st_step := apply_simple (step_name tag) [st_head; st_rest] in
      note (step_name tag) ;!
      let! st := custom "ReplayContents" (contents_slots tag st_step) in
      note "ReplayContents" ;!
      eret (st, final_chain, final_created, final_nulls)
  end.

Fixpoint build_replay_event (event : ChainEvent) (chain : Hash) (frame : ReplayFrame) : EventReplay :=
  match event with
  | CInsert new initial chain_after tx_stmt guard_evidence =>
      let! evidence := elift (expect guard_evidence "missing guard evidence for insert") in
      let! (st, new_created) := build_replay_insert initial new frame tx_stmt evidence in
      eret (st, TagInsert, chain_after, new_created, rf_nullifiers frame)
  | CMutate new old chain_after tx_stmt guard_evidence =>
      let! evidence := elift (expect guard_evidence "missing guard evidence for mutate") in
      let! (st, new_created, new_null) := build_replay_mutate new old frame tx_stmt evidence in
      eret (st, TagMutate, chain_after, new_created, new_null)
  | CDelete old chain_after tx_stmt guard_evidence =>
      let! evidence := elift (expect guard_evidence "missing guard evidence for delete") in
      let! (st, new_created, new_null) := build_replay_delete old frame tx_stmt evidence in
      eret (st, TagDelete, chain_after, new_created, new_null)
  | CAction chain_after contents =>
      let! (st, new_created, new_null) :=
        build_replay_action (replay_list build_replay_event contents) chain frame chain_after in
      eret (st, TagAction, chain_after, new_created, new_null)
  end.

Definition build_replay_contents (events : list ChainEvent) : Hash -> ReplayFrame ->
    M (Statement * Hash * gset Value * gset Value) :=
  replay_list build_replay_event events.

Definition TOP_LEVEL : string :=
  "top-level event must be a ChainEvent::Action (bare events are only allowed inside an action scope)".

Definition build_replay_action_insert (contents : list ChainEvent) (parent : ReplayFrame)
    : M (Statement * gset Value * gset Value) :=
  match contents with
  | [] => ethrow (Panic "index out of bounds")
  | CInsert new initial _ tx_stmt guard_evidence :: _ =>
      let! evidence := elift (expect guard_evidence "missing guard evidence for insert") in
      let btx := to_tx_dict parent in
      let! new_created :=
        elift (with_context (set_ins (rf_created parent) (dict_commitment new)) ALREADY_CREATED) in
      let! atx := elift (tx_with btx "created" (set_commitment new_created)) in
      let pair := replay_insert_pair initial new_created in
      let! pair_initial := entry pair "initial" in
      let! tx_stmt_wrapped := rebind [None; None; Some pair_initial; None; None] tx_stmt in
      let! btx_created := entry btx "created" in
      let! pair_new_created := entry pair "new_created" in
      let! op_si := priv_op SetInsert [btx_created; lit_dict new; pair_new_created] in
      let! op_du := priv_op DictUpdate [lit_dict btx; lit_str "created"; pair_new_created; lit_dict atx] in
      let! st := apply_simple "ReplayActionInsert" [tx_stmt_wrapped; op_si; op_du; evidence] in
      note "ReplayActionInsert" ;!
      eret (st, new_created, rf_nullifiers parent)
  | _ :: _ => ethrow (Panic "ReplayActionInsert fast path requires a single Insert event")
  end.

Definition build_top_level_action (event : ChainEvent) (chain : Hash) (frame : ReplayFrame)
    : M (Statement * Hash * gset Value * gset Value) :=
  match event with
  | CAction chain_after contents =>
      let! (st, new_created, new_null) :=
        build_replay_action (build_replay_contents contents) chain frame chain_after in
      eret (st, chain_after, new_created, new_null)
  | _ => ethrow (Panic TOP_LEVEL)
  end.

Fixpoint build_replay_actions (events : list ChainEvent) (chain : Hash) (frame : ReplayFrame)
    : M (Statement * Hash * gset Value * gset Value) :=
  match events with
  | [] => ethrow (Panic "build_replay_actions: empty event list (empty Tx is forbidden)")
  | [CAction chain_after contents] =>
      match contents with
      | [CInsert _ _ _ _ _] =>
          let! (st_inner, new_created, new_nulls) := build_replay_action_insert contents frame in
          let! st := custom "ReplayActions" [st_none; st_none; st_inner] in
          note "ReplayActions" ;!
          eret (st, chain_after, new_created, new_nulls)
      | _ =>
          let! (st_action, new_created, new_nulls) :=
            build_replay_action (build_replay_contents contents) chain frame chain_after in
          let! st := custom "ReplayActions" [st_action; st_none; st_none] in
          note "ReplayActions" ;!
          eret (st, chain_after, new_created, new_nulls)
      end
  | [_] => ethrow (Panic TOP_LEVEL)
  | first :: rest =>
      let! (st_action, next_chain, next_created, next_nulls) := build_top_level_action first chain frame in
      let! (st_rest, final_chain, final_created, final_nulls) :=
        build_replay_actions rest next_chain (advance frame next_created next_nulls) in
      let! st_step := custom "ReplayActionsStep" [st_action; st_rest] in
      note "ReplayActionsStep" ;!
      let! st := custom "ReplayActions" [st_none; st_step; st_none] in
      note "ReplayActions" ;!
      eret (st, final_chain, final_created, final_nulls)
  end.
End Replayer.

End Replay.
