(* ===== verification/ReplayFacts.v ===== *)
(** * Replay is complete

    What the replayer of replay.rs does on a recorded tree: it succeeds exactly
    when the plain interpretation of the tree on sets does ([apply_event]), with
    the same sets, and the statements it builds are true. *)

From S2P Require Import Prelude Pod2 Models DonState Podlang TxModel TxPredicates Replay.

Module ReplayFacts.
Import Podlang TxModel TxPredicates Replay.
Local Open Scope string_scope.

(** ** Building statements *)

(** The instance of a template. *)
Definition targ_arg (σ : string -> Value) (t : TArg) : Arg :=
  match t with W w => Lit (σ w) | L x => Lit x | K w k => Entry (σ w) k end.
Definition inst `{PredicateHash} (σ : string -> Value) (t : Template) : Statement :=
  St (pred_of σ (t_pred t)) (targ_arg σ <$> t_args t).

(** An assignment given by a list. *)
Fixpoint asg (l : list (string * Value)) (w : string) : Value :=
  match l with
  | [] => EMPTY_HASH
  | (w', v) :: l' => if String.eqb w w' then v else asg l' w
  end.

(** The public arguments are determined by the hints and the statements. *)
Definition determined (P : Predicate) (hints : list string) (sts : list Statement) : bool :=
  forallb (fun w => existsb (String.eqb w) (hints ++ bound P sts)) (p_args P).

Section Statements.
Context `{BuilderLaws, !NativeLaws, !External}.

Lemma matches_inst σ t : matches σ t (inst σ t) = true.
Proof.
  unfold matches, inst. simpl. rewrite bool_decide_true by done. simpl.
  induction (t_args t) as [|[] l IH]; simpl; [done|..]; by rewrite ?bool_decide_true, ?IH by done.
Qed.

Lemma inst_not_none σ t : is_none (inst σ t) = false.
Proof. by destruct t as [[]]. Qed.

Lemma zip_inst_slots σ (ts : list Template) :
  filter (fun x : Template * Statement => is_none (snd x) = false) (zip ts (inst σ <$> ts))
  = (fun t => (t, inst σ t)) <$> ts.
Proof.
  induction ts as [|t ts IH]; [done|]. cbn [fmap list_fmap zip]. rewrite filter_cons_True by apply inst_not_none.
  by rewrite IH.
Qed.

Lemma instance_and P σ : p_conn P = AND -> instance P σ (inst σ <$> p_sts P) = true.
Proof.
  intros Hc. unfold instance, slots_ok, slots. rewrite Hc, zip_inst_slots, !length_fmap, !bool_decide_true by done.
  simpl. apply forallb_forall. intros ts Hin%list_elem_of_In. apply list_elem_of_fmap in Hin as (t & -> & _).
  apply matches_inst.
Qed.

Lemma instance_or P σ t sts :
  p_conn P = OR -> length sts = length (p_sts P) -> slots P sts = [(t, inst σ t)] -> instance P σ sts = true.
Proof.
  intros Hc Hl Hs. unfold instance, slots_ok. rewrite Hc, Hs, !bool_decide_true by done. simpl.
  by rewrite matches_inst.
Qed.

Lemma determined_spec P hints sts :
  determined P hints sts = true -> forall w, w ∈ p_args P -> w ∈ hints \/ w ∈ bound P sts.
Proof.
  intros Hd w Hw. unfold determined in Hd. rewrite forallb_forall in Hd.
  specialize (Hd w (proj1 (list_elem_of_In _ _) Hw)). apply existsb_exists in Hd as (w' & Hin & Heq).
  apply String.eqb_eq in Heq as <-. apply list_elem_of_In in Hin. by apply elem_of_app.
Qed.

(** A true statement of a predicate, with literal arguments. *)
Definition proven (name : string) (vs : list Value) (st : Statement) : Prop :=
  st = St (Custom (predicate_hash name)) (Lit <$> vs)
  /\ true_of modules (Custom (predicate_hash name)) vs.

Lemma lit_values vs : Forall2 arg_value (Lit <$> vs) vs.
Proof. induction vs; simpl; constructor; done. Qed.

Lemma proven_valid name vs st : proven name vs st -> valid modules st.
Proof. intros [-> Ht]. exists vs. split; [apply lit_values|done]. Qed.

Lemma valid_native p args vs :
  Forall2 arg_value args vs -> native_holds p vs -> valid modules (St (Native p) args).
Proof. intros Ha Hn. exists vs. split; [done|]. by exists 1%nat. Qed.

Lemma replaces_valid es p l l' : replaces es l l' -> valid modules (St p l) -> valid modules (St p l').
Proof.
  intros Hr (vs & Hvs & Ht). exists vs. split; [|done]. simpl in *. clear Ht. revert vs Hvs.
  induction Hr as [|es a l l' _ IH|es e v l l' He _ IH]; intros vs Hvs; [done|..];
    apply Forall2_cons_inv_l in Hvs as (x & vs' & Hx & Hvs & ->).
  - constructor; [done|by apply IH].
  - simpl in Hx. subst x. constructor; [done|by apply IH].
Qed.

Lemma find_in name P : find_custom_pred_by_name modules name = Some P -> P ∈ modules /\ p_name P = name.
Proof.
  unfold find_custom_pred_by_name. destruct (list_find _ _) as [[i Q]|] eqn:E; [|done]. intros [= ->].
  apply list_find_Some in E as (Hi & Hq & _). split; [by eapply list_elem_of_lookup_2|done].
Qed.

(** What applying a predicate of the modules gives. *)
Lemma custom_op_proven name P hints σ sts :
  find_custom_pred_by_name modules name = Some P -> instance P σ sts = true ->
  determined P (hints.*1) sts = true -> Forall (fun wv => σ (fst wv) = snd wv) hints ->
  (forall st, st ∈ sts -> is_none st = false -> valid modules st) ->
  exists st, custom_op P hints sts = Ok st /\ proven name (σ <$> p_args P) st.
Proof.
  intros Hf Hi Hd Hh Hv. destruct (find_in _ _ Hf) as [HP <-].
  eexists. split.
  - apply (custom_op_ok P hints sts σ); [done| |].
    + intros w v Hin. rewrite Forall_forall in Hh. by apply (Hh (w, v)).
    + by apply determined_spec.
  - split; [by rewrite <-list_fmap_compose|]. by eapply instance_valid.
Qed.
End Statements.

(** ** Rules for the operations of the replayer *)

(** The build context has the transaction modules. *)
Class HasModules `{Pod2} (ms : list Predicate) : Prop :=
  has_module name P : find_custom_pred_by_name modules name = Some P -> find_custom_pred_by_name ms name = Some P.

Section Rules.
Context `{BuilderLaws, !NativeLaws, !External, !Containers, !ContainerLaws} (ms : list Predicate) `{!HasModules ms}.
Context {S A : Type} (Q : A -> S -> Prop) (E : failure -> S -> Prop).
Implicit Types (s : S).

Lemma wp_entry d key v k s :
  d !! key = Some v -> wp (k (Entry (dict_commitment d) (value_of_str key))) Q E s ->
  wp (ebind (entry d key) k) Q E s.
Proof. intros Hd Hk. unfold entry. rewrite Hd. exact Hk. Qed.

Lemma wp_tx_with d key v k s :
  is_Some (d !! key) -> wp (k (<[key := v]> d)) Q E s -> wp (ebind (elift (tx_with d key v)) k) Q E s.
Proof. intros Hd Hk. eapply wp_Ok; [|exact Hk]. unfold tx_with. by rewrite dict_upd_old. Qed.

Lemma wp_priv p args vs k s :
  Forall2 arg_value args vs -> native_holds p vs ->
  (valid modules (St (Native p) args) -> wp (k (St (Native p) args)) Q E s) ->
  wp (ebind (priv_op p args) k) Q E s.
Proof.
  intros Ha Hn Hk. eapply wp_Ok; [by rewrite (native_op_ok p args vs)|]. apply Hk. by eapply valid_native.
Qed.

Lemma wp_rebind es p l l' k s :
  replaces es l l' -> valid modules (St p l) ->
  (valid modules (St p l') -> wp (k (St p l')) Q E s) -> wp (ebind (rebind es (St p l)) k) Q E s.
Proof.
  intros Hr Hv Hk. eapply wp_Ok; [by rewrite (replace_op_ok es p l l')|]. apply Hk. by eapply replaces_valid.
Qed.

(** Applying a conjunction to its instances. *)
Lemma simple_proven name P σ sts :
  find_custom_pred_by_name modules name = Some P -> p_conn P = AND -> sts = inst σ <$> p_sts P ->
  determined P [] sts = true -> Forall (valid modules) sts ->
  exists st, apply_custom_pred_simple ms name sts = Ok st /\ proven name (σ <$> p_args P) st.
Proof.
  intros Hf Hc -> Hd Hv.
  destruct (custom_op_proven name P [] σ (inst σ <$> p_sts P)) as (st & Hop & Hst);
    [done|by apply instance_and|done|constructor| |].
  - intros st Hin _. rewrite Forall_forall in Hv. by apply Hv.
  - exists st. split; [|done]. unfold apply_custom_pred_simple. by rewrite (has_module _ _ Hf).
Qed.

Lemma wp_simple name P σ sts k s :
  find_custom_pred_by_name modules name = Some P -> p_conn P = AND -> sts = inst σ <$> p_sts P ->
  determined P [] sts = true -> Forall (valid modules) sts ->
  (forall st, proven name (σ <$> p_args P) st -> wp (k st) Q E s) ->
  wp (ebind (apply_simple ms name sts) k) Q E s.
Proof.
  intros Hf Hc Hs Hd Hv Hk. destruct (simple_proven name P σ sts) as (st & Hop & Hst); [done..|].
  eapply wp_Ok; [by rewrite Hop|by apply Hk].
Qed.

Lemma apply_custom_proven name P hints σ sts :
  find_custom_pred_by_name modules name = Some P -> instance P σ sts = true ->
  filter (fun wv => fst wv ∈ pred_wildcards P) hints = hints ->
  determined P (hints.*1) sts = true -> Forall (fun wv => σ (fst wv) = snd wv) hints ->
  (forall st, st ∈ sts -> is_none st = false -> valid modules st) ->
  exists st, apply_custom_pred ms name hints sts = Ok st /\ proven name (σ <$> p_args P) st.
Proof.
  intros Hf Hi Hfl Hd Hh Hv. destruct (custom_op_proven name P hints σ sts) as (st & Hop & Hst); [done..|].
  exists st. split; [|done]. unfold apply_custom_pred. by rewrite (has_module _ _ Hf), Hfl, Hop.
Qed.

Lemma try_map_Ok_id {B} (l : list B) : try_map id (Ok <$> l) = @Ok failure _ l.
Proof. induction l as [|b l IH]; [done|]. cbn. fold (fmap (M := list) (@Ok failure B) l). by rewrite IH. Qed.

Lemma st_custom_given name hints sts P :
  find_custom_pred_by_name modules name = Some P ->
  st_custom ms name hints (Ok <$> sts) = apply_custom_pred ms name hints sts.
Proof.
  intros Hf. unfold st_custom. by rewrite (has_module _ _ Hf), try_map_Ok_id.
Qed.

(** Applying a disjunction to an instance of one of its templates. *)
Lemma wp_or name P σ i t sts k s :
  find_custom_pred_by_name modules name = Some P -> p_sts P !! i = Some t ->
  p_conn P = OR -> length sts = length (p_sts P) ->
  slots P sts = [(t, inst σ t)] -> determined P [] sts = true -> valid modules (inst σ t) ->
  (forall st, st ∈ sts -> st = inst σ t \/ st = st_none) ->
  (forall st, proven name (σ <$> p_args P) st -> wp (k st) Q E s) ->
  wp (ebind (custom ms name sts) k) Q E s.
Proof.
  intros Hf _ Hc Hl Hs Hd Hv Hin Hk.
  destruct (apply_custom_proven name P [] σ sts) as (st & Hop & Hst);
    [done|by eapply instance_or|done|done|constructor| |].
  - intros st [-> | ->]%Hin Hn; [done|]. discriminate Hn.
  - eapply wp_Ok; [|by apply Hk]. by rewrite (st_custom_given _ _ _ _ Hf), Hop.
Qed.

Lemma wp_custom_and name P σ sts k s :
  find_custom_pred_by_name modules name = Some P -> p_conn P = AND -> sts = inst σ <$> p_sts P ->
  determined P [] sts = true -> Forall (valid modules) sts ->
  (forall st, proven name (σ <$> p_args P) st -> wp (k st) Q E s) ->
  wp (ebind (custom ms name sts) k) Q E s.
Proof.
  intros Hf Hc -> Hd Hv Hk.
  destruct (apply_custom_proven name P [] σ (inst σ <$> p_sts P)) as (st & Hop & Hst);
    [done|by apply instance_and|done|done|constructor| |].
  - intros st Hin _. rewrite Forall_forall in Hv. by apply Hv.
  - eapply wp_Ok; [|by apply Hk]. by rewrite (st_custom_given _ _ _ _ Hf), Hop.
Qed.

(** Applying a conjunction with hints. *)
Lemma wp_applied name P hints σ sts k s :
  find_custom_pred_by_name modules name = Some P -> p_conn P = AND -> sts = inst σ <$> p_sts P ->
  filter (fun wv => fst wv ∈ pred_wildcards P) hints = hints ->
  determined P (hints.*1) sts = true -> Forall (fun wv => σ (fst wv) = snd wv) hints ->
  Forall (valid modules) sts ->
  (forall st, proven name (σ <$> p_args P) st -> wp (k st) Q E s) ->
  wp (ebind (elift (runwrap (apply_custom_pred ms name hints sts))) k) Q E s.
Proof.
  intros Hf Hc -> Hfl Hd Hh Hv Hk.
  destruct (apply_custom_proven name P hints σ (inst σ <$> p_sts P)) as (st & Hop & Hst);
    [done|by apply instance_and|done..| |].
  - intros st Hin _. rewrite Forall_forall in Hv. by apply Hv.
  - eapply wp_Ok; [by rewrite Hop|]. by apply Hk.
Qed.

Lemma dict_entry d key v : d !! key = Some v -> arg_value (Entry (dict_commitment d) (value_of_str key)) v.
Proof. intros Hd. apply contains_dict. eauto. Qed.
End Rules.

Lemma wp_note {A} name (k : unit -> eff TxStats A) Q E s : wp (k tt) Q E (record name s) -> wp (ebind (note name) k) Q E s.
Proof. done. Qed.

(** Tactics for the rules: arguments have values, containers are known. *)
Ltac arg_values :=
  repeat first [ exact eq_refl | (apply dict_entry; reflexivity) | constructor ].
Ltac known :=
  cbn [native_holds];
  first [ exact eq_refl
        | (apply set_insert_spec; split; [try done|try exact eq_refl])
        | (apply dict_update_spec; split; [by eexists|try exact eq_refl])
        | (apply dict_insert_spec; split; [try exact eq_refl|try exact eq_refl])
        | (apply dict_delete_spec; split; [by eexists|try exact eq_refl])
        | (apply set_contains_spec; try done)
        | (apply contains_dict; eexists; split; [exact eq_refl|try exact eq_refl]) ].
Ltac rebound :=
  cbn [fmap list_fmap];
  repeat first [ apply replaces_nil | apply replaces_none
               | (apply replaces_some; [apply dict_entry; reflexivity|]) ].
Ltac walk :=
  repeat lazymatch goal with
  | |- wp (ebind (entry _ _) _) _ _ _ => eapply wp_entry; [reflexivity|]
  | |- wp (ebind (elift (tx_with _ _ _)) _) _ _ _ => eapply wp_tx_with; [by eexists|]
  | |- wp (ebind (note _) _) _ _ _ => apply wp_note
  | |- wp (ebind (priv_op _ _) _) _ _ _ => eapply wp_priv; [solve [arg_values]|solve [known]|intros ?]
  | |- wp (ebind (rebind _ _) _) _ _ _ => eapply wp_rebind; [solve [rebound]|solve [eauto]|intros ?]
  end.
(** Apply a conjunction with the given assignment. *)
Ltac conj_with σ :=
  eapply (wp_simple _ _ _ _ _ (asg σ));
  [reflexivity|reflexivity|reflexivity|reflexivity|by repeat constructor|intros ? ?].

(** ** The plain interpretation of a tree *)

Section Interpretation.
Context `{Pod2}.

Definition apply_consume (f : ReplayFrame) (old : Dictionary) : Result (gset Value) :=
  if decide (dict_commitment old ∈ rf_inputs f \/ dict_commitment old ∈ rf_created f) then
    let? nul := object_nullifier_hash old in
    if decide (nul ∈ rf_nullifiers f) then Err (Fail ALREADY_CONSUMED) else Ok ({[nul]} ∪ rf_nullifiers f)
  else Err (Fail NOT_AVAILABLE).

Definition apply_create (f : ReplayFrame) (new : Dictionary) : Result (gset Value) :=
  if decide (dict_commitment new ∈ rf_created f) then Err (Fail ALREADY_CREATED)
  else Ok ({[dict_commitment new]} ∪ rf_created f).

Definition apply_list (event : ReplayFrame -> ChainEvent -> Result (gset Value * gset Value))
    : ReplayFrame -> list ChainEvent -> Result (gset Value * gset Value) :=
  fix go f es :=
  match es with
  | [] => Ok (rf_created f, rf_nullifiers f)
  | e :: es' => let? (created, nullifiers) := event f e in go (advance f created nullifiers) es'
  end.

Fixpoint apply_event (f : ReplayFrame) (e : ChainEvent) : Result (gset Value * gset Value) :=
  match e with
  | CInsert new _ _ _ _ => rmap (fun created => (created, rf_nullifiers f)) (apply_create f new)
  | CMutate new old _ _ _ =>
      let? nullifiers := apply_consume f old in
      let? created := apply_create f new in
      Ok (created, nullifiers)
  | CDelete old _ _ _ => rmap (fun nullifiers => (rf_created f, nullifiers)) (apply_consume f old)
  | CAction _ contents => apply_list apply_event f contents
  end.

Definition apply_events : ReplayFrame -> list ChainEvent -> Result (gset Value * gset Value) :=
  apply_list apply_event.

(** Induction on trees. *)
Lemma ChainEvent_nested_ind (P : ChainEvent -> Prop) :
  (forall new initial ca st g, P (CInsert new initial ca st g)) ->
  (forall new old ca st g, P (CMutate new old ca st g)) ->
  (forall old ca st g, P (CDelete old ca st g)) ->
  (forall ca contents, Forall P contents -> P (CAction ca contents)) ->
  forall e, P e.
Proof.
  intros Hi Hm Hd Ha. fix IH 1. intros [| | |ca contents]; [apply Hi|apply Hm|apply Hd|].
  apply Ha. induction contents as [|e es IHes]; constructor; [apply IH|apply IHes].
Qed.

(** The interpretation does not depend on the scope of the frame. *)
Lemma apply_event_rescope f s t e : apply_event (rescope f s t) e = apply_event f e.
Proof.
  revert f s t. induction e as [| | |ca contents IH] using ChainEvent_nested_ind; intros f s t; try done. simpl.
  revert f s t. induction IH as [|e es He _ IHes]; intros f s t; [done|]. simpl. rewrite He.
  destruct (apply_event f e) as [[cr ns]|]; simpl; [|done]. apply (IHes (advance f cr ns) s t).
Qed.

Lemma apply_events_rescope f s t es : apply_events (rescope f s t) es = apply_events f es.
Proof. exact (apply_event_rescope f s t (CAction EMPTY_HASH es)). Qed.

(** It never panics. *)
Lemma apply_event_no_panic f e m : apply_event f e <> Err (Panic m).
Proof.
  assert (Hcr : forall f new, apply_create f new <> Err (Panic m))
    by (intros; unfold apply_create; by case_decide).
  assert (Hco : forall f old, apply_consume f old <> Err (Panic m)).
  { intros g old. unfold apply_consume, object_nullifier_hash, object_key_hash, rmap.
    destruct (old !! "key"); simpl; by repeat case_decide. }
  revert f. induction e as [new ? ? ? ?|new old ? ? ?|old ? ? ?|ca contents IH] using ChainEvent_nested_ind;
    intros f; simpl.
  - intros [H1|(? & _ & [=])]%rbind_Err. by apply Hcr in H1.
  - intros [H1|(? & _ & [H1|(? & _ & [=])]%rbind_Err)]%rbind_Err; [by apply Hco in H1|by apply Hcr in H1].
  - intros [H1|(? & _ & [=])]%rbind_Err. by apply Hco in H1.
  - revert f. induction IH as [|e es He _ IHes]; intros f; simpl; [done|].
    intros [H1|([cr ns] & _ & H1)]%rbind_Err; [by apply He in H1|by apply IHes in H1].
Qed.
End Interpretation.

(** ** The events *)

(** Apply a disjunction to a statement of one of its templates. *)
Ltac disj_with i σ :=
  eapply (wp_or _ _ _ _ _ (asg σ) i);
  [reflexivity|reflexivity|reflexivity|reflexivity|reflexivity|reflexivity|done|set_solver|intros ? ?].

Section Events.
Context `{BuilderLaws, !NativeLaws, !External, !Containers, !ContainerLaws} (ms : list Predicate) `{!HasModules ms}.
Abbreviation commit d := (dict_commitment d).

(** Evidence that the guard of a type accepts an object in an action scope. *)
Definition evidence (header type obj chain_start chain_end : Value) (st : Statement) : Prop :=
  st = St (Custom type) [Lit obj; Lit header; Lit chain_start; Lit chain_end]
  /\ true_of modules (Custom type) [obj; header; chain_start; chain_end].

Lemma evidence_valid header type obj cs ce st : evidence header type obj cs ce st -> valid modules st.
Proof. intros [-> Ht]. exists [obj; header; cs; ce]. split; [|done]. by repeat constructor. Qed.

Lemma set_ins_context s v m :
  with_context (set_ins s v) m = if decide (v ∈ s) then Err (Fail m) else Ok ({[v]} ∪ s).
Proof.
  case_decide as Hv; [by destruct (set_ins_old s v Hv) as [? ->]|by rewrite set_ins_new].
Qed.

Lemma wp_build_replay_insert initial new f stmt ev c ca ty header s :
  proven "TxInsert" [c; ca; commit initial; commit new; ty] stmt ->
  evidence header ty (commit new) (rf_chain_start f) (rf_chain_end f) ev ->
  wp (build_replay_insert ms initial new f stmt ev)
    (fun r _ => commit new ∉ rf_created f /\ snd r = {[commit new]} ∪ rf_created f
       /\ proven "ReplayInsert" [header; tx_value f; tx_value (with_created f (snd r)); c; ca] (fst r))
    (fun e _ => commit new ∈ rf_created f /\ e = Fail ALREADY_CREATED) s.
Proof.
  intros Htx Hev. unfold build_replay_insert. rewrite set_ins_context. case_decide as Hn; [done|].
  eapply wp_Ok; [done|]. set (nc := {[commit new]} ∪ rf_created f).
  pose proof (proven_valid _ _ _ Htx). pose proof (evidence_valid _ _ _ _ _ _ Hev).
  destruct Htx as [-> _], Hev as [-> _]. walk.
  conj_with [("state_header", header); ("before_tx", tx_value f); ("after_tx", tx_value (with_created f nc));
    ("before_chain", c); ("after_chain", ca); ("new", commit new);
    ("pair", commit (replay_insert_pair initial nc)); ("guard", ty)].
  walk. by apply wp_ret.
Qed.

Lemma consume_spec f old :
  consume f old = rmap (fun ns => {| co_source_key := fst (source_for f old);
    co_source := snd (source_for f old); co_new_nullifiers := ns |}) (apply_consume f old).
Proof.
  unfold consume, apply_consume, object_nullifier_hash, rmap. destruct (source_for f old) as [key src] eqn:Es.
  unfold source_for in Es. case_decide as Hi; injection Es as <- <-.
  - rewrite decide_True by auto. rewrite bool_decide_true by done. simpl.
    destruct (object_key_hash old); simpl; [|done]. rewrite set_ins_context. by case_decide.
  - case_bool_decide as Hc; simpl; [rewrite decide_True by auto|rewrite decide_False by tauto]; [|done].
    destruct (object_key_hash old); simpl; [|done]. rewrite set_ins_context. by case_decide.
Qed.

Lemma object_nullifier_Ok old nul :
  object_nullifier_hash old = Ok nul ->
  exists key, old !! "key" = Some key /\ nul = object_nullifier_from_key_hash (hash_values [commit old; key]).
Proof.
  unfold object_nullifier_hash, object_key_hash. destruct (old !! "key") as [key|]; [|done]. intros [= <-]. eauto.
Qed.

Lemma apply_consume_Ok f old ns :
  apply_consume f old = Ok ns ->
  commit old ∈ snd (source_for f old) /\ exists nul, object_nullifier_hash old = Ok nul
    /\ nul ∉ rf_nullifiers f /\ ns = {[nul]} ∪ rf_nullifiers f.
Proof.
  unfold apply_consume, source_for. case_decide as Ha; [|done].
  intros (nul & Hn & Hc)%rbind_Ok. case_decide as Hf; [done|]. injection Hc as <-. split; [|eauto].
  case_decide; simpl; tauto.
Qed.

Lemma source_key_of f old :
  let '(key, src) := source_for f old in
  value_of_str key ∈ source_key_set /\ to_tx_dict f !! key = Some (set_commitment src).
Proof. unfold source_for, source_key_set. case_decide; (split; [set_solver|done]). Qed.

Lemma wp_build_replay_nullify old f nul src s :
  commit old ∈ src -> object_nullifier_hash old = Ok nul -> nul ∉ rf_nullifiers f ->
  let f' := advance f (rf_created f) ({[nul]} ∪ rf_nullifiers f) in
  wp (build_replay_nullify ms old (to_tx_dict f) (to_tx_dict f') ({[nul]} ∪ rf_nullifiers f) src)
    (fun st _ => proven "ReplayNullify" [tx_value f; tx_value f'; commit old; set_commitment src] st)
    (fun _ _ => False) s.
Proof.
  intros Hsrc (key & Hkey & ->)%object_nullifier_Ok Hfresh f'. unfold build_replay_nullify.
  set (okh := hash_values [commit old; key]) in *. set (nul := object_nullifier_from_key_hash okh) in *.
  walk. eapply (wp_Ok _ okh); [unfold object_key_hash; by rewrite Hkey|].
  eapply wp_entry; [exact Hkey|].
  eapply (wp_priv _ _ _ _ [commit old; key; okh]);
    [repeat constructor; by apply dict_entry|done|intros ?].
  walk.
  conj_with [("mid_tx", tx_value f); ("after_tx", tx_value f'); ("old", commit old); ("source", set_commitment src);
    ("obj_key_hash", okh); ("nullifier", nul); ("new_nullifiers", set_commitment ({[nul]} ∪ rf_nullifiers f))].
  walk. by apply wp_ret.
Qed.

Lemma wp_build_replay_mutate_event new old f scratch s :
  mutate_scratch f old new = Ok scratch ->
  wp (build_replay_mutate_event ms new old scratch)
    (fun st _ => proven "ReplayMutateEvent"
       [tx_value f; tx_value (advance f (ms_new_created scratch) (ms_new_nullifiers scratch)); commit old; commit new] st)
    (fun _ _ => False) s.
Proof.
  unfold mutate_scratch. rewrite consume_spec.
  intros (co & (ns & Hns & Hco)%rbind_Ok & (cr & Hcr & [= <-])%rbind_Ok)%rbind_Ok. injection Hco as <-.
  rewrite set_ins_context in Hcr. case_decide as Hnew; [done|]. injection Hcr as <-.
  apply apply_consume_Ok in Hns as (Hsrc & nul & Hnul & Hfresh & ->).
  pose proof (source_key_of f old) as Hk. destruct (source_for f old) as [key src]. destruct Hk as [Hkey Hin].
  unfold build_replay_mutate_event. cbn [ms_btx ms_new_created ms_new_nullifiers ms_source ms_source_key
    co_source co_source_key co_new_nullifiers fst snd] in *.
  set (cr := {[commit new]} ∪ rf_created f). walk.
  apply wp_bind. eapply wp_mono; [apply (wp_build_replay_nullify old (with_created f cr) nul src); done| |done].
  intros st_nullify s' Hst. simpl in Hst. walk.
  eapply (wp_priv _ _ _ _ [commit (to_tx_dict f); value_of_str key; set_commitment src]);
    [by repeat constructor|apply contains_dict; eauto|intros ?].
  walk. pose proof (proven_valid _ _ _ Hst). destruct Hst as [-> _].
  conj_with [("before_tx", tx_value f); ("after_tx", tx_value (advance f cr ({[nul]} ∪ rf_nullifiers f)));
    ("old", commit old); ("new", commit new); ("new_created", set_commitment cr);
    ("mid_tx", tx_value (with_created f cr)); ("source_key", value_of_str key); ("source", set_commitment src)].
  walk. by apply wp_ret.
Qed.

Lemma wp_build_replay_mutate new old f stmt ev c ca ty header s :
  proven "TxMutate" [c; ca; commit old; commit new; ty] stmt ->
  evidence header ty (commit new) (rf_chain_start f) (rf_chain_end f) ev ->
  wp (build_replay_mutate ms new old f stmt ev)
    (fun '(st, cr, ns) _ => apply_consume f old = Ok ns /\ apply_create f new = Ok cr
       /\ proven "ReplayMutate" [header; tx_value f; tx_value (advance f cr ns); c; ca] st)
    (fun e _ => (let? ns := apply_consume f old in let? cr := apply_create f new in Ok (cr, ns)) = Err e) s.
Proof.
  intros Htx Hev. unfold build_replay_mutate. apply wp_bind, wp_lift.
  - intros scratch Hs. apply wp_bind.
    eapply wp_mono; [by apply (wp_build_replay_mutate_event new old f)| |done].
    intros st_event s' Hst. unfold mutate_scratch in Hs. rewrite consume_spec in Hs.
    apply rbind_Ok in Hs as (co & (ns & Hns & Hco)%rbind_Ok & (cr & Hcr & [= <-])%rbind_Ok). injection Hco as <-.
    rewrite set_ins_context in Hcr. cbn [ms_btx ms_new_created ms_new_nullifiers co_new_nullifiers] in *.
    pose proof (proven_valid _ _ _ Htx). pose proof (evidence_valid _ _ _ _ _ _ Hev).
    pose proof (proven_valid _ _ _ Hst). destruct Htx as [-> _], Hev as [-> _], Hst as [-> _]. walk.
    conj_with [("state_header", header); ("before_tx", tx_value f); ("after_tx", tx_value (advance f cr ns));
      ("before_chain", c); ("after_chain", ca); ("old", commit old); ("new", commit new); ("guard", ty)].
    walk. by apply wp_ret.
  - intros e. unfold mutate_scratch. rewrite consume_spec. unfold rmap.
    destruct (apply_consume f old); simpl; [|by intros [= ->]]. rewrite set_ins_context. unfold apply_create.
    case_decide; [by intros [= ->]|done].
Qed.

Lemma wp_build_replay_delete old f stmt ev c ca ty header s :
  proven "TxDelete" [c; ca; commit old; ty] stmt ->
  evidence header ty (commit old) (rf_chain_start f) (rf_chain_end f) ev ->
  wp (build_replay_delete ms old f stmt ev)
    (fun '(st, cr, ns) _ => apply_consume f old = Ok ns /\ cr = rf_created f
       /\ proven "ReplayDelete" [header; tx_value f; tx_value (advance f cr ns); c; ca] st)
    (fun e _ => apply_consume f old = Err e) s.
Proof.
  intros Htx Hev. unfold build_replay_delete. rewrite consume_spec. apply wp_bind, wp_lift.
  - intros co (ns & Hns & [= <-])%rbind_Ok. pose proof Hns as Hns'.
    apply apply_consume_Ok in Hns' as (Hsrc & nul & Hnul & Hfresh & ->).
    pose proof (source_key_of f old) as Hk. destruct (source_for f old) as [key src]. destruct Hk as [Hkey Hin].
    cbn [co_source co_source_key co_new_nullifiers fst snd] in *. walk. apply wp_bind.
    eapply wp_mono; [apply (wp_build_replay_nullify old f nul src); done| |done].
    intros st_nullify s' Hst. simpl in Hst. pose proof (proven_valid _ _ _ Hst). destruct Hst as [-> _]. walk.
    set (pair := replay_delete_pair _).
    eapply (wp_priv _ _ _ _ [commit (to_tx_dict f); value_of_str key; set_commitment src]);
      [repeat constructor; by apply dict_entry|apply contains_dict; eauto|intros ?].
    pose proof (proven_valid _ _ _ Htx). pose proof (evidence_valid _ _ _ _ _ _ Hev).
    destruct Htx as [-> _], Hev as [-> _]. walk.
    conj_with [("state_header", header); ("before_tx", tx_value f);
      ("after_tx", tx_value (advance f (rf_created f) ({[nul]} ∪ rf_nullifiers f)));
      ("before_chain", c); ("after_chain", ca); ("old", commit old); ("guard", ty); ("pair", commit pair)].
    walk. by apply wp_ret.
  - intros e. unfold rmap. by intros [?|(? & _ & ?)]%rbind_Err.
Qed.

(** *** Recorded trees *)

(** What the builder records: each event has the statement of its chain step
    and evidence for the bounds of the action it is in. *)
Inductive recorded (header : Value) : Value -> Value -> Value -> ChainEvent -> Value -> Prop :=
| recorded_insert cs ce c ca new initial ty stmt ev :
    proven "TxInsert" [c; ca; commit initial; commit new; ty] stmt ->
    evidence header ty (commit new) cs ce ev ->
    recorded header cs ce c (CInsert new initial ca stmt (Some ev)) ca
| recorded_mutate cs ce c ca new old ty stmt ev :
    proven "TxMutate" [c; ca; commit old; commit new; ty] stmt ->
    evidence header ty (commit new) cs ce ev ->
    recorded header cs ce c (CMutate new old ca stmt (Some ev)) ca
| recorded_delete cs ce c ca old ty stmt ev :
    proven "TxDelete" [c; ca; commit old; ty] stmt ->
    evidence header ty (commit old) cs ce ev ->
    recorded header cs ce c (CDelete old ca stmt (Some ev)) ca
| recorded_action cs ce c ca contents :
    contents <> [] -> recorded_list header c ca c contents ca ->
    recorded header cs ce c (CAction ca contents) ca
with recorded_list (header : Value) : Value -> Value -> Value -> list ChainEvent -> Value -> Prop :=
| recorded_nil cs ce c : recorded_list header cs ce c [] c
| recorded_cons cs ce c e c1 es c2 :
    recorded header cs ce c e c1 -> recorded_list header cs ce c1 es c2 ->
    recorded_list header cs ce c (e :: es) c2.

Scheme recorded_ind2 := Induction for recorded Sort Prop
  with recorded_list_ind2 := Induction for recorded_list Sort Prop.
Combined Scheme recorded_both from recorded_ind2, recorded_list_ind2.

Definition event_name (tag : EventTag) : string :=
  match tag with
  | TagInsert => "ReplayInsert" | TagMutate => "ReplayMutate"
  | TagDelete => "ReplayDelete" | TagAction => "ReplayAction"
  end.

(** A replay step: the sets are those of the plain interpretation, the
    statement says so. *)
Definition steps (header : Value) (f : ReplayFrame) (c : Value) (cr ns : gset Value) (ca : Value) : list Value :=
  [header; tx_value f; tx_value (advance f cr ns); c; ca].

Definition good_event header f c e ca s : Prop :=
  wp (build_replay_event ms e c f)
    (fun '(st, tag, ch, cr, ns) _ => apply_event f e = Ok (cr, ns) /\ ch = ca
       /\ proven (event_name tag) (steps header f c cr ns ca) st)
    (fun err _ => apply_event f e = Err err) s.

Definition good_list header f c es ca s : Prop :=
  wp (build_replay_contents ms es c f)
    (fun '(st, ch, cr, ns) _ => apply_events f es = Ok (cr, ns) /\ ch = ca
       /\ proven "ReplayContents" (steps header f c cr ns ca) st)
    (fun err _ => apply_events f es = Err err) s.

Lemma wp_build_replay_action header f c es ca s :
  (forall s, good_list header (rescope f c ca) c es ca s) ->
  wp (build_replay_action ms (build_replay_contents ms es) c f ca)
    (fun '(st, cr, ns) _ => apply_events f es = Ok (cr, ns)
       /\ proven "ReplayAction" (steps header f c cr ns ca) st)
    (fun err _ => apply_events f es = Err err) s.
Proof.
  intros Hes. unfold build_replay_action. walk. apply wp_bind. eapply wp_mono; [apply Hes| |].
  - intros [[[st_contents ch] cr] ns] s' (Hap & -> & Hst). rewrite apply_events_rescope in Hap. walk.
    pose proof (proven_valid _ _ _ Hst). destruct Hst as [-> _].
    set (pair := replay_action_pair _ _).
    set (σ := asg [("state_header", header); ("before_tx", tx_value f); ("after_tx", tx_value (advance f cr ns));
      ("before_chain", c); ("after_chain", ca); ("pair", commit pair);
      ("inner_tx", tx_value (rescope f c ca)); ("end_tx", tx_value (advance (rescope f c ca) cr ns))]).
    eapply (wp_applied _ _ _ _ _ _ σ);
      [reflexivity|reflexivity|reflexivity|reflexivity|reflexivity|by repeat constructor|by repeat constructor|].
    intros st Hst. walk. by apply wp_ret.
  - intros err s' Hap. by rewrite apply_events_rescope in Hap.
Qed.

Definition step_asg (header : Value) (f : ReplayFrame) (c : Value) (cr ns : gset Value) (ca : Value)
    : list (string * Value) :=
  [("state_header", header); ("before_tx", tx_value f); ("after_tx", tx_value (advance f cr ns));
   ("before_chain", c); ("after_chain", ca)].

Lemma wp_build_replay_element header f c e ca s :
  good_event header f c e ca s ->
  wp (build_replay_element ms (build_replay_event ms e c f))
    (fun '(st, ch, cr, ns) _ => apply_event f e = Ok (cr, ns) /\ ch = ca
       /\ proven "ReplayElement" (steps header f c cr ns ca) st)
    (fun err _ => apply_event f e = Err err) s.
Proof.
  intros He. unfold build_replay_element. apply wp_bind. eapply wp_mono; [exact He| |done].
  intros [[[[st tag] ch] cr] ns] s' (Hap & -> & Hst). pose proof (proven_valid _ _ _ Hst). destruct Hst as [-> _].
  destruct tag; cbn [element_slots event_name] in *.
  all: [> disj_with 0%nat (step_asg header f c cr ns ca) | disj_with 1%nat (step_asg header f c cr ns ca)
        | disj_with 2%nat (step_asg header f c cr ns ca) | disj_with 3%nat (step_asg header f c cr ns ca)].
  all: walk; by apply wp_ret.
Qed.

Lemma good_list_one header f c e ca s : good_event header f c e ca s -> good_list header f c [e] ca s.
Proof.
  intros He. unfold good_list, build_replay_contents, apply_events. simpl. apply wp_bind.
  eapply wp_mono; [by apply wp_build_replay_element| |].
  - intros [[[st ch] cr] ns] s' (Hap & -> & Hst). pose proof (proven_valid _ _ _ Hst). destruct Hst as [-> _].
    disj_with 0%nat (step_asg header f c cr ns ca). walk. apply wp_ret. by rewrite Hap.
  - intros err s' Hap. by rewrite Hap.
Qed.

Lemma good_list_cons header f c e c1 es ca s :
  (forall s, good_event header f c e c1 s) ->
  (forall cr ns s, good_list header (advance f cr ns) c1 es ca s) -> es <> [] ->
  good_list header f c (e :: es) ca s.
Proof.
  intros He Hes Hne. destruct es as [|e' es']; [done|]. clear Hne.
  unfold good_list, build_replay_contents, apply_events.
  cbn [replay_list apply_list]. apply wp_bind. eapply wp_mono; [apply He| |].
  - intros [[[[st tag] ch] cr] ns] s' (Hap & -> & Hst). rewrite Hap. apply wp_bind.
    eapply wp_mono; [apply (Hes cr ns)| |by intros err s'' Hap'].
    intros [[[st_rest ch'] cr'] ns'] s'' (Hap' & -> & Hrest). simpl. unfold apply_events in Hap'.
    pose proof (proven_valid _ _ _ Hst). pose proof (proven_valid _ _ _ Hrest).
    destruct Hst as [-> _], Hrest as [-> _].
    destruct tag; cbn [step_name event_name contents_slots] in *.
    all: conj_with (("mid_tx", tx_value (advance f cr ns)) :: ("mid_chain", c1) :: step_asg header f c cr' ns' ca).
    all: walk; match goal with Hst : proven _ _ _ |- _ =>
           pose proof (proven_valid _ _ _ Hst); destruct Hst as [-> _] end.
    all: [> disj_with 1%nat (step_asg header f c cr' ns' ca) | disj_with 2%nat (step_asg header f c cr' ns' ca)
          | disj_with 3%nat (step_asg header f c cr' ns' ca) | disj_with 4%nat (step_asg header f c cr' ns' ca)].
    all: walk; by apply wp_ret.
  - intros err s' Hap. by rewrite Hap.
Qed.

(** *** The main lemma *)

Definition in_scope (f : ReplayFrame) (cs ce : Value) : Prop := rf_chain_start f = cs /\ rf_chain_end f = ce.

Lemma replay_complete header :
  (forall cs ce c e ca, recorded header cs ce c e ca ->
     forall f s, in_scope f cs ce -> good_event header f c e ca s)
  /\ (forall cs ce c es ca, recorded_list header cs ce c es ca ->
     forall f s, in_scope f cs ce -> es <> [] -> good_list header f c es ca s).
Proof.
  apply recorded_both; unfold in_scope.
  - intros cs ce c ca new initial ty stmt ev Htx Hev f s [<- <-]. unfold good_event. simpl.
    eapply wp_Ok; [done|]. apply wp_bind. eapply wp_mono; [by eapply wp_build_replay_insert| |].
    + intros [st cr] s' (Hn & Hcr & Hst). simpl in Hcr, Hst. subst cr. apply wp_ret. split; [|split; [done|exact Hst]].
      unfold apply_create. by rewrite decide_False.
    + intros err s' [Hn ->]. unfold apply_create. by rewrite decide_True.
  - intros cs ce c ca new old ty stmt ev Htx Hev f s [<- <-]. unfold good_event. simpl.
    eapply wp_Ok; [done|]. apply wp_bind. eapply wp_mono; [by eapply wp_build_replay_mutate| |auto].
    intros [[st cr] ns] s' (Hns & Hcr & Hst). apply wp_ret. by rewrite Hns; simpl; rewrite Hcr.
  - intros cs ce c ca old ty stmt ev Htx Hev f s [<- <-]. unfold good_event. simpl.
    eapply wp_Ok; [done|]. apply wp_bind. eapply wp_mono; [by eapply wp_build_replay_delete| |].
    + intros [[st cr] ns] s' (Hns & -> & Hst). apply wp_ret. by rewrite Hns.
    + intros err s' ->. done.
  - intros cs ce c ca contents Hne _ IH f s _. unfold good_event. simpl. apply wp_bind.
    eapply wp_mono; [apply wp_build_replay_action; intros s'; by apply IH| |done].
    intros [[st cr] ns] s' [Hap Hst]. by apply wp_ret.
  - done.
  - intros cs ce c e c1 es c2 He IHe Hes IHes f s Hf _. destruct es as [|e' es'].
    + inversion Hes; subst. by apply good_list_one, IHe.
    + eapply good_list_cons; [by intros; apply IHe| |done]. intros cr ns s'. by apply IHes.
Qed.

Definition is_action (e : ChainEvent) : bool := match e with CAction _ _ => true | _ => false end.

Definition good_actions header f c es ca s : Prop :=
  wp (build_replay_actions ms es c f)
    (fun '(st, ch, cr, ns) _ => apply_events f es = Ok (cr, ns) /\ ch = ca
       /\ proven "ReplayActions" (steps header f c cr ns ca) st)
    (fun err _ => apply_events f es = Err err) s.

(** The fast path for an action that is one insertion. *)
Lemma wp_build_replay_action_insert header f c ca new initial stmt ev ty ch s :
  proven "TxInsert" [c; ca; commit initial; commit new; ty] stmt ->
  evidence header ty (commit new) c ca ev ->
  wp (build_replay_action_insert ms [CInsert new initial ch stmt (Some ev)] f)
    (fun '(st, cr, ns) _ => apply_create f new = Ok cr /\ ns = rf_nullifiers f
       /\ proven "ReplayActionInsert" (steps header f c cr ns ca) st)
    (fun err _ => apply_create f new = Err err) s.
Proof.
  intros Htx Hev. unfold build_replay_action_insert. eapply wp_Ok; [done|].
  rewrite set_ins_context. unfold apply_create. case_decide as Hn; [done|].
  eapply wp_Ok; [done|]. set (nc := {[commit new]} ∪ rf_created f).
  pose proof (proven_valid _ _ _ Htx). pose proof (evidence_valid _ _ _ _ _ _ Hev).
  destruct Htx as [-> _], Hev as [-> _]. walk.
  conj_with (("new", commit new) :: ("pair", commit (replay_insert_pair initial nc)) :: ("guard", ty)
    :: step_asg header f c nc (rf_nullifiers f) ca).
  walk. by apply wp_ret.
Qed.

Lemma wp_top_level_action header f c contents ca s :
  contents <> [] -> recorded_list header c ca c contents ca ->
  wp (build_replay_action ms (build_replay_contents ms contents) c f ca)
    (fun '(st, cr, ns) _ => apply_events f contents = Ok (cr, ns)
       /\ proven "ReplayAction" (steps header f c cr ns ca) st)
    (fun err _ => apply_events f contents = Err err) s.
Proof.
  intros Hne Hrec. apply wp_build_replay_action. intros s'. by eapply replay_complete.
Qed.

Lemma good_action_one header f c contents ca s :
  contents <> [] -> recorded_list header c ca c contents ca ->
  good_actions header f c [CAction ca contents] ca s.
Proof.
  intros Hne Hrec. unfold good_actions.
  assert (Hslow : wp (let! (st_action, new_created, new_nulls) :=
      build_replay_action ms (build_replay_contents ms contents) c f ca in
      let! st := custom ms "ReplayActions" [st_action; st_none; st_none] in
      note "ReplayActions" ;! eret (st, ca, new_created, new_nulls))
    (fun '(st, ch, cr, ns) _ => apply_events f [CAction ca contents] = Ok (cr, ns) /\ ch = ca
       /\ proven "ReplayActions" (steps header f c cr ns ca) st)
    (fun err _ => apply_events f [CAction ca contents] = Err err) s).
  { apply wp_bind. eapply wp_mono; [by apply wp_top_level_action| |].
    - intros [[st cr] ns] s' [Hap Hst]. pose proof (proven_valid _ _ _ Hst). destruct Hst as [-> _].
      disj_with 0%nat (step_asg header f c cr ns ca). walk. apply wp_ret. split; [|done].
      unfold apply_events in *. simpl. by rewrite Hap.
    - intros err s' Hap. unfold apply_events in *. simpl. by rewrite Hap. }
  destruct contents as [|[new initial ch stmt g| | |] [|e2 es]]; try exact Hslow.
  clear Hslow Hne. inversion Hrec as [|? ? ? ? ? ? ? He Hnil]; subst. inversion Hnil; subst.
  inversion He as [? ? ? ? ? ? ty ? ev Htx Hev| | |]; subst. cbn [build_replay_actions]. apply wp_bind.
  eapply wp_mono; [by eapply wp_build_replay_action_insert| |].
  - intros [[st cr] ns] s' (Hap & -> & Hst). pose proof (proven_valid _ _ _ Hst). destruct Hst as [-> _].
    disj_with 2%nat (step_asg header f c cr (rf_nullifiers f) ca). walk. apply wp_ret. split; [|done].
    unfold apply_events. simpl. by rewrite Hap.
  - intros err s' Hap. unfold apply_events. simpl. by rewrite Hap.
Qed.

Lemma actions_complete header cs ce c es ca :
  recorded_list header cs ce c es ca -> es <> [] -> forallb is_action es = true ->
  forall f s, good_actions header f c es ca s.
Proof.
  intros Hrec. induction Hrec as [|cs ce c e c1 es c2 He Hes IH]; [done|]. intros _ Hact f s.
  apply andb_true_iff in Hact as [Ha Hact]. destruct e as [| | |ca contents]; try done.
  inversion He as [| | |? ? ? ? ? Hne Hcont]; subst. destruct es as [|e' es'].
  { inversion Hes; subst. by apply good_action_one. }
  unfold good_actions. cbn [build_replay_actions]. cbn [build_top_level_action].
  set (rest := e' :: es') in *. set (k := fun f => build_replay_actions ms rest c1 f).
  apply wp_bind, wp_bind. eapply wp_mono; [by apply wp_top_level_action| |].
  - intros [[st cr] ns] s' [Hap Hst]. apply wp_ret. apply wp_bind.
    eapply wp_mono; [apply (IH ltac:(done) Hact (advance f cr ns))| |].
    + intros [[[st_rest ch'] cr'] ns'] s'' (Hap' & -> & Hrest).
      pose proof (proven_valid _ _ _ Hst). pose proof (proven_valid _ _ _ Hrest).
      destruct Hst as [-> _], Hrest as [-> _].
      eapply (wp_custom_and _ _ _ _ _
        (asg (("mid_tx", tx_value (advance f cr ns)) :: ("mid_chain", c1) :: step_asg header f c cr' ns' c2)));
        [reflexivity|reflexivity|reflexivity|reflexivity|by repeat constructor|intros st Hst].
      walk. pose proof (proven_valid _ _ _ Hst). destruct Hst as [-> _].
      disj_with 1%nat (step_asg header f c cr' ns' c2). walk. apply wp_ret. split; [|done].
      unfold apply_events in *. cbn [apply_list apply_event]. by rewrite Hap.
    + intros err s'' Hap'. unfold apply_events in *. cbn [apply_list apply_event]. by rewrite Hap.
  - intros err s' Hap. unfold apply_events in *. cbn [apply_list apply_event]. by rewrite Hap.
Qed.
End Events.

End ReplayFacts.
