(* ===== verification/TxBuilder.v ===== *)
(** * The transaction builder (libs/txlib/src/lib.rs)

    [TxBuilder] grounds the inputs of a transaction, records events into a hash
    chain under nested action scopes, and finalizes them into a proof of
    [TxFinalized]. The builder is state threaded through its methods; a failed
    [assert!], [expect] or [unwrap] is a panic. *)

From S2P Require Import Prelude Pod2 Models DonState Podlang TxModel TxPredicates Replay.

Module TxBuilder.
Import Podlang TxModel DonState Replay.
Local Open Scope string_scope.

(** ** Data *)

Record ActionScope : Type := MkScope { sc_events : list ChainEvent; sc_id : Z }.

Record EventHandle : Type := MkHandle { eh_scope_id : Z; eh_index : nat }.

(** [action_stack] is listed innermost scope first. *)
Record TxBuilder : Type := MkBuilder {
  chain : Hash;
  chain_start : Hash;
  tb_header : StateHeader;
  inputs : list Dictionary;
  st_inputs_grounded : Statement;
  inputs_set : gset Value;
  events : list ChainEvent;
  action_stack : list ActionScope;
  next_scope_id : Z;
  stats : TxStats;
}.

Definition set_chain (v : Hash) (b : TxBuilder) : TxBuilder :=
  let '(MkBuilder _ s h i g iset e st n t) := b in MkBuilder v s h i g iset e st n t.
Definition set_events (v : list ChainEvent) (b : TxBuilder) : TxBuilder :=
  let '(MkBuilder c s h i g iset _ st n t) := b in MkBuilder c s h i g iset v st n t.
Definition set_action_stack (v : list ActionScope) (b : TxBuilder) : TxBuilder :=
  let '(MkBuilder c s h i g iset e _ n t) := b in MkBuilder c s h i g iset e v n t.
Definition set_next_scope_id (v : Z) (b : TxBuilder) : TxBuilder :=
  let '(MkBuilder c s h i g iset e st _ t) := b in MkBuilder c s h i g iset e st v t.
Definition set_stats (v : TxStats) (b : TxBuilder) : TxBuilder :=
  let '(MkBuilder c s h i g iset e st n _) := b in MkBuilder c s h i g iset e st n v.

(** The output of a finalized transaction. *)
Record Tx : Type := MkTx {
  tx_created : gset Value;
  tx_nullifiers : gset Value;
  tx_ctx : Dictionary;
  tx_state_header : StateHeader;
}.

Definition created_commitments (tx : Tx) : list Hash := elements (tx_created tx).
Definition nullifier_hashes (tx : Tx) : list Hash := elements (tx_nullifiers tx).

Definition evidence_of (e : ChainEvent) : option (option Statement) :=
  match e with
  | CInsert _ _ _ _ g | CMutate _ _ _ _ g | CDelete _ _ _ g => Some g
  | CAction _ _ => None
  end.

Definition with_evidence (g : Statement) (e : ChainEvent) : ChainEvent :=
  match e with
  | CInsert new initial ca st _ => CInsert new initial ca st (Some g)
  | CMutate new old ca st _ => CMutate new old ca st (Some g)
  | CDelete old ca st _ => CDelete old ca st (Some g)
  | CAction ca contents => CAction ca contents
  end.

(** ** Scopes *)

Abbreviation B := (eff TxBuilder).

Definition modify (f : TxBuilder -> TxBuilder) : B unit := fun b => (Ok tt, f b).

Definition chain_position (b : TxBuilder) : Hash := chain b.

Definition push_event (event : ChainEvent) (b : TxBuilder) : TxBuilder :=
  match action_stack b with
  | scope :: outer => set_action_stack (MkScope (app (sc_events scope) [event]) (sc_id scope) :: outer) b
  | [] => set_events (app (events b) [event]) b
  end.

Definition begin_action : B Z :=
  let! b := eget in
  let scope_id := next_scope_id b in
  modify (set_next_scope_id (as_u64 (scope_id + 1))) ;!
  modify (fun b => set_action_stack (MkScope [] scope_id :: action_stack b) b) ;!
  eret scope_id.

(** The first direct event without evidence panics. *)
Definition verify_scope_guards (scope_id : Z) (b : TxBuilder) : Result unit :=
  match action_stack b with
  | [] => Err (Panic "action scope missing")
  | scope :: _ =>
      rassert (bool_decide (sc_id scope = scope_id)) "assertion failed" ;?
      rassert (forallb (fun e => match evidence_of e with Some None => false | _ => true end) (sc_events scope))
        "action scope: direct event has no guard evidence"
  end.

Definition end_action (scope_id : Z) : B unit :=
  let! b := eget in
  elift (verify_scope_guards scope_id b) ;!
  match action_stack b with
  | [] => ethrow (Panic "no action scope to close")
  | scope :: outer =>
      eput (set_action_stack outer b) ;!
      elift (rassert (bool_decide (sc_id scope = scope_id)) "end_action scope id mismatch") ;!
      elift (rassert (negb (bool_decide (length (sc_events scope) = 0%nat)))
        "end_action: action scope must contain at least one event") ;!
      modify (fun b => push_event (CAction (chain b) (sc_events scope)) b)
  end.

Definition set_guard (handle : EventHandle) (guard : Statement) : B unit :=
  let! b := eget in
  match action_stack b with
  | [] => ethrow (Panic "no open scope")
  | scope :: outer =>
      elift (rassert (bool_decide (eh_scope_id handle = sc_id scope)) "EventHandle from a different scope") ;!
      match sc_events scope !! eh_index handle with
      | None => ethrow (Panic "event index out of range")
      | Some event =>
          match evidence_of event with
          | None => ethrow (Panic "cannot set guard evidence on an action")
          | Some (Some _) => ethrow (Panic "guard evidence already set")
          | Some None =>
              eput (set_action_stack
                (MkScope (<[eh_index handle := with_evidence guard event]> (sc_events scope)) (sc_id scope) :: outer) b)
          end
      end
  end.

(** [scope.events.len() - 1] is only evaluated after an event was pushed. *)
Definition handle_for_last_event (b : TxBuilder) : Result EventHandle :=
  match action_stack b with
  | [] => Err (Panic "scope missing")
  | scope :: _ =>
      match length (sc_events scope) with
      | O => Err (Panic "attempt to subtract with overflow")
      | S n => Ok (MkHandle (sc_id scope) n)
      end
  end.

(** ** Events *)

Section Events.
Context `{Builder, !Containers} (modules : list Predicate).
Abbreviation commit d := (dict_commitment d).

Definition apply (name : string) (hints : list (string * Value)) (sts : list Statement) : B Statement :=
  elift (runwrap (apply_custom_pred modules name hints sts)).
Definition note (name : string) : B unit := modify (fun b => set_stats (record name (stats b)) b).
Definition in_scope (msg : string) : B unit :=
  let! b := eget in elift (rassert (negb (bool_decide (length (action_stack b) = 0%nat))) msg).
Definition field (d : Dictionary) (key msg : string) : B Value := elift (expect (d !! key) msg).

Definition insert (initial : Dictionary) : B (Dictionary * Statement * EventHandle) :=
  in_scope "insert must be called inside an action scope" ;!
  let! new := elift (with_stable_identifier initial) in
  let! b := eget in
  let prev := chain b in
  let event_hash := hash_values [EMPTY_HASH; commit new] in
  let chain' := hash_values [prev; event_hash] in
  modify (set_chain chain') ;!
  let! new_type := elift (object_type new) in
  let! st_dc := priv_op DictContains [Lit (commit new); Lit (value_of_str "type"); Lit new_type] in
  let stable_identifier := commit initial in
  let! st_di := priv_op DictInsert [Lit (commit initial); Lit (value_of_str STABLE_IDENTIFIER_FIELD);
                               Lit stable_identifier; Lit (commit new)] in
  let! st_h1 := priv_op HashOf [Lit EMPTY_HASH; Lit (commit new); Lit event_hash] in
  let! st_h2 := priv_op HashOf [Lit prev; Lit event_hash; Lit chain'] in
  let! st := apply "TxInsert"
    [("prev_chain", prev); ("chain", chain'); ("initial", commit initial); ("new", commit new); ("type", new_type)]
    [st_dc; st_di; st_h1; st_h2] in
  note "TxInsert" ;!
  modify (push_event (CInsert new initial chain' st None)) ;!
  let! b := eget in
  let! handle := elift (handle_for_last_event b) in
  eret (new, st, handle).

Definition mutate (new old : Dictionary) : B (Statement * EventHandle) :=
  in_scope "mutate must be called inside an action scope" ;!
  let! b := eget in
  let prev := chain b in
  let event_hash := hash_values [commit old; commit new] in
  let chain' := hash_values [prev; event_hash] in
  modify (set_chain chain') ;!
  let! new_type := elift (object_type new) in
  let! old_type := elift (object_type old) in
  elift (rassert (bool_decide (new_type = old_type)) "mutate must preserve object type") ;!
  let! new_sid := field new STABLE_IDENTIFIER_FIELD
    "mutate target missing stable identifier field (must come from TxBuilder::insert)" in
  let! old_sid := field old STABLE_IDENTIFIER_FIELD
    "mutate source missing stable identifier field (must come from TxBuilder::insert)" in
  elift (rassert (bool_decide (new_sid = old_sid)) "mutate must preserve object stable identifier") ;!
  let! st_dc_new := priv_op DictContains [Lit (commit new); Lit (value_of_str "type"); Lit new_type] in
  let! st_dc_old := priv_op DictContains [Lit (commit old); Lit (value_of_str "type"); Lit new_type] in
  let sid := value_of_str STABLE_IDENTIFIER_FIELD in
  let! st_eq := priv_op Equal [Entry (commit old) sid; Entry (commit new) sid] in
  let! st_h1 := priv_op HashOf [Lit (commit old); Lit (commit new); Lit event_hash] in
  let! st_h2 := priv_op HashOf [Lit prev; Lit event_hash; Lit chain'] in
  let! st := apply "TxMutate"
    [("prev_chain", prev); ("chain", chain'); ("old", commit old); ("new", commit new); ("type", new_type)]
    [st_dc_new; st_dc_old; st_eq; st_h1; st_h2] in
  note "TxMutate" ;!
  modify (push_event (CMutate new old chain' st None)) ;!
  let! b := eget in
  let! handle := elift (handle_for_last_event b) in
  eret (st, handle).

Definition delete_object (old : Dictionary) : B (Statement * EventHandle) :=
  in_scope "delete must be called inside an action scope" ;!
  let! b := eget in
  let prev := chain b in
  let event_hash := hash_values [commit old; EMPTY_HASH] in
  let chain' := hash_values [prev; event_hash] in
  modify (set_chain chain') ;!
  let! old_type := elift (object_type old) in
  let! st_dc := priv_op DictContains [Lit (commit old); Lit (value_of_str "type"); Lit old_type] in
  let! st_h1 := priv_op HashOf [Lit (commit old); Lit EMPTY_HASH; Lit event_hash] in
  let! st_h2 := priv_op HashOf [Lit prev; Lit event_hash; Lit chain'] in
  let! st := apply "TxDelete"
    [("prev_chain", prev); ("chain", chain'); ("old", commit old); ("type", old_type)]
    [st_dc; st_h1; st_h2] in
  note "TxDelete" ;!
  modify (push_event (CDelete old chain' st None)) ;!
  let! b := eget in
  let! handle := elift (handle_for_last_event b) in
  eret (st, handle).

Definition rekey (old : Dictionary) (new_key : Value) : B (Dictionary * Statement * EventHandle) :=
  let! mid := elift (runwrap (dict_upd old "key" EMPTY_HASH)) in
  let! new := elift (runwrap (dict_upd mid "key" new_key)) in
  let! (st_mutate, handle) := mutate new old in
  let! st_erase := priv_op DictUpdate [Lit (commit old); Lit (value_of_str "key"); Lit EMPTY_HASH; Lit (commit mid)] in
  let! st_set := priv_op DictUpdate [Lit (commit mid); Lit (value_of_str "key"); Lit new_key; Lit (commit new)] in
  let! st := apply_simple modules "Rekey" [st_erase; st_set; st_mutate] in
  note "Rekey" ;!
  eret (new, st, handle).
End Events.

(** ** Grounding *)

Record GroundingWitness `{Builder} : Type := {
  gw_state_header : StateHeader;
  gw_created_proofs : gmap Hash (Z * MerkleProof);
}.

Section Grounding.
Context `{Builder, !Containers} (modules : list Predicate).
Abbreviation commit d := (dict_commitment d).
Abbreviation M := (eff TxStats).

Definition prove_obj_in_created (created_root : Hash) (grounding : GroundingWitness) (obj : Dictionary)
    : Result Statement :=
  let? (index, proof) := expect (gw_created_proofs grounding !! commit obj)
    "missing created-set proof in grounding witness" in
  runwrap (proof_op created_root (value_of_i64 index) (commit obj) proof).

Definition extend_set (s : gset Value) (obj : Dictionary) : Result (gset Value) :=
  runwrap (set_ins s (commit obj)).

Definition ground (name : string) (hints : list (string * Value)) (sts : list (Result Statement)) : M Statement :=
  elift (runwrap (st_custom modules name hints sts)).
Definition set_insert_op (s : gset Value) (obj : Dictionary) (s' : gset Value) : Result Statement :=
  native_op SetInsert [Lit (set_commitment s); Lit (commit obj); Lit (set_commitment s')].

(** Two inputs per level; [inputs[consumed + 1]] is out of range for an odd
    rest. *)
Fixpoint ground_rest (root : Hash) (g : GroundingWitness) (st : Statement) (prev_set : gset Value)
    (rest : list Dictionary) : M (Statement * gset Value) :=
  match rest with
  | [] => eret (st, prev_set)
  | [_] => ethrow (Panic "index out of bounds")
  | first :: second :: rest' =>
      let! mid := elift (extend_set prev_set first) in
      let! next_set := elift (extend_set mid second) in
      let! st_first := elift (prove_obj_in_created root g first) in
      let! st_second := elift (prove_obj_in_created root g second) in
      let! st_rec := ground "InputsGroundedRecursive" []
        [Ok st_first; set_insert_op prev_set first mid; Ok st_second; set_insert_op mid second next_set; Ok st] in
      Replay.note "InputsGroundedRecursive" ;!
      let! st := ground "InputsGrounded" [("created", root)] [Ok st_none; Ok st_none; Ok st_none; Ok st_rec] in
      Replay.note "InputsGrounded" ;!
      ground_rest root g st next_set rest'
  end.

Definition build_inputs_grounded (objs : list Dictionary) (g : GroundingWitness) : M (Statement * gset Value) :=
  let root := created_root (gw_state_header g) in
  match objs with
  | [] =>
      let! st := ground "InputsGrounded" [("created", root)]
        [native_op Equal [Lit (set_commitment ∅); Lit (set_commitment ∅)]; Ok st_none; Ok st_none; Ok st_none] in
      Replay.note "InputsGrounded" ;!
      eret (st, ∅)
  | obj :: rest =>
      if Nat.odd (length objs) then
        let! inputs_set := elift (extend_set ∅ obj) in
        let! st_live := elift (prove_obj_in_created root g obj) in
        let! st_single := ground "InputsGroundedSingle" [] [Ok st_live; set_insert_op ∅ obj inputs_set] in
        Replay.note "InputsGroundedSingle" ;!
        let! st := ground "InputsGrounded" [("created", root)] [Ok st_none; Ok st_single; Ok st_none; Ok st_none] in
        Replay.note "InputsGrounded" ;!
        ground_rest root g st inputs_set rest
      else
        match rest with
        | [] => ethrow (Panic "index out of bounds")
        | second :: rest' =>
            let! set_first := elift (extend_set ∅ obj) in
            let! inputs_pair := elift (extend_set set_first second) in
            let! st_first := elift (prove_obj_in_created root g obj) in
            let! st_second := elift (prove_obj_in_created root g second) in
            let! st_pair := ground "InputsGroundedPair" []
              [Ok st_first; set_insert_op ∅ obj set_first; Ok st_second; set_insert_op set_first second inputs_pair] in
            Replay.note "InputsGroundedPair" ;!
            let! st := ground "InputsGrounded" [("created", root)] [Ok st_none; Ok st_none; Ok st_pair; Ok st_none] in
            Replay.note "InputsGrounded" ;!
            ground_rest root g st inputs_pair rest'
        end
  end.

Definition TxBuilder_new (objs : list Dictionary) (g : GroundingWitness) : Result TxBuilder :=
  let '(r, stats) := build_inputs_grounded objs g ∅ in
  let? (st, iset) := r in
  let start := hash_values [set_commitment iset; EMPTY_HASH] in
  Ok (MkBuilder start start (gw_state_header g) objs st iset [] [] 0 stats).

(** ** Finalization *)

Definition scope_dict : Dictionary :=
  <["created" := set_commitment ∅]> (<["nullifiers" := set_commitment ∅]>
  (<["chain_start" := EMPTY_HASH]> {["chain_end" := EMPTY_HASH]})).

Definition STATE_HEADER_CREATED_SLOT : Z := 3.

(** Every input must have been spent. *)
Definition check_spent (nullifiers : gset Value) (objs : list Dictionary) : Result unit :=
  try_fold (fun _ input =>
    let? nul := object_nullifier_hash input in
    rensure (bool_decide (nul ∈ nullifiers)) "input object was not spent") tt objs.

(** The statements that tie grounding, chain and replay together. *)
Definition finalize_statements (b : TxBuilder) (st_replay : Statement) (created nullifiers : gset Value)
    : M (Statement * Tx) :=
  let zero := EMPTY_HASH in
  let before_tx := build_tx (inputs_set b) ∅ ∅ zero zero in
  let after_tx := build_tx (inputs_set b) created nullifiers zero zero in
  let! tx_final := elift (dict_del after_tx "inputs") in
  let! before_inputs := entry before_tx "inputs" in
  let! st_inputs_rebound := rebind [Some before_inputs; None] (st_inputs_grounded b) in
  let header_created := Entry (StateHeader_hash (tb_header b)) (value_of_i64 STATE_HEADER_CREATED_SLOT) in
  let! st_inputs_rebound := rebind [None; Some header_created] st_inputs_rebound in
  let! st_hash := priv_op HashOf [lit_set (inputs_set b); Lit zero; Lit (chain_start b)] in
  let! st_hash_rebound := rebind [Some before_inputs; None; None] st_hash in
  let! st_dict_insert_lit :=
    priv_op DictInsert [lit_dict scope_dict; lit_str "inputs"; lit_set (inputs_set b); lit_dict before_tx] in
  let! st_dict_insert := rebind [None; None; Some before_inputs; None] st_dict_insert_lit in
  let! st_remove_inputs := elift (native_op DictDelete [lit_dict after_tx; lit_str "inputs"; lit_dict tx_final]) in
  let! st_dc_null_after := priv_op DictContains [lit_dict tx_final; lit_str "nullifiers"; lit_set nullifiers] in
  let! st_dc_created_after := priv_op DictContains [lit_dict tx_final; lit_str "created"; lit_set created] in
  let! st_bindings :=
    apply_simple modules "TxFinalBindings" [st_remove_inputs; st_dc_null_after; st_dc_created_after] in
  Replay.note "TxFinalBindings" ;!
  let! st := apply_simple modules "TxFinalized"
    [st_inputs_rebound; st_hash_rebound; st_dict_insert; st_bindings; st_replay] in
  Replay.note "TxFinalized" ;!
  eret (st, MkTx created nullifiers tx_final (tb_header b)).

Definition finalize_with (b : TxBuilder) : M (Statement * Tx) :=
  elift (rassert (bool_decide (length (action_stack b) = 0%nat)) "unclosed action scopes") ;!
  elift (rassert (negb (bool_decide (length (events b) = 0%nat)))
    "finalize: Tx must contain at least one top-level action") ;!
  let zero := EMPTY_HASH in
  let frame := MkFrame (inputs_set b) ∅ ∅ zero zero in
  let! (st_replay, _, created, nullifiers) := build_replay_actions modules (events b) (chain_start b) frame in
  elift (check_spent nullifiers (inputs b)) ;!
  finalize_statements b st_replay created nullifiers.

Definition finalize (b : TxBuilder) : Result (Statement * Tx * TxStats) :=
  let '(r, stats) := finalize_with b (stats b) in rmap (fun '(st, tx) => (st, tx, stats)) r.
End Grounding.

End TxBuilder.
