(* ===== verification/TxBuilderFacts.v ===== *)
(** * The builder records what it proves

    The invariant of [TxBuilder]: its chain is the hash chain of the events it
    has recorded, each with the statement of its step; scopes nest; a closed
    action is not empty and its direct events have evidence; at the top there
    are only actions. And what [TxBuilder::new] and [TxBuilder::finalize]
    return. *)

From S2P Require Import Prelude Pod2 Models DonState Podlang TxModel TxPredicates Replay ReplayFacts TxBuilder.

Module TxBuilderFacts.
Import Podlang TxModel DonState TxPredicates Replay ReplayFacts TxBuilder.
Local Open Scope string_scope.

Section Facts.
Context `{BuilderLaws, !NativeLaws, !External, !Containers, !ContainerLaws} (ms : list Predicate) `{!HasModules ms}.
Abbreviation commit d := (dict_commitment d).

(** ** Traces *)

(** A recorded event: the statement of its step, from [c] to [c']. *)
Inductive traced : Value -> ChainEvent -> Value -> Prop :=
| traced_insert c new initial ty stmt g :
    new !! "type" = Some ty -> with_stable_identifier initial = Ok new ->
    let c' := event_step c EMPTY_HASH (commit new) in
    proven "TxInsert" [c; c'; commit initial; commit new; ty] stmt ->
    traced c (CInsert new initial c' stmt g) c'
| traced_mutate c new old ty stmt g :
    new !! "type" = Some ty ->
    let c' := event_step c (commit old) (commit new) in
    proven "TxMutate" [c; c'; commit old; commit new; ty] stmt ->
    traced c (CMutate new old c' stmt g) c'
| traced_delete c old ty stmt g :
    old !! "type" = Some ty ->
    let c' := event_step c (commit old) EMPTY_HASH in
    proven "TxDelete" [c; c'; commit old; ty] stmt ->
    traced c (CDelete old c' stmt g) c'
| traced_action c contents c' :
    contents <> [] -> Forall (fun e => evidence_of e <> Some None) contents ->
    traced_list c contents c' -> traced c (CAction c' contents) c'
with traced_list : Value -> list ChainEvent -> Value -> Prop :=
| traced_nil c : traced_list c [] c
| traced_cons c e c1 es c2 : traced c e c1 -> traced_list c1 es c2 -> traced_list c (e :: es) c2.

Scheme traced_ind2 := Induction for traced Sort Prop
  with traced_list_ind2 := Induction for traced_list Sort Prop.
Combined Scheme traced_both from traced_ind2, traced_list_ind2.

Lemma traced_list_app c es c1 es' c2 :
  traced_list c es c1 -> traced_list c1 es' c2 -> traced_list c (app es es') c2.
Proof. induction 1; [done|]. intros Hes'. simpl. econstructor; eauto. Qed.

Lemma traced_list_snoc c es c1 e c2 : traced_list c es c1 -> traced c1 e c2 -> traced_list c (app es [e]) c2.
Proof. intros Hes He. eapply traced_list_app; [done|]. econstructor; [done|constructor]. Qed.

(** The open scopes, innermost first, end at [c']. *)
Inductive open_scopes : Value -> list ActionScope -> Value -> Prop :=
| open_none c : open_scopes c [] c
| open_scope c sc outer c1 c2 :
    open_scopes c outer c1 -> traced_list c1 (sc_events sc) c2 -> open_scopes c (sc :: outer) c2.

Record builder_ok (b : TxBuilder) : Prop := {
  ok_start : chain_start b = start_chain (inputs_set b);
  ok_grounded : proven "InputsGrounded" [set_commitment (inputs_set b); created_root (tb_header b)]
    (st_inputs_grounded b);
  ok_inputs : inputs_set b = list_to_set (dict_commitment <$> inputs b);
  ok_actions : forallb is_action (events b) = true;
  ok_trace : exists c, traced_list (chain_start b) (events b) c /\ open_scopes c (action_stack b) (chain b);
}.

(** ** The operations keep the invariant *)

Definition keeps_ok {A} (c : eff TxBuilder A) : Prop :=
  forall b, builder_ok b -> wp c (fun _ => builder_ok) (fun _ _ => True) b.

Lemma keeps_begin_action : keeps_ok begin_action.
Proof.
  intros [] [Hs Hg Hi Ha (c & Ht & Ho)]. split; simpl in *; try done. exists c. split; [done|].
  econstructor; [done|constructor].
Qed.

Lemma push_event_ok b e c' :
  builder_ok b -> action_stack b <> [] \/ is_action e = true -> traced (chain b) e c' ->
  builder_ok (push_event e (set_chain c' b)).
Proof.
  intros [Hs Hg Hi Ha (c & Ht & Ho)] He Htr. destruct b as [ch st h ins g iset es stack n t]. simpl in *.
  unfold push_event. destruct stack as [|sc outer]; simpl.
  - split; simpl; try done.
    + rewrite forallb_app, Ha. simpl. destruct He as [He|He]; [done|]. by rewrite He.
    + inversion Ho; subst. exists c'. split; [by eapply traced_list_snoc|constructor].
  - inversion Ho as [|? ? ? c1 ? Ho' Hsc]; subst. split; simpl; try done.
    exists c. split; [done|]. econstructor; [done|]. simpl. by eapply traced_list_snoc.
Qed.

Lemma keeps_end_action id : keeps_ok (end_action id).
Proof.
  intros b Hok. unfold end_action. apply wp_get, wp_bind, wp_lift; [|done]. intros [] Hg.
  unfold verify_scope_guards in Hg. destruct (action_stack b) as [|sc outer] eqn:Est; [done|].
  apply wp_put, wp_bind, wp_lift; [|done]. intros [] _. apply wp_bind, wp_lift; [|done]. intros [] Hne.
  apply rassert_Ok, negb_true_iff, bool_decide_eq_false in Hne.
  apply rbind_Ok in Hg as ([] & _ & Hev%rassert_Ok).
  destruct Hok as [Hs Hgr Hi Ha (c & Ht & Ho)]. rewrite Est in Ho. inversion Ho as [|? ? ? c1 ? Ho' Hsc]; subst.
  set (b' := set_chain c1 (set_action_stack outer b)).
  assert (Hb' : builder_ok b') by (destruct b; split; simpl in *; eauto).
  assert (Htr : traced (chain b') (CAction (chain b) (sc_events sc)) (chain b)).
  { destruct b; simpl in *. constructor; [by destruct (sc_events sc)| |done].
    apply Forall_forall. intros e He Hn. rewrite forallb_forall in Hev.
    specialize (Hev e (proj1 (list_elem_of_In _ _) He)). by rewrite Hn in Hev. }
  pose proof (push_event_ok b' (CAction (chain b) (sc_events sc)) (chain b) Hb' (or_intror eq_refl) Htr). by destruct b.
Qed.

Lemma traced_with_evidence c e c' g : traced c e c' -> is_action e = false -> traced c (with_evidence g e) c'.
Proof. intros Ht. inversion Ht; subst; simpl; intros; [econstructor; eauto..|done]. Qed.

Lemma traced_list_update c es c' i e g :
  traced_list c es c' -> es !! i = Some e -> is_action e = false ->
  traced_list c (<[i := with_evidence g e]> es) c'.
Proof.
  intros Ht. revert i. induction Ht as [|c e' c1 es c2 He Hes IH]; intros i Hi Ha; [done|].
  destruct i as [|i]; simpl in *; [injection Hi as ->|]; econstructor; eauto. by apply traced_with_evidence.
Qed.

Lemma keeps_set_guard h g : keeps_ok (set_guard h g).
Proof.
  intros b Hok. unfold set_guard. apply wp_get. destruct (action_stack b) as [|sc outer] eqn:Est; [done|].
  apply wp_bind, wp_lift; [|done]. intros [] _. destruct (sc_events sc !! eh_index h) as [e|] eqn:He; [|done].
  destruct (evidence_of e) as [[|]|] eqn:Hev; [done| |done].
  destruct Hok as [Hs Hgr Hi Ha (c & Ht & Ho)]. rewrite Est in Ho. inversion Ho as [|? ? ? c1 ? Ho' Hsc]; subst.
  destruct b; split; simpl in *; try done. exists c. split; [done|]. econstructor; [done|]. simpl.
  apply traced_list_update; [done|done|by destruct e].
Qed.

Lemma insert_all_Ok l (d d' : Dictionary) :
  NoDup l.*1 ->
  try_fold (fun new kv => runwrap (dict_ins new (fst kv) (snd kv))) d l = Ok d'
  <-> Forall (fun kv => d !! kv.1 = None) l /\ d' = list_to_map l ∪ d.
Proof.
  revert d. induction l as [|[k v] l IH]; intros d Hnd; simpl.
  - rewrite (left_id_L ∅ (∪)). split; [intros [= <-]; done|intros [_ ->]; done].
  - apply NoDup_cons in Hnd as [Hk Hnd]. rewrite Forall_cons. simpl.
    destruct (d !! k) eqn:Hd.
    + destruct (dict_ins_old d k v ltac:(by eexists)) as [m ->]. simpl. split; [done|]. by intros [[] _].
    + rewrite dict_ins_new by done. simpl. rewrite IH by done.
      assert (Hu : list_to_map l ∪ <[k := v]> d = <[k := v]> (list_to_map l) ∪ d).
      { rewrite <-insert_union_l, <-insert_union_r; [done|]. by apply not_elem_of_list_to_map_1. }
      rewrite Hu.
      rewrite !Forall_forall. split; intros [Hf ->]; (split; [|done]).
      * split; [done|]. intros [k' v'] Hin. specialize (Hf _ Hin). simpl in *. by apply lookup_insert_None in Hf as [].
      * intros [k' v'] Hin. simpl. apply lookup_insert_None. split; [by apply (proj2 Hf (k', v'))|].
        intros ->. apply Hk, list_elem_of_fmap. by exists (k', v').
Qed.

Lemma with_stable_identifier_Ok initial new :
  with_stable_identifier initial = Ok new <->
  initial !! STABLE_IDENTIFIER_FIELD = None /\ new = <[STABLE_IDENTIFIER_FIELD := commit initial]> initial.
Proof.
  unfold with_stable_identifier. rewrite insert_all_Ok by apply NoDup_fst_map_to_list.
  rewrite list_to_map_to_list. rewrite Forall_forall. split.
  - intros [Hf ->]. assert (Hn : initial !! STABLE_IDENTIFIER_FIELD = None).
    { apply eq_None_not_Some. intros [v Hv]. apply elem_of_map_to_list in Hv. specialize (Hf _ Hv). simpl in Hf.
      by rewrite lookup_singleton_eq in Hf. }
    split; [done|]. symmetry. by apply insert_union_singleton_r.
  - intros [Hn ->]. split; [|by apply insert_union_singleton_r].
    intros [k v] Hin%elem_of_map_to_list. simpl. apply lookup_singleton_ne. congruence.
Qed.

Lemma with_stable_identifier_panic initial e :
  with_stable_identifier initial = Err e -> is_Some (initial !! STABLE_IDENTIFIER_FIELD) /\ exists m, e = Panic m.
Proof.
  intros He. split.
  - destruct (initial !! STABLE_IDENTIFIER_FIELD) eqn:Hs; [by eexists|].
    by rewrite (proj2 (with_stable_identifier_Ok initial _) (conj Hs eq_refl)) in He.
  - unfold with_stable_identifier in He. revert He. generalize (map_to_list initial).
    generalize ({[STABLE_IDENTIFIER_FIELD := commit initial]} : Dictionary) as d.
    intros d l. revert d. induction l as [|[k v] l IH]; intros d; simpl; [done|].
    intros [He|(d' & _ & He)]%rbind_Err; [|by eapply IH].
    destruct (dict_ins d k v) as [|[|]]; simplify_eq/=; eauto.
Qed.

(** ** Recording an event *)

(** The builder after an event, and the event's handle. *)
Definition after_event (name : string) (e : ChainEvent) (c' : Hash) (b : TxBuilder) : TxBuilder :=
  push_event e (set_stats (record name (stats b)) (set_chain c' b)).
Definition handle_of (b : TxBuilder) : option EventHandle :=
  (fun sc => MkHandle (sc_id sc) (length (sc_events sc))) <$> head (action_stack b).

(** The end of [insert], [mutate] and [delete]: the event is pushed and its
    handle returned. *)
Lemma wp_push {A} name e c' (k : EventHandle -> eff TxBuilder A) (Q : A -> TxBuilder -> Prop) (E : failure -> TxBuilder -> Prop) b b0 :
  builder_ok b0 -> action_stack b0 <> [] -> b = set_chain c' b0 -> traced (chain b0) e c' ->
  (forall h b', builder_ok b' -> chain b' = c' -> b' = after_event name e c' b0 -> handle_of b0 = Some h ->
     wp (k h) Q E b') ->
  wp (note name ;! modify (push_event e) ;! let! b := eget in
      let! handle := elift (handle_for_last_event b) in k handle) Q E b.
Proof.
  intros Hok Hst -> Htr Hk.
  assert (Hb1 : builder_ok (after_event name e c' b0)).
  { pose proof (push_event_ok b0 e c' Hok (or_introl Hst) Htr) as [Hs Hg Hi Ha Ht].
    destruct b0 as [ch st h ins g iset es stack n t]. unfold after_event, push_event in *. simpl in *.
    destruct stack; [done|]. by split. }
  assert (Hc1 : chain (after_event name e c' b0) = c') by (destruct b0 as [? ? ? ? ? ? ? []]; done).
  assert (Hb : after_event name e c' b0 = push_event e (set_stats (record name (stats (set_chain c' b0))) (set_chain c' b0)))
    by (by destruct b0).
  change (wp (let! handle := elift (handle_for_last_event (push_event e (set_stats (record name
    (stats (set_chain c' b0))) (set_chain c' b0)))) in k handle) Q E (push_event e (set_stats (record name
    (stats (set_chain c' b0))) (set_chain c' b0)))). rewrite <-Hb.
  destruct (action_stack b0) as [|sc outer] eqn:Est; [done|].
  assert (Hh : handle_for_last_event (after_event name e c' b0) = Ok (MkHandle (sc_id sc) (length (sc_events sc)))).
  { clear Hb1 Hc1 Hb Hk. unfold after_event, push_event, handle_for_last_event. destruct b0; simpl in *. subst. simpl.
    by rewrite length_app, Nat.add_comm. }
  rewrite Hh. eapply wp_Ok; [done|]. apply Hk; try done. unfold handle_of. by rewrite Est.
Qed.

Lemma wp_in_scope {A} msg (k : unit -> eff TxBuilder A) (Q : A -> TxBuilder -> Prop) (E : failure -> TxBuilder -> Prop) b :
  (action_stack b = [] -> E (Panic msg) b) -> (action_stack b <> [] -> wp (k tt) Q E b) ->
  wp (ebind (in_scope msg) k) Q E b.
Proof.
  intros He Hk. unfold in_scope. apply wp_bind, wp_get. destruct (action_stack b); [by apply He|by apply Hk].
Qed.

(** [modify] then the rest. *)
Lemma wp_modify {A} f (k : unit -> eff TxBuilder A) (Q : A -> TxBuilder -> Prop) E b :
  wp (k tt) Q E (f b) -> wp (ebind (modify f) k) Q E b.
Proof. done. Qed.

(** An insertion inside a scope, of an object with a type and without an
    identity, is recorded under its step; anything else panics. *)
Lemma wp_insert initial b :
  builder_ok b ->
  wp (insert ms initial)
    (fun '(new, st, h) b' => builder_ok b' /\ new = <[STABLE_IDENTIFIER_FIELD := commit initial]> initial
       /\ handle_of b = Some h
       /\ let c' := event_step (chain b) EMPTY_HASH (commit new) in
          b' = after_event "TxInsert" (CInsert new initial c' st None) c' b)
    (fun e _ => exists m, e = Panic m /\ (action_stack b = [] \/ is_Some (initial !! STABLE_IDENTIFIER_FIELD)
       \/ initial !! "type" = None)) b.
Proof.
  intros Hok. unfold insert. apply wp_in_scope; [by eauto|intros Hst].
  destruct (with_stable_identifier initial) as [new|e] eqn:Hnew.
  2: { apply with_stable_identifier_panic in Hnew as [Hs [m ->]]. eapply wp_Err; eauto 10. }
  pose proof Hnew as [Hsid Heq]%with_stable_identifier_Ok. eapply wp_Ok; [done|]. apply wp_get, wp_modify.
  unfold object_type. destruct (new !! "type") as [ty|] eqn:Hty.
  2: { eapply wp_Err; [done|]. eexists. split; [done|]. right; right. subst new. by rewrite lookup_insert_ne in Hty. }
  eapply wp_Ok; [done|]. set (eh := hash_values [EMPTY_HASH; commit new]). set (c' := hash_values [chain b; eh]).
  eapply (wp_priv _ _ _ _ [commit new; value_of_str "type"; ty]); [by repeat constructor|apply contains_dict; eauto|intros ?].
  eapply (wp_priv _ _ _ _ [commit initial; value_of_str STABLE_IDENTIFIER_FIELD; commit initial; commit new]);
    [by repeat constructor|apply dict_insert_spec; by subst new|intros ?].
  eapply (wp_priv _ _ _ _ [EMPTY_HASH; commit new; eh]); [by repeat constructor|done|intros ?].
  eapply (wp_priv _ _ _ _ [chain b; eh; c']); [by repeat constructor|done|intros ?].
  eapply (wp_applied _ _ _ _ _ _ (asg [("prev_chain", chain b); ("chain", c'); ("initial", commit initial);
    ("new", commit new); ("type", ty); ("event_hash", eh)]));
    [reflexivity|reflexivity|reflexivity|reflexivity|reflexivity|by repeat constructor|by repeat constructor|].
  intros st Hstmt. eapply (wp_push _ _ _ _ _ _ _ b); [exact Hok|exact Hst|done| |].
  - by apply (traced_insert (chain b) new initial ty).
  - intros h b' Hb' _ Heq' Hh. by apply wp_ret.
Qed.

(** Two states of one object: same type, same identity. *)
Definition same_object (new old : Dictionary) : Prop :=
  exists ty sid, new !! "type" = Some ty /\ old !! "type" = Some ty
    /\ new !! STABLE_IDENTIFIER_FIELD = Some sid /\ old !! STABLE_IDENTIFIER_FIELD = Some sid.

Lemma same_object_types new old ty ty' :
  new !! "type" = Some ty -> old !! "type" = Some ty' -> ty <> ty' -> ~ same_object new old.
Proof. intros ? ? ? (? & ? & ? & ? & _). congruence. Qed.

Lemma wp_mutate new old b :
  builder_ok b ->
  wp (mutate ms new old)
    (fun '(st, _) b' => builder_ok b' /\ same_object new old /\ chain b' = event_step (chain b) (commit old) (commit new)
       /\ exists ty, new !! "type" = Some ty /\ proven "TxMutate" [chain b; chain b'; commit old; commit new; ty] st)
    (fun e _ => exists m, e = Panic m /\ (action_stack b = [] \/ ~ same_object new old)) b.
Proof.
  intros Hok. unfold mutate. apply wp_in_scope; [by eauto|intros Hst]. apply wp_get, wp_modify.
  unfold object_type, field.
  destruct (new !! "type") as [ty|] eqn:Hty.
  2: { eapply wp_Err; [done|]. eexists; split; [done|]. right. intros (? & ? & ? & _). congruence. }
  eapply wp_Ok; [done|]. destruct (old !! "type") as [ty'|] eqn:Hty'.
  2: { eapply wp_Err; [done|]. eexists; split; [done|]. right. intros (? & ? & ? & ? & _). congruence. }
  eapply wp_Ok; [done|]. case_bool_decide as Hcmp.
  2: { eapply wp_Err; [done|]. eexists; split; [done|]. right. by eapply same_object_types. }
  subst ty'. eapply wp_Ok; [done|]. destruct (new !! STABLE_IDENTIFIER_FIELD) as [sid|] eqn:Hsid.
  2: { eapply wp_Err; [done|]. eexists; split; [done|]. right. intros (? & ? & ? & ? & ? & _). congruence. }
  eapply wp_Ok; [done|]. destruct (old !! STABLE_IDENTIFIER_FIELD) as [sid'|] eqn:Hsid'.
  2: { eapply wp_Err; [done|]. eexists; split; [done|]. right. intros (? & ? & ? & ? & ? & ?). congruence. }
  eapply wp_Ok; [done|]. case_bool_decide as Hcmp.
  2: { eapply wp_Err; [done|]. eexists; split; [done|]. right. intros (? & ? & ? & ? & ? & ?). congruence. }
  subst sid'. eapply wp_Ok; [done|].
  set (eh := hash_values [commit old; commit new]). set (c' := hash_values [chain b; eh]).
  eapply (wp_priv _ _ _ _ [commit new; value_of_str "type"; ty]); [by repeat constructor|apply contains_dict; eauto|intros ?].
  eapply (wp_priv _ _ _ _ [commit old; value_of_str "type"; ty]); [by repeat constructor|apply contains_dict; eauto|intros ?].
  eapply (wp_priv _ _ _ _ [sid; sid]); [repeat constructor; by apply dict_entry|done|intros ?].
  eapply (wp_priv _ _ _ _ [commit old; commit new; eh]); [by repeat constructor|done|intros ?].
  eapply (wp_priv _ _ _ _ [chain b; eh; c']); [by repeat constructor|done|intros ?].
  eapply (wp_applied _ _ _ _ _ _ (asg [("prev_chain", chain b); ("chain", c'); ("old", commit old);
    ("new", commit new); ("type", ty); ("event_hash", eh)]));
    [reflexivity|reflexivity|reflexivity|reflexivity|reflexivity|by repeat constructor|by repeat constructor|].
  intros st Hstmt. eapply (wp_push _ _ _ _ _ _ _ b); [exact Hok|exact Hst|done| |].
  - by apply (traced_mutate (chain b) new old ty).
  - intros h b' Hb' Hc' _ _. apply wp_ret. rewrite Hc'. split; [done|]. split; [by exists ty, sid|]. eauto.
Qed.

Lemma wp_delete old b :
  builder_ok b ->
  wp (delete_object ms old) (fun _ => builder_ok)
    (fun e _ => exists m, e = Panic m /\ (action_stack b = [] \/ old !! "type" = None)) b.
Proof.
  intros Hok. unfold delete_object. apply wp_in_scope; [by eauto|intros Hst]. apply wp_get, wp_modify.
  unfold object_type. destruct (old !! "type") as [ty|] eqn:Hty; [|by eapply wp_Err; eauto].
  eapply wp_Ok; [done|]. set (eh := hash_values [commit old; EMPTY_HASH]). set (c' := hash_values [chain b; eh]).
  eapply (wp_priv _ _ _ _ [commit old; value_of_str "type"; ty]); [by repeat constructor|apply contains_dict; eauto|intros ?].
  eapply (wp_priv _ _ _ _ [commit old; EMPTY_HASH; eh]); [by repeat constructor|done|intros ?].
  eapply (wp_priv _ _ _ _ [chain b; eh; c']); [by repeat constructor|done|intros ?].
  eapply (wp_applied _ _ _ _ _ _ (asg [("prev_chain", chain b); ("chain", c'); ("old", commit old);
    ("type", ty); ("event_hash", eh)]));
    [reflexivity|reflexivity|reflexivity|reflexivity|reflexivity|by repeat constructor|by repeat constructor|].
  intros st Hstmt. eapply (wp_push _ _ _ _ _ _ _ b); [exact Hok|exact Hst|done| |].
  - by apply (traced_delete (chain b) old ty).
  - intros h b' Hb' _ _ _. by apply wp_ret.
Qed.

(** Rekeying an object changes its key and nothing else. *)
Lemma wp_rekey old new_key b :
  builder_ok b ->
  wp (rekey ms old new_key)
    (fun '(new, st, _) b' => builder_ok b' /\ new = <["key" := new_key]> old
       /\ exists ty, old !! "type" = Some ty /\ proven "Rekey" [commit new; chain b; chain b'; ty] st)
    (fun e _ => exists m, e = Panic m /\ (action_stack b = [] \/ old !! "key" = None \/ ~ same_object old old)) b.
Proof.
  intros Hok. unfold rekey. destruct (old !! "key") as [key|] eqn:Hkey.
  2: { destruct (dict_upd_new old "key" EMPTY_HASH Hkey) as [m Hm]. eapply wp_Err; [by rewrite Hm|]. eauto 10. }
  eapply wp_Ok; [by rewrite dict_upd_old by eauto|]. set (mid := <["key" := EMPTY_HASH]> old).
  eapply wp_Ok; [rewrite dict_upd_old; [done|]; by exists EMPTY_HASH; apply lookup_insert_eq|].
  set (new := <["key" := new_key]> mid).
  assert (Hnew : new = <["key" := new_key]> old) by apply insert_insert_eq. rewrite <-Hnew.
  assert (Hsame : same_object new old <-> same_object old old).
  { unfold same_object. rewrite Hnew. rewrite !lookup_insert_ne by done. naive_solver. }
  apply wp_bind. eapply wp_mono; [by apply wp_mutate| |intros e b' (m & -> & Hm); exists m; (split; [done|tauto])].
  intros [st_mut h] b' (Hb' & Hso & Hc & ty & Hty & Hst).
  eapply (wp_priv _ _ _ _ [commit old; value_of_str "key"; EMPTY_HASH; commit mid]);
    [by repeat constructor|apply dict_update_spec; eauto|intros ?].
  eapply (wp_priv _ _ _ _ [commit mid; value_of_str "key"; new_key; commit new]);
    [by repeat constructor|apply dict_update_spec; split; [eexists; apply lookup_insert_eq|done]|intros ?].
  pose proof (proven_valid _ _ _ Hst). destruct Hst as [-> _].
  conj_with [("new", commit new); ("chain_start", chain b); ("chain_end", chain b'); ("type", ty);
    ("old", commit old); ("mid", commit mid); ("new_key", new_key)].
  apply wp_modify, wp_ret.
  split; [by destruct b', Hb'; split|]. split; [done|]. exists ty.
  split; [by rewrite Hnew, lookup_insert_ne in Hty by done|by destruct b'].
Qed.

(** ** Grounding *)

(** The grounding witness proves each object against the created set. *)
Definition witnessed (g : GroundingWitness) (o : Dictionary) : Prop :=
  exists i pf, gw_created_proofs g !! commit o = Some (i, pf)
    /\ proof_ok (created_root (gw_state_header g)) (value_of_i64 i) (commit o) pf.

Definition in_array (root i o : Value) : Statement := St (Native ArrayContains) [Lit root; Lit i; Lit o].

Lemma prove_obj_Ok g o :
  witnessed g o -> exists i, prove_obj_in_created (created_root (gw_state_header g)) g o
      = Ok (in_array (created_root (gw_state_header g)) i (commit o))
    /\ valid modules (in_array (created_root (gw_state_header g)) i (commit o)).
Proof.
  intros (i & pf & Hg & Hpf). exists (value_of_i64 i). unfold prove_obj_in_created. rewrite Hg. simpl.
  rewrite (proof_op_ok _ _ _ _ Hpf). split; [done|].
  eapply (valid_native _ _ [created_root (gw_state_header g); value_of_i64 i; commit o]);
    [by repeat constructor|by eapply proof_ok_contains].
Qed.

Definition set_insert_st (s : gset Value) (o : Value) (s' : gset Value) : Statement :=
  St (Native SetInsert) [Lit (set_commitment s); Lit o; Lit (set_commitment s')].

Lemma set_insert_op_Ok s o :
  commit o ∉ s -> set_insert_op s o ({[commit o]} ∪ s) = Ok (set_insert_st s (commit o) ({[commit o]} ∪ s))
  /\ valid modules (set_insert_st s (commit o) ({[commit o]} ∪ s)).
Proof.
  intros Ho. split.
  - eapply (native_op_ok _ _ [_; _; _]); [by repeat constructor|]. by apply set_insert_spec.
  - eapply (valid_native _ _ [_; _; _]); [by repeat constructor|]. by apply set_insert_spec.
Qed.

Lemma extend_set_Ok s o : commit o ∉ s -> extend_set s o = Ok ({[commit o]} ∪ s).
Proof. intros Ho. unfold extend_set. by rewrite set_ins_new. Qed.

(** [ground] on given statements. *)
Lemma wp_ground_and {A} name P σ sts (k : Statement -> eff TxStats A) Q E s :
  find_custom_pred_by_name modules name = Some P -> p_conn P = AND -> sts = inst σ <$> p_sts P ->
  determined P [] sts = true -> Forall (valid modules) sts ->
  (forall st, proven name (σ <$> p_args P) st -> wp (k st) Q E s) ->
  wp (ebind (ground ms name [] (Ok <$> sts)) k) Q E s.
Proof. intros. by eapply (wp_custom_and ms Q E). Qed.

Lemma wp_ground_inputs {A} inputs root i t sts (k : Statement -> eff TxStats A) Q E s :
  let σ := asg [("inputs", inputs); ("created", root)] in
  let P := default (MkPred "InputsGrounded" [] OR []) (find_custom_pred_by_name modules "InputsGrounded") in
  p_sts P !! i = Some t -> length sts = 4%nat -> slots P sts = [(t, inst σ t)] ->
  determined P ["created"] sts = true -> valid modules (inst σ t) ->
  (forall st, st ∈ sts -> st = inst σ t \/ st = st_none) ->
  (forall st, proven "InputsGrounded" [inputs; root] st -> wp (k st) Q E s) ->
  wp (ebind (ground ms "InputsGrounded" [("created", root)] (Ok <$> sts)) k) Q E s.
Proof.
  intros σ P Hi Hl Hs Hd Hv Hin Hk. unfold ground.
  destruct (apply_custom_proven ms "InputsGrounded" P [("created", root)] σ sts) as (st & Hop & Hst).
  - reflexivity.
  - by eapply instance_or.
  - reflexivity.
  - done.
  - by repeat constructor.
  - intros st [-> | ->]%Hin Hn; [done|discriminate Hn].
  - eapply wp_Ok; [|by apply Hk]. by rewrite (st_custom_given ms "InputsGrounded" _ _ P eq_refl), Hop.
Qed.

Lemma wp_ground_rest n g st prev rest s :
  let root := created_root (gw_state_header g) in
  length rest = (2 * n)%nat -> Forall (witnessed g) rest -> NoDup (dict_commitment <$> rest) ->
  (forall o, o ∈ rest -> commit o ∉ prev) ->
  proven "InputsGrounded" [set_commitment prev; root] st ->
  wp (ground_rest ms root g st prev rest)
    (fun '(st', s') _ => s' = list_to_set (dict_commitment <$> rest) ∪ prev
       /\ proven "InputsGrounded" [set_commitment s'; root] st')
    (fun _ _ => False) s.
Proof.
  intros root. revert st prev rest s. induction n as [|n IH]; intros st prev rest s Hlen Hw Hnd Hdj Hst.
  { destruct rest; [|done]. apply wp_ret. split; [set_solver|done]. }
  destruct rest as [|o1 [|o2 rest]]; [done|simpl in Hlen; lia|]. cbn [ground_rest].
  apply Forall_cons in Hw as [Hw1 [Hw2 Hw]%Forall_cons]. rewrite !fmap_cons in Hnd.
  apply NoDup_cons in Hnd as [Hn1 [Hn2 Hnd]%NoDup_cons].
  destruct (prove_obj_Ok g o1 Hw1) as (i1 & Hp1 & Hv1). destruct (prove_obj_Ok g o2 Hw2) as (i2 & Hp2 & Hv2).
  fold root in Hp1, Hp2, Hv1, Hv2.
  assert (Hf1 : commit o1 ∉ prev) by (apply Hdj; set_solver).
  assert (Hf2 : commit o2 ∉ {[commit o1]} ∪ prev).
  { specialize (Hdj o2 ltac:(set_solver)). set_solver. }
  eapply wp_Ok; [by apply extend_set_Ok|]. eapply wp_Ok; [by apply extend_set_Ok|].
  eapply wp_Ok; [exact Hp1|]. eapply wp_Ok; [exact Hp2|].
  destruct (set_insert_op_Ok _ _ Hf1) as [-> ?]. destruct (set_insert_op_Ok _ _ Hf2) as [-> ?].
  pose proof (proven_valid _ _ _ Hst). destruct Hst as [-> Htrue].
  set (mid := {[commit o1]} ∪ prev) in *. set (next := {[commit o2]} ∪ mid) in *.
  eapply (wp_ground_and _ _ (asg [("inputs", set_commitment next); ("created", root); ("first_input", commit o1);
    ("second_input", commit o2); ("mid", set_commitment mid); ("prev_inputs", set_commitment prev);
    ("first_index", i1); ("second_index", i2)])
    [in_array root i1 (commit o1); set_insert_st prev (commit o1) mid; in_array root i2 (commit o2);
     set_insert_st mid (commit o2) next; _]);
    [reflexivity|reflexivity|reflexivity|reflexivity|by repeat constructor|intros st Hst].
  apply wp_note. pose proof (proven_valid _ _ _ Hst). destruct Hst as [-> _].
  eapply (wp_ground_inputs (set_commitment next) root 3%nat _ [st_none; st_none; st_none; _]);
    [reflexivity|reflexivity|reflexivity|reflexivity|done|set_solver|intros st Hst].
  apply wp_note. eapply wp_mono; [apply IH; try done| |done].
  - simpl in Hlen. lia.
  - intros o Ho. specialize (Hdj o ltac:(set_solver)). unfold next, mid.
    assert (commit o ∈ dict_commitment <$> rest) by (apply list_elem_of_fmap; eauto). set_solver.
  - intros [st' s'] s'' [-> Hst']. split; [|done]. unfold next, mid. simpl. set_solver.
Qed.

Lemma wp_build_inputs_grounded g objs s :
  let root := created_root (gw_state_header g) in
  Forall (witnessed g) objs -> NoDup (dict_commitment <$> objs) ->
  wp (build_inputs_grounded ms objs g)
    (fun '(st, s') _ => s' = list_to_set (dict_commitment <$> objs)
       /\ proven "InputsGrounded" [set_commitment s'; root] st)
    (fun _ _ => False) s.
Proof.
  intros root Hw Hnd. unfold build_inputs_grounded. fold root. destruct objs as [|o1 rest].
  { rewrite (native_op_ok Equal _ [set_commitment ∅; set_commitment ∅]) by (by repeat constructor).
    assert (valid modules (St (Native Equal) [Lit (set_commitment ∅); Lit (set_commitment ∅)]))
      by (eapply (valid_native _ _ [_; _]); by repeat constructor).
    rewrite empty_set_value in *.
    eapply (wp_ground_inputs EMPTY_HASH root 0%nat _ [_; st_none; st_none; st_none]);
      [reflexivity|reflexivity|reflexivity|reflexivity|done|set_solver|intros st Hst].
    apply wp_note, wp_ret. split; [done|]. by rewrite empty_set_value. }
  apply Forall_cons in Hw as [Hw1 Hw]. rewrite fmap_cons in Hnd. apply NoDup_cons in Hnd as [Hn1 Hnd].
  destruct (prove_obj_Ok g o1 Hw1) as (i1 & Hp1 & Hv1). fold root in Hp1, Hv1.
  assert (Hf1 : commit o1 ∉ (∅ : gset Value)) by set_solver. destruct (Nat.odd (length (o1 :: rest))) eqn:Hodd.
  - eapply wp_Ok; [by apply extend_set_Ok|]. eapply wp_Ok; [exact Hp1|].
    destruct (set_insert_op_Ok _ _ Hf1) as [-> ?]. set (iset := {[commit o1]} ∪ ∅) in *.
    eapply (wp_ground_and _ _ (asg [("inputs", set_commitment iset); ("created", root); ("input", commit o1); ("index", i1)])
      [in_array root i1 (commit o1); set_insert_st ∅ (commit o1) iset]);
      [reflexivity|reflexivity|unfold set_insert_st; rewrite empty_set_value; reflexivity|reflexivity
      |by repeat constructor|intros st Hst].
    apply wp_note. pose proof (proven_valid _ _ _ Hst). destruct Hst as [-> _].
    eapply (wp_ground_inputs (set_commitment iset) root 1%nat _ [st_none; _; st_none; st_none]);
      [reflexivity|reflexivity|reflexivity|reflexivity|done|set_solver|intros st Hst].
    apply wp_note. apply Nat.odd_spec in Hodd as [n Hn].
    eapply wp_mono; [apply (wp_ground_rest n); try done| |done].
    + simpl in Hn. lia.
    + intros o Ho. assert (commit o ∈ dict_commitment <$> rest) by (apply list_elem_of_fmap; eauto).
      unfold iset. set_solver.
    + intros [st' s'] s'' [-> Hst']. split; [|done]. unfold iset. simpl. set_solver.
  - assert (Heven : Nat.even (length (o1 :: rest)) = true) by (by rewrite <-Nat.negb_odd, Hodd).
    apply Nat.even_spec in Heven as [n Hn]. destruct rest as [|o2 rest]; [simpl in Hn; lia|].
    apply Forall_cons in Hw as [Hw2 Hw]. rewrite fmap_cons in Hnd, Hn1. apply NoDup_cons in Hnd as [Hn2 Hnd].
    destruct (prove_obj_Ok g o2 Hw2) as (i2 & Hp2 & Hv2). fold root in Hp2, Hv2.
    assert (Hf2 : commit o2 ∉ ({[commit o1]} ∪ ∅ : gset Value)) by set_solver.
    eapply wp_Ok; [by apply extend_set_Ok|]. eapply wp_Ok; [by apply extend_set_Ok|].
    eapply wp_Ok; [exact Hp1|]. eapply wp_Ok; [exact Hp2|].
    destruct (set_insert_op_Ok _ _ Hf1) as [-> ?]. destruct (set_insert_op_Ok _ _ Hf2) as [-> ?].
    set (sf := {[commit o1]} ∪ ∅) in *. set (iset := {[commit o2]} ∪ sf) in *.
    eapply (wp_ground_and _ _ (asg [("inputs", set_commitment iset); ("created", root); ("first_input", commit o1);
      ("second_input", commit o2); ("set_first", set_commitment sf); ("first_index", i1); ("second_index", i2)])
      [in_array root i1 (commit o1); set_insert_st ∅ (commit o1) sf; in_array root i2 (commit o2);
       set_insert_st sf (commit o2) iset]);
      [reflexivity|reflexivity|unfold set_insert_st; rewrite empty_set_value; reflexivity|reflexivity
      |by repeat constructor|intros st Hst].
    apply wp_note. pose proof (proven_valid _ _ _ Hst). destruct Hst as [-> _].
    eapply (wp_ground_inputs (set_commitment iset) root 2%nat _ [st_none; st_none; _; st_none]);
      [reflexivity|reflexivity|reflexivity|reflexivity|done|set_solver|intros st Hst].
    apply wp_note. eapply wp_mono; [apply (wp_ground_rest (n - 1)); try done| |done].
    + simpl in Hn. lia.
    + intros o Ho. assert (commit o ∈ dict_commitment <$> rest) by (apply list_elem_of_fmap; eauto).
      unfold iset, sf. set_solver.
    + intros [st' s'] s'' [-> Hst']. split; [|done]. unfold iset, sf. simpl. set_solver.
Qed.

Lemma TxBuilder_new_ok g objs :
  Forall (witnessed g) objs -> NoDup (dict_commitment <$> objs) ->
  exists b, TxBuilder_new ms objs g = Ok b /\ builder_ok b /\ inputs b = objs /\ tb_header b = gw_state_header g
    /\ events b = [] /\ action_stack b = [] /\ chain b = chain_start b.
Proof.
  intros Hw Hnd. pose proof (wp_build_inputs_grounded g objs ∅ Hw Hnd) as Hg.
  unfold TxBuilder_new, wp in *. destruct (build_inputs_grounded ms objs g ∅) as [[[st iset]|e] stats]; [|done].
  destruct Hg as [-> Hst]. eexists. split; [reflexivity|]. split; [|done]. split; try done. simpl.
  eexists. split; constructor.
Qed.

(** ** Finalization *)

Definition chain_after (e : ChainEvent) : Hash :=
  match e with
  | CInsert _ _ ca _ _ | CMutate _ _ ca _ _ | CDelete _ ca _ _ | CAction ca _ => ca
  end.

(** The evidence attached to an object's event is a true guard statement of the
    object's type for the bounds of the action. *)
Definition guarded (header cs ce : Value) (o : Dictionary) (g : option Statement) : Prop :=
  exists ty st, o !! "type" = Some ty /\ g = Some st /\ evidence header ty (commit o) cs ce st.

Definition evidenced_list (event : Value -> ChainEvent -> Prop) : Value -> list ChainEvent -> Prop :=
  fix go c es :=
  match es with
  | [] => True
  | e :: es' => event c e /\ go (chain_after e) es'
  end.

Fixpoint evidenced (header cs ce c : Value) (e : ChainEvent) : Prop :=
  match e with
  | CInsert new _ _ _ g | CMutate new _ _ _ g => guarded header cs ce new g
  | CDelete old _ _ g => guarded header cs ce old g
  | CAction ca contents => evidenced_list (evidenced header c ca) c contents
  end.

Lemma traced_chain_after c e c' : traced c e c' -> chain_after e = c'.
Proof. by inversion 1. Qed.

Lemma traced_recorded header :
  (forall c e c', traced c e c' -> forall cs ce, evidenced header cs ce c e -> recorded header cs ce c e c')
  /\ (forall c es c', traced_list c es c' -> forall cs ce,
        evidenced_list (evidenced header cs ce) c es -> recorded_list header cs ce c es c').
Proof.
  apply traced_both; simpl.
  - intros c new initial ty stmt g Hty _ Hst cs ce (ty' & st & Hty' & -> & Hev). simplify_eq. by econstructor.
  - intros c new old ty stmt g Hty Hst cs ce (ty' & st & Hty' & -> & Hev). simplify_eq. by econstructor.
  - intros c old ty stmt g Hty Hst cs ce (ty' & st & Hty' & -> & Hev). simplify_eq. by econstructor.
  - intros c contents c' Hne _ _ IH cs ce Hev. constructor; [done|]. by apply IH.
  - intros. constructor.
  - intros c e c1 es c2 He IHe Hes IHes cs ce [Hev Hevs]. rewrite (traced_chain_after _ _ _ He) in Hevs.
    econstructor; [by apply IHe|by apply IHes].
Qed.

(** What finalization amounts to: interpret the recorded tree on sets and
    require every input to be spent. *)
Definition finalized_values (h : StateHeader) (f : ReplayFrame) : list Value :=
  [StateHeader_hash h; commit (final_dict f); set_commitment (rf_nullifiers f); set_commitment (rf_created f)].

Definition tx_public (tx : Tx) : list Value :=
  [StateHeader_hash (tx_state_header tx); commit (tx_ctx tx); set_commitment (tx_nullifiers tx);
   set_commitment (tx_created tx)].

Definition plain_finalize (b : TxBuilder) : Result (Statement * Tx) :=
  let? (created, nullifiers) := apply_events (start_frame (inputs_set b)) (events b) in
  check_spent nullifiers (inputs b) ;?
  let f := advance (start_frame (inputs_set b)) created nullifiers in
  Ok (St (Custom (predicate_hash "TxFinalized")) (Lit <$> finalized_values (tb_header b) f),
      MkTx created nullifiers (final_dict f) (tb_header b)).

(** A builder that can be finalized: no open scope, an action, and evidence for
    every event. *)
Record ready (b : TxBuilder) : Prop := {
  ready_ok : builder_ok b;
  ready_closed : action_stack b = [];
  ready_events : events b <> [];
  ready_evidence : evidenced_list (evidenced (StateHeader_hash (tb_header b)) EMPTY_HASH EMPTY_HASH)
    (chain_start b) (events b);
}.

Lemma header_entry h : contains (StateHeader_hash h) (value_of_i64 STATE_HEADER_CREATED_SLOT) (created_root h).
Proof. apply contains_array. by exists 3%nat. Qed.

Lemma check_spent_no_panic ns objs m : check_spent ns objs <> Err (Panic m).
Proof.
  unfold check_spent. induction objs as [|o objs IH]; simpl; [done|].
  unfold object_nullifier_hash, object_key_hash, rmap, rensure. destruct (o !! "key"); simpl; [|done].
  by case_bool_decide.
Qed.

Lemma plain_finalize_no_panic b m : plain_finalize b <> Err (Panic m).
Proof.
  unfold plain_finalize. intros [Ha|([cr ns] & _ & [Ha|([] & _ & [=])]%rbind_Err)]%rbind_Err.
  - by apply (apply_event_no_panic (start_frame (inputs_set b)) (CAction EMPTY_HASH (events b)) m).
  - by apply check_spent_no_panic in Ha.
Qed.

Lemma check_spent_Ok ns objs u :
  check_spent ns objs = Ok u -> Forall (fun o => exists n, object_nullifier_hash o = Ok n /\ n ∈ ns) objs.
Proof.
  unfold check_spent. induction objs as [|o objs IH]; simpl; [constructor|].
  intros ([] & (n & Hn & Hin)%rbind_Ok & Hrest)%rbind_Ok. unfold rensure in Hin. case_bool_decide; [|done].
  constructor; [eauto|by apply IH].
Qed.

Lemma plain_finalize_spent b st tx :
  plain_finalize b = Ok (st, tx) ->
  Forall (fun o => exists n, object_nullifier_hash o = Ok n /\ n ∈ tx_nullifiers tx) (inputs b).
Proof.
  unfold plain_finalize. intros ([cr ns] & _ & ([] & Hsp & [= _ <-])%rbind_Ok)%rbind_Ok. by eapply check_spent_Ok.
Qed.

Lemma wp_finalize_statements b st_replay cr ns s :
  let f0 := start_frame (inputs_set b) in
  let f := advance f0 cr ns in
  builder_ok b ->
  proven "ReplayActions" (steps (StateHeader_hash (tb_header b)) f0 (chain_start b) cr ns (chain b)) st_replay ->
  wp (finalize_statements ms b st_replay cr ns)
    (fun '(st, tx) _ => tx = MkTx cr ns (final_dict f) (tb_header b)
       /\ proven "TxFinalized" (finalized_values (tb_header b) f) st)
    (fun _ _ => False) s.
Proof.
  intros f0 f [Hs Hg Hi Ha _] Hreplay. unfold finalize_statements.
  eapply wp_Ok; [apply dict_del_old; by eexists|]. walk.
  pose proof (proven_valid _ _ _ Hg). pose proof (proven_valid _ _ _ Hreplay).
  destruct Hg as [Hgeq _], Hreplay as [-> _]. rewrite Hgeq in *.
  assert (Hb : tx_value f0 = commit (build_tx (inputs_set b) ∅ ∅ EMPTY_HASH EMPTY_HASH)) by done.
  walk. eapply wp_rebind; [apply replaces_none, replaces_some; [apply header_entry|constructor]|done|intros ?].
  rewrite Hs. walk.
  assert (Hsd : lit_dict scope_dict = Lit (commit scope_fields))
    by (unfold lit_dict, scope_dict, scope_fields; by rewrite empty_set_value).
  rewrite Hsd in *. rewrite Hs in *. clear Hs.
  assert (Hdel : Forall2 arg_value [lit_dict (to_tx_dict f); lit_str "inputs"; lit_dict (final_dict f)]
    [commit (to_tx_dict f); value_of_str "inputs"; commit (final_dict f)]) by (by repeat constructor).
  assert (Hdd : native_holds DictDelete [commit (to_tx_dict f); value_of_str "inputs"; commit (final_dict f)])
    by (apply dict_delete_spec; split; [by eexists|done]).
  eapply wp_Ok; [exact (native_op_ok _ _ _ Hdel Hdd)|]. pose proof (valid_native _ _ _ Hdel Hdd). walk.
  conj_with [("after_tx", tx_value f); ("tx_final", commit (final_dict f)); ("nullifiers", set_commitment ns);
    ("created", set_commitment cr)].
  walk. match goal with Hst : proven _ _ _ |- _ => pose proof (proven_valid _ _ _ Hst); destruct Hst as [-> _] end.
  conj_with [("state_header", StateHeader_hash (tb_header b)); ("tx_final", commit (final_dict f));
    ("nullifiers", set_commitment ns); ("created", set_commitment cr); ("before_tx", tx_value f0);
    ("after_tx", tx_value f); ("chain_start", start_chain (inputs_set b)); ("chain_final", chain b)].
  walk. by apply wp_ret.
Qed.

Lemma finalize_plain b :
  ready b ->
  rmap fst (finalize ms b) = plain_finalize b
  /\ (forall st tx stats, finalize ms b = Ok (st, tx, stats) -> proven "TxFinalized" (tx_public tx) st).
Proof.
  intros [Hok Hst Hne Hev]. pose proof Hok as [Hs Hg Hi Ha (c & Ht & Ho)]. rewrite Hst in Ho. inversion Ho; subst.
  pose proof (proj2 (traced_recorded _) _ _ _ Ht _ _ Hev) as Hrec.
  pose proof (actions_complete ms _ _ _ _ _ _ Hrec Hne Ha (start_frame (inputs_set b)) (stats b)) as Hact.
  assert (Hwp : wp (finalize_with ms b)
    (fun '(st, tx) _ => plain_finalize b = Ok (st, tx) /\ proven "TxFinalized" (tx_public tx) st)
    (fun e _ => plain_finalize b = Err e) (stats b)).
  2: { unfold finalize, wp in *. destruct (finalize_with ms b (stats b)) as [[[st tx]|e] t]; simpl.
       - destruct Hwp as [-> Hv]. split; [done|]. by intros ? ? ? [= <- <- <-].
       - by rewrite Hwp. }
  unfold finalize_with, plain_finalize. rewrite Hst.
  eapply wp_Ok; [done|]. eapply wp_Ok; [by destruct (events b)|]. apply wp_bind.
  eapply wp_mono; [exact Hact| |by intros e s ->].
  intros [[[st_replay ch] cr] ns] s (Hap & -> & Hreplay). rewrite Hap. simpl.
  destruct (check_spent ns (inputs b)) as [[]|e] eqn:Hsp; [|by eapply wp_Err].
  eapply wp_Ok; [done|]. eapply wp_mono; [by apply wp_finalize_statements| |done].
  intros [st tx] s' (-> & Hfin). split; [|exact Hfin]. by destruct Hfin as [-> _].
Qed.

(** ** Use of the builder *)

(** The calls a client can make. *)
Inductive Call : Type :=
| Begin | End (scope_id : Z) | Guard (h : EventHandle) (g : Statement)
| Insert (initial : Dictionary) | Mutate (new old : Dictionary) | Delete (old : Dictionary)
| Rekey (old : Dictionary) (new_key : Value).

Definition call (c : Call) : eff TxBuilder unit :=
  match c with
  | Begin => let! _ := begin_action in eret tt
  | End id => end_action id
  | Guard h g => set_guard h g
  | Insert o => let! _ := insert ms o in eret tt
  | Mutate new old => let! _ := mutate ms new old in eret tt
  | Delete old => let! _ := delete_object ms old in eret tt
  | Rekey old k => let! _ := rekey ms old k in eret tt
  end.

Definition calls (cs : list Call) : eff TxBuilder unit := efold (fun _ c => call c) tt cs.

Lemma keeps_then {A} (c : eff TxBuilder A) : keeps_ok c -> keeps_ok (let! _ := c in eret tt).
Proof. intros Hc b Hb. apply wp_bind. eapply wp_mono; [by apply Hc|by intros; apply wp_ret|done]. Qed.

Lemma keeps_call c : keeps_ok (call c).
Proof.
  destruct c; simpl; try apply keeps_then;
    auto using keeps_begin_action, keeps_end_action, keeps_set_guard; intros b Hb.
  - eapply wp_mono; [by apply wp_insert|by intros [[? ?] ?] ? []|done].
  - eapply wp_mono; [by apply wp_mutate|by intros [? ?] ? []|done].
  - eapply wp_mono; [by apply wp_delete|done|done].
  - eapply wp_mono; [by apply wp_rekey|by intros [[? ?] ?] ? []|done].
Qed.

Lemma keeps_calls cs : keeps_ok (calls cs).
Proof. intros b Hb. apply (wp_fold (fun _ c => call c) (fun _ _ => builder_ok)); [done|]. intros. by apply keeps_call. Qed.

(** ** Minting

    The smallest use of the builder: one action that inserts one object. *)
Definition mint (guard : Value -> Value -> Value -> Statement) (initial : Dictionary) : eff TxBuilder Dictionary :=
  let! id := begin_action in
  let! b0 := eget in
  let! (new, _, h) := insert ms initial in
  let! b1 := eget in
  set_guard h (guard (commit new) (chain b0) (chain b1)) ;!
  end_action id ;!
  eret new.

(** The builder after minting, from one with no events. *)
Lemma wp_mint guard initial ty b :
  builder_ok b -> action_stack b = [] -> events b = [] -> chain b = chain_start b ->
  initial !! STABLE_IDENTIFIER_FIELD = None -> initial !! "type" = Some ty ->
  let new := <[STABLE_IDENTIFIER_FIELD := commit initial]> initial in
  let c' := event_step (chain b) EMPTY_HASH (commit new) in
  evidence (StateHeader_hash (tb_header b)) ty (commit new) (chain b) c' (guard (commit new) (chain b) c') ->
  wp (mint guard initial)
    (fun r b' => r = new /\ ready b' /\ inputs b' = inputs b /\ inputs_set b' = inputs_set b
       /\ tb_header b' = tb_header b
       /\ apply_events (start_frame (inputs_set b)) (events b') = Ok ({[commit new]}, ∅))
    (fun _ _ => False) b.
Proof.
  intros Hok Hst Hev Hch Hsid Hty new c' Hg. unfold mint. destruct b as [c cs hd ins gst iset es stack n t].
  simpl in Hst, Hev, Hch. subst es stack cs.
  set (b0 := MkBuilder c c hd ins gst iset [] [MkScope [] n] (as_u64 (n + 1)) t).
  assert (Hb0 : builder_ok b0) by exact (keeps_begin_action _ Hok).
  change (wp (let! (new, _, h) := insert ms initial in let! b1 := eget in
    set_guard h (guard (commit new) c (chain b1)) ;! end_action n ;! eret new)
    (fun r b' => r = new /\ ready b' /\ inputs b' = ins /\ inputs_set b' = iset /\ tb_header b' = hd
       /\ apply_events (start_frame iset) (events b') = Ok ({[commit new]}, ∅))
    (fun _ _ => False) b0).
  apply wp_bind. eapply wp_mono; [by apply wp_insert| |].
  2: { intros e b' (m & _ & [?|[[? ?]|?]]); [done|congruence|congruence]. }
  intros [[new' st] h] b1 (Hb1 & -> & [= <-] & Hb1eq). fold new in Hb1eq |- *.
  pose proof (keeps_set_guard (MkHandle n 0) (guard (commit new) c c') b1 Hb1) as Hb2.
  rewrite Hb1eq in *. simpl in Hb2.
  unfold set_guard, wp, ebind in Hb2 |- *. simpl in Hb2 |- *. rewrite !bool_decide_true in Hb2 |- * by done.
  simpl in Hb2 |- *. pose proof (keeps_end_action n _ Hb2) as Hb3.
  unfold end_action, verify_scope_guards, wp, ebind in Hb3 |- *. simpl in Hb3 |- *.
  rewrite !bool_decide_true in Hb3 |- * by done. simpl in Hb3 |- *.
  split; [done|]. split; [|split_and!; try done].
  - split; try done. simpl. split; [|done]. split; [|done]. exists ty. eexists. split_and!; [|done|exact Hg..].
    unfold new. by rewrite lookup_insert_ne.
  - unfold apply_events, apply_create. simpl. rewrite decide_False by set_solver. simpl. f_equal. f_equal. set_solver.
Qed.

Lemma mint_run guard initial ty g :
  initial !! STABLE_IDENTIFIER_FIELD = None -> initial !! "type" = Some ty ->
  let new := <[STABLE_IDENTIFIER_FIELD := commit initial]> initial in
  let c0 := start_chain ∅ in let c1 := event_step c0 EMPTY_HASH (commit new) in
  evidence (StateHeader_hash (gw_state_header g)) ty (commit new) c0 c1 (guard (commit new) c0 c1) ->
  let f := advance (start_frame ∅) {[commit new]} ∅ in
  exists b b' st stats,
    TxBuilder_new ms [] g = Ok b /\ mint guard initial b = (Ok new, b') /\ ready b'
    /\ finalize ms b' = Ok (st, MkTx {[commit new]} ∅ (final_dict f) (gw_state_header g), stats)
    /\ proven "TxFinalized" (finalized_values (gw_state_header g) f) st.
Proof.
  intros Hsid Hty new c0 c1 Hg f.
  destruct (TxBuilder_new_ok g [] ltac:(constructor) ltac:(constructor)) as (b & Hb & Hok & Hi & Hh & He & Hs & Hc).
  pose proof (ok_inputs b Hok) as Hset. rewrite Hi in Hset. simpl in Hset.
  assert (Hc0 : chain b = c0) by (by rewrite Hc, (ok_start b Hok), Hset).
  pose proof (wp_mint guard initial ty b Hok Hs He Hc Hsid Hty) as Hm. rewrite Hh, Hc0 in Hm. specialize (Hm Hg).
  unfold wp in Hm. destruct (mint guard initial b) as [[r|e] b'] eqn:Em; [|done].
  destruct Hm as (-> & Hr & Hi' & Hs' & Hh' & Hap). rewrite Hset in Hs', Hap.
  destruct (finalize_plain b' Hr) as [Hf Hv]. unfold plain_finalize in Hf.
  rewrite Hs', Hap, Hi', Hi, Hh' in Hf. simpl in Hf.
  destruct (finalize ms b') as [[[st tx] stats]|e] eqn:Ef; [|done]. simpl in Hf. injection Hf as Hst Htx.
  exists b, b', st, stats. do 3 (split; [done|]). split; [by rewrite Ef, Htx|].
  specialize (Hv _ _ _ eq_refl). rewrite Htx in Hv. exact Hv.
Qed.
End Facts.

End TxBuilderFacts.
