(* ===== verification/TxTheorems.v ===== *)
(** * Theorems about transactions

    The properties of the transaction predicates and of the builder, each with
    a concrete instance: a world in which one guard accepts everything and an
    object of its type is minted. *)

From S2P Require Import Prelude Pod2 Models DonState Podlang TxModel TxPredicates Replay ReplayFacts TxBuilder TxBuilderFacts.

Module TxTheorems.
Import Podlang TxModel DonState TxPredicates Replay ReplayFacts TxBuilder TxBuilderFacts.
Local Open Scope string_scope.

(** ** A concrete world *)

Module World.
Import Toy ToyPod.

Definition type : Value := MkHash 9 9 9 9.
#[export] Instance world_external : External := fun h vs => h = type /\ length vs = 4%nat.

#[export] Instance world_hashes : ModuleHashes.
Proof.
  split.
  - intros a b [= E]. by apply (inj encode).
  - intros name vs _ [E _]. discriminate E.
Qed.

#[export] Instance world_modules : HasModules modules.
Proof. by intros name P. Qed.

Definition header : StateHeader := StateHeader_new 1 2 EMPTY_HASH EMPTY_HASH EMPTY_HASH EMPTY_HASH.
Definition witness_at (h : StateHeader) : GroundingWitness := {| gw_state_header := h; gw_created_proofs := ∅ |}.
Definition witness : GroundingWitness := witness_at header.
Definition stone : Dictionary := <["type" := type]> {["key" := MkHash 5 0 0 0]}.
Definition accept_at (h : StateHeader) (o cs ce : Value) : Statement :=
  St (Custom type) [Lit o; Lit (StateHeader_hash h); Lit cs; Lit ce].
Definition accept : Value -> Value -> Value -> Statement := accept_at header.

Lemma accept_evidence h o cs ce : evidence (StateHeader_hash h) type o cs ce (accept_at h o cs ce).
Proof. split; [done|]. exists 1%nat. by left. Qed.

(** Minting a stone on any header. *)
Lemma minted_at header :
  let new := <[STABLE_IDENTIFIER_FIELD := dict_commitment stone]> stone in
  let f := advance (start_frame ∅) {[dict_commitment new]} ∅ in
  exists b b' st stats,
    TxBuilder_new modules [] (witness_at header) = Ok b
    /\ mint modules (accept_at header) stone b = (Ok new, b') /\ ready b'
    /\ finalize modules b' = Ok (st, MkTx {[dict_commitment new]} ∅ (final_dict f) header, stats)
    /\ proven "TxFinalized" (finalized_values header f) st.
Proof. by apply (mint_run modules (accept_at header) stone type (witness_at header)); [..|apply accept_evidence]. Qed.
End World.

(** ** Properties *)

(** C2: what a proof of [TxFinalized] certifies. If the statement is true of a
    state header, a transaction commitment and two set commitments, then there
    is a legal transaction of at least one action behind it: its inputs are in
    the created array of the header; every event is authorised by the guard its
    object's type names, for the chain bounds of its action; the created
    objects are pairwise different and are exactly the committed set; every
    consumed object is an input or created by the transaction, none is consumed
    twice, and the committed nullifiers are exactly theirs. *)
Theorem finalized_transactions_legal `{ModuleHashes, !Natives, !NativeLaws} (header tx_final nullifiers created : Value) :
  true_of modules (Custom (predicate_hash "TxFinalized")) [header; tx_final; nullifiers; created] ->
  exists inputs bodies f nuls,
    let ins := all_consumed (EAction <$> bodies) in
    let outs := all_produced (EAction <$> bodies) in
    finalized header tx_final nullifiers created inputs bodies f
    /\ rf_created f = list_to_set outs /\ NoDup outs
    /\ rf_nullifiers f = list_to_set nuls /\ NoDup nuls /\ Forall2 nullifies ins nuls
    /\ NoDup ins /\ Forall (fun o => o ∈ inputs \/ o ∈ outs) ins.
Proof.
  intros (inputs & bodies & f & Hfin)%finalized_sound. pose proof (fin_replays _ _ _ _ _ _ _ Hfin) as [chain Hr].
  pose proof (proj2 (replay_accounts _) _ _ _ _ _ Hr) as Hacc. pose proof (accounts_NoDup _ _ _ _ Hacc) as Hnd.
  destruct Hacc as [_ Hcr [Hno _] (nuls & Hf & Hnn & Hnl & _) Hav].
  exists inputs, bodies, f, nuls. cbn [start_frame rf_created rf_nullifiers rf_inputs] in *.
  rewrite Hcr, Hnl, !(right_id_L ∅ (∪)). rewrite Hcr, (right_id_L ∅ (∪)) in Hav.
  split_and!; try done. eapply Forall_impl; [exact Hav|]. intros o [?|?]; [by left|right; set_solver].
Qed.

(** C7: the builder records what it proves. Whatever calls succeed on a new
    builder, in whatever order, its chain is the hash chain of the events
    recorded so far, through the closed actions and then the open scopes; each
    event carries a true statement of its chain step; no closed action is empty
    or has an event without evidence; and outside of a scope there are only
    actions. *)
Theorem builder_calls_traced `{BuilderLaws, !NativeLaws, !External, !Containers, !ContainerLaws}
    (ms : list Predicate) `{!HasModules ms} (g : GroundingWitness) (objs : list Dictionary)
    (cs : list Call) (b b' : TxBuilder) (u : unit) :
  Forall (witnessed g) objs -> NoDup (dict_commitment <$> objs) ->
  TxBuilder_new ms objs g = Ok b -> calls ms cs b = (Ok u, b') -> builder_ok b'.
Proof.
  intros Hw Hnd Hb Hc. destruct (TxBuilder_new_ok ms g objs Hw Hnd) as (b0 & Hb0 & Hok & _).
  rewrite Hb0 in Hb. injection Hb as <-. by eapply (wp_run _ _ _ _ _ _ (keeps_calls ms cs b0 Hok)).
Qed.

(** C6: finalizing equals interpreting. For a builder with no open scope, at
    least one action and evidence for every event, [finalize] returns what the
    plain interpretation of the recorded tree on sets returns: the same created
    and nullifier sets with the [TxFinalized] statement about them, or the same
    error (an object that is not available, consumed twice or created twice, a
    missing key, an unspent input). It never panics, and the statement it
    returns is true. *)
Theorem finalize_equals_interpretation `{BuilderLaws, !NativeLaws, !External, !Containers, !ContainerLaws}
    (ms : list Predicate) `{!HasModules ms} (b : TxBuilder) :
  ready b ->
  rmap fst (finalize ms b) = plain_finalize b
  /\ (forall m, finalize ms b <> Err (Panic m))
  /\ (forall st tx stats, finalize ms b = Ok (st, tx, stats) ->
        proven "TxFinalized" (tx_public tx) st
        /\ Forall (fun o => exists n, object_nullifier_hash o = Ok n /\ n ∈ tx_nullifiers tx) (inputs b)).
Proof.
  intros Hr. destruct (finalize_plain ms b Hr) as [Hf Hv]. split_and!; [done| |].
  - intros m Hm. rewrite Hm in Hf. by apply (plain_finalize_no_panic b m).
  - intros st tx stats Heq. split; [by eapply Hv|]. rewrite Heq in Hf. eapply (plain_finalize_spent b st). by rewrite <-Hf.
Qed.

(** Grounding succeeds. When the inputs are pairwise different and the
    grounding witness proves each of them, [TxBuilder::new] returns a builder,
    for any number of inputs, whose statement grounds exactly these inputs in
    the created set of the header. *)
Theorem grounding_succeeds `{BuilderLaws, !NativeLaws, !External, !Containers, !ContainerLaws}
    (ms : list Predicate) `{!HasModules ms} (g : GroundingWitness) (objs : list Dictionary) :
  Forall (witnessed g) objs -> NoDup (dict_commitment <$> objs) ->
  exists b, TxBuilder_new ms objs g = Ok b
    /\ inputs_set b = list_to_set (dict_commitment <$> objs)
    /\ proven "InputsGrounded" [set_commitment (inputs_set b); created_root (gw_state_header g)]
         (st_inputs_grounded b)
    /\ chain b = start_chain (inputs_set b).
Proof.
  intros Hw Hnd. destruct (TxBuilder_new_ok ms g objs Hw Hnd) as (b & Hb & Hok & Hi & Hh & _ & _ & Hc).
  exists b. split; [done|]. rewrite <-Hi, <-Hh. pose proof Hok as [Hs Hg Hset _ _]. by rewrite Hc.
Qed.

(** C29: minting succeeds. From a new builder without inputs, opening an action,
    inserting an object that has a type and no identity yet, attaching a true
    guard statement of its type for that object and the chain bounds of its
    action, and closing the action finalizes into a true [TxFinalized] statement
    whose created set is that object, stamped with the commitment of its initial
    state, and whose nullifier set is empty. *)
Theorem minting_succeeds `{BuilderLaws, !NativeLaws, !External, !Containers, !ContainerLaws}
    (ms : list Predicate) `{!HasModules ms} (g : GroundingWitness) (guard : Value -> Value -> Value -> Statement)
    (initial : Dictionary) (ty : Value) :
  initial !! STABLE_IDENTIFIER_FIELD = None -> initial !! "type" = Some ty ->
  let new := <[STABLE_IDENTIFIER_FIELD := dict_commitment initial]> initial in
  let before := start_chain ∅ in
  let after := event_step before EMPTY_HASH (dict_commitment new) in
  evidence (StateHeader_hash (gw_state_header g)) ty (dict_commitment new) before after
    (guard (dict_commitment new) before after) ->
  exists b b' st tx stats,
    TxBuilder_new ms [] g = Ok b /\ mint ms guard initial b = (Ok new, b')
    /\ finalize ms b' = Ok (st, tx, stats) /\ proven "TxFinalized" (tx_public tx) st
    /\ tx_created tx = {[dict_commitment new]} /\ tx_nullifiers tx = ∅.
Proof.
  intros Hs Ht new before after Hg. destruct (mint_run ms guard initial ty g Hs Ht Hg) as (b & b' & st & stats & Hb & Hm & _ & Hf & Hp).
  exists b, b', st. eexists. exists stats. split; [done|]. split; [done|]. split; [exact Hf|]. done.
Qed.

(** Rekeying. Inside a scope, rekeying an object that has a key, a type and
    an identity records one mutation to the same object with only the key
    replaced and proves [Rekey] for its chain bounds; otherwise it panics. *)
Theorem rekey_replaces_key `{BuilderLaws, !NativeLaws, !External, !Containers, !ContainerLaws}
    (ms : list Predicate) `{!HasModules ms} (old : Dictionary) (new_key : Value) (b : TxBuilder) :
  builder_ok b ->
  match rekey ms old new_key b with
  | (Ok (new, st, _), b') =>
      builder_ok b' /\ new = <["key" := new_key]> old
      /\ exists ty, old !! "type" = Some ty
           /\ proven "Rekey" [dict_commitment new; chain b; chain b'; ty] st
  | (Err e, _) =>
      (exists m, e = Panic m)
      /\ (action_stack b = [] \/ old !! "key" = None \/ old !! "type" = None
          \/ old !! STABLE_IDENTIFIER_FIELD = None)
  end.
Proof.
  intros Hok. pose proof (wp_rekey ms old new_key b Hok) as Hr. unfold wp in Hr.
  destruct (rekey ms old new_key b) as [[[[new st] h]|e] b']; [done|].
  destruct Hr as (m & -> & Hc). split; [by eexists|]. destruct Hc as [?|[?|Hn]]; [by left|by right; left|].
  unfold same_object in Hn. destruct (old !! "type"), (old !! STABLE_IDENTIFIER_FIELD); eauto 10.
  exfalso. apply Hn. eauto 10.
Qed.

(** ** Witnesses *)

Module Witnesses.
Import World Toy ToyPod.

Lemma finalized_transactions_legal_witness :
  exists header tx_final created inputs bodies f,
    finalized header tx_final (set_commitment ∅) created inputs bodies f
    /\ length (all_produced (EAction <$> bodies)) = 1%nat.
Proof.
  destruct (minted_at header) as (b & b' & st & stats & _ & _ & _ & _ & _ & Ht).
  destruct (@finalized_transactions_legal Toy.toy_pod2 ToyPod.toy_hash world_external world_hashes
    ToyPod.toy_natives ToyPod.toy_native_laws _ _ _ _ Ht) as (inputs & bodies & f & nuls & Hfin & Hcr & Hno & _).
  do 3 eexists. exists inputs, bodies, f. split; [exact Hfin|].
  pose proof (fin_created _ _ _ _ _ _ _ Hfin) as Hc. apply set_commitment_inj in Hc.
  rewrite <-(size_list_to_set (C:=gset Value)) by exact Hno. rewrite <-Hcr, <-Hc.
  exact (size_singleton (C:=gset Value) _).
Defined.


(** A new builder with an open scope. *)
Lemma opened :
  exists b b', TxBuilder_new modules [] witness = Ok b /\ call modules Begin b = (Ok tt, b')
    /\ builder_ok b' /\ action_stack b' <> [].
Proof.
  destruct (TxBuilder_new_ok modules witness [] ltac:(constructor) ltac:(constructor))
    as (b & Hb & Hok & _ & _ & _ & _ & _).
  exists b. eexists. split; [done|]. split; [reflexivity|]. split; [exact (keeps_begin_action _ Hok)|].
  by destruct b.
Qed.

Lemma builder_calls_traced_witness :
  exists b b', TxBuilder_new modules [] witness = Ok b
    /\ calls modules [Begin; Insert stone] b = (Ok tt, b') /\ builder_ok b'.
Proof.
  destruct opened as (b & b1 & Hb & H1 & Hok & Hst).
  pose proof (wp_insert modules stone b1 Hok) as Hi. unfold wp in Hi.
  destruct (insert modules stone b1) as [[[[new st] h]|e] b2] eqn:Ei.
  2: { exfalso. destruct Hi as (m & _ & [?|[[? ?]|?]]); done. }
  assert (Hc : calls modules [Begin; Insert stone] b = (Ok tt, b2)).
  { unfold calls, efold, ebind. rewrite H1. cbn [call]. unfold ebind. by rewrite Ei. }
  exists b, b2. split; [done|]. split; [done|].
  exact (@builder_calls_traced toy_pod2 toy_natives toy_hash toy_builder toy_builder_laws toy_native_laws
    world_external toy_containers toy_container_laws modules world_modules witness [] _ b b2 tt
    (Forall_nil_2 _) (NoDup_nil_2) Hb Hc).
Defined.

Lemma finalize_equals_interpretation_witness :
  exists b st tx stats, finalize modules b = Ok (st, tx, stats) /\ rmap fst (finalize modules b) = plain_finalize b
    /\ proven "TxFinalized" (tx_public tx) st /\ size (tx_created tx) = 1%nat.
Proof.
  destruct (minted_at header) as (b & b' & st & stats & _ & _ & Hr & Hf & _).
  destruct (@finalize_equals_interpretation toy_pod2 toy_natives toy_hash toy_builder toy_builder_laws toy_native_laws
    world_external toy_containers toy_container_laws modules world_modules b' Hr) as (Heq & _ & Hv).
  exists b', st. do 2 eexists. split; [exact Hf|]. split; [exact Heq|]. split; [by apply (Hv _ _ _ Hf)|].
  exact (size_singleton (C:=gset Value) _).
Defined.

(** Two grounded stones. *)
Definition stone2 : Dictionary := <["key" := MkHash 6 0 0 0]> stone.
Definition stones : list Dictionary := [stone; stone2].
Definition stones_witness : GroundingWitness := {|
  gw_state_header := StateHeader_new 1 2 EMPTY_HASH (array_commitment (dict_commitment <$> stones)) EMPTY_HASH EMPTY_HASH;
  gw_created_proofs := <[dict_commitment stone := (0%Z, tt)]> {[dict_commitment stone2 := (1%Z, tt)]};
|}.

Lemma stones_differ : dict_commitment stone <> dict_commitment stone2.
Proof. intros E%dict_commitment_inj. apply (f_equal (lookup "key")) in E. by vm_compute in E. Qed.

Lemma grounding_succeeds_witness :
  exists b, TxBuilder_new modules stones stones_witness = Ok b
    /\ inputs_set b = list_to_set (dict_commitment <$> stones).
Proof.
  destruct (@grounding_succeeds toy_pod2 toy_natives toy_hash toy_builder toy_builder_laws toy_native_laws
    world_external toy_containers toy_container_laws modules world_modules stones_witness stones)
    as (b & Hb & Hs & _).
  - repeat constructor.
    + exists 0%Z, tt. split; [apply lookup_insert_eq|].
      apply (proj2 (entry_of_array (dict_commitment <$> stones) _ _)). by exists 0%nat.
    + exists 1%Z, tt. split; [|apply (proj2 (entry_of_array (dict_commitment <$> stones) _ _)); by exists 1%nat].
      cbn [gw_created_proofs stones_witness]. rewrite lookup_insert_ne by exact stones_differ. apply lookup_insert_eq.
  - apply NoDup_cons. split; [|apply NoDup_singleton]. rewrite list_elem_of_singleton. exact stones_differ.
  - exists b. split; [exact Hb|exact Hs].
Defined.

Lemma minting_succeeds_witness :
  exists b b' st tx stats new,
    TxBuilder_new modules [] witness = Ok b /\ mint modules accept stone b = (Ok new, b')
    /\ finalize modules b' = Ok (st, tx, stats) /\ tx_nullifiers tx = ∅.
Proof.
  destruct (@minting_succeeds toy_pod2 toy_natives toy_hash toy_builder toy_builder_laws toy_native_laws
    world_external toy_containers toy_container_laws modules world_modules witness accept stone type
    eq_refl eq_refl (accept_evidence header _ _ _)) as (b & b' & st & tx & stats & ? & ? & ? & _ & _ & ?).
  exists b, b', st, tx, stats. by eexists.
Defined.

Lemma rekey_replaces_key_witness :
  let old := <[STABLE_IDENTIFIER_FIELD := EMPTY_HASH]> stone in
  exists b b' st h, rekey modules old (MkHash 7 0 0 0) b = (Ok (<["key" := MkHash 7 0 0 0]> old, st, h), b').
Proof.
  intros old. destruct opened as (b & b1 & _ & _ & Hok & Hst).
  pose proof (@rekey_replaces_key toy_pod2 toy_natives toy_hash toy_builder toy_builder_laws toy_native_laws
    world_external toy_containers toy_container_laws modules world_modules old (MkHash 7 0 0 0) b1 Hok) as Hr.
  exists b1. destruct (rekey modules old (MkHash 7 0 0 0) b1) as [[[[new st] h]|e] b'].
  - destruct Hr as (_ & -> & _). by exists b', st, h.
  - exfalso. destruct Hr as (_ & [?|[?|[?|?]]]); done.
Defined.
End Witnesses.

End TxTheorems.
