(* ===== verification/ContainerDb.v ===== *)
(** * The Merkle container store (services/synchronizer/src/container_db.rs)

    pod2's persistent [Array] and [Set] live in a content-addressed node store.
    [MerkleStore] is what the synchronizer calls of them; [MerkleModel] gives
    the meaning of a handle (the map or set it reads as) and the laws the
    synchronizer relies on. [fault] singles out the failures of the store
    itself: an operation on a well-formed handle fails for no other reason.
    The operations of [ContainerDb] are defined on top and specified against
    the model. *)

From S2P Require Import Prelude Pod2 Models DonState.

(** ** The store interface *)

Class MerkleStore : Type := {
  Db : Type;
  MArray : Type;
  MSet : Type;
  MerkleProof : Type;
  array_from_db : Hash -> Db -> Result MArray;
  array_get : MArray -> Z -> Db -> Result (option Value);
  array_prove : MArray -> Z -> Db -> Result (Value * MerkleProof);
  array_insert : MArray -> Z -> Value -> eff Db MArray;
  array_root : MArray -> Hash;
  set_from_db : Hash -> Db -> Result MSet;
  set_contains : MSet -> Value -> Db -> Result bool;
  set_insert : MSet -> Value -> eff Db MSet;
  set_root : MSet -> Hash;
}.

Class MerkleModel `{MerkleStore} : Type := {
  (** Nodes are only ever added. *)
  db_le : Db -> Db -> Prop;
  array_commit : gmap Z Value -> Hash;
  set_commit : gset Value -> Hash;
  array_stored : Db -> gmap Z Value -> Prop;
  set_stored : Db -> gset Value -> Prop;
  (** The I/O faults of the store. *)
  fault : failure -> Prop;
  (** What a handle reads as. *)
  array_rep : Db -> MArray -> gmap Z Value -> Prop;
  set_rep : Db -> MSet -> gset Value -> Prop;
  db_le_preorder :: PreOrder db_le;
  array_stored_empty d : array_stored d ∅;
  set_stored_empty d : set_stored d ∅;
  array_stored_mono d d' m : db_le d d' -> array_stored d m -> array_stored d' m;
  set_stored_mono d d' s : db_le d d' -> set_stored d s -> set_stored d' s;
  array_rep_mono d d' a m : db_le d d' -> array_rep d a m -> array_rep d' a m;
  set_rep_mono d d' a s : db_le d d' -> set_rep d a s -> set_rep d' a s;
  array_commit_empty : array_commit ∅ = EMPTY_HASH;
  set_commit_empty : set_commit ∅ = EMPTY_HASH;
  array_rep_stored d a m : array_rep d a m -> array_stored d m;
  set_rep_stored d a s : set_rep d a s -> set_stored d s;
  array_rep_root d a m : array_rep d a m -> array_root a = array_commit m;
  set_rep_root d a s : set_rep d a s -> set_root a = set_commit s;
  (** Opening a stored root gives back what was stored under it. *)
  array_open d m a :
    array_stored d m -> array_from_db (array_commit m) d = Ok a -> array_rep d a m;
  set_open d s a :
    set_stored d s -> set_from_db (set_commit s) d = Ok a -> set_rep d a s;
  array_open_fault d m e :
    array_stored d m -> array_from_db (array_commit m) d = Err e -> fault e;
  set_open_fault d s e :
    set_stored d s -> set_from_db (set_commit s) d = Err e -> fault e;
  array_get_fault d a m i e : array_rep d a m -> array_get a i d = Err e -> fault e;
  array_prove_fails d a m i e :
    array_rep d a m -> array_prove a i d = Err e ->
    (m !! i = None /\ exists msg, e = Fail msg) \/ fault e;
  set_contains_fault d a s v e : set_rep d a s -> set_contains a v d = Err e -> fault e;
  array_get_rep d a m i v : array_rep d a m -> array_get a i d = Ok v -> v = m !! i;
  array_prove_rep d a m i v pf :
    array_rep d a m -> array_prove a i d = Ok (v, pf) -> m !! i = Some v;
  set_contains_rep d a s v b : set_rep d a s -> set_contains a v d = Ok b -> b = bool_decide (v ∈ s);
  array_insert_rep d a m i v :
    array_rep d a m -> m !! i = None ->
    wp (array_insert a i v) (fun a' d' => array_rep d' a' (<[i:=v]> m) /\ db_le d d')
      (fun e d' => db_le d d' /\ fault e) d;
  set_insert_rep d a s v :
    set_rep d a s -> v ∉ s ->
    wp (set_insert a v) (fun a' d' => set_rep d' a' ({[v]} ∪ s) /\ db_le d d')
      (fun e d' => db_le d d' /\ fault e) d;
}.

(** The store can fail. *)
Definition faulty `{MerkleModel} : Prop := exists e, fault e.

Module ContainerDb.
Import DonState.
Local Open Scope Z_scope.

(** ** Definitions *)

(** *** Keys: one prefix per table *)
Section Keys.
Context `{Pod2}.
Definition node_key (h : Hash) : list byte := [x6e; x2f] ++ raw_to_bytes h.
Definition value_key (raw : Hash) : list byte := [x76; x2f] ++ raw_to_bytes raw.
Definition kind_key (root : Hash) : list byte := [x6b; x2f] ++ raw_to_bytes root.
End Keys.

Section Operations.
Context `{MerkleStore}.

Definition created_array_holds (created : MArray) (index : Z) (commitment : Hash) (d : Db) :
    Result bool :=
  let? leaf := array_get created (as_u64 index) d in
  Ok (bool_decide (leaf = Some commitment)).

Definition open_created (root : Hash) (d : Db) : Result MArray := array_from_db root d.
Definition open_nullifiers (root : Hash) (d : Db) : Result MSet := set_from_db root d.
Definition open_next_state_history (root : Hash) (d : Db) : Result MArray := array_from_db root d.

Definition prove_created_for (rs : StateRoots) (obj_commitments : list Hash)
    (indices : gmap Hash Z) (d : Db) : Result (list (option (Z * MerkleProof))) :=
  let? created := open_created (r_created rs) d in
  try_map (fun commitment =>
    match indices !! commitment with
    | None => Ok None
    | Some index =>
        match array_prove created (as_u64 index) d with
        | Ok (value, proof) =>
            if decide (value = commitment) then Ok (Some (index, proof)) else Ok None
        | Err (Fail _) => Ok None
        | Err (Panic m) => Err (Panic m)
        end
    end) obj_commitments.

Definition created_exists_for (rs : StateRoots) (obj_commitments : list Hash)
    (indices : gmap Hash Z) (d : Db) : Result (list bool) :=
  let? created := open_created (r_created rs) d in
  try_map (fun commitment =>
    match indices !! commitment with
    | None => Ok false
    | Some index => created_array_holds created index commitment d
    end) obj_commitments.

Definition nullifier_exists_batch (rs : StateRoots) (ns : list Hash) (d : Db) :
    Result (list bool) :=
  let? nullifier_set := open_nullifiers (r_nullifiers rs) d in
  try_map (fun h => set_contains nullifier_set h d) ns.
End Operations.

(** ** Lemmas *)

(** A dense array holding the entries of a list. *)
Abbreviation arr := (map_seqZ 0 (M:=gmap Z Value)).

Lemma lookup_arr (l : list Value) i v : arr l !! i = Some v <-> 0 <= i /\ l !! Z.to_nat i = Some v.
Proof. rewrite lookup_map_seqZ_Some, Z.sub_0_r. done. Qed.

Lemma lookup_arr_nat (l : list Value) k : arr l !! Z.of_nat k = l !! k.
Proof.
  apply option_eq. intros v. rewrite lookup_arr, Nat2Z.id. naive_solver lia.
Qed.

Lemma arr_snoc (l : list Value) v : <[Z.of_nat (length l):=v]> (arr l) = arr (l ++ [v]).
Proof. by rewrite map_seqZ_snoc, Z.add_0_l. Qed.

Lemma arr_fresh (l : list Value) : arr l !! Z.of_nat (length l) = None.
Proof. rewrite lookup_arr_nat. by apply lookup_ge_None_2. Qed.

Section OperationLemmas.
Context `{MerkleModel}.

Lemma created_array_holds_spec d a l index commitment b :
  array_rep d a (arr l) -> created_array_holds a index commitment d = Ok b ->
  b = bool_decide (l !! Z.to_nat (as_u64 index) = Some commitment).
Proof.
  intros Hr. unfold created_array_holds. intros (leaf & Hg & [= <-])%rbind_Ok.
  apply (array_get_rep _ _ _ _ _ Hr) in Hg as ->. apply bool_decide_ext.
  rewrite lookup_arr. pose proof (Z.mod_pos_bound index (2 ^ 64) ltac:(lia)).
  unfold as_u64, wrapu. naive_solver lia.
Qed.

Lemma created_array_holds_fault d a l index commitment e :
  array_rep d a (arr l) -> created_array_holds a index commitment d = Err e -> fault e.
Proof.
  intros Hr. unfold created_array_holds. intros [Hg|(? & _ & ?)]%rbind_Err; [|done].
  by eapply array_get_fault.
Qed.
End OperationLemmas.

End ContainerDb.

(** ** A concrete store: content-addressed maps *)
Module ToyStore.
Import Toy ContainerDb.

(** A dense array commits as the in-memory array does. *)
Definition array_list (m : gmap Z Value) : list Value := omap (fun i => m !! i) (seqZ 0 (Z.of_nat (size m))).
Definition root_of_array (m : gmap Z Value) : Hash :=
  if decide (arr (array_list m) = m) then array_commitment (array_list m) else MkHash (Zpos (encode m)) 0 0 5.
Definition root_of_set (s : gset Value) : Hash :=
  if decide (s = ∅) then EMPTY_HASH else hash_of s.

Record store : Type := MkStore {
  arrays : gmap Hash (gmap Z Value);
  sets : gmap Hash (gset Value);
}.

Definition array_at (d : store) (m : gmap Z Value) : Prop :=
  m = ∅ \/ arrays d !! root_of_array m = Some m.
Definition set_at (d : store) (s : gset Value) : Prop :=
  s = ∅ \/ sets d !! root_of_set s = Some s.

#[export] Instance toy_store : MerkleStore := {|
  Db := store;
  MArray := gmap Z Value;
  MSet := gset Value;
  MerkleProof := unit;
  array_from_db root d :=
    if decide (root = EMPTY_HASH) then Ok ∅ else ok_or (arrays d !! root) "missing node";
  array_get a i _ := Ok (a !! i);
  array_prove a i _ := let? v := ok_or (a !! i) "no such index" in Ok (v, tt);
  array_insert a i v d :=
    let a' := <[i:=v]> a in (Ok a', MkStore (<[root_of_array a':=a']> (arrays d)) (sets d));
  array_root := root_of_array;
  set_from_db root d :=
    if decide (root = EMPTY_HASH) then Ok ∅ else ok_or (sets d !! root) "missing node";
  set_contains s v _ := Ok (bool_decide (v ∈ s));
  set_insert s v d :=
    let s' := {[v]} ∪ s in (Ok s', MkStore (arrays d) (<[root_of_set s':=s']> (sets d)));
  set_root := root_of_set;
|}.

Lemma root_of_array_inj m m' : root_of_array m = root_of_array m' -> m = m'.
Proof.
  unfold root_of_array. do 2 case_decide; simpl.
  - intros Heq%(commit_of_inj 1 []). congruence.
  - unfold commit_of. case_decide; [done|]. by intros [= _ ?].
  - unfold commit_of. case_decide; [done|]. by intros [= _ ?].
  - intros [= Heq]. by apply (inj encode).
Qed.

Lemma size_arr (l : list Value) : size (arr l) = length l.
Proof.
  induction l as [|v l IH] using rev_ind; [done|].
  rewrite <-arr_snoc, map_size_insert_None by apply arr_fresh. rewrite IH, length_app. simpl. lia.
Qed.

Lemma array_list_arr (l : list Value) : array_list (arr l) = l.
Proof.
  unfold array_list. rewrite size_arr. induction l as [|v l IH] using rev_ind; [done|].
  rewrite length_app, Nat2Z.inj_add. simpl. rewrite seqZ_app by lia. rewrite omap_app. f_equal.
  - etrans; [|exact IH]. apply list_omap_ext. apply Forall2_same_length_lookup_2; [done|].
    intros i x y Hx Hy. simplify_eq. apply lookup_seqZ in Hx as [-> Hi]. rewrite <-arr_snoc.
    rewrite lookup_insert_ne by lia. done.
  - simpl. replace (0 + Z.of_nat (length l))%Z with (Z.of_nat (length l)) by lia.
    rewrite <-arr_snoc. by rewrite lookup_insert_eq.
Qed.

Lemma root_of_arr (l : list Value) : root_of_array (arr l) = array_commitment l.
Proof. unfold root_of_array. by rewrite array_list_arr, decide_True by done. Qed.

Lemma root_of_array_empty : root_of_array ∅ = EMPTY_HASH.
Proof. exact (root_of_arr []). Qed.

Lemma root_of_set_inj s s' : root_of_set s = root_of_set s' -> s = s'.
Proof.
  unfold root_of_set. do 2 case_decide; subst; try done. intros Heq. by apply (inj hash_of).
Qed.

Definition store_le (d d' : store) : Prop :=
  (forall m, array_at d m -> array_at d' m) /\ (forall s, set_at d s -> set_at d' s).

Lemma insert_array_le d m :
  store_le d (MkStore (<[root_of_array m:=m]> (arrays d)) (sets d)).
Proof.
  split; [|done]. intros m' [->|Hm']; [by left|]. right. simpl.
  destruct (decide (root_of_array m = root_of_array m')) as [Heq|].
  - rewrite Heq, lookup_insert_eq. by apply root_of_array_inj in Heq as ->.
  - by rewrite lookup_insert_ne.
Qed.

Lemma insert_set_le d s :
  store_le d (MkStore (arrays d) (<[root_of_set s:=s]> (sets d))).
Proof.
  split; [done|]. intros s' [->|Hs']; [by left|]. right. simpl.
  destruct (decide (root_of_set s = root_of_set s')) as [Heq|].
  - rewrite Heq, lookup_insert_eq. by apply root_of_set_inj in Heq as ->.
  - by rewrite lookup_insert_ne.
Qed.

Lemma open_array_at d m a :
  array_at d m -> array_from_db (root_of_array m) d = Ok a -> a = m.
Proof.
  intros Hm. simpl. case_decide as He.
  - intros [= <-]. by apply (root_of_array_inj ∅ m).
  - destruct Hm as [->|Hm]; [done|]. rewrite Hm. by intros [= <-].
Qed.

Lemma open_set_at d s a :
  set_at d s -> set_from_db (root_of_set s) d = Ok a -> a = s.
Proof.
  intros Hs. simpl. case_decide as He.
  - intros [= <-]. by apply (root_of_set_inj ∅ s).
  - destruct Hs as [->|Hs]; [done|]. rewrite Hs. by intros [= <-].
Qed.

#[export] Instance toy_model : MerkleModel.
Proof.
  refine {| db_le := store_le; array_commit := root_of_array; set_commit := root_of_set;
            array_stored := array_at; set_stored := set_at; fault _ := False;
            array_rep d a m := a = m /\ array_at d m; set_rep d a s := a = s /\ set_at d s |};
    simpl; try done.
  - split; [by split|]. intros ??? [] []. split; auto.
  - by left.
  - by left.
  - intros ??? []; auto.
  - intros ??? []; auto.
  - intros ???? [] []; auto.
  - intros ???? [] []; auto.
  - by intros ??? [].
  - by intros ??? [].
  - by intros ??? [-> _].
  - by intros ??? [-> _].
  - intros d m a Hm Ha. split; [by eapply open_array_at|done].
  - intros d s a Hs Ha. split; [by eapply open_set_at|done].
  - intros d m e [->|Hm]; case_decide; try done. by rewrite Hm.
  - intros d s e [->|Hs]; case_decide; try done. by rewrite Hs.
  - intros d a m i e [-> _]. destruct (m !! i); simpl; [done|]. intros [= <-]. left. eauto.
  - by intros d a m i v [-> _] [= <-].
  - intros d a m i v pf [-> _]. destruct (m !! i); simpl; naive_solver.
  - by intros d a s v b [-> _] [= <-].
  - intros d a m i v [-> _] Hi. split; [|apply insert_array_le]. split; [done|].
    right. apply lookup_insert_eq.
  - intros d a s v [-> _] Hi. split; [|apply insert_set_le]. split; [done|].
    right. apply lookup_insert_eq.
Defined.

Lemma toy_not_faulty : ~ faulty.
Proof. by intros [e He]. Qed.

End ToyStore.
