(* ===== verification/StateMachine.v ===== *)
(** * Slot derivation (services/synchronizer/src/state_machine.rs)

    The state machine parses the blobs of a slot, checks each payload against
    the state reached so far and appends what the accepted ones create and
    spend. [Ledger] is the abstract state it maintains (created commitments in
    order, spent nullifiers, history of state roots); the refinement lemmas show
    that the Merkle-backed derivation implements the ledger's rules, including
    what is recorded for every blob. *)

From S2P Require Import Prelude Pod2 Models Payload DonState ContainerDb.

Module StateMachine.
Import DonState ContainerDb.
Local Open Scope Z_scope.

(** ** Definitions *)

(** The [BlobParser] trait of libs/payload. *)
Class BlobParser `{Plonky2} : Type :=
  parse_blob : list byte -> Result (option Payload.Payload).

Definition ProofParser_BlobParser `{Plonky2, Pod2} (self : Payload.ProofParser) : BlobParser :=
  Payload.parse_blob self.

Record BlobStatus : Type := { tx_final : option Hash; error : option string }.
Definition BlobStatus_default : BlobStatus := {| tx_final := None; error := None |}.

Record TxStatus : Type := { tx_hash : list byte; blob_statuses : list BlobStatus }.

Record TargetTx (T : Type) : Type := { blobs : list (option (Z * T)); status : TxStatus }.
Arguments blobs {T} _.
Arguments status {T} _.

Section Machine.
Context `{Plonky2, Pod2, MerkleStore, !BlobParser}.

Record WorkingState : Type := {
  w_created_count : Z;
  w_nullifier_count : Z;
  w_created : MArray;
  w_nullifiers : MSet;
  w_next_state_history : MArray;
  w_recent_state_roots : gmap Hash Z;
  w_created_added : gmap Hash Z;
}.

Record DerivedSlot : Type := { state : DonState; created_added : gmap Hash Z }.

(** One blob of [parse_blobs]: what is kept of it and its status. *)
Definition parse_one (blob : option (Z * list byte)) (st : BlobStatus) :
    Result (option (Z * Payload.Payload) * BlobStatus) :=
  match blob with
  | None => Ok (None, st)
  | Some (blob_index, bytes) =>
      match parse_blob bytes with
      | Ok (Some payload) =>
          Ok (Some (blob_index, payload),
              {| tx_final := Some (Payload.tx_final payload); error := error st |})
      | Ok None =>
          Ok (None, {| tx_final := tx_final st;
                       error := Some "Blob did not contain a valid TxFinalized proof" |})
      | Err (Fail err) =>
          Ok (None, {| tx_final := tx_final st;
                       error := Some ("Failed to parse/verify TxFinalized payload: " +:+ err) |})
      | Err (Panic m) => Err (Panic m)
      end
  end.

(** The loop over [blobs.into_iter().zip(&mut status.blobs)]. *)
Fixpoint parse_zip (bs : list (option (Z * list byte))) (sts : list BlobStatus) :
    Result (list (option (Z * Payload.Payload)) * list BlobStatus) :=
  match bs, sts with
  | b :: bs', st :: sts' =>
      let? (kept, st1) := parse_one b st in
      let? (keeps, sts1) := parse_zip bs' sts' in
      Ok (kept :: keeps, st1 :: sts1)
  | _, _ => Ok ([], sts)
  end.

Definition parse_blobs (target_txs : list (TargetTx (list byte))) :
    Result (list (TargetTx Payload.Payload)) :=
  try_map (fun tx =>
    let? (parsed, sts) := parse_zip (blobs tx) (blob_statuses (status tx)) in
    Ok {| blobs := parsed;
          status := {| tx_hash := tx_hash (status tx); blob_statuses := sts |} |}) target_txs.

Definition already_created (w : WorkingState) (prior_indices : gmap Hash Z) (obj : Hash) (d : Db) :
    Result bool :=
  match w_created_added w !! obj with
  | Some _ => Ok true
  | None =>
      match prior_indices !! obj with
      | Some index => created_array_holds (w_created w) index obj d
      | None => Ok false
      end
  end.

(** The pre-check loops: [Ok (Some reason)] is an early return. *)
Fixpoint check_created (w : WorkingState) (prior_indices : gmap Hash Z) (seen : gset Hash)
    (objs : list Hash) (d : Db) : Result (option string) :=
  match objs with
  | [] => Ok None
  | obj :: objs' =>
      if decide (obj ∈ seen) then Ok (Some "Duplicate created object within payload")
      else
        let? ex := already_created w prior_indices obj d in
        if ex then Ok (Some "Created object already exists (creation collision)")
        else check_created w prior_indices ({[obj]} ∪ seen) objs' d
  end.

Fixpoint check_nullifiers (w : WorkingState) (seen : gset Hash) (ns : list Hash) (d : Db) :
    Result (option string) :=
  match ns with
  | [] => Ok None
  | n :: ns' =>
      if decide (n ∈ seen) then Ok (Some "Duplicate nullifier within payload")
      else
        let? ex := set_contains (w_nullifiers w) n d in
        if ex then Ok (Some "Duplicate nullifier")
        else check_nullifiers w ({[n]} ∪ seen) ns' d
  end.

(** The bodies of the two mutation loops. *)
Definition append_created (w : WorkingState) (obj : Hash) : eff Db WorkingState :=
  let index := w_created_count w in
  let! created := array_insert (w_created w) index obj in
  eret {| w_created_count := as_u64 (w_created_count w + 1);
          w_nullifier_count := w_nullifier_count w;
          w_created := created;
          w_nullifiers := w_nullifiers w;
          w_next_state_history := w_next_state_history w;
          w_recent_state_roots := w_recent_state_roots w;
          w_created_added := <[obj := as_i64 index]> (w_created_added w) |}.

Definition insert_nullifier (w : WorkingState) (n : Hash) : eff Db WorkingState :=
  let! nullifiers := set_insert (w_nullifiers w) n in
  eret {| w_created_count := w_created_count w;
          w_nullifier_count := as_u64 (w_nullifier_count w + 1);
          w_created := w_created w;
          w_nullifiers := nullifiers;
          w_next_state_history := w_next_state_history w;
          w_recent_state_roots := w_recent_state_roots w;
          w_created_added := w_created_added w |}.

Definition apply_payload (w : WorkingState) (payload : Payload.Payload)
    (prior_indices : gmap Hash Z) (bn : Z) : eff Db (WorkingState * option string) :=
  match w_recent_state_roots w !! Payload.state_root payload with
  | None => eret (w, Some "Blob proof state_root not found in recent state root history")
  | Some state_root_block =>
      if grounding_aged_out (as_i64 bn) state_root_block then
        eret (w, Some ("Blob proof state_root is too old: " +:+ pretty (as_i64 bn - state_root_block)
                 +:+ " blocks (state root at block " +:+ pretty state_root_block +:+ ")"))
      else
        let! rejected := eread (check_created w prior_indices ∅ (Payload.created payload)) in
        match rejected with
        | Some reason => eret (w, Some reason)
        | None =>
            let! rejected := eread (check_nullifiers w ∅ (Payload.nullifiers payload)) in
            match rejected with
            | Some reason => eret (w, Some reason)
            | None =>
                let! w := efold append_created w (Payload.created payload) in
                let! w := efold insert_nullifier w (Payload.nullifiers payload) in
                eret (w, None)
            end
        end
  end.

(** [anyhow::Context::with_context] on a store operation. *)
Definition econtext {S A} (ctx : string) (c : eff S A) : eff S A :=
  fun s => match c s with
           | (Err (Fail m), s') => (Err (Fail (ctx +:+ ": " +:+ m)), s')
           | r => r
           end.

Fixpoint apply_blobs (w : WorkingState) (prior_indices : gmap Hash Z) (slot bn : Z)
    (bs : list (option (Z * Payload.Payload))) (sts : list BlobStatus) :
    eff Db (WorkingState * list BlobStatus) :=
  match bs, sts with
  | b :: bs', st :: sts' =>
      match b with
      | None =>
          let! (w, sts1) := apply_blobs w prior_indices slot bn bs' sts' in
          eret (w, st :: sts1)
      | Some (blob_index, payload) =>
          let! (w, rejection) :=
            econtext ("applying blob at slot " +:+ pretty slot +:+ ", blob_index " +:+ pretty blob_index)
              (apply_payload w payload prior_indices bn) in
          let st1 := match rejection with
                     | Some e => {| tx_final := tx_final st; error := Some e |}
                     | None => st
                     end in
          let! (w, sts1) := apply_blobs w prior_indices slot bn bs' sts' in
          eret (w, st1 :: sts1)
      end
  | _, _ => eret (w, sts)
  end.

Fixpoint apply_txs (w : WorkingState) (prior_indices : gmap Hash Z) (slot bn : Z)
    (txs : list (TargetTx Payload.Payload)) :
    eff Db (WorkingState * list (TargetTx Payload.Payload)) :=
  match txs with
  | [] => eret (w, [])
  | tx :: txs' =>
      let! (w, sts) := apply_blobs w prior_indices slot bn (blobs tx) (blob_statuses (status tx)) in
      let tx1 := {| blobs := blobs tx;
                    status := {| tx_hash := tx_hash (status tx); blob_statuses := sts |} |} in
      let! (w, txs1) := apply_txs w prior_indices slot bn txs' in
      eret (w, tx1 :: txs1)
  end.

Definition base_roots_of (base : option DonState) : StateRoots :=
  match base with Some s => roots s | None => StateRoots_empty end.
Definition base_meta (f : StateMetadata -> Z) (base : option DonState) : Z :=
  match base with Some s => f (metadata s) | None => 0 end.

Definition derive_slot_state (base_state : option DonState) (recent_state_roots : list (Hash * Z))
    (slot : Z) (block : ExecutionBlock) (target_txs : list (TargetTx Payload.Payload))
    (prior_indices : gmap Hash Z) : eff Db (DerivedSlot * list (TargetTx Payload.Payload)) :=
  let base_roots := base_roots_of base_state in
  let base_state_root_count := base_meta state_root_count base_state in
  let! created := eread (open_created (r_created base_roots)) in
  let! nullifiers := eread (open_nullifiers (r_nullifiers base_roots)) in
  let! next_state_history := eread (open_next_state_history (r_next_state_history base_roots)) in
  let working :=
    {| w_created_count := base_meta created_count base_state;
       w_nullifier_count := base_meta nullifier_count base_state;
       w_created := created; w_nullifiers := nullifiers;
       w_next_state_history := next_state_history;
       (* [collect] into a [HashMap]: the last entry of a key wins *)
       w_recent_state_roots := list_to_map (reverse recent_state_roots);
       w_created_added := ∅ |} in
  let! (working, txs) := apply_txs working prior_indices slot (number block) target_txs in
  let prior_state_history_root := r_next_state_history base_roots in
  let new_state_root :=
    StateHeader_hash (state_header block (array_root (w_created working))
      (set_root (w_nullifiers working)) prior_state_history_root) in
  let! history := array_insert (w_next_state_history working) base_state_root_count new_state_root in
  let new_state :=
    {| roots := {| r_created := array_root (w_created working);
                   r_nullifiers := set_root (w_nullifiers working);
                   r_prior_state_history := prior_state_history_root;
                   r_next_state_history := array_root history |};
       metadata := {| state_root := new_state_root; DonState.block := block;
                      created_count := w_created_count working;
                      nullifier_count := w_nullifier_count working;
                      state_root_count := as_u64 (base_state_root_count + 1) |} |} in
  eret ({| state := new_state; created_added := w_created_added working |}, txs).
End Machine.

(** ** The ledger: what the derivation promises *)

Record Ledger : Type := MkLedger {
  l_created : list Hash;
  l_nullifiers : gset Hash;
  l_history : list Hash;
}.
Definition empty_ledger : Ledger := MkLedger [] ∅ [].

Section Spec.
Context `{Plonky2}.
Implicit Types (L : Ledger) (p : Payload.Payload) (recent : gmap Hash Z).

(** The rules a payload has to satisfy against the ledger reached so far. *)
Definition acceptable recent (bn : Z) L p : Prop :=
  (exists b, recent !! Payload.state_root p = Some b /\ grounding_aged_out (as_i64 bn) b = false)
  /\ (NoDup (Payload.created p) /\ forall h, h ∈ Payload.created p -> h ∉ l_created L)
  /\ (NoDup (Payload.nullifiers p) /\ forall n, n ∈ Payload.nullifiers p -> n ∉ l_nullifiers L).

Definition ledger_apply L p : Ledger :=
  MkLedger (l_created L ++ Payload.created p)
    (list_to_set (Payload.nullifiers p) ∪ l_nullifiers L) (l_history L).

Definition with_error (st : BlobStatus) (m : string) : BlobStatus :=
  {| tx_final := tx_final st; error := Some m |}.

(** One transaction's blobs, in order: absent ones are skipped, acceptable
    ones are applied and leave their status as it was, the others leave the
    ledger as it was and get an error. *)
Inductive blobs_run recent bn :
    Ledger -> list (option (Z * Payload.Payload)) -> list BlobStatus ->
    Ledger -> list BlobStatus -> list Payload.Payload -> Prop :=
| run_done L bs sts : bs = [] \/ sts = [] -> blobs_run recent bn L bs sts L sts []
| run_skip L L' bs st sts sts' acc :
    blobs_run recent bn L bs sts L' sts' acc ->
    blobs_run recent bn L (None :: bs) (st :: sts) L' (st :: sts') acc
| run_accept L L' i p bs st sts sts' acc :
    acceptable recent bn L p ->
    blobs_run recent bn (ledger_apply L p) bs sts L' sts' acc ->
    blobs_run recent bn L (Some (i, p) :: bs) (st :: sts) L' (st :: sts') (p :: acc)
| run_reject L L' i p bs st sts sts' m acc :
    ~ acceptable recent bn L p ->
    blobs_run recent bn L bs sts L' sts' acc ->
    blobs_run recent bn L (Some (i, p) :: bs) (st :: sts) L' (with_error st m :: sts') acc.

Inductive txs_run recent bn :
    Ledger -> list (TargetTx Payload.Payload) -> Ledger -> list (TargetTx Payload.Payload) ->
    list Payload.Payload -> Prop :=
| txs_nil L : txs_run recent bn L [] L [] []
| txs_cons L L1 L2 tx txs txs' sts acc acc' :
    blobs_run recent bn L (blobs tx) (blob_statuses (status tx)) L1 sts acc ->
    txs_run recent bn L1 txs L2 txs' acc' ->
    txs_run recent bn L (tx :: txs) L2
      ({| blobs := blobs tx;
          status := {| tx_hash := tx_hash (status tx); blob_statuses := sts |} |} :: txs')
      (acc ++ acc').

(** The payloads a list of transactions carries. *)
Definition blob_payloads (bs : list (option (Z * Payload.Payload))) : list Payload.Payload :=
  omap (fmap snd) bs.
Definition payloads_of (txs : list (TargetTx Payload.Payload)) : list Payload.Payload :=
  flat_map (fun tx => blob_payloads (blobs tx)) txs.

(** The 64-bit counters have room for everything the payloads could add. *)
Definition room L (ps : list Payload.Payload) : Prop :=
  Z.of_nat (length (l_created L)) + Z.of_nat (sum_list_with (length ∘ Payload.created) ps) < 2 ^ 63
  /\ Z.of_nat (size (l_nullifiers L)) + Z.of_nat (sum_list_with (length ∘ Payload.nullifiers) ps)
     < 2 ^ 63.
End Spec.

(** ** Representation *)

Section Refinement.
Context `{Plonky2, Pod2, MerkleModel}.
Implicit Types (L : Ledger) (p : Payload.Payload) (d : Db).

Record work_rep d (w : WorkingState) (recent : gmap Hash Z) L0 L : Prop := {
  wr_created : array_rep d (w_created w) (arr (l_created L));
  wr_nullifiers : set_rep d (w_nullifiers w) (l_nullifiers L);
  wr_history : array_rep d (w_next_state_history w) (arr (l_history L));
  wr_created_count : w_created_count w = Z.of_nat (length (l_created L));
  wr_nullifier_count : w_nullifier_count w = Z.of_nat (size (l_nullifiers L));
  wr_recent : w_recent_state_roots w = recent;
  wr_prefix : l_created L0 `prefix_of` l_created L;
  wr_nodup : NoDup (l_created L);
  wr_added h i : w_created_added w !! h = Some i <->
    exists k, l_created L !! k = Some h /\ i = Z.of_nat k /\ (length (l_created L0) <= k)%nat;
}.

(** The created index covers the base state for the commitments in question. *)
Definition index_complete (prior : gmap Hash Z) L0 (objs : list Hash) : Prop :=
  forall k h, l_created L0 !! k = Some h -> h ∈ objs -> prior !! h = Some (Z.of_nat k).

Lemma index_complete_empty prior objs : index_complete prior empty_ledger objs.
Proof. intros k h Hk. cbn in Hk. by rewrite lookup_nil in Hk. Qed.

Lemma work_rep_mono d d' w recent L0 L :
  db_le d d' -> work_rep d w recent L0 L -> work_rep d' w recent L0 L.
Proof.
  intros Hle []. split; try done; by eauto using array_rep_mono, set_rep_mono.
Qed.

Lemma already_created_spec d w recent L0 L prior objs h b :
  work_rep d w recent L0 L -> index_complete prior L0 objs -> h ∈ objs ->
  Z.of_nat (length (l_created L)) < 2 ^ 63 ->
  already_created w prior h d = Ok b -> b = bool_decide (h ∈ l_created L).
Proof.
  intros Hw Hi Hh Hroom. unfold already_created.
  destruct (w_created_added w !! h) as [i|] eqn:Ea.
  { intros [= <-]. apply (wr_added _ _ _ _ _ Hw) in Ea as (k & Hk & _).
    symmetry. apply bool_decide_eq_true. by eapply list_elem_of_lookup_2. }
  assert (Hnew : forall k, l_created L !! k = Some h -> l_created L0 !! k = Some h).
  { intros k Hk. destruct (decide (k < length (l_created L0))%nat).
    - destruct (wr_prefix _ _ _ _ _ Hw) as [tl Htl].
      by rewrite Htl, lookup_app_l in Hk by done.
    - assert (w_created_added w !! h = Some (Z.of_nat k)); [|congruence].
      apply (wr_added _ _ _ _ _ Hw). exists k. split_and!; [done..|lia]. }
  destruct (prior !! h) as [i|] eqn:Ep.
  - intros Hc. apply (created_array_holds_spec _ _ (l_created L)) in Hc; [|apply Hw].
    rewrite Hc. apply bool_decide_ext. split; [by eauto using list_elem_of_lookup_2|].
    intros (k & Hk)%list_elem_of_lookup_1. pose proof (Hi _ _ (Hnew _ Hk) Hh) as Hik.
    assert (i = Z.of_nat k) as -> by congruence.
    rewrite as_u64_id, Nat2Z.id; [done|]. apply lookup_lt_Some in Hk. lia.
  - intros [= <-]. symmetry. apply bool_decide_eq_false.
    intros (k & Hk)%list_elem_of_lookup_1. pose proof (Hi _ _ (Hnew _ Hk) Hh). congruence.
Qed.

Lemma already_created_fault d w recent L0 L prior h e :
  work_rep d w recent L0 L -> already_created w prior h d = Err e -> fault e.
Proof.
  intros Hw. unfold already_created. destruct (w_created_added w !! h); [done|].
  destruct (prior !! h); [|done]. apply (created_array_holds_fault _ _ (l_created L)), Hw.
Qed.

Lemma check_created_fault d w recent L0 L prior seen objs e :
  work_rep d w recent L0 L -> check_created w prior seen objs d = Err e -> fault e.
Proof.
  intros Hw. revert seen. induction objs as [|h objs IH]; intros seen; simpl; [done|].
  case_decide; [done|]. intros [He|([] & _ & He)]%rbind_Err; [|done|by eapply IH].
  by eapply already_created_fault.
Qed.

Lemma check_nullifiers_fault d w recent L0 L seen ns e :
  work_rep d w recent L0 L -> check_nullifiers w seen ns d = Err e -> fault e.
Proof.
  intros Hw. revert seen. induction ns as [|n ns IH]; intros seen; simpl; [done|].
  case_decide; [done|]. intros [He|([] & _ & He)]%rbind_Err; [|done|by eapply IH].
  by eapply set_contains_fault; [apply Hw|].
Qed.

(** The created pre-check decides freshness of the whole list. *)
Lemma check_created_spec d w recent L0 L prior seen objs r :
  work_rep d w recent L0 L -> index_complete prior L0 objs ->
  Z.of_nat (length (l_created L)) < 2 ^ 63 ->
  check_created w prior seen objs d = Ok r ->
  r = None <-> NoDup objs /\ forall h, h ∈ objs -> h ∉ l_created L /\ h ∉ seen.
Proof.
  intros Hw Hi Hroom. revert seen Hi. induction objs as [|h objs IH]; intros seen Hi; simpl.
  { intros [= <-]. split; [|done]. split; [constructor|]. intros ? []%not_elem_of_nil. }
  case_decide as Hs.
  { intros [= <-]. split; [done|]. intros [_ Hf]. destruct (Hf h); set_solver. }
  intros (ex & He & Hr)%rbind_Ok.
  eapply already_created_spec in He; [|done..|set_solver|done]. subst ex.
  case_bool_decide as Hin.
  { injection Hr as <-. split; [done|]. intros [_ Hf]. destruct (Hf h); set_solver. }
  apply IH in Hr; [|intros ????; eapply Hi; [done|set_solver]]. rewrite Hr, NoDup_cons.
  set_solver.
Qed.

Lemma check_nullifiers_spec d w recent L0 L seen ns r :
  work_rep d w recent L0 L ->
  check_nullifiers w seen ns d = Ok r ->
  r = None <-> NoDup ns /\ forall n, n ∈ ns -> n ∉ l_nullifiers L /\ n ∉ seen.
Proof.
  intros Hw. revert seen. induction ns as [|n ns IH]; intros seen; simpl.
  { intros [= <-]. split; [|done]. split; [constructor|]. intros ? []%not_elem_of_nil. }
  case_decide as Hs.
  { intros [= <-]. split; [done|]. intros [_ Hf]. destruct (Hf n); set_solver. }
  intros (ex & He & Hr)%rbind_Ok.
  apply (set_contains_rep _ _ (l_nullifiers L)) in He; [|apply Hw]. subst ex.
  case_bool_decide as Hin.
  { injection Hr as <-. split; [done|]. intros [_ Hf]. destruct (Hf n); set_solver. }
  apply IH in Hr. rewrite Hr, NoDup_cons. set_solver.
Qed.

Lemma append_created_spec d w recent L0 L h :
  work_rep d w recent L0 L -> h ∉ l_created L ->
  Z.of_nat (length (l_created L)) + 1 < 2 ^ 63 ->
  wp (append_created w h)
    (fun w' d' => db_le d d' /\
       work_rep d' w' recent L0 (MkLedger (l_created L ++ [h]) (l_nullifiers L) (l_history L)))
    (fun _ d' => db_le d d' /\ faulty) d.
Proof.
  intros Hw Hh Hroom. pose proof Hw as []. unfold append_created. apply wp_bind.
  rewrite wr_created_count0. eapply wp_mono;
    [apply array_insert_rep; [done|apply arr_fresh]| |intros e d' [? ?]; split; [done|by exists e]].
  intros a' d' [Ha Hle]. rewrite arr_snoc in Ha. apply wp_ret. split; [done|].
  split; simpl; eauto using set_rep_mono, array_rep_mono.
  - rewrite length_app. simpl. rewrite as_u64_id by lia. lia.
  - by apply prefix_app_r.
  - apply NoDup_app. split_and!; [done|set_solver|apply NoDup_singleton].
  - intros h' i. rewrite as_i64_id by lia.
    assert (Hlen : (length (l_created L0) <= length (l_created L))%nat) by by apply prefix_length.
    destruct (decide (h' = h)) as [->|Hne].
    + rewrite lookup_insert_eq. split.
      * intros [= <-]. exists (length (l_created L)). split_and!; [|done|done].
        by apply list_lookup_middle.
      * intros (k & Hk & -> & _). apply lookup_app_Some in Hk as [Hk|[Hge Hk]].
        -- destruct Hh. by eapply list_elem_of_lookup_2.
        -- apply list_lookup_singleton_Some in Hk as [Hk _]. do 2 f_equal. lia.
    + rewrite lookup_insert_ne by done. rewrite wr_added0. split; intros (k & Hk & -> & Hge).
      * exists k. split_and!; [by apply lookup_app_l_Some|done..].
      * exists k. split_and!; [|done..]. apply lookup_app_Some in Hk as [Hk|[_ Hk]]; [done|].
        apply list_lookup_singleton_Some in Hk as [_ Hk]. congruence.
Qed.

Lemma append_all_spec d w recent L0 L objs :
  work_rep d w recent L0 L -> NoDup objs -> (forall h, h ∈ objs -> h ∉ l_created L) ->
  Z.of_nat (length (l_created L)) + Z.of_nat (length objs) < 2 ^ 63 ->
  wp (efold append_created w objs)
    (fun w' d' => db_le d d' /\
       work_rep d' w' recent L0 (MkLedger (l_created L ++ objs) (l_nullifiers L) (l_history L)))
    (fun _ d' => db_le d d' /\ faulty) d.
Proof.
  revert d w L. induction objs as [|h objs IH]; intros d w L Hw Hnd Hf Hroom.
  { apply wp_ret. split; [done|]. rewrite app_nil_r. by destruct L. }
  apply NoDup_cons in Hnd as [Hh Hnd]. cbn [efold length] in *. apply wp_bind.
  eapply wp_mono; [apply append_created_spec; [done|set_solver|lia]| |done].
  intros w1 d1 [Hle1 Hw1]. eapply wp_mono; [eapply IH; [exact Hw1|done| |]| |]; simpl.
  - set_solver.
  - rewrite length_app. simpl. lia.
  - intros w2 d2 [Hle2 Hw2]. rewrite <- (assoc_L (++)) in Hw2. split; [by etrans|done].
  - intros ? d2 [Hle2 Hf2]. split; [by etrans|done].
Qed.

Lemma insert_nullifier_spec d w recent L0 L n :
  work_rep d w recent L0 L -> n ∉ l_nullifiers L ->
  Z.of_nat (size (l_nullifiers L)) + 1 < 2 ^ 63 ->
  wp (insert_nullifier w n)
    (fun w' d' => db_le d d' /\
       work_rep d' w' recent L0 (MkLedger (l_created L) ({[n]} ∪ l_nullifiers L) (l_history L)))
    (fun _ d' => db_le d d' /\ faulty) d.
Proof.
  intros Hw Hn Hroom. pose proof Hw as []. unfold insert_nullifier. apply wp_bind.
  eapply wp_mono;
    [by apply set_insert_rep| |intros e d' [? ?]; split; [done|by exists e]].
  intros a' d' [Ha Hle]. apply wp_ret. split; [done|].
  split; simpl; eauto using array_rep_mono.
  rewrite size_union, size_singleton by set_solver. rewrite as_u64_id by lia. lia.
Qed.

Lemma insert_all_spec d w recent L0 L ns :
  work_rep d w recent L0 L -> NoDup ns -> (forall n, n ∈ ns -> n ∉ l_nullifiers L) ->
  Z.of_nat (size (l_nullifiers L)) + Z.of_nat (length ns) < 2 ^ 63 ->
  wp (efold insert_nullifier w ns)
    (fun w' d' => db_le d d' /\
       work_rep d' w' recent L0
         (MkLedger (l_created L) (list_to_set ns ∪ l_nullifiers L) (l_history L)))
    (fun _ d' => db_le d d' /\ faulty) d.
Proof.
  revert d w L. induction ns as [|n ns IH]; intros d w L Hw Hnd Hf Hroom.
  { apply wp_ret. split; [done|]. simpl. rewrite (left_id_L ∅ (∪)). by destruct L. }
  apply NoDup_cons in Hnd as [Hn Hnd]. cbn [efold length] in *. apply wp_bind.
  eapply wp_mono; [apply insert_nullifier_spec; [done|set_solver|lia]| |done].
  intros w1 d1 [Hle1 Hw1]. eapply wp_mono; [eapply IH; [exact Hw1|done| |]| |]; simpl.
  - set_solver.
  - rewrite size_union, size_singleton by set_solver. lia.
  - intros w2 d2 [Hle2 Hw2]. split; [by etrans|].
    by replace ({[n]} ∪ list_to_set ns ∪ l_nullifiers L)
      with (list_to_set ns ∪ ({[n]} ∪ l_nullifiers L)) by set_solver.
  - intros ? d2 [Hle2 Hf2]. split; [by etrans|done].
Qed.

(** A payload is applied exactly when it is acceptable; otherwise neither the
    working state nor the store is touched. *)
Lemma apply_payload_spec d w recent L0 L prior bn p :
  work_rep d w recent L0 L -> index_complete prior L0 (Payload.created p) -> room L [p] ->
  wp (apply_payload w p prior bn)
    (fun '(w', r) d' => db_le d d' /\
       match r with
       | None => acceptable recent bn L p /\ work_rep d' w' recent L0 (ledger_apply L p)
       | Some _ => ~ acceptable recent bn L p /\ w' = w /\ d' = d
       end)
    (fun _ d' => db_le d d' /\ faulty) d.
Proof.
  intros Hw Hi [Hrc Hrn]. simpl in Hrc, Hrn. unfold apply_payload. rewrite (wr_recent _ _ _ _ _ Hw).
  destruct (recent !! Payload.state_root p) as [b|] eqn:Er.
  2: { apply wp_ret. split; [done|]. split; [|done]. intros [(b & Hb & _) _]. congruence. }
  destruct (grounding_aged_out (as_i64 bn) b) eqn:Eg.
  { apply wp_ret. split; [done|]. split; [|done]. intros [(b' & Hb & Hg) _]. congruence. }
  apply wp_bind, wp_of_run;
    [|intros e s' [= He <-]; split; [done|exists e; by eapply check_created_fault]].
  intros rc s' [= Hc <-].
  eapply check_created_spec in Hc; [|done..|lia].
  destruct rc as [m|].
  { apply wp_ret. split; [done|]. split; [|done]. intros (_ & [Hnd Hf] & _).
    assert (Some m = None); [|done]. apply Hc. set_solver. }
  destruct (proj1 Hc eq_refl) as [Hcn Hcf]. clear Hc.
  apply wp_bind, wp_of_run;
    [|intros e s' [= He <-]; split; [done|exists e; by eapply check_nullifiers_fault]].
  intros rn s' [= Hn <-].
  eapply check_nullifiers_spec in Hn; [|done].
  destruct rn as [m|].
  { apply wp_ret. split; [done|]. split; [|done]. intros (_ & _ & [Hnd Hf]).
    assert (Some m = None); [|done]. apply Hn. set_solver. }
  destruct (proj1 Hn eq_refl) as [Hnn Hnf]. clear Hn.
  apply wp_bind. eapply wp_mono; [apply append_all_spec; [done..|set_solver|lia]| |done].
  intros w1 d1 [Hle1 Hw1]. apply wp_bind.
  eapply wp_mono; [apply insert_all_spec; [exact Hw1|done|set_solver|simpl; lia]| |].
  - intros w2 d2 [Hle2 Hw2]. apply wp_ret. split; [by etrans|]. split; [|done].
    unfold acceptable. split_and!; [by exists b|done|set_solver|done|set_solver].
  - intros ? d2 [Hle2 Hf2]. split; [by etrans|done].
Qed.

Lemma wp_econtext {S A} ctx (c : eff S A) Q E s :
  wp c Q (fun _ => E) s -> wp (econtext ctx c) Q (fun _ => E) s.
Proof. unfold wp, econtext. by destruct (c s) as [[a|[m|m]] s']. Qed.

Lemma room_accept L p ps :
  room L (p :: ps) -> NoDup (Payload.nullifiers p) ->
  (forall n, n ∈ Payload.nullifiers p -> n ∉ l_nullifiers L) -> room (ledger_apply L p) ps.
Proof.
  unfold room, ledger_apply. simpl. intros [Hc Hn] Hnd Hf.
  rewrite length_app, size_union by set_solver. rewrite size_list_to_set by done. lia.
Qed.

Lemma room_skip L p ps : room L (p :: ps) -> room L ps.
Proof. unfold room. simpl. lia. Qed.

Lemma room_head L p ps : room L (p :: ps) -> room L [p].
Proof. unfold room. simpl. lia. Qed.

Lemma apply_blobs_spec d w recent L0 L prior slot bn bs sts ps :
  work_rep d w recent L0 L ->
  index_complete prior L0 (flat_map Payload.created (blob_payloads bs)) ->
  room L (blob_payloads bs ++ ps) ->
  wp (apply_blobs w prior slot bn bs sts)
    (fun '(w', sts') d' => db_le d d' /\ exists L' acc,
       blobs_run recent bn L bs sts L' sts' acc /\ work_rep d' w' recent L0 L' /\ room L' ps)
    (fun _ d' => db_le d d' /\ faulty) d.
Proof.
  revert d w L sts. induction bs as [|b bs IH]; intros d w L sts Hw Hi Hroom.
  { apply wp_ret. split; [done|]. exists L, []. split_and!; [constructor; by left|done..]. }
  destruct sts as [|st sts].
  { destruct b as [[]|]; apply wp_ret; (split; [done|]); exists L, [];
      (split_and!; [constructor; by right|done|]).
    all: clear -Hroom; unfold room in *; simpl in *; rewrite sum_list_with_app in *;
      rewrite sum_list_with_app in *; lia. }
  destruct b as [[i p]|]; cbn [apply_blobs].
  - change (room L (p :: blob_payloads bs ++ ps)) in Hroom.
    apply wp_bind, wp_econtext.
    eapply wp_mono; [apply (apply_payload_spec d w recent L0 L); [done| |by eapply room_head]| |done].
    { intros k h Hk Hh. apply (Hi k h Hk). simpl. set_solver. }
    intros [w1 [m|]] d1 [Hle1 Hr].
    + destruct Hr as (Hna & -> & ->). apply wp_bind.
      eapply wp_mono; [apply (IH d w L sts)| |done];
        [done|intros k h Hk Hh; apply (Hi k h Hk); simpl; set_solver|by eapply room_skip|].
      intros [w2 sts2] d2 (Hle2 & L2 & acc & Hrun & Hw2 & Hr2). apply wp_ret. split; [done|].
      exists L2, acc. split_and!; [by apply run_reject|done..].
    + destruct Hr as [Ha Hw1]. apply wp_bind.
      eapply wp_mono; [apply (IH d1 w1 (ledger_apply L p) sts)| |];
        [done|intros k h Hk Hh; apply (Hi k h Hk); simpl; set_solver| | |].
      * destruct Ha as (_ & _ & Hnd & Hf). by apply room_accept.
      * intros [w2 sts2] d2 (Hle2 & L2 & acc & Hrun & Hw2 & Hr2). apply wp_ret. split; [by etrans|].
        exists L2, (p :: acc). split_and!; [by apply run_accept|done..].
      * intros ? d2 [Hle2 Hf2]. split; [by etrans|done].
  - apply wp_bind. eapply wp_mono; [apply (IH d w L sts)| |done]; [done..|].
    intros [w2 sts2] d2 (Hle2 & L2 & acc & Hrun & Hw2 & Hr2). apply wp_ret. split; [done|].
    exists L2, acc. split_and!; [by apply run_skip|done..].
Qed.

Lemma apply_txs_spec d w recent L0 L prior slot bn txs :
  work_rep d w recent L0 L ->
  index_complete prior L0 (flat_map Payload.created (payloads_of txs)) ->
  room L (payloads_of txs) ->
  wp (apply_txs w prior slot bn txs)
    (fun '(w', txs') d' => db_le d d' /\ exists L' acc,
       txs_run recent bn L txs L' txs' acc /\ work_rep d' w' recent L0 L' /\ room L' [])
    (fun _ d' => db_le d d' /\ faulty) d.
Proof.
  revert d w L. induction txs as [|tx txs IH]; intros d w L Hw Hi Hroom.
  { apply wp_ret. split; [done|]. exists L, []. split; [constructor|done]. }
  cbn [apply_txs]. apply wp_bind.
  eapply wp_mono; [apply (apply_blobs_spec d w recent L0 L _ _ _ _ _ (payloads_of txs))| |done];
    [done| |exact Hroom|].
  { intros k h Hk Hh. apply (Hi k h Hk). simpl. rewrite flat_map_app. set_solver. }
  intros [w1 sts1] d1 (Hle1 & L1 & acc & Hrun & Hw1 & Hr1). apply wp_bind.
  eapply wp_mono; [apply (IH d1 w1 L1)| |]; [done| |done| |].
  - intros k h Hk Hh. apply (Hi k h Hk). simpl. rewrite flat_map_app. set_solver.
  - intros [w2 txs2] d2 (Hle2 & L2 & acc2 & Hrun2 & Hw2 & Hr2). apply wp_ret. split; [by etrans|].
    exists L2, (acc ++ acc2). split_and!; [by econstructor|done..].
  - intros ? d2 [Hle2 Hf2]. split; [by etrans|done].
Qed.

(** The committed state [base] represents the ledger [L] in the store. *)
Record state_rep d (base : option DonState) L : Prop := {
  sr_created : array_stored d (arr (l_created L));
  sr_nullifiers : set_stored d (l_nullifiers L);
  sr_history : array_stored d (arr (l_history L));
  sr_nodup : NoDup (l_created L);
  sr_created_root : r_created (base_roots_of base) = array_commit (arr (l_created L));
  sr_nullifiers_root : r_nullifiers (base_roots_of base) = set_commit (l_nullifiers L);
  sr_history_root : r_next_state_history (base_roots_of base) = array_commit (arr (l_history L));
  sr_created_count : base_meta created_count base = Z.of_nat (length (l_created L));
  sr_nullifier_count : base_meta nullifier_count base = Z.of_nat (size (l_nullifiers L));
  sr_history_count : base_meta state_root_count base = Z.of_nat (length (l_history L));
  sr_header s : base = Some s ->
    state_root (metadata s) = StateHeader_hash (DonState_state_header s)
    /\ exists hist, l_history L = hist ++ [state_root (metadata s)]
         /\ r_prior_state_history (roots s) = array_commit (arr hist);
}.

Lemma state_rep_mono d d' base L : db_le d d' -> state_rep d base L -> state_rep d' base L.
Proof. intros Hle []. split; by eauto using array_stored_mono, set_stored_mono. Qed.

Lemma state_rep_genesis d : state_rep d None empty_ledger.
Proof.
  split; simpl; try done; eauto using array_stored_empty, set_stored_empty, NoDup_nil_2;
    rewrite ?array_commit_empty, ?set_commit_empty; try done.
Qed.

Definition push_history L (root : Hash) : Ledger :=
  MkLedger (l_created L) (l_nullifiers L) (l_history L ++ [root]).

(** The created-index rows a derivation reports. *)
Definition added_rows L0 L1 (added : gmap Hash Z) : Prop :=
  forall h i, added !! h = Some i <->
    exists k, l_created L1 !! k = Some h /\ i = Z.of_nat k /\ (length (l_created L0) <= k)%nat.

Lemma blobs_run_history recent bn L bs sts L' sts' acc :
  blobs_run recent bn L bs sts L' sts' acc -> l_history L' = l_history L.
Proof. induction 1; simpl in *; congruence. Qed.

Lemma txs_run_history recent bn L txs L' txs' acc :
  txs_run recent bn L txs L' txs' acc -> l_history L' = l_history L.
Proof. induction 1; [done|]. apply blobs_run_history in H3. congruence. Qed.

Definition recent_map (l : list (Hash * Z)) : gmap Hash Z := list_to_map (reverse l).

(** The working state a derivation starts from. *)
Lemma open_base d base L k recent Q :
  state_rep d base L ->
  (forall c n h, work_rep d
     {| w_created_count := base_meta created_count base;
        w_nullifier_count := base_meta nullifier_count base;
        w_created := c; w_nullifiers := n; w_next_state_history := h;
        w_recent_state_roots := recent; w_created_added := ∅ |} recent L L ->
     array_rep d h (arr (l_history L)) ->
     wp (k c n h) Q (fun _ d' => db_le d d' /\ faulty) d) ->
  wp (A:=DerivedSlot * list (TargetTx Payload.Payload))
    (let! c := eread (open_created (r_created (base_roots_of base))) in
     let! n := eread (open_nullifiers (r_nullifiers (base_roots_of base))) in
     let! h := eread (open_next_state_history (r_next_state_history (base_roots_of base))) in
     k c n h) Q (fun _ d' => db_le d d' /\ faulty) d.
Proof.
  intros Hs Hk. pose proof Hs as []. unfold open_created, open_nullifiers, open_next_state_history.
  rewrite sr_created_root0, sr_nullifiers_root0, sr_history_root0.
  apply wp_bind, wp_of_run; intros c d' [= Hc <-];
    [|split; [done|]; exists c; exact (array_open_fault _ _ _ sr_created0 Hc)].
  apply wp_bind, wp_of_run; intros n d' [= Hn <-];
    [|split; [done|]; exists n; exact (set_open_fault _ _ _ sr_nullifiers0 Hn)].
  apply wp_bind, wp_of_run; intros h d' [= Hh <-];
    [|split; [done|]; exists h; exact (array_open_fault _ _ _ sr_history0 Hh)].
  pose proof (array_open _ _ _ sr_history0 Hh).
  apply Hk; [|done]. split; simpl; auto using array_open, set_open.
  intros x i. rewrite lookup_empty. split; [done|].
  intros (k' & Hx & _ & Hge). apply lookup_lt_Some in Hx. lia.
Qed.

Lemma derive_slot_state_spec d base L recent slot blk txs prior :
  state_rep d base L ->
  index_complete prior L (flat_map Payload.created (payloads_of txs)) ->
  room L (payloads_of txs) -> Z.of_nat (length (l_history L)) + 1 < 2 ^ 63 ->
  wp (derive_slot_state base recent slot blk txs prior)
    (fun '(ds, txs') d' => db_le d d' /\ exists L' acc,
       txs_run (recent_map recent) (number blk) L txs L' txs' acc
       /\ state_rep d' (Some (state ds)) (push_history L' (state_root (metadata (state ds))))
       /\ block (metadata (state ds)) = blk
       /\ added_rows L L' (created_added ds) /\ room L' [])
    (fun _ d' => db_le d d' /\ faulty) d.
Proof.
  intros Hs Hi Hroom Hh. unfold derive_slot_state. eapply (open_base _ _ _ _ (recent_map recent)); [exact Hs|].
  intros c n h Hw Hhr. apply wp_bind.
  eapply wp_mono; [eapply (apply_txs_spec _ _ (recent_map recent) L L); [exact Hw|done..]| |done].
  intros [w1 txs1] d1 (Hle1 & L1 & acc & Hrun & Hw1 & Hr1). apply wp_bind.
  pose proof (txs_run_history _ _ _ _ _ _ _ Hrun) as Hhist. pose proof Hw1 as [].
  pose proof (sr_history_count _ _ _ Hs) as Hcnt. pose proof (sr_history_root _ _ _ Hs) as Hroot.
  rewrite Hcnt, <- Hhist. eapply wp_mono; [apply array_insert_rep; [exact wr_history0|apply arr_fresh]| |].
  - intros h2 d2 [Hh2 Hle2]. rewrite arr_snoc in Hh2. apply wp_ret. split; [by etrans|].
    exists L1, acc. split; [exact Hrun|]. split; [|done].
    pose proof (array_rep_root _ _ _ wr_created0) as Ec.
    pose proof (set_rep_root _ _ _ wr_nullifiers0) as En.
    split; simpl; eauto using array_rep_stored, set_rep_stored, array_rep_mono, set_rep_mono.
    + by apply array_rep_root in Hh2.
    + rewrite length_app. simpl. rewrite as_u64_id by (rewrite Hhist; lia). lia.
    + intros s [= <-]. split; [done|]. eexists; split; [done|]. simpl. by rewrite Hhist.
  - intros e d2 [Hle2 Hf]. split; [by etrans|by exists e].
Qed.
End Refinement.

(** ** Consequences on runs of the ledger *)

Section Runs.
Context `{Plonky2}.

(** What the accepted payloads [acc] do to a ledger. *)
Record run_effect (recent : gmap Hash Z) (bn : Z) (L L' : Ledger) (acc : list Payload.Payload) : Prop := {
  re_created : l_created L' = l_created L ++ flat_map Payload.created acc;
  re_nullifiers : l_nullifiers L' = list_to_set (flat_map Payload.nullifiers acc) ∪ l_nullifiers L;
  re_created_nodup : NoDup (flat_map Payload.created acc);
  re_created_fresh h : h ∈ flat_map Payload.created acc -> h ∉ l_created L;
  re_spent_nodup : NoDup (flat_map Payload.nullifiers acc);
  re_spent_fresh n : n ∈ flat_map Payload.nullifiers acc -> n ∉ l_nullifiers L;
  re_grounded p : p ∈ acc -> exists b,
    recent !! Payload.state_root p = Some b /\ grounding_aged_out (as_i64 bn) b = false;
}.

Lemma run_effect_nil recent bn L : run_effect recent bn L L [].
Proof.
  split; simpl; try done; [by rewrite app_nil_r|set_solver|constructor|set_solver|constructor|..];
    set_solver.
Qed.

Lemma run_effect_app recent bn L1 L2 L3 acc acc' :
  run_effect recent bn L1 L2 acc -> run_effect recent bn L2 L3 acc' ->
  run_effect recent bn L1 L3 (acc ++ acc').
Proof.
  intros [] []. split; rewrite ?flat_map_app.
  - by rewrite re_created1, re_created0, (assoc_L (++)).
  - rewrite re_nullifiers1, re_nullifiers0, list_to_set_app_L. set_solver.
  - apply NoDup_app. split_and!; [done| |done]. intros x Hx Hx'.
    apply (re_created_fresh1 x Hx'). rewrite re_created0, elem_of_app. by right.
  - intros x [Hx|Hx]%elem_of_app; [by apply re_created_fresh0|]. intros Hin.
    apply (re_created_fresh1 x Hx). rewrite re_created0, elem_of_app. by left.
  - apply NoDup_app. split_and!; [done| |done]. intros x Hx Hx'.
    apply (re_spent_fresh1 x Hx'). rewrite re_nullifiers0, elem_of_union, elem_of_list_to_set. by left.
  - intros x [Hx|Hx]%elem_of_app; [by apply re_spent_fresh0|]. intros Hin.
    apply (re_spent_fresh1 x Hx). rewrite re_nullifiers0, elem_of_union. by right.
  - intros p [Hp|Hp]%elem_of_app; auto.
Qed.

Lemma run_effect_accept recent bn L p :
  acceptable recent bn L p -> run_effect recent bn L (ledger_apply L p) [p].
Proof.
  intros (Hg & [Hcn Hcf] & [Hnn Hnf]).
  split; simpl; rewrite ?app_nil_r; try done. intros q Hq%list_elem_of_singleton. by subst.
Qed.

Lemma blobs_run_effect recent bn L bs sts L' sts' acc :
  blobs_run recent bn L bs sts L' sts' acc -> run_effect recent bn L L' acc.
Proof.
  induction 1; try done; [apply run_effect_nil|].
  apply (run_effect_app _ _ _ (ledger_apply L p) _ [p] acc); [by apply run_effect_accept|done].
Qed.

Lemma txs_run_effect recent bn L txs L' txs' acc :
  txs_run recent bn L txs L' txs' acc -> run_effect recent bn L L' acc.
Proof.
  induction 1; [apply run_effect_nil|].
  eapply run_effect_app; [by eapply blobs_run_effect|done].
Qed.
End Runs.

(** ** Membership queries *)

Section Queries.
Context `{Pod2, MerkleModel}.
Implicit Types (L : Ledger) (d : Db).

Lemma try_map_outcome {A B} (f : A -> Result B) (R : A -> B -> Prop) (E : failure -> Prop) l :
  (forall a, a ∈ l -> match f a with Ok b => R a b | Err e => E e end) ->
  match try_map f l with Ok bs => Forall2 R l bs | Err e => E e end.
Proof.
  induction l as [|a l IH]; intros Hf; simpl; [constructor|].
  pose proof (Hf a ltac:(set_solver)) as Ha. destruct (f a); simpl; [|done].
  specialize (IH ltac:(set_solver)). destruct (try_map f l); simpl; [by constructor|done].
Qed.

Lemma indexed_lookup L objs prior h i :
  index_complete prior L objs -> h ∈ objs -> Z.of_nat (length (l_created L)) < 2 ^ 63 ->
  prior !! h = Some i ->
  l_created L !! Z.to_nat (as_u64 i) = Some h <-> h ∈ l_created L.
Proof.
  intros Hi Hh Hroom Hp. split; [by eauto using list_elem_of_lookup_2|].
  intros (k & Hk)%list_elem_of_lookup_1. pose proof (Hi _ _ Hk Hh).
  assert (i = Z.of_nat k) as -> by congruence. apply lookup_lt_Some in Hk as Hlt.
  by rewrite as_u64_id, Nat2Z.id by lia.
Qed.

Lemma not_indexed L objs prior h :
  index_complete prior L objs -> h ∈ objs -> prior !! h = None -> h ∉ l_created L.
Proof. intros Hi Hh Hp (k & Hk)%list_elem_of_lookup_1. pose proof (Hi _ _ Hk Hh). congruence. Qed.

Lemma nullifier_query d s L ns :
  state_rep d (Some s) L ->
  match nullifier_exists_batch (roots s) ns d with
  | Ok bs => Forall2 (fun h b => b = bool_decide (h ∈ l_nullifiers L)) ns bs
  | Err e => fault e
  end.
Proof.
  intros []. cbn [base_roots_of] in *. unfold nullifier_exists_batch, open_nullifiers.
  rewrite sr_nullifiers_root0. destruct (set_from_db _ d) as [a|e] eqn:Ea; simpl.
  - apply (set_open _ _ _ sr_nullifiers0) in Ea.
    apply try_map_outcome. intros h _. destruct (set_contains a h d) eqn:Ec;
      [by eapply set_contains_rep|by eapply set_contains_fault].
  - by apply (set_open_fault _ _ _ sr_nullifiers0) in Ea.
Qed.

Lemma created_query d s L objs prior :
  state_rep d (Some s) L -> index_complete prior L objs ->
  Z.of_nat (length (l_created L)) < 2 ^ 63 ->
  match created_exists_for (roots s) objs prior d with
  | Ok bs => Forall2 (fun h b => b = bool_decide (h ∈ l_created L)) objs bs
  | Err e => fault e
  end.
Proof.
  intros [] Hi Hroom. cbn [base_roots_of] in *. unfold created_exists_for, open_created.
  rewrite sr_created_root0. destruct (array_from_db _ d) as [a|e] eqn:Ea; simpl.
  - apply (array_open _ _ _ sr_created0) in Ea.
    apply try_map_outcome. intros h Hh. destruct (prior !! h) as [i|] eqn:Ep.
    + destruct (created_array_holds a i h d) eqn:Ec; [|by eapply created_array_holds_fault].
      apply (created_array_holds_spec _ _ (l_created L)) in Ec; [|done]. rewrite Ec.
      by apply bool_decide_ext, (indexed_lookup _ objs prior).
    + symmetry. apply bool_decide_eq_false. by eapply not_indexed.
  - by apply (array_open_fault _ _ _ sr_created0) in Ea.
Qed.

Lemma prove_query d s L objs prior :
  state_rep d (Some s) L -> index_complete prior L objs ->
  Z.of_nat (length (l_created L)) < 2 ^ 63 ->
  match prove_created_for (roots s) objs prior d with
  | Ok ps => Forall2 (fun h r => match r with
      | Some (i, pf) => l_created L !! Z.to_nat (as_u64 i) = Some h
      | None => h ∉ l_created L \/ faulty end) objs ps
  | Err e => fault e
  end.
Proof.
  intros [] Hi Hroom. cbn [base_roots_of] in *. unfold prove_created_for, open_created.
  rewrite sr_created_root0. destruct (array_from_db _ d) as [a|e] eqn:Ea; simpl;
    [|by apply (array_open_fault _ _ _ sr_created0) in Ea].
  apply (array_open _ _ _ sr_created0) in Ea. apply try_map_outcome. intros h Hh.
  destruct (prior !! h) as [i|] eqn:Ep; [|left; by eapply not_indexed].
  pose proof (indexed_lookup L objs prior h i Hi Hh Hroom Ep) as Hix.
  assert (Hu : 0 <= as_u64 i) by (apply Z.mod_pos_bound; lia).
  assert (Hl : arr (l_created L) !! as_u64 i = l_created L !! Z.to_nat (as_u64 i)).
  { rewrite <- (lookup_arr_nat (l_created L)). by rewrite Z2Nat.id. }
  destruct (array_prove a (as_u64 i) d) as [[v pf]|e] eqn:Epr.
  - apply (array_prove_rep _ _ _ _ _ _ Ea) in Epr. case_decide; [congruence|].
    left. rewrite <- Hix. congruence.
  - apply (array_prove_fails _ _ _ _ _ Ea) in Epr as [[Hn [msg ->]]|Hf].
    + left. rewrite <- Hix. congruence.
    + destruct e as [m|m]; [right; by exists (Fail m)|done].
Qed.
End Queries.

(** ** Parsing *)

Section Parsing.
Context `{Plonky2, !BlobParser}.

Lemma parse_one_fails b st e : parse_one b st = Err e -> exists m, e = Panic m.
Proof.
  unfold parse_one. destruct b as [[i bytes]|]; [|done].
  destruct (parse_blob bytes) as [[]|[]]; try done. intros [= <-]. eauto.
Qed.

Lemma parse_zip_fails bs sts e : parse_zip bs sts = Err e -> exists m, e = Panic m.
Proof.
  revert sts; induction bs as [|b bs IH]; intros [|st sts]; simpl; try done.
  intros [He|([] & _ & He)]%rbind_Err; [by eapply parse_one_fails|].
  simpl in He. apply rbind_Err in He as [He|([] & _ & He)]; [by eapply IH|done].
Qed.

Lemma try_map_fails {A B} (f : A -> Result B) l e :
  try_map f l = Err e -> exists a, a ∈ l /\ f a = Err e.
Proof.
  induction l as [|a l IH]; simpl; [done|].
  intros [He|(b & _ & He)]%rbind_Err; [exists a; set_solver|].
  apply rbind_Err in He as [He|(bs & _ & He)]; [|done].
  destruct (IH He) as (a' & Ha & Hf). exists a'. set_solver.
Qed.

(** What parsing makes of one blob and its status. *)
Definition parsed_as (b : option (Z * list byte)) (st : BlobStatus)
    (r : option (Z * Payload.Payload) * BlobStatus) : Prop := parse_one b st = Ok r.

Lemma parse_zip_Ok bs sts keeps sts' :
  parse_zip bs sts = Ok (keeps, sts') ->
  length keeps = (length bs `min` length sts)%nat /\ length sts' = length sts
  /\ forall k b st, bs !! k = Some b -> sts !! k = Some st ->
       exists r, keeps !! k = Some (fst r) /\ sts' !! k = Some (snd r) /\ parsed_as b st r.
Proof.
  revert sts keeps sts'; induction bs as [|b bs IH]; intros [|st sts] keeps sts'; simpl;
    try (intros [= <- <-]; done).
  intros ([kept st1] & H1 & ([keeps1 sts1] & H2 & [= <- <-])%rbind_Ok)%rbind_Ok. simpl in *.
  destruct (IH _ _ _ H2) as (Hl & Hs & Hk). split_and!; [simpl; lia|simpl; lia|].
  intros [|k] b' st' Hb Hst; simpl in *; [|by eapply Hk].
  simplify_eq. by exists (kept, st1).
Qed.
End Parsing.

(** ** Properties *)

(** C3: slot derivation implements the ledger. From a base state that represents
    a ledger, with an index that covers it, [derive_slot_state] returns a state
    that represents the ledger reached by applying, in blob order, exactly the
    acceptable payloads and appending the new state root; every rejected blob
    and no other gets an error; the reported created-index rows are exactly the
    new positions. It fails only on a fault of the store, never because of a
    payload, and then the base state is still represented. *)
Theorem derive_slot_state_refines `{Plonky2, Pod2, MerkleModel}
    (d : Db) (base : option DonState) (L : Ledger) (recent : list (Hash * Z)) (slot : Z)
    (blk : ExecutionBlock) (txs : list (TargetTx Payload.Payload)) (prior : gmap Hash Z) :
  state_rep d base L ->
  index_complete prior L (flat_map Payload.created (payloads_of txs)) ->
  room L (payloads_of txs) -> Z.of_nat (length (l_history L)) + 1 < 2 ^ 63 ->
  match derive_slot_state base recent slot blk txs prior d with
  | (Ok (ds, txs'), d') => db_le d d' /\ exists L' acc,
      txs_run (recent_map recent) (number blk) L txs L' txs' acc
      /\ state_rep d' (Some (state ds)) (push_history L' (state_root (metadata (state ds))))
      /\ added_rows L L' (created_added ds)
  | (Err _, d') => state_rep d' base L /\ faulty
  end.
Proof.
  intros Hs Hi Hr Hh. pose proof (derive_slot_state_spec d base L recent slot blk txs prior Hs Hi Hr Hh) as Hw.
  unfold wp in Hw. destruct (derive_slot_state _ _ _ _ _ _ d) as [[[ds txs']|e] d'].
  - destruct Hw as (Hle & L' & acc & Hrun & Hrep & _ & Hrows & _). eauto 10.
  - destruct Hw as [Hle Hf]. split; [by eapply state_rep_mono|done].
Qed.

Definition sample_txs : list (TargetTx (@Payload.Payload Toy.toy_plonky2)) :=
  [{| blobs := [Some (0, Payload.sample_payload); None; Some (2, Payload.sample_payload)];
      status := {| tx_hash := [x01];
                   blob_statuses := [BlobStatus_default; BlobStatus_default; BlobStatus_default] |} |}].
Definition sample_block : ExecutionBlock :=
  {| number := 7; timestamp := 0; hash := replicate 32 x00 |}.

(** Two copies of a payload in one slot: the first is applied, the second is
    rejected. *)
Lemma sample_run recent L' txs' acc :
  recent !! MkHash 5 6 7 8 = Some 3 ->
  @txs_run Toy.toy_plonky2 recent 7 empty_ledger sample_txs L' txs' acc ->
  acc = [Payload.sample_payload].
Proof.
  intros Hrec Hrun. inversion_clear Hrun. inversion H0; subst; clear H0. rewrite app_nil_r.
  assert (Ha : acceptable recent 7 empty_ledger Payload.sample_payload).
  { unfold acceptable. split_and!; [exists 3; by split| |set_solver| |set_solver];
      simpl; repeat (constructor; [set_solver|]); constructor. }
  assert (Hn : ~ acceptable recent 7 (ledger_apply empty_ledger Payload.sample_payload)
                   Payload.sample_payload).
  { intros (_ & [_ Hf] & _). apply (Hf EMPTY_HASH); simpl; set_solver. }
  cbn [blobs status blob_statuses] in *.
  repeat match goal with
  | H : blobs_run _ _ _ (_ :: _) _ _ _ _ |- _ => inversion H; subst; clear H; try done
  | H : blobs_run _ _ _ [] _ _ _ _ |- _ => inversion H; subst; clear H; try done
  | H : _ = [] \/ _ = [] |- _ => destruct H; try done
  end.
Qed.

Definition sample_derive :=
  @derive_slot_state Toy.toy_plonky2 Toy.toy_pod2 ToyStore.toy_store None
    [(MkHash 5 6 7 8, 3)] 1 sample_block sample_txs ∅ (ToyStore.MkStore ∅ ∅).

Lemma sample_room : room empty_ledger (payloads_of sample_txs).
Proof. unfold room. vm_compute. by split. Qed.

Lemma sample_derive_ok : exists ds txs' d', sample_derive = (Ok (ds, txs'), d').
Proof.
  pose proof (@derive_slot_state_spec Toy.toy_plonky2 Toy.toy_pod2 _ ToyStore.toy_model
    (ToyStore.MkStore ∅ ∅) None empty_ledger [(MkHash 5 6 7 8, 3)] 1 sample_block sample_txs ∅
    (state_rep_genesis _) (index_complete_empty _ _) sample_room ltac:(done)) as Hw.
  unfold wp in Hw. fold sample_derive in Hw. destruct sample_derive as [[[ds txs']|e] d']; [eauto|].
  by destruct (ToyStore.toy_not_faulty (proj2 Hw)).
Qed.

Lemma derive_slot_state_refines_witness :
  exists ds txs' d' L',
    sample_derive = (Ok (ds, txs'), d')
    /\ txs_run (recent_map [(MkHash 5 6 7 8, 3)]) 7 empty_ledger sample_txs L' txs'
         [Payload.sample_payload].
Proof.
  pose proof (@derive_slot_state_refines Toy.toy_plonky2 Toy.toy_pod2 _ ToyStore.toy_model
    (ToyStore.MkStore ∅ ∅) None empty_ledger [(MkHash 5 6 7 8, 3)] 1 sample_block sample_txs ∅
    (state_rep_genesis _) (index_complete_empty _ _) sample_room ltac:(done)) as Hd.
  fold sample_derive in Hd. destruct sample_derive_ok as (ds & txs' & d' & Ed).
  rewrite Ed in Hd. destruct Hd as (_ & L' & acc & Hrun & _). exists ds, txs', d', L'.
  split; [done|]. pose proof Hrun as ->%sample_run; done.
Defined.

(** C4: no double spend and no double creation. In a derived slot the payloads
    left without an error have pairwise distinct nullifiers and created
    commitments, none of them present before the slot; each is grounded in a
    state root no more than [MAX_STATE_ROOT_AGE_BLOCKS] old; and the new state
    is the old one with exactly those commitments appended and those nullifiers
    added. *)
Theorem derive_slot_no_double_spend `{Plonky2, Pod2, MerkleModel}
    (d d' : Db) (base : option DonState) (L : Ledger) (recent : list (Hash * Z)) (slot : Z)
    (blk : ExecutionBlock) (txs txs' : list (TargetTx Payload.Payload)) (prior : gmap Hash Z)
    (ds : DerivedSlot) :
  state_rep d base L ->
  index_complete prior L (flat_map Payload.created (payloads_of txs)) ->
  room L (payloads_of txs) -> Z.of_nat (length (l_history L)) + 1 < 2 ^ 63 ->
  derive_slot_state base recent slot blk txs prior d = (Ok (ds, txs'), d') ->
  exists L' acc,
    txs_run (recent_map recent) (number blk) L txs L' txs' acc
    /\ run_effect (recent_map recent) (number blk) L L' acc
    /\ created_count (metadata (state ds))
       = base_meta created_count base + Z.of_nat (length (flat_map Payload.created acc))
    /\ nullifier_count (metadata (state ds))
       = base_meta nullifier_count base + Z.of_nat (length (flat_map Payload.nullifiers acc)).
Proof.
  intros Hs Hi Hr Hh Hrun. eapply wp_run in Hrun; [|by apply (derive_slot_state_spec d base L)].
  destruct Hrun as (_ & L' & acc & Hrun & Hrep & _). exists L', acc. split; [done|].
  pose proof (txs_run_effect _ _ _ _ _ _ _ Hrun) as Heff. split; [done|].
  pose proof (sr_created_count _ _ _ Hrep) as Ec. pose proof (sr_nullifier_count _ _ _ Hrep) as En.
  pose proof (sr_created_count _ _ _ Hs) as Ec0. pose proof (sr_nullifier_count _ _ _ Hs) as En0.
  destruct Heff. simpl in *. rewrite Ec, En, Ec0, En0, re_created0, re_nullifiers0.
  rewrite length_app, size_union by set_solver. rewrite size_list_to_set by done. lia.
Qed.

Lemma derive_slot_no_double_spend_witness :
  exists L' acc ds txs',
    @txs_run Toy.toy_plonky2 (recent_map [(MkHash 5 6 7 8, 3)]) 7 empty_ledger sample_txs L' txs' acc
    /\ created_count (metadata (state ds)) = Z.of_nat (length (flat_map Payload.created acc)).
Proof.
  destruct sample_derive_ok as (ds & txs' & d' & Ed).
  destruct (@derive_slot_no_double_spend Toy.toy_plonky2 Toy.toy_pod2 _ ToyStore.toy_model
    (ToyStore.MkStore ∅ ∅) d' None empty_ledger [(MkHash 5 6 7 8, 3)] 1 sample_block sample_txs
    txs' ∅ ds (state_rep_genesis _) (index_complete_empty _ _) sample_room ltac:(done) Ed)
    as (L' & acc & Hrun & _ & Hc & _).
  exists L', acc, ds, txs'. split; [exact Hrun|exact Hc].
Defined.

(** Fail-soft parsing. When the parser does not panic, [parse_blobs] keeps
    every transaction and every blob position; a blob is kept exactly when the
    parser verified a payload in it, whose [tx_final] is then recorded, and any
    other present blob gets an error. *)
Theorem parse_blobs_fail_soft `{Plonky2, !BlobParser} (txs : list (TargetTx (list byte))) :
  (forall bs m, parse_blob bs <> Err (Panic m)) ->
  exists txs', parse_blobs txs = Ok txs' /\ length txs' = length txs
    /\ forall t tx tx' k b st, txs !! t = Some tx -> txs' !! t = Some tx' ->
         blobs tx !! k = Some b -> blob_statuses (status tx) !! k = Some st ->
         tx_hash (status tx') = tx_hash (status tx)
         /\ exists kept st', blobs tx' !! k = Some kept /\ blob_statuses (status tx') !! k = Some st'
         /\ match b with
            | None => kept = None /\ st' = st
            | Some (i, bytes) =>
                match parse_blob bytes with
                | Ok (Some p) => kept = Some (i, p) /\ tx_final st' = Some (Payload.tx_final p)
                                 /\ error st' = error st
                | _ => kept = None /\ tx_final st' = tx_final st /\ error st' <> None
                end
            end.
Proof.
  intros Hp. destruct (parse_blobs txs) as [txs'|e] eqn:Ep; unfold parse_blobs in Ep.
  2: { exfalso. apply try_map_fails in Ep as (tx & _ & [Hz|([] & _ & Hz)]%rbind_Err); [|done].
       revert Hz. generalize (blobs tx) (blob_statuses (status tx)).
       induction l as [|b bs IH]; intros [|st sts]; simpl; try done.
       unfold parse_one. destruct b as [[i bytes]|].
       - specialize (Hp bytes). destruct (parse_blob bytes) as [[]|[]]; simpl;
           [intros [?|([] & _ & ?)]%rbind_Err; [by eapply IH|done]..|by destruct (Hp msg)].
       - simpl. intros [?|([] & _ & ?)]%rbind_Err; [by eapply IH|done]. }
  exists txs'. split; [done|]. apply try_map_Ok in Ep.
  split; [symmetry; by eapply Forall2_length|]. intros t tx tx' k b st Ht Ht' Hb Hst.
  pose proof (Forall2_lookup_lr _ _ _ _ _ _ Ep Ht Ht') as Hf. simpl in Hf.
  apply rbind_Ok in Hf as ([keeps sts] & Hz & [= <-]). simpl.
  apply parse_zip_Ok in Hz as (_ & _ & Hk).
  destruct (Hk k b st Hb Hst) as ([kept st'] & H1 & H2 & H3). split; [done|].
  exists kept, st'. split_and!; [done..|]. unfold parsed_as, parse_one in H3.
  destruct b as [[i bytes]|]; [|by simplify_eq].
  destruct (parse_blob bytes) as [[]|[]]; by simplify_eq/=.
Qed.

Definition sample_blob_parser : @BlobParser Toy.toy_plonky2 :=
  fun bs => Ok (if decide (bs = [x00]) then Some Payload.sample_payload else None).
Definition sample_raw_txs (bs : list byte) : list (TargetTx (list byte)) :=
  [{| blobs := [Some (0, [x00]); Some (1, bs)];
      status := {| tx_hash := []; blob_statuses := [BlobStatus_default; BlobStatus_default] |} |}].

Lemma parse_blobs_fail_soft_witness :
  exists txs', @parse_blobs _ sample_blob_parser (sample_raw_txs [x01]) = Ok txs'
    /\ length txs' = 1%nat.
Proof.
  destruct (@parse_blobs_fail_soft _ sample_blob_parser (sample_raw_txs [x01]))
    as (txs' & H1 & H2 & _).
  - intros bs m. discriminate.
  - exists txs'. split; [exact H1|exact H2].
Defined.

(** With the real parser the assumption of [parse_blobs_fail_soft] fails on
    one input: a decoded blob consisting of the two magic bytes makes the whole
    slot's parse panic, whatever else the slot holds. *)
Theorem magic_only_blob_panics `{Plonky2, Pod2} (self : Payload.ProofParser)
    (txs : list (TargetTx (list byte))) t tx k i st :
  txs !! t = Some tx -> blobs tx !! k = Some (Some (i, [x0b; xd1])) ->
  blob_statuses (status tx) !! k = Some st ->
  exists m, @parse_blobs _ (ProofParser_BlobParser self) txs = Err (Panic m).
Proof.
  intros Ht Hb Hst. destruct (parse_blobs txs) as [txs'|e] eqn:Ep; unfold parse_blobs in Ep.
  - exfalso. apply try_map_Ok in Ep. destruct (Forall2_lookup_l _ _ _ _ _ Ep Ht) as (tx' & _ & Hf).
    apply rbind_Ok in Hf as ([keeps sts] & Hz & _). apply parse_zip_Ok in Hz as (_ & _ & Hk).
    destruct (Hk _ _ _ Hb Hst) as (r & _ & _ & Hr). by vm_compute in Hr.
  - apply try_map_fails in Ep as (tx' & _ & [Hz|([] & _ & Hz)]%rbind_Err); [|done].
    apply parse_zip_fails in Hz as [m ->]. eauto.
Qed.

Lemma magic_only_blob_panics_witness :
  exists m, @parse_blobs _ (ProofParser_BlobParser Payload.sample_parser) (sample_raw_txs [x0b; xd1])
            = Err (Panic m).
Proof. eapply (magic_only_blob_panics Payload.sample_parser _ 0 _ 1); reflexivity. Defined.

(** The membership answers are those of the ledger. Against a state that
    represents [L] and an index that covers it (entries beyond it may be wrong),
    the created query answers membership in the created list, the witness query
    returns a proof exactly for the members, at their true position, and the
    nullifier query answers membership in the spent set; each fails only on a
    fault of the store. *)
Theorem membership_queries_correct `{Pod2, MerkleModel} (d : Db) (s : DonState) (L : Ledger)
    (objs : list Hash) (prior : gmap Hash Z) :
  state_rep d (Some s) L -> index_complete prior L objs ->
  Z.of_nat (length (l_created L)) < 2 ^ 63 ->
  match created_exists_for (roots s) objs prior d with
  | Ok bs => Forall2 (fun h b => b = bool_decide (h ∈ l_created L)) objs bs
  | Err e => fault e
  end
  /\ match nullifier_exists_batch (roots s) objs d with
     | Ok bs => Forall2 (fun h b => b = bool_decide (h ∈ l_nullifiers L)) objs bs
     | Err e => fault e
     end
  /\ match prove_created_for (roots s) objs prior d with
     | Ok ps => Forall2 (fun h r => match r with
         | Some (i, pf) => l_created L !! Z.to_nat (as_u64 i) = Some h
         | None => h ∉ l_created L \/ faulty end) objs ps
     | Err e => fault e
     end.
Proof.
  intros. split_and!; [by apply created_query|by apply nullifier_query|by apply prove_query].
Qed.

Lemma sample_facts :
  exists ds d L, @state_rep Toy.toy_pod2 _ ToyStore.toy_model d (Some (state ds)) L
    /\ added_rows empty_ledger L (created_added ds) /\ block (metadata (state ds)) = sample_block
    /\ l_created L = [EMPTY_HASH; MkHash 1 1 1 1]
    /\ l_nullifiers L = {[MkHash 9 0 0 0]} /\ length (l_history L) = 1%nat
    /\ ToyStore.store_le (ToyStore.MkStore ∅ ∅) d.
Proof.
  pose proof (@derive_slot_state_spec Toy.toy_plonky2 Toy.toy_pod2 _ ToyStore.toy_model
    (ToyStore.MkStore ∅ ∅) None empty_ledger [(MkHash 5 6 7 8, 3)] 1 sample_block sample_txs ∅
    (state_rep_genesis _) (index_complete_empty _ _) sample_room ltac:(done)) as Hw.
  unfold wp in Hw. fold sample_derive in Hw. destruct sample_derive as [[[ds txs']|e] d'];
    [|by destruct (ToyStore.toy_not_faulty (proj2 Hw))].
  destruct Hw as (Hle & L' & acc & Hrun & Hrep & Hblk & Hrows & _).
  pose proof Hrun as ->%sample_run; [|done].
  exists ds, d', (push_history L' (state_root (metadata (state ds)))).
  apply txs_run_history in Hrun as Hh. apply txs_run_effect in Hrun as [].
  simpl in *. split_and!; try done. by rewrite length_app, Hh.
Qed.

(** A wrong index entry does not make an absent commitment present. *)
Lemma membership_queries_witness :
  exists s d, match @created_exists_for ToyStore.toy_store (roots s) [MkHash 1 1 1 1; MkHash 9 9 9 9]
      {[ MkHash 1 1 1 1 := 1; MkHash 9 9 9 9 := 0 ]} d with
  | Ok bs => bs = [true; false]
  | Err _ => False
  end.
Proof.
  destruct sample_facts as (ds & d & L & Hs & _ & _ & Hc & _). exists (state ds), d.
  destruct (@membership_queries_correct Toy.toy_pod2 _ ToyStore.toy_model d (state ds) L
    [MkHash 1 1 1 1; MkHash 9 9 9 9] {[ MkHash 1 1 1 1 := 1; MkHash 9 9 9 9 := 0 ]} Hs) as [Hq _].
  - intros k h Hk Hh. rewrite Hc in Hk. destruct k as [|[|k]]; simplify_eq/=; [set_solver|done].
  - rewrite Hc. done.
  - destruct (created_exists_for _ _ _ _); [|done]. rewrite Hc in Hq.
    inversion_clear Hq. inversion_clear H0. inversion_clear H2. subst. done.
Defined.

End StateMachine.
