(* ===== verification/Economy.v ===== *)
(** * The object economy

    The blobs of a chain, the state machine of the synchronizer and the
    transactions behind the payloads, put together: over any sequence of slots
    parsed and derived from the empty state with a sound parser, every object
    state that is consumed was created by an accepted transaction before, and
    none is consumed twice. *)

From S2P Require Import Prelude Pod2 Models Payload DonState ContainerDb StateMachine Podlang TxModel TxPredicates Replay ReplayFacts TxBuilder TxBuilderFacts TxTheorems.

Module Economy.
Import DonState ContainerDb StateMachine Podlang TxModel TxPredicates.
Local Open Scope Z_scope.

(** The arrays of the node store commit as pod2's arrays do. *)
Class StoreCommitments `{Pod2, MerkleModel} : Prop :=
  store_array l : array_commit (arr l) = array_commitment l.

(** [Predicate::Custom(pred).hash()], and the reference the parser resolves
    from txlib's module by the name [TxFinalized]. *)
Class FinalizedRef `{Pod2, PredicateHash} : Type := {
  ref_hash : CustomPredicateRef -> Hash;
  finalized_pred : CustomPredicateRef;
  finalized_ref : ref_hash finalized_pred = predicate_hash "TxFinalized";
}.

Section Certificates.
Context `{Plonky2} `{ModuleHashes} `{!Natives, !NativeLaws, !CommitmentBinding} `{!FinalizedRef}.
Implicit Types (p : Payload.Payload).

(** The statement a payload is verified against ([finalized_statement]) is
    true: its predicate, by its hash, holds of its arguments. *)
Definition statement_true (st : Payload.Statement) : Prop :=
  let 'Payload.Custom pred args := st in true_of modules (Custom (ref_hash pred)) args.

Definition certified p : Prop := statement_true (Payload.finalized_statement p finalized_pred).

(** [es] is a legal transaction that creates and nullifies what the payload
    lists, on grounded inputs. *)
Record explains p (inputs : gset Value) (es : list Event) (nuls : list Value) : Prop := {
  ex_legal : exists bodies f chain, es = EAction <$> bodies /\ bodies <> []
    /\ replays (guard_of (Payload.state_root p)) (start_frame inputs) (start_chain inputs) es f chain;
  ex_grounded : exists root, contains (Payload.state_root p) (value_of_i64 CREATED_SLOT) root /\ grounded root inputs;
  ex_created : all_produced es ≡ₚ Payload.created p;
  ex_nullifiers : nuls ≡ₚ Payload.nullifiers p;
  ex_consumed : Forall2 nullifies (all_consumed es) nuls;
  ex_available : Forall (fun o => o ∈ inputs \/ o ∈ all_produced es) (all_consumed es);
}.

Lemma certified_explains p :
  certified p -> NoDup (Payload.created p) -> NoDup (Payload.nullifiers p) ->
  exists inputs es nuls, explains p inputs es nuls.
Proof.
  unfold certified, statement_true, Payload.finalized_statement. rewrite finalized_ref.
  intros (inputs & bodies & f & Hfin)%finalized_sound Hc Hn.
  pose proof Hfin as [Hne Hg [chain Hr] Hfn Hfc _].
  apply set_commitment_inj in Hfn, Hfc. pose proof (proj2 (replay_accounts _) _ _ _ _ _ Hr) as Hacc.
  destruct Hacc as [_ Hcr [Hno _] (nuls & Hf & Hnn & Hnl & _) Hav].
  cbn [start_frame rf_created rf_nullifiers rf_inputs] in *. rewrite (right_id_L ∅ (∪)) in Hcr, Hnl.
  exists inputs, (EAction <$> bodies), nuls. split; try done.
  - by exists bodies, f, chain.
  - apply NoDup_Permutation; [done..|]. intros o.
    rewrite <-!(elem_of_list_to_set (C:=gset Value)), <-Hcr, <-Hfc. done.
  - apply NoDup_Permutation; [done..|]. intros o.
    rewrite <-!(elem_of_list_to_set (C:=gset Value)), <-Hnl, <-Hfn. done.
  - eapply Forall_impl; [exact Hav|]. intros o [?|Ho]; [by left|right]. rewrite Hcr in Ho. set_solver.
Qed.

(** What the state machine needs of its parser: the payloads it accepts carry
    true statements. *)
Class ParserSound `{!BlobParser} : Prop :=
  parser_sound bs p : parse_blob bs = Ok (Some p) -> certified p.

(** The parser of libs/payload is one, whenever the proof system is sound for
    its circuit and it was built with the reference of [TxFinalized]. *)
Lemma proof_parser_sound (self : Payload.ProofParser) `{!Payload.MainPodSound self statement_true} :
  Payload.txn_finalized_pred self = finalized_pred -> @ParserSound (ProofParser_BlobParser self).
Proof. intros Hp bs p Hb. unfold certified. rewrite <-Hp. by eapply Payload.parsed_statement_valid. Qed.
End Certificates.

(** ** Histories *)

(** The payloads of parsed transactions whose blob ends without an error: the
    ones a derivation reports as accepted. *)
Definition accepted_blobs `{Plonky2} (bs : list (option (Z * Payload.Payload))) (sts : list BlobStatus) :
    list Payload.Payload :=
  omap (fun '(b, st) => match b, error st with Some (_, p), None => Some p | _, _ => None end) (zip bs sts).
Definition accepted `{Plonky2} (txs : list (TargetTx Payload.Payload)) : list Payload.Payload :=
  flat_map (fun tx => accepted_blobs (blobs tx) (blob_statuses (status tx))) txs.

(** A kept blob has no error yet. *)
Definition clean_blobs `{Plonky2} (bs : list (option (Z * Payload.Payload))) (sts : list BlobStatus) : Prop :=
  forall k b st, bs !! k = Some (Some b) -> sts !! k = Some st -> error st = None.

Section Accepted.
Context `{Plonky2}.

Lemma clean_blobs_tail b bs st sts : clean_blobs (b :: bs) (st :: sts) -> clean_blobs bs sts.
Proof. intros Hc k. exact (Hc (S k)). Qed.

Lemma accepted_blobs_run recent bn L bs sts L' sts' acc :
  blobs_run recent bn L bs sts L' sts' acc -> clean_blobs bs sts -> accepted_blobs bs sts' = acc.
Proof.
  unfold accepted_blobs.
  induction 1 as [L bs sts [->| ->]|L L' bs st sts sts' acc _ IH|L L' i p bs st sts sts' acc _ _ IH|
    L L' i p bs st sts sts' m acc _ _ IH]; intros Hc; simpl.
  - done.
  - by destruct bs.
  - by apply IH, (clean_blobs_tail None bs st).
  - rewrite (Hc 0%nat (i, p) st) by done. f_equal. by eapply IH, clean_blobs_tail.
  - by eapply IH, clean_blobs_tail.
Qed.

Lemma accepted_run recent bn L txs L' txs' acc :
  txs_run recent bn L txs L' txs' acc ->
  Forall (fun tx => clean_blobs (blobs tx) (blob_statuses (status tx))) txs -> accepted txs' = acc.
Proof.
  induction 1 as [|L L1 L2 tx txs txs' sts acc acc' Hb _ IH]; [done|].
  intros [Hc Hcs]%Forall_cons. unfold accepted in *. simpl. rewrite (IH Hcs).
  by rewrite (accepted_blobs_run _ _ _ _ _ _ _ _ Hb Hc).
Qed.

Lemma accepted_carried recent bn L txs L' txs' acc p :
  txs_run recent bn L txs L' txs' acc -> p ∈ acc -> p ∈ payloads_of txs.
Proof.
  unfold payloads_of. induction 1 as [|L L1 L2 tx txs txs' sts acc acc' Hb _ IH]; [done|]. simpl.
  rewrite !elem_of_app. intros [Hp|Hp]; [left|right; by apply IH]. revert Hp.
  induction Hb; unfold blob_payloads in *; simpl; [by intros []%elem_of_nil|done|set_solver|set_solver].
Qed.

Context `{!BlobParser}.

Lemma parsed_clean raw txs :
  parse_blobs raw = Ok txs ->
  Forall (fun tx => Forall (fun st => error st = None) (blob_statuses (status tx))) raw ->
  Forall (fun tx => clean_blobs (blobs tx) (blob_statuses (status tx))) txs.
Proof.
  intros Hp%try_map_Ok. induction Hp as [|tx tx' raw txs Htx _ IH]; [constructor|].
  intros [Hst Hsts]%Forall_cons. constructor; [|by apply IH]. clear IH Hsts.
  apply rbind_Ok in Htx as ([keeps sts] & Hz & [= <-]). cbn [blobs status blob_statuses].
  revert keeps sts Hz Hst. generalize (blobs tx) (blob_statuses (status tx)).
  induction l as [|b bs IH]; intros [|st0 sts0] keeps sts; simpl;
    try (intros [= <- <-] _ k ? ? Hk; by rewrite lookup_nil in Hk).
  intros ([kept st1] & H1 & ([keeps1 sts1] & H2 & [= <- <-])%rbind_Ok)%rbind_Ok [Hst Hsts]%Forall_cons.
  intros [|k] b' st'; simpl; [|by eapply IH]. intros [= ->] [= <-]. unfold parse_one in H1.
  destruct b as [[i bytes]|]; [|done]. destruct (parse_blob bytes) as [[]|[]]; by simplify_eq/=.
Qed.

Lemma parsed_payload raw txs p :
  parse_blobs raw = Ok txs -> p ∈ payloads_of txs -> exists bs, parse_blob bs = Ok (Some p).
Proof.
  intros Hp%try_map_Ok. unfold payloads_of.
  induction Hp as [|tx tx' raw txs Htx _ IH]; simpl; [by intros []%elem_of_nil|].
  rewrite elem_of_app. intros [Hin|Hin]; [|by apply IH]. clear IH.
  apply rbind_Ok in Htx as ([keeps sts] & Hz & [= <-]). cbn [blobs] in Hin. revert keeps sts Hz Hin.
  generalize (blobs tx) (blob_statuses (status tx)).
  induction l as [|b bs IH]; intros [|st0 sts0] keeps sts; simpl;
    try (intros [= <- <-] Hin; by apply elem_of_nil in Hin).
  intros ([kept st1] & H1 & ([keeps1 sts1] & H2 & [= <- <-])%rbind_Ok)%rbind_Ok Hin.
  unfold blob_payloads in Hin. simpl in Hin. unfold parse_one in H1.
  destruct b as [[i bytes]|]; [|simplify_eq; by eapply IH].
  destruct (parse_blob bytes) as [[q|]|[]] eqn:Eq; simplify_eq/=; [|by eapply IH..].
  apply elem_of_cons in Hin as [->|Hin]; [by exists bytes|by eapply IH].
Qed.
End Accepted.

Section History.
Context `{Plonky2} `{ModuleHashes} `{!Natives, !NativeLaws, !CommitmentBinding} `{!FinalizedRef}.
Context `{!MerkleStore, !MerkleModel, !StoreCommitments} `{!BlobParser}.
Implicit Types (d : Db) (L : Ledger) (acc : list Payload.Payload) (index : gmap Hash Z).

(** The 64-bit counters of the state have room for what the payloads add. *)
Definition counters_fit (base : option DonState) (ps : list Payload.Payload) : Prop :=
  base_meta created_count base + Z.of_nat (sum_list_with (length ∘ Payload.created) ps) < 2 ^ 63
  /\ base_meta nullifier_count base + Z.of_nat (sum_list_with (length ∘ Payload.nullifiers) ps) < 2 ^ 63
  /\ base_meta state_root_count base + 1 < 2 ^ 63.

(** States derived one after the other from the empty one. [index] is the table
    of created objects, [past] are the states reached, latest first, and [acc]
    the payloads accepted so far. A slot takes the state roots it grounds in
    from the states before, looks the objects of its payloads up in the index,
    parses its blobs, derives the next state and files the rows it added. Between two
    slots the node store may grow. *)
Inductive history : Db -> option DonState -> gmap Hash Z -> list DonState -> list Payload.Payload -> Prop :=
| history_genesis d : history d None ∅ [] []
| history_slot d base index past acc d1 recent slot blk raw txs prior ds txs' d2 :
    history d base index past acc -> db_le d d1 ->
    (forall r b, (r, b) ∈ recent -> exists s, s ∈ past /\ state_root (metadata s) = r) ->
    Forall (fun tx => Forall (fun st => error st = None) (blob_statuses (status tx))) raw ->
    parse_blobs raw = Ok txs ->
    (forall o, o ∈ flat_map Payload.created (payloads_of txs) -> prior !! o = index !! o) ->
    counters_fit base (payloads_of txs) ->
    derive_slot_state base recent slot blk txs prior d1 = (Ok (ds, txs'), d2) ->
    history d2 (Some (state ds)) (created_added ds ∪ index) (state ds :: past) (acc ++ accepted txs').

(** The index lists the created objects with their positions. *)
Definition index_of index L : Prop :=
  forall h i, index !! h = Some i <-> exists k, l_created L !! k = Some h /\ i = Z.of_nat k.

(** What every history satisfies: a ledger its state represents. *)
Record history_ok d (base : option DonState) index (past : list DonState) acc L : Prop := {
  ho_rep : state_rep d base L;
  ho_index : index_of index L;
  ho_created : l_created L = flat_map Payload.created acc;
  ho_nullifiers : l_nullifiers L = list_to_set (flat_map Payload.nullifiers acc);
  ho_created_nodup : NoDup (flat_map Payload.created acc);
  ho_spent_nodup : NoDup (flat_map Payload.nullifiers acc);
  ho_past s : s ∈ past ->
    state_root (metadata s) = StateHeader_hash (DonState_state_header s)
    /\ exists acc0, acc0 `prefix_of` acc /\ r_created (roots s) = array_commitment (flat_map Payload.created acc0);
}.

(** A slot, in terms of the ledger: this is where the derivation is used. *)
Lemma slot_runs d base index past acc L d1 recent slot blk raw txs prior ds txs' d2 :
  history_ok d base index past acc L -> db_le d d1 ->
  Forall (fun tx => Forall (fun st => error st = None) (blob_statuses (status tx))) raw ->
  parse_blobs raw = Ok txs ->
  (forall o, o ∈ flat_map Payload.created (payloads_of txs) -> prior !! o = index !! o) ->
  counters_fit base (payloads_of txs) ->
  derive_slot_state base recent slot blk txs prior d1 = (Ok (ds, txs'), d2) ->
  exists L', txs_run (recent_map recent) (number blk) L txs L' txs' (accepted txs')
    /\ state_rep d2 (Some (state ds)) (push_history L' (state_root (metadata (state ds))))
    /\ added_rows L L' (created_added ds).
Proof.
  intros Hok Hle Hst Hp Hi (Hc1 & Hc2 & Hc3) Hd. pose proof (state_rep_mono _ _ _ _ Hle (ho_rep _ _ _ _ _ _ Hok)) as Hs.
  eapply wp_run in Hd; [|apply (derive_slot_state_spec d1 base L); [exact Hs|..]].
  - destruct Hd as (_ & L' & acc' & Hrun & Hrep & _ & Hrows & _). exists L'. split; [|done].
    by rewrite (accepted_run _ _ _ _ _ _ _ Hrun (parsed_clean _ _ Hp Hst)).
  - intros k o Hk Ho. rewrite (Hi o Ho). apply (ho_index _ _ _ _ _ _ Hok). eauto.
  - unfold room. by rewrite <-(sr_created_count _ _ _ Hs), <-(sr_nullifier_count _ _ _ Hs).
  - by rewrite <-(sr_history_count _ _ _ Hs).
Qed.

Lemma index_of_slot index L L' added :
  index_of index L -> (exists new, l_created L' = l_created L ++ new) -> NoDup (l_created L') ->
  added_rows L L' added -> index_of (added ∪ index) L'.
Proof.
  intros Hi [new Hc] Hnd Ha h i. rewrite lookup_union_Some_raw. rewrite (Ha h i), (Hi h i). split.
  - intros [(k & ? & ? & _)|(_ & k & Hk & ?)]; exists k; split; try done. rewrite Hc. by apply lookup_app_l_Some.
  - intros (k & Hk & ->). destruct (decide (length (l_created L) <= k)%nat) as [Hge|Hlt]; [left; eauto|right].
    split; [|exists k; split; [|done]; rewrite Hc, lookup_app_l in Hk by lia; done].
    destruct (added !! h) as [j|] eqn:Ej; [|done]. apply Ha in Ej as (k' & Hk' & _ & Hge').
    pose proof (NoDup_lookup _ _ _ _ Hnd Hk Hk'). lia.
Qed.

Lemma history_holds d base index past acc : history d base index past acc -> exists L, history_ok d base index past acc L.
Proof.
  induction 1 as [d|d base index past acc d1 recent slot blk raw txs prior ds txs' d2 Hh [L Hok] Hle Hr Hst Hp Hi Hf Hd].
  { exists empty_ledger. split; simpl; [apply state_rep_genesis| |done|done|constructor|constructor|set_solver].
    intros h i. rewrite lookup_empty. split; [done|]. by intros (k & Hk & _). }
  destruct (slot_runs _ _ _ _ _ _ _ _ _ _ _ _ _ _ _ _ Hok Hle Hst Hp Hi Hf Hd) as (L' & Hrun & Hrep & Hrows).
  destruct Hok as [_ Hix Hc Hn Hcd Hnd Hpast]. pose proof (txs_run_effect _ _ _ _ _ _ _ Hrun) as [Ec En Ecd Ecf Esd Esf _].
  eexists. split; [exact Hrep| |simpl; rewrite ?flat_map_app..|].
  - apply (index_of_slot _ L _ _ Hix); [by eexists|exact (sr_nodup _ _ _ Hrep)|exact Hrows].
  - by rewrite Ec, Hc.
  - rewrite En, Hn, list_to_set_app_L. set_solver.
  - apply NoDup_app. split_and!; [done| |done]. intros x Hx Hx'. apply (Ecf x Hx'). by rewrite Hc.
  - apply NoDup_app. split_and!; [done| |done]. intros x Hx Hx'. apply (Esf x Hx'). rewrite Hn. set_solver.
  - intros s [->|Hin]%elem_of_cons.
    + destruct (sr_header _ _ _ Hrep _ eq_refl) as [Hh' _]. split; [done|].
      pose proof (sr_created_root _ _ _ Hrep) as Hroot. simpl in Hroot. rewrite store_array in Hroot.
      exists (acc ++ accepted txs'). split; [done|]. by rewrite flat_map_app, <-Hc, <-Ec.
    + destruct (Hpast s Hin) as (? & acc0 & Hpre & ?). split; [done|]. exists acc0. split; [by apply prefix_app_r|done].
Qed.

(** The grounded inputs of an accepted payload were created by payloads
    accepted in earlier slots. *)
Lemma inputs_created d base index past acc L recent bn txs L' txs' acc' p inputs es nuls o :
  history_ok d base index past acc L ->
  (forall r b, (r, b) ∈ recent -> exists s, s ∈ past /\ state_root (metadata s) = r) ->
  txs_run (recent_map recent) bn L txs L' txs' acc' -> p ∈ acc' ->
  explains p inputs es nuls -> o ∈ inputs -> o ∈ flat_map Payload.created acc.
Proof.
  intros Hok Hr Hrun Hp Hex Ho. destruct (re_grounded _ _ _ _ _ (txs_run_effect _ _ _ _ _ _ _ Hrun) p Hp) as (b & Hb & _).
  apply elem_of_list_to_map_2 in Hb. rewrite elem_of_reverse in Hb.
  destruct (Hr _ _ Hb) as (s & Hin & Hroot). destruct (ho_past _ _ _ _ _ _ Hok s Hin) as (Hh & acc0 & Hpre & Hcr).
  destruct (ex_grounded _ _ _ _ Hex) as (root & Hslot & Hg). rewrite <-Hroot, Hh in Hslot.
  apply header_created in Hslot as ->. destruct (Hg o Ho) as [i Hi].
  change (created_root (DonState_state_header s)) with (r_created (roots s)) in Hi. rewrite Hcr in Hi.
  apply contains_array in Hi as (k & _ & Hk). apply list_elem_of_lookup_2 in Hk.
  destruct Hpre as [rest ->]. rewrite flat_map_app. set_solver.
Qed.

(** *** The transactions of a history *)

(** [ts] are the transactions behind the accepted payloads, with their
    nullifiers: each explains its payload, and what it consumes was produced by
    an earlier one or by itself. *)
Abbreviation Behind := (list Event * list Value)%type.

Definition produced_by (ts : list Behind) (o : Value) : Prop := exists t, t ∈ ts /\ o ∈ all_produced (fst t).

Record economy (acc : list Payload.Payload) (ts : list Behind) : Prop := {
  ec_explained : Forall2 (fun p t => exists inputs, explains p inputs (fst t) (snd t)) acc ts;
  ec_origin i t o : ts !! i = Some t -> o ∈ all_consumed (fst t) -> produced_by (take (S i) ts) o;
}.

Lemma explain_all acc :
  Forall certified acc -> NoDup (flat_map Payload.created acc) -> NoDup (flat_map Payload.nullifiers acc) ->
  exists ts, Forall2 (fun p t => exists inputs, explains p inputs (fst t) (snd t)) acc ts.
Proof.
  induction 1 as [|p acc Hp _ IH]; intros Hc Hn; [by exists []|]. simpl in Hc, Hn.
  apply NoDup_app in Hc as (Hc1 & _ & Hc2). apply NoDup_app in Hn as (Hn1 & _ & Hn2).
  destruct (IH Hc2 Hn2) as [ts Hts]. destruct (certified_explains p Hp Hc1 Hn1) as (inputs & es & nuls & Hex).
  exists ((es, nuls) :: ts). constructor; [by exists inputs|done].
Qed.

Lemma created_produced acc ts o :
  Forall2 (fun p t => exists inputs, explains p inputs (fst t) (snd t)) acc ts ->
  o ∈ flat_map Payload.created acc -> produced_by ts o.
Proof.
  induction 1 as [|p t acc ts (inputs & Hex) _ IH]; simpl; [by intros []%elem_of_nil|].
  intros [Ho|Ho]%elem_of_app.
  - exists t. split; [set_solver|]. by rewrite (ex_created _ _ _ _ Hex).
  - destruct (IH Ho) as (t' & Ht' & Ho'). exists t'. split; [set_solver|done].
Qed.

(** The transactions of a slot continue an economy. *)
Lemma economy_slot d base index past acc L recent bn txs L' txs' acc' ts :
  history_ok d base index past acc L -> economy acc ts ->
  (forall r b, (r, b) ∈ recent -> exists s, s ∈ past /\ state_root (metadata s) = r) ->
  txs_run (recent_map recent) bn L txs L' txs' acc' -> Forall certified acc' ->
  exists ts', economy (acc ++ acc') (ts ++ ts').
Proof.
  intros Hok [Hts Horig] Hr Hrun Hcert. pose proof (txs_run_effect _ _ _ _ _ _ _ Hrun) as Heff.
  destruct (explain_all acc' Hcert (re_created_nodup _ _ _ _ _ Heff) (re_spent_nodup _ _ _ _ _ Heff)) as [ts' Hts'].
  exists ts'. split; [by apply Forall2_app|]. intros i t o Hi Ho.
  apply lookup_app_Some in Hi as [Hi|[Hge Hi]].
  - destruct (Horig i t o Hi Ho) as (t' & Ht' & Ho'). exists t'. split; [|done].
    rewrite take_app. set_solver.
  - destruct (Forall2_lookup_r _ _ _ _ _ Hts' Hi) as (p & Hp & inputs & Hex).
    pose proof (ex_available _ _ _ _ Hex) as Hav. rewrite Forall_forall in Hav. destruct (Hav o Ho) as [Hin|Hself].
    + assert (Ho' : o ∈ flat_map Payload.created acc).
      { eapply inputs_created; [exact Hok|exact Hr|exact Hrun| |exact Hex|exact Hin]. by eapply list_elem_of_lookup_2. }
      destruct (created_produced _ _ _ Hts Ho') as (t' & Ht' & Ho''). exists t'. split; [|done].
      rewrite take_app_ge by lia. set_solver.
    + exists t. split; [|done]. apply (list_elem_of_lookup_2 _ i). rewrite lookup_take_lt by lia.
      by rewrite lookup_app_r.
Qed.

Lemma history_economy `{!ParserSound} d base index past acc :
  history d base index past acc -> exists ts, economy acc ts.
Proof.
  induction 1 as [d|d base index past acc d1 recent slot blk raw txs prior ds txs' d2 Hh [ts Hts] Hle Hr Hst Hp Hi Hf Hd].
  { exists []. by split. }
  destruct (history_holds _ _ _ _ _ Hh) as [L Hok].
  destruct (slot_runs _ _ _ _ _ _ _ _ _ _ _ _ _ _ _ _ Hok Hle Hst Hp Hi Hf Hd) as (L' & Hrun & _ & _).
  assert (Hcert : Forall certified (accepted txs')).
  { apply Forall_forall. intros p Hin. destruct (parsed_payload _ _ p Hp) as [bs Hbs];
      [by eapply accepted_carried|by eapply parser_sound]. }
  destruct (economy_slot _ _ _ _ _ _ _ _ _ _ _ _ _ Hok Hts Hr Hrun Hcert) as [ts' Hts']. by eexists.
Qed.

Lemma economy_nullifiers acc ts :
  economy acc ts -> flat_map snd ts ≡ₚ flat_map Payload.nullifiers acc
  /\ flat_map (all_produced ∘ fst) ts ≡ₚ flat_map Payload.created acc
  /\ Forall2 nullifies (flat_map (all_consumed ∘ fst) ts) (flat_map snd ts).
Proof.
  intros [Hex _]. induction Hex as [|p t acc ts (inputs & Ht) _ IH]; simpl; [done|].
  destruct IH as (IH1 & IH2 & IH3). split_and!.
  - by rewrite (ex_nullifiers _ _ _ _ Ht), IH1.
  - by rewrite (ex_created _ _ _ _ Ht), IH2.
  - apply Forall2_app; [exact (ex_consumed _ _ _ _ Ht)|done].
Qed.
End History.

(** C1: the economy is sound end to end. Take any sequence of slots the
    synchronizer parses and derives from the empty state, where a slot grounds
    transactions only in the state roots of the states before it and looks
    created objects up in the index the slots before it filled, while the 64-bit
    counters have room, and let the parser be sound (the [TxFinalized] statement
    of an accepted blob is true, as [proof_parser_sound] shows of the parser of
    libs/payload).
    Then there are legal transactions behind the payloads the derivations
    accepted such that no object state is consumed twice and none is created
    twice in the whole history, every consumed object state was created before,
    by an earlier transaction or by the same one, and both the index and the
    created root of the last state hold exactly the created objects. *)
Theorem objects_spent_once `{Plonky2} `{ModuleHashes} `{!Natives, !NativeLaws, !CommitmentBinding} `{!FinalizedRef}
    `{!MerkleStore, !MerkleModel, !StoreCommitments} `{!BlobParser, !ParserSound}
    (d : Db) (base : option DonState) (index : gmap Hash Z) (past : list DonState) (acc : list Payload.Payload) :
  history d base index past acc ->
  exists ts, economy acc ts
    /\ NoDup (flat_map (all_consumed ∘ fst) ts) /\ NoDup (flat_map (all_produced ∘ fst) ts)
    /\ (forall o, is_Some (index !! o) <-> o ∈ flat_map (all_produced ∘ fst) ts)
    /\ exists order, order ≡ₚ flat_map (all_produced ∘ fst) ts
         /\ r_created (base_roots_of base) = array_commitment order.
Proof.
  intros Hh. destruct (history_economy _ _ _ _ _ Hh) as [ts Hts]. exists ts. split; [done|].
  destruct (history_holds _ _ _ _ _ Hh) as [L [Hrep Hix Hcr _ Hcd Hsd _]].
  destruct (economy_nullifiers _ _ Hts) as (Hn & Hp & Hf). split_and!.
  - eapply nullifies_NoDup; [exact Hf|]. by rewrite Hn.
  - by rewrite Hp.
  - intros o. rewrite Hp, <-Hcr, list_elem_of_lookup. split.
    + intros [i (k & Hk & _)%Hix]. eauto.
    + intros [k Hk]. exists (Z.of_nat k). apply Hix. eauto.
  - exists (l_created L). split; [by rewrite Hp, Hcr|]. rewrite <-store_array. exact (sr_created_root _ _ _ Hrep).
Qed.

(** A history of two slots: an empty one, then one that mints a stone. *)
Module Sample.
Import Toy ToyPod ToyStore TxTheorems.World TxBuilderFacts.

#[export] Instance toy_commitments : StoreCommitments.
Proof. exact root_of_arr. Qed.

#[export] Instance toy_finalized : FinalizedRef := {|
  ref_hash := predicate_hash : @CustomPredicateRef toy_pod2 -> Hash;
  finalized_pred := "TxFinalized" : @CustomPredicateRef toy_pod2;
  finalized_ref := eq_refl;
|}.

Definition new_stone : Dictionary := <[STABLE_IDENTIFIER_FIELD := dict_commitment stone]> stone.

Definition payload (h : StateHeader) : Payload.Payload := {|
  Payload.proof := Payload.proof Payload.sample_payload;
  Payload.tx_final := dict_commitment (final_dict (advance (start_frame ∅) {[dict_commitment new_stone]} ∅));
  Payload.state_root := StateHeader_hash h;
  Payload.nullifiers := [];
  Payload.created := [dict_commitment new_stone];
|}.

Lemma hashes_to_set_singleton (v : Value) : Payload.hashes_to_set [v] = {[v]}.
Proof. unfold Payload.hashes_to_set. simpl. apply (right_id_L ∅ (∪)). Qed.

Lemma payload_certified h : certified (payload h).
Proof.
  destruct (minted_at h) as (b & b' & st & stats & _ & _ & _ & _ & _ & Ht).
  unfold certified, statement_true, Payload.finalized_statement, finalized_values in *. cbn [Payload.state_root Payload.tx_final Payload.nullifiers Payload.created payload].
  rewrite hashes_to_set_singleton.
  exact Ht.
Qed.

(** The blob of one byte carries the payload, other blobs none. *)
Definition stone_parser (h : StateHeader) : BlobParser :=
  fun bs => Ok (if decide (bs = [x00]) then Some (payload h) else None).

Lemma stone_parser_sound h : @ParserSound _ _ _ _ _ _ (stone_parser h).
Proof.
  intros bs p. unfold parse_blob, stone_parser. case_decide; [|done]. intros [= <-]. apply payload_certified.
Qed.

Definition raw_txs : list (TargetTx (list byte)) :=
  [{| blobs := [Some (0, [x00])];
      status := {| tx_hash := [x01]; blob_statuses := [BlobStatus_default] |} |}].

Definition txs_of (p : Payload.Payload) : list (TargetTx Payload.Payload) :=
  [{| blobs := [Some (0, p)];
      status := {| tx_hash := [x01];
                   blob_statuses := [{| tx_final := Some (Payload.tx_final p); error := None |}] |} |}].

(** A derivation from a represented state returns. *)
Lemma derives d base L recent slot blk txs prior :
  state_rep d base L -> index_complete prior L (flat_map Payload.created (payloads_of txs)) ->
  room L (payloads_of txs) -> Z.of_nat (length (l_history L)) + 1 < 2 ^ 63 ->
  exists ds txs' d' L' acc, derive_slot_state base recent slot blk txs prior d = (Ok (ds, txs'), d')
    /\ txs_run (recent_map recent) (number blk) L txs L' txs' acc
    /\ state_rep d' (Some (state ds)) (push_history L' (state_root (metadata (state ds)))).
Proof.
  intros Hs Hi Hr Hl. pose proof (derive_slot_state_spec d base L recent slot blk txs prior Hs Hi Hr Hl) as Hw.
  unfold wp in Hw. destruct (derive_slot_state base recent slot blk txs prior d) as [[[ds txs']|e] d'].
  - destruct Hw as (_ & L' & acc & Hrun & Hrep & _). by exists ds, txs', d', L', acc.
  - by destruct (toy_not_faulty (proj2 Hw)).
Qed.

Lemma payload_accepted h L recent L' txs' acc :
  recent !! StateHeader_hash h = Some 7 -> l_created L = [] -> l_nullifiers L = ∅ ->
  txs_run recent 8 L (txs_of (payload h)) L' txs' acc -> acc = [payload h].
Proof.
  intros Hrec Hc Hn Hrun. inversion Hrun as [|? L1 ? ? ? ? sts acc1 acc2 Hb Ht]; subst; clear Hrun.
  inversion Ht; subst; clear Ht. rewrite app_nil_r. cbn [blobs status blob_statuses txs_of] in Hb.
  assert (Ha : acceptable recent 8 L (payload h)).
  { unfold acceptable. rewrite Hc, Hn. split_and!; [by exists 7|apply NoDup_singleton|set_solver|constructor|set_solver]. }
  inversion Hb as [? ? ? Hd|? ? ? ? ? ? ? Hb'|? ? ? ? ? ? ? ? ? _ Hb'|]; subst; [by destruct Hd| |done].
  by inversion Hb'; subst.
Qed.

Definition block_at (n : Z) : ExecutionBlock := {| number := n; timestamp := 0; hash := replicate 32 x00 |}.

Lemma sample_history : exists h d base index past, @history _ _ _ _ (stone_parser h) d base index past [payload h].
Proof.
  destruct (derives (MkStore ∅ ∅) None empty_ledger [] 1 (block_at 7) [] ∅) as (ds & txs1 & d1 & L1 & acc1 & Hd1 & Hr1 & Hs1);
    [apply state_rep_genesis|apply index_complete_empty|by vm_compute|done|].
  inversion Hr1; subst; clear Hr1. set (s1 := state ds) in *. set (root := state_root (metadata s1)) in *.
  destruct (sr_header _ _ _ Hs1 s1 eq_refl) as [Hroot _]. fold root in Hroot.
  set (h := DonState_state_header s1) in *. pose (parser := stone_parser h).
  destruct (derives d1 (Some s1) (push_history empty_ledger root) [(root, 7)] 2 (block_at 8) (txs_of (payload h))
    (created_added ds ∪ ∅)) as (ds2 & txs2 & d2 & L2 & acc2 & Hd2 & Hr2 & Hs2); [exact Hs1| |by vm_compute|done|].
  { intros k o Hk. cbn in Hk. by rewrite lookup_nil in Hk. }
  assert (Hacc : acc2 = [payload h]).
  { eapply (payload_accepted h (push_history empty_ledger root)); [|done|done|exact Hr2]. rewrite <-Hroot. apply lookup_insert_eq. }
  exists h, d2. do 3 eexists.
  assert (Ha : accepted txs2 = [payload h]).
  { rewrite (accepted_run _ _ _ _ _ _ _ Hr2); [done|]. repeat constructor. intros [|[]] b st; [|done..]. by intros _ [= <-]. }
  change [payload h] with (([] ++ []) ++ [payload h]). rewrite <-Ha.
  eapply (history_slot d1 (Some s1) _ [s1] ([] ++ accepted []) d1 [(root, 7)] 2 (block_at 8) raw_txs); last exact Hd2.
  - eapply (history_slot _ None ∅ [] [] _ [] 1 (block_at 7) [] [] ∅); last exact Hd1;
      [apply history_genesis|reflexivity|intros ? ? []%elem_of_nil|constructor|done|done|by vm_compute].
  - reflexivity.
  - intros r b [= -> ->]%list_elem_of_singleton. exists s1. split; [by left|done].
  - repeat constructor.
  - done.
  - done.
  - pose proof (sr_created_count _ _ _ Hs1) as Hc. pose proof (sr_nullifier_count _ _ _ Hs1) as Hn.
    pose proof (sr_history_count _ _ _ Hs1) as Hl. unfold counters_fit. rewrite Hc, Hn, Hl. by vm_compute.
Qed.

Lemma objects_spent_once_witness :
  exists acc ts, length acc = 1%nat /\ economy acc ts /\ NoDup (flat_map (all_produced ∘ fst) ts).
Proof.
  destruct sample_history as (h & d & base & index & past & Hh).
  pose proof (stone_parser_sound h) as Hps.
  destruct (@objects_spent_once _ _ _ _ _ _ _ _ _ _ _ _ (stone_parser h) Hps d base index past [payload h] Hh)
    as (ts & Hec & _ & Hnd & _).
  by exists [payload h], ts.
Defined.
End Sample.

End Economy.
