(* ===== verification/StateLog.v ===== *)
(** * The state log (services/synchronizer/src/state_log_db.rs)

    The Postgres tables that decide which derived state is the head: [slots]
    (one row per beacon slot, with the state derived at it when the slot has an
    execution block), [created_index] (commitment to array position) and
    [tx_statuses]. A transaction either commits all its writes or none, so the
    writing operations return the new tables or an error.

    A column written with [hash_to_db_bytes] and read with [db_bytes_to_hash] is
    kept as the hash (the round trip is proved in [Payload.v]); integer columns
    keep the casts of the source. *)

From Stdlib Require Import Ascii.
From stdpp Require Import sorting.
From S2P Require Import Prelude Pod2 Models Payload DonState ContainerDb StateMachine.

Module StateLog.
Import DonState ContainerDb StateMachine.
Local Open Scope Z_scope.

(** ** Definitions *)

Record SlotState : Type := { ss_state : DonState; ss_slot : Z }.

(** The eleven nullable columns: all null or none (the table's CHECK). *)
Record StateCols : Type := {
  el_block_number : Z;
  el_block_timestamp : Z;
  el_block_hash : list byte;
  don_roots : StateRoots;
  don_state_root : Hash;
  don_created_count : Z;
  don_nullifier_count : Z;
  don_state_root_count : Z;
}.

Record SlotRow : Type := { cl_block_root : option (list byte); cols : option StateCols }.
Record IndexRow : Type := { array_index : Z; ix_slot : Z }.
Record StatusRow : Type := { st_slot : Z; st_tx_final : option Hash; st_error : option string }.

Record Tables : Type := {
  slots : gmap Z SlotRow;
  created_index : gmap Hash IndexRow;
  tx_statuses : gmap (list byte * Z) StatusRow;
}.
Definition empty_tables : Tables := {| slots := ∅; created_index := ∅; tx_statuses := ∅ |}.

(** The greatest and the least key satisfying a predicate: [ORDER BY slot
    DESC LIMIT 1], [MAX], [MIN]. *)
Definition best_key {A} (better : Z -> Z -> bool) (P : Z -> A -> bool) (m : gmap Z A) : option Z :=
  map_fold (fun k v acc =>
    if P k v then
      match acc with
      | None => Some k
      | Some a => if better k a then Some k else Some a
      end
    else acc) None m.
Definition max_key {A} := @best_key A Z.gtb.
Definition min_key {A} := @best_key A Z.ltb.

(** *** Error text *)

Definition MAX_STORED_ERROR_CHARS : nat := 256.

(** A UTF-8 continuation byte does not start a [char]. *)
Definition is_continuation (a : ascii) : bool := (N_of_ascii a / 64 =? 2)%N.

Fixpoint count_chars (s : string) : nat :=
  match s with
  | EmptyString => 0
  | String a s' => (if is_continuation a then 0 else 1) + count_chars s'
  end.

Fixpoint take_chars (n : nat) (s : string) : string :=
  match s with
  | EmptyString => EmptyString
  | String a s' =>
      if is_continuation a then String a (take_chars n s')
      else match n with
           | O => EmptyString
           | S n' => String a (take_chars n' s')
           end
  end.

Definition cap_error (e : string) : string :=
  if (count_chars e <=? MAX_STORED_ERROR_CHARS)%nat then e
  else take_chars (MAX_STORED_ERROR_CHARS - 3) e +:+ "...".

(** *** Rows *)

Definition encode_state (s : DonState) : StateCols :=
  {| el_block_number := as_i64 (number (block (metadata s)));
     el_block_timestamp := as_i64 (timestamp (block (metadata s)));
     el_block_hash := hash (block (metadata s));
     don_roots := roots s;
     don_state_root := state_root (metadata s);
     don_created_count := as_i64 (created_count (metadata s));
     don_nullifier_count := as_i64 (nullifier_count (metadata s));
     don_state_root_count := as_i64 (state_root_count (metadata s)) |}.

Definition decode_state_row (c : StateCols) : DonState :=
  {| roots := don_roots c;
     metadata := {| state_root := don_state_root c;
                    block := {| number := as_u64 (el_block_number c);
                                timestamp := as_u64 (el_block_timestamp c);
                                hash := el_block_hash c |};
                    created_count := as_u64 (don_created_count c);
                    nullifier_count := as_u64 (don_nullifier_count c);
                    state_root_count := as_u64 (don_state_root_count c) |} |}.

Definition decode_slot_state_row (slot : Z) (c : StateCols) : SlotState :=
  {| ss_state := decode_state_row c; ss_slot := as_u32 slot |}.

(** *** Reads *)

Definition first_committed_slot (t : Tables) : option Z :=
  as_u32 <$> min_key (fun _ _ => true) (slots t).

(** The check [connect] makes on the stored slots. *)
Definition connect_check (init_start_slot : Z) (t : Tables) : Result unit :=
  rensure (1 <=? init_start_slot) "INIT_START_SLOT must be >= 1" ;?
  match first_committed_slot t with
  | Some first_slot =>
      rensure (first_slot =? init_start_slot)
        ("stored slots start at " +:+ pretty first_slot +:+ " but INIT_START_SLOT is "
         +:+ pretty init_start_slot +:+ "; resync from an empty database to change it")
  | None => Ok tt
  end.

Definition last_processed_slot (t : Tables) : option Z :=
  as_u32 <$> max_key (fun _ _ => true) (slots t).

Definition has_state (_ : Z) (r : SlotRow) : bool :=
  match cols r with Some _ => true | None => false end.

Definition slot_state_at_head (t : Tables) : option SlotState :=
  slot ← max_key has_state (slots t);
  r ← slots t !! slot;
  c ← cols r;
  Some (decode_slot_state_row slot c).

Definition don_state_at_head (t : Tables) : option DonState := ss_state <$> slot_state_at_head t.

Definition slot_root (slot : Z) (t : Tables) : option (list byte) :=
  slots t !! as_i32 slot ≫= cl_block_root.

(** [fetch_one] fails when there is no row. *)
Definition latest_block_root_before (slot : Z) (t : Tables) : Result (list byte) :=
  ok_or (k ← max_key (fun k r => (k <? as_i32 slot) && bool_decide (is_Some (cl_block_root r)))
               (slots t);
         slots t !! k ≫= cl_block_root)
    "no rows returned by a query that expected to return at least one row".

(** [SELECT .. WHERE commitment = ANY($1)] *)
Definition created_indices (commitments : list Hash) (t : Tables) : gmap Hash Z :=
  filter (fun kv => kv.1 ∈ commitments) (array_index <$> created_index t).

(** [WHERE el_block_number >= $1 ORDER BY el_block_number ASC, slot ASC] *)
Definition root_row_le (a b : Z * Z * Hash) : Prop :=
  (a.1.1 < b.1.1 \/ (a.1.1 = b.1.1 /\ a.1.2 <= b.1.2)).
#[export] Instance root_row_le_dec a b : Decision (root_row_le a b).
Proof. unfold root_row_le. apply _. Defined.

Definition recent_state_roots (min_block_number : Z) (t : Tables) : list (Hash * Z) :=
  let rows := omap (fun '(slot, r) =>
    c ← cols r;
    if as_i64 min_block_number <=? el_block_number c
    then Some (el_block_number c, slot, don_state_root c) else None) (map_to_list (slots t)) in
  (fun '(number, _, root) => (root, number)) <$> merge_sort root_row_le rows.

(** *** Writes *)

(** [INSERT] into a table with a primary key. *)
Definition insert_pk {K A} `{Countable K} (table : string) (k : K) (a : A) (m : gmap K A) :
    Result (gmap K A) :=
  match m !! k with
  | Some _ => Err (Fail ("duplicate key value violates unique constraint of " +:+ table))
  | None => Ok (<[k:=a]> m)
  end.

(** The partial unique index [slots_cl_block_root_uq]. *)
Definition root_taken (root : option (list byte)) (m : gmap Z SlotRow) : bool :=
  match root with
  | None => false
  | Some r => bool_decide (map_Exists (fun _ row => cl_block_root row = Some r) m)
  end.

Definition insert_slot (slot : Z) (row : SlotRow) (m : gmap Z SlotRow) : Result (gmap Z SlotRow) :=
  if root_taken (cl_block_root row) m
  then Err (Fail "duplicate key value violates unique constraint slots_cl_block_root_uq")
  else insert_pk "slots" slot row m.

Definition insert_index_rows (slot : Z) (added : gmap Hash Z) (m : gmap Hash IndexRow) :
    Result (gmap Hash IndexRow) :=
  try_fold (fun m '(commitment, index) =>
    insert_pk "created_index" commitment {| array_index := index; ix_slot := as_i32 slot |} m)
    m (map_to_list added).

Definition insert_status_rows (slot : Z) (txs : list TxStatus)
    (m : gmap (list byte * Z) StatusRow) : Result (gmap (list byte * Z) StatusRow) :=
  try_fold (fun m tx_status =>
    try_fold (fun m '(tx_blob_index, blob_status) =>
      insert_pk "tx_statuses" (tx_hash tx_status, as_i32 (Z.of_nat tx_blob_index))
        {| st_slot := as_i32 slot; st_tx_final := tx_final blob_status;
           st_error := cap_error <$> error blob_status |} m)
      m (imap pair (blob_statuses tx_status))) m txs.

Definition commit_slot (slot : Z) (block_root : option (list byte)) (derived : option DerivedSlot)
    (statuses : list TxStatus) (t : Tables) : Result Tables :=
  let row := {| cl_block_root := block_root; cols := encode_state ∘ state <$> derived |} in
  let? slots' := insert_slot (as_i32 slot) row (slots t) in
  let? index' := insert_index_rows slot
    (match derived with Some ds => created_added ds | None => ∅ end) (created_index t) in
  let? statuses' := insert_status_rows slot statuses (tx_statuses t) in
  Ok {| slots := slots'; created_index := index'; tx_statuses := statuses' |}.

(** Deleting slots cascades to their transaction statuses. *)
Definition rollback_to_slot (keep_slot : Z) (t : Tables) : Tables :=
  {| slots := filter (fun kv => kv.1 <= as_i32 keep_slot) (slots t);
     created_index := filter (fun kv => ix_slot kv.2 <= as_i32 keep_slot) (created_index t);
     tx_statuses := filter (fun kv => st_slot kv.2 <= as_i32 keep_slot) (tx_statuses t) |}.

(** *** Transaction status queries *)

Record TxBlobStatus : Type := {
  tbs_tx_hash : list byte;
  tbs_tx_blob_index : Z;
  tbs_tx_final : option Hash;
  tbs_error : option string;
  tbs_block_number : Z;
  tbs_block_hash : list byte;
}.

(** The inner join with [slots]; reading a null block column panics. *)
Definition decode_tx_blob_status_row (t : Tables) (k : list byte * Z) (r : StatusRow) :
    option (Result TxBlobStatus) :=
  row ← slots t !! st_slot r;
  Some (match cols row with
        | None => Err (Panic "unexpected null; try decoding as an `Option`")
        | Some c => Ok {| tbs_tx_hash := k.1; tbs_tx_blob_index := as_u32 k.2;
                          tbs_tx_final := st_tx_final r; tbs_error := st_error r;
                          tbs_block_number := el_block_number c;
                          tbs_block_hash := el_block_hash c |}
        end).

Definition status_index_le (a b : (list byte * Z) * StatusRow) : Prop := a.1.2 <= b.1.2.
#[export] Instance status_index_le_dec a b : Decision (status_index_le a b).
Proof. unfold status_index_le. apply _. Defined.

Definition tx_statuses_by_tx_hash (h : list byte) (t : Tables) : Result (list TxBlobStatus) :=
  let rows := merge_sort status_index_le
    (map_to_list (filter (fun kv => kv.1.1 = h) (tx_statuses t))) in
  try_map id (omap (fun '(k, r) => decode_tx_blob_status_row t k r) rows).

(** [ORDER BY error IS NOT NULL, slot DESC, tx_hash, tx_blob_index] *)
Fixpoint bytes_lt (a b : list byte) : bool :=
  match a, b with
  | [], [] => false
  | [], _ => true
  | _, [] => false
  | x :: a', y :: b' => (byte_val x <? byte_val y) || ((byte_val x =? byte_val y) && bytes_lt a' b')
  end.
Definition error_rank (r : StatusRow) : Z := match st_error r with None => 0 | Some _ => 1 end.
Definition status_before (a b : (list byte * Z) * StatusRow) : bool :=
  (error_rank a.2 <? error_rank b.2)
  || ((error_rank a.2 =? error_rank b.2)
      && ((st_slot b.2 <? st_slot a.2)
          || ((st_slot b.2 =? st_slot a.2)
              && (bytes_lt a.1.1 b.1.1
                  || (bool_decide (a.1.1 = b.1.1) && (a.1.2 <? b.1.2)))))).

Definition first_by {A} (before : A -> A -> bool) (l : list A) : option A :=
  foldr (fun a acc => match acc with
                      | None => Some a
                      | Some b => if before b a then Some b else Some a
                      end) None l.

Definition tx_status_by_tx_final (h : Hash) (t : Tables) : Result (option TxBlobStatus) :=
  let rows := filter (fun kv => st_tx_final kv.2 = Some h /\ is_Some (slots t !! st_slot kv.2))
                (map_to_list (tx_statuses t)) in
  match first_by status_before rows with
  | None => Ok None
  | Some (k, r) =>
      match decode_tx_blob_status_row t k r with
      | None => Ok None
      | Some res => rmap Some res
      end
  end.

(** ** Lemmas *)

(** *** Keys *)
Section Keys.
Context {A : Type} (better : Z -> Z -> bool) (R : Z -> Z -> Prop).
Context (HR : PreOrder R) (Hbetter : forall a b, if better a b then R b a else R a b).
Implicit Types (m : gmap Z A) (P : Z -> A -> bool).

Lemma best_key_spec P m :
  match best_key better P m with
  | Some k => (exists v, m !! k = Some v /\ P k v = true)
              /\ forall k' v', m !! k' = Some v' -> P k' v' = true -> R k' k
  | None => forall k v, m !! k = Some v -> P k v = false
  end.
Proof.
  unfold best_key. apply (map_fold_weak_ind (fun acc m => match acc with
  | Some k => (exists v, m !! k = Some v /\ P k v = true)
              /\ forall k' v', m !! k' = Some v' -> P k' v' = true -> R k' k
  | None => forall k v, m !! k = Some v -> P k v = false end)).
  { intros k v. by rewrite lookup_empty. }
  clear m. intros k v m acc Hk IH.
  destruct (P k v) eqn:Ep; [destruct acc as [a|]; [specialize (Hbetter k a); destruct (better k a)|]|].
  - destruct IH as [_ IH]. split; [exists v; by rewrite lookup_insert_eq|].
    intros k' v' [[<- <-]|[Hne Hk']]%lookup_insert_Some Hp; [reflexivity|]. etrans; [by eapply IH|done].
  - destruct IH as [(w & Hw & Hpw) IH]. split.
    + exists w. rewrite lookup_insert_ne; [done|intros ->; congruence].
    + intros k' v' [[<- <-]|[Hne Hk']]%lookup_insert_Some Hp; [done|]. by eapply IH.
  - split; [exists v; by rewrite lookup_insert_eq|].
    intros k' v' [[<- <-]|[Hne Hk']]%lookup_insert_Some Hp; [reflexivity|].
    by rewrite (IH _ _ Hk') in Hp.
  - destruct acc as [a|].
    + destruct IH as [(w & Hw & Hpw) IH]. split.
      * exists w. rewrite lookup_insert_ne; [done|intros ->; congruence].
      * intros k' v' [[<- <-]|[Hne Hk']]%lookup_insert_Some Hp; [congruence|]. by eapply IH.
    + intros k' v' [[<- <-]|[Hne Hk']]%lookup_insert_Some; [done|]. by eapply IH.
Qed.
End Keys.

Section MaxMin.
Context {A : Type}.
Implicit Types (m : gmap Z A) (P : Z -> A -> bool).

Lemma max_key_spec P m :
  match max_key P m with
  | Some k => (exists v, m !! k = Some v /\ P k v = true)
              /\ forall k' v', m !! k' = Some v' -> P k' v' = true -> k' <= k
  | None => forall k v, m !! k = Some v -> P k v = false
  end.
Proof.
  apply (best_key_spec Z.gtb Z.le); [split; [intros ?; lia|intros ???; lia]|].
  intros a b. destruct (a >? b) eqn:E; lia.
Qed.

Lemma min_key_spec P m :
  match min_key P m with
  | Some k => (exists v, m !! k = Some v /\ P k v = true)
              /\ forall k' v', m !! k' = Some v' -> P k' v' = true -> k <= k'
  | None => forall k v, m !! k = Some v -> P k v = false
  end.
Proof.
  apply (best_key_spec Z.ltb (fun a b => b <= a)); [split; [intros ?; lia|intros ???; lia]|].
  intros a b. destruct (a <? b) eqn:E; lia.
Qed.

Lemma max_key_is P m k v :
  m !! k = Some v -> P k v = true ->
  (forall k' v', m !! k' = Some v' -> P k' v' = true -> k' <= k) -> max_key P m = Some k.
Proof.
  intros Hk Hp Hmax. pose proof (max_key_spec P m) as Hs. destruct (max_key P m) as [k'|].
  - destruct Hs as [(v' & Hk' & Hp') Hs]. f_equal.
    pose proof (Hmax _ _ Hk' Hp'). pose proof (Hs _ _ Hk Hp). lia.
  - specialize (Hs _ _ Hk). congruence.
Qed.
End MaxMin.

(** *** Rows *)

Lemma u64_i64_roundtrip x : 0 <= x < 2 ^ 64 -> as_u64 (as_i64 x) = x.
Proof.
  intros Hx. unfold as_u64, as_i64, wraps, wrapu. change (2 ^ (64 - 1)) with (2 ^ 63).
  rewrite (Z.mod_small x) by lia. destruct (x <? 2 ^ 63) eqn:E; [apply Z.mod_small; lia|].
  symmetry. apply Z.mod_unique with (-1); lia.
Qed.

(** Every integer of the state fits the [u64] it is declared as. *)
Definition u64_state (s : DonState) : Prop :=
  Forall (fun x => 0 <= x < 2 ^ 64)
    [number (block (metadata s)); timestamp (block (metadata s)); created_count (metadata s);
     nullifier_count (metadata s); state_root_count (metadata s)].

Lemma decode_encode_state s : u64_state s -> decode_state_row (encode_state s) = s.
Proof.
  unfold u64_state, decode_state_row, encode_state. rewrite !Forall_cons.
  intros (H1 & H2 & H3 & H4 & H5 & _). destruct s as [rs [sr [n t h] c nc hc]]. simpl in *.
  by rewrite !u64_i64_roundtrip.
Qed.

(** *** Error text *)

Lemma count_chars_app a b : count_chars (a +:+ b) = (count_chars a + count_chars b)%nat.
Proof. induction a as [|c a IH]; simpl; [done|]. rewrite IH. lia. Qed.

Lemma count_take_chars n s : count_chars (take_chars n s) = (n `min` count_chars s)%nat.
Proof.
  revert n; induction s as [|a s IH]; intros n; simpl; [lia|].
  destruct (is_continuation a) eqn:E; simpl; [rewrite E; simpl; apply IH|].
  destruct n; simpl; [done|]. rewrite E. simpl. by rewrite IH.
Qed.

Lemma take_chars_prefix n s : exists r, s = take_chars n s +:+ r.
Proof.
  revert n; induction s as [|a s IH]; intros n; simpl; [by exists EmptyString|].
  destruct (is_continuation a).
  - destruct (IH n) as [r Hr]. exists r. by rewrite Hr at 1.
  - destruct n; [by eexists|]. destruct (IH n) as [r Hr]. exists r. by rewrite Hr at 1.
Qed.

(** *** Inserts *)

Lemma insert_pk_Ok {K A} `{Countable K} table (k : K) (a : A) m m' :
  insert_pk table k a m = Ok m' <-> m !! k = None /\ m' = <[k:=a]> m.
Proof. unfold insert_pk. destruct (m !! k); naive_solver. Qed.

Lemma insert_slot_Ok k row m m' :
  insert_slot k row m = Ok m' -> m !! k = None /\ m' = <[k:=row]> m.
Proof. unfold insert_slot. destruct (root_taken _ _); [done|]. apply insert_pk_Ok. Qed.

(** Inserting fresh rows succeeds and adds exactly those rows. *)
Lemma insert_index_rows_spec slot added m :
  (forall h, is_Some (added !! h) -> m !! h = None) ->
  insert_index_rows slot added m
  = Ok (((fun i => {| array_index := i; ix_slot := as_i32 slot |}) <$> added) ∪ m).
Proof.
  unfold insert_index_rows. revert m. induction added as [|h i added Hh Hfirst IH] using map_first_key_ind;
    intros m Hf; simpl.
  - rewrite map_to_list_empty. simpl. by rewrite fmap_empty, (left_id_L ∅ (∪)).
  - rewrite map_to_list_insert_first_key by done. simpl. unfold insert_pk at 1.
    rewrite (Hf h) by (rewrite lookup_insert_eq; eauto). simpl. rewrite IH.
    + f_equal. rewrite fmap_insert, <- insert_union_l. apply map_eq. intros h'.
      destruct (decide (h' = h)) as [->|Hne].
      * rewrite lookup_insert_eq, lookup_union_r, lookup_insert_eq; [done|].
        by rewrite lookup_fmap, Hh.
      * rewrite lookup_insert_ne, !lookup_union, lookup_insert_ne by done. done.
    + intros h' Hh'. rewrite lookup_insert_ne by (intros ->; rewrite Hh in Hh'; by destruct Hh').
      apply Hf. rewrite lookup_insert_is_Some. destruct (decide (h = h')); auto.
Qed.

(** ** The log and the ledgers behind it

    [G] gives the ledger represented by each slot that has a state. *)

Definition ledger_le (L L' : Ledger) : Prop :=
  l_created L `prefix_of` l_created L' /\ l_nullifiers L ⊆ l_nullifiers L'
  /\ l_history L `prefix_of` l_history L'.

#[export] Instance ledger_le_preorder : PreOrder ledger_le.
Proof.
  split; [intros L; by split_and!|].
  intros L1 L2 L3 (? & ? & ?) (? & ? & ?). split_and!; by etrans.
Qed.

Definition index_row (G : gmap Z Ledger) (h : Hash) (row : IndexRow) : Prop :=
  exists k L, G !! ix_slot row = Some L /\ l_created L !! k = Some h /\ array_index row = Z.of_nat k
    /\ forall sl L', sl < ix_slot row -> G !! sl = Some L' -> (length (l_created L') <= k)%nat.

Definition head_ledger (G : gmap Z Ledger) : Ledger :=
  default empty_ledger (max_key (fun _ _ => true) G ≫= (G !!.)).

Section Log.
Context `{Pod2, MerkleModel}.
Implicit Types (G : gmap Z Ledger) (d : Db) (t : Tables).

Record log_inv d t G : Prop := {
  li_dom sl : is_Some (G !! sl) <-> exists r, slots t !! sl = Some r /\ is_Some (cols r);
  li_rep sl r c L : slots t !! sl = Some r -> cols r = Some c -> G !! sl = Some L ->
    state_rep d (Some (decode_state_row c)) L;
  li_mono sl sl' L L' : sl <= sl' -> G !! sl = Some L -> G !! sl' = Some L' -> ledger_le L L';
  li_index h row : created_index t !! h = Some row <-> index_row G h row;
}.

Lemma log_inv_empty d : log_inv d empty_tables ∅.
Proof.
  split; simpl.
  - intros sl. rewrite !lookup_empty. split; [by intros []|]. by intros (r & ? & _).
  - intros sl r c L. by rewrite lookup_empty.
  - intros sl sl' L L' _. by rewrite lookup_empty.
  - intros h row. rewrite lookup_empty. split; [done|]. intros (k & L & HL & _).
    by rewrite lookup_empty in HL.
Qed.

Lemma log_inv_db_mono d d' t G : db_le d d' -> log_inv d t G -> log_inv d' t G.
Proof. intros Hle []. split; eauto using state_rep_mono. Qed.

(** The head row carries the greatest ledger. *)
Lemma head_slot d t G : log_inv d t G -> max_key has_state (slots t) = max_key (fun _ _ => true) G.
Proof.
  intros [Hd _ _ _]. pose proof (max_key_spec (fun _ _ => true) G) as HG.
  pose proof (max_key_spec has_state (slots t)) as Ht.
  destruct (max_key (fun _ _ => true) G) as [k|].
  - destruct HG as [(L & Hk & _) Hmax]. destruct (proj1 (Hd k)) as (r & Hr & [c Hc]); [by eauto|].
    apply max_key_is with r; [done|unfold has_state; by rewrite Hc|].
    intros k' r' Hr' Hs. destruct (proj2 (Hd k')) as [L' HL'].
    { exists r'. split; [done|]. unfold has_state in Hs. destruct (cols r'); [eauto|done]. }
    by eapply Hmax.
  - destruct (max_key has_state (slots t)) as [k|]; [|done].
    destruct Ht as [(r & Hr & Hs) _]. destruct (proj2 (Hd k)) as [L' HL'].
    { exists r. split; [done|]. unfold has_state in Hs. destruct (cols r); [eauto|done]. }
    by pose proof (HG _ _ HL').
Qed.

Lemma head_state_rep d t G : log_inv d t G -> state_rep d (don_state_at_head t) (head_ledger G).
Proof.
  intros Hi. unfold don_state_at_head, slot_state_at_head, head_ledger.
  rewrite (head_slot d t G) by done. pose proof (max_key_spec (fun _ _ => true) G) as HG.
  destruct (max_key (fun _ _ => true) G) as [k|]; simpl; [|apply state_rep_genesis].
  destruct HG as [(L & HL & _) _]. rewrite HL. simpl.
  destruct (proj1 (li_dom _ _ _ Hi k)) as (r & Hr & [c Hc]); [by eauto|].
  rewrite Hr. simpl. rewrite Hc. simpl. by eapply li_rep.
Qed.

Lemma head_ledger_max d t G sl L : log_inv d t G -> G !! sl = Some L -> ledger_le L (head_ledger G).
Proof.
  intros Hi HL. unfold head_ledger. pose proof (max_key_spec (fun _ _ => true) G) as HG.
  destruct (max_key (fun _ _ => true) G) as [k|]; simpl.
  - destruct HG as [(L' & HL' & _) Hmax]. rewrite HL'. simpl. eapply li_mono; [done| |done..].
    by eapply Hmax.
  - by pose proof (HG _ _ HL).
Qed.

Lemma head_ledger_eq G : head_ledger G = empty_ledger /\ G = ∅
  \/ exists sl, G !! sl = Some (head_ledger G) /\ max_key (fun _ _ => true) G = Some sl.
Proof.
  unfold head_ledger. pose proof (max_key_spec (fun _ _ => true) G) as HG.
  destruct (max_key (fun _ _ => true) G) as [k|]; simpl.
  - right. destruct HG as [(L' & HL' & _) _]. exists k. by rewrite HL'.
  - left. split; [done|]. apply map_eq. intros k. rewrite lookup_empty.
    destruct (G !! k) eqn:E; [by pose proof (HG _ _ E)|done].
Qed.

(** The index holds exactly the head's created list. *)
Lemma index_exact d t G h i :
  log_inv d t G ->
  ((array_index <$> created_index t) !! h = Some i
   <-> exists k, l_created (head_ledger G) !! k = Some h /\ i = Z.of_nat k).
Proof.
  intros Hi. rewrite lookup_fmap. split.
  - intros (row & Hrow & ->)%fmap_Some.
    apply (li_index _ _ _ Hi) in Hrow as (k & L & HL & Hk & -> & _). exists k. split; [|done].
    destruct (head_ledger_max _ _ _ _ _ Hi HL) as [[l ->] _]. by apply lookup_app_l_Some.
  - intros (k & Hk & ->). destruct (head_ledger_eq G) as [[He _]|(sl & Hsl & _)].
    { rewrite He in Hk. cbn in Hk. by rewrite lookup_nil in Hk. }
    pose proof (min_key_spec (fun _ L => (k <? length (l_created L))%nat) G) as Hmin.
    apply lookup_lt_Some in Hk as Hlt.
    destruct (min_key _ G) as [s0|]; [|pose proof (Hmin _ _ Hsl) as Hf;
      apply Nat.ltb_ge in Hf; lia].
    destruct Hmin as [(L0 & HL0 & Hl0%Nat.ltb_lt) Hmin].
    assert (Hrow : index_row G h {| array_index := Z.of_nat k; ix_slot := s0 |}).
    { exists k, L0. split_and!; [done| |done|].
      - destruct (head_ledger_max _ _ _ _ _ Hi HL0) as [[l Hl] _].
        rewrite Hl, lookup_app_l in Hk by done. done.
      - intros s1 L1 Hs1 HL1. simpl in Hs1. destruct (Nat.le_gt_cases (length (l_created L1)) k); [done|].
        pose proof (Hmin _ _ HL1 ltac:(by apply Nat.ltb_lt)). lia. }
    apply (li_index _ _ _ Hi) in Hrow. by rewrite Hrow.
Qed.

Lemma created_indices_complete d t G objs :
  log_inv d t G -> index_complete (created_indices objs t) (head_ledger G) objs.
Proof.
  intros Hi k h Hk Hh. unfold created_indices. apply map_lookup_filter_Some.
  split; [|done]. apply (index_exact d t G); eauto.
Qed.

(** Rolling back keeps the rows of the slots that stay. *)
Lemma rollback_inv d t G keep :
  log_inv d t G ->
  log_inv d (rollback_to_slot keep t) (filter (fun kv => kv.1 <= as_i32 keep) G).
Proof.
  intros [Hd Hr Hm Hx]. split; simpl.
  - intros sl. split.
    + intros [L [HL Hle]%map_lookup_filter_Some]. destruct (proj1 (Hd sl)) as (r & Hs & Hc); [eauto|].
      exists r. split; [|done]. by apply map_lookup_filter_Some.
    + intros (r & [Hs Hle]%map_lookup_filter_Some & Hc). destruct (proj2 (Hd sl)) as [L HL]; [eauto|].
      exists L. by apply map_lookup_filter_Some.
  - intros sl r c L [Hs _]%map_lookup_filter_Some Hc [HL _]%map_lookup_filter_Some. by eapply Hr.
  - intros sl sl' L L' Hle [HL _]%map_lookup_filter_Some [HL' _]%map_lookup_filter_Some. by eapply Hm.
  - intros h row. rewrite map_lookup_filter_Some, Hx. simpl. unfold index_row. split.
    + intros [(k & L & HL & Hk & Hi & Hmin) Hle]. exists k, L. split_and!; [|done..|].
      * by apply map_lookup_filter_Some.
      * intros sl L' Hsl [HL' _]%map_lookup_filter_Some. by eapply Hmin.
    + intros (k & L & [HL Hle]%map_lookup_filter_Some & Hk & Hi & Hmin). split; [|done].
      exists k, L. split_and!; [done..|]. intros sl L' Hsl HL'. apply (Hmin sl L' Hsl).
      apply map_lookup_filter_Some. split; [done|]. simpl in *. lia.
Qed.

(** A commitment added on top of the head has no index row yet. *)
Lemma added_fresh d t G L' added h :
  log_inv d t G -> ledger_le (head_ledger G) L' -> NoDup (l_created L') ->
  added_rows (head_ledger G) L' added -> is_Some (added !! h) -> created_index t !! h = None.
Proof.
  intros Hi [[l Hl] _] Hnd Ha [i (k & Hk & -> & Hge)%Ha].
  destruct (created_index t !! h) as [row|] eqn:E; [|done].
  assert (Hx : (array_index <$> created_index t) !! h = Some (array_index row)).
  { by rewrite lookup_fmap, E. }
  apply (index_exact d t G) in Hx as (k' & Hk' & _); [|done].
  apply lookup_lt_Some in Hk' as Hlt.
  assert (k' = k); [|lia]. eapply NoDup_lookup; [exact Hnd| |exact Hk].
  rewrite Hl. by apply lookup_app_l_Some.
Qed.

Definition slots_below t (s : Z) : Prop := forall k, is_Some (slots t !! k) -> k < s.

Lemma below_ledgers d t G s sl :
  log_inv d t G -> slots_below t s -> is_Some (G !! sl) -> sl < s.
Proof. intros Hi Hb (r & Hr & _)%(li_dom _ _ _ Hi). apply Hb. eauto. Qed.

Lemma index_row_insert d t G s L' h row :
  log_inv d t G -> slots_below t s ->
  index_row (<[s:=L']> G) h row <->
    (ix_slot row = s /\ exists k, l_created L' !! k = Some h /\ array_index row = Z.of_nat k
       /\ (length (l_created (head_ledger G)) <= k)%nat)
    \/ index_row G h row.
Proof.
  intros Hi Hb.
  assert (Hlt : forall sl L, G !! sl = Some L -> sl < s).
  { intros sl L HL. eapply below_ledgers; eauto. }
  assert (Hhead : forall k : nat,
      (forall sl L, sl < s -> G !! sl = Some L -> (length (l_created L) <= k)%nat)
      <-> (length (l_created (head_ledger G)) <= k)%nat).
  { intros k. split.
    - intros Hk. destruct (head_ledger_eq G) as [[-> _]|(sl & Hsl & _)]; [simpl; lia|eauto].
    - intros Hk sl L _ HL. destruct (head_ledger_max _ _ _ _ _ Hi HL) as [Hp _].
      apply prefix_length in Hp. lia. }
  destruct row as [xi xs]. unfold index_row. simpl. split.
  - intros (k & L & HL & Hk & Hx & Hmin).
    apply lookup_insert_Some in HL as [[<- ->]|[Hne HL]].
    + left. split; [done|]. exists k. split_and!; [done..|]. apply Hhead. intros sl L'' Hsl HL''.
      apply (Hmin sl L'' Hsl). rewrite lookup_insert_ne by lia. done.
    + right. exists k, L. split_and!; [done..|]. intros sl L'' Hsl HL''.
      apply (Hmin sl L'' Hsl). apply Hlt in HL as ?. rewrite lookup_insert_ne by lia. done.
  - intros [(<- & k & Hk & Hx & Hge)|(k & L & HL & Hk & Hx & Hmin)].
    + exists k, L'. split_and!; [by rewrite lookup_insert_eq|done..|].
      intros sl L'' Hsl. rewrite lookup_insert_ne by lia. revert sl L'' Hsl. by apply Hhead.
    + exists k, L. apply Hlt in HL as ?. split_and!; [by rewrite lookup_insert_ne by lia|done..|].
      intros sl L'' Hsl. rewrite lookup_insert_ne by lia. by apply Hmin.
Qed.

Lemma commit_derived_inv d d' t t' G slot root ds sts L' :
  log_inv d t G -> db_le d d' -> slots_below t (as_i32 slot) ->
  state_rep d' (Some (state ds)) L' -> u64_state (state ds) -> ledger_le (head_ledger G) L' ->
  added_rows (head_ledger G) L' (created_added ds) ->
  commit_slot slot root (Some ds) sts t = Ok t' -> log_inv d' t' (<[as_i32 slot:=L']> G).
Proof.
  intros Hi Hdb Hb Hs Hu Hle Ha Hc. unfold commit_slot in Hc.
  pose proof (sr_nodup _ _ _ Hs) as Hnd.
  apply rbind_Ok in Hc as (slots' & [Hfresh ->]%insert_slot_Ok & Hc).
  rewrite insert_index_rows_spec in Hc by (intros h; by eapply added_fresh). simpl in Hc.
  apply rbind_Ok in Hc as (sts' & _ & [= <-]). split; simpl.
  - intros sl. destruct (decide (sl = as_i32 slot)) as [->|Hne].
    + rewrite !lookup_insert_eq. split; [intros _; eexists; split; [done|simpl; eauto]|eauto].
    + rewrite !lookup_insert_ne by done. apply Hi.
  - intros sl r c L. destruct (decide (sl = as_i32 slot)) as [->|Hne].
    + rewrite !lookup_insert_eq. intros [= <-] [= <-] [= <-]. simpl. by rewrite decode_encode_state.
    + rewrite !lookup_insert_ne by done. intros. eapply state_rep_mono; [done|]. by eapply li_rep.
  - intros sl sl' L1 L2 Hsl HL1 HL2.
    apply lookup_insert_Some in HL1 as [[E1 F1]|[Hne1 HL1]];
      apply lookup_insert_Some in HL2 as [[E2 F2]|[Hne2 HL2]]; subst; [done|..].
    + assert (sl' < as_i32 slot) by (eapply below_ledgers; eauto). lia.
    + etrans; [by eapply head_ledger_max|done].
    + by eapply li_mono; [|exact Hsl|..].
  - intros h row. rewrite (index_row_insert d t G) by done.
    rewrite lookup_union_Some_raw, lookup_fmap, <- (li_index _ _ _ Hi). split.
    + intros [(i & Hai & ->)%fmap_Some_1|[_ Hrow]]; [left|by right].
      apply Ha in Hai as (k & Hk & -> & Hge). split; [done|]. by exists k.
    + intros [(Hsl & k & Hk & Hx & Hge)|Hrow].
      * left. apply fmap_Some. exists (Z.of_nat k). split; [apply Ha; eauto|].
        destruct row; simpl in *; congruence.
      * right. split; [|done]. apply fmap_None.
        destruct (created_added ds !! h) eqn:E; [|done].
        assert (created_index t !! h = None) by (eapply added_fresh; eauto). congruence.
Qed.

Lemma commit_empty_inv d t t' G slot root :
  log_inv d t G -> commit_slot slot root None [] t = Ok t' -> log_inv d t' G.
Proof.
  intros Hi Hc. unfold commit_slot in Hc.
  apply rbind_Ok in Hc as (slots' & [Hfresh ->]%insert_slot_Ok & Hc).
  rewrite insert_index_rows_spec in Hc by (intros h [i Hx]; by rewrite lookup_empty in Hx).
  simpl in Hc. injection Hc as <-. destruct Hi as [Hd Hr Hm Hx]. split; simpl; [..|done|].
  - intros sl. destruct (decide (sl = as_i32 slot)) as [->|Hne].
    + rewrite lookup_insert_eq, Hd. split.
      * intros (r & Hs & _). congruence.
      * intros (r & [= <-] & [c Hc']). done.
    + by rewrite lookup_insert_ne by done.
  - intros sl r c L. destruct (decide (sl = as_i32 slot)) as [->|Hne].
    + rewrite lookup_insert_eq. by intros [= <-].
    + rewrite lookup_insert_ne by done. apply Hr.
  - intros h row. by rewrite fmap_empty, (left_id_L ∅ (∪)).
Qed.
End Log.

(** ** Undoing a commit *)

(** Index and status rows belong to a slot that is in the log, and statuses to
    one with an execution block. *)
Record tables_wf (t : Tables) : Prop := {
  wf_index h r : created_index t !! h = Some r -> is_Some (slots t !! ix_slot r);
  wf_status k r : tx_statuses t !! k = Some r ->
    exists row, slots t !! st_slot r = Some row /\ is_Some (cols row);
}.

Lemma tables_wf_empty : tables_wf empty_tables.
Proof. split; simpl; intros ??; by rewrite lookup_empty. Qed.

(** Inserting rows a filter rejects does not change what it keeps. *)
Lemma insert_pk_filter {K A} `{Countable K} (P : K * A -> Prop) `{!forall x, Decision (P x)}
    table (k : K) (a : A) m m' :
  insert_pk table k a m = Ok m' -> ~ P (k, a) -> filter P m' = filter P m.
Proof.
  intros [Hk ->]%insert_pk_Ok Hp. rewrite map_filter_insert_False by done. by rewrite delete_id.
Qed.

Lemma insert_index_rows_filter P `{!forall x, Decision (P x)} slot added m m' :
  insert_index_rows slot added m = Ok m' ->
  (forall h r, ix_slot r = as_i32 slot -> ~ P (h, r)) -> filter P m' = filter P m.
Proof.
  intros Hi Hp. unfold insert_index_rows in Hi.
  eapply (try_fold_inv _ (fun _ acc => filter P acc = filter P m)) in Hi; [done|done|].
  intros pre [h i] acc acc' <- Hins. by eapply insert_pk_filter; [|apply Hp].
Qed.

Lemma insert_status_rows_filter P `{!forall x, Decision (P x)} slot txs m m' :
  insert_status_rows slot txs m = Ok m' ->
  (forall k r, st_slot r = as_i32 slot -> ~ P (k, r)) -> filter P m' = filter P m.
Proof.
  intros Hi Hp. unfold insert_status_rows in Hi.
  eapply (try_fold_inv _ (fun _ acc => filter P acc = filter P m)) in Hi; [done|done|].
  intros pre tx acc acc' <- Hins.
  eapply (try_fold_inv _ (fun _ a => filter P a = filter P acc)) in Hins; [done|done|].
  intros pre' [i st] a a' <- Hpk. by eapply insert_pk_filter; [|apply Hp].
Qed.

Lemma insert_status_rows_wf slot txs m m' k r :
  insert_status_rows slot txs m = Ok m' -> m' !! k = Some r ->
  m !! k = Some r \/ (st_slot r = as_i32 slot /\ txs <> []).
Proof.
  intros Hi. revert k r. destruct txs as [|tx0 txs]; [injection Hi as <-; auto|].
  unfold insert_status_rows in Hi.
  set (I := fun acc : gmap (list byte * Z) StatusRow => forall k r, acc !! k = Some r ->
    m !! k = Some r \/ (st_slot r = as_i32 slot /\ tx0 :: txs <> [])).
  refine (try_fold_inv _ (fun _ acc => I acc) m _ m' _ _ Hi); [by unfold I; auto|].
  intros pre tx acc acc' Hacc Hins.
  refine (try_fold_inv _ (fun _ acc => I acc) acc _ acc' Hacc _ Hins).
  intros pre' [i st] a a' Ha [Hk ->]%insert_pk_Ok k r [[<- <-]|[_ Hr]]%lookup_insert_Some; [|auto].
  by right.
Qed.

Lemma commit_slot_inv slot root derived sts t t' :
  commit_slot slot root derived sts t = Ok t' ->
  slots t !! as_i32 slot = None
  /\ slots t' = <[as_i32 slot := {| cl_block_root := root;
                                    cols := encode_state ∘ state <$> derived |}]> (slots t)
  /\ insert_index_rows slot (match derived with Some ds => created_added ds | None => ∅ end)
       (created_index t) = Ok (created_index t')
  /\ insert_status_rows slot sts (tx_statuses t) = Ok (tx_statuses t').
Proof.
  unfold commit_slot. intros (s' & [Hf ->]%insert_slot_Ok & Hc)%rbind_Ok.
  apply rbind_Ok in Hc as (i' & Hi & Hc). apply rbind_Ok in Hc as (st' & Hs & [= <-]).
  by split_and!.
Qed.

Lemma commit_slot_wf slot root derived sts t t' :
  tables_wf t -> (sts <> [] -> is_Some derived) ->
  commit_slot slot root derived sts t = Ok t' -> tables_wf t'.
Proof.
  intros [Hi Hs] Hd (Hf & Hslots & Hx & Hst)%commit_slot_inv.
  assert (Hsub : forall k, is_Some (slots t !! k) -> is_Some (slots t' !! k)).
  { intros k Hk. rewrite Hslots, lookup_insert_is_Some'. by right. }
  split.
  - intros h r Hr. unfold insert_index_rows in Hx.
    revert h r Hr. refine (try_fold_inv _ (fun _ acc => forall h r, acc !! h = Some r ->
      is_Some (slots t' !! ix_slot r)) _ _ _ _ _ Hx).
    + intros h' r' Hr'. by eapply Hsub, Hi.
    + intros pre [h' i] acc acc' Hacc [Hk ->]%insert_pk_Ok h'' r''
        [[<- <-]|[_ Hr']]%lookup_insert_Some; [|eauto].
      simpl. rewrite Hslots, lookup_insert_eq. eauto.
  - intros k r Hr. eapply insert_status_rows_wf in Hst; [|done]. rewrite Hslots.
    destruct Hst as [Hold|[-> Hne]].
    + apply Hs in Hold as (row & Hrow & Hc). exists row. split; [|done].
      rewrite lookup_insert_ne; [done|]. intros Heq. congruence.
    + rewrite lookup_insert_eq. eexists; split; [done|]. simpl.
      destruct (Hd Hne) as [ds ->]. simpl. eauto.
Qed.

Lemma rollback_wf keep t : tables_wf t -> tables_wf (rollback_to_slot keep t).
Proof.
  intros [Hi Hs]. split; simpl.
  - intros h r [Hr Hle]%map_lookup_filter_Some. simpl in Hle. destruct (Hi _ _ Hr) as [row Hrow].
    exists row. by apply map_lookup_filter_Some.
  - intros k r [Hr Hle]%map_lookup_filter_Some. simpl in Hle. destruct (Hs _ _ Hr) as (row & Hrow & Hc).
    exists row. split; [|done]. by apply map_lookup_filter_Some.
Qed.

(** ** Selecting a transaction's status *)

Definition status_key_le (a b : (list byte * Z) * StatusRow) : Prop :=
  error_rank a.2 < error_rank b.2
  \/ (error_rank a.2 = error_rank b.2 /\ st_slot b.2 <= st_slot a.2).

Lemma status_before_key a b :
  if status_before a b then status_key_le a b else status_key_le b a.
Proof.
  unfold status_before, status_key_le.
  destruct (Z.ltb_spec (error_rank a.2) (error_rank b.2)); simpl; [lia|].
  destruct (Z.eqb_spec (error_rank a.2) (error_rank b.2)); simpl; [|lia].
  destruct (Z.ltb_spec (st_slot b.2) (st_slot a.2)); simpl; [lia|].
  destruct (Z.eqb_spec (st_slot b.2) (st_slot a.2)); simpl; [|lia].
  destruct (_ || _); lia.
Qed.

Lemma first_by_status l :
  match first_by status_before l with
  | Some x => x ∈ l /\ forall y, y ∈ l -> status_key_le x y
  | None => l = []
  end.
Proof.
  induction l as [|a l IH]; simpl; [done|].
  destruct (first_by status_before l) as [b|].
  - destruct IH as [Hin Hmin]. pose proof (status_before_key b a) as Hk.
    destruct (status_before b a).
    + split; [by right|]. intros y [->|Hy]%elem_of_cons; [done|auto].
    + split; [by left|]. intros y [->|Hy]%elem_of_cons; [right; lia|].
      specialize (Hmin y Hy). unfold status_key_le in *. lia.
  - subst l. split; [by left|]. intros y ->%list_elem_of_singleton. right. lia.
Qed.

(** ** Properties *)

(** A rewind undoes commits exactly. Committing a slot above every committed
    one and then rolling back to the slot before it restores all three tables,
    whatever state, index rows and statuses the commit wrote. *)
Theorem commit_rollback_restores (slot : Z) root derived sts (t t' : Tables) :
  tables_wf t -> slots_below t slot -> 1 <= slot < 2 ^ 31 ->
  commit_slot slot root derived sts t = Ok t' -> rollback_to_slot (slot - 1) t' = t.
Proof.
  intros [Hi Hs] Hb Hslot (Hf & Hslots & Hx & Hst)%commit_slot_inv.
  unfold rollback_to_slot. rewrite (as_i32_id slot) in Hf, Hslots by lia.
  rewrite (as_i32_id (slot - 1)) by lia.
  eapply (insert_index_rows_filter (fun kv => ix_slot kv.2 <= slot - 1)) in Hx;
    [|intros h r; rewrite as_i32_id by lia; simpl; lia].
  eapply (insert_status_rows_filter (fun kv => st_slot kv.2 <= slot - 1)) in Hst;
    [|intros h r; rewrite as_i32_id by lia; simpl; lia].
  rewrite Hx, Hst, Hslots, map_filter_insert_False by (simpl; lia). rewrite delete_id by done.
  destruct t as [ts ti tst]; simpl in *. f_equal; apply map_filter_id.
  - intros k r Hr. simpl. assert (k < slot) by (apply Hb; eauto). lia.
  - intros h r Hr. simpl. assert (ix_slot r < slot) by (apply Hb; eauto). lia.
  - intros k r Hr. simpl. assert (st_slot r < slot); [|lia].
    destruct (Hs _ _ Hr) as (row & Hrow & _). apply Hb. eauto.
Qed.

Definition sample_derived : DerivedSlot :=
  {| state := {| roots := StateRoots_empty;
                 metadata := {| state_root := EMPTY_HASH; block := sample_block; created_count := 1;
                                nullifier_count := 0; state_root_count := 1 |} |};
     created_added := {[ MkHash 4 4 4 4 := 0 ]} |}.
Definition sample_statuses : list TxStatus :=
  [{| tx_hash := [x01]; blob_statuses := [BlobStatus_default] |}].

Lemma commit_rollback_restores_witness :
  exists t', commit_slot 5 (Some [x02]) (Some sample_derived) sample_statuses empty_tables = Ok t'
    /\ rollback_to_slot 4 t' = empty_tables.
Proof.
  destruct (commit_slot 5 (Some [x02]) (Some sample_derived) sample_statuses empty_tables) as [t'|e]
    eqn:Ec; [|by vm_compute in Ec].
  exists t'. split; [done|].
  apply (commit_rollback_restores 5 (Some [x02]) (Some sample_derived) sample_statuses empty_tables t').
  - apply tables_wf_empty.
  - intros k [r Hr]. by vm_compute in Hr.
  - lia.
  - exact Ec.
Defined.

(** C23: the log stays consistent. Committing a derived slot above the others,
    committing an empty one, and rolling back each preserve the invariant that
    every stored state represents its ledger, that ledgers only grow along the
    log and that the created index lists exactly the head's created
    commitments at their positions. *)
Theorem state_log_invariant `{Pod2, MerkleModel} (d d' : Db) (t : Tables) (G : gmap Z Ledger)
    (slot : Z) (L' : Ledger) (ds : DerivedSlot) :
  log_inv d t G -> slots_below t (as_i32 slot) -> db_le d d' ->
  state_rep d' (Some (state ds)) L' -> u64_state (state ds) -> ledger_le (head_ledger G) L' ->
  added_rows (head_ledger G) L' (created_added ds) ->
  (forall root sts t', commit_slot slot root (Some ds) sts t = Ok t' ->
     log_inv d' t' (<[as_i32 slot:=L']> G) /\ head_ledger (<[as_i32 slot:=L']> G) = L')
  /\ (forall root t', commit_slot slot root None [] t = Ok t' -> log_inv d t' G)
  /\ (forall keep, log_inv d (rollback_to_slot keep t) (filter (fun kv => kv.1 <= as_i32 keep) G))
  /\ (forall h i, (array_index <$> created_index t) !! h = Some i
        <-> exists k, l_created (head_ledger G) !! k = Some h /\ i = Z.of_nat k).
Proof.
  intros Hi Hb Hdb Hs Hu Hle Ha. split_and!.
  - intros root sts t' Hc. split; [by eapply commit_derived_inv|].
    unfold head_ledger. rewrite (max_key_is _ _ (as_i32 slot) L'); [|by rewrite lookup_insert_eq|done|].
    + simpl. by rewrite lookup_insert_eq.
    + intros k v [[<- _]|[_ Hk]]%lookup_insert_Some _; [done|].
      assert (k < as_i32 slot); [|lia]. eapply below_ledgers; eauto.
  - intros root t' Hc. by eapply commit_empty_inv.
  - intros keep. by apply rollback_inv.
  - intros h i. by apply (index_exact d t G).
Qed.

Lemma state_log_invariant_witness :
  exists ds L' d', forall root sts t', commit_slot 5 root (Some ds) sts empty_tables = Ok t' ->
    @log_inv Toy.toy_pod2 _ ToyStore.toy_model d' t' (<[as_i32 5:=L']> ∅).
Proof.
  destruct sample_facts as (ds & d' & L' & Hs & Ha & Hb & Hc & Hn & Hh & Hle).
  exists ds, L', d'.
  destruct (@state_log_invariant Toy.toy_pod2 _ ToyStore.toy_model (ToyStore.MkStore ∅ ∅) d'
    empty_tables ∅ 5 L' ds (log_inv_empty _)) as [Hcommit _]; [..|naive_solver].
  - intros k [r Hr]. cbn in Hr. by rewrite lookup_empty in Hr.
  - exact Hle.
  - exact Hs.
  - destruct Hs. unfold u64_state. cbn [base_meta] in *. rewrite Hb.
    rewrite sr_created_count0, sr_nullifier_count0, sr_history_count0, Hc, Hn, Hh.
    rewrite size_singleton. repeat (apply Forall_cons; split; [simpl; lia|]). by apply Forall_nil.
  - split_and!; [apply prefix_nil|apply empty_subseteq|apply prefix_nil].
  - exact Ha.
Defined.

(** Which status a transaction commitment is reported with: the applied
    blob when some committed blob of it was applied, otherwise the rejected one
    of the latest slot; nothing exactly when no committed blob carries it. *)
Theorem tx_status_prefers_applied (h : Hash) (t : Tables) :
  tables_wf t ->
  match tx_status_by_tx_final h t with
  | Ok (Some s) => exists k r, tx_statuses t !! k = Some r /\ st_tx_final r = Some h
      /\ tbs_tx_hash s = k.1 /\ tbs_error s = st_error r
      /\ forall k' r', tx_statuses t !! k' = Some r' -> st_tx_final r' = Some h ->
           (st_error r' = None -> st_error r = None)
           /\ (st_error r <> None -> st_slot r' <= st_slot r)
  | Ok None => forall k r, tx_statuses t !! k = Some r -> st_tx_final r <> Some h
  | Err _ => False
  end.
Proof.
  intros [_ Hs]. unfold tx_status_by_tx_final.
  match goal with |- context [first_by _ ?l] => set (rows := l) end.
  assert (Hrows : forall k r, (k, r) ∈ rows <-> tx_statuses t !! k = Some r /\ st_tx_final r = Some h).
  { intros k r. unfold rows. rewrite list_elem_of_filter, elem_of_map_to_list. simpl. split; [naive_solver|].
    intros [Hr Hf]. destruct (Hs _ _ Hr) as (row & Hrow & _). naive_solver. }
  pose proof (first_by_status rows) as Hf. destruct (first_by status_before rows) as [[k r]|].
  - destruct Hf as [[Hr Hfin]%Hrows Hmin]. destruct (Hs _ _ Hr) as (row & Hrow & c & Hc).
    unfold decode_tx_blob_status_row. rewrite Hrow. simpl. rewrite Hc. simpl.
    exists k, r. split_and!; [done..|]. intros k' r' Hr' Hf'.
    assert (Hk : status_key_le (k, r) (k', r')) by (apply Hmin, Hrows; done).
    unfold status_key_le, error_rank in Hk. simpl in Hk.
    destruct (st_error r), (st_error r'); split; (done || lia || (intros; lia)).
  - intros k r Hr Hfin. assert (Hin : (k, r) ∈ rows) by (by apply Hrows). rewrite Hf in Hin.
    by apply not_elem_of_nil in Hin.
Qed.

Lemma tx_status_prefers_applied_witness :
  exists t', commit_slot 5 (Some [x02]) (Some sample_derived) sample_statuses empty_tables = Ok t'
    /\ match tx_status_by_tx_final EMPTY_HASH t' with Err _ => False | _ => True end.
Proof.
  destruct (commit_slot 5 (Some [x02]) (Some sample_derived) sample_statuses empty_tables) as [t'|e]
    eqn:Ec; [|by vm_compute in Ec].
  exists t'. split; [done|].
  assert (Hwf : tables_wf t') by (eapply commit_slot_wf; [apply tables_wf_empty| |exact Ec]; eauto).
  pose proof (tx_status_prefers_applied EMPTY_HASH t' Hwf) as Ht.
  destruct (tx_status_by_tx_final EMPTY_HASH t') as [[]|]; done.
Defined.

(** A stored error never exceeds [MAX_STORED_ERROR_CHARS] characters: a
    short one is kept as it is, a long one becomes its first 253 characters,
    cut on a character boundary, followed by three dots. *)
Theorem cap_error_bounded (e : string) :
  (count_chars (cap_error e) <= MAX_STORED_ERROR_CHARS)%nat
  /\ (if (count_chars e <=? MAX_STORED_ERROR_CHARS)%nat then cap_error e = e
      else exists p r, e = p +:+ r /\ cap_error e = p +:+ "..." /\ count_chars p = 253%nat).
Proof.
  unfold cap_error. destruct (Nat.leb_spec (count_chars e) MAX_STORED_ERROR_CHARS) as [Hle|Hgt].
  - by split.
  - unfold MAX_STORED_ERROR_CHARS in *. rewrite count_chars_app, count_take_chars.
    change (count_chars "...") with 3%nat. split; [lia|].
    destruct (take_chars_prefix (256 - 3) e) as [r Hr]. exists (take_chars (256 - 3) e), r.
    split_and!; [done..|]. rewrite count_take_chars. lia.
Qed.

End StateLog.
