(* ===== verification/Archiver.v ===== *)
(** * The archiver's blob endpoint (services/archiver/src/api.rs)

    The synchronizer fetches the blobs of a block from the archiver by versioned
    hash. The handler sorts and deduplicates the requested hashes, looks each up
    among the stored blobs of the block and answers in block order. *)

From stdpp Require Import sorting.
From S2P Require Import Prelude Pod2.

Module Archiver.

Abbreviation B256 := (list byte).
Abbreviation Blob := (list byte).

(** A stored blob: its index among the block's blobs, its versioned hash, its
    bytes. *)
Record StoredBlob : Type := { index : nat; vh : B256; blob : Blob }.

Inductive Response : Type :=
| Data (blobs : list Blob)
| NotFound (msg : string)
| InternalError (msg : string).

Definition B256_le (a b : B256) : Prop := (be_value a <= be_value b)%Z.
#[global] Instance B256_le_dec a b : Decision (B256_le a b).
Proof. unfold B256_le. apply _. Defined.

(** [Vec::dedup]: drops consecutive repetitions. *)
Fixpoint dedup (l : list B256) : list B256 :=
  match l with
  | a :: (b :: _) as l' => if decide (a = b) then dedup l' else a :: dedup l'
  | _ => l
  end.

Definition find_blob (block_blobs : list StoredBlob) (h : B256) : option StoredBlob :=
  snd <$> list_find (fun s => vh s = h) block_blobs.

Fixpoint lookup_blobs (block_blobs : list StoredBlob) (vhs : list B256) : result string (list StoredBlob) :=
  match vhs with
  | [] => Ok []
  | h :: vhs' =>
      match find_blob block_blobs h with
      | Some s => let? rest := lookup_blobs block_blobs vhs' in Ok (s :: rest)
      | None => Err "blob with versioned_hash not found in stored blobs"
      end
  end.

Definition index_le (a b : StoredBlob) : Prop := (index a <= index b)%nat.
#[global] Instance index_le_dec a b : Decision (index_le a b).
Proof. unfold index_le. apply _. Defined.

Definition get_blobs (load_blobs_disk : Result (list StoredBlob)) (versioned_hashes : list B256) :
    Response :=
  match load_blobs_disk with
  | Err (Fail e) | Err (Panic e) => InternalError e
  | Ok block_blobs =>
      let vhs := dedup (merge_sort B256_le versioned_hashes) in
      match lookup_blobs block_blobs vhs with
      | Err e => NotFound e
      | Ok blobs => Data (blob <$> merge_sort index_le blobs)
      end
  end.

(** ** Lemmas *)

Lemma dedup_elem l x : x ∈ dedup l <-> x ∈ l.
Proof.
  induction l as [|a l IH]; [done|]. destruct l as [|b l]; [done|].
  change (dedup (a :: b :: l)) with (if decide (a = b) then dedup (b :: l) else a :: dedup (b :: l)).
  case_decide; set_solver.
Qed.

#[global] Instance B256_le_total : Total B256_le.
Proof. intros a b. unfold B256_le. lia. Qed.

#[global] Instance B256_le_trans : Transitive B256_le.
Proof. intros a b c. unfold B256_le. lia. Qed.

#[global] Instance index_le_total : Total index_le.
Proof. intros a b. unfold index_le. lia. Qed.

#[global] Instance index_le_trans : Transitive index_le.
Proof. intros a b c. unfold index_le. lia. Qed.

(** On 32-byte values the order is antisymmetric, so sorting makes repetitions
    adjacent and [dedup] removes them all. *)
Lemma be_value_inj a b : length a = length b -> be_value a = be_value b -> a = b.
Proof.
  unfold be_value. intros Hl Hv.
  rewrite <- (rev_involutive a), <- (rev_involutive b). f_equal.
  rewrite <- (le_bytes_value (rev a)), <- (le_bytes_value (rev b)), Hv. f_equal.
  by rewrite !length_rev.
Qed.

Lemma dedup_NoDup l :
  Forall (fun x => length x = 32%nat) l -> StronglySorted B256_le l -> NoDup (dedup l).
Proof.
  induction l as [|a l IH]; intros Hl Hs; [constructor|]. apply Forall_cons in Hl as [Ha Hl].
  inversion Hs as [|? ? Hs' Hall]; subst. destruct l as [|b l]; [apply NoDup_singleton|].
  change (dedup (a :: b :: l)) with (if decide (a = b) then dedup (b :: l) else a :: dedup (b :: l)).
  case_decide as Hab; [by apply IH|]. apply NoDup_cons. split; [|by apply IH].
  rewrite dedup_elem. intros [->|Hin]%elem_of_cons; [done|].
  apply Forall_cons in Hall as [Hle _]. inversion Hs' as [|? ? _ Hall']; subst.
  apply Hab, be_value_inj; [apply Forall_cons in Hl as [-> _]; done|].
  rewrite Forall_forall in Hall'. specialize (Hall' _ Hin). unfold B256_le in *. lia.
Qed.

Lemma lookup_blobs_Ok bs vhs ss :
  lookup_blobs bs vhs = Ok ss -> Forall2 (fun h s => find_blob bs h = Some s) vhs ss.
Proof.
  revert ss; induction vhs as [|h vhs IH]; intros ss; simpl; [intros [= <-]; constructor|].
  destruct (find_blob bs h) eqn:E; [|done]. intros (rest & Hr & [= <-])%rbind_Ok.
  constructor; auto.
Qed.

Lemma find_blob_Some bs h s : find_blob bs h = Some s -> s ∈ bs /\ vh s = h.
Proof.
  unfold find_blob. intros ([i s'] & (Hi & Hh & _)%list_find_Some & ->)%fmap_Some.
  split; [by eapply list_elem_of_lookup_2|done].
Qed.

End Archiver.
