(* ===== verification/Node.v ===== *)
(** * The synchronizer node (services/synchronizer/src/node.rs)

    What connects the chain, the state machine and the state log: resolving the
    execution payload that becomes canonical with a beacon block, fetching and
    decoding its blobs, deriving the slot against the committed head and
    committing it. The beacon, execution and archiver clients are the oracle
    [Chain]; polling until an answer is available is part of the oracle. *)

From stdpp Require Import sorting.
From S2P Require Import Prelude Blob Pod2 Models Payload DonState ContainerDb.
From S2P Require Import StateMachine StateLog Archiver.

Module Node.
Import DonState ContainerDb StateMachine.
Local Open Scope Z_scope.
Abbreviation B256 := (list byte).

(** ** Definitions *)

(** *** Beacon types (libs/eth-clients/src/beacon/types.rs) *)

Record BlockHeader : Type := { hd_root : B256; hd_parent_root : B256; hd_slot : Z }.

Inductive ExecutionPayloadRef : Type :=
| Embedded (block_hash : B256)
| Bid (block_hash parent_block_hash : B256).

Definition block_hash (r : ExecutionPayloadRef) : B256 :=
  match r with Embedded h => h | Bid h _ => h end.

Record Block : Type := {
  blob_kzg_commitments : list (list byte);
  execution_payload : ExecutionPayloadRef;
  parent_root : B256;
  blk_slot : Z;
}.

Definition builds_on_payload_of (self parent : Block) : bool :=
  match execution_payload self, execution_payload parent with
  | Bid _ parent_block_hash, Bid h _ => bool_decide (parent_block_hash = h)
  | _, _ => false
  end.

Record BlockAndRoot : Type := { br_root : B256; br_block : Block }.

(** *** What the node asks of the chain *)

Record ExecTx : Type := {
  etx_to : option (list byte);
  etx_hash : B256;
  etx_blob_versioned_hashes : option (list B256);
}.
Record ExecBlock : Type := {
  eb_number : Z;
  eb_timestamp : Z;
  (** [None] when the block was fetched with transaction hashes only. *)
  eb_transactions : option (list ExecTx);
}.

Class Chain : Type := {
  get_block_header : Z -> Result (option BlockHeader);
  get_beacon_block : B256 -> Result Block;
  get_execution_block : B256 -> bool -> Result ExecBlock;
  archiver_get_blobs : B256 -> list B256 -> Result (list (list byte));
  kzg_to_versioned_hash : list byte -> B256;
}.

Record TargetBlobTx : Type := { tbt_tx_hash : B256; tbt_versioned_hashes : list B256 }.

Record CanonicalPayload : Type := {
  committing_block_root : B256;
  execution_block : ExecutionBlock;
  kzg_blob_commitments : list (B256 * list byte);
  target_blob_txs : list TargetBlobTx;
}.

Record SlotContext : Type := {
  sc_slot : Z;
  beacon_block_root : B256;
  sc_payload : option CanonicalPayload;
  sc_target_txs : list (TargetTx (list byte));
}.

Record ProcessedSlot : Type := {
  ps_slot : Z;
  ps_block_root : option B256;
  ps_derived : option DerivedSlot;
  ps_tx_statuses : list TxStatus;
}.

Section Fetch.
Context `{Chain} (to_address : list byte).

(** *** Blobs *)

(** The loop of [get_blobs]: the fetched blobs, in block order, are handed out
    to the commitments whose hash was requested. *)
Fixpoint assign_blobs (commitments : list (B256 * list byte)) (versioned_hashes : list B256)
    (blobs : list (list byte)) (m : gmap B256 (list byte)) : Result (gmap B256 (list byte)) :=
  match commitments with
  | [] => Ok m
  | (vh, _) :: rest =>
      if decide (vh ∈ versioned_hashes) then
        match blobs with
        | [] => Err (Panic "not empty")
        | b :: blobs' => assign_blobs rest versioned_hashes blobs' (<[vh:=b]> m)
        end
      else assign_blobs rest versioned_hashes blobs m
  end.

Definition get_blobs (root : B256) (commitments : list (B256 * list byte))
    (versioned_hashes : list B256) : Result (gmap B256 (list byte)) :=
  let? blobs := archiver_get_blobs root versioned_hashes in
  rensure (length blobs =? length versioned_hashes)%nat
    ("Fetched " +:+ pretty (length versioned_hashes) +:+ " blobs, but got "
     +:+ pretty (length blobs)) ;?
  assign_blobs commitments versioned_hashes blobs ∅.

(** One blob of [fetch_target_blobs]. *)
Definition decode_target_blob (commitments : list (B256 * list byte)) (blobs : gmap B256 (list byte))
    (vh : B256) : Result (option (Z * list byte) * BlobStatus) :=
  let? blob_index := expect (fst <$> list_find (fun c => c.1 = vh) commitments) "vh exists" in
  let? blob := expect (blobs !! vh) "no entry found for key" in
  match Blob.decode_simple_blob blob with
  | Ok bytes => Ok (Some (as_u32 (Z.of_nat blob_index), bytes), BlobStatus_default)
  | Err (Fail err) =>
      Ok (None, {| tx_final := None; error := Some ("Invalid byte encoding: " +:+ err) |})
  | Err (Panic m) => Err (Panic m)
  end.

Definition fetch_target_blobs (payload : CanonicalPayload) : Result (list (TargetTx (list byte))) :=
  match target_blob_txs payload with
  | [] => Ok []
  | txs =>
      let blob_versioned_hashes := flat_map tbt_versioned_hashes txs in
      let? blobs := get_blobs (committing_block_root payload) (kzg_blob_commitments payload)
                      blob_versioned_hashes in
      try_map (fun tx =>
        let? decoded := try_map (decode_target_blob (kzg_blob_commitments payload) blobs)
                          (tbt_versioned_hashes tx) in
        Ok {| blobs := fst <$> decoded;
              status := {| tx_hash := tbt_tx_hash tx; blob_statuses := snd <$> decoded |} |}) txs
  end.

(** *** Payloads *)

Definition target_blob_tx (tx : ExecTx) : option TargetBlobTx :=
  if decide (etx_to tx = Some to_address) then
    vhs ← etx_blob_versioned_hashes tx;
    Some {| tbt_tx_hash := etx_hash tx; tbt_versioned_hashes := vhs |}
  else None.

Definition canonical_payload (header : BlockHeader) (beacon_block : Block)
    (prev_block : option BlockAndRoot) : Result (option CanonicalPayload) :=
  let? committing :=
    match execution_payload beacon_block with
    | Embedded _ => Ok (Some (hd_root header, beacon_block))
    | Bid _ _ =>
        let? parent_block :=
          match prev_block with
          | Some prev => if decide (br_root prev = parent_root beacon_block) then Ok (br_block prev)
                         else get_beacon_block (parent_root beacon_block)
          | None => get_beacon_block (parent_root beacon_block)
          end in
        if builds_on_payload_of beacon_block parent_block
        then Ok (Some (parent_root beacon_block, parent_block))
        else Ok None
    end in
  match committing with
  | None => Ok None
  | Some (committing_root, committing_block) =>
      let commitments := (fun c => (kzg_to_versioned_hash c, c)) <$> blob_kzg_commitments committing_block in
      let execution_block_hash := block_hash (execution_payload committing_block) in
      let full := negb (bool_decide (commitments = [])) in
      let? eb := get_execution_block execution_block_hash full in
      let? txs :=
        match eb_transactions eb with
        | Some txs => Ok (omap target_blob_tx txs)
        | None =>
            if decide (commitments = []) then Ok []
            else Err (Fail "Consensus block has blobs but the execution block doesn't have txs")
        end in
      Ok (Some {| committing_block_root := committing_root;
                  execution_block := {| number := eb_number eb; timestamp := eb_timestamp eb;
                                        hash := execution_block_hash |};
                  kzg_blob_commitments := commitments;
                  target_blob_txs := txs |})
  end.

Definition fetch_slot_context (header : BlockHeader) (beacon_block : Block)
    (prev_block : option BlockAndRoot) : Result SlotContext :=
  let? payload := canonical_payload header beacon_block prev_block in
  let? target_txs := match payload with
                     | Some payload => fetch_target_blobs payload
                     | None => Ok []
                     end in
  Ok {| sc_slot := hd_slot header; beacon_block_root := hd_root header;
        sc_payload := payload; sc_target_txs := target_txs |}.
End Fetch.

(** *** Deriving and committing *)

Record NodeState `{MerkleStore} : Type := MkNode { log : StateLog.Tables; db : Db }.

Section Derive.
Context `{Plonky2, Pod2, MerkleStore, !BlobParser} (db_sync : Db -> Result unit).

Definition read_log {A} (f : StateLog.Tables -> A) : eff NodeState A := fun ns => (Ok (f (log ns)), ns).
Definition on_db {A} (c : eff Db A) : eff NodeState A :=
  fun ns => let '(r, d) := c (db ns) in (r, MkNode _ (log ns) d).
Definition write_log (f : StateLog.Tables -> Result StateLog.Tables) : eff NodeState unit :=
  fun ns => match f (log ns) with
            | Ok t => (Ok tt, MkNode _ t (db ns))
            | Err e => (Err e, ns)
            end.

Definition candidates (txs : list (TargetTx Payload.Payload)) : list Hash :=
  flat_map Payload.created (payloads_of txs).

Definition derive_slot (base_state : option DonState) (recent : list (Hash * Z)) (slot : Z)
    (blk : ExecutionBlock) (target_txs : list (TargetTx (list byte))) :
    eff NodeState (DerivedSlot * list TxStatus) :=
  let! txs := elift (parse_blobs target_txs) in
  let! prior_indices := read_log (StateLog.created_indices (candidates txs)) in
  let! (derived, txs) := on_db (derive_slot_state base_state recent slot blk txs prior_indices) in
  eret (derived, status <$> txs).

Definition derive_from_context (ctx : SlotContext) : eff NodeState ProcessedSlot :=
  match sc_payload ctx with
  | None => eret {| ps_slot := sc_slot ctx; ps_block_root := Some (beacon_block_root ctx);
                    ps_derived := None; ps_tx_statuses := [] |}
  | Some payload =>
      let! base_state := read_log StateLog.don_state_at_head in
      let min_block_number :=
        match base_state with
        | Some s => saturating_sub_u64 (number (block (metadata s)))
                      (as_u64 MAX_STATE_ROOT_AGE_BLOCKS)
        | None => 0
        end in
      let! recent := read_log (StateLog.recent_state_roots min_block_number) in
      let! (derived, tx_statuses) :=
        derive_slot base_state recent (sc_slot ctx) (execution_block payload) (sc_target_txs ctx) in
      eret {| ps_slot := sc_slot ctx; ps_block_root := Some (beacon_block_root ctx);
              ps_derived := Some derived; ps_tx_statuses := tx_statuses |}
  end.

Definition commit_slot (processed : ProcessedSlot) : eff NodeState unit :=
  (match ps_derived processed with
   | Some _ => on_db (eread db_sync)
   | None => eret tt
   end) ;!
  write_log (StateLog.commit_slot (ps_slot processed) (ps_block_root processed)
    (ps_derived processed) (ps_tx_statuses processed)).
End Derive.

(** ** Fetching blobs *)

(** The stored blobs of a block belong to its commitments. *)
Definition stored_for (commitments : list (B256 * list byte)) (bs : list Archiver.StoredBlob) : Prop :=
  forall s, s ∈ bs -> commitments.*1 !! Archiver.index s = Some (Archiver.vh s).

Definition requested (commitments : list (B256 * list byte)) (vhs : list B256) : list B256 :=
  filter (fun h => h ∈ vhs) (commitments.*1).

Section Assign.
Implicit Types (commitments : list (B256 * list byte)) (vhs : list B256).

Lemma requested_cons h c commitments vhs :
  requested ((h, c) :: commitments) vhs
  = if decide (h ∈ vhs) then h :: requested commitments vhs else requested commitments vhs.
Proof. unfold requested. rewrite fmap_cons, filter_cons. done. Qed.

Lemma assign_blobs_short commitments vhs blobs m :
  (length blobs < length (requested commitments vhs))%nat ->
  assign_blobs commitments vhs blobs m = Err (Panic "not empty").
Proof.
  revert blobs m. induction commitments as [|[h c] commitments IH]; intros blobs m; simpl.
  { unfold requested. simpl. lia. }
  rewrite requested_cons. case_decide; [|apply IH].
  destruct blobs; [done|]. simpl. intros. apply IH. lia.
Qed.

(** With exactly one blob per requested commitment, the hashes get the blobs
    in order. *)
Lemma assign_blobs_exact commitments vhs blobs m :
  NoDup (requested commitments vhs) -> length blobs = length (requested commitments vhs) ->
  exists m', assign_blobs commitments vhs blobs m = Ok m'
    /\ (forall k h, requested commitments vhs !! k = Some h -> m' !! h = blobs !! k)
    /\ (forall h, h ∉ requested commitments vhs -> m' !! h = m !! h).
Proof.
  revert blobs m. induction commitments as [|[h c] commitments IH]; intros blobs m; simpl.
  { intros _ _. exists m. split_and!; [done| |done]. intros k h Hk. by vm_compute in Hk. }
  rewrite requested_cons. case_decide as Hh; [|apply IH].
  intros [Hnin Hnd]%NoDup_cons. destruct blobs as [|b blobs]; [done|]. simpl. intros [= Hl].
  destruct (IH blobs (<[h:=b]> m) Hnd Hl) as (m' & -> & Hreq & Hout). exists m'. split_and!; [done|..].
  - intros [|k] h' Hk; simpl in *; [|by apply Hreq]. injection Hk as <-.
    rewrite Hout by done. by rewrite lookup_insert_eq.
  - intros h' [Hne Hn]%not_elem_of_cons. rewrite Hout by done. by rewrite lookup_insert_ne.
Qed.
End Assign.

Section Archived.
Context `{Chain}.

(** The archiver serves [bs] for the block [root]. *)
Definition archiver_serves (root : B256) (bs : list Archiver.StoredBlob) : Prop :=
  forall vhs, archiver_get_blobs root vhs =
    match Archiver.get_blobs (Ok bs) vhs with
    | Archiver.Data blobs => Ok blobs
    | Archiver.NotFound e | Archiver.InternalError e => Err (Fail e)
    end.

Record archived (root : B256) (commitments : list (B256 * list byte)) (vhs : list B256)
    (bs : list Archiver.StoredBlob) : Prop := {
  ar_serves : archiver_serves root bs;
  ar_stored : stored_for commitments bs;
  ar_length : Forall (fun h => length h = 32%nat) vhs;
  ar_found h : h ∈ vhs -> is_Some (Archiver.find_blob bs h);
}.

Lemma lookup_blobs_found bs vhs :
  (forall h, h ∈ vhs -> is_Some (Archiver.find_blob bs h)) ->
  exists ss, Archiver.lookup_blobs bs vhs = Ok ss
    /\ Forall2 (fun h s => Archiver.find_blob bs h = Some s) vhs ss.
Proof.
  intros Hf. destruct (Archiver.lookup_blobs bs vhs) as [ss|e] eqn:E.
  - exists ss. split; [done|]. by apply Archiver.lookup_blobs_Ok.
  - exfalso. revert E. induction vhs as [|h vhs IH]; [done|]. simpl.
    destruct (Hf h) as [s ->]; [set_solver|]. intros [E|(? & _ & ?)]%rbind_Err; [|done].
    apply IH; [set_solver|done].
Qed.

(** What the archiver answers: one blob per distinct requested hash. *)
Lemma archiver_answer root commitments vhs bs :
  archived root commitments vhs bs ->
  exists ss, archiver_get_blobs root vhs = Ok (Archiver.blob <$> merge_sort Archiver.index_le ss)
    /\ NoDup (Archiver.vh <$> ss) /\ (forall h, h ∈ Archiver.vh <$> ss <-> h ∈ vhs)
    /\ forall s, s ∈ ss -> s ∈ bs.
Proof.
  intros [Hs Hst Hlen Hf]. rewrite (Hs vhs). unfold Archiver.get_blobs.
  set (vhs' := Archiver.dedup (merge_sort Archiver.B256_le vhs)).
  assert (Hin : forall h, h ∈ vhs' <-> h ∈ vhs).
  { intros h. unfold vhs'. rewrite Archiver.dedup_elem. by rewrite merge_sort_Permutation. }
  destruct (lookup_blobs_found bs vhs') as (ss & -> & Hss); [intros h Hh; apply Hf, Hin, Hh|].
  assert (Hvh : Archiver.vh <$> ss = vhs').
  { clear Hin. induction Hss as [|h s l ss' Hx _ IH]; [done|]. rewrite fmap_cons, IH.
    by apply Archiver.find_blob_Some in Hx as [_ ->]. }
  exists ss. split_and!; [done|..].
  - rewrite Hvh. apply Archiver.dedup_NoDup.
    + by rewrite merge_sort_Permutation.
    + apply Sorted_StronglySorted; [apply _|]. apply Sorted_merge_sort. apply _.
  - by rewrite Hvh.
  - intros s Hsin. apply list_elem_of_lookup_1 in Hsin as [k Hk].
    destruct (Forall2_lookup_r _ _ _ _ _ Hss Hk) as (h & _ & [Hb _]%Archiver.find_blob_Some). done.
Qed.

(** Order of first-to-last positions in a list. *)
Definition pos_le (l : list B256) (a b : B256) : Prop :=
  exists i j, l !! i = Some a /\ l !! j = Some b /\ (i <= j)%nat.

Lemma filter_pos_sorted (P : B256 -> Prop) `{!forall x, Decision (P x)} pre l :
  StronglySorted (pos_le (pre ++ l)) (filter P l).
Proof.
  revert pre. induction l as [|a l IH]; intros pre; [constructor|].
  replace (pre ++ a :: l) with ((pre ++ [a]) ++ l) by (by rewrite <- (assoc_L (++))).
  rewrite filter_cons. case_decide; [|apply IH]. constructor; [apply IH|].
  apply Forall_forall. intros b [_ [k Hk]%list_elem_of_lookup_1]%list_elem_of_filter.
  exists (length pre), (length (pre ++ [a]) + k)%nat. split_and!.
  - rewrite <- (assoc_L (++)). by apply list_lookup_middle.
  - by rewrite lookup_app_r, Nat.add_comm, Nat.add_sub by lia.
  - rewrite length_app. simpl. lia.
Qed.

Lemma filter_NoDup_pos (P : B256 -> Prop) `{!forall x, Decision (P x)} l i j a :
  NoDup (filter P l) -> P a -> l !! i = Some a -> l !! j = Some a -> i = j.
Proof.
  revert i j. induction l as [|b l IH]; intros i j; [by rewrite lookup_nil|].
  rewrite filter_cons. intros Hnd Ha Hi Hj.
  assert (Hl : NoDup (filter P l)) by (case_decide; [by apply NoDup_cons in Hnd as []|done]).
  destruct i as [|i], j as [|j]; simpl in *; simplify_eq; [done|..].
  - rewrite decide_True in Hnd by done. apply NoDup_cons in Hnd as [[] _].
    apply list_elem_of_filter. split; [done|]. by eapply list_elem_of_lookup_2.
  - rewrite decide_True in Hnd by done. apply NoDup_cons in Hnd as [[] _].
    apply list_elem_of_filter. split; [done|]. by eapply list_elem_of_lookup_2.
  - f_equal. by apply IH.
Qed.

Lemma StronglySorted_map {A B} (R : A -> A -> Prop) (S : B -> B -> Prop) (f : A -> B) l :
  (forall x y, x ∈ l -> y ∈ l -> R x y -> S (f x) (f y)) ->
  StronglySorted R l -> StronglySorted S (f <$> l).
Proof.
  intros Hf. induction 1 as [|x l Hs IH Hall]; [constructor|]. rewrite fmap_cons. constructor.
  - apply IH. intros. apply Hf; set_solver.
  - apply Forall_fmap, Forall_forall. intros y Hy. rewrite Forall_forall in Hall.
    apply Hf; [set_solver..|auto].
Qed.

(** Sorted by index, the answer lists the requested hashes in block order. *)
Lemma answer_order commitments vhs bs ss :
  stored_for commitments bs -> (forall s, s ∈ ss -> s ∈ bs) -> NoDup (Archiver.vh <$> ss) ->
  (forall h, h ∈ Archiver.vh <$> ss <-> h ∈ vhs) -> NoDup (requested commitments vhs) ->
  Archiver.vh <$> merge_sort Archiver.index_le ss = requested commitments vhs.
Proof.
  intros Hst Hbs Hnd Hin Hreq.
  assert (Hmem : forall h, h ∈ requested commitments vhs <-> h ∈ vhs).
  { intros h. unfold requested. rewrite list_elem_of_filter. split; [by intros []|].
    intros Hh. split; [done|]. apply Hin in Hh as (s & -> & Hs)%list_elem_of_fmap.
    apply Hbs, Hst in Hs. by eapply list_elem_of_lookup_2. }
  assert (Hperm : Archiver.vh <$> merge_sort Archiver.index_le ss ≡ₚ requested commitments vhs).
  { rewrite merge_sort_Permutation. apply NoDup_Permutation; [done..|].
    intros h. by rewrite Hin, Hmem. }
  apply (StronglySorted_unique_strong (pos_le commitments.*1)); [..|done].
  - intros a b Ha Hb (i & j & Hi & Hj & Hij) (j' & i' & Hj' & Hi' & Hji).
    rewrite Hperm in Ha. apply Hmem in Ha. apply Hmem in Hb.
    assert (i = i') by exact (filter_NoDup_pos (fun h => h ∈ vhs) _ _ _ a Hreq Ha Hi Hi').
    assert (j = j') by exact (filter_NoDup_pos (fun h => h ∈ vhs) _ _ _ b Hreq Hb Hj Hj').
    assert (i = j) by lia. congruence.
  - apply (StronglySorted_map Archiver.index_le);
      [|apply Sorted_StronglySorted; [apply _|apply Sorted_merge_sort, _]].
    intros x y Hx Hy Hxy. rewrite merge_sort_Permutation in Hx, Hy.
    exists (Archiver.index x), (Archiver.index y). split_and!; [by apply Hst, Hbs..|done].
  - apply (filter_pos_sorted _ []).
Qed.
End Archived.

(** ** Properties *)

(** Blobs reach the transactions that committed to them. When the archiver
    holds the requested blobs of a block and every requested versioned hash is
    requested once and committed once, [get_blobs] returns, for each requested
    hash, exactly the archived blob of that hash. *)
Theorem get_blobs_correct `{Chain} (root : B256) (commitments : list (B256 * list byte))
    (vhs : list B256) (bs : list Archiver.StoredBlob) :
  archived root commitments vhs bs -> NoDup vhs -> NoDup (requested commitments vhs) ->
  exists m, get_blobs root commitments vhs = Ok m
    /\ forall h, h ∈ vhs -> exists s, s ∈ bs /\ Archiver.vh s = h /\ m !! h = Some (Archiver.blob s).
Proof.
  intros Ha Hnd Hreq. destruct (archiver_answer _ _ _ _ Ha) as (ss & Hget & Hss & Hin & Hbs).
  pose proof (answer_order commitments vhs bs ss (ar_stored _ _ _ _ Ha) Hbs Hss Hin Hreq) as Hord.
  set (sorted := merge_sort Archiver.index_le ss) in *. unfold get_blobs. rewrite Hget. cbn [rbind].
  assert (Hlen : length (Archiver.blob <$> sorted) = length vhs).
  { rewrite length_fmap, <- (length_fmap Archiver.vh). apply Permutation_length.
    unfold sorted. rewrite merge_sort_Permutation. by apply NoDup_Permutation. }
  rewrite Hlen, Nat.eqb_refl. cbn [rensure rbind].
  destruct (assign_blobs_exact commitments vhs (Archiver.blob <$> sorted) ∅ Hreq) as (m & Hm & Hmap & _).
  { by rewrite <- Hord, !length_fmap. }
  exists m. split; [done|]. intros h Hh.
  assert (Hreqh : h ∈ requested commitments vhs).
  { rewrite <- Hord. unfold sorted. by rewrite merge_sort_Permutation, Hin. }
  apply list_elem_of_lookup_1 in Hreqh as [k Hk]. rewrite (Hmap _ _ Hk).
  rewrite <- Hord, list_lookup_fmap in Hk. apply fmap_Some in Hk as (s & Hs & ->).
  exists s. split_and!; [|done|by rewrite list_lookup_fmap, Hs].
  apply Hbs. apply list_elem_of_lookup_2 in Hs. unfold sorted in Hs. by rewrite merge_sort_Permutation in Hs.
Qed.

Definition vh1 : B256 := replicate 32 x01.
Definition vh2 : B256 := replicate 32 x02.
Definition sample_archive : list Archiver.StoredBlob :=
  [{| Archiver.index := 0; Archiver.vh := vh2; Archiver.blob := [x07] |};
   {| Archiver.index := 1; Archiver.vh := vh1; Archiver.blob := [x08] |}].
Definition sample_commitments : list (B256 * list byte) := [(vh2, []); (vh1, [])].

Definition sample_chain : Chain := {|
  get_block_header _ := Ok None;
  get_beacon_block _ := Err (Fail "none");
  get_execution_block _ _ := Err (Fail "none");
  archiver_get_blobs _ vhs :=
    match Archiver.get_blobs (Ok sample_archive) vhs with
    | Archiver.Data blobs => Ok blobs
    | Archiver.NotFound e | Archiver.InternalError e => Err (Fail e)
    end;
  kzg_to_versioned_hash c := c;
|}.

Lemma sample_archived cs vhs :
  (forall s, s ∈ sample_archive -> cs.*1 !! Archiver.index s = Some (Archiver.vh s)) ->
  (forall h, h ∈ vhs -> h = vh1 \/ h = vh2) -> @archived sample_chain [] cs vhs sample_archive.
Proof.
  intros Hst Hv. split; [done|done|..].
  - apply Forall_forall. intros h [->| ->]%Hv; done.
  - intros h [->| ->]%Hv; vm_compute; eauto.
Qed.

Lemma get_blobs_correct_witness :
  exists m, @get_blobs sample_chain [] sample_commitments [vh1; vh2] = Ok m
    /\ (exists s, s ∈ sample_archive /\ Archiver.vh s = vh1 /\ m !! vh1 = Some (Archiver.blob s)).
Proof.
  destruct (@get_blobs_correct sample_chain [] sample_commitments [vh1; vh2] sample_archive)
    as (m & Hm & Hs).
  - apply sample_archived; [|set_solver].
    intros s [->|[->|[]%not_elem_of_nil]%elem_of_cons]%elem_of_cons; reflexivity.
  - apply (bool_decide_unpack _). vm_compute. exact I.
  - apply (bool_decide_unpack _). vm_compute. exact I.
  - exists m. split; [exact Hm|]. apply Hs. set_solver.
Defined.

(** A repeated blob cannot be fetched. If the target transactions of a block
    carry the same blob twice, or some other transaction of the block carries a
    blob that a target transaction carries, [get_blobs] fails: the archiver
    answers once per distinct hash, so the count check returns an error in the
    first case and the hand-out loop runs out and panics in the second. *)
Theorem get_blobs_repeated_fails `{Chain} (root : B256) (commitments : list (B256 * list byte))
    (vhs : list B256) (bs : list Archiver.StoredBlob) :
  archived root commitments vhs bs ->
  (~ NoDup vhs -> exists m, get_blobs root commitments vhs = Err (Fail m))
  /\ (NoDup vhs -> (length vhs < length (requested commitments vhs))%nat ->
      exists m, get_blobs root commitments vhs = Err (Panic m)).
Proof.
  intros Ha. destruct (archiver_answer _ _ _ _ Ha) as (ss & Hget & Hss & Hin & Hbs).
  unfold get_blobs. rewrite Hget. cbn [rbind].
  assert (Hl : length (Archiver.blob <$> merge_sort Archiver.index_le ss) = length (Archiver.vh <$> ss)).
  { rewrite !length_fmap. apply Permutation_length, merge_sort_Permutation. }
  rewrite Hl. split.
  - intros Hdup. assert (Hlt : (length (Archiver.vh <$> ss) < length vhs)%nat).
    { destruct (Nat.lt_ge_cases (length (Archiver.vh <$> ss)) (length vhs)) as [|Hge]; [done|].
      exfalso. apply Hdup. assert (Hsub : (Archiver.vh <$> ss) ⊆+ vhs).
      { apply NoDup_submseteq; [done|]. intros h. by rewrite Hin. }
      apply submseteq_length_Permutation in Hsub; [by rewrite <- Hsub|lia]. }
    destruct (Nat.eqb_spec (length (Archiver.vh <$> ss)) (length vhs)); [lia|]. simpl. eauto.
  - intros Hnd Hlt. assert (Heq : length (Archiver.vh <$> ss) = length vhs).
    { by apply Permutation_length, NoDup_Permutation. }
    rewrite Heq, Nat.eqb_refl. cbn [rensure rbind].
    rewrite assign_blobs_short; [eauto|]. by rewrite Hl, Heq.
Qed.

Lemma get_blobs_repeated_fails_witness :
  (exists m, @get_blobs sample_chain [] sample_commitments [vh1; vh1] = Err (Fail m))
  /\ (exists m, @get_blobs sample_chain [] (sample_commitments ++ [(vh1, [])]) [vh1] = Err (Panic m)).
Proof.
  split.
  - apply (@get_blobs_repeated_fails sample_chain [] sample_commitments [vh1; vh1] sample_archive).
    + apply sample_archived; [|set_solver].
      intros s [->|[->|[]%not_elem_of_nil]%elem_of_cons]%elem_of_cons; reflexivity.
    + intros [Hn _]%NoDup_cons. set_solver.
  - apply (@get_blobs_repeated_fails sample_chain [] (sample_commitments ++ [(vh1, [])]) [vh1]
      sample_archive).
    + apply sample_archived; [|set_solver].
      intros s [->|[->|[]%not_elem_of_nil]%elem_of_cons]%elem_of_cons; reflexivity.
    + apply NoDup_singleton.
    + vm_compute. lia.
Defined.

End Node.
