(* ===== verification/SyncLoop.v ===== *)
(** * The sync loop (services/synchronizer/src/sync_loop.rs, catchup.rs)

    Slots are processed in order; when the live chain stops building on what is
    stored, the log is rolled back to the last common block and derivation
    resumes there. The chain may answer differently at every call, so every
    step is taken under a [Chain] of its own. *)

From S2P Require Import Prelude Pod2 Models Payload DonState ContainerDb StateMachine StateLog Node.

Module SyncLoop.
Import DonState ContainerDb StateMachine Node.
Import StateLog (Tables, slots, tables_wf, log_inv, head_ledger, ledger_le).
Local Open Scope Z_scope.

(** ** Definitions *)

Inductive MissingSlotAction : Type := Rewound (slot : Z) | Applied.

Inductive FetchedSlot : Type :=
| Missing (slot : Z)
| Present (slot : Z) (header : BlockHeader) (context : SlotContext).

Section Loop.
Context `{Plonky2, Pod2, MerkleStore, !BlobParser, Chain}.
Context (db_sync : Db -> Result unit) (init_start_slot : Z) (to_address : list byte).

(** The walk back of [find_divergence_slot]; [fuel] counts the slots down to
    [init_start_slot]. *)
Fixpoint find_divergence_loop (fuel : nat) (slot : Z) (t : Tables) : Result Z :=
  match fuel with
  | O => Ok init_start_slot
  | S fuel' =>
      let prev_slot := slot - 1 in
      let stored_root := StateLog.slot_root prev_slot t in
      let? live := get_block_header prev_slot in
      let live_root := hd_root <$> live in
      if bool_decide (is_Some stored_root /\ stored_root = live_root) then Ok slot
      else find_divergence_loop fuel' prev_slot t
  end.

Definition find_divergence_slot (current_slot : Z) (t : Tables) : Result Z :=
  find_divergence_loop (Z.to_nat (current_slot - init_start_slot)) current_slot t.

Definition rewind_for_reorg (current_slot : Z) : eff NodeState Z :=
  let! rewind_start := eread (fun ns => find_divergence_slot current_slot (log ns)) in
  let keep_slot := as_u32 (rewind_start - 1) in
  write_log (fun t => Ok (StateLog.rollback_to_slot keep_slot t)) ;!
  eret rewind_start.

Definition handle_missing_slot (slot : Z) : eff NodeState MissingSlotAction :=
  let! stored := read_log (StateLog.slot_root slot) in
  match stored with
  | Some _ =>
      let! rewind_start := rewind_for_reorg slot in
      eret (Rewound rewind_start)
  | None =>
      commit_slot db_sync {| ps_slot := slot; ps_block_root := None; ps_derived := None;
                             ps_tx_statuses := [] |} ;!
      eret Applied
  end.

Definition handle_reorgs_for_present_slot (slot : Z) (header : BlockHeader) :
    eff NodeState (option Z) :=
  let! last_processed_slot := read_log StateLog.last_processed_slot in
  let! stored_root_for_slot := read_log (StateLog.slot_root slot) in
  if match last_processed_slot with Some last => slot <=? last | None => false end
     && bool_decide (stored_root_for_slot = None)
  then let! r := rewind_for_reorg slot in eret (Some r)
  else if match stored_root_for_slot with
          | Some stored_root => bool_decide (stored_root <> hd_root header)
          | None => false
          end
  then let! r := rewind_for_reorg slot in eret (Some r)
  else if slot =? init_start_slot then eret None
  else
    let! prev_root := eread (fun ns => StateLog.latest_block_root_before slot (log ns)) in
    if bool_decide (hd_parent_root header <> prev_root)
    then let! r := rewind_for_reorg slot in eret (Some r)
    else eret None.

(** The loop body for a slot whose header is present: the next slot to visit. *)
Definition process_present_slot (slot : Z) (header : BlockHeader)
    (context : Result SlotContext) : eff NodeState Z :=
  let! rewind := handle_reorgs_for_present_slot slot header in
  match rewind with
  | Some rewind_slot => eret rewind_slot
  | None =>
      let! ctx := elift context in
      let! processed := derive_from_context ctx in
      commit_slot db_sync processed ;!
      eret (slot + 1)
  end.

(** The single-slot path fetches the block after the reorg checks. *)
Definition fetch_present (header : BlockHeader) (prev_block : option BlockAndRoot) :
    Result SlotContext :=
  let? beacon_block := get_beacon_block (hd_root header) in
  fetch_slot_context to_address header beacon_block prev_block.

Definition process_missing_slot (slot : Z) : eff NodeState Z :=
  let! action := handle_missing_slot slot in
  match action with
  | Rewound rewind_slot => eret rewind_slot
  | Applied => eret (slot + 1)
  end.

(** The batch path: stops at the first slot that rewinds. The result is the
    next slot and whether a reorg was detected. *)
Fixpoint process_batch (next_slot : Z) (fetched : list FetchedSlot) : eff NodeState (Z * bool) :=
  match fetched with
  | [] => eret (next_slot, false)
  | Missing slot :: rest =>
      let! action := handle_missing_slot slot in
      match action with
      | Rewound rewind_slot => eret (rewind_slot, true)
      | Applied => process_batch (slot + 1) rest
      end
  | Present slot header context :: rest =>
      let! rewind := handle_reorgs_for_present_slot slot header in
      match rewind with
      | Some rewind_slot => eret (rewind_slot, true)
      | None =>
          let! processed := derive_from_context context in
          commit_slot db_sync processed ;!
          process_batch (slot + 1) rest
      end
  end.

(** catchup.rs: [fetch_batch] *)
Definition fetch_block_of (slot : Z) : Result (Z * option (BlockHeader * BlockAndRoot)) :=
  let? header := get_block_header slot in
  match header with
  | None => Ok (slot, None)
  | Some header =>
      let? block := get_beacon_block (hd_root header) in
      Ok (slot, Some (header, {| br_root := hd_root header; br_block := block |}))
  end.

Definition fetch_batch (slots : list Z) : Result (list FetchedSlot) :=
  let? fetched := try_map fetch_block_of slots in
  let blocks_by_root : gmap B256 BlockAndRoot :=
    list_to_map (reverse (omap (fun '(_, f) => (fun '(_, b) => (br_root b, b)) <$> f) fetched)) in
  try_map (fun '(slot, f) =>
    match f with
    | None => Ok (Missing slot)
    | Some (header, b) =>
        let parent_block := blocks_by_root !! parent_root (br_block b) in
        let? context := fetch_slot_context to_address header (br_block b) parent_block in
        Ok (Present slot header context)
    end) fetched.

(** [initialize_sync]: where to resume from; [validate_genesis] is the check of
    the first slot. *)
Definition initialize_sync (validate_genesis : Result unit) (t : Tables) : Result Z :=
  match StateLog.last_processed_slot t with
  | Some last_processed_slot => Ok (last_processed_slot + 1)
  | None => validate_genesis ;? Ok init_start_slot
  end.
End Loop.

(** ** The divergence walk *)

Section Divergence.
Context `{Chain} (init_start_slot : Z).
Implicit Types t : Tables.

(** The stored and the live chain agree on a block at [k]. *)
Definition common_block t (k : Z) : Prop :=
  exists h, get_block_header k = Ok (Some h) /\ StateLog.slot_root k t = Some (hd_root h).

Lemma find_divergence_spec cur t r :
  init_start_slot <= cur -> find_divergence_slot init_start_slot cur t = Ok r ->
  init_start_slot <= r <= cur
  /\ (r = init_start_slot \/ common_block t (r - 1))
  /\ forall k, r <= k < cur -> ~ common_block t k.
Proof.
  intros Hc. unfold find_divergence_slot.
  assert (Hgen : forall fuel slot, Z.of_nat fuel = slot - init_start_slot ->
    find_divergence_loop init_start_slot fuel slot t = Ok r ->
    init_start_slot <= r <= slot /\ (r = init_start_slot \/ common_block t (r - 1))
    /\ forall k, r <= k < slot -> ~ common_block t k).
  { induction fuel as [|fuel IH]; intros slot Hf; simpl.
    - intros [= <-]. split_and!; [lia..|by left|intros; lia].
    - intros (live & Hlive & Hr)%rbind_Ok. case_bool_decide as Hcb.
      + injection Hr as <-. destruct Hcb as [[sr Hsr] Heq]. rewrite Hsr in Heq.
        symmetry in Heq. apply fmap_Some in Heq as (h & -> & ->).
        split_and!; [lia..| |intros; lia]. right. by exists h.
      + apply IH in Hr as (Hb & Hor & Hno); [|lia]. split_and!; [lia..|done|].
        intros k Hk. destruct (decide (k = slot - 1)) as [->|]; [|apply Hno; lia].
        intros (h & Hh & Hs). rewrite Hlive in Hh. injection Hh as ->. apply Hcb.
        rewrite Hs. simpl. eauto. }
  intros Hr. apply Hgen in Hr; [done|]. rewrite Z2Nat.id; lia.
Qed.

(** The walk visits each slot once: it fails only if the chain cannot be asked. *)
Lemma find_divergence_total cur t e :
  find_divergence_slot init_start_slot cur t = Err e -> exists k, get_block_header k = Err e.
Proof.
  unfold find_divergence_slot. generalize (Z.to_nat (cur - init_start_slot)). intros fuel.
  revert cur. induction fuel as [|fuel IH]; intros slot; simpl; [done|].
  intros [He|(live & _ & Hr)]%rbind_Err; [eauto|]. case_bool_decide; [done|by eapply IH].
Qed.
End Divergence.

(** ** The invariant of the loop *)

Section Invariant.
Context `{Plonky2, Pod2, MerkleModel}.
Context (init_start_slot : Z) (parent_of : B256 -> B256).
Implicit Types (t : Tables) (ns : NodeState) (n : Z).

(** Each stored block after the first is the child of the stored block before it. *)
Definition linked t : Prop :=
  forall k r, init_start_slot < k < 2 ^ 31 -> StateLog.slot_root k t = Some r ->
    StateLog.latest_block_root_before k t = Ok (parent_of r).

Record sync_inv_at n ns (G : gmap Z Ledger) : Prop := {
  si_init : 1 <= init_start_slot <= n;
  si_range : n < 2 ^ 31;
  si_log : log_inv (db ns) (log ns) G;
  si_wf : tables_wf (log ns);
  si_slots k : is_Some (slots (log ns) !! k) <-> init_start_slot <= k < n;
  si_genesis : init_start_slot < n -> is_Some (StateLog.slot_root init_start_slot (log ns));
  si_linked : linked (log ns);
}.
Definition sync_inv n ns : Prop := exists G, sync_inv_at n ns G.

Lemma slot_root_lookup k t : 0 <= k < 2 ^ 31 -> StateLog.slot_root k t = slots t !! k ≫= StateLog.cl_block_root.
Proof. intros. unfold StateLog.slot_root. by rewrite as_i32_id. Qed.

(** Reading at [k] only depends on the rows before [k]. *)
Lemma latest_before_agree k t t' :
  0 <= k < 2 ^ 31 -> (forall j, j < k -> slots t !! j = slots t' !! j) ->
  StateLog.latest_block_root_before k t = StateLog.latest_block_root_before k t'.
Proof.
  intros Hk Hag. unfold StateLog.latest_block_root_before. rewrite as_i32_id by done. f_equal.
  assert (Hmax : forall u u' : Tables, (forall j, j < k -> slots u !! j = slots u' !! j) ->
    forall j, StateLog.max_key (fun k' r => (k' <? k) && bool_decide (is_Some (StateLog.cl_block_root r)))
        (slots u) = Some j ->
      StateLog.max_key (fun k' r => (k' <? k) && bool_decide (is_Some (StateLog.cl_block_root r)))
        (slots u') = Some j /\ j < k).
  { intros u u' Hu j Hj. pose proof (StateLog.max_key_spec
      (fun k' r => (k' <? k) && bool_decide (is_Some (StateLog.cl_block_root r))) (slots u)) as Hs.
    rewrite Hj in Hs. destruct Hs as [(v & Hv & Hp) Hm]. pose proof Hp as Hp'.
    apply andb_true_iff in Hp' as [Hlt _]. assert (j < k) by lia. split; [|done].
    apply StateLog.max_key_is with v; [by rewrite <- Hu|done|].
    intros j' v' Hv' Hp'. pose proof Hp' as [Hlt' _]%andb_true_iff.
    apply (Hm j' v'); [rewrite Hu by lia; done|done]. }
  destruct (StateLog.max_key _ (slots t)) as [j|] eqn:E.
  - destruct (Hmax t t' Hag j E) as [-> Hlt]. simpl. by rewrite Hag.
  - destruct (StateLog.max_key _ (slots t')) as [j|] eqn:E'; [|done].
    destruct (Hmax t' t (fun j Hj => eq_sym (Hag j Hj)) j E') as [Heq _]. congruence.
Qed.

Lemma sync_inv_last n ns :
  sync_inv n ns ->
  StateLog.last_processed_slot (log ns) = if decide (init_start_slot < n) then Some (n - 1) else None.
Proof.
  intros (G & [Hi Hr _ _ Hs _ _]). unfold StateLog.last_processed_slot.
  pose proof (StateLog.max_key_spec (fun _ _ => true) (slots (log ns))) as Hm.
  destruct (StateLog.max_key _ _) as [k|]; simpl.
  - destruct Hm as [(v & Hv & _) Hmax].
    assert (Hk : init_start_slot <= k < n) by (apply Hs; eauto).
    rewrite decide_True by lia. destruct (proj2 (Hs (n - 1)) ltac:(lia)) as [v' Hv'].
    specialize (Hmax _ _ Hv' eq_refl). rewrite as_u32_id by lia. f_equal. lia.
  - case_decide; [|done]. destruct (proj2 (Hs init_start_slot) ltac:(lia)) as [v' Hv'].
    by specialize (Hm _ _ Hv').
Qed.

Lemma sync_inv_fresh n ns : sync_inv n ns -> StateLog.slot_root n (log ns) = None.
Proof.
  intros (G & [Hi Hr _ _ Hs _ _]). rewrite slot_root_lookup by lia.
  destruct (slots (log ns) !! n) eqn:E; [|done].
  assert (init_start_slot <= n < n); [|lia]. apply Hs. eauto.
Qed.

Lemma sync_inv_below n ns : sync_inv n ns -> StateLog.slots_below (log ns) (as_i32 n).
Proof.
  intros (G & [Hi Hr _ _ Hs _ _]) k Hk. rewrite as_i32_id by lia. apply Hs in Hk. lia.
Qed.

(** The store only grows under a failed step. *)
Lemma sync_inv_grow n ns ns' :
  sync_inv n ns -> log ns' = log ns -> db_le (db ns) (db ns') -> sync_inv n ns'.
Proof.
  intros (G & []) Hl Hle. exists G. split; rewrite ?Hl; try done.
  by eapply StateLog.log_inv_db_mono.
Qed.

Lemma rollback_lookup r t k :
  1 <= r < 2 ^ 31 ->
  slots (StateLog.rollback_to_slot (as_u32 (r - 1)) t) !! k
  = if decide (k < r) then slots t !! k else None.
Proof.
  intros Hr. unfold StateLog.rollback_to_slot. simpl. rewrite as_u32_id, as_i32_id by lia.
  case_decide.
  - destruct (slots t !! k) eqn:E.
    + apply map_lookup_filter_Some. split; [done|simpl; lia].
    + apply map_lookup_filter_None. by left.
  - apply map_lookup_filter_None. right. simpl. intros; lia.
Qed.

Lemma rewind_sync_inv n ns r :
  sync_inv n ns -> init_start_slot <= r <= n ->
  sync_inv r (MkNode _ (StateLog.rollback_to_slot (as_u32 (r - 1)) (log ns)) (db ns)).
Proof.
  intros (G & [Hi Hr Hl Hw Hs Hg Hk]) Hrn.
  assert (Hlook : forall k, slots (StateLog.rollback_to_slot (as_u32 (r - 1)) (log ns)) !! k
    = if decide (k < r) then slots (log ns) !! k else None).
  { intros k. apply rollback_lookup. lia. }
  eexists. split; simpl.
  - lia.
  - lia.
  - by apply StateLog.rollback_inv.
  - by apply StateLog.rollback_wf.
  - intros k. rewrite Hlook. case_decide; [rewrite Hs; lia|]. split; [by intros []|lia].
  - intros Hlt. rewrite slot_root_lookup, Hlook, decide_True by lia.
    rewrite <- slot_root_lookup by lia. apply Hg. lia.
  - intros k b Hkb. rewrite slot_root_lookup, Hlook by lia. case_decide; [|done]. intros Hb.
    rewrite (latest_before_agree k _ (log ns)); [|lia|intros j Hj; rewrite Hlook, decide_True by lia; done].
    apply Hk; [done|]. by rewrite slot_root_lookup by lia.
Qed.

Lemma commit_sync_inv n ns t' d' G' row :
  sync_inv n ns -> n + 1 < 2 ^ 31 -> slots t' = <[n:=row]> (slots (log ns)) ->
  log_inv d' t' G' -> tables_wf t' ->
  (n = init_start_slot -> is_Some (StateLog.cl_block_root row)) ->
  (forall b, init_start_slot < n -> StateLog.cl_block_root row = Some b ->
     StateLog.latest_block_root_before n (log ns) = Ok (parent_of b)) ->
  sync_inv (n + 1) (MkNode _ t' d').
Proof.
  intros (G & [Hi Hr Hl Hw Hs Hg Hk]) Hn Hslots Hl' Hw' Hgen Hpar.
  assert (Hag : forall k, k <> n -> slots t' !! k = slots (log ns) !! k).
  { intros k Hkn. by rewrite Hslots, lookup_insert_ne. }
  assert (Hnew : slots t' !! n = Some row) by (by rewrite Hslots, lookup_insert_eq).
  exists G'. split; simpl; [lia|lia|done|done|..].
  - intros k. rewrite Hslots, lookup_insert_is_Some', Hs. lia.
  - intros _. rewrite slot_root_lookup by lia. destruct (decide (n = init_start_slot)) as [<-|Hne].
    + rewrite Hnew. by apply Hgen.
    + rewrite Hag by done. rewrite <- slot_root_lookup by lia. apply Hg. lia.
  - intros k b Hkb. rewrite slot_root_lookup by lia.
    destruct (decide (k = n)) as [->|Hne].
    + rewrite Hnew. simpl. intros Hb.
      rewrite (latest_before_agree n _ (log ns)); [by apply Hpar; [lia|]|lia|].
      intros j Hj. apply Hag. lia.
    + rewrite Hag by done. intros Hb. destruct (slots (log ns) !! k) as [rk|] eqn:Ek; [|done].
      assert (init_start_slot <= k < n) by (apply Hs; eauto).
      rewrite (latest_before_agree k _ (log ns)); [|lia|intros j Hj; apply Hag; lia].
      apply Hk; [done|]. rewrite slot_root_lookup, Ek by lia. done.
Qed.
End Invariant.

(** ** Deriving and committing a slot *)

Section NodeRules.
Context `{MerkleStore}.

Lemma wp_read_log {A} (f : Tables -> A) Q E (ns : NodeState) :
  Q (f (log ns)) ns -> wp (read_log f) Q E ns.
Proof. done. Qed.

Lemma wp_on_db {A} (c : eff Db A) (Q : A -> NodeState -> Prop) E (ns : NodeState) :
  wp c (fun a d => Q a (MkNode _ (log ns) d)) (fun e d => E e (MkNode _ (log ns) d)) (db ns) ->
  wp (on_db c) Q E ns.
Proof. unfold wp, on_db. by destruct (c (db ns)) as [[a|e] d]. Qed.

Lemma wp_write_log f Q E (ns : NodeState) :
  (forall t, f (log ns) = Ok t -> Q tt (MkNode _ t (db ns))) ->
  (forall e, f (log ns) = Err e -> E e ns) -> wp (write_log f) Q E ns.
Proof. unfold wp, write_log. destruct (f (log ns)); auto. Qed.

Lemma wp_eread {A} (f : NodeState -> Result A) Q E (ns : NodeState) :
  (forall a, f ns = Ok a -> Q a ns) -> (forall e, f ns = Err e -> E e ns) -> wp (eread f) Q E ns.
Proof. unfold wp, eread. destruct (f ns); auto. Qed.
End NodeRules.

Section Steps.
Context `{Plonky2, Pod2, MerkleModel, !BlobParser}.
Context (db_sync : Db -> Result unit) (init_start_slot : Z) (parent_of : B256 -> B256).
Implicit Types (t : Tables) (ns : NodeState) (n : Z).

(** Everything a slot could add fits the 64-bit columns. *)
Definition slot_fits ns (ctx : SlotContext) : Prop :=
  forall payload txs, sc_payload ctx = Some payload -> parse_blobs (sc_target_txs ctx) = Ok txs ->
    let base := StateLog.don_state_at_head (log ns) in
    let ps := payloads_of txs in
    0 <= number (execution_block payload) < 2 ^ 64
    /\ 0 <= timestamp (execution_block payload) < 2 ^ 64
    /\ base_meta created_count base + Z.of_nat (sum_list_with (length ∘ Payload.created) ps) < 2 ^ 63
    /\ base_meta nullifier_count base
       + Z.of_nat (sum_list_with (length ∘ Payload.nullifiers) ps) < 2 ^ 63
    /\ base_meta state_root_count base + 1 < 2 ^ 63.

(** What a processed slot carries relative to the ledger [L] of the head. *)
Definition processed_on (d : Db) (L : Ledger) (ctx : SlotContext) (ps : ProcessedSlot) : Prop :=
  ps_slot ps = sc_slot ctx /\ ps_block_root ps = Some (beacon_block_root ctx)
  /\ match ps_derived ps with
     | None => sc_payload ctx = None /\ ps_tx_statuses ps = []
     | Some ds => exists L', state_rep d (Some (state ds)) L' /\ StateLog.u64_state (state ds)
         /\ ledger_le L L' /\ added_rows L L' (created_added ds)
     end.

Lemma ledger_le_run recent bn L L' acc root :
  run_effect recent bn L L' acc -> l_history L' = l_history L -> ledger_le L (push_history L' root).
Proof.
  intros [Hc Hn _ _ _ _ _] Hh. split_and!; simpl.
  - rewrite Hc. by apply prefix_app_r.
  - rewrite Hn. apply union_subseteq_r.
  - rewrite Hh. by apply prefix_app_r.
Qed.

Lemma u64_derived d s L blk :
  state_rep d (Some s) L -> block (metadata s) = blk -> room L [] ->
  0 <= number blk < 2 ^ 64 -> 0 <= timestamp blk < 2 ^ 64 ->
  Z.of_nat (length (l_history L)) < 2 ^ 64 -> StateLog.u64_state s.
Proof.
  intros Hs Hb [Hc Hn] Hnum Hts Hh. unfold StateLog.u64_state. simpl in Hc, Hn.
  pose proof (sr_created_count _ _ _ Hs) as E1. pose proof (sr_nullifier_count _ _ _ Hs) as E2.
  pose proof (sr_history_count _ _ _ Hs) as E3. cbn [base_meta] in *. rewrite Hb, E1, E2, E3.
  repeat (apply Forall_cons; split; [lia|]). by apply Forall_nil.
Qed.

Lemma derive_from_context_spec ns G ctx :
  log_inv (db ns) (log ns) G -> slot_fits ns ctx ->
  wp (derive_from_context ctx)
    (fun ps ns' => log ns' = log ns /\ db_le (db ns) (db ns')
       /\ processed_on (db ns') (head_ledger G) ctx ps)
    (fun _ ns' => log ns' = log ns /\ db_le (db ns) (db ns')) ns.
Proof.
  intros Hl Hfits. unfold derive_from_context.
  destruct (sc_payload ctx) as [payload|] eqn:Ep; [|by apply wp_ret].
  apply wp_bind, wp_read_log, wp_bind, wp_read_log, wp_bind. unfold derive_slot.
  apply wp_bind, wp_lift; [|done]. intros txs Htxs.
  destruct (Hfits payload txs Ep Htxs) as (Hnum & Hts & Hc & Hn & Hh).
  apply wp_bind, wp_read_log, wp_bind, wp_on_db.
  pose proof (StateLog.head_state_rep _ _ _ Hl) as Hrep.
  rewrite (sr_created_count _ _ _ Hrep) in Hc. rewrite (sr_nullifier_count _ _ _ Hrep) in Hn.
  rewrite (sr_history_count _ _ _ Hrep) in Hh.
  eapply wp_mono; [apply (derive_slot_state_spec _ _ (head_ledger G))| |by intros e d' [? _]];
    [done|by eapply StateLog.created_indices_complete|done|done|].
  intros [ds txs'] d' (Hle & L' & acc & Hrun & Hs & Hblk & Hrows & Hroom).
  do 2 apply wp_ret. split_and!; [done..|]. split_and!; [done..|]. simpl.
  exists (push_history L' (state_root (metadata (state ds)))).
  pose proof (txs_run_history _ _ _ _ _ _ _ Hrun) as Hhist. split_and!; [done| | |done].
  - eapply u64_derived; [done..|]. simpl. rewrite length_app, Hhist. simpl. lia.
  - eapply ledger_le_run; [by eapply txs_run_effect|done].
Qed.

Lemma commit_slot_spec n ns ctx ps G :
  sync_inv_at init_start_slot parent_of n ns G -> n + 1 < 2 ^ 31 -> sc_slot ctx = n ->
  processed_on (db ns) (head_ledger G) ctx ps ->
  (init_start_slot < n ->
     StateLog.latest_block_root_before n (log ns) = Ok (parent_of (beacon_block_root ctx))) ->
  wp (commit_slot db_sync ps)
    (fun _ ns' => sync_inv init_start_slot parent_of (n + 1) ns')
    (fun _ ns' => ns' = ns) ns.
Proof.
  intros HG Hn Hslot (Hps & Hroot & Hd) Hpar. pose proof HG as [].
  assert (Hinv : sync_inv init_start_slot parent_of n ns) by by exists G.
  pose proof (sync_inv_below _ _ _ _ Hinv) as Hbelow.
  assert (Hi32 : as_i32 n = n) by (apply as_i32_id; lia).
  unfold commit_slot. apply wp_bind.
  assert (Hsync : forall Q : unit -> NodeState -> Prop, Q tt ns ->
    wp (match ps_derived ps with Some _ => on_db (eread db_sync) | None => eret tt end) Q
      (fun _ ns' => ns' = ns) ns).
  { intros Q HQ. destruct (ps_derived ps); [|done]. apply wp_on_db. unfold wp, eread.
    destruct (db_sync (db ns)) as [[]|]; by destruct ns. }
  apply Hsync. apply wp_write_log; [|done]. rewrite Hps, Hslot, Hroot. intros t' Hc.
  pose proof (StateLog.commit_slot_inv _ _ _ _ _ _ Hc) as (_ & Hslots & _). rewrite Hi32 in Hslots.
  assert (Hwf : ps_tx_statuses ps <> [] -> is_Some (ps_derived ps)).
  { destruct (ps_derived ps); [eauto|]. destruct Hd as [_ ->]. done. }
  assert (Hl : exists G', log_inv (db ns) t' G').
  { destruct (ps_derived ps) as [ds|].
    - destruct Hd as (L' & Hs & Hu & Hle & Hrows). eexists.
      eapply (StateLog.commit_derived_inv (db ns) (db ns));
        [exact si_log0|reflexivity|exact Hbelow|exact Hs|exact Hu|exact Hle|exact Hrows|exact Hc].
    - destruct Hd as [_ Hst]. rewrite Hst in Hc. eexists. by eapply StateLog.commit_empty_inv. }
  destruct Hl as [G' Hl].
  eapply commit_sync_inv; [exact Hinv|done|exact Hslots|exact Hl| |done|].
  - by eapply StateLog.commit_slot_wf.
  - intros b Hlt [= <-]. by apply Hpar.
Qed.
End Steps.

(** ** The handlers *)

Section Handlers.
Context `{Plonky2, Pod2, MerkleModel, !BlobParser, Chain}.
Context (db_sync : Db -> Result unit) (init_start_slot : Z) (parent_of : B256 -> B256).
Implicit Types (t : Tables) (ns : NodeState) (n : Z).
Abbreviation inv := (sync_inv init_start_slot parent_of).

(** A rewind lands after the last block the stored and the live chain share. *)
Definition rewound_to t n r : Prop :=
  init_start_slot <= r <= n /\ (r = init_start_slot \/ common_block t (r - 1))
  /\ forall k, r <= k < n -> ~ common_block t k.

Lemma rewind_spec n ns :
  inv n ns ->
  wp (rewind_for_reorg init_start_slot n)
    (fun r ns' => inv r ns' /\ db ns' = db ns /\ rewound_to (log ns) n r)
    (fun e ns' => ns' = ns /\ exists k, get_block_header k = Err e) ns.
Proof.
  intros Hinv. assert (Hn : init_start_slot <= n) by (destruct Hinv as (G & []); lia).
  unfold rewind_for_reorg. apply wp_bind, wp_eread.
  - intros r Hr. apply find_divergence_spec in Hr as (Hb & Hor & Hno); [|done].
    apply wp_bind, wp_write_log; [|done]. intros t [= <-]. apply wp_ret.
    split_and!; [by eapply rewind_sync_inv|done..].
  - intros e He. split; [done|]. by eapply find_divergence_total.
Qed.

(** A slot without a block is committed as such: its commit cannot fail, and the
    rewinding branch is unreachable. *)
Lemma handle_missing_spec n ns :
  inv n ns -> init_start_slot < n -> n + 1 < 2 ^ 31 ->
  wp (handle_missing_slot db_sync init_start_slot n)
    (fun a ns' => a = Applied /\ inv (n + 1) ns'
       /\ StateLog.don_state_at_head (log ns') = StateLog.don_state_at_head (log ns))
    (fun _ _ => False) ns.
Proof.
  intros Hinv Hlt Hn. pose proof (sync_inv_fresh _ _ _ _ Hinv) as Hfresh.
  unfold handle_missing_slot. apply wp_bind, wp_read_log. rewrite Hfresh.
  assert (Hi32 : as_i32 n = n) by (apply as_i32_id; destruct Hinv as (G & []); lia).
  unfold commit_slot. simpl. apply wp_bind, wp_bind, wp_ret, wp_write_log.
  2: { intros e. unfold StateLog.commit_slot, StateLog.insert_slot. simpl. unfold StateLog.insert_pk.
       rewrite Hi32. destruct Hinv as (G & []).
       destruct (slots (log ns) !! n) eqn:E; [|done].
       assert (init_start_slot <= n < n) by (apply si_slots0; eauto). lia. }
  intros t' Hc. apply wp_ret. split; [done|].
  pose proof (StateLog.commit_slot_inv _ _ _ _ _ _ Hc) as (Hnone & Hslots & _).
  rewrite Hi32 in Hslots, Hnone. pose proof Hinv as (G & []).
  pose proof (StateLog.commit_empty_inv _ _ _ _ _ _ si_log0 Hc) as Hl. split.
  - eapply commit_sync_inv; [exact Hinv|done|exact Hslots|exact Hl| |simpl; lia|done].
    eapply StateLog.commit_slot_wf; [done| |exact Hc]. done.
  - unfold StateLog.don_state_at_head, StateLog.slot_state_at_head. simpl.
    rewrite (StateLog.head_slot _ _ _ Hl), (StateLog.head_slot _ _ _ si_log0).
    destruct (StateLog.max_key _ G) as [k|] eqn:Ek; [|done]. simpl.
    rewrite Hslots, lookup_insert_ne; [done|]. intros <-.
    rewrite <- (StateLog.head_slot _ _ _ si_log0) in Ek.
    pose proof (StateLog.max_key_spec StateLog.has_state (slots (log ns))) as Hm.
    rewrite Ek in Hm. destruct Hm as [(v & Hv & _) _]. congruence.
Qed.

Lemma latest_before_found n ns :
  inv n ns -> init_start_slot < n ->
  exists b, StateLog.latest_block_root_before n (log ns) = Ok b.
Proof.
  intros (G & []) Hlt. unfold StateLog.latest_block_root_before. rewrite as_i32_id by lia.
  destruct (si_genesis0 Hlt) as [b0 Hb0]. rewrite slot_root_lookup in Hb0 by lia.
  destruct (slots (log ns) !! init_start_slot) as [r0|] eqn:E0; [|done]. simpl in Hb0.
  match goal with |- context [StateLog.max_key ?P ?m] =>
    pose proof (StateLog.max_key_spec P m) as Hm; destruct (StateLog.max_key P m) as [k|] end.
  - destruct Hm as [(v & Hv & Hp%andb_true_iff) _]. simpl. rewrite Hv. simpl.
    destruct Hp as [_ [b Hb]%bool_decide_eq_true]. rewrite Hb. simpl. eauto.
  - specialize (Hm _ _ E0). apply andb_false_iff in Hm as [Hm|Hm]; [lia|].
    apply bool_decide_eq_false in Hm. destruct Hm. eauto.
Qed.

Lemma handle_reorgs_spec n ns header :
  inv n ns ->
  wp (handle_reorgs_for_present_slot init_start_slot n header)
    (fun r ns' => match r with
       | Some r => inv r ns' /\ rewound_to (log ns) n r
           /\ StateLog.latest_block_root_before n (log ns) <> Ok (hd_parent_root header)
       | None => ns' = ns /\ (init_start_slot < n ->
           StateLog.latest_block_root_before n (log ns) = Ok (hd_parent_root header))
       end)
    (fun e ns' => ns' = ns /\ exists k, get_block_header k = Err e) ns.
Proof.
  intros Hinv. unfold handle_reorgs_for_present_slot. apply wp_bind, wp_read_log, wp_bind, wp_read_log.
  rewrite (sync_inv_fresh _ _ _ _ Hinv), (sync_inv_last _ _ _ _ Hinv).
  assert (Hn : init_start_slot <= n) by (destruct Hinv as (G & []); lia).
  match goal with |- context [if ?b && _ then _ else _] => assert (b = false) as -> end.
  { case_decide; [|done]. apply Z.leb_gt. lia. }
  simpl. destruct (Z.eqb_spec n init_start_slot) as [->|Hne].
  { apply wp_ret. split; [done|]. lia. }
  destruct (latest_before_found n ns Hinv ltac:(lia)) as [b Hb].
  apply wp_bind, wp_eread; rewrite Hb; [|done]. intros b' [= <-]. case_bool_decide as Hpar.
  - apply wp_bind. eapply wp_mono; [by apply rewind_spec| |done].
    intros r ns' (Hr & _ & Hto). apply wp_ret. split_and!; [done..|congruence].
  - apply wp_ret. split; [done|]. intros _. f_equal. by destruct (decide (hd_parent_root header = b)).
Qed.

Lemma process_present_spec n ns header context :
  inv n ns -> n + 1 < 2 ^ 31 -> parent_of (hd_root header) = hd_parent_root header ->
  (forall ctx, context = Ok ctx -> sc_slot ctx = n /\ beacon_block_root ctx = hd_root header
     /\ slot_fits ns ctx) ->
  wp (process_present_slot db_sync init_start_slot n header context)
    (fun n' ns' => inv n' ns' /\ (n' = n + 1 \/ rewound_to (log ns) n n'))
    (fun _ ns' => inv n ns') ns.
Proof.
  intros Hinv Hn Hpar Hctx. unfold process_present_slot. apply wp_bind.
  eapply wp_mono; [by apply handle_reorgs_spec| |by intros e ns' [-> _]].
  intros [r|] ns1 Hr; [destruct Hr as (Hr & Hto & _); apply wp_ret; auto|].
  destruct Hr as [-> Hlink]. apply wp_bind, wp_lift; [|done]. intros ctx Hc.
  destruct (Hctx ctx Hc) as (Hslot & Hroot & Hfits). pose proof Hinv as [G HG].
  apply wp_bind. eapply wp_mono; [by apply derive_from_context_spec; [apply HG|]| |].
  2: { intros e ns' [Hl Hle]. by eapply sync_inv_grow. }
  intros ps ns1 (Hl & Hle & Hps). apply wp_bind.
  assert (HG1 : sync_inv_at init_start_slot parent_of n ns1 G).
  { destruct HG. split; rewrite ?Hl; try done. by eapply StateLog.log_inv_db_mono. }
  eapply wp_mono; [apply (commit_slot_spec db_sync init_start_slot parent_of n ns1 ctx ps G)| |];
    [done..| | |].
  - intros Hlt. rewrite Hl, Hroot, Hpar. by apply Hlink.
  - intros [] ns2 Hns2. apply wp_ret. auto.
  - intros e ns2 ->. by exists G.
Qed.
End Handlers.

(** ** Steps of the loop *)

Section Reachable.
Context `{Plonky2, Pod2, MerkleModel, !BlobParser}.
Context (db_sync : Db -> Result unit) (init_start_slot : Z) (parent_of : B256 -> B256).

(** One visit of a slot. The chain answers through [C], which changes from step
    to step; a failed visit restarts from the committed progress. The genesis
    slot has been validated to have a block, and headers name their parent. *)
Inductive sync_step : Z * NodeState -> Z * NodeState -> Prop :=
| step_missing (C : Chain) n ns n' ns' :
    init_start_slot < n -> n + 1 < 2 ^ 31 ->
    process_missing_slot db_sync init_start_slot n ns = (Ok n', ns') ->
    sync_step (n, ns) (n', ns')
| step_present (C : Chain) n ns header context r ns' n' :
    n + 1 < 2 ^ 31 -> parent_of (hd_root header) = hd_parent_root header ->
    (forall ctx, context = Ok ctx -> sc_slot ctx = n /\ beacon_block_root ctx = hd_root header
       /\ slot_fits ns ctx) ->
    process_present_slot db_sync init_start_slot n header context ns = (r, ns') ->
    match r with
    | Ok next => n' = next
    | Err _ => initialize_sync init_start_slot (Ok tt) (log ns') = Ok n'
    end ->
    sync_step (n, ns) (n', ns').

Definition initial (d : Db) : Z * NodeState := (init_start_slot, MkNode _ StateLog.empty_tables d).

Lemma sync_inv_initial d :
  1 <= init_start_slot < 2 ^ 31 ->
  sync_inv init_start_slot parent_of init_start_slot (MkNode _ StateLog.empty_tables d).
Proof.
  intros Hi. exists ∅. split; simpl; [lia|lia|apply StateLog.log_inv_empty|
    apply StateLog.tables_wf_empty| |lia|].
  - intros k. rewrite lookup_empty. split; [by intros []|lia].
  - intros k b _ Hb. unfold StateLog.slot_root in Hb. simpl in Hb. by rewrite lookup_empty in Hb.
Qed.

Lemma initialize_sync_next n ns :
  sync_inv init_start_slot parent_of n ns ->
  initialize_sync init_start_slot (Ok tt) (log ns) = Ok n.
Proof.
  intros Hinv. unfold initialize_sync. rewrite (sync_inv_last _ _ _ _ Hinv).
  case_decide as Hlt; simpl; f_equal; [lia|]. destruct Hinv as (G & []). lia.
Qed.

Lemma sync_step_inv n ns n' ns' :
  sync_step (n, ns) (n', ns') -> sync_inv init_start_slot parent_of n ns ->
  sync_inv init_start_slot parent_of n' ns'.
Proof.
  intros Hstep Hinv. inversion Hstep as [C ? ? ? ? Hlt Hn Hrun|C ? ? hd ctx r ? ? Hn Hpar Hc Hrun Hr]; subst.
  - pose proof (handle_missing_spec db_sync init_start_slot parent_of n ns Hinv Hlt Hn) as Hw.
    unfold process_missing_slot, ebind in Hrun. unfold wp in Hw.
    destruct (handle_missing_slot db_sync init_start_slot n ns) as [[a|e] ns1]; [|done].
    destruct Hw as (-> & Hinv' & _). by injection Hrun as <- <-.
  - pose proof (process_present_spec db_sync init_start_slot parent_of n ns hd ctx Hinv Hn Hpar Hc) as Hw.
    unfold wp in Hw. rewrite Hrun in Hw. destruct r as [next|e].
    + subst. apply Hw.
    + rewrite (initialize_sync_next n ns' Hw) in Hr. by injection Hr as <-.
Qed.
End Reachable.

(** ** Batches *)

Section Batch.
Context `{Plonky2, Pod2, MerkleStore, !BlobParser, Chain}.
Context (db_sync : Db -> Result unit) (init_start_slot : Z).

Definition slot_of (f : FetchedSlot) : Z :=
  match f with Missing s => s | Present s _ _ => s end.

Definition process_one (f : FetchedSlot) : eff NodeState Z :=
  match f with
  | Missing s => process_missing_slot db_sync init_start_slot s
  | Present s h c => process_present_slot db_sync init_start_slot s h (Ok c)
  end.

(** Visiting the slots one at a time, until one rewinds. *)
Fixpoint run_single (next : Z) (fetched : list FetchedSlot) : eff NodeState Z :=
  match fetched with
  | [] => eret next
  | f :: rest =>
      let! next := process_one f in
      if next =? slot_of f + 1 then run_single next rest else eret next
  end.

Lemma rewind_at_most slot ns r ns' :
  init_start_slot <= slot -> rewind_for_reorg init_start_slot slot ns = (Ok r, ns') -> r <= slot.
Proof.
  intros Hs. unfold rewind_for_reorg, ebind, eread, write_log, eret.
  destruct (find_divergence_slot init_start_slot slot (log ns)) as [r'|e] eqn:E; [|done].
  intros [= <- _]. apply find_divergence_spec in E as (Hb & _); [lia|done].
Qed.

Lemma missing_at_most slot ns r ns' :
  init_start_slot <= slot ->
  handle_missing_slot db_sync init_start_slot slot ns = (Ok (Rewound r), ns') -> r <= slot.
Proof.
  intros Hs. unfold handle_missing_slot, ebind at 1, read_log.
  destruct (StateLog.slot_root slot (log ns)).
  - unfold ebind. destruct (rewind_for_reorg _ slot ns) as [[r'|] ns1] eqn:E; [|done].
    intros [= <- _]. by eapply rewind_at_most.
  - unfold ebind. destruct (commit_slot _ _ _) as [[|] ?]; done.
Qed.

Lemma reorgs_at_most slot h ns r ns' :
  init_start_slot <= slot ->
  handle_reorgs_for_present_slot init_start_slot slot h ns = (Ok (Some r), ns') -> r <= slot.
Proof.
  intros Hs. unfold handle_reorgs_for_present_slot, ebind, read_log, eread, eret.
  assert (Hrw : forall s, match rewind_for_reorg init_start_slot slot s with
    | (Ok a, s') => (Ok (Some a), s') | (Err e, s') => (Err e, s') end = (Ok (Some r), ns') -> r <= slot).
  { intros s. destruct (rewind_for_reorg _ slot s) as [[r'|] s1] eqn:E; [|done].
    intros [= <- _]. by eapply rewind_at_most. }
  destruct (_ && _); [apply Hrw|].
  destruct (match StateLog.slot_root slot (log ns) with Some _ => _ | None => _ end); [apply Hrw|].
  destruct (slot =? init_start_slot); [done|].
  destruct (StateLog.latest_block_root_before slot (log ns)); [|done].
  destruct (bool_decide _); [apply Hrw|done].
Qed.
End Batch.

Lemma sync_reachable_inv `{Plonky2, Pod2, MerkleModel, !BlobParser}
    (db_sync : Db -> Result unit) (init_start_slot : Z) (parent_of : B256 -> B256)
    (d : Db) (n : Z) (ns : NodeState) :
  1 <= init_start_slot < 2 ^ 31 ->
  rtc (sync_step db_sync init_start_slot parent_of) (initial init_start_slot d) (n, ns) ->
  sync_inv init_start_slot parent_of n ns.
Proof.
  intros Hi Hrtc.
  assert (Hgen : forall s s', rtc (sync_step db_sync init_start_slot parent_of) s s' ->
    sync_inv init_start_slot parent_of s.1 s.2 -> sync_inv init_start_slot parent_of s'.1 s'.2).
  { induction 1 as [|[n1 ns1] [n2 ns2] s3 Hs _ IH]; [done|]. intros Hinv. apply IH.
    by eapply sync_step_inv. }
  apply (Hgen _ _ Hrtc). by apply sync_inv_initial.
Qed.

(** ** Properties *)

(** C5: in every state the loop can reach from an empty log, whatever the chain
    answers and wherever a visit fails, the committed slots are exactly the
    contiguous range from the first slot to the one before the next, every
    stored state represents its ledger with its index, ledgers only grow along
    the log, and each stored block is the child of the stored block before it. *)
Theorem sync_reachable_invariant `{Plonky2, Pod2, MerkleModel, !BlobParser}
    (db_sync : Db -> Result unit) (init_start_slot : Z) (parent_of : B256 -> B256)
    (d : Db) (n : Z) (ns : NodeState) :
  1 <= init_start_slot < 2 ^ 31 ->
  rtc (sync_step db_sync init_start_slot parent_of) (initial init_start_slot d) (n, ns) ->
  sync_inv init_start_slot parent_of n ns.
Proof. apply sync_reachable_inv. Qed.

Definition sample_header : BlockHeader :=
  {| hd_root := [x01]; hd_parent_root := [x00]; hd_slot := 1 |}.
Definition sample_context : SlotContext :=
  {| sc_slot := 1; beacon_block_root := [x01]; sc_payload := None; sc_target_txs := [] |}.

Lemma sync_reachable_witness :
  exists ns, @sync_inv Toy.toy_pod2 ToyStore.toy_store ToyStore.toy_model 1 (fun _ => [x00]) 2 ns.
Proof.
  eexists. apply (@sync_reachable_invariant Toy.toy_plonky2 Toy.toy_pod2 ToyStore.toy_store ToyStore.toy_model
    sample_blob_parser (fun _ => Ok tt) 1 (fun _ => [x00]) (ToyStore.MkStore ∅ ∅) 2); [lia|].
  eapply rtc_once, (step_present _ _ _ sample_chain 1 _ sample_header (Ok sample_context) (Ok 2)).
  - lia.
  - reflexivity.
  - intros ctx [= <-]. split_and!; [done..|]. by intros payload txs.
  - reflexivity.
  - reflexivity.
Defined.

(** C19: reorg handling. In a consistent state the loop rewinds at a present slot
    exactly when the block's parent is not the last stored block; it then
    resumes right after the last block that the stored and the live chain share
    (or at the first slot), having kept precisely the rows before that point.
    It fails only if the chain cannot be queried, with nothing changed. *)
Theorem reorg_rewinds_to_common_block `{Plonky2, Pod2, MerkleModel, !BlobParser, Chain}
    (init_start_slot : Z) (parent_of : B256 -> B256) (n : Z) (ns : NodeState) (header : BlockHeader) :
  sync_inv init_start_slot parent_of n ns ->
  match handle_reorgs_for_present_slot init_start_slot n header ns with
  | (Ok None, ns') => ns' = ns /\ (init_start_slot < n ->
      StateLog.latest_block_root_before n (log ns) = Ok (hd_parent_root header))
  | (Ok (Some r), ns') => sync_inv init_start_slot parent_of r ns'
      /\ rewound_to init_start_slot (log ns) n r
      /\ StateLog.latest_block_root_before n (log ns) <> Ok (hd_parent_root header)
  | (Err e, ns') => ns' = ns /\ exists k, get_block_header k = Err e
  end.
Proof.
  intros Hinv. pose proof (handle_reorgs_spec init_start_slot parent_of n ns header Hinv) as Hw.
  unfold wp in Hw. by destruct (handle_reorgs_for_present_slot _ n header ns) as [[[r|]|e] ns'].
Qed.

Lemma reorg_rewinds_witness :
  exists ns, match @handle_reorgs_for_present_slot ToyStore.toy_store sample_chain 1 1 sample_header ns with
  | (Ok None, ns') => ns' = ns
  | _ => False
  end.
Proof.
  exists (MkNode ToyStore.toy_store StateLog.empty_tables (ToyStore.MkStore ∅ ∅)).
  pose proof (@reorg_rewinds_to_common_block Toy.toy_plonky2 Toy.toy_pod2 ToyStore.toy_store ToyStore.toy_model
    sample_blob_parser sample_chain 1 (fun _ => [x00]) 1
    (MkNode ToyStore.toy_store StateLog.empty_tables (ToyStore.MkStore ∅ ∅)) sample_header
    (sync_inv_initial 1 (fun _ => [x00]) _ ltac:(lia))) as Hr.
  cbn in Hr |- *. apply Hr.
Defined.

(** An empty slot never stops the loop: in a consistent state it is
    committed, the head state is unchanged and the next slot is due. *)
Theorem missing_slot_applied `{Plonky2, Pod2, MerkleModel, !BlobParser, Chain}
    (db_sync : Db -> Result unit) (init_start_slot : Z) (parent_of : B256 -> B256)
    (n : Z) (ns : NodeState) :
  sync_inv init_start_slot parent_of n ns -> init_start_slot < n -> n + 1 < 2 ^ 31 ->
  exists ns', handle_missing_slot db_sync init_start_slot n ns = (Ok Applied, ns')
    /\ sync_inv init_start_slot parent_of (n + 1) ns'
    /\ StateLog.don_state_at_head (log ns') = StateLog.don_state_at_head (log ns).
Proof.
  intros Hinv Hlt Hn. pose proof (handle_missing_spec db_sync init_start_slot parent_of n ns Hinv Hlt Hn) as Hw.
  unfold wp in Hw. destruct (handle_missing_slot db_sync init_start_slot n ns) as [[a|e] ns']; [|done].
  destruct Hw as (-> & Hi & Hh). eauto.
Qed.

Definition sample_node : NodeState :=
  MkNode ToyStore.toy_store StateLog.empty_tables (ToyStore.MkStore ∅ ∅).

Lemma sample_first_slot :
  exists ns, @sync_inv Toy.toy_pod2 ToyStore.toy_store ToyStore.toy_model 1 (fun _ => [x00]) 2 ns.
Proof.
  pose proof (@process_present_spec Toy.toy_plonky2 Toy.toy_pod2 ToyStore.toy_store ToyStore.toy_model
    sample_blob_parser sample_chain (fun _ => Ok tt) 1 (fun _ => [x00]) 1 sample_node sample_header
    (Ok sample_context) (sync_inv_initial 1 (fun _ => [x00]) _ ltac:(lia)) ltac:(lia) eq_refl) as Hw.
  unfold wp in Hw. destruct (process_present_slot _ 1 1 sample_header _ sample_node) as [[n1|e] ns1] eqn:E.
  - cbn in E. injection E as <- <-. eexists. apply Hw. intros ctx [= <-]. split_and!; [done..|].
    by intros payload txs.
  - discriminate E.
Qed.

Lemma missing_slot_applied_witness :
  exists ns ns', @handle_missing_slot ToyStore.toy_store sample_chain (fun _ => Ok tt) 1 2 ns
                 = (Ok Applied, ns').
Proof.
  destruct sample_first_slot as [ns Hns]. exists ns.
  destruct (@missing_slot_applied Toy.toy_plonky2 Toy.toy_pod2 ToyStore.toy_store ToyStore.toy_model
    sample_blob_parser sample_chain (fun _ => Ok tt) 1 (fun _ => [x00]) 2 ns) as (ns' & Hm & _).
  - exact Hns.
  - lia.
  - lia.
  - exists ns'. exact Hm.
Defined.

(** Batch catch-up is the single-slot path. Processing a fetched batch visits
    the same slots with the same effects as processing them one at a time until
    the first rewind, and ends with the same next slot and the same error. *)
Theorem batch_equals_single `{Plonky2, Pod2, MerkleStore, !BlobParser, Chain}
    (db_sync : Db -> Result unit) (init_start_slot next : Z) (fetched : list FetchedSlot)
    (ns : NodeState) :
  Forall (fun f => init_start_slot <= slot_of f) fetched ->
  (let! p := process_batch db_sync init_start_slot next fetched in eret p.1) ns
  = run_single db_sync init_start_slot next fetched ns.
Proof.
  intros Hall. revert next ns. induction Hall as [|f rest Hf _ IH]; intros next ns; [done|].
  destruct f as [slot|slot h c]; cbn [process_batch run_single process_one slot_of] in *;
    unfold process_missing_slot, process_present_slot, elift, eret, ebind in *.
  - destruct (handle_missing_slot db_sync init_start_slot slot ns) as [[[r|]|e] ns1] eqn:E.
    + apply missing_at_most in E; [|done]. by destruct (Z.eqb_spec r (slot + 1)); [lia|].
    + rewrite Z.eqb_refl. apply IH.
    + done.
  - destruct (handle_reorgs_for_present_slot init_start_slot slot h ns) as [[[r|]|e] ns1] eqn:E.
    + apply reorgs_at_most in E; [|done]. by destruct (Z.eqb_spec r (slot + 1)); [lia|].
    + destruct (derive_from_context c ns1) as [[ps|e] ns2]; [|done].
      destruct (commit_slot db_sync ps ns2) as [[[]|e] ns3]; [|done].
      rewrite Z.eqb_refl. apply IH.
    + done.
Qed.

Lemma batch_equals_single_witness :
  exists ns', @run_single Toy.toy_plonky2 Toy.toy_pod2 ToyStore.toy_store sample_blob_parser
    sample_chain (fun _ => Ok tt) 1 1 [Present 1 sample_header sample_context; Missing 2]
    sample_node = (Ok 3, ns').
Proof.
  eexists. rewrite <- (@batch_equals_single Toy.toy_plonky2 Toy.toy_pod2 ToyStore.toy_store
    sample_blob_parser sample_chain (fun _ => Ok tt) 1 1).
  - reflexivity.
  - repeat constructor; simpl; lia.
Defined.

End SyncLoop.
