(* ===== verification/Relayer.v ===== *)
(** * The relayer (services/relayer, libs/wire-types/src/relayer.rs)

    Clients post proof payloads; the relayer stores each as a job in Postgres
    ([db.rs]), idempotently by [tx_final] ([api.rs]), and a worker broadcasts it
    as a blob transaction, polls its receipt, replaces it at a higher fee and
    retries ([worker.rs]).

    The world is the job table together with an environment: the clock, the
    UUID source, the connection to Postgres and the Ethereum node. The
    environment is a parameter that may answer anything and may change at
    every call; in particular a statement may fail without effect or take effect
    and lose its answer. Logging and the shutdown signal are left out. *)

From stdpp Require Import sorting.
From S2P Require Import Prelude Pod2 Models Blob Payload DonState ContainerDb StateMachine.

Module Relayer.
Import Payload StateMachine.
Local Open Scope Z_scope.

(** ** Definitions *)

(** *** Job status *)

Inductive JobStatus : Type := Queued | Sending | Submitted | Confirmed | Failed.

#[global] Instance JobStatus_eq_dec : EqDecision JobStatus.
Proof. solve_decision. Defined.

Definition as_str (s : JobStatus) : string :=
  match s with
  | Queued => "queued"
  | Sending => "sending"
  | Submitted => "submitted"
  | Confirmed => "confirmed"
  | Failed => "failed"
  end.

Definition is_terminal (s : JobStatus) : bool :=
  match s with Confirmed | Failed => true | _ => false end.

Definition from_db_str (value : string) : result string JobStatus :=
  if decide (value = "queued") then Ok Queued
  else if decide (value = "sending") then Ok Sending
  else if decide (value = "submitted") then Ok Submitted
  else if decide (value = "confirmed") then Ok Confirmed
  else if decide (value = "failed") then Ok Failed
  else Err ("invalid job status: " +:+ value).

(** *** Jobs and rows

    A job and its row have the same fields; in a row the status is text, and
    [attempt_count] and [block_number] are the signed columns they are cast
    to. *)
Record JobOf (St : Type) : Type := MkJob {
  job_id : string;
  status : St;
  payload_bytes : list byte;
  tx_final : Hash;
  state_root : Hash;
  client_ref : option string;
  attempt_count : Z;
  tx_hash : option string;
  submitted_at : option Z;
  block_number : option Z;
  last_error : option string;
  next_attempt_at : option Z;
  nonce : option Z;
  bump_count : Z;
  prev_tx_hashes : list string;
  created_at : Z;
  updated_at : Z;
}.
Arguments MkJob {St}.
Arguments job_id {St}. Arguments status {St}. Arguments payload_bytes {St}.
Arguments tx_final {St}. Arguments state_root {St}. Arguments client_ref {St}.
Arguments attempt_count {St}. Arguments tx_hash {St}. Arguments submitted_at {St}.
Arguments block_number {St}. Arguments last_error {St}. Arguments next_attempt_at {St}.
Arguments nonce {St}. Arguments bump_count {St}. Arguments prev_tx_hashes {St}.
Arguments created_at {St}. Arguments updated_at {St}.

Definition RelayJob : Type := JobOf JobStatus.
Definition JobRow : Type := JobOf string.

(** Field assignment: [job |> set_f v] is [job.f = v]. *)
Definition set_status (v : JobStatus) (j : RelayJob) : RelayJob :=
  let '(MkJob i _ p f r c a t s b e n o u h d w) := j in MkJob i v p f r c a t s b e n o u h d w.
Definition set_attempt_count (v : Z) (j : RelayJob) : RelayJob :=
  let '(MkJob i st p f r c _ t s b e n o u h d w) := j in MkJob i st p f r c v t s b e n o u h d w.
Definition set_tx_hash (v : option string) (j : RelayJob) : RelayJob :=
  let '(MkJob i st p f r c a _ s b e n o u h d w) := j in MkJob i st p f r c a v s b e n o u h d w.
Definition set_submitted_at (v : option Z) (j : RelayJob) : RelayJob :=
  let '(MkJob i st p f r c a t _ b e n o u h d w) := j in MkJob i st p f r c a t v b e n o u h d w.
Definition set_block_number (v : option Z) (j : RelayJob) : RelayJob :=
  let '(MkJob i st p f r c a t s _ e n o u h d w) := j in MkJob i st p f r c a t s v e n o u h d w.
Definition set_last_error (v : option string) (j : RelayJob) : RelayJob :=
  let '(MkJob i st p f r c a t s b _ n o u h d w) := j in MkJob i st p f r c a t s b v n o u h d w.
Definition set_next_attempt_at (v : option Z) (j : RelayJob) : RelayJob :=
  let '(MkJob i st p f r c a t s b e _ o u h d w) := j in MkJob i st p f r c a t s b e v o u h d w.
Definition set_nonce (v : option Z) (j : RelayJob) : RelayJob :=
  let '(MkJob i st p f r c a t s b e n _ u h d w) := j in MkJob i st p f r c a t s b e n v u h d w.
Definition set_bump_count (v : Z) (j : RelayJob) : RelayJob :=
  let '(MkJob i st p f r c a t s b e n o _ h d w) := j in MkJob i st p f r c a t s b e n o v h d w.
Definition set_prev_tx_hashes (v : list string) (j : RelayJob) : RelayJob :=
  let '(MkJob i st p f r c a t s b e n o u _ d w) := j in MkJob i st p f r c a t s b e n o u v d w.
Definition set_updated_at (v : Z) (j : RelayJob) : RelayJob :=
  let '(MkJob i st p f r c a t s b e n o u h d _) := j in MkJob i st p f r c a t s b e n o u h d v.

Local Notation "x |> f" := (f x) (at level 61, left associativity, only parsing).

(** The bound parameters of [insert_job] and [put_job]. *)
Definition row_of_job (j : RelayJob) : JobRow :=
  let '(MkJob i st p f r c a t s b e n o u h d w) := j in
  MkJob i (as_str st) p f r c (as_i32 a) t s (as_i64 <$> b) e n o u h d w.

Definition row_to_job (r : JobRow) : Result RelayJob :=
  let '(MkJob i st p f sr c a t s b e n o u h d w) := r in
  let? st' := (match from_db_str st with Ok v => Ok v | Err m => Err (Fail m) end) in
  let? a' := (if a <? 0 then Err (Fail ("invalid attempt_count: " +:+ pretty a)) else Ok a) in
  let? b' := (match b with
              | None => Ok None
              | Some v => if v <? 0 then Err (Fail ("invalid block_number: " +:+ pretty v))
                          else Ok (Some v)
              end) in
  Ok (MkJob i st' p f sr c a' t s b' e n o u h d w).

(** *** The environment *)

(** What becomes of a statement sent to Postgres. *)
Inductive Delivery : Type :=
| Delivered
| AnswerLost (m : string)
| NotDelivered (m : string).

Class Host : Type := {
  Env : Type;
  now_ts : Env -> Z * Env;
  uuid_v4 : Env -> string * Env;
  db_delivery : Env -> Delivery * Env;
}.

Record ReceiptOutcome : Type := { success : bool; r_block_number : option Z }.
Record FeeEstimate : Type := { base_fee_per_gas : Z; net_priority_fee : Z }.
Record PendingTxFees : Type := {
  max_fee_per_gas : Z;
  max_priority_fee_per_gas : Z;
  max_fee_per_blob_gas : option Z;
}.
Abbreviation FeeOverrides := PendingTxFees.

(** The [EthGateway] trait. *)
Class EthGateway `{Host} : Type := {
  submit_payload : list byte -> Z -> eff Env string;
  poll_receipt : string -> eff Env (option ReceiptOutcome);
  get_next_nonce : eff Env Z;
  get_current_fees : eff Env FeeEstimate;
  get_pending_tx_fees : string -> eff Env (option PendingTxFees);
  submit_payload_with_fees : list byte -> Z -> FeeOverrides -> eff Env string;
}.

Abbreviation Jobs := (gmap string JobRow).

Record World `{Host} : Type := MkWorld { relay_jobs : Jobs; env : Env }.

(** Code that only uses the environment. *)
Definition on_env `{Host} {A} (c : eff Env A) : eff World A := fun w =>
  let '(r, e) := c (env w) in (r, MkWorld _ (relay_jobs w) e).

Definition now `{Host} : eff World Z := on_env (fun e => let '(t, e') := now_ts e in (Ok t, e')).
Definition new_uuid `{Host} : eff World string :=
  on_env (fun e => let '(t, e') := uuid_v4 e in (Ok t, e')).

Definition statement `{Host} {A} (f : eff Jobs A) : eff World A := fun w =>
  let '(d, e) := db_delivery (env w) in
  let '(r, t) := f (relay_jobs w) in
  match d with
  | Delivered => (r, MkWorld _ t e)
  | AnswerLost m => (Err (Fail m), MkWorld _ t e)
  | NotDelivered m => (Err (Fail m), MkWorld _ (relay_jobs w) e)
  end.

(** *** The queries of [db.rs] on the table *)

Definition row_with_tx_final (h : Hash) (t : Jobs) : option JobRow :=
  snd <$> (snd <$> list_find (fun kr : string * JobRow => tx_final kr.2 = h) (map_to_list t)).

Definition status_allowed (s : string) : bool := is_ok (from_db_str s).

(** [INSERT .. ON CONFLICT (tx_final) DO NOTHING RETURNING job_id] *)
Definition sql_insert (r : JobRow) : eff Jobs (option string) := fun t =>
  if negb (status_allowed (status r)) then (Err (Fail "violates check constraint"), t)
  else match row_with_tx_final (tx_final r) t with
  | Some _ => (Ok None, t)
  | None =>
      match t !! job_id r with
      | Some _ => (Err (Fail "duplicate key value violates unique constraint"), t)
      | None => (Ok (Some (job_id r)), <[job_id r := r]> t)
      end
  end.

(** [UPDATE .. WHERE job_id = $1]: the number of rows affected. *)
Definition sql_update (r : JobRow) : eff Jobs Z := fun t =>
  match t !! job_id r with
  | None => (Ok 0, t)
  | Some _ =>
      if negb (status_allowed (status r)) then (Err (Fail "violates check constraint"), t)
      else match row_with_tx_final (tx_final r) (delete (job_id r) t) with
      | Some _ => (Err (Fail "duplicate key value violates unique constraint"), t)
      | None => (Ok 1, <[job_id r := r]> t)
      end
  end.

Definition inflight (r : JobRow) : bool :=
  bool_decide (status r = "sending")
  || (bool_decide (status r = "submitted") && bool_decide (tx_hash r = None)).

Definition requeue (now : Z) (r : JobRow) : JobRow :=
  let '(MkJob i st p f sr c a t s b e n o u h d w) := r in
  MkJob i "queued" p f sr c a t s b e (Some now) o u h d now.

(** The [UPDATE] of [recover_inflight_jobs]. *)
Definition sql_recover (now : Z) : eff Jobs Z := fun t =>
  (Ok (Z.of_nat (size (filter (fun kr : string * JobRow => inflight kr.2 = true) t))),
   (fun r => if inflight r then requeue now r else r) <$> t).

(** The [WHERE] clause of [next_due_job]. *)
Definition due (now : Z) (r : JobRow) : bool :=
  bool_decide (status r ∈ ["queued"; "sending"; "submitted"])
  && match next_attempt_at r with None => true | Some t => t <=? now end.

(** [ORDER BY COALESCE(next_attempt_at, created_at), created_at]; rows that
    agree on both are returned in the order of the table. *)
Definition due_key (r : JobRow) : Z := default (created_at r) (next_attempt_at r).
Definition due_le (r1 r2 : JobRow) : Prop :=
  due_key r1 < due_key r2 \/ (due_key r1 = due_key r2 /\ created_at r1 <= created_at r2).
#[global] Instance due_le_dec r1 r2 : Decision (due_le r1 r2).
Proof. unfold due_le. apply _. Defined.

Definition sql_next_due (now : Z) : eff Jobs (option JobRow) := fun t =>
  (Ok (head (merge_sort due_le (filter (fun r => due now r = true) (snd <$> map_to_list t)))), t).

(** *** [db.rs] *)

Inductive InsertJobResult : Type :=
| Inserted
| Existing (job : RelayJob).

Section Db.
Context `{Host}.

Definition transpose_row (r : option JobRow) : Result (option RelayJob) :=
  match r with
  | None => Ok None
  | Some r => let? j := row_to_job r in Ok (Some j)
  end.

Definition get_job (id : string) : eff World (option RelayJob) :=
  let! row := statement (fun t => (Ok (t !! id), t)) in
  elift (transpose_row row).

Definition get_job_by_tx_final (h : Hash) : eff World (option RelayJob) :=
  let! row := statement (fun t => (Ok (row_with_tx_final h t), t)) in
  elift (transpose_row row).

Definition insert_job (job : RelayJob) : eff World InsertJobResult :=
  let! inserted := statement (sql_insert (row_of_job job)) in
  match inserted with
  | Some _ => eret Inserted
  | None =>
      let! found := get_job_by_tx_final (tx_final job) in
      match found with
      | Some existing => eret (Existing existing)
      | None => ethrow (Fail "idempotent insert conflict but existing job not found")
      end
  end.

Definition put_job (job : RelayJob) : eff World unit :=
  let! rows_affected := statement (sql_update (row_of_job job)) in
  if rows_affected =? 0 then ethrow (Fail ("job not found: " +:+ job_id job)) else eret tt.

Definition recover_inflight_jobs (now : Z) : eff World Z := statement (sql_recover now).

Definition next_due_job (now : Z) : eff World (option RelayJob) :=
  let! row := statement (sql_next_due now) in
  elift (transpose_row row).
End Db.

(** *** [api.rs] *)

Record SubmitProofRequest : Type := { payload_base64 : string; req_client_ref : option string }.

Record SubmitProofResponse : Type := {
  sp_job_id : string;
  sp_status : JobStatus;
  sp_tx_final : Hash;
  sp_state_root : Hash;
  sp_attempt_count : Z;
  sp_created_at : Z;
}.

Record JobStatusResponse : Type := {
  js_job_id : string;
  js_status : JobStatus;
  js_tx_hash : option string;
  js_block_number : option Z;
  js_attempt_count : Z;
  js_last_error : option string;
  js_updated_at : Z;
  js_created_at : Z;
  js_tx_final : Hash;
  js_state_root : Hash;
}.

Inductive StatusCode : Type := ACCEPTED | OK.

Inductive ApiError : Type :=
| BadRequest (msg : string)
| NotFound (msg : string)
| Internal (msg : string).

Definition to_submit_response (job : RelayJob) : SubmitProofResponse :=
  {| sp_job_id := job_id job; sp_status := status job; sp_tx_final := tx_final job;
     sp_state_root := state_root job; sp_attempt_count := attempt_count job;
     sp_created_at := created_at job |}.

Definition to_status_response (job : RelayJob) : JobStatusResponse :=
  {| js_job_id := job_id job; js_status := status job; js_tx_hash := tx_hash job;
     js_block_number := block_number job; js_attempt_count := attempt_count job;
     js_last_error := last_error job; js_updated_at := updated_at job;
     js_created_at := created_at job; js_tx_final := tx_final job;
     js_state_root := state_root job |}.

Section Api.
Context `{Host, Plonky2, !BlobParser}.
(** The base64 crate's decoder. *)
Variable base64_decode : string -> option (list byte).

(** The payload a request carries, with the errors of the checks on it. *)
Definition check_request (req : SubmitProofRequest) :
    Result (result ApiError (list byte * Payload.Payload)) :=
  match base64_decode (payload_base64 req) with
  | None => Ok (Err (BadRequest "payload_base64 is invalid base64"))
  | Some bytes =>
      if Blob.MAX_SIMPLE_BLOB_PAYLOAD_BYTES <? Z.of_nat (length bytes)
      then Ok (Err (BadRequest ("payload exceeds single-blob limit: " +:+ pretty (length bytes)
                                +:+ " > " +:+ pretty Blob.MAX_SIMPLE_BLOB_PAYLOAD_BYTES)))
      else match StateMachine.parse_blob bytes with
           | Err (Panic m) => Err (Panic m)
           | Err (Fail m) => Ok (Err (BadRequest ("payload verification failed: " +:+ m)))
           | Ok None => Ok (Err (BadRequest "payload did not decode into a valid proof payload"))
           | Ok (Some p) => Ok (Ok (bytes, p))
           end
  end.

Definition fresh_job (id : string) (t : Z) (bytes : list byte) (p : Payload.Payload)
    (req : SubmitProofRequest) : RelayJob :=
  {| job_id := id; status := Queued; payload_bytes := bytes;
     tx_final := Payload.tx_final p; state_root := Payload.state_root p;
     client_ref := req_client_ref req; attempt_count := 0; tx_hash := None;
     submitted_at := None; block_number := None; last_error := None;
     next_attempt_at := Some t; nonce := None; bump_count := 0; prev_tx_hashes := [];
     created_at := t; updated_at := t |}.

Definition submit_proof (req : SubmitProofRequest) :
    eff World (result ApiError (StatusCode * SubmitProofResponse)) :=
  let! checked := elift (check_request req) in
  match checked with
  | Err e => eret (Err e)
  | Ok (bytes, p) =>
      let! t := now in
      let! id := new_uuid in
      let job := fresh_job id t bytes p req in
      let! inserted := etry (insert_job job) in
      match inserted with
      | Err m => eret (Err (Internal m))
      | Ok Inserted => eret (Ok (ACCEPTED, to_submit_response job))
      | Ok (Existing existing) => eret (Ok (OK, to_submit_response existing))
      end
  end.

Definition get_proof (id : string) : eff World (result ApiError JobStatusResponse) :=
  let! found := etry (get_job id) in
  match found with
  | Err m => eret (Err (Internal m))
  | Ok None => eret (Err (NotFound ("job not found: " +:+ id)))
  | Ok (Some job) => eret (Ok (to_status_response job))
  end.
End Api.

(** *** [worker.rs] *)

Record WorkerConfig : Type := {
  max_attempts : Z;
  retry_initial_secs : Z;
  retry_max_secs : Z;
  receipt_poll_secs : Z;
  receipt_timeout_secs : option Z;
  fee_bump_after_secs : option Z;
  fee_bump_multiplier_pct : Z;
  fee_bump_max : Z;
}.

Definition backoff_secs (attempt_count initial max : Z) : Z :=
  let shift := Z.min (saturating_sub_u32 attempt_count 1) 20 in
  let exp := as_u64 (Z.shiftl 1 shift) in
  Z.min (saturating_mul_u64 initial exp) max.

(** [str::contains] *)
Fixpoint contains (needle s : string) : bool :=
  match strip_prefix needle s with
  | Some _ => true
  | None => match s with EmptyString => false | String _ s' => contains needle s' end
  end.

Definition is_permanent_error (err : string) : bool := contains "invalid tx hash" err.

Definition u128_max : Z := 2 ^ 128 - 1.

Definition apply_bump (multiplier_pct base : Z) : Z :=
  Z.min u128_max (base * (100 + multiplier_pct)) / 100.

(** The fee caps [try_fee_bump] asks for. *)
Definition bumped_fees (cfg : WorkerConfig) (network : FeeEstimate) (original : PendingTxFees) :
    FeeOverrides :=
  let bump := apply_bump (fee_bump_multiplier_pct cfg) in
  let base_priority := Z.max (max_priority_fee_per_gas original) (net_priority_fee network) in
  let base_max_fee := Z.max (max_fee_per_gas original)
                            (wrapu 128 (base_fee_per_gas network + base_priority)) in
  {| max_fee_per_gas := bump base_max_fee;
     max_priority_fee_per_gas := bump base_priority;
     max_fee_per_blob_gas := bump <$> max_fee_per_blob_gas original |}.

(** [a + b as i64], in release arithmetic. *)
Definition add_secs (a b : Z) : Z := as_i64 (a + as_i64 b).

Section Worker.
Context `{EthGateway}.

Definition try_fee_bump (cfg : WorkerConfig) (payload : list byte) (nonce : Z)
    (current_tx_hash : string) : eff World (option string) :=
  let! network := on_env get_current_fees in
  let! pending := on_env (get_pending_tx_fees current_tx_hash) in
  match pending with
  | None => eret None
  | Some original =>
      let! h := on_env (submit_payload_with_fees payload nonce (bumped_fees cfg network original)) in
      eret (Some h)
  end.

Definition fail_job_with_block (job : RelayJob) (now : Z) (block : option Z) (reason : string) :
    eff World unit :=
  put_job (job |> set_status Failed |> set_block_number block |> set_next_attempt_at None
           |> set_last_error (Some reason) |> set_updated_at now).

Definition schedule_retry_or_fail (cfg : WorkerConfig) (job : RelayJob) (now : Z) (msg : string) :
    eff World unit :=
  if max_attempts cfg <=? attempt_count job then
    put_job (job |> set_status Failed |> set_next_attempt_at None
             |> set_last_error (Some msg) |> set_updated_at now)
  else
    let backoff := backoff_secs (attempt_count job) (retry_initial_secs cfg) (retry_max_secs cfg) in
    put_job (job |> set_status Queued |> set_next_attempt_at (Some (add_secs now backoff))
             |> set_last_error (Some msg) |> set_updated_at now).

Definition send_queued_job (cfg : WorkerConfig) (job : RelayJob) : eff World unit :=
  let! now := now in
  let job := job |> set_status Sending
                 |> set_attempt_count (saturating_add_u32 (attempt_count job) 1)
                 |> set_updated_at now in
  put_job job ;!
  let! nonce := on_env get_next_nonce in
  let! sent := etry (on_env (submit_payload (payload_bytes job) nonce)) in
  match sent with
  | Ok h =>
      put_job (job |> set_status Submitted |> set_tx_hash (Some h) |> set_submitted_at (Some now)
               |> set_next_attempt_at (Some (add_secs now (receipt_poll_secs cfg)))
               |> set_last_error None |> set_nonce (Some (as_i64 nonce)) |> set_bump_count 0
               |> set_updated_at now)
  | Err m => schedule_retry_or_fail cfg job now m
  end.

(** The scan for the replaced transaction that was mined, latest first. *)
Fixpoint find_mined (hashes : list string) : eff World (option (string * option Z)) :=
  match hashes with
  | [] => eret None
  | h :: hashes' =>
      let! receipt := etry (on_env (poll_receipt h)) in
      match receipt with
      | Ok (Some {| success := true; r_block_number := b |}) => eret (Some (h, b))
      | _ => find_mined hashes'
      end
  end.

(** The tail of the pending branch: poll again later. *)
Definition poll_again (cfg : WorkerConfig) (job : RelayJob) (now : Z) : eff World unit :=
  put_job (job |> set_status Submitted
           |> set_next_attempt_at (Some (add_secs now (receipt_poll_secs cfg)))
           |> set_updated_at now).

(** The replacement found no transaction in the mempool. *)
Definition bump_found_nothing (cfg : WorkerConfig) (job : RelayJob) (now nonce : Z) : eff World unit :=
  let dropped :=
    let job := job |> set_bump_count (as_i32 (fee_bump_max cfg)) |> set_updated_at now in
    put_job job ;! poll_again cfg job now in
  let! current := etry (on_env get_next_nonce) in
  match current with
  | Ok current_nonce =>
      if as_u64 nonce <? current_nonce then
        let! mined := find_mined (rev (prev_tx_hashes job)) in
        match mined with
        | Some (hash, block) =>
            put_job (job |> set_tx_hash (Some hash) |> set_status Confirmed
                     |> set_block_number (match block with Some b => Some b | None => block_number job end)
                     |> set_next_attempt_at None |> set_last_error None |> set_updated_at now)
        | None =>
            put_job (job |> set_bump_count (as_i32 (fee_bump_max cfg))
                     |> set_next_attempt_at (Some (add_secs now (receipt_poll_secs cfg)))
                     |> set_updated_at now)
        end
      else dropped
  | Err _ => dropped
  end.

(** [Ok(None)]: no receipt yet. *)
Definition receipt_pending (cfg : WorkerConfig) (job : RelayJob) (now : Z) (tx_hash_str : string) :
    eff World unit :=
  match fee_bump_after_secs cfg, submitted_at job, nonce job with
  | Some bump_after, Some at_, Some n =>
      let bump_threshold := as_i64 (as_i64 bump_after * as_i64 (bump_count job + 1)) in
      let elapsed := saturating_sub_i64 now at_ in
      if (bump_threshold <=? elapsed) && (as_u32 (bump_count job) <? fee_bump_max cfg) then
        let! bumped := etry (try_fee_bump cfg (payload_bytes job) (as_u64 n) tx_hash_str) in
        match bumped with
        | Ok (Some new_tx_hash) =>
            put_job (job |> set_prev_tx_hashes (prev_tx_hashes job ++ [tx_hash_str])
                     |> set_tx_hash (Some new_tx_hash)
                     |> set_bump_count (as_i32 (bump_count job + 1))
                     |> set_next_attempt_at (Some (add_secs now (receipt_poll_secs cfg)))
                     |> set_updated_at now)
        | Ok None => bump_found_nothing cfg job now n
        | Err _ => poll_again cfg job now
        end
      else poll_again cfg job now
  | _, _, _ => poll_again cfg job now
  end.

(** The receipt poll itself. *)
Definition poll_receipt_of (cfg : WorkerConfig) (job : RelayJob) (now : Z) (tx_hash_str : string) :
    eff World unit :=
  let job := job |> set_updated_at now in
  put_job job ;!
  let! receipt := etry (on_env (poll_receipt tx_hash_str)) in
  match receipt with
  | Ok (Some {| success := true; r_block_number := block |}) =>
      put_job (job |> set_status Confirmed |> set_block_number block |> set_next_attempt_at None
               |> set_last_error None |> set_updated_at now)
  | Ok (Some {| success := false; r_block_number := block |}) =>
      fail_job_with_block job now block "transaction reverted on-chain"
  | Ok None => receipt_pending cfg job now tx_hash_str
  | Err m =>
      if is_permanent_error m then fail_job_with_block job now (block_number job) m
      else schedule_retry_or_fail cfg job now m
  end.

Definition poll_submitted_job (cfg : WorkerConfig) (job : RelayJob) : eff World unit :=
  let! now := now in
  let! tx_hash_str := elift (ok_or (tx_hash job) "submitted job missing tx_hash") in
  match receipt_timeout_secs cfg, submitted_at job with
  | Some timeout_secs, Some at_ =>
      if as_i64 timeout_secs <=? saturating_sub_i64 now at_ then
        fail_job_with_block job now (block_number job)
          ("receipt timeout after " +:+ pretty timeout_secs +:+ "s")
      else poll_receipt_of cfg job now tx_hash_str
  | _, _ => poll_receipt_of cfg job now tx_hash_str
  end.

Definition process_due_job (cfg : WorkerConfig) (job : RelayJob) : eff World unit :=
  if is_terminal (status job) then eret tt
  else match tx_hash job with
       | Some _ => poll_submitted_job cfg job
       | None => send_queued_job cfg job
       end.

(** One turn of the worker's loop: [false] when no job is due. An error of
    [process_due_job] is only logged. *)
Definition worker_turn (cfg : WorkerConfig) : eff World bool :=
  let! t := now in
  let! found := next_due_job t in
  match found with
  | None => eret false
  | Some job => let! _ := etry (process_due_job cfg job) in eret true
  end.

(** [run_worker], for [n] turns of its loop. *)
Fixpoint worker_turns (cfg : WorkerConfig) (n : nat) : eff World unit :=
  match n with
  | O => eret tt
  | S n' => let! _ := worker_turn cfg in worker_turns cfg n'
  end.

Definition run_worker (cfg : WorkerConfig) (n : nat) : eff World unit :=
  let! t := now in
  let! _ := recover_inflight_jobs t in
  worker_turns cfg n.
End Worker.

(** ** Specification *)

(** What the relayer relies on from the node: block numbers and nonces are in
    range. *)
Class GatewayLaws `{EthGateway} : Prop := {
  receipt_block_range h e r e' b :
    poll_receipt h e = (Ok (Some r), e') -> r_block_number r = Some b -> 0 <= b < 2 ^ 63;
  nonce_range e n e' : get_next_nonce e = (Ok n, e') -> 0 <= n < 2 ^ 64;
}.

(** The life of a job, as a client sees it. *)
Inductive phase : Type := Waiting | Broadcasting | Pending | Done | Dead.

Definition phase_of (j : RelayJob) : phase :=
  match status j, tx_hash j with
  | Confirmed, _ => Done
  | Failed, _ => Dead
  | _, Some _ => Pending
  | Sending, None => Broadcasting
  | _, None => Waiting
  end.

Inductive phase_step : phase -> phase -> Prop :=
| step_send : phase_step Waiting Broadcasting
| step_retry : phase_step Broadcasting Waiting
| step_broadcast : phase_step Broadcasting Pending
| step_give_up : phase_step Broadcasting Dead
| step_confirm : phase_step Pending Done
| step_fail : phase_step Pending Dead.

Section Spec.
Context `{EthGateway}.
Variable cfg : WorkerConfig.

(** The node accepted transaction [h], carrying [p] at nonce [n]. *)
Definition broadcast (p : list byte) (n : Z) (h : string) : Prop :=
  exists e e', submit_payload p n e = (Ok h, e')
    \/ exists fees, submit_payload_with_fees p n fees e = (Ok h, e').

(** The node showed a successful receipt of transaction [h]. *)
Definition mined (h : string) : Prop :=
  exists e e' b, poll_receipt h e = (Ok (Some {| success := true; r_block_number := b |}), e').

Record job_wf (j : RelayJob) : Prop := {
  wf_attempts : 0 <= attempt_count j < 2 ^ 31;
  wf_block b : block_number j = Some b -> 0 <= b < 2 ^ 63;
  wf_bumps : Z.of_nat (length (prev_tx_hashes j)) <= bump_count j <= fee_bump_max cfg;
  (** Every transaction of the job carries its payload at its one nonce. *)
  wf_hashes h : tx_hash j = Some h \/ h ∈ prev_tx_hashes j ->
    exists n, nonce j = Some n /\ broadcast (payload_bytes j) (as_u64 n) h;
  wf_unsent : tx_hash j = None ->
    prev_tx_hashes j = [] /\ (status j = Queued \/ status j = Sending \/ status j = Failed);
  wf_sent : is_Some (tx_hash j) -> is_Some (submitted_at j) /\ status j <> Sending;
  wf_queued : status j = Queued -> is_Some (next_attempt_at j);
  (** A job is only confirmed on a receipt of its transaction. *)
  wf_confirmed : status j = Confirmed -> exists h, tx_hash j = Some h /\ mined h;
  wf_failed : status j = Failed -> is_Some (last_error j);
  wf_terminal : is_terminal (status j) = true -> next_attempt_at j = None;
}.

(** How a job may change over time. *)
Record evolves (j j' : RelayJob) : Prop := {
  ev_identity : job_id j' = job_id j /\ payload_bytes j' = payload_bytes j
    /\ tx_final j' = tx_final j /\ state_root j' = state_root j
    /\ client_ref j' = client_ref j /\ created_at j' = created_at j;
  ev_phase : rtc phase_step (phase_of j) (phase_of j');
  ev_terminal : is_terminal (status j) = true -> j' = j;
  ev_attempts : attempt_count j <= attempt_count j';
  ev_sent : is_Some (tx_hash j) ->
    is_Some (tx_hash j') /\ nonce j' = nonce j /\ submitted_at j' = submitted_at j;
  ev_prev : prev_tx_hashes j `prefix_of` prev_tx_hashes j';
}.

(** Every row is a well-formed job under its own key, no two share [tx_final],
    and no job was sent more than [n] times. *)
Record table_wf (n : Z) (t : Jobs) : Prop := {
  tw_rows id r : t !! id = Some r ->
    exists j, r = row_of_job j /\ job_id j = id /\ job_wf j /\ attempt_count j <= n;
  tw_unique id1 id2 r1 r2 : t !! id1 = Some r1 -> t !! id2 = Some r2 ->
    tx_final r1 = tx_final r2 -> id1 = id2;
}.

(** The table after a step: rows are only added, and each evolves. *)
Definition table_evolves (t t' : Jobs) : Prop :=
  forall id j, job_wf j -> t !! id = Some (row_of_job j) ->
    exists j', t' !! id = Some (row_of_job j') /\ job_wf j' /\ evolves j j'.
End Spec.

#[global] Instance evolves_preorder : PreOrder evolves.
Proof.
  split.
  - intros j. split; [done..|reflexivity|done|reflexivity|done|reflexivity].
  - intros j1 j2 j3 [I1 P1 T1 A1 S1 H1] [I2 P2 T2 A2 S2 H2]. split.
    + intuition congruence.
    + by etrans.
    + intros Ht. specialize (T1 Ht); subst. auto.
    + lia.
    + intros Hs. destruct (S1 Hs) as (Hs' & ? & ?). destruct (S2 Hs') as (? & ? & ?).
      split_and!; [done|congruence..].
    + by etrans.
Qed.

(** ** Rows *)

Lemma from_db_str_as_str s : from_db_str (as_str s) = Ok s.
Proof. by destruct s. Qed.

Lemma from_db_str_Ok v s : from_db_str v = Ok s -> v = as_str s.
Proof. unfold from_db_str. repeat case_decide; naive_solver. Qed.

Lemma row_to_job_of j :
  0 <= attempt_count j < 2 ^ 31 -> (forall b, block_number j = Some b -> 0 <= b < 2 ^ 63) ->
  row_to_job (row_of_job j) = Ok j.
Proof.
  destruct j as [i st p f sr c a t s b e n o u h d w]; simpl. intros Ha Hb.
  rewrite from_db_str_as_str, as_i32_id by done. simpl.
  destruct (Z.ltb_spec a 0); [lia|]. simpl.
  destruct b as [b|]; simpl; [|done]. specialize (Hb b eq_refl).
  rewrite as_i64_id by done. by destruct (Z.ltb_spec b 0); [lia|].
Qed.

Lemma row_of_job_fields j :
  job_id (row_of_job j) = job_id j /\ status (row_of_job j) = as_str (status j)
  /\ tx_final (row_of_job j) = tx_final j /\ tx_hash (row_of_job j) = tx_hash j
  /\ next_attempt_at (row_of_job j) = next_attempt_at j.
Proof. by destruct j. Qed.

Lemma row_with_tx_final_Some h t r :
  row_with_tx_final h t = Some r -> tx_final r = h /\ exists id, t !! id = Some r.
Proof.
  unfold row_with_tx_final. rewrite fmap_Some. intros ([id r'] & Hf & ->).
  apply fmap_Some in Hf as ([k kr] & Hf & [= <-]).
  apply list_find_Some in Hf as (Hk & Ht & _). split; [done|]. exists id.
  apply list_elem_of_lookup_2 in Hk. by apply elem_of_map_to_list in Hk.
Qed.

Lemma row_with_tx_final_None h t :
  row_with_tx_final h t = None -> forall id r, t !! id = Some r -> tx_final r <> h.
Proof.
  unfold row_with_tx_final. rewrite fmap_None, fmap_None, list_find_None, Forall_forall.
  intros Hf id r Hr. apply (Hf (id, r)). by apply elem_of_map_to_list.
Qed.

(** ** Effects on one row *)

Lemma wp_env `{Host} {A} (c : eff Env A) (Q : A -> World -> Prop) E w :
  (forall a e, c (env w) = (Ok a, e) -> Q a (MkWorld _ (relay_jobs w) e)) ->
  (forall f e, c (env w) = (Err f, e) -> E f (MkWorld _ (relay_jobs w) e)) ->
  wp (on_env c) Q E w.
Proof. intros HQ HE. unfold wp, on_env. destruct (c (env w)) as [[a|f] e]; auto. Qed.

Lemma wp_statement `{Host} {A} (f : eff Jobs A) (Q : A -> World -> Prop) E w :
  (forall e, wp f (fun a t => Q a (MkWorld _ t e)) (fun x t => E x (MkWorld _ t e)) (relay_jobs w)) ->
  (forall m e, E (Fail m) (MkWorld _ (relay_jobs w) e)) ->
  (forall m e, E (Fail m) (MkWorld _ (snd (f (relay_jobs w))) e)) ->
  wp (statement f) Q E w.
Proof.
  intros H1 H2 H3. unfold wp, statement in *. destruct (db_delivery (env w)) as [d e].
  specialize (H1 e). specialize (H3). destruct (f (relay_jobs w)) as [r t]; simpl in *.
  by destruct d; [destruct r|..].
Qed.

(** While a turn runs, the table is the one it started from, with at most the
    turn's own row replaced by a [good] version of the job. *)
Section OneRow.
Context `{Host} (t0 : Jobs) (id : string) (good : RelayJob -> Prop).

Definition touched (w : World) : Prop :=
  relay_jobs w = t0 \/ exists j, good j /\ relay_jobs w = <[id := row_of_job j]> t0.

Definition now_holds (j : RelayJob) (w : World) : Prop :=
  relay_jobs w = <[id := row_of_job j]> t0.

Lemma wp_put_job j w :
  is_Some (t0 !! id) -> job_id j = id -> good j -> touched w ->
  wp (put_job j) (fun _ w' => now_holds j w') (fun _ => touched) w.
Proof.
  intros [r0 Hr0] Hid Hg Hw. unfold put_job. apply wp_bind.
  assert (Hins : <[id := row_of_job j]> (relay_jobs w) = <[id := row_of_job j]> t0).
  { destruct Hw as [->|(j' & _ & ->)]; [done|]. by rewrite insert_insert_eq. }
  destruct (row_of_job_fields j) as (Hrid & Hst & _).
  assert (Hup : forall t', snd (sql_update (row_of_job j) (relay_jobs w)) = t' ->
    t' = relay_jobs w \/ t' = <[id := row_of_job j]> t0).
  { intros t'. unfold sql_update. rewrite Hrid, Hid.
    repeat case_match; simpl; intros <-; auto. }
  assert (Ht : forall t' e, t' = relay_jobs w \/ t' = <[id := row_of_job j]> t0 ->
    touched (MkWorld _ t' e)).
  { intros t' e [-> | ->]; [by destruct Hw; [left|right]|]. right. by exists j. }
  apply wp_statement; [|by auto..].
  intros e. unfold wp. pose proof (Hup _ eq_refl) as Hsnd. unfold sql_update in *.
  rewrite Hrid, Hid in *. destruct (relay_jobs w !! id) as [r|] eqn:Hr; simpl in *.
  - destruct (negb _); simpl in *; [by apply Ht|].
    destruct (row_with_tx_final _ _); simpl in *; [by apply Ht|]. done.
  - exfalso. destruct Hw as [Hw|(j' & _ & Hw)]; rewrite Hw in Hr; [congruence|].
    by rewrite lookup_insert_eq in Hr.
Qed.

Lemma touched_now j w : good j -> now_holds j w -> touched w.
Proof. intros Hg Hw. right. eauto. Qed.

Lemma touched_env w e : touched w -> touched (MkWorld _ (relay_jobs w) e).
Proof. done. Qed.
End OneRow.

(** ** One turn of the worker *)

Section Turn.
Context `{GatewayLaws} (cfg : WorkerConfig).
Hypothesis cfg_bump_max : 0 <= fee_bump_max cfg < 2 ^ 31.

(** The versions of [j0] a turn may store. *)
Definition good (j0 j : RelayJob) : Prop :=
  job_wf cfg j /\ evolves j0 j /\ attempt_count j <= attempt_count j0 + 1.

Lemma as_u64_i64 n : 0 <= n < 2 ^ 64 -> as_u64 (as_i64 n) = n.
Proof.
  intros Hn. unfold as_u64, as_i64, wraps, wrapu. rewrite (Z.mod_small n) by lia.
  destruct (Z.ltb_spec n (2 ^ (64 - 1))); [by rewrite Z.mod_small by lia|].
  symmetry. apply Z.mod_unique with (-1); lia.
Qed.

(** The assignments of the worker, on a job that is not terminal. *)
Ltac job_cases j Hwf Hst :=
  destruct j as [ji jst jp jf jr jc ja jt js jb je jn jo ju jh jd jw];
  destruct Hwf as [Wa Wb Wu Wh Wn Ws Wq Wc Wf Wt]; simpl in *.
Ltac solve_phase :=
  unfold phase_of in *; simpl in *;
  match goal with st : JobStatus |- _ => destruct st end;
  match goal with t : option string |- rtc _ (match ?x with _ => _ end) _ => destruct x
                | |- _ => idtac end;
  simpl in *; first [done | reflexivity | by apply rtc_once; constructor].

Lemma good_failed j now block msg :
  job_wf cfg j -> is_terminal (status j) = false -> phase_of j <> Waiting ->
  (forall b, block = Some b -> 0 <= b < 2 ^ 63) ->
  let j' := j |> set_status Failed |> set_block_number block |> set_next_attempt_at None
              |> set_last_error (Some msg) |> set_updated_at now in
  job_wf cfg j' /\ evolves j j'.
Proof.
  intros Hwf Hst Hph Hb. job_cases j Hwf Hst. split.
  - split; simpl; try done; [| by intros [??]%Ws].
    intros ->. destruct Wn as [-> _]; auto.
  - split; simpl; try done; [|by rewrite Hst]. solve_phase.
Qed.

Lemma good_requeued j now next msg :
  job_wf cfg j -> is_terminal (status j) = false ->
  let j' := j |> set_status Queued |> set_next_attempt_at (Some next)
              |> set_last_error (Some msg) |> set_updated_at now in
  job_wf cfg j' /\ evolves j j'.
Proof.
  intros Hwf Hst. job_cases j Hwf Hst. split.
  - split; simpl; try done; [|by intros [??]%Ws].
    intros ->. destruct Wn as [-> _]; auto.
  - split; simpl; try done; [|by rewrite Hst]. solve_phase.
Qed.

Lemma good_touched j now :
  job_wf cfg j -> is_terminal (status j) = false ->
  job_wf cfg (j |> set_updated_at now) /\ evolves j (j |> set_updated_at now).
Proof.
  intros Hwf Hst. job_cases j Hwf Hst. split; [done|].
  split; simpl; try done. by rewrite Hst.
Qed.

Lemma good_sending j now :
  job_wf cfg j -> is_terminal (status j) = false -> tx_hash j = None ->
  attempt_count j + 1 < 2 ^ 31 ->
  let j' := j |> set_status Sending |> set_attempt_count (saturating_add_u32 (attempt_count j) 1)
              |> set_updated_at now in
  job_wf cfg j' /\ evolves j j' /\ attempt_count j' = attempt_count j + 1.
Proof.
  intros Hwf Hst Ht Ha. job_cases j Hwf Hst. subst jt.
  assert (Hs : saturating_add_u32 ja 1 = ja + 1) by (unfold saturating_add_u32, u32_max; lia).
  rewrite Hs. split_and!; [..|done].
  - split; simpl; try done; try lia. intros _. split; [by apply Wn|auto].
  - split; simpl; try done; try lia; [|by rewrite Hst]. solve_phase.
Qed.

Lemma good_submitted j now next n h :
  job_wf cfg j -> status j = Sending -> tx_hash j = None ->
  0 <= n < 2 ^ 64 -> broadcast (payload_bytes j) n h ->
  let j' := j |> set_status Submitted |> set_tx_hash (Some h) |> set_submitted_at (Some now)
              |> set_next_attempt_at (Some next)
              |> set_last_error None |> set_nonce (Some (as_i64 n)) |> set_bump_count 0
              |> set_updated_at now in
  job_wf cfg j' /\ evolves j j'.
Proof.
  intros Hwf Hst Ht Hn Hb. job_cases j Hwf Hst. subst jt jst.
  destruct (Wn eq_refl) as [-> _]. split.
  - split; simpl; try done; [lia|].
    intros h' [[= <-]|Hh]; [|by apply not_elem_of_nil in Hh].
    exists (as_i64 n). by rewrite as_u64_i64.
  - split; simpl; try done; [apply rtc_once; constructor].
Qed.

Lemma good_confirmed j now h block :
  job_wf cfg j -> is_terminal (status j) = false -> is_Some (tx_hash j) -> mined h ->
  tx_hash j = Some h \/ h ∈ prev_tx_hashes j ->
  (forall b, block = Some b -> 0 <= b < 2 ^ 63) ->
  let j' := j |> set_tx_hash (Some h) |> set_status Confirmed |> set_block_number block
              |> set_next_attempt_at None |> set_last_error None |> set_updated_at now in
  job_wf cfg j' /\ evolves j j'.
Proof.
  intros Hwf Hst Ht Hm Hh Hb. job_cases j Hwf Hst. split.
  - split; simpl; try done; [|by intros _; destruct (Ws Ht)|by intros _; exists h].
    intros h' [[= <-]|Hh']; apply Wh; auto.
  - split; simpl; try done; [|by rewrite Hst]. destruct Ht as [x ->].
    unfold phase_of; simpl. destruct jst; simpl in *; try done; apply rtc_once; constructor.
Qed.

Lemma good_poll_again j now next bumps :
  job_wf cfg j -> is_terminal (status j) = false -> is_Some (tx_hash j) ->
  bumps = bump_count j \/ bumps = fee_bump_max cfg ->
  let j' := j |> set_bump_count bumps |> set_status Submitted |> set_next_attempt_at (Some next)
              |> set_updated_at now in
  job_wf cfg j' /\ evolves j j'.
Proof.
  intros Hwf Hst Ht Hb. job_cases j Hwf Hst. destruct Ht as [x ->]. split.
  - split; simpl; try done; [lia|by intros _; destruct Ws].
  - split; simpl; try done; [|by rewrite Hst].
    unfold phase_of; simpl. by destruct jst.
Qed.

Lemma good_bump_stopped j now next :
  job_wf cfg j -> is_terminal (status j) = false -> is_Some (tx_hash j) ->
  is_Some next \/ next = next_attempt_at j ->
  let j' := j |> set_bump_count (as_i32 (fee_bump_max cfg)) |> set_next_attempt_at next
              |> set_updated_at now in
  job_wf cfg j' /\ evolves j j'.
Proof.
  intros Hwf Hst Ht Hn. rewrite as_i32_id by done. job_cases j Hwf Hst. split.
  - split; simpl; try done; [lia|..].
    + intros Hq. destruct Hn as [?| ->]; auto.
    + intros Hf. destruct Hn as [[x ->]| ->]; [by rewrite Hst in Hf|auto].
  - split; simpl; try done. by rewrite Hst.
Qed.

Lemma good_bumped j now next h n h' :
  job_wf cfg j -> is_terminal (status j) = false -> tx_hash j = Some h ->
  bump_count j < fee_bump_max cfg ->
  nonce j = Some n -> broadcast (payload_bytes j) (as_u64 n) h' ->
  let j' := j |> set_prev_tx_hashes (prev_tx_hashes j ++ [h]) |> set_tx_hash (Some h')
              |> set_bump_count (as_i32 (bump_count j + 1)) |> set_next_attempt_at (Some next)
              |> set_updated_at now in
  job_wf cfg j' /\ evolves j j'.
Proof.
  intros Hwf Hst Ht Hlt Hn Hb. job_cases j Hwf Hst. subst jt jo.
  rewrite as_i32_id by lia. split.
  - split; simpl; try done.
    + rewrite length_app; simpl. lia.
    + intros x [[= <-]|Hx]; [by exists n|]. apply Wh.
      apply elem_of_app in Hx as [?|Hx%list_elem_of_singleton]; [auto|subst; auto].
    + intros _. split; [by apply Ws|]. by destruct Ws.
    + intros Hc. by rewrite Hc in Hst.
    + intros Hf. by rewrite Hst in Hf.
  - split; simpl; try done; [by rewrite Hst|]. by apply prefix_app_r.
Qed.

Section Job.
Context (t0 : Jobs) (j0 : RelayJob).
Hypothesis wf0 : job_wf cfg j0.
Hypothesis row0 : is_Some (t0 !! job_id j0).

Abbreviation Touched := (touched t0 (job_id j0) (good j0)).

Lemma wp_put_good j w :
  good j0 j -> Touched w -> wp (put_job j) (fun _ => Touched) (fun _ => Touched) w.
Proof.
  intros Hg Hw. eapply wp_mono; [eapply (wp_put_job _ _ (good j0)); eauto| |done].
  - destruct Hg as (_ & [] & _). intuition.
  - intros [] w' Hw'. by eapply touched_now.
Qed.

Lemma wp_put_good_then {A} j w (k : eff World A) :
  good j0 j -> Touched w ->
  (forall w', Touched w' -> wp k (fun _ => Touched) (fun _ => Touched) w') ->
  wp (put_job j ;! k) (fun _ => Touched) (fun _ => Touched) w.
Proof.
  intros. apply wp_bind. eapply wp_mono; [by apply wp_put_good|auto|done].
Qed.

Abbreviation keeps c w := (wp c (fun _ => Touched) (fun _ => Touched) w).

Lemma good_by j j' :
  good j0 j -> job_wf cfg j' /\ evolves j j' -> attempt_count j' = attempt_count j -> good j0 j'.
Proof.
  intros (Hwf & He & Ha) [Hwf' He'] Ha'. split_and!; [done|by etrans|lia].
Qed.

Lemma put_step j j' w :
  good j0 j -> Touched w -> attempt_count j' = attempt_count j ->
  job_wf cfg j' /\ evolves j j' -> keeps (put_job j') w.
Proof. intros Hg Hw Ha He. apply wp_put_good; [by eapply good_by|done]. Qed.

Lemma schedule_keeps j now msg w :
  good j0 j -> is_terminal (status j) = false -> phase_of j <> Waiting -> Touched w ->
  keeps (schedule_retry_or_fail cfg j now msg) w.
Proof.
  intros Hg Hst Hph Hw. pose proof Hg as (Hwf & _ & _). unfold schedule_retry_or_fail.
  destruct (_ <=? _); apply (put_step j); try done; try by destruct j.
  - pose proof (good_failed j now (block_number j) msg Hwf Hst Hph (wf_block _ _ Hwf)) as Hf.
    by destruct j.
  - by apply good_requeued.
Qed.

Lemma fail_keeps j now block msg w :
  good j0 j -> is_terminal (status j) = false -> phase_of j <> Waiting -> Touched w ->
  (forall b, block = Some b -> 0 <= b < 2 ^ 63) ->
  keeps (fail_job_with_block j now block msg) w.
Proof.
  intros Hg Hst Hph Hw Hb. apply (put_step j); try done; [by destruct j|].
  apply good_failed; try done. by destruct Hg.
Qed.

(** *** Submission *)

Lemma send_keeps w :
  is_terminal (status j0) = false -> tx_hash j0 = None -> attempt_count j0 + 1 < 2 ^ 31 ->
  Touched w -> keeps (send_queued_job cfg j0) w.
Proof.
  intros Hst Ht Ha Hw. unfold send_queued_job. apply wp_bind, wp_env; [|done].
  intros now e _. set (j1 := _ |> set_updated_at now).
  destruct (good_sending j0 now wf0 Hst Ht Ha) as (Hwf1 & He1 & Ha1).
  assert (Hg1 : good j0 j1) by (split_and!; [done..|]; fold j1 in Ha1; lia).
  assert (Hj1 : status j1 = Sending /\ tx_hash j1 = None) by (subst j1; by destruct j0).
  destruct Hj1 as [Hst1 Ht1].
  apply wp_put_good_then; [done..|]. clear w Hw e. intros w Hw.
  apply wp_bind, wp_env; [|done]. intros n e1 Hn. apply nonce_range in Hn.
  apply wp_bind, wp_try, wp_env; simpl.
  - intros h e2 Hs. apply (put_step j1); try done; [by destruct j1|].
    apply good_submitted; try done. exists e1, e2. auto.
  - intros [m|m] e2 _; [|done]. apply schedule_keeps; try done.
    + by rewrite Hst1.
    + unfold phase_of. by rewrite Hst1, Ht1.
Qed.

(** *** Receipt polling *)

Definition pending (j : RelayJob) (h : string) : Prop :=
  good j0 j /\ is_terminal (status j) = false /\ tx_hash j = Some h.

Lemma pending_phase j h : pending j h -> phase_of j <> Waiting.
Proof. intros (_ & Hst & Ht). unfold phase_of. rewrite Ht. by destruct (status j). Qed.

Lemma poll_again_keeps j h now w :
  pending j h -> Touched w -> keeps (poll_again cfg j now) w.
Proof.
  intros (Hg & Hst & Ht) Hw. apply (put_step j); try done; [by destruct j|].
  pose proof (good_poll_again j now (add_secs now (receipt_poll_secs cfg)) (bump_count j)) as Hp.
  destruct Hg as (Hwf & _). destruct j; simpl in *. apply Hp; eauto.
Qed.

Lemma find_mined_spec hs w :
  Touched w ->
  wp (find_mined hs)
    (fun r w' => Touched w' /\ forall h b, r = Some (h, b) -> h ∈ hs /\ mined h
       /\ forall n, b = Some n -> 0 <= n < 2 ^ 63)
    (fun _ => Touched) w.
Proof.
  revert w. induction hs as [|h hs IH]; intros w Hw; [by apply wp_ret|].
  assert (Hrest : forall e, wp (find_mined hs)
    (fun r w' => Touched w' /\ forall h' b, r = Some (h', b) -> h' ∈ h :: hs /\ mined h'
       /\ forall n, b = Some n -> 0 <= n < 2 ^ 63) (fun _ => Touched) (MkWorld _ (relay_jobs w) e)).
  { intros e. eapply wp_mono; [by apply IH| |done]. intros r w' [Hw' Hr]. split; [done|].
    intros h' b Hb. apply Hr in Hb as (? & ?). split; [by right|done]. }
  apply wp_bind, wp_try, wp_env; simpl.
  - intros [[[] b]|] e He; [|by apply Hrest..].
    apply wp_ret. split; [done|]. intros h' b' [= <- <-]. split_and!; [by left|by repeat eexists|].
    intros n ->. by eapply receipt_block_range.
  - intros [m|m] e He; [apply Hrest|done].
Qed.

Lemma dropped_keeps j h now w :
  pending j h -> Touched w ->
  let j' := j |> set_bump_count (as_i32 (fee_bump_max cfg)) |> set_updated_at now in
  keeps (put_job j' ;! poll_again cfg j' now) w.
Proof.
  intros (Hg & Hst & Ht) Hw j'. pose proof Hg as (Hwf & _).
  assert (Hg' : good j0 j').
  { apply (good_by j); [done| |by destruct j].
    pose proof (good_bump_stopped j now (next_attempt_at j)) as Hp. subst j'.
    destruct j; simpl in *. apply Hp; eauto. }
  apply wp_put_good_then; [done..|]. intros w' Hw'.
  apply (poll_again_keeps _ h); [|done]. split_and!; [done|by destruct j..].
Qed.

Lemma bump_found_nothing_keeps j h now n w :
  pending j h -> Touched w -> keeps (bump_found_nothing cfg j now n) w.
Proof.
  intros Hp Hw. pose proof Hp as (Hg & Hst & Ht). pose proof Hg as (Hwf & _).
  unfold bump_found_nothing. apply wp_bind, wp_try, wp_env; simpl.
  2: { intros [m|m] e _; [|done]. by eapply dropped_keeps. }
  intros cur e _. destruct (_ <? cur); [|by eapply dropped_keeps].
  apply wp_bind. eapply wp_mono; [by apply find_mined_spec| |done].
  intros [[hash block]|] w' [Hw' Hm].
  - destruct (Hm _ _ eq_refl) as (Hin & Hmined & Hb). rewrite list_elem_of_In, <- in_rev, <- list_elem_of_In in Hin.
    apply (put_step j); try done; [by destruct j|].
    apply good_confirmed; eauto. intros b Hbb. destruct block; [by apply Hb|]. by apply (wf_block _ _ Hwf).
  - apply (put_step j); try done; [by destruct j|]. apply good_bump_stopped; eauto.
Qed.

Lemma try_fee_bump_spec p n h w :
  Touched w ->
  wp (try_fee_bump cfg p n h)
    (fun r w' => Touched w' /\ forall h', r = Some h' -> broadcast p n h')
    (fun _ => Touched) w.
Proof.
  intros Hw. unfold try_fee_bump. apply wp_bind, wp_env; [|done]. intros net e _.
  apply wp_bind, wp_env; [|done]. intros [orig|] e1 _; [|by apply wp_ret].
  apply wp_bind, wp_env; [|done]. intros h' e2 Hs. apply wp_ret.
  split; [done|]. intros ? [= <-]. exists e1, e2. eauto.
Qed.

Lemma receipt_pending_keeps j h now w :
  pending j h -> Touched w -> keeps (receipt_pending cfg j now h) w.
Proof.
  intros Hp Hw. pose proof Hp as (Hg & Hst & Ht). pose proof Hg as (Hwf & _).
  unfold receipt_pending. destruct (fee_bump_after_secs cfg); [|by eapply poll_again_keeps].
  destruct (submitted_at j); [|by eapply poll_again_keeps].
  destruct (nonce j) as [n|] eqn:Hn; [|by eapply poll_again_keeps].
  destruct (_ <=? _); simpl; [|by eapply poll_again_keeps].
  destruct (Z.ltb_spec (as_u32 (bump_count j)) (fee_bump_max cfg)) as [Hlt|]; [|by eapply poll_again_keeps].
  pose proof (wf_bumps _ _ Hwf) as Hb. rewrite as_u32_id in Hlt by lia.
  apply wp_bind, wp_try. eapply wp_mono; [by apply try_fee_bump_spec|..].
  - intros [h'|] w' [Hw' Hs]; [|by eapply bump_found_nothing_keeps].
    apply (put_step j); try done; [by destruct j|]. eapply good_bumped; eauto.
  - intros [m|m] w' Hw'; [by eapply poll_again_keeps|done].
Qed.

Lemma poll_receipt_of_keeps h now w :
  is_terminal (status j0) = false -> tx_hash j0 = Some h -> Touched w ->
  keeps (poll_receipt_of cfg j0 now h) w.
Proof.
  intros Hst Ht Hw. unfold poll_receipt_of. set (j1 := _ |> set_updated_at now).
  destruct (good_touched j0 now wf0 Hst) as [Hwf1 He1].
  assert (Hp : pending j1 h).
  { split_and!; [|subst j1; by destruct j0..].
    split_and!; [done..|]. subst j1; destruct j0; simpl; lia. }
  pose proof Hp as (Hg & Hst1 & Ht1). pose proof (pending_phase _ _ Hp) as Hph.
  apply wp_put_good_then; [done..|]. clear w Hw; intros w Hw.
  apply wp_bind, wp_try, wp_env; simpl.
  - intros [[[] block]|] e He; [..|by eapply receipt_pending_keeps].
    + apply (put_step j1); try done; [by destruct j1|].
      pose proof (good_confirmed j1 now h block Hwf1 Hst1 ltac:(by eexists)) as Hc.
      destruct j1; simpl in *; subst. apply Hc; [by repeat eexists|auto|].
      intros b ->. by eapply receipt_block_range.
    + apply fail_keeps; try done. intros b ->. by eapply receipt_block_range.
  - intros [m|m] e _; [|done]. destruct (is_permanent_error m).
    + apply fail_keeps; try done. apply (wf_block _ _ Hwf1).
    + by apply schedule_keeps.
Qed.

Lemma process_keeps w :
  attempt_count j0 + 1 < 2 ^ 31 -> Touched w -> keeps (process_due_job cfg j0) w.
Proof.
  intros Ha Hw. unfold process_due_job. destruct (is_terminal (status j0)) eqn:Hst; [by apply wp_ret|].
  destruct (tx_hash j0) as [h|] eqn:Ht; [|by apply send_keeps].
  unfold poll_submitted_job. apply wp_bind, wp_env; [|done]. intros now e _.
  apply wp_bind, wp_lift; rewrite Ht; simpl; [|done]. intros ? [= <-].
  assert (Hpoll : forall e, keeps (poll_receipt_of cfg j0 now h) (MkWorld _ (relay_jobs w) e))
    by (intros; by apply poll_receipt_of_keeps).
  repeat case_match; try apply Hpoll.
  apply fail_keeps; try done.
  - split_and!; [done|reflexivity|lia].
  - unfold phase_of. rewrite Ht. by destruct (status j0).
  - apply (wf_block _ _ wf0).
Qed.
End Job.

Lemma table_row n t id r :
  table_wf cfg n t -> t !! id = Some r ->
  exists j, r = row_of_job j /\ job_id j = id /\ job_wf cfg j /\ attempt_count j <= n
    /\ row_to_job r = Ok j.
Proof.
  intros Ht Hr. destruct (tw_rows _ _ _ Ht _ _ Hr) as (j & -> & Hid & Hwf & Ha).
  exists j. split_and!; try done. apply row_to_job_of; apply Hwf.
Qed.

Lemma row_of_job_inj j1 j2 :
  job_wf cfg j1 -> job_wf cfg j2 -> row_of_job j1 = row_of_job j2 -> j1 = j2.
Proof.
  intros W1 W2 Hr.
  pose proof (row_to_job_of j1 ltac:(apply W1) ltac:(apply W1)) as E1.
  pose proof (row_to_job_of j2 ltac:(apply W2) ltac:(apply W2)) as E2. congruence.
Qed.

Lemma table_evolves_refl t : table_evolves cfg t t.
Proof. intros id j Hwf Hj. exists j. split_and!; [done..|reflexivity]. Qed.

(** A table in which one row evolved. *)
Lemma touched_table n t0 j0 w :
  table_wf cfg n t0 -> t0 !! job_id j0 = Some (row_of_job j0) -> job_wf cfg j0 ->
  attempt_count j0 <= n -> touched t0 (job_id j0) (good j0) w ->
  table_wf cfg (n + 1) (relay_jobs w) /\ table_evolves cfg t0 (relay_jobs w).
Proof.
  intros Ht Hj0 Hwf0 Ha0 [-> | (j & (Hwf & He & Ha) & ->)].
  { split; [|apply table_evolves_refl]. split; [|apply Ht].
    intros id r Hr. destruct (tw_rows _ _ _ Ht _ _ Hr) as (j & -> & ? & ? & ?).
    exists j. split_and!; try done. lia. }
  pose proof (ev_identity _ _ He) as (Hid & _ & Hf & _).
  destruct (row_of_job_fields j) as (_ & _ & Hrf & _).
  destruct (row_of_job_fields j0) as (_ & _ & Hrf0 & _).
  split; [split|].
  - intros id r [[<- <-]|[Hne Hr]]%lookup_insert_Some.
    + exists j. split_and!; try done. lia.
    + destruct (tw_rows _ _ _ Ht _ _ Hr) as (j' & -> & ? & ? & ?).
      exists j'. split_and!; try done. lia.
  - intros id1 id2 r1 r2 [[<- <-]|[Hn1 H1']]%lookup_insert_Some [[<- <-]|[Hn2 H2']]%lookup_insert_Some Hfin;
      [done|..|by eapply (tw_unique _ _ _ Ht)].
    + eapply (tw_unique _ _ _ Ht); [exact Hj0|done|congruence].
    + eapply (tw_unique _ _ _ Ht); [done|exact Hj0|congruence].
  - intros id j' Hwf' Hj'. destruct (decide (id = job_id j0)) as [->|Hne].
    + rewrite Hj0 in Hj'. injection Hj' as Hr. apply row_of_job_inj in Hr; [subst|done..].
      exists j. by rewrite lookup_insert_eq.
    + exists j'. rewrite lookup_insert_ne by done. split_and!; [done..|reflexivity].
Qed.

(** *** Picking a job *)

#[local] Instance due_le_total : Total due_le.
Proof. intros r1 r2. unfold due_le. lia. Qed.
#[local] Instance due_le_trans : Transitive due_le.
Proof. intros r1 r2 r3. unfold due_le. lia. Qed.

Lemma sql_next_due_spec t now r :
  fst (sql_next_due now t) = Ok r ->
  match r with
  | Some r => (exists id, t !! id = Some r) /\ due now r = true
      /\ forall id r', t !! id = Some r' -> due now r' = true -> due_le r r'
  | None => forall id r', t !! id = Some r' -> due now r' = false
  end.
Proof.
  unfold sql_next_due; simpl. intros [= <-].
  set (l := filter _ _). assert (Hl : forall r, r ∈ l <-> due now r = true /\ exists id, t !! id = Some r).
  { intros x. subst l. rewrite list_elem_of_filter, list_elem_of_fmap. split.
    - intros (Hd & [id y] & -> & Hy). apply elem_of_map_to_list in Hy. eauto.
    - intros (Hd & id & Hy). split; [done|]. exists (id, x). by rewrite elem_of_map_to_list. }
  pose proof (StronglySorted_merge_sort due_le l) as Hs.
  assert (Hin : forall x, x ∈ merge_sort due_le l <-> x ∈ l)
    by (intros x; by rewrite (merge_sort_Permutation due_le l)).
  destruct (merge_sort due_le l) as [|x xs]; simpl.
  - intros id r' Hr'. destruct (due now r') eqn:Hd; [|done]. exfalso.
    apply (not_elem_of_nil r'), Hin, Hl. eauto.
  - apply StronglySorted_inv in Hs as [_ Hx].
    assert (Hxl : x ∈ l) by (apply Hin; by left).
    apply Hl in Hxl as [Hd Hid]. split_and!; [done..|]. intros id r' Hr' Hd'.
    assert (Hr : r' ∈ x :: xs) by (apply Hin, Hl; eauto).
    apply elem_of_cons in Hr as [->|Hr]; [unfold due_le; lia|].
    rewrite Forall_forall in Hx. auto.
Qed.

Lemma due_not_terminal now j : due now (row_of_job j) = true -> is_terminal (status j) = false.
Proof.
  unfold due. destruct (row_of_job_fields j) as (_ & -> & _). by destruct (status j).
Qed.

Lemma next_due_job_spec n now w :
  table_wf cfg n (relay_jobs w) ->
  wp (next_due_job now)
    (fun r w' => relay_jobs w' = relay_jobs w /\
      match r with
      | Some j => relay_jobs w !! job_id j = Some (row_of_job j) /\ job_wf cfg j
          /\ attempt_count j <= n /\ due now (row_of_job j) = true
          /\ forall id r', relay_jobs w !! id = Some r' -> due now r' = true -> due_le (row_of_job j) r'
      | None => forall id r', relay_jobs w !! id = Some r' -> due now r' = false
      end)
    (fun _ w' => relay_jobs w' = relay_jobs w) w.
Proof.
  intros Ht. unfold next_due_job. apply wp_bind, wp_statement; [|done..].
  intros e. unfold wp. pose proof (sql_next_due_spec (relay_jobs w) now) as Hs.
  unfold sql_next_due in *; simpl in *. specialize (Hs _ eq_refl).
  set (r := head _) in *. clearbody r. unfold elift; simpl. destruct r as [r|]; simpl; [|done].
  destruct Hs as ((id & Hr) & Hd & Hmin).
  destruct (table_row _ _ _ _ Ht Hr) as (j & -> & <- & Hwf & Ha & ->). simpl. split_and!; done.
Qed.

Lemma worker_turn_spec n w :
  table_wf cfg n (relay_jobs w) -> n + 1 < 2 ^ 31 ->
  let P := fun w' : World => table_wf cfg (n + 1) (relay_jobs w') /\ table_evolves cfg (relay_jobs w) (relay_jobs w') in
  wp (worker_turn cfg) (fun _ => P) (fun _ => P) w.
Proof.
  intros Ht Hn P.
  assert (Hsame : forall w' : World, relay_jobs w' = relay_jobs w -> P w').
  { intros w' Hw'. unfold P. rewrite Hw'. split; [|apply table_evolves_refl]. split; [|apply Ht].
    intros id r Hr. destruct (tw_rows _ _ _ Ht _ _ Hr) as (j & ? & ? & ? & ?).
    exists j. split_and!; try done. lia. }
  unfold worker_turn. apply wp_bind, wp_env; [|by auto]. intros now e _.
  apply wp_bind. eapply wp_mono; [by eapply next_due_job_spec|simpl|by auto].
  intros [j|] w' [Hw' Hj]; [|by apply wp_ret; auto].
  destruct Hj as (Hrow & Hwf & Ha & _).
  assert (Htp : forall w2, touched (relay_jobs w) (job_id j) (good j) w2 -> P w2)
    by (intros w2 Hw2; by eapply touched_table).
  apply wp_bind, wp_try. eapply wp_mono.
  - apply (process_keeps (relay_jobs w) j); [done|by eexists|lia|by left].
  - intros [] w2 Hw2. apply wp_ret. auto.
  - intros [m|m] w2 Hw2; [apply wp_ret|]; auto.
Qed.

(** *** Submission of proofs *)

Lemma fresh_job_wf `{Plonky2} id t bytes p req : job_wf cfg (fresh_job id t bytes p req).
Proof.
  split; simpl; try done; try lia; try by intros [].
  - intros h [?|Hh]; [done|]. by apply not_elem_of_nil in Hh.
  - auto.
Qed.

Lemma table_insert n t j :
  table_wf cfg n t -> 0 <= n -> job_wf cfg j -> attempt_count j = 0 ->
  t !! job_id j = None -> (forall id r, t !! id = Some r -> tx_final r <> tx_final j) ->
  table_wf cfg n (<[job_id j := row_of_job j]> t)
  /\ table_evolves cfg t (<[job_id j := row_of_job j]> t).
Proof.
  intros Ht Hn Hwf Ha Hnew Hfin. destruct (row_of_job_fields j) as (_ & _ & Hf & _).
  split; [split|].
  - intros id r [[<- <-]|[Hne Hr]]%lookup_insert_Some; [|by apply Ht].
    exists j. split_and!; try done. lia.
  - intros id1 id2 r1 r2 [[<- <-]|[Hn1 Hr1]]%lookup_insert_Some [[<- <-]|[Hn2 Hr2]]%lookup_insert_Some Heq;
      [done|..|by eapply (tw_unique _ _ _ Ht)].
    + exfalso. apply (Hfin _ _ Hr2). congruence.
    + exfalso. apply (Hfin _ _ Hr1). congruence.
  - intros id j' Hwf' Hj'. exists j'. split_and!; [|done|reflexivity].
    rewrite lookup_insert_ne; [done|]. intros <-. congruence.
Qed.

(** What [insert_job] does to the table, and what it answers. *)
Lemma insert_job_spec n w j :
  table_wf cfg n (relay_jobs w) -> 0 <= n -> job_wf cfg j ->
  let t := relay_jobs w in
  let t' := <[job_id j := row_of_job j]> t in
  let fresh := t !! job_id j = None /\ forall id r, t !! id = Some r -> tx_final r <> tx_final j in
  wp (insert_job j)
    (fun r w' => match r with
      | Inserted => fresh /\ relay_jobs w' = t'
      | Existing j' => relay_jobs w' = t /\ tx_final j' = tx_final j
          /\ t !! job_id j' = Some (row_of_job j') /\ job_wf cfg j'
      end)
    (fun _ w' => relay_jobs w' = t \/ (fresh /\ relay_jobs w' = t')) w.
Proof.
  intros Ht Hn Hwf t t' fresh. destruct (row_of_job_fields j) as (Hrid & Hst & Hf & _).
  assert (Hall : status_allowed (status (row_of_job j)) = true)
    by (unfold status_allowed; by rewrite Hst, from_db_str_as_str).
  unfold insert_job. apply wp_bind.
  assert (Hins : (exists r, sql_insert (row_of_job j) t = (Ok None, t) /\ row_with_tx_final (tx_final j) t = Some r)
    \/ (exists m, sql_insert (row_of_job j) t = (Err m, t))
    \/ (fresh /\ sql_insert (row_of_job j) t = (Ok (Some (job_id j)), t'))).
  { unfold sql_insert. rewrite Hall, Hrid, Hf. simpl.
    destruct (row_with_tx_final _ t) as [r|] eqn:Er; [by left; eauto|].
    destruct (t !! job_id j) eqn:Ej; [by right; left; eauto|].
    right; right. split; [split; [done|by apply row_with_tx_final_None]|done]. }
  apply wp_statement; [|by auto|].
  2: { intros m e. fold t. destruct Hins as [(r & -> & _)|[(m' & ->)|(? & ->)]]; simpl; auto. }
  intros e. unfold wp at 1. fold t.
  destruct Hins as [(r & -> & Hr)|[(m' & ->)|(? & ->)]]; simpl; [|by auto|by auto].
  unfold get_job_by_tx_final. rewrite <- Hf in Hr. rewrite Hf in Hr.
  apply wp_bind, wp_bind, wp_statement; [|by auto..].
  intros e2. unfold wp at 1; simpl. fold t. rewrite Hr.
  apply row_with_tx_final_Some in Hr as (Hrf & id & Hr).
  destruct (table_row _ _ _ _ Ht Hr) as (j' & -> & <- & Hwf' & _ & Hok).
  unfold elift, wp; simpl. rewrite Hok; simpl.
  destruct (row_of_job_fields j') as (_ & _ & Hf' & _). split_and!; try done. congruence.
Qed.

Lemma submit_proof_keeps `{Plonky2, !BlobParser} b64 n w req :
  table_wf cfg n (relay_jobs w) -> 0 <= n ->
  let P := fun w' : World => table_wf cfg n (relay_jobs w') /\ table_evolves cfg (relay_jobs w) (relay_jobs w') in
  wp (submit_proof b64 req) (fun _ => P) (fun _ => P) w.
Proof.
  intros Ht Hn P.
  assert (Hsame : forall w' : World, relay_jobs w' = relay_jobs w -> P w').
  { intros w' Hw'. unfold P. rewrite Hw'. split; [done|apply table_evolves_refl]. }
  unfold submit_proof. apply wp_bind, wp_lift; [|by auto].
  intros [[bytes p]|e] _; [|by apply wp_ret; auto].
  apply wp_bind, wp_env; [|by auto]. intros t e1 _.
  apply wp_bind, wp_env; [|by auto]. intros id e2 _. simpl.
  set (job := fresh_job id t bytes p req).
  assert (Hins : forall w' : World, relay_jobs w !! job_id job = None /\
      (forall id r, relay_jobs w !! id = Some r -> tx_final r <> tx_final job) ->
    relay_jobs w' = <[job_id job := row_of_job job]> (relay_jobs w) -> P w').
  { intros w' [? ?] Hw'. unfold P. rewrite Hw'. apply table_insert; try done. apply fresh_job_wf. }
  apply wp_bind, wp_try. eapply wp_mono.
  - apply (insert_job_spec n (MkWorld _ (relay_jobs w) e2) job); [done..|]. apply fresh_job_wf.
  - simpl. intros [|j'] w' Hw'; apply wp_ret; [destruct Hw'; by eapply Hins|].
    apply Hsame. by destruct Hw'.
  - simpl. intros [m|m] w' Hw'; [apply wp_ret|]; destruct Hw' as [?|[? ?]]; eauto.
Qed.

(** *** Restart *)

Definition requeued (now : Z) (j : RelayJob) : RelayJob :=
  j |> set_status Queued |> set_next_attempt_at (Some now) |> set_updated_at now.

Lemma requeue_row now j : requeue now (row_of_job j) = row_of_job (requeued now j).
Proof. by destruct j. Qed.

Lemma inflight_row j : job_wf cfg j -> inflight (row_of_job j) = bool_decide (status j = Sending).
Proof.
  intros Hwf. unfold inflight. destruct (row_of_job_fields j) as (_ & -> & _ & -> & _).
  destruct (status j) eqn:Hst; try done. simpl. apply bool_decide_eq_false.
  intros Hn. destruct (wf_unsent _ _ Hwf Hn) as [_ Hs]. rewrite Hst in Hs. naive_solver.
Qed.

Lemma requeued_good now j :
  job_wf cfg j -> status j = Sending -> job_wf cfg (requeued now j) /\ evolves j (requeued now j).
Proof.
  intros Hwf Hst.
  assert (Ht : tx_hash j = None).
  { destruct (tx_hash j) eqn:Ht; [|done]. by destruct (wf_sent _ _ Hwf ltac:(by eexists)). }
  unfold requeued. job_cases j Hwf Hst. subst. split.
  - split; simpl; try done. intros _. split; [by apply Wn|auto].
  - split; simpl; try done. apply rtc_once. constructor.
Qed.

Lemma recover_spec n now w :
  table_wf cfg n (relay_jobs w) ->
  let P := fun w' : World => table_wf cfg n (relay_jobs w') /\ table_evolves cfg (relay_jobs w) (relay_jobs w') in
  wp (recover_inflight_jobs now) (fun _ => P) (fun _ => P) w.
Proof.
  intros Ht P. set (f := fun r : JobRow => if inflight r then requeue now r else r).
  assert (Hrow : forall j, job_wf cfg j -> exists j', f (row_of_job j) = row_of_job j' /\ job_wf cfg j'
    /\ evolves j j' /\ attempt_count j' = attempt_count j).
  { intros j Hwf. unfold f. rewrite (inflight_row j Hwf). case_bool_decide as Hst.
    - exists (requeued now j). rewrite requeue_row.
      destruct (requeued_good now j Hwf Hst). by destruct j.
    - exists j. split_and!; try done. }
  assert (HP : forall e, P (MkWorld _ (f <$> relay_jobs w) e)).
  { intros e. unfold P; simpl. split; [split|].
    - intros id r. rewrite lookup_fmap, fmap_Some. intros (r0 & Hr0 & ->).
      destruct (tw_rows _ _ _ Ht _ _ Hr0) as (j & -> & <- & Hwf & Ha).
      destruct (Hrow j Hwf) as (j' & -> & Hwf' & He & Ha'). exists j'.
      split_and!; try done; [apply He|lia].
    - intros id1 id2 r1 r2. rewrite !lookup_fmap, !fmap_Some. intros (x1 & Hx1 & ->) (x2 & Hx2 & ->) Hf.
      apply (tw_unique _ _ _ Ht _ _ _ _ Hx1 Hx2).
      assert (Hff : forall r, tx_final (f r) = tx_final r)
        by (intros []; unfold f; by destruct (inflight _)). by rewrite !Hff in Hf.
    - intros id j Hwf Hj. destruct (Hrow j Hwf) as (j' & Hj' & Hwf' & He & _). exists j'.
      by rewrite lookup_fmap, Hj; simpl; rewrite Hj'. }
  apply wp_statement; [done|..|done].
  intros m e. unfold P; simpl. split; [done|apply table_evolves_refl].
Qed.
End Turn.

(** ** Runs

    What happens to the relayer: a client posts a proof, the worker takes a
    turn, or the process restarts and recovers its queue. A crash within a turn
    is a run in which the environment refuses the remaining calls. The first
    index counts the worker's turns. *)
Inductive relay_run `{EthGateway, Plonky2, !BlobParser} (cfg : WorkerConfig)
    (b64 : string -> option (list byte)) (w0 : World) : Z -> World -> Prop :=
| run_start : relay_run cfg b64 w0 0 w0
| run_submit n w req r w' :
    relay_run cfg b64 w0 n w -> submit_proof b64 req w = (r, w') -> relay_run cfg b64 w0 n w'
| run_turn n w r w' :
    relay_run cfg b64 w0 n w -> worker_turn cfg w = (r, w') -> relay_run cfg b64 w0 (n + 1) w'
| run_restart n w t r w' :
    relay_run cfg b64 w0 n w -> recover_inflight_jobs t w = (r, w') -> relay_run cfg b64 w0 n w'.

#[global] Instance table_evolves_trans `{EthGateway} cfg : Transitive (table_evolves cfg).
Proof.
  intros t1 t2 t3 H12 H23 id j Hwf Hj. destruct (H12 _ _ Hwf Hj) as (j2 & Hj2 & Hwf2 & He2).
  destruct (H23 _ _ Hwf2 Hj2) as (j3 & Hj3 & Hwf3 & He3). exists j3. split_and!; [done..|by etrans].
Qed.

Lemma table_wf_weaken `{EthGateway} cfg n n' t : n <= n' -> table_wf cfg n t -> table_wf cfg n' t.
Proof.
  intros Hn [Hr Hu]. split; [|done]. intros id r Hr'.
  destruct (Hr _ _ Hr') as (j & ? & ? & ? & ?). exists j. split_and!; try done. lia.
Qed.

Lemma relay_run_spec `{GatewayLaws, Plonky2, !BlobParser} cfg b64 w0 n0 n w :
  0 <= fee_bump_max cfg < 2 ^ 31 -> 0 <= n0 -> table_wf cfg n0 (relay_jobs w0) ->
  relay_run cfg b64 w0 n w -> n0 + n < 2 ^ 31 ->
  table_wf cfg (n0 + n) (relay_jobs w) /\ table_evolves cfg (relay_jobs w0) (relay_jobs w) /\ 0 <= n.
Proof.
  intros Hcfg Hn0 Ht0 Hrun. induction Hrun as [|n w req r w' _ IH Hs|n w r w' _ IH Hs|n w t r w' _ IH Hs]; intros Hn.
  - rewrite Z.add_0_r. split_and!; [done|apply table_evolves_refl|done].
  - destruct (IH Hn) as (Ht & He & Hp).
    destruct (wp_always _ _ _ _ _ (submit_proof_keeps cfg Hcfg b64 _ w req Ht ltac:(lia)) Hs).
    split_and!; [done|by etrans|done].
  - destruct IH as (Ht & He & Hp); [lia|]. rewrite Z.add_assoc in *.
    destruct (wp_always _ _ _ _ _ (worker_turn_spec cfg Hcfg _ w Ht Hn) Hs).
    split_and!; [done|by etrans|lia].
  - destruct (IH Hn) as (Ht & He & Hp).
    destruct (wp_always _ _ _ _ _ (recover_spec cfg Hcfg _ t w Ht) Hs).
    split_and!; [done|by etrans|done].
Qed.

Lemma table_wf_empty `{EthGateway} cfg : table_wf cfg 0 ∅.
Proof. split; intros *; by rewrite lookup_empty. Qed.

(** ** Turns with a database that answers *)
Section Delivered.
Context `{EthGateway}.
Hypothesis db_up : forall e, fst (db_delivery e) = Delivered.

(** [t] lets the row of [j] be written: the row exists and no other row has
    its [tx_final]. *)
Definition writable (t : Jobs) (j : RelayJob) : Prop :=
  is_Some (t !! job_id j)
  /\ forall id r, t !! id = Some r -> tx_final r = tx_final j -> id = job_id j.

Lemma statement_delivered {A} (f : eff Jobs A) w :
  exists e, statement f w = (fst (f (relay_jobs w)), MkWorld _ (snd (f (relay_jobs w))) e).
Proof.
  unfold statement. pose proof (db_up (env w)) as Hd. destruct (db_delivery (env w)) as [d e].
  simpl in Hd; subst d. exists e. by destruct (f (relay_jobs w)).
Qed.

Lemma put_delivered w j :
  writable (relay_jobs w) j ->
  exists e, put_job j w = (Ok tt, MkWorld _ (<[job_id j := row_of_job j]> (relay_jobs w)) e).
Proof.
  intros [[r Hr] Hu]. destruct (row_of_job_fields j) as (Hid & Hst & Hf & _).
  destruct (statement_delivered (sql_update (row_of_job j)) w) as [e He].
  unfold put_job, ebind. rewrite He. exists e. unfold sql_update. rewrite Hid, Hr, Hst, Hf.
  unfold status_allowed. rewrite from_db_str_as_str. simpl.
  destruct (row_with_tx_final _ _) as [r'|] eqn:Er; [|done]. exfalso.
  apply row_with_tx_final_Some in Er as (Hr' & id' & [Hne Hl]%lookup_delete_Some).
  apply Hne. symmetry. by eapply Hu.
Qed.

Lemma writable_insert t j j' :
  writable t j -> job_id j' = job_id j -> tx_final j' = tx_final j ->
  writable (<[job_id j := row_of_job j]> t) j'.
Proof.
  intros [Hs Hu] Hid Hf. rewrite <- Hid. split; [by rewrite lookup_insert_eq|].
  intros id r [[<- _]|[_ Hr]]%lookup_insert_Some Heq; [done|]. rewrite Hid. eapply Hu; [done|congruence].
Qed.

Lemma table_writable cfg n t j :
  table_wf cfg n t -> t !! job_id j = Some (row_of_job j) -> writable t j.
Proof.
  intros Ht Hj. split; [by eexists|]. intros id r Hr Hf.
  eapply (tw_unique _ _ _ Ht); [done..|]. destruct (row_of_job_fields j) as (_ & _ & -> & _). done.
Qed.

(** An unsent job, when the node accepts its transaction. *)
Lemma send_delivered cfg w j :
  (forall e, is_ok (fst (get_next_nonce e)) = true) ->
  (forall p k e, is_ok (fst (submit_payload p k e)) = true) ->
  is_terminal (status j) = false -> tx_hash j = None -> writable (relay_jobs w) j ->
  exists j1 h k e, process_due_job cfg j w = (Ok tt, MkWorld _ (<[job_id j := row_of_job j1]> (relay_jobs w)) e)
    /\ broadcast (payload_bytes j) k h /\ status j1 = Submitted /\ tx_hash j1 = Some h
    /\ job_id j1 = job_id j /\ tx_final j1 = tx_final j.
Proof.
  intros Hnonce Hsub Hst Hth Hw. unfold process_due_job. rewrite Hst, Hth.
  unfold send_queued_job, now, ebind, on_env, etry. destruct (now_ts (env w)) as [tm e1]. simpl.
  set (js := _ |> set_updated_at tm).
  assert (Hjs : job_id js = job_id j /\ tx_final js = tx_final j /\ payload_bytes js = payload_bytes j)
    by (by destruct j). destruct Hjs as (Hid & Hfin & Hpl).
  set (j1 h k := js |> set_status Submitted |> set_tx_hash (Some h) |> set_submitted_at (Some tm)
               |> set_next_attempt_at (Some (add_secs tm (receipt_poll_secs cfg)))
               |> set_last_error None |> set_nonce (Some (as_i64 k)) |> set_bump_count 0
               |> set_updated_at tm).
  assert (Hj1 : forall h k, job_id (j1 h k) = job_id js /\ tx_final (j1 h k) = tx_final js
    /\ status (j1 h k) = Submitted /\ tx_hash (j1 h k) = Some h) by (by destruct js).
  destruct (put_delivered (MkWorld _ (relay_jobs w) e1) js) as [e2 ->];
    [unfold writable; simpl; by rewrite Hid, Hfin|]. simpl.
  specialize (Hnonce e2). destruct (get_next_nonce e2) as [[k|] e3]; [|done]. simpl.
  specialize (Hsub (payload_bytes js) k e3).
  destruct (submit_payload (payload_bytes js) k e3) as [[h|] e4] eqn:Hsend; [|done]. simpl.
  destruct (Hj1 h k) as (Hid1 & Hfin1 & Hst1 & Hth1).
  destruct (put_delivered (MkWorld _ (<[job_id js := row_of_job js]> (relay_jobs w)) e4) (j1 h k)) as [e5 He5].
  { apply writable_insert; [unfold writable; by rewrite Hid, Hfin|done..]. }
  match goal with |- context [put_job ?x _] => change x with (j1 h k) end.
  rewrite He5. exists (j1 h k), h, k, e5. simpl. rewrite Hid1, insert_insert_eq, Hid.
  split_and!; try done; [|congruence..]. rewrite <- Hpl. exists e3, e4. auto.
Qed.

(** A sent job, when its receipt is there. *)
Lemma poll_delivered cfg w j h :
  (forall h e, exists b, fst (poll_receipt h e) = Ok (Some {| success := true; r_block_number := b |})) ->
  receipt_timeout_secs cfg = None ->
  is_terminal (status j) = false -> tx_hash j = Some h -> writable (relay_jobs w) j ->
  exists j2 e, process_due_job cfg j w = (Ok tt, MkWorld _ (<[job_id j := row_of_job j2]> (relay_jobs w)) e)
    /\ status j2 = Confirmed /\ tx_hash j2 = Some h /\ mined h.
Proof.
  intros Hpoll Hto Hst Hth Hw. unfold process_due_job. rewrite Hst, Hth.
  unfold poll_submitted_job, now, ebind, on_env, elift. destruct (now_ts (env w)) as [tm e1]. simpl.
  rewrite Hth, Hto. simpl. unfold poll_receipt_of, ebind, on_env, etry.
  set (ju := j |> set_updated_at tm).
  assert (Hju : job_id ju = job_id j /\ tx_final ju = tx_final j /\ tx_hash ju = tx_hash j)
    by (by destruct j). destruct Hju as (Hid & Hfin & Hthu).
  destruct (put_delivered (MkWorld _ (relay_jobs w) e1) ju) as [e2 ->];
    [unfold writable; simpl; by rewrite Hid, Hfin|]. simpl.
  destruct (Hpoll h e2) as [b Hb]. destruct (poll_receipt h e2) as [r e3] eqn:Hrec.
  simpl in Hb; subst r. simpl. set (j2 := _ |> set_updated_at tm).
  assert (Hj2 : job_id j2 = job_id ju /\ tx_final j2 = tx_final ju /\ status j2 = Confirmed
    /\ tx_hash j2 = tx_hash ju) by (by destruct ju).
  destruct Hj2 as (Hid2 & Hfin2 & Hst2 & Hth2).
  destruct (put_delivered (MkWorld _ (<[job_id ju := row_of_job ju]> (relay_jobs w)) e3) j2) as [e4 He4].
  { apply writable_insert; [unfold writable; by rewrite Hid, Hfin|done..]. }
  rewrite He4. exists j2, e4. simpl. rewrite Hid2, insert_insert_eq, Hid.
  split_and!; try done; [congruence|]. by repeat eexists.
Qed.

(** *** A node that does not answer nonce queries *)

Definition waits (T : Z) (j : RelayJob) : Prop :=
  is_terminal (status j) = false /\ tx_hash j = None /\ block_number j = None
  /\ (forall t, next_attempt_at j = Some t -> t <= T).

Lemma waits_due T tm j : waits T j -> T <= tm -> due tm (row_of_job j) = true.
Proof.
  intros (Hst & _ & _ & Hn) Htm. unfold due.
  destruct (row_of_job_fields j) as (_ & -> & _ & _ & ->).
  apply andb_true_iff. split; [by destruct (status j)|].
  destruct (next_attempt_at j) as [t|]; [|done]. specialize (Hn t eq_refl). lia.
Qed.

Lemma nonce_down_turn cfg w j T :
  (forall e, exists m e', get_next_nonce e = (Err (Fail m), e')) ->
  (forall e, T <= fst (now_ts e)) -> waits T j -> 0 <= attempt_count j < 2 ^ 31 ->
  relay_jobs w = {[ job_id j := row_of_job j ]} ->
  exists tm e, worker_turn cfg w = (Ok true, MkWorld _
    {[ job_id j := row_of_job (j |> set_status Sending
         |> set_attempt_count (saturating_add_u32 (attempt_count j) 1) |> set_updated_at tm) ]} e).
Proof.
  intros Hnonce Hclock Hw Ha Ht. pose proof Hw as (Hst & Hth & Hb & _).
  unfold worker_turn, ebind at 1, now, on_env at 1. pose proof (Hclock (env w)) as Hc.
  destruct (now_ts (env w)) as [t0 e0]. simpl in Hc. unfold next_due_job, ebind at 2.
  destruct (statement_delivered (sql_next_due t0) (MkWorld _ (relay_jobs w) e0)) as [e1 He1].
  unfold ebind at 1. rewrite He1. simpl. rewrite Ht, map_to_list_singleton. simpl.
  rewrite filter_cons_True by by apply (waits_due T). simpl. unfold elift, transpose_row.
  rewrite row_to_job_of by (done || by rewrite Hb). simpl.
  unfold ebind, etry, process_due_job. rewrite Hst, Hth.
  unfold send_queued_job, now, ebind, on_env. simpl. destruct (now_ts e1) as [tm e2]. simpl.
  set (js := j |> set_status Sending |> set_attempt_count (saturating_add_u32 (attempt_count j) 1) |> set_updated_at tm).
  assert (Hjs : job_id js = job_id j /\ tx_final js = tx_final j) by (by destruct j).
  destruct Hjs as (Hid & Hfin).
  destruct (put_delivered (MkWorld _ {[ job_id j := row_of_job j ]} e2) js) as [e3 ->].
  { split; simpl; rewrite Hid; [by rewrite lookup_singleton_eq|].
    by intros id r [<- _]%lookup_singleton_Some. }
  simpl. destruct (Hnonce e3) as (m & e4 & ->). exists tm, e4. by rewrite Hid, insert_singleton_eq.
Qed.
End Delivered.

(** ** Theorems *)

(** A toy host and node: the environment is the time; every call succeeds. *)
Module ToyNode.
#[global] Instance toy_host : Host := {|
  Env := Z;
  now_ts e := (e, e + 1);
  uuid_v4 e := ("job-" +:+ pretty e, e + 1);
  db_delivery e := (Delivered, e);
|}.
#[global] Instance toy_gateway : @EthGateway toy_host := {|
  submit_payload _ n e := (Ok ("tx-" +:+ pretty n), e);
  poll_receipt _ e := (Ok (Some {| success := true; r_block_number := Some 7 |}), e);
  get_next_nonce e := (Ok 3, e);
  get_current_fees e := (Ok {| base_fee_per_gas := 10; net_priority_fee := 1 |}, e);
  get_pending_tx_fees _ e := (Ok None, e);
  submit_payload_with_fees _ n _ e := (Ok ("tx-" +:+ pretty n), e);
|}.
#[global] Instance toy_gateway_laws : @GatewayLaws toy_host toy_gateway.
Proof. split; simpl; [intros ? ? ? ? ? [= <- _] [= <-]; lia|intros ??? [= <- _]; lia]. Qed.
Definition toy_b64 (s : string) : option (list byte) := if decide (s = "AA==") then Some [x00] else None.
Definition toy_req : SubmitProofRequest := {| payload_base64 := "AA=="; req_client_ref := None |}.
Definition toy_cfg : WorkerConfig := {|
  max_attempts := 3; retry_initial_secs := 5; retry_max_secs := 300; receipt_poll_secs := 0;
  receipt_timeout_secs := None; fee_bump_after_secs := Some 60; fee_bump_multiplier_pct := 100;
  fee_bump_max := 5 |}.
Definition toy_parser : @BlobParser Toy.toy_plonky2 := sample_blob_parser.
Definition w_init : World := MkWorld toy_host ∅ 1000.
Definition submit1 := @submit_proof toy_host Toy.toy_plonky2 toy_parser toy_b64 toy_req.
Definition w_posted : World := snd (submit1 w_init).
Definition w_sent : World := snd (worker_turn toy_cfg w_posted).
Definition w_done : World := snd (worker_turn toy_cfg w_sent).
End ToyNode.

(** C13: the relayer's invariant. In every state reached by posting proofs,
    worker turns and restarts, whatever the clock, Postgres and the node answer,
    every row decodes to a well-formed job: no two jobs share [tx_final]; all
    transactions of a job carry its payload at its one nonce, so at most one of
    them can be mined; a job is confirmed only on a successful receipt of its
    transaction; fee bumps respect their limit; no due job lacks a schedule. *)
Theorem relay_reachable_invariant `{GatewayLaws, Plonky2, !BlobParser} cfg b64 e n w :
  0 <= fee_bump_max cfg < 2 ^ 31 ->
  relay_run cfg b64 (MkWorld _ ∅ e) n w -> n < 2 ^ 31 ->
  table_wf cfg n (relay_jobs w)
  /\ forall id r, relay_jobs w !! id = Some r -> exists j, row_to_job r = Ok j /\ job_wf cfg j.
Proof.
  intros Hcfg Hrun Hn.
  destruct (relay_run_spec cfg b64 (MkWorld _ ∅ e) 0 n w Hcfg ltac:(lia) (table_wf_empty cfg) Hrun Hn) as (Ht & _).
  split; [done|]. intros id r Hr.
  destruct (table_row cfg _ _ _ _ Ht Hr) as (j & _ & _ & Hwf & _ & Hj). eauto.
Qed.

Lemma toy_run : @relay_run _ ToyNode.toy_gateway _ ToyNode.toy_parser ToyNode.toy_cfg ToyNode.toy_b64
  ToyNode.w_init 2 ToyNode.w_done.
Proof.
  apply (run_turn _ _ _ 1 ToyNode.w_sent (fst (worker_turn ToyNode.toy_cfg ToyNode.w_sent)));
    [|apply surjective_pairing].
  apply (run_turn _ _ _ 0 ToyNode.w_posted (fst (worker_turn ToyNode.toy_cfg ToyNode.w_posted)));
    [|apply surjective_pairing].
  apply (run_submit _ _ _ 0 ToyNode.w_init ToyNode.toy_req (fst (ToyNode.submit1 ToyNode.w_init)));
    [constructor|apply surjective_pairing].
Qed.

Lemma relay_reachable_witness :
  @table_wf _ ToyNode.toy_gateway ToyNode.toy_cfg 2 (relay_jobs ToyNode.w_done)
  /\ size (relay_jobs ToyNode.w_done) = 1%nat.
Proof.
  split; [|vm_compute; reflexivity].
  refine (proj1 (@relay_reachable_invariant _ _ ToyNode.toy_gateway_laws _ ToyNode.toy_parser
    ToyNode.toy_cfg ToyNode.toy_b64 1000 2 ToyNode.w_done _ toy_run _)); vm_compute; split; congruence.
Defined.

(** The life of a job. Between any two states of a run no job disappears;
    its identity and payload never change; its phase only moves along the
    lifecycle; a confirmed or failed job never changes again; a job that has a
    transaction keeps having one, at the same nonce. *)
Theorem relay_jobs_evolve `{GatewayLaws, Plonky2, !BlobParser} cfg b64 e n1 w1 n2 w2 id r :
  0 <= fee_bump_max cfg < 2 ^ 31 ->
  relay_run cfg b64 (MkWorld _ ∅ e) n1 w1 -> relay_run cfg b64 w1 n2 w2 -> n1 + n2 < 2 ^ 31 ->
  0 <= n2 -> relay_jobs w1 !! id = Some r ->
  exists j j' r', row_to_job r = Ok j /\ relay_jobs w2 !! id = Some r' /\ row_to_job r' = Ok j'
    /\ evolves j j'.
Proof.
  intros Hcfg H1' H2' Hn Hn2 Hr.
  destruct (relay_run_spec cfg b64 (MkWorld _ ∅ e) 0 n1 w1 Hcfg ltac:(lia) (table_wf_empty cfg) H1')
    as (Ht1 & _ & Hn1); [lia|]. rewrite Z.add_0_l in *.
  destruct (relay_run_spec cfg b64 w1 n1 n2 w2 Hcfg ltac:(lia) Ht1 H2' Hn) as (Ht2 & He & _).
  destruct (table_row cfg _ _ _ _ Ht1 Hr) as (j & -> & _ & Hwf & _ & Hj).
  destruct (He _ _ Hwf Hr) as (j' & Hr' & Hwf' & He'). exists j, j', (row_of_job j').
  split_and!; try done. apply row_to_job_of; apply Hwf'.
Qed.

Lemma toy_run_posted : @relay_run _ ToyNode.toy_gateway _ ToyNode.toy_parser ToyNode.toy_cfg ToyNode.toy_b64
  ToyNode.w_init 0 ToyNode.w_posted.
Proof.
  apply (run_submit _ _ _ 0 ToyNode.w_init ToyNode.toy_req (fst (ToyNode.submit1 ToyNode.w_init)));
    [constructor|apply surjective_pairing].
Qed.

Lemma toy_run_turn : @relay_run _ ToyNode.toy_gateway _ ToyNode.toy_parser ToyNode.toy_cfg ToyNode.toy_b64
  ToyNode.w_posted 1 ToyNode.w_sent.
Proof.
  apply (run_turn _ _ _ 0 ToyNode.w_posted (fst (worker_turn ToyNode.toy_cfg ToyNode.w_posted)));
    [constructor|apply surjective_pairing].
Qed.

Lemma relay_jobs_evolve_witness :
  exists r j j' r', relay_jobs ToyNode.w_posted !! "job-1001" = Some r
    /\ row_to_job r = Ok j /\ relay_jobs ToyNode.w_sent !! "job-1001" = Some r'
    /\ row_to_job r' = Ok j' /\ evolves j j'.
Proof.
  assert (Hr : is_Some (relay_jobs ToyNode.w_posted !! "job-1001")) by (vm_compute; eauto).
  destruct Hr as [r Hr]. exists r.
  destruct (@relay_jobs_evolve _ _ ToyNode.toy_gateway_laws _ ToyNode.toy_parser ToyNode.toy_cfg
    ToyNode.toy_b64 1000 0 ToyNode.w_posted 1 ToyNode.w_sent "job-1001" r) as (j & j' & r' & H);
    [vm_compute; split; congruence|exact toy_run_posted|exact toy_run_turn
    |vm_compute; congruence|vm_compute; congruence|exact Hr|].
  exists j, j', r'. split; [exact Hr|exact H].
Defined.

(** Posting a proof. An accepted request carries base64 of at most one
    blob's worth of bytes that parse and verify as a payload. If its [tx_final]
    is new exactly one row is added, a queued job that is due at once;
    otherwise the table is unchanged and the existing job of that [tx_final] is
    returned. A rejected request changes nothing; only an internal error leaves
    open whether the row was added. *)
Theorem submit_proof_idempotent `{GatewayLaws, Plonky2, !BlobParser} cfg b64 n w req a w' :
  0 <= fee_bump_max cfg < 2 ^ 31 -> 0 <= n -> table_wf cfg n (relay_jobs w) ->
  submit_proof b64 req w = (Ok a, w') ->
  match a with
  | Ok (code, resp) =>
      exists bytes p j, b64 (payload_base64 req) = Some bytes
        /\ Z.of_nat (length bytes) <= Blob.MAX_SIMPLE_BLOB_PAYLOAD_BYTES
        /\ StateMachine.parse_blob bytes = Ok (Some p)
        /\ resp = to_submit_response j /\ tx_final j = Payload.tx_final p
        /\ match code with
           | ACCEPTED => (forall id r, relay_jobs w !! id = Some r -> tx_final r <> tx_final j)
               /\ relay_jobs w !! job_id j = None
               /\ relay_jobs w' = <[job_id j := row_of_job j]> (relay_jobs w)
               /\ status j = Queued /\ payload_bytes j = bytes
               /\ next_attempt_at j = Some (created_at j)
           | OK => relay_jobs w' = relay_jobs w /\ relay_jobs w !! job_id j = Some (row_of_job j)
           end
  | Err (Internal _) => True
  | Err _ => relay_jobs w' = relay_jobs w
  end.
Proof.
  intros Hcfg Hn Ht Hs. pattern a, w'. eapply wp_run with (E := fun _ _ => True); [|exact Hs].
  unfold submit_proof. apply wp_bind, wp_lift; [|done].
  unfold check_request. intros c Hc. destruct (b64 _) as [bytes|] eqn:Hb; [|by simplify_eq].
  destruct (Z.ltb_spec Blob.MAX_SIMPLE_BLOB_PAYLOAD_BYTES (Z.of_nat (length bytes))) as [|Hlen];
    [by simplify_eq|].
  destruct (StateMachine.parse_blob bytes) as [[p|]|[m|m]] eqn:Hp; simplify_eq; try done.
  apply wp_bind, wp_env; [|done]. intros t e1 _.
  apply wp_bind, wp_env; [|done]. intros id e2 _. simpl. set (job := fresh_job id t bytes p req).
  apply wp_bind, wp_try. eapply wp_mono.
  - apply (insert_job_spec cfg n (MkWorld _ (relay_jobs w) e2) job); [done..|].
    by apply fresh_job_wf.
  - simpl. intros [|j'] w2 Hw2; apply wp_ret.
    + destruct Hw2 as [[Hid Hfin] Hw2]. exists bytes, p, job. split_and!; done.
    + destruct Hw2 as (Hw2 & Hf & Hr & _). exists bytes, p, j'. split_and!; done.
  - simpl. intros [m|m] w2 _; [by apply wp_ret|done].
Qed.

Lemma submit_proof_idempotent_witness :
  exists j, relay_jobs ToyNode.w_posted = <[job_id j := row_of_job j]> ∅ /\ status j = Queued.
Proof.
  assert (Hs : exists resp, ToyNode.submit1 ToyNode.w_init = (Ok (Ok (ACCEPTED, resp)), ToyNode.w_posted))
    by (eexists; vm_compute; reflexivity).
  destruct Hs as [resp Hs].
  pose proof (@submit_proof_idempotent _ _ ToyNode.toy_gateway_laws _ ToyNode.toy_parser ToyNode.toy_cfg
    ToyNode.toy_b64 0 ToyNode.w_init ToyNode.toy_req _ ToyNode.w_posted
    ltac:(vm_compute; split; congruence) ltac:(lia) (table_wf_empty _) Hs) as H.
  destruct H as (bytes & p & j & _ & _ & _ & _ & _ & _ & _ & H1 & H2 & _).
  exists j. split; [exact H1|exact H2].
Defined.

(** A job that can be relayed is. When Postgres answers, the node accepts
    transactions and their receipts succeed, two turns on an unsent job confirm
    it, on the receipt of a transaction that carries its payload. *)
Theorem relay_job_confirmed `{GatewayLaws} cfg n w j :
  (forall e, fst (db_delivery e) = Delivered) ->
  (forall e, is_ok (fst (get_next_nonce e)) = true) ->
  (forall p k e, is_ok (fst (submit_payload p k e)) = true) ->
  (forall h e, exists b, fst (poll_receipt h e) = Ok (Some {| success := true; r_block_number := b |})) ->
  receipt_timeout_secs cfg = None ->
  table_wf cfg n (relay_jobs w) -> relay_jobs w !! job_id j = Some (row_of_job j) ->
  is_terminal (status j) = false -> tx_hash j = None ->
  exists w1 j1 w2 j2 h,
    process_due_job cfg j w = (Ok tt, w1) /\ relay_jobs w1 !! job_id j = Some (row_of_job j1)
    /\ process_due_job cfg j1 w1 = (Ok tt, w2) /\ relay_jobs w2 !! job_id j = Some (row_of_job j2)
    /\ status j2 = Confirmed /\ tx_hash j2 = Some h /\ mined h
    /\ exists k, broadcast (payload_bytes j) k h.
Proof.
  intros Hdb Hnonce Hsub Hpoll Hto Ht Hj Hst Hth. pose proof (table_writable _ _ _ _ Ht Hj) as Hw.
  destruct (send_delivered Hdb cfg w j Hnonce Hsub Hst Hth Hw) as (j1 & h & k & e1 & Hrun & Hb & Hst1 & Hth1 & Hid1 & Hf1).
  destruct (poll_delivered Hdb cfg (MkWorld _ (<[job_id j := row_of_job j1]> (relay_jobs w)) e1) j1 h Hpoll Hto)
    as (j2 & e2 & Hrun2 & Hst2 & Hth2 & Hm); [by rewrite Hst1|done|..].
  { split; simpl; [rewrite Hid1; by rewrite lookup_insert_eq|]. rewrite Hid1, Hf1.
    intros id r [[<- _]|[_ Hr]]%lookup_insert_Some Heq; [done|]. by eapply Hw. }
  eexists _, j1, _, j2, h. split_and!; [exact Hrun| |exact Hrun2| |done..|by exists k]; simpl.
  - by rewrite lookup_insert_eq.
  - rewrite Hid1. by rewrite lookup_insert_eq.
Qed.

Lemma relay_job_confirmed_witness :
  exists w1 j1 w2 j2 h j, relay_jobs ToyNode.w_posted !! "job-1001" = Some (row_of_job j)
    /\ process_due_job ToyNode.toy_cfg j ToyNode.w_posted = (Ok tt, w1)
    /\ process_due_job ToyNode.toy_cfg j1 w1 = (Ok tt, w2)
    /\ status j2 = Confirmed /\ tx_hash j2 = Some h.
Proof.
  destruct (@relay_run_spec _ _ ToyNode.toy_gateway_laws _ ToyNode.toy_parser ToyNode.toy_cfg ToyNode.toy_b64 ToyNode.w_init 0 0 ToyNode.w_posted
    ltac:(vm_compute; split; congruence) ltac:(lia) (table_wf_empty _) toy_run_posted
    ltac:(vm_compute; congruence)) as (Ht & _ & _).
  pose (j := fresh_job "job-1001" 1000 [x00] Payload.sample_payload ToyNode.toy_req).
  assert (Hj : relay_jobs ToyNode.w_posted !! job_id j = Some (row_of_job j)) by (vm_compute; reflexivity).
  destruct (@relay_job_confirmed _ _ ToyNode.toy_gateway_laws ToyNode.toy_cfg 0 ToyNode.w_posted j)
    as (w1 & j1 & w2 & j2 & h & H1 & _ & H2 & _ & H3 & H4 & _);
    [reflexivity|reflexivity|reflexivity|eexists; reflexivity|reflexivity|exact Ht|exact Hj|reflexivity..|].
  exists w1, j1, w2, j2, h, j. split; [exact Hj|]. split; [exact H1|]. split; [exact H2|]. split; [exact H3|exact H4].
Defined.

(** [max_attempts] does not bound the attempts. While the node does not
    answer the nonce query, every turn of the worker takes the same job again
    at once, counting an attempt, recording no error and scheduling no retry:
    after any number of turns, even above [max_attempts], the job is neither
    failed nor backed off. *)
Theorem nonce_errors_bypass_retry_limit `{EthGateway} cfg w j T k :
  (forall e, fst (db_delivery e) = Delivered) ->
  (forall e, exists m e', get_next_nonce e = (Err (Fail m), e')) ->
  (forall e, T <= fst (now_ts e)) -> waits T j ->
  0 <= attempt_count j -> attempt_count j + Z.of_nat k < 2 ^ 31 ->
  relay_jobs w = {[ job_id j := row_of_job j ]} ->
  exists j' e, worker_turns cfg k w = (Ok tt, MkWorld _ {[ job_id j := row_of_job j' ]} e)
    /\ attempt_count j' = attempt_count j + Z.of_nat k /\ is_terminal (status j') = false
    /\ next_attempt_at j' = next_attempt_at j /\ last_error j' = last_error j.
Proof.
  intros Hdb Hnonce Hclock. revert w j. induction k as [|k IH]; intros w j Hw Ha Hk Ht.
  - exists j, (env w). rewrite Z.add_0_r. split_and!; try done; [|apply Hw].
    destruct w; simpl in *; by subst.
  - destruct (nonce_down_turn Hdb cfg w j T Hnonce Hclock Hw ltac:(lia) Ht) as (tm & e & Hturn).
    set (js := _ |> set_updated_at tm) in Hturn.
    assert (Hs : saturating_add_u32 (attempt_count j) 1 = attempt_count j + 1)
      by (unfold saturating_add_u32, u32_max; lia).
    assert (Hjs : job_id js = job_id j /\ attempt_count js = attempt_count j + 1 /\ waits T js
      /\ next_attempt_at js = next_attempt_at j /\ last_error js = last_error j).
    { subst js. rewrite Hs. destruct j, Hw as (? & ? & ? & ?). by split_and!. }
    destruct Hjs as (Hid & Hatt & Hws & Hnx & Hle).
    destruct (IH (MkWorld _ {[ job_id j := row_of_job js ]} e) js) as (j' & e' & Hrun & Ha' & Hst' & Hn' & Hl');
      [done|lia|lia|by rewrite Hid|].
    exists j', e'. simpl. unfold ebind. rewrite Hturn, Hrun, Hid. split_and!; try done; [lia|congruence..].
Qed.

(** A node that answers no nonce query. *)
Module DeafNode.
Definition job : RelayJob := @fresh_job Toy.toy_plonky2 "job-1" 0 [x00] Payload.sample_payload ToyNode.toy_req.
#[global] Instance still_host : Host := {|
  Env := unit; now_ts e := (1000, e); uuid_v4 e := ("job-1", e); db_delivery e := (Delivered, e) |}.
#[global] Instance still_gateway : @EthGateway still_host := {|
  submit_payload _ n e := (Ok "tx", e);
  poll_receipt _ e := (Err (Fail "timeout"), e);
  get_next_nonce e := (Err (Fail "connection refused"), e);
  get_current_fees e := (Err (Fail "connection refused"), e);
  get_pending_tx_fees _ e := (Err (Fail "connection refused"), e);
  submit_payload_with_fees _ n _ e := (Err (Fail "connection refused"), e);
|}.
Definition w_start : World := MkWorld still_host {[ "job-1" := row_of_job job ]} tt.
Definition sent : RelayJob :=
  job |> set_status Submitted |> set_tx_hash (Some "tx") |> set_submitted_at (Some 900)
      |> set_nonce (Some 3) |> set_attempt_count 3.
Definition w_sent : World := MkWorld still_host {[ "job-1" := row_of_job sent ]} tt.
End DeafNode.

Lemma nonce_errors_witness :
  exists j' e, worker_turns ToyNode.toy_cfg 10 DeafNode.w_start
      = (Ok tt, MkWorld _ {[ "job-1" := row_of_job j' ]} e)
    /\ attempt_count j' = 10 /\ is_terminal (status j') = false
    /\ max_attempts ToyNode.toy_cfg = 3.
Proof.
  destruct (@nonce_errors_bypass_retry_limit _ DeafNode.still_gateway ToyNode.toy_cfg DeafNode.w_start
    DeafNode.job 1000 10) as (j' & e & H1 & H2 & H3 & _).
  - reflexivity.
  - intros e. exists "connection refused", e. reflexivity.
  - intros e. simpl. lia.
  - split; [reflexivity|split; [reflexivity|split; [reflexivity|]]]. intros t [= <-]. lia.
  - vm_compute; congruence.
  - vm_compute; congruence.
  - reflexivity.
  - exists j', e. split; [exact H1|split; [exact H2|split; [exact H3|reflexivity]]].
Defined.

(** A transient error can fail a job whose transaction is pending. A poll
    that fails goes through the retry counter of submissions, which polling
    never advances: a job sent on its last attempt is marked failed by the
    first receipt query that errors, and stays so even if the transaction is
    mined later; before the last attempt the same error only delays the next
    poll. *)
Theorem poll_error_outcome `{EthGateway} cfg w j h m :
  (forall e, fst (db_delivery e) = Delivered) ->
  (forall e, fst (poll_receipt h e) = Err (Fail m)) -> is_permanent_error m = false ->
  receipt_timeout_secs cfg = None ->
  is_terminal (status j) = false -> tx_hash j = Some h -> writable (relay_jobs w) j ->
  exists j' e tm, process_due_job cfg j w
      = (Ok tt, MkWorld _ (<[job_id j := row_of_job j']> (relay_jobs w)) e)
    /\ tx_hash j' = Some h /\ attempt_count j' = attempt_count j /\ last_error j' = Some m
    /\ if max_attempts cfg <=? attempt_count j
       then status j' = Failed /\ next_attempt_at j' = None
       else status j' = Queued /\ next_attempt_at j' = Some (add_secs tm
              (backoff_secs (attempt_count j) (retry_initial_secs cfg) (retry_max_secs cfg))).
Proof.
  intros Hdb Hpoll Hm Hto Hst Hth Hw. unfold process_due_job. rewrite Hst, Hth.
  unfold poll_submitted_job, now, ebind, on_env, elift. destruct (now_ts (env w)) as [tm e1]. simpl.
  rewrite Hth, Hto. simpl. unfold poll_receipt_of, ebind, on_env, etry.
  set (ju := j |> set_updated_at tm).
  assert (Hju : job_id ju = job_id j /\ tx_final ju = tx_final j /\ tx_hash ju = tx_hash j
    /\ attempt_count ju = attempt_count j) by (by destruct j). destruct Hju as (Hid & Hfin & Hthu & Hau).
  assert (Hwu : writable (relay_jobs w) ju) by (unfold writable; by rewrite Hid, Hfin).
  destruct (put_delivered Hdb (MkWorld _ (relay_jobs w) e1) ju Hwu) as [e2 ->]. simpl.
  specialize (Hpoll e2). destruct (poll_receipt h e2) as [r e3]. simpl in Hpoll; subst r. simpl.
  rewrite Hm. unfold schedule_retry_or_fail. rewrite Hau.
  assert (Hput : forall j2, job_id j2 = job_id ju -> tx_final j2 = tx_final ju -> exists e4,
    put_job j2 (MkWorld _ (<[job_id ju := row_of_job ju]> (relay_jobs w)) e3)
    = (Ok tt, MkWorld _ (<[job_id j := row_of_job j2]> (relay_jobs w)) e4)).
  { intros j2 Hi2 Hf2. destruct (put_delivered Hdb (MkWorld _ (<[job_id ju := row_of_job ju]> (relay_jobs w)) e3) j2)
      as [e4 ->]; [by apply writable_insert|]. exists e4. simpl. by rewrite Hi2, insert_insert_eq, Hid. }
  destruct (_ <=? _); edestruct Hput as [e4 ->]; try by destruct ju.
  - eexists _, e4, tm. split; [done|]. destruct ju; simpl in *. split_and!; congruence.
  - eexists _, e4, tm. split; [done|]. destruct ju; simpl in *. split_and!; congruence.
Qed.

Lemma poll_error_witness :
  exists j' e, process_due_job ToyNode.toy_cfg DeafNode.sent DeafNode.w_sent
      = (Ok tt, MkWorld _ (<["job-1" := row_of_job j']> (relay_jobs DeafNode.w_sent)) e)
    /\ status j' = Failed.
Proof.
  destruct (@poll_error_outcome _ DeafNode.still_gateway ToyNode.toy_cfg DeafNode.w_sent DeafNode.sent "tx" "timeout")
    as (j' & e & tm & H1 & _ & _ & _ & H2 & _).
  - reflexivity.
  - reflexivity.
  - vm_compute; reflexivity.
  - reflexivity.
  - reflexivity.
  - reflexivity.
  - split; [vm_compute; eauto|]. intros id r Hr _. unfold DeafNode.w_sent in Hr. simpl in Hr.
    apply lookup_singleton_Some in Hr as [<- _]. reflexivity.
  - exists j', e. split; [exact H1|exact H2].
Defined.

(** The retry delay doubles with each attempt from [initial] and is capped
    by [max], however large the counter, without overflow; it never shrinks as
    attempts grow. *)
Theorem backoff_secs_doubles a initial max_ :
  0 <= a < 2 ^ 32 -> 0 <= initial < 2 ^ 64 -> 0 <= max_ < 2 ^ 64 ->
  backoff_secs a initial max_ = Z.min max_ (initial * 2 ^ Z.min (Z.max 0 (a - 1)) 20)
  /\ 0 <= backoff_secs a initial max_ <= max_
  /\ backoff_secs a initial max_ <= backoff_secs (a + 1) initial max_.
Proof.
  intros Ha Hi Hm.
  assert (Heq : forall x, 0 <= x ->
    backoff_secs x initial max_ = Z.min max_ (initial * 2 ^ Z.min (Z.max 0 (x - 1)) 20)).
  { intros x Hx. unfold backoff_secs, saturating_sub_u32, saturating_mul_u64, u64_max.
    rewrite Z.shiftl_1_l, as_u64_id; [lia|]. split; [lia|]. apply Z.pow_lt_mono_r; lia. }
  rewrite !Heq by lia.
  assert (0 < 2 ^ Z.min (Z.max 0 (a - 1)) 20) by (apply Z.pow_pos_nonneg; lia).
  split_and!; [done|nia|lia|].
  assert (2 ^ Z.min (Z.max 0 (a - 1)) 20 <= 2 ^ Z.min (Z.max 0 (a + 1 - 1)) 20)
    by (apply Z.pow_le_mono_r; lia). nia.
Qed.

Lemma backoff_secs_witness : backoff_secs 4 5 300 = 40 /\ backoff_secs 4 5 300 <= backoff_secs 5 5 300.
Proof.
  destruct (backoff_secs_doubles 4 5 300) as (H1 & _ & H2); [lia..|]. split; [exact H1|exact H2].
Defined.

(** A replacement outbids. As long as the products fit in 128 bits, every
    fee cap of a replacement exceeds the replaced transaction's by the
    configured percentage, rounded down; with 100 percent each at least
    doubles, as blob replacements need. *)
Theorem bumped_fees_outbid cfg network original :
  let m := fee_bump_multiplier_pct cfg in
  let fits x := 0 <= x /\ x * (100 + m) <= u128_max in
  let base_priority := Z.max (max_priority_fee_per_gas original) (net_priority_fee network) in
  0 <= m -> fits base_priority ->
  fits (Z.max (max_fee_per_gas original) (wrapu 128 (base_fee_per_gas network + base_priority))) ->
  (forall x, max_fee_per_blob_gas original = Some x -> fits x) ->
  let fees := bumped_fees cfg network original in
  let outbids new old := old + old * m / 100 <= new in
  (0 <= max_fee_per_gas original -> outbids (max_fee_per_gas fees) (max_fee_per_gas original))
  /\ (0 <= max_priority_fee_per_gas original ->
       outbids (max_priority_fee_per_gas fees) (max_priority_fee_per_gas original))
  /\ match max_fee_per_blob_gas original, max_fee_per_blob_gas fees with
     | Some old, Some new => new = old + old * m / 100
     | None, None => True
     | _, _ => False
     end.
Proof.
  intros m fits base_priority Hm Hp Hf Hb fees outbids.
  assert (Hbump : forall x, fits x -> apply_bump m x = x + x * m / 100).
  { intros x [Hx Hx']. unfold apply_bump. rewrite Z.min_r by done.
    replace (x * (100 + m)) with (x * m + x * 100) by lia. rewrite Z.div_add by lia. lia. }
  assert (Hmono : forall x y, 0 <= x <= y -> x + x * m / 100 <= y + y * m / 100).
  { intros x y Hxy. assert (x * m / 100 <= y * m / 100) by (apply Z.div_le_mono; nia). lia. }
  subst fees outbids. unfold bumped_fees; simpl. fold m base_priority. rewrite !Hbump by done. split_and!.
  - intros Ho. apply Hmono. lia.
  - intros Ho. apply Hmono. lia.
  - destruct (max_fee_per_blob_gas original) as [x|] eqn:Hx; simpl; [|done]. by apply Hbump, Hb.
Qed.

Lemma bumped_fees_witness :
  let original := {| max_fee_per_gas := 50; max_priority_fee_per_gas := 2; max_fee_per_blob_gas := Some 9 |} in
  let fees := bumped_fees ToyNode.toy_cfg {| base_fee_per_gas := 10; net_priority_fee := 1 |} original in
  50 + 50 * 100 / 100 <= max_fee_per_gas fees.
Proof.
  intros original fees.
  refine (proj1 (bumped_fees_outbid ToyNode.toy_cfg {| base_fee_per_gas := 10; net_priority_fee := 1 |}
    original _ _ _ _) _); [vm_compute; congruence|vm_compute; split; congruence..| |vm_compute; congruence].
  intros x [= <-]. vm_compute. split; congruence.
Defined.

(** The worker takes due jobs in order. It picks a job that is not
    terminal and whose time has come, and no due job has an earlier time or, at
    the same time, an earlier creation; it picks none only when none is due. *)
Theorem next_due_job_earliest `{EthGateway} cfg n now w r w' :
  table_wf cfg n (relay_jobs w) -> next_due_job now w = (Ok r, w') ->
  relay_jobs w' = relay_jobs w /\
  match r with
  | Some j => relay_jobs w !! job_id j = Some (row_of_job j) /\ is_terminal (status j) = false
      /\ due now (row_of_job j) = true
      /\ forall id r', relay_jobs w !! id = Some r' -> due now r' = true -> due_le (row_of_job j) r'
  | None => forall id r', relay_jobs w !! id = Some r' -> due now r' = false
  end.
Proof.
  intros Ht Hr. pose proof (wp_run _ _ _ _ _ _ (next_due_job_spec cfg n now w Ht) Hr) as [Hw Hj].
  split; [done|]. destruct r as [j|]; [|done]. destruct Hj as (? & ? & ? & Hd & ?).
  split_and!; try done. by eapply due_not_terminal.
Qed.

Lemma next_due_job_witness :
  exists j w', next_due_job 1000 ToyNode.w_posted = (Ok (Some j), w') /\ is_terminal (status j) = false.
Proof.
  destruct (@relay_run_spec _ _ ToyNode.toy_gateway_laws _ ToyNode.toy_parser ToyNode.toy_cfg ToyNode.toy_b64
    ToyNode.w_init 0 0 ToyNode.w_posted
    ltac:(vm_compute; split; congruence) ltac:(lia) (table_wf_empty _) toy_run_posted
    ltac:(vm_compute; congruence)) as (Ht & _ & _).
  pose (j := @fresh_job Toy.toy_plonky2 "job-1001" 1000 [x00] Payload.sample_payload ToyNode.toy_req).
  assert (Hr : exists w', next_due_job 1000 ToyNode.w_posted = (Ok (Some j), w'))
    by (eexists; vm_compute; reflexivity).
  destruct Hr as [w' Hr]. exists j, w'. split; [exact Hr|].
  refine (proj1 (proj2 (proj2 (@next_due_job_earliest _ ToyNode.toy_gateway ToyNode.toy_cfg 0 1000 ToyNode.w_posted (Some j) w' Ht Hr)))).
Defined.

End Relayer.
