(* ===== verification/ObjectNames.v ===== *)
(** * Names of object files (libs/driver/src/object_store.rs, wire-types)

    The driver names an object file after its class, stable identifier and
    commitment; a player may give it a custom name instead, which must be safe
    on every platform and must not look like the generated name of another
    object. A string is its UTF-8 bytes; the checks that the source makes on
    [char]s are made on the decoded code points. *)

From Stdlib Require Import Ascii.
From S2P Require Import Prelude Pod2 Models TxModel.

Module ObjectNames.
Import TxModel(STABLE_IDENTIFIER_FIELD).
Local Open Scope Z_scope.

(** ** Definitions *)

Abbreviation los := String.list_ascii_of_string.
Abbreviation sol := String.string_of_list_ascii.

(** [str::split] *)
Fixpoint split_on (c : ascii) (l : list ascii) : list (list ascii) :=
  match l with
  | [] => [[]]
  | a :: l' =>
      if decide (a = c) then [] :: split_on c l'
      else match split_on c l' with
           | [] => [[a]]
           | x :: xs => (a :: x) :: xs
           end
  end.

Definition code (a : ascii) : Z := Z.of_N (N_of_ascii a).

(** [str::chars] of well-formed UTF-8. *)
Fixpoint chars (l : list ascii) : list Z :=
  match l with
  | [] => []
  | a :: l1 =>
      let x := code a in
      if x <? 192 then x :: chars l1
      else match l1 with
      | [] => [x]
      | b :: l2 =>
          if x <? 224 then (x - 192) * 64 + (code b - 128) :: chars l2
          else match l2 with
          | [] => [x]
          | c :: l3 =>
              if x <? 240 then ((x - 224) * 64 + (code b - 128)) * 64 + (code c - 128) :: chars l3
              else match l3 with
              | [] => [x]
              | d :: l4 =>
                  (((x - 240) * 64 + (code b - 128)) * 64 + (code c - 128)) * 64 + (code d - 128)
                  :: chars l4
              end
          end
      end
  end.

(** [char::is_control] and [char::is_whitespace]. *)
Definition is_control (c : Z) : bool := (c <? 32) || ((127 <=? c) && (c <=? 159)).
Definition is_whitespace (c : Z) : bool :=
  ((9 <=? c) && (c <=? 13)) || bool_decide (c ∈ [32; 133; 160; 5760; 8232; 8233; 8239; 8287; 12288])
  || ((8192 <=? c) && (c <=? 8202)).

Definition to_ascii_lowercase (c : Z) : Z := if (65 <=? c) && (c <=? 90) then c + 32 else c.
Definition is_digit (c : Z) : bool := (48 <=? c) && (c <=? 57).
Definition is_ascii_alphanumeric (c : Z) : bool :=
  is_digit c || ((97 <=? c) && (c <=? 122)) || ((65 <=? c) && (c <=? 90)).

Definition ascii_of_code (c : Z) : ascii := ascii_of_N (Z.to_N c).

(** [str::eq_ignore_ascii_case] *)
Definition eq_ignore_ascii_case (s t : string) : bool :=
  bool_decide ((to_ascii_lowercase ∘ code) <$> los s = (to_ascii_lowercase ∘ code) <$> los t).

(** [str::strip_suffix] *)
Definition strip_suffix (p s : list ascii) : option (list ascii) :=
  let n := (length s - length p)%nat in
  if decide ((length p <= length s)%nat /\ drop n s = p) then Some (take n s) else None.

(** [rsplitn(2, c)]: split at the last [c]. *)
Fixpoint rsplit_once (c : ascii) (l : list ascii) : option (list ascii * list ascii) :=
  match l with
  | [] => None
  | a :: l' =>
      match rsplit_once c l' with
      | Some (x, y) => Some (a :: x, y)
      | None => if decide (a = c) then Some ([], l') else None
      end
  end.

(** [split(c).next()] *)
Fixpoint split_first (c : ascii) (l : list ascii) : list ascii :=
  match l with
  | [] => []
  | a :: l' => if decide (a = c) then [] else a :: split_first c l'
  end.

(** *** Qualified names *)

Record QualifiedName : Type := { plugin_name : string; name : string }.
#[global] Instance QualifiedName_eq_dec : EqDecision QualifiedName.
Proof. solve_decision. Defined.

Definition safe_lower (c : Z) : ascii :=
  let lower := to_ascii_lowercase c in
  if is_ascii_alphanumeric lower || (lower =? 45) || (lower =? 95) then ascii_of_code lower
  else "_"%char.
Definition push_safe_lower (s : string) : list ascii := safe_lower <$> chars (los s).

Definition file_prefix (q : QualifiedName) : list ascii :=
  push_safe_lower (plugin_name q) ++ los "__" ++ push_safe_lower (name q).

(** *** Generated names *)

Definition DOBJ_EXTENSION : string := "dobj".
Definition extension : list ascii := los ("." +:+ DOBJ_EXTENSION).

Definition hash_hex_prefix `{Pod2} (hash : Hash) (num_bytes : nat) : Result (list ascii) :=
  let full_hex := los (hash_encode_hex hash) in
  if (num_bytes * 2 <=? length full_hex)%nat then Ok (take (num_bytes * 2) full_hex)
  else Err (Panic "byte index out of bounds").

Definition object_file_name `{Pod2} (class : QualifiedName) (obj : Dictionary) : Result string :=
  let? stable_identifier := ok_or (obj !! STABLE_IDENTIFIER_FIELD)
                              "object has no 'stable_identifier' field" in
  let? st := hash_hex_prefix stable_identifier 8 in
  let? co := hash_hex_prefix (dict_commitment obj) 8 in
  Ok (sol (file_prefix class ++ los "_" ++ st ++ los "_" ++ co ++ extension)).

Definition is_hash_prefix (part : list ascii) : bool :=
  (length part =? 16)%nat
  && forallb (fun a => is_digit (code a) || ((97 <=? code a) && (code a <=? 102))) part.

Definition has_generated_shape (file_name : string) : bool :=
  match strip_suffix extension (los file_name) with
  | None => false
  | Some stem =>
      match rsplit_once "_"%char stem with
      | None => false
      | Some (rest, commitment) =>
          match rsplit_once "_"%char rest with
          | None => false
          | Some (prefix, stable_identifier) =>
              negb (bool_decide (prefix = [])) && is_hash_prefix commitment
              && is_hash_prefix stable_identifier
          end
      end
  end.

(** *** Custom names *)

Definition MAX_CUSTOM_FILE_NAME_BYTES : nat := 200.
(** The characters slash, backslash, less, greater, colon, double quote, bar,
    question mark and star. *)
Definition FILE_NAME_FORBIDDEN_CHARS : list Z := [47; 92; 60; 62; 58; 34; 124; 63; 42].
Definition WINDOWS_DEVICE_NAMES : list string :=
  ["CON"; "PRN"; "AUX"; "NUL"; "COM1"; "COM2"; "COM3"; "COM4"; "COM5"; "COM6"; "COM7"; "COM8";
   "COM9"; "LPT1"; "LPT2"; "LPT3"; "LPT4"; "LPT5"; "LPT6"; "LPT7"; "LPT8"; "LPT9"].
Definition PENDING_SUFFIX : string := "-pending".

(** [str::trim_end] decides only whether the trimmed text is a device name,
    which holds only ASCII, so trimming code points is trimming the text. *)
Fixpoint trim_start (l : list Z) : list Z :=
  match l with c :: l' => if is_whitespace c then trim_start l' else l | [] => [] end.
Definition trim_end (l : list Z) : list Z := rev (trim_start (rev l)).

Definition is_device_name (device : list Z) : bool :=
  existsb (fun r => bool_decide (to_ascii_lowercase <$> (code <$> los r) = to_ascii_lowercase <$> device))
    WINDOWS_DEVICE_NAMES.

Definition forbidden_char (c : Z) : bool := is_control c || bool_decide (c ∈ FILE_NAME_FORBIDDEN_CHARS).

Definition with_extension (requested : list ascii) : list ascii :=
  match strip_suffix extension requested with
  | Some _ => requested
  | None => requested ++ extension
  end.

Definition custom_file_name (requested generated : string) : Result string :=
  let l := los requested in
  if forallb is_whitespace (chars l) then Err (Fail "file name is empty")
  else if existsb forbidden_char (chars l) then
    Err (Fail ("file name " +:+ requested +:+ " contains a forbidden character"))
  else if bool_decide (head l = Some "."%char) then
    Err (Fail ("file name " +:+ requested +:+ " starts with '.'"))
  else if is_device_name (trim_end (chars (split_first "."%char l))) then
    Err (Fail ("file name " +:+ requested +:+ " is reserved on Windows"))
  else
    let file_name := with_extension l in
    if (MAX_CUSTOM_FILE_NAME_BYTES <? length file_name)%nat then
      Err (Fail "file name is longer than 200 bytes")
    else if negb (bool_decide (sol file_name = generated)) && has_generated_shape (sol file_name) then
      Err (Fail ("file name " +:+ sol file_name +:+ " has the form of a generated object name"))
    else Ok (sol file_name).

(** *** Unique names *)

Definition stem_of (file_name : string) : list ascii :=
  default (los file_name) (strip_suffix extension (los file_name)).

Definition numbered (stem : list ascii) (number : nat) : string :=
  sol (stem ++ los " " ++ los (pretty number) ++ extension).

(** The search over [2..], for at most [fuel] numbers. *)
Fixpoint first_free (fuel number : nat) (stem : list ascii) (is_taken : string -> bool) : Result string :=
  match fuel with
  | O => Err (Panic "an unbounded range always yields a free name")
  | S fuel' =>
      let candidate := numbered stem number in
      if is_taken candidate then first_free fuel' (S number) stem is_taken else Ok candidate
  end.

Definition unique_file_name (fuel : nat) (file_name : string) (is_taken : string -> bool) : Result string :=
  if negb (is_taken file_name) then Ok file_name
  else first_free fuel 2 (stem_of file_name) is_taken.

Definition imported_file_name (fuel : nat) (requested generated : string) (is_taken : string -> bool) :
    Result string :=
  let? file_name := custom_file_name requested generated in
  if bool_decide (file_name = generated) then Ok file_name
  else unique_file_name fuel file_name is_taken.

Definition pending_file_name (fuel : nat) (final_name : string) (is_taken : string -> bool) : Result string :=
  unique_file_name fuel (sol (stem_of final_name ++ los PENDING_SUFFIX ++ extension)) is_taken.

Lemma split_on_none c l : c ∉ l -> split_on c l = [l].
Proof.
  induction l as [|a l IH]; intros Hc; [done|]. apply not_elem_of_cons in Hc as [Ha Hl]. simpl.
  by rewrite decide_False, IH by done.
Qed.

(** ** Strings as lists *)

Lemma los_app s t : los (s +:+ t) = los s ++ los t.
Proof. induction s as [|a s IH]; simpl; [done|by f_equal]. Qed.

Lemma los_sol l : los (sol l) = l.
Proof. apply String.list_ascii_of_string_of_list_ascii. Qed.

Lemma sol_los s : sol (los s) = s.
Proof. apply String.string_of_list_ascii_of_string. Qed.

Lemma sol_inj l1 l2 : sol l1 = sol l2 -> l1 = l2.
Proof. intros H. rewrite <- (los_sol l1), <- (los_sol l2). by rewrite H. Qed.

Lemma strip_suffix_Some p s r : strip_suffix p s = Some r <-> s = r ++ p.
Proof.
  unfold strip_suffix. case_decide as Hd; split.
  - intros [= <-]. destruct Hd as [_ Hd].
    rewrite <- (take_drop (length s - length p) s) at 1. by rewrite Hd.
  - intros ->. f_equal. rewrite length_app. rewrite Nat.add_sub. by rewrite take_app_length.
  - done.
  - intros ->. exfalso. apply Hd. rewrite length_app, Nat.add_sub, drop_app_length. split; [lia|done].
Qed.

Lemma strip_suffix_app p r : strip_suffix p (r ++ p) = Some r.
Proof. by apply strip_suffix_Some. Qed.

Lemma rsplit_once_None c l : rsplit_once c l = None <-> c ∉ l.
Proof.
  induction l as [|a l IH]; simpl; [split; [intros _; apply not_elem_of_nil|done]|].
  rewrite not_elem_of_cons. destruct (rsplit_once c l) as [[x y]|].
  - split; [done|]. intros [_ H]. by apply IH in H.
  - case_decide; split; naive_solver.
Qed.

Lemma rsplit_once_app c x y : c ∉ y -> rsplit_once c (x ++ c :: y) = Some (x, y).
Proof.
  intros Hy. induction x as [|a x IH]; simpl.
  - apply rsplit_once_None in Hy. rewrite Hy. by rewrite decide_True.
  - by rewrite IH.
Qed.

Lemma rsplit_once_Some c l x y : rsplit_once c l = Some (x, y) -> l = x ++ c :: y /\ c ∉ y.
Proof.
  revert x. induction l as [|a l IH]; intros x; simpl; [done|].
  destruct (rsplit_once c l) as [[x' y']|] eqn:E.
  - intros [= <- <-]. destruct (IH x' eq_refl) as [-> ?]. done.
  - case_decide; [|done]. intros [= <- <-]. subst. split; [done|]. by apply rsplit_once_None.
Qed.

(** ** Generated names have the generated shape *)

(** What [hex::ToHex] gives for a hash: sixty-four lower-case hex digits. *)
Class HexLaws `{Pod2} : Prop := {
  hex_length h : length (los (hash_encode_hex h)) = 64%nat;
  hex_digits h a : a ∈ los (hash_encode_hex h) ->
    is_digit (code a) || ((97 <=? code a) && (code a <=? 102)) = true;
}.

Lemma underscore_not_hash part : is_hash_prefix part = true -> "_"%char ∉ part.
Proof.
  unfold is_hash_prefix. rewrite andb_true_iff. intros [_ Hf] Hin.
  rewrite forallb_forall in Hf. apply list_elem_of_In in Hin. by specialize (Hf _ Hin).
Qed.

Lemma hash_hex_prefix_ok `{HexLaws} h :
  exists p, hash_hex_prefix h 8 = Ok p /\ is_hash_prefix p = true.
Proof.
  unfold hash_hex_prefix. rewrite hex_length. simpl. eexists. split; [done|].
  unfold is_hash_prefix. rewrite length_take, hex_length. simpl.
  apply forallb_forall. intros a Ha. apply list_elem_of_In in Ha. apply (hex_digits h).
  change 16%nat with (8 * 2)%nat in Ha.
  rewrite <- (take_drop 16 (los (hash_encode_hex h))). apply elem_of_app. by left.
Qed.

Lemma generated_shape prefix st co :
  prefix <> [] -> is_hash_prefix st = true -> is_hash_prefix co = true ->
  has_generated_shape (sol (prefix ++ los "_" ++ st ++ los "_" ++ co ++ extension)) = true.
Proof.
  intros Hp Hst Hco. unfold has_generated_shape. rewrite los_sol.
  replace (prefix ++ los "_" ++ st ++ los "_" ++ co ++ extension)
    with ((prefix ++ "_"%char :: st ++ "_"%char :: co) ++ extension)
    by (simpl; by rewrite <- !(assoc_L (++)); simpl; rewrite <- !(assoc_L (++))).
  rewrite strip_suffix_app.
  replace (prefix ++ "_"%char :: st ++ "_"%char :: co) with ((prefix ++ "_"%char :: st) ++ "_"%char :: co)
    by (by rewrite <- (assoc_L (++))).
  rewrite rsplit_once_app by by apply underscore_not_hash.
  rewrite rsplit_once_app by by apply underscore_not_hash.
  rewrite bool_decide_eq_false_2 by done. by rewrite Hst, Hco.
Qed.

Lemma object_file_name_shape `{HexLaws} class obj n :
  object_file_name class obj = Ok n -> has_generated_shape n = true.
Proof.
  unfold object_file_name. destruct (obj !! _) as [sid|]; simpl; [|done].
  destruct (hash_hex_prefix_ok sid) as (p1 & -> & H1). simpl.
  destruct (hash_hex_prefix_ok (dict_commitment obj)) as (p2 & -> & H2). simpl.
  intros [= <-]. apply generated_shape; try done.
  unfold file_prefix. by destruct (push_safe_lower (plugin_name class)).
Qed.

(** ** Unique names *)

Lemma numbered_inj stem : Inj (=) (=) (numbered stem).
Proof.
  intros n1 n2 H. apply sol_inj in H. apply (inj (app stem)) in H. simpl in H.
  injection H as H. apply app_inv_tail in H.
  apply (f_equal sol) in H. rewrite !sol_los in H. by apply (inj pretty) in H.
Qed.

Lemma first_free_Ok fuel number stem is_taken n :
  first_free fuel number stem is_taken = Ok n ->
  is_taken n = false /\ exists k, (number <= k)%nat /\ n = numbered stem k
    /\ forall i, (number <= i < k)%nat -> is_taken (numbered stem i) = true.
Proof.
  revert number. induction fuel as [|fuel IH]; intros number; simpl; [done|].
  destruct (is_taken (numbered stem number)) eqn:E.
  - intros H. destruct (IH _ H) as (Hn & k & Hk & -> & Hmin). split; [done|].
    exists k. split_and!; [lia|done|]. intros i Hi.
    destruct (decide (i = number)) as [->|]; [done|]. apply Hmin. lia.
  - intros [= <-]. split; [done|]. exists number. split_and!; [lia|done|lia].
Qed.

Lemma first_free_total fuel number stem (taken : gset string) is_taken :
  (forall s, is_taken s = true -> s ∈ taken) -> (size taken < fuel)%nat ->
  exists n, first_free fuel number stem is_taken = Ok n.
Proof.
  intros Ht Hf.
  destruct (first_free fuel number stem is_taken) as [n|e] eqn:E; [by eauto|]. exfalso.
  assert (Hall : forall i, (i < fuel)%nat -> is_taken (numbered stem (number + i)) = true).
  { clear Ht Hf taken. revert number E. induction fuel as [|fuel IH]; intros number E i Hi; [lia|].
    simpl in E. destruct (is_taken (numbered stem number)) eqn:E1; [|done].
    destruct i as [|i]; [by rewrite Nat.add_0_r|]. replace (number + S i)%nat with (S number + i)%nat by lia.
    apply IH; [done|lia]. }
  pose (names := list_to_set (C := gset string) ((fun i => numbered stem (number + i)) <$> seq 0 fuel)).
  assert (Hsub : names ⊆ taken).
  { intros s. unfold names. rewrite elem_of_list_to_set, list_elem_of_fmap.
    intros (i & -> & Hi%elem_of_seq). apply Ht, Hall. lia. }
  apply subseteq_size in Hsub. unfold names in Hsub.
  rewrite size_list_to_set in Hsub.
  - rewrite length_fmap, length_seq in Hsub. lia.
  - apply NoDup_fmap_2; [|apply NoDup_seq]. intros i j Hij. apply (numbered_inj stem) in Hij. lia.
Qed.

Lemma rsplit_once_tail c l rest :
  c ∉ rest ->
  rsplit_once c (l ++ rest)
  = match rsplit_once c l with Some (x, y) => Some (x, y ++ rest) | None => None end.
Proof.
  intros Hr. induction l as [|a l IH]; simpl; [by apply rsplit_once_None|].
  rewrite IH. destruct (rsplit_once c l) as [[x y]|]; [done|]. by case_decide.
Qed.

(** A name whose last part holds a character that is not a hex digit. *)
Lemma suffix_not_generated stem rest a :
  "_"%char ∉ rest -> a ∈ rest ->
  is_digit (code a) || ((97 <=? code a) && (code a <=? 102)) = false ->
  has_generated_shape (sol (stem ++ rest ++ extension)) = false.
Proof.
  intros Hr Ha Hd. unfold has_generated_shape. rewrite los_sol, (assoc_L (++)), strip_suffix_app.
  rewrite rsplit_once_tail by done. destruct (rsplit_once _ stem) as [[x y]|]; [|done].
  destruct (rsplit_once _ x) as [[p q]|]; [|done].
  assert (Hp : is_hash_prefix (y ++ rest) = false); [|by rewrite Hp, andb_false_r].
  unfold is_hash_prefix. apply andb_false_iff. right.
  apply not_true_is_false. intros Hf. rewrite forallb_forall in Hf.
  specialize (Hf a). rewrite Hd in Hf. discriminate Hf.
  apply list_elem_of_In, elem_of_app. by right.
Qed.

Lemma pretty_no_underscore (n : nat) : "_"%char ∉ los (pretty n).
Proof.
  assert (Hgo : forall x s, "_"%char ∉ los s -> "_"%char ∉ los (pretty_N_go x s)).
  { intros x. induction (N.lt_wf_0 x) as [x _ IH]. intros s Hs.
    destruct (decide (x = 0%N)) as [->|Hx]; [by rewrite pretty_N_go_0|].
    rewrite pretty_N_go_step by lia. apply IH; [apply N.div_lt; lia|].
    simpl. rewrite not_elem_of_cons. split; [|done].
    unfold pretty_N_char. by repeat case_match. }
  unfold pretty, pretty_nat, pretty, pretty_N. case_decide; [|apply Hgo, not_elem_of_nil].
  simpl. rewrite not_elem_of_cons. split; [done|apply not_elem_of_nil].
Qed.

Lemma numbered_not_generated stem k : has_generated_shape (numbered stem k) = false.
Proof.
  unfold numbered.
  replace (stem ++ los " " ++ los (pretty k) ++ extension)
    with (stem ++ (los " " ++ los (pretty k)) ++ extension) by (by rewrite <- !(assoc_L (++))).
  apply (suffix_not_generated _ _ " "%char); [|set_solver|done].
  simpl. rewrite not_elem_of_cons. split; [done|apply pretty_no_underscore].
Qed.

Lemma unique_file_name_spec fuel f (taken : gset string) is_taken :
  (forall s, is_taken s = true -> s ∈ taken) -> (size taken < fuel)%nat ->
  exists n, unique_file_name fuel f is_taken = Ok n /\ is_taken n = false
    /\ (n = f \/ exists k, (2 <= k)%nat /\ n = numbered (stem_of f) k
         /\ forall i, (2 <= i < k)%nat -> is_taken (numbered (stem_of f) i) = true).
Proof.
  intros Ht Hf. unfold unique_file_name. destruct (is_taken f) eqn:Ef; simpl; [|by eauto].
  destruct (first_free_total fuel 2 (stem_of f) taken is_taken Ht Hf) as [n Hn].
  exists n. split; [done|]. destruct (first_free_Ok _ _ _ _ _ Hn) as (? & k & ? & ? & ?). eauto 10.
Qed.

Lemma pending_name_spec fuel f (taken : gset string) is_taken :
  (forall s, is_taken s = true -> s ∈ taken) -> (size taken < fuel)%nat ->
  exists p, pending_file_name fuel f is_taken = Ok p /\ is_taken p = false
    /\ has_generated_shape p = false.
Proof.
  intros Ht Hf. unfold pending_file_name.
  destruct (unique_file_name_spec fuel (sol (stem_of f ++ los PENDING_SUFFIX ++ extension)) taken is_taken Ht Hf)
    as (p & Hp & Hfree & Hshape).
  exists p. split_and!; [done..|]. destruct Hshape as [->|(k & _ & -> & _)]; [|apply numbered_not_generated].
  apply (suffix_not_generated _ _ "-"%char); [|simpl; by left|done].
  apply rsplit_once_None. reflexivity.
Qed.

(** ** Theorems *)

(** Names of object files. When fewer names are taken than the search
    tries, importing under an acceptable name succeeds; the name chosen is the
    object's generated name or is free, and it is never the generated name of
    another object; the pending name of its next version is free and no
    object's generated name. So no file is overwritten or taken for another
    object's. *)
Theorem object_names_never_shadow `{HexLaws} fuel requested generated custom (taken : gset string) is_taken :
  (forall s, is_taken s = true -> s ∈ taken) -> (size taken < fuel)%nat ->
  custom_file_name requested generated = Ok custom ->
  exists n p, imported_file_name fuel requested generated is_taken = Ok n
    /\ (n = generated \/ is_taken n = false)
    /\ (forall class obj g, object_file_name class obj = Ok g -> n = g -> g = generated)
    /\ pending_file_name fuel n is_taken = Ok p /\ is_taken p = false
    /\ (forall class obj g, object_file_name class obj = Ok g -> p <> g).
Proof.
  intros Ht Hf Hc.
  assert (Hn : exists n, imported_file_name fuel requested generated is_taken = Ok n
    /\ (n = generated \/ (is_taken n = false /\ has_generated_shape n = false))).
  { unfold imported_file_name. rewrite Hc. simpl. case_bool_decide as Hg; [by eauto|].
    destruct (unique_file_name_spec fuel custom taken is_taken Ht Hf) as (n & Hn & Hfree & Hshape).
    exists n. split; [done|]. right. split; [done|].
    destruct Hshape as [->|(k & _ & -> & _)]; [|apply numbered_not_generated].
    unfold custom_file_name in Hc. repeat (case_match; try done). simplify_eq.
    apply not_true_is_false. intros Hs.
    match goal with H : negb _ && _ = false |- _ => rewrite Hs, andb_true_r in H; apply negb_false_iff in H;
      by apply bool_decide_eq_true in H end. }
  destruct Hn as (n & Hn & Hshape).
  destruct (pending_name_spec fuel n taken is_taken Ht Hf) as (p & Hp & Hfree & Hps).
  exists n, p. split_and!; [done|naive_solver| |done..|].
  - intros class obj g Hg Heq. destruct Hshape as [|[_ Hs]]; [congruence|].
    apply object_file_name_shape in Hg. congruence.
  - intros class obj g Hg ->. apply object_file_name_shape in Hg. congruence.
Qed.

(** A hex encoding for examples: sixty-four zeros. *)
#[local] Instance zero_hex_pod2 : Pod2 := {|
  CustomPredicateRef := unit; value_of_i64 z := MkHash z 0 0 0; value_of_str _ := EMPTY_HASH;
  hash_values _ := EMPTY_HASH; array_commitment _ := EMPTY_HASH; set_commitment _ := EMPTY_HASH;
  dict_commitment _ := EMPTY_HASH; custom_statement_hash _ _ := EMPTY_HASH;
  public_inputs _ _ _ := []; hash_encode_hex _ := sol (replicate 64 "0"%char);
  hash_from_hex _ := Ok EMPTY_HASH; from_noncanonical_u64 x := x; raw_to_bytes _ := [] |}.

#[local] Instance zero_hex_laws : @HexLaws zero_hex_pod2.
Proof.
  split; intros *; unfold hash_encode_hex; simpl.
  - reflexivity.
  - change (a ∈ replicate 64 "0"%char -> is_digit (code a) || ((97 <=? code a) && (code a <=? 102)) = true).
    intros [-> _]%elem_of_replicate. reflexivity.
Qed.

Lemma object_names_witness :
  exists n p, imported_file_name 2 "my sword" "gen.dobj" (fun s => bool_decide (s = "my sword.dobj")) = Ok n
    /\ pending_file_name 2 n (fun s => bool_decide (s = "my sword.dobj")) = Ok p
    /\ n <> "my sword.dobj".
Proof.
  destruct (@object_names_never_shadow zero_hex_pod2 zero_hex_laws 2 "my sword" "gen.dobj" "my sword.dobj"
    {[ "my sword.dobj" ]} (fun s => bool_decide (s = "my sword.dobj"))) as (n & p & H1 & H2 & _ & H3 & _).
  - intros s Hs. apply bool_decide_eq_true in Hs. subst. by apply elem_of_singleton.
  - rewrite size_singleton. lia.
  - vm_compute. reflexivity.
  - exists n, p. split; [exact H1|]. split; [exact H3|]. intros ->.
    destruct H2 as [H2|H2]; [discriminate H2|vm_compute in H2; discriminate H2].
Defined.

End ObjectNames.
