(* ===== verification/DriverStore.v ===== *)
(** * The driver's disk (libs/driver: object_store.rs, transactions.rs,
    object_record.rs, holds.rs; libs/wire-types/src/transactions.rs)

    The driver keeps object files in two directories, live and nullified, and
    one directory per transaction with its payload and its record; proofs under
    way hold their inputs in memory. A file of JSON is kept as the value it
    parses to, [None] when it does not parse. Every call to the file system may
    fail; a failed write may leave a torn file and a failed removal of a
    directory may have removed part of it. *)

From stdpp Require Import sorting.
From S2P Require Import Prelude Pod2 Models Payload ObjectNames.

Module DriverStore.
Import Payload ObjectNames.
Local Open Scope Z_scope.

(** ** Definitions *)

(** *** Records *)

Inductive FileStatus : Type := Unknown | Live | Nullified.
#[global] Instance FileStatus_eq_dec : EqDecision FileStatus.
Proof. solve_decision. Defined.

Inductive TransactionState : Type := Recorded | Submitted | Landed | Expired.
#[global] Instance TransactionState_eq_dec : EqDecision TransactionState.
Proof. solve_decision. Defined.

Definition is_terminal (s : TransactionState) : bool :=
  match s with Landed | Expired => true | _ => false end.

Record PendingName : Type := { file_name : string; final_name : string }.
#[global] Instance PendingName_eq_dec : EqDecision PendingName.
Proof. solve_decision. Defined.

Record TransactionRecord : Type := MkRecord {
  tx_final : string;
  action : QualifiedName;
  owner : string;
  input_files : list string;
  output_files : list string;
  grounding_root : string;
  grounding_block : Z;
  nullifiers : list string;
  created : list string;
  state : TransactionState;
  relayer_job_id : option string;
  tx_hash : option string;
  relayer_failure : option string;
  reason : option string;
  recorded_at_ms : Z;
  submit_attempted_at_ms : option Z;
  submitted_at_ms : option Z;
  settled_at_ms : option Z;
  pending_names : list PendingName;
}.
#[global] Instance TransactionRecord_eq_dec : EqDecision TransactionRecord.
Proof. solve_decision. Defined.

(** [TransactionRecord::recorded] *)
Definition recorded (tx_final : string) (action : QualifiedName) (owner : string)
    (input_files output_files : list string) (grounding_root : string) (grounding_block : Z)
    (nullifiers created : list string) (recorded_at_ms : Z) : TransactionRecord :=
  MkRecord tx_final action owner input_files output_files grounding_root grounding_block
    nullifiers created Recorded None None None None recorded_at_ms None None None [].

Definition is_open (r : TransactionRecord) : bool := negb (is_terminal (state r)).

Definition needs_tx_status (r : TransactionRecord) : bool :=
  is_open r && (negb (bool_decide (submit_attempted_at_ms r = None)) || bool_decide (state r = Submitted)).

(** *** The machine *)

Inductive WriteOutcome : Type :=
| Written
| NotWritten (m : string)
| Torn (kept : nat) (m : string).

Inductive RemoveOutcome : Type :=
| Removed
| RemovedPartly (payload_gone record_gone : bool) (m : string).

Class Machine : Type := {
  Env : Type;
  CreationProof : Type;
  CreationProof_eq_dec : EqDecision CreationProof;
  now_ms : Env -> Z * Env;
  (** A call that reads, and one that changes something: it takes effect or
      fails without effect. *)
  io_read : Env -> option string * Env;
  io : Env -> option string * Env;
  io_write : Env -> WriteOutcome * Env;
  io_remove_dir : Env -> RemoveOutcome * Env;
}.
#[global] Existing Instance CreationProof_eq_dec.

Record ObjectMetadata `{Machine} : Type := {
  class : QualifiedName;
  content_hash : Hash;
  status : FileStatus;
  producer : Hash;
  ob_tx_hash : option string;
  creation_proof : option CreationProof;
}.

Record ObjectRecord `{Machine} : Type := { metadata : ObjectMetadata; obj : Dictionary }.

Definition is_nullified `{Machine} (r : ObjectRecord) : bool :=
  bool_decide (status (metadata r) = Nullified).

Record TxDir : Type := { payload : option (list byte); record : option (option TransactionRecord) }.
Definition empty_dir : TxDir := {| payload := None; record := None |}.

(** The names a pass under the store lock has reported so far: files it
    changed, and live names it removed. *)
Record Report : Type := { changed_files : gset string; removed_files : list string }.
Definition empty_report : Report := {| changed_files := ∅; removed_files := [] |}.

Record World `{Machine} : Type := MkWorld {
  objects : gmap string (option ObjectRecord);
  nullified : gmap string (option ObjectRecord);
  discarded : gset string;
  transactions : gmap string TxDir;
  owners : gmap string string;
  reconciled : gmap string TransactionRecord;
  report : Report;
  env : Env;
}.

Section Disk.
Context `{Machine}.

Definition set_objects (o : gmap string (option ObjectRecord)) (w : World) : World :=
  MkWorld _ o (nullified w) (discarded w) (transactions w) (owners w) (reconciled w) (report w) (env w).
Definition set_nullified (o : gmap string (option ObjectRecord)) (w : World) : World :=
  MkWorld _ (objects w) o (discarded w) (transactions w) (owners w) (reconciled w) (report w) (env w).
Definition set_transactions (t : gmap string TxDir) (w : World) : World :=
  MkWorld _ (objects w) (nullified w) (discarded w) t (owners w) (reconciled w) (report w) (env w).
Definition set_owners (o : gmap string string) (w : World) : World :=
  MkWorld _ (objects w) (nullified w) (discarded w) (transactions w) o (reconciled w) (report w) (env w).
Definition set_reconciled (r : gmap string TransactionRecord) (w : World) : World :=
  MkWorld _ (objects w) (nullified w) (discarded w) (transactions w) (owners w) r (report w) (env w).
Definition set_report (r : Report) (w : World) : World :=
  MkWorld _ (objects w) (nullified w) (discarded w) (transactions w) (owners w) (reconciled w) r (env w).
Definition set_env (e : Env) (w : World) : World :=
  MkWorld _ (objects w) (nullified w) (discarded w) (transactions w) (owners w) (reconciled w) (report w) e.

Definition on_env {A} (c : eff Env A) : eff World A := fun w =>
  let '(r, e) := c (env w) in (r, set_env e w).

Definition clock : eff World Z := on_env (fun e => let '(t, e') := now_ms e in (Ok t, e')).

Definition fs_call : eff World unit := on_env (fun e =>
  match io e with
  | (None, e') => (Ok tt, e')
  | (Some m, e') => (Err (Fail m), e')
  end).

Definition fs_read : eff World unit := on_env (fun e =>
  match io_read e with
  | (None, e') => (Ok tt, e')
  | (Some m, e') => (Err (Fail m), e')
  end).

Definition modify (f : World -> World) : eff World unit := fun w => (Ok tt, f w).

(** [changed_files.extend(names)] and [removed_files.extend(names)]; a pass
    starts with both empty. *)
Definition note_changed (names : list string) : eff World unit :=
  modify (fun w => set_report {| changed_files := list_to_set names ∪ changed_files (report w);
                                 removed_files := removed_files (report w) |} w).
Definition note_removed (names : list string) : eff World unit :=
  modify (fun w => set_report {| changed_files := changed_files (report w);
                                 removed_files := removed_files (report w) ++ names |} w).
Definition start_report : eff World unit := modify (set_report empty_report).

(** [fs::write] of a JSON file. *)
Definition fs_write {X} (put : option X -> World -> World) (x : X) : eff World unit := fun w =>
  let '(o, e) := io_write (env w) in
  match o with
  | Written => (Ok tt, put (Some x) (set_env e w))
  | NotWritten m => (Err (Fail m), set_env e w)
  | Torn _ m => (Err (Fail m), put None (set_env e w))
  end.

(** The two object directories; [true] is the nullified one. *)
Definition dir_of (in_nullified : bool) (w : World) : gmap string (option ObjectRecord) :=
  if in_nullified then nullified w else objects w.
Definition set_dir (in_nullified : bool) (d : gmap string (option ObjectRecord)) (w : World) : World :=
  if in_nullified then set_nullified d w else set_objects d w.

(** [fs::remove_file]: [false] when the file is not there. *)
Definition remove_file (in_nullified : bool) (name : string) : eff World bool :=
  fs_call ;!
  let! w := eget in
  match dir_of in_nullified w !! name with
  | None => eret false
  | Some _ => modify (set_dir in_nullified (delete name (dir_of in_nullified w))) ;! eret true
  end.

(** [Path::try_exists] *)
Definition try_exists (in_nullified : bool) (name : string) : eff World bool :=
  fs_read ;! eread (fun w => Ok (negb (bool_decide (dir_of in_nullified w !! name = None)))).

(** [parse_object_record_file] *)
Definition parse_object_record_file (in_nullified : bool) (name : string) : eff World ObjectRecord :=
  fs_read ;!
  eread (fun w => match dir_of in_nullified w !! name with
                  | None => Err (Fail ("failed to read input file " +:+ name))
                  | Some None => Err (Fail ("failed to parse " +:+ name +:+ " as object file"))
                  | Some (Some r) => Ok r
                  end).

(** *** [object_store.rs] *)

Definition is_dobj_file (name : string) : bool :=
  match strip_suffix extension (los name) with Some (_ :: _) => true | _ => false end.

Definition ensure_store_dirs : eff World unit := fs_call ;! fs_call ;! fs_call ;! fs_call.

Definition write_object_file (r : ObjectRecord) (name : string) : eff World unit :=
  let spent := is_nullified r in
  ensure_store_dirs ;!
  fs_write (fun c w => set_dir spent (<[name := c]> (dir_of spent w)) w) r ;!
  let! _ := etry (remove_file (negb spent) name) in
  eret tt.

Definition has_custom_file_name `{Pod2} (name : string) (r : ObjectRecord) : bool :=
  match object_file_name (class (metadata r)) (obj r) with
  | Ok generated => negb (bool_decide (generated = name))
  | Err _ => false
  end.

(** [Path::exists] reports an error as absence; the model's check is exact. *)
Definition store_has_file (w : World) (name : string) : bool :=
  bool_decide (is_Some (objects w !! name)) || bool_decide (is_Some (nullified w !! name))
  || bool_decide (name ∈ discarded w).

(** More than the names [store_has_file] can report. *)
Definition name_fuel (w : World) : nat :=
  S (size (objects w) + size (nullified w) + size (discarded w)).

Definition nullify_object_file `{Pod2} (r : ObjectRecord) (name : string) : eff World string :=
  let spent_name := match object_file_name (class (metadata r)) (obj r) with Ok n => n | Err _ => name end in
  write_object_file r spent_name ;!
  (if bool_decide (spent_name = name) then eret tt
   else let! _ := remove_file false name in eret tt) ;!
  eret spent_name.

Definition rename_live_object_file (from to : string) : eff World unit :=
  (if eq_ignore_ascii_case to from then eret tt
   else let! exists_ := try_exists false to in
        if (exists_ : bool) then ethrow (Fail ("object file " +:+ to +:+ " already exists")) else eret tt) ;!
  fs_call ;!
  let! w := eget in
  match objects w !! from with
  | None => ethrow (Fail ("failed to rename object file " +:+ from +:+ " to " +:+ to))
  | Some c => modify (set_objects (<[to := c]> (delete from (objects w))))
  end.

(** One directory entry of [load_object_files_from_dir]. *)
Definition load_entry (in_nullified : bool) (acc : gmap string ObjectRecord)
    (entry : string * option ObjectRecord) : eff World (gmap string ObjectRecord) :=
  fs_read ;!
  let '(name, contents) := entry in
  if negb (is_dobj_file name) then eret acc
  else
    let! read := etry fs_read in
    match read, contents with
    | Ok _, Some r =>
        if negb (bool_decide (is_nullified r = in_nullified)) then
          ethrow (Fail ("invalid object placement for " +:+ name))
        else if bool_decide (is_Some (acc !! name)) then
          ethrow (Fail ("duplicate object file name detected across object directories: " +:+ name))
        else eret (<[name := r]> acc)
    | _, _ => eret acc
    end.

Definition load_object_files_from_dir (in_nullified : bool) (acc : gmap string ObjectRecord) :
    eff World (gmap string ObjectRecord) :=
  fs_read ;!
  let! w := eget in
  efold (load_entry in_nullified) acc (map_to_list (dir_of in_nullified w)).

(** The entries, sorted by file name. *)
Definition name_le {A} (a b : string * A) : Prop := String.le (fst a) (fst b).
#[local] Instance name_le_dec {A} (a b : string * A) : Decision (name_le a b).
Proof. unfold name_le. apply _. Defined.

Definition load_object_files : eff World (list (string * ObjectRecord)) :=
  ensure_store_dirs ;!
  let! live := load_object_files_from_dir false ∅ in
  let! all := load_object_files_from_dir true live in
  eret (merge_sort name_le (map_to_list all)).
End Disk.

(** *** [transactions.rs] *)

Section Transactions.
Context `{Machine, Pod2}.

Definition transaction_dir (h : Hash) : string := encode_hash_hex h.

Definition record_tx_final (r : TransactionRecord) : Result Hash :=
  match decode_hash_hex (tx_final r) with
  | Err (Fail m) => Err (Fail ("record " +:+ tx_final r +:+ " has an unreadable txFinal: " +:+ m))
  | r => r
  end.

Definition dir_entry (key : string) (w : World) : TxDir := default empty_dir (transactions w !! key).

Definition read_record_file (contents : option TransactionRecord) : eff World TransactionRecord :=
  fs_read ;!
  match contents with
  | Some r => eret r
  | None => ethrow (Fail "failed to parse record")
  end.

Definition load_record_entry (acc : list TransactionRecord) (entry : string * TxDir) :
    eff World (list TransactionRecord) :=
  fs_read ;!
  match record (snd entry) with
  | None => eret acc
  | Some contents =>
      let! read := etry (read_record_file contents) in
      match read with
      | Ok r => eret (acc ++ [r])
      | Err _ => eret acc
      end
  end.

(** [sort_by_key((recorded_at_ms, tx_final))] *)
Definition record_le (a b : TransactionRecord) : Prop :=
  recorded_at_ms a < recorded_at_ms b
  \/ (recorded_at_ms a = recorded_at_ms b /\ String.le (tx_final a) (tx_final b)).
#[local] Instance record_le_dec a b : Decision (record_le a b).
Proof. unfold record_le. apply _. Defined.

Definition load_records : eff World (list TransactionRecord) :=
  fs_read ;!
  let! w := eget in
  let! records := efold load_record_entry [] (map_to_list (transactions w)) in
  eret (merge_sort record_le records).

Definition read_record (h : Hash) : eff World (option TransactionRecord) :=
  let! w := eget in
  match record (dir_entry (transaction_dir h) w) with
  | None => eret None
  | Some contents => let! r := read_record_file contents in eret (Some r)
  end.

Definition create_tx_dir (key : string) : eff World unit :=
  fs_call ;!
  modify (fun w => set_transactions (<[key := dir_entry key w]> (transactions w)) w).

Definition put_payload (key : string) (bytes : list byte) (w : World) : World :=
  set_transactions
    (<[key := {| payload := Some bytes; record := record (dir_entry key w) |}]> (transactions w)) w.

Definition put_record (key : string) (r : TransactionRecord) (w : World) : World :=
  set_transactions
    (<[key := {| payload := payload (dir_entry key w); record := Some (Some r) |}]> (transactions w)) w.

Definition write_payload (h : Hash) (bytes : list byte) : eff World unit :=
  create_tx_dir (transaction_dir h) ;!
  (fun w => let '(o, e) := io_write (env w) in
     match o with
     | Written => (Ok tt, put_payload (transaction_dir h) bytes (set_env e w))
     | NotWritten m => (Err (Fail m), set_env e w)
     | Torn k m => (Err (Fail m), put_payload (transaction_dir h) (take k bytes) (set_env e w))
     end).

Definition read_payload (h : Hash) : eff World (list byte) :=
  fs_read ;!
  eread (fun w => ok_or (payload (dir_entry (transaction_dir h) w)) "failed to read payload").

(** The record is written to a temporary file, which no one reads, and renamed. *)
Definition write_record (r : TransactionRecord) : eff World unit :=
  let! h := elift (record_tx_final r) in
  create_tx_dir (transaction_dir h) ;!
  fs_write (fun _ w => w) r ;!
  fs_call ;!
  modify (put_record (transaction_dir h) r).

Definition remove_transaction (h : Hash) : eff World unit := fun w =>
  let key := transaction_dir h in
  match transactions w !! key with
  | None => (Ok tt, w)
  | Some d =>
      let '(o, e) := io_remove_dir (env w) in
      match o with
      | Removed => (Ok tt, set_transactions (delete key (transactions w)) (set_env e w))
      | RemovedPartly p r m =>
          (Err (Fail m), set_transactions (<[key :=
             {| payload := if p then None else payload d; record := if r then None else record d |}]>
             (transactions w)) (set_env e w))
      end
  end.

Definition locked_inputs (records : list TransactionRecord) : gset string :=
  list_to_set (r ← filter (fun r => is_open r = true) records; input_files r).
End Transactions.

(** *** [holds.rs] *)

Section Holds.
Context `{Machine}.

Definition claim (label : string) (files : list string) (o : gmap string string) : gmap string string :=
  foldl (fun o f => <[f := label]> o) o files.
Definition release (files : list string) (o : gmap string string) : gmap string string :=
  foldl (fun o f => delete f o) o files.

(** The first file that cannot be claimed. *)
Fixpoint check_claims (files : list string) (locked : gset string) (o : gmap string string) : Result unit :=
  match files with
  | [] => Ok tt
  | f :: files' =>
      match o !! f with
      | Some owner => Err (Fail ("conflict: input " +:+ f +:+ " is held by " +:+ owner))
      | None =>
          if decide (f ∈ locked)
          then Err (Fail ("conflict: input " +:+ f +:+ " is spent by a transaction awaiting the chain"))
          else check_claims files' locked o
      end
  end.

(** [HoldTable::take]: the files held. *)
Definition take_holds (files : list string) (label : string) (locked : gset string) :
    eff World (list string) :=
  let! w := eget in
  elift (check_claims files locked (owners w)) ;!
  modify (set_owners (claim label files (owners w))) ;!
  eret files.

(** [Drop for Holds] *)
Definition drop_holds (files : list string) (w : World) : World :=
  set_owners (release files (owners w)) w.
End Holds.

(** ** Frames

    Which operations leave the transaction directories and the holds alone. *)

Section Frames.
Context `{Machine} (I : gmap string TxDir -> gmap string string -> Prop).

Definition framed (w : World) : Prop := I (transactions w) (owners w).

Lemma framed_on_env {A} (c : eff Env A) : preserves framed (on_env c).
Proof. intros w Hw. unfold wp, on_env. by destruct (c (env w)) as [[a|f] e]. Qed.

Lemma framed_fs_call : preserves framed fs_call.
Proof. apply framed_on_env. Qed.
Lemma framed_fs_read : preserves framed fs_read.
Proof. apply framed_on_env. Qed.
Lemma framed_clock : preserves framed clock.
Proof. apply framed_on_env. Qed.

Lemma framed_modify_dir b d : preserves framed (modify (set_dir b d)).
Proof. intros w Hw. by destruct b. Qed.

Lemma framed_modify_objects d : preserves framed (modify (set_objects d)).
Proof. by intros w Hw. Qed.

Lemma framed_note_changed l : preserves framed (note_changed l).
Proof. by intros w Hw. Qed.
Lemma framed_note_removed l : preserves framed (note_removed l).
Proof. by intros w Hw. Qed.
Lemma framed_start_report : preserves framed start_report.
Proof. by intros w Hw. Qed.

Lemma framed_fs_write {X} (put : option X -> World -> World) x :
  (forall c w, transactions (put c w) = transactions w /\ owners (put c w) = owners w) ->
  preserves framed (fs_write put x).
Proof.
  intros Hput w Hw. unfold wp, fs_write. destruct (io_write (env w)) as [[|m|k m] e]; try done;
    unfold framed; destruct (Hput (Some x) (set_env e w)) as [-> ->] || idtac; try done.
  destruct (Hput None (set_env e w)) as [-> ->]. done.
Qed.
#[local] Hint Resolve framed_on_env framed_fs_call framed_fs_read framed_clock framed_modify_dir
  framed_modify_objects framed_note_changed framed_note_removed framed_start_report : don.

Lemma framed_remove_file b n : preserves framed (remove_file b n).
Proof. unfold remove_file. keeps. Qed.
Lemma framed_try_exists b n : preserves framed (try_exists b n).
Proof. unfold try_exists. keeps. Qed.
Lemma framed_parse b n : preserves framed (parse_object_record_file b n).
Proof. unfold parse_object_record_file. keeps. Qed.
Lemma framed_ensure : preserves framed ensure_store_dirs.
Proof. unfold ensure_store_dirs. keeps. Qed.
#[local] Hint Resolve framed_remove_file framed_try_exists framed_parse framed_ensure : don.

Lemma framed_write_object_file r n : preserves framed (write_object_file r n).
Proof.
  unfold write_object_file. apply preserves_bind; [auto with don|]. intros _.
  apply preserves_bind; [|keeps]. apply framed_fs_write. intros c w. by destruct (is_nullified r).
Qed.
#[local] Hint Resolve framed_write_object_file : don.

Lemma framed_nullify `{Pod2} r n : preserves framed (nullify_object_file r n).
Proof. unfold nullify_object_file. keeps. Qed.
Lemma framed_rename from to : preserves framed (rename_live_object_file from to).
Proof. unfold rename_live_object_file. keeps. Qed.
Lemma framed_load_dir b acc : preserves framed (load_object_files_from_dir b acc).
Proof. unfold load_object_files_from_dir, load_entry. keeps. Qed.
#[local] Hint Resolve framed_load_dir : don.
Lemma framed_load_object_files : preserves framed load_object_files.
Proof. unfold load_object_files. keeps. Qed.

Lemma framed_read_record_file c : preserves framed (read_record_file c).
Proof. unfold read_record_file. keeps. Qed.
#[local] Hint Resolve framed_read_record_file : don.
Lemma framed_load_records : preserves framed load_records.
Proof. unfold load_records, load_record_entry. keeps. Qed.
Lemma framed_read_record `{Pod2} h : preserves framed (read_record h).
Proof. unfold read_record. keeps. Qed.
Lemma framed_read_payload `{Pod2} h : preserves framed (read_payload h).
Proof. unfold read_payload. keeps. Qed.
End Frames.

#[export] Hint Resolve framed_on_env framed_fs_call framed_fs_read framed_clock framed_modify_dir
  framed_note_changed framed_note_removed framed_start_report framed_remove_file framed_try_exists framed_parse framed_ensure framed_write_object_file
  framed_nullify framed_rename framed_load_dir framed_load_object_files framed_read_record_file
  framed_load_records framed_read_record framed_read_payload : don.


(** ** Records on disk *)

(** The record stored under a directory name. *)
Definition rec_at (t : gmap string TxDir) (key : string) : option TransactionRecord :=
  match t !! key with
  | Some d => match record d with Some (Some r) => Some r | _ => None end
  | None => None
  end.

(** No record file fails to parse. *)
Definition untorn (t : gmap string TxDir) : Prop :=
  forall key d, t !! key = Some d -> record d <> Some None.

Definition reads_ok `{Machine} : Prop := forall e, fst (io_read e) = None.

(** The transaction directories and holds are those of [w0]. *)
Definition same_tx `{Machine} (w0 w : World) : Prop :=
  transactions w = transactions w0 /\ owners w = owners w0.

Lemma same_tx_framed `{Machine} w0 :
  forall w, same_tx w0 w <-> framed (fun t o => t = transactions w0 /\ o = owners w0) w.
Proof. done. Qed.

(** A framed operation, run from [w]. *)
Lemma wp_framed `{Machine} {A} (c : eff World A) w0 w :
  (forall I, preserves (framed I) c) -> same_tx w0 w ->
  wp c (fun _ => same_tx w0) (fun _ => same_tx w0) w.
Proof. intros Hc Hw. by apply (Hc (fun t o => t = transactions w0 /\ o = owners w0)). Qed.

Lemma fs_read_ok `{Machine} w : reads_ok -> exists e, fs_read w = (Ok tt, set_env e w).
Proof.
  intros Hr. unfold fs_read, on_env. specialize (Hr (env w)).
  destruct (io_read (env w)) as [[m|] e]; [done|]. by exists e.
Qed.

Section Records.
Context `{Machine, Pod2}.

Lemma load_record_entry_spec w0 acc entry w :
  same_tx w0 w ->
  wp (load_record_entry acc entry)
    (fun acc' w' => same_tx w0 w'
       /\ (forall r, r ∈ acc' -> r ∈ acc \/ record (snd entry) = Some (Some r))
       /\ (reads_ok -> forall r, r ∈ acc \/ record (snd entry) = Some (Some r) -> r ∈ acc'))
    (fun _ => same_tx w0) w.
Proof.
  intros Hw. unfold load_record_entry. apply wp_bind.
  eapply wp_mono; [apply (wp_framed _ w0 w); [auto with don|done]| |done].
  intros [] w1 Hw1. destruct (record (snd entry)) as [c|] eqn:Ec.
  2: { apply wp_ret. split; [done|]. naive_solver. }
  unfold wp, etry, ebind. destruct c as [r|].
  - unfold read_record_file, ebind. destruct (fs_read w1) as [[[]|[m|m]] w2] eqn:Ef.
    + assert (Hw2 : same_tx w0 w2).
      { unfold fs_read, on_env in Ef. by destruct (io_read (env w1)) as [[|] e]; simplify_eq. }
      simpl. split; [done|]. setoid_rewrite elem_of_app. setoid_rewrite list_elem_of_singleton.
      split; naive_solver.
    + assert (Hw2 : same_tx w0 w2).
      { unfold fs_read, on_env in Ef. by destruct (io_read (env w1)) as [[|] e]; simplify_eq. }
      simpl. split_and!; [done|naive_solver|]. intros Hr. exfalso.
      destruct (fs_read_ok w1 Hr) as [e He]. congruence.
    + unfold fs_read, on_env in Ef. destruct (io_read (env w1)) as [[|] e]; simplify_eq.
  - unfold read_record_file, ebind. destruct (fs_read w1) as [[[]|[m|m]] w2] eqn:Ef;
      (assert (Hw2 : same_tx w0 w2)
        by (unfold fs_read, on_env in Ef; by destruct (io_read (env w1)) as [[|] e]; simplify_eq));
      simpl; try done; (split; [done|naive_solver]).
Qed.

Lemma load_records_spec w0 w :
  same_tx w0 w ->
  wp load_records
    (fun l w' => same_tx w0 w'
       /\ (forall r, r ∈ l -> exists key, rec_at (transactions w0) key = Some r)
       /\ (reads_ok -> forall key r, rec_at (transactions w0) key = Some r -> r ∈ l))
    (fun _ => same_tx w0) w.
Proof.
  intros Hw. unfold load_records. apply wp_bind.
  eapply wp_mono; [apply (wp_framed _ w0 w); [auto with don|done]| |done].
  intros [] w1 Hw1. apply wp_bind. unfold wp at 1; simpl. apply wp_bind.
  assert (Ht1 : transactions w1 = transactions w0) by apply Hw1. rewrite Ht1.
  set (Inv := fun (pre : list (string * TxDir)) (acc : list TransactionRecord) w' =>
    same_tx w0 w' /\ (forall r, r ∈ acc -> exists e, e ∈ pre /\ record (snd e) = Some (Some r))
    /\ (reads_ok -> forall e r, e ∈ pre -> record (snd e) = Some (Some r) -> r ∈ acc)).
  eapply wp_mono; [apply (wp_fold _ Inv (fun _ => same_tx w0))| |done].
  - split_and!; [done|..].
    + intros r Hr. by apply not_elem_of_nil in Hr.
    + intros _ e r He. by apply not_elem_of_nil in He.
  - intros pre entry acc w2 (Hw2 & Hs & Hc).
    eapply wp_mono; [by apply load_record_entry_spec| |done].
    intros acc' w3 (Hw3 & Hs' & Hc'). split_and!; [done|..].
    + intros r [Hr|Hr]%Hs'; [destruct (Hs r Hr) as (e & ? & ?)|]; eexists; rewrite elem_of_app; [eauto|].
      split; [by right; apply list_elem_of_singleton|done].
    + intros Hro e r [He|He%list_elem_of_singleton]%elem_of_app Hr; apply Hc'; try done; [left; eauto|right; by subst].
  - intros l w2 (Hw2 & Hs & Hc). apply wp_ret. split; [done|].
    assert (Hin : forall r, r ∈ merge_sort record_le l <-> r ∈ l)
      by (intros r; by rewrite (merge_sort_Permutation record_le l)).
    setoid_rewrite Hin. unfold rec_at. split.
    + intros r Hr. destruct (Hs r Hr) as ([key d] & Hd & Hrec). exists key.
      apply elem_of_map_to_list in Hd. simpl in *. by rewrite Hd, Hrec.
    + intros Hro key r Hr. destruct (transactions w0 !! key) as [d|] eqn:Hd; [|done].
      destruct (record d) as [[r'|]|] eqn:Hrec; simplify_eq.
      apply (Hc Hro (key, d)); [by apply elem_of_map_to_list|done].
Qed.

Lemma read_record_spec w0 h w :
  same_tx w0 w ->
  wp (read_record h)
    (fun o w' => same_tx w0 w' /\ rec_at (transactions w0) (transaction_dir h) = o)
    (fun _ => same_tx w0) w.
Proof.
  intros Hw. unfold read_record. apply wp_bind. unfold wp at 1; simpl. unfold dir_entry, rec_at.
  destruct Hw as [Ht Ho]. rewrite Ht. destruct (transactions w0 !! _) as [d|]; simpl; [|by apply wp_ret].
  destruct (record d) as [c|]; [|by apply wp_ret]. apply wp_bind.
  unfold read_record_file. apply wp_bind.
  eapply wp_mono; [apply (wp_framed _ w0 w); [auto with don|done]| |done].
  intros [] w1 Hw1. destruct c as [r|]; [by apply wp_ret, wp_ret|done].
Qed.
End Records.


(** ** The record map

    All records on disk, by directory name, and how the writing operations
    change it. *)
Definition recs (t : gmap string TxDir) : gmap string TransactionRecord :=
  omap (fun d => match record d with Some (Some r) => Some r | _ => None end) t.

Lemma recs_lookup t key : recs t !! key = rec_at t key.
Proof. unfold recs, rec_at. rewrite lookup_omap. by destruct (t !! key). Qed.

Lemma recs_insert_None t key d :
  record d = None \/ record d = Some None -> recs (<[key := d]> t) = delete key (recs t).
Proof. intros [Hd|Hd]; unfold recs; by rewrite (omap_insert_None _ _ _ d) by (by rewrite Hd). Qed.

Lemma recs_insert_Some t key d r :
  record d = Some (Some r) -> recs (<[key := d]> t) = <[key := r]> (recs t).
Proof. intros Hd. unfold recs. by rewrite (omap_insert_Some _ _ _ _ r) by (by rewrite Hd). Qed.

Lemma recs_delete t key : recs (delete key t) = delete key (recs t).
Proof. unfold recs. by rewrite omap_delete. Qed.

(** Rewriting an entry without changing its record. *)
Lemma recs_same_record t key d :
  record d = record (default empty_dir (t !! key)) -> recs (<[key := d]> t) = recs t.
Proof.
  intros Hd. apply map_eq. intros k. rewrite !recs_lookup. unfold rec_at.
  destruct (decide (k = key)) as [->|Hk]; [|by rewrite lookup_insert_ne].
  rewrite lookup_insert_eq. by destruct (t !! key) as [d'|]; simpl in Hd; rewrite Hd.
Qed.

Lemma untorn_insert t key d : untorn t -> record d <> Some None -> untorn (<[key := d]> t).
Proof. intros Ht Hd k d' [[<- <-]|[_ Hk]]%lookup_insert_Some; [done|by eapply Ht]. Qed.

Lemma untorn_default t key : untorn t -> record (default empty_dir (t !! key)) <> Some None.
Proof. intros Ht. destruct (t !! key) as [d|] eqn:Hd; simpl; [by eapply Ht|done]. Qed.

Section Tracking.
Context `{Machine, Pod2} (F : gmap string TransactionRecord -> gmap string string -> Prop).

Definition tracked (w : World) : Prop :=
  untorn (transactions w) /\ F (recs (transactions w)) (owners w).

Lemma tracked_of_framed {A} (c : eff World A) :
  (forall I, preserves (framed I) c) -> preserves tracked c.
Proof. intros Hc. apply (Hc (fun t o => untorn t /\ F (recs t) o)). Qed.

Lemma tracked_create key : preserves tracked (create_tx_dir key).
Proof.
  unfold create_tx_dir. apply preserves_bind; [apply tracked_of_framed; auto with don|].
  intros _ w [Hu HF]. unfold wp, modify, tracked; simpl. unfold dir_entry. split.
  - apply untorn_insert; [done|by apply untorn_default].
  - by rewrite recs_same_record.
Qed.

Lemma tracked_put_payload key b w : tracked w -> tracked (put_payload key b w).
Proof.
  intros [Hu HF]. unfold tracked, put_payload; simpl. unfold dir_entry. split.
  - apply untorn_insert; [done|by apply untorn_default].
  - by rewrite recs_same_record.
Qed.

Lemma tracked_write_payload h b : preserves tracked (write_payload h b).
Proof.
  unfold write_payload. apply preserves_bind; [apply tracked_create|].
  intros _ w Hw. unfold wp. destruct (io_write (env w)) as [[|m|k m] e]; try done;
    by apply tracked_put_payload.
Qed.

Lemma tracked_write_record r h :
  record_tx_final r = Ok h -> transaction_dir h = tx_final r ->
  (forall m o, F m o -> F (<[tx_final r := r]> m) o) -> preserves tracked (write_record r).
Proof.
  intros Hr Hd HF. unfold write_record. apply preserves_lift_bind. intros h' Hh'. rewrite Hr in Hh'. injection Hh' as <-.
  apply preserves_bind; [apply tracked_create|]. intros _.
  apply preserves_bind; [apply tracked_of_framed; intros; by apply framed_fs_write|]. intros _.
  apply preserves_bind; [apply tracked_of_framed; auto with don|].
  intros _ w [Hu HFw]. unfold wp, modify, tracked, put_record; simpl. rewrite Hd. split.
  - by apply untorn_insert.
  - rewrite (recs_insert_Some _ _ _ r) by done. by apply HF.
Qed.

Lemma tracked_remove_transaction h :
  (forall m o, F m o -> F (delete (transaction_dir h) m) o) -> preserves tracked (remove_transaction h).
Proof.
  intros HF w [Hu HFw]. unfold wp, remove_transaction.
  destruct (transactions w !! transaction_dir h) as [d|] eqn:Hd; [|done].
  destruct (io_remove_dir (env w)) as [[|p r m] e]; unfold tracked; simpl.
  - split; [|rewrite recs_delete; by apply HF].
    intros k d' [_ Hk]%lookup_delete_Some. by eapply Hu.
  - split; [apply untorn_insert; [done|simpl; destruct r; [done|by eapply Hu]]|].
    destruct r; simpl; [by rewrite recs_insert_None by auto; apply HF|].
    by rewrite recs_same_record by (simpl; by rewrite Hd).
Qed.
End Tracking.

#[export] Hint Resolve tracked_create tracked_write_payload : don.

End DriverStore.
