(* ===== verification/Driver.v ===== *)
(** * The driver's transaction pipeline (libs/driver/src/pipeline.rs)

    A proved transaction is recorded (outputs, payload, then the record),
    submitted to the relayer, and settled against the synchronizer: landed,
    rejected or expired. The synchronizer and the relayer are parameters that
    may answer anything. [record], [delete_transaction], [update_record],
    the second half of [settle_with] and [prune_transactions] run under the
    store lock, so each is one step; between the steps of [submit] and the two
    halves of a settlement other steps may run. *)

From S2P Require Import Prelude Pod2 Models TxModel Payload DonState ContainerDb StateMachine Relayer ObjectNames DriverStore.

Module Driver.
Import Payload DonState ObjectNames DriverStore.
Import TxModel(object_nullifier_hash).
Local Open Scope Z_scope.

(** ** Definitions *)

Record ProvedOutput : Type := { po_class : QualifiedName; po_obj : Dictionary }.
Record MutatedObjectSlots : Type := { input_index : nat; output_index : nat }.

Record ProvedTransaction : Type := {
  pt_tx_final : Hash;
  pt_action : QualifiedName;
  pt_owner : string;
  pt_grounding_root : Hash;
  pt_grounding_block : Z;
  outputs : list ProvedOutput;
  pt_nullifiers : list Hash;
  pt_created : list Hash;
  pt_payload_bytes : list byte;
  mutated_objects : list MutatedObjectSlots;
  (** The files of its [holds]. *)
  pt_input_files : list string;
}.

Record TxStatus : Type := { st_tx_hash : string; st_block_number : Z; st_error : option string }.
Record Membership : Type := {
  created_objects : gset Hash;
  on_chain_nullifiers : gset Hash;
  mb_block_number : Z;
}.
(** The responses of the relayer, with the fields the driver reads. *)
Record SubmitResponse : Type := { sr_job_id : string; sr_status : Relayer.JobStatus }.
Record JobInfo : Type := { ji_tx_hash : option string; ji_status : Relayer.JobStatus; ji_last_error : option string }.

(** The clients of the synchronizer and the relayer. *)
Class Clients `{Machine} : Type := {
  load_settings : eff Env unit;
  fetch_head : eff Env Z;
  fetch_tx_status : Hash -> eff Env (option TxStatus);
  fetch_membership : list Hash -> list Hash -> eff Env Membership;
  fetch_grounding_witness : list Hash -> eff Env (list (Hash * CreationProof));
  submit_proof : list byte -> option string -> eff Env SubmitResponse;
  fetch_job_status : string -> eff Env JobInfo;
  is_unreachable : string -> bool;
}.

Definition MAX_AGE_TEXT : string := pretty MAX_STATE_ROOT_AGE_BLOCKS.
Definition TRANSACTION_RETENTION_MS : Z := 600000.

(** Assignments to record fields. *)
Definition set_pending_names (v : list PendingName) (r : TransactionRecord) : TransactionRecord :=
  let '(MkRecord f a o i u gr gb n c s j h rf re ra sa sm se p) := r in
  MkRecord f a o i u gr gb n c s j h rf re ra sa sm se v.
Definition set_attempted (v : option Z) (r : TransactionRecord) : TransactionRecord :=
  let '(MkRecord f a o i u gr gb n c s j h rf re ra sa sm se p) := r in
  MkRecord f a o i u gr gb n c s j h rf re ra v sm se p.
Definition set_submitted (job : string) (at_ : Z) (r : TransactionRecord) : TransactionRecord :=
  let '(MkRecord f a o i u gr gb n c s j h rf re ra sa sm se p) := r in
  MkRecord f a o i u gr gb n c Submitted (Some job) h rf re ra sa (Some at_) se p.
Definition set_relayer_failure (v : option string) (r : TransactionRecord) : TransactionRecord :=
  let '(MkRecord f a o i u gr gb n c s j h rf re ra sa sm se p) := r in
  MkRecord f a o i u gr gb n c s j h v re ra sa sm se p.
Definition set_tx_hash (v : option string) (r : TransactionRecord) : TransactionRecord :=
  let '(MkRecord f a o i u gr gb n c s j h rf re ra sa sm se p) := r in
  MkRecord f a o i u gr gb n c s j v rf re ra sa sm se p.
Definition set_settled (st : TransactionState) (at_ : Z) (r : TransactionRecord) : TransactionRecord :=
  let '(MkRecord f a o i u gr gb n c s j h rf re ra sa sm se p) := r in
  MkRecord f a o i u gr gb n c st j h rf re ra sa sm (Some at_) p.
Definition set_reason (v : option string) (r : TransactionRecord) : TransactionRecord :=
  let '(MkRecord f a o i u gr gb n c s j h rf re ra sa sm se p) := r in
  MkRecord f a o i u gr gb n c s j h rf v ra sa sm se p.
Definition set_files (i u : list string) (p : list PendingName) (r : TransactionRecord) : TransactionRecord :=
  let '(MkRecord f a o _ _ gr gb n c s j h rf re ra sa sm se _) := r in
  MkRecord f a o i u gr gb n c s j h rf re ra sa sm se p.

Section Pipeline.
Context `{Clients, Pod2}.

(** *** Claiming inputs

    The part of [prove] under the store lock, after its inputs are resolved to
    files. *)
Definition hold_inputs (files : list string) (label : string) : eff World (list string) :=
  let! _ := load_object_files in
  let! records := load_records in
  take_holds files label (locked_inputs records).

(** *** Recording *)

Definition pt_output_files (p : ProvedTransaction) : Result (list string) :=
  try_map (fun o => object_file_name (po_class o) (po_obj o)) (outputs p).

Definition find_entry (entries : list (string * ObjectRecord)) (name : string) : option ObjectRecord :=
  snd <$> (snd <$> list_find (fun e : string * ObjectRecord => fst e = name) entries).

(** The inputs are still live and free. *)
Fixpoint check_inputs (files : list string) (locked : gset string)
    (entries : list (string * ObjectRecord)) : Result unit :=
  match files with
  | [] => Ok tt
  | f :: files' =>
      if decide (f ∈ locked)
      then Err (Fail ("conflict: input " +:+ f +:+ " is spent by a transaction awaiting the chain"))
      else match find_entry entries f with
           | Some e =>
               if decide (status (metadata e) = Live) then check_inputs files' locked entries
               else Err (Fail ("conflict: input " +:+ f +:+ " is no longer live"))
           | None => Err (Fail ("object file not found: " +:+ f))
           end
  end.

(** No output file is there yet. *)
Fixpoint check_outputs (files : list string) : eff World unit :=
  match files with
  | [] => eret tt
  | f :: files' =>
      let! live := try_exists false f in
      let! spent := (if (live : bool) then eret true else try_exists true f) in
      if (spent : bool) then ethrow (Fail ("conflict: output file already exists: " +:+ f))
      else check_outputs files'
  end.

(** One mutated object: its new version takes a pending name. *)
Definition assign_pending_name (w : World) (inputs : list string) (entries : list (string * ObjectRecord))
    (acc : list string * list PendingName) (slots : MutatedObjectSlots) :
    Result (list string * list PendingName) :=
  let '(output_files, pending_names) := acc in
  match inputs !! input_index slots with
  | None => Ok acc
  | Some input =>
      let custom := existsb (fun e : string * ObjectRecord =>
        bool_decide (fst e = input) && has_custom_file_name input (snd e)) entries in
      if negb custom || (length output_files <=? output_index slots)%nat then Ok acc
      else
        let? pending := pending_file_name (name_fuel w + length output_files) input
          (fun name => store_has_file w name || bool_decide (name ∈ output_files)) in
        Ok (<[output_index slots := pending]> output_files,
            pending_names ++ [{| file_name := pending; final_name := input |}])
  end.

Definition assign_pending_names (w : World) (p : ProvedTransaction) (entries : list (string * ObjectRecord))
    (output_files : list string) : Result (list string * list PendingName) :=
  try_fold (assign_pending_name w (pt_input_files p) entries) (output_files, []) (mutated_objects p).

Definition new_record (p : ProvedTransaction) (output_files : list string) (pending : list PendingName)
    (now : Z) : TransactionRecord :=
  set_pending_names pending
    (recorded (encode_hash_hex (pt_tx_final p)) (pt_action p) (pt_owner p) (pt_input_files p)
       output_files (encode_hash_hex (pt_grounding_root p)) (pt_grounding_block p)
       (encode_hash_hex <$> pt_nullifiers p) (encode_hash_hex <$> pt_created p) now).

Definition output_record (p : ProvedTransaction) (o : ProvedOutput) : ObjectRecord :=
  {| metadata := {| class := po_class o; content_hash := dict_commitment (po_obj o);
                    status := Unknown; producer := pt_tx_final p; ob_tx_hash := None;
                    creation_proof := None |};
     obj := po_obj o |}.

(** The writes of [record]: on failure, the outputs attempted so far. *)
Fixpoint write_outputs (p : ProvedTransaction) (files : list (ProvedOutput * string))
    (attempted : list string) : eff World (result failure unit * list string) :=
  match files with
  | [] => eret (Ok tt, attempted)
  | (o, name) :: files' =>
      let! written := etry (write_object_file (output_record p o) name) in
      match written with
      | Ok _ => write_outputs p files' (attempted ++ [name])
      | Err m => eret (Err (Fail m), attempted ++ [name])
      end
  end.

(** Roll back the outputs; a failing removal is only reported. *)
Fixpoint remove_outputs (files : list string) : eff World unit :=
  match files with
  | [] => eret tt
  | f :: files' => let! _ := etry (remove_file false f) in remove_outputs files'
  end.

Definition commit_record (p : ProvedTransaction) (r : TransactionRecord) : eff World unit :=
  let! res := write_outputs p (zip (outputs p) (output_files r)) [] in
  let! res' :=
    (match fst res with
     | Err (Fail m) => eret (Err m)
     | Err (Panic m) => ethrow (Panic m)
     | Ok _ => etry (write_payload (pt_tx_final p) (pt_payload_bytes p) ;! write_record r)
     end) in
  match res' with
  | Ok _ => eret tt
  | Err m =>
      remove_outputs (snd res) ;!
      let! _ := etry (remove_transaction (pt_tx_final p)) in
      ethrow (Fail m)
  end.

Definition record_body (p : ProvedTransaction) : eff World TransactionRecord :=
  let! output_files := elift (pt_output_files p) in
  let! entries := load_object_files in
  let! records := load_records in
  elift (check_inputs (pt_input_files p) (locked_inputs records) entries) ;!
  let! old := read_record (pt_tx_final p) in
  (match old with
   | Some _ => ethrow (Fail ("conflict: transaction " +:+ encode_hash_hex (pt_tx_final p)
                             +:+ " is already recorded"))
   | None => eret tt
   end) ;!
  check_outputs output_files ;!
  let! w := eget in
  let! names := elift (assign_pending_names w p entries output_files) in
  let! now := clock in
  let r := new_record p (fst names) (snd names) now in
  commit_record p r ;!
  eret r.

(** [Driver::record]: the holds are dropped however it ends. *)
Definition record_tx (p : ProvedTransaction) : eff World TransactionRecord :=
  efinally (record_body p) (drop_holds (pt_input_files p)).

(** *** Deletion *)

Fixpoint remove_unknown (h : Hash) (files : list string) : eff World (list string) :=
  match files with
  | [] => eret []
  | f :: files' =>
      let! stored := etry (parse_object_record_file false f) in
      match stored with
      | Err _ => remove_unknown h files'
      | Ok r =>
          if decide (status (metadata r) = Unknown /\ producer (metadata r) = h) then
            let! there := remove_file false f in
            (if (there : bool) then eret tt else ethrow (Fail ("failed to remove output " +:+ f))) ;!
            let! rest := remove_unknown h files' in
            eret (f :: rest)
          else remove_unknown h files'
      end
  end.

Definition remove_unknown_outputs (r : TransactionRecord) : eff World (list string) :=
  let! h := elift (record_tx_final r) in
  remove_unknown h (output_files r).

Definition get_transaction (h : Hash) : eff World TransactionRecord :=
  let! found := read_record h in
  elift (ok_or found ("transaction not found: " +:+ encode_hash_hex h)).

Definition delete_transaction (h : Hash) : eff World (TransactionRecord * list string) :=
  let! r := get_transaction h in
  if negb (bool_decide (state r = Recorded)) then
    ethrow (Fail ("conflict: transaction " +:+ tx_final r +:+ ": only recorded transactions can be deleted"))
  else if negb (bool_decide (submit_attempted_at_ms r = None)) then
    ethrow (Fail ("conflict: transaction " +:+ tx_final r +:+ " was offered to the relayer and may still land"))
  else
    let! removed := remove_unknown_outputs r in
    remove_transaction h ;!
    eret (r, removed).

(** *** Submission *)

Definition update_record (h : Hash) (change : TransactionRecord -> eff World (option TransactionRecord)) :
    eff World (TransactionRecord * bool) :=
  let! r := get_transaction h in
  let! changed := change r in
  match changed with
  | None => eret (r, false)
  | Some r' => write_record r' ;! eret (r', true)
  end.

(** The step before the relayer is contacted. *)
Definition mark_attempted (h : Hash) : eff World (TransactionRecord * bool) :=
  update_record h (fun r =>
    if negb (bool_decide (state r = Recorded)) then eret None
    else match submit_attempted_at_ms r with
         | Some _ => eret (Some r)
         | None => let! t := clock in eret (Some (set_attempted (Some t) r))
         end).

(** The step after the relayer accepted. *)
Definition mark_submitted (h : Hash) (response : SubmitResponse) : eff World (TransactionRecord * bool) :=
  update_record h (fun r =>
    if negb (bool_decide (state r = Recorded)) then eret None
    else
      let! t := clock in
      let r' := set_submitted (sr_job_id response) t r in
      eret (Some (match sr_status response with
                  | Relayer.Failed => set_relayer_failure (Some "relayer job failed") r'
                  | _ => r'
                  end))).

Definition display_action (q : QualifiedName) : string := plugin_name q +:+ "::" +:+ name q.

Definition submit (h : Hash) : eff World TransactionRecord :=
  on_env load_settings ;!
  let! r := get_transaction h in
  match state r with
  | Submitted => eret r
  | Landed | Expired => ethrow (Fail ("conflict: transaction " +:+ tx_final r +:+ " is settled"))
  | Recorded =>
      let! head := on_env fetch_head in
      if grounding_aged_out head (grounding_block r) then
        ethrow (Fail ("conflict: transaction " +:+ tx_final r +:+ " is grounded more than "
                      +:+ MAX_AGE_TEXT +:+ " blocks behind the synchronizer head"))
      else
        let! bytes := read_payload h in
        let! marked := mark_attempted h in
        if negb (snd marked) then eret (fst marked)
        else
          let! response := on_env (submit_proof bytes
                             (Some ("driver:" +:+ display_action (action (fst marked))))) in
          let! res := mark_submitted h response in
          eret (fst res)
  end.

(** *** Settlement: the query *)

(** What a settlement learned before it takes the store lock. *)
Record Snapshot : Type := {
  queried : gset string;
  membership : option Membership;
  head_block : option Z;
  statuses : gmap string (option TxStatus);
  creation_proofs : gmap Hash CreationProof;
  relayer_jobs : gmap string JobInfo;
}.

Fixpoint fetch_relayer_jobs_of (records : list TransactionRecord) (acc : gmap string JobInfo) :
    eff World (gmap string JobInfo) :=
  match records with
  | [] => eret acc
  | r :: records' =>
      match relayer_job_id r, decide (state r = Submitted) with
      | Some job_id, left _ =>
          let! info := etry (on_env (fetch_job_status job_id)) in
          match info with
          | Ok i => fetch_relayer_jobs_of records' (<[tx_final r := i]> acc)
          | Err m => if is_unreachable m then eret acc else fetch_relayer_jobs_of records' acc
          end
      | _, _ => fetch_relayer_jobs_of records' acc
      end
  end.

Definition fetch_relayer_jobs : eff World (gmap string JobInfo) :=
  on_env load_settings ;!
  let! records := load_records in
  fetch_relayer_jobs_of records ∅.

(** [HASH_BATCH_LIMIT] *)
Definition HASH_BATCH_LIMIT : nat := 256.

Definition fetch_creation_proofs (commitments : list Hash) : eff World (gmap Hash CreationProof) :=
  efold (fun acc batch =>
    let! witness := on_env (fetch_grounding_witness batch) in
    eret (foldl (fun m (kv : Hash * CreationProof) => <[fst kv := snd kv]> m) acc witness))
    ∅ (chunks HASH_BATCH_LIMIT commitments).

(** The outputs of the transactions reported applied, with their producer. *)
Definition landed_outputs (records : list TransactionRecord) (st : gmap string (option TxStatus)) :
    gmap string Hash :=
  foldl (fun m (fh : string * Hash) => <[fst fh := snd fh]> m) ∅
    (r ← records;
     match st !! tx_final r, record_tx_final r with
     | Some (Some {| st_error := None |}), Ok h => (fun f => (f, h)) <$> output_files r
     | _, _ => []
     end).

(** [read_object_files]: the live files that exist and parse. *)
Fixpoint read_object_files (names : list string) : eff World (list (string * ObjectRecord)) :=
  match names with
  | [] => eret []
  | f :: names' =>
      let! stored := etry (parse_object_record_file false f) in
      let! rest := read_object_files names' in
      eret (match stored with Ok r => (f, r) :: rest | Err _ => rest end)
  end.

Definition wants_proof (landed : gmap string Hash) (mb : option Membership) (e : string * ObjectRecord) : bool :=
  bool_decide (creation_proof (metadata (snd e)) = None)
  && negb (bool_decide (status (metadata (snd e)) = Nullified))
  && (bool_decide (landed !! fst e = Some (producer (metadata (snd e))))
      || match mb with
         | Some m => bool_decide (dict_commitment (obj (snd e)) ∈ created_objects m)
         | None => false
         end).

Definition fetch_missing_creation_proofs (records : list TransactionRecord)
    (st : gmap string (option TxStatus)) (scanned : option (list (string * ObjectRecord)))
    (mb : option Membership) : eff World (gmap Hash CreationProof) :=
  let landed := landed_outputs records st in
  if bool_decide (landed = ∅) && bool_decide (mb = None) then eret ∅
  else
    let! entries := (match scanned with
                     | Some s => eret s
                     | None => read_object_files (fst <$> map_to_list landed)
                     end) in
    let commitments := (fun e : string * ObjectRecord => dict_commitment (obj (snd e)))
                       <$> filter (fun e => wants_proof landed mb e = true) entries in
    if bool_decide (commitments = []) then eret ∅
    else
      let! proofs := etry (fetch_creation_proofs commitments) in
      eret (match proofs with Ok m => m | Err _ => ∅ end).

Definition scanned_hashes (scanned : list (string * ObjectRecord)) : gset Hash * gset Hash :=
  foldl (fun (acc : gset Hash * gset Hash) e =>
    let o := obj (snd e) in
    ({[ dict_commitment o ]} ∪ fst acc,
     match object_nullifier_hash o with Ok n => {[ n ]} ∪ snd acc | Err _ => snd acc end))
    (∅, ∅) scanned.

Definition query_membership (scanned : option (list (string * ObjectRecord))) : eff World (option Membership) :=
  match scanned with
  | None => eret None
  | Some s =>
      let '(commitments, nulls) := scanned_hashes s in
      if bool_decide (commitments = ∅) && bool_decide (nulls = ∅) then eret None
      else let! m := on_env (fetch_membership (elements commitments) (elements nulls)) in eret (Some m)
  end.

Definition query_statuses (records : list TransactionRecord) : eff World (gmap string (option TxStatus)) :=
  efold (fun acc r =>
    let! h := elift (record_tx_final r) in
    let! st := on_env (fetch_tx_status h) in
    eret (<[tx_final r := st]> acc))
    ∅ (filter (fun r => needs_tx_status r = true) records).

(** The first half of [settle_with]; [None] when there is nothing to do. *)
Definition settle_query (all_objects : bool) (jobs : gmap string JobInfo) : eff World (option Snapshot) :=
  on_env load_settings ;!
  let! records := load_records in
  let q : gset string := list_to_set (tx_final <$> filter (fun r => is_open r = true) records) in
  if bool_decide (q = ∅) && negb all_objects then eret None
  else
    let! scanned := (if all_objects then let! s := load_object_files in eret (Some s) else eret None) in
    let! mb := query_membership scanned in
    let! head := (match mb with
                  | Some m => eret (Some (mb_block_number m))
                  | None => if bool_decide (q = ∅) then eret None
                            else let! h := on_env fetch_head in eret (Some h)
                  end) in
    let! st := query_statuses records in
    let! proofs := fetch_missing_creation_proofs records st scanned mb in
    eret (Some {| queried := q; membership := mb; head_block := head; statuses := st;
                  creation_proofs := proofs; relayer_jobs := jobs |}).

(** *** Settlement: the decision for one record *)

Definition annotate (snap : Snapshot) (r : TransactionRecord) : TransactionRecord :=
  match relayer_jobs snap !! tx_final r with
  | None => r
  | Some job =>
      let r1 := match ji_tx_hash job with Some _ => set_tx_hash (ji_tx_hash job) r | None => r end in
      match ji_status job with
      | Relayer.Failed => set_relayer_failure (Some (default "relayer job failed" (ji_last_error job))) r1
      | _ => r1
      end
  end.

Definition expire (why : string) (now : Z) (r : TransactionRecord) : TransactionRecord :=
  set_settled Expired now (set_reason (Some why) r).

Definition decide_record (snap : Snapshot) (now : Z) (r : TransactionRecord) : TransactionRecord :=
  let r1 := annotate snap r in
  match statuses snap !! tx_final r with
  | Some (Some st) =>
      match st_error st with
      | None => set_settled Landed now (set_tx_hash (Some (st_tx_hash st)) r1)
      | Some e =>
          expire ("rejected by the synchronizer at block " +:+ pretty (st_block_number st) +:+ ": " +:+ e)
            now (set_tx_hash (Some (st_tx_hash st)) r1)
      end
  | _ =>
      match head_block snap with
      | Some head =>
          if grounding_aged_out head (grounding_block r) then
            expire ("grounding block " +:+ pretty (grounding_block r) +:+ " is more than "
                    +:+ MAX_AGE_TEXT +:+ " blocks behind the synchronizer head " +:+ pretty head) now r1
          else r1
      | None => r1
      end
  end.

(** The record after the pass, and whether the pass handled it. *)
Definition settle_record (snap : Snapshot) (now : Z) (r : TransactionRecord) : TransactionRecord :=
  if negb (is_open r && bool_decide (tx_final r ∈ queried snap)) then r
  else if needs_tx_status r && bool_decide (statuses snap !! tx_final r = None) then r
  else decide_record snap now r.

(** The loop over the records: all of them afterwards, and those that changed. *)
Fixpoint settle_records (snap : Snapshot) (now : Z) (records : list TransactionRecord) :
    eff World (list TransactionRecord * list TransactionRecord) :=
  match records with
  | [] => eret ([], [])
  | r :: records' =>
      let r' := settle_record snap now r in
      let differs := negb (bool_decide (r' = r)) in
      (if differs then write_record r' else eret tt) ;!
      let! rest := settle_records snap now records' in
      eret (r' :: fst rest, if differs then r' :: snd rest else snd rest)
  end.

(** *** Settlement: the files of a settled record *)

Definition set_status (st : FileStatus) (r : ObjectRecord) : ObjectRecord :=
  let m := metadata r in
  {| metadata := {| class := class m; content_hash := content_hash m; status := st;
                    producer := producer m; ob_tx_hash := ob_tx_hash m;
                    creation_proof := creation_proof m |};
     obj := obj r |}.
Definition set_ob_tx_hash (v : option string) (r : ObjectRecord) : ObjectRecord :=
  let m := metadata r in
  {| metadata := {| class := class m; content_hash := content_hash m; status := status m;
                    producer := producer m; ob_tx_hash := v; creation_proof := creation_proof m |};
     obj := obj r |}.
Definition set_creation_proof (v : option CreationProof) (r : ObjectRecord) : ObjectRecord :=
  let m := metadata r in
  {| metadata := {| class := class m; content_hash := content_hash m; status := status m;
                    producer := producer m; ob_tx_hash := ob_tx_hash m; creation_proof := v |};
     obj := obj r |}.

Definition replace_name (from to : string) (names : list string) : list string :=
  (fun n => if decide (n = from) then to else n) <$> names.

(** The stored file of that name, live before nullified. *)
Definition stored_file (name : string) : eff World (option ObjectRecord) :=
  let! live := try_exists false name in
  let! there := try_exists (negb live) name in
  if negb there then eret None
  else let! r := parse_object_record_file (negb live) name in eret (Some r).

Definition spent_here (r : TransactionRecord) (o : Dictionary) : bool :=
  match object_nullifier_hash o with
  | Ok n => bool_decide (encode_hash_hex n ∈ nullifiers r)
  | Err _ => false
  end.

(** An input of a landed record; the name it was moved to, if it changed. *)
Definition settle_input (r : TransactionRecord) (spent_names : list (string * string)) (name : string) :
    eff World (list (string * string)) :=
  let! found := stored_file name in
  match found with
  | None => eret spent_names
  | Some stored =>
      if negb (spent_here r (obj stored)) then eret spent_names
      else if decide (status (metadata stored) = Nullified) then eret spent_names
      else
        let! spent_name := nullify_object_file (set_status Nullified stored) name in
        let moved := negb (bool_decide (spent_name = name)) in
        (if moved then note_removed [name] else eret tt) ;!
        note_changed [spent_name] ;!
        eret (if moved then spent_names ++ [(name, spent_name)] else spent_names)
  end.

(** An output of a landed record. *)
Definition settled_output (r : TransactionRecord) (stored : ObjectRecord) : option ObjectRecord :=
  let live := decide (status (metadata stored) = Unknown) in
  let s1 := if live then set_status Live stored else stored in
  match tx_hash r with
  | Some h =>
      if decide (ob_tx_hash (metadata s1) = Some h)
      then if live then Some s1 else None
      else Some (set_ob_tx_hash (Some h) s1)
  | None => if live then Some s1 else None
  end.

Definition settle_output (r : TransactionRecord) (h : Hash) (name : string) : eff World unit :=
  let! found := stored_file name in
  match found with
  | None => eret tt
  | Some stored =>
      if negb (bool_decide (producer (metadata stored) = h)) then eret tt
      else match settled_output r stored with
           | Some stored' => write_object_file stored' name ;! note_changed [name]
           | None => eret tt
           end
  end.

(** One pending name: [None] when it stays, else what became of it. *)
Definition finish_pending_name (h : Hash) (locked : gset string) (p : PendingName) :
    eff World (option (option string)) :=
  let! there := try_exists false (file_name p) in
  let! ours := (if (there : bool)
                then let! r := parse_object_record_file false (file_name p) in
                     eret (bool_decide (producer (metadata r) = h))
                else eret false) in
  if negb ours then eret (Some None)
  else
    let! w := eget in
    if bool_decide (is_Some (owners w !! file_name p)) || bool_decide (file_name p ∈ locked) then eret None
    else
      let! final := elift (unique_file_name (name_fuel w) (final_name p) (store_has_file w)) in
      rename_live_object_file (file_name p) final ;!
      note_removed [file_name p] ;!
      note_changed [final] ;!
      eret (Some (Some final)).

Definition apply_finished (r : TransactionRecord) (finished : string * option string) : TransactionRecord :=
  let '(pending, final) := finished in
  set_files (input_files r)
    (match final with Some f => replace_name pending f (output_files r) | None => output_files r end)
    (filter (fun p => file_name p <> pending) (pending_names r)) r.

Definition finish_pending_names (r : TransactionRecord) (locked : gset string) :
    eff World (TransactionRecord * bool) :=
  if negb (bool_decide (state r = Landed)) || bool_decide (pending_names r = []) then eret (r, false)
  else
    let! h := elift (record_tx_final r) in
    let! finished := efold (fun acc p =>
      let! f := finish_pending_name h locked p in
      eret (match f with None => acc | Some x => acc ++ [(file_name p, x)] end)) [] (pending_names r) in
    if bool_decide (finished = []) then eret (r, false)
    else eret (foldl apply_finished r finished, true).

(** [path.try_exists()? && parse(path)?], per output of an expired record. *)
Fixpoint check_expired_outputs (files : list string) : eff World unit :=
  match files with
  | [] => eret tt
  | f :: files' =>
      let! there := try_exists false f in
      (if (there : bool) then let! _ := parse_object_record_file false f in eret tt else eret tt) ;!
      check_expired_outputs files'
  end.

(** The files of a landed record; the record with its spent inputs renamed. *)
Definition persist_landed (r : TransactionRecord) : eff World (TransactionRecord * bool) :=
  let! h := elift (record_tx_final r) in
  let! spent_names := efold (settle_input r) [] (input_files r) in
  let! _ := efold (fun _ name => settle_output r h name) tt (output_files r) in
  eret (set_files (foldl (fun l (ft : string * string) => replace_name (fst ft) (snd ft) l)
                     (input_files r) spent_names) (output_files r) (pending_names r) r,
        negb (bool_decide (spent_names = []))).

(** The record as it is left in memory, and what is returned. *)
Definition persist_settled_objects (r : TransactionRecord) (locked : gset string) :
    eff World (TransactionRecord * result string bool) :=
  if decide (state r = Expired) then
    let! res := etry (check_expired_outputs (output_files r) ;!
                      let! removed := remove_unknown_outputs r in
                      note_removed removed) in
    eret (r, rmap (fun _ => false) res)
  else
    let! files := etry (persist_landed r) in
    match files with
    | Err m => eret (r, Err m)
    | Ok (r1, renamed_inputs) =>
        let! names := etry (finish_pending_names r1 locked) in
        eret (match names with
              | Err m => (r1, Err m)
              | Ok (r2, finished) => (r2, Ok (renamed_inputs || finished))
              end)
    end.

(** *** Settlement: the second half *)

Definition chain_file_status (r : ObjectRecord) (mb : Membership) : FileStatus :=
  let spent := match object_nullifier_hash (obj r) with
               | Ok n => bool_decide (n ∈ on_chain_nullifiers mb)
               | Err _ => false
               end in
  match status (metadata r) with
  | Nullified => Nullified
  | st =>
      if (spent : bool) then Nullified
      else match st with
           | Unknown => if decide (dict_commitment (obj r) ∈ created_objects mb) then Live else Unknown
           | st => st
           end
  end.

(** [RecordIndex::by_tx_final]: the last record of that hash. *)
Definition record_of (records : list TransactionRecord) (h : Hash) : option TransactionRecord :=
  foldl (fun acc r => match record_tx_final r with
                      | Ok h' => if decide (h' = h) then Some r else acc
                      | Err _ => acc
                      end) None records.

Definition refreshed (snap : Snapshot) (records : list TransactionRecord) (o : ObjectRecord) : ObjectRecord :=
  let st := match membership snap with
            | Some mb => chain_file_status o mb
            | None => status (metadata o)
            end in
  let hash := match record_of records (producer (metadata o)) ≫= tx_hash with
              | Some h => Some h
              | None => ob_tx_hash (metadata o)
              end in
  let proof := match creation_proof (metadata o) with
               | Some p => Some p
               | None => if decide (st = Live) then creation_proofs snap !! dict_commitment (obj o) else None
               end in
  set_creation_proof proof (set_ob_tx_hash hash (set_status st o)).

Definition same_metadata (a b : ObjectRecord) : bool :=
  bool_decide (status (metadata a) = status (metadata b))
  && bool_decide (ob_tx_hash (metadata a) = ob_tx_hash (metadata b))
  && bool_decide (creation_proof (metadata a) = creation_proof (metadata b)).

(** One file; its entry afterwards. *)
Definition refresh_object (snap : Snapshot) (records : list TransactionRecord) (e : string * ObjectRecord) :
    eff World (string * ObjectRecord) :=
  let '(name, o) := e in
  let o' := refreshed snap records o in
  if same_metadata o o' then eret e
  else
    let newly_spent := bool_decide (status (metadata o') = Nullified)
                       && negb (bool_decide (status (metadata o) = Nullified)) in
    let! name' :=
      (if newly_spent then
         let! spent_name := nullify_object_file o' name in
         (if bool_decide (spent_name = name) then eret tt else note_removed [name]) ;!
         eret spent_name
       else write_object_file o' name ;! eret name) in
    note_changed [name'] ;!
    eret (name', o').

(** A changed record: the files follow it once it is terminal; a failure to
    update them is only logged. *)
Definition persist_changed (locked : gset string) (r : TransactionRecord) : eff World TransactionRecord :=
  if negb (is_terminal (state r)) then eret r
  else
    let! res := persist_settled_objects r locked in
    let r' := fst res in
    (match snd res with Ok true => write_record r' | _ => eret tt end) ;!
    note_changed (output_files r' ++ input_files r') ;!
    eret r'.

(** [SettleOutcome]; [objects] are the entries whose summaries it carries. *)
Record SettleOutcome : Type := {
  so_records : list TransactionRecord;
  so_objects : list (string * ObjectRecord);
  so_removed_files : list string;
  so_open_records : nat;
  so_unattempted_records : nat;
}.
Definition empty_outcome : SettleOutcome :=
  {| so_records := []; so_objects := []; so_removed_files := [];
     so_open_records := 0; so_unattempted_records := 0 |}.

Definition changed_entries (entries : list (string * ObjectRecord)) : eff World (list (string * ObjectRecord)) :=
  eread (fun w => Ok (filter (fun e => fst e ∈ changed_files (report w)) entries)).

(** The outcome and, with [all_objects], the listing of every file. *)
Definition settle_apply (all_objects : bool) (snap : Snapshot) :
    eff World (SettleOutcome * list (string * ObjectRecord)) :=
  start_report ;!
  let! now := clock in
  let! records := load_records in
  let! settled := settle_records snap now records in
  let '(after, changed) := settled in
  let open_records := length (filter (fun r => is_open r = true) after) in
  let unattempted := length (filter (fun r => is_open r && negb (needs_tx_status r) = true) after) in
  let! done_ := efold (fun acc r => let! r' := persist_changed (locked_inputs after) r in eret (acc ++ [r']))
                  [] changed in
  let! entries := load_object_files in
  let! entries' := efold (fun acc e => let! e' := refresh_object snap after e in eret (acc ++ [e']))
                     [] entries in
  let! objects := changed_entries entries' in
  let! removed := eread (fun w => Ok (removed_files (report w))) in
  eret ({| so_records := done_; so_objects := objects; so_removed_files := removed;
           so_open_records := open_records; so_unattempted_records := unattempted |},
        if all_objects then entries' else []).

(** [settle_with], and the two ways it is called. *)
Definition settle_with (all_objects : bool) (jobs : gmap string JobInfo) :
    eff World (SettleOutcome * list (string * ObjectRecord)) :=
  let! snap := settle_query all_objects jobs in
  match snap with
  | None => eret (empty_outcome, [])
  | Some s => settle_apply all_objects s
  end.

Definition settle : eff World SettleOutcome :=
  let! jobs := fetch_relayer_jobs in
  let! res := settle_with false jobs in
  eret (fst res).

(** The outcome and the listing, which the caller filters by its query. *)
Definition sync_objects : eff World (SettleOutcome * list (string * ObjectRecord)) := settle_with true ∅.

(** *** Pruning *)

Definition min_next (next : option Z) (t : Z) : option Z :=
  Some (match next with None => t | Some n => Z.min n t end).

Definition cleanup_at (r : TransactionRecord) : Z :=
  saturating_add_u64 (default (recorded_at_ms r) (settled_at_ms r)) TRANSACTION_RETENTION_MS.

Definition forget (key : string) : eff World unit :=
  modify (fun w => set_reconciled (delete key (reconciled w)) w).

(** Bring the files in line unless that is known to be done: the record as
    persisted, or the error. *)
Definition reconcile (now : Z) (locked : gset string) (r : TransactionRecord) :
    eff World (result string TransactionRecord) :=
  let! w := eget in
  if negb (cleanup_at r <=? now) && bool_decide (reconciled w !! tx_final r = Some r) then eret (Ok r)
  else
    let! res := persist_settled_objects r locked in
    let! persisted := (match snd res with
                       | Err m => eret (Err m)
                       | Ok true => etry (write_record (fst res))
                       | Ok false => eret (Ok tt)
                       end) in
    match persisted with
    | Err m => forget (tx_final r) ;! eret (Err m)
    | Ok _ =>
        modify (fun w => set_reconciled (<[tx_final (fst res) := fst res]> (reconciled w)) w) ;!
        eret (Ok (fst res))
    end.

Definition prune_record (now : Z) (locked : gset string) (acc : list string * option Z)
    (r : TransactionRecord) : eff World (list string * option Z) :=
  let '(pruned, next) := acc in
  let retry := saturating_add_u64 now 60000 in
  let! res := reconcile now locked r in
  match res with
  | Err _ => eret (pruned, min_next next retry)
  | Ok r' =>
      if cleanup_at r <=? now then
        let! h := elift (record_tx_final r') in
        let! removed := etry (remove_transaction h) in
        match removed with
        | Ok _ => forget (tx_final r') ;! eret (pruned ++ [tx_final r'], next)
        | Err _ => eret (pruned, min_next next retry)
        end
      else eret (pruned, min_next next (cleanup_at r))
  end.

(** [PrunedTransactions]; [objects] are the entries whose summaries it carries. *)
Record PrunedTransactions : Type := {
  pr_tx_finals : list string;
  pr_objects : list (string * ObjectRecord);
  pr_removed_files : list string;
  pr_next_cleanup_at_ms : option Z;
}.

Definition prune_transactions (now : Z) : eff World PrunedTransactions :=
  let! records := load_records in
  start_report ;!
  let terminal := filter (fun r => is_terminal (state r) = true) records in
  modify (fun w => set_reconciled
    (filter (fun kr : string * TransactionRecord => fst kr ∈ (tx_final <$> terminal)) (reconciled w)) w) ;!
  let! res := efold (prune_record now (locked_inputs records)) ([], None) terminal in
  let! w := eget in
  let! objects := (if bool_decide (changed_files (report w) = ∅) then eret []
                   else let! entries := load_object_files in changed_entries entries) in
  eret {| pr_tx_finals := fst res; pr_objects := objects;
          pr_removed_files := removed_files (report w); pr_next_cleanup_at_ms := snd res |}.
End Pipeline.

(** ** Specification *)

(** How a record may change. *)
Record rec_step (r r' : TransactionRecord) : Prop := {
  rs_identity : tx_final r' = tx_final r /\ action r' = action r /\ owner r' = owner r
    /\ grounding_block r' = grounding_block r /\ nullifiers r' = nullifiers r
    /\ created r' = created r /\ recorded_at_ms r' = recorded_at_ms r;
  rs_terminal : is_terminal (state r) = true ->
    state r' = state r /\ settled_at_ms r' = settled_at_ms r /\ reason r' = reason r;
  rs_open : is_open r' = true -> input_files r' = input_files r /\ output_files r' = output_files r;
  rs_attempted t : submit_attempted_at_ms r = Some t -> submit_attempted_at_ms r' = Some t;
  rs_submitted : state r = Submitted -> state r' <> Recorded;
}.

#[global] Instance rec_step_preorder : PreOrder rec_step.
Proof.
  split; [intros r; split; try done; by intros -> |]. intros r1 r2 r3 [I1 T1 O1 A1 S1] [I2 T2 O2 A2 S2]. split.
  - intuition congruence.
  - intros Ht. destruct (T1 Ht) as (Hs & ? & ?). destruct T2 as (? & ? & ?); [by rewrite Hs|].
    split_and!; congruence.
  - intros Ho. destruct (O2 Ho) as [-> ->]. apply O1. unfold is_open in *.
    destruct (is_terminal (state r2)) eqn:Hst; [|done].
    destruct (T2 eq_refl) as [Hs _]. by rewrite Hs, Hst in Ho.
  - eauto.
  - intros Hs Hr. specialize (S1 Hs).
    destruct (state r2) eqn:Hst; [done|by apply S2|..]; destruct T2 as [Hs' _]; try done; congruence.
Qed.

(** A well-formed record, stored under its own name. *)
Record rec_wf `{Pod2} (key : string) (r : TransactionRecord) : Prop := {
  rw_key : tx_final r = key;
  rw_name : exists h, record_tx_final r = Ok h /\ transaction_dir h = key;
  rw_submitted : state r = Submitted -> is_Some (relayer_job_id r);
  rw_landed : state r = Landed -> is_Some (tx_hash r);
  rw_expired : state r = Expired -> is_Some (reason r);
  rw_settled : is_terminal (state r) = true -> is_Some (settled_at_ms r);
}.

(** Only the lists of files differ. *)
Definition refiled (r r' : TransactionRecord) : Prop := exists i u p, r' = set_files i u p r.

Lemma refiled_refl r : refiled r r.
Proof. exists (input_files r), (output_files r), (pending_names r). by destruct r. Qed.
Lemma refiled_trans r1 r2 r3 : refiled r1 r2 -> refiled r2 r3 -> refiled r1 r3.
Proof. intros (i & u & p & ->) (i' & u' & p' & ->). exists i', u', p'. by destruct r1. Qed.

Lemma refiled_step r r' : refiled r r' -> is_terminal (state r) = true -> rec_step r r'.
Proof.
  intros (i & u & p & ->) Ht. destruct r; simpl in *. split; simpl; try done.
  - unfold is_open; simpl. by rewrite Ht.
  - by intros ->.
Qed.

Lemma refiled_wf `{Pod2} key r r' : refiled r r' -> rec_wf key r -> rec_wf key r'.
Proof. intros (i & u & p & ->) [K N S L E T]. destruct r; simpl in *. by split. Qed.

Lemma refiled_state r r' : refiled r r' -> state r' = state r.
Proof. intros (i & u & p & ->). by destruct r. Qed.

(** ** Settlement of one record *)
Section SettleRecord.
Context `{Clients, Pod2}.

Lemma annotate_same snap r :
  let r' := annotate snap r in
  (forall key, rec_wf key r -> rec_wf key r') /\ rec_step r r' /\ state r' = state r
  /\ tx_final r' = tx_final r /\ input_files r' = input_files r /\ output_files r' = output_files r
  /\ grounding_block r' = grounding_block r.
Proof.
  unfold annotate. destruct (relayer_jobs snap !! tx_final r) as [job|]; [|done].
  destruct (ji_tx_hash job) as [h|], (ji_status job); destruct r; simpl;
    (split_and!; [|split; simpl; try done; by intros -> |done..]);
    intros key [K N S L E T]; simpl in *; by split.
Qed.

Lemma settle_record_step snap now key r :
  rec_wf key r -> rec_step r (settle_record snap now r) /\ rec_wf key (settle_record snap now r).
Proof.
  intros Hwf. unfold settle_record.
  destruct (is_open r) eqn:Ho; simpl; [|by split; [reflexivity|]].
  destruct (bool_decide _); simpl; [|by split; [reflexivity|]].
  destruct (_ && _); [by split; [reflexivity|]|].
  destruct (annotate_same snap r) as (Hwf1 & Hs1 & Hst & _). specialize (Hwf1 _ Hwf).
  assert (Hopen : is_terminal (state (annotate snap r)) = false)
    by (rewrite Hst; by apply negb_true_iff in Ho).
  unfold decide_record. set (r1 := annotate snap r) in *.
  assert (Hterm : forall st h why, st = Landed \/ st = Expired -> (st = Expired -> is_Some why) ->
    (st = Landed -> is_Some h) ->
    let r' := set_settled st now (set_reason why (set_tx_hash h r1)) in rec_step r r' /\ rec_wf key r').
  { intros st h why Hst' Hwhy Hh r'. split.
    - etrans; [done|]. subst r'. destruct r1; simpl in *. split; simpl;
        [done|by rewrite Hopen| |done|]; unfold is_open; simpl; by destruct Hst' as [-> | ->].
    - subst r'. destruct Hwf1 as [K N S L E T]. destruct r1; simpl in *. split; simpl; try done; try naive_solver. }
  assert (Hback : forall h, set_tx_hash h r1 = set_reason (reason r1) (set_tx_hash h r1))
    by (intros; by destruct r1).
  assert (Hback2 : forall why, set_reason why r1 = set_reason why (set_tx_hash (tx_hash r1) r1))
    by (intros; by destruct r1).
  destruct (statuses snap !! tx_final r) as [[st|]|].
  - destruct (st_error st) as [e|].
    + unfold expire. apply Hterm; [by right|by eauto|done].
    + rewrite Hback. apply Hterm; [by left|done|by eauto].
  - destruct (head_block snap) as [head|]; [|done]. destruct (grounding_aged_out _ _); [|done].
    unfold expire. rewrite Hback2. apply Hterm; [by right|by eauto|done].
  - destruct (head_block snap) as [head|]; [|done]. destruct (grounding_aged_out _ _); [|done].
    unfold expire. rewrite Hback2. apply Hterm; [by right|by eauto|done].
Qed.
End SettleRecord.


(** ** Operations on files leave the records alone *)
Section Frames.
Context `{Clients, Pod2} (I : gmap string TxDir -> gmap string string -> Prop).

Lemma framed_stored_file n : preserves (framed I) (stored_file n).
Proof. unfold stored_file. keeps. Qed.
#[local] Hint Resolve framed_stored_file : don.

Lemma framed_remove_unknown h files : preserves (framed I) (remove_unknown h files).
Proof. induction files as [|f files IH]; simpl; keeps. Qed.
#[local] Hint Resolve framed_remove_unknown : don.
Lemma framed_remove_unknown_outputs r : preserves (framed I) (remove_unknown_outputs r).
Proof. unfold remove_unknown_outputs. keeps. Qed.
Lemma framed_check_expired files : preserves (framed I) (check_expired_outputs files).
Proof. induction files as [|f files IH]; simpl; keeps. Qed.
Lemma framed_settle_input r acc n : preserves (framed I) (settle_input r acc n).
Proof. unfold settle_input. keeps. Qed.
Lemma framed_settle_output r h n : preserves (framed I) (settle_output r h n).
Proof. unfold settle_output. keeps. Qed.
Lemma framed_finish_pending_name h l p : preserves (framed I) (finish_pending_name h l p).
Proof. unfold finish_pending_name. keeps. Qed.
#[local] Hint Resolve framed_remove_unknown_outputs framed_check_expired framed_settle_input
  framed_settle_output framed_finish_pending_name : don.

Lemma framed_finish_pending_names r l : preserves (framed I) (finish_pending_names r l).
Proof. unfold finish_pending_names. keeps. Qed.
#[local] Hint Resolve framed_finish_pending_names : don.

Lemma framed_persist_landed r : preserves (framed I) (persist_landed r).
Proof. unfold persist_landed. keeps. Qed.
#[local] Hint Resolve framed_persist_landed : don.

Lemma framed_persist r l : preserves (framed I) (persist_settled_objects r l).
Proof. unfold persist_settled_objects. keeps. Qed.

Lemma framed_refresh snap records e : preserves (framed I) (refresh_object snap records e).
Proof. unfold refresh_object. keeps. Qed.

Lemma framed_check_outputs files : preserves (framed I) (check_outputs files).
Proof. induction files as [|f files IH]; simpl; keeps. Qed.
Lemma framed_write_outputs p files acc : preserves (framed I) (write_outputs p files acc).
Proof. revert acc. induction files as [|[o f] files IH]; intros acc; simpl; keeps. Qed.
Lemma framed_remove_outputs files : preserves (framed I) (remove_outputs files).
Proof. induction files as [|f files IH]; simpl; keeps. Qed.
Lemma framed_get_transaction h : preserves (framed I) (get_transaction h).
Proof. unfold get_transaction. keeps. Qed.
End Frames.

#[export] Hint Resolve framed_remove_unknown_outputs framed_persist framed_refresh framed_check_outputs
  framed_write_outputs framed_remove_outputs framed_get_transaction : don.

(** ** The files of a settled record *)
Section Refiling.
Context `{Clients, Pod2}.

Lemma apply_finished_refiled r f : refiled r (apply_finished r f).
Proof. destruct f as [n o]. unfold apply_finished. by repeat eexists. Qed.

Lemma foldl_finished_refiled fs r : refiled r (foldl apply_finished r fs).
Proof.
  revert r. induction fs as [|f fs IH]; intros r; simpl; [apply refiled_refl|].
  eapply refiled_trans; [apply apply_finished_refiled|apply IH].
Qed.

Lemma wp_true {S A} (c : eff S A) s : wp c (fun _ _ => True) (fun _ _ => True) s.
Proof. unfold wp. by destruct (c s) as [[]]. Qed.

Lemma finish_pending_names_refiled r l w :
  wp (finish_pending_names r l) (fun res _ => refiled r (fst res)) (fun _ _ => True) w.
Proof.
  unfold finish_pending_names. destruct (_ || _); [apply wp_ret, refiled_refl|].
  apply wp_bind, wp_lift; [|done]. intros h _. apply wp_bind.
  eapply wp_mono; [apply wp_true| |done]. intros fs w' _. case_bool_decide; apply wp_ret; simpl.
  - apply refiled_refl.
  - apply foldl_finished_refiled.
Qed.

Lemma persist_landed_refiled r w :
  wp (persist_landed r) (fun res _ => refiled r (fst res)) (fun _ _ => True) w.
Proof.
  unfold persist_landed. apply wp_bind, wp_lift; [|done]. intros h _.
  apply wp_bind. eapply wp_mono; [apply wp_true| |done]. intros sn w1 _.
  apply wp_bind. eapply wp_mono; [apply wp_true| |done]. intros _ w2 _.
  apply wp_ret. by repeat eexists.
Qed.

Lemma persist_refiled r l w :
  wp (persist_settled_objects r l) (fun res _ => refiled r (fst res)) (fun _ _ => True) w.
Proof.
  unfold persist_settled_objects. case_decide.
  - apply wp_bind. eapply wp_mono; [apply wp_true| |done]. intros res w1 _. apply wp_ret, refiled_refl.
  - apply wp_bind, wp_try. eapply wp_mono; [apply persist_landed_refiled|..].
    + intros [r1 b] w1 Hr1. apply wp_bind, wp_try.
      eapply wp_mono; [apply finish_pending_names_refiled|..].
      * intros [r2 b2] w2 Hr2. apply wp_ret. by eapply refiled_trans.
      * intros [m|m] w2 _; [by apply wp_ret|done].
    + intros [m|m] w1 _; [apply wp_ret, refiled_refl|done].
Qed.

Lemma persist_tracked F r l w :
  tracked F w ->
  wp (persist_settled_objects r l) (fun res w' => tracked F w' /\ refiled r (fst res))
    (fun _ => tracked F) w.
Proof.
  intros Hw. eapply wp_mono.
  - apply wp_conj; [apply (tracked_of_framed F (persist_settled_objects r l)); [auto with don|exact Hw]
                   |apply persist_refiled].
  - done.
  - by intros e w' [? _].
Qed.
End Refiling.


(** ** The effect of a step on the records *)

Abbreviation Recs := (gmap string TransactionRecord).

(** [m] comes from [m0]: every record is well-formed and is a step of the old
    one, or is new and allowed by [A]; records vanish only if [D] allows it. *)
Record from `{Pod2} (m0 : Recs) (o0 : gmap string string) (A D : string -> TransactionRecord -> Prop)
    (m : Recs) (o : gmap string string) : Prop := {
  fr_records key r : m !! key = Some r ->
    rec_wf key r /\ ((exists r0, m0 !! key = Some r0 /\ rec_step r0 r) \/ (m0 !! key = None /\ A key r));
  fr_kept key r0 : m0 !! key = Some r0 -> is_Some (m !! key) \/ D key r0;
  fr_owners : o = o0;
}.

(** The invariant: well-formed records; no input is spent by two open
    transactions, or by an open transaction and held by a proof. *)
Record inv `{Pod2} (m : Recs) (o : gmap string string) : Prop := {
  inv_wf key r : m !! key = Some r -> rec_wf key r;
  inv_disjoint k1 k2 r1 r2 f : m !! k1 = Some r1 -> m !! k2 = Some r2 ->
    is_open r1 = true -> is_open r2 = true -> f ∈ input_files r1 -> f ∈ input_files r2 -> k1 = k2;
  inv_held key r f : m !! key = Some r -> is_open r = true -> f ∈ input_files r -> o !! f = None;
}.

Definition nothing (_ : string) (_ : TransactionRecord) : Prop := False.

Section StepLemmas.
Context `{Pod2}.

Lemma from_refl m o A D : inv m o -> from m o A D m o.
Proof.
  intros Hi. split; [|intros key r0 Hr; left; by eexists|done].
  intros key r Hr. split; [by eapply inv_wf|]. left. exists r. split; [done|reflexivity].
Qed.

Lemma from_insert m0 o0 A D m o key r0 r :
  from m0 o0 A D m o -> m0 !! key = Some r0 -> rec_step r0 r -> rec_wf key r ->
  from m0 o0 A D (<[key := r]> m) o.
Proof.
  intros [Hr Hk Ho] H0 Hs Hwf. split; [..|done].
  - intros k r' [[<- <-]|[_ Hk']]%lookup_insert_Some; [|by apply Hr]. split; [done|]. left. eauto.
  - intros k r' Hk'. destruct (decide (k = key)) as [->|]; [left; by rewrite lookup_insert_eq|].
    rewrite lookup_insert_ne by done. by apply Hk.
Qed.

Lemma from_insert_new m0 o0 (A D : string -> TransactionRecord -> Prop) m o key r :
  from m0 o0 A D m o -> m0 !! key = None -> A key r -> rec_wf key r ->
  from m0 o0 A D (<[key := r]> m) o.
Proof.
  intros [Hr Hk Ho] H0 Ha Hwf. split; [..|done].
  - intros k r' [[<- <-]|[_ Hk']]%lookup_insert_Some; [|by apply Hr]. split; [done|]. by right.
  - intros k r' Hk'. destruct (decide (k = key)) as [->|]; [left; by rewrite lookup_insert_eq|].
    rewrite lookup_insert_ne by done. by apply Hk.
Qed.

Lemma from_delete m0 o0 A (D : string -> TransactionRecord -> Prop) m o key :
  from m0 o0 A D m o -> (forall r0, m0 !! key = Some r0 -> D key r0) -> from m0 o0 A D (delete key m) o.
Proof.
  intros [Hr Hk Ho] Hd. split; [..|done].
  - intros k r [_ Hk']%lookup_delete_Some. by apply Hr.
  - intros k r0 Hk0. destruct (decide (k = key)) as [->|]; [right; by apply Hd|].
    rewrite lookup_delete_ne by done. by apply Hk.
Qed.

(** An open record's ancestor was open with the same inputs. *)
Lemma step_open r0 r :
  rec_step r0 r -> is_open r = true -> is_open r0 = true /\ input_files r0 = input_files r.
Proof.
  intros Hs Ho. destruct (rs_open _ _ Hs Ho) as [Hi _]. split; [|done].
  unfold is_open in *. destruct (is_terminal (state r0)) eqn:Ht; [|done].
  destruct (rs_terminal _ _ Hs Ht) as [Hst _]. by rewrite Hst, Ht in Ho.
Qed.

Lemma from_inv m0 o0 D m o : inv m0 o0 -> from m0 o0 nothing D m o -> inv m o.
Proof.
  intros Hi [Hr Hk ->]. split.
  - intros key r Hkr. by apply Hr.
  - intros k1 k2 r1 r2 f H1 H2 Ho1 Ho2 Hf1 Hf2.
    destruct (Hr _ _ H1) as [_ [(a & Ha & Hsa)|[_ []]]], (Hr _ _ H2) as [_ [(b & Hb & Hsb)|[_ []]]].
    destruct (step_open _ _ Hsa Ho1) as [Hoa Hia], (step_open _ _ Hsb Ho2) as [Hob Hib].
    eapply (inv_disjoint _ _ Hi); [exact Ha|exact Hb|done|done|by rewrite Hia|by rewrite Hib].
  - intros key r f H1 Ho1 Hf1. destruct (Hr _ _ H1) as [_ [(a & Ha & Hsa)|[_ []]]].
    destruct (step_open _ _ Hsa Ho1) as [Hoa Hia].
    eapply (inv_held _ _ Hi); [exact Ha|done|by rewrite Hia].
Qed.
End StepLemmas.

(** ** Each step on the records *)
Section Steps.
Context `{Clients, Pod2}.
Implicit Types (w : World) (m : Recs).

Lemma same_tx_tracked F w w' : same_tx w w' -> tracked F w -> tracked F w'.
Proof. intros [Ht Ho]. unfold tracked. by rewrite Ht, Ho. Qed.

Lemma rec_at_recs w key r : rec_at (transactions w) key = Some r <-> recs (transactions w) !! key = Some r.
Proof. by rewrite recs_lookup. Qed.

Section From.
Context (m0 : Recs) (o0 : gmap string string) (A D : string -> TransactionRecord -> Prop).
Abbreviation F := (from m0 o0 A D).

(** Storing a successor of an old record. *)
Definition successor (r : TransactionRecord) : Prop :=
  rec_wf (tx_final r) r /\ exists r0, m0 !! tx_final r = Some r0 /\ rec_step r0 r.

Lemma successor_name r : successor r -> exists h, record_tx_final r = Ok h /\ transaction_dir h = tx_final r.
Proof. intros (Hwf & _). exact (rw_name _ _ Hwf). Qed.

Lemma successor_insert m o r : F m o -> successor r -> F (<[tx_final r := r]> m) o.
Proof. intros Hf (Hwf & r0 & Hr0 & Hs). by eapply from_insert. Qed.

Lemma write_successor r : successor r -> preserves (tracked F) (write_record r).
Proof.
  intros Hr. destruct (successor_name r Hr) as (h & Hh & Hd).
  apply (tracked_write_record F r h); [done..|]. intros m o Hf. by apply successor_insert.
Qed.

Lemma successor_refiled r r' :
  successor r -> is_terminal (state r) = true -> refiled r r' -> successor r'.
Proof.
  intros (Hwf & r0 & Hr0 & Hs) Ht Hf. pose proof (refiled_step _ _ Hf Ht) as Hst.
  assert (Heq : tx_final r' = tx_final r) by (destruct (rs_identity _ _ Hst); done).
  split; rewrite Heq; [by eapply refiled_wf|]. exists r0. split; [done|by etrans].
Qed.

Lemma settled_successor snap now r :
  rec_wf (tx_final r) r -> m0 !! tx_final r = Some r -> successor (settle_record snap now r).
Proof.
  intros Hwf Hr. destruct (settle_record_step snap now _ r Hwf) as [Hs Hwf'].
  assert (Heq : tx_final (settle_record snap now r) = tx_final r) by (destruct (rs_identity _ _ Hs); done).
  split; rewrite Heq; [done|eauto].
Qed.
End From.

Lemma tracked_load_records F w :
  tracked F w ->
  wp load_records
    (fun l w' => tracked F w'
       /\ (forall r, r ∈ l -> exists key, recs (transactions w) !! key = Some r)
       /\ (reads_ok -> forall key r, recs (transactions w) !! key = Some r -> r ∈ l)
       /\ same_tx w w')
    (fun _ w' => tracked F w') w.
Proof.
  intros Hw. eapply wp_mono; [by apply (load_records_spec w w)|..].
  - intros l w' (Hs & Hfwd & Hbwd). split_and!; [by eapply same_tx_tracked|..|done].
    + intros r Hr. destruct (Hfwd r Hr) as [key Hk]. exists key. by apply rec_at_recs.
    + intros Hro key r Hr. apply (Hbwd Hro key). by apply rec_at_recs.
  - intros e w' Hs. exact (same_tx_tracked F w w' Hs Hw).
Qed.

Lemma write_record_stores r w :
  rec_wf (tx_final r) r ->
  wp (write_record r) (fun _ w' => recs (transactions w') !! tx_final r = Some r) (fun _ _ => True) w.
Proof.
  intros Hwf. destruct (rw_name _ _ Hwf) as (h & Hh & Hd). unfold write_record.
  apply wp_bind, wp_lift; [|done]. intros h' Hh'. rewrite Hh in Hh'. injection Hh' as <-.
  apply wp_bind. eapply wp_mono; [apply wp_true| |done]. intros _ w1 _.
  apply wp_bind. eapply wp_mono; [apply wp_true| |done]. intros _ w2 _.
  apply wp_bind. eapply wp_mono; [apply wp_true| |done]. intros _ w3 _.
  unfold wp, modify, put_record; simpl. rewrite Hd, (recs_insert_Some _ _ _ r) by done.
  by rewrite lookup_insert_eq.
Qed.

(** What a settlement writes: the settled records, and then, once they are
    finished, with other files. [ok] is what holds of all of these. *)
Section Settling.
Context (F : Recs -> gmap string string -> Prop) (ok : TransactionRecord -> Prop).
Hypothesis ok_name : forall r, ok r -> exists h, record_tx_final r = Ok h /\ transaction_dir h = tx_final r.
Hypothesis ok_refiled : forall r r', ok r -> is_terminal (state r) = true -> refiled r r' -> ok r'.
Hypothesis F_write : forall m o r, F m o -> ok r -> F (<[tx_final r := r]> m) o.

Lemma write_settled r : ok r -> preserves (tracked F) (write_record r).
Proof.
  intros Hr. destruct (ok_name r Hr) as (h & Hh & Hd).
  apply (tracked_write_record F r h); [done..|]. intros m o Hf. by apply F_write.
Qed.

Lemma settle_records_spec snap now l w :
  tracked F w -> (forall r, r ∈ l -> ok (settle_record snap now r)) ->
  wp (settle_records snap now l)
    (fun res w' => tracked F w' /\ Forall ok (snd res) /\ fst res = settle_record snap now <$> l)
    (fun _ => tracked F) w.
Proof.
  revert w. induction l as [|r l IH]; intros w Hw Hl; [by apply wp_ret|]. simpl.
  pose proof (Hl r ltac:(by left)) as Hr.
  apply wp_bind. eapply wp_mono with (Q := fun _ => tracked F) (E := fun _ => tracked F); [|simpl|done].
  { destruct (negb _); [by apply write_settled|by apply wp_ret]. }
  intros [] w1 Hw1. apply wp_bind. eapply wp_mono; [apply IH; [done|]| |done].
  { intros r' Hr'. apply Hl. by right. }
  intros res w2 (Hw2 & Hres & Hfst). apply wp_ret. simpl. split_and!; [done| |by rewrite Hfst].
  destruct (negb _); [by constructor|done].
Qed.

Lemma persist_changed_keeps locked r w :
  tracked F w -> ok r ->
  wp (persist_changed locked r) (fun r' w' => tracked F w' /\ ok r') (fun _ => tracked F) w.
Proof.
  intros Hw Hr. unfold persist_changed.
  destruct (is_terminal (state r)) eqn:Ht; simpl; [|by apply wp_ret].
  apply wp_bind. eapply wp_mono; [by apply persist_tracked| |done].
  intros [r' res] w1 [Hw1 Hf]. simpl in *. pose proof (ok_refiled _ _ Hr Ht Hf) as Hr'.
  apply wp_bind. eapply wp_mono with (Q := fun _ => tracked F) (E := fun _ => tracked F); [|simpl|done].
  { destruct res as [[|]|]; [by apply write_settled|by apply wp_ret..]. }
  intros [] w2 Hw2. apply wp_bind.
  eapply wp_mono; [apply (tracked_of_framed F); [auto with don|exact Hw2]| |done].
  intros [] w3 Hw3. by apply wp_ret.
Qed.

Lemma persist_all_keeps locked l acc w :
  tracked F w -> Forall ok l -> Forall ok acc ->
  wp (efold (fun acc r => let! r' := persist_changed locked r in eret (acc ++ [r'])) acc l)
    (fun l' w' => tracked F w' /\ Forall ok l') (fun _ => tracked F) w.
Proof.
  intros Hw Hl. revert acc w Hw. induction Hl as [|r l Hr Hl IH]; intros acc w Hw Hacc; simpl; [by apply wp_ret|].
  apply wp_bind, wp_bind. eapply wp_mono; [by apply persist_changed_keeps| |done].
  intros r' w1 [Hw1 Hr']. apply wp_ret, IH; [done|]. apply Forall_app. by repeat constructor.
Qed.

Lemma settle_apply_keeps all snap w :
  tracked F w -> inv (recs (transactions w)) (owners w) ->
  (forall r now, rec_wf (tx_final r) r -> recs (transactions w) !! tx_final r = Some r -> ok (settle_record snap now r)) ->
  wp (settle_apply all snap) (fun o w' => tracked F w' /\ Forall ok (so_records (fst o))) (fun _ => tracked F) w.
Proof.
  intros Hw Hi Hsettle. unfold settle_apply. apply wp_bind. unfold wp at 1. simpl. apply wp_bind.
  eapply wp_mono; [apply (wp_framed clock w); [auto with don|done]
    |simpl|intros e w' Hs; exact (same_tx_tracked _ w w' Hs Hw)].
  intros now w1 Hs1. assert (Hw1 : tracked F w1) by exact (same_tx_tracked _ w w1 Hs1 Hw).
  apply wp_bind. eapply wp_mono; [by apply tracked_load_records|simpl|done].
  intros l w2 (Hw2 & Hl & _ & _).
  apply wp_bind. eapply wp_mono; [apply settle_records_spec; [done|]|simpl|done].
  { intros r Hr. destruct (Hl r Hr) as [key Hk]. destruct Hs1 as [Ht1 _]. rewrite Ht1 in Hk.
    pose proof (inv_wf _ _ Hi _ _ Hk) as Hwf. pose proof (rw_key _ _ Hwf) as Hkey. subst key. by apply Hsettle. }
  intros [after changed] w3 (Hw3 & Hch & _). simpl in *.
  apply wp_bind. eapply wp_mono; [by apply persist_all_keeps; [..|constructor]|simpl|done].
  intros records w4 [Hw4 Hrec]. apply wp_bind.
  eapply wp_mono; [apply (tracked_of_framed F); [auto with don|exact Hw4]|simpl|done].
  intros entries w5 Hw5. apply wp_bind.
  eapply wp_mono; [apply (tracked_of_framed F); [intros; keeps|exact Hw5]|simpl|done].
  intros entries' w6 Hw6. apply wp_bind. unfold changed_entries, wp at 1. simpl.
  apply wp_bind. unfold wp at 1. simpl. by apply wp_ret.
Qed.
End Settling.

(** The step of a settlement. *)
Lemma settle_apply_from all snap w :
  untorn (transactions w) -> inv (recs (transactions w)) (owners w) ->
  let P := tracked (from (recs (transactions w)) (owners w) nothing nothing) in
  wp (settle_apply all snap) (fun _ => P) (fun _ => P) w.
Proof.
  intros Hu Hi P. set (m0 := recs (transactions w)) in *. set (o0 := owners w) in *.
  eapply wp_mono; [apply (settle_apply_keeps (from m0 o0 nothing nothing) (successor m0))| |done].
  - apply successor_name.
  - apply successor_refiled.
  - apply successor_insert.
  - split; [done|by apply from_refl].
  - done.
  - intros r now. apply settled_successor.
  - by intros o w' [Hw' _].
Qed.

(** The records a settlement reports are in the state of those on disk. *)
Definition state_after (snap : Snapshot) (r : TransactionRecord) : TransactionState :=
  state (settle_record snap 0 r).

Lemma state_after_now snap now r : state (settle_record snap now r) = state_after snap r.
Proof.
  unfold state_after, settle_record, decide_record. destruct (negb _); [done|]. destruct (_ && _); [done|].
  destruct (statuses snap !! tx_final r) as [[st|]|].
  - destruct (st_error st); destruct (annotate snap r); reflexivity.
  - destruct (head_block snap); [|done]. destruct (grounding_aged_out _ _); [|done]. by destruct (annotate snap r).
  - destruct (head_block snap); [|done]. destruct (grounding_aged_out _ _); [|done]. by destruct (annotate snap r).
Qed.

Definition settles (m0 : Recs) (snap : Snapshot) (r : TransactionRecord) : Prop :=
  (exists h, record_tx_final r = Ok h /\ transaction_dir h = tx_final r)
  /\ exists r0, m0 !! tx_final r = Some r0 /\ state r = state_after snap r0.

Lemma settles_refiled m0 snap r r' : settles m0 snap r -> refiled r r' -> settles m0 snap r'.
Proof. intros [(h & Hh & Hd) (r0 & Hr0 & Hst)] (i & u & p & ->). destruct r. split; [by exists h|by exists r0]. Qed.

Lemma settle_settles m0 snap now r :
  rec_wf (tx_final r) r -> m0 !! tx_final r = Some r -> settles m0 snap (settle_record snap now r).
Proof.
  intros Hwf Hr. destruct (settled_successor m0 snap now r Hwf Hr) as (Hwf' & r0 & Hr0 & Hs).
  split; [exact (rw_name _ _ Hwf')|]. destruct (settle_record_step snap now _ r Hwf) as [Hst _].
  exists r. split; [|by apply state_after_now]. destruct (rs_identity _ _ Hst) as (-> & _). done.
Qed.

(** The records of [ks] are on disk in the state the settlement gave them. *)
Definition filed (m0 : Recs) (snap : Snapshot) (ks : list string) (m : Recs) (_ : gmap string string) : Prop :=
  forall k, k ∈ ks -> exists r0 r, m0 !! k = Some r0 /\ m !! k = Some r /\ state r = state_after snap r0.

Lemma filed_write m0 snap ks m o r :
  filed m0 snap ks m o -> settles m0 snap r -> filed m0 snap ks (<[tx_final r := r]> m) o.
Proof.
  intros Hm [_ (r0 & Hr0 & Hst)] k Hk. destruct (decide (k = tx_final r)) as [->|Hne].
  - exists r0, r. by rewrite lookup_insert_eq.
  - rewrite lookup_insert_ne by done. by apply Hm.
Qed.

Lemma settle_records_filed m0 snap now l ks w :
  tracked (filed m0 snap ks) w ->
  (forall r, r ∈ l -> rec_wf (tx_final r) r /\ m0 !! tx_final r = Some r) ->
  wp (settle_records snap now l) (fun res => tracked (filed m0 snap (ks ++ (tx_final <$> snd res)))) (fun _ _ => True) w.
Proof.
  revert ks w. induction l as [|r l IH]; intros ks w Hw Hl; simpl.
  { apply wp_ret. simpl. by rewrite app_nil_r. }
  destruct (Hl r ltac:(by left)) as [Hwf Hr]. pose proof (settle_settles m0 snap now r Hwf Hr) as Hset.
  assert (forall r', r' ∈ l -> rec_wf (tx_final r') r' /\ m0 !! tx_final r' = Some r') as Hl' by (intros; apply Hl; by right).
  apply wp_bind. destruct (negb _); simpl.
  - pose proof (proj1 (settled_successor m0 snap now r Hwf Hr)) as Hwf'.
    eapply wp_mono; [apply wp_conj; [apply (write_settled (filed m0 snap ks) (settles m0 snap)); [| |exact Hset|exact Hw]|by apply write_record_stores]| |done].
    { by intros x [Hx _]. }
    { intros m o x. apply filed_write. }
    intros [] w1 ([Hu1 Hf1] & Hr1).
    assert (tracked (filed m0 snap (ks ++ [tx_final (settle_record snap now r)])) w1) as Hw1.
    { split; [done|]. intros k [Hk|Hk%list_elem_of_singleton]%elem_of_app; [by apply Hf1|subst k].
      destruct Hset as [_ (r0 & Hr0 & Hst)]. by exists r0, (settle_record snap now r). }
    apply wp_bind. eapply wp_mono; [by apply IH| |done]. intros res w2 Hw2. apply wp_ret. csimpl. by rewrite (cons_middle _ ks), (assoc_L (++)).
  - apply wp_ret, wp_bind. eapply wp_mono; [by apply IH| |done]. intros res w2 Hw2. by apply wp_ret.
Qed.

Lemma settle_apply_filed all snap w :
  untorn (transactions w) -> inv (recs (transactions w)) (owners w) ->
  wp (settle_apply all snap)
    (fun o w' => forall c, c ∈ so_records (fst o) ->
       exists r, recs (transactions w') !! tx_final c = Some r /\ state r = state c)
    (fun _ _ => True) w.
Proof.
  intros Hu Hi. set (m0 := recs (transactions w)) in *. unfold settle_apply. apply wp_bind. unfold wp at 1. simpl. apply wp_bind.
  eapply wp_mono; [apply (wp_framed clock w); [auto with don|done]|simpl|done]. intros now w1 Hs1.
  assert (Hw1 : tracked (filed m0 snap []) w1).
  { apply (same_tx_tracked _ w w1 Hs1). split; [done|]. by intros k ?%not_elem_of_nil. }
  apply wp_bind. eapply wp_mono; [by apply tracked_load_records|simpl|done]. intros l w2 (Hw2 & Hl & _ & _).
  assert (forall r, r ∈ l -> rec_wf (tx_final r) r /\ m0 !! tx_final r = Some r) as Hl'.
  { intros r Hr. destruct (Hl r Hr) as [key Hk]. destruct Hs1 as [Ht1 _]. rewrite Ht1 in Hk.
    pose proof (inv_wf _ _ Hi _ _ Hk) as Hwf. pose proof (rw_key _ _ Hwf) as Hkey. by subst key. }
  apply wp_bind. eapply wp_mono; [apply wp_conj; [by apply settle_records_filed|
    apply (settle_records_spec (filed m0 snap []) (settles m0 snap)); [|intros m o x; apply filed_write|exact Hw2|]]|simpl|done].
  { by intros x [Hx _]. }
  { intros r Hr. destruct (Hl' r Hr). by apply settle_settles. }
  intros [after changed] w3 (Hw3 & _ & Hch & _). simpl in *. set (ks := tx_final <$> changed) in *.
  set (ok := fun r => settles m0 snap r /\ tx_final r ∈ ks).
  assert (Forall ok changed) as Hok.
  { rewrite Forall_forall in Hch |- *. intros r Hr. split; [by apply Hch|]. apply list_elem_of_fmap. by exists r. }
  apply wp_bind. eapply wp_mono; [apply (persist_all_keeps (filed m0 snap ks) ok); [..|exact Hw3|exact Hok|constructor]|simpl|done].
  { by intros r [[Hr _] _]. }
  { intros r r' [Hr Hk] _ Hf. split; [by eapply settles_refiled|]. destruct Hf as (i & u & p & ->). by destruct r. }
  { intros m o r Hm [Hr _]. by apply filed_write. }
  intros records w4 [Hw4 Hrec]. apply wp_bind.
  eapply wp_mono; [apply (tracked_of_framed (filed m0 snap ks)); [auto with don|exact Hw4]|simpl|done].
  intros entries w5 Hw5. apply wp_bind.
  eapply wp_mono; [apply (tracked_of_framed (filed m0 snap ks)); [intros; keeps|exact Hw5]|simpl|done].
  intros entries' w6 [_ Hw6]. apply wp_bind. unfold changed_entries, wp at 1. simpl.
  apply wp_bind. unfold wp at 1. simpl. apply wp_ret. simpl. intros c Hc. rewrite Forall_forall in Hrec.
  destruct (Hrec c Hc) as [[_ (r0 & Hr0 & Hst)] Hk]. destruct (Hw6 _ Hk) as (r1 & r & Hr1 & Hr & Hstr).
  exists r. split; [done|]. congruence.
Qed.

Lemma get_transaction_spec h w :
  wp (get_transaction h)
    (fun r w' => same_tx w w' /\ recs (transactions w) !! transaction_dir h = Some r)
    (fun _ => same_tx w) w.
Proof.
  unfold get_transaction. apply wp_bind. eapply wp_mono; [by apply (read_record_spec w)|simpl|done].
  intros o w1 [Hs Hr]. apply wp_lift; destruct o as [r|]; simpl; try done.
  intros r' [= <-]. split; [done|]. by apply rec_at_recs.
Qed.

(** A step that works on the record it found under [h]. *)
Lemma with_record {B} F h (k : TransactionRecord -> eff World B) w :
  tracked F w ->
  (forall r, recs (transactions w) !! transaction_dir h = Some r -> preserves (tracked F) (k r)) ->
  wp (let! r := get_transaction h in k r) (fun _ => tracked F) (fun _ => tracked F) w.
Proof.
  intros Hw Hk. apply wp_bind. eapply wp_mono; [apply get_transaction_spec|simpl|].
  - intros r w1 [Hs Hr]. apply Hk; [done|]. exact (same_tx_tracked F w w1 Hs Hw).
  - intros e w1 Hs. exact (same_tx_tracked F w w1 Hs Hw).
Qed.

Definition unoffered (_ : string) (r : TransactionRecord) : Prop :=
  state r = Recorded /\ submit_attempted_at_ms r = None.

Lemma delete_from h w :
  untorn (transactions w) -> inv (recs (transactions w)) (owners w) ->
  let P := tracked (from (recs (transactions w)) (owners w) nothing unoffered) in
  wp (delete_transaction h) (fun _ => P) (fun _ => P) w.
Proof.
  intros Hu Hi P. assert (Hw : P w) by (split; [done|by apply from_refl]).
  unfold delete_transaction. apply with_record; [done|]. intros r Hr.
  case_bool_decide as Hst; simpl; [|apply preserves_throw].
  case_bool_decide as Hat; simpl; [|apply preserves_throw].
  apply preserves_bind; [apply tracked_of_framed; auto with don|]. intros fs.
  apply preserves_bind; [|intros; apply preserves_ret].
  apply tracked_remove_transaction. intros m o Hf. apply from_delete; [done|].
  intros r0 Hr0. rewrite Hr in Hr0. by simplify_eq.
Qed.

Lemma update_from h (change : TransactionRecord -> eff World (option TransactionRecord)) w :
  untorn (transactions w) -> inv (recs (transactions w)) (owners w) ->
  (forall r, rec_wf (transaction_dir h) r -> forall w1,
     wp (change r) (fun res w2 => same_tx w1 w2 /\ forall r', res = Some r' ->
         rec_step r r' /\ rec_wf (transaction_dir h) r') (fun _ => same_tx w1) w1) ->
  let P := tracked (from (recs (transactions w)) (owners w) nothing nothing) in
  wp (update_record h change) (fun _ => P) (fun _ => P) w.
Proof.
  intros Hu Hi Hch P. assert (Hw : P w) by (split; [done|by apply from_refl]).
  unfold update_record. apply with_record; [done|]. intros r Hr w1 Hw1.
  pose proof (inv_wf _ _ Hi _ _ Hr) as Hwf.
  apply wp_bind. eapply wp_mono; [by apply Hch|simpl|].
  - intros [r'|] w2 [Hs Hr'].
    + destruct (Hr' r' eq_refl) as [Hstep Hwf']. apply wp_bind.
      eapply wp_mono; [eapply write_successor|simpl; by intros; apply wp_ret|done].
      * split; rewrite (rw_key _ _ Hwf'); [done|]. exists r. done.
      * exact (same_tx_tracked _ w1 w2 Hs Hw1).
    + apply wp_ret. exact (same_tx_tracked _ w1 w2 Hs Hw1).
  - intros e w2 Hs. exact (same_tx_tracked _ w1 w2 Hs Hw1).
Qed.

Lemma clock_same w1 w : same_tx w1 w -> wp clock (fun _ => same_tx w1) (fun _ => same_tx w1) w.
Proof. apply wp_framed. auto with don. Qed.

Lemma mark_attempted_from h w :
  untorn (transactions w) -> inv (recs (transactions w)) (owners w) ->
  let P := tracked (from (recs (transactions w)) (owners w) nothing nothing) in
  wp (mark_attempted h) (fun _ => P) (fun _ => P) w.
Proof.
  intros Hu Hi. apply update_from; [done..|]. intros r Hwf w1.
  case_bool_decide as Hst; simpl; [|by apply wp_ret].
  destruct (submit_attempted_at_ms r) as [t|] eqn:Hat.
  - apply wp_ret. split; [done|]. intros r' [= <-]. split; [reflexivity|done].
  - apply wp_bind. eapply wp_mono; [by apply clock_same|simpl|done]. intros t w2 Hs. apply wp_ret.
    split; [done|]. intros r' [= <-]. destruct Hwf as [K N S L E T]. destruct r; simpl in *.
    split; split; simpl; try done; by subst.
Qed.

Lemma mark_submitted_from h resp w :
  untorn (transactions w) -> inv (recs (transactions w)) (owners w) ->
  let P := tracked (from (recs (transactions w)) (owners w) nothing nothing) in
  wp (mark_submitted h resp) (fun _ => P) (fun _ => P) w.
Proof.
  intros Hu Hi. apply update_from; [done..|]. intros r Hwf w1.
  case_bool_decide as Hst; simpl; [|by apply wp_ret].
  apply wp_bind. eapply wp_mono; [by apply clock_same|simpl|done]. intros t w2 Hs. apply wp_ret.
  split; [done|]. intros r' [= <-]. destruct Hwf as [K N S L E T].
  destruct r; simpl in *; subst; destruct (sr_status resp); simpl; (split; split; simpl; try done; by eauto).
Qed.

(** *** Pruning *)

Definition settled (_ : string) (r : TransactionRecord) : Prop := is_terminal (state r) = true.

Lemma set_reconciled_tracked F f : preserves (tracked F) (modify (fun w => set_reconciled (f w) w)).
Proof. by intros w Hw. Qed.

(** Pruning rewrites finished records, only their files, and removes them. *)
Section Pruning.
Context (F : Recs -> gmap string string -> Prop) (m0 : Recs).

Definition finished (r : TransactionRecord) : Prop :=
  rec_wf (tx_final r) r /\ m0 !! tx_final r = Some r /\ is_terminal (state r) = true.

Hypothesis F_refile : forall m o r r', F m o -> finished r -> refiled r r' -> F (<[tx_final r := r']> m) o.
Hypothesis F_remove : forall m o r, F m o -> finished r -> F (delete (tx_final r) m) o.

Lemma refiled_name r r' : finished r -> refiled r r' ->
  tx_final r' = tx_final r /\ exists h, record_tx_final r' = Ok h /\ transaction_dir h = tx_final r.
Proof.
  intros (Hwf & _) Hf. destruct (rw_name _ _ (refiled_wf _ _ _ Hf Hwf)) as (h & Hh & Hd).
  split; [|by exists h]. destruct Hf as (i & u & p & ->). by destruct r.
Qed.

Lemma write_refiled r r' : finished r -> refiled r r' -> preserves (tracked F) (write_record r').
Proof.
  intros Hr Hf. destruct (refiled_name r r' Hr Hf) as (Heq & h & Hh & Hd).
  apply (tracked_write_record F r' h); [done|by rewrite Heq|]. intros m o Hm. rewrite Heq. by apply F_refile.
Qed.

Lemma reconcile_spec now locked r w :
  tracked F w -> finished r ->
  wp (reconcile now locked r)
    (fun res w' => tracked F w' /\ forall r', res = Ok r' -> refiled r r')
    (fun _ => tracked F) w.
Proof.
  intros Hw Hr. unfold reconcile. apply wp_bind. unfold wp at 1; simpl.
  destruct (_ && _).
  { apply wp_ret. split; [done|]. intros r' [= <-]. apply refiled_refl. }
  apply wp_bind. eapply wp_mono; [by apply persist_tracked|simpl|done].
  intros [r' res] w1 [Hw1 Hf]. simpl in *.
  apply wp_bind. eapply wp_mono with (Q := fun _ => tracked F) (E := fun _ => tracked F); [|simpl|done].
  { destruct res as [[|]|]; [|by apply wp_ret..]. apply preserves_try; [|done]. by eapply write_refiled. }
  intros persisted w2 Hw2. destruct persisted as [[]|m]; apply wp_bind;
    (eapply wp_mono; [by apply set_reconciled_tracked|simpl|done]);
    intros [] w3 Hw3; apply wp_ret; (split; [done|]); intros r'' [= <-]; done.
Qed.

Lemma prune_record_keeps now locked acc r : finished r -> preserves (tracked F) (prune_record now locked acc r).
Proof.
  intros Hr w Hw. unfold prune_record. destruct acc as [pruned next].
  apply wp_bind. eapply wp_mono; [by apply reconcile_spec|simpl|done].
  intros [r'|m] w1 [Hw1 Hf]; [|by apply wp_ret]. specialize (Hf r' eq_refl).
  destruct (_ <=? _); [|by apply wp_ret].
  destruct (refiled_name r r' Hr Hf) as (Heq & h & Hh & Hd).
  apply wp_bind, wp_lift; [|done]. intros h' Hh'. rewrite Hh in Hh'. injection Hh' as <-.
  apply wp_bind, wp_try.
  assert (Hrm : preserves (tracked F) (remove_transaction h)).
  { apply tracked_remove_transaction. intros m o Hm. rewrite Hd. by apply F_remove. }
  eapply wp_mono; [by apply Hrm|simpl|].
  - intros [] w2 Hw2. apply wp_bind. eapply wp_mono; [by apply set_reconciled_tracked|simpl|done].
    intros [] w3 Hw3. by apply wp_ret.
  - intros [m|m] w2 Hw2; [by apply wp_ret|done].
Qed.

Lemma prune_all_keeps now locked l acc :
  Forall finished l -> preserves (tracked F) (efold (prune_record now locked) acc l).
Proof.
  intros Hl. revert acc. induction Hl as [|r l Hr Hl IH]; intros acc; simpl; [apply preserves_ret|].
  apply preserves_bind; [by apply prune_record_keeps|]. intros acc'. apply IH.
Qed.

Lemma prune_keeps now w :
  tracked F w -> m0 = recs (transactions w) -> inv (recs (transactions w)) (owners w) ->
  wp (prune_transactions now) (fun _ => tracked F) (fun _ => tracked F) w.
Proof.
  intros Hw Hm Hi. unfold prune_transactions.
  apply wp_bind. eapply wp_mono; [by apply tracked_load_records|simpl|done].
  intros l w1 (Hw1 & Hl & _ & _). revert w1 Hw1.
  apply preserves_bind; [apply tracked_of_framed; auto with don|]. intros _.
  apply preserves_bind; [by apply set_reconciled_tracked|]. intros _.
  apply preserves_bind.
  - apply prune_all_keeps, Forall_forall. intros r [Ht Hr]%list_elem_of_filter. destruct (Hl r Hr) as [key Hk].
    pose proof (inv_wf _ _ Hi _ _ Hk) as Hwf. unfold finished. rewrite Hm. by rewrite (rw_key _ _ Hwf).
  - intros res. apply tracked_of_framed. intros I. unfold changed_entries. keeps.
Qed.
End Pruning.

Lemma prune_from now w :
  untorn (transactions w) -> inv (recs (transactions w)) (owners w) ->
  let P := tracked (from (recs (transactions w)) (owners w) nothing settled) in
  wp (prune_transactions now) (fun _ => P) (fun _ => P) w.
Proof.
  intros Hu Hi P. eapply prune_keeps; [..|done|done].
  - intros m o r r' Hm (Hwf & Hr & Ht) Hf. eapply from_insert; [done..|by apply refiled_step|by eapply refiled_wf].
  - intros m o r Hm (Hwf & Hr & Ht). apply from_delete; [done|]. intros r0 Hr0. by simplify_eq.
  - split; [done|by apply from_refl].
Qed.

(** Pruning finishes no record. *)
Definition none_finished (m0 m : Recs) : Prop :=
  forall key r, m !! key = Some r -> is_terminal (state r) = true ->
    exists r0, m0 !! key = Some r0 /\ is_terminal (state r0) = true.

Lemma prune_finishes_none now w :
  untorn (transactions w) -> inv (recs (transactions w)) (owners w) ->
  let P := tracked (fun m _ => none_finished (recs (transactions w)) m) in
  wp (prune_transactions now) (fun _ => P) (fun _ => P) w.
Proof.
  intros Hu Hi P. eapply prune_keeps; [..|done|done].
  - intros m o r r' Hm (_ & Hr & Ht) _ key x [[<- <-]|[_ Hx]]%lookup_insert_Some Hxt; [by exists r|by eapply Hm].
  - intros m o r Hm _ key x [_ Hx]%lookup_delete_Some Hxt. by eapply Hm.
  - split; [done|]. intros key r Hr Ht. by exists r.
Qed.
End Steps.


(** ** Recording a transaction *)
Section Recording.
Context `{Clients, Pod2Laws}.

Definition added (p : ProvedTransaction) (key : string) (r : TransactionRecord) : Prop :=
  key = transaction_dir (pt_tx_final p) /\ state r = Recorded /\ input_files r = pt_input_files p
  /\ submit_attempted_at_ms r = None.

Lemma new_record_added p ofs pend now :
  let r := new_record p ofs pend now in
  tx_final r = transaction_dir (pt_tx_final p) /\ added p (tx_final r) r.
Proof. done. Qed.

Lemma new_record_wf p ofs pend now :
  canonical_hash (pt_tx_final p) ->
  rec_wf (transaction_dir (pt_tx_final p)) (new_record p ofs pend now)
  /\ record_tx_final (new_record p ofs pend now) = Ok (pt_tx_final p).
Proof.
  intros Hc. assert (Hr : record_tx_final (new_record p ofs pend now) = Ok (pt_tx_final p)).
  { unfold record_tx_final. simpl. by rewrite decode_encode_hash. }
  split; [|done]. split; simpl; try done. eauto.
Qed.

Lemma commit_record_keeps p m0 o0 ofs pend now :
  canonical_hash (pt_tx_final p) -> m0 !! transaction_dir (pt_tx_final p) = None ->
  preserves (tracked (from m0 o0 (added p) nothing)) (commit_record p (new_record p ofs pend now)).
Proof.
  intros Hc Hnew. set (r := new_record p ofs pend now). set (F := from m0 o0 (added p) nothing).
  destruct (new_record_wf p ofs pend now Hc) as [Hwf Hn]. fold r in Hwf, Hn.
  assert (Hwr : preserves (tracked F) (write_record r)).
  { apply (tracked_write_record F r (pt_tx_final p)); [done..|]. intros m o Hm.
    by apply from_insert_new. }
  assert (Hrm : preserves (tracked F) (remove_transaction (pt_tx_final p))).
  { apply tracked_remove_transaction. intros m o Hm. apply from_delete; [done|].
    intros r0 Hr0. by rewrite Hnew in Hr0. }
  unfold commit_record. apply preserves_bind; [apply tracked_of_framed; auto with don|]. intros res.
  apply preserves_bind; [|intros [[]|m]].
  - destruct (fst res) as [[]|[m|m]]; [|apply preserves_ret|apply preserves_throw].
    apply preserves_try, preserves_bind; [apply tracked_write_payload|intros; apply Hwr].
  - apply preserves_ret.
  - apply preserves_bind; [apply tracked_of_framed; auto with don|]. intros [].
    apply preserves_bind; [by apply preserves_try|]. intros x. apply preserves_throw.
Qed.

Lemma record_body_from p w :
  canonical_hash (pt_tx_final p) ->
  untorn (transactions w) -> inv (recs (transactions w)) (owners w) ->
  let P := tracked (from (recs (transactions w)) (owners w) (added p) nothing) in
  wp (record_body p) (fun _ => P) (fun _ => P) w.
Proof.
  intros Hc Hu Hi P. assert (Hw : P w) by (split; [done|by apply from_refl]).
  assert (HP : forall w', same_tx w w' -> P w')
    by (intros w' Hs; exact (same_tx_tracked _ w w' Hs Hw)).
  unfold record_body. apply wp_bind, wp_lift; [|done]. intros ofs _.
  apply wp_bind. eapply wp_mono; [apply (wp_framed _ w w); [auto with don|done]|simpl|auto].
  intros entries w1 Hs1. apply wp_bind.
  eapply wp_mono; [apply (wp_framed _ w w1); [auto with don|done]|simpl|auto].
  intros records w2 Hs2. apply wp_bind, wp_lift; [|by auto]. intros [] _.
  apply wp_bind. eapply wp_mono; [by apply (read_record_spec w)|simpl|auto].
  intros old w3 [Hs3 Hold]. apply wp_bind.
  destruct old as [r0|]; [by apply HP|]. apply wp_ret.
  apply wp_bind. eapply wp_mono; [apply (wp_framed _ w w3); [auto with don|done]|simpl|auto].
  intros [] w4 Hs4. apply wp_bind. unfold wp at 1; simpl.
  apply wp_bind, wp_lift; [|by auto]. intros [ofs' pend] _. simpl.
  apply wp_bind. eapply wp_mono; [by apply (clock_same w)|simpl|auto].
  intros now w5 Hs5. apply wp_bind.
  eapply wp_mono; [apply commit_record_keeps; [done| |by apply HP]|simpl|done].
  - rewrite recs_lookup. exact Hold.
  - intros [] w6 Hw6. by apply wp_ret.
Qed.
End Recording.

(** ** Holds *)
Section HoldLemmas.
Context `{Clients, Pod2}.

Lemma lookup_claims (o : gmap string string) files label f :
  claim label files o !! f = if decide (f ∈ files) then Some label else o !! f.
Proof.
  revert o. induction files as [|g files IH]; intros o; [done|].
  cbn [claim release foldl] in *. unfold claim, release in *. simpl. rewrite IH.
  destruct (decide (f ∈ files)) as [Hf|Hf].
  - rewrite decide_True by by right. done.
  - destruct (decide (f = g)) as [->|Hg].
    + rewrite decide_True by by left. by rewrite lookup_insert_eq.
    + rewrite decide_False by (rewrite elem_of_cons; naive_solver). by rewrite lookup_insert_ne.
Qed.

Lemma lookup_released (o : gmap string string) files f :
  release files o !! f = if decide (f ∈ files) then None else o !! f.
Proof.
  revert o. induction files as [|g files IH]; intros o; [done|].
  cbn [claim release foldl] in *. unfold claim, release in *. simpl. rewrite IH.
  destruct (decide (f ∈ files)) as [Hf|Hf].
  - rewrite decide_True by by right. done.
  - destruct (decide (f = g)) as [->|Hg].
    + rewrite decide_True by by left. by rewrite lookup_delete_eq.
    + rewrite decide_False by (rewrite elem_of_cons; naive_solver). by rewrite lookup_delete_ne.
Qed.

Lemma check_claims_Ok files locked o :
  check_claims files locked o = Ok tt <-> forall f, f ∈ files -> o !! f = None /\ f ∉ locked.
Proof.
  induction files as [|g files IH]; simpl.
  - split; [|done]. intros _ f Hf. by apply not_elem_of_nil in Hf.
  - destruct (o !! g) eqn:Hg.
    + split; [done|]. intros Hf. destruct (Hf g); [by left|congruence].
    + destruct (decide (g ∈ locked)) as [Hl|Hl].
      * split; [done|]. intros Hf. by destruct (Hf g); [by left|].
      * rewrite IH. setoid_rewrite elem_of_cons. naive_solver.
Qed.

Lemma elem_of_locked records f :
  f ∈ locked_inputs records <-> exists r, r ∈ records /\ is_open r = true /\ f ∈ input_files r.
Proof.
  unfold locked_inputs. rewrite elem_of_list_to_set, list_elem_of_bind.
  setoid_rewrite list_elem_of_filter. naive_solver.
Qed.

(** Claiming inputs: all or none, and none that an open transaction spends. *)
Lemma hold_inputs_spec files label w :
  reads_ok ->
  wp (hold_inputs files label)
    (fun fs w' => fs = files /\ transactions w' = transactions w
       /\ owners w' = claim label files (owners w)
       /\ forall f, f ∈ files -> owners w !! f = None
            /\ forall key r, recs (transactions w) !! key = Some r -> is_open r = true -> f ∉ input_files r)
    (fun _ => same_tx w) w.
Proof.
  intros Hro. unfold hold_inputs. apply wp_bind.
  eapply wp_mono; [apply (wp_framed _ w w); [auto with don|done]|simpl|done].
  intros _ w1 Hs1. apply wp_bind.
  eapply wp_mono; [by apply (load_records_spec w w1)|simpl|done].
  intros l w2 (Hs2 & _ & Hl). unfold take_holds. apply wp_bind. unfold wp at 1; simpl.
  apply wp_bind, wp_lift; [|done]. intros [] Hcl. apply wp_bind. unfold wp at 1; simpl.
  apply wp_ret. destruct Hs2 as [Ht Ho]. simpl. rewrite Ho. split_and!; [done..|].
  pose proof (proj1 (check_claims_Ok _ _ _) Hcl) as Hcl2. intros f Hf. destruct (Hcl2 f Hf) as [Hfree Hnl]. rewrite Ho in Hfree.
  split; [done|]. intros key r Hr Hopen Hin. apply Hnl, elem_of_locked. exists r.
  split_and!; try done. apply (Hl Hro key). by apply rec_at_recs.
Qed.
End HoldLemmas.


(** ** Runs

    The steps of the driver, each under the store lock, with the proofs under
    way as the lists of files they hold. [mark_attempted] and [mark_submitted]
    are the steps of [submit]; a settlement step applies any snapshot, however
    stale. The environment may change between steps, and a restart forgets what
    is in memory. *)
Inductive driver_step `{Clients, Plonky2, Pod2} : World * list (list string) -> World * list (list string) -> Prop :=
| step_hold w js files label w' :
    hold_inputs files label w = (Ok files, w') -> driver_step (w, js) (w', files :: js)
| step_hold_refused w js files label e w' :
    hold_inputs files label w = (Err e, w') -> driver_step (w, js) (w', js)
| step_abandon w js files js' :
    js ≡ₚ files :: js' -> driver_step (w, js) (drop_holds files w, js')
| step_record w js js' p r w' :
    js ≡ₚ pt_input_files p :: js' -> canonical_hash (pt_tx_final p) ->
    record_tx p w = (r, w') -> driver_step (w, js) (w', js')
| step_delete w js h r w' :
    delete_transaction h w = (r, w') -> driver_step (w, js) (w', js)
| step_attempt w js h r w' :
    mark_attempted h w = (r, w') -> driver_step (w, js) (w', js)
| step_accepted w js h resp r w' :
    mark_submitted h resp w = (r, w') -> driver_step (w, js) (w', js)
| step_settle w js all snap r w' :
    settle_apply all snap w = (r, w') -> driver_step (w, js) (w', js)
| step_prune w js now r w' :
    prune_transactions now w = (r, w') -> driver_step (w, js) (w', js)
| step_env w js e : driver_step (w, js) (set_env e w, js)
| step_restart w js : driver_step (w, js) (set_owners ∅ (set_reconciled ∅ w), []).

(** Proofs under way hold distinct files, and nothing else is held. *)
Fixpoint disjoint_jobs (js : list (list string)) : Prop :=
  match js with
  | [] => True
  | j :: js' => (forall f, f ∈ j -> f ∉ concat js') /\ disjoint_jobs js'
  end.

Record sys_inv `{Machine, Pod2} (s : World * list (list string)) : Prop := {
  si_untorn : untorn (transactions (fst s));
  si_records : inv (recs (transactions (fst s))) (owners (fst s));
  si_held f : is_Some (owners (fst s) !! f) <-> f ∈ concat (snd s);
  si_jobs : disjoint_jobs (snd s);
}.

#[global] Instance disjoint_jobs_proper : Proper ((≡ₚ) ==> iff) disjoint_jobs.
Proof.
  assert (Hc : forall (l l' : list (list string)) f, l ≡ₚ l' -> f ∈ concat l -> f ∈ concat l').
  { intros l l' f Hl. rewrite !list_elem_of_In, !in_concat. intros (x & Hx & Hf). exists x.
    split; [|done]. by rewrite <- Hl. }
  assert (Hd : forall l l' : list (list string), l ≡ₚ l' -> disjoint_jobs l -> disjoint_jobs l').
  { intros l l' Hl. induction Hl as [|j l l' Hl IH|i j l|l1 l2 l3 _ IH1 _ IH2]; simpl; [done|..].
    - intros [Hj Hd]. split; [|auto]. intros f Hf Hin. apply (Hj f Hf). by eapply Hc; [symmetry|].
    - intros (Hj & Hi & Hd). split_and!; [..|done]; intros f Hf; [|intros Hin].
      + rewrite elem_of_app. intros [Hin|Hin]; [|by apply (Hi f)].
        apply (Hj f Hin). apply elem_of_app. by left.
      + apply (Hj f Hf). apply elem_of_app. by right.
    - auto. }
  intros l l' Hl. split; apply Hd; [done|by symmetry].
Qed.

Section RunLemmas.
Context `{Clients, Pod2Laws}.

Lemma elem_of_concat_perm (l l' : list (list string)) f : l ≡ₚ l' -> f ∈ concat l <-> f ∈ concat l'.
Proof.
  intros Hl. rewrite !list_elem_of_In, !in_concat. split; intros (x & Hx & Hf); exists x;
    (split; [|done]); [by rewrite <- Hl|by rewrite Hl].
Qed.

(** Releasing a proof's files. *)
Lemma released_jobs o files js js' :
  js ≡ₚ files :: js' -> disjoint_jobs js -> (forall f, is_Some (o !! f) <-> f ∈ concat js) ->
  disjoint_jobs js'
  /\ forall f, is_Some (release files o !! f) <-> f ∈ concat js'.
Proof.
  intros Hp Hd Ho. rewrite Hp in Hd. destruct Hd as [Hf Hd]. split; [done|]. intros f.
  rewrite lookup_released. destruct (decide (f ∈ files)) as [Hin|Hin].
  - split; [by intros []|]. intros Hc. by destruct (Hf f Hin).
  - rewrite Ho, (elem_of_concat_perm _ _ f Hp). simpl. rewrite elem_of_app. naive_solver.
Qed.

Lemma inv_released m o files : inv m o -> inv m (release files o).
Proof.
  intros Hi. split; [apply Hi|apply Hi|]. intros key r f Hr Ho Hf. rewrite lookup_released.
  case_decide; [done|]. by eapply (inv_held _ _ Hi).
Qed.

Lemma inv_claimed m o files label :
  inv m o -> (forall f key r, f ∈ files -> m !! key = Some r -> is_open r = true -> f ∉ input_files r) ->
  inv m (claim label files o).
Proof.
  intros Hi Hfree. split; [apply Hi|apply Hi|]. intros key r f Hr Ho Hf. rewrite lookup_claims.
  case_decide as Hin; [|by eapply (inv_held _ _ Hi)]. by destruct (Hfree f key r Hin Hr Ho).
Qed.

(** A recorded transaction takes over the files its proof held. *)
Lemma inv_recorded p m0 o0 m o :
  inv m0 o0 -> from m0 o0 (added p) nothing m o -> (forall f, f ∈ pt_input_files p -> is_Some (o0 !! f)) ->
  inv m (release (pt_input_files p) o).
Proof.
  intros Hi [Hr Hk ->] Hheld.
  assert (Hcase : forall key r, m !! key = Some r -> is_open r = true ->
    (exists r0, m0 !! key = Some r0 /\ is_open r0 = true /\ input_files r0 = input_files r)
    \/ (key = transaction_dir (pt_tx_final p) /\ input_files r = pt_input_files p)).
  { intros key r Hkr Ho. destruct (Hr _ _ Hkr) as [_ [(r0 & Hr0 & Hs)|[_ (-> & _ & Hin & _)]]]; [left|by right].
    exists r0. split; [done|]. by apply step_open. }
  assert (Hno : forall key r0 f, m0 !! key = Some r0 -> is_open r0 = true -> f ∈ input_files r0 ->
    f ∉ pt_input_files p).
  { intros key r0 f Hr0 Ho Hf Hin. pose proof (inv_held _ _ Hi _ _ _ Hr0 Ho Hf) as Hn.
    apply Hheld in Hin. rewrite Hn in Hin. by destruct Hin. }
  split.
  - intros key r Hkr. by apply Hr.
  - intros k1 k2 r1 r2 f Hk1 Hk2 Ho1 Ho2 Hf1 Hf2.
    destruct (Hcase _ _ Hk1 Ho1) as [(a & Ha & Hoa & Hia)|[-> Hia]],
             (Hcase _ _ Hk2 Ho2) as [(b & Hb & Hob & Hib)|[-> Hib]]; [..|done].
    + eapply (inv_disjoint _ _ Hi); [exact Ha|exact Hb|done|done|by rewrite Hia|by rewrite Hib].
    + exfalso. rewrite <- Hia in Hf1. rewrite Hib in Hf2. by eapply (Hno k1 a f).
    + exfalso. rewrite Hia in Hf1. rewrite <- Hib in Hf2. by eapply (Hno k2 b f).
  - intros key r f Hkr Ho Hf. rewrite lookup_released. case_decide as Hin; [done|].
    destruct (Hcase _ _ Hkr Ho) as [(a & Ha & Hoa & Hia)|[_ Hia]].
    + eapply (inv_held _ _ Hi); [exact Ha|done|by rewrite Hia].
    + by rewrite Hia in Hf.
Qed.
End RunLemmas.


(** What one step may do to the records: none is changed except by [rec_step],
    and one vanishes only if it was never offered to the relayer or is settled. *)
Definition removable (_ : string) (r : TransactionRecord) : Prop :=
  (state r = Recorded /\ submit_attempted_at_ms r = None) \/ is_terminal (state r) = true.

Definition evolve (m m' : Recs) : Prop :=
  forall key r, m !! key = Some r ->
    match m' !! key with
    | Some r' => rec_step r r'
    | None => removable key r
    end.

Section Run.
Context `{Clients, Pod2Laws} (Hreads : reads_ok).

Lemma from_evolve m0 o0 (A D : string -> TransactionRecord -> Prop) m o :
  from m0 o0 A D m o -> (forall key r, D key r -> removable key r) -> evolve m0 m.
Proof.
  intros [Hr Hk _] HD key r Hkr. destruct (m !! key) as [r'|] eqn:Hm.
  - destruct (Hr _ _ Hm) as [_ [(r0 & Hr0 & Hs)|[Hn _]]]; congruence.
  - apply HD. destruct (Hk _ _ Hkr) as [Hs|]; [|done]. rewrite Hm in Hs. by destruct Hs.
Qed.

(** A step on the records that leaves the holds alone. *)
Lemma quiet_step (D : string -> TransactionRecord -> Prop) w js w' :
  sys_inv (w, js) -> (forall key r, D key r -> removable key r) ->
  tracked (from (recs (transactions w)) (owners w) nothing D) w' ->
  sys_inv (w', js) /\ evolve (recs (transactions w)) (recs (transactions w')).
Proof.
  intros [Hu Hi Hh Hj] HD [Hu' Hf]. simpl in *. split; [|by eapply from_evolve].
  pose proof (fr_owners _ _ _ _ _ _ Hf) as Ho.
  split; simpl; [done|by eapply from_inv|by rewrite Ho|done].
Qed.

Lemma evolve_refl m : evolve m m.
Proof. intros key r Hr. rewrite Hr. reflexivity. Qed.

Lemma hold_step files label w js w' :
  sys_inv (w, js) -> hold_inputs files label w = (Ok files, w') ->
  sys_inv (w', files :: js) /\ evolve (recs (transactions w)) (recs (transactions w')).
Proof.
  intros [Hu Hi Hh Hj] Hrun. simpl in *.
  destruct (wp_run _ _ _ _ _ _ (hold_inputs_spec files label w Hreads) Hrun) as (_ & Ht & Ho & Hfree).
  rewrite Ht. split; [|apply evolve_refl]. split; simpl; rewrite ?Ht, ?Ho; [done|..].
  - apply inv_claimed; [done|]. intros f key r Hf. by apply Hfree.
  - intros f. rewrite lookup_claims, elem_of_app. case_decide as Hin; [by split; eauto|].
    rewrite Hh. naive_solver.
  - split; [|done]. intros f Hf Hc. destruct (Hfree f Hf) as [Hn _].
    apply Hh in Hc. rewrite Hn in Hc. by destruct Hc.
Qed.

Lemma record_step p js js' w r w' :
  sys_inv (w, js) -> js ≡ₚ pt_input_files p :: js' -> canonical_hash (pt_tx_final p) ->
  record_tx p w = (r, w') ->
  sys_inv (w', js') /\ evolve (recs (transactions w)) (recs (transactions w')).
Proof.
  intros [Hu Hi Hh Hj] Hp Hc Hrun. simpl in *. unfold record_tx, efinally in Hrun.
  destruct (record_body p w) as [r1 w1] eqn:Hb. injection Hrun as <- <-.
  destruct (wp_always _ _ _ _ _ (record_body_from p w Hc Hu Hi) Hb) as [Hu' Hf].
  destruct (released_jobs (owners w) _ _ _ Hp Hj Hh) as [Hj' Hh'].
  pose proof (fr_owners _ _ _ _ _ _ Hf) as Ho. simpl.
  split; [|eapply from_evolve; [exact Hf|by intros ? ? []]].
  split; simpl; [done| |by rewrite Ho|done].
  apply (inv_recorded p (recs (transactions w)) (owners w)); [done..|].
  intros f Hin. apply Hh, (elem_of_concat_perm _ _ f Hp). simpl. apply elem_of_app. by left.
Qed.

Lemma step_spec s s' :
  driver_step s s' -> sys_inv s ->
  sys_inv s' /\ evolve (recs (transactions (fst s))) (recs (transactions (fst s'))).
Proof.
  intros Hstep Hs. destruct Hstep as
    [w js files label w' Hr|w js files label e w' Hr|w js files js' Hp|w js js' p r w' Hp Hc Hr
    |w js h r w' Hr|w js h r w' Hr|w js h resp r w' Hr|w js all snap r w' Hr|w js now r w' Hr|w js e|w js];
    pose proof (si_untorn _ Hs) as Hu; pose proof (si_records _ Hs) as Hi; simpl in *.
  - by eapply hold_step.
  - eapply (quiet_step nothing); [done|by intros ? ? []|].
    assert (Hsame : same_tx w w').
    { pose proof (hold_inputs_spec files label w Hreads) as Hw. unfold wp in Hw. by rewrite Hr in Hw. }
    eapply same_tx_tracked; [exact Hsame|]. split; [done|by apply from_refl].
  - destruct Hs as [_ _ Hh Hj]. simpl in *. destruct (released_jobs (owners w) _ _ _ Hp Hj Hh) as [Hj' Hh'].
    split; [|apply evolve_refl]. split; simpl; [done|by apply inv_released|done|done].
  - by eapply record_step.
  - eapply (quiet_step unoffered); [done|by left|].
    exact (wp_always _ _ _ _ _ (delete_from h w Hu Hi) Hr).
  - eapply (quiet_step nothing); [done|by intros ? ? []|].
    exact (wp_always _ _ _ _ _ (mark_attempted_from h w Hu Hi) Hr).
  - eapply (quiet_step nothing); [done|by intros ? ? []|].
    exact (wp_always _ _ _ _ _ (mark_submitted_from h resp w Hu Hi) Hr).
  - eapply (quiet_step nothing); [done|by intros ? ? []|].
    exact (wp_always _ _ _ _ _ (settle_apply_from all snap w Hu Hi) Hr).
  - eapply (quiet_step settled); [done|by right|].
    exact (wp_always _ _ _ _ _ (prune_from now w Hu Hi) Hr).
  - split; [|apply evolve_refl]. by destruct Hs.
  - split; [|apply evolve_refl]. destruct Hs as [_ Hi' _ _]. split; simpl; try done.
    + split; [apply Hi'|apply Hi'|]. intros key r f _ _ _. apply lookup_empty.
    + intros f. rewrite lookup_empty. split; [by intros []|]. intros Hf. by apply not_elem_of_nil in Hf.
Qed.
End Run.


Lemma reachable_inv `{Clients, Pod2Laws} w0 s :
  reads_ok -> transactions w0 = ∅ -> owners w0 = ∅ ->
  rtc driver_step (w0, []) s -> sys_inv s.
Proof.
  intros Hro Ht Ho Hrun.
  assert (H0' : sys_inv (w0, [])).
  { split; simpl; rewrite ?Ht, ?Ho; try done.
    intros f. rewrite lookup_empty. split; [by intros []|]. intros Hf. by apply not_elem_of_nil in Hf. }
  revert H0'. induction Hrun as [s|s1 s2 s3 Hstep _ IH]; [done|].
  intros Hs. apply IH. by apply (step_spec Hro s1 s2).
Qed.

(** ** Offering a transaction to the relayer *)
Section Offering.
Context `{Clients, Pod2Laws}.

(** [offered] can only be made true by [submit_proof]. *)
Record quiet (offered : Env -> Prop) : Prop := {
  q_now e : offered (snd (now_ms e)) -> offered e;
  q_read e : offered (snd (io_read e)) -> offered e;
  q_io e : offered (snd (io e)) -> offered e;
  q_write e : offered (snd (io_write e)) -> offered e;
  q_settings e : offered (snd (load_settings e)) -> offered e;
  q_head e : offered (snd (fetch_head e)) -> offered e;
}.

Section Quiet.
Context (offered : Env -> Prop) (Hq : quiet offered).
Definition unheard (w : World) : Prop := ~ offered (env w).

Lemma quiet_on_env {A} (c : eff Env A) :
  (forall e, offered (snd (c e)) -> offered e) -> preserves unheard (on_env c).
Proof.
  intros Hc w Hw. unfold wp, on_env, unheard in *. specialize (Hc (env w)).
  destruct (c (env w)) as [[a|f] e]; simpl in *; auto.
Qed.

Lemma quiet_fs_read : preserves unheard fs_read.
Proof.
  apply quiet_on_env. intros e. pose proof (q_read _ Hq e). by destruct (io_read e) as [[m|] e'].
Qed.
Lemma quiet_fs_call : preserves unheard fs_call.
Proof. apply quiet_on_env. intros e. pose proof (q_io _ Hq e). by destruct (io e) as [[m|] e']. Qed.
Lemma quiet_clock : preserves unheard clock.
Proof. apply quiet_on_env. intros e. pose proof (q_now _ Hq e). by destruct (now_ms e) as [t e']. Qed.
Lemma quiet_modify f : (forall w, env (f w) = env w) -> preserves unheard (modify f).
Proof. intros Hf w Hw. unfold wp, modify, unheard in *. by rewrite Hf. Qed.
#[local] Hint Resolve quiet_fs_read quiet_fs_call quiet_clock : don.

Lemma quiet_write_record r : preserves unheard (write_record r).
Proof.
  unfold write_record, create_tx_dir. keeps; try (by apply quiet_modify).
  intros w Hw. unfold wp, fs_write, unheard in *. pose proof (q_write _ Hq (env w)) as Hwr.
  destruct (io_write (env w)) as [[|m|k m] e]; simpl in *; auto.
Qed.
#[local] Hint Resolve quiet_write_record : don.

Lemma quiet_get_transaction h : preserves unheard (get_transaction h).
Proof. unfold get_transaction, read_record, read_record_file. keeps. Qed.
Lemma quiet_read_payload h : preserves unheard (read_payload h).
Proof. unfold read_payload. keeps. Qed.
#[local] Hint Resolve quiet_get_transaction : don.
Lemma quiet_mark_attempted h : preserves unheard (mark_attempted h).
Proof. unfold mark_attempted, update_record. keeps. Qed.
End Quiet.

(** After [mark_attempted] says so, the attempt is on disk. *)
Lemma mark_attempted_stores h w :
  inv (recs (transactions w)) (owners w) ->
  wp (mark_attempted h)
    (fun res w' => snd res = true -> exists r, recs (transactions w') !! transaction_dir h = Some r
       /\ is_Some (submit_attempted_at_ms r))
    (fun _ _ => True) w.
Proof.
  intros Hi. unfold mark_attempted, update_record. apply wp_bind.
  eapply wp_mono; [apply get_transaction_spec|simpl|done]. intros r w1 [_ Hr].
  pose proof (inv_wf _ _ Hi _ _ Hr) as Hwf. apply wp_bind.
  assert (Hstore : forall r' w2, tx_final r' = tx_final r -> rec_wf (tx_final r') r' ->
    is_Some (submit_attempted_at_ms r') ->
    wp (write_record r' ;! eret (r', true))
      (fun res w' => snd res = true -> exists r, recs (transactions w') !! transaction_dir h = Some r
         /\ is_Some (submit_attempted_at_ms r)) (fun _ _ => True) w2).
  { intros r' w2 Heq Hwf' Hat. apply wp_bind. eapply wp_mono; [by apply write_record_stores|simpl|done].
    intros [] w3 Hw3. apply wp_ret. intros _. exists r'. split; [|done].
    by rewrite <- (rw_key _ _ Hwf), <- Heq. }
  case_bool_decide; simpl; [|by apply wp_ret, wp_ret].
  destruct (submit_attempted_at_ms r) as [t|] eqn:Hat.
  - apply wp_ret. apply Hstore; [done| |by rewrite Hat]. by rewrite (rw_key _ _ Hwf).
  - apply wp_bind. eapply wp_mono; [apply wp_true|simpl|done]. intros t w2 _. apply wp_ret.
    apply Hstore; [by destruct r| |by destruct r; eexists].
    destruct Hwf as [K N S L E T]. destruct r; simpl in *. subst. by split.
Qed.

Definition attempted_at (h : Hash) (w : World) : Prop :=
  exists r, recs (transactions w) !! transaction_dir h = Some r /\ is_Some (submit_attempted_at_ms r).

Lemma from_attempted h m0 o0 A w w' :
  from m0 o0 A nothing (recs (transactions w')) (owners w') -> m0 = recs (transactions w) ->
  attempted_at h w -> attempted_at h w'.
Proof.
  intros [Hr Hk _] -> (r & Hr0 & t & Ht). destruct (Hk _ _ Hr0) as [[r' Hr']|[]].
  exists r'. split; [done|]. destruct (Hr _ _ Hr') as [_ [(x & Hx & Hs)|[Hn _]]]; [|congruence].
  rewrite Hr0 in Hx. simplify_eq. exists t. by apply (rs_attempted _ _ Hs).
Qed.

(** The end of [submit], once the attempt is on disk. *)
Lemma offer_keeps_attempt h w bytes label :
  untorn (transactions w) -> inv (recs (transactions w)) (owners w) -> attempted_at h w ->
  wp (let! response := on_env (submit_proof bytes label) in
      let! res := mark_submitted h response in eret (fst res))
    (fun _ => attempted_at h) (fun _ => attempted_at h) w.
Proof.
  intros Hu Hi Hat. apply wp_bind. unfold wp at 1, on_env.
  destruct (submit_proof _ _ _) as [[resp|f] e]; [|done].
  apply wp_bind. eapply wp_mono; [apply (mark_submitted_from h resp (set_env e w)); done|simpl|].
  - intros res w1 [_ Hf]. apply wp_ret. by eapply (from_attempted h _ _ _ (set_env e w)).
  - intros f w1 [_ Hf]. by eapply (from_attempted h _ _ _ (set_env e w)).
Qed.

Lemma delete_refused h r w :
  recs (transactions w) !! transaction_dir h = Some r -> is_Some (submit_attempted_at_ms r) ->
  exists e w', delete_transaction h w = (Err e, w') /\ same_tx w w'.
Proof.
  intros Hr [t Ht]. unfold delete_transaction, ebind. pose proof (get_transaction_spec h w) as Hg.
  unfold wp in Hg. destruct (get_transaction h w) as [[r'|e] w1]; [|by eauto].
  destruct Hg as [Hs Hr']. rewrite Hr in Hr'. simplify_eq.
  case_bool_decide; simpl; [|by eauto]. rewrite Ht. simpl. by eauto.
Qed.

(** Before the offer nothing is heard; after it the attempt is on disk. *)
Definition offer_safe (offered : Env -> Prop) (h : Hash) (w : World) : Prop :=
  offered (env w) -> attempted_at h w.

Lemma submit_offer_safe offered h w :
  quiet offered -> untorn (transactions w) -> inv (recs (transactions w)) (owners w) ->
  ~ offered (env w) ->
  wp (submit h) (fun _ => offer_safe offered h) (fun _ => offer_safe offered h) w.
Proof.
  intros Hq Hu Hi Hno. set (Q := offer_safe offered h).
  set (N := fun w' : World => unheard offered w' /\ same_tx w w').
  assert (HN : forall w', unheard offered w' -> Q w') by (intros w' Hw' Ho; by destruct Hw').
  assert (Hstep : forall A (c : eff World A) w1, N w1 -> preserves (unheard offered) c ->
    (forall I, preserves (framed I) c) -> wp c (fun _ => N) (fun _ => Q) w1).
  { intros A c w1 [Hn Hs] Hc Hf. eapply wp_mono; [apply wp_conj; [by apply Hc|by apply (wp_framed c w)]| |].
    - done.
    - intros e w2 [Hw2 _]. auto. }
  unfold submit. apply wp_bind. eapply wp_mono; [apply (Hstep _ _ w)|simpl|done].
  { split; done. } { apply quiet_on_env. apply Hq. } { auto with don. }
  intros [] w1 Hw1. apply wp_bind. eapply wp_mono; [apply (Hstep _ _ w1 Hw1)|simpl|done].
  { by apply quiet_get_transaction. } { auto with don. }
  intros r w2 Hw2. destruct (state r); [|apply wp_ret; by apply HN, Hw2|by apply HN, Hw2|by apply HN, Hw2].
  apply wp_bind. eapply wp_mono; [apply (Hstep _ _ w2 Hw2)|simpl|done].
  { apply quiet_on_env. apply Hq. } { auto with don. }
  intros head w3 Hw3. destruct (grounding_aged_out _ _); [by apply HN, Hw3|].
  apply wp_bind. eapply wp_mono; [apply (Hstep _ _ w3 Hw3)|simpl|done].
  { by apply quiet_read_payload. } { auto with don. }
  intros bytes w4 [Hn4 [Ht4 Ho4]]. apply wp_bind.
  assert (Hu4 : untorn (transactions w4)) by by rewrite Ht4.
  assert (Hi4 : inv (recs (transactions w4)) (owners w4)) by by rewrite Ht4, Ho4.
  eapply wp_mono; [apply wp_conj; [by apply (quiet_mark_attempted offered Hq h)|
    apply wp_conj; [by apply mark_attempted_from|by apply mark_attempted_stores]]|simpl|].
  2: { intros e w5 [Hw5 _]. auto. }
  intros [rc b] w5 (Hn5 & [Hu5 Hf5] & Hst5). simpl in *.
  destruct b; simpl; [|apply wp_ret; auto].
  eapply wp_mono; [apply offer_keeps_attempt; [done|by eapply from_inv|by apply Hst5]|..];
    by intros ? w6 Hw6 _.
Qed.
End Offering.

(** ** Rolling back a failed recording *)

(** Any call may fail once, but the clean-up goes through: a call or a write
    that fails leaves a file system in which removals succeed, and keep doing
    so. *)
Record recovers `{Machine} (late : Env -> Prop) : Prop := {
  fault_io e m : fst (io e) = Some m -> late (snd (io e));
  fault_write e : fst (io_write e) <> Written -> late (snd (io_write e));
  late_io e : late e -> fst (io e) = None /\ late (snd (io e));
  late_remove_dir e : late e -> fst (io_remove_dir e) = Removed;
}.

Section Rollback.
Context `{Machine, Pod2} (late : Env -> Prop) (recovery : recovers late).
Implicit Types w : World.

(** Only the files [S] of the live directory and the transaction [key] may
    differ from [w0]. *)
Record differs_only (w0 : World) (S : list string) (key : string) w : Prop := {
  do_objects f : f ∉ S -> objects w !! f = objects w0 !! f;
  do_nullified : nullified w = nullified w0;
  do_discarded : discarded w = discarded w0;
  do_transactions k : k <> key -> transactions w !! k = transactions w0 !! k;
  do_owners : owners w = owners w0;
}.

(** Nothing differs. *)
Definition same_disk w0 w : Prop :=
  objects w = objects w0 /\ nullified w = nullified w0 /\ discarded w = discarded w0
  /\ transactions w = transactions w0 /\ owners w = owners w0.

Lemma differs_env w0 S key w e : differs_only w0 S key w -> differs_only w0 S key (set_env e w).
Proof. by intros []. Qed.

Lemma differs_on_env {A} w0 S key (c : eff Env A) : preserves (differs_only w0 S key) (on_env c).
Proof.
  intros w Hw. unfold wp, on_env. destruct (c (env w)) as [[a|f] e]; by apply differs_env.
Qed.

Lemma same_disk_on_env {A} w0 (c : eff Env A) : preserves (same_disk w0) (on_env c).
Proof. intros w Hw. unfold wp, on_env. by destruct (c (env w)) as [[a|f] e]. Qed.

Lemma fs_call_ok w : late (env w) -> exists e, fs_call w = (Ok tt, set_env e w) /\ late e.
Proof.
  intros Hl. unfold fs_call, on_env. destruct (late_io _ recovery (env w) Hl) as [Hc Hl'].
  destruct (io (env w)) as [[m|] e]; [done|]. by exists e.
Qed.

(** A call that fails does so late. *)
Definition undoable w0 S key w : Prop := differs_only w0 S key w /\ late (env w).

Lemma fs_call_undoable w0 S key w :
  differs_only w0 S key w -> wp fs_call (fun _ => differs_only w0 S key) (fun _ => undoable w0 S key) w.
Proof.
  intros Hw. pose proof (fault_io _ recovery (env w)) as Hf. unfold wp, fs_call, on_env.
  destruct (io (env w)) as [[m|] e]; simpl in *; [split; [by apply differs_env|by eapply Hf]|by apply differs_env].
Qed.

(** Writing an output marks its name as differing. *)
Lemma write_output_differs w0 S key o name p :
  nullified w0 !! name = None ->
  forall w, differs_only w0 S key w ->
  wp (write_object_file (output_record p o) name)
    (fun _ => differs_only w0 (S ++ [name]) key) (fun _ => undoable w0 (S ++ [name]) key) w.
Proof.
  intros Hn w Hw. assert (Hmono : forall w1, differs_only w0 S key w1 -> differs_only w0 (S ++ [name]) key w1).
  { intros w1 []. split; try done. intros f Hf. rewrite elem_of_app in Hf. naive_solver. }
  unfold write_object_file. apply wp_bind.
  apply (wp_mono _ (fun _ => differs_only w0 S key) _ (fun _ => undoable w0 S key)); [| |intros e w1 [? ?]; by split; [apply Hmono|]].
  { unfold ensure_store_dirs. do 3 (apply wp_bind; eapply wp_mono; [by apply fs_call_undoable| |done]; clear w Hw; intros [] w Hw).
    by apply fs_call_undoable. }
  intros [] w1 Hw1. apply wp_bind. unfold wp at 1, fs_write.
  assert (Hput : forall c e, differs_only w0 (S ++ [name]) key
    (set_dir (is_nullified (output_record p o)) (<[name:=c]> (dir_of (is_nullified (output_record p o)) (set_env e w1))) (set_env e w1))).
  { intros c e. destruct Hw1. split; simpl; try done. intros f Hf. rewrite elem_of_app, list_elem_of_singleton in Hf.
    rewrite lookup_insert_ne by naive_solver. naive_solver. }
  pose proof (fault_write _ recovery (env w1)) as Hf.
  destruct (io_write (env w1)) as [[|m|k m] e]; simpl in Hf;
    [|by split; [apply Hmono, differs_env|apply Hf]|by split; [apply Hput|destruct (is_nullified _); apply Hf]].
  apply wp_bind, wp_try. unfold remove_file. apply wp_bind.
  match goal with |- wp fs_call _ _ ?w2 => assert (differs_only w0 (S ++ [name]) key w2) as Hw2 by apply Hput end.
  eapply wp_mono; [by apply fs_call_undoable| |].
  - intros [] w3 Hw3. apply wp_get. simpl. rewrite (do_nullified _ _ _ _ Hw3), Hn. by apply wp_ret.
  - intros [m|m] w3 Hw3; [|done]. by apply wp_ret, Hw3.
Qed.

Lemma write_outputs_differs p w0 key files S w :
  (forall o name, (o, name) ∈ files -> nullified w0 !! name = None) ->
  differs_only w0 S key w ->
  wp (write_outputs p files S)
    (fun res w' => differs_only w0 (snd res) key w' /\ (fst res <> Ok tt -> late (env w'))
       /\ forall f, f ∈ snd res -> f ∈ S \/ exists o, (o, f) ∈ files)
    (fun e _ => match e with Fail _ => False | Panic _ => True end) w.
Proof.
  revert S w. induction files as [|[o name] files IH]; intros S w Hn Hw; simpl.
  { apply wp_ret. split_and!; [done|done|auto]. }
  assert (Hname : nullified w0 !! name = None) by (eapply Hn; by left).
  apply wp_bind, wp_try. eapply wp_mono; [by apply write_output_differs|simpl|].
  - intros [] w1 Hw1. eapply wp_mono; [apply IH; [|exact Hw1]|simpl|done].
    + intros o' n' Hin. eapply Hn. by right.
    + intros res w2 (Hw2 & Hlate & Hres). split_and!; [done..|]. intros f Hf.
      destruct (Hres f Hf) as [[?|Hfn%list_elem_of_singleton]%elem_of_app|(o' & Ho')]; [by left| |].
      * right. exists o. subst. by left.
      * right. exists o'. by right.
  - intros [m|m] w1 [Hw1 Hlate]; [|done]. apply wp_ret. split_and!; [done..|]. simpl.
    intros f [?|Hfn%list_elem_of_singleton]%elem_of_app; [by left|]. right. exists o. subst. by left.
Qed.

Lemma remove_outputs_restores w0 key files S w :
  (forall f, f ∈ files -> objects w0 !! f = None) ->
  (forall f, f ∈ S -> f ∈ files \/ objects w !! f = objects w0 !! f) ->
  undoable w0 S key w ->
  exists w', remove_outputs files w = (Ok tt, w') /\ undoable w0 [] key w'.
Proof.
  revert w. induction files as [|f files IH]; intros w Hf HS [Hw Hl]; simpl.
  { exists w. split; [done|]. split; [|done]. destruct Hw as [Do Dn Dd Dt Dw]. split; try done.
    intros f _. destruct (decide (f ∈ S)) as [Hin|]; [|by apply Do].
    destruct (HS f Hin) as [Hn|]; [by apply not_elem_of_nil in Hn|done]. }
  destruct (fs_call_ok w Hl) as (e & He & Hle). unfold ebind, etry, remove_file, ebind. rewrite He. simpl.
  assert (Hgone : forall w1 : World, late (env w1) -> objects w1 = delete f (objects w) -> nullified w1 = nullified w ->
    discarded w1 = discarded w -> transactions w1 = transactions w -> owners w1 = owners w ->
    exists w', remove_outputs files w1 = (Ok tt, w') /\ undoable w0 [] key w').
  { intros w1 Hl1 Ho Hn Hd Ht Hw1. destruct Hw as [Do Dn Dd Dt Dw]. apply IH.
    - intros g Hg. apply Hf. by right.
    - intros g Hg. rewrite Ho. destruct (decide (g = f)) as [->|Hne].
      + right. rewrite lookup_delete_eq. symmetry. apply Hf. by left.
      + rewrite lookup_delete_ne by done. destruct (HS g Hg) as [[->|]%elem_of_cons|]; [done|by left|by right].
    - split; [|done]. split; rewrite ?Hn, ?Hd, ?Ht, ?Hw1; try done. intros g Hg. rewrite Ho.
      destruct (decide (g = f)) as [->|Hne]; [rewrite lookup_delete_eq; symmetry; apply Hf; by left|].
      rewrite lookup_delete_ne by done. by apply Do. }
  destruct (objects w !! f) as [c|] eqn:Hc; simpl.
  - apply Hgone; done.
  - apply Hgone; try done. simpl. by rewrite delete_id.
Qed.

Lemma same_disk_fs_read w0 : preserves (same_disk w0) fs_read.
Proof. apply same_disk_on_env. Qed.
Lemma same_disk_fs_call w0 : preserves (same_disk w0) fs_call.
Proof. apply same_disk_on_env. Qed.
Lemma same_disk_clock w0 : preserves (same_disk w0) clock.
Proof. apply same_disk_on_env. Qed.
#[local] Hint Resolve same_disk_fs_read same_disk_fs_call same_disk_clock : don.

Lemma same_disk_load_objects w0 : preserves (same_disk w0) load_object_files.
Proof. unfold load_object_files, ensure_store_dirs, load_object_files_from_dir, load_entry. keeps. Qed.
Lemma same_disk_load_records w0 : preserves (same_disk w0) load_records.
Proof. unfold load_records, load_record_entry, read_record_file. keeps. Qed.
Lemma same_disk_read_record w0 h : preserves (same_disk w0) (read_record h).
Proof. unfold read_record, read_record_file. keeps. Qed.

(** No record means none on disk. *)
Lemma read_record_none w0 h w :
  same_disk w0 w ->
  wp (read_record h) (fun old w' => same_disk w0 w' /\ (old = None -> record (dir_entry (transaction_dir h) w0) = None))
    (fun _ => same_disk w0) w.
Proof.
  intros Hw. assert (dir_entry (transaction_dir h) w = dir_entry (transaction_dir h) w0) as Hd.
  { destruct Hw as (_ & _ & _ & Ht & _). unfold dir_entry. by rewrite Ht. }
  unfold read_record. apply wp_get. rewrite Hd. destruct (record (dir_entry _ w0)) as [c|]; [|by apply wp_ret].
  assert (preserves (same_disk w0) (read_record_file c)) as Hread by (unfold read_record_file; keeps).
  apply wp_bind. eapply wp_mono; [by apply Hread|simpl|done]. intros r w1 Hw1. apply wp_ret. by split.
Qed.

Definition free_in w (f : string) : Prop := objects w !! f = None /\ nullified w !! f = None.

Lemma same_disk_free w0 w f : same_disk w0 w -> free_in w f <-> free_in w0 f.
Proof. intros (Ho & Hn & _). unfold free_in. by rewrite Ho, Hn. Qed.

Lemma try_exists_spec w0 b f w :
  same_disk w0 w ->
  wp (try_exists b f) (fun r w' => same_disk w0 w' /\ (r = false -> dir_of b w0 !! f = None))
    (fun _ => same_disk w0) w.
Proof.
  intros Hw. unfold try_exists. apply wp_bind. eapply wp_mono; [by apply same_disk_fs_read|simpl|done].
  intros [] w1 Hw1. unfold wp, eread. split; [done|]. intros Hb. apply negb_false_iff, bool_decide_eq_true in Hb.
  destruct Hw1 as (Ho & Hn & _). destruct b; simpl in *; congruence.
Qed.

Lemma check_outputs_spec w0 files w :
  same_disk w0 w ->
  wp (check_outputs files) (fun _ w' => same_disk w0 w' /\ forall f, f ∈ files -> free_in w0 f)
    (fun _ => same_disk w0) w.
Proof.
  revert w. induction files as [|f files IH]; intros w Hw; simpl.
  { apply wp_ret. split; [done|]. intros f Hf. by apply not_elem_of_nil in Hf. }
  apply wp_bind. eapply wp_mono; [by apply (try_exists_spec w0)|simpl|done].
  intros live w1 [Hw1 Hlive]. apply wp_bind. destruct live; [by apply wp_ret|].
  eapply wp_mono; [by apply (try_exists_spec w0)|simpl|done].
  intros spent w2 [Hw2 Hspent]. destruct spent; [done|].
  eapply wp_mono; [by apply IH|simpl|done]. intros [] w3 [Hw3 Hfs]. split; [done|].
  intros g [->|Hg]%elem_of_cons; [|auto]. split; [by apply Hlive|by apply Hspent].
Qed.

Lemma pending_file_name_free fuel f taken n : pending_file_name fuel f taken = Ok n -> taken n = false.
Proof.
  unfold pending_file_name, unique_file_name. set (base := sol _). destruct (taken base) eqn:Ht; simpl.
  - intros Hn. by apply first_free_Ok in Hn as [? _].
  - by intros [= <-].
Qed.

Lemma assign_pending_free w p entries ofs res :
  (forall f, f ∈ ofs -> free_in w f) -> assign_pending_names w p entries ofs = Ok res ->
  forall f, f ∈ fst res -> free_in w f.
Proof.
  intros Hofs Hres. revert Hres.
  refine (try_fold_inv _ (fun _ acc => forall f, f ∈ fst acc -> free_in w f) _ _ _ Hofs _).
  intros pre slots [ofs1 pend] acc' Hinv Hstep f Hf. unfold assign_pending_name in Hstep.
  destruct (pt_input_files p !! input_index slots) as [input|]; [|injection Hstep as <-; by apply Hinv].
  destruct (_ || _) in Hstep; [injection Hstep as <-; by apply Hinv|].
  apply rbind_Ok in Hstep as (pending & Hpend & [= <-]). simpl in *.
  apply list_elem_of_lookup_1 in Hf as [j Hj].
  apply list_lookup_insert_Some in Hj as [(_ & <- & _)|[_ Hj]];
    [|by eapply Hinv, list_elem_of_lookup_2].
  apply pending_file_name_free in Hpend. apply orb_false_iff in Hpend as [Hs _].
  unfold store_has_file in Hs. apply orb_false_iff in Hs as [Hs _]. apply orb_false_iff in Hs as [Ho Hn].
  rewrite !bool_decide_eq_false in Ho, Hn. split; by apply eq_None_not_Some.
Qed.

(** What a failed recording leaves behind: nothing, except that a directory of
    the transaction without a record is cleared away. *)
Definition restored w0 (key : string) w : Prop :=
  objects w = objects w0 /\ nullified w = nullified w0 /\ discarded w = discarded w0
  /\ owners w = owners w0
  /\ (transactions w = transactions w0
      \/ record (dir_entry key w0) = None /\ transactions w = delete key (transactions w0)).

Lemma differs_put w0 S key w (f : TxDir) :
  differs_only w0 S key w -> differs_only w0 S key (set_transactions (<[key := f]> (transactions w)) w).
Proof.
  intros []. split; try done. intros k Hk. simpl. rewrite lookup_insert_ne by done. auto.
Qed.

Lemma differs_create w0 S key w :
  differs_only w0 S key w ->
  wp (create_tx_dir key) (fun _ => differs_only w0 S key) (fun _ => undoable w0 S key) w.
Proof.
  intros Hw. unfold create_tx_dir. apply wp_bind. eapply wp_mono; [by apply fs_call_undoable| |done].
  intros [] w1 Hw1. unfold wp, modify. by apply differs_put.
Qed.

Lemma differs_write_payload w0 S h b w :
  differs_only w0 S (transaction_dir h) w ->
  wp (write_payload h b) (fun _ => differs_only w0 S (transaction_dir h)) (fun _ => undoable w0 S (transaction_dir h)) w.
Proof.
  intros Hw. unfold write_payload. apply wp_bind. eapply wp_mono; [by apply differs_create| |done].
  intros [] w1 Hw1. unfold wp. pose proof (fault_write _ recovery (env w1)) as Hf.
  destruct (io_write (env w1)) as [[|m|k m] e]; simpl in Hf;
    [apply differs_put|split; [|by apply Hf]|split; [apply differs_put|by apply Hf]]; by apply differs_env.
Qed.

Lemma differs_write_record w0 S r h w :
  record_tx_final r = Ok h -> differs_only w0 S (transaction_dir h) w ->
  wp (write_record r) (fun _ => differs_only w0 S (transaction_dir h)) (fun _ => undoable w0 S (transaction_dir h)) w.
Proof.
  intros Hr Hw. unfold write_record. apply wp_bind, wp_lift; [|by rewrite Hr]. intros h' Hh'. rewrite Hr in Hh'. injection Hh' as <-.
  apply wp_bind. eapply wp_mono; [by apply differs_create| |done]. intros [] w1 Hw1.
  apply wp_bind. apply (wp_mono _ (fun _ => differs_only w0 S (transaction_dir h)) _ (fun _ => undoable w0 S (transaction_dir h))); [| |done].
  { pose proof (fault_write _ recovery (env w1)) as Hf. unfold wp, fs_write.
    destruct (io_write (env w1)) as [[|m|k m] e]; simpl in Hf; [|split; [|by apply Hf]..]; by apply differs_env. }
  intros [] w2 Hw2. apply wp_bind. eapply wp_mono; [by apply fs_call_undoable| |done].
  intros [] w3 Hw3. unfold wp, modify. by apply differs_put.
Qed.

(** Undoing the writes. *)
Lemma undo_restores w0 key files w h :
  transaction_dir h = key -> record (dir_entry key w0) = None ->
  (forall f, f ∈ files -> free_in w0 f) -> undoable w0 files key w ->
  exists w', (remove_outputs files ;! let! _ := etry (remove_transaction h) in @ethrow World unit (Fail "x")) w
             = (Err (Fail "x"), w') /\ restored w0 key w'.
Proof.
  intros Hk Hnone Hfree Hw.
  destruct (remove_outputs_restores w0 key files files w) as (w1 & Hr & Hw1 & Hl1); [by intros; apply Hfree|auto|done|].
  unfold ebind. rewrite Hr. unfold etry, remove_transaction. rewrite Hk.
  destruct Hw1 as [Do Dn Dd Dt Dw].
  assert (Hobj : objects w1 = objects w0) by (apply map_eq; intros f; apply Do; apply not_elem_of_nil).
  assert (Hdel : delete key (transactions w1) = delete key (transactions w0)).
  { apply map_eq. intros k. destruct (decide (k = key)) as [->|Hne]; [by rewrite !lookup_delete_eq|].
    rewrite !lookup_delete_ne by done. by apply Dt. }
  destruct (transactions w1 !! key) as [d|] eqn:Hd.
  - pose proof (late_remove_dir _ recovery (env w1) Hl1) as Hrm. destruct (io_remove_dir (env w1)) as [o e]. simpl in Hrm; subst o.
    eexists. split; [done|]. split_and!; simpl; auto.
  - exists w1. split; [done|]. split_and!; auto. right. split; [done|]. by rewrite <- Hdel, delete_id.
Qed.

Lemma commit_record_restores p r w0 w :
  record_tx_final r = Ok (pt_tx_final p) -> record (dir_entry (transaction_dir (pt_tx_final p)) w0) = None ->
  (forall f, f ∈ output_files r -> free_in w0 f) -> same_disk w0 w ->
  wp (commit_record p r) (fun _ _ => True)
    (fun f w' => match f with Fail _ => restored w0 (transaction_dir (pt_tx_final p)) w' | Panic _ => True end) w.
Proof.
  intros Hr Hnone Hfree (Ho & Hn & Hd & Ht & Hw). set (key := transaction_dir (pt_tx_final p)).
  assert (Hdw : differs_only w0 [] key w) by (split; rewrite ?Ho, ?Hn, ?Hd, ?Ht, ?Hw; done).
  assert (Hin : forall o name, (o, name) ∈ zip (outputs p) (output_files r) -> name ∈ output_files r).
  { intros o name Hz. apply elem_of_zip_r in Hz. done. }
  assert (Hundo : forall files w1 m, undoable w0 files key w1 -> (forall f, f ∈ files -> free_in w0 f) ->
    wp (remove_outputs files ;! let! _ := etry (remove_transaction (pt_tx_final p)) in @ethrow World unit (Fail m))
      (fun _ _ => True) (fun f w' => match f with Fail _ => restored w0 key w' | Panic _ => True end) w1).
  { intros files w1 m Hw1 Hf1. destruct (undo_restores w0 key files w1 (pt_tx_final p) eq_refl Hnone Hf1 Hw1) as (w2 & Hrun & Hres).
    unfold wp, ebind, ethrow in *. destruct (remove_outputs files w1) as [[[]|] w1']; simplify_eq; [|done].
    destruct (etry _ w1') as [[[]|] w1'']; by simplify_eq. }
  unfold commit_record. apply wp_bind.
  eapply wp_mono; [apply (write_outputs_differs p w0 key); [|exact Hdw]|simpl|].
  { intros o name Hz. by apply Hfree, (Hin o). }
  2: { by intros [m|m] w1. }
  intros [res attempted] w1 (Hw1 & Hlate & Hatt). simpl in *.
  assert (Hfa : forall f, f ∈ attempted -> free_in w0 f).
  { intros f Hf. destruct (Hatt f Hf) as [Hf'|(o & Hz)]; [by apply not_elem_of_nil in Hf'|].
    by apply Hfree, (Hin o). }
  apply wp_bind. destruct res as [[]|[m|m]].
  - apply wp_try, wp_bind. eapply wp_mono; [by apply differs_write_payload|simpl|].
    + intros [] w2 Hw2. eapply wp_mono; [by apply (differs_write_record w0 attempted r _ _ Hr)|simpl|].
      * intros [] w3 _. by apply wp_ret.
      * intros [m|m] w3 Hw3; [|done]. by apply Hundo.
    + intros [m|m] w2 Hw2; [|done]. by apply Hundo.
  - apply wp_ret, Hundo; [|done]. by split; [|apply Hlate].
  - done.
Qed.

(** The checks of [record] change nothing; its writes are undone. *)
Lemma record_body_restores p w0 :
  decode_hash_hex (encode_hash_hex (pt_tx_final p)) = Ok (pt_tx_final p) ->
  wp (record_body p) (fun _ _ => True)
    (fun f w' => match f with
                 | Fail _ => restored w0 (transaction_dir (pt_tx_final p)) w'
                 | Panic _ => True
                 end) w0.
Proof.
  intros Hdec. set (E := fun (f : failure) (w' : World) => match f with
    | Fail _ => restored w0 (transaction_dir (pt_tx_final p)) w' | Panic _ => True end).
  assert (HE : forall f w', same_disk w0 w' -> E f w').
  { intros [m|m] w' (Ho & Hn & Hd & Ht & Hw); [|done]. split_and!; auto. }
  assert (H00 : same_disk w0 w0) by done.
  unfold record_body. apply wp_bind, wp_lift; [|by auto]. intros ofs _.
  apply wp_bind. eapply wp_mono; [by apply same_disk_load_objects|simpl|auto]. intros entries w1 Hw1.
  apply wp_bind. eapply wp_mono; [by apply same_disk_load_records|simpl|auto]. intros records w2 Hw2.
  apply wp_bind, wp_lift; [|by auto]. intros [] _.
  apply wp_bind. eapply wp_mono; [by apply read_record_none|simpl|auto]. intros old w3 [Hw3 Hold].
  apply wp_bind. destruct old as [r0|]; [exact (HE (Fail "refused") w3 Hw3)|]. apply wp_ret.
  apply wp_bind. eapply wp_mono; [by apply (check_outputs_spec w0)|simpl|auto].
  intros [] w4 [Hw4 Hfree]. apply wp_bind. unfold wp at 1; simpl.
  apply wp_bind, wp_lift; [|by auto]. intros names Hnames.
  apply wp_bind. eapply wp_mono; [by apply same_disk_clock|simpl|auto]. intros now w5 Hw5.
  apply wp_bind. eapply wp_mono; [apply (commit_record_restores p _ w0); [..|exact Hw5]|simpl|done].
  - unfold record_tx_final. simpl. by rewrite Hdec.
  - by apply Hold.
  - simpl. intros f Hf. apply (same_disk_free w0 w4 f Hw4).
    refine (assign_pending_free w4 p entries ofs names _ Hnames f Hf).
    intros g Hg. apply (same_disk_free w0 w4 g Hw4). by apply Hfree.
  - intros [] w6 _. by apply wp_ret.
Qed.
End Rollback.

(** ** Theorems *)

(** A machine on which everything works, and clients that answer plainly. *)
Module ToyDriver.
#[global] Instance toy_machine : Machine := {|
  Env := Z; CreationProof := unit; CreationProof_eq_dec := _;
  now_ms e := (e, e); io_read e := (None, e); io e := (None, e);
  io_write e := (Written, e); io_remove_dir e := (Removed, e) |}.
#[global] Instance toy_clients : @Clients toy_machine := {|
  load_settings e := (Ok tt, e); fetch_head e := (Ok 10, e);
  fetch_tx_status _ e := (Ok None, e);
  fetch_membership _ _ e := (Ok {| created_objects := ∅; on_chain_nullifiers := ∅; mb_block_number := 10 |}, e);
  fetch_grounding_witness _ e := (Ok [], e);
  submit_proof _ _ e := (Ok {| sr_job_id := "job"; sr_status := Relayer.Queued |}, e + 1000);
  fetch_job_status _ e := (Err (Fail "down"), e);
  is_unreachable _ := true |}.
Definition w_empty : World := MkWorld toy_machine ∅ ∅ ∅ ∅ ∅ ∅ empty_report 0.
Definition q : QualifiedName := {| plugin_name := "p"; name := "a" |}.
Definition sword : @ObjectRecord toy_machine := {|
  metadata := {| class := q; content_hash := EMPTY_HASH; status := Live; producer := EMPTY_HASH;
                 ob_tx_hash := None; creation_proof := None |};
  obj := ∅ |}.
Definition w_sword : World := set_objects {[ "sword.dobj" := Some sword ]} w_empty.
Definition tx : ProvedTransaction := {|
  pt_tx_final := MkHash 1 2 3 4; pt_action := q; pt_owner := "me"; pt_grounding_root := EMPTY_HASH;
  pt_grounding_block := 5; outputs := []; pt_nullifiers := []; pt_created := [];
  pt_payload_bytes := [x00]; mutated_objects := []; pt_input_files := ["sword.dobj"] |}.
Definition w_held : World := snd (hold_inputs ["sword.dobj"] "me" w_sword).
Definition w_recorded : World := snd (@record_tx toy_machine Toy.toy_pod2 tx w_held).
End ToyDriver.

(** C12: exclusive inputs. Let no read of a record or an object file fail. Then
    in every state the driver reaches, whatever writes, renames, removals and
    requests fail on the way: no record file is torn, every record
    is well-formed under its own name, no input is spent by two open
    transactions, no input of an open transaction is held by a proof, and
    proofs under way hold disjoint inputs. *)
Theorem driver_inputs_exclusive `{Clients, Pod2Laws} w0 s :
  reads_ok -> transactions w0 = ∅ -> owners w0 = ∅ ->
  rtc driver_step (w0, []) s -> sys_inv s.
Proof.
  apply reachable_inv.
Qed.

Lemma toy_driver_run : rtc (@driver_step _ ToyDriver.toy_clients Toy.toy_plonky2 Toy.toy_pod2)
  (ToyDriver.w_sword, []) (ToyDriver.w_recorded, []).
Proof.
  eapply rtc_l; [|eapply rtc_l; [|apply rtc_refl]].
  - apply (step_hold _ _ ["sword.dobj"] "me" ToyDriver.w_held). vm_compute. reflexivity.
  - apply (step_record _ _ [] ToyDriver.tx (fst (@record_tx _ Toy.toy_pod2 ToyDriver.tx ToyDriver.w_held)));
      [reflexivity| |apply surjective_pairing].
    unfold canonical_hash. repeat constructor; vm_compute; congruence.
Qed.

Lemma driver_inputs_exclusive_witness :
  @sys_inv ToyDriver.toy_machine Toy.toy_pod2 (ToyDriver.w_recorded, [])
  /\ size (recs (transactions ToyDriver.w_recorded)) = 1%nat.
Proof.
  split; [|vm_compute; reflexivity].
  apply (@driver_inputs_exclusive _ ToyDriver.toy_clients _ _ Toy.toy_pod2_laws ToyDriver.w_sword);
    [intros e; reflexivity|reflexivity|reflexivity|exact toy_driver_run].
Defined.





(** C15: what was offered cannot be taken back. If a call of [submit] reaches
    the relayer, however it then ends (accepted, refused, response lost, the
    record not written), the attempt is on disk and deleting the transaction is
    refused. *)
Theorem offered_is_never_deleted `{Clients, Pod2Laws} (offered : Env -> Prop) h w r w' :
  quiet offered -> untorn (transactions w) -> inv (recs (transactions w)) (owners w) ->
  ~ offered (env w) -> submit h w = (r, w') -> offered (env w') ->
  attempted_at h w' /\ exists e w2, delete_transaction h w' = (Err e, w2) /\ same_tx w' w2.
Proof.
  intros Hq Hu Hi Hno Hrun Hoff.
  assert (Hgoal : attempted_at h w').
  { revert Hoff. refine (wp_always (submit h) (offer_safe offered h) w r w' _ Hrun).
    by apply submit_offer_safe. }
  split; [done|]. destruct Hgoal as (rc & Hrc & Hat). by eapply delete_refused.
Qed.

Lemma offered_is_never_deleted_witness :
  @attempted_at _ Toy.toy_pod2 (MkHash 1 2 3 4) (snd (@submit _ ToyDriver.toy_clients Toy.toy_pod2 (MkHash 1 2 3 4) ToyDriver.w_recorded)).
Proof.
  pose proof (@reachable_inv _ ToyDriver.toy_clients _ _ Toy.toy_pod2_laws ToyDriver.w_sword
    (ToyDriver.w_recorded, []) ltac:(intros e; reflexivity) eq_refl eq_refl toy_driver_run) as Hs.
  refine (proj1 (@offered_is_never_deleted _ ToyDriver.toy_clients _ _ Toy.toy_pod2_laws
    (fun e : Z => 500 <= e) (MkHash 1 2 3 4) ToyDriver.w_recorded
    (fst (@submit _ ToyDriver.toy_clients Toy.toy_pod2 (MkHash 1 2 3 4) ToyDriver.w_recorded)) _ _
    (si_untorn _ Hs) (si_records _ Hs) _ (surjective_pairing _) _)).
  - split; intros e; simpl; lia.
  - vm_compute. congruence.
  - vm_compute. congruence.
Defined.


(** C14: expiry is final. Suppose a settlement expires an open transaction,
    either because the synchronizer rejected its payload (which was then not
    acceptable at that block) or because its grounding had aged out at the
    synchronizer's head. Then no later slot of the chain, with more created
    objects and nullifiers, accepts the payload: releasing the inputs of an
    expired transaction is safe. *)
Theorem expiry_is_final `{Clients, Plonky2, Pod2} snap now r (p : Payload.Payload)
    recent0 bn0 L0 recent bn L :
  is_open r = true -> state (settle_record snap now r) = Expired ->
  (forall st, statuses snap !! tx_final r = Some (Some st) -> is_Some (st_error st) ->
     ~ StateMachine.acceptable recent0 bn0 L0 p) ->
  (forall head, head_block snap = Some head -> 0 <= head <= bn) ->
  0 <= bn0 <= bn -> bn < 2 ^ 62 -> 0 <= grounding_block r < 2 ^ 62 ->
  (forall b, recent !! Payload.state_root p = Some b ->
     b = grounding_block r /\ recent0 !! Payload.state_root p = Some b) ->
  StateMachine.l_created L0 ⊆ StateMachine.l_created L ->
  StateMachine.l_nullifiers L0 ⊆ StateMachine.l_nullifiers L ->
  ~ StateMachine.acceptable recent bn L p.
Proof.
  intros Hopen Hexp Hrej Hhead Hbn Hbn' Hg Hrec Hc Hn ((b & Hb & Hage) & (Hcn & Hcf) & Hnn & Hnf).
  destruct (Hrec b Hb) as [-> Hb0].
  assert (Hyoung : forall n, 0 <= n <= bn -> grounding_aged_out n (grounding_block r) = false).
  { intros n Hn'. apply not_true_is_false. intros Ha. apply grounding_aged_out_spec in Ha; [|lia..].
    apply not_true_iff_false in Hage. apply Hage.
    rewrite as_i64_id by lia. apply grounding_aged_out_spec; lia. }
  assert (Hacc : StateMachine.acceptable recent0 bn0 L0 p).
  { split_and!; [|done| |done|].
    - exists (grounding_block r). split; [done|]. rewrite as_i64_id by lia. apply Hyoung. lia.
    - intros h Hh Hin. by apply (Hcf h Hh), Hc.
    - intros h Hh Hin. by apply (Hnf h Hh), Hn. }
  unfold settle_record in Hexp. unfold is_open in Hopen. apply negb_true_iff in Hopen.
  assert (Hne : state r <> Expired) by (intros He; by rewrite He in Hopen).
  destruct (negb _); [done|]. destruct (_ && _); [done|]. unfold decide_record in Hexp.
  destruct (annotate_same snap r) as (_ & _ & Hst & _).
  assert (Hage_case : state (match head_block snap with
      | Some head => if grounding_aged_out head (grounding_block r) then
            expire ("grounding block " +:+ pretty (grounding_block r) +:+ " is more than "
                    +:+ MAX_AGE_TEXT +:+ " blocks behind the synchronizer head " +:+ pretty head) now
              (annotate snap r)
          else annotate snap r
      | None => annotate snap r end) <> Expired).
  { destruct (head_block snap) as [head|]; [|by rewrite Hst].
    rewrite (Hyoung head (Hhead head eq_refl)). by rewrite Hst. }
  destruct (statuses snap !! tx_final r) as [[st|]|]; [|done..].
  destruct (st_error st) as [e|] eqn:Herr.
  - apply (Hrej st eq_refl); [by rewrite Herr|done].
  - destruct (annotate snap r); simpl in Hexp. discriminate Hexp.
Qed.

Lemma expiry_is_final_witness :
  let r := set_attempted (Some 1) (recorded "0x01" ToyDriver.q "me" [] [] "0x00" 5 [] [] 0) in
  let snap : @Snapshot ToyDriver.toy_machine :=
    {| queried := {[ "0x01" ]}; membership := None; head_block := Some 60000;
       statuses := {[ "0x01" := None ]}; creation_proofs := ∅; relayer_jobs := ∅ |} in
  ~ @StateMachine.acceptable Toy.toy_plonky2 {[ Payload.state_root Payload.sample_payload := 5 ]} 60000
      (StateMachine.MkLedger [] ∅ []) Payload.sample_payload.
Proof.
  intros r snap.
  apply (@expiry_is_final _ ToyDriver.toy_clients Toy.toy_plonky2 Toy.toy_pod2 snap 9 r Payload.sample_payload
    {[ Payload.state_root Payload.sample_payload := 5 ]} 0 (StateMachine.MkLedger [] ∅ [])).
  - reflexivity.
  - vm_compute. reflexivity.
  - intros st Hst. vm_compute in Hst. discriminate Hst.
  - intros head [= <-]. lia.
  - lia.
  - lia.
  - simpl. lia.
  - intros b Hb. rewrite lookup_singleton_eq in Hb. injection Hb as <-.
    split; [reflexivity|apply lookup_singleton_eq].
  - done.
  - done.
Defined.


(** C32: recording is all or nothing. Let any call or write of [record] fail,
    torn writes and the rename that commits the record included, as long as the
    clean-up after a failure goes through. When the call fails, the object files,
    the spent files and all records are as before, and the inputs are released.
    The transactions are unchanged, or the transaction had no record and its
    directory, with whatever a former attempt left in it, is gone. *)
Theorem record_failure_restores `{Machine, Pod2Laws} (late : Env -> Prop) p w m w' :
  recovers late -> canonical_hash (pt_tx_final p) ->
  record_tx p w = (Err (Fail m), w') ->
  objects w' = objects w /\ nullified w' = nullified w /\ discarded w' = discarded w
  /\ (transactions w' = transactions w
      \/ record (dir_entry (transaction_dir (pt_tx_final p)) w) = None
         /\ transactions w' = delete (transaction_dir (pt_tx_final p)) (transactions w))
  /\ owners w' = release (pt_input_files p) (owners w).
Proof.
  intros Hrec Hc Hrun. unfold record_tx, efinally in Hrun.
  pose proof (record_body_restores late Hrec p w (decode_encode_hash _ Hc)) as Hw. unfold wp in Hw.
  destruct (record_body p w) as [r w1]. injection Hrun as -> <-.
  destruct Hw as (Ho & Hn & Hd & Hown & Ht). simpl. by rewrite Hown.
Qed.

(** A machine that counts its calls and refuses one of them, here the rename of
    the record, after the output and the payload were written. *)
Definition failing_machine : Machine := {|
  Env := Z; CreationProof := unit; CreationProof_eq_dec := _;
  now_ms e := (e, e); io_read e := (None, e);
  io e := (if e =? 11 then Some "rename refused" else None, e + 1);
  io_write e := (Written, e); io_remove_dir e := (Removed, e) |}.

Lemma failing_recovers : @recovers failing_machine (fun e : Z => 11 < e).
Proof.
  split; simpl; [|done| |done].
  - intros e m. destruct (Z.eqb_spec e 11); [lia|done].
  - intros e He. destruct (Z.eqb_spec e 11); [lia|]. split; [done|lia].
Qed.

Definition held_sword : @ObjectRecord failing_machine := {|
  metadata := {| class := ToyDriver.q; content_hash := EMPTY_HASH; status := Live; producer := EMPTY_HASH;
                 ob_tx_hash := None; creation_proof := None |};
  obj := ∅ |}.
Definition failing_start : @World failing_machine :=
  MkWorld failing_machine {[ "sword.dobj" := Some held_sword ]} ∅ ∅ ∅ {[ "sword.dobj" := "me" ]} ∅ empty_report 0.
Definition forging_tx : ProvedTransaction := {|
  pt_tx_final := MkHash 1 2 3 4; pt_action := ToyDriver.q; pt_owner := "me"; pt_grounding_root := EMPTY_HASH;
  pt_grounding_block := 5; outputs := [{| po_class := ToyDriver.q; po_obj := {[ "stable_identifier" := MkHash 1000000007 2 3 4 ]} |}];
  pt_nullifiers := [MkHash 2 0 0 0]; pt_created := [MkHash 3 0 0 0];
  pt_payload_bytes := [x00]; mutated_objects := []; pt_input_files := ["sword.dobj"] |}.
Abbreviation forging := (@record_tx failing_machine Toy.toy_pod2 forging_tx failing_start).

Lemma record_failure_restores_witness :
  exists m w', forging = (Err (Fail m), w') /\ m = "rename refused"
    /\ objects w' = objects failing_start /\ owners w' = ∅.
Proof.
  assert (Hm : match fst forging with Err (Fail m) => bool_decide (m = "rename refused") | _ => false end = true)
    by (vm_compute; reflexivity).
  destruct forging as [[r|[m|m]] w'] eqn:Hr; cbn [fst] in Hm; [discriminate Hm| |discriminate Hm].
  exists m, w'. split; [reflexivity|]. split; [exact (bool_decide_eq_true_1 _ Hm)|].
  destruct (@record_failure_restores failing_machine _ _ Toy.toy_pod2_laws _ forging_tx failing_start m w' failing_recovers)
    as (H1 & _ & _ & _ & H2); [|exact Hr|].
  - unfold canonical_hash. repeat constructor; vm_compute; congruence.
  - split; [exact H1|]. rewrite H2. vm_compute. reflexivity.
Defined.

(** Exclusive inputs rest on reads that succeed: a record file whose read fails once is
    skipped, and its inputs are then free to be held for another proof. *)
Definition flaky_machine : Machine := {|
  Env := Z; CreationProof := unit; CreationProof_eq_dec := _;
  now_ms e := (e, e); io_read e := (if e =? 6 then Some "interrupted" else None, e + 1);
  io e := (None, e); io_write e := (Written, e); io_remove_dir e := (Removed, e) |}.
Definition flaky_world : @World flaky_machine :=
  MkWorld flaky_machine {[ "sword.dobj" := Some {|
    metadata := {| class := ToyDriver.q; content_hash := EMPTY_HASH; status := Live;
                   producer := EMPTY_HASH; ob_tx_hash := None; creation_proof := None |};
    obj := ∅ |} ]} ∅ ∅ (transactions ToyDriver.w_recorded) ∅ ∅ empty_report 0.

Lemma unreadable_record_frees_inputs :
  (exists key r, recs (transactions flaky_world) !! key = Some r /\ is_open r = true
     /\ "sword.dobj" ∈ input_files r)
  /\ fst (hold_inputs ["sword.dobj"] "other" flaky_world) = Ok ["sword.dobj"].
Proof.
  split; [|vm_compute; reflexivity].
  exists (@encode_hash_hex Toy.toy_pod2 (MkHash 1 2 3 4)). eexists.
  split; [vm_compute; reflexivity|]. split; [reflexivity|]. apply list_elem_of_here.
Qed.

(** The order in which a file's status advances. *)
Definition rank (st : FileStatus) : Z :=
  match st with Unknown => 0 | Live => 1 | Nullified => 2 end.

(** A settlement only advances what the driver knows of a file. The
    refreshed file has the same object and producer; its status never moves
    back; it becomes live only if the chain created the object and nullified
    only if the chain has its nullifier; it stays nullified; and it never loses
    a creation proof or gains one unless it is live. *)
Theorem refreshed_moves_forward `{Clients, Pod2} snap records o :
  let o' := refreshed snap records o in
  let before := status (metadata o) in
  let after := status (metadata o') in
  obj o' = obj o /\ class (metadata o') = class (metadata o) /\ producer (metadata o') = producer (metadata o)
  /\ rank before <= rank after
  /\ (before = Unknown -> after = Live -> exists mb, membership snap = Some mb
       /\ dict_commitment (obj o) ∈ created_objects mb)
  /\ (before <> Nullified -> after = Nullified -> exists mb n, membership snap = Some mb
       /\ object_nullifier_hash (obj o) = Ok n /\ n ∈ on_chain_nullifiers mb)
  /\ (forall pr, creation_proof (metadata o) = Some pr -> creation_proof (metadata o') = Some pr)
  /\ (creation_proof (metadata o') <> creation_proof (metadata o) -> after = Live).
Proof.
  intros o' before after. subst o' before after. unfold refreshed, set_creation_proof, set_ob_tx_hash, set_status.
  cbn [metadata obj class producer status creation_proof].
  set (st := match membership snap with Some mb => chain_file_status o mb | None => status (metadata o) end).
  assert (Hst : rank (status (metadata o)) <= rank st
    /\ (status (metadata o) = Unknown -> st = Live -> exists mb, membership snap = Some mb
         /\ dict_commitment (obj o) ∈ created_objects mb)
    /\ (status (metadata o) <> Nullified -> st = Nullified -> exists mb n, membership snap = Some mb
         /\ object_nullifier_hash (obj o) = Ok n /\ n ∈ on_chain_nullifiers mb)).
  { subst st. destruct (membership snap) as [mb|]; [|split_and!; [lia|congruence|congruence]].
    unfold chain_file_status. destruct (object_nullifier_hash (obj o)) as [n|e].
    - case_bool_decide as Hn; destruct (status (metadata o)); simpl; try case_decide; simpl;
        (split_and!; [lia|try done; eauto|try done; eauto 10]).
    - destruct (status (metadata o)); simpl; try case_decide; simpl; (split_and!; [lia|try done; eauto|done]). }
  destruct Hst as (Hr & Hl & Hn). split_and!; try done.
  - by intros pr ->.
  - destruct (creation_proof (metadata o)); [done|]. case_decide; [done|]. done.
Qed.

End Driver.
