(* ===== verification/Actions.v ===== *)
(** * Actions and their inputs (libs/driver: execute.rs, catalog.rs, and
    [list_actions], [check_action], [list_classes] of driver.rs)

    An action names the classes of the objects it consumes. Before a proof
    starts, the files given for them are resolved against the object store; a
    client may ask beforehand whether the store has what an action needs. *)

From Stdlib Require Import Ascii.
From S2P Require Import Prelude Pod2 Models Payload ObjectNames DriverStore Driver.

Module Actions.
Import Payload ObjectNames DriverStore Driver.
Local Open Scope Z_scope.

(** ** Definitions *)

Record ClassRef : Type := { cr_class : QualifiedName; cr_hash : string }.

(** The fields of [ActionSummary] the driver reads. *)
Record ActionSummary : Type := {
  as_action : QualifiedName;
  total_inputs : list ClassRef;
  total_outputs : list ClassRef;
  as_mutated_objects : list MutatedObjectSlots;
}.

Record CatalogClass : Type := {
  cc_class : QualifiedName;
  cc_emoji : string;
  cc_hash : string;
  cc_description : string;
  cc_produced_by : list QualifiedName;
  cc_consumed_by : list QualifiedName;
  cc_predicate_source : string;
}.

(** The queries of the trait [ActionCatalog]. *)
Record ActionCatalog : Type := {
  list_actions : list ActionSummary;
  get_action : QualifiedName -> option ActionSummary;
  list_classes : list CatalogClass;
  get_class : QualifiedName -> option CatalogClass;
}.

Record ExecuteActionInput : Type := {
  ei_action : QualifiedName;
  input_objects : list string;
}.

(** [Path::file_name] of a Unix path: its last component, unless that is [..];
    empty components and [.] are not components. *)
Definition components (path : string) : list (list ascii) :=
  filter (fun x => x <> [] /\ x <> los ".") (split_on "/"%char (los path)).
Definition path_file_name (path : string) : option string :=
  match last (components path) with
  | Some x => if decide (x = los "..") then None else Some (sol x)
  | None => None
  end.

Definition extract_basename (path : string) : Result string :=
  ok_or (path_file_name path) ("missing file name in path: " +:+ path).

Fixpoint check_duplicates (seen : gset string) (inputs : list string) : Result unit :=
  match inputs with
  | [] => Ok tt
  | raw :: inputs' =>
      let? file_name := extract_basename raw in
      if decide (file_name ∈ seen) then Err (Fail ("duplicate input object is not allowed: " +:+ file_name))
      else check_duplicates ({[file_name]} ∪ seen) inputs'
  end.

Definition validate_execute_request (input : ExecuteActionInput) (action : ActionSummary) : Result unit :=
  if negb (bool_decide (length (input_objects input) = length (total_inputs action))) then
    Err (Fail (display_action (ei_action input) +:+ " expects another number of inputs"))
  else check_duplicates ∅ (input_objects input).

Definition obj_type_hash (o : Dictionary) : option Hash := o !! "type".

Section Inputs.
Context `{Machine, Pod2}.

Abbreviation Entry := (string * ObjectRecord)%type.

(** One input of [resolve_inputs]. *)
Definition resolve_input (entries : list Entry) (raw : string) (required : ClassRef) : Result Entry :=
  let? expected := decode_hash_hex (cr_hash required) in
  let? file_name := extract_basename raw in
  let? r := ok_or (find_entry entries file_name) ("object file not found: " +:+ file_name) in
  let m := metadata r in
  if negb (bool_decide (status m = Live)) then Err (Fail "input object is not live")
  else if negb (bool_decide (class m = cr_class required)) then Err (Fail "input class mismatch")
  else
    let? actual := ok_or (obj_type_hash (obj r)) "input object has no readable 'type' field" in
    if negb (bool_decide (actual = expected)) then Err (Fail "input class hash mismatch")
    else Ok (file_name, r).

Fixpoint resolve_pairs (entries : list Entry) (pairs : list (string * ClassRef)) : Result (list Entry) :=
  match pairs with
  | [] => Ok []
  | (raw, required) :: pairs' =>
      let? e := resolve_input entries raw required in
      let? rest := resolve_pairs entries pairs' in
      Ok (e :: rest)
  end.

Definition resolve_inputs (entries : list Entry) (input : ExecuteActionInput) (action : ActionSummary) :
    Result (list Entry) :=
  resolve_pairs entries (zip (input_objects input) (total_inputs action)).

(** [check_action] *)
Record CheckActionCandidate : Type := { ca_class : QualifiedName; ca_content_hash : string; ca_file_name : string }.
Record CheckActionReport : Type := {
  feasible : bool;
  cr_action : QualifiedName;
  available_inputs : list CheckActionCandidate;
  missing_inputs : list ClassRef;
}.

(** A live object no transaction spends and no proof holds. *)
Definition is_free (locked : gset string) (held : gmap string string) (e : Entry) : bool :=
  bool_decide (status (metadata (snd e)) = Live) && negb (bool_decide (fst e ∈ locked))
  && negb (bool_decide (is_Some (held !! fst e))).

Definition suits (required : ClassRef) (e : Entry) : bool :=
  bool_decide (class (metadata (snd e)) = cr_class required)
  && match decode_hash_hex (cr_hash required), obj_type_hash (obj (snd e)) with
     | Ok expected, Some actual => bool_decide (expected = actual)
     | _, _ => false
     end.

Definition entry_hash (e : Entry) : Hash := content_hash (metadata (snd e)).

Definition candidate (live_objects : list Entry) (used : gset Hash) (required : ClassRef) : option Entry :=
  snd <$> list_find (fun e => suits required e && negb (bool_decide (entry_hash e ∈ used)) = true) live_objects.

Fixpoint pick_inputs (live_objects : list Entry) (used : gset Hash) (required : list ClassRef) :
    list (ClassRef * Entry) * list ClassRef :=
  match required with
  | [] => ([], [])
  | r :: required' =>
      match candidate live_objects used r with
      | Some e =>
          let '(available, missing) := pick_inputs live_objects ({[entry_hash e]} ∪ used) required' in
          ((r, e) :: available, missing)
      | None =>
          let '(available, missing) := pick_inputs live_objects used required' in
          (available, r :: missing)
      end
  end.

Definition check_report (entries : list Entry) (locked : gset string) (held : gmap string string)
    (q : QualifiedName) (action : ActionSummary) : CheckActionReport :=
  let live_objects := filter (fun e => is_free locked held e = true) entries in
  let '(available, missing) := pick_inputs live_objects ∅ (total_inputs action) in
  {| feasible := bool_decide (missing = []); cr_action := q;
     available_inputs := (fun re : ClassRef * Entry =>
       {| ca_class := cr_class (fst re); ca_content_hash := encode_hash_hex (entry_hash (snd re));
          ca_file_name := fst (snd re) |}) <$> available;
     missing_inputs := missing |}.

Definition check_action (catalog : ActionCatalog) (q : QualifiedName) : eff World CheckActionReport :=
  let! action := elift (ok_or (get_action catalog q) ("unknown action: " +:+ display_action q)) in
  let! entries := load_object_files in
  let! records := load_records in
  let! w := eget in
  eret (check_report entries (locked_inputs records) (owners w) q action).

(** *** Listings *)

Record ActionQuery : Type := {
  aq_action : option QualifiedName;
  aq_input_class : option QualifiedName;
  aq_output_class : option QualifiedName;
}.

Definition is_none_or {A} (o : option A) (p : A -> bool) : bool :=
  match o with None => true | Some a => p a end.

Definition query_actions (catalog : ActionCatalog) (query : option ActionQuery) : list ActionSummary :=
  filter (fun a => is_none_or query (fun q =>
    is_none_or (aq_action q) (fun x => bool_decide (as_action a = x))
    && is_none_or (aq_input_class q) (fun c => existsb (fun r => bool_decide (cr_class r = c)) (total_inputs a))
    && is_none_or (aq_output_class q) (fun c => existsb (fun r => bool_decide (cr_class r = c)) (total_outputs a)))
    = true) (list_actions catalog).

Definition live_count (entries : list Entry) (c : QualifiedName) : nat :=
  length (filter (fun e => status (metadata (snd e)) = Live /\ class (metadata (snd e)) = c) entries).

(** A class and the number of its live objects. *)
Definition list_class_counts (catalog : ActionCatalog) : eff World (list (CatalogClass * nat)) :=
  let! entries := load_object_files in
  eret ((fun c => (c, live_count entries (cc_class c))) <$> list_classes catalog).

Definition get_class_count (catalog : ActionCatalog) (q : QualifiedName) : eff World (CatalogClass * nat) :=
  let! c := elift (ok_or (get_class catalog q) ("unknown class: " +:+ display_action q)) in
  let! entries := load_object_files in
  eret (c, live_count entries q).
End Inputs.

(** ** Feasibility *)

Section Feasibility.
Context `{Machine, Pod2}.
Abbreviation Entry := (string * ObjectRecord)%type.
Implicit Types (e : Entry) (entries live : list Entry).

(** File names as a directory lists them. *)
Definition plain (f : string) : Prop := "/"%char ∉ los f /\ is_dobj_file f = true.

Lemma plain_basename f : plain f -> extract_basename f = Ok f.
Proof.
  intros [Hc Hd]. unfold extract_basename, path_file_name, components.
  rewrite split_on_none by done. rewrite filter_cons_True; simpl.
  - rewrite decide_False; [by rewrite sol_los|]. intros Hf. unfold is_dobj_file in Hd. by rewrite Hf in Hd.
  - unfold is_dobj_file in Hd. split; intros Hf; by rewrite Hf in Hd.
Qed.

Lemma find_entry_Some entries f r : find_entry entries f = Some r -> (f, r) ∈ entries.
Proof.
  unfold find_entry. destruct (list_find _ entries) as [[i e]|] eqn:Hf; simpl; [|done].
  apply list_find_Some in Hf as (Hi & <- & _). intros [= <-].
  rewrite <-surjective_pairing. by eapply list_elem_of_lookup_2.
Qed.

Lemma NoDup_fmap_inj {A B} (f : A -> B) l a b : NoDup (f <$> l) -> a ∈ l -> b ∈ l -> f a = f b -> a = b.
Proof.
  intros Hnd Ha Hb Hf. apply list_elem_of_lookup in Ha as [i Hi], Hb as [j Hj].
  assert (i = j) as ->; [|congruence].
  eapply (NoDup_lookup (f <$> l)); [done|by rewrite list_lookup_fmap, Hi|by rewrite list_lookup_fmap, Hj, Hf].
Qed.

Lemma find_entry_own entries e : NoDup (fst <$> entries) -> e ∈ entries -> find_entry entries (fst e) = Some (snd e).
Proof.
  intros Hnd He. unfold find_entry. destruct (list_find _ entries) as [[i e']|] eqn:Hf; simpl.
  - apply list_find_Some in Hf as (Hi & Hn & _). f_equal. f_equal.
    eapply (NoDup_fmap_inj fst); [done|by eapply list_elem_of_lookup_2|done|done].
  - apply list_find_None in Hf. rewrite Forall_forall in Hf. by destruct (Hf e He).
Qed.

Lemma resolve_input_Ok entries raw required e :
  resolve_input entries raw required = Ok e <->
  extract_basename raw = Ok (fst e) /\ find_entry entries (fst e) = Some (snd e)
  /\ status (metadata (snd e)) = Live /\ suits required e = true.
Proof.
  unfold resolve_input, suits. destruct e as [f r]; simpl. split.
  - intros Hr. inv_ok. destruct (find_entry entries a0) as [r'|] eqn:Hf; [|done]. injection Ha1 as <-.
    do 2 (case_bool_decide; [|done]); simpl in Hk. destruct (obj_type_hash (obj r')) as [ty|] eqn:Ht; [|done].
    simpl in Hk. case_bool_decide; [|done]. injection Hk as <- <-.
    rewrite Ha, Ht. split_and!; [done..|]. apply andb_true_iff. by rewrite !bool_decide_eq_true.
  - intros (Hb & Hf & Hl & [Hc Ht]%andb_true_iff). apply bool_decide_eq_true in Hc.
    destruct (decode_hash_hex (cr_hash required)) as [ex|]; [|done].
    destruct (obj_type_hash (obj r)) as [ty|] eqn:Hty; [|done]. apply bool_decide_eq_true in Ht as ->.
    rewrite Hb. simpl. rewrite Hf. simpl. rewrite !bool_decide_true by done. simpl.
    rewrite Hty. simpl. by rewrite bool_decide_true.
Qed.

Lemma resolve_pairs_Ok entries raws required es :
  resolve_pairs entries (zip raws required) = Ok es -> length raws = length required ->
  Forall2 (fun raw e => extract_basename raw = Ok (fst e)) raws es
  /\ Forall (fun e => e ∈ entries /\ status (metadata (snd e)) = Live) es
  /\ Forall2 (fun r e => suits r e = true) required es.
Proof.
  revert required es. induction raws as [|raw raws IH]; intros [|r required] es Hr Hlen; simpl in *; try done.
  - injection Hr as <-. by split_and!.
  - inv_ok. injection Hlen as Hlen. apply resolve_input_Ok in Ha as (Hb & Hf%find_entry_Some & Hl & Hs).
    rewrite <-surjective_pairing in Hf.
    destruct (IH required a0 Ha0 Hlen) as (H1 & H2 & H3). by split_and!; constructor.
Qed.

Lemma resolve_pairs_own entries required es :
  NoDup (fst <$> entries) -> Forall (fun e => plain (fst e)) entries ->
  Forall2 (fun r e => suits r e = true) required es ->
  Forall (fun e => e ∈ entries /\ status (metadata (snd e)) = Live) es ->
  resolve_pairs entries (zip (fst <$> es) required) = Ok es.
Proof.
  intros Hnd Hpl Hs. induction Hs as [|r e required es Hs _ IH]; intros Hes; [done|].
  apply Forall_cons in Hes as [[He Hl] Hes]. csimpl.
  assert (resolve_input entries (fst e) r = Ok e) as ->.
  { apply resolve_input_Ok. split_and!; [|by apply find_entry_own|done|done].
    apply plain_basename. rewrite Forall_forall in Hpl. auto. }
  csimpl. by rewrite IH.
Qed.

Lemma check_duplicates_Ok seen raws names :
  Forall2 (fun raw n => extract_basename raw = Ok n) raws names ->
  check_duplicates seen raws = Ok tt <-> NoDup names /\ forall n, n ∈ names -> n ∉ seen.
Proof.
  intros Hf. revert seen. induction Hf as [|raw n raws names Hn _ IH]; intros seen; simpl.
  - split; [|done]. intros _. split; [constructor|set_solver].
  - rewrite Hn. simpl. case_decide as Hin.
    + split; [done|]. intros [_ Hs]. by destruct (Hs n); [left|].
    + rewrite IH, NoDup_cons. set_solver.
Qed.

Lemma is_free_spec locked held e :
  is_free locked held e = true <-> status (metadata (snd e)) = Live /\ fst e ∉ locked /\ held !! fst e = None.
Proof.
  unfold is_free. rewrite !andb_true_iff, !negb_true_iff, bool_decide_eq_true, !bool_decide_eq_false.
  rewrite <-eq_None_not_Some. naive_solver.
Qed.

(** *** The greedy choice *)

Lemma candidate_Some live used r e :
  candidate live used r = Some e -> e ∈ live /\ suits r e = true /\ entry_hash e ∉ used.
Proof.
  unfold candidate. destruct (list_find _ live) as [[i e']|] eqn:Hf; simpl; [|done]. intros [= ->].
  apply list_find_Some in Hf as (Hi & [Hs Hu]%andb_true_iff & _).
  apply negb_true_iff, bool_decide_eq_false in Hu. split_and!; [by eapply list_elem_of_lookup_2|done|done].
Qed.

Lemma candidate_None live used r e :
  candidate live used r = None -> e ∈ live -> suits r e = true -> entry_hash e ∈ used.
Proof.
  unfold candidate. destruct (list_find _ live) as [[i e']|] eqn:Hf; simpl; [done|]. intros _ He Hs.
  apply list_find_None in Hf. rewrite Forall_forall in Hf. specialize (Hf e He).
  destruct (decide (entry_hash e ∈ used)); [done|]. by rewrite Hs, bool_decide_false in Hf.
Qed.

Lemma pick_sound live used required available :
  pick_inputs live used required = (available, []) ->
  Forall2 (fun r e => suits r e = true) required (snd <$> available)
  /\ Forall (fun e => e ∈ live /\ entry_hash e ∉ used) (snd <$> available)
  /\ NoDup (entry_hash <$> (snd <$> available)).
Proof.
  revert used available. induction required as [|r required IH]; intros used available; simpl.
  - intros [= <-]. split_and!; constructor.
  - destruct (candidate live used r) as [e|] eqn:Hc.
    + destruct (pick_inputs live _ required) as [av mi] eqn:Hp. intros [= <- ->].
      apply candidate_Some in Hc as (He & Hs & Hu). destruct (IH _ _ Hp) as (H1 & H2 & H3).
      split_and!; simpl.
      * by constructor.
      * constructor; [done|]. eapply Forall_impl; [exact H2|]. set_solver.
      * constructor; [|done]. rewrite list_elem_of_fmap. intros (e' & Hh & Hin).
        rewrite Forall_forall in H2. destruct (H2 e' Hin) as [_ Hn]. set_solver.
    + by destruct (pick_inputs live used required).
Qed.

(** Two classes a single object suits want the same objects. *)
Lemma suits_swap r r' e e' : suits r e = true -> suits r' e = true -> suits r e' = true -> suits r' e' = true.
Proof.
  unfold suits. rewrite !andb_true_iff, !bool_decide_eq_true.
  intros [Hc Ht] [Hc' Ht'] [Hd Hu].
  destruct (decode_hash_hex (cr_hash r)), (decode_hash_hex (cr_hash r')); try done.
  destruct (obj_type_hash (obj (snd e))), (obj_type_hash (obj (snd e'))); try done.
  apply bool_decide_eq_true in Ht, Ht', Hu. split; [|apply bool_decide_eq_true]; congruence.
Qed.

Lemma pick_complete live used required es :
  NoDup (entry_hash <$> live) ->
  Forall2 (fun r e => suits r e = true) required es ->
  Forall (fun e => e ∈ live /\ entry_hash e ∉ used) es -> NoDup (entry_hash <$> es) ->
  snd (pick_inputs live used required) = [].
Proof.
  intros Hlive. revert used es. induction required as [|r required IH]; intros used es Hs Hes Hnd; [done|].
  apply Forall2_cons_inv_l in Hs as (e1 & es' & Hs1 & Hs & ->). simpl.
  apply Forall_cons in Hes as [[He1 Hu1] Hes]. rewrite fmap_cons, NoDup_cons in Hnd. destruct Hnd as [Hn1 Hnd].
  destruct (candidate live used r) as [e|] eqn:Hc; [|by destruct Hu1; eapply candidate_None].
  apply candidate_Some in Hc as (He & Hse & Hu).
  enough (exists es2, Forall2 (fun r e => suits r e = true) required es2
    /\ Forall (fun e0 => e0 ∈ live /\ entry_hash e0 ∉ {[entry_hash e]} ∪ used) es2 /\ NoDup (entry_hash <$> es2)) as
    (es2 & H1 & H2 & H3).
  { specialize (IH _ _ H1 H2 H3). by destruct (pick_inputs live _ required). }
  destruct (decide (entry_hash e ∈ entry_hash <$> es')) as [Hin|Hin].
  - apply list_elem_of_fmap in Hin as (e' & Hh & Hin). rewrite Forall_forall in Hes.
    assert (e' = e) as -> by (eapply (NoDup_fmap_inj entry_hash live); [done|apply Hes, Hin|done|done]).
    apply list_elem_of_split in Hin as (l1 & l2 & ->).
    apply Forall2_app_inv_r in Hs as (r1 & r2' & Hs1' & Hs2 & ->).
    apply Forall2_cons_inv_r in Hs2 as (r' & r2 & Hs' & Hs2 & ->).
    exists (l1 ++ e1 :: l2). rewrite fmap_app, fmap_cons in Hnd, Hn1 |- *.
    apply NoDup_app in Hnd as (Hnd1 & Hd & [Hne Hnd2]%NoDup_cons). split_and!.
    + apply Forall2_app; [done|]. constructor; [by eapply suits_swap|done].
    + apply Forall_forall. intros x [Hx|[->|Hx]%elem_of_cons]%elem_of_app.
      * destruct (Hes x) as [? ?]; [set_solver|]. split; [done|]. apply not_elem_of_union. split; [|done].
        rewrite elem_of_singleton. intros Heq. apply (Hd (entry_hash x)); [by apply list_elem_of_fmap_2|rewrite Heq; left].
      * split; [done|]. set_solver.
      * destruct (Hes x) as [? ?]; [set_solver|]. split; [done|]. apply not_elem_of_union. split; [|done].
        rewrite elem_of_singleton. intros Heq. apply Hne. rewrite <-Heq. by apply list_elem_of_fmap_2.
    + apply NoDup_app. split_and!; [done|intros h Hin; specialize (Hd h Hin); set_solver|].
      apply NoDup_cons. split; [set_solver|done].
  - exists es'. split_and!; [done| |done]. apply Forall_forall. intros x Hx. rewrite Forall_forall in Hes.
    destruct (Hes x Hx) as [? ?]. split; [done|]. apply not_elem_of_union. split; [|done].
    rewrite elem_of_singleton. intros Heq. apply Hin. rewrite <-Heq. by apply list_elem_of_fmap_2.
Qed.

Definition request (q : QualifiedName) (files : list string) : ExecuteActionInput :=
  {| ei_action := q; input_objects := files |}.

(** The files a feasible report names. *)
Lemma feasible_files entries locked held q action :
  let report := check_report entries locked held q action in
  feasible report = true ->
  exists es, ca_file_name <$> available_inputs report = fst <$> es
    /\ Forall2 (fun r e => suits r e = true) (total_inputs action) es
    /\ Forall (fun e => e ∈ entries /\ is_free locked held e = true) es /\ NoDup (entry_hash <$> es).
Proof.
  unfold check_report. destruct (pick_inputs _ ∅ _) as [available missing] eqn:Hp. simpl.
  intros ->%bool_decide_eq_true. apply pick_sound in Hp as (H1 & H2 & H3).
  exists (snd <$> available). split_and!; [by rewrite <-!list_fmap_compose|done| |done].
  eapply Forall_impl; [exact H2|]. intros e [He _]. apply list_elem_of_filter in He as [? ?]. done.
Qed.

(** Different content hashes are different files. *)
Lemma distinct_files entries es :
  NoDup (fst <$> entries) -> Forall (fun e => e ∈ entries) es -> NoDup (entry_hash <$> es) -> NoDup (fst <$> es).
Proof.
  intros Hn Hes. induction Hes as [|e es He Hes IH]; [intros _; constructor|]. rewrite !fmap_cons, !NoDup_cons. intros [Hne Hnd].
  split; [|auto]. intros (e' & Hf & Hin)%list_elem_of_fmap. apply Hne.
  assert (e = e') as ->; [|by apply list_elem_of_fmap_2].
  rewrite Forall_forall in Hes. eapply (NoDup_fmap_inj fst entries); auto.
Qed.

Lemma distinct_hashes live es :
  NoDup (entry_hash <$> live) -> Forall (fun e => e ∈ live) es -> NoDup (fst <$> es) -> NoDup (entry_hash <$> es).
Proof.
  intros Hn Hes. induction Hes as [|e es He Hes IH]; [intros _; constructor|]. rewrite !fmap_cons, !NoDup_cons. intros [Hne Hnd].
  split; [|auto]. intros (e' & Hf & Hin)%list_elem_of_fmap. apply Hne.
  assert (e = e') as ->; [|by apply list_elem_of_fmap_2].
  rewrite Forall_forall in Hes. eapply (NoDup_fmap_inj entry_hash live); auto.
Qed.

(** C37: while no two free files have the same content hash, an action is
    reported feasible exactly when some choice of input files passes validation,
    resolves, and can be claimed; the files the report names are such a choice. *)
Theorem check_action_exact entries locked held q action :
  NoDup (fst <$> entries) -> Forall (fun e => plain (fst e)) entries ->
  NoDup (entry_hash <$> filter (fun e => is_free locked held e = true) entries) ->
  let report := check_report entries locked held q action in
  let accepted files := exists es,
    validate_execute_request (request q files) action = Ok tt
    /\ resolve_inputs entries (request q files) action = Ok es
    /\ fst <$> es = files /\ check_claims files locked held = Ok tt in
  (feasible report = true <-> exists files, accepted files)
  /\ (feasible report = true -> accepted (ca_file_name <$> available_inputs report)).
Proof.
  intros Hnames Hplain Hhashes report accepted.
  assert (feasible report = true -> accepted (ca_file_name <$> available_inputs report)) as Hsound.
  { intros Hfe. destruct (feasible_files entries locked held q action Hfe) as (es & Hfs & Hs & Hes & Hnd).
    fold report in Hfs. rewrite Hfs. exists es.
    assert (NoDup (fst <$> es)) as Hfiles.
    { eapply distinct_files; [done| |done]. eapply Forall_impl; [exact Hes|]. by intros e []. }
    assert (Forall2 (fun raw n => extract_basename raw = Ok n) (fst <$> es) (fst <$> es)) as Hbase.
    { apply Forall_Forall2_diag, Forall_fmap. eapply Forall_impl; [exact Hes|]. intros e [He _].
      apply plain_basename. rewrite Forall_forall in Hplain. auto. }
    split_and!; [| |done|].
    - unfold validate_execute_request. simpl. rewrite length_fmap, <-(Forall2_length _ _ _ Hs), bool_decide_true by done.
      simpl. apply (check_duplicates_Ok ∅ _ _ Hbase). split; [done|set_solver].
    - apply resolve_pairs_own; [done..|]. eapply Forall_impl; [exact Hes|].
      intros e [He [Hl _]%is_free_spec]. done.
    - apply check_claims_Ok. intros f (e & -> & Hin)%list_elem_of_fmap.
      rewrite Forall_forall in Hes. apply Hes in Hin as [_ (_ & ? & ?)%is_free_spec]. done. }
  split; [|done]. split; [intros Hf; eexists; by apply Hsound|].
  intros (files & es & Hv & Hr & Hf & Hc). unfold validate_execute_request in Hv. case_bool_decide as Hlen; [|done].
  simpl in *. apply resolve_pairs_Ok in Hr as (Hb & Hes & Hs); [|done].
  assert (Forall2 (fun raw n => extract_basename raw = Ok n) files (fst <$> es)) as Hbase
    by by apply Forall2_fmap_r.
  apply (check_duplicates_Ok ∅ _ _ Hbase) in Hv as [Hnd _].
  assert (Forall (fun e => e ∈ filter (fun e => is_free locked held e = true) entries) es) as Hlive.
  { apply Forall_forall. intros e He. rewrite Forall_forall in Hes. destruct (Hes e He) as [Hin Hl].
    apply list_elem_of_filter. split; [|done]. apply is_free_spec. split; [done|].
    apply and_comm. apply (proj1 (check_claims_Ok _ _ _) Hc). rewrite <-Hf. by apply list_elem_of_fmap_2. }
  subst report. unfold check_report.
  pose proof (pick_complete _ ∅ _ es Hhashes Hs) as Hp. destruct (pick_inputs _ ∅ _) as [av mi]. simpl in *.
  apply bool_decide_true, Hp; [|by eapply distinct_hashes].
  eapply Forall_impl; [exact Hlive|]. intros e He. split; [done|set_solver].
Qed.
End Feasibility.

(** An action that consumes two swords, of which the store has three: one is
    locked. *)
Module Sample.
Import ToyDriver Toy.
#[local] Existing Instances toy_machine toy_pod2.
Definition sword_class : ClassRef := {| cr_class := q; cr_hash := encode_hash_hex EMPTY_HASH |}.
Definition duel : ActionSummary :=
  {| as_action := q; total_inputs := [sword_class; sword_class]; total_outputs := []; as_mutated_objects := [] |}.
Definition sword_at (n : Z) : ObjectRecord := {|
  metadata := {| class := q; content_hash := MkHash n 0 0 0; status := Live; producer := EMPTY_HASH;
                 ob_tx_hash := None; creation_proof := None |};
  obj := {["type" := EMPTY_HASH]} |}.
Definition swords : list (string * ObjectRecord) :=
  [("a.dobj", sword_at 1); ("b.dobj", sword_at 2); ("c.dobj", sword_at 3)].

Lemma check_action_witness :
  feasible (check_report swords {["a.dobj"]} ∅ q duel) = true
  /\ exists es, resolve_inputs swords (request q ["b.dobj"; "c.dobj"]) duel = Ok es
               /\ check_claims ["b.dobj"; "c.dobj"] {["a.dobj"]} ∅ = Ok tt.
Proof.
  assert (feasible (check_report swords {["a.dobj"]} ∅ q duel) = true) as Hf by by vm_compute.
  split; [exact Hf|].
  destruct (proj2 (check_action_exact swords {["a.dobj"]} ∅ q duel
    ltac:(apply (bool_decide_eq_true_1 (NoDup (fst <$> swords))); by vm_compute)
    ltac:(repeat (constructor; [split; [by apply (bool_decide_eq_true_1 (_ ∉ _)); vm_compute|by vm_compute]|]); constructor)
    ltac:(apply (bool_decide_eq_true_1 (NoDup (entry_hash <$> filter (fun e => is_free {["a.dobj"]} ∅ e = true) swords)));
          by vm_compute)) Hf) as (es & _ & Hr & _ & Hc).
  exists es. split; [exact Hr|exact Hc].
Defined.
End Sample.
End Actions.
