(* ===== verification/DriverObjects.v ===== *)
(** * Objects in the store (libs/driver: driver.rs, creation_proof.rs, and the
    imported keys of object_store.rs)

    What a player does with object files besides transactions: listing and
    reading them, renaming and discarding them, and importing a file from
    elsewhere. The list of imported keys is a text file, kept as its
    characters. An object to import is given as the value its JSON parses to. *)

From Stdlib Require Import Ascii.
From stdpp Require Import sorting.
From S2P Require Import Prelude Pod2 Models TxModel Payload DonState ObjectNames DriverStore Driver Actions.

Module DriverObjects.
Import Payload DonState ObjectNames DriverStore Driver Actions.
Import TxModel(object_nullifier_hash).
Local Open Scope Z_scope.

(** ** Definitions *)

Inductive ObjectStatus : Type := OUnknown | OPending | OLive | ONullified.
#[global] Instance ObjectStatus_eq_dec : EqDecision ObjectStatus.
Proof. solve_decision. Defined.

Definition ObjectStatus_from (s : FileStatus) : ObjectStatus :=
  match s with Unknown => OUnknown | Live => OLive | Nullified => ONullified end.

(** [ObjectSummary] without the file's size and the JSON view of its fields. *)
Record ObjectSummary : Type := {
  os_content_hash : string;
  os_file_name : string;
  os_class : QualifiedName;
  os_class_hash : string;
  os_emoji : string;
  os_status : ObjectStatus;
  os_tx_hash : option string;
  os_description : option string;
  os_held_by_run_id : option string;
  os_shared_key : bool;
}.

Record ObjectQuery : Type := {
  oq_class : option QualifiedName;
  oq_status : option ObjectStatus;
  oq_exclude_nullified : bool;
}.

Definition matches_query (s : ObjectSummary) (q : ObjectQuery) : bool :=
  is_none_or (oq_class q) (fun c => bool_decide (os_class s = c))
  && is_none_or (oq_status q) (fun st => bool_decide (st = os_status s))
  && negb (oq_exclude_nullified q && bool_decide (os_status s = ONullified)).

(** *** Creation proofs *)

(** The fields of a [CreationProof], and pod2's [Array::verify]. *)
Class CreationProofs `{Machine, Pod2} : Type := {
  ArrayProof : Type;
  cp_state_header : CreationProof -> StateHeader;
  cp_index : CreationProof -> Z;
  cp_proof : CreationProof -> ArrayProof;
  array_verify : Hash -> ArrayProof -> Z -> Value -> Result unit;
  (** The state root the synchronizer derived at a block. *)
  fetch_state_at : Z -> eff Env (option Hash);
}.

(** The driver's files: the object store and the imported keys. *)
Record Home `{Machine} : Type := MkHome { world : World; imported_keys : list ascii }.

Section Objects.
Context `{Clients, Pod2, !CreationProofs} (catalog : ActionCatalog).

Definition in_store {A} (c : eff World A) : eff Home A := fun h =>
  let '(r, w) := c (world h) in (r, MkHome _ w (imported_keys h)).

Definition creation_verify (p : CreationProof) (commitment : Hash) : Result Hash :=
  if cp_index p <? 0 then Err (Fail "creation proof has a negative index")
  else
    let? _ := match array_verify (created_root (cp_state_header p)) (cp_proof p) (cp_index p) commitment with
              | Err (Fail err) => Err (Fail ("creation proof does not prove the object's creation: " +:+ err))
              | c => c
              end in
    Ok (StateHeader_hash (cp_state_header p)).

(** *** Imported keys *)

Definition key_fingerprint (o : Dictionary) : option Hash :=
  (fun key => hash_values [key]) <$> o !! "key".

Definition newline : ascii := ascii_of_nat 10.

(** Appends a line; a failed write may leave a part of it. *)
Definition record_imported_key (fingerprint : Hash) : eff Home unit := fun h =>
  let line := los (encode_hash_hex fingerprint) ++ [newline] in
  let '(o, e) := io_write (env (world h)) in
  match o with
  | Written => (Ok tt, MkHome _ (set_env e (world h)) (imported_keys h ++ line))
  | NotWritten m => (Err (Fail m), MkHome _ (set_env e (world h)) (imported_keys h))
  | Torn k m => (Err (Fail m), MkHome _ (set_env e (world h)) (imported_keys h ++ take k line))
  end.

(** [str::lines]: a final line end starts no further line. *)
Definition lines (l : list ascii) : list (list ascii) :=
  let parts := split_on newline l in
  match last parts with
  | Some [] => take (length parts - 1) parts
  | _ => parts
  end.

(** [str::trim], for text whose whitespace is ASCII. *)
Definition is_space (a : ascii) : bool := is_whitespace (code a).
Fixpoint drop_spaces (l : list ascii) : list ascii :=
  match l with a :: l' => if is_space a then drop_spaces l' else l | [] => [] end.
Definition trim (l : list ascii) : list ascii := rev (drop_spaces (rev (drop_spaces l))).

Definition parse_imported_keys (contents : list ascii) : Result (list Hash) :=
  try_map (fun line => decode_hash_hex (sol (trim line))) (filter (fun line => trim line <> []) (lines contents)).

Definition load_imported_keys : eff Home (gset Hash) :=
  in_store fs_read ;! eread (fun h => rmap list_to_set (parse_imported_keys (imported_keys h))).

(** *** Summaries *)

(** [RecordIndex]: the record of a transaction is [record_of]; who spends a file. *)
Definition locked_by (records : list TransactionRecord) (f : string) : option string :=
  owner <$> last (filter (fun r => is_open r = true /\ f ∈ input_files r) records).

Definition object_summary (records : list TransactionRecord) (held : gmap string string) (shared : gset Hash)
    (e : string * ObjectRecord) : ObjectSummary :=
  let '(f, r) := e in
  let m := metadata r in
  let class_info := get_class catalog (class m) in
  let record := record_of records (producer m) in
  {| os_content_hash := encode_hash_hex (content_hash m);
     os_file_name := f;
     os_class := class m;
     os_class_hash := default EmptyString (cc_hash <$> class_info);
     os_emoji := default "📦" (cc_emoji <$> class_info);
     os_status := match status m, state <$> record with
                  | Unknown, Some Submitted => OPending
                  | st, _ => ObjectStatus_from st
                  end;
     os_tx_hash := match record ≫= tx_hash with Some t => Some t | None => ob_tx_hash m end;
     os_description := cc_description <$> class_info;
     os_held_by_run_id := match held !! f with Some o => Some o | None => locked_by records f end;
     os_shared_key := match key_fingerprint (obj r) with
                      | Some fp => bool_decide (fp ∈ shared)
                      | None => false
                      end |}.

Definition summaries (entries : list (string * ObjectRecord)) (records : list TransactionRecord) :
    eff Home (list ObjectSummary) :=
  let! h := eget in
  let! keys := etry load_imported_keys in
  let shared := match keys with Ok k => k | Err _ => ∅ end in
  eret (object_summary records (owners (world h)) shared <$> entries).

Definition summary_of (e : string * ObjectRecord) : eff Home ObjectSummary :=
  let! records := in_store load_records in
  let! l := summaries [e] records in
  elift (expect (head l) "removal index (is 0) should be < len (is 0)").

Definition list_objects (query : option ObjectQuery) : eff Home (list ObjectSummary) :=
  let! entries := in_store load_object_files in
  let! records := in_store load_records in
  let! l := summaries entries records in
  eret (filter (fun s => is_none_or query (matches_query s) = true) l).

(** [resolve_managed_path]: in the live directory, else in the nullified one. *)
Definition resolve_managed_path (w : World) (f : string) : bool := bool_decide (objects w !! f = None).

Definition read_object_entry (path : string) : eff World (string * ObjectRecord) :=
  let! f := elift (extract_basename path) in
  let! w := eget in
  let in_nullified := resolve_managed_path w f in
  if bool_decide (dir_of in_nullified w !! f = None) then ethrow (Fail ("object file not found: " +:+ f))
  else let! r := parse_object_record_file in_nullified f in eret (f, r).

Definition read_object (path : string) : eff Home ObjectSummary :=
  let! e := in_store (read_object_entry path) in summary_of e.

Definition read_available_objects (paths : list string) : eff Home (list ObjectSummary) :=
  let! records := in_store load_records in
  let! entries := in_store (efold (fun acc path =>
    let! e := etry (read_object_entry path) in
    eret (match e with Ok e => acc ++ [e] | Err _ => acc end)) [] paths) in
  summaries entries records.

(** *** Discarding and renaming *)

(** [fs::rename] into the discarded directory replaces what is there. *)
Definition discard_object_unsafe (path : string) : eff Home ObjectSummary :=
  let! f := elift (extract_basename path) in
  let! h := eget in
  if bool_decide (objects (world h) !! f = None) then ethrow (Fail ("object file not found: " +:+ f))
  else
    let! r := in_store (parse_object_record_file false f) in
    let! summary := summary_of (f, r) in
    in_store fs_call ;!
    in_store fs_call ;!
    in_store (modify (fun w => MkWorld _ (delete f (objects w)) (nullified w) ({[f]} ∪ discarded w)
      (transactions w) (owners w) (reconciled w) (report w) (env w))) ;!
    eret summary.

(** A name is taken; a change of case is looked up exactly in the live
    directory. *)
Definition name_taken (w : World) (from to : string) : eff World bool :=
  if eq_ignore_ascii_case to from then
    fs_read ;!
    eret (bool_decide (is_Some (objects w !! to)) || bool_decide (is_Some (nullified w !! to))
          || bool_decide (to ∈ discarded w))
  else eret (store_has_file w to).

Definition check_unheld (f : string) (w : World) : Result unit :=
  match owners w !! f with
  | Some o => Err (Fail ("conflict: " +:+ f +:+ " is held by " +:+ o))
  | None => Ok tt
  end.

Definition check_unclaimed (f : string) (records : list TransactionRecord) : Result unit :=
  if decide (f ∈ locked_inputs records) then
    Err (Fail ("conflict: " +:+ f +:+ " is spent by a transaction awaiting the chain"))
  else if existsb (fun r => is_open r && bool_decide (f ∈ output_files r)) records then
    Err (Fail ("conflict: " +:+ f +:+ " is created by a transaction awaiting the chain"))
  else Ok tt.

(** Under the store lock. *)
Definition rename_body (f new_name : string) : eff World (string * ObjectRecord) :=
  let! there := try_exists false f in
  if negb there then ethrow (Fail ("object file not found: " +:+ f))
  else
    let! r := parse_object_record_file false f in
    let! generated := elift (object_file_name (class (metadata r)) (obj r)) in
    let! target := elift (custom_file_name new_name generated) in
    if bool_decide (target = f) then eret (f, r)
    else
      let! w := eget in
      elift (check_unheld f w) ;!
      let! records := load_records in
      elift (check_unclaimed f records) ;!
      if negb (bool_decide (status (metadata r) = Live)) then
        ethrow (Fail ("conflict: " +:+ f +:+ " is not live"))
      else
        let! taken := name_taken w f target in
        if (taken : bool) then ethrow (Fail ("conflict: " +:+ target +:+ " already exists"))
        else rename_live_object_file f target ;! eret (target, r).

Definition rename_object (path new_name : string) : eff Home ObjectSummary :=
  let! f := elift (extract_basename path) in
  let! e := in_store (rename_body f new_name) in
  summary_of e.

(** *** Importing *)

Definition import_file_name (r : ObjectRecord) (generated : string) (requested : option string) : eff World string :=
  let! entries := load_object_files in
  match list_find (fun e : string * ObjectRecord => content_hash (metadata (snd e)) = content_hash (metadata r)) entries with
  | Some (_, (held, _)) => ethrow (Fail ("conflict: object already present: " +:+ held))
  | None =>
      let! w := eget in
      let! f := elift (match requested with
                       | None => Ok generated
                       | Some n => imported_file_name (name_fuel w) n generated (store_has_file w)
                       end) in
      if existsb (fun e : string * ObjectRecord => bool_decide (fst e = f)) entries
      then ethrow (Fail ("conflict: object already present: " +:+ f))
      else eret f
  end.

Definition check_creation_proof (p : CreationProof) (commitment : Hash) : eff World unit :=
  let! state_root := elift (creation_verify p commitment) in
  let! derived := on_env (fetch_state_at (block_number (cp_state_header p))) in
  if bool_decide (derived = Some state_root) then eret tt
  else ethrow (Fail "creation proof's state root is not the synchronizer's").

(** The class of the file is the class its object commits to, and the content
    hash is the object's. *)
Definition check_identity (r : ObjectRecord) : Result string :=
  let m := metadata r in
  let? class_info := ok_or (get_class catalog (class m)) "unknown class" in
  let? expected := decode_hash_hex (cc_hash class_info) in
  let? actual := ok_or (obj_type_hash (obj r)) "imported object has no readable 'type' field" in
  if negb (bool_decide (actual = expected)) then Err (Fail "class hash mismatch")
  else if negb (bool_decide (content_hash m = dict_commitment (obj r))) then Err (Fail "content hash mismatch")
  else object_file_name (class m) (obj r).

Definition check_on_chain (r : ObjectRecord) : eff World unit :=
  let commitment := dict_commitment (obj r) in
  let! nullifier := elift (object_nullifier_hash (obj r)) in
  let! mb := on_env (fetch_membership [commitment] [nullifier]) in
  if bool_decide (nullifier ∈ on_chain_nullifiers mb) then ethrow (Fail "imported object has already been spent")
  else if negb (bool_decide (commitment ∈ created_objects mb)) then
    ethrow (Fail "imported object is not registered in the network broadcast history")
  else eret tt.

(** Live, with a creation proof from the synchronizer if it brought none. *)
Definition complete_record (r : ObjectRecord) : eff World ObjectRecord :=
  let r := set_status Live r in
  match creation_proof (metadata r) with
  | Some _ => eret r
  | None =>
      let commitment := dict_commitment (obj r) in
      let! proofs := etry (fetch_creation_proofs [commitment]) in
      eret (match proofs with
            | Ok m => set_creation_proof (m !! commitment) r
            | Err _ => r
            end)
  end.

(** The last part, under the store lock. *)
Definition file_import (r : ObjectRecord) (generated : string) (requested : option string) : eff Home string :=
  let! f := in_store (import_file_name r generated requested) in
  (match key_fingerprint (obj r) with
   | Some fp => record_imported_key fp
   | None => eret tt
   end) ;!
  in_store (write_object_file r f) ;!
  eret f.

(** The checks before it; the store may change between the two parts. *)
Definition prepare_import (dobj : option ObjectRecord) (requested : option string) : eff Home (ObjectRecord * string) :=
  let! r := elift (ok_or dobj "could not parse .dobj contents") in
  let! generated := elift (check_identity r) in
  let! _ := in_store (import_file_name r generated requested) in
  in_store (on_env load_settings) ;!
  (match creation_proof (metadata r) with
   | Some p => in_store (check_creation_proof p (dict_commitment (obj r)))
   | None => eret tt
   end) ;!
  in_store (check_on_chain r) ;!
  let! r := in_store (complete_record r) in
  eret (r, generated).

Definition import_object (dobj : option ObjectRecord) (requested : option string) : eff Home ObjectSummary :=
  let! (r, generated) := prepare_import dobj requested in
  let! f := file_import r generated requested in
  summary_of (f, r).
End Objects.

(** ** Listing the store *)

Section Listing.
Context `{Machine, Pod2}.
Implicit Types w : World.

(** A file that a listing finds. *)
Definition stored w (f : string) (r : ObjectRecord) : Prop :=
  is_dobj_file f = true /\ exists b, dir_of b w !! f = Some (Some r).

Lemma same_disk_dir w0 w b : same_disk w0 w -> dir_of b w = dir_of b w0.
Proof. intros (Ho & Hn & _). by destruct b. Qed.

Lemma wp_fs_read w0 w (Q : unit -> World -> Prop) (E : failure -> World -> Prop) :
  same_disk w0 w -> (forall w', same_disk w0 w' -> Q tt w') ->
  (forall m w', ~ reads_ok -> same_disk w0 w' -> E (Fail m) w') -> wp fs_read Q E w.
Proof.
  intros Hw HQ HE. unfold wp, fs_read, on_env.
  destruct (io_read (env w)) as [[m|] e] eqn:Hr; [apply HE|apply HQ]; try done.
  intros Hok. specialize (Hok (env w)). by rewrite Hr in Hok.
Qed.

Lemma same_disk_ensure w0 : preserves (same_disk w0) ensure_store_dirs.
Proof. unfold ensure_store_dirs. repeat (apply preserves_bind; [apply same_disk_fs_call|intros _]). apply same_disk_fs_call. Qed.

(** The entries [seen] of a directory, added to [acc]. *)
Record loaded (acc : gmap string ObjectRecord) (seen : list (string * option ObjectRecord))
    (acc' : gmap string ObjectRecord) : Prop := {
  ld_kept : acc ⊆ acc';
  ld_from f r : acc' !! f = Some r -> acc !! f = Some r \/ is_dobj_file f = true /\ (f, Some r) ∈ seen;
  ld_all : reads_ok -> forall f r, (f, Some r) ∈ seen -> is_dobj_file f = true -> acc' !! f = Some r;
}.

Lemma loaded_skip acc seen acc' f c :
  loaded acc seen acc' -> (reads_ok -> is_dobj_file f = true -> c = None) -> loaded acc (seen ++ [(f, c)]) acc'.
Proof.
  intros [Hk Hf Ha] Hc. split; [done| |].
  - intros g r [|[? ?]]%Hf; [by left|right]. split; [done|]. apply elem_of_app. by left.
  - intros Hr g r [Hin|[= -> <-]%list_elem_of_singleton]%elem_of_app Hd; [auto|]. by specialize (Hc Hr Hd).
Qed.

Lemma loaded_add acc seen acc' f r :
  loaded acc seen acc' -> is_dobj_file f = true -> acc' !! f = None ->
  loaded acc (seen ++ [(f, Some r)]) (<[f := r]> acc').
Proof.
  intros [Hk Hf Ha] Hd Hn. split.
  - etrans; [done|]. by apply insert_subseteq.
  - intros g r'. destruct (decide (g = f)) as [->|].
    + rewrite lookup_insert_eq. intros [= <-]. right. split; [done|]. apply elem_of_app. right. by left.
    + rewrite lookup_insert_ne by done. intros [|[? ?]]%Hf; [by left|right]. split; [done|]. apply elem_of_app. by left.
  - intros Hr g r' [Hin|[= -> ->]%list_elem_of_singleton]%elem_of_app Hg; [|by rewrite lookup_insert_eq].
    specialize (Ha Hr g r' Hin Hg). rewrite lookup_insert_ne; [done|]. intros ->. congruence.
Qed.

Lemma load_entry_spec w0 b acc seen acc' entry w :
  same_disk w0 w -> loaded acc seen acc' ->
  wp (load_entry b acc' entry) (fun acc'' w' => same_disk w0 w' /\ loaded acc (seen ++ [entry]) acc'')
    (fun _ => same_disk w0) w.
Proof.
  intros Hw Hl. destruct entry as [f c]. unfold load_entry. apply wp_bind.
  apply (wp_fs_read w0); [done| |auto]. intros w1 Hw1. destruct (is_dobj_file f) eqn:Hd; simpl.
  - apply wp_bind, wp_try, (wp_fs_read w0); [done| |].
    + intros w2 Hw2. destruct c as [r|]; [|apply wp_ret; split; [done|by apply loaded_skip]].
      case_bool_decide; simpl; [|done]. case_bool_decide as Hs; [done|].
      apply wp_ret. split; [done|]. apply loaded_add; [done..|]. by apply eq_None_not_Some.
    + intros m w2 Hn Hw2. apply wp_ret. split; [done|]. by apply loaded_skip.
  - apply wp_ret. split; [done|]. apply loaded_skip; [done|]. intros _. by rewrite Hd.
Qed.

Lemma load_dir_spec w0 b acc w :
  same_disk w0 w ->
  wp (load_object_files_from_dir b acc)
    (fun acc' w' => same_disk w0 w' /\ loaded acc (map_to_list (dir_of b w0)) acc') (fun _ => same_disk w0) w.
Proof.
  intros Hw. unfold load_object_files_from_dir. apply wp_bind, (wp_fs_read w0); [done| |auto].
  intros w1 Hw1. apply wp_get. rewrite (same_disk_dir w0 w1) by done.
  eapply wp_mono; [apply (wp_fold _ (fun seen acc' w' => same_disk w0 w' /\ loaded acc seen acc'))| |].
  - split; [done|]. split; [done|by left|]. by intros ? ? ? ?%not_elem_of_nil.
  - intros pre entry acc' w2 [Hw2 Hl2]. by apply load_entry_spec.
  - done.
  - done.
Qed.

Lemma same_disk_refl w : same_disk w w.
Proof. done. Qed.

Lemma load_object_files_spec w0 w :
  same_disk w0 w ->
  wp load_object_files
    (fun entries w' => same_disk w0 w' /\ NoDup (fst <$> entries)
       /\ (forall f r, (f, r) ∈ entries -> stored w0 f r)
       /\ (reads_ok -> forall f r, stored w0 f r -> (f, r) ∈ entries)) (fun _ => same_disk w0) w.
Proof.
  intros Hw. unfold load_object_files. apply wp_bind.
  eapply wp_mono; [apply (same_disk_ensure w0 w Hw)| |done]. intros [] w1 Hw1.
  apply wp_bind. eapply wp_mono; [by apply load_dir_spec| |done]. intros live w2 [Hw2 Hl].
  apply wp_bind. eapply wp_mono; [by apply load_dir_spec| |done]. intros all w3 [Hw3 Ha].
  apply wp_ret. split; [done|]. split_and!.
  - rewrite merge_sort_Permutation. apply NoDup_fst_map_to_list.
  - intros f r. rewrite merge_sort_Permutation, elem_of_map_to_list.
    intros [[Hno|[Hd Hin]]%(ld_from _ _ _ Hl)|[Hd Hin]]%(ld_from _ _ _ Ha); [by rewrite lookup_empty in Hno| |];
      apply elem_of_map_to_list in Hin; (split; [done|by eexists]).
  - intros Hr f r [Hd [b Hb]]. rewrite merge_sort_Permutation, elem_of_map_to_list. destruct b.
    + apply (ld_all _ _ _ Ha Hr); [by apply elem_of_map_to_list|done].
    + eapply lookup_weaken; [|apply (ld_kept _ _ _ Ha)].
      apply (ld_all _ _ _ Hl Hr); [by apply elem_of_map_to_list|done].
Qed.

Lemma parse_spec w0 b f w :
  same_disk w0 w ->
  wp (parse_object_record_file b f)
    (fun r w' => same_disk w0 w' /\ dir_of b w0 !! f = Some (Some r)) (fun _ => same_disk w0) w.
Proof.
  intros Hw. unfold parse_object_record_file. apply wp_bind, (wp_fs_read w0); [done| |auto]. intros w1 Hw1.
  unfold wp, eread. rewrite (same_disk_dir w0 w1) by done. by destruct (dir_of b w0 !! f) as [[r|]|].
Qed.

Lemma try_exists_same w0 b f w :
  same_disk w0 w -> wp (try_exists b f) (fun _ => same_disk w0) (fun _ => same_disk w0) w.
Proof.
  intros Hw. unfold try_exists. apply wp_bind, (wp_fs_read w0); [done| |auto]. by intros w1 Hw1.
Qed.

Lemma load_all_records w0 w :
  same_disk w0 w ->
  wp load_records
    (fun l w' => same_disk w0 w' /\ (reads_ok -> forall key r, rec_at (transactions w0) key = Some r -> r ∈ l))
    (fun _ => same_disk w0) w.
Proof.
  intros Hw. eapply wp_mono; [apply wp_conj; [by apply (same_disk_load_records w0)|apply (load_records_spec w0)]| |].
  - destruct Hw as (? & ? & ? & ? & ?). done.
  - intros l w' (Hd & _ & _ & Hall). done.
  - by intros e w' [].
Qed.
End Listing.

(** ** Renaming *)

Section Renaming.
Context `{Clients, Pod2, !CreationProofs} (catalog : ActionCatalog).
Implicit Types w : World.

(** Everything but the live files is as in [w0]. *)
Definition same_elsewhere w0 w : Prop :=
  nullified w = nullified w0 /\ discarded w = discarded w0 /\ transactions w = transactions w0 /\ owners w = owners w0.

(** No open transaction spends or creates the file. *)
Definition unclaimed w (f : string) : Prop :=
  forall key r, rec_at (transactions w) key = Some r -> is_open r = true -> f ∉ input_files r /\ f ∉ output_files r.

Lemma check_unclaimed_Ok f records u :
  check_unclaimed f records = Ok u ->
  forall r, r ∈ records -> is_open r = true -> f ∉ input_files r /\ f ∉ output_files r.
Proof.
  unfold check_unclaimed. case_decide as Hl; [done|]. destruct (existsb _ records) eqn:He; [done|]. intros _ r Hr Ho.
  split.
  - intros Hf. apply Hl. unfold locked_inputs. apply elem_of_list_to_set, list_elem_of_bind. exists r.
    split; [done|]. by apply list_elem_of_filter.
  - intros Hf. apply not_true_iff_false in He. apply He, existsb_exists. exists r.
    rewrite <-list_elem_of_In, Ho. simpl. split; [done|]. by apply bool_decide_true.
Qed.

(** The name is free and the file it names is moved there. *)
Definition moved w0 (f f' : string) (r : ObjectRecord) w : Prop :=
  f' <> f /\ store_has_file w0 f' = false /\ objects w = <[f' := Some r]> (delete f (objects w0)) /\ same_elsewhere w0 w.

Lemma rename_live_spec w0 f f' r w :
  same_disk w0 w -> objects w0 !! f = Some (Some r) -> f' <> f -> store_has_file w0 f' = false ->
  wp (rename_live_object_file f f') (fun _ => moved w0 f f' r) (fun _ => same_disk w0) w.
Proof.
  intros Hw Hf Hne Hfree. unfold rename_live_object_file. apply wp_bind.
  eapply (wp_mono _ (fun _ => same_disk w0) _ (fun _ => same_disk w0)); [|intros [] w1 Hw1|done].
  { case_match; [by apply wp_ret|]. apply wp_bind. unfold try_exists.
    eapply wp_mono; [apply (preserves_bind (same_disk w0)); [apply same_disk_fs_read|intros; apply preserves_read|exact Hw]| |done].
    intros b w1 Hw1. by destruct b. }
  apply wp_bind. eapply wp_mono; [by apply same_disk_fs_call| |done]. intros [] w2 Hw2.
  apply wp_get. cbn beta. destruct Hw2 as (Ho & Hn & Hd & Ht & Hw2). rewrite Ho, Hf.
  unfold wp, modify. by split_and!.
Qed.

Lemma rename_body_spec w f new_name :
  wp (rename_body f new_name)
    (fun res w' => objects w !! f = Some (Some (snd res))
       /\ (fst res = f /\ same_disk w w'
           \/ moved w f (fst res) (snd res) w' /\ status (metadata (snd res)) = Live /\ owners w !! f = None
              /\ (reads_ok -> unclaimed w f)))
    (fun _ => same_disk w) w.
Proof.
  unfold rename_body. apply wp_bind. eapply wp_mono; [by apply (try_exists_same w)| |done]. intros there w1 Hw1.
  destruct there; [|done]. cbn [negb]. apply wp_bind. eapply wp_mono; [by apply (parse_spec w)| |done].
  intros r w2 [Hw2 Hf]. apply wp_bind, wp_lift; [|done]. intros generated _.
  apply wp_bind, wp_lift; [|done]. intros target _. case_bool_decide as Hne.
  { apply wp_ret. split; [done|]. by left. }
  apply wp_get. cbn beta. apply wp_bind, wp_lift; [|done]. intros [] Hheld. apply wp_bind.
  eapply wp_mono; [by apply (load_all_records w)| |done]. intros records w3 [Hw3 Hrec].
  apply wp_bind, wp_lift; [|done]. intros [] Hcl. case_bool_decide as Hl; [|done]. cbn [negb].
  assert (store_has_file w2 target = store_has_file w target) as Hst.
  { unfold store_has_file. by destruct Hw2 as (-> & -> & -> & _). }
  apply wp_bind.
  eapply (wp_mono _ (fun taken w' => same_disk w w' /\ taken = store_has_file w target) _ (fun _ => same_disk w));
    [|intros taken w4 [Hw4 ->]|done].
  { unfold name_taken. rewrite <-Hst. case_match; [|by apply wp_ret].
    apply wp_bind, (wp_fs_read w); [done| |auto]. intros w4 Hw4. by apply wp_ret. }
  destruct (store_has_file w target) eqn:Hfree; [done|]. apply wp_bind.
  eapply wp_mono; [by apply (rename_live_spec w f target r)| |done]. intros [] w5 Hm. apply wp_ret.
  split; [done|]. right. split_and!; [done|done| |].
  - unfold check_unheld in Hheld. destruct Hw2 as (_ & _ & _ & _ & <-). by destruct (owners w2 !! f).
  - intros Hr key rec Hk Ho. eapply check_unclaimed_Ok; [done|by eapply Hrec|done].
Qed.
End Renaming.

(** ** Importing *)

Section Importing.
Context `{Clients, Pod2, !CreationProofs} (catalog : ActionCatalog).
Implicit Types (w : World) (r : ObjectRecord).

Lemma wp_in_store {A} (c : eff World A) Q E h :
  wp c (fun a w => Q a (MkHome _ w (imported_keys h))) (fun e w => E e (MkHome _ w (imported_keys h))) (world h) ->
  wp (in_store c) Q E h.
Proof. unfold wp, in_store. by destruct (c (world h)) as [[a|e] w]. Qed.

(** The files a listing finds are where they were. *)
Definition kept w0 w : Prop :=
  forall b f r, is_dobj_file f = true -> dir_of b w0 !! f = Some (Some r) -> dir_of b w !! f = Some (Some r).

(** The name and the object are new to the store. *)
Definition fresh w (f : string) r : Prop :=
  forall f' r', stored w f' r' -> f' <> f /\ content_hash (metadata r') <> content_hash (metadata r).

Lemma import_file_name_spec w0 r generated requested w :
  same_disk w0 w ->
  wp (import_file_name r generated requested)
    (fun f w' => same_disk w0 w' /\ (reads_ok -> fresh w0 f r)) (fun _ => same_disk w0) w.
Proof.
  intros Hw. unfold import_file_name. apply wp_bind.
  eapply wp_mono; [by apply load_object_files_spec| |done]. intros entries w1 (Hw1 & _ & _ & Hall).
  destruct (list_find _ entries) as [[i [held rec]]|] eqn:Hc; [done|]. apply list_find_None in Hc.
  apply wp_get. cbn beta. apply wp_bind, wp_lift; [|done]. intros f _.
  destruct (existsb _ entries) eqn:He; [done|]. apply wp_ret. split; [done|].
  intros Hr f' r' Hs%(Hall Hr). split.
  - intros ->. apply not_true_iff_false in He. apply He, existsb_exists. exists (f, r').
    rewrite <-list_elem_of_In. split; [done|]. by apply bool_decide_true.
  - rewrite Forall_forall in Hc. exact (Hc _ Hs).
Qed.

(** The live file [f] now holds [c]; a spent file of that name may be gone. *)
Definition filed w0 (f : string) (c : option ObjectRecord) w : Prop :=
  objects w = <[f := c]> (objects w0) /\ (nullified w = nullified w0 \/ nullified w = delete f (nullified w0))
  /\ discarded w = discarded w0 /\ transactions w = transactions w0 /\ owners w = owners w0.

Lemma write_live_spec w0 r f w :
  same_disk w0 w -> is_nullified r = false ->
  wp (write_object_file r f) (fun _ => filed w0 f (Some r))
    (fun _ w' => same_disk w0 w' \/ exists c, filed w0 f c w') w.
Proof.
  intros Hw Hs. unfold write_object_file. rewrite Hs. apply wp_bind.
  eapply wp_mono; [apply (same_disk_ensure w0 w Hw)| |by left]. intros [] w1 (Ho & Hn & Hd & Ht & Hh).
  apply wp_bind. unfold wp at 1, fs_write. destruct (io_write (env w1)) as [[|m|k m] e].
  - apply wp_bind, wp_try. unfold remove_file. apply wp_bind. unfold wp at 1, fs_call, on_env. simpl.
    assert (forall w2, objects w2 = <[f := Some r]> (objects w1) -> nullified w2 = nullified w1 ->
      discarded w2 = discarded w1 -> transactions w2 = transactions w1 -> owners w2 = owners w1 ->
      filed w0 f (Some r) w2) as Hfiled.
    { intros w2 E1 E2 E3 E4 E5. unfold filed. rewrite E1, E2, E3, E4, E5, Ho. split_and!; try done. by left. }
    destruct (io e) as [[m|] e']; [by apply Hfiled|]. apply wp_get. simpl.
    destruct (nullified w1 !! f) eqn:Hf; [|by apply Hfiled].
    unfold wp, ebind, modify, filed. simpl. rewrite Ho, Hn. split_and!; try done. by right.
  - by left.
  - right. exists None. unfold filed. simpl. rewrite Ho. split_and!; try done. by left.
Qed.

Lemma filed_kept w0 f r c w : reads_ok -> (reads_ok -> fresh w0 f r) -> filed w0 f c w -> kept w0 w.
Proof.
  intros Hr Hf%(fun h => h Hr) (Ho & Hn & _). intros b f' r' Hd Hb.
  assert (f' <> f) as Hne by (eapply Hf; split; [done|by exists b]).
  destruct b; simpl in *; [|by rewrite Ho, lookup_insert_ne by done].
  destruct Hn as [->| ->]; [done|]. by rewrite lookup_delete_ne by done.
Qed.

Lemma same_disk_kept w0 w : same_disk w0 w -> kept w0 w.
Proof. intros Hw b f r _. by rewrite (same_disk_dir w0 w b Hw). Qed.

(** What the locked part leaves: nothing that a listing finds is touched. *)
Lemma file_import_spec r generated requested h :
  reads_ok -> is_nullified r = false ->
  wp (file_import r generated requested)
    (fun f h' => fresh (world h) f r /\ filed (world h) f (Some r) (world h')
       /\ imported_keys h' = imported_keys h ++ match key_fingerprint (obj r) with
                                                | Some fp => los (encode_hash_hex fp) ++ [newline]
                                                | None => []
                                                end)
    (fun _ h' => (kept (world h) (world h') /\ discarded (world h') = discarded (world h)
       /\ transactions (world h') = transactions (world h) /\ owners (world h') = owners (world h))
       /\ (objects (world h') = objects (world h)
           \/ forall fp, key_fingerprint (obj r) = Some fp ->
                imported_keys h' = imported_keys h ++ los (encode_hash_hex fp) ++ [newline])) h.
Proof.
  intros Hr Hs. set (E := fun w' => kept (world h) w' /\ discarded w' = discarded (world h)
       /\ transactions w' = transactions (world h) /\ owners w' = owners (world h)).
  assert (forall w', same_disk (world h) w' -> E w') as HE.
  { intros w' Hw'. split; [by apply same_disk_kept|]. by destruct Hw' as (_ & _ & ? & ? & ?). }
  assert (forall w', same_disk (world h) w' -> objects w' = objects (world h)) as HO by by intros w' [? _].
  unfold file_import. apply wp_bind, wp_in_store.
  eapply wp_mono; [apply (import_file_name_spec (world h) r generated requested); apply same_disk_refl| |].
  2: { intros e w' Hw'. split; [by apply HE|left; by apply HO]. }
  intros f w1 [Hw1 Hfr]. cbn [imported_keys]. apply wp_bind.
  set (keys := imported_keys h ++ _).
  eapply (wp_mono _ (fun _ h1 => same_disk (world h) (world h1) /\ imported_keys h1 = keys)
            _ (fun _ h1 => same_disk (world h) (world h1))).
  - subst keys. destruct (key_fingerprint (obj r)) as [fp|]; [|apply wp_ret; simpl; by rewrite app_nil_r].
    unfold wp, record_imported_key. simpl. by destruct (io_write (env w1)) as [[|m|k m] e].
  - intros [] h1 [Hw2 Hk]. apply wp_bind, wp_in_store. eapply wp_mono; [by apply write_live_spec| |].
    + intros [] w3 Hf. apply wp_ret. split_and!; [auto|done|done].
    + intros e w3 [Hw3|[c Hf]]; [split; [by apply HE|left; by apply HO]|].
      split; [split; [by eapply filed_kept|]; by destruct Hf as (_ & _ & ? & ? & ?)|].
      right. intros fp Hfp. cbn [imported_keys]. rewrite Hk. subst keys. by rewrite Hfp.
  - intros e h1 Hw2. split; [by apply HE|left; by apply HO].
Qed.

(** A creation proof that places a commitment in the created array of a state
    whose root the synchronizer derived at the proof's block. *)
Definition places (p : CreationProof) (commitment : Hash) : Prop :=
  0 <= cp_index p
  /\ array_verify (created_root (cp_state_header p)) (cp_proof p) (cp_index p) commitment = Ok tt
  /\ exists e e', fetch_state_at (block_number (cp_state_header p)) e
                  = (Ok (Some (StateHeader_hash (cp_state_header p))), e').

(** What an object must be to be filed: of a known class it commits to, with
    its commitment as content hash, live, created on chain and not spent when
    the synchronizer was asked; a creation proof the file brought was checked
    and is kept. *)
Record importable (dobj : option ObjectRecord) r : Prop := {
  im_source : exists r0, dobj = Some r0 /\ obj r0 = obj r /\ class (metadata r0) = class (metadata r)
    /\ forall p, creation_proof (metadata r0) = Some p ->
         places p (dict_commitment (obj r)) /\ creation_proof (metadata r) = Some p;
  im_class : exists c h, get_class catalog (class (metadata r)) = Some c
    /\ decode_hash_hex (cc_hash c) = Ok h /\ obj_type_hash (obj r) = Some h;
  im_hash : content_hash (metadata r) = dict_commitment (obj r);
  im_live : status (metadata r) = Live;
  im_on_chain : exists n e mb e', object_nullifier_hash (obj r) = Ok n
    /\ fetch_membership [dict_commitment (obj r)] [n] e = (Ok mb, e')
    /\ dict_commitment (obj r) ∈ created_objects mb /\ n ∉ on_chain_nullifiers mb;
}.

Lemma check_identity_Ok r generated :
  check_identity catalog r = Ok generated ->
  (exists c h, get_class catalog (class (metadata r)) = Some c
     /\ decode_hash_hex (cc_hash c) = Ok h /\ obj_type_hash (obj r) = Some h)
  /\ content_hash (metadata r) = dict_commitment (obj r).
Proof.
  unfold check_identity. destruct (get_class catalog _) as [c|]; [|done]. simpl.
  destruct (decode_hash_hex _) as [ex|] eqn:Hx; [|done]. simpl. destruct (obj_type_hash _) as [ac|]; [|done]. simpl.
  do 2 (case_bool_decide; [|done]); simpl. intros _. split; [|done]. exists c, ex. by subst.
Qed.

Lemma check_on_chain_spec w0 r w :
  same_disk w0 w ->
  wp (check_on_chain r) (fun _ w' => same_disk w0 w' /\
    exists n e mb e', object_nullifier_hash (obj r) = Ok n
      /\ fetch_membership [dict_commitment (obj r)] [n] e = (Ok mb, e')
      /\ dict_commitment (obj r) ∈ created_objects mb /\ n ∉ on_chain_nullifiers mb) (fun _ => same_disk w0) w.
Proof.
  intros Hw. unfold check_on_chain. apply wp_bind, wp_lift; [|done]. intros n Hn. apply wp_bind.
  unfold wp at 1, on_env. destruct (fetch_membership _ _ (env w)) as [[mb|e] e'] eqn:Hm; [|done].
  case_bool_decide; [done|]. case_bool_decide; [|done]. simpl. split; [done|]. by exists n, (env w), mb, e'.
Qed.

Lemma complete_record_spec w0 r w :
  same_disk w0 w ->
  wp (complete_record r) (fun r' w' => same_disk w0 w' /\ obj r' = obj r /\ class (metadata r') = class (metadata r)
    /\ content_hash (metadata r') = content_hash (metadata r) /\ status (metadata r') = Live
    /\ forall p, creation_proof (metadata r) = Some p -> creation_proof (metadata r') = Some p) (fun _ => same_disk w0) w.
Proof.
  intros Hw. unfold complete_record.
  destruct (creation_proof _) as [p|] eqn:Hcp; simpl in Hcp; [apply wp_ret; split_and!; try done; intros p0 [= <-]; exact Hcp|].
  apply wp_bind, wp_try. unfold fetch_creation_proofs.
  eapply wp_mono; [apply (preserves_fold (same_disk w0)); [|exact Hw]| |].
  - intros acc batch. apply preserves_bind; [apply same_disk_on_env|]. auto with don.
  - intros m w1 Hw1. by apply wp_ret.
  - intros [m|m] w1 Hw1; [|done]. by apply wp_ret.
Qed.

Lemma check_creation_proof_spec w0 p commitment w :
  same_disk w0 w ->
  wp (check_creation_proof p commitment) (fun _ w' => same_disk w0 w' /\ places p commitment) (fun _ => same_disk w0) w.
Proof.
  intros Hw. unfold check_creation_proof. apply wp_bind, wp_lift; [|done]. intros root Hv. apply wp_bind.
  unfold wp at 1, on_env. destruct (fetch_state_at _ (env w)) as [[d|e] e'] eqn:Hd; [|done].
  case_bool_decide as Heq; [|done]. apply wp_ret. split; [done|]. unfold creation_verify in Hv.
  destruct (Z.ltb_spec (cp_index p) 0); [done|]. destruct (array_verify _ _ _ _) as [[]|[]] eqn:Ha; [|done..].
  injection Hv as <-. split_and!; [done..|]. exists (env w), e'. by rewrite Hd, Heq.
Qed.

Lemma prepare_import_spec dobj requested h :
  wp (prepare_import catalog dobj requested)
    (fun res h' => importable dobj (fst res) /\ same_disk (world h) (world h') /\ imported_keys h' = imported_keys h)
    (fun _ h' => same_disk (world h) (world h') /\ imported_keys h' = imported_keys h) h.
Proof.
  unfold prepare_import. apply wp_bind, wp_lift; [|by split]. intros r Hr.
  apply wp_bind, wp_lift; [|by split]. intros generated [Hc Hh]%check_identity_Ok.
  apply wp_bind, wp_in_store. eapply wp_mono; [apply import_file_name_spec, same_disk_refl| |done].
  intros f w1 [Hw1 _]. apply wp_bind, wp_in_store.
  eapply wp_mono; [apply (same_disk_on_env (world h)); exact Hw1| |done]. intros [] w2 Hw2.
  apply wp_bind. eapply (wp_mono _ (fun _ h3 => (same_disk (world h) (world h3) /\ imported_keys h3 = imported_keys h)
      /\ forall p, creation_proof (metadata r) = Some p -> places p (dict_commitment (obj r)))
    _ (fun _ h3 => same_disk (world h) (world h3) /\ imported_keys h3 = imported_keys h)); [| |done].
  { destruct (creation_proof (metadata r)) as [p|]; [|by apply wp_ret]. apply wp_in_store.
    eapply wp_mono; [by apply (check_creation_proof_spec (world h))| |done].
    intros [] w3 [Hw3 Hpl]. split; [done|]. by intros p' [= <-]. }
  intros [] h3 [[Hw3 Hk3] Hproof]. apply wp_bind, wp_in_store.
  eapply wp_mono; [by apply check_on_chain_spec| |done]. intros [] w4 [Hw4 Hch]. cbn [imported_keys].
  apply wp_bind, wp_in_store. eapply wp_mono; [by apply complete_record_spec| |done].
  intros r' w5 (Hw5 & Ho & Hcl & Hch' & Hl & Hcp). apply wp_ret. split; [|done].
  destruct dobj as [r0|]; [|done]. injection Hr as ->.
  split; simpl; rewrite ?Ho, ?Hcl, ?Hch'; [exists r|done..].
  split_and!; [done..|]. intros p Hpr. split; [by apply Hproof|by apply Hcp].
Qed.

Lemma same_disk_trans w1 w2 w3 : same_disk w1 w2 -> same_disk w2 w3 -> same_disk w1 w3.
Proof. unfold same_disk. naive_solver congruence. Qed.

Lemma moved_same w0 f f' r w1 w2 : moved w0 f f' r w1 -> same_disk w1 w2 -> moved w0 f f' r w2.
Proof. unfold moved, same_elsewhere, same_disk. intros (? & ? & ? & ? & ? & ? & ?) (? & ? & ? & ? & ?). split_and!; congruence. Qed.

Lemma in_store_same {A} w0 (c : eff World A) :
  preserves (same_disk w0) c -> preserves (fun h => same_disk w0 (world h)) (in_store c).
Proof. intros Hc h Hh. apply wp_in_store. by apply Hc. Qed.

Lemma summary_of_same w0 e : preserves (fun h => same_disk w0 (world h)) (summary_of catalog e).
Proof.
  unfold summary_of, summaries, load_imported_keys. keeps;
    auto using in_store_same, same_disk_load_records, same_disk_fs_read with don.
Qed.

(** C33: importing an object. Let no read of the disk fail. Whatever happened to
    the store between the checks and the filing, what is filed is an object of
    the class it commits to, created on chain and unspent when the synchronizer
    was asked, with the creation proof it brought checked against the created
    array of a state the synchronizer derived. It is filed live under a name no
    listed file has, and no listed object has its content. In every outcome, a
    torn write of the file included, the object files are unchanged unless the
    fingerprint of its key was appended to the imported keys before, and no
    listed file, record or hold is changed. *)
Theorem import_object_safe dobj requested h0 h0' r generated h res h' :
  reads_ok ->
  prepare_import catalog dobj requested h0 = (Ok (r, generated), h0') ->
  file_import r generated requested h = (res, h') ->
  importable dobj r
  /\ kept (world h) (world h') /\ transactions (world h') = transactions (world h) /\ owners (world h') = owners (world h)
  /\ (objects (world h') = objects (world h)
      \/ forall fp, key_fingerprint (obj r) = Some fp ->
           imported_keys h' = imported_keys h ++ los (encode_hash_hex fp) ++ [newline])
  /\ forall f, res = Ok f -> fresh (world h) f r /\ objects (world h') !! f = Some (Some r).
Proof.
  intros Hr Hp Hf. pose proof (prepare_import_spec dobj requested h0) as Hps. unfold wp in Hps. rewrite Hp in Hps.
  destruct Hps as (Him & _). simpl in Him. split; [done|].
  assert (is_nullified r = false) as Hs
    by (unfold is_nullified; rewrite (im_live _ _ Him); by apply bool_decide_false).
  pose proof (file_import_spec r generated requested h Hr Hs) as Hfs. unfold wp in Hfs. rewrite Hf in Hfs.
  destruct res as [f|e].
  - destruct Hfs as (Hfr & Hfd & Hk). split_and!; [by eapply filed_kept|by apply Hfd|by apply Hfd| |].
    + right. intros fp Hfp. by rewrite Hk, Hfp.
    + intros f' [= <-]. split; [done|]. destruct Hfd as [-> _]. by rewrite lookup_insert_eq.
  - destruct Hfs as ((? & _ & ? & ?) & ?). by split_and!.
Qed.

(** Renaming an object. A renamed file moves, with its content, to a name
    that no live, spent or discarded file has; it was live, held by no proof,
    and neither spent nor created by an open transaction. A refused renaming
    changes nothing. *)
Theorem rename_object_safe path new_name h res h' :
  rename_object catalog path new_name h = (res, h') ->
  same_disk (world h) (world h')
  \/ exists f f' r, extract_basename path = Ok f /\ objects (world h) !! f = Some (Some r)
       /\ moved (world h) f f' r (world h') /\ status (metadata r) = Live /\ owners (world h) !! f = None
       /\ (reads_ok -> unclaimed (world h) f).
Proof.
  intros Hrun. pattern h'. eapply wp_always; [|exact Hrun]. cbn beta. unfold rename_object. apply wp_bind, wp_lift; [|by left].
  intros f Hf. apply wp_bind, wp_in_store. eapply wp_mono; [apply rename_body_spec| |by left].
  intros [f' r] w1 [Ho Hcase]. simpl in *.
  assert (forall h', same_disk w1 (world h') -> same_disk (world h) (world h')
    \/ exists f f' r, extract_basename path = Ok f /\ objects (world h) !! f = Some (Some r)
       /\ moved (world h) f f' r (world h') /\ status (metadata r) = Live /\ owners (world h) !! f = None
       /\ (reads_ok -> unclaimed (world h) f)) as HP.
  { intros h1 Hs1. destruct Hcase as [[_ Hs]|(Hm & Hl & Hh & Hu)]; [left; by eapply same_disk_trans|].
    right. exists f, f', r. split_and!; try done. by eapply moved_same. }
  eapply wp_mono; [apply (summary_of_same w1 (f', r) (MkHome _ w1 (imported_keys h))); apply same_disk_refl|auto..].
Qed.
End Importing.

(** A shield from a friend, imported into an empty store and then renamed. *)
Module Sample.
Import ToyDriver Toy.
#[local] Existing Instances toy_machine toy_pod2.
#[local] Instance trusting_clients : @Clients toy_machine := {|
  load_settings e := (Ok tt, e); fetch_head e := (Ok 10, e); fetch_tx_status _ e := (Ok None, e);
  fetch_membership created _ e :=
    (Ok {| created_objects := list_to_set created; on_chain_nullifiers := ∅; mb_block_number := 10 |}, e);
  fetch_grounding_witness _ e := (Ok [], e);
  submit_proof _ _ e := (Err (Fail "down"), e); fetch_job_status _ e := (Err (Fail "down"), e);
  is_unreachable _ := true |}.
#[local] Instance toy_proofs : @CreationProofs toy_machine toy_pod2 := {|
  ArrayProof := unit; cp_state_header _ := StateHeader_new 0 0 EMPTY_HASH EMPTY_HASH EMPTY_HASH EMPTY_HASH;
  cp_index _ := 0; cp_proof _ := tt; array_verify _ _ _ _ := Ok tt;
  fetch_state_at _ e := (Ok (Some (StateHeader_hash (StateHeader_new 0 0 EMPTY_HASH EMPTY_HASH EMPTY_HASH EMPTY_HASH))), e) |}.

Definition shield_obj : Dictionary :=
  <["type" := EMPTY_HASH]> (<["key" := EMPTY_HASH]> {["stable_identifier" := MkHash 99 99 99 99]}).
Definition shield : ObjectRecord := {|
  metadata := {| class := q; content_hash := dict_commitment shield_obj; status := Unknown; producer := EMPTY_HASH;
                 ob_tx_hash := None; creation_proof := Some tt |};
  obj := shield_obj |}.
Definition shop : ActionCatalog :=
  let c := {| cc_class := q; cc_emoji := "s"; cc_hash := encode_hash_hex EMPTY_HASH; cc_description := "a shield";
              cc_produced_by := []; cc_consumed_by := []; cc_predicate_source := "none" |} in
  {| list_actions := []; get_action _ := None; list_classes := [c]; get_class _ := Some c |}.
Definition home : Home := MkHome _ w_empty [].
Definition prepared : Result (ObjectRecord * string) := fst (prepare_import shop (Some shield) (Some "my shield") home).
Definition imported : Result string :=
  let? (r, generated) := prepared in fst (file_import r generated (Some "my shield") home).

Lemma import_witness :
  exists r f, rmap fst prepared = Ok r /\ imported = Ok f /\ importable shop (Some shield) r /\ fresh w_empty f r.
Proof.
  assert (is_ok imported = true) as Hi by by vm_compute. unfold imported, prepared in *.
  assert (@reads_ok toy_machine) as Hreads by (intros e; reflexivity).
  destruct (prepare_import shop (Some shield) (Some "my shield") home) as [[[r generated]|e] h0'] eqn:Hp;
    [|discriminate Hi].
  cbn [fst rbind] in Hi. destruct (file_import r generated (Some "my shield") home) as [[f|e] h'] eqn:Hf;
    [|discriminate Hi].
  destruct (import_object_safe shop (Some shield) (Some "my shield") home h0' r generated home (Ok f) h'
    Hreads Hp Hf) as (Him & _ & _ & _ & _ & Hok).
  exists r, f. cbn [fst rbind rmap]. rewrite Hf. split_and!; [reflexivity|reflexivity|exact Him|apply (Hok f eq_refl)].
Defined.

Definition stocked : Home := MkHome _ (set_objects {["a.dobj" := Some (set_status Live shield)]} w_empty) [].
Definition renaming : Result ObjectSummary * Home := rename_object shop "a.dobj" "b" stocked.
Lemma rename_witness :
  is_ok (fst renaming) = true
  /\ exists f f' r, extract_basename "a.dobj" = Ok f /\ moved (world stocked) f f' r (world (snd renaming)).
Proof.
  assert (is_ok (fst renaming) = true) as Hok by (vm_compute; reflexivity).
  assert (objects (world (snd renaming)) !! "a.dobj" = None) as Hgone by (vm_compute; reflexivity).
  split; [exact Hok|].
  destruct (rename_object_safe shop "a.dobj" "b" stocked (fst renaming) (snd renaming) (surjective_pairing renaming))
    as [Hs|(f & f' & r & Hf & Ho & Hm & _)]; [|exists f, f', r; split; [exact Hf|exact Hm]].
  destruct Hs as (Hobj & _). rewrite Hobj in Hgone. discriminate Hgone.
Defined.
End Sample.
End DriverObjects.
