(* ===== verification/Registry.v ===== *)
(** * The registry of runs and proof jobs (services/dobjd/src/registry.rs)

    Entries are shared: a worker keeps a reference to its entry and changes it
    while clients read it through the registry. [heap] holds the entries by id
    and [retained] the ids the registry still maps. *)

From stdpp Require Import sorting.
From S2P Require Import Prelude.

Module Registry.
Local Open Scope Z_scope.

(** ** Definitions *)

(** An [Instant] is a number of nanoseconds; [duration_since] saturates. *)
Definition duration_since (now earlier : Z) : Z := Z.max 0 (now - earlier).
(** [Duration::as_millis() as u64] *)
Definition as_millis (d : Z) : Z := as_u64 (d / 1000000).
Definition from_millis (ms : Z) : Z := ms * 1000000.
Definition from_secs (s : Z) : Z := s * 1000000000.

Definition RETENTION : Z := from_secs 600.

Class Retained (E : Type) : Type := {
  sequence : E -> Z;
  finished_at : E -> option Z;
}.

Record Registry (E : Type) : Type := MkRegistry {
  heap : gmap string E;
  retained : gset string;
  next_sequence : Z;
}.
Arguments MkRegistry {E}.
Arguments heap {E}.
Arguments retained {E}.
Arguments next_sequence {E}.

Section Operations.
Context `{Retained E}.

Definition is_finished (e : E) : bool := bool_decide (is_Some (finished_at e)).

Definition Registry_default : Registry E := MkRegistry ∅ ∅ 0.

Definition start (id : string) (make : Z -> E) (r : Registry E) : Registry E :=
  MkRegistry (<[id := make (next_sequence r)]> (heap r)) ({[id]} ∪ retained r) (as_u64 (next_sequence r + 1)).

Definition get (id : string) (r : Registry E) : option E :=
  if decide (id ∈ retained r) then heap r !! id else None.

Definition sequence_le (a b : E) : Prop := sequence a <= sequence b.
#[global] Instance sequence_le_dec (a b : E) : Decision (sequence_le a b).
Proof. unfold sequence_le. apply _. Defined.

Definition retained_entries (r : Registry E) : list E :=
  snd <$> map_to_list (filter (fun ie : string * E => fst ie ∈ retained r) (heap r)).

Definition entries (active_only : bool) (r : Registry E) : list E :=
  merge_sort sequence_le (filter (fun e => negb (active_only && is_finished e) = true) (retained_entries r)).

(** Remove entries finished at least [ttl] ago. *)
Definition expired (now ttl : Z) (e : E) : bool :=
  match finished_at e with
  | Some finished => ttl <=? duration_since now finished
  | None => false
  end.
Definition reap (now ttl : Z) (r : Registry E) : Registry E :=
  MkRegistry (heap r)
    (filter (fun id => (match heap r !! id with Some e => negb (expired now ttl e) | None => true end) = true) (retained r))
    (next_sequence r).

(** A worker changes the entry it holds. *)
Definition write (id : string) (e : E) (r : Registry E) : Registry E :=
  MkRegistry (<[id := e]> (heap r)) (retained r) (next_sequence r).
End Operations.

(** ** Specification

    The registry after any calls, together with the ids registered, in order. *)
Section Spec.
Context `{Retained E}.

Inductive registered : list string -> Registry E -> Prop :=
| registered_none : registered [] Registry_default
| registered_start ids id make r :
    registered ids r -> id ∉ ids -> sequence (make (next_sequence r)) = next_sequence r ->
    next_sequence r < u64_max -> registered (ids ++ [id]) (start id make r)
| registered_write ids id e e' r :
    registered ids r -> heap r !! id = Some e -> sequence e' = sequence e -> registered ids (write id e' r)
| registered_reap ids now ttl r : registered ids r -> registered ids (reap now ttl r).

Definition listed (active_only : bool) (r : Registry E) (id : string) : option E :=
  match get id r with
  | Some e => if active_only && is_finished e then None else Some e
  | None => None
  end.

Lemma registered_heap ids r :
  registered ids r ->
  NoDup ids /\ dom (heap r) = list_to_set ids /\ retained r ⊆ dom (heap r)
  /\ next_sequence r = Z.of_nat (length ids)
  /\ forall i id, ids !! i = Some id -> sequence <$> heap r !! id = Some (Z.of_nat i).
Proof.
  induction 1 as [|ids id make r Hr (Hnd & Hdom & Hret & Hnext & Hseq) Hid Hmake Hmax
                 |ids id e e' r Hr (Hnd & Hdom & Hret & Hnext & Hseq) He Hs
                 |ids now ttl r Hr (Hnd & Hdom & Hret & Hnext & Hseq)]; simpl.
  - split_and!; [constructor|by rewrite dom_empty_L|set_solver|done|done].
  - split_and!.
    + apply NoDup_app. split_and!; [done|set_solver|apply NoDup_singleton].
    + rewrite dom_insert_L, list_to_set_app_L, Hdom. set_solver.
    + rewrite dom_insert_L. set_solver.
    + rewrite length_app. simpl. rewrite as_u64_id; [lia|]. unfold u64_max in Hmax. lia.
    + intros i x [Hi|[Hi Hx]]%lookup_app_Some.
      * rewrite lookup_insert_ne by (intros ->; apply Hid; by eapply list_elem_of_lookup_2). auto.
      * apply list_lookup_singleton_Some in Hx as [? <-]. rewrite lookup_insert_eq. simpl.
        rewrite Hmake, Hnext. f_equal. lia.
  - split_and!; [done| | |done|].
    + rewrite dom_insert_L, Hdom. assert (id ∈ dom (heap r)) by (apply elem_of_dom; eauto). set_solver.
    + rewrite dom_insert_L. set_solver.
    + intros i x Hx. destruct (decide (x = id)) as [->|]; [|rewrite lookup_insert_ne by done; auto].
      rewrite lookup_insert_eq. simpl. rewrite Hs. specialize (Hseq _ _ Hx). by rewrite He in Hseq.
  - split_and!; [done|done|set_solver|done|done].
Qed.

Lemma retained_pairs ids r :
  registered ids r ->
  map_to_list (filter (fun ie : string * E => fst ie ∈ retained r) (heap r))
  ≡ₚ omap (fun id => pair id <$> get id r) ids.
Proof.
  intros (Hnd & Hdom & Hret & _ & _)%registered_heap. apply NoDup_Permutation.
  - apply NoDup_map_to_list.
  - clear -Hnd. induction Hnd as [|id ids Hid _ IH]; simpl; [constructor|].
    destruct (get id r); simpl; [|done]. constructor; [|done].
    intros (id' & Hin & Hg)%list_elem_of_omap. by destruct (get id' r); simplify_eq/=.
  - intros [id e]. rewrite elem_of_map_to_list, map_lookup_filter_Some, list_elem_of_omap. unfold get. simpl. split.
    + intros [He Hin]. exists id. split.
      * assert (id ∈ dom (heap r)) as Hd by (apply elem_of_dom; eauto). rewrite Hdom in Hd. set_solver.
      * by rewrite decide_True, He by done.
    + intros (id' & _ & Hg). case_decide; [|done]. destruct (heap r !! id') eqn:?; simpl in *; by simplify_eq.
Qed.

Lemma listed_retained active_only ids r :
  registered ids r ->
  filter (fun e => negb (active_only && is_finished e) = true) (retained_entries r)
  ≡ₚ omap (listed active_only r) ids.
Proof.
  intros Hr. unfold retained_entries. rewrite (retained_pairs ids r Hr). clear Hr.
  induction ids as [|id ids IH]; csimpl; [done|].
  destruct (get id r) as [e|] eqn:Hg; csimpl; unfold listed at 1; rewrite Hg; [|exact IH].
  rewrite filter_cons. destruct (active_only && is_finished e); simpl; [exact IH|by rewrite IH].
Qed.

Lemma listed_sequence active_only ids r id e :
  registered ids r -> listed active_only r id = Some e ->
  exists i, ids !! i = Some id /\ sequence e = Z.of_nat i.
Proof.
  intros Hr Hl. assert (heap r !! id = Some e) as He.
  { unfold listed, get in Hl. case_decide; [|done]. destruct (heap r !! id); [|done].
    destruct (active_only && _); congruence. }
  apply registered_heap in Hr as (_ & Hdom & _ & _ & Hseq).
  assert (id ∈ dom (heap r)) as Hin by (apply elem_of_dom; eauto).
  rewrite Hdom, elem_of_list_to_set in Hin. apply list_elem_of_lookup in Hin as [i Hi].
  exists i. split; [done|]. specialize (Hseq _ _ Hi). rewrite He in Hseq. by injection Hseq.
Qed.

Lemma listed_sorted active_only ids r :
  registered ids r -> StronglySorted (fun a b => sequence a < sequence b) (omap (listed active_only r) ids).
Proof.
  intros Hr.
  assert (Hgen : forall l k, (forall i id, l !! i = Some id -> ids !! (k + i)%nat = Some id) ->
    StronglySorted (fun a b => sequence a < sequence b) (omap (listed active_only r) l)
    /\ Forall (fun e => Z.of_nat k <= sequence e) (omap (listed active_only r) l)).
  { induction l as [|id l IH]; intros k Hk; simpl; [split; constructor|].
    destruct (IH (S k)) as [Hs Hf].
    { intros i x Hx. specialize (Hk (S i) x Hx). by rewrite Nat.add_succ_r in Hk. }
    destruct (listed active_only r id) as [e|] eqn:Hl.
    - destruct (listed_sequence _ _ _ _ _ Hr Hl) as (i & Hi & Hse).
      assert (i = k) as ->.
      { apply registered_heap in Hr as (Hnd & _). eapply (NoDup_lookup ids); [done..|].
        specialize (Hk 0%nat id eq_refl). by rewrite Nat.add_0_r in Hk. }
      split; constructor; [done| |lia|]; eapply Forall_impl; [exact Hf| |exact Hf|]; simpl; lia.
    - split; [done|]. eapply Forall_impl; [exact Hf|]. simpl; lia. }
  apply (Hgen ids 0%nat). done.
Qed.

#[local] Instance sequence_le_trans : Transitive sequence_le.
Proof. intros a b c. unfold sequence_le. lia. Qed.
#[local] Instance sequence_le_total : Total sequence_le.
Proof. intros a b. unfold sequence_le. lia. Qed.

(** Two lists of the same entries, one sorted strictly by sequence and one
    weakly, are equal. *)
Lemma sorted_by_sequence (l l' : list E) :
  StronglySorted (fun a b => sequence a < sequence b) l -> StronglySorted sequence_le l' -> l' ≡ₚ l -> l' = l.
Proof.
  intros Hl. revert l'. induction Hl as [|e l Hl IH Hf]; intros l' Hl' Hp; [by apply Permutation_nil_r in Hp|].
  destruct l' as [|e' l']; [by apply Permutation_nil_l in Hp|].
  apply StronglySorted_inv in Hl' as [Hl' Hf'].
  assert (e' = e) as ->.
  { assert (e' ∈ e :: l) as [->|Hin]%elem_of_cons by (rewrite <-Hp; left); [done|].
    assert (e ∈ e' :: l') as [->|Hin']%elem_of_cons by (rewrite Hp; left); [done|].
    rewrite Forall_forall in Hf, Hf'. specialize (Hf _ Hin). specialize (Hf' _ Hin').
    unfold sequence_le in Hf'. lia. }
  f_equal. apply IH; [done|]. by eapply Permutation_cons_inv.
Qed.

(** After any calls, a listing holds exactly the retained entries (with
    [active_only], the unfinished ones), in the order they were registered. *)
Theorem listing_in_registration_order active_only ids r :
  registered ids r -> entries active_only r = omap (listed active_only r) ids.
Proof.
  intros Hr. apply sorted_by_sequence; [by apply listed_sorted| |].
  - apply StronglySorted_merge_sort; apply _.
  - unfold entries. by rewrite merge_sort_Permutation, (listed_retained active_only ids r Hr).
Qed.

(** Reaping takes exactly the entries that finished [ttl] ago: one that is
    still running is never lost, and a result can be polled until then. *)
Lemma reap_keeps now ttl id r :
  get id (reap now ttl r) =
  match get id r with
  | Some e => if expired now ttl e then None else Some e
  | None => None
  end.
Proof.
  unfold get, reap. simpl. case_decide as Hin.
  - apply elem_of_filter in Hin as [Hk Hin]. rewrite decide_True by done.
    destruct (heap r !! id); [|done]. by destruct (expired now ttl e).
  - case_decide as Hin'; [|done]. destruct (heap r !! id) as [e|] eqn:Hl; [|done].
    destruct (expired now ttl e) eqn:X; [done|]. exfalso. apply Hin, elem_of_filter. by rewrite Hl, X.
Qed.
End Spec.

(** Three entries: the first has finished and is reaped, the last one finished
    later. *)
Module Sample.
#[local] Instance job_retained : Retained (Z * option Z) := {| sequence := fst; finished_at := snd |}.

Definition r0 : Registry (Z * option Z) :=
  start "c" (fun n => (n, None)) (start "b" (fun n => (n, None)) (start "a" (fun n => (n, None)) Registry_default)).
Definition r1 : Registry (Z * option Z) := reap (from_secs 700) RETENTION (write "c" (2, Some (from_secs 500)) (write "a" (0, Some 5) r0)).

Lemma listing_witness :
  registered ["a"; "b"; "c"] r1 /\ entries true r1 = [(1, None)] /\ entries false r1 = [(1, None); (2, Some (from_secs 500))].
Proof.
  assert (Hr : registered ["a"; "b"; "c"] r1).
  { apply registered_reap. apply (registered_write _ "c" (2, None)); [|done..].
    apply (registered_write _ "a" (0, None)); [|done..].
    apply (registered_start ["a"; "b"]); [|set_solver|done..].
    apply (registered_start ["a"]); [|set_solver|done..].
    apply (registered_start []); [apply registered_none|set_solver|done..]. }
  split; [exact Hr|]. split; rewrite (listing_in_registration_order _ _ _ Hr); by vm_compute.
Defined.
End Sample.
End Registry.
