(* ===== verification/Runs.v ===== *)
(** * Runs and proof jobs (services/dobjd: runs.rs, proof_jobs.rs,
    routes/actions.rs; the progress types of libs/wire-types)

    The in-memory state of a run, the calls that change it, and what clients
    read of it: snapshots, and the event stream, which resumes after the last
    event a client has seen. A run is one value here; the workers' lock makes
    every call atomic. *)

From stdpp Require Import sorting.
From S2P Require Import Prelude ObjectNames DriverStore DriverObjects Registry.

Module Runs.
Import ObjectNames Registry.
Import DriverStore(TransactionRecord, TransactionState).
Import DriverObjects(ObjectStatus(..)).
Local Open Scope Z_scope.

(** ** Definitions *)

(** *** Wire types *)

Inductive RunStatus : Type := RQueued | RGenerateProof | RCommitting | RSucceeded | RFailed.
Inductive ExecutionPhase : Type := GenerateProof | Commit.
Inductive ProofProgressStatus : Type := PRunning | PDone | PFailed.
Inductive ExecutionStage : Type :=
| VerifyingInputs | LoadingModule | Building | Mining | Solving | Proving | Shrinking
| WritingFiles | Submitting | AwaitingSynchronization.
Inductive ProofJobStatus : Type := JQueued | JProving | JRecording | JDone | JFailed.

#[global] Instance RunStatus_eq_dec : EqDecision RunStatus.
Proof. solve_decision. Defined.
#[global] Instance ExecutionPhase_eq_dec : EqDecision ExecutionPhase.
Proof. solve_decision. Defined.
#[global] Instance ProofProgressStatus_eq_dec : EqDecision ProofProgressStatus.
Proof. solve_decision. Defined.
#[global] Instance ExecutionStage_eq_dec : EqDecision ExecutionStage.
Proof. solve_decision. Defined.
#[global] Instance ProofJobStatus_eq_dec : EqDecision ProofJobStatus.
Proof. solve_decision. Defined.

Definition stage_message (s : ExecutionStage) : string :=
  match s with
  | VerifyingInputs => "Verifying inputs and fetching grounding witness"
  | LoadingModule => "Loading action module"
  | Building => "Building action and proof statements"
  | Mining => "Searching for a proof-of-work key"
  | Solving => "Solving proof layout"
  | Proving => "Generating ZK proof"
  | Shrinking => "Shrinking proof"
  | WritingFiles => "Writing output files"
  | Submitting => "Submitting proof to relayer"
  | AwaitingSynchronization => "Waiting for synchronizer"
  end.

Record RunActionResult : Type := {
  rr_run_id : string;
  rr_old_root : string;
  rr_output_files : list string;
  rr_input_files : list string;
}.

Record RunStageTiming : Type := {
  tm_stage : ExecutionStage;
  tm_status : ProofProgressStatus;
  tm_started_at_ms : Z;
  tm_elapsed_ms : Z;
}.

Record RunActionProgress : Type := {
  pg_run_id : string;
  pg_phase : ExecutionPhase;
  pg_status : ProofProgressStatus;
  pg_message : string;
  pg_old_root : option string;
  pg_output_files : option (list string);
  pg_output_status : option ObjectStatus;
  pg_input_files : option (list string);
  pg_at_ms : Z;
  pg_stage : option ExecutionStage;
  pg_elapsed_ms : Z;
}.

Record RunState : Type := {
  rs_run_id : string;
  rs_action : QualifiedName;
  rs_status : RunStatus;
  rs_input_object_paths : list string;
  rs_created_at_ms : Z;
  rs_started_at_ms : option Z;
  rs_finished_at_ms : option Z;
  rs_elapsed_ms : Z;
  rs_stage_timings : list RunStageTiming;
  rs_result : option RunActionResult;
  rs_error : option string;
  rs_progress : list RunActionProgress;
}.

(** *** Stages ([RunInner]) *)

Record RunInner : Type := MkInner {
  status : RunStatus;
  progress : list RunActionProgress;
  result_ : option RunActionResult;
  error : option string;
  inner_finished_at : option Z;
  started_at_ms : option Z;
  finished_at_ms : option Z;
  stage_timings : list RunStageTiming;
  stage_started : option Z;
}.

Definition set_timing (elapsed : Z) (st : ProofProgressStatus) (t : RunStageTiming) : RunStageTiming :=
  {| tm_stage := tm_stage t; tm_status := st; tm_started_at_ms := tm_started_at_ms t; tm_elapsed_ms := elapsed |}.

(** [last_mut().unwrap()] *)
Definition map_last {A} (f : A -> A) (l : list A) : Result (list A) :=
  match last l with
  | Some a => Ok (take (length l - 1) l ++ [f a])
  | None => Err (Panic "called `Option::unwrap()` on a `None` value")
  end.

Definition set_stages (timings : list RunStageTiming) (started : option Z) (r : RunInner) : RunInner :=
  MkInner (status r) (progress r) (result_ r) (error r) (inner_finished_at r) (started_at_ms r)
    (finished_at_ms r) timings started.

Definition finish_stage (st : ProofProgressStatus) (now : Z) (r : RunInner) : Result RunInner :=
  match stage_started r with
  | None => Ok r
  | Some started =>
      let? timings := map_last (set_timing (as_millis (duration_since now started)) st) (stage_timings r) in
      Ok (set_stages timings None r)
  end.

Definition begin_stage (stage : ExecutionStage) (now at_ms : Z) (r : RunInner) : Result RunInner :=
  if bool_decide (is_Some (stage_started r)) && bool_decide (tm_stage <$> last (stage_timings r) = Some stage)
  then Ok r
  else
    let? r := finish_stage PDone now r in
    let timing := {| tm_stage := stage; tm_status := PRunning; tm_started_at_ms := at_ms; tm_elapsed_ms := 0 |} in
    Ok (set_stages (stage_timings r ++ [timing]) (Some now) r).

Definition timings_at (now : Z) (r : RunInner) : Result (list RunStageTiming) :=
  match stage_started r with
  | None => Ok (stage_timings r)
  | Some started =>
      map_last (fun t => set_timing (as_millis (duration_since now started)) (tm_status t) t) (stage_timings r)
  end.

(** *** Entries ([RunEntry]) *)

Record RunEntry : Type := MkRun {
  run_id : string;
  run_action : QualifiedName;
  input_object_paths : list string;
  created_at_ms : Z;
  created_at : Z;
  run_sequence : Z;
  inner : RunInner;
}.

#[global] Instance RunEntry_retained : Retained RunEntry :=
  {| sequence := run_sequence; finished_at := fun e => inner_finished_at (inner e) |}.

(** [now_ms()] and [Instant::now()] are arguments of the calls that read them. *)
Definition RunEntry_new (id : string) (action : QualifiedName) (paths : list string) (seq now_ms now : Z) : RunEntry :=
  MkRun id action paths now_ms now seq (MkInner RQueued [] None None None None None [] None).

Definition set_inner (r : RunInner) (e : RunEntry) : RunEntry :=
  MkRun (run_id e) (run_action e) (input_object_paths e) (created_at_ms e) (created_at e) (run_sequence e) r.

Definition set_elapsed (z : Z) (p : RunActionProgress) : RunActionProgress :=
  {| pg_run_id := pg_run_id p; pg_phase := pg_phase p; pg_status := pg_status p; pg_message := pg_message p;
     pg_old_root := pg_old_root p; pg_output_files := pg_output_files p; pg_output_status := pg_output_status p;
     pg_input_files := pg_input_files p; pg_at_ms := pg_at_ms p; pg_stage := pg_stage p; pg_elapsed_ms := z |}.

Definition get_or_insert (o : option Z) (z : Z) : option Z := Some (default z o).

Definition MUTATED_AFTER_FINISH : string := "run state mutated after it finished".
Definition in_flight (e : RunEntry) : Result unit :=
  rassert (bool_decide (inner_finished_at (inner e) = None)) MUTATED_AFTER_FINISH.

Definition phase_status (p : ExecutionPhase) : RunStatus :=
  match p with GenerateProof => RGenerateProof | Commit => RCommitting end.

Definition push_progress (p : RunActionProgress) (now : Z) (e : RunEntry) : Result (RunActionProgress * RunEntry) :=
  let r := inner e in
  in_flight e ;?
  let r := MkInner (phase_status (pg_phase p)) (progress r) (result_ r) (error r) (inner_finished_at r)
             (get_or_insert (started_at_ms r) (pg_at_ms p)) (finished_at_ms r) (stage_timings r) (stage_started r) in
  let p := set_elapsed (as_millis (duration_since now (created_at e))) p in
  let? r := match pg_stage p with Some stage => begin_stage stage now (pg_at_ms p) r | None => Ok r end in
  let? r := if bool_decide (pg_status p = PRunning) then Ok r else finish_stage (pg_status p) now r in
  Ok (p, set_inner (MkInner (status r) (progress r ++ [p]) (result_ r) (error r) (inner_finished_at r)
                      (started_at_ms r) (finished_at_ms r) (stage_timings r) (stage_started r)) e).

Definition succeed (res : RunActionResult) (now now_ms : Z) (e : RunEntry) : Result RunEntry :=
  let r := inner e in
  in_flight e ;?
  let? r := finish_stage PDone now r in
  Ok (set_inner (MkInner RSucceeded (progress r) (Some res) (error r) (Some now) (started_at_ms r) (Some now_ms)
                   (stage_timings r) (stage_started r)) e).

Definition fail (message : string) (now now_ms : Z) (e : RunEntry) : Result (RunActionProgress * RunEntry) :=
  let r := inner e in
  in_flight e ;?
  let phase := match status r with RCommitting => Commit | _ => GenerateProof end in
  let stage := match stage_started r with Some _ => tm_stage <$> last (stage_timings r) | None => None end in
  let? r := finish_stage PFailed now r in
  let event := {| pg_run_id := run_id e; pg_phase := phase; pg_status := PFailed; pg_message := message;
                  pg_old_root := None; pg_output_files := None; pg_output_status := None; pg_input_files := None;
                  pg_at_ms := now_ms; pg_stage := stage;
                  pg_elapsed_ms := as_millis (duration_since now (created_at e)) |} in
  Ok (event, set_inner (MkInner RFailed (progress r ++ [event]) (result_ r) (Some message) (Some now)
                          (get_or_insert (started_at_ms r) now_ms) (Some now_ms)
                          (stage_timings r) (stage_started r)) e).

(** *** Reading *)

Fixpoint enumerate {A} (i : nat) (l : list A) : list (nat * A) :=
  match l with [] => [] | a :: l' => (i, a) :: enumerate (S i) l' end.

Definition events_from (from : nat) (e : RunEntry) : list (nat * RunActionProgress) * bool :=
  (drop from (enumerate 0 (progress (inner e))), is_finished e).

Definition snapshot (now : Z) (e : RunEntry) : Result RunState :=
  let r := inner e in
  let now := default now (inner_finished_at r) in
  let? timings := timings_at now r in
  Ok {| rs_run_id := run_id e; rs_action := run_action e; rs_status := status r;
        rs_input_object_paths := input_object_paths e; rs_created_at_ms := created_at_ms e;
        rs_started_at_ms := started_at_ms r; rs_finished_at_ms := finished_at_ms r;
        rs_elapsed_ms := as_millis (duration_since now (created_at e)); rs_stage_timings := timings;
        rs_result := result_ r; rs_error := error r; rs_progress := progress r |}.

(** [RunRegistry::list] *)
Definition list_runs (active_only : bool) (now : Z) (r : Registry RunEntry) : Result (list RunState) :=
  try_map (snapshot now) (entries active_only r).

(** [resume_start_index]: the parsed [Last-Event-ID], if there is one. *)
Definition resume_start_index (last_event_id : option Z) : Z :=
  match last_event_id with Some l => saturating_add_u64 l 1 | None => 0 end.

(** The loop of [run_events] for a client that stays connected, over the states
    of the entry its polls see; the events sent. *)
Fixpoint run_events (next : nat) (polls : list RunEntry) : list (nat * RunActionProgress) :=
  match polls with
  | [] => []
  | e :: polls' =>
      let '(events, terminal) := events_from next e in
      let next := match last events with Some (index, _) => S index | None => next end in
      events ++ (if terminal : bool then [] else run_events next polls')
  end.

(** *** Proof jobs ([ProofJobEntry]) *)

(** [ActionInput]; the argument values are opaque to the daemon. *)
Record ActionInput : Type := {
  ai_action : QualifiedName;
  ai_input_object_paths : list string;
  ai_args : list (string * string);
}.

Record ProofJobEntry : Type := MkJob {
  job_id : string;
  job_input : ActionInput;
  job_created_at_ms : Z;
  job_sequence : Z;
  job_status : ProofJobStatus;
  job_message : option string;
  job_tx_final : option string;
  job_error : option string;
  job_started_at_ms : option Z;
  job_finished_at_ms : option Z;
  job_finished_at : option Z;
}.

#[global] Instance ProofJobEntry_retained : Retained ProofJobEntry :=
  {| sequence := job_sequence; finished_at := job_finished_at |}.

Record ProofJobState : Type := {
  js_job_id : string;
  js_action : QualifiedName;
  js_input_object_paths : list string;
  js_status : ProofJobStatus;
  js_message : option string;
  js_tx_final : option string;
  js_error : option string;
  js_created_at_ms : Z;
  js_started_at_ms : option Z;
  js_finished_at_ms : option Z;
}.

Definition job_is_terminal (s : ProofJobStatus) : bool :=
  match s with JDone | JFailed => true | _ => false end.

(** The entry [spawn_proof_job] registers. *)
Definition ProofJobEntry_new (id : string) (input : ActionInput) (now_ms seq : Z) : ProofJobEntry :=
  MkJob id input now_ms seq JQueued None None None None None None.

Definition job_snapshot (e : ProofJobEntry) : ProofJobState :=
  {| js_job_id := job_id e; js_action := ai_action (job_input e);
     js_input_object_paths := ai_input_object_paths (job_input e); js_status := job_status e;
     js_message := job_message e; js_tx_final := job_tx_final e; js_error := job_error e;
     js_created_at_ms := job_created_at_ms e; js_started_at_ms := job_started_at_ms e;
     js_finished_at_ms := job_finished_at_ms e |}.

Definition JOB_MUTATED_AFTER_FINISH : string := "job state mutated after it finished".

Definition job_progress (st : ProofJobStatus) (message : string) (now_ms : Z) (e : ProofJobEntry) : Result ProofJobEntry :=
  rassert (bool_decide (job_finished_at e = None)) JOB_MUTATED_AFTER_FINISH ;?
  Ok (MkJob (job_id e) (job_input e) (job_created_at_ms e) (job_sequence e) st (Some message) (job_tx_final e)
        (job_error e) (get_or_insert (job_started_at_ms e) now_ms) (job_finished_at_ms e) (job_finished_at e)).

Definition job_finish (outcome : result string TransactionRecord) (now now_ms : Z) (e : ProofJobEntry)
    : Result ProofJobEntry :=
  rassert (bool_decide (job_finished_at e = None)) JOB_MUTATED_AFTER_FINISH ;?
  let started := get_or_insert (job_started_at_ms e) now_ms in
  Ok (match outcome with
      | Ok r => MkJob (job_id e) (job_input e) (job_created_at_ms e) (job_sequence e) JDone
                  (Some "Transaction recorded") (Some (DriverStore.tx_final r)) (job_error e) started (Some now_ms) (Some now)
      | Err m => MkJob (job_id e) (job_input e) (job_created_at_ms e) (job_sequence e) JFailed
                   (job_message e) (job_tx_final e) (Some m) started (Some now_ms) (Some now)
      end).

(** The status an execution phase gives a job ([ProofJobReporter::on_step]). *)
Definition job_phase_status (p : ExecutionPhase) : ProofJobStatus :=
  match p with GenerateProof => JProving | Commit => JRecording end.

(** ** Specification *)

Inductive run_step : RunEntry -> RunEntry -> Prop :=
| step_push p now e p' e' : push_progress p now e = Ok (p', e') -> run_step e e'
| step_succeed res now ms e e' : succeed res now ms e = Ok e' -> run_step e e'
| step_fail m now ms e ev e' : fail m now ms e = Ok (ev, e') -> run_step e e'.

(** At most the last stage is running, and only while [stage_started] is set. *)
Definition idle (t : RunStageTiming) : Prop := tm_status t <> PRunning.
Definition stages_ok (r : RunInner) : Prop :=
  match stage_started r with
  | Some _ => exists ts t, stage_timings r = ts ++ [t] /\ Forall idle ts /\ tm_status t = PRunning
  | None => Forall idle (stage_timings r)
  end.

Definition open_run (r : RunInner) : Prop :=
  result_ r = None /\ error r = None /\ inner_finished_at r = None /\ finished_at_ms r = None.
Definition closed_run (r : RunInner) : Prop :=
  is_Some (inner_finished_at r) /\ is_Some (finished_at_ms r) /\ stage_started r = None.

(** What each status says of the rest. *)
Definition status_ok (r : RunInner) : Prop :=
  match status r with
  | RQueued => open_run r /\ progress r = []
  | RGenerateProof => open_run r /\ exists p, last (progress r) = Some p /\ pg_phase p = GenerateProof
  | RCommitting => open_run r /\ exists p, last (progress r) = Some p /\ pg_phase p = Commit
  | RSucceeded => closed_run r /\ is_Some (result_ r) /\ error r = None
  | RFailed => closed_run r /\ result_ r = None
      /\ exists p, last (progress r) = Some p /\ pg_status p = PFailed /\ error r = Some (pg_message p)
  end.

Record run_ok (e : RunEntry) : Prop := {
  ok_stages : stages_ok (inner e);
  ok_status : status_ok (inner e);
  ok_started : started_at_ms (inner e) = pg_at_ms <$> head (progress (inner e));
}.

Lemma map_last_snoc {A} (f : A -> A) l a : map_last f (l ++ [a]) = Ok (l ++ [f a]).
Proof.
  unfold map_last. rewrite last_snoc, length_app. simpl.
  by rewrite Nat.add_sub, take_app_length.
Qed.

Lemma finish_stage_spec st now r :
  stages_ok r -> st <> PRunning ->
  exists ts, finish_stage st now r = Ok (set_stages ts None r) /\ Forall idle ts.
Proof.
  unfold stages_ok, finish_stage. intros Hok Hst. destruct (stage_started r) eqn:Es.
  - destruct Hok as (ts & t & Ht & Hts & _). rewrite Ht, map_last_snoc. simpl. eexists. split; [done|].
    apply Forall_app. split; [done|]. by constructor.
  - exists (stage_timings r). split; [|done]. unfold set_stages. rewrite <-Es. by destruct r.
Qed.

Lemma begin_stage_spec stage now at_ms r :
  stages_ok r ->
  exists ts s, begin_stage stage now at_ms r = Ok (set_stages ts (Some s) r)
    /\ exists ts' t, ts = ts' ++ [t] /\ Forall idle ts' /\ tm_status t = PRunning.
Proof.
  intros Hok. unfold begin_stage. case_match eqn:Hc.
  - apply andb_true_iff in Hc as [[s Hs]%bool_decide_eq_true _]. exists (stage_timings r), s.
    unfold stages_ok in Hok. rewrite Hs in Hok. split; [|done]. unfold set_stages. rewrite <-Hs. by destruct r.
  - destruct (finish_stage_spec PDone now r Hok) as (ts & -> & Hts); [done|]. simpl.
    eexists _, _. split; [done|]. by eexists _, _.
Qed.

(** The stages after [push_progress] has begun and ended one. *)
Lemma push_stages p now r :
  stages_ok r ->
  exists ts s, (let? r := match pg_stage p with Some stage => begin_stage stage now (pg_at_ms p) r | None => Ok r end in
                if bool_decide (pg_status p = PRunning) then Ok r else finish_stage (pg_status p) now r)
    = Ok (set_stages ts s r) /\ stages_ok (set_stages ts s r).
Proof.
  intros Hok.
  assert (exists ts s, match pg_stage p with Some stage => begin_stage stage now (pg_at_ms p) r | None => Ok r end
    = Ok (set_stages ts s r) /\ stages_ok (set_stages ts s r)) as (ts & s & -> & Hok').
  { destruct (pg_stage p).
    - destruct (begin_stage_spec e now (pg_at_ms p) r Hok) as (ts & s & -> & Hts). by exists ts, (Some s).
    - exists (stage_timings r), (stage_started r). assert (set_stages (stage_timings r) (stage_started r) r = r) as ->
        by (by destruct r). done. }
  simpl. case_bool_decide as Hs; [by eexists _, _|].
  destruct (finish_stage_spec (pg_status p) now _ Hok' Hs) as (ts' & -> & Hts'). by exists ts', None.
Qed.

Definition live (e : RunEntry) : Prop := inner_finished_at (inner e) = None.

Lemma open_status e : run_ok e -> live e -> open_run (inner e).
Proof.
  intros [_ Hs _] Hl. unfold status_ok, live in *.
  destruct (status (inner e)); try by destruct Hs as [? _].
  all: by destruct Hs as [[[? Hf] _] _]; rewrite Hf in Hl.
Qed.

Lemma in_flight_live e : in_flight e = if bool_decide (live e) then Ok tt else Err (Panic MUTATED_AFTER_FINISH).
Proof. unfold in_flight, rassert, live. by case_bool_decide. Qed.

Lemma head_snoc {A} (l : list A) a : head (l ++ [a]) = Some (default a (head l)).
Proof. by destruct l. Qed.

Lemma closed_not_live e : run_ok e -> (status (inner e) = RSucceeded \/ status (inner e) = RFailed) -> ~ live e.
Proof.
  intros [_ Hs _] Hst Hl. unfold status_ok, live in *. destruct Hst as [Hst | Hst]; rewrite Hst in Hs;
    destruct Hs as [[[? Hf] _] _]; by rewrite Hf in Hl.
Qed.

Lemma push_progress_live p now e :
  run_ok e -> live e ->
  exists p' e', push_progress p now e = Ok (p', e') /\ run_ok e' /\ live e'
    /\ progress (inner e') = progress (inner e) ++ [p'] /\ exists r, e' = set_inner r e.
Proof.
  intros Hok Hl. unfold push_progress. rewrite in_flight_live, bool_decide_true by done. simpl.
  set (r := MkInner _ _ _ _ _ _ _ _ _).
  assert (stages_ok r) as Hs by apply Hok.
  destruct (push_stages p now r Hs) as (ts & s & Heq & Hs').
  apply rbind_Ok in Heq as (r1 & -> & Heq). simpl. rewrite Heq. simpl.
  destruct (open_status e Hok Hl) as (? & ? & ? & ?).
  eexists _, _. split; [done|]. split; [|split; [done|split; [done|by eexists]]]. split; [done| |].
  - unfold status_ok. simpl. destruct (pg_phase p) eqn:Ep; simpl; (split; [done|]);
      eexists; (split; [by rewrite last_snoc|done]).
  - simpl. rewrite (ok_started e Hok), head_snoc. simpl. unfold get_or_insert.
    by destruct (head (progress (inner e))).
Qed.

Lemma succeed_live res now ms e :
  run_ok e -> live e ->
  exists e', succeed res now ms e = Ok e' /\ run_ok e' /\ status (inner e') = RSucceeded
    /\ result_ (inner e') = Some res /\ progress (inner e') = progress (inner e) /\ exists r, e' = set_inner r e.
Proof.
  intros Hok Hl. unfold succeed. rewrite in_flight_live, bool_decide_true by done. simpl.
  destruct (finish_stage_spec PDone now (inner e)) as (ts & -> & Hts); [apply Hok|done|]. simpl.
  destruct (open_status e Hok Hl) as (? & ? & ? & ?).
  eexists. split; [done|]. split; [|split_and!; [done..|by eexists]]. split; [done| |apply Hok].
  unfold status_ok. simpl. split_and!; [split_and!; [by eexists..|done]|by eexists|done].
Qed.

Lemma fail_live m now ms e :
  run_ok e -> live e ->
  exists ev e', fail m now ms e = Ok (ev, e') /\ run_ok e' /\ status (inner e') = RFailed
    /\ error (inner e') = Some m /\ pg_message ev = m
    /\ progress (inner e') = progress (inner e) ++ [ev] /\ exists r, e' = set_inner r e.
Proof.
  intros Hok Hl. unfold fail. rewrite in_flight_live, bool_decide_true by done. simpl.
  destruct (finish_stage_spec PFailed now (inner e)) as (ts & -> & Hts); [apply Hok|done|]. simpl.
  destruct (open_status e Hok Hl) as (? & ? & ? & ?).
  eexists _, _. split; [done|]. split; [|split_and!; [done..|by eexists]]. split; [done| |].
  - unfold status_ok. simpl. split_and!; [split_and!; [by eexists..|done]|done|].
    eexists. by rewrite last_snoc.
  - simpl. rewrite (ok_started e Hok), head_snoc. simpl. unfold get_or_insert.
    by destruct (head (progress (inner e))).
Qed.

(** A finished run panics on every call. *)
Lemma run_finished e :
  ~ live e ->
  (forall p now, push_progress p now e = Err (Panic MUTATED_AFTER_FINISH))
  /\ (forall res now ms, succeed res now ms e = Err (Panic MUTATED_AFTER_FINISH))
  /\ (forall m now ms, fail m now ms e = Err (Panic MUTATED_AFTER_FINISH)).
Proof.
  intros Hl. unfold push_progress, succeed, fail. split_and!; intros;
    rewrite in_flight_live, bool_decide_false by done; done.
Qed.

Lemma run_new_ok id action paths seq ms now : run_ok (RunEntry_new id action paths seq ms now).
Proof. split; [constructor|by split|done]. Qed.

Lemma run_step_live e e' : run_step e e' -> live e.
Proof.
  intros Hs. destruct (decide (live e)) as [|Hl]; [done|].
  destruct Hs as [p now e p' e' Hc|res now ms e e' Hc|m now ms e ev e' Hc];
    destruct (run_finished e Hl) as (Hp & Hsu & Hf); [by rewrite Hp in Hc|by rewrite Hsu in Hc|by rewrite Hf in Hc].
Qed.

Lemma run_step_spec e e' :
  run_step e e' -> run_ok e ->
  run_ok e' /\ progress (inner e) `prefix_of` progress (inner e') /\ exists r, e' = set_inner r e.
Proof.
  intros Hs Hok. assert (live e) as Hl by by eapply run_step_live.
  destruct Hs as [p now e p' e' Hp|res now ms e e' Hp|m now ms e ev e' Hp].
  - destruct (push_progress_live p now e Hok Hl) as (q & e1 & Heq & ? & _ & Hpr & ?).
    rewrite Hp in Heq. injection Heq as <- <-. split_and!; [done| |done]. rewrite Hpr. by apply prefix_app_r.
  - destruct (succeed_live res now ms e Hok Hl) as (e1 & Heq & ? & _ & _ & Hpr & ?).
    rewrite Hp in Heq. injection Heq as <-. split_and!; [done|by rewrite Hpr|done].
  - destruct (fail_live m now ms e Hok Hl) as (q & e1 & Heq & ? & _ & _ & _ & Hpr & ?).
    rewrite Hp in Heq. injection Heq as <- <-. split_and!; [done| |done]. rewrite Hpr. by apply prefix_app_r.
Qed.

Lemma run_steps_spec e e' :
  rtc run_step e e' -> run_ok e ->
  run_ok e' /\ progress (inner e) `prefix_of` progress (inner e') /\ (exists r, e' = set_inner r e)
  /\ (~ live e -> e' = e).
Proof.
  induction 1 as [e|e e1 e' Hs _ IH]; intros Hok.
  - split_and!; [done|done|exists (inner e); by destruct e|done].
  - destruct (run_step_spec e e1 Hs Hok) as (Hok1 & Hp1 & [r1 ->]).
    destruct (IH Hok1) as (Hok' & Hp' & [r' ->] & _). split_and!; [done|by etrans|by exists r'|].
    intros Hl. by apply run_step_live in Hs.
Qed.

(** *** Streams *)

Lemma enumerate_app {A} i (l l' : list A) :
  enumerate i (l ++ l') = enumerate i l ++ enumerate (i + length l) l'.
Proof.
  revert i. induction l as [|a l IH]; intros i; simpl; [by rewrite Nat.add_0_r|].
  rewrite IH. by rewrite Nat.add_succ_r.
Qed.

Lemma length_enumerate {A} i (l : list A) : length (enumerate i l) = length l.
Proof. revert i. induction l as [|a l IH]; intros i; simpl; [done|by rewrite IH]. Qed.

Lemma last_enumerate {A} (l : list A) : fst <$> last (enumerate 0 l) = if l then None else Some (length l - 1)%nat.
Proof.
  destruct l as [|a l _] using rev_ind; [done|]. rewrite enumerate_app, last_app. simpl.
  rewrite length_app. destruct l; simpl; f_equal; lia.
Qed.

Lemma last_drop {A} n (l : list A) : (n < length l)%nat -> last (drop n l) = last l.
Proof. intros Hn. rewrite !last_lookup, lookup_drop, length_drop. f_equal. lia. Qed.

(** The cursor after a poll that saw [l], and what the next poll adds. *)
Definition cursor {A} (next : nat) (events : list (nat * A)) : nat :=
  match last events with Some (index, _) => S index | None => next end.

Lemma cursor_spec {A} next (l : list A) : cursor next (drop next (enumerate 0 l)) = (next `max` length l)%nat.
Proof.
  unfold cursor. destruct (decide (next < length l)%nat) as [Hlt|Hge].
  - rewrite last_drop by (rewrite length_enumerate; lia).
    pose proof (last_enumerate l) as Hl. destruct l as [|a l]; [simpl in Hlt; lia|].
    destruct (last (enumerate 0 (a :: l))) as [[i p]|]; [|done]. injection Hl as ->. simpl in *. lia.
  - rewrite drop_ge by (rewrite length_enumerate; lia). simpl. lia.
Qed.

Lemma poll_extends {A} next (l l' : list A) :
  drop next (enumerate 0 l) ++ drop (next `max` length l)%nat (enumerate 0 (l ++ l')) = drop next (enumerate 0 (l ++ l')).
Proof.
  rewrite enumerate_app. rewrite !drop_app, length_enumerate.
  destruct (decide (next <= length l)%nat) as [Hle|Hgt].
  - rewrite (drop_ge _ (next `max` _)) by (rewrite length_enumerate; lia).
    replace (next - length l)%nat with 0%nat by lia. by replace (next `max` length l - length l)%nat with 0%nat by lia.
  - rewrite Nat.max_l by lia. rewrite (drop_ge (enumerate 0 l)) by (rewrite length_enumerate; lia). done.
Qed.

(** The states seen by successive polls. *)
Definition polled (es : list RunEntry) : Prop := Sorted (rtc run_step) es.

Lemma polled_last e polls : polled (e :: polls) -> rtc run_step e (default e (last polls)).
Proof.
  revert e. induction polls as [|e' polls IH]; intros e Hs; [done|].
  apply Sorted_inv in Hs as [Hs Hhd%HdRel_inv]. rewrite last_cons. specialize (IH e' Hs).
  etrans; [exact Hhd|]. by destruct (last polls).
Qed.

Lemma run_events_cons next e polls :
  run_events next (e :: polls) =
  fst (events_from next e)
  ++ if is_finished e then [] else run_events (next `max` length (progress (inner e)))%nat polls.
Proof.
  cbn [run_events events_from]. fold (cursor next (drop next (enumerate 0 (progress (inner e))))).
  by rewrite cursor_spec.
Qed.

Lemma run_events_complete next e polls :
  run_ok e -> polled (e :: polls) ->
  run_events next (e :: polls) = fst (events_from next (default e (last polls))).
Proof.
  revert next e. induction polls as [|e' polls IH]; intros next e Hok Hs.
  - simpl. by destruct (is_finished e); rewrite app_nil_r.
  - pose proof (polled_last _ _ Hs) as Hlast.
    destruct (run_steps_spec _ _ Hlast Hok) as (_ & [l' Hl'] & _ & Hfin).
    assert (default e (last (e' :: polls)) = default e' (last polls)) as Hd
      by (rewrite last_cons; by destruct (last polls)).
    rewrite Hd in *. rewrite run_events_cons. unfold is_finished. simpl finished_at. case_bool_decide as Hf.
    + rewrite Hfin, app_nil_r; [done|]. unfold live. destruct Hf as [? ->]. done.
    + apply Sorted_inv in Hs as [Hs Hhd%HdRel_inv].
      rewrite IH; [|by apply (run_steps_spec e e')|done]. simpl. rewrite Hl'. apply poll_extends.
Qed.

(** *** The life of a run *)

Definition started_run (e : RunEntry) : Prop :=
  exists id action paths seq ms now, rtc run_step (RunEntry_new id action paths seq ms now) e.

Lemma started_run_ok e : started_run e -> run_ok e.
Proof. intros (id & action & paths & seq & ms & now & Hr). eapply run_steps_spec; [exact Hr|apply run_new_ok]. Qed.

Lemma snapshot_total now e : run_ok e -> exists st, snapshot now e = Ok st.
Proof.
  intros [Hs _ _]. unfold snapshot, timings_at, stages_ok in *. destruct (stage_started (inner e)); simpl; [|by eexists].
  destruct Hs as (ts & t & -> & _). rewrite map_last_snoc. simpl. by eexists.
Qed.

(** Whatever calls a run has received, its status agrees with its result,
    its error, its times and its stages; while it is open every call returns,
    and once it is finished every call panics, so that its log only grows and
    its outcome never changes. A snapshot can always be taken. *)
Theorem run_lifecycle e :
  started_run e ->
  run_ok e
  /\ (forall now, exists st, snapshot now e = Ok st /\ rs_status st = status (inner e))
  /\ (live e -> (forall p now, exists p' e', push_progress p now e = Ok (p', e') /\ live e')
               /\ (forall res now ms, exists e', succeed res now ms e = Ok e' /\ ~ live e')
               /\ (forall m now ms, exists ev e', fail m now ms e = Ok (ev, e') /\ ~ live e'))
  /\ (~ live e -> forall e', ~ run_step e e')
  /\ (forall e', rtc run_step e e' -> progress (inner e) `prefix_of` progress (inner e') /\ (~ live e -> e' = e)).
Proof.
  intros Hok%started_run_ok. split_and!; [done| | | |].
  - intros now. destruct (snapshot_total now e Hok) as [st Hst]. exists st. split; [done|].
    unfold snapshot in Hst. inv_ok. done.
  - intros Hl. split_and!.
    + intros p now. destruct (push_progress_live p now e Hok Hl) as (p' & e' & ? & _ & ? & _). by exists p', e'.
    + intros res now ms. destruct (succeed_live res now ms e Hok Hl) as (e' & ? & Hok' & Hs & _).
      exists e'. split; [done|]. by apply closed_not_live; [|left].
    + intros m now ms. destruct (fail_live m now ms e Hok Hl) as (ev & e' & ? & Hok' & Hs & _).
      exists ev, e'. split; [done|]. by apply closed_not_live; [|right].
  - intros Hl e' Hs%run_step_live. done.
  - intros e' Hs. destruct (run_steps_spec e e' Hs Hok) as (_ & ? & _ & ?). done.
Qed.

(** A client that stays connected is sent every progress event from its
    starting index up to the last poll, once and in order, however its polls
    fall between the run's steps; the stream ends only when the log is
    complete. *)
Theorem event_stream_complete next e polls :
  started_run e -> polled (e :: polls) ->
  let final := default e (last polls) in
  run_events next (e :: polls) = drop next (enumerate 0 (progress (inner final)))
  /\ (forall e', is_finished final = true -> rtc run_step final e' -> progress (inner e') = progress (inner final)).
Proof.
  intros Hr Hp final. pose proof (started_run_ok e Hr) as Hok. split; [by rewrite run_events_complete|].
  intros e' Hf He'. assert (run_ok final) as Hokf by (eapply run_steps_spec; [by apply polled_last|done]).
  destruct (run_steps_spec _ _ He' Hokf) as (_ & _ & _ & ->); [done|].
  unfold live. apply bool_decide_eq_true in Hf as [? Hf]. simpl in Hf. by rewrite Hf.
Qed.

(** A run that proves, commits and lands. *)
Module Sample.
Definition step (phase : ExecutionPhase) (st : ProofProgressStatus) (stage : option ExecutionStage) : RunActionProgress :=
  {| pg_run_id := "r"; pg_phase := phase; pg_status := st; pg_message := "m"; pg_old_root := None;
     pg_output_files := None; pg_output_status := None; pg_input_files := None; pg_at_ms := 7;
     pg_stage := stage; pg_elapsed_ms := 0 |}.
Definition e0 : RunEntry := RunEntry_new "r" {| plugin_name := "p"; name := "a" |} [] 0 1 1000000.
Definition push (p : RunActionProgress) (now : Z) (e : RunEntry) : RunEntry :=
  match push_progress p now e with Ok (_, e') => e' | Err _ => e end.
Definition e1 : RunEntry := push (step GenerateProof PRunning (Some Proving)) 3000000 e0.
Definition e2 : RunEntry := push (step Commit PRunning (Some Submitting)) 5000000 e1.
Definition e3 : RunEntry :=
  match fail "lost" 9000000 9 e2 with Ok (_, e') => e' | Err _ => e2 end.

Lemma e0_started : started_run e0.
Proof. exists "r", {| plugin_name := "p"; name := "a" |}, [], 0, 1, 1000000. done. Qed.
Lemma push_steps p now e : rtc run_step e (push p now e).
Proof. unfold push. destruct (push_progress p now e) as [[q e']|] eqn:Hp; [|done]. by eapply rtc_once, step_push. Qed.
Lemma e0_e1 : rtc run_step e0 e1.
Proof. apply push_steps. Qed.
Lemma e1_e3 : rtc run_step e1 e3.
Proof.
  etrans; [apply push_steps|]. fold e2. unfold e3.
  destruct (fail "lost" 9000000 9 e2) as [[q e']|] eqn:Hp; [|done]. by eapply rtc_once, step_fail.
Qed.

Lemma run_lifecycle_witness :
  started_run e3 /\ run_ok e3 /\ (tm_elapsed_ms <$> stage_timings (inner e3) = [2; 4]).
Proof.
  assert (started_run e3) as Hs.
  { exists "r", {| plugin_name := "p"; name := "a" |}, [], 0, 1, 1000000. etrans; [exact e0_e1|exact e1_e3]. }
  split_and!; [exact Hs|apply (run_lifecycle e3 Hs)|reflexivity].
Defined.

Lemma event_stream_witness :
  (prod_map id pg_message <$> run_events 1 [e0; e1; e3]) = [(1%nat, "m"); (2%nat, "lost")].
Proof.
  assert (polled [e0; e1; e3]) as Hp by (repeat constructor; [exact e1_e3|exact e0_e1]).
  destruct (event_stream_complete 1 e0 [e1; e3] e0_started Hp) as [-> _]. reflexivity.
Defined.
End Sample.
End Runs.
