(* ===== verification/Events.v ===== *)
(** * Events and waiting (services/dobjd: events.rs, routes/wait.rs)

    The daemon numbers its events and broadcasts them; a client waits for a
    change by subscribing, reading, and then following the events. The channel
    keeps 1024 events per subscriber, so a slow subscriber loses the oldest and
    is told so. [timeline] is what happened after the subscription, in order,
    and [delivered] which answers the channel may give on it. *)

From S2P Require Import Prelude ObjectNames DriverStore DriverObjects Runs.

Module Events.
Import ObjectNames Runs.
Import DriverObjects(ObjectSummary(..)).
Import DriverStore(TransactionRecord, TransactionState, is_terminal).
Local Open Scope Z_scope.

(** ** Definitions *)

Inductive Event : Type :=
| EvRunActionProgress (p : RunActionProgress)
| EvProofJob (j : ProofJobState)
| EvTransaction (r : TransactionRecord)
| EvTransactionDeleted (tx_final : string)
| EvTransactionPruned (tx_final : string)
| EvObject (o : ObjectSummary)
| EvObjectRemoved (file_name : string).

Record Envelope : Type := { seq : Z; event : Event }.

(** The events sent so far, oldest first. *)
Record EventHub : Type := { next_seq : Z; sent : list Envelope }.

Definition EventHub_new : EventHub := {| next_seq := 1; sent := [] |}.

Definition publish (e : Event) (h : EventHub) : EventHub :=
  {| next_seq := as_u64 (next_seq h + 1); sent := sent h ++ [{| seq := next_seq h; event := e |}] |}.

(** [transaction_event] *)
Definition transaction_event (key : string) (e : Event) : Result (option TransactionRecord) :=
  match e with
  | EvTransaction r => Ok (if decide (DriverStore.tx_final r = key) then Some r else None)
  | EvTransactionDeleted d =>
      if decide (d = key) then Err (Fail ("transaction " +:+ key +:+ " was deleted")) else Ok None
  | EvTransactionPruned d =>
      if decide (d = key) then Err (Fail ("transaction " +:+ key +:+ " is no longer retained")) else Ok None
  | _ => Ok None
  end.

(** The events of a proof job ([wait_for_proof_job]). *)
Definition job_event (id : string) (e : Event) : Result (option ProofJobState) :=
  match e with
  | EvProofJob j => Ok (if decide (js_job_id j = id) then Some j else None)
  | _ => Ok None
  end.

Section Following.
Context {T : Type} (is_done : T -> bool) (from_event : Event -> Result (option T)).

(** What the next [recv] gives; the reads it leads to are part of the answer. *)
Inductive Receipt : Type :=
| Received (e : Event)
| Lagged (reread : Result T)
| Elapsed (reread : Result T)
| Closed.

(** [None] while the loop is still waiting. *)
Fixpoint follow_loop (current : T) (rs : list Receipt) : option (Result T) :=
  if is_done current then Some (Ok current)
  else match rs with
       | [] => None
       | Received e :: rs' =>
           match from_event e with
           | Ok (Some state) => follow_loop state rs'
           | Ok None => follow_loop current rs'
           | Err e => Some (Err e)
           end
       | Lagged (Ok state) :: rs' => follow_loop state rs'
       | Lagged (Err e) :: _ => Some (Err e)
       | Elapsed reread :: _ => Some reread
       | Closed :: _ => Some (Err (Fail "event hub closed"))
       end.

Definition follow (read : Result T) (rs : list Receipt) : option (Result T) :=
  match read with
  | Ok current => follow_loop current rs
  | Err e => Some (Err e)
  end.

Definition MAX_WAIT : Z := 120000.
Definition DEFAULT_WAIT : Z := 30000.

(** The deadline of [wait_until] in milliseconds from now. *)
Definition wait_timeout (timeout_ms : option Z) : Z := Z.min (default DEFAULT_WAIT timeout_ms) MAX_WAIT.

Definition wait_until (wait : bool) (read : Result T) (rs : list Receipt) : option (Result T) :=
  if wait then follow read rs else Some read.

(** ** Specification *)

(** What happens after the subscription: the state read is changed, or an event
    is published. *)
Inductive Moment : Type :=
| Wrote (now : Result T)
| Published (e : Event).

Abbreviation timeline := (list Moment).

(** The state after the first [m] moments, starting from [d]. *)
Fixpoint disk_at (d : Result T) (m : nat) (tl : timeline) : Result T :=
  match m, tl with
  | O, _ | _, [] => d
  | S m', Wrote d' :: tl' => disk_at d' m' tl'
  | S m', Published _ :: tl' => disk_at d m' tl'
  end.

Definition published (tl : timeline) : list Event :=
  omap (fun x => match x with Published e => Some e | Wrote _ => None end) tl.

(** [delivered d tl p rs]: the channel may give [rs] to a receiver that has
    taken [p] events: the next event, or, when it fell behind, a lag that skips
    some events already published at the moment [m] of the read. At the end
    nothing published is left over. *)
Inductive delivered (d : Result T) (tl : timeline) : nat -> list Receipt -> Prop :=
| delivered_end p : (length (published tl) <= p)%nat -> delivered d tl p []
| delivered_next p e rs :
    published tl !! p = Some e -> delivered d tl (S p) rs -> delivered d tl p (Received e :: rs)
| delivered_lag p p' m rs :
    (p < p')%nat -> (p' <= length (published (take m tl)))%nat ->
    delivered d tl p' rs -> delivered d tl p (Lagged (disk_at d m tl) :: rs).

(** An event that ends the wait. *)
Definition decisive (e : Event) : Prop :=
  match from_event e with
  | Ok (Some v) => is_done v = true
  | Ok None => False
  | Err _ => True
  end.
Definition settled_read (r : Result T) : Prop :=
  match r with Ok v => is_done v = true | Err _ => True end.

(** A decisive event is published only after the change it reports was
    written, and that change is never undone. *)
Definition announced_after_write (d : Result T) (tl : timeline) : Prop :=
  forall i e m, tl !! i = Some (Published e) -> decisive e -> (i < m)%nat -> settled_read (disk_at d m tl).

Lemma follow_loop_done current rs v : follow_loop current rs = Some (Ok v) ->
  is_done v = true \/ exists pre reread rs', rs = pre ++ Elapsed reread :: rs' /\ reread = Ok v.
Proof.
  revert current. induction rs as [|x rs IH]; intros current; simpl; (destruct (is_done current) eqn:Ed;
    [intros [= <-]; by left|]); [done|].
  destruct x as [e|[state|e]|reread|]; try done.
  - destruct (from_event e) as [[state|]|]; try done; intros H%IH; destruct H as [|(pre & y & rs' & -> & ->)];
      [by left|right; by exists (Received e :: pre), (Ok v), rs'|by left|right; by exists (Received e :: pre), (Ok v), rs'].
  - intros H%IH. destruct H as [|(pre & y & rs' & -> & ->)]; [by left|].
    right. by exists (Lagged (Ok state) :: pre), (Ok v), rs'.
  - intros [= ->]. right. by exists [], (Ok v), rs.
Qed.

(** The position in the timeline of the [p]-th event published. *)
Lemma published_position tl p e :
  published tl !! p = Some e -> exists i, tl !! i = Some (Published e) /\ length (published (take i tl)) = p.
Proof.
  revert p. induction tl as [|[d|e'] tl IH]; intros p; csimpl; [done| |].
  - intros (i & Hi & Hp)%IH. by exists (S i).
  - destruct p as [|p]; simpl; [intros [= ->]; by exists 0%nat|].
    intros (i & Hi & Hp)%IH. exists (S i). csimpl. by rewrite Hp.
Qed.

Lemma published_take_mono (tl : timeline) i j :
  (i <= j)%nat -> (length (published (take i tl)) <= length (published (take j tl)))%nat.
Proof.
  revert i j. induction tl as [|x tl IH]; intros i j Hij; [by rewrite !take_nil|].
  destruct i as [|i]; [simpl; lia|]. destruct j as [|j]; [lia|].
  destruct x; csimpl; specialize (IH i j); lia.
Qed.

(** A receiver that has not passed a decisive event will end. *)
Lemma delivered_ends d tl p rs q e current :
  announced_after_write d tl -> delivered d tl p rs ->
  published tl !! q = Some e -> decisive e -> (p <= q)%nat -> is_Some (follow_loop current rs).
Proof.
  intros Hann Hdel Hq He. revert current.
  induction Hdel as [p Hp|p e' rs Hp _ IH|p p' m rs Hlt Hle _ IH]; intros current Hpq.
  - apply lookup_lt_Some in Hq. lia.
  - simpl. destruct (is_done current); [by eexists|].
    destruct (decide (p = q)) as [->|Hne].
    + rewrite Hq in Hp. injection Hp as <-. unfold decisive in He.
      destruct (from_event e) as [[v|]|]; [|done|by eexists]. destruct rs; simpl; rewrite He; by eexists.
    + destruct (from_event e') as [[v|]|]; [apply IH; lia|apply IH; lia|by eexists].
  - simpl. destruct (is_done current); [by eexists|].
    destruct (decide (p' <= q)%nat) as [Hq'|Hq'].
    + destruct (disk_at d m tl); [by apply IH|by eexists].
    + destruct (published_position tl q e Hq) as (i & Hi & Hqi).
      assert (i < m)%nat as Him.
      { destruct (decide (i < m)%nat); [done|].
        pose proof (published_take_mono tl m i). lia. }
      specialize (Hann i e m Hi He Him). unfold settled_read in Hann.
      destruct (disk_at d m tl) as [v|]; [|by eexists]. destruct rs; simpl; rewrite Hann; by eexists.
Qed.

(** C38: waiting never misses a change. A client subscribes, reads at some
    later moment, and follows the channel without a deadline, while every change
    is announced after it is written. If an event that ends its wait was
    published at any time since the subscription, then, whatever events the
    channel dropped on a slow client, [follow] returns; and what it returns is
    an error or a state in which the wait is over. *)
Theorem follow_never_misses d tl m0 rs e :
  announced_after_write d tl -> delivered d tl 0 rs -> Published e ∈ tl -> decisive e ->
  exists r, follow (disk_at d m0 tl) rs = Some r /\ forall v, r = Ok v -> is_done v = true.
Proof.
  intros Hann Hdel He Hdec.
  assert (is_Some (follow (disk_at d m0 tl) rs)) as [r Hr].
  { assert (exists q, published tl !! q = Some e) as [q Hq].
    { apply list_elem_of_lookup. apply list_elem_of_omap. by exists (Published e). }
    unfold follow. destruct (disk_at d m0 tl) as [v|]; [|by eexists].
    eapply delivered_ends; [done..|lia]. }
  exists r. split; [done|]. intros v ->. unfold follow in Hr. destruct (disk_at d m0 tl) as [w|]; [|done].
  apply follow_loop_done in Hr as [|(pre & reread & rs' & -> & _)]; [done|].
  exfalso. clear -Hdel. revert Hdel. generalize 0%nat as p. induction pre as [|x pre IH]; intros p Hdel; inversion Hdel; subst; eauto.
Qed.
End Following.

(** Events are numbered consecutively from one, as long as numbers last. *)
Fixpoint publish_all (es : list Event) (h : EventHub) : EventHub :=
  match es with [] => h | e :: es' => publish_all es' (publish e h) end.

Lemma publish_all_numbered es :
  Z.of_nat (length es) < u64_max ->
  seq <$> sent (publish_all es EventHub_new) = Z.of_nat <$> List.seq 1 (length es)
  /\ event <$> sent (publish_all es EventHub_new) = es.
Proof.
  intros Hlen.
  assert (Hgen : forall es h k, next_seq h = Z.of_nat (S k) -> Z.of_nat (k + length es) < u64_max ->
    seq <$> sent (publish_all es h) = (seq <$> sent h) ++ (Z.of_nat <$> List.seq (S k) (length es))
    /\ event <$> sent (publish_all es h) = (event <$> sent h) ++ es).
  { clear. induction es as [|e es IH]; intros h k Hk Hlen; simpl; [by rewrite !app_nil_r|].
    simpl in Hlen. destruct (IH (publish e h) (S k)) as [-> ->]; [|lia|].
    - simpl. rewrite as_u64_id; [lia|]. unfold u64_max in Hlen. lia.
    - simpl. rewrite !fmap_app, <-!(assoc_L (++)). simpl. by rewrite Hk. }
  by destruct (Hgen es EventHub_new 0%nat) as [-> ->].
Qed.

(** A client that slept through the decisive event reads it after the lag. *)
Module Sample.
Definition gone (e : Event) : Result (option bool) :=
  match e with EvObjectRemoved f => Ok (if decide (f = "x") then Some true else None) | _ => Ok None end.
Definition tl : list (@Moment bool) :=
  [Published (EvObjectRemoved "y"); Wrote (Ok true); Published (EvObjectRemoved "x")].
Definition rs : list (@Receipt bool) := [Lagged (Ok true)].

Lemma follow_witness : exists r, follow id gone (Ok false) rs = Some r /\ forall v, r = Ok v -> id v = true.
Proof.
  apply (follow_never_misses id gone (Ok false) tl 0 rs (EvObjectRemoved "x")).
  - intros i e m Hi He Hm. destruct i as [|[|[|i]]]; simplify_eq/=; [done|].
    destruct m as [|[|[|m]]]; [lia..|]. by destruct m.
  - change rs with [Lagged (disk_at (Ok false) 3 tl)]. apply (delivered_lag _ _ 0 2 3); [lia|simpl; lia|].
    apply delivered_end. simpl. lia.
  - unfold tl. set_solver.
  - done.
Defined.
End Sample.
End Events.
