(* ===== verification/Settler.v ===== *)
(** * Settlement passes (services/dobjd: settle.rs, and the announcements of
    state.rs)

    The daemon settles open transactions in passes, announces what changed,
    prunes what is old, and retries submissions that were cut off. Passes are
    serialized by a lock, so a pass is one program here. *)

From S2P Require Import Prelude Pod2 Models Payload ObjectNames DriverStore Driver Actions DriverObjects Registry Runs Events.

Module Settler.
Import Payload ObjectNames DriverStore Driver Actions DriverObjects Events.
Import Registry(from_millis, from_secs).
Local Open Scope Z_scope.

(** ** Retries *)

(** Durations are in nanoseconds. *)
Definition SETTLE_INTERVAL : Z := from_millis 1500.
Definition UNATTEMPTED_CHECK_INTERVAL : Z := from_secs 30.
Definition MAX_SUBMISSION_RETRIES : nat := 4.
Definition MAX_RETRY_DELAY : Z := from_secs 60.

Record SubmissionRetry : Type := { next_attempt : Z; delay : Z; in_flight : bool }.
Abbreviation SubmissionRetries := (gmap string SubmissionRetry).

Definition wants_retry (r : TransactionRecord) : bool :=
  bool_decide (state r = Recorded) && bool_decide (is_Some (submit_attempted_at_ms r)).

Definition first_retry (now : Z) : SubmissionRetry :=
  {| next_attempt := now + SETTLE_INTERVAL; delay := SETTLE_INTERVAL; in_flight := false |}.

Definition in_flight_count (a : SubmissionRetries) : nat :=
  size (filter (fun kr : string * SubmissionRetry => in_flight (snd kr) = true) a).

(** The loop of [due] over the pending transactions. *)
Fixpoint due_loop (now : Z) (pending : list string) (capacity : nat) (a : SubmissionRetries) :
    list string * SubmissionRetries :=
  match pending with
  | [] => ([], a)
  | tx :: pending' =>
      let retry := default (first_retry now) (a !! tx) in
      let a := <[tx := retry]> a in
      if bool_decide (capacity = 0%nat) || in_flight retry || (now <? next_attempt retry)
      then due_loop now pending' capacity a
      else
        let retry := {| next_attempt := next_attempt retry; delay := delay retry; in_flight := true |} in
        let '(due, a) := due_loop now pending' (capacity - 1) (<[tx := retry]> a) in
        (tx :: due, a)
  end.

Definition due (records : list TransactionRecord) (now : Z) (a : SubmissionRetries) :
    list string * SubmissionRetries :=
  let pending := tx_final <$> filter (fun r => wants_retry r = true) records in
  let a := filter (fun kr : string * SubmissionRetry => in_flight (snd kr) = true \/ fst kr ∈ pending) a in
  due_loop now pending (MAX_SUBMISSION_RETRIES - in_flight_count a) a.

Definition complete (tx : string) (now : Z) (succeeded : bool) (a : SubmissionRetries) : SubmissionRetries :=
  if succeeded then delete tx a
  else match a !! tx with
       | Some retry =>
           let d := Z.min (delay retry * 2) MAX_RETRY_DELAY in
           <[tx := {| next_attempt := now + d; delay := d; in_flight := false |}]> a
       | None => a
       end.

(** ** The next pass *)

(** [SettleOutcome] as the daemon sees it. *)
Record Outcome : Type := {
  ot_records : list TransactionRecord;
  ot_objects : list ObjectSummary;
  ot_removed_files : list string;
  ot_open_records : nat;
  ot_unattempted_records : nat;
  ot_pruned_tx_finals : list string;
  ot_next_cleanup_at_ms : option Z;
}.

Definition next_pass_delay (o : Outcome) (now_ms : Z) : option Z :=
  let poll_delay :=
    if (ot_unattempted_records o <? ot_open_records o)%nat then Some SETTLE_INTERVAL
    else if (0 <? ot_open_records o)%nat then Some UNATTEMPTED_CHECK_INTERVAL
    else None in
  let cleanup_delay :=
    (fun deadline => from_millis (Z.max (saturating_sub_u64 deadline now_ms) 1)) <$> ot_next_cleanup_at_ms o in
  match poll_delay, cleanup_delay with
  | Some a, Some b => Some (Z.min a b)
  | Some a, None | None, Some a => Some a
  | None, None => None
  end.

(** ** The daemon *)

(** [Instant::now()] *)
Class Ticks `{Machine} : Type := { instant : Env -> Z * Env }.

Record Daemon `{Machine} : Type := MkDaemon {
  home : Home;
  hub : EventHub;
  attempts : SubmissionRetries;
  published_terminal : gset string;
  (** A stored permit of [wake]. *)
  woken : bool;
}.

Section Passes.
Context `{Clients, Pod2, !CreationProofs, !Ticks} (catalog : ActionCatalog).

Definition at_home {A} (c : eff Home A) : eff Daemon A := fun d =>
  let '(r, h) := c (home d) in (r, MkDaemon _ h (hub d) (attempts d) (published_terminal d) (woken d)).
Definition on_driver {A} (c : eff World A) : eff Daemon A := at_home (in_store c).
Definition tick : eff Daemon Z := on_driver (on_env (fun e => let '(t, e') := instant e in (Ok t, e'))).
Definition modify (f : Daemon -> Daemon) : eff Daemon unit := fun d => (Ok tt, f d).
Definition announce (e : Event) : eff Daemon unit :=
  modify (fun d => MkDaemon _ (home d) (publish e (hub d)) (attempts d) (published_terminal d) (woken d)).
Definition wake : eff Daemon unit :=
  modify (fun d => MkDaemon _ (home d) (hub d) (attempts d) (published_terminal d) true).
Definition set_published (s : gset string) (d : Daemon) : Daemon :=
  MkDaemon _ (home d) (hub d) (attempts d) s (woken d).
Definition set_attempts (a : SubmissionRetries) (d : Daemon) : Daemon :=
  MkDaemon _ (home d) (hub d) a (published_terminal d) (woken d).

Definition each {A} (f : A -> eff Daemon unit) (l : list A) : eff Daemon unit :=
  efold (fun _ a => f a) tt l.

Definition list_transactions : eff Daemon (list TransactionRecord) := on_driver load_records.

(** The records a settlement has written, for the summaries it makes. *)
Definition records_of (w : World) : list TransactionRecord := snd <$> map_to_list (recs (transactions w)).

Definition summarize (entries : list (string * ObjectRecord)) : eff Daemon (list ObjectSummary) :=
  let! d := eget in
  at_home (summaries catalog entries (records_of (world (home d)))).

Definition outcome_of (o : SettleOutcome) : eff Daemon Outcome :=
  let! objects := summarize (so_objects o) in
  eret {| ot_records := so_records o; ot_objects := objects; ot_removed_files := so_removed_files o;
          ot_open_records := so_open_records o; ot_unattempted_records := so_unattempted_records o;
          ot_pruned_tx_finals := []; ot_next_cleanup_at_ms := None |}.

Definition publish_outcome (o : Outcome) : eff Daemon unit :=
  each (fun r =>
    (if is_terminal (state r) then modify (fun d => set_published ({[tx_final r]} ∪ published_terminal d) d) else eret tt) ;!
    announce (EvTransaction r)) (ot_records o) ;!
  modify (fun d => set_published (published_terminal d ∖ list_to_set (ot_pruned_tx_finals o)) d) ;!
  each (fun f => announce (EvObjectRemoved f)) (ot_removed_files o) ;!
  each (fun s => announce (EvObject s)) (ot_objects o) ;!
  each (fun tx => announce (EvTransactionPruned tx)) (ot_pruned_tx_finals o).

(** Finished records that no event announced. *)
Definition unpublished (published : gset string) (changed : list TransactionRecord)
    (records : list TransactionRecord) : list TransactionRecord :=
  foldl (fun acc r =>
    if is_terminal (state r) && negb (bool_decide (tx_final r ∈ published))
       && negb (existsb (fun c => bool_decide (tx_final c = tx_final r)) acc)
    then acc ++ [r] else acc) changed records.

Definition with_records (rs : list TransactionRecord) (o : Outcome) : Outcome :=
  {| ot_records := rs; ot_objects := ot_objects o; ot_removed_files := ot_removed_files o;
     ot_open_records := ot_open_records o; ot_unattempted_records := ot_unattempted_records o;
     ot_pruned_tx_finals := ot_pruned_tx_finals o; ot_next_cleanup_at_ms := ot_next_cleanup_at_ms o |}.

Definition add_unpublished_terminal (o : Outcome) : eff Daemon Outcome :=
  let! records := list_transactions in
  modify (fun d => set_published
    (filter (fun tx => tx ∈ tx_final <$> records) (published_terminal d)) d) ;!
  let! d := eget in
  eret (with_records (unpublished (published_terminal d) (ot_records o) records) o).

(** When settlement fails, the counts of the records on disk. *)
Definition local_outcome (records : list TransactionRecord) : Outcome :=
  {| ot_records := []; ot_objects := []; ot_removed_files := [];
     ot_open_records := length (filter (fun r => is_open r = true) records);
     ot_unattempted_records := length (filter (fun r => is_open r && negb (needs_tx_status r) = true) records);
     ot_pruned_tx_finals := []; ot_next_cleanup_at_ms := None |}.

Definition with_pruned (p : PrunedTransactions) (objects : list ObjectSummary) (o : Outcome) : Outcome :=
  {| ot_records := ot_records o; ot_objects := ot_objects o ++ objects;
     ot_removed_files := ot_removed_files o ++ pr_removed_files p;
     ot_open_records := ot_open_records o; ot_unattempted_records := ot_unattempted_records o;
     ot_pruned_tx_finals := pr_tx_finals p; ot_next_cleanup_at_ms := pr_next_cleanup_at_ms p |}.

Definition prune_with_summaries : eff Daemon (PrunedTransactions * list ObjectSummary) :=
  let! now := on_driver clock in
  let! pruned := on_driver (prune_transactions now) in
  let! objects := summarize (pr_objects pruned) in
  eret (pruned, objects).

Definition pass : eff Daemon Outcome :=
  let! jobs := etry (on_driver fetch_relayer_jobs) in
  let jobs := match jobs with Ok j => j | Err _ => ∅ end in
  let! settled := etry (let! (o, _) := on_driver (settle_with false jobs) in outcome_of o) in
  let! outcome := (match settled with
                   | Ok o => eret o
                   | Err _ => let! records := list_transactions in eret (local_outcome records)
                   end) in
  let! added := etry (add_unpublished_terminal outcome) in
  let outcome := match added with Ok o => o | Err _ => outcome end in
  let! pruned := etry prune_with_summaries in
  match pruned with
  | Err m => publish_outcome outcome ;! ethrow (Fail m)
  | Ok (pruned, objects) =>
      let outcome := with_pruned pruned objects outcome in
      publish_outcome outcome ;! eret outcome
  end.

(** [publish_updates]: the records as they are on disk now, and their files. *)
Definition reread (acc : list TransactionRecord) (update : TransactionRecord) : eff Daemon (list TransactionRecord) :=
  let! found := etry (let! h := elift (decode_hash_hex (tx_final update)) in on_driver (get_transaction h)) in
  eret (match found with Ok r => acc ++ [r] | Err _ => acc end).

Definition publish_updates (updates : list TransactionRecord) : eff Daemon unit :=
  let! records := efold reread [] updates in
  let files : gset string := list_to_set (u ← updates; input_files u ++ output_files u) in
  let! objects := etry (at_home (read_available_objects catalog (elements files))) in
  publish_outcome {| ot_records := records; ot_objects := match objects with Ok l => l | Err _ => [] end;
                     ot_removed_files := []; ot_open_records := 0; ot_unattempted_records := 0;
                     ot_pruned_tx_finals := []; ot_next_cleanup_at_ms := None |}.

(** [start_retries] up to spawning: the transactions whose submission is
    retried. *)
Definition start_retries : eff Daemon (list string) :=
  let! records := list_transactions in
  let! now := tick in
  let! d := eget in
  let '(txs, a) := due records now (attempts d) in
  modify (set_attempts a) ;! eret txs.

(** One spawned retry. *)
Definition retry (tx : string) : eff Daemon unit :=
  let! submission := etry (let! h := elift (decode_hash_hex tx) in on_driver (submit h)) in
  let! now := tick in
  modify (fun d => set_attempts (complete tx now (is_ok submission) (attempts d)) d) ;!
  (match submission with Ok r => publish_updates [r] | Err _ => eret tt end) ;!
  wake.

(** The object listing of a client, settled if that works. *)
Definition sync_objects_or_list (query : option ObjectQuery) : eff Daemon (list ObjectSummary) :=
  let! synced := etry (
    let! (o, entries) := on_driver Driver.sync_objects in
    let! outcome := outcome_of o in
    let! objects := summarize entries in
    eret (outcome, filter (fun s => is_none_or query (matches_query s) = true) objects)) in
  match synced with
  | Ok (outcome, objects) => publish_outcome outcome ;! eret objects
  | Err _ => at_home (list_objects catalog query)
  end.
End Passes.

(** ** Retries are bounded *)

(** The retries under way are those spawned and not yet completed. *)
Inductive retry_step : SubmissionRetries * list string -> SubmissionRetries * list string -> Prop :=
| retry_due records now a out :
    retry_step (a, out) (snd (due records now a), out ++ fst (due records now a))
| retry_complete tx now ok a out out' :
    out ≡ₚ tx :: out' -> retry_step (a, out) (complete tx now ok a, out').

Definition flying (a : SubmissionRetries) : gset string :=
  dom (filter (fun kr : string * SubmissionRetry => in_flight (snd kr) = true) a).

Lemma flying_spec a tx : tx ∈ flying a <-> exists r, a !! tx = Some r /\ in_flight r = true.
Proof.
  unfold flying. rewrite elem_of_dom. split.
  - intros [r Hr]. apply map_lookup_filter_Some in Hr as [? ?]. by exists r.
  - intros (r & Hr & Hf). exists r. by apply map_lookup_filter_Some.
Qed.

Lemma flying_insert a tx r :
  flying (<[tx := r]> a) = if in_flight r then {[tx]} ∪ flying a else flying a ∖ {[tx]}.
Proof.
  apply set_eq. intros x. rewrite flying_spec. destruct (decide (x = tx)) as [->|Hne].
  - setoid_rewrite lookup_insert_eq. destruct (in_flight r) eqn:Hf; split.
    + set_solver.
    + intros _. by exists r.
    + intros (r' & [= <-] & Hf'). congruence.
    + set_solver.
  - setoid_rewrite lookup_insert_ne; [|done]. rewrite <-flying_spec. destruct (in_flight r); set_solver.
Qed.

Lemma flying_delete a tx : flying (delete tx a) = flying a ∖ {[tx]}.
Proof.
  apply set_eq. intros x. rewrite elem_of_difference, !flying_spec, elem_of_singleton.
  setoid_rewrite lookup_delete_Some. naive_solver.
Qed.

(** Delays double from the first up to the largest. *)
Definition delay_ok (r : SubmissionRetry) : Prop :=
  exists k : nat, delay r = Z.min (SETTLE_INTERVAL * 2 ^ Z.of_nat k) MAX_RETRY_DELAY.

Lemma delay_first now : delay_ok (first_retry now).
Proof. exists 0%nat. reflexivity. Qed.

Lemma delay_doubled r now : delay_ok r ->
  delay_ok {| next_attempt := now; delay := Z.min (delay r * 2) MAX_RETRY_DELAY; in_flight := false |}.
Proof.
  intros [k Hk]. exists (S k). simpl delay. rewrite Hk. rewrite Nat2Z.inj_succ, Z.pow_succ_r by lia.
  unfold MAX_RETRY_DELAY, SETTLE_INTERVAL, from_secs, from_millis. lia.
Qed.

Definition delays_ok (a : SubmissionRetries) : Prop := forall tx r, a !! tx = Some r -> delay_ok r.

Lemma delays_insert a tx r : delays_ok a -> delay_ok r -> delays_ok (<[tx := r]> a).
Proof. intros Ha Hr x r' [[_ <-]|[_ ?]]%lookup_insert_Some; [done|by eapply Ha]. Qed.

Lemma delays_default a tx now : delays_ok a -> delay_ok (default (first_retry now) (a !! tx)).
Proof. intros Ha. destruct (a !! tx) eqn:Ht; simpl; [by eapply Ha|apply delay_first]. Qed.

Lemma due_loop_spec now pending capacity a :
  delays_ok a ->
  let '(txs, a') := due_loop now pending capacity a in
  NoDup txs /\ (forall tx, tx ∈ txs -> tx ∈ pending /\ tx ∉ flying a) /\ (length txs <= capacity)%nat
  /\ flying a' = flying a ∪ list_to_set txs /\ delays_ok a'.
Proof.
  revert capacity a. induction pending as [|tx pending IH]; intros capacity a Ha; simpl.
  { split_and!; [constructor|set_solver|lia|set_solver|done]. }
  pose proof (delays_default a tx now Ha) as Hdel. remember (default (first_retry now) (a !! tx)) as r eqn:Er.
  assert (flying (<[tx := r]> a) = flying a) as Hsame.
  { rewrite flying_insert. destruct (in_flight r) eqn:Hf.
    - assert (tx ∈ flying a); [|set_solver]. apply flying_spec. destruct (a !! tx) as [r'|]; simpl in Er; subst; [|done]. eauto.
    - assert (tx ∉ flying a); [|set_solver]. intros (r' & Hr' & Hf')%flying_spec. rewrite Hr' in Er. simpl in Er. congruence. }
  destruct (bool_decide (capacity = 0%nat) || in_flight r || (now <? next_attempt r)) eqn:Hskip.
  - specialize (IH capacity (<[tx := r]> a) (delays_insert _ _ _ Ha Hdel)).
    destruct (due_loop now pending capacity _) as [txs a']. destruct IH as (H1 & H2 & H3 & H4 & H5).
    rewrite Hsame in H2, H4. split_and!; [done| |done..]. intros x Hx. destruct (H2 x Hx). split; [by right|done].
  - apply orb_false_iff in Hskip as [[Hcap Hf]%orb_false_iff _]. apply bool_decide_eq_false in Hcap.
    assert (tx ∉ flying a) as Hnf.
    { rewrite flying_insert, Hf in Hsame. set_solver. }
    specialize (IH (capacity - 1)%nat (<[tx := {| next_attempt := next_attempt r; delay := delay r; in_flight := true |}]>
      (<[tx := r]> a))).
    destruct (due_loop now pending _ _) as [txs a']. destruct IH as (H1 & H2 & H3 & H4 & H5).
    { apply delays_insert; [by apply delays_insert|]. exact Hdel. }
    rewrite flying_insert, Hsame in H2, H4. simpl in H2, H4. split_and!.
    + apply NoDup_cons. split; [|done]. intros Hx. destruct (H2 tx Hx) as [_ Hn]. set_solver.
    + intros x [->|Hx]%elem_of_cons; [split; [by left|done]|]. destruct (H2 x Hx). split; [by right|set_solver].
    + simpl. lia.
    + rewrite H4. set_solver.
    + done.
Qed.

(** Exactly the free slots are filled, in order. *)
Definition eligible (now : Z) (a : SubmissionRetries) (tx : string) : bool :=
  match a !! tx with
  | Some r => negb (in_flight r) && (next_attempt r <=? now)
  | None => false
  end.

Lemma eligible_insert now a x tx r : x <> tx -> eligible now (<[tx := r]> a) x = eligible now a x.
Proof. intros Hne. unfold eligible. by rewrite lookup_insert_ne. Qed.

Lemma filter_ext_in {A} (P Q : A -> Prop) `{!forall x, Decision (P x), !forall x, Decision (Q x)} (l : list A) :
  (forall x, x ∈ l -> P x <-> Q x) -> filter P l = filter Q l.
Proof.
  induction l as [|a l IH]; intros Hl; [done|]. rewrite !filter_cons.
  rewrite (decide_ext _ (Q a)) by (apply Hl; by left). rewrite IH; [done|]. intros x Hx. apply Hl. by right.
Qed.

Lemma due_loop_exact now pending capacity a :
  NoDup pending ->
  fst (due_loop now pending capacity a) = take capacity (filter (fun tx => eligible now a tx = true) pending).
Proof.
  intros Hnd. revert capacity a. induction Hnd as [|tx pending Htx _ IH]; intros capacity a; simpl; [by destruct capacity|].
  assert (Hrest : forall r a', (forall x, x <> tx -> eligible now a' x = eligible now (<[tx := r]> a) x) ->
    filter (fun tx => eligible now a' tx = true) pending = filter (fun tx => eligible now a tx = true) pending).
  { intros r a' Ha'. apply filter_ext_in. intros x Hx. rewrite Ha', eligible_insert; [done|set_solver..]. }
  rewrite filter_cons.
  destruct (bool_decide (capacity = 0%nat) || in_flight _ || _) eqn:Hskip.
  - rewrite IH, (Hrest (default (first_retry now) (a !! tx))) by done.
    destruct (decide (eligible now a tx = true)) as [He|]; [|done]. unfold eligible in He. destruct (a !! tx) as [r|]; [|done]. simpl in Hskip.
    apply andb_true_iff in He as [He1%negb_true_iff He2%Z.leb_le]. rewrite He1 in Hskip.
    apply orb_true_iff in Hskip as [Hc|Hc%Z.ltb_lt]; [|lia]. rewrite orb_false_r in Hc.
    apply bool_decide_eq_true in Hc as ->. by rewrite !take_0.
  - apply orb_false_iff in Hskip as [[Hcap Hf]%orb_false_iff Hn%Z.ltb_ge]. apply bool_decide_eq_false in Hcap.
    rewrite decide_True.
    + destruct (due_loop now pending (capacity - 1) _) as [txs a'] eqn:Hd. simpl.
      apply (f_equal fst) in Hd. rewrite IH in Hd. simpl in Hd.
      destruct capacity as [|capacity]; [done|]. simpl. rewrite <-Hd. simpl. rewrite Nat.sub_0_r. f_equal. f_equal.
      apply (Hrest (first_retry now)). intros x Hx. by rewrite !eligible_insert.
    + unfold eligible. destruct (a !! tx) as [r|]; simpl in *.
      * rewrite Hf. simpl. by apply Z.leb_le.
      * unfold SETTLE_INTERVAL, from_millis in Hn. lia.
Qed.

Record retries_ok (s : SubmissionRetries * list string) : Prop := {
  ro_flying : flying (fst s) = list_to_set (snd s);
  ro_nodup : NoDup (snd s);
  ro_bound : (length (snd s) <= MAX_SUBMISSION_RETRIES)%nat;
  ro_delays : delays_ok (fst s);
}.

(** Forgetting settled transactions keeps those in flight. *)
Lemma flying_filter (a : SubmissionRetries) (pending : list string) :
  flying (filter (fun kr : string * SubmissionRetry => in_flight (snd kr) = true \/ fst kr ∈ pending) a) = flying a.
Proof.
  apply set_eq. intros x. rewrite !flying_spec. setoid_rewrite map_lookup_filter_Some. naive_solver.
Qed.

Lemma in_flight_count_flying a : in_flight_count a = size (flying a).
Proof. unfold in_flight_count, flying. by rewrite size_dom. Qed.

Lemma retry_step_ok s s' : retry_step s s' -> retries_ok s -> retries_ok s'.
Proof.
  intros Hs [Hf Hnd Hb Hd]. destruct Hs as [records now a out|tx now ok a out out' Hp]; simpl in *.
  - unfold due. set (pending := tx_final <$> _). set (a1 := filter _ a).
    assert (flying a1 = list_to_set out) as Hf1 by (subst a1; by rewrite flying_filter).
    assert (delays_ok a1) as Hd1 by (intros x r [? _]%map_lookup_filter_Some; by eapply Hd).
    pose proof (due_loop_spec now pending (MAX_SUBMISSION_RETRIES - in_flight_count a1) a1 Hd1) as Hdue.
    assert (in_flight_count a1 = length out) as Hcount.
    { rewrite in_flight_count_flying, Hf1. by apply size_list_to_set. }
    destruct (due_loop _ _ _ _) as [txs a']. simpl. destruct Hdue as (H1 & H2 & H3 & H4 & H5). split; simpl.
    + rewrite H4, Hf1. by rewrite list_to_set_app_L.
    + apply NoDup_app. split_and!; [done| |done]. intros x Hx Hx'. destruct (H2 x Hx') as [_ Hn].
      apply Hn. rewrite Hf1. by apply elem_of_list_to_set.
    + rewrite length_app. lia.
    + done.
  - rewrite Hp in Hnd. apply NoDup_cons in Hnd as [Hx Hnd].
    assert (length out = S (length out')) as Hlen by (by rewrite Hp).
    assert (flying a ∖ {[tx]} = list_to_set out') as Hrest.
    { rewrite Hf. apply set_eq. intros x. rewrite elem_of_difference, !elem_of_list_to_set, Hp, elem_of_cons, elem_of_singleton.
      split; [naive_solver|]. intros Hin. split; [by right|]. by intros ->. }
    unfold complete. destruct ok.
    + split; simpl; [by rewrite flying_delete|done|lia|]. intros x r [_ ?]%lookup_delete_Some. by eapply Hd.
    + assert (tx ∈ flying a) as (r & Hr & _)%flying_spec.
      { rewrite Hf. apply elem_of_list_to_set. rewrite Hp. by left. }
      rewrite Hr. split; simpl; [|done|lia|].
      * rewrite flying_insert. simpl. done.
      * apply delays_insert; [done|]. apply delay_doubled. by eapply Hd.
Qed.
Lemma retries_reachable s : rtc retry_step (∅, []) s -> retries_ok s.
Proof.
  intros Hs. apply (rtc_ind_r retries_ok (∅, [])) in Hs; [done| |eauto using retry_step_ok].
  split; simpl; [|constructor|lia|]; [|by intros tx r Hr]. apply set_eq. intros x. rewrite flying_spec. set_solver.
Qed.

Lemma due_exact records now a :
  NoDup (tx_final <$> records) ->
  fst (due records now a)
  = take (MAX_SUBMISSION_RETRIES - in_flight_count a)
      (filter (fun tx => eligible now a tx = true) (tx_final <$> filter (fun r => wants_retry r = true) records)).
Proof.
  intros Hnd. unfold due. set (pending := tx_final <$> _). rewrite due_loop_exact.
  - rewrite !in_flight_count_flying, flying_filter. f_equal. apply filter_ext_in. intros x Hx.
    unfold eligible. destruct (a !! x) as [r|] eqn:Hr.
    + rewrite (map_lookup_filter_Some_2 _ a x r Hr); [done|]. by right.
    + by rewrite (map_lookup_filter_None_2 _ a x); [|left].
  - eapply sublist_NoDup; [exact Hnd|]. apply fmap_sublist, sublist_filter.
Qed.

(** C39: retries of cut-off submissions. However passes and completions follow
    each other, at most four retries are under way, no transaction is retried
    twice at once, every delay is the first one doubled up to a minute, and a
    pass starts exactly the first transactions whose delay is over, as many as
    slots are free. *)
Theorem submission_retries_bounded s :
  rtc retry_step (∅, []) s ->
  NoDup (snd s) /\ (length (snd s) <= MAX_SUBMISSION_RETRIES)%nat
  /\ (forall tx, tx ∈ snd s <-> exists r, fst s !! tx = Some r /\ in_flight r = true)
  /\ delays_ok (fst s)
  /\ forall records now, NoDup (tx_final <$> records) ->
       fst (due records now (fst s))
       = take (MAX_SUBMISSION_RETRIES - length (snd s))
           (filter (fun tx => eligible now (fst s) tx = true)
              (tx_final <$> filter (fun r => wants_retry r = true) records)).
Proof.
  intros Hs. destruct (retries_reachable s Hs) as [Hf Hnd Hb Hd]. split_and!; [done..| |done|].
  - intros tx. rewrite <-flying_spec, Hf. by rewrite elem_of_list_to_set.
  - intros records now Hrec. by rewrite due_exact, in_flight_count_flying, Hf, size_list_to_set.
Qed.

(** ** Finished transactions are announced *)

(** An event told of the transaction in this state. *)
Definition announced (h : EventHub) (tx : string) (st : TransactionState) : Prop :=
  exists r, EvTransaction r ∈ event <$> sent h /\ tx_final r = tx /\ state r = st.

(** Only events are added. *)
Definition later (h h' : EventHub) : Prop := sent h `prefix_of` sent h'.
#[local] Instance later_preorder : PreOrder later.
Proof. split; [intros h; unfold later; reflexivity|]. intros h1 h2 h3. unfold later. apply transitivity. Qed.

Lemma announced_later h h' tx st : later h h' -> announced h tx st -> announced h' tx st.
Proof.
  intros [l Hl] (r & Hr & Htx & Ht). exists r. split; [|done]. rewrite Hl, fmap_app. apply elem_of_app. by left.
Qed.

Lemma later_publish e h : later h (publish e h).
Proof. by exists [{| seq := next_seq h; event := e |}]. Qed.

Lemma announced_now r h : announced (publish (EvTransaction r) h) (tx_final r) (state r).
Proof. exists r. split; [|done]. simpl. rewrite fmap_app. apply elem_of_app. right. by left. Qed.

Section Announcing.
Context `{Clients, Pod2, !CreationProofs, !Ticks} (catalog : ActionCatalog).

Definition set_world (w : World) (d : Daemon) : Daemon :=
  MkDaemon _ (MkHome _ w (imported_keys (home d))) (hub d) (attempts d) (published_terminal d) (woken d).

Lemma wp_at_home {A} (c : eff Home A) Q E d :
  let put h := MkDaemon _ h (hub d) (attempts d) (published_terminal d) (woken d) in
  wp c (fun a h => Q a (put h)) (fun e h => E e (put h)) (home d) -> wp (at_home c) Q E d.
Proof. unfold wp, at_home. by destruct (c (home d)) as [[a|e] h]. Qed.

Lemma wp_on_driver {A} (c : eff World A) Q E d :
  wp c (fun a w => Q a (set_world w d)) (fun e w => E e (set_world w d)) (world (home d)) ->
  wp (on_driver c) Q E d.
Proof. unfold wp, on_driver, at_home, in_store. by destruct (c (world (home d))) as [[a|e] w]. Qed.

(** Only the files of the store may differ: not the transactions, the events
    or what was published. *)
Definition as_before (d0 d : Daemon) : Prop :=
  same_tx (world (home d0)) (world (home d)) /\ hub d = hub d0 /\ published_terminal d = published_terminal d0.

Lemma as_before_refl d : as_before d d.
Proof. by repeat split. Qed.

Lemma as_before_driver {A} d0 (c : eff World A) :
  (forall I, preserves (framed I) c) -> preserves (as_before d0) (on_driver c).
Proof.
  intros Hc d (Hs & Hh & Hp). apply wp_on_driver. eapply wp_mono; [apply (wp_framed c _ _ Hc Hs)|..]; done.
Qed.

Lemma as_before_summarize d0 entries : preserves (as_before d0) (summarize catalog entries).
Proof.
  intros d (Hs & Hh & Hp). unfold summarize. apply wp_get, wp_at_home. revert Hs. generalize (home d). intros h Hs.
  apply (wp_mono _ (fun _ h' => same_tx (world (home d0)) (world h')) _ (fun _ h' => same_tx (world (home d0)) (world h')));
    [|done..].
  revert h Hs. unfold summaries, load_imported_keys. keeps.
  clear h Hs. intros h Hs. apply wp_in_store. by apply (wp_framed fs_read _ _ ltac:(auto with don) Hs).
Qed.

Lemma each_announces {A} (f : A -> Event) l d :
  wp (each (fun a => announce (f a)) l)
    (fun _ d' => home d' = home d /\ published_terminal d' = published_terminal d /\ later (hub d) (hub d'))
    (fun _ _ => False) d.
Proof.
  apply (wp_fold _ (fun _ _ d' => home d' = home d /\ published_terminal d' = published_terminal d /\ later (hub d) (hub d'))).
  - split_and!; [done..|reflexivity].
  - intros pre a [] d' (Hh & Hp & Hl). unfold announce, modify, wp. cbn. split_and!; [done..|].
    etrans; [exact Hl|apply later_publish].
Qed.

(** What [publish_outcome] leaves: the records of [l] are announced. *)
Record told (d : Daemon) (l : list TransactionRecord) (d' : Daemon) : Prop := {
  td_home : home d' = home d;
  td_later : later (hub d) (hub d');
  td_announced r : r ∈ l -> announced (hub d') (tx_final r) (state r);
  td_published tx : tx ∈ published_terminal d' ->
    tx ∈ published_terminal d \/ exists r, r ∈ l /\ tx_final r = tx /\ is_terminal (state r) = true;
}.

Lemma told_more d l d1 d' :
  told d l d1 -> home d' = home d1 -> published_terminal d' ⊆ published_terminal d1 -> later (hub d1) (hub d') ->
  told d l d'.
Proof.
  intros [Hh Hl Ha Hp] Hh' Hp' Hl'. split; [by rewrite Hh'|by etrans| |by intros tx ?%Hp'; apply Hp].
  intros r Hr. eapply announced_later; [done|by apply Ha].
Qed.

Lemma each_told {A} (f : A -> Event) l d recs_ d1 :
  told d recs_ d1 -> wp (each (fun a => announce (f a)) l) (fun _ d' => told d recs_ d') (fun _ _ => False) d1.
Proof.
  intros Hd. eapply wp_mono; [apply each_announces| |done]. intros [] d' (Hh & Hp & Hl).
  eapply told_more; [done|done|by rewrite Hp|done].
Qed.

Lemma publish_outcome_told o d :
  wp (publish_outcome o) (fun _ d' => told d (ot_records o) d') (fun _ _ => False) d.
Proof.
  unfold publish_outcome. apply wp_bind.
  eapply wp_mono; [apply (wp_fold _ (fun pre _ d' => told d pre d') (fun _ _ => False))| |done].
  { split; [done|reflexivity|by intros r ?%not_elem_of_nil|by left]. }
  { intros pre r [] d1 [Hh Hl Ha Hp]. unfold announce, modify, ebind, eret, wp.
    assert (forall x, x ∈ pre ++ [r] -> announced (publish (EvTransaction r) (hub d1)) (tx_final x) (state x)) as Hall.
    { intros x [Hx|Hx%list_elem_of_singleton]%elem_of_app; [|subst x; apply announced_now].
      eapply announced_later; [apply later_publish|by apply Ha]. }
    assert (forall x, x ∈ pre -> x ∈ pre ++ [r]) as Hpre by (intros; apply elem_of_app; by left).
    destruct (is_terminal (state r)) eqn:Ht; cbn; (split; cbn;
      [done|etrans; [exact Hl|apply later_publish]|exact Hall|]); intros tx Htx.
    - apply elem_of_union in Htx as [->%elem_of_singleton|Htx].
      + right. exists r. split; [|done]. apply elem_of_app. right. by left.
      + destruct (Hp tx Htx) as [|(x & Hx & ?)]; [by left|]. right. exists x. split; [by apply Hpre|done].
    - destruct (Hp tx Htx) as [|(x & Hx & ?)]; [by left|]. right. exists x. split; [by apply Hpre|done]. }
  intros [] d1 Hd1. apply wp_bind. unfold modify, wp at 1.
  set (d2 := set_published _ d1).
  assert (told d (ot_records o) d2) as Hd2.
  { eapply told_more; [exact Hd1|done|subst d2; cbn; set_solver|]. reflexivity. }
  clearbody d2. clear d1 Hd1.
  apply wp_bind. eapply wp_mono; [apply each_told, Hd2| |done]. intros [] d3 Hd3.
  apply wp_bind. eapply wp_mono; [apply each_told, Hd3| |done]. intros [] d4 Hd4.
  by apply each_told.
Qed.

(** *** A settlement reports what it finished *)

Abbreviation on_disk := (fun w : World => recs (transactions w)).

(** The records of [l] are on disk, in the same state. *)
Definition reported (l : list TransactionRecord) (m : Recs) : Prop :=
  forall c, c ∈ l -> exists r, m !! tx_final c = Some r /\ state r = state c.

(** No record is new, and the finished ones are in the state they were in. *)
Definition stable (m0 m : Recs) : Prop :=
  forall key r, m !! key = Some r -> exists r0, m0 !! key = Some r0 /\ (is_terminal (state r0) = true -> state r = state r0).

#[local] Instance stable_preorder : PreOrder stable.
Proof.
  split; [intros m key r Hr; by exists r|]. intros m1 m2 m3 H12 H23 key r Hr.
  destruct (H23 key r Hr) as (r2 & Hr2 & Hs2). destruct (H12 key r2 Hr2) as (r1 & Hr1 & Hs1). exists r1. split; [done|].
  intros Ht. pose proof (Hs1 Ht) as Heq. rewrite <-Heq. apply Hs2. by rewrite Heq.
Qed.

Lemma from_stable m0 o0 D m o : from m0 o0 nothing D m o -> stable m0 m.
Proof.
  intros Hf key r Hr. destruct (fr_records _ _ _ _ _ _ Hf key r Hr) as [_ [(r0 & Hr0 & Hs)|[_ []]]].
  exists r0. split; [done|]. intros Ht. by destruct (rs_terminal _ _ Hs Ht).
Qed.

Definition sound (w : World) : Prop := untorn (transactions w) /\ inv (on_disk w) (owners w).

Lemma sound_same w w' : same_tx w w' -> sound w -> sound w'.
Proof. intros [Ht Ho]. unfold sound. by rewrite Ht, Ho. Qed.

Lemma sound_from w D w' : sound w -> tracked (from (on_disk w) (owners w) nothing D) w' -> sound w'.
Proof. intros [_ Hi] [Hu Hf]. split; [done|]. by eapply from_inv. Qed.

Lemma framed_read_object_files I names : preserves (framed I) (read_object_files names).
Proof. induction names as [|f names IH]; simpl; keeps; auto with don. Qed.

Lemma framed_fetch_jobs I : preserves (framed I) fetch_relayer_jobs.
Proof.
  assert (forall records acc, preserves (framed I) (fetch_relayer_jobs_of records acc)) as Hof.
  { intros records. induction records as [|r records IH]; intros acc; simpl; keeps; auto with don. }
  unfold fetch_relayer_jobs. keeps; auto with don.
Qed.

Lemma framed_settle_query I all jobs : preserves (framed I) (settle_query all jobs).
Proof.
  pose proof (framed_read_object_files I).
  unfold settle_query, query_statuses, query_membership, fetch_missing_creation_proofs, fetch_creation_proofs.
  keeps; auto with don.
Qed.

Lemma settle_with_spec all jobs w :
  sound w ->
  let P w' := sound w' /\ stable (on_disk w) (on_disk w') in
  wp (settle_with all jobs) (fun o w' => P w' /\ reported (so_records (fst o)) (on_disk w')) (fun _ => P) w.
Proof.
  intros Hw P. unfold settle_with. apply wp_bind.
  assert (forall w1, same_tx w w1 -> P w1) as Hsame.
  { intros w1 Hs. split; [exact (sound_same _ _ Hs Hw)|]. destruct Hs as [-> _]. reflexivity. }
  eapply wp_mono; [apply (wp_framed _ w w (fun I => framed_settle_query I all jobs)); done| |by intros e w1 Hs; apply Hsame].
  intros [snap|] w1 Hs1; [|apply wp_ret; split; [by apply Hsame|by intros c ?%not_elem_of_nil]].
  destruct (Hsame w1 Hs1) as [[Hu Hi] _].
  assert (forall w2, tracked (from (on_disk w1) (owners w1) nothing nothing) w2 -> P w2) as Hfrom.
  { intros w2 Hf. split; [by apply (sound_from w1 nothing)|]. destruct Hs1 as [Hs1 _]. rewrite <-Hs1.
    eapply from_stable, Hf. }
  eapply wp_mono; [apply wp_conj; [by apply settle_apply_from|by apply settle_apply_filed]|..].
  - intros o w2 [Hf Hset]. split; [by apply Hfrom|exact Hset].
  - intros e w2 [Hf _]. by apply Hfrom.
Qed.

(** *** The records no event announced *)

Lemma unpublished_covers published changed records :
  let l := unpublished published changed records in
  (forall c, c ∈ l -> c ∈ changed \/ c ∈ records) /\ changed ⊆ l
  /\ forall r, r ∈ records -> is_terminal (state r) = true ->
       tx_final r ∈ published \/ exists c, c ∈ l /\ tx_final c = tx_final r.
Proof.
  unfold unpublished. revert changed. induction records as [|x records IH]; intros changed; csimpl.
  { split_and!; [by left|done|by intros r ?%not_elem_of_nil]. }
  match goal with |- context [foldl _ ?x records] => set (step := x) end. destruct (IH step) as (Hin & Hsub & Hcov).
  assert (changed ⊆ step) as Hch by (subst step; destruct (_ && _); set_solver).
  split_and!; [|set_solver|].
  - intros c Hc. destruct (Hin c Hc) as [Hs|]; [|set_solver]. subst step. destruct (_ && _); set_solver.
  - intros r [->|Hr]%elem_of_cons Ht; [|by apply Hcov].
    destruct (decide (tx_final x ∈ published)) as [|Hp]; [by left|]. right.
    destruct (existsb _ changed) eqn:Hex.
    + apply existsb_exists in Hex as (c & Hc & Heq%bool_decide_eq_true). exists c. split; [|done].
      apply Hsub, Hch. by apply list_elem_of_In.
    + exists x. split; [|done]. apply Hsub. subst step. rewrite Ht, (bool_decide_false _ Hp). simpl. set_solver.
Qed.

(** The listing of the transactions cannot fail while reads succeed. *)
Lemma load_records_total w :
  reads_ok ->
  wp load_records
    (fun l w' => same_tx w w' /\ (forall r, r ∈ l -> exists key, on_disk w !! key = Some r)
       /\ forall key r, on_disk w !! key = Some r -> r ∈ l) (fun _ _ => False) w.
Proof.
  intros Hreads.
  assert (forall w, wp fs_read (fun _ _ => True) (fun _ _ => False) w) as Hread.
  { intros w1. destruct (fs_read_ok w1 Hreads) as [e He]. unfold wp. by rewrite He. }
  eapply wp_mono; [apply wp_conj; [by apply (load_records_spec w w)|]|..].
  - instantiate (1 := fun _ _ => False). instantiate (1 := fun _ _ => True).
    unfold load_records. apply wp_bind. eapply wp_mono; [apply Hread| |done]. intros _ w1 _. apply wp_get, wp_bind.
    eapply wp_mono; [apply (wp_fold _ (fun _ _ _ => True) (fun _ _ => False))| |done]; [done| |done].
    intros pre entry acc w2 _. unfold load_record_entry. apply wp_bind.
    eapply wp_mono; [apply Hread| |done]. intros _ w3 _. destruct (record (snd entry)) as [c|]; [|done].
    apply wp_bind, wp_try. unfold read_record_file. apply wp_bind.
    eapply wp_mono; [apply Hread| |done]. intros _ w4 _. by destruct c.
  - intros l w1 ((Hs & Hin & Hall) & _). split_and!; [done|..].
    + intros r Hr. destruct (Hin r Hr) as [key Hk]. exists key. by rewrite recs_lookup.
    + intros key r Hr. apply (Hall Hreads key). by rewrite <-recs_lookup.
  - by intros e w1 [_ []].
Qed.

Lemma list_transactions_total d :
  reads_ok ->
  wp list_transactions
    (fun l d' => as_before d d' /\ (forall r, r ∈ l -> exists key, on_disk (world (home d)) !! key = Some r)
       /\ forall key r, on_disk (world (home d)) !! key = Some r -> r ∈ l) (fun _ _ => False) d.
Proof.
  intros Hreads. apply wp_on_driver. eapply wp_mono; [by apply load_records_total| |done].
  intros l w' (Hs & Hl). split; [|done]. by repeat split; destruct Hs.
Qed.

(** Every finished record on disk is announced or about to be. *)
Definition covered (d : Daemon) (o : Outcome) : Prop :=
  reported (ot_records o) (on_disk (world (home d)))
  /\ forall key r, on_disk (world (home d)) !! key = Some r -> is_terminal (state r) = true ->
       key ∈ published_terminal d \/ exists c, c ∈ ot_records o /\ tx_final c = key.

Lemma add_unpublished_covers o d :
  reads_ok -> sound (world (home d)) -> reported (ot_records o) (on_disk (world (home d))) ->
  wp (add_unpublished_terminal o)
    (fun o' d' => covered d' o' /\ same_tx (world (home d)) (world (home d')) /\ hub d' = hub d
       /\ published_terminal d' ⊆ published_terminal d) (fun _ _ => False) d.
Proof.
  intros Hreads [_ Hi] Hrep. unfold add_unpublished_terminal. apply wp_bind.
  eapply wp_mono; [by apply list_transactions_total| |done]. intros records d1 ((Hs & Hh & Hp) & Hin & Hall).
  apply wp_bind. unfold modify, wp at 1. apply wp_get, wp_ret. simpl.
  destruct (unpublished_covers (filter (fun tx => tx ∈ tx_final <$> records) (published_terminal d1)) (ot_records o) records)
    as (Hfrom & _ & Hcov). unfold covered. simpl. destruct Hs as [Hs Ho]. rewrite Hs, Hp. rewrite Hp in Hfrom, Hcov.
  split_and!; [| |done..|set_solver].
  - intros c Hc. destruct (Hfrom c Hc) as [Hc'|Hc']; [by eapply Hrep|].
    destruct (Hin c Hc') as [key Hk]. pose proof (rw_key _ _ (inv_wf _ _ Hi _ _ Hk)) as Hkey. subst key. by exists c.
  - intros key r Hr Ht. pose proof (rw_key _ _ (inv_wf _ _ Hi _ _ Hr)) as <-. apply Hcov; [by eapply Hall|done].
Qed.

(** A pass before it publishes: the events are those of [d0]. *)
Record silent (d0 d : Daemon) : Prop := {
  sl_sound : sound (world (home d));
  sl_hub : hub d = hub d0;
  sl_published : published_terminal d ⊆ published_terminal d0;
  sl_stable : stable (on_disk (world (home d0))) (on_disk (world (home d)));
}.

Lemma silent_before d0 d d' : silent d0 d -> as_before d d' -> silent d0 d'.
Proof.
  intros [Hs Hh Hp Hst] (Hs' & Hh' & Hp'). split; [by eapply sound_same|by rewrite Hh'|by rewrite Hp'|].
  by destruct Hs' as [-> _].
Qed.

Lemma settle_reports jobs d0 d :
  silent d0 d ->
  wp (let! (o, _) := on_driver (settle_with false jobs) in outcome_of catalog o)
    (fun o d' => silent d0 d' /\ reported (ot_records o) (on_disk (world (home d')))) (fun _ => silent d0) d.
Proof.
  intros [Hs Hh Hp Hst]. apply wp_bind, wp_on_driver.
  assert (forall w, sound w /\ stable (on_disk (world (home d))) (on_disk w) -> silent d0 (set_world w d)) as Hsil.
  { intros w [Hw Hst']. split; [done..|]. by etrans. }
  eapply wp_mono; [by apply settle_with_spec|..]; [|intros e w1 Hw1; by apply Hsil].
  intros [o entries] w1 [Hw1 Hrep]. simpl in Hrep. pose proof (Hsil w1 Hw1) as Hd1.
  change w1 with (world (home (set_world w1 d))) in Hrep. revert Hd1 Hrep. generalize (set_world w1 d). clear d Hs Hh Hp Hst Hsil w1 Hw1.
  intros d Hd Hrep. unfold outcome_of. apply wp_bind.
  eapply wp_mono; [apply (as_before_summarize d), as_before_refl|..].
  - intros objects d1 Hd1. apply wp_ret. simpl. split; [by eapply silent_before|].
    destruct Hd1 as ((Ht & _) & _). by rewrite Ht.
  - intros e d1 Hd1. by eapply silent_before.
Qed.

(** Pruning removes finished transactions and finishes none. *)
Lemma prune_keeps_announced d0 d :
  silent d0 d ->
  let P d' := silent d0 d' /\ published_terminal d' = published_terminal d
              /\ stable (on_disk (world (home d))) (on_disk (world (home d')))
              /\ none_finished (on_disk (world (home d))) (on_disk (world (home d'))) in
  wp (prune_with_summaries catalog) (fun _ => P) (fun _ => P) d.
Proof.
  intros Hd P. unfold prune_with_summaries.
  assert (forall d1, as_before d d1 -> P d1) as Hsame.
  { intros d1 Hd1. split_and!; [by eapply silent_before|by apply Hd1|..]; destruct Hd1 as ((Ht & _) & _); rewrite Ht.
    - reflexivity.
    - intros key r Hr Hrt. by exists r. }
  apply wp_bind. eapply wp_mono; [apply (as_before_driver d); [auto with don|apply as_before_refl]| |auto].
  intros now d1 Hd1. destruct (silent_before _ _ _ Hd Hd1) as [[Hu Hi] Hh Hp Hst].
  assert (forall w, tracked (from (on_disk (world (home d1))) (owners (world (home d1))) nothing settled) w ->
    tracked (fun m _ => none_finished (on_disk (world (home d1))) m) w -> P (set_world w d1)) as Hpruned.
  { intros w Hf [_ Hn]. pose proof (from_stable _ _ _ _ _ (proj2 Hf)) as Hst'. destruct Hd1 as ((Ht & _) & _ & Hp1).
    split_and!; [|by simpl|simpl; by rewrite <-Ht|simpl; by rewrite <-Ht].
    split; [by apply (sound_from (world (home d1)) settled)|done..|]. simpl. by etrans. }
  apply wp_bind, wp_on_driver. eapply wp_mono; [apply wp_conj; [by apply prune_from|by apply prune_finishes_none]|..].
  - intros pruned w [Hf Hn]. specialize (Hpruned w Hf Hn). revert Hpruned. generalize (set_world w d1). intros d2 Hd2.
    assert (forall d3, as_before d2 d3 -> P d3) as Hafter.
    { intros d3 Hd3. destruct Hd2 as (Hs2 & Hp2 & Hst2 & Hn2). destruct (Hd3) as ((Ht & _) & _ & Hp3).
      split_and!; [by eapply silent_before|by rewrite Hp3|by rewrite Ht..]. }
    apply wp_bind. eapply wp_mono; [apply (as_before_summarize d2), as_before_refl| |auto].
    intros objects d3 Hd3. apply wp_ret. auto.
  - intros e w [Hf Hn]. by apply Hpruned.
Qed.

(** What the daemon keeps of the transactions it announced: each was announced
    in a final state, in which it still is if it is on disk. *)
Definition believed (d : Daemon) : Prop :=
  forall tx, tx ∈ published_terminal d ->
    exists st, is_terminal st = true /\ announced (hub d) tx st
      /\ forall r, on_disk (world (home d)) !! tx = Some r -> state r = st.

Definition fine (d d' : Daemon) : Prop :=
  sound (world (home d')) /\ later (hub d) (hub d') /\ believed d'
  /\ forall key r, on_disk (world (home d')) !! key = Some r -> is_terminal (state r) = true ->
       announced (hub d') key (state r).

(** Later in a pass the published transactions are still in their states. *)
Lemma believed_silent d0 d h :
  believed d0 -> silent d0 d -> later (hub d0) h ->
  forall tx, tx ∈ published_terminal d -> exists st, is_terminal st = true /\ announced h tx st
    /\ forall r, on_disk (world (home d)) !! tx = Some r -> state r = st.
Proof.
  intros Hb [_ _ Hp Hst] Hl tx Htx. destruct (Hb tx (Hp tx Htx)) as (st & Ht & Ha & Hdisk). exists st.
  split_and!; [done|by eapply announced_later|]. intros r Hr. destruct (Hst tx r Hr) as (r0 & Hr0 & Hs).
  pose proof (Hdisk r0 Hr0) as <-. by apply Hs.
Qed.

Lemma publish_fine d0 d1 d o o' :
  believed d0 -> covered d1 o -> silent d0 d -> published_terminal d = published_terminal d1 ->
  stable (on_disk (world (home d1))) (on_disk (world (home d))) ->
  none_finished (on_disk (world (home d1))) (on_disk (world (home d))) -> ot_records o' = ot_records o ->
  wp (publish_outcome o') (fun _ => fine d0) (fun _ _ => False) d.
Proof.
  intros Hann [Hrep Hcov] Hsil Hp1 Hst Hn Heq. eapply wp_mono; [apply publish_outcome_told| |done].
  intros [] d' [Hhome Hl Ha Hpub]. rewrite Heq in Ha, Hpub. rewrite (sl_hub _ _ Hsil) in Hl.
  pose proof (believed_silent d0 d (hub d') Hann Hsil Hl) as Hold.
  assert (forall c r, c ∈ ot_records o -> is_terminal (state c) = true ->
    on_disk (world (home d)) !! tx_final c = Some r -> state r = state c) as Hsame.
  { intros c r Hc Ht Hr. destruct (Hrep c Hc) as (r1 & Hr1 & Hs1). destruct (Hst _ _ Hr) as (r2 & Hr2 & Hs2).
    rewrite Hr1 in Hr2. injection Hr2 as <-. rewrite <-Hs1 in Ht |- *. by apply Hs2. }
  unfold fine, believed. rewrite Hhome. split_and!; [apply Hsil|done|..].
  - intros tx Htx. destruct (Hpub tx Htx) as [|(r & Hr & <- & Ht)]; [by apply Hold|].
    exists (state r). split_and!; [done|by apply Ha|]. intros x Hx. by apply Hsame.
  - intros key r Hr Ht. destruct (Hn key r Hr Ht) as (r0 & Hr0 & Ht0).
    destruct (Hcov key r0 Hr0 Ht0) as [Hin|(c & Hc & <-)].
    + rewrite <-Hp1 in Hin. destruct (Hold key Hin) as (st & _ & Hst' & Hdisk). by rewrite (Hdisk r Hr).
    + destruct (Hrep c Hc) as (r1 & Hr1 & Hs1). rewrite Hr0 in Hr1. injection Hr1 as <-.
      rewrite (Hsame c r Hc ltac:(by rewrite <-Hs1) Hr). by apply Ha.
Qed.

Lemma wp_caught {S A} (c : eff S A) (Q : result string A -> S -> Prop) s :
  wp c (fun a => Q (Ok a)) (fun f s => forall m, f = Fail m -> Q (Err m) s) s ->
  wp (etry c) Q (fun f _ => exists m, f = Panic m) s.
Proof.
  intros Hc. apply wp_try. eapply wp_mono; [exact Hc|done|]. intros [m|m] s' Hs; [by apply Hs|by exists m].
Qed.

Lemma pass_fine d :
  reads_ok -> sound (world (home d)) -> believed d ->
  wp (pass catalog) (fun _ => fine d) (fun f d' => match f with Panic _ => True | Fail _ => fine d d' end) d.
Proof.
  intros Hreads Hsound Hann. assert (silent d d) as Hd by by split. unfold pass.
  set (E := fun f d' => match f with Panic _ => True | Fail _ => fine d d' end).
  assert (forall f d', (exists m, f = Panic m) -> E f d') as HE by by intros f d' [m ->].
  apply wp_bind. eapply wp_mono; [apply (wp_caught _ (fun _ => silent d))| |exact HE].
  { eapply wp_mono; [apply (as_before_driver d); [intros I; apply framed_fetch_jobs|apply as_before_refl]|..];
      intros ? d1 Hd1; intros; by eapply silent_before. }
  intros jobs d1 Hd1. apply wp_bind.
  eapply wp_mono; [apply (wp_caught _ (fun r d' => silent d d' /\ forall o, r = Ok o -> reported (ot_records o) (on_disk (world (home d')))))| |exact HE].
  { eapply wp_mono; [by apply (settle_reports _ d)|..]; [|by intros e d2 Hd2 m _].
    intros o d2 [Hd2 Hrep]. split; [done|]. by intros o' [= <-]. }
  intros settled d2 [Hd2 Hset]. apply wp_bind.
  eapply (wp_mono _ (fun o d' => silent d d' /\ reported (ot_records o) (on_disk (world (home d')))) _ (fun _ _ => False)); [| |done].
  { destruct settled as [o|m]; [apply wp_ret; split; [done|by apply Hset]|]. apply wp_bind.
    eapply wp_mono; [by apply list_transactions_total| |done]. intros records d3 [Hd3 _]. apply wp_ret.
    split; [by eapply silent_before|by intros c ?%not_elem_of_nil]. }
  intros outcome d3 [[Hs3 Hh3 Hp3 Hst3] Hrep]. apply wp_bind.
  eapply wp_mono; [apply (wp_caught _ (fun r d' => exists o, r = Ok o /\ covered d' o /\ silent d d'))| |exact HE].
  { eapply wp_mono; [by apply add_unpublished_covers| |done]. intros o d4 (Hcov & Hs4 & Hh4 & Hp4). exists o.
    split; [done|split; [exact Hcov|]].
    split; [by eapply sound_same|by rewrite Hh4|by etrans|]. by destruct Hs4 as [-> _]. }
  intros _ d4 (o & -> & Hcov & Hd4). apply wp_bind.
  eapply wp_mono; [apply (wp_caught _ (fun _ d' => silent d d' /\ published_terminal d' = published_terminal d4
      /\ stable (on_disk (world (home d4))) (on_disk (world (home d')))
      /\ none_finished (on_disk (world (home d4))) (on_disk (world (home d')))))| |exact HE].
  { eapply wp_mono; [by apply (prune_keeps_announced d)|..]; auto. }
  intros pruned d5 (Hd5 & Hp5 & Hst5 & Hn).
  destruct pruned as [[pruned objects]|m]; apply wp_bind;
    (apply (wp_mono _ (fun _ => fine d) _ (fun _ _ => False)); [by apply (publish_fine d d4 d5 o)|by intros []|done]).
Qed.

(** C17: no finished transaction goes unannounced. While no read of the disk
    fails, a pass that does not panic leaves every finished transaction on disk
    announced by an event that carries its final state, whatever the network
    answers and also when settlement or pruning fails half way; and what the
    daemon remembers as announced was announced in the final state it is in. *)
Theorem finished_transactions_announced d res d' :
  reads_ok -> sound (world (home d)) -> believed d ->
  pass catalog d = (res, d') -> (forall m, res <> Err (Panic m)) ->
  sound (world (home d')) /\ later (hub d) (hub d') /\ believed d'
  /\ forall key r, on_disk (world (home d')) !! key = Some r -> is_terminal (state r) = true ->
       announced (hub d') key (state r).
Proof.
  intros Hreads Hs Hann Hpass Hres. pose proof (pass_fine d Hreads Hs Hann) as Hp. unfold wp in Hp. rewrite Hpass in Hp.
  destruct res as [o|[m|m]]; [exact Hp|exact Hp|]. by destruct (Hres m).
Qed.
End Announcing.

(** ** When the next pass runs *)

(** The daemon sleeps without a deadline only if nothing is open and nothing
    waits for cleanup; otherwise it is up in time for both. *)
Lemma next_pass_in_time o now :
  (next_pass_delay o now = None <-> ot_open_records o = 0%nat /\ ot_next_cleanup_at_ms o = None)
  /\ forall delay, next_pass_delay o now = Some delay ->
       0 < delay
       /\ ((0 < ot_open_records o)%nat -> delay <= UNATTEMPTED_CHECK_INTERVAL)
       /\ ((ot_unattempted_records o < ot_open_records o)%nat -> delay <= SETTLE_INTERVAL)
       /\ forall deadline, ot_next_cleanup_at_ms o = Some deadline ->
            delay <= from_millis (Z.max (saturating_sub_u64 deadline now) 1).
Proof.
  unfold next_pass_delay, UNATTEMPTED_CHECK_INTERVAL, SETTLE_INTERVAL, from_millis, from_secs.
  destruct (ot_open_records o) as [|n]; destruct (Nat.ltb_spec (ot_unattempted_records o) 0), (ot_next_cleanup_at_ms o);
    try (destruct (Nat.ltb_spec (ot_unattempted_records o) (S n))); simpl; split; naive_solver lia.
Qed.

Module Sample.
Import ToyDriver Toy. Import DriverObjects.Sample(toy_proofs, shop).
#[local] Existing Instances toy_machine toy_pod2 toy_proofs.
#[local] Instance late_clients : @Clients toy_machine := {|
  load_settings e := (Ok tt, e); fetch_head e := (Ok 100000, e); fetch_tx_status _ e := (Err (Fail "down"), e);
  fetch_membership _ _ e := (Err (Fail "down"), e); fetch_grounding_witness _ e := (Err (Fail "down"), e);
  submit_proof _ _ e := (Err (Fail "down"), e); fetch_job_status _ e := (Err (Fail "down"), e);
  is_unreachable _ := true |}.
#[local] Instance toy_ticks : @Ticks toy_machine := {| instant e := (e, e) |}.

Definition retrying : TransactionRecord :=
  set_attempted (Some 1) (recorded "aa" q "me" [] [] "root" 5 [] [] 0).
Definition first_pass : list string * SubmissionRetries := due [retrying] 0 ∅.
Definition second_pass : list string * SubmissionRetries := due [retrying] SETTLE_INTERVAL (snd first_pass).

Lemma retries_witness :
  fst second_pass = ["aa"]
  /\ fst (due [retrying] SETTLE_INTERVAL (snd second_pass)) = take 3 (filter
       (fun tx => eligible SETTLE_INTERVAL (snd second_pass) tx = true) ["aa"]).
Proof.
  assert (rtc retry_step (∅, []) (snd second_pass, ["aa"])) as Hrun.
  { eapply rtc_l; [exact (retry_due [retrying] 0 ∅ [])|].
    eapply rtc_l; [exact (retry_due [retrying] SETTLE_INTERVAL _ _)|].
    apply (eq_rect_r (fun x => rtc retry_step x _) (rtc_refl _ _)). vm_compute. reflexivity. }
  split; [vm_compute; reflexivity|].
  exact (proj2 (proj2 (proj2 (proj2 (submission_retries_bounded _ Hrun)))) [retrying] SETTLE_INTERVAL (NoDup_singleton _)).
Defined.

Definition daemon : Daemon := MkDaemon _ (MkHome _ w_recorded []) EventHub_new ∅ ∅ false.
Definition passed : Result Outcome * Daemon := pass shop daemon.

Lemma announced_witness :
  exists r, recs (transactions (world (home (snd passed)))) !! transaction_dir (MkHash 1 2 3 4) = Some r
    /\ is_terminal (state r) = true /\ announced (hub (snd passed)) (transaction_dir (MkHash 1 2 3 4)) (state r).
Proof.
  pose proof (@reachable_inv _ toy_clients _ _ toy_pod2_laws w_sword
    (w_recorded, []) ltac:(intros e; reflexivity) eq_refl eq_refl toy_driver_run) as Hs.
  assert (sound (world (home daemon))) as Hsound by exact (conj (si_untorn _ Hs) (si_records _ Hs)).
  assert ((is_terminal ∘ state) <$> recs (transactions (world (home (snd passed)))) !! transaction_dir (MkHash 1 2 3 4) = Some true) as Hd
    by (vm_compute; reflexivity).
  apply fmap_Some in Hd as (r & Hr & Ht).
  assert (is_ok (fst passed) = true) as Hok by (vm_compute; reflexivity).
  destruct (finished_transactions_announced shop daemon (fst passed) (snd passed) ltac:(intros e; reflexivity) Hsound
    ltac:(intros tx Htx; apply not_elem_of_empty in Htx; destruct Htx) (surjective_pairing passed)
    ltac:(intros m Hm; rewrite Hm in Hok; discriminate Hok)) as (_ & _ & _ & Hann).
  exists r. split; [exact Hr|]. split; [exact (eq_sym Ht)|exact (Hann _ r Hr (eq_sym Ht))].
Defined.
End Sample.
End Settler.
