(* ===== verification/Workers.v ===== *)
(** * The daemon's workers (services/dobjd: state.rs, runs.rs, proof_jobs.rs;
    libs/driver: prove of pipeline.rs)

    A run proves an action, records the transaction, submits it and follows it
    until it is settled; a proof job stops after recording. Both report their
    progress. The other threads of the daemon act between any two calls a worker
    makes: [others] is what they do to the state, and is arbitrary. *)

From Stdlib Require Import Ascii.
From S2P Require Import Prelude Pod2 Models Payload DonState TxModel Replay TxBuilder ObjectNames DriverStore Driver Actions DriverObjects Registry Runs Events Settler.

Module Workers.
Import Runs Payload DonState ObjectNames DriverStore Driver Actions DriverObjects Events Settler.
Import TxBuilder(Tx, tx_ctx, nullifier_hashes, created_commitments).
Local Open Scope Z_scope.

(** ** Definitions *)

Record ExecutionStepContext : Type := {
  sc_stage : option ExecutionStage;
  sc_old_root : option Hash;
  sc_output_files : list string;
  sc_output_status : option ObjectStatus;
}.
Definition no_context : ExecutionStepContext :=
  {| sc_stage := None; sc_old_root := None; sc_output_files := []; sc_output_status := None |}.
Definition at_stage (s : ExecutionStage) : ExecutionStepContext :=
  {| sc_stage := Some s; sc_old_root := None; sc_output_files := []; sc_output_status := None |}.

(** [ExecutionReporter] *)
Record Reporter (S : Type) : Type := {
  on_inputs_held : list string -> eff S unit;
  on_step : ExecutionPhase -> string -> ExecutionStepContext -> eff S unit;
  on_done : ExecutionPhase -> eff S unit;
}.
Arguments on_inputs_held {S}.
Arguments on_step {S}.
Arguments on_done {S}.

(** What proving calls: the synchronizer's grounding witness, the plugin engine
    with the stages it reports, and the payload builder. [is_driver_error] is
    the downcast of an error to [DriverError]. *)
Class Engine `{Machine, Pod2} : Type := {
  Witness : Type;
  Args : Type;
  Pod : Type;
  witness_header : Witness -> StateHeader;
  fetch_witness : list Hash -> eff Env Witness;
  decode_action_args : list (string * string) -> Result Args;
  execute_action : QualifiedName -> Witness -> list Dictionary -> Args ->
    Env -> list ExecutionStage * (Result (Pod * list Dictionary * Tx) * Env);
  build_payload : Hash -> Pod * list Dictionary * Tx -> Result (list byte);
  is_driver_error : string -> bool;
}.

(** The state a worker runs in: the daemon, and the files whose hold was
    announced ([HeldInputs]). *)
Class Hosted `{Machine} (S : Type) : Type := {
  daemon : S -> Daemon;
  set_daemon : Daemon -> S -> S;
  held_files : S -> list string;
  set_held_files : list string -> S -> S;
}.

(** [str::trim] of the paths. *)
Definition trimmed (i : ActionInput) : ActionInput :=
  {| ai_action := ai_action i;
     ai_input_object_paths := (fun p => sol (trim (los p))) <$> ai_input_object_paths i;
     ai_args := ai_args i |}.

Definition execute_input (i : ActionInput) : ExecuteActionInput :=
  {| ei_action := ai_action i; input_objects := ai_input_object_paths i |}.

(** *** Services *)

Section Services.
Context `{Clients, Pod2, !CreationProofs, !Ticks} (catalog : ActionCatalog).

Definition publish_objects (files : list string) : eff Daemon unit :=
  if bool_decide (files = []) then eret tt
  else
    let! l := etry (at_home (read_available_objects catalog files)) in
    match l with
    | Ok summaries => each (fun s => announce (EvObject s)) summaries
    | Err _ => eret tt
    end.

Definition svc_rename_object (path new_name : string) : eff Daemon ObjectSummary :=
  let! summary := at_home (rename_object catalog path new_name) in
  let old_name := match extract_basename path with Ok f => f | Err _ => path end in
  (if negb (bool_decide (os_file_name summary = old_name)) then announce (EvObjectRemoved old_name) else eret tt) ;!
  announce (EvObject summary) ;!
  eret summary.

Definition announce_transaction (r : TransactionRecord) : eff Daemon unit :=
  announce (EvTransaction r) ;! publish_objects (output_files r ++ input_files r) ;! wake.

Definition submit_transaction (h : Hash) : eff Daemon TransactionRecord :=
  let! submission := etry (on_driver (submit h)) in
  match submission with
  | Err m => wake ;! ethrow (Fail m)
  | Ok r => announce_transaction r ;! eret r
  end.

Definition submit_transactions (hs : list Hash) : eff Daemon (list TransactionRecord) :=
  efold (fun acc h => let! r := submit_transaction h in eret (acc ++ [r])) [] hs.

Definition svc_delete_transaction (h : Hash) : eff Daemon TransactionRecord :=
  let! (r, removed) := on_driver (delete_transaction h) in
  announce (EvTransactionDeleted (tx_final r)) ;!
  each (fun f => announce (EvObjectRemoved f)) removed ;!
  publish_objects (input_files r) ;!
  eret r.
End Services.

(** *** Proving and recording *)

Section Proving.
Context `{Clients, Pod2, !CreationProofs, !Ticks, !Engine} (catalog : ActionCatalog).
Context {S : Type} `{!Hosted S} (others : Daemon -> Daemon).

(** A call into the daemon, after whatever the other threads did. *)
Definition on_daemon {A} (c : eff Daemon A) : eff S A := fun s =>
  let '(r, d) := c (others (daemon s)) in (r, set_daemon d s).
Definition now_ms : eff S Z := on_daemon (on_driver clock).

(** A guard dropped only when the scope is left by an error or a panic. *)
Definition on_failure {A} (c : eff S A) (drop : S -> S) : eff S A := fun s =>
  match c s with
  | (Ok a, s') => (Ok a, s')
  | (Err e, s') => (Err e, drop s')
  end.

Definition on_world (f : World -> World) (s : S) : S :=
  let d := daemon s in
  set_daemon (MkDaemon _ (MkHome _ (f (world (home d))) (imported_keys (home d))) (hub d) (attempts d)
    (published_terminal d) (woken d)) s.

(** The part of [prove] under the store lock. *)
Definition claim_inputs (input : ExecuteActionInput) (action : ActionSummary) (owner : string) :
    eff World (list (string * ObjectRecord)) :=
  let! entries := load_object_files in
  let! resolved := elift (resolve_inputs entries input action) in
  let! records := load_records in
  let! _ := take_holds (fst <$> resolved) owner (locked_inputs records) in
  eret resolved.

Definition report_stages (R : Reporter S) (stages : list ExecutionStage) : eff S unit :=
  efold (fun _ st => on_step R GenerateProof (Runs.stage_message st) (at_stage st)) tt stages.

(** Proving with the inputs held. *)
Definition prove_held (R : Reporter S) (input : ExecuteActionInput) (args : Args) (action : ActionSummary)
    (owner : string) (resolved : list (string * ObjectRecord)) : eff S ProvedTransaction :=
  let files := fst <$> resolved in
  on_inputs_held R files ;!
  let! witness := on_daemon (on_driver (on_env
    (fetch_witness ((fun e : string * ObjectRecord => dict_commitment (obj (snd e))) <$> resolved)))) in
  let header := witness_header witness in
  let grounding_root := StateHeader_hash header in
  let! (stages, executed) := on_daemon (on_driver (on_env (fun e =>
    let '(stages, (r, e')) := execute_action (ei_action input) witness ((fun e => obj (snd e)) <$> resolved) args e in
    (Ok (stages, r), e')))) in
  report_stages R stages ;!
  let! (pod, objs, tx) := elift executed in
  if negb (bool_decide (length objs = length (total_outputs action))) then
    ethrow (Fail "action output mismatch")
  else
    on_done R GenerateProof ;!
    on_step R Commit "Shrinking proof"
      {| sc_stage := Some Shrinking; sc_old_root := Some grounding_root; sc_output_files := []; sc_output_status := None |} ;!
    let! bytes := elift (build_payload grounding_root (pod, objs, tx)) in
    eret {| pt_tx_final := dict_commitment (tx_ctx tx); pt_action := ei_action input; pt_owner := owner;
            pt_grounding_root := grounding_root; pt_grounding_block := block_number header;
            outputs := zip_with (fun c o => {| po_class := cr_class c; po_obj := o |}) (total_outputs action) objs;
            pt_nullifiers := nullifier_hashes tx; pt_created := created_commitments tx;
            pt_payload_bytes := bytes; mutated_objects := as_mutated_objects action;
            pt_input_files := files |}.

Definition prove (R : Reporter S) (input : ActionInput) (owner : string) : eff S ProvedTransaction :=
  let ei := execute_input input in
  on_daemon (on_driver (on_env load_settings)) ;!
  let! action := elift (ok_or (get_action catalog (ei_action ei)) ("unknown action: " +:+ display_action (ei_action ei))) in
  elift (validate_execute_request ei action) ;!
  let! args := elift (decode_action_args (ai_args input)) in
  on_step R GenerateProof (Runs.stage_message VerifyingInputs) (at_stage VerifyingInputs) ;!
  let! resolved := on_daemon (on_driver (claim_inputs ei action owner)) in
  on_failure (prove_held R ei args action owner resolved) (on_world (drop_holds (fst <$> resolved))).

(** [HeldInputReporter] *)
Definition holding (R : Reporter S) : Reporter S := {|
  on_inputs_held files :=
    (fun s => (Ok tt, set_held_files files s)) ;! on_daemon (publish_objects catalog files) ;! on_inputs_held R files;
  on_step := on_step R;
  on_done := on_done R |}.

(** The drop of [HeldInputs]. *)
Definition publish_held (s : S) : S := snd (on_daemon (publish_objects catalog (held_files s)) s).

Definition prove_and_record (R : Reporter S) (input : ActionInput) (owner : string) : eff S TransactionRecord :=
  (fun s => (Ok tt, set_held_files [] s)) ;!
  efinally (
    let! proved := prove (holding R) input owner in
    on_failure (on_step R Commit (Runs.stage_message WritingFiles)
      {| sc_stage := Some WritingFiles; sc_old_root := Some (pt_grounding_root proved); sc_output_files := [];
         sc_output_status := None |}) (on_world (drop_holds (pt_input_files proved))) ;!
    let! r := on_daemon (on_driver (record_tx proved)) in
    (fun s => (Ok tt, set_held_files [] s)) ;!
    on_daemon (announce_transaction catalog r) ;!
    eret r) publish_held.
End Proving.

(** *** Runs *)

(** [TransactionState::as_str] *)
Definition state_str (st : TransactionState) : string :=
  match st with Recorded => "recorded" | Submitted => "submitted" | Landed => "landed" | Expired => "expired" end.

Definition progress_event `{Pod2} (id : string) (phase : ExecutionPhase) (st : ProofProgressStatus) (message : string)
    (ctx : ExecutionStepContext) (at_ms : Z) : RunActionProgress :=
  {| pg_run_id := id; pg_phase := phase; pg_status := st; pg_message := message;
     pg_old_root := encode_hash_hex <$> sc_old_root ctx;
     pg_output_files := if bool_decide (sc_output_files ctx = []) then None else Some (sc_output_files ctx);
     pg_output_status := sc_output_status ctx; pg_input_files := None; pg_at_ms := at_ms;
     pg_stage := sc_stage ctx; pg_elapsed_ms := 0 |}.

(** The status of the outputs of a transaction. *)
Definition output_status (st : TransactionState) : ObjectStatus :=
  match st with Recorded | Expired => OUnknown | Submitted => OPending | Landed => OLive end.

Definition waiting_message (r : TransactionRecord) : string :=
  match relayer_failure r with
  | Some _ => "Waiting for the transaction to land or its grounding to expire"
  | None => "Waiting for the transaction to land"
  end.

Definition PREFLIGHT_RETRIES : nat := 2.

Record RunWorker `{Machine} : Type := MkRunWorker { rw_daemon : Daemon; rw_held : list string; run : RunEntry }.
#[global] Instance RunWorker_hosted `{Machine} : Hosted RunWorker := {|
  daemon := rw_daemon; set_daemon d w := MkRunWorker _ d (rw_held w) (run w);
  held_files := rw_held; set_held_files f w := MkRunWorker _ (rw_daemon w) f (run w) |}.

Section Running.
Context `{Clients, Pod2, !CreationProofs, !Ticks, !Engine} (catalog : ActionCatalog) (others : Daemon -> Daemon).
Abbreviation on_daemon := (on_daemon (S := RunWorker) others).

Definition set_run (e : RunEntry) (w : RunWorker) : RunWorker := MkRunWorker _ (rw_daemon w) (rw_held w) e.
Definition on_run {A} (f : RunEntry -> Result (A * RunEntry)) : eff RunWorker A := fun w =>
  match f (run w) with
  | Ok (a, e) => (Ok a, set_run e w)
  | Err e => (Err e, w)
  end.

Definition emit (p : RunActionProgress) : eff RunWorker unit :=
  let! now := on_daemon tick in
  let! p := on_run (push_progress p now) in
  on_daemon (announce (EvRunActionProgress p)).

Definition run_reporter : Reporter RunWorker := {|
  on_inputs_held _ := eret tt;
  on_step phase message ctx :=
    let! at_ms := now_ms others in
    let! w := eget in
    emit (progress_event (run_id (run w)) phase PRunning message ctx at_ms);
  on_done phase :=
    match phase with
    | GenerateProof =>
        let! at_ms := now_ms others in
        let! w := eget in
        emit (progress_event (run_id (run w)) phase PDone "Proof generation complete" no_context at_ms)
    | Commit => eret tt
    end |}.

Definition transaction_progress (r : TransactionRecord) (st : ProofProgressStatus) (message : string)
    (stage : option ExecutionStage) : eff RunWorker unit :=
  let! at_ms := now_ms others in
  let! w := eget in
  emit {| pg_run_id := run_id (run w); pg_phase := Commit; pg_status := st; pg_message := message;
          pg_old_root := Some (grounding_root r); pg_output_files := Some (output_files r);
          pg_output_status := Some (output_status (state r)); pg_input_files := Some (input_files r);
          pg_at_ms := at_ms; pg_stage := stage; pg_elapsed_ms := 0 |}.

Definition run_result (id : string) (r : TransactionRecord) : RunActionResult :=
  {| rr_run_id := id; rr_old_root := grounding_root r; rr_output_files := output_files r; rr_input_files := input_files r |}.

Definition finish_landed (r : TransactionRecord) : eff RunWorker unit :=
  transaction_progress r PDone "Transaction landed" None ;!
  let! now := on_daemon tick in
  let! ms := now_ms others in
  on_run (fun e => let? e' := succeed (run_result (run_id e) r) now ms e in Ok (tt, e')).

Definition finish_failure (message : string) : eff RunWorker unit :=
  let! now := on_daemon tick in
  let! ms := now_ms others in
  let! p := on_run (fail message now ms) in
  on_daemon (announce (EvRunActionProgress p)).

Definition submitted_message (r : TransactionRecord) : string :=
  match state r, relayer_job_id r, relayer_failure r with
  | Submitted, Some job, Some failure => "Relayer job " +:+ job +:+ " failed: " +:+ failure
  | Submitted, Some job, None => "Relayer accepted job " +:+ job
  | st, _, _ => "Transaction " +:+ state_str st
  end.

(** The loop of [submit_record]; [retries] are left. *)
Fixpoint submit_loop (h : Hash) (retries : nat) : eff RunWorker TransactionRecord :=
  let! submission := etry (on_daemon (submit_transaction catalog h)) in
  match submission with
  | Ok submitted =>
      transaction_progress submitted PRunning (submitted_message submitted) (Some AwaitingSynchronization) ;!
      eret submitted
  | Err err =>
      let! current := on_daemon (on_driver (get_transaction h)) in
      if bool_decide (state current = Recorded) && bool_decide (submit_attempted_at_ms current = None) then
        if is_driver_error err then ethrow (Fail ("Submission refused: " +:+ err))
        else match retries with
             | Datatypes.S retries' =>
                 transaction_progress current PRunning
                   ("Submission could not start: " +:+ err +:+ "; retrying") (Some Submitting) ;!
                 submit_loop h retries'
             | O => ethrow (Fail ("Submission could not start: " +:+ err +:+ ". Transaction "
                                  +:+ tx_final current +:+ " is recorded; retry with dobj submit " +:+ tx_final current))
             end
      else
        transaction_progress current PRunning
          ("Relayer submission failed: " +:+ err +:+ "; the daemon will retry while transaction is "
           +:+ state_str (state current)) (Some Submitting) ;!
        on_daemon (announce_transaction catalog current) ;!
        eret current
  end.

Definition submit_record (r : TransactionRecord) : eff RunWorker TransactionRecord :=
  transaction_progress r PRunning "Transaction recorded" (Some WritingFiles) ;!
  transaction_progress r PRunning "Submitting proof to relayer" (Some Submitting) ;!
  let! h := elift (decode_hash_hex (tx_final r)) in
  let! r := submit_loop h PREFLIGHT_RETRIES in
  (if is_open r then transaction_progress r PRunning (waiting_message r) (Some AwaitingSynchronization) else eret tt) ;!
  eret r.

(** The failure reported so far, after this record. *)
Definition report_relayer_failure (r : TransactionRecord) (reported : option string) : eff RunWorker (option string) :=
  match relayer_failure r with
  | Some failure =>
      if bool_decide (reported = Some failure) then eret reported
      else
        transaction_progress r PRunning
          ("Relayer job " +:+ default "?" (relayer_job_id r) +:+ " failed: " +:+ failure +:+ ". " +:+ waiting_message r)
          (Some AwaitingSynchronization) ;!
        eret (Some failure)
  | None => eret reported
  end.

(** [follow] without a deadline, with the reports of its [from_event]. *)
Fixpoint run_follow (tx : string) (reported : option string) (current : TransactionRecord)
    (rs : list (Receipt (T := TransactionRecord))) : eff RunWorker (option (Result TransactionRecord)) :=
  if is_terminal (state current) then eret (Some (Ok current))
  else match rs with
       | [] => eret None
       | Received e :: rs' =>
           match transaction_event tx e with
           | Ok (Some update) =>
               let! reported := (if is_open update then report_relayer_failure update reported else eret reported) in
               run_follow tx reported update rs'
           | Ok None => run_follow tx reported current rs'
           | Err e => eret (Some (Err e))
           end
       | Lagged (Ok r) :: rs' => run_follow tx reported r rs'
       | Lagged (Err e) :: _ => eret (Some (Err e))
       | Elapsed r :: _ => eret (Some r)
       | Closed :: _ => eret (Some (Err (Fail "event hub closed")))
       end.

Definition failure_text (e : failure) : string := match e with Fail m | Panic m => m end.

(** A joined blocking task: a panic is a value too. *)
Definition joined {A} (c : eff RunWorker A) : eff RunWorker (Result A) := fun w =>
  let '(r, w') := c w in (Ok r, w').

(** The supervisor [spawn_worker] spawns; [rs] is what its subscription
    receives. [false] while it is still following. *)
Definition supervise (stage : eff RunWorker TransactionRecord) (rs : list (Receipt (T := TransactionRecord))) :
    eff RunWorker bool :=
  let! staged := joined stage in
  match staged with
  | Err (Fail m) => finish_failure m ;! eret true
  | Err (Panic m) => finish_failure ("run worker panicked: " +:+ m) ;! eret true
  | Ok r =>
      let! read := (if is_terminal (state r) then eret (Ok r)
                    else joined (let! h := elift (decode_hash_hex (tx_final r)) in
                                 on_daemon (on_driver (get_transaction h)))) in
      let! settled := (match read with
                       | Ok current => run_follow (tx_final r) (relayer_failure r) current rs
                       | Err e => eret (Some (Err e))
                       end) in
      match settled with
      | None => eret false
      | Some (Ok settled) =>
          match state settled with
          | Landed => finish_landed settled ;! eret true
          | Expired =>
              finish_failure ("transaction " +:+ tx_final settled +:+ " expired without landing: "
                              +:+ default "grounding aged out" (reason settled)) ;! eret true
          | Recorded | Submitted => ethrow (Panic "follow returns only terminal records")
          end
      | Some (Err e) =>
          finish_failure ("lost track of transaction " +:+ tx_final r +:+ ": " +:+ failure_text e) ;! eret true
      end
  end.

(** The worker of [spawn_run]. *)
Definition run_stage (input : ActionInput) : eff RunWorker TransactionRecord :=
  let! w := eget in
  let! r := prove_and_record catalog others run_reporter (trimmed input) (run_id (run w)) in
  submit_record r.
End Running.

(** *** Proof jobs *)

Record JobWorker `{Machine} : Type := MkJobWorker { jw_daemon : Daemon; jw_held : list string; job : ProofJobEntry }.
#[global] Instance JobWorker_hosted `{Machine} : Hosted JobWorker := {|
  daemon := jw_daemon; set_daemon d w := MkJobWorker _ d (jw_held w) (job w);
  held_files := jw_held; set_held_files f w := MkJobWorker _ (jw_daemon w) f (job w) |}.

Section Jobs.
Context `{Clients, Pod2, !CreationProofs, !Ticks, !Engine} (catalog : ActionCatalog) (others : Daemon -> Daemon).
Abbreviation on_daemon := (on_daemon (S := JobWorker) others).

Definition on_job (f : ProofJobEntry -> Result ProofJobEntry) : eff JobWorker unit := fun w =>
  match f (job w) with
  | Ok e => (Ok tt, MkJobWorker _ (jw_daemon w) (jw_held w) e)
  | Err e => (Err e, w)
  end.

Definition publish_job : eff JobWorker unit :=
  let! w := eget in on_daemon (announce (EvProofJob (job_snapshot (job w)))).

Definition job_reporter : Reporter JobWorker := {|
  on_inputs_held _ := eret tt;
  on_step phase message _ :=
    let! ms := now_ms others in
    on_job (job_progress (job_phase_status phase) message ms) ;! publish_job;
  on_done _ := eret tt |}.

(** The task [spawn_proof_job] spawns. *)
Definition proof_job : eff JobWorker unit := fun w =>
  let '(r, w) := prove_and_record catalog others job_reporter (job_input (job w)) (job_id (job w)) w in
  let outcome := match r with
                 | Ok r => Ok r
                 | Err (Fail m) => Err m
                 | Err (Panic m) => Err ("proof worker panicked: " +:+ m)
                 end in
  (let! now := on_daemon tick in
   let! ms := now_ms others in
   on_job (job_finish outcome now ms) ;! publish_job) w.
End Jobs.

(** ** A worker touches its entry only through its reporter *)

Section Keeping.
Context `{Clients, Pod2, !CreationProofs, !Ticks, !Engine} (catalog : ActionCatalog).
Context {S : Type} `{!Hosted S} (others : Daemon -> Daemon).
Context (P : S -> Prop).
Hypothesis P_daemon : forall d s, P s -> P (set_daemon d s).
Hypothesis P_held : forall f s, P s -> P (set_held_files f s).

Definition reports (R : Reporter S) : Prop :=
  (forall files, preserves P (on_inputs_held R files)) /\ (forall phase m ctx, preserves P (on_step R phase m ctx))
  /\ (forall phase, preserves P (on_done R phase)).

Lemma keeps_on_daemon {A} (c : eff Daemon A) : preserves P (on_daemon others c).
Proof. intros s Hs. unfold wp, on_daemon. destruct (c _) as [[a|e] d]; by apply P_daemon. Qed.

(** The clocks always answer. *)
Lemma keeps_now s : P s -> wp (now_ms others) (fun _ => P) (fun _ _ => False) s.
Proof.
  intros Hs. unfold wp, now_ms, on_daemon, on_driver, at_home, in_store, clock, on_env.
  destruct (DriverStore.now_ms _) as [t e]. by apply P_daemon.
Qed.

Lemma keeps_tick s : P s -> wp (on_daemon others tick) (fun _ => P) (fun _ _ => False) s.
Proof.
  intros Hs. unfold wp, tick, on_daemon, on_driver, at_home, in_store, on_env.
  destruct (instant _) as [t e]. by apply P_daemon.
Qed.

Lemma keeps_held f : preserves P (fun s => (Ok tt, set_held_files f s)).
Proof. intros s Hs. unfold wp. by apply P_held. Qed.

Lemma keeps_on_failure {A} (c : eff S A) f : preserves P c -> preserves P (on_failure c (on_world f)).
Proof.
  intros Hc s Hs. specialize (Hc s Hs). unfold wp, on_failure in *. destruct (c s) as [[a|e] s']; [done|].
  by apply P_daemon.
Qed.

Lemma keeps_prove R input owner : reports R -> preserves P (prove catalog others R input owner).
Proof.
  intros (Hh & Hs & Hd). pose proof (@keeps_on_daemon) as Hon. unfold prove.
  repeat (apply preserves_bind; [solve [auto with don]|intros ?]).
  apply keeps_on_failure. unfold prove_held, report_stages. keeps; auto.
Qed.

Lemma reports_holding R : reports R -> reports (holding catalog others R).
Proof.
  intros (Hh & Hs & Hd). split_and!; simpl; [|done..]. intros files.
  apply preserves_bind; [apply keeps_held|intros _]. apply preserves_bind; [apply keeps_on_daemon|intros _]. apply Hh.
Qed.

Lemma keeps_prove_and_record R input owner : reports R -> preserves P (prove_and_record catalog others R input owner).
Proof.
  intros HR. pose proof (@keeps_on_daemon) as Hon. unfold prove_and_record.
  apply preserves_bind; [apply keeps_held|intros _]. apply preserves_finally.
  - apply preserves_bind; [by apply keeps_prove, reports_holding|intros proved].
    apply preserves_bind; [apply keeps_on_failure, HR|intros _]. apply preserves_bind; [apply Hon|intros r].
    apply preserves_bind; [apply keeps_held|intros _]. apply preserves_bind; [apply Hon|intros _]. apply preserves_ret.
  - intros s Hs. unfold publish_held. pose proof (Hon _ (publish_objects catalog (held_files s)) s Hs) as Hp.
    unfold wp in Hp. by destruct (on_daemon others _ s) as [[]].
Qed.
End Keeping.

(** ** Runs conclude *)

Section Concluding.
Context `{Clients, Pod2, !CreationProofs, !Ticks, !Engine} (catalog : ActionCatalog) (others : Daemon -> Daemon).

(** A run under way. *)
Definition active (id : string) (w : RunWorker) : Prop := run_ok (run w) /\ live (run w) /\ run_id (run w) = id.

Lemma active_on_daemon {A} id (c : eff Daemon A) : preserves (active id) (on_daemon (S := RunWorker) others c).
Proof. by apply keeps_on_daemon. Qed.

(** Reports about a run under way always succeed. *)
Lemma emit_active id p w :
  active id w -> wp (emit others p) (fun _ => active id) (fun _ _ => False) w.
Proof.
  intros (Hok & Hl & Hid). unfold emit, ebind, wp, on_daemon, on_run, tick, on_driver, at_home, in_store, on_env.
  simpl. destruct (instant _) as [now e].
  destruct (push_progress_live p now (run w) Hok Hl) as (p' & e' & Hp & Hok' & Hl' & _ & r & He). simpl. rewrite Hp.
  simpl. split_and!; [done..|]. simpl. by rewrite He.
Qed.

Lemma emit_keeps id p : preserves (active id) (emit others p).
Proof. intros w Hw. eapply wp_mono; [by apply emit_active|done|done]. Qed.

Lemma now_ms_total id w : active id w -> wp (now_ms (S := RunWorker) others) (fun _ => active id) (fun _ _ => False) w.
Proof. by apply keeps_now. Qed.

Lemma tick_total id w : active id w -> wp (on_daemon (S := RunWorker) others tick) (fun _ => active id) (fun _ _ => False) w.
Proof. by apply keeps_tick. Qed.

Lemma transaction_progress_active id r st m stage w :
  active id w -> wp (transaction_progress others r st m stage) (fun _ => active id) (fun _ _ => False) w.
Proof.
  intros Hw. unfold transaction_progress. apply wp_bind. eapply wp_mono; [by apply now_ms_total| |done].
  intros at_ms w1 Hw1. apply wp_get. by apply emit_active.
Qed.

Lemma reports_run id : reports (active id) (run_reporter others).
Proof.
  split_and!; simpl; intros.
  - apply preserves_ret.
  - apply preserves_bind; [apply active_on_daemon|intros ?]. apply preserves_bind; [apply preserves_get|intros ?].
    apply emit_keeps.
  - destruct phase; [|apply preserves_ret].
    apply preserves_bind; [apply active_on_daemon|intros ?]. apply preserves_bind; [apply preserves_get|intros ?].
    apply emit_keeps.
Qed.

Lemma transaction_progress_keeps id r st m stage : preserves (active id) (transaction_progress others r st m stage).
Proof. intros w Hw. eapply wp_mono; [by apply transaction_progress_active|done|done]. Qed.

Lemma submit_loop_keeps id h n : preserves (active id) (submit_loop catalog others h n).
Proof.
  pose proof (@transaction_progress_keeps id) as Hp. pose proof (fun A => @active_on_daemon A id) as Hd.
  induction n as [|n IH]; simpl; keeps; auto.
Qed.

Lemma run_stage_keeps id input : preserves (active id) (run_stage catalog others input).
Proof.
  pose proof (@transaction_progress_keeps id) as Hp. pose proof (submit_loop_keeps id) as Hs. unfold run_stage, submit_record.
  apply preserves_bind; [apply preserves_get|intros w]. apply preserves_bind.
  - apply keeps_prove_and_record; [done|done|apply reports_run].
  - intros r. keeps; auto.
Qed.

(** Following a transaction decides as [follow_loop] does, and only reports. *)
Lemma run_follow_decides id tx reported current rs w :
  active id w ->
  exists w', run_follow others tx reported current rs w
             = (Ok (follow_loop (fun r => is_terminal (state r)) (transaction_event tx) current rs), w') /\ active id w'.
Proof.
  revert reported current w. induction rs as [|x rs IH]; intros reported current w Hw; simpl.
  { destruct (is_terminal (state current)); by exists w. }
  destruct (is_terminal (state current)); [by exists w|].
  destruct x as [e|[r|e]|r|]; [|by apply IH|by exists w..].
  destruct (transaction_event tx e) as [[update|]|f]; [|by apply IH|by exists w].
  assert (exists reported' w1, (if is_open update then report_relayer_failure others update reported else eret reported) w
    = (Ok reported', w1) /\ active id w1) as (reported' & w1 & Heq & Hw1).
  { destruct (is_open update); [|by exists reported, w]. unfold report_relayer_failure.
    destruct (relayer_failure update) as [f|]; [|by exists reported, w]. case_bool_decide; [by exists reported, w|].
    pose proof (transaction_progress_active id update PRunning ("Relayer job " +:+ default "?" (relayer_job_id update)
      +:+ " failed: " +:+ f +:+ ". " +:+ waiting_message update) (Some AwaitingSynchronization) w Hw) as Hp.
    unfold wp in Hp. unfold ebind. destruct (transaction_progress _ _ _ _ _ w) as [[[]|]]; [|done]. by eexists _, _. }
  unfold ebind at 1. rewrite Heq. by apply IH.
Qed.

Lemma follow_loop_terminal tx current rs r :
  follow_loop (fun r => is_terminal (state r)) (transaction_event tx) current rs = Some (Ok r) ->
  (forall r', Elapsed r' ∉ rs) -> is_terminal (state r) = true.
Proof.
  revert current. induction rs as [|x rs IH]; intros current; simpl; destruct (is_terminal (state current)) eqn:Ht; try (intros; congruence).
  intros Hf Hn.
  assert (forall r', Elapsed r' ∉ rs) as Hn' by (intros r' Hr'; apply (Hn r'); by right).
  destruct x as [e|[r1|e]|r1|]; try done; [|by eapply IH|exfalso; apply (Hn r1); by left].
  destruct (transaction_event tx e) as [[update|]|f]; try done; by eapply IH.
Qed.

(** The record a loop over the subscription ends with is one of its own
    transaction: the one it started from, one an event announced, or one read
    again after a lag. *)
Definition own_record (tx : string) (current : TransactionRecord) (rs : list (Receipt (T := TransactionRecord)))
    (r : TransactionRecord) : Prop :=
  r = current \/ (Received (EvTransaction r) ∈ rs /\ tx_final r = tx) \/ Lagged (Ok r) ∈ rs.

Lemma follow_loop_own tx current rs r :
  follow_loop (fun r => is_terminal (state r)) (transaction_event tx) current rs = Some (Ok r) ->
  (forall r', Elapsed r' ∉ rs) -> own_record tx current rs r.
Proof.
  revert current. induction rs as [|x rs IH]; intros current; simpl.
  { destruct (is_terminal (state current)); [|done]. intros [= <-] _. by left. }
  destruct (is_terminal (state current)); [intros [= <-] _; by left|]. intros Hf Hn.
  assert (forall r', Elapsed r' ∉ rs) as Hn' by (intros r' Hr'; apply (Hn r'); by right).
  assert (forall cur, own_record tx cur rs r -> r = cur \/ own_record tx current (x :: rs) r) as Hlift.
  { intros cur [?|[[? ?]|?]]; [by left|right; right; left|right; right; right]; [split; [by right|done]|by right]. }
  destruct x as [e|[r1|e]|r1|]; try done; [| |exfalso; apply (Hn r1); by left].
  - destruct e as [p|j|r2|d|d|o|o]; simpl in Hf; try (case_decide; try done);
      try by destruct (Hlift _ (IH _ Hf Hn')) as [->|?]; [left|].
    destruct (Hlift _ (IH _ Hf Hn')) as [->|?]; [|done]. right. left. split; [by left|done].
  - destruct (Hlift _ (IH _ Hf Hn')) as [->|?]; [|done]. right. right. by left.
Qed.

(** How a run may end: with the files of a record, or with an error. *)
Definition succeeded (id : string) (r : TransactionRecord) (w : RunWorker) : Prop :=
  run_ok (run w) /\ run_id (run w) = id
  /\ Runs.status (inner (run w)) = RSucceeded /\ result_ (inner (run w)) = Some (run_result id r).
Definition failed_with (id message : string) (w : RunWorker) : Prop :=
  run_ok (run w) /\ run_id (run w) = id
  /\ Runs.status (inner (run w)) = RFailed /\ error (inner (run w)) = Some message.

Lemma finish_landed_succeeds id r w :
  active id w -> wp (finish_landed others r) (fun _ => succeeded id r) (fun _ _ => False) w.
Proof.
  intros Hw. unfold finish_landed. apply wp_bind. eapply wp_mono; [by apply transaction_progress_active| |done].
  intros [] w1 Hw1. apply wp_bind. eapply wp_mono; [by apply (tick_total id)| |done]. intros now w2 Hw2.
  apply wp_bind. eapply wp_mono; [by apply (now_ms_total id)| |done]. intros ms w3 (Hok & Hl & Hid).
  unfold wp, on_run. destruct (succeed_live (run_result (run_id (run w3)) r) now ms _ Hok Hl)
    as (e' & -> & Hok' & Hst & Hres & _ & x & He). simpl. split_and!; [done|by rewrite He|done|]. simpl. by rewrite Hres, Hid.
Qed.

Lemma finish_failure_fails id m w :
  active id w -> wp (finish_failure others m) (fun _ => failed_with id m) (fun _ _ => False) w.
Proof.
  intros Hw. unfold finish_failure. apply wp_bind. eapply wp_mono; [by apply (tick_total id)| |done]. intros now w2 Hw2.
  apply wp_bind. eapply wp_mono; [by apply (now_ms_total id)| |done]. intros ms w3 (Hok & Hl & Hid).
  apply wp_bind. unfold wp at 1. unfold on_run.
  destruct (fail_live m now ms _ Hok Hl) as (ev & e' & -> & Hok' & Hst & Herr & _ & _ & x & He).
  unfold wp, on_daemon. simpl. split_and!; [done|by rewrite He|done|done].
Qed.

Abbreviation follow_tx tx := (follow (fun r => is_terminal (state r)) (transaction_event tx)).

(** The record of a staged transaction, as the supervisor reads it before it
    follows the events: the staged one if it is settled, else the one on disk
    after whatever the other threads did. *)
Definition read_back (r0 : TransactionRecord) (w : RunWorker) : Result TransactionRecord :=
  if is_terminal (state r0) then Ok r0
  else let? h := decode_hash_hex (tx_final r0) in fst (get_transaction h (world (home (others (rw_daemon w))))).

(** What has to become of a run whose worker returned [staged] in [w1]. *)
Definition outcome (id : string) (staged : Result TransactionRecord) (w1 : RunWorker)
    (rs : list (Receipt (T := TransactionRecord))) (decided : bool) (w : RunWorker) : Prop :=
  match staged with
  | Err (Fail m) => decided = true /\ failed_with id m w
  | Err (Panic m) => decided = true /\ failed_with id ("run worker panicked: " +:+ m) w
  | Ok r0 =>
      match follow_tx (tx_final r0) (read_back r0 w1) rs with
      | None => decided = false /\ active id w
      | Some (Err e) => decided = true
          /\ failed_with id ("lost track of transaction " +:+ tx_final r0 +:+ ": " +:+ failure_text e) w
      | Some (Ok r) => decided = true
          /\ (exists current, read_back r0 w1 = Ok current /\ own_record (tx_final r0) current rs r)
          /\ match state r with
             | Landed => succeeded id r w
             | Expired => failed_with id ("transaction " +:+ tx_final r +:+ " expired without landing: "
                                          +:+ default "grounding aged out" (reason r)) w
             | Recorded | Submitted => False
             end
      end
  end.

Lemma fails_decided id m (Q : bool -> RunWorker -> Prop) w :
  active id w -> (forall w', failed_with id m w' -> Q true w') ->
  wp (finish_failure others m ;! eret true) Q (fun _ _ => False) w.
Proof.
  intros Hw HQ. apply wp_bind. eapply wp_mono; [by apply (finish_failure_fails id)| |done].
  intros [] w3 Hw3. by apply wp_ret, HQ.
Qed.

(** The supervisor reads the record back and stays under way. *)
Lemma read_back_spec id r0 w :
  active id w ->
  wp (if is_terminal (state r0) then eret (Ok r0)
      else joined (let! h := elift (decode_hash_hex (tx_final r0)) in
                   on_daemon (S := RunWorker) others (on_driver (get_transaction h))))
    (fun read w' => read = read_back r0 w /\ active id w') (fun _ _ => False) w.
Proof.
  intros Hw. unfold read_back. destruct (is_terminal (state r0)); [by apply wp_ret|].
  unfold wp, joined, ebind, elift. destruct (decode_hash_hex (tx_final r0)) as [h|e]; [|done]. simpl.
  unfold on_daemon, on_driver, at_home, in_store. simpl.
  destruct (get_transaction h (world (home (others (rw_daemon w))))) as [r w2]. done.
Qed.

Lemma supervise_spec id stage rs w :
  preserves (active id) stage -> (forall r, Elapsed r ∉ rs) -> active id w ->
  wp (supervise others stage rs) (outcome id (fst (stage w)) (snd (stage w)) rs) (fun _ _ => False) w.
Proof.
  intros Hstage Hrs Hw. specialize (Hstage w Hw). unfold supervise. apply wp_bind. unfold wp, joined in Hstage |- *.
  destruct (stage w) as [staged w1]. cbn [fst snd]. assert (active id w1) as Hw1 by by destruct staged. clear Hstage w Hw.
  destruct staged as [r0|[m|m]]; [|by apply (fails_decided id)..].
  apply wp_bind. eapply wp_mono; [by apply (read_back_spec id)| |done]. intros read w2 [-> Hw2]. apply wp_bind. simpl.
  destruct (read_back r0 w1) as [current|e] eqn:Hread; simpl; [|apply wp_ret; simpl; apply (fails_decided id); [done|]; intros w3 Hw3; unfold outcome; rewrite Hread; by split].
  unfold wp at 1. destruct (run_follow_decides id (tx_final r0) (relayer_failure r0) current rs w2 Hw2) as (w3 & -> & Hw3).
  assert (follow_tx (tx_final r0) (read_back r0 w1) rs
    = follow_loop (fun r => is_terminal (state r)) (transaction_event (tx_final r0)) current rs) as Hfol by by rewrite Hread.
  destruct (follow_loop _ _ current rs) as [[r|e]|] eqn:Hf.
  - pose proof (follow_loop_own _ _ _ _ Hf Hrs) as Hown. pose proof (follow_loop_terminal _ _ _ _ Hf Hrs) as Hterm.
    destruct (state r) eqn:Hst; [done|done| |apply (fails_decided id); [done|]; intros w4 Hw4].
    + apply wp_bind. eapply wp_mono; [by apply (finish_landed_succeeds id)| |done]. intros [] w4 Hw4. apply wp_ret.
      unfold outcome. rewrite Hfol, Hst. eauto.
    + unfold outcome. rewrite Hfol, Hst. eauto.
  - apply (fails_decided id); [done|]. intros w4 Hw4. unfold outcome. by rewrite Hfol.
  - apply wp_ret. unfold outcome. by rewrite Hfol.
Qed.

(** C16: every run comes to the outcome of its own transaction. Whatever the
    plugin, the network, the disk and the other threads do, the supervisor of a
    run, which waits without a deadline, never panics. If the worker fails or panics, the run fails with its
    message. Otherwise the run follows the transaction the worker staged: while
    no record it reads and no event it receives settles it, the run stays under
    way; when a record of this transaction is found landed, the run succeeds
    with that record's files; when it is found expired, or track of it is lost,
    the run fails with the message that says so. *)
Theorem run_reaches_outcome input rs w :
  run_ok (run w) -> live (run w) -> (forall r, Elapsed r ∉ rs) ->
  exists decided w', supervise others (run_stage catalog others input) rs w = (Ok decided, w')
    /\ outcome (run_id (run w)) (fst (run_stage catalog others input w)) (snd (run_stage catalog others input w))
         rs decided w'.
Proof.
  intros Hok Hl Hrs.
  pose proof (supervise_spec (run_id (run w)) _ rs w (run_stage_keeps _ input) Hrs ltac:(done)) as Hs.
  unfold wp in Hs. destruct (supervise _ _ _ w) as [[d|]]; [|done]. eauto.
Qed.

(** *** A failed submission *)

(** The record of [h] is on disk and was never offered, or cannot be read. *)
Definition unoffered_at (h : Hash) (m : string) (w : RunWorker) : Prop :=
  let d := world (home (rw_daemon w)) in
  (exists r, recs (transactions d) !! transaction_dir h = Some r /\ state r = Recorded /\ submit_attempted_at_ms r = None)
  \/ exists w0, get_transaction h w0 = (Err (Fail m), d).

Definition on_fail (Q : string -> RunWorker -> Prop) (f : failure) (w : RunWorker) : Prop :=
  match f with Fail m => Q m w | Panic _ => True end.

(** Announcing only logs what it cannot read. *)
Lemma announce_transaction_total r d :
  wp (announce_transaction catalog r) (fun _ _ => True) (fun f _ => exists m, f = Panic m) d.
Proof.
  unfold announce_transaction, announce. apply wp_bind. unfold modify, wp at 1. apply wp_bind.
  apply (wp_mono _ (fun _ _ => True) _ (fun f _ => exists m, f = Panic m)); [|done|done]. unfold publish_objects.
  case_bool_decide; [done|]. apply wp_bind. eapply wp_mono; [apply (wp_caught _ (fun _ _ => True))| |done].
  - eapply wp_mono; [apply wp_true|done|done].
  - intros [l|m] d1 _; [|done]. eapply wp_mono; [apply each_announces|done|done].
Qed.

Lemma read_current id h w :
  active id w ->
  wp (on_daemon (S := RunWorker) others (on_driver (get_transaction h)))
    (fun r w' => active id w' /\ recs (transactions (world (home (rw_daemon w')))) !! transaction_dir h = Some r)
    (on_fail (unoffered_at h)) w.
Proof.
  intros Hw. pose proof (get_transaction_spec h (world (home (others (rw_daemon w))))) as Hg.
  unfold wp, on_daemon, on_driver, at_home, in_store in *. simpl in *.
  destruct (get_transaction h (world (home (others (rw_daemon w))))) as [[r|[m|m]] w2] eqn:Heq; [|by right; eauto|done].
  destruct Hg as [[Ht _] Hr]. simpl. split; [by split_and!; apply Hw|]. by rewrite Ht.
Qed.

Lemma submit_loop_fails id h n w :
  active id w -> wp (submit_loop catalog others h n) (fun _ => active id) (on_fail (unoffered_at h)) w.
Proof.
  assert (forall r m stage w, active id w -> forall k : eff RunWorker TransactionRecord,
    (forall w, active id w -> wp k (fun _ => active id) (on_fail (unoffered_at h)) w) ->
    wp (transaction_progress others r PRunning m stage ;! k) (fun _ => active id) (on_fail (unoffered_at h)) w) as Hreport.
  { intros r m stage w0 Hw0 k Hk. apply wp_bind. eapply wp_mono; [by apply (transaction_progress_active id)| |done].
    intros [] w1 Hw1. by apply Hk. }
  revert w. induction n as [|n IH]; intros w Hw; simpl.
  all: apply wp_bind, wp_try; eapply wp_mono; [apply (active_on_daemon id); exact Hw|..];
    [intros r w1 Hw1; apply Hreport; [done|intros w2 Hw2; by apply wp_ret]|].
  all: intros [m|m] w1 Hw1; [|done]; apply wp_bind; (eapply wp_mono; [by apply (read_current id)| |done]); intros r w2 [Hw2 Hr].
  all: destruct (bool_decide (state r = Recorded) && bool_decide (submit_attempted_at_ms r = None)) eqn:Hb;
    [apply andb_true_iff in Hb as [Hst%bool_decide_eq_true Hat%bool_decide_eq_true];
     assert (forall m, unoffered_at h m w2) as Hun by (intros m'; left; by exists r);
     destruct (is_driver_error m); [by apply Hun|]|].
  1: by apply Hun.
  2: by apply Hreport.
  all: apply Hreport; [done|]; intros w3 Hw3; apply wp_bind;
    pose proof (announce_transaction_total r (others (rw_daemon w3))) as Ha; unfold wp in *; unfold on_daemon; simpl;
    destruct (announce_transaction catalog r (others (rw_daemon w3))) as [[[]|[m'|m']] d]; simpl; try done;
    by destruct Ha as [? [=]].
Qed.

(** C18: a submission that fails was never made. If handing a recorded
    transaction to the relayer ends the run with an error, then, whatever the
    other threads did, the transaction is still recorded and was never offered
    to the relayer when the run last looked, or its record could not be read. *)
Theorem failed_submission_unoffered id r w m w' :
  active id w -> submit_record catalog others r w = (Err (Fail m), w') ->
  (exists e, decode_hash_hex (tx_final r) = Err e) \/ exists h, decode_hash_hex (tx_final r) = Ok h /\ unoffered_at h m w'.
Proof.
  intros Hw Hrun.
  assert (wp (submit_record catalog others r) (fun _ _ => True) (on_fail (fun m w' =>
    (exists e, decode_hash_hex (tx_final r) = Err e) \/ exists h, decode_hash_hex (tx_final r) = Ok h /\ unoffered_at h m w')) w) as Hwp.
  { unfold submit_record. clear Hrun. do 2 (apply wp_bind; eapply wp_mono; [by apply (transaction_progress_active id)| |done]; clear w Hw; intros [] w Hw).
    apply wp_bind, wp_lift; [|intros [m'|m'] He; simpl; [left; by eexists|done]]. intros h Hh.
    apply wp_bind. eapply wp_mono; [by apply (submit_loop_fails id)|..].
    - intros r' w1 Hw1. apply wp_bind.
      apply (wp_mono _ (fun _ _ => True) _ (fun _ _ => False)); [|done|done].
      destruct (is_open r'); [|done]. eapply wp_mono; [by apply (transaction_progress_active id)|done|done].
    - intros [m'|m'] w1 Hw1; [|done]. right. eauto. }
  unfold wp in Hwp. by rewrite Hrun in Hwp.
Qed.
End Concluding.

(** ** Proof jobs conclude *)

Section JobFacts.
Context `{Clients, Pod2, !CreationProofs, !Ticks, !Engine} (catalog : ActionCatalog) (others : Daemon -> Daemon).

Definition pending (id : string) (w : JobWorker) : Prop := job_finished_at (job w) = None /\ job_id (job w) = id.

Lemma pending_tick id w : pending id w -> wp (on_daemon (S := JobWorker) others tick) (fun _ => pending id) (fun _ _ => False) w.
Proof. by apply keeps_tick. Qed.

Lemma pending_now id w : pending id w -> wp (now_ms (S := JobWorker) others) (fun _ => pending id) (fun _ _ => False) w.
Proof. by apply keeps_now. Qed.

Lemma pending_on_daemon {A} id (c : eff Daemon A) : preserves (pending id) (on_daemon (S := JobWorker) others c).
Proof. by apply keeps_on_daemon. Qed.

Lemma reports_job id : reports (pending id) (job_reporter others).
Proof.
  split_and!; simpl; intros; [apply preserves_ret| |apply preserves_ret].
  apply preserves_bind; [apply pending_on_daemon|intros ms]. apply preserves_bind.
  - intros w [Hf Hid]. unfold wp, on_job, job_progress, rassert. by rewrite bool_decide_true by done.
  - intros _. apply preserves_bind; [apply preserves_get|intros w; apply pending_on_daemon].
Qed.

Lemma last_published e h : last (event <$> sent (publish e h)) = Some e.
Proof. unfold publish. cbn [sent]. rewrite fmap_app. apply last_snoc. Qed.

(** Every proof job finishes, exactly once. Whatever proving and
    recording do, a panic included, the job ends done with the transaction that
    was recorded or failed with an error, and its final state is the last event
    it sends. *)
Theorem proof_job_finishes w :
  job_finished_at (job w) = None ->
  exists w', proof_job catalog others w = (Ok tt, w')
    /\ job_id (job w') = job_id (job w) /\ is_Some (job_finished_at (job w'))
    /\ last (event <$> sent (hub (jw_daemon w'))) = Some (EvProofJob (job_snapshot (job w')))
    /\ match fst (prove_and_record catalog others (job_reporter others) (job_input (job w)) (job_id (job w)) w) with
       | Ok r => job_status (job w') = JDone /\ job_tx_final (job w') = Some (tx_final r)
       | Err _ => job_status (job w') = JFailed /\ is_Some (job_error (job w'))
       end.
Proof.
  intros Hf. unfold proof_job.
  pose proof (keeps_prove_and_record catalog others (pending (job_id (job w))) (fun _ _ H => H) (fun _ _ H => H) (job_reporter others)
    (job_input (job w)) (job_id (job w)) (reports_job _) w (conj Hf eq_refl)) as Hp.
  unfold wp in Hp. destruct (prove_and_record _ _ _ _ _ w) as [r w1] eqn:Hr. simpl.
  assert (pending (job_id (job w)) w1) as [Hf1 Hid1] by by destruct r. clear Hp Hr.
  set (outcome := match r with Ok _ => _ | Err _ => _ end).
  set (Q := fun (_ : unit) w' => job_id (job w') = job_id (job w) /\ is_Some (job_finished_at (job w'))
    /\ last (event <$> sent (hub (jw_daemon w'))) = Some (EvProofJob (job_snapshot (job w')))
    /\ match outcome with
       | Ok r => job_status (job w') = JDone /\ job_tx_final (job w') = Some (tx_final r)
       | Err _ => job_status (job w') = JFailed /\ is_Some (job_error (job w'))
       end).
  match goal with |- exists w', ?c w1 = _ /\ _ => assert (wp c Q (fun _ _ => False) w1) as Hwp end.
  { apply wp_bind. eapply wp_mono; [by apply (pending_tick (job_id (job w)))| |done].
    intros now w2 Hw2. apply wp_bind. eapply wp_mono; [by apply (pending_now (job_id (job w)))| |done].
    intros ms w3 [Hf3 Hid3]. apply wp_bind. unfold wp at 1, on_job, job_finish, rassert. rewrite bool_decide_true by done.
    unfold wp, publish_job, ebind, on_daemon, Q. simpl.
    destruct outcome; simpl; split_and!; try done; try by eexists.
    all: exact (last_published _ _). }
  unfold wp in Hwp. match goal with |- exists w', ?c w1 = _ /\ _ => destruct (c w1) as [[[]|] w'] end; [|done]. exists w'. split; [done|].
  destruct Hwp as (H1' & H2' & H3' & H4'). split_and!; [done..|]. by destruct r as [|[]].
Qed.
End JobFacts.

Module Sample.
Import ToyDriver Toy. Import DriverObjects.Sample(toy_proofs). Import Settler.Sample(toy_ticks).
#[local] Existing Instances toy_machine toy_pod2 toy_clients toy_proofs toy_ticks.

Definition genesis : StateHeader := StateHeader_new 7 0 EMPTY_HASH EMPTY_HASH EMPTY_HASH EMPTY_HASH.
Definition idle_tx : Tx := TxBuilder.MkTx ∅ ∅ ∅ genesis.
#[local] Instance toy_engine : @Engine toy_machine toy_pod2 := {|
  Witness := unit; Args := unit; Pod := unit; witness_header _ := genesis; fetch_witness _ e := (Ok tt, e);
  decode_action_args _ := Ok tt;
  execute_action _ _ _ _ e := ([Building; Proving], (Ok (tt, [], idle_tx), e));
  build_payload _ _ := Ok [x00]; is_driver_error _ := false |}.
Definition wave : ActionSummary := {| as_action := q; total_inputs := []; total_outputs := []; as_mutated_objects := [] |}.
Definition waving : ActionCatalog :=
  {| list_actions := [wave]; get_action _ := Some wave; list_classes := []; get_class _ := None |}.
Definition waver : ActionInput := {| ai_action := q; ai_input_object_paths := []; ai_args := [] |}.
Definition host : Daemon := MkDaemon _ (MkHome _ w_empty []) EventHub_new ∅ ∅ false.
Definition runner : RunWorker := MkRunWorker _ host [] (RunEntry_new "run" q [] 1 0 0).

Definition staged : Result TransactionRecord := fst (run_stage waving id waver runner).
Definition landed : list (Receipt (T := TransactionRecord)) :=
  match staged with Ok r => [Received (EvTransaction (set_settled Landed 9 r))] | Err _ => [] end.
Abbreviation supervision := (supervise id (run_stage waving id waver) landed runner).

Lemma no_deadline r : Elapsed r ∉ landed.
Proof.
  unfold landed. destruct staged as [t|e]; [|apply not_elem_of_nil].
  intros Hr. apply list_elem_of_singleton in Hr. discriminate Hr.
Qed.

Lemma run_witness :
  exists w' r, supervision = (Ok true, w') /\ state r = Landed /\ succeeded "run" r w'.
Proof.
  destruct (run_reaches_outcome waving id waver landed runner (run_new_ok _ _ _ _ _ _) eq_refl no_deadline) as (d & w' & Hs & Ho).
  assert (fst supervision = Ok true /\ Runs.status (inner (run (snd supervision))) = RSucceeded) as Hv
    by (vm_compute; split; reflexivity).
  rewrite Hs in Hv. destruct Hv as [Hd Hst]. cbn [fst snd] in Hd, Hst. injection Hd as ->. exists w'. unfold outcome in Ho.
  destruct (fst (run_stage waving id waver runner)) as [r0|[m|m]].
  2,3: destruct Ho as (_ & _ & _ & Hf & _); rewrite Hst in Hf; discriminate Hf.
  destruct (follow _ _ _ landed) as [[r|e]|]; [| |destruct Ho as [Hno _]; discriminate Hno].
  2: destruct Ho as (_ & _ & _ & Hf & _); rewrite Hst in Hf; discriminate Hf.
  destruct Ho as (_ & _ & Ho). exists r. split; [exact Hs|].
  destruct (state r); [destruct Ho|destruct Ho|exact (conj eq_refl Ho)|].
  destruct Ho as (_ & _ & Hf & _). rewrite Hst in Hf. discriminate Hf.
Defined.

(** Without settings nothing can be submitted. *)
#[local] Definition offline : @Clients toy_machine := {|
  load_settings e := (Err (Fail "no settings"), e); fetch_head e := (Ok 10, e); fetch_tx_status _ e := (Ok None, e);
  fetch_membership _ _ e := (Err (Fail "down"), e); fetch_grounding_witness _ e := (Ok [], e);
  submit_proof _ _ e := (Err (Fail "down"), e); fetch_job_status _ e := (Err (Fail "down"), e);
  is_unreachable _ := true |}.
Definition key : Hash := MkHash 1 2 3 4.
Definition sword_tx : TransactionRecord := recorded (encode_hash_hex key) q "me" [] [] "root" 5 [] [] 0.
Definition carrier : RunWorker :=
  MkRunWorker _ (MkDaemon _ (MkHome _ w_recorded []) EventHub_new ∅ ∅ false) [] (RunEntry_new "run" q [] 1 0 0).
Abbreviation handing := (@submit_record toy_machine offline toy_pod2 toy_ticks toy_engine waving id sword_tx carrier).

Lemma unoffered_witness : exists m w', handing = (Err (Fail m), w') /\ unoffered_at key m w'.
Proof.
  assert (match fst handing with Err (Fail _) => true | _ => false end = true) as Hf by (vm_compute; reflexivity).
  destruct handing as [[r|[m|m]] w'] eqn:Hrun; cbn [fst] in Hf; [discriminate Hf| |discriminate Hf].
  exists m, w'. split; [reflexivity|].
  destruct (@failed_submission_unoffered _ offline _ _ _ waving id "run" sword_tx carrier m w'
    (conj (run_new_ok _ _ _ _ _ _) (conj eq_refl eq_refl)) Hrun) as [[e He]|(h & Hh & Hun)].
  - vm_compute in He. discriminate He.
  - replace key with h; [exact Hun|]. vm_compute in Hh. injection Hh as <-. vm_compute. reflexivity.
Defined.

Definition prover : JobWorker := MkJobWorker _ host [] (ProofJobEntry_new "job" waver 0 1).
Abbreviation proving := (proof_job waving id prover).
Lemma job_witness : exists w', proving = (Ok tt, w') /\ job_status (job w') = JDone.
Proof.
  destruct (proof_job_finishes waving id prover eq_refl) as (w' & Hrun & _).
  exists w'. split; [exact Hrun|].
  assert (job_status (job (snd proving)) = JDone) as Hd by (vm_compute; reflexivity).
  rewrite Hrun in Hd. exact Hd.
Defined.
End Sample.
End Workers.
