(* ===== verification/Sdk.v ===== *)
(** * The action SDK: scripts and what they record (libs/sdk/src/lib.rs)

    An action is a script that calls host methods on an action context: it
    declares objects, reads and writes their fields, and states native facts
    about them. The script runs once at Load, where variables have no values,
    to learn the action's shape, and again for every execution, where the same
    calls also carry the values. Every call is a definition here, in both
    phases. The script language itself (rhai) is third-party code: a script is
    the sequence of host calls it makes.

    Handles share cells: a [Ref] is an index into the cells of the action, so
    renaming or updating a variable through one handle is seen through all. *)

From Stdlib Require Import Strings.Ascii.
From S2P Require Import Prelude Pod2 Models DonState Podlang TxModel Replay TxBuilder.

Module Sdk.
Import Podlang TxModel.
Local Open Scope string_scope.

(** ** Values

    pod2's typed [Value]: what it can be read as, besides its raw form. A
    dictionary refuses to insert a key it has and to update one it lacks. *)
Class PodValues `{Pod2} : Type := {
  PVal : Type;
  raw : PVal -> Value;
  from_int : Z -> PVal;
  from_bool : bool -> PVal;
  from_str : string -> PVal;
  from_raw : Value -> PVal;
  from_dict : gmap string PVal -> PVal;
  from_slots : gmap nat PVal -> PVal;
  from_set : list PVal -> PVal;
  as_int : PVal -> option Z;
  as_str : PVal -> option string;
  as_dictionary : PVal -> option (gmap string PVal);
  as_array : PVal -> option (gmap nat PVal);
  is_untyped : PVal -> bool;
  (** [as_container] and the entry it has at a raw key. *)
  as_container : PVal -> option (Value -> option PVal);
  pdict_ins : gmap string PVal -> string -> PVal -> Result (gmap string PVal);
  pdict_upd : gmap string PVal -> string -> PVal -> Result (gmap string PVal);
}.

Abbreviation PDict := (gmap string PVal).

Definition raw_dict `{PodValues} (d : PDict) : Dictionary := raw <$> d.
Definition commitment_of `{PodValues} (d : PDict) : Hash := dict_commitment (raw_dict d).

(** ** Objects and types *)

Inductive ObjectIO : Type := Input | Mutate | Output.

#[global] Instance ObjectIO_eq_dec : EqDecision ObjectIO.
Proof. solve_decision. Defined.

Definition consumes (io : ObjectIO) : bool := match io with Input | Mutate => true | Output => false end.
Definition produces (io : ObjectIO) : bool := match io with Output | Mutate => true | Input => false end.

Definition class_predicate_name (class : string) : string := "Is" +:+ class.

Definition in_range (lo hi c : Ascii.ascii) : bool :=
  (Ascii.N_of_ascii lo <=? Ascii.N_of_ascii c)%N && (Ascii.N_of_ascii c <=? Ascii.N_of_ascii hi)%N.
Definition is_ascii_alphanumeric (c : Ascii.ascii) : bool :=
  in_range "0"%char "9"%char c || in_range "A"%char "Z"%char c || in_range "a"%char "z"%char c.

Definition validate_class_name (class : string) : Result unit :=
  match class with
  | EmptyString => Err (Fail "class name must be non-empty")
  | _ =>
      match list_find (fun c => negb (is_ascii_alphanumeric c || bool_decide (c = "-"%char)
                                      || bool_decide (c = "_"%char)) = true)
              (String.list_ascii_of_string class) with
      | Some _ => Err (Fail "class name may only contain ASCII letters, digits, '-', and '_'")
      | None => Ok tt
      end
  end.

(** Used to check the kinds of variables at Load. An array may be a record,
    whose fields are named. *)
Inductive Ty : Type := Unk | Raw | Int | Str | Dict | Arr (record : list string).

#[global] Instance Ty_eq_dec : EqDecision Ty.
Proof. solve_decision. Defined.

(** A shared cell, by its index. *)
Abbreviation Ref := nat.

Section Values.
Context `{PodValues}.

(** ** Variables and values *)

(** [v_key] makes the variable stand for the entry at that key. *)
Record Var : Type := MkVar {
  v_name : string;
  v_typ : Ty;
  v_value : option PVal;
  v_key : option string;
}.

Inductive VarOrValue : Type := IsVar (v : Var) | IsValue (v : PVal).

Definition new_var (typ : Ty) : VarOrValue := IsVar (MkVar "?" typ None None).

Definition type_check (x : VarOrValue) (typ : Ty) : Result unit :=
  match x with
  | IsValue v =>
      ok_or (match typ with
             | Unk | Raw => Some tt
             | Int => (fun _ => tt) <$> as_int v
             | Str => (fun _ => tt) <$> as_str v
             | Dict => (fun _ => tt) <$> as_dictionary v
             | Arr _ => (fun _ => tt) <$> as_array v
             end) "type check: expected another type"
  | IsVar v =>
      match v_key v with
      | Some _ => Ok tt
      | None =>
          rensure (bool_decide (typ = Unk) || bool_decide (typ = Raw) || bool_decide (v_typ v = Unk)
                   || bool_decide (v_typ v = typ)) "type check: expected another type"
      end
  end.

Definition var_name (x : VarOrValue) : Result string :=
  match x with IsVar v => Ok (v_name v) | IsValue _ => Err (Panic "not a var") end.

Definition set_var_name (name : string) (x : VarOrValue) : Result VarOrValue :=
  match x with
  | IsValue _ => Err (Fail "var cannot be a literal value")
  | IsVar v => Ok (IsVar (MkVar name (v_typ v) (v_value v) (v_key v)))
  end.

(** The container, the key and the entry of [value.key]. *)
Definition try_resolve_entry (typ : Ty) (value : PVal) (key : string) : Result (PVal * PVal * PVal) :=
  match typ with
  | Arr record =>
      let? array := ok_or (as_array value) "field of a record that is not an array" in
      let? index := ok_or (fst <$> list_find (fun k => k = key) record) "record has no entry" in
      let? entry := ok_or (array !! index) "record slot is empty" in
      Ok (from_slots array, from_int (Z.of_nat index), entry)
  | _ =>
      let? dict := ok_or (as_dictionary value) "field of a value that is not a dictionary" in
      let? entry := ok_or (dict !! key) "no entry" in
      Ok (from_dict dict, from_str key, entry)
  end.

Definition resolve_entry (typ : Ty) (value : PVal) (key : string) : Result (PVal * PVal * PVal) :=
  runwrap (try_resolve_entry typ value key).

Definition as_value (x : VarOrValue) : Result PVal :=
  match x with
  | IsValue v => Ok v
  | IsVar v =>
      let? value := expect (v_value v) "has value at exec time" in
      match v_key v with
      | None => Ok value
      | Some key => rmap snd (resolve_entry (v_typ v) value key)
      end
  end.

(** An operation argument: a literal, or the entry a containment statement
    pins. *)
Definition as_op_arg (x : VarOrValue) : Result Arg :=
  match x with
  | IsValue v => Ok (Lit (raw v))
  | IsVar v =>
      let? value := expect (v_value v) "has value at exec time" in
      match v_key v with
      | Some key =>
          let? (container, k, _) := resolve_entry (v_typ v) value key in
          Ok (Entry (raw container) (raw k))
      | None => Ok (Lit (raw value))
      end
  end.

Definition set_value (value : PVal) (x : VarOrValue) : VarOrValue :=
  match x with
  | IsValue _ => IsValue value
  | IsVar v => IsVar (MkVar (v_name v) (v_typ v) (Some value) (v_key v))
  end.

(** [as_mut_value] followed by an assignment. *)
Definition assign (value : PVal) (x : VarOrValue) : Result VarOrValue :=
  match x with
  | IsValue _ => Ok (IsValue value)
  | IsVar v =>
      match v_key v, v_value v with
      | Some _, _ => Err (Panic "entry can't be mutated")
      | None, None => Err (Panic "has value at exec time")
      | None, Some _ => Ok (set_value value x)
      end
  end.

Definition to_dict (x : VarOrValue) : Result PDict :=
  let? v := as_value x in expect (as_dictionary v) "is dict".

(** [mut_dict]: the new dictionary is written back. *)
Definition mut_dict (f : PDict -> Result PDict) (x : VarOrValue) : Result VarOrValue :=
  let? v := match x with
            | IsValue v => Ok v
            | IsVar v =>
                match v_key v with
                | Some _ => Err (Panic "entry can't be mutated")
                | None => expect (v_value v) "has value at exec time"
                end
            end in
  let? dict := expect (as_dictionary v) "is dict" in
  let? dict' := f dict in
  assign (from_dict dict') x.

(** ** Lookups *)

Definition container_lookup (container key : PVal) : Result PVal :=
  let? get := ok_or (as_container container) "not a container" in
  ok_or (get (raw key)) "no entry at key".

Inductive Lookup : Type := DictLookup | ArrayLookup.

#[global] Instance Lookup_eq_dec : EqDecision Lookup.
Proof. solve_decision. Defined.

Definition lookup_pred (l : Lookup) : NativePredicate :=
  match l with DictLookup => DictContains | ArrayLookup => ArrayContains end.
Definition key_type (l : Lookup) : Ty := match l with DictLookup => Str | ArrayLookup => Int end.

Definition check_container_kind (lookup : Lookup) (container : VarOrValue) : Result unit :=
  let ok := match container with
            | IsValue v =>
                match lookup with
                | DictLookup => bool_decide (is_Some (as_dictionary v))
                | ArrayLookup => bool_decide (is_Some (as_array v))
                end
            | IsVar v =>
                match v_key v with
                | Some _ => true
                | None =>
                    match v_typ v with
                    | Dict => bool_decide (lookup = DictLookup)
                    | Arr _ => bool_decide (lookup = ArrayLookup)
                    | Unk | Raw => true
                    | Int | Str => false
                    end
                end
            end in
  if ok then Ok tt else Err (Fail "container is of another kind").

(** ** Instructions *)

Inductive Intro : Type := Vdf | LtEqU256.

(** The fields in [option] are captured at Execute and [None] at Load. *)
Inductive Inst : Type :=
| IObject (io : ObjectIO) (obj : Ref) (class : string) (original : option PDict)
| IUpdate (obj key : string) (value : Ref) (op_arg : option Arg) (old_dict new_dict : option PDict)
| ISet (obj : string) (kvs : list (string * Ref)) (op_args : option (list Arg)) (final_dict : option PDict)
| IStatement (pred : NativePredicate) (args : list Ref) (op_args : option (list Arg))
| IIntro (pred : Intro) (args : list Ref) (statement : option Statement) (op_args : option (list Arg))
| ISubAction (action : string) (obj : Ref) (st_sub : option Statement)
    (sub_out : option (Value * nat * PDict)).

(** ** The action context *)

Record VarState : Type := MkVarState { anonymous : bool; ts : nat; dict_read : bool }.
Definition VarState_default : VarState := MkVarState false 0 false.

(** Shared by an action and its sub-actions while they execute. *)
Record ExeContext : Type := MkExe {
  x_mock : bool;
  x_tx : TxBuilder.TxBuilder;
  x_inputs : list PDict;
  x_outputs : list Dictionary;
  x_draws : nat;
}.

Record ActionContext : Type := MkAction {
  a_name : string;
  cells : list VarOrValue;
  insts : list Inst;
  vars : list string;
  var_state : gmap string VarState;
  anon_seq : nat;
  exe_ctx : option ExeContext;
  unsafe_block : bool;
  args : list string;
  supplied_args : gmap string PVal;
}.

Definition set_cells (v : list VarOrValue) (c : ActionContext) : ActionContext :=
  let '(MkAction n _ i vs st q x u a p) := c in MkAction n v i vs st q x u a p.
Definition set_insts (v : list Inst) (c : ActionContext) : ActionContext :=
  let '(MkAction n r _ vs st q x u a p) := c in MkAction n r v vs st q x u a p.
Definition set_vars (v : list string) (c : ActionContext) : ActionContext :=
  let '(MkAction n r i _ st q x u a p) := c in MkAction n r i v st q x u a p.
Definition set_var_state (v : gmap string VarState) (c : ActionContext) : ActionContext :=
  let '(MkAction n r i vs _ q x u a p) := c in MkAction n r i vs v q x u a p.
Definition set_anon_seq (v : nat) (c : ActionContext) : ActionContext :=
  let '(MkAction n r i vs st _ x u a p) := c in MkAction n r i vs st v x u a p.
Definition set_exe_ctx (v : option ExeContext) (c : ActionContext) : ActionContext :=
  let '(MkAction n r i vs st q _ u a p) := c in MkAction n r i vs st q v u a p.
Definition set_unsafe_block (v : bool) (c : ActionContext) : ActionContext :=
  let '(MkAction n r i vs st q x _ a p) := c in MkAction n r i vs st q x v a p.
Definition set_args (v : list string) (c : ActionContext) : ActionContext :=
  let '(MkAction n r i vs st q x u _ p) := c in MkAction n r i vs st q x u v p.
Definition set_supplied_args (v : gmap string PVal) (c : ActionContext) : ActionContext :=
  let '(MkAction n r i vs st q x u a _) := c in MkAction n r i vs st q x u a v.

Abbreviation A := (eff ActionContext).

Definition modify (f : ActionContext -> ActionContext) : A unit := fun c => (Ok tt, f c).

Definition is_exe (c : ActionContext) : bool := bool_decide (is_Some (exe_ctx c)).

(** Cells: [Rc::new(RefCell::new(x))], [borrow] and [borrow_mut]. *)
Definition alloc (x : VarOrValue) : A Ref := fun c => (Ok (length (cells c)), set_cells (cells c ++ [x]) c).
Definition borrow (r : Ref) : A VarOrValue := eread (fun c => expect (cells c !! r) "no such cell").
Definition write (r : Ref) (x : VarOrValue) : A unit := modify (fun c => set_cells (<[r := x]> (cells c)) c).

Definition add_var (var : string) : A unit :=
  let! c := eget in
  match var_state c !! var with
  | Some _ => ethrow (Fail "var already exists")
  | None =>
      modify (fun c => set_var_state (<[var := VarState_default]> (var_state c)) c) ;!
      modify (fun c => set_vars (vars c ++ [var]) c)
  end.

(** Generated names carry a prefix and a counter; the loop skips the taken
    ones. One more try than there are variables always finds a free one. *)
Definition anon_name (tag : string) (seq : nat) : string := "_" +:+ tag +:+ pretty seq.

Fixpoint find_name (fuel : nat) (used : gmap string VarState) (tag : string) (seq : nat) : option (string * nat) :=
  match fuel with
  | O => None
  | S fuel' =>
      let name := anon_name tag seq in
      match used !! name with
      | Some _ => find_name fuel' used tag (S seq)
      | None => Some (name, S seq)
      end
  end.

Definition update_state (var : string) (f : VarState -> VarState) (c : ActionContext) : ActionContext :=
  set_var_state (alter f var (var_state c)) c.

Definition new_witness (tag : string) (typ : Ty) : A Ref :=
  let! c := eget in
  elift (rassert (negb (unsafe_block c)) "cannot register a witness inside unsafe") ;!
  let! (name, seq) := elift (expect (find_name (S (size (var_state c))) (var_state c) tag (anon_seq c))
    "the loop ends") in
  modify (set_anon_seq seq) ;!
  add_var name ;!
  modify (update_state name (fun s => MkVarState true (ts s) (dict_read s))) ;!
  alloc (IsVar (MkVar name typ None None)).

(** [Update] and [Set] hold the name of their target. *)
Definition rename_inst (old new : string) (i : Inst) : Inst :=
  match i with
  | IUpdate obj key value op_arg d d' =>
      IUpdate (if bool_decide (obj = old) then new else obj) key value op_arg d d'
  | ISet obj kvs op_args d => ISet (if bool_decide (obj = old) then new else obj) kvs op_args d
  | _ => i
  end.

Definition rename_var (old new : string) : A unit :=
  if bool_decide (old = new) then eret tt
  else
    let! c := eget in
    match var_state c !! new with
    | Some _ => ethrow (Fail "var already exists")
    | None =>
        let! state := elift (expect (var_state c !! old) "renaming a live var") in
        modify (fun c => set_var_state (<[new := state]> (delete old (var_state c))) c) ;!
        let! (i, _) := elift (expect (list_find (fun v => v = old) (vars c)) "renaming a registered var") in
        modify (fun c => set_vars (<[i := new]> (vars c)) c) ;!
        modify (fun c => set_insts (rename_inst old new <$> insts c) c)
    end.

Definition inc_t_var (var : string) : A unit :=
  let! c := eget in
  let! _ := elift (expect (var_state c !! var) "var exists") in
  modify (update_state var (fun s => MkVarState (anonymous s) (S (ts s)) (dict_read s))).

(** The name a cell has as a variable; [None] for a literal. *)
Definition cell_name (cs : list VarOrValue) (r : Ref) : option string :=
  match cs !! r with Some (IsVar v) => Some (v_name v) | _ => None end.

Definition object_io (c : ActionContext) (var : string) : option ObjectIO :=
  head (omap (fun i => match i with
                       | IObject io obj _ _ => if bool_decide (cell_name (cells c) obj = Some var) then Some io else None
                       | _ => None
                       end) (insts c)).

Definition mark_dict_read (var : string) : A unit :=
  modify (update_state var (fun s => MkVarState (anonymous s) (ts s) true)).

Definition output_max_ts (base_ts : nat) (is_output : bool) : nat := if is_output then S base_ts else base_ts.
Definition initials_ts (max_ts : nat) : nat := pred max_ts.

Definition output_vars (c : ActionContext) : gset string :=
  list_to_set (omap (fun i => match i with
                              | IObject Output obj _ _ => cell_name (cells c) obj
                              | _ => None
                              end) (insts c)).

Definition max_ts_per_var (c : ActionContext) : gmap string nat :=
  map_imap (fun k v => Some (output_max_ts (ts v) (bool_decide (k ∈ output_vars c)))) (var_state c).

(** What an instruction that refers to [var] as a whole object or through a
    field has pinned. *)
Definition names_var (cs : list VarOrValue) (var : string) (r : Ref) : bool :=
  bool_decide (cell_name cs r = Some var).

Definition pinned_by (cs : list VarOrValue) (var : string) (i : Inst) : option string :=
  match i with
  | IUpdate obj _ value _ _ _ => if bool_decide (obj = var) || names_var cs var value then Some "update" else None
  | ISet _ kvs _ _ => if existsb (names_var cs var) (snd <$> kvs) then Some "another object's set" else None
  | IStatement _ rs _ => if existsb (names_var cs var) rs then Some "a statement" else None
  | IIntro _ rs _ _ => if existsb (names_var cs var) rs then Some "an intro pod" else None
  | IObject _ _ _ _ | ISubAction _ _ _ _ => None
  end.

Definition check_settable (var : string) (c : ActionContext) : Result unit :=
  rensure (negb (bool_decide (var = "?"))) "set: bind the object with `var` first" ;?
  match object_io c var with
  | Some Output => Ok tt
  | Some _ => Err (Fail "only an output object can be initialized with set")
  | None => Err (Fail "expected an output object declared in this action")
  end ;?
  let pinned :=
    match head (omap (pinned_by (cells c) var) (insts c)) with
    | Some op => Some op
    | None =>
        match var_state c !! var with
        | Some s => if dict_read s then Some "pow_obj_grind" else None
        | None => None
        end
    end in
  match pinned with
  | Some op => Err (Fail (op +:+ " already committed to this object's contents"))
  | None => Ok tt
  end.

Definition assert_unsafe (want : bool) : A unit :=
  let! c := eget in
  if bool_decide (unsafe_block c = want) then eret tt
  else if unsafe_block c then ethrow (Fail "unexpected unsafe block")
  else ethrow (Fail "expected unsafe block").

Definition push_inst (i : Inst) : A unit := modify (fun c => set_insts (insts c ++ [i]) c).

(** [ActionContext::new]: the chain is a variable like any other. *)
Definition ActionContext_new (name : string) (exe : option ExeContext) : ActionContext :=
  MkAction name [] [] ["chain"] {["chain" := VarState_default]} 0 exe false [] ∅.

(** ** Arguments of host calls *)

(** A value of the script language. [DValue] is anything pod2 has a value
    for; [DHandle] is a handle returned by a host call. *)
Inductive Dyn : Type :=
| DUnit
| DValue (v : PVal)
| DString (s : string)
| DInt (z : Z)
| DBool (b : bool)
| DArray (l : list Dyn)
| DMap (l : list (string * Dyn))
| DHandle (r : Ref)
| DOther.

(** An element of a container literal. *)
Fixpoint literal_from_dynamic (cs : list VarOrValue) (d : Dyn) : Result PVal :=
  match d with
  | DValue v => Ok v
  | DString s => Ok (from_str s)
  | DInt z => Ok (from_int z)
  | DBool b => Ok (from_bool b)
  | DArray l =>
      let? vs := (fix go l := match l with
                              | [] => Ok []
                              | d :: l' => let? v := literal_from_dynamic cs d in let? vs := go l' in Ok (v :: vs)
                              end) l in
      Ok (from_slots (map_seq 0 vs))
  | DMap l =>
      let? kvs := (fix go l := match l with
                               | [] => Ok []
                               | (k, d) :: l' =>
                                   let? v := literal_from_dynamic cs d in let? kvs := go l' in Ok ((k, v) :: kvs)
                               end) l in
      Ok (from_dict (list_to_map kvs))
  | DHandle r =>
      match cs !! r with
      | Some (IsValue v) => Ok v
      | Some (IsVar _) => Err (Fail "container literal: element is a var, not a literal")
      | None => Err (Panic "no such cell")
      end
  | DUnit | DOther => Err (Fail "invalid Ref type")
  end.

(** [try_ref_from_dynamic]: a handle is its own cell, a value gets a new one. *)
Definition try_ref_from_dynamic (d : Dyn) : A Ref :=
  match d with
  | DHandle r => eret r
  | _ =>
      let! c := eget in
      let! v := elift (literal_from_dynamic (cells c) d) in
      alloc (IsValue v)
  end.

Definition try_value_from_dynamic (d : Dyn) : A PVal :=
  match d with
  | DHandle r => let! x := borrow r in elift (as_value x)
  | _ => let! c := eget in elift (literal_from_dynamic (cells c) d)
  end.

Definition value_to_dynamic (v : PVal) : Dyn :=
  match as_int v with
  | Some n => DInt n
  | None => match as_str v with Some s => DString s | None => DValue v end
  end.

Definition set_of (cs : list VarOrValue) (d : Dyn) : Result PVal :=
  match d with
  | DArray l => rmap from_set (try_map (literal_from_dynamic cs) l)
  | _ => Err (Fail "set_of: expected an array of elements")
  end.

Definition validate_arg (d : Dyn) (typ : Ty) : A Ref :=
  let! r := try_ref_from_dynamic d in
  let! x := borrow r in
  elift (type_check x typ) ;!
  eret r.

Fixpoint validate_args (l : list (Dyn * Ty)) : A (list Ref) :=
  match l with
  | [] => eret []
  | (d, typ) :: l' => let! r := validate_arg d typ in let! rs := validate_args l' in eret (r :: rs)
  end.

Definition dynamic_to_kvs (d : Dyn) : A (list (string * Ref)) :=
  match d with
  | DArray l =>
      let! pairs := elift (try_map (fun kv => match kv with
                                              | DArray p => Ok p
                                              | _ => Err (Fail "kv not array")
                                              end) l) in
      efold (fun kvs kv =>
        match kv with
        | [DString k; v] => let! r := try_ref_from_dynamic v in eret (app kvs [(k, r)])
        | [_; _] => ethrow (Fail "k not string")
        | _ => ethrow (Fail "kv.len != 2")
        end) [] pairs
  | _ => ethrow (Fail "kvs not array")
  end.

(** Arguments are captured at Execute, when the statement is evaluated. *)
Definition capture_op_args (rs : list Ref) : A (option (list Arg)) :=
  let! c := eget in
  if is_exe c then
    let! l := elift (try_map (fun r => let? x := expect (cells c !! r) "no such cell" in as_op_arg x) rs) in
    eret (Some l)
  else eret None.

Definition capture_op_arg (r : Ref) : A (option Arg) :=
  let! c := eget in
  if is_exe c then let! x := borrow r in let! a := elift (as_op_arg x) in eret (Some a) else eret None.
End Values.

Arguments MkVar {_ _}.
Arguments MkAction {_ _}.
End Sdk.
