(* ===== verification/SdkCalls.v ===== *)
(** * The host calls of action scripts (libs/sdk/src/lib.rs)

    The methods a script can call on the action context and on the handles it
    returns, each at Load and at Execute. [call] is the whole interface and
    [run_script] a script's run; a failing call ends it. *)

From S2P Require Import Prelude Pod2 Models DonState Podlang TxModel Replay TxBuilder Sdk.

Module SdkCalls.
Import Podlang TxModel Sdk.
Local Open Scope string_scope.

(** What a call may need from outside the context: random values, of which
    [rand_raw_value n] is the [n]th drawn, and the introduction pods, of which
    the first public statement is used. *)
Class SdkEnv `{PodValues} : Type := {
  rand_raw_value : nat -> Value;
  vdf_pod : bool -> Z -> Value -> Result Statement;
  lt_eq_u256_pod : bool -> Value -> Value -> Result Statement;
}.

(** ** 256-bit comparison and arithmetic *)

(** From the most significant limb down. *)
Definition u256_gt (a b : Hash) : bool :=
  let fix go (l : list (Z * Z)) : bool :=
    match l with
    | [] => false
    | (la, lb) :: l' => if (la =? lb)%Z then go l' else (la >? lb)%Z
    end in
  go (rev (zip (limbs a) (limbs b))).

Inductive ArithOp : Type := Add | Sub | Mul.

Definition checked_i64 (z : Z) : option Z := if ((i64_min <=? z) && (z <=? i64_max))%Z then Some z else None.

Definition arith_apply (op : ArithOp) (a b : Z) : option Z :=
  checked_i64 match op with Add => a + b | Sub => a - b | Mul => a * b end.

(** ** Native statements *)

(** The statement methods and the types their arguments are checked against. *)
Definition st_method (name : string) : option (NativePredicate * list Ty) :=
  match name with
  | "st_equal" => Some (Equal, [Unk; Unk])
  | "st_not_equal" => Some (Script NotEqual, [Unk; Unk])
  | "st_lt" => Some (Script IntLt, [Int; Int])
  | "st_lt_eq" => Some (Script IntLtEq, [Int; Int])
  | "st_gt" => Some (Script IntGt, [Int; Int])
  | "st_gt_eq" => Some (Script IntGtEq, [Int; Int])
  | "st_sum" => Some (Script Sum, [Int; Int; Int])
  | "st_product" => Some (Script Product, [Int; Int; Int])
  | "st_max" => Some (Script Max, [Int; Int; Int])
  | "st_hash" => Some (HashOf, [Unk; Unk; Unk])
  | "st_contains" => Some (Script Contains, [Unk; Unk; Unk])
  | "st_not_contains" => Some (Script NotContains, [Unk; Unk])
  | "st_dict_contains" => Some (DictContains, [Dict; Str; Unk])
  | "st_dict_not_contains" => Some (Script DictNotContains, [Dict; Str])
  | "st_set_contains" => Some (SetContains, [Unk; Unk])
  | "st_set_not_contains" => Some (Script SetNotContains, [Unk; Unk])
  | "st_array_contains" => Some (ArrayContains, [Unk; Int; Unk])
  | "st_container_insert" => Some (Script ContainerInsert, [Unk; Unk; Unk; Unk])
  | "st_container_update" => Some (Script ContainerUpdate, [Unk; Unk; Unk; Unk])
  | "st_container_delete" => Some (Script ContainerDelete, [Unk; Unk; Unk])
  | "st_dict_insert" => Some (DictInsert, [Dict; Str; Unk; Dict])
  | "st_dict_update" => Some (DictUpdate, [Dict; Str; Unk; Dict])
  | "st_dict_delete" => Some (DictDelete, [Dict; Str; Dict])
  | "st_set_insert" => Some (SetInsert, [Unk; Unk; Unk])
  | "st_set_delete" => Some (Script SetDelete, [Unk; Unk; Unk])
  | "st_array_update" => Some (Script ArrayUpdate, [Unk; Int; Unk; Unk])
  | _ => None
  end.

Section Calls.
Context `{SdkEnv}.

(** What a sub-action's run leaves to its parent: the statement, and for one
    that produces an object the cell of the first with its place and value in
    the sub-action's record. *)
Abbreviation SubResult := (Statement * option (VarOrValue * (Value * nat * PDict)))%type.

Context (class_hashes : gmap string Hash) (run_sub : string -> eff ExeContext SubResult).

Abbreviation A := (eff ActionContext).

(** ** The shared execution context *)

Definition on_exe {B} (f : eff ExeContext B) : A B := fun c =>
  match exe_ctx c with
  | None => (Err (Panic "exe phase"), c)
  | Some x => let '(r, x') := f x in (r, set_exe_ctx (Some x') c)
  end.

Definition set_inputs (v : list PDict) (x : ExeContext) : ExeContext :=
  let '(MkExe m t _ o d) := x in MkExe m t v o d.

(** [Vec::pop] *)
Definition pop_input : eff ExeContext PDict := fun x =>
  match last (x_inputs x) with
  | Some d => (Ok d, set_inputs (take (pred (length (x_inputs x))) (x_inputs x)) x)
  | None => (Err (Panic "exists"), x)
  end.

Definition rand_value : eff ExeContext PVal := fun x =>
  let '(MkExe m t i o d) := x in (Ok (from_raw (rand_raw_value d)), MkExe m t i o (S d)).

Definition new_obj (class : string) : eff ExeContext PDict :=
  let! type_hash := elift (expect (class_hashes !! class) "no predicate hash registered") in
  let! key := rand_value in
  eret (<["type" := from_raw type_hash]> {["key" := key]}).

(** Changing a cell through [borrow_mut]. *)
Definition update_cell (r : Ref) (f : VarOrValue -> Result VarOrValue) : A unit :=
  let! x := borrow r in let! x' := elift (f x) in write r x'.
Definition put_value (r : Ref) (v : PVal) : A unit := update_cell r (fun x => Ok (set_value v x)).

Definition if_exe (f : A unit) : A unit := let! c := eget in if is_exe c then f else eret tt.

(** ** Objects *)

Definition obj_io (io : ObjectIO) (class : string) : A Dyn :=
  elift (validate_class_name class) ;!
  let! arg := alloc (new_var Dict) in
  assert_unsafe false ;!
  let! c := eget in
  let! original :=
    (if is_exe c then
       match io with
       | Output => let! d := on_exe (new_obj class) in put_value arg (from_dict d) ;! eret None
       | Input => let! d := on_exe pop_input in put_value arg (from_dict d) ;! eret None
       | Mutate => let! d := on_exe pop_input in put_value arg (from_dict d) ;! eret (Some d)
       end
     else eret None) in
  push_inst (IObject io arg class original) ;!
  inc_t_var "chain" ;!
  eret (DHandle arg).

(** The sub-action is over, so the cell of its first produced object is the
    parent's from here on: the placeholder takes its type and value. Both are
    unnamed, so that only a binding in the parent names it. *)
Definition adopt (x placeholder : VarOrValue) : Result VarOrValue :=
  match x, placeholder with
  | IsVar v, IsVar w => Ok (IsVar (MkVar (v_name w) (v_typ v) (v_value v) (v_key w)))
  | _, _ => Err (Panic "not a var")
  end.

Definition subaction (action : string) : A Dyn :=
  assert_unsafe false ;!
  let! arg := alloc (new_var Dict) in
  let! c := eget in
  let! (st_sub, sub_out) :=
    (if is_exe c then
       let! (st, out) := on_exe (run_sub action) in
       match out with
       | Some (x, placed) => update_cell arg (adopt x) ;! eret (Some st, Some placed)
       | None => eret (Some st, None)
       end
     else eret (None, None)) in
  push_inst (ISubAction action arg st_sub sub_out) ;!
  inc_t_var "chain" ;!
  eret (DHandle arg).

(** ** Statements and lookups *)

Definition native_st (pred : NativePredicate) (rs : list Ref) : A unit :=
  assert_unsafe false ;!
  let! op_args := capture_op_args rs in
  push_inst (IStatement pred rs op_args).

(** The script engine only knows a method with its number of arguments. *)
Definition st_call (name : string) (ds : list Dyn) : A Dyn :=
  match st_method name with
  | Some (pred, types) =>
      if bool_decide (length ds = length types) then
        let! rs := validate_args (zip ds types) in native_st pred rs ;! eret DUnit
      else ethrow (Fail "function not found")
  | None => ethrow (Fail "function not found")
  end.

Definition container_get (lookup : Lookup) (container key : Dyn) : A Dyn :=
  let! container := validate_arg container Unk in
  let! x := borrow container in
  elift (check_container_kind lookup x) ;!
  let! key := validate_arg key (key_type lookup) in
  assert_unsafe false ;!
  let! entry := new_witness "get" Unk in
  let! c := eget in
  let! x := borrow container in
  let! k := borrow key in
  (if is_exe c then
     let! cv := elift (as_value x) in
     let! kv := elift (as_value k) in
     let! found := elift (container_lookup cv kv) in
     put_value entry found
   else match x, k with
        | IsValue cv, IsValue kv => let! _ := elift (container_lookup cv kv) in eret tt
        | _, _ => eret tt
        end) ;!
  let rs := [container; key; entry] in
  let! op_args := capture_op_args rs in
  push_inst (IStatement (lookup_pred lookup) rs op_args) ;!
  eret (DHandle entry).

Definition intro_vdf (n_iters input : Dyn) : A Dyn :=
  let! n_iters := validate_arg n_iters Int in
  let! input := validate_arg input Raw in
  assert_unsafe false ;!
  let! work := new_witness "vdf" Raw in
  let! c := eget in
  let! statement :=
    match exe_ctx c with
    | Some x =>
        let! n := borrow n_iters in
        let! n := elift (as_value n) in
        let! n := elift (expect (as_int n) "int") in
        let! inp := borrow input in
        let! inp := elift (as_value inp) in
        let! st := elift (vdf_pod (x_mock x) (as_u64 n) (raw inp)) in
        let! out := elift (match st_args st !! 2%nat with
                           | Some (Lit v) => Ok v
                           | _ => Err (Panic "index out of bounds")
                           end) in
        put_value work (from_raw out) ;!
        eret (Some st)
    | None => eret None
    end in
  let rs := [n_iters; input; work] in
  let! op_args := capture_op_args rs in
  push_inst (IIntro Vdf rs statement op_args) ;!
  eret (DHandle work).

Definition intro_lt_eq_u256 (lhs rhs : Dyn) : A Dyn :=
  let! lhs := validate_arg lhs Raw in
  let! rhs := validate_arg rhs Raw in
  assert_unsafe false ;!
  let! c := eget in
  let! statement :=
    match exe_ctx c with
    | Some x =>
        let! l := borrow lhs in
        let! l := elift (as_value l) in
        let! r := borrow rhs in
        let! r := elift (as_value r) in
        let! st := elift (lt_eq_u256_pod (x_mock x) (raw l) (raw r)) in
        eret (Some st)
    | None => eret None
    end in
  let rs := [lhs; rhs] in
  let! op_args := capture_op_args rs in
  push_inst (IIntro LtEqU256 rs statement op_args) ;!
  eret DUnit.

Definition top_limb_u256 (n : Dyn) : A Dyn :=
  let! r := validate_arg n Int in
  let! x := borrow r in
  match x with
  | IsValue v =>
      let! z := elift (ok_or (as_int v) "top_limb_u256: expected int") in
      let! r := alloc (IsValue (from_raw (MkHash 0 0 0 (as_u64 z)))) in
      eret (DHandle r)
  | IsVar _ => ethrow (Fail "top_limb_u256: n must be a literal integer")
  end.

(** ** Handles *)

Definition type_check_ref (r : Ref) (typ : Ty) : A unit := let! x := borrow r in elift (type_check x typ).

(** The object stays borrowed while its fields are written, so a field cannot
    be read from the object's own cell. *)
Definition set_fields (r : Ref) (kvs : list (string * Ref)) : A unit :=
  efold (fun _ '(key, value) =>
    elift (rassert (negb (bool_decide (value = r))) "already mutably borrowed") ;!
    let! v := borrow value in
    let! v := elift (as_value v) in
    update_cell r (fun x => runwrap (mut_dict (fun d => pdict_ins d key v) x))) tt kvs.

Definition set (r : Ref) (kvs : Dyn) : A Dyn :=
  type_check_ref r Dict ;!
  let! kvs := dynamic_to_kvs kvs in
  let! x := borrow r in
  match x with
  | IsValue _ => eret DUnit
  | IsVar var =>
      assert_unsafe false ;!
      let! c := eget in
      elift (check_settable (v_name var) c) ;!
      let! op_args := capture_op_args (snd <$> kvs) in
      let! final_dict :=
        (if is_exe c then
           set_fields r kvs ;!
           let! x := borrow r in let! d := elift (to_dict x) in eret (Some d)
         else eret None) in
      push_inst (ISet (v_name var) kvs op_args final_dict) ;!
      eret DUnit
  end.

Definition update (r : Ref) (key : string) (value : Dyn) : A Dyn :=
  type_check_ref r Dict ;!
  let! x := borrow r in
  match x with
  | IsValue _ => eret DUnit
  | IsVar var =>
      let! value := try_ref_from_dynamic value in
      assert_unsafe false ;!
      let! op_arg := capture_op_arg value in
      let! c := eget in
      let! (old_dict, new_dict) :=
        (if is_exe c then
           let! v := borrow value in
           let! v := elift (as_value v) in
           let! x := borrow r in
           let! d := elift (to_dict x) in
           update_cell r (fun x => runwrap (mut_dict (fun d => pdict_upd d key v) x)) ;!
           let! x' := borrow r in
           let! d' := elift (to_dict x') in
           eret (Some d, Some d')
         else eret (None, None)) in
      inc_t_var (v_name var) ;!
      push_inst (IUpdate (v_name var) key value op_arg old_dict new_dict) ;!
      eret DUnit
  end.

Definition commitment (r : Ref) : A Dyn :=
  let! x := borrow r in
  match x with
  | IsValue _ => ethrow (Fail "commitment: expected an object")
  | IsVar v =>
      let! c := eget in
      match v_key v, object_io c (v_name v) with
      | None, Some _ =>
          let! r' := alloc (IsVar (MkVar (v_name v) Raw ((fun p => from_raw (raw p)) <$> v_value v) None)) in
          eret (DHandle r')
      | _, _ => ethrow (Fail "commitment: not an object")
      end
  end.

Definition entry (r : Ref) (index : string) : A Dyn :=
  let! x := borrow r in
  match x with
  | IsValue value =>
      let! (_, _, e) := elift (try_resolve_entry Dict value index) in
      let! r' := alloc (IsValue e) in
      eret (DHandle r')
  | IsVar v =>
      match v_typ v with
      | Raw => ethrow (Fail "has no fields")
      | Arr record => elift (rensure (bool_decide (index ∈ record)) "record has no entry")
      | _ => eret tt
      end ;!
      match v_value v with
      | Some value => let! _ := elift (try_resolve_entry (v_typ v) value index) in eret tt
      | None => eret tt
      end ;!
      let! r' := alloc (IsVar (MkVar (v_name v) (v_typ v) (v_value v) (Some index))) in
      eret (DHandle r')
  end.

(** [var_assign]: at Load nothing happens. *)
Definition var_assign (lhs : Ref) (rhs : Dyn) : A Dyn :=
  let! c := eget in
  (if is_exe c then
     let! v := try_value_from_dynamic rhs in
     update_cell lhs (assign v)
   else eret tt) ;!
  eret DUnit.

(** ** Inside [unsafe] *)

Definition arg_arith (op : ArithOp) (a b : Ref) : A Dyn :=
  type_check_ref a Int ;!
  type_check_ref b Int ;!
  assert_unsafe true ;!
  let! c := eget in
  let! value := alloc (new_var Int) in
  (if is_exe c then
     let int r := let! x := borrow r in let! v := elift (as_value x) in
                  elift (ok_or (as_int v) "operand is not an int") in
     let! x := int a in
     let! y := int b in
     let! z := elift (ok_or (arith_apply op x y) "integer overflow") in
     put_value value (from_int z)
   else eret tt) ;!
  eret (DHandle value).

Definition random : A Dyn :=
  assert_unsafe true ;!
  let! value := alloc (new_var Raw) in
  if_exe (let! v := on_exe rand_value in put_value value v) ;!
  eret (DHandle value).

Definition action_arg (name : string) : A Dyn :=
  assert_unsafe true ;!
  let! c := eget in
  (if negb (is_exe c) && negb (bool_decide (name ∈ args c))
   then modify (fun c => set_args (app (args c) [name]) c) else eret tt) ;!
  eret (from_option value_to_dynamic DUnit (supplied_args c !! name)).

(** The search for a nonce: random values until the commitment is at most the
    target. The copy made every 256 rounds has the same contents. *)
Fixpoint grind (fuel : nat) (draw : nat) (obj : PDict) (key : string) (v : PVal) (target : Value) :
    option (Result (PVal * nat)) :=
  if u256_gt (commitment_of obj) target then
    match fuel with
    | O => None
    | S fuel' =>
        let v' := from_raw (rand_raw_value draw) in
        match runwrap (pdict_upd obj key v') with
        | Ok obj' => grind fuel' (S draw) obj' key v' target
        | Err e => Some (Err e)
        end
    end
  else Some (Ok (v, draw)).

Definition set_draws (d : nat) (x : ExeContext) : ExeContext :=
  let '(MkExe m t i o _) := x in MkExe m t i o d.

(** [fuel] bounds the rounds that are followed. *)
Definition pow_obj_grind (fuel : nat) (obj : Dyn) (key_name : string) (target : Dyn) : A Dyn :=
  assert_unsafe true ;!
  let! obj := validate_arg obj Dict in
  let! target := validate_arg target Raw in
  let! x := borrow obj in
  match x with IsVar var => mark_dict_read (v_name var) | IsValue _ => eret tt end ;!
  let! value := alloc (new_var Raw) in
  let! c := eget in
  match exe_ctx c with
  | None => eret tt
  | Some e =>
      let! d := elift (to_dict x) in
      let! t := borrow target in
      let! t := elift (as_value t) in
      let! v := elift (ok_or (d !! key_name) "pow_obj_grind: object has no field") in
      let! v' :=
        (if x_mock e then eret v
         else match grind fuel (x_draws e) d key_name v (raw t) with
              | Some (Ok (v', draws)) => on_exe (fun e => (Ok v', set_draws draws e))
              | Some (Err err) => ethrow err
              | None => ethrow (Panic "still searching")
              end) in
      put_value value v'
  end ;!
  eret (DHandle value).

Definition unsafe_begin : A Dyn :=
  let! c := eget in
  if unsafe_block c then ethrow (Fail "unsafe already set")
  else modify (set_unsafe_block true) ;! eret DUnit.

Definition literal_type (v : PVal) : Ty :=
  if bool_decide (is_Some (as_int v)) then Int
  else if bool_decide (is_Some (as_str v)) then Str
  else if negb (is_untyped v) && bool_decide (is_Some (as_dictionary v)) then Dict
  else Raw.

(** What the block returns becomes a witness; a temporary that the block
    returns is turned into it, so that its other handles see it too. *)
Definition unsafe_end (result : Dyn) : A Dyn :=
  modify (set_unsafe_block false) ;!
  match result with
  | DUnit => eret DUnit
  | _ =>
      let! value := try_ref_from_dynamic result in
      let! x := borrow value in
      let typ := match x with
                 | IsVar v => match v_key v with None => v_typ v | Some _ => Unk end
                 | IsValue v => literal_type v
                 end in
      let! witness := new_witness "unsafe" typ in
      if_exe (let! v := elift (as_value x) in put_value witness v) ;!
      let! w := borrow witness in
      match x with
      | IsVar v =>
          if bool_decide (v_name v = "?") && bool_decide (v_key v = None)
          then write value w ;! eret (DHandle value)
          else eret (DHandle witness)
      | IsValue _ => eret (DHandle witness)
      end
  end.

(** ** Binding: [var name = expr] *)

Definition bind_var (name : string) (value : Dyn) : A Dyn :=
  match value with
  | DHandle r =>
      let! c := eget in
      if unsafe_block c then eret (DHandle r)
      else
        let! x := borrow r in
        match x with
        | IsValue _ => eret (DHandle r)
        | IsVar v =>
            (if from_option anonymous false (var_state c !! v_name v) then
               rename_var (v_name v) name ;!
               modify (update_state name (fun s => MkVarState false (ts s) (dict_read s)))
             else add_var name) ;!
            let! x' := elift (set_var_name name x) in
            write r x' ;!
            eret (DHandle r)
        end
  | _ => eret value
  end.

(** The record under which scripts see the grounding state. *)
Definition RECORD_STATE_HEADER : list string :=
  ["block_number"; "block_timestamp"; "block_hash"; "created"; "nullifiers"; "prior_state_history"].

Definition header_value (h : DonState.StateHeader) : PVal :=
  from_slots (map_seq 0
    [from_int (DonState.block_number h); from_int (DonState.block_timestamp h);
     from_raw (DonState.block_hash h); from_raw (DonState.created_root h);
     from_raw (DonState.nullifiers_root h); from_raw (DonState.prior_state_history_root h)]).

Definition state_header : A Dyn :=
  let! _ := etry (add_var "state_header") in
  let! c := eget in
  let value := (fun x => header_value (TxBuilder.tb_header (x_tx x))) <$> exe_ctx c in
  let! r := alloc (IsVar (MkVar "state_header" (Arr RECORD_STATE_HEADER) value None)) in
  eret (DHandle r).

(** ** Scripts *)

Inductive Call : Type :=
| CObject (io : ObjectIO) (class : string)
| CSubaction (action : string)
| CStatement (name : string) (ds : list Dyn)
| CLookup (lookup : Lookup) (container key : Dyn)
| CIntroVdf (n_iters input : Dyn)
| CIntroLtEq (lhs rhs : Dyn)
| CTopLimb (n : Dyn)
| CSet (r : Ref) (kvs : Dyn)
| CUpdate (r : Ref) (key : string) (value : Dyn)
| CCommitment (r : Ref)
| CEntry (r : Ref) (index : string)
| CAssign (lhs : Ref) (rhs : Dyn)
| CArith (op : ArithOp) (a b : Dyn)
| CRandom
| CArg (name : string)
| CGrind (fuel : nat) (obj : Dyn) (key : string) (target : Dyn)
| CUnsafe
| CUnsafeEnd (result : Dyn)
| CVar (name : string) (value : Dyn).

Definition call (k : Call) : A Dyn :=
  match k with
  | CObject io class => obj_io io class
  | CSubaction action => subaction action
  | CStatement name ds => st_call name ds
  | CLookup lookup container key => container_get lookup container key
  | CIntroVdf n input => intro_vdf n input
  | CIntroLtEq lhs rhs => intro_lt_eq_u256 lhs rhs
  | CTopLimb n => top_limb_u256 n
  | CSet r kvs => set r kvs
  | CUpdate r key value => update r key value
  | CCommitment r => commitment r
  | CEntry r index => entry r index
  | CAssign lhs rhs => var_assign lhs rhs
  | CArith op a b => let! ra := try_ref_from_dynamic a in let! rb := try_ref_from_dynamic b in arg_arith op ra rb
  | CRandom => random
  | CArg name => action_arg name
  | CGrind fuel obj key target => pow_obj_grind fuel obj key target
  | CUnsafe => unsafe_begin
  | CUnsafeEnd result => unsafe_end result
  | CVar name value => bind_var name value
  end.

(** The script is entered with the state header bound. A script stands for the
    host calls it makes; the control flow of Rhai that leads to them (such as a
    default for a missing argument) is the engine's, so that two runs of one
    script may be runs of two lists. *)
Definition run_calls (ks : list Call) : A unit := efold (fun _ k => let! _ := call k in eret tt) tt ks.
Definition run_script (ks : list Call) : A unit := let! _ := state_header in run_calls ks.
End Calls.
End SdkCalls.
