(* ===== verification/SdkMeta.v ===== *)
(** * Action and class metadata (libs/sdk/src/lib.rs)

    What the SDK derives from the instructions a script recorded at Load: the
    objects of an action, the entries of its records and which of them must
    stay wildcards, and the classes of a module with the branches of their
    guards. *)

From S2P Require Import Prelude Pod2 Models DonState Podlang TxModel Replay TxBuilder Sdk.

Module SdkMeta.
Import Podlang TxModel Sdk.
Local Open Scope string_scope.

(** ** Data *)

Record ActionObjectRef : Type := MkObjRef { o_io : ObjectIO; o_class : string; o_varname : string }.

Record MutatedObjectSlots : Type := MkSlots { input_index : nat; output_index : nat }.

Record EntryShape : Type := MkEntry { e_varname : string; needs_wildcard : bool }.

Inductive ActionKind : Type := ScriptAction | RekeyAction.

Record ActionMeta : Type := MkMeta {
  m_name : string;
  m_kind : ActionKind;
  object_refs : list ActionObjectRef;
  total_inputs : list ActionObjectRef;
  total_outputs : list ActionObjectRef;
  in_entries : list EntryShape;
  out_entries : list EntryShape;
  initials_entries : option (list EntryShape);
  chain_max_ts : nat;
  var_max_ts : gmap string nat;
  m_args : list string;
}.

(** [ActionMeta::rekey] *)
Definition rekey_meta (class : string) : ActionMeta :=
  let object := MkObjRef Mutate class "state" in
  MkMeta ("Rekey" +:+ class) RekeyAction [object] [object] [object] [] [] None 0 ∅ [].

Definition local_inputs (m : ActionMeta) : list ActionObjectRef := filter (fun r => consumes (o_io r) = true) (object_refs m).
Definition local_outputs (m : ActionMeta) : list ActionObjectRef := filter (fun r => produces (o_io r) = true) (object_refs m).

(** ** Mutated objects *)

(** The positions of the [Mutate] references, counted from [i]. *)
Fixpoint mutate_positions (i : nat) (refs : list ActionObjectRef) : list nat :=
  match refs with
  | [] => []
  | r :: refs' => app (if bool_decide (o_io r = Mutate) then [i] else []) (mutate_positions (S i) refs')
  end.

(** [zip_eq] panics when the lists have different lengths. *)
Fixpoint zip_eq {A B} (l : list A) (k : list B) : Result (list (A * B)) :=
  match l, k with
  | [], [] => Ok []
  | a :: l', b :: k' => let? r := zip_eq l' k' in Ok ((a, b) :: r)
  | _, _ => Err (Panic "zip_eq reached the end of one iterator before the other")
  end.

Definition total_mutations (m : ActionMeta) : Result (list MutatedObjectSlots) :=
  rmap (map (fun '(i, o) => MkSlots i o))
    (zip_eq (mutate_positions 0 (total_inputs m)) (mutate_positions 0 (total_outputs m))).

(** ** Entries of the records *)

Definition find_entry (varname : string) (l : list EntryShape) : option (nat * EntryShape) :=
  list_find (fun e => e_varname e = varname) l.

Definition initials_entry (m : ActionMeta) (varname : string) : option (nat * EntryShape) :=
  initials_entries m ≫= find_entry varname.

(** The in-entries come first in the record, then the out-entries. *)
Definition in_entry (m : ActionMeta) (varname : string) : option (nat * EntryShape) :=
  find_entry varname (in_entries m).
Definition out_entry (m : ActionMeta) (varname : string) : option (nat * EntryShape) :=
  (fun '(i, e) => ((i + length (in_entries m))%nat, e)) <$> find_entry varname (out_entries m).

Definition max_ts (m : ActionMeta) (varname : string) : Result nat :=
  expect (var_max_ts m !! varname) "varname is a var of this action".

Inductive Side : Type := SideIn | SideOut.
Inductive Collapse : Type := CollapseIO (s : Side) | CollapseInitials.

#[global] Instance Side_eq_dec : EqDecision Side.
Proof. solve_decision. Defined.
#[global] Instance Collapse_eq_dec : EqDecision Collapse.
Proof. solve_decision. Defined.

Definition collapses (e : option (nat * EntryShape)) : bool :=
  match e with Some (_, e) => negb (needs_wildcard e) | None => false end.

(** The record an object's state at [ts] is an entry of, when it is not held
    in a wildcard of its own. *)
Definition collapsed_at (m : ActionMeta) (varname : string) (ts : nat) : Result (option Collapse) :=
  let? last := max_ts m varname in
  Ok (if bool_decide (ts = 0%nat) && collapses (in_entry m varname) then Some (CollapseIO SideIn)
      else if bool_decide (ts = last) && collapses (out_entry m varname) then Some (CollapseIO SideOut)
      else if bool_decide (ts = initials_ts last) && collapses (initials_entry m varname)
      then Some CollapseInitials
      else None).

(** ** Deriving the metadata *)

Section Derive.
Context `{PodValues}.

(** The variables the body refers to: arguments, written values and targets. *)
Definition inst_vars (cs : list VarOrValue) (i : Inst) : list string :=
  match i with
  | IObject _ _ _ _ | ISubAction _ _ _ _ => []
  | IUpdate obj _ value _ _ _ => obj :: omap (cell_name cs) [value]
  | ISet obj kvs _ _ => obj :: omap (cell_name cs) (snd <$> kvs)
  | IStatement _ rs _ | IIntro _ rs _ _ => omap (cell_name cs) rs
  end.

Definition body_referenced_vars (cs : list VarOrValue) (l : list Inst) : gset string :=
  list_to_set (l ≫= inst_vars cs).

Record WildcardNeeds : Type := MkNeeds { in_side : gset string; out_side : gset string; initials : gset string }.

(** A later declaration under the same name replaces an earlier one. *)
Definition object_ios (c : ActionContext) : gmap string ObjectIO :=
  foldl (fun m i => match i with
                    | IObject io obj _ _ => from_option (fun n => <[n := io]> m) m (cell_name (cells c) obj)
                    | _ => m
                    end) ∅ (insts c).

(** A field read of an object keeps the form it reads as a wildcard. *)
Definition check_need (c : ActionContext) (cur : gmap string nat) (needs : WildcardNeeds) (r : Ref) : WildcardNeeds :=
  match cells c !! r with
  | Some (IsVar v) =>
      match v_key v, object_ios c !! v_name v with
      | Some _, Some io =>
          let ts := default 0%nat (cur !! v_name v) in
          let mts := default 0%nat (max_ts_per_var c !! v_name v) in
          let note (b : bool) (s : gset string) := if b then {[v_name v]} ∪ s else s in
          MkNeeds
            (note (consumes io && bool_decide (ts = 0%nat)) (in_side needs))
            (note (produces io && bool_decide (ts = mts)) (out_side needs))
            (note (bool_decide (io = Output) && bool_decide (ts = initials_ts mts)) (initials needs))
      | _, _ => needs
      end
  | _ => needs
  end.

Definition inst_args (i : Inst) : list Ref :=
  match i with
  | IObject _ _ _ _ | ISubAction _ _ _ _ => []
  | IUpdate _ _ value _ _ _ => [value]
  | ISet _ kvs _ _ => snd <$> kvs
  | IStatement _ rs _ | IIntro _ rs _ _ => rs
  end.

(** The objects' timestamps after an instruction. *)
Definition advance (cur : gmap string nat) (i : Inst) : gmap string nat :=
  match i with IUpdate obj _ _ _ _ _ => alter S obj cur | _ => cur end.

Definition zero_ts {B} (m : gmap string B) : gmap string nat := (fun _ => 0%nat) <$> m.

(** The arguments are checked before the timestamp advances. *)
Definition need_step (c : ActionContext) (s : gmap string nat * WildcardNeeds) (i : Inst) : gmap string nat * WildcardNeeds :=
  let '(cur, needs) := s in (advance cur i, foldl (check_need c cur) needs (inst_args i)).

Definition compute_wildcard_needs (c : ActionContext) : WildcardNeeds :=
  snd (foldl (need_step c) (zero_ts (object_ios c), MkNeeds ∅ ∅ ∅) (insts c)).

(** Local and inherited objects, in declaration order. *)
Record Totals : Type := MkTotals {
  t_refs : list ActionObjectRef; t_inputs : list ActionObjectRef; t_outputs : list ActionObjectRef }.

Definition add_inst (prior : list ActionMeta) (c : ActionContext) (t : Totals) (i : Inst) : Result Totals :=
  match i with
  | IObject io obj class _ =>
      let? name := expect (cell_name (cells c) obj) "not a var" in
      let r := MkObjRef io class name in
      Ok (MkTotals (app (t_refs t) [r])
            (if consumes io then app (t_inputs t) [r] else t_inputs t)
            (if produces io then app (t_outputs t) [r] else t_outputs t))
  | ISubAction action obj _ _ =>
      let? (_, sub) := ok_or (list_find (fun a => m_name a = action) prior) "subaction not defined" in
      let? alias := expect (cell_name (cells c) obj) "not a var" in
      rensure (negb (negb (bool_decide (alias = "?"))
                     && bool_decide (alias ∈ body_referenced_vars (cells c) (insts c))
                     && bool_decide (out_entries sub = []))) "subaction produces no object" ;?
      Ok (MkTotals (t_refs t) (app (t_inputs t) (total_inputs sub)) (app (t_outputs t) (total_outputs sub)))
  | _ => Ok t
  end.

Definition entry_shapes (keep : ObjectIO -> bool) (needs : gset string) (refs : list ActionObjectRef) : list EntryShape :=
  (fun r => MkEntry (o_varname r) (bool_decide (o_varname r ∈ needs)))
    <$> filter (fun r => keep (o_io r) = true) refs.

Definition is_output (io : ObjectIO) : bool := bool_decide (io = Output).

Definition from_action_ctx (prior : list ActionMeta) (c : ActionContext) : Result ActionMeta :=
  let? t := try_fold (add_inst prior c) (MkTotals [] [] []) (insts c) in
  let needs := compute_wildcard_needs c in
  let outputs := entry_shapes is_output (initials needs) (t_refs t) in
  Ok (MkMeta (a_name c) ScriptAction (t_refs t) (t_inputs t) (t_outputs t)
        (entry_shapes consumes (in_side needs) (t_refs t))
        (entry_shapes produces (out_side needs) (t_refs t))
        (match outputs with [] => None | _ => Some outputs end)
        (from_option ts 0%nat (var_state c !! "chain"))
        (max_ts_per_var c) (args c)).

Definition actions_meta (actions : list ActionContext) : Result (list ActionMeta) :=
  try_fold (fun metas c => let? m := from_action_ctx metas c in Ok (app metas [m])) [] actions.
End Derive.

(** ** Classes *)

Record ClassMeta : Type := MkClass { c_name : string; c_actions : list (string * nat) }.

(** Every object of every action, with the action's name and its position. *)
Definition object_list (a : ActionMeta) : list (string * nat * ActionObjectRef) :=
  imap (fun i o => (m_name a, i, o)) (object_refs a).

Definition add_branch (s : gmap string (list (string * nat)) * list string) (b : string * nat * ActionObjectRef) :
    gmap string (list (string * nat)) * list string :=
  let '(m, order) := s in
  let '(action, i, o) := b in
  (<[o_class o := app (default [] (m !! o_class o)) [(action, i)]]> m,
   if bool_decide (o_class o ∈ order) then order else app order [o_class o]).

Definition actions_to_classes (actions : list ActionMeta) : list ClassMeta :=
  let '(m, order) := foldl (fun s a => foldl add_branch s (object_list a)) (∅, []) actions in
  (fun class => MkClass class (default [] (m !! class))) <$> order.

Definition add_index (s : gmap (string * nat) nat * gmap string nat) (b : string * nat * ActionObjectRef) :
    gmap (string * nat) nat * gmap string nat :=
  let '(result, count) := s in
  let '(action, i, o) := b in
  let n := default 0%nat (count !! o_class o) in
  (<[(action, i) := n]> result, <[o_class o := S n]> count).

Definition object_index_class_st_index (actions : list ActionMeta) : gmap (string * nat) nat :=
  fst (foldl (fun s a => foldl add_index s (object_list a)) (∅, ∅) actions).

(** ** Loading a module *)

Record Loader : Type := MkLoader { l_actions : list ActionMeta; l_classes : list ClassMeta }.

Definition Loader_new `{PodValues} (actions : list ActionContext) : Result Loader :=
  let? metas := actions_meta actions in
  let classes := actions_to_classes metas in
  try_fold (fun _ class =>
    rensure (negb (existsb (fun a => bool_decide (m_name a = "Rekey" +:+ c_name class)) metas))
      "action is reserved for built-in rekeying") tt classes ;?
  Ok (MkLoader metas classes).

(** The built-in actions follow the scripted ones. *)
Definition module_actions (l : Loader) : list ActionMeta :=
  app (l_actions l) ((fun c => rekey_meta (c_name c)) <$> l_classes l).

(** ** Mutated objects are paired *)

(** Both totals list the same mutated objects in the same order. *)
Definition mutated (refs : list ActionObjectRef) : list ActionObjectRef := filter (fun r => o_io r = Mutate) refs.

Definition balanced (m : ActionMeta) : Prop := mutated (total_inputs m) = mutated (total_outputs m).

Lemma mutated_app l k : mutated (app l k) = app (mutated l) (mutated k).
Proof. apply filter_app. Qed.

Lemma mutate_positions_spec refs i :
  Forall2 (fun p r => (i <= p)%nat /\ refs !! (p - i)%nat = Some r) (mutate_positions i refs) (mutated refs).
Proof.
  revert i. induction refs as [|r refs IH]; intros i; csimpl; [constructor|].
  assert (Htail : Forall2 (fun p x => (i <= p)%nat /\ (r :: refs) !! (p - i)%nat = Some x)
    (mutate_positions (S i) refs) (mutated refs)).
  { eapply Forall2_impl; [apply IH|]. intros p x [Hp Hx]. split; [lia|].
    replace (p - i)%nat with (S (p - S i)) by lia. exact Hx. }
  unfold mutated. rewrite filter_cons. destruct (decide (o_io r = Mutate)) as [E|E].
  - rewrite bool_decide_eq_true_2 by done. simpl. constructor; [|exact Htail].
    split; [lia|]. by rewrite Nat.sub_diag.
  - rewrite bool_decide_eq_false_2 by done. exact Htail.
Qed.

Lemma zip_eq_Ok {A B} (l : list A) (k : list B) : length l = length k -> zip_eq l k = Ok (zip l k).
Proof.
  revert k. induction l as [|a l IH]; intros [|b k] Hl; try done. simpl in *.
  rewrite IH by lia. done.
Qed.

Lemma total_mutations_balanced m :
  balanced m ->
  exists slots, total_mutations m = Ok slots
    /\ Forall2 (fun s r => total_inputs m !! input_index s = Some r /\ total_outputs m !! output_index s = Some r)
         slots (mutated (total_inputs m)).
Proof.
  unfold balanced. intros Hb. unfold total_mutations.
  pose proof (mutate_positions_spec (total_inputs m) 0) as Hi.
  pose proof (mutate_positions_spec (total_outputs m) 0) as Ho. rewrite <-Hb in Ho.
  rewrite zip_eq_Ok by (by rewrite (Forall2_length _ _ _ Hi), (Forall2_length _ _ _ Ho)).
  eexists. split; [done|]. clear Hb.
  revert Ho. generalize (mutate_positions 0 (total_outputs m)). induction Hi as [|p r ps rs [_ Hp] _ IH];
    intros qs Hq; inversion Hq as [|q ? qs' ? [_ Hq1] Hq2]; subst; simpl; constructor; [|by apply IH].
  rewrite Nat.sub_0_r in *. done.
Qed.

Section Balanced.
Context `{PodValues}.

Lemma add_inst_balanced prior c t t' i :
  Forall balanced prior -> mutated (t_inputs t) = mutated (t_outputs t) ->
  add_inst prior c t i = Ok t' -> mutated (t_inputs t') = mutated (t_outputs t').
Proof.
  intros Hp Ht. destruct i; simpl; intros Hi; inv_ok; try done.
  - destruct io; simpl; rewrite ?mutated_app; csimpl; rewrite ?app_nil_r; try done; by rewrite Ht.
  - destruct a as [j sub]. inv_ok. simpl. rewrite !mutated_app, Ht. f_equal.
    match goal with Hf : ok_or _ _ = Ok _ |- _ => unfold ok_or in Hf; case_match; [|done] end.
    simplify_eq. match goal with Hf : list_find _ _ = Some _ |- _ => apply list_find_Some in Hf as (Hj & _ & _) end.
    rewrite Forall_lookup in Hp. by apply (Hp j).
Qed.

Lemma from_action_ctx_balanced prior c m :
  Forall balanced prior -> from_action_ctx prior c = Ok m -> balanced m.
Proof.
  intros Hp Hm. unfold from_action_ctx in Hm. inv_ok. unfold balanced. simpl.
  match goal with Hf : try_fold _ _ _ = Ok _ |- _ => revert Hf end.
  apply (try_fold_inv _ (fun _ t => mutated (t_inputs t) = mutated (t_outputs t))); [done|].
  intros _ i t t' Ht. by apply add_inst_balanced.
Qed.

Lemma actions_meta_balanced actions metas : actions_meta actions = Ok metas -> Forall balanced metas.
Proof.
  apply (try_fold_inv _ (fun _ metas => Forall balanced metas)); [done|].
  intros _ c ms ms' Hms Hc. inv_ok. apply Forall_app. split; [done|]. constructor; [|done].
  by eapply from_action_ctx_balanced.
Qed.

Lemma module_actions_balanced actions l : Loader_new actions = Ok l -> Forall balanced (module_actions l).
Proof.
  intros Hl. unfold Loader_new in Hl. inv_ok. apply Forall_app. split; simpl.
  - match goal with Ha : actions_meta _ = Ok _ |- _ => by apply actions_meta_balanced in Ha end.
  - apply Forall_fmap, Forall_true. done.
Qed.

(** Every action of a loaded module pairs its mutated objects: the pairing
    never panics, and each pair holds the places of one object reference among
    the inputs and among the outputs, one pair per mutated object, sub-actions
    included. *)
Theorem mutations_paired actions l m :
  Loader_new actions = Ok l -> m ∈ module_actions l ->
  exists slots, total_mutations m = Ok slots
    /\ Forall2 (fun s r => total_inputs m !! input_index s = Some r /\ total_outputs m !! output_index s = Some r)
         slots (mutated (total_inputs m)).
Proof.
  intros Hl Hm. apply total_mutations_balanced. pose proof (module_actions_balanced _ _ Hl) as Hb. rewrite Forall_forall in Hb. auto.
Qed.
End Balanced.

(** ** Field reads keep their object a wildcard *)

Section Needs.
Context `{PodValues}.

Definition needs_le (a b : WildcardNeeds) : Prop :=
  in_side a ⊆ in_side b /\ out_side a ⊆ out_side b /\ initials a ⊆ initials b.

#[local] Instance needs_le_preorder : PreOrder needs_le.
Proof. split; [done|]. intros a b d (? & ? & ?) (? & ? & ?). split_and!; by etrans. Qed.

Lemma check_need_le c cur needs r : needs_le needs (check_need c cur needs r).
Proof.
  unfold check_need. repeat case_match; try done; simpl; split_and!; simpl; set_solver.
Qed.

Lemma foldl_needs_le c cur rs needs : needs_le needs (foldl (check_need c cur) needs rs).
Proof.
  revert needs. induction rs as [|r rs IH]; intros needs; [done|]. simpl.
  etrans; [apply check_need_le|apply IH].
Qed.

(** A reference that an instruction checks is accounted for in the result. *)
Lemma foldl_needs_in c cur rs r needs :
  r ∈ rs -> exists needs', needs_le (check_need c cur needs' r) (foldl (check_need c cur) needs rs).
Proof.
  revert needs. induction rs as [|r' rs IH]; intros needs Hr; [by apply elem_of_nil in Hr|]. simpl.
  apply elem_of_cons in Hr as [<-|Hr]; [exists needs; apply foldl_needs_le|by apply IH].
Qed.

Lemma need_steps_le c s l : needs_le (snd s) (snd (foldl (need_step c) s l)).
Proof.
  revert s. induction l as [|i l IH]; intros [cur needs]; [done|]. simpl. etrans; [apply (foldl_needs_le c cur (inst_args i))|].
  apply (IH (advance cur i, foldl (check_need c cur) needs (inst_args i))).
Qed.

Lemma need_steps_ts c s l : fst (foldl (need_step c) s l) = foldl advance (fst s) l.
Proof. revert s. induction l as [|i l IH]; intros [cur needs]; [done|]. simpl. by rewrite IH. Qed.

Lemma compute_needs_in c l1 i l2 r :
  insts c = app l1 (i :: l2) -> r ∈ inst_args i ->
  exists needs', needs_le (check_need c (foldl advance (zero_ts (object_ios c)) l1) needs' r) (compute_wildcard_needs c).
Proof.
  intros Hl Hr. unfold compute_wildcard_needs.
  rewrite Hl, foldl_app. pose proof (need_steps_ts c (zero_ts (object_ios c), MkNeeds ∅ ∅ ∅) l1) as Hts.
  destruct (foldl (need_step c) _ l1) as [cur needs]. simpl in Hts. subst cur. simpl.
  destruct (foldl_needs_in c (foldl advance (zero_ts (object_ios c)) l1) (inst_args i) r needs Hr) as [needs' Hn].
  exists needs'. etrans; [exact Hn|].
  apply (need_steps_le c (advance (foldl advance (zero_ts (object_ios c)) l1) i, foldl (check_need c (foldl advance (zero_ts (object_ios c)) l1)) needs (inst_args i))).
Qed.

(** The object references are the objects of the context. *)
Lemma totals_refs prior c t :
  try_fold (add_inst prior c) (MkTotals [] [] []) (insts c) = Ok t ->
  NoDup (o_varname <$> t_refs t) ->
  forall o, o ∈ t_refs t -> object_ios c !! o_varname o = Some (o_io o).
Proof.
  unfold object_ios.
  apply (try_fold_inv _ (fun pre t => NoDup (o_varname <$> t_refs t) -> forall o, o ∈ t_refs t ->
    foldl (fun (m : gmap string ObjectIO) i => match i with
      | IObject io obj _ _ => from_option (fun n => <[n := io]> m) m (cell_name (cells c) obj)
      | _ => m end) ∅ pre !! o_varname o = Some (o_io o))); [intros _ o Ho; by apply elem_of_nil in Ho|].
  intros pre i t0 t1 IH Hi Hnd o Ho. rewrite foldl_app. simpl. destruct i as [io obj class orig| | | | |]; simpl in Hi; inv_ok; auto.
  - unfold expect in Ha. destruct (cell_name (cells c) obj) as [n|]; [|done]. injection Ha as ->. simpl in *.
    rewrite fmap_app in Hnd. apply NoDup_app in Hnd as (Hnd & Hdis & _).
    apply elem_of_app in Ho as [Ho|Ho].
    + rewrite lookup_insert_ne; [by apply IH|]. intros ->. eapply Hdis; [by apply list_elem_of_fmap_2|]. csimpl. by left.
    + apply list_elem_of_singleton in Ho as ->. simpl. by rewrite lookup_insert_eq.
  - destruct a as [j sub]. inv_ok. simpl in *. auto.
Qed.

Lemma entry_shapes_find keep needs refs n i e :
  find_entry n (entry_shapes keep needs refs) = Some (i, e) ->
  (exists o, o ∈ refs /\ o_varname o = n /\ keep (o_io o) = true) /\ needs_wildcard e = bool_decide (n ∈ needs).
Proof.
  unfold find_entry, entry_shapes. intros (He & Hn & _)%list_find_Some.
  rewrite list_lookup_fmap in He. apply fmap_Some in He as (o & Ho & ->). simpl in *.
  apply list_elem_of_lookup_2, list_elem_of_filter in Ho as [Hk Ho]. split; [by exists o|]. by rewrite Hn.
Qed.

Lemma collapses_shape keep needs refs n :
  collapses (find_entry n (entry_shapes keep needs refs)) = true ->
  (exists o, o ∈ refs /\ o_varname o = n /\ keep (o_io o) = true) /\ n ∉ needs.
Proof.
  destruct (find_entry _ _) as [[i e]|] eqn:E; simpl; [|done].
  apply entry_shapes_find in E as [Ho ->]. intros Hn. split; [done|]. by case_bool_decide.
Qed.

(** A body clause never reads a field of an object form that renders as a
    record entry, which podlang could not express: when an instruction refers
    to a field of a variable, that variable is a wildcard at the timestamp the
    instruction is rendered with. *)
Theorem field_reads_never_anchored_twice prior c m l1 i l2 r v key last :
  from_action_ctx prior c = Ok m -> NoDup (o_varname <$> object_refs m) ->
  insts c = app l1 (i :: l2) -> r ∈ inst_args i -> cells c !! r = Some (IsVar v) -> v_key v = Some key ->
  max_ts m (v_name v) = Ok last ->
  collapsed_at m (v_name v) (default 0%nat (foldl advance (zero_ts (object_ios c)) l1 !! v_name v)) = Ok None.
Proof.
  intros Hm Hnd Hl Hr Hc Hk Hlast. destruct (compute_needs_in c l1 i l2 r Hl Hr) as (needs' & Hin & Hout & Hini).
  unfold check_need in Hin, Hout, Hini. rewrite Hc, Hk in Hin, Hout, Hini.
  unfold collapsed_at. rewrite Hlast. cbn [rbind]. unfold max_ts in Hlast.
  destruct (var_max_ts m !! v_name v) as [l|] eqn:Emax; [|done]. injection Hlast as ->.
  unfold from_action_ctx in Hm. inv_ok. simpl in *. pose proof (totals_refs _ _ _ Ha Hnd) as Hio.
  assert (Hobj : forall keep ns, collapses (find_entry (v_name v) (entry_shapes keep ns (t_refs a))) = true ->
    exists io, object_ios c !! v_name v = Some io /\ keep io = true /\ v_name v ∉ ns).
  { intros keep ns [(o & Ho & Hn & Hkeep) Hns]%collapses_shape. exists (o_io o). split; [by rewrite <-Hn; apply Hio|done]. }
  set (ts := default 0%nat (foldl advance (zero_ts (object_ios c)) l1 !! v_name v)) in *.
  unfold in_entry, out_entry, initials_entry. simpl. rewrite Emax in Hin, Hout, Hini. simpl in *. f_equal.
  destruct (bool_decide (ts = 0%nat) && _) eqn:E1.
  { apply andb_true_iff in E1 as [E1 (io & Ho & Hkeep & Hns)%Hobj]. rewrite Ho, Hkeep, E1 in Hin. simpl in Hin. set_solver. }
  destruct (bool_decide (ts = last) && _) eqn:E2.
  { apply andb_true_iff in E2 as [E2 Hcol]. destruct (find_entry (v_name v) _) as [[j e]|] eqn:Ef in Hcol; [|done].
    destruct (Hobj produces (out_side (compute_wildcard_needs c))) as (io & Ho & Hkeep & Hns); [by rewrite Ef|].
    rewrite Ho, Hkeep, E2 in Hout. simpl in Hout. set_solver. }
  destruct (bool_decide (ts = initials_ts last) && _) eqn:E3; [|done].
  apply andb_true_iff in E3 as [E3 Hcol].
  destruct (Hobj is_output (initials (compute_wildcard_needs c))) as (io & Ho & Hkeep & Hns).
  { destruct (entry_shapes is_output _ (t_refs a)) as [|e es] eqn:Ee; [done|]. simpl in Hcol. done. }
  unfold is_output in Hkeep. rewrite Ho, Hkeep, E3 in Hini. simpl in Hini. set_solver.
Qed.
End Needs.

(** ** Guard branches are found where they are emitted *)

Definition branch_of (b : string * nat * ActionObjectRef) : string * nat := fst b.
Definition branch_class (b : string * nat * ActionObjectRef) : string := o_class (snd b).
Definition of_class (class : string) (bs : list (string * nat * ActionObjectRef)) : list (string * nat) :=
  branch_of <$> filter (fun b => branch_class b = class) bs.

Lemma of_class_app class l k : of_class class (app l k) = app (of_class class l) (of_class class k).
Proof. unfold of_class. by rewrite filter_app, fmap_app. Qed.

Lemma foldl_nested {A B S} (f : S -> B -> S) (g : A -> list B) (l : list A) s :
  foldl (fun s a => foldl f s (g a)) s l = foldl f s (l ≫= g).
Proof. revert s. induction l as [|a l IH]; intros s; csimpl; [done|]. by rewrite IH, foldl_app. Qed.

Lemma foldl_snoc_inv {A S} (f : S -> A -> S) (I : list A -> S -> Prop) s l :
  I [] s -> (forall pre a s, I pre s -> I (app pre [a]) (f s a)) -> I l (foldl f s l).
Proof.
  intros H0 Hs. induction l as [|a l IH] using rev_ind; [done|]. rewrite foldl_snoc. auto.
Qed.

Lemma add_branch_spec bs :
  let s := foldl add_branch (∅, []) bs in
  NoDup (snd s) /\ (forall class, class ∈ snd s <-> class ∈ branch_class <$> bs)
  /\ (forall class, default [] (fst s !! class) = of_class class bs).
Proof.
  apply (foldl_snoc_inv _ (fun bs s => NoDup (snd s) /\ (forall class, class ∈ snd s <-> class ∈ branch_class <$> bs)
    /\ (forall class, default [] (fst s !! class) = of_class class bs))).
  - split_and!; [constructor|done|]. intros class. simpl. by rewrite lookup_empty.
  - intros pre [[a i] o] [m order] (Hn & Ho & Hm). simpl in *. split_and!.
    + case_bool_decide; [done|]. apply NoDup_app. split_and!; [done| |apply NoDup_singleton]. set_solver.
    + intros class. rewrite fmap_app, elem_of_app, <-Ho. csimpl. unfold branch_class. simpl.
      case_bool_decide; set_solver.
    + intros class. rewrite of_class_app. unfold of_class at 2. rewrite filter_cons, filter_nil. unfold branch_class. simpl.
      destruct (decide (o_class o = class)) as [->|Hne].
      * rewrite lookup_insert_eq. simpl. by rewrite Hm.
      * rewrite lookup_insert_ne by done. by rewrite Hm, app_nil_r.
Qed.

(** The count of a class is the number of its branches so far. *)
Lemma add_index_spec bs :
  NoDup (branch_of <$> bs) ->
  let s := foldl add_index (∅, ∅) bs in
  forall b, b ∈ bs -> exists n, fst s !! branch_of b = Some n /\ of_class (branch_class b) bs !! n = Some (branch_of b).
Proof.
  intros Hnd.
  cut (NoDup (branch_of <$> bs) ->
    (forall class, default 0%nat (snd (foldl add_index (∅, ∅) bs) !! class) = length (of_class class bs))
    /\ (forall b, b ∈ bs -> exists n, fst (foldl add_index (∅, ∅) bs) !! branch_of b = Some n
         /\ of_class (branch_class b) bs !! n = Some (branch_of b))); [naive_solver|]. clear Hnd.
  apply (foldl_snoc_inv _ (fun bs s => NoDup (branch_of <$> bs) ->
    (forall class, default 0%nat (snd s !! class) = length (of_class class bs))
    /\ (forall b, b ∈ bs -> exists n, fst s !! branch_of b = Some n
         /\ of_class (branch_class b) bs !! n = Some (branch_of b)))).
  - intros _. split; [intros class; simpl; by rewrite lookup_empty|]. intros b Hb. by apply elem_of_nil in Hb.
  - intros pre [[a i] o] [res cnt] IH Hnd. rewrite fmap_app in Hnd. apply NoDup_app in Hnd as (Hpre & Hnew & _).
    destruct (IH Hpre) as [Hc Hb]. simpl in *. clear IH. split.
    + intros class. rewrite of_class_app, length_app. unfold of_class at 2. rewrite filter_cons, filter_nil.
      unfold branch_class. simpl. destruct (decide (o_class o = class)) as [->|Hne].
      * rewrite lookup_insert_eq. simpl. rewrite Hc. lia.
      * rewrite lookup_insert_ne by done. rewrite Hc. simpl. lia.
    + intros b [Hin|Hin]%elem_of_app.
      * destruct (Hb b Hin) as (n & Hn & Hk). exists n. rewrite lookup_insert_ne.
        -- split; [done|]. rewrite of_class_app. by apply lookup_app_l_Some.
        -- intros Heq. apply (Hnew (branch_of b)); [by apply list_elem_of_fmap_2|].
           rewrite <-Heq. csimpl. by left.
      * apply list_elem_of_singleton in Hin as ->. simpl. exists (length (of_class (o_class o) pre)).
        unfold branch_class. simpl. rewrite Hc. split; [by rewrite lookup_insert_eq|].
        rewrite of_class_app, lookup_app_r by lia. rewrite Nat.sub_diag. unfold of_class.
        rewrite filter_cons, filter_nil. unfold branch_class. simpl. by rewrite decide_True.
Qed.

Lemma object_list_NoDup actions : NoDup (m_name <$> actions) -> NoDup (branch_of <$> (actions ≫= object_list)).
Proof.
  induction actions as [|a actions IH]; csimpl; [constructor|].
  intros [Ha Hn]%NoDup_cons. rewrite fmap_app. apply NoDup_app. split_and!; [| |by apply IH].
  - unfold object_list. rewrite fmap_imap. apply NoDup_alt. intros i j x Hi Hj.
    rewrite list_lookup_imap in Hi, Hj. destruct (object_refs a !! i); [|done]. destruct (object_refs a !! j); [|done].
    simpl in *. simplify_eq. done.
  - intros [n i] Hx Hy. apply Ha. apply list_elem_of_fmap in Hx as ([[n1 i1] o1] & Hx1 & Hx2).
    apply list_elem_of_fmap in Hy as ([[n2 i2] o2] & Hy1 & Hy2). unfold branch_of in *. simpl in *. simplify_eq.
    unfold object_list in Hx2. apply elem_of_lookup_imap_1 in Hx2 as (j & o & Hjo & _). simplify_eq.
    apply list_elem_of_bind in Hy2 as (a' & Hin & Ha'). apply elem_of_lookup_imap_1 in Hin as (j' & o' & Heq & _).
    injection Heq as -> _ _. by apply list_elem_of_fmap_2.
Qed.

Lemma classes_NoDup actions : NoDup (c_name <$> actions_to_classes actions).
Proof.
  unfold actions_to_classes. rewrite foldl_nested. destruct (add_branch_spec (actions ≫= object_list)) as [Hnd _].
  destruct (foldl add_branch _ _) as [m order]. simpl in *. rewrite <-list_fmap_compose. by rewrite list_fmap_id.
Qed.

(** The position at which the executor selects the branch of an object's
    class guard is the position at which that branch is emitted: the class has
    a guard, and its branch there is this action's object. *)
Theorem class_branch_found actions m i o :
  NoDup (m_name <$> actions) -> m ∈ actions -> object_refs m !! i = Some o ->
  exists class n, list_find (fun c => c_name c = o_class o) (actions_to_classes actions) = Some class
    /\ object_index_class_st_index actions !! (m_name m, i) = Some n
    /\ c_actions class.2 !! n = Some (m_name m, i).
Proof.
  intros Hnd Hm Ho. pose proof (object_list_NoDup actions Hnd) as Hbs.
  unfold actions_to_classes, object_index_class_st_index. rewrite !foldl_nested.
  set (bs := actions ≫= object_list) in *.
  assert (Hb : (m_name m, i, o) ∈ bs).
  { apply list_elem_of_bind. exists m. split; [|done]. by apply (elem_of_lookup_imap_2 (fun i o => (m_name m, i, o))). }
  destruct (add_index_spec bs Hbs _ Hb) as (n & Hn & Hk).
  destruct (add_branch_spec bs) as (Hord & Hin & Hcl). destruct (foldl add_branch _ bs) as [cm order]. simpl in *.
  assert (Hc : o_class o ∈ order) by (apply Hin, list_elem_of_fmap; by exists (m_name m, i, o)).
  apply list_elem_of_lookup_1 in Hc as [j Hj].
  exists (j, MkClass (o_class o) (default [] (cm !! o_class o))), n. split_and!; [|done|by simpl; rewrite Hcl].
  apply list_find_Some. split_and!; [by rewrite list_lookup_fmap, Hj|done|].
  intros j' c' Hj' Hlt Heq. rewrite list_lookup_fmap in Hj'. apply fmap_Some in Hj' as (cn & Hcn & ->). simpl in Heq.
  subst. pose proof (NoDup_lookup _ _ _ _ Hord Hj Hcn). lia.
Qed.
End SdkMeta.
