(* ===== verification/SdkPodlang.v ===== *)
(** * The podlang an action renders to (libs/sdk/src/fmt_podlang.rs)

    The SDK writes a module as podlang text: a record declaration and a
    predicate per action, a bridge predicate per object and a guard per class.
    pod2 parses the text, so what is rendered is given here as the predicate
    that the text denotes: a wildcard is [W], a literal [L], an entry of a
    record or of a wildcard [K]. [@self_predicate(P)] is the hash of [P], a
    record field is its position in the record. Text that podlang has no
    syntax for makes the loader panic. *)

From S2P Require Import Prelude Pod2 Models DonState Podlang TxModel Replay TxBuilder Sdk SdkCalls SdkMeta.

Module SdkPodlang.
Import Podlang TxModel Sdk SdkMeta.
Local Open Scope string_scope.

(** ** Names *)

Definition fmt_var_at (name : string) (ts max_ts : nat) : string :=
  if bool_decide (ts = max_ts) then name else name +:+ pretty ts.

Definition CHAIN_PACK_MIN_TS : nat := 3.
Definition chain_packed (chain_max_ts : nat) : bool := bool_decide (CHAIN_PACK_MIN_TS <= chain_max_ts)%nat.

(** The slot of an intermediate state of a packed chain. *)
Definition chain_step_at (ts chain_max_ts : nat) : option nat :=
  if chain_packed chain_max_ts && bool_decide (0 < ts)%nat && bool_decide (ts < chain_max_ts)%nat
  then Some (ts - 1)%nat else None.

Definition side_arg_name (s : Side) (name : string) : string :=
  match s with SideIn => "in_" +:+ name | SideOut => "out_" +:+ name end.

Definition dispatch_side (io : ObjectIO) : Side := match io with Input => SideIn | Output | Mutate => SideOut end.

Definition chain_schema_name (action : string) : string := action +:+ "Chain".
Definition schema_name_initials (action : string) : string := action +:+ "Initials".
Definition schema_name_io (action : string) : string := action +:+ "IO".

Definition is_multi_class (objects : list ActionObjectRef) (class : string) : bool :=
  bool_decide (1 < length (filter (fun o => o_class o = class) objects))%nat.

Definition bridge_predicate_name (class action entry : string) (multi : bool) : string :=
  if multi then "Is" +:+ class +:+ "From" +:+ action +:+ "_" +:+ entry else "Is" +:+ class +:+ "From" +:+ action.

(** ** Records *)

Definition io_schema (m : ActionMeta) : list string :=
  app ((fun e => side_arg_name SideIn (e_varname e)) <$> in_entries m)
    ((fun e => side_arg_name SideOut (e_varname e)) <$> out_entries m).
Definition chain_schema (m : ActionMeta) : list string :=
  (fun i => "step_" +:+ pretty i) <$> seq 0 (chain_max_ts m - 1).
Definition initials_schema (m : ActionMeta) : list string := e_varname <$> default [] (initials_entries m).

(** [fmt_record_decls] *)
Definition record_decls (m : ActionMeta) : list (string * list string) :=
  app [(schema_name_io (m_name m), io_schema m)]
    (app (if chain_packed (chain_max_ts m) then [(chain_schema_name (m_name m), chain_schema m)] else [])
      (match initials_entries m with Some _ => [(schema_name_initials (m_name m), initials_schema m)] | None => [] end)).

Section Render.
Context `{SdkEnv : SdkCalls.SdkEnv} `{PredicateHash}.

(** ** Variables and arguments *)

(** A wildcard, or an entry of a record wildcard. *)
Inductive Rendered : Type := RWild (w : string) | RSlot (record : string) (slot : nat).

(** A name that the record does not have is no podlang. *)
Definition record_field (record : string) (schema : list string) (field : string) : Result Rendered :=
  rmap (fun '(i, _) => RSlot record i) (expect (list_find (fun f => f = field) schema) "compiles").

(** [VarNameFmt] at timestamp [ts]. *)
Definition fmt_var (m : ActionMeta) (name : string) (ts : nat) : Result Rendered :=
  let? c := collapsed_at m name ts in
  match c with
  | Some (CollapseIO s) => record_field "io" (io_schema m) (side_arg_name s name)
  | Some CollapseInitials => record_field "initials" (initials_schema m) name
  | None =>
      let? last := max_ts m name in
      match (if bool_decide (name = "chain") then chain_step_at ts last else None) with
      | Some slot => record_field "chain_steps" (chain_schema m) ("step_" +:+ pretty slot)
      | None => Ok (RWild (fmt_var_at name ts last))
      end
  end.

Definition targ (r : Rendered) : TArg :=
  match r with RWild w => W w | RSlot record slot => K record (value_of_i64 (Z.of_nat slot)) end.

(** An entry of an entry cannot be written. The state header is a record. *)
Definition field_of (r : Rendered) (key : string) : Result TArg :=
  match r with
  | RSlot _ _ => Err (Panic "compiles")
  | RWild w =>
      if bool_decide (w = "state_header")
      then rmap targ (record_field w SdkCalls.RECORD_STATE_HEADER key)
      else Ok (K w (value_of_str key))
  end.

(** The timestamps of the variables as the body is rendered. *)
Abbreviation Stamps := (gmap string nat).

Definition fmt_name (m : ActionMeta) (stamps : Stamps) (name : string) : Result Rendered :=
  let? ts := expect (stamps !! name) "key not found" in fmt_var m name ts.

Definition fmt_arg (m : ActionMeta) (cs : list VarOrValue) (stamps : Stamps) (r : Ref) : Result TArg :=
  let? x := expect (cs !! r) "no such cell" in
  match x with
  | IsValue v => Ok (L (raw v))
  | IsVar v =>
      let? f := fmt_name m stamps (v_name v) in
      match v_key v with
      | Some key => field_of f key
      | None => Ok (targ f)
      end
  end.

(** ** Sub-action calls *)

Record SubActionCall : Type := MkSubCall {
  sub_name : string;
  sub_io_var : string;
  alias : option string;
  first_out_entry : option string;
}.

Definition collect_sub_action_calls (metas : list ActionMeta) (c : ActionContext) : Result (list SubActionCall) :=
  rmap snd (try_fold (fun '(seen, calls) i =>
    match i with
    | ISubAction action obj _ _ =>
        let idx := default 0%nat (seen !! action) in
        let? name := expect (cell_name (cells c) obj) "not a var" in
        let? (_, sub) := expect (list_find (fun m => m_name m = action) metas) "sub-action meta exists at fmt time" in
        Ok (<[action := S idx]> seen,
            app calls [MkSubCall action ("_" +:+ action +:+ "_io_" +:+ pretty idx)
                         (if bool_decide (name = "?") then None else Some name)
                         (e_varname <$> head (out_entries sub))])
    | _ => Ok (seen, calls)
    end) (∅ : gmap string nat, []) (insts c)).

(** ** The signature *)

(** A variable at a timestamp is private unless it is public, an entry of a
    record, or an alias that the body does not use. *)
Definition skip_private (m : ActionMeta) (var : string) (i last : nat) : Result bool :=
  if bool_decide (var = "chain")
  then Ok (bool_decide (i = 0%nat) || bool_decide (i = last) || bool_decide (is_Some (chain_step_at i last)))
  else if bool_decide (var = "state_header") then Ok true
  else rmap (fun c => bool_decide (is_Some c)) (collapsed_at m var i).

Definition unused_aliases (c : ActionContext) (calls : list SubActionCall) : list string :=
  filter (fun a => a ∉ body_referenced_vars (cells c) (insts c)) (omap alias calls).

Definition var_privates (m : ActionMeta) (var : string) : Result (list string) :=
  let? last := max_ts m var in
  try_fold (fun l i => let? skip := skip_private m var i last in
                       Ok (if skip : bool then l else app l [fmt_var_at var i last])) [] (seq 0 (S last)).

Definition private_vars (m : ActionMeta) (c : ActionContext) (calls : list SubActionCall) : Result (list string) :=
  let? l := try_fold (fun l var =>
    if bool_decide (var ∈ unused_aliases c calls) then Ok l
    else let? k := var_privates m var in Ok (app l k)) [] (vars c) in
  Ok (app l (app (sub_io_var <$> calls)
    (app (if chain_packed (chain_max_ts m) then ["chain_steps"] else [])
      (match initials_entries m with Some _ => ["initials"] | None => [] end)))).

Definition action_public : list string := ["io"; "state_header"; "chain0"; "chain"].

(** ** The body *)

(** The forms of an object that must stay wildcards are pinned to their
    entries. *)
Definition pin (e : option (nat * EntryShape)) (record : string) (schema : list string) (field w : string) :
    Result (list Template) :=
  match e with
  | Some (_, e) =>
      if needs_wildcard e
      then let? f := record_field record schema field in
           match f with
           | RSlot record slot => Ok [T (TNative ArrayContains) [W record; L (value_of_i64 (Z.of_nat slot)); W w]]
           | RWild _ => Ok []
           end
      else Ok []
  | None => Ok []
  end.

Definition fmt_pins (m : ActionMeta) (o : ActionObjectRef) : Result (list Template) :=
  let v := o_varname o in
  let? last := max_ts m v in
  let? a := pin (in_entry m v) "io" (io_schema m) ("in_" +:+ v) (fmt_var_at v 0 last) in
  let? b := pin (out_entry m v) "io" (io_schema m) ("out_" +:+ v) (fmt_var_at v last last) in
  let? i := pin (initials_entry m v) "initials" (initials_schema m) v (fmt_var_at v (initials_ts last) last) in
  Ok (app a (app b i)).

(** A referenced alias is pinned to its sub-action's first out entry. *)
Definition fmt_alias_pin (metas : list ActionMeta) (m : ActionMeta) (c : ActionContext) (call : SubActionCall) :
    Result (list Template) :=
  match alias call, first_out_entry call with
  | Some a, Some entry =>
      if bool_decide (a ∈ body_referenced_vars (cells c) (insts c)) then
        let? (_, sub) := expect (list_find (fun m => m_name m = sub_name call) metas) "compiles" in
        let? f := record_field (sub_io_var call) (io_schema sub) ("out_" +:+ entry) in
        let? last := max_ts m a in
        match f with
        | RSlot record slot =>
            Ok [T (TNative ArrayContains) [W record; L (value_of_i64 (Z.of_nat slot)); W (fmt_var_at a 0 last)]]
        | RWild _ => Ok []
        end
      else Ok []
  | _, _ => Ok []
  end.

Definition intro_name (i : Intro) : string := match i with Vdf => "Vdf" | LtEqU256 => "LtEqU256" end.

Definition next_stamp (name : string) (stamps : Stamps) : Stamps := alter S name stamps.

(** The chain's current state and the next. *)
Definition chain_args (m : ActionMeta) (stamps : Stamps) : Result (TArg * TArg) :=
  let? chain := fmt_name m stamps "chain" in
  let? chain_next := fmt_name m (next_stamp "chain" stamps) "chain" in
  Ok (targ chain, targ chain_next).

(** One instruction: its clauses, and the timestamps and calls left after it. *)
Definition fmt_inst (m : ActionMeta) (cs : list VarOrValue) (i : Inst) (s : Stamps * list SubActionCall) :
    Result (list Template * (Stamps * list SubActionCall)) :=
  let '(stamps, calls) := s in
  match i with
  | IObject _ _ _ _ => Ok ([], s)
  | ISet obj kvs _ _ =>
      let? o := fmt_name m stamps obj in
      let? ts := try_map (fun '(key, value) =>
        let? v := fmt_arg m cs stamps value in
        Ok (T (TNative DictContains) [targ o; L (value_of_str key); v])) kvs in
      Ok (ts, s)
  | IUpdate obj key value _ _ _ =>
      let? o := fmt_name m stamps obj in
      let? o' := fmt_name m (next_stamp obj stamps) obj in
      let? v := fmt_arg m cs stamps value in
      Ok ([T (TNative DictUpdate) [targ o; L (value_of_str key); v; targ o']], (next_stamp obj stamps, calls))
  | IStatement pred rs _ =>
      let? l := try_map (fmt_arg m cs stamps) rs in Ok ([T (TNative pred) l], s)
  | IIntro pred rs _ _ =>
      let? l := try_map (fmt_arg m cs stamps) rs in Ok ([T (TCustom (intro_name pred)) l], s)
  | ISubAction action _ _ _ =>
      match calls with
      | [] => Err (Panic "index out of bounds")
      | call :: calls' =>
          let? (chain, chain_next) := chain_args m stamps in
          Ok ([T (TCustom action) [W (sub_io_var call); W "state_header"; chain; chain_next]],
              (next_stamp "chain" stamps, calls'))
      end
  end.

Fixpoint fmt_insts (m : ActionMeta) (cs : list VarOrValue) (l : list Inst) (s : Stamps * list SubActionCall) :
    Result (list Template * Stamps) :=
  match l with
  | [] => Ok ([], fst s)
  | i :: l' =>
      let? (ts, s') := fmt_inst m cs i s in
      let? (ts', stamps) := fmt_insts m cs l' s' in
      Ok (app ts ts', stamps)
  end.

(** The transaction events of the action's own objects. *)
Definition fmt_event (m : ActionMeta) (stamps : Stamps) (o : ActionObjectRef) : Result Template :=
  let? (chain, chain_next) := chain_args m stamps in
  let? obj := fmt_name m stamps (o_varname o) in
  let guard := L (predicate_hash (class_predicate_name (o_class o))) in
  match o_io o with
  | Input => Ok (T (TCustom "TxDelete") [chain; chain_next; targ obj; guard])
  | Output =>
      let? obj_with_id := fmt_name m (next_stamp (o_varname o) stamps) (o_varname o) in
      Ok (T (TCustom "TxInsert") [chain; chain_next; targ obj; targ obj_with_id; guard])
  | Mutate =>
      let? pre := fmt_var m (o_varname o) 0 in
      Ok (T (TCustom "TxMutate") [chain; chain_next; targ pre; targ obj; guard])
  end.

Fixpoint fmt_events (m : ActionMeta) (stamps : Stamps) (l : list ActionObjectRef) : Result (list Template) :=
  match l with
  | [] => Ok []
  | o :: l' =>
      let? t := fmt_event m stamps o in
      let? ts := fmt_events m (next_stamp "chain" stamps) l' in
      Ok (t :: ts)
  end.

(** An action's predicate and the private wildcards its signature declares. *)
Definition fmt_action (metas : list ActionMeta) (c : ActionContext) : Result (Predicate * list string) :=
  let? (_, m) := expect (list_find (fun m => m_name m = a_name c) metas) "ActionMeta exists at fmt time" in
  let? calls := collect_sub_action_calls metas c in
  let? privates := private_vars m c calls in
  let? pins := try_map (fmt_pins m) (object_refs m) in
  let? alias_pins := try_map (fmt_alias_pin metas m c) calls in
  let stamps : Stamps := list_to_map ((fun v => (v, 0%nat)) <$> vars c) in
  let? (body, stamps') := fmt_insts m (cells c) (insts c) (stamps, calls) in
  let? events := fmt_events m stamps' (object_refs m) in
  Ok (MkPred (a_name c) action_public AND
        (app (concat pins) (app (concat alias_pins) (app body events))), privates).

(** ** Bridges and guards *)

Definition fmt_bridge (m : ActionMeta) (o : ActionObjectRef) : Result Predicate :=
  let multi := is_multi_class (object_refs m) (o_class o) in
  let? f := record_field "io" (io_schema m) (side_arg_name (dispatch_side (o_io o)) (o_varname o)) in
  let slot := match f with RSlot _ i => i | RWild _ => 0%nat end in
  Ok (MkPred (bridge_predicate_name (o_class o) (m_name m) (o_varname o) multi)
        ["state"; "state_header"; "chain0"; "chain"] AND
        [T (TNative ArrayContains) [W "io"; L (value_of_i64 (Z.of_nat slot)); W "state"];
         T (TCustom (m_name m)) [W "io"; W "state_header"; W "chain0"; W "chain"]]).

Definition fmt_bridges (metas : list ActionMeta) : Result (list Predicate) :=
  rmap (@concat _) (try_map (fun m => try_map (fmt_bridge m) (object_refs m)) metas).

Definition fmt_branch (metas : list ActionMeta) (b : string * nat) : Result Template :=
  let '(action, i) := b in
  let? (_, m) := expect (list_find (fun m => m_name m = action) metas) "action exists" in
  let? o := expect (object_refs m !! i) "index out of bounds" in
  let multi := is_multi_class (object_refs m) (o_class o) in
  Ok (T (TCustom (bridge_predicate_name (o_class o) action (o_varname o) multi))
        [W "state"; W "state_header"; W "chain0"; W "chain"]).

(** The last branch lets every class be rekeyed. *)
Definition fmt_class (metas : list ActionMeta) (c : ClassMeta) : Result Predicate :=
  let? branches := try_map (fmt_branch metas) (c_actions c) in
  Ok (MkPred (class_predicate_name (c_name c)) ["state"; "state_header"; "chain0"; "chain"] OR
        (app branches
           [T (TCustom "Rekey") [W "state"; W "chain0"; W "chain";
                                 L (predicate_hash (class_predicate_name (c_name c)))]])).

(** The whole module, in the order it is written. *)
Definition fmt_module (l : Loader) (actions : list ActionContext) : Result (list Predicate) :=
  let? acts := try_map (fmt_action (l_actions l)) actions in
  let? bridges := fmt_bridges (l_actions l) in
  let? classes := try_map (fmt_class (l_actions l)) (l_classes l) in
  Ok (app (fst <$> acts) (app bridges classes)).
End Render.
End SdkPodlang.
