(* ===== verification/SdkExec.v ===== *)
(** * Executing an action (libs/sdk/src/lib.rs)

    [exe_action] opens a scope of the transaction, runs the script, records the
    transaction's events for the objects the script declared, and proves the
    action's predicate from the statements the script captured, each argument
    in the form the rendered podlang gives it; then it proves every object's
    class guard. Sub-actions run the same way while the parent's script runs.
    [build_action] wraps this, and the built-in rekeying, into a transaction. *)

From S2P Require Import Prelude Pod2 Models DonState Podlang TxModel Replay TxBuilder Sdk SdkCalls SdkMeta SdkPodlang.

Module SdkExec.
Import Podlang TxModel Sdk SdkMeta SdkPodlang.
Local Open Scope string_scope.

Section Exec.
Context `{SdkEnv : SdkCalls.SdkEnv} `{B : !Natives, PH : PredicateHash, !Builder, !Containers}.

(** A loaded module; [sm_script] is the compiled scripts. *)
Record SdkModule : Type := MkModule {
  sm_actions : list ActionMeta;
  sm_classes : list ClassMeta;
  sm_index : gmap (string * nat) nat;
  sm_hashes : gmap string Hash;
  sm_script : string -> list SdkCalls.Call;
}.

Definition action_by_name (sm : SdkModule) (name : string) : Result ActionMeta :=
  rmap snd (expect (list_find (fun a => m_name a = name) (sm_actions sm)) "called `Option::unwrap()` on a `None` value").
Definition class_by_name (sm : SdkModule) (name : string) : Result ClassMeta :=
  rmap snd (expect (list_find (fun c => c_name c = name) (sm_classes sm)) "called `Option::unwrap()` on a `None` value").

(** ** The records of an action *)

(** An object of the action after its script ran. *)
Record ObjView : Type := MkView {
  ov_io : ObjectIO;
  ov_var : string;
  ov_class : string;
  ov_original : option Dictionary;
  ov_dict : Dictionary;
}.

Definition object_views (c : ActionContext) : Result (list ObjView) :=
  try_fold (fun l i =>
    match i with
    | IObject io obj class original =>
        let? x := expect (cells c !! obj) "no such cell" in
        let? name := var_name x in
        let? d := to_dict x in
        Ok (app l [MkView io name class (raw_dict <$> original) (raw_dict d)])
    | _ => Ok l
    end) [] (insts c).

Definition stamped_outputs (os : list ObjView) : Result (gmap string Dictionary) :=
  try_fold (fun m o =>
    match ov_io o with
    | Output => let? d := with_stable_identifier (ov_dict o) in Ok (<[ov_var o := d]> m)
    | _ => Ok m
    end) ∅ os.

Definition pre_mutation (o : ObjView) : Result Dictionary :=
  expect (ov_original o) "Mutate records a pre-mutation dict".

Definition post_dict (stamped : gmap string Dictionary) (o : ObjView) : Result Dictionary :=
  match ov_io o with
  | Output => expect (stamped !! ov_var o) "key not found"
  | _ => Ok (ov_dict o)
  end.

Definition pre_dict (stamped : gmap string Dictionary) (o : ObjView) : Result Dictionary :=
  match ov_io o with Mutate => pre_mutation o | _ => post_dict stamped o end.

Abbreviation commit d := (dict_commitment d).

Definition in_dict (o : ObjView) : Result (list Value) :=
  match ov_io o with
  | Input => Ok [commit (ov_dict o)]
  | Mutate => rmap (fun d => [commit d]) (pre_mutation o)
  | Output => Ok []
  end.
Definition out_dict (stamped : gmap string Dictionary) (o : ObjView) : Result (list Value) :=
  match ov_io o with
  | Input => Ok []
  | _ => rmap (fun d => [commit d]) (post_dict stamped o)
  end.

Definition io_array (stamped : gmap string Dictionary) (os : list ObjView) : Result (list Value) :=
  let? ins := try_map in_dict os in
  let? outs := try_map (out_dict stamped) os in
  Ok (app (concat ins) (concat outs)).

Definition initials_array (m : ActionMeta) (os : list ObjView) : option (list Value) :=
  match initials_entries m with
  | Some _ => Some ((fun o => commit (ov_dict o)) <$> filter (fun o => ov_io o = Output) os)
  | None => None
  end.

(** ** Anchors *)

Record Records : Type := MkRecords {
  r_io : list Value;
  r_initials : option (list Value);
  r_chain : option (list Value);
}.

(** [entry(&array, slot).expect(..)] *)
Definition slot_arg (arr : list Value) (slot : nat) : Result Arg :=
  rmap (fun _ => Entry (array_commitment arr) (value_of_i64 (Z.of_nat slot))) (expect (arr !! slot) "slot exists").

Definition initials_anchor (m : ActionMeta) (r : Records) (name : string) : Result (option Arg) :=
  match initials_entry m name, r_initials r with
  | Some (slot, shape), Some arr => if needs_wildcard shape then Ok None else rmap Some (slot_arg arr slot)
  | _, _ => Ok None
  end.

Definition entry_anchor (r : Records) (e : option (nat * EntryShape)) : Result Arg :=
  let? (slot, _) := expect e "called `Option::unwrap()` on a `None` value" in slot_arg (r_io r) slot.

Definition anchor_at (m : ActionMeta) (r : Records) (name : string) (ts : nat) : Result (option Arg) :=
  let? c := collapsed_at m name ts in
  match c with
  | None => Ok None
  | Some (CollapseIO SideIn) => rmap Some (entry_anchor r (in_entry m name))
  | Some (CollapseIO SideOut) => rmap Some (entry_anchor r (out_entry m name))
  | Some CollapseInitials =>
      let? a := initials_anchor m r name in rmap Some (expect a "collapsed_at promised an initials slot")
  end.

Definition anchor_or_literal (m : ActionMeta) (r : Records) (name : string) (d : Dictionary) (ts : nat) : Result Arg :=
  rmap (default (Lit (commit d))) (anchor_at m r name ts).

Definition chain_step_anchor (m : ActionMeta) (r : Records) (ts : nat) : Result (option Arg) :=
  match chain_step_at ts (chain_max_ts m), r_chain r with
  | Some slot, Some arr => rmap Some (slot_arg arr slot)
  | _, _ => Ok None
  end.

(** ** Pins *)

Definition array_contains (record : list Value) (idx : nat) (d : Dictionary) : Result Statement :=
  runwrap (native_op ArrayContains [Lit (array_commitment record); Lit (value_of_i64 (Z.of_nat idx)); Lit (commit d)]).

Definition pin_st (e : option (nat * EntryShape)) (record : option (list Value)) (d : Dictionary) : Result (list Statement) :=
  match e, record with
  | Some (idx, e), Some record =>
      if needs_wildcard e then rmap (fun st => [st]) (array_contains record idx d) else Ok []
  | _, _ => Ok []
  end.

Definition object_pins (m : ActionMeta) (r : Records) (stamped : gmap string Dictionary) (o : ObjView) :
    Result (list Statement) :=
  let? post := post_dict stamped o in
  let? pre := pre_dict stamped o in
  let? a := pin_st (in_entry m (ov_var o)) (Some (r_io r)) pre in
  let? b := pin_st (out_entry m (ov_var o)) (Some (r_io r)) post in
  let? i := pin_st (initials_entry m (ov_var o)) (r_initials r) (ov_dict o) in
  Ok (app a (app b i)).

(** An alias that the body uses is pinned to the record of its sub-action. *)
Definition alias_pin (c : ActionContext) (i : Inst) : Result (list Statement) :=
  match i with
  | ISubAction _ obj _ (Some (io_record, idx, d)) =>
      let? alias := expect (cell_name (cells c) obj) "not a var" in
      if bool_decide (alias = "?") || negb (bool_decide (alias ∈ body_referenced_vars (cells c) (insts c)))
      then Ok []
      else rmap (fun st => [st])
             (runwrap (native_op ArrayContains
                [Lit io_record; Lit (value_of_i64 (Z.of_nat idx)); Lit (commitment_of d)]))
  | _ => Ok []
  end.

(** ** The chain *)

(** The chain position each instruction advances to: the sub-actions come
    first, since they ran while the script did. *)
Fixpoint chain_positions (sub_ts obj_ts : nat) (l : list Inst) : list (option nat) :=
  match l with
  | [] => []
  | i :: l' =>
      match i with
      | IObject _ _ _ _ => Some (S obj_ts) :: chain_positions sub_ts (S obj_ts) l'
      | ISubAction _ _ _ _ => Some (S sub_ts) :: chain_positions (S sub_ts) obj_ts l'
      | _ => None :: chain_positions sub_ts obj_ts l'
      end
  end.

Definition is_sub (i : Inst) : bool := match i with ISubAction _ _ _ _ => true | _ => false end.
Definition num_subs (l : list Inst) : nat := length (filter (fun i => is_sub i = true) l).
Definition inst_chain_ts (l : list Inst) : list (option nat) := chain_positions 0 (num_subs l) l.

(** The chain a sub-action's statement ends at. *)
Definition sub_chain (st : Statement) : Result Value :=
  match last (st_args st) with
  | Some (Lit v) => Ok v
  | _ => Err (Panic "sub-action chain arg must be a literal value")
  end.

Definition store_step (m : ActionMeta) (ts : nat) (v : Value) (steps : list Value) : list Value :=
  match chain_step_at ts (chain_max_ts m) with Some slot => <[slot := v]> steps | None => steps end.

Definition sub_steps (m : ActionMeta) (l : list Inst) : Result (list Value) :=
  try_fold (fun steps it =>
    match it with
    | (ISubAction _ _ st_sub _, Some ts) =>
        match chain_step_at ts (chain_max_ts m) with
        | Some slot =>
            let? st := expect st_sub "SubAction statement captured at Rhai" in
            let? v := sub_chain st in Ok (<[slot := v]> steps)
        | None => Ok steps
        end
    | _ => Ok steps
    end) (repeat (value_of_i64 0) (chain_max_ts m - 1)) (zip l (inst_chain_ts l)).

(** ** Events *)

Abbreviation X := (eff ExeContext).

Definition set_tx (t : TxBuilder.TxBuilder) (x : ExeContext) : ExeContext :=
  let '(MkExe m _ i o d) := x in MkExe m t i o d.
Definition on_tx {C} (f : eff TxBuilder.TxBuilder C) : X C := fun x =>
  let '(r, t) := f (x_tx x) in (r, set_tx t x).
Definition add_output (d : Dictionary) : X unit := fun x =>
  let '(MkExe m t i o n) := x in (Ok tt, MkExe m t i (app o [d]) n).

Record ObjEvent : Type := MkEvent {
  ev_st : Statement;
  ev_handle : TxBuilder.EventHandle;
  ev_dict : Dictionary;
  ev_obj : ObjView;
  ev_ts : nat;
}.

Variable modules : list Predicate.

Definition record_event (o : ObjView) : X (Dictionary * Statement * TxBuilder.EventHandle) :=
  match ov_io o with
  | Output => on_tx (TxBuilder.insert modules (ov_dict o))
  | Input => let! (st, h) := on_tx (TxBuilder.delete_object modules (ov_dict o)) in eret (ov_dict o, st, h)
  | Mutate =>
      let! old := elift (pre_mutation o) in
      let! (st, h) := on_tx (TxBuilder.mutate modules (ov_dict o) old) in eret (ov_dict o, st, h)
  end.

(** The events in declaration order, after all sub-actions. *)
Fixpoint record_events (m : ActionMeta) (ts : nat) (os : list ObjView) (steps : list Value) :
    X (list ObjEvent * list Value) :=
  match os with
  | [] => eret ([], steps)
  | o :: os' =>
      let! (d, st, h) := record_event o in
      let! x := eget in
      let steps' := store_step m (S ts) (TxBuilder.chain (x_tx x)) steps in
      (if produces (ov_io o) then add_output d else eret tt) ;!
      let! (evs, steps'') := record_events m (S ts) os' steps' in
      eret (MkEvent st h d o (S ts) :: evs, steps'')
  end.

Definition open_entry (e : option (nat * EntryShape)) : option nat :=
  match e with Some (i, e) => if needs_wildcard e then None else Some i | None => None end.
Definition opt_anchor (r : Records) (slot : option nat) : Result (option Arg) :=
  match slot with Some i => rmap Some (slot_arg (r_io r) i) | None => Ok None end.

(** The event's literals that the predicate names as record entries. *)
Definition event_replacements (m : ActionMeta) (r : Records) (e : ObjEvent) : Result (list (option Arg)) :=
  let v := ov_var (ev_obj e) in
  let io := ov_io (ev_obj e) in
  let? old := opt_anchor r (if consumes io then open_entry (in_entry m v) else None) in
  let? new := opt_anchor r (if produces io then open_entry (out_entry m v) else None) in
  let? chain := chain_step_anchor m r (ev_ts e) in
  let? prev := chain_step_anchor m r (ev_ts e - 1) in
  match io with
  | Output => let? initial := initials_anchor m r v in Ok [prev; chain; initial; new; None]
  | Input => Ok [prev; chain; old; None]
  | Mutate => Ok [prev; chain; old; new; None]
  end.

Definition replaced (es : list (option Arg)) (st : Statement) : Result Statement :=
  if existsb (fun e => bool_decide (is_Some e)) es then replace_op es st else Ok st.

Definition event_st (m : ActionMeta) (r : Records) (e : ObjEvent) : Result Statement :=
  let? es := event_replacements m r e in runwrap (replaced es (ev_st e)).

(** ** The body *)

Abbreviation Stamps := (gmap string nat).

(** The anchored form of an argument, if it has one. *)
Definition arg_anchor (m : ActionMeta) (r : Records) (cs : list VarOrValue) (cur : Stamps) (arg : Ref) (snap : Arg) :
    Result (option Arg) :=
  let? x := expect (cs !! arg) "no such cell" in
  match x with
  | IsValue _ => Ok None
  | IsVar v =>
      match v_key v with
      | Some _ => Ok (Some snap)
      | None => match cur !! v_name v with Some ts => anchor_at m r (v_name v) ts | None => Ok None end
      end
  end.

Definition anchored (m : ActionMeta) (r : Records) (cs : list VarOrValue) (cur : Stamps) (a : Ref * Arg) : Result Arg :=
  rmap (default (snd a)) (arg_anchor m r cs cur (fst a) (snd a)).

Definition body_inst (m : ActionMeta) (r : Records) (cs : list VarOrValue) (cur : Stamps) (i : Inst) (ts : option nat) :
    Result (list Statement) :=
  match i with
  | IObject _ _ _ _ => Ok []
  | IStatement pred rs op_args =>
      let? snaps := expect op_args "args captured at Rhai" in
      let? l := try_map (anchored m r cs cur) (zip rs snaps) in
      rmap (fun st => [st]) (native_op pred l)
  | IIntro _ rs statement op_args =>
      let? st := expect statement "Intro statement captured at Rhai" in
      let? snaps := expect op_args "args captured at Rhai" in
      let? es := try_map (fun '(arg, snap) => arg_anchor m r cs cur arg snap) (zip rs snaps) in
      rmap (fun st => [st]) (runwrap (replaced es st))
  | ISubAction _ _ st_sub _ =>
      let? st := expect st_sub "SubAction statement captured at Rhai" in
      let? post := expect ts "SubAction has parent_ts" in
      let? prev_anchor := chain_step_anchor m r (post - 1) in
      let? anchor := chain_step_anchor m r post in
      let n := length (st_args st) in
      rmap (fun st => [st]) (replaced (app (repeat None (n - 2)) [prev_anchor; anchor]) st)
  | ISet obj kvs op_args final_dict =>
      let? d := expect final_dict "Set final_dict captured at Rhai" in
      let? dict_arg := anchor_or_literal m r obj (raw_dict d) (default 0%nat (cur !! obj)) in
      let? snaps := expect op_args "Set op_args captured at Rhai" in
      try_map (fun '(kv, snap) =>
        let? arg := anchored m r cs cur (snd kv, snap) in
        runwrap (native_op DictContains [dict_arg; Lit (value_of_str (fst kv)); arg])) (zip kvs snaps)
  | IUpdate obj key value op_arg old_dict new_dict =>
      let? old := expect old_dict "Update old_dict captured at Rhai" in
      let? new := expect new_dict "Update new_dict captured at Rhai" in
      let? snap := expect op_arg "Update op_arg captured at Rhai" in
      let? arg := anchored m r cs cur (value, snap) in
      let before := default 0%nat (cur !! obj) in
      let? new_arg := anchor_or_literal m r obj (raw_dict new) (S before) in
      let? old_arg := anchor_or_literal m r obj (raw_dict old) before in
      rmap (fun st => [st]) (runwrap (native_op DictUpdate [old_arg; Lit (value_of_str key); arg; new_arg]))
  end.

Fixpoint body_insts (m : ActionMeta) (r : Records) (cs : list VarOrValue) (cur : Stamps) (l : list (Inst * option nat)) :
    Result (list Statement) :=
  match l with
  | [] => Ok []
  | (i, ts) :: l' =>
      let? sts := body_inst m r cs cur i ts in
      let? sts' := body_insts m r cs (advance cur i) l' in
      Ok (app sts sts')
  end.

Definition object_stamps (m : ActionMeta) : Stamps :=
  list_to_map ((fun o => (o_varname o, 0%nat)) <$> object_refs m).

(** All statements of the action's predicate, in the order it is rendered. *)
Definition action_statements (m : ActionMeta) (r : Records) (stamped : gmap string Dictionary)
    (c : ActionContext) (os : list ObjView) (evs : list ObjEvent) : Result (list Statement) :=
  let? pins := try_map (object_pins m r stamped) os in
  let? alias_pins := try_map (alias_pin c) (insts c) in
  let? event_sts := try_map (event_st m r) evs in
  let? body := body_insts m r (cells c) (object_stamps m) (zip (insts c) (inst_chain_ts (insts c))) in
  Ok (app (concat pins) (app (concat alias_pins) (app body event_sts))).

(** ** Guards *)

Variable sm : SdkModule.

Definition sdk_bridge_name (action : string) (idx : nat) : Result string :=
  let? a := action_by_name sm action in
  let? o := expect (object_refs a !! idx) "index out of bounds" in
  let count := length (filter (fun p => o_class p = o_class o) (object_refs a)) in
  Ok (bridge_predicate_name (o_class o) action (o_varname o) (bool_decide (1 < count)%nat)).

(** [vec[i] = x] *)
Definition put_slot {C} (l : list C) (i : nat) (x : C) : Result (list C) :=
  match l !! i with Some _ => Ok (<[i := x]> l) | None => Err (Panic "index out of bounds") end.

Definition build_is_x (header : DonState.StateHeader) (action class : string) (idx : nat) (st_action : Statement)
    (bridge_array : list Value) (entry_idx : nat) (d : Dictionary) : Result Statement :=
  let? bridge := sdk_bridge_name action idx in
  let? st_array_contains := array_contains bridge_array entry_idx d in
  let? st_bridge := runwrap (apply_custom_pred_simple modules bridge [st_array_contains; st_action]) in
  let? class_meta := class_by_name sm class in
  let? n := expect (sm_index sm !! (action, idx)) "key not found" in
  let? branches := put_slot (repeat st_none (length (c_actions class_meta) + 1)) n st_bridge in
  runwrap (apply_custom_pred modules (class_predicate_name class)
    [("state_header", DonState.StateHeader_hash header)] branches).

Fixpoint attach_guards (m : ActionMeta) (action : string) (st_action : Statement) (io : list Value) (idx : nat)
    (evs : list ObjEvent) : X unit :=
  match evs with
  | [] => eret tt
  | e :: evs' =>
      let! o := elift (expect (object_refs m !! idx) "index out of bounds") in
      let! (slot, _) := elift (expect (match dispatch_side (o_io o) with
                                       | SideIn => in_entry m (o_varname o)
                                       | SideOut => out_entry m (o_varname o)
                                       end) "called `Option::unwrap()` on a `None` value") in
      let! x := eget in
      let! st := elift (build_is_x (TxBuilder.tb_header (x_tx x)) action (ov_class (ev_obj e)) idx st_action io slot (ev_dict e)) in
      on_tx (TxBuilder.set_guard (ev_handle e) st) ;!
      attach_guards m action st_action io (S idx) evs'
  end.

(** ** The action *)

(** After the script ran: events, statements, predicate and guards. *)
Definition prove_action (action : string) (scope : Z) : eff ActionContext (Statement * list Value) :=
  let! c := eget in
  let! m := elift (action_by_name sm action) in
  let! os := elift (object_views c) in
  let! stamped := elift (stamped_outputs os) in
  let! io := elift (io_array stamped os) in
  let initials := initials_array m os in
  let! steps := elift (sub_steps m (insts c)) in
  let! (evs, steps) := SdkCalls.on_exe (record_events m (num_subs (insts c)) os steps) in
  let r := MkRecords io initials (if chain_packed (chain_max_ts m) then Some steps else None) in
  let! sts := elift (action_statements m r stamped c os evs) in
  SdkCalls.on_exe (
    let! x := eget in
    let! st := elift (runwrap (apply_custom_pred modules action
      [("state_header", DonState.StateHeader_hash (TxBuilder.tb_header (x_tx x)))] sts)) in
    attach_guards m action st io 0 evs ;!
    on_tx (TxBuilder.end_action scope) ;!
    eret (st, io)).

Definition exe_action_with (run_sub : string -> X (Statement * option (VarOrValue * (Value * nat * PDict)))) :
    eff ActionContext (Statement * list Value) :=
  let! c := eget in
  let! scope := SdkCalls.on_exe (on_tx TxBuilder.begin_action) in
  SdkCalls.run_script (sm_hashes sm) run_sub (sm_script sm (a_name c)) ;!
  prove_action (a_name c) scope.

(** What the parent sees of a sub-action that has run: its first produced
    object, with the recorded form of an output. *)
Definition first_produced (l : list Inst) : option (ObjectIO * Ref) :=
  head (omap (fun i => match i with
                       | IObject io obj _ _ => if produces io then Some (io, obj) else None
                       | _ => None
                       end) l).

(** [with_stable_identifier] on the typed dictionary. *)
Definition with_identifier (d : PDict) : Result PDict :=
  let? _ := with_stable_identifier (raw_dict d) in
  Ok (<[STABLE_IDENTIFIER_FIELD := from_raw (commitment_of d)]> d).

Definition sub_alias (c : ActionContext) (io : list Value) : Result (option (VarOrValue * (Value * nat * PDict))) :=
  match first_produced (insts c) with
  | None => Ok None
  | Some (kind, obj) =>
      let? m := action_by_name sm (a_name c) in
      let? x := expect (cells c !! obj) "no such cell" in
      let? name := var_name x in
      let? (idx, _) := expect (out_entry m name) "produced object has an out entry" in
      let? _ := expect (io !! idx) "sub io record has an entry per produced object" in
      let? d := to_dict x in
      let? d := (if is_output kind then with_identifier d else Ok d) in
      let? x := set_var_name "?" (if is_output kind then set_value (from_dict d) x else x) in
      Ok (Some (x, (array_commitment io, idx, d)))
  end.

(** [fuel] bounds the nesting of sub-actions. *)
Fixpoint exe_action (fuel : nat) : eff ActionContext (Statement * list Value) :=
  match fuel with
  | O => ethrow (Panic "sub-actions nested too deeply")
  | S fuel' =>
      exe_action_with (fun action x =>
        match exe_action fuel' (ActionContext_new action (Some x)) with
        | (Ok (st, io), c) =>
            (rmap (fun alias => (st, alias)) (sub_alias c io), default x (exe_ctx c))
        | (Err e, c) => (Err e, default x (exe_ctx c))
        end)
  end.

(** ** Transactions *)

Variable random : Value.

Definition check_inputs (action : string) (m : ActionMeta) (inputs : list PDict) : Result unit :=
  rensure (bool_decide (length inputs = length (total_inputs m))) "expects another number of input objects" ;?
  let? pairs := zip_eq inputs (total_inputs m) in
  try_fold (fun _ '(d, o) =>
    let? expected := expect (sm_hashes sm !! o_class o) "key not found" in
    rensure (bool_decide (raw <$> d !! "type" = Some expected)) "requires an input of another class") tt pairs.

(** The guard of a rekeyed object is the last branch of its class. *)
Definition rekey_action (m : ActionMeta) (inputs : list PDict) : eff TxBuilder.TxBuilder (list Dictionary) :=
  let! o := elift (expect (head (total_inputs m)) "index out of bounds") in
  let class := o_class o in
  let! scope := TxBuilder.begin_action in
  let! old := elift (expect (head inputs) "index out of bounds") in
  let! (new, st_rekey, handle) := TxBuilder.rekey modules (raw_dict old) random in
  let! cm := elift (class_by_name sm class) in
  let n := length (c_actions cm) in
  let! premises := elift (put_slot (repeat st_none (n + 1)) n st_rekey) in
  let! b := eget in
  let! guard := elift (apply_custom_pred modules (class_predicate_name class)
    [("state_header", DonState.StateHeader_hash (TxBuilder.tb_header b))] premises) in
  TxBuilder.set_guard handle guard ;!
  TxBuilder.end_action scope ;!
  eret [new].

Definition build_action (fuel : nat) (mock : bool) (g : TxBuilder.GroundingWitness) (action : string) (inputs : list PDict)
    (supplied : gmap string PVal) : Result (Statement * TxBuilder.Tx * list Dictionary) :=
  let? (_, m) := ok_or (list_find (fun a => m_name a = action) (sm_actions sm)) "unknown action" in
  check_inputs action m inputs ;?
  let? b := TxBuilder.TxBuilder_new modules (raw_dict <$> inputs) g in
  let? (b, outputs) :=
    match m_kind m with
    | RekeyAction => let '(r, b') := rekey_action m inputs b in rmap (fun o => (b', o)) r
    | ScriptAction =>
        let x := MkExe mock b (rev inputs) [] 0 in
        let c := set_supplied_args supplied (ActionContext_new action (Some x)) in
        let '(r, c') := exe_action fuel c in
        let? _ := r in
        let? x' := expect (exe_ctx c') "unique ExeContext reference after rhai" in
        Ok (x_tx x', x_outputs x')
    end in
  let? (st, tx, _) := TxBuilder.finalize modules b in
  Ok (st, tx, outputs).
End Exec.
End SdkExec.
