(* ===== verification/SdkAlign.v ===== *)
(** * Executions fit the podlang they were rendered to (libs/sdk)

    The predicate that an action renders to is written once, at Load; every
    execution proves its statements separately, in another function, and hands
    them to pod2 by position. pod2 accepts them only if they are an instance of
    the predicate: clause by clause, each argument in the form the predicate
    gives it, each wildcard with one value. This file shows that they are,
    when every variable has one value at each of its timestamps. *)

From S2P Require Import Prelude Pod2 Models DonState Podlang TxModel Replay TxBuilder Sdk SdkCalls SdkMeta SdkPodlang SdkExec.

Module SdkAlign.
Import Podlang TxModel Sdk SdkMeta SdkPodlang SdkExec.
Local Open Scope string_scope.

Lemma expect_Ok {A} (o : option A) msg a : expect o msg = Ok a <-> o = Some a.
Proof. destruct o; simpl; naive_solver. Qed.

(** ** Positions in records *)

Lemma find_varname name (l : list EntryShape) (f : string -> string) :
  Inj (=) (=) f ->
  fst <$> list_find (fun y => y = f name) ((fun e => f (e_varname e)) <$> l) = fst <$> find_entry name l.
Proof.
  intros Hf. unfold find_entry. induction l as [|e l IH]; [done|]. csimpl.
  destruct (decide (e_varname e = name)) as [->|Hne]; [by rewrite decide_True|].
  rewrite decide_False by (by intros E; apply Hne, Hf).
  destruct (list_find _ (_ <$> l)) as [[]|], (list_find (fun e => e_varname e = name) l) as [[]|]; simpl in *; congruence.
Qed.

Lemma string_app_inj s : Inj (=) (=) (String.append s).
Proof. intros a b. induction s as [|ch s IH]; simpl; [done|]. intros [= ?]. auto. Qed.

Lemma list_find_app_r {A} (P : A -> Prop) `{!forall x, Decision (P x)} l k :
  Forall (fun x => ~ P x) l ->
  list_find P (app l k) = (fun '(i, x) => ((i + length l)%nat, x)) <$> list_find P k.
Proof.
  induction 1 as [|x l Hx _ IH]; csimpl.
  - destruct (list_find P k) as [[]|]; simpl; [|done]. by rewrite Nat.add_0_r.
  - rewrite decide_False by done. rewrite IH. destruct (list_find P k) as [[]|]; simpl; [|done]. by rewrite Nat.add_succ_r.
Qed.

Lemma list_find_app_l {A} (P : A -> Prop) `{!forall x, Decision (P x)} l k :
  Forall (fun x => ~ P x) k -> list_find P (app l k) = list_find P l.
Proof.
  intros Hk. induction l as [|x l IH]; csimpl.
  - induction Hk as [|x k Hx _ IH]; [done|]. csimpl. rewrite decide_False by done. by rewrite IH.
  - case_decide; [done|]. by rewrite IH.
Qed.

(** The entries of an object in the input-output record. *)
Lemma io_in_position m name :
  fst <$> list_find (fun f => f = side_arg_name SideIn name) (io_schema m) = fst <$> in_entry m name.
Proof.
  unfold io_schema, in_entry. rewrite list_find_app_l.
  - apply (find_varname name (in_entries m) (side_arg_name SideIn)). intros a b. apply string_app_inj.
  - apply Forall_fmap, Forall_true. intros e. simpl. done.
Qed.

Lemma io_out_position m name :
  fst <$> list_find (fun f => f = side_arg_name SideOut name) (io_schema m) = fst <$> out_entry m name.
Proof.
  unfold io_schema, out_entry. rewrite list_find_app_r.
  - pose proof (find_varname name (out_entries m) (side_arg_name SideOut)) as Hf.
    unfold find_entry in *. specialize (Hf ltac:(intros a b; apply string_app_inj)). rewrite length_fmap.
    destruct (list_find _ (_ <$> _)) as [[]|], (list_find _ (out_entries m)) as [[]|]; simpl in *; congruence.
  - apply Forall_fmap, Forall_true. intros e. simpl. done.
Qed.

Lemma initials_position m name :
  fst <$> list_find (fun f => f = name) (initials_schema m) = fst <$> initials_entry m name.
Proof.
  unfold initials_schema, initials_entry. destruct (initials_entries m) as [l|]; [|done]. simpl.
  apply (find_varname name l id). apply _.
Qed.

(** Step names are their slots. *)
Lemma chain_slot_position m slot f :
  list_find (fun f => f = "step_" +:+ pretty slot) (chain_schema m) = Some f -> fst f = slot.
Proof.
  unfold chain_schema. intros Hf. destruct f as [i s]. apply list_find_Some in Hf as (Hi & -> & _). simpl.
  rewrite list_lookup_fmap in Hi. apply fmap_Some in Hi as (k & Hk & He).
  apply lookup_seq in Hk as [-> _]. apply string_app_inj in He. simpl in He. by apply (inj pretty) in He.
Qed.

Lemma record_field_Ok record schema field f :
  record_field record schema field = Ok f ->
  exists i, fst <$> list_find (fun x => x = field) schema = Some i /\ f = RSlot record i.
Proof.
  unfold record_field. destruct (list_find _ schema) as [[i s]|]; simpl; [|done]. intros [= <-]. eauto.
Qed.

Section Align.
Context `{SdkEnv : SdkCalls.SdkEnv} `{B : !Natives, NL : !NativeLaws, PH : PredicateHash, Bu : !Builder, BL : !BuilderLaws}.

(** The action's metadata, the cells its script left, its records, the value
    of every variable at every timestamp, and the wildcards' values. *)
Context (m : ActionMeta) (cs : list VarOrValue) (r : Records).
Context (Val : string -> nat -> Value) (σ : string -> Value).

Abbreviation slot_value i := (value_of_i64 (Z.of_nat i)).

(** ** Wildcards and records hold the variables' values *)

Record assigned : Prop := {
  as_var n t last : max_ts m n = Ok last -> (t <= last)%nat -> σ (fmt_var_at n t last) = Val n t;
  as_io : σ "io" = array_commitment (r_io r);
  as_initials arr : r_initials r = Some arr -> σ "initials" = array_commitment arr;
  as_chain arr : r_chain r = Some arr -> σ "chain_steps" = array_commitment arr;
  as_header n t last :
    max_ts m n = Ok last -> (t <= last)%nat -> fmt_var_at n t last = "state_header" <-> n = "state_header";
}.

Record recorded : Prop := {
  rec_in n i e : in_entry m n = Some (i, e) -> r_io r !! i = Some (Val n 0%nat);
  rec_out n i e last : out_entry m n = Some (i, e) -> max_ts m n = Ok last -> r_io r !! i = Some (Val n last);
  rec_initials n i e last : initials_entry m n = Some (i, e) -> max_ts m n = Ok last ->
    exists arr, r_initials r = Some arr /\ arr !! i = Some (Val n (initials_ts last));
  rec_chain t slot : chain_step_at t (chain_max_ts m) = Some slot ->
    exists arr, r_chain r = Some arr /\ arr !! slot = Some (Val "chain" t);
  rec_chain_max : max_ts m "chain" = Ok (chain_max_ts m);
  rec_no_chain : in_entry m "chain" = None /\ out_entry m "chain" = None /\ initials_entry m "chain" = None;
}.

Hypothesis Has : assigned.
Hypothesis Hrec : recorded.

(** A rendered form, the anchor the executor gives it and the value they
    stand for. *)
Definition form_ok (f : Rendered) (a : option Arg) (v : Value) : Prop :=
  match f with
  | RSlot record slot => a = Some (Entry (σ record) (slot_value slot)) /\ contains (σ record) (slot_value slot) v
  | RWild w => a = None /\ σ w = v
  end.

(** A clause's argument, the replacement for the statement's literal, and the
    literal. *)
Definition arg_form (t : TArg) (e : option Arg) (v : Value) : Prop :=
  match_arg σ t (default (Lit v) e) = true /\ arg_value (default (Lit v) e) v.

Lemma form_arg f a v : form_ok f a v -> arg_form (targ f) a v.
Proof.
  destruct f as [w|record slot]; simpl; intros [-> Hc]; split; simpl; try done.
  - by apply bool_decide_eq_true.
  - by rewrite !bool_decide_eq_true_2.
Qed.

Lemma slot_arg_ok arr i v :
  arr !! i = Some v ->
  slot_arg arr i = Ok (Entry (array_commitment arr) (slot_value i)) /\ contains (array_commitment arr) (slot_value i) v.
Proof.
  intros Hi. unfold slot_arg. rewrite Hi. split; [done|]. apply contains_array. eauto.
Qed.

Lemma collapses_Some e : collapses e = true -> exists i x, e = Some (i, x) /\ needs_wildcard x = false.
Proof. destruct e as [[i x]|]; simpl; [|done]. destruct (needs_wildcard x) eqn:E; [done|]. eauto. Qed.

Lemma fmt_var_form n t last f :
  n <> "chain" -> max_ts m n = Ok last -> (t <= last)%nat -> fmt_var m n t = Ok f ->
  exists a, anchor_at m r n t = Ok a /\ form_ok f a (Val n t)
    /\ (collapsed_at m n t = Ok None -> a = None) /\ (forall w, f = RWild w -> w = fmt_var_at n t last /\ collapsed_at m n t = Ok None).
Proof.
  intros Hn Hl Ht. unfold fmt_var, anchor_at, collapsed_at. rewrite Hl. cbn [rbind].
  destruct (_ && collapses (in_entry m n)) eqn:Ein.
  { intros Hf. apply andb_true_iff in Ein as [->%bool_decide_eq_true (i & x & Hi & _)%collapses_Some].
    apply record_field_Ok in Hf as (j & Hj & ->). rewrite io_in_position, Hi in Hj. injection Hj as <-.
    destruct (slot_arg_ok _ _ _ (rec_in Hrec _ _ _ Hi)) as [Hs Hc]. rewrite Hi. unfold entry_anchor. simpl. rewrite Hs.
    eexists. split; [done|]. split; [|done]. simpl. by rewrite as_io. }
  destruct (_ && collapses (out_entry m n)) eqn:Eout.
  { intros Hf. apply andb_true_iff in Eout as [->%bool_decide_eq_true (i & x & Hi & _)%collapses_Some].
    apply record_field_Ok in Hf as (j & Hj & ->). rewrite io_out_position, Hi in Hj. injection Hj as <-.
    destruct (slot_arg_ok _ _ _ (rec_out Hrec _ _ _ _ Hi Hl)) as [Hs Hc]. rewrite Hi. unfold entry_anchor. simpl. rewrite Hs.
    eexists. split; [done|]. split; [|done]. simpl. by rewrite as_io. }
  destruct (_ && collapses (initials_entry m n)) eqn:Eini.
  { intros Hf. apply andb_true_iff in Eini as [->%bool_decide_eq_true (i & x & Hi & Hx)%collapses_Some].
    apply record_field_Ok in Hf as (j & Hj & ->). rewrite initials_position, Hi in Hj. injection Hj as <-.
    destruct (rec_initials Hrec _ _ _ _ Hi Hl) as (arr & Harr & Hv).
    destruct (slot_arg_ok _ _ _ Hv) as [Hs Hc]. unfold initials_anchor. rewrite Hi, Harr, Hx. simpl. rewrite Hs.
    eexists. split; [done|]. split; [|done]. simpl. by rewrite (as_initials Has arr). }
  rewrite bool_decide_eq_false_2 by done. intros [= <-]. exists None. split; [done|]. simpl.
  rewrite (as_var Has _ _ _ Hl Ht). split_and!; try done. by intros w [= <-].
Qed.

(** A variable that is not an object is never an entry. *)
Definition no_entries (n : string) : Prop := in_entry m n = None /\ out_entry m n = None /\ initials_entry m n = None.

Lemma no_entries_open n t last : no_entries n -> max_ts m n = Ok last -> collapsed_at m n t = Ok None.
Proof.
  intros (Hi & Ho & Hs) Hl. unfold collapsed_at. rewrite Hl, Hi, Ho, Hs. simpl. by rewrite !andb_false_r.
Qed.

Lemma open_anchor n t : collapsed_at m n t = Ok None -> anchor_at m r n t = Ok None.
Proof. intros Hc. unfold anchor_at. by rewrite Hc. Qed.

Lemma fmt_chain_form t f :
  (t <= chain_max_ts m)%nat -> fmt_var m "chain" t = Ok f ->
  exists a, chain_step_anchor m r t = Ok a /\ form_ok f a (Val "chain" t).
Proof.
  intros Ht. pose proof (rec_chain_max Hrec) as Hl. unfold fmt_var.
  rewrite (no_entries_open _ _ _ (rec_no_chain Hrec) Hl), Hl. cbn [rbind].
  rewrite bool_decide_eq_true_2 by done. unfold chain_step_anchor.
  destruct (chain_step_at t (chain_max_ts m)) as [slot|] eqn:E.
  - intros Hf. apply record_field_Ok in Hf as (i & Hi & ->).
    destruct (rec_chain Hrec _ _ E) as (arr & Harr & Hv). rewrite Harr. destruct (slot_arg_ok _ _ _ Hv) as [Hs Hc].
    destruct (list_find _ (chain_schema m)) as [[j s]|] eqn:Ej; [|done]. injection Hi as <-.
    apply chain_slot_position in Ej. simpl in Ej. subst j. rewrite Hs. eexists. split; [done|]. simpl.
    by rewrite (as_chain Has arr).
  - intros [= <-]. exists None. split; [done|]. simpl. split; [done|]. by apply (as_var Has).
Qed.

(** ** Replacing literals by entries *)

Lemma replaced_ok p es vs :
  Forall2 (fun e v => arg_value (default (Lit v) e) v) es vs ->
  replaced es (St p (Lit <$> vs)) = Ok (St p (zip_with (fun e v => default (Lit v) e) es vs)).
Proof.
  intros Hv. unfold replaced. destruct (existsb _ es) eqn:E.
  - apply replace_op_ok. clear E. induction Hv as [|[e|] v es vs Hev _ IH]; csimpl; constructor; done.
  - do 2 f_equal. induction Hv as [|e v es vs _ _ IH]; [done|]. csimpl in *. apply orb_false_iff in E as [E1 E2].
    apply bool_decide_eq_false in E1. destruct e; [by destruct E1|]. simpl. by rewrite <-IH.
Qed.

Lemma match_replaced ts es vs :
  Forall3 arg_form ts es vs -> match_args σ ts (zip_with (fun e v => default (Lit v) e) es vs) = true.
Proof. induction 1 as [|t e v ts es vs [Hm _] _ IH]; [done|]. simpl. by rewrite Hm. Qed.

Lemma arg_form_values ts es vs : Forall3 arg_form ts es vs -> Forall2 (fun e v => arg_value (default (Lit v) e) v) es vs.
Proof. induction 1 as [|t e v ts es vs [_ Hv] _ IH]; by constructor. Qed.

(** A statement proved over literals fits a clause once its replacements are
    made. *)
Lemma replaced_matches p tp ts es vs :
  pred_of σ tp = p -> p <> NoPred -> Forall3 arg_form ts es vs ->
  exists st, replaced es (St p (Lit <$> vs)) = Ok st /\ matches σ (T tp ts) st = true /\ is_none st = false.
Proof.
  intros Hp Hn Hf. eexists. split; [apply replaced_ok; by eapply arg_form_values|]. split.
  - unfold matches. simpl. rewrite Hp, bool_decide_eq_true_2 by done. by apply match_replaced.
  - unfold is_none. simpl. by destruct p.
Qed.

(** A native statement over arguments in their forms. *)
Lemma native_matches p ts l vs :
  match_args σ ts l = true -> Forall2 arg_value l vs -> native_holds p vs ->
  native_op p l = Ok (St (Native p) l) /\ matches σ (T (TNative p) ts) (St (Native p) l) = true.
Proof.
  intros Hm Hl Hv. split; [by eapply native_op_ok|]. unfold matches. simpl.
  by rewrite bool_decide_eq_true_2.
Qed.

(** ** Arguments *)

(** A field of the state header is its position in the record. *)
Definition key_value (n key : string) : option Value :=
  if bool_decide (n = "state_header")
  then (fun f => slot_value (fst f)) <$> list_find (fun f => f = key) SdkCalls.RECORD_STATE_HEADER
  else Some (value_of_str key).

(** What capturing a cell gives when its variable has its current value. *)
Definition cell_snap (stamps : gmap string nat) (x : VarOrValue) : option Arg :=
  match x with
  | IsValue p => Some (Lit (raw p))
  | IsVar v =>
      if bool_decide (v_name v = "chain") then None
      else match stamps !! v_name v, v_key v with
           | Some t, None => Some (Lit (Val (v_name v) t))
           | Some t, Some key => Entry (Val (v_name v) t) <$> key_value (v_name v) key
           | None, _ => None
           end
  end.

(** The argument was captured as its variable's current value, which is [v]. *)
Definition captured (stamps : gmap string nat) (arg : Ref) (snap : Arg) (v : Value) : Prop :=
  exists x, cs !! arg = Some x /\ cell_snap stamps x = Some snap /\ arg_value snap v.

(** The executor counts the objects' timestamps only. *)
Definition tracks (stamps cur : gmap string nat) : Prop :=
  forall n t, n <> "chain" -> stamps !! n = Some t ->
    (exists last, max_ts m n = Ok last /\ (t <= last)%nat) /\ (cur !! n = Some t \/ cur !! n = None /\ no_entries n).

Lemma tracked_form stamps cur n f :
  tracks stamps cur -> n <> "chain" -> fmt_name m stamps n = Ok f ->
  exists t last a, stamps !! n = Some t /\ max_ts m n = Ok last /\ (t <= last)%nat
    /\ match cur !! n with Some t => anchor_at m r n t | None => Ok None end = Ok a
    /\ anchor_at m r n (default 0%nat (cur !! n)) = Ok a
    /\ form_ok f a (Val n t) /\ (collapsed_at m n t = Ok None -> a = None)
    /\ (forall w, f = RWild w -> w = fmt_var_at n t last).
Proof.
  intros Htr Hn Hf. unfold fmt_name in Hf. destruct (stamps !! n) as [t|] eqn:Et; [|done]. simpl in Hf.
  destruct (Htr n t Hn Et) as [(last & Hl & Hle) Hc].
  destruct (fmt_var_form n t last f Hn Hl Hle Hf) as (a & Ha & Hform & Hopen & Hw).
  exists t, last, a. split_and!; try done; [| |naive_solver].
  - destruct Hc as [->|[-> Hno]]; [done|]. f_equal. symmetry. apply Hopen. by eapply no_entries_open.
  - destruct Hc as [->|[-> Hno]]; [done|]. simpl. rewrite (open_anchor n 0).
    + f_equal. symmetry. apply Hopen. by eapply no_entries_open.
    + by eapply no_entries_open.
Qed.

Lemma fmt_arg_form stamps cur arg snap v t :
  tracks stamps cur -> captured stamps arg snap v -> fmt_arg m cs stamps arg = Ok t ->
  exists e, arg_anchor m r cs cur arg snap = Ok e /\ (e = None -> snap = Lit v)
    /\ match_arg σ t (default snap e) = true /\ arg_value (default snap e) v.
Proof.
  intros Htr (x & Hx & Hs & Hv) Ht. unfold fmt_arg in Ht. rewrite Hx in Ht. simpl in Ht.
  unfold arg_anchor. rewrite Hx. simpl. destruct x as [[n ty val key]|p]; simpl in *.
  2: { injection Ht as <-. injection Hs as <-. simpl in Hv. subst v. exists None. simpl.
       by rewrite bool_decide_eq_true_2. }
  case_bool_decide as Hn; [done|]. inv_ok.
  match goal with Hf : fmt_name _ _ _ = Ok _ |- _ =>
    destruct (tracked_form _ _ _ _ Htr Hn Hf) as (ts & last & e & Hts & Hl & Hle & He & _ & Hform & _ & Hw) end.
  rewrite Hts in Hs. destruct key as [key|].
  - exists (Some snap). split_and!; try done. simpl.
    destruct a as [w|]; [|done]. specialize (Hw w eq_refl). destruct Hform as [_ Hval]. simpl in Hk. unfold key_value in Hs.
    pose proof (as_header Has n ts last Hl Hle) as Hhd. rewrite <-Hw in Hhd.
    destruct (decide (n = "state_header")) as [Hd|Hd].
    + rewrite bool_decide_eq_true_2 in Hk by tauto. rewrite bool_decide_eq_true_2 in Hs by done.
      unfold record_field in Hk. destruct (list_find _ _) as [[i f]|]; [|done]. simpl in *. simplify_eq. simpl.
      by rewrite !bool_decide_eq_true_2.
    + rewrite bool_decide_eq_false_2 in Hk by tauto. rewrite bool_decide_eq_false_2 in Hs by done.
      simpl in *. simplify_eq. simpl. by rewrite !bool_decide_eq_true_2.
  - injection Hs as <-. injection Hk as <-. simpl in Hv. subst v. rewrite He. exists e. split; [done|].
    destruct (form_arg _ _ _ Hform) as [Hm Hval]. done.
Qed.

(** All arguments of a statement. *)
Lemma fmt_args_form stamps cur rs snaps vs ts :
  tracks stamps cur -> Forall3 (captured stamps) rs snaps vs -> try_map (fmt_arg m cs stamps) rs = Ok ts ->
  exists es, try_map (fun '(arg, snap) => arg_anchor m r cs cur arg snap) (zip rs snaps) = Ok es
    /\ Forall3 arg_form ts es vs
    /\ exists l, try_map (anchored m r cs cur) (zip rs snaps) = Ok l
    /\ match_args σ ts l = true /\ Forall2 arg_value l vs.
Proof.
  intros Htr Hc. revert ts. induction Hc as [|arg snap v rs snaps vs Hcap _ IH]; intros ts Hts; simpl in Hts.
  - injection Hts as <-. exists []. split_and!; [done|constructor|]. by exists [].
  - inv_ok. match goal with Ha : fmt_arg _ _ _ _ = Ok _ |- _ =>
      destruct (fmt_arg_form _ _ _ _ _ _ Htr Hcap Ha) as (e & He & Hnone & Hm & Hv) end.
    match goal with Hb : try_map _ rs = Ok _ |- _ => destruct (IH _ Hb) as (es & Hes & Hf & l & Hl & Hml & Hvl) end.
    exists (e :: es). simpl. rewrite He, Hes. simpl. split_and!; [done| |].
    + constructor; [|done]. destruct e as [e|]; simpl in *; [done|]. specialize (Hnone eq_refl) as ->. done.
    + unfold anchored at 1. simpl. rewrite He. simpl. rewrite Hl. simpl. eexists. split; [done|]. simpl.
      rewrite Hm. split; [done|]. by constructor.
Qed.

Lemma fmt_arg_anchored stamps cur arg snap v t :
  tracks stamps cur -> captured stamps arg snap v -> fmt_arg m cs stamps arg = Ok t ->
  exists a, anchored m r cs cur (arg, snap) = Ok a /\ match_arg σ t a = true /\ arg_value a v.
Proof.
  intros Htr Hc Ht. destruct (fmt_arg_form _ _ _ _ _ _ Htr Hc Ht) as (e & He & _ & Hm & Hv).
  unfold anchored. simpl. rewrite He. simpl. eauto.
Qed.

(** ** Instructions *)

Context (header : Value).

(** What an instruction captured agrees with the variables' values when the
    variables are at [stamps] and the chain at [k]; what it states is true. *)
Definition coherent_inst (stamps : gmap string nat) (k : nat) (i : Inst) : Prop :=
  match i with
  | IObject _ _ _ _ => True
  | IStatement pred rs op_args =>
      exists snaps vs, op_args = Some snaps /\ Forall3 (captured stamps) rs snaps vs /\ native_holds pred vs
  | IIntro pred rs statement op_args =>
      exists snaps vs, op_args = Some snaps /\ Forall3 (captured stamps) rs snaps vs
        /\ statement = Some (St (Custom (predicate_hash (intro_name pred))) (Lit <$> vs))
  | ISet obj kvs op_args final_dict =>
      obj <> "chain" /\ exists snaps d t vs, op_args = Some snaps /\ final_dict = Some d /\ stamps !! obj = Some t
        /\ Forall3 (captured stamps) (snd <$> kvs) snaps vs
        /\ (collapsed_at m obj t = Ok None -> commitment_of d = Val obj t)
        /\ Forall2 (fun key v => contains (Val obj t) (value_of_str key) v) (fst <$> kvs) vs
  | IUpdate obj key value op_arg old_dict new_dict =>
      obj <> "chain" /\ exists snap old new t v, op_arg = Some snap /\ old_dict = Some old /\ new_dict = Some new
        /\ stamps !! obj = Some t /\ captured stamps value snap v
        /\ commitment_of old = Val obj t /\ commitment_of new = Val obj (S t)
        /\ dict_update (Val obj t) (value_of_str key) v (Val obj (S t))
  | ISubAction action _ st_sub _ =>
      exists sub_io, st_sub = Some (St (Custom (predicate_hash action))
        (Lit <$> [sub_io; header; Val "chain" k; Val "chain" (S k)]))
  end.

(** The timestamps after an instruction. *)
Definition stamps_after (stamps : gmap string nat) (i : Inst) : gmap string nat :=
  match i with
  | IUpdate obj _ _ _ _ _ => next_stamp obj stamps
  | ISubAction _ _ _ _ => next_stamp "chain" stamps
  | _ => stamps
  end.

Fixpoint coherent (stamps : gmap string nat) (k : nat) (l : list Inst) : Prop :=
  match l with
  | [] => True
  | i :: l' => coherent_inst stamps k i /\ coherent (stamps_after stamps i) (if is_sub i then S k else k) l'
  end.

(** The record a sub-action was called with. *)
Definition sub_io (i : Inst) : option Value :=
  match i with
  | ISubAction _ _ (Some st) _ => match head (st_args st) with Some (Lit v) => Some v | _ => None end
  | _ => None
  end.

Definition clause_ok (t : Template) (st : Statement) : Prop := matches σ t st = true /\ is_none st = false.

Lemma match_dict_arg f a v :
  form_ok f a v -> match_arg σ (targ f) (default (Lit v) a) = true /\ arg_value (default (Lit v) a) v.
Proof. apply form_arg. Qed.

Lemma str_arg s : match_arg σ (L (value_of_str s)) (Lit (value_of_str s)) = true.
Proof. simpl. by apply bool_decide_eq_true. Qed.

Hypothesis Hheader : σ "state_header" = header.

(** Before the instruction is applied, its target can still advance. *)
Definition room (stamps : gmap string nat) (i : Inst) : Prop :=
  match i with
  | IUpdate obj _ _ _ _ _ => forall t last, stamps !! obj = Some t -> max_ts m obj = Ok last -> (S t <= last)%nat
  | _ => True
  end.

Lemma update_aligned stamps cur obj key value op_arg d d' o o' v k :
  tracks stamps cur -> room stamps (IUpdate obj key value op_arg d d') ->
  coherent_inst stamps k (IUpdate obj key value op_arg d d') ->
  fmt_name m stamps obj = Ok o -> fmt_name m (next_stamp obj stamps) obj = Ok o' -> fmt_arg m cs stamps value = Ok v ->
  exists sts, body_inst m r cs cur (IUpdate obj key value op_arg d d') None = Ok sts
    /\ Forall2 clause_ok [T (TNative DictUpdate) [targ o; L (value_of_str key); v; targ o']] sts.
Proof.
  intros Htr Hroom (Hne & snap & old & new & t & x & -> & -> & -> & Ht & Hcap & Hold & Hnew & Hupd) Ho Ho' Hv.
  destruct (fmt_arg_anchored _ _ _ _ _ _ Htr Hcap Hv) as (a & Ha & Hma & Hva).
  destruct (tracked_form _ _ _ _ Htr Hne Ho) as (t' & last & e & Ht' & Hl & Hle & _ & He & Hform & _).
  rewrite Ht in Ht'. injection Ht' as <-. specialize (Hroom t last Ht Hl). simpl in Hroom.
  assert (He' : exists e', anchor_at m r obj (S (default 0%nat (cur !! obj))) = Ok e' /\ form_ok o' e' (Val obj (S t))).
  { unfold fmt_name, next_stamp in Ho'. rewrite lookup_alter, decide_True, Ht in Ho' by done. simpl in Ho'.
    destruct (fmt_var_form obj (S t) last o' Hne Hl Hroom Ho') as (e' & He' & Hf' & Hopen & _).
    destruct (Htr obj t Hne Ht) as [_ [Hc|[Hc Hno]]]; rewrite Hc; simpl; [by exists e'|].
    exists None. split; [apply open_anchor; by eapply no_entries_open|].
    rewrite <-(Hopen (no_entries_open _ _ _ Hno Hl)). done. }
  destruct He' as (e' & He' & Hform'). simpl. rewrite Ha. simpl. unfold anchor_or_literal. rewrite He', He. simpl.
  fold (commitment_of old) (commitment_of new). rewrite Hold, Hnew.
  destruct (match_dict_arg _ _ _ Hform) as [Hm1 Hv1]. destruct (match_dict_arg _ _ _ Hform') as [Hm2 Hv2].
  destruct (native_matches DictUpdate [targ o; L (value_of_str key); v; targ o']
    [default (Lit (Val obj t)) e; Lit (value_of_str key); a; default (Lit (Val obj (S t))) e']
    [Val obj t; value_of_str key; x; Val obj (S t)]) as [Hop Hmt].
  - simpl. rewrite Hm1, Hma, Hm2. by rewrite bool_decide_eq_true_2.
  - repeat constructor; done.
  - done.
  - rewrite Hop. simpl. eexists. split; [done|]. constructor; [by split|constructor].
Qed.

Lemma set_aligned stamps cur obj kvs op_args d o ts k :
  tracks stamps cur -> coherent_inst stamps k (ISet obj kvs op_args d) -> fmt_name m stamps obj = Ok o ->
  try_map (fun '(key, value) => let? v := fmt_arg m cs stamps value in
    Ok (T (TNative DictContains) [targ o; L (value_of_str key); v])) kvs = Ok ts ->
  exists sts, body_inst m r cs cur (ISet obj kvs op_args d) None = Ok sts /\ Forall2 clause_ok ts sts.
Proof.
  intros Htr (Hne & snaps & fd & t & vs & -> & -> & Ht & Hcap & Hfd & Hin) Ho Hts.
  destruct (tracked_form _ _ _ _ Htr Hne Ho) as (t' & last & e & Ht' & Hl & Hle & _ & He & Hform & Hopen & _).
  rewrite Ht in Ht'. injection Ht' as <-. simpl. unfold anchor_or_literal. rewrite He. simpl.
  fold (commitment_of fd).
  assert (Hdict : default (Lit (commitment_of fd)) e = default (Lit (Val obj t)) e).
  { destruct e as [e|]; [done|]. simpl. f_equal. apply Hfd. destruct o as [w|]; [|by destruct Hform].
    unfold fmt_name in Ho. rewrite Ht in Ho. simpl in Ho.
    destruct (fmt_var_form obj t last _ Hne Hl Hle Ho) as (_ & _ & _ & _ & Hw). by destruct (Hw w eq_refl). }
  rewrite Hdict. destruct (match_dict_arg _ _ _ Hform) as [Hm1 Hv1]. clear Hdict Hfd He Ho.
  remember (snd <$> kvs) as rs eqn:Ers. remember (fst <$> kvs) as ks eqn:Eks.
  revert kvs ks Ers Eks ts Hts Hin. induction Hcap as [|arg snap v rs snaps vs Hc _ IH]; intros [|[key val] kvs] ks Ers Eks ts Hts Hin;
    try done; csimpl in *; simplify_eq.
  - exists []. split; [done|constructor].
  - inv_ok. apply Forall2_cons in Hin as [Hk Hin].
    match goal with Hf : fmt_arg _ _ _ _ = Ok _ |- _ =>
      destruct (fmt_arg_anchored _ _ _ _ _ _ Htr Hc Hf) as (a' & Ha & Hma & Hva) end.
    match goal with Hb : try_map _ kvs = Ok _ |- _ => destruct (IH kvs _ eq_refl eq_refl _ Hb Hin) as (sts & Hsts & Hall) end.
    rewrite Ha. simpl.
    match goal with Hma : match_arg σ ?tv a' = true |- _ =>
      destruct (native_matches DictContains [targ o; L (value_of_str key); tv]
        [default (Lit (Val obj t)) e; Lit (value_of_str key); a'] [Val obj t; value_of_str key; v]) as [Hop Hmt];
        [simpl; rewrite Hm1, Hma; by rewrite bool_decide_eq_true_2|repeat constructor; done|done|] end.
    rewrite Hop. simpl. rewrite Hsts. simpl. eexists. split; [done|]. constructor; [by split|done].
Qed.

Lemma chain_args_form stamps k c c' :
  stamps !! "chain" = Some k -> (S k <= chain_max_ts m)%nat -> chain_args m stamps = Ok (c, c') ->
  exists a a', chain_step_anchor m r k = Ok a /\ chain_step_anchor m r (S k) = Ok a'
    /\ arg_form c a (Val "chain" k) /\ arg_form c' a' (Val "chain" (S k)).
Proof.
  intros Hk Hle Hc. unfold chain_args, fmt_name, next_stamp in Hc. rewrite lookup_alter, decide_True, Hk in Hc by done. simpl in Hc. inv_ok.
  assert (Hle' : (k <= chain_max_ts m)%nat) by lia.
  destruct (fmt_chain_form k _ Hle' Ha) as (e & He & Hf). destruct (fmt_chain_form (S k) _ Hle Ha0) as (e' & He' & Hf').
  exists e, e'. split_and!; try done; by apply form_arg.
Qed.

Lemma subaction_aligned stamps cur k action obj st_sub sub_out call c c' :
  stamps !! "chain" = Some k -> (S k <= chain_max_ts m)%nat ->
  coherent_inst stamps k (ISubAction action obj st_sub sub_out) ->
  Some (σ (sub_io_var call)) = sub_io (ISubAction action obj st_sub sub_out) -> chain_args m stamps = Ok (c, c') ->
  exists sts, body_inst m r cs cur (ISubAction action obj st_sub sub_out) (Some (S k)) = Ok sts
    /\ Forall2 clause_ok [T (TCustom action) [W (sub_io_var call); W "state_header"; c; c']] sts.
Proof.
  intros Hk Hle (io & ->) Hio Hc. simpl in Hio. injection Hio as Hio.
  destruct (chain_args_form _ _ _ _ Hk Hle Hc) as (a & a' & Ha & Ha' & Hf & Hf').
  simpl. rewrite Nat.sub_0_r, Ha, Ha'. simpl.
  destruct (replaced_matches (Custom (predicate_hash action)) (TCustom action)
    [W (sub_io_var call); W "state_header"; c; c'] [None; None; a; a'] [io; header; Val "chain" k; Val "chain" (S k)])
    as (st & Hst & Hm & Hn); try done.
  - repeat constructor; simpl; try done; try (by apply bool_decide_eq_true); try apply Hf; apply Hf'.
  - change (Lit <$> [io; header; Val "chain" k; Val "chain" (S k)]) with [Lit io; Lit header; Lit (Val "chain" k); Lit (Val "chain" (S k))] in Hst.
    rewrite Hst. simpl. eexists. split; [done|]. constructor; [by split|constructor].
Qed.

(** One instruction: the clauses it renders to and the statements it is
    executed to fit. *)
Lemma inst_aligned stamps cur k i calls ts s' ts_pos :
  tracks stamps cur -> room stamps i -> stamps !! "chain" = Some k ->
  (is_sub i = true -> (S k <= chain_max_ts m)%nat /\ ts_pos = Some (S k)
     /\ exists call, head calls = Some call /\ Some (σ (sub_io_var call)) = sub_io i) ->
  coherent_inst stamps k i -> fmt_inst m cs i (stamps, calls) = Ok (ts, s') ->
  s' = (stamps_after stamps i, if is_sub i then tail calls else calls)
  /\ exists sts, body_inst m r cs cur i ts_pos = Ok sts /\ Forall2 clause_ok ts sts.
Proof.
  intros Htr Hroom Hk Hsub Hco Hf. destruct i as [io obj class orig|obj key value oa d d'|obj kvs oa d|pred rs oa|pred rs st oa|action obj st so]; simpl in Hf.
  - injection Hf as <- <-. split; [done|]. exists []. split; [done|constructor].
  - inv_ok. split; [done|]. by eapply update_aligned.
  - inv_ok. split; [done|]. by eapply set_aligned.
  - inv_ok. split; [done|]. destruct Hco as (snaps & vs & -> & Hcap & Hv).
    match goal with Hm : try_map _ rs = Ok _ |- _ =>
      destruct (fmt_args_form _ _ _ _ _ _ Htr Hcap Hm) as (es & _ & _ & l & Hl & Hml & Hvl) end.
    destruct (native_matches pred _ _ _ Hml Hvl Hv) as [Hop Hmt]. simpl. rewrite Hl. simpl. rewrite Hop. simpl.
    eexists. split; [done|]. constructor; [by split|constructor].
  - inv_ok. split; [done|]. destruct Hco as (snaps & vs & -> & Hcap & ->).
    match goal with Hm : try_map _ rs = Ok _ |- _ =>
      destruct (fmt_args_form _ _ _ _ _ _ Htr Hcap Hm) as (es & Hes & Hforms & _) end.
    destruct (replaced_matches (Custom (predicate_hash (intro_name pred))) (TCustom (intro_name pred)) _ _ _ eq_refl ltac:(done) Hforms)
      as (st' & Hst' & Hm & Hn).
    simpl. rewrite Hes. simpl. rewrite Hst'. simpl. eexists. split; [done|]. constructor; [by split|constructor].
  - destruct calls as [|call calls]; [done|]. inv_ok. destruct a as [c c']. inv_ok. split; [done|].
    destruct (Hsub eq_refl) as (Hle & -> & call' & [= <-] & Hio). by eapply subaction_aligned.
Qed.

(** How often the rest of the body updates a variable. *)
Definition updates (n : string) (l : list Inst) : nat :=
  length (filter (fun i => match i with IUpdate obj _ _ _ _ _ => bool_decide (obj = n) | _ => false end = true) l).

Lemma updates_cons n i l :
  updates n (i :: l) = ((match i with IUpdate obj _ _ _ _ _ => if bool_decide (obj = n) then 1 else 0 | _ => 0 end) + updates n l)%nat.
Proof.
  unfold updates. rewrite filter_cons. destruct i; simpl; try done. by case_bool_decide.
Qed.

Definition bounded (stamps : gmap string nat) (l : list Inst) : Prop :=
  forall n t last, n <> "chain" -> stamps !! n = Some t -> max_ts m n = Ok last -> (t + updates n l <= last)%nat.

Lemma tracks_after stamps cur i l :
  bounded stamps (i :: l) -> (forall obj key v a d d', i = IUpdate obj key v a d d' -> obj <> "chain") ->
  tracks stamps cur -> tracks (stamps_after stamps i) (advance cur i).
Proof.
  intros Hb Hobj Htr n t Hn. destruct i as [| obj key value oa d d'| | | |]; simpl; try (by apply Htr).
  - specialize (Hobj _ _ _ _ _ _ eq_refl). unfold next_stamp. rewrite !lookup_alter.
    destruct (decide (obj = n)) as [->|Hne]; [|by apply Htr].
    destruct (stamps !! n) as [t0|] eqn:E; [|done]. simpl. intros [= <-].
    destruct (Htr n t0 Hn E) as [(last & Hl & Hle) Hc]. split.
    + exists last. split; [done|]. specialize (Hb n t0 last Hn E Hl). rewrite updates_cons in Hb.
      rewrite bool_decide_eq_true_2 in Hb by done. lia.
    + destruct Hc as [->|[-> Hno]]; [by left|by right].
  - unfold next_stamp. rewrite lookup_alter_ne by done. by apply Htr.
Qed.

Lemma bounded_after stamps i l : bounded stamps (i :: l) -> bounded (stamps_after stamps i) l.
Proof.
  intros Hb n t last Hn Ht Hl. destruct i as [| obj key value oa d d'| | | |]; simpl in Ht;
    try (specialize (Hb n t last Hn Ht Hl); by rewrite updates_cons in Hb).
  - unfold next_stamp in Ht. rewrite lookup_alter in Ht. destruct (decide (obj = n)) as [->|Hne].
    + destruct (stamps !! n) as [t0|] eqn:E; [|done]. simpl in Ht. injection Ht as <-.
      specialize (Hb n t0 last Hn E Hl). rewrite updates_cons, bool_decide_eq_true_2 in Hb by done. lia.
    + specialize (Hb n t last Hn Ht Hl). rewrite updates_cons, bool_decide_eq_false_2 in Hb by done. lia.
  - unfold next_stamp in Ht. rewrite lookup_alter_ne in Ht by done.
    specialize (Hb n t last Hn Ht Hl). by rewrite updates_cons in Hb.
Qed.

(** The whole body. *)
Lemma body_aligned l stamps cur k obj_ts calls ts stamps' :
  tracks stamps cur -> bounded stamps l -> stamps !! "chain" = Some k -> (k + num_subs l <= chain_max_ts m)%nat ->
  Forall2 (fun call v => σ (sub_io_var call) = v) calls (omap sub_io l) -> coherent stamps k l ->
  fmt_insts m cs l (stamps, calls) = Ok (ts, stamps') ->
  stamps' = foldl stamps_after stamps l
  /\ exists sts, body_insts m r cs cur (zip l (chain_positions k obj_ts l)) = Ok sts /\ Forall2 clause_ok ts sts.
Proof.
  revert stamps cur k obj_ts calls ts. induction l as [|i l IH]; intros stamps cur k obj_ts calls ts Htr Hb Hk Hle Hcalls Hco Hf.
  { injection Hf as <- <-. split; [done|]. exists []. split; [done|constructor]. }
  simpl in Hf. inv_ok. destruct a as [t1 s1]. inv_ok. destruct a as [t2 st2]. inv_ok. destruct Hco as [Hci Hco].
  set (pos := if is_sub i then Some (S k) else match i with IObject _ _ _ _ => Some (S obj_ts) | _ => None end).
  assert (Hnum : num_subs (i :: l) = ((if is_sub i then 1 else 0) + num_subs l)%nat).
  { unfold num_subs. rewrite filter_cons. by destruct (is_sub i). }
  assert (Hobj : forall obj key v a d d', i = IUpdate obj key v a d d' -> obj <> "chain") by (intros * ->; apply Hci).
  destruct (inst_aligned stamps cur k i calls t1 s1 pos) as (-> & sts1 & Hs1 & Hall1); try done.
  { destruct i as [| obj key value oa d d'| | | |]; try done. intros t last Ht Hl. specialize (Hb obj t last (Hobj _ _ _ _ _ _ eq_refl) Ht Hl).
    rewrite updates_cons, bool_decide_eq_true_2 in Hb by done. lia. }
  { intros Hs. unfold pos. rewrite Hs. rewrite Hs in Hnum. split; [lia|]. split; [done|]. destruct i; try done.
    destruct Hci as [io ->]. simpl in Hcalls. apply Forall2_cons_inv_r in Hcalls as (call & calls' & Hcall & _ & ->). exists call. split; [done|]. simpl. by rewrite Hcall. }
  edestruct (IH (stamps_after stamps i) (advance cur i) (if is_sub i then S k else k)
    (match i with IObject _ _ _ _ => S obj_ts | _ => obj_ts end)) as (-> & sts2 & Hs2 & Hall2); try done.
  - by eapply tracks_after.
  - by eapply bounded_after.
  - destruct i as [| obj key value oa d d'| | | |]; simpl; try done; unfold next_stamp; rewrite lookup_alter.
    + rewrite decide_False; [done|]. by eapply Hobj.
    + rewrite decide_True by done. by rewrite Hk.
  - destruct (is_sub i); lia.
  - destruct i; try done. destruct Hci as [io ->]. simpl in *.
    by apply Forall2_cons_inv_r in Hcalls as (call & calls' & _ & Hcalls & ->).
  - split; [done|]. exists (app sts1 sts2). split; [|by apply Forall2_app].
    assert (Hpos : chain_positions k obj_ts (i :: l)
      = pos :: chain_positions (if is_sub i then S k else k) (match i with IObject _ _ _ _ => S obj_ts | _ => obj_ts end) l)
      by (by destruct i).
    rewrite Hpos. simpl. rewrite Hs1, Hs2. done.
Qed.

(** ** Pins *)

Lemma pin_aligned e record schema field w arr d ts :
  fst <$> list_find (fun f => f = field) schema = fst <$> e -> σ record = array_commitment arr ->
  (forall i x, e = Some (i, x) -> arr !! i = Some (dict_commitment d) /\ σ w = dict_commitment d) ->
  pin e record schema field w = Ok ts ->
  exists sts, pin_st e (Some arr) d = Ok sts /\ Forall2 clause_ok ts sts.
Proof.
  intros Hpos Hσ He. destruct e as [[i x]|]; simpl; [|intros [= <-]; exists []; split; [done|constructor]].
  destruct (needs_wildcard x); [|intros [= <-]; exists []; split; [done|constructor]].
  intros Hp. inv_ok. match goal with Hf : record_field _ _ _ = Ok _ |- _ => apply record_field_Ok in Hf as (j & Hj & ->) end.
  rewrite Hpos in Hj. injection Hj as <-. inv_ok. destruct (He i x eq_refl) as [Harr Hw].
  destruct (native_matches ArrayContains [W record; L (slot_value i); W w]
    [Lit (array_commitment arr); Lit (slot_value i); Lit (dict_commitment d)]
    [array_commitment arr; slot_value i; dict_commitment d]) as [Hop Hm].
  - simpl. by rewrite !bool_decide_eq_true_2.
  - by repeat constructor.
  - apply contains_array. eauto.
  - unfold array_contains. rewrite Hop. simpl. eexists. split; [done|]. constructor; [by split|constructor].
Qed.

(** ** Objects *)

(** An object after the script: its declared form and the forms the records
    and the transaction take. [last] is its last timestamp and [now] the one
    the script left it at. *)
Definition coherent_obj (stamped : gmap string Dictionary) (stamps : gmap string nat) (o : ActionObjectRef) (ov : ObjView) : Prop :=
  let v := o_varname o in
  ov_io ov = o_io o /\ ov_var ov = v /\ ov_class ov = o_class o /\ v <> "chain"
  /\ exists last, max_ts m v = Ok last
  /\ match o_io o with
     | Input =>
         last = 0%nat /\ stamps !! v = Some 0%nat /\ dict_commitment (ov_dict ov) = Val v 0
         /\ is_Some (in_entry m v) /\ out_entry m v = None /\ initials_entry m v = None
     | Mutate =>
         (0 < last)%nat /\ stamps !! v = Some last
         /\ (exists d, ov_original ov = Some d /\ dict_commitment d = Val v 0)
         /\ dict_commitment (ov_dict ov) = Val v last
         /\ is_Some (in_entry m v) /\ is_Some (out_entry m v) /\ initials_entry m v = None
     | Output =>
         (0 < last)%nat /\ stamps !! v = Some (initials_ts last)
         /\ dict_commitment (ov_dict ov) = Val v (initials_ts last)
         /\ (exists d, stamped !! v = Some d /\ dict_commitment d = Val v last)
         /\ in_entry m v = None /\ is_Some (out_entry m v) /\ is_Some (initials_entry m v)
     end.

Lemma object_pins_aligned stamped stamps o ov ts :
  coherent_obj stamped stamps o ov -> fmt_pins m o = Ok ts ->
  exists sts, object_pins m r stamped ov = Ok sts /\ Forall2 clause_ok ts sts.
Proof.
  intros (Hio & Hv & _ & Hne & last & Hl & Hco) Hp. unfold fmt_pins in Hp. rewrite Hl in Hp. simpl in Hp. inv_ok.
  assert (Hin : forall d ts, pin (in_entry m (o_varname o)) "io" (io_schema m) ("in_" +:+ o_varname o) (fmt_var_at (o_varname o) 0 last) = Ok ts ->
      (is_Some (in_entry m (o_varname o)) -> dict_commitment d = Val (o_varname o) 0) ->
      exists sts, pin_st (in_entry m (o_varname o)) (Some (r_io r)) d = Ok sts /\ Forall2 clause_ok ts sts).
  { intros d ts Hp Hd. eapply pin_aligned; [apply io_in_position|apply (as_io Has)| |exact Hp].
    intros i x Hi. rewrite Hd by eauto. split; [by eapply (rec_in Hrec)|]. apply (as_var Has); [done|lia]. }
  assert (Hout : forall d ts, pin (out_entry m (o_varname o)) "io" (io_schema m) ("out_" +:+ o_varname o) (fmt_var_at (o_varname o) last last) = Ok ts ->
      (is_Some (out_entry m (o_varname o)) -> dict_commitment d = Val (o_varname o) last) ->
      exists sts, pin_st (out_entry m (o_varname o)) (Some (r_io r)) d = Ok sts /\ Forall2 clause_ok ts sts).
  { intros d ts Hp Hd. eapply pin_aligned; [apply io_out_position|apply (as_io Has)| |exact Hp].
    intros i x Hi. rewrite Hd by eauto. split; [by eapply (rec_out Hrec)|]. apply (as_var Has); [done|lia]. }
  assert (Hini : forall d ts, pin (initials_entry m (o_varname o)) "initials" (initials_schema m) (o_varname o) (fmt_var_at (o_varname o) (initials_ts last) last) = Ok ts ->
      (is_Some (initials_entry m (o_varname o)) -> dict_commitment d = Val (o_varname o) (initials_ts last)) ->
      exists sts, pin_st (initials_entry m (o_varname o)) (r_initials r) d = Ok sts /\ Forall2 clause_ok ts sts).
  { intros d ts Hp Hd. destruct (initials_entry m (o_varname o)) as [[i x]|] eqn:E.
    - destruct (rec_initials Hrec _ _ _ _ E Hl) as (arr & Harr & Hval). rewrite Harr.
      eapply pin_aligned; [rewrite <-E; apply initials_position|by apply (as_initials Has)| |exact Hp].
      intros i' x' [= <- <-]. rewrite Hd by eauto. split; [done|]. apply (as_var Has); [done|]. unfold initials_ts. lia.
    - simpl in Hp. injection Hp as <-. exists []. split; [done|constructor]. }
  assert (Hfin : exists pre post, post_dict stamped ov = Ok post /\ pre_dict stamped ov = Ok pre
      /\ (is_Some (in_entry m (o_varname o)) -> dict_commitment pre = Val (o_varname o) 0)
      /\ (is_Some (out_entry m (o_varname o)) -> dict_commitment post = Val (o_varname o) last)
      /\ (is_Some (initials_entry m (o_varname o)) -> dict_commitment (ov_dict ov) = Val (o_varname o) (initials_ts last))).
  { unfold pre_dict, post_dict, pre_mutation. rewrite Hio, Hv. destruct (o_io o).
    - destruct Hco as (-> & _ & Hd & _ & Hno & Hns). exists (ov_dict ov), (ov_dict ov). simpl.
      rewrite Hno, Hns. split_and!; try done; by intros [].
    - destruct Hco as (_ & _ & (d & -> & Hd) & Hd' & _ & _ & Hns). exists d, (ov_dict ov). simpl. rewrite Hns.
      split_and!; try done; by intros [].
    - destruct Hco as (_ & _ & Hd & (d & -> & Hd') & Hni & _). exists d, d. simpl. rewrite Hni.
      split_and!; try done; by intros []. }
  destruct Hfin as (pre & post & Hpost & Hpre & Hc1 & Hc2 & Hc3).
  destruct (Hin pre _ Ha Hc1) as (s1 & Hs1 & Hall1). destruct (Hout post _ Ha0 Hc2) as (s2 & Hs2 & Hall2).
  destruct (Hini (ov_dict ov) _ Ha1 Hc3) as (s3 & Hs3 & Hall3).
  unfold object_pins. rewrite Hpost, Hpre, Hv. simpl.
  rewrite Hs1, Hs2, Hs3. simpl. eexists. split; [done|]. by repeat apply Forall2_app.
Qed.

(** ** Events *)

(** The anchors of an event are those of its object's forms. *)
Lemma old_anchor n last :
  max_ts m n = Ok last -> (0 < last)%nat \/ out_entry m n = None -> initials_entry m n = None ->
  opt_anchor r (open_entry (in_entry m n)) = anchor_at m r n 0.
Proof.
  intros Hl Hlast Hini. unfold anchor_at, collapsed_at. rewrite Hl, Hini. cbn [rbind]. rewrite andb_false_r, bool_decide_eq_true_2 by done.
  assert (Hout : bool_decide (0%nat = last) && collapses (out_entry m n) = false).
  { destruct Hlast as [Hlast|Hlast]; [rewrite bool_decide_eq_false_2 by lia; done|]. rewrite Hlast. apply andb_false_r. }
  rewrite Hout. destruct (in_entry m n) as [[i x]|]; simpl; [|done]. by destruct (needs_wildcard x).
Qed.

Lemma new_anchor n last :
  max_ts m n = Ok last -> (0 < last)%nat -> opt_anchor r (open_entry (out_entry m n)) = anchor_at m r n last.
Proof.
  intros Hl Hlast. unfold anchor_at, collapsed_at. rewrite Hl. cbn [rbind].
  rewrite (bool_decide_eq_false_2 (last = 0%nat)) by lia. rewrite (bool_decide_eq_true_2 (last = last)) by done.
  rewrite (bool_decide_eq_false_2 (last = initials_ts last)) by (unfold initials_ts; lia). simpl.
  destruct (out_entry m n) as [[i x]|]; simpl; [|done]. by destruct (needs_wildcard x).
Qed.

Lemma initial_anchor n last :
  max_ts m n = Ok last -> (0 < last)%nat -> in_entry m n = None ->
  initials_anchor m r n = anchor_at m r n (initials_ts last).
Proof.
  intros Hl Hlast Hin. unfold anchor_at, collapsed_at. rewrite Hl, Hin. cbn [rbind]. rewrite andb_false_r.
  rewrite (bool_decide_eq_false_2 (initials_ts last = last)) by (unfold initials_ts; lia).
  rewrite bool_decide_eq_true_2 by done. simpl. unfold initials_anchor.
  destruct (initials_entry m n) as [[i x]|] eqn:E; simpl; [|done].
  destruct (rec_initials Hrec _ _ _ _ E Hl) as (arr & -> & Hv).
  destruct (needs_wildcard x); simpl; [done|]. by destruct (slot_arg_ok _ _ _ Hv) as [-> _].
Qed.

(** The statement that the transaction records for an object, between the
    chain's states [k] and [S k]. *)
Definition event_values (o : ActionObjectRef) (last k : nat) : list Value :=
  let v := o_varname o in
  let guard := predicate_hash (class_predicate_name (o_class o)) in
  app [Val "chain" k; Val "chain" (S k)]
    match o_io o with
    | Input => [Val v 0; guard]
    | Mutate => [Val v 0; Val v last; guard]
    | Output => [Val v (initials_ts last); Val v last; guard]
    end.

Definition event_predicate (io : ObjectIO) : string :=
  match io with Input => "TxDelete" | Mutate => "TxMutate" | Output => "TxInsert" end.

Definition coherent_event (k : nat) (o : ActionObjectRef) (ov : ObjView) (e : ObjEvent) : Prop :=
  ev_obj e = ov /\ ev_ts e = S k
  /\ exists last, max_ts m (o_varname o) = Ok last
    /\ ev_st e = St (Custom (predicate_hash (event_predicate (o_io o)))) (Lit <$> event_values o last k).

Lemma guard_arg h : arg_form (L h) None h.
Proof. split; simpl; [by apply bool_decide_eq_true|done]. Qed.

Lemma event_fits name ts es vs l :
  Forall3 arg_form ts es vs -> l = Lit <$> vs ->
  exists st, runwrap (replaced es (St (Custom (predicate_hash name)) l)) = Ok st /\ clause_ok (T (TCustom name) ts) st.
Proof.
  intros Hf ->. destruct (replaced_matches (Custom (predicate_hash name)) (TCustom name) ts es vs) as (st & -> & Hm & Hn); try done.
  exists st. split; [done|by split].
Qed.

Lemma event_aligned stamped stamps k o ov e t :
  coherent_obj stamped stamps o ov -> stamps !! "chain" = Some k -> (S k <= chain_max_ts m)%nat ->
  coherent_event k o ov e -> fmt_event m stamps o = Ok t ->
  exists st, event_st m r e = Ok st /\ clause_ok t st.
Proof.
  intros (Hio & Hv & _ & Hne & last & Hl & Hco) Hk Hle (Hev & Hts & last' & Hl' & Hst) Hf.
  rewrite Hl in Hl'. injection Hl' as <-. unfold fmt_event in Hf. inv_ok. destruct a as [c c']. inv_ok.
  destruct (chain_args_form _ _ _ _ Hk Hle Ha) as (ea & ea' & Hea & Hea' & Hfa & Hfa').
  unfold event_st, event_replacements. rewrite Hev, Hio, Hv, Hts, Hst. simpl (S k - 1)%nat. rewrite Nat.sub_0_r, Hea, Hea'.
  unfold fmt_name in Ha0. unfold event_values. destruct (o_io o); cbn [consumes produces].
  - destruct Hco as (-> & Hnow & _ & _ & Hno & Hns). rewrite Hnow in Ha0. simpl in Ha0. inv_ok.
    destruct (fmt_var_form _ 0 0 _ Hne Hl ltac:(lia) Ha0) as (eo & Heo & Hform & _).
    rewrite (old_anchor _ 0) by auto. rewrite Heo. simpl.
    eapply event_fits; [repeat (constructor; [first [exact Hfa|exact Hfa'|by apply form_arg|apply guard_arg]|]); constructor|done].
  - destruct Hco as (Hlast & Hnow & _ & _ & _ & _ & Hns). rewrite Hnow in Ha0. simpl in Ha0. inv_ok.
    destruct (fmt_var_form _ 0 last _ Hne Hl ltac:(lia) Ha1) as (eo & Heo & Hform & _).
    destruct (fmt_var_form _ last last _ Hne Hl ltac:(lia) Ha0) as (en & Hen & Hform' & _).
    rewrite (old_anchor _ last) by auto. rewrite (new_anchor _ last) by auto. rewrite Heo, Hen. simpl.
    eapply event_fits; [repeat (constructor; [first [exact Hfa|exact Hfa'|by apply form_arg|apply guard_arg]|]); constructor|done].
  - destruct Hco as (Hlast & Hnow & _ & _ & Hni & _ & _). rewrite Hnow in Ha0. simpl in Ha0. inv_ok.
    unfold fmt_name, next_stamp in Ha1. rewrite lookup_alter, decide_True, Hnow in Ha1 by done. simpl in Ha1.
    assert (Hs : S (initials_ts last) = last) by (unfold initials_ts; lia). rewrite Hs in Ha1.
    destruct (fmt_var_form _ (initials_ts last) last _ Hne Hl ltac:(lia) Ha0) as (eo & Heo & Hform & _).
    destruct (fmt_var_form _ last last _ Hne Hl ltac:(lia) Ha1) as (en & Hen & Hform' & _).
    rewrite (new_anchor _ last) by auto. rewrite (initial_anchor _ last) by auto. rewrite Heo, Hen. simpl.
    eapply event_fits; [repeat (constructor; [first [exact Hfa|exact Hfa'|by apply form_arg|apply guard_arg]|]); constructor|done].
Qed.

(** Objects and events in step. *)
Fixpoint coherent_events (k : nat) (objs : list ActionObjectRef) (os : list ObjView) (evs : list ObjEvent) : Prop :=
  match objs, os, evs with
  | [], [], [] => True
  | o :: objs', ov :: os', e :: evs' => coherent_event k o ov e /\ coherent_events (S k) objs' os' evs'
  | _, _, _ => False
  end.

Lemma chain_keeps_obj stamped stamps o ov : coherent_obj stamped stamps o ov -> coherent_obj stamped (next_stamp "chain" stamps) o ov.
Proof.
  intros (Hio & Hv & Hc & Hne & last & Hl & Hco). repeat split; try done. exists last. split; [done|].
  unfold next_stamp. rewrite lookup_alter_ne by done. exact Hco.
Qed.

Lemma events_aligned stamped stamps k objs os evs ts :
  Forall2 (coherent_obj stamped stamps) objs os -> stamps !! "chain" = Some k -> (k + length objs <= chain_max_ts m)%nat ->
  coherent_events k objs os evs -> fmt_events m stamps objs = Ok ts ->
  exists sts, try_map (event_st m r) evs = Ok sts /\ Forall2 clause_ok ts sts.
Proof.
  intros Ho. revert stamps k os evs ts Ho. induction objs as [|o objs IH]; intros stamps k os evs ts Ho Hk Hle Hev Hf;
    apply Forall2_cons_inv_l in Ho || apply Forall2_nil_inv_l in Ho.
  - subst os. destruct evs; [|done]. injection Hf as <-. exists []. split; [done|constructor].
  - destruct Ho as (ov & os' & Hov & Hos & ->). destruct evs as [|e evs]; [done|]. destruct Hev as [He Hev].
    simpl in Hf, Hle. inv_ok. destruct (event_aligned _ _ _ _ _ _ _ Hov Hk ltac:(lia) He Ha) as (st & Hst & Hcl).
    destruct (IH (next_stamp "chain" stamps) (S k) os' evs a0) as (sts & Hsts & Hall); try done; [| |lia|].
    + eapply Forall2_impl; [exact Hos|]. intros. by apply chain_keeps_obj.
    + unfold next_stamp. by rewrite lookup_alter, decide_True, Hk.
    + simpl. rewrite Hst, Hsts. eexists. split; [done|]. by constructor.
Qed.

(** ** Aliases of sub-actions *)

Context (metas : list ActionMeta) (c : ActionContext).
Hypothesis Hcs : cells c = cs.

Abbreviation referenced := (body_referenced_vars (cells c) (insts c)).

(** What a sub-action left to the parent is its first out entry, and an alias
    that the body uses had that value when it was bound. *)
Definition coherent_sub (i : Inst) : Prop :=
  match i with
  | ISubAction action obj _ sub_out =>
      exists name j sub, cell_name cs obj = Some name /\ list_find (fun m => m_name m = action) metas = Some (j, sub)
      /\ match head (out_entries sub) with
         | None => sub_out = None
         | Some e =>
             exists io idx d, sub_out = Some (io, idx, d) /\ sub_io i = Some io
             /\ fst <$> out_entry sub (e_varname e) = Some idx
             /\ (name ∈ referenced -> contains io (slot_value idx) (Val name 0) /\ commitment_of d = Val name 0)
         end
  | _ => True
  end.

(** The call that is rendered for a sub-action. *)
Definition call_shape (i : Inst) (call : SubActionCall) : Prop :=
  match i with
  | ISubAction action obj _ _ =>
      sub_name call = action
      /\ exists name j sub, cell_name cs obj = Some name /\ list_find (fun m => m_name m = action) metas = Some (j, sub)
      /\ alias call = (if bool_decide (name = "?") then None else Some name)
      /\ first_out_entry call = e_varname <$> head (out_entries sub)
  | _ => False
  end.

Lemma collect_calls_shape calls :
  collect_sub_action_calls metas c = Ok calls -> Forall2 call_shape (filter (fun i => is_sub i = true) (insts c)) calls.
Proof.
  unfold collect_sub_action_calls, rmap. intros Hc. inv_ok.
  match goal with Hf : try_fold _ _ _ = Ok _ |- _ => revert Hf end.
  apply (try_fold_inv _ (fun pre s => Forall2 call_shape (filter (fun i => is_sub i = true) pre) (snd s))); [constructor|].
  intros pre i [seen0 calls0] [seen1 calls1] Hpre Hi. rewrite filter_app. simpl in *. destruct i as [| | | | |action obj st so]; simpl in Hi; inv_ok;
    csimpl; rewrite ?app_nil_r; try done.
  apply expect_Ok in Ha, Ha0. destruct a1 as [j sub]. inv_ok. rewrite filter_cons, filter_nil, decide_True by done.
  apply Forall2_app; [done|]. constructor; [|constructor]. simpl. split; [done|].
  rewrite <-Hcs. eauto 10.
Qed.

Lemma alias_aligned i call ts :
  is_sub i = true -> coherent_sub i -> call_shape i call -> Some (σ (sub_io_var call)) = sub_io i ->
  fmt_alias_pin metas m c call = Ok ts ->
  exists sts, alias_pin c i = Ok sts /\ Forall2 clause_ok ts sts.
Proof.
  destruct i as [| | | | |action obj st so]; try done. intros _ (name & j & sub & Hn & Hj & Hso) (Hname & name' & j' & sub' & Hn' & Hj' & Hal & Hfst) Hσ Hf.
  rewrite Hn in Hn'. injection Hn' as <-. rewrite Hj in Hj'. injection Hj' as <- <-.
  unfold fmt_alias_pin in Hf. rewrite Hal, Hfst, Hname in Hf. unfold alias_pin. rewrite Hcs, Hn. rewrite Hcs in Hf.
  destruct (head (out_entries sub)) as [e|] eqn:He.
  2: { subst so. simpl in Hf. assert (ts = []) as -> by (destruct (bool_decide (name = "?")); simplify_eq; done).
       exists []. split; [done|constructor]. }
  destruct Hso as (io & idx & d & -> & Hio & Hidx & Hval). simpl in Hf. rewrite Hio in Hσ. injection Hσ as Hσ. simpl.
  case_bool_decide as Hq; simpl; [injection Hf as <-; exists []; split; [done|constructor]|]. rewrite Hcs in Hval.
  case_bool_decide as Href; simpl; [|injection Hf as <-; exists []; split; [done|constructor]].
  rewrite Hj in Hf. simpl in Hf. inv_ok. destruct (Hval Href) as [Hcon Hd]. rewrite Hd.
  apply record_field_Ok in Ha as (i & Hi & ->). pose proof (io_out_position sub (e_varname e)) as Hpos. simpl in Hpos.
  rewrite Hpos, Hidx in Hi. injection Hi as <-. inv_ok.
  destruct (native_matches ArrayContains [W (sub_io_var call); L (slot_value idx); W (fmt_var_at name 0 a0)]
    [Lit (σ (sub_io_var call)); Lit (slot_value idx); Lit (Val name 0)] [σ (sub_io_var call); slot_value idx; Val name 0])
    as [Hop Hm].
  - simpl. rewrite (as_var Has) by (done || lia). by rewrite !bool_decide_eq_true_2.
  - by repeat constructor.
  - done.
  - rewrite Hop. simpl. eexists. split; [done|]. constructor; [by split|constructor].
Qed.

Lemma aliases_aligned l calls tss :
  Forall coherent_sub l -> Forall2 call_shape (filter (fun i => is_sub i = true) l) calls ->
  Forall2 (fun i call => Some (σ (sub_io_var call)) = sub_io i) (filter (fun i => is_sub i = true) l) calls ->
  try_map (fmt_alias_pin metas m c) calls = Ok tss ->
  exists stss, try_map (alias_pin c) l = Ok stss /\ Forall2 clause_ok (concat tss) (concat stss).
Proof.
  revert calls tss. induction l as [|i l IH]; intros calls tss Hco Hsh Hσ Hf.
  { apply Forall2_nil_inv_l in Hsh as ->. injection Hf as <-. exists []. split; [done|constructor]. }
  apply Forall_cons in Hco as [Hi Hco]. rewrite filter_cons in Hsh, Hσ. destruct (decide (is_sub i = true)) as [Hs|Hs].
  - apply Forall2_cons_inv_l in Hsh as (call & calls' & Hcall & Hsh & ->). apply Forall2_cons in Hσ as [Hc Hσ].
    simpl in Hf. inv_ok. destruct (alias_aligned _ _ _ Hs Hi Hcall Hc Ha) as (sts & Hsts & Hall).
    destruct (IH _ _ Hco Hsh Hσ Ha0) as (stss & Hstss & Halls). simpl. rewrite Hsts, Hstss. eexists. split; [done|].
    simpl. by apply Forall2_app.
  - destruct (IH _ _ Hco Hsh Hσ Hf) as (stss & Hstss & Halls). exists ([] :: stss). split; [|done]. simpl.
    rewrite Hstss. by destruct i.
Qed.

(** ** The whole action *)

Context (stamped : gmap string Dictionary) (os : list ObjView) (evs : list ObjEvent).

Abbreviation start := (list_to_map ((fun v => (v, 0%nat)) <$> vars c) : gmap string nat).

Lemma pins_aligned stamps objs os' tss :
  Forall2 (coherent_obj stamped stamps) objs os' -> try_map (fmt_pins m) objs = Ok tss ->
  exists stss, try_map (object_pins m r stamped) os' = Ok stss /\ Forall2 clause_ok (concat tss) (concat stss).
Proof.
  intros Ho. revert tss. induction Ho as [|o ov objs os' Hov _ IH]; intros tss Hf; simpl in Hf.
  - injection Hf as <-. exists []. split; [done|constructor].
  - inv_ok. destruct (object_pins_aligned _ _ _ _ _ Hov Ha) as (sts & Hsts & Hall).
    destruct (IH _ Ha0) as (stss & Hstss & Halls). simpl. rewrite Hsts, Hstss. eexists. split; [done|].
    simpl. by apply Forall2_app.
Qed.

(** The chain advances once per sub-action. *)
Lemma stamps_chain l stamps k :
  coherent stamps k l -> stamps !! "chain" = Some k -> foldl stamps_after stamps l !! "chain" = Some (k + num_subs l)%nat.
Proof.
  revert stamps k. induction l as [|i l IH]; intros stamps k; simpl; [intros _ ->; by rewrite Nat.add_0_r|].
  intros [Hi Hl] Hk. rewrite (IH _ _ Hl).
  - f_equal. unfold num_subs. rewrite filter_cons. destruct i; simpl; lia.
  - destruct i as [|obj| | | |]; simpl; try done; unfold next_stamp; rewrite lookup_alter.
    + rewrite decide_False; [done|]. apply Hi.
    + by rewrite decide_True, Hk.
Qed.

Lemma calls_ios l calls :
  Forall2 (fun i call => Some (σ (sub_io_var call)) = sub_io i) (filter (fun i => is_sub i = true) l) calls ->
  Forall2 (fun call v => σ (sub_io_var call) = v) calls (omap sub_io l).
Proof.
  revert calls. induction l as [|i l IH]; intros calls; [by intros ->%Forall2_nil_inv_l|].
  rewrite filter_cons. destruct (decide (is_sub i = true)) as [Hs|Hs].
  - intros (call & calls' & Hcall & Hl & ->)%Forall2_cons_inv_l. csimpl. rewrite <-Hcall. constructor; [done|]. by apply IH.
  - intros Hl. destruct i; try done; csimpl; by apply IH.
Qed.

Lemma action_aligned P privates :
  fmt_action metas c = Ok (P, privates) ->
  (exists j, list_find (fun m => m_name m = a_name c) metas = Some (j, m)) ->
  tracks start (object_stamps m) -> bounded start (insts c) -> "chain" ∈ vars c ->
  (num_subs (insts c) + length (object_refs m) = chain_max_ts m)%nat ->
  coherent start 0 (insts c) -> Forall coherent_sub (insts c) ->
  (forall calls, collect_sub_action_calls metas c = Ok calls ->
     Forall2 (fun i call => Some (σ (sub_io_var call)) = sub_io i) (filter (fun i => is_sub i = true) (insts c)) calls) ->
  Forall2 (coherent_obj stamped (foldl stamps_after start (insts c))) (object_refs m) os ->
  coherent_events (num_subs (insts c)) (object_refs m) os evs ->
  exists sts, action_statements m r stamped c os evs = Ok sts /\ Forall2 clause_ok (p_sts P) sts
    /\ p_name P = a_name c /\ p_args P = action_public /\ p_conn P = AND.
Proof.
  intros Hf [j Hj] Htr Hb Hch Hmax Hco Hsubs Hcalls Hobjs Hevs. unfold fmt_action in Hf. rewrite Hj in Hf. simpl in Hf. inv_ok.
  destruct a3 as [body stamps']. inv_ok. simpl. specialize (Hcalls _ Ha).
  pose proof (collect_calls_shape _ Ha) as Hshape.
  assert (Hstart : start !! "chain" = Some 0%nat).
  { apply elem_of_list_to_map_1'; [|apply list_elem_of_fmap; by exists "chain"].
    intros y Hy. by apply list_elem_of_fmap in Hy as (x & [= _ ->] & _). }
  pose proof (calls_ios _ _ Hcalls) as Hioσ.
  rewrite Hcs in *.
  destruct (body_aligned (insts c) start (object_stamps m) 0 (num_subs (insts c)) a body stamps') as (-> & bsts & Hbsts & Hball); try done; [lia|].
  destruct (pins_aligned _ _ _ _ Hobjs Ha1) as (pstss & Hp & Hpall).
  rewrite <-Hcs in *. destruct (aliases_aligned _ _ _ Hsubs Hshape Hcalls Ha2) as (astss & Hal & Haall).
  pose proof (stamps_chain _ _ _ Hco Hstart) as Hend. simpl in Hend.
  destruct (events_aligned stamped _ _ _ _ _ _ Hobjs Hend ltac:(lia) Hevs Ha4) as (ests & He & Heall).
  unfold action_statements. rewrite Hp, Hal, He. simpl. unfold inst_chain_ts. rewrite Hbsts. simpl. eexists. split; [done|]. split_and!; try done.
  by repeat apply Forall2_app.
Qed.
End Align.
End SdkAlign.
