(* ===== verification/SdkFit.v ===== *)
(** * An execution proves the action's predicate (libs/sdk)

    The values of the wildcards are put together from the records, the
    sub-actions and the variables' values, and pod2's builder accepts the
    statements of an execution for the predicate the action was rendered to. *)

From S2P Require Import Prelude Pod2 Models DonState Podlang TxModel Replay TxBuilder Sdk SdkCalls SdkMeta SdkPodlang SdkExec SdkAlign.

Module SdkFit.
Import Podlang TxModel Sdk SdkMeta SdkPodlang SdkExec SdkAlign.
Local Open Scope string_scope.

(** ** Wildcards *)

(** Every variable at every timestamp. *)
Definition var_forms (m : ActionMeta) : list (string * nat * nat) :=
  map_to_list (var_max_ts m) ≫= fun '(n, last) => (fun t => (n, t, last)) <$> seq 0 (S last).
Definition form_name (f : string * nat * nat) : string := let '(n, t, last) := f in fmt_var_at n t last.

Definition wildcard_names (m : ActionMeta) (calls : list SubActionCall) : list string :=
  app ["io"; "initials"; "chain_steps"] (app (sub_io_var <$> calls) (form_name <$> var_forms m)).

Section Fit.
Context `{SdkEnv : SdkCalls.SdkEnv} `{B : !Natives, NL : !NativeLaws, PH : PredicateHash, Bu : !Builder, BL : !BuilderLaws}.

Section Run.
Context (modules : list Predicate) (metas : list ActionMeta) (m : ActionMeta) (c : ActionContext) (r : Records).
Context (stamped : gmap string Dictionary) (os : list ObjView) (evs : list ObjEvent).
Context (Val : string -> nat -> Value) (header : Value).

Definition wildcard_values (calls : list SubActionCall) : list (string * Value) :=
  app [("io", array_commitment (r_io r));
       ("initials", from_option array_commitment EMPTY_HASH (r_initials r));
       ("chain_steps", from_option array_commitment EMPTY_HASH (r_chain r))]
    (app (zip (sub_io_var <$> calls) (omap sub_io (filter (fun i => is_sub i = true) (insts c))))
      ((fun f => (form_name f, let '(n, t, _) := f in Val n t)) <$> var_forms m)).

Definition assign_wildcards (calls : list SubActionCall) (w : string) : Value :=
  default EMPTY_HASH ((list_to_map (wildcard_values calls) : gmap string Value) !! w).

Abbreviation start := (list_to_map ((fun v => (v, 0%nat)) <$> vars c) : gmap string nat).

(** An execution in which every variable has one value at each timestamp:
    [Val]. This is a condition on the run, not a consequence of executing. Its
    records, events and captured arguments are those values, in the shapes the
    metadata give; the rendered names are distinct; what the script states is
    true; the events are those of the objects, in order; and a mutated object is
    really updated, without which there is no instance
    (see [SdkFindings]). *)
Record coherent_run : Prop := {
  run_meta : exists j, list_find (fun m => m_name m = a_name c) metas = Some (j, m);
  run_names calls : collect_sub_action_calls metas c = Ok calls -> NoDup (wildcard_names m calls);
  run_records : recorded m r Val;
  run_header : max_ts m "state_header" = Ok 0%nat /\ Val "state_header" 0 = header;
  run_vars n : n ∈ vars c -> is_Some (var_max_ts m !! n);
  run_chain_var : "chain" ∈ vars c;
  run_entries n : n ∉ o_varname <$> object_refs m -> no_entries m n;
  run_updates n last : n <> "chain" -> max_ts m n = Ok last -> (updates n (insts c) <= last)%nat;
  run_chain : (num_subs (insts c) + length (object_refs m) = chain_max_ts m)%nat;
  run_body : coherent m (cells c) Val header start 0 (insts c);
  run_subs : Forall (coherent_sub (cells c) Val metas c) (insts c);
  run_objects : Forall2 (coherent_obj m Val stamped (foldl stamps_after start (insts c))) (object_refs m) os;
  run_events : coherent_events m Val (num_subs (insts c)) (object_refs m) os evs;
}.

Hypothesis Hrun : coherent_run.

Lemma max_ts_lookup n last : max_ts m n = Ok last <-> var_max_ts m !! n = Some last.
Proof. apply expect_Ok. Qed.

Lemma var_forms_elem n t last : max_ts m n = Ok last -> (t <= last)%nat -> (n, t, last) ∈ var_forms m.
Proof.
  intros Hl%max_ts_lookup Ht. apply list_elem_of_bind. exists (n, last). split; [|by apply elem_of_map_to_list].
  apply list_elem_of_fmap. exists t. split; [done|]. apply elem_of_seq. lia.
Qed.

Lemma fmap_NoDup_inj {X Y} (f : X -> Y) (l : list X) x y : NoDup (f <$> l) -> x ∈ l -> y ∈ l -> f x = f y -> x = y.
Proof.
  intros Hn [i Hi]%list_elem_of_lookup_1 [j Hj]%list_elem_of_lookup_1 Hf.
  assert (i = j) as ->; [|congruence]. eapply (NoDup_lookup _ _ _ (f x) Hn); rewrite list_lookup_fmap; [by rewrite Hi|].
  by rewrite Hj, Hf.
Qed.

(** Every sub-action has its record. *)
Lemma coherent_ios l stamps k :
  coherent m (cells c) Val header stamps k l ->
  Forall (fun i => is_Some (sub_io i)) (filter (fun i => is_sub i = true) l).
Proof.
  revert stamps k. induction l as [|i l IH]; intros stamps k; [done|]. intros [Hi Hl]. rewrite filter_cons.
  destruct (decide (is_sub i = true)); [|by eapply IH]. constructor; [|by eapply IH].
  destruct i; try done. destruct Hi as [io ->]. simpl. eauto.
Qed.

Lemma zip_calls (f : string -> Value) calls l :
  length (omap sub_io l) = length calls -> Forall (fun i => is_Some (sub_io i)) l ->
  (forall w v, (w, v) ∈ zip (sub_io_var <$> calls) (omap sub_io l) -> f w = v) ->
  Forall2 (fun i call => Some (f (sub_io_var call)) = sub_io i) l calls.
Proof.
  revert l. induction calls as [|call calls IH]; intros [|i l] Hlen Hio Hval; try done.
  - apply Forall_cons in Hio as [[v Hv] Hio]. csimpl in Hlen. by rewrite Hv in Hlen.
  - apply Forall_cons in Hio as [[v Hv] Hio]. csimpl in *. rewrite Hv in *. simpl in *. constructor.
    + rewrite Hv. f_equal. apply Hval. by left.
    + apply IH; [lia|done|]. intros w v' Hin. apply Hval. by right.
Qed.

Section Assignment.
Context (calls : list SubActionCall).
Hypothesis Hcalls : collect_sub_action_calls metas c = Ok calls.
Abbreviation σ := (assign_wildcards calls).

Lemma ios_length : length (omap sub_io (filter (fun i => is_sub i = true) (insts c))) = length calls.
Proof.
  pose proof (collect_calls_shape (cells c) metas c eq_refl calls Hcalls) as Hs. rewrite <-(Forall2_length _ _ _ Hs).
  pose proof (coherent_ios _ _ _ (run_body Hrun)) as Hio. clear Hs. induction Hio as [|i l [v Hv] _ IH]; [done|].
  csimpl. rewrite Hv. simpl. by rewrite IH.
Qed.

Lemma wildcard_keys : (wildcard_values calls).*1 = wildcard_names m calls.
Proof.
  unfold wildcard_values, wildcard_names. rewrite !fmap_app. csimpl. do 3 f_equal. f_equal.
  - apply fst_zip. rewrite length_fmap, ios_length. done.
  - rewrite <-list_fmap_compose. by apply list_fmap_ext.
Qed.

Lemma assigned_value w v : (w, v) ∈ wildcard_values calls -> σ w = v.
Proof.
  intros Hin. unfold assign_wildcards. rewrite (elem_of_list_to_map_1 _ w v); [done| |done].
  rewrite wildcard_keys. by apply (run_names Hrun).
Qed.

Lemma run_assigned : assigned m r Val σ.
Proof.
  assert (Hvar : forall n t last, max_ts m n = Ok last -> (t <= last)%nat -> σ (fmt_var_at n t last) = Val n t).
  { intros n t last Hl Ht. apply assigned_value. unfold wildcard_values. rewrite !elem_of_app. do 2 right.
    apply list_elem_of_fmap. exists (n, t, last). split; [done|]. by apply var_forms_elem. }
  split; [done|apply assigned_value; by left|intros arr Harr; apply assigned_value; unfold wildcard_values; rewrite Harr; set_solver..|].
  intros n t last Hl Ht. destruct (run_header Hrun) as [Hh _]. split.
  - intros Heq. pose proof (run_names Hrun _ Hcalls) as Hn. unfold wildcard_names in Hn.
    apply NoDup_app in Hn as (_ & _ & Hn). apply NoDup_app in Hn as (_ & _ & Hn).
    pose proof (fmap_NoDup_inj _ _ (n, t, last) ("state_header", 0%nat, 0%nat) Hn
      (var_forms_elem _ _ _ Hl Ht) (var_forms_elem _ _ _ Hh (Nat.le_refl 0)) Heq) as [= <- _ _]. done.
  - intros ->. rewrite Hh in Hl. injection Hl as <-. assert (t = 0%nat) as -> by lia. done.
Qed.

Lemma run_subcalls : Forall2 (fun i call => Some (σ (sub_io_var call)) = sub_io i) (filter (fun i => is_sub i = true) (insts c)) calls.
Proof.
  pose proof ios_length as Hlen. pose proof (coherent_ios _ _ _ (run_body Hrun)) as Hio.
  assert (Hval : forall w v, (w, v) ∈ zip (sub_io_var <$> calls) (omap sub_io (filter (fun i => is_sub i = true) (insts c))) -> σ w = v).
  { intros w v Hin. apply assigned_value. unfold wildcard_values. rewrite !elem_of_app. by right; left. }
  by apply zip_calls.
Qed.

Lemma run_tracks : tracks m start (object_stamps m).
Proof.
  intros n t Hn Ht. apply elem_of_list_to_map_2 in Ht. apply list_elem_of_fmap in Ht as (n' & [= <- ->] & Hin).
  destruct (run_vars Hrun _ Hin) as [last Hl%max_ts_lookup]. split; [exists last; split; [done|lia]|].
  destruct (decide (n ∈ o_varname <$> object_refs m)) as [Ho|Ho].
  - left. unfold object_stamps. apply elem_of_list_to_map_1'.
    + intros y Hy. by apply list_elem_of_fmap in Hy as (o & [= _ ->] & _).
    + apply list_elem_of_fmap in Ho as (o & -> & Ho). apply list_elem_of_fmap. eauto.
  - right. split; [|by apply (run_entries Hrun)]. unfold object_stamps. apply not_elem_of_list_to_map_1.
    rewrite <-list_fmap_compose. exact Ho.
Qed.

Lemma run_bounded : bounded m start (insts c).
Proof.
  intros n t last Hn Ht Hl. apply elem_of_list_to_map_2 in Ht. apply list_elem_of_fmap in Ht as (n' & [= <- ->] & Hin).
  by apply (run_updates Hrun).
Qed.
End Assignment.

(** The statements of the execution are an instance of the predicate. *)
Lemma run_instance P privates :
  fmt_action metas c = Ok (P, privates) ->
  exists calls sts, action_statements m r stamped c os evs = Ok sts
    /\ Forall2 (clause_ok (assign_wildcards calls)) (p_sts P) sts
    /\ assigned m r Val (assign_wildcards calls) /\ p_name P = a_name c /\ p_args P = action_public /\ p_conn P = AND.
Proof.
  intros Hf. pose proof Hf as Hf'. unfold fmt_action in Hf'. destruct (run_meta Hrun) as [j Hj]. rewrite Hj in Hf'.
  simpl in Hf'. apply rbind_Ok in Hf' as (calls & Hcalls & _). exists calls.
  pose proof (run_assigned calls Hcalls) as Has.
  assert (Hhead : assign_wildcards calls "state_header" = header).
  { destruct (run_header Hrun) as [Hh <-]. by apply (as_var _ _ _ _ Has "state_header" 0 0). }
  destruct (action_aligned m (cells c) r Val (assign_wildcards calls) Has (run_records Hrun) header Hhead metas c eq_refl
    stamped os evs P privates) as (sts & Hsts & Hall & Hrest); try done.
  - by exists j.
  - apply run_tracks.
  - apply run_bounded.
  - apply (run_chain_var Hrun).
  - apply (run_chain Hrun).
  - apply (run_body Hrun).
  - apply (run_subs Hrun).
  - intros calls' Hc'. rewrite Hcalls in Hc'. injection Hc' as <-. by apply run_subcalls.
  - apply (run_objects Hrun).
  - apply (run_events Hrun).
  - eauto 10.
Qed.
End Run.

Lemma clauses_slots σ P sts :
  Forall2 (clause_ok σ) (p_sts P) sts -> p_conn P = AND ->
  instance P σ sts = true /\ bound P sts = (p_sts P ≫= wildcards).
Proof.
  intros Hall Hand.
  assert (Hslots : slots P sts = zip (p_sts P) sts).
  { unfold slots. induction Hall as [|t st ts sts' [_ Hn] _ IH]; [done|]. simpl. rewrite filter_cons, decide_True by done. by rewrite IH. }
  split.
  - unfold instance, slots_ok. rewrite Hslots, Hand, length_zip, (Forall2_length _ _ _ Hall), Nat.min_id.
    rewrite !bool_decide_eq_true_2 by done. simpl. apply forallb_forall. intros [t st] Hin%list_elem_of_In. simpl.
    clear Hslots Hand. induction Hall as [|t' st' ts sts' [Hm _] _ IH]; [by apply elem_of_nil in Hin|].
    apply elem_of_cons in Hin as [[= -> ->]|Hin]; [done|]. by apply IH.
  - unfold bound. rewrite Hslots. clear Hslots Hand. induction Hall as [|t st ts sts' _ _ IH]; [done|]. csimpl. by rewrite IH.
Qed.

(** C8: Take an execution that is coherent: its variables have one value at
    each timestamp, its records, chain steps and object entries have the shapes
    the metadata give, the statements of the script are true, the rendered names
    are distinct and every mutated object is updated at least once. Let the
    action have a chain step and all its public arguments occur in the predicate
    it was rendered to. Then all statements of the action are built, pod2 accepts
    them clause by clause for that predicate, and what is proved relates the
    action's record, the grounding state and the chain's first and last state, as
    a calling action expects it. *)
Theorem execution_proves_predicate modules metas m c r stamped os evs Val header P privates :
  coherent_run metas m c r stamped os evs Val header ->
  fmt_action metas c = Ok (P, privates) -> find_custom_pred_by_name modules (a_name c) = Some P ->
  (0 < chain_max_ts m)%nat -> (forall w, w ∈ action_public -> w = "state_header" \/ w ∈ (p_sts P ≫= wildcards)) ->
  exists sts, action_statements m r stamped c os evs = Ok sts
    /\ apply_custom_pred modules (a_name c) [("state_header", header)] sts
       = Ok (St (Custom (predicate_hash (a_name c)))
           (Lit <$> [array_commitment (r_io r); header; Val "chain" 0%nat; Val "chain" (chain_max_ts m)])).
Proof.
  intros Hrun Hf HP Hch Hpub. destruct (run_instance _ _ _ _ _ _ _ _ _ Hrun P privates Hf) as (calls & sts & Hsts & Hall & Has & Hname & Hargs & Hand).
  exists sts. split; [done|]. destruct (clauses_slots _ _ _ Hall Hand) as [Hinst Hbound].
  assert (Hhead : assign_wildcards m c r Val calls "state_header" = header).
  { destruct (run_header _ _ _ _ _ _ _ _ _ Hrun) as [Hh <-]. by apply (as_var _ _ _ _ Has "state_header" 0 0). }
  assert (Hwild : "state_header" ∈ pred_wildcards P) by (unfold pred_wildcards; rewrite Hargs; set_solver).
  unfold apply_custom_pred. rewrite HP, filter_cons, filter_nil, decide_True by done.
  rewrite (custom_op_ok _ _ _ _ Hinst).
  - rewrite Hname, Hargs. csimpl. unfold action_public. simpl. rewrite (as_io _ _ _ _ Has), Hhead. do 4 f_equal.
    pose proof (rec_chain_max _ _ _ (run_records _ _ _ _ _ _ _ _ _ Hrun)) as Hmax.
    pose proof (as_var _ _ _ _ Has "chain" 0 _ Hmax (Nat.le_0_l _)) as Hz.
    pose proof (as_var _ _ _ _ Has "chain" _ _ Hmax (Nat.le_refl _)) as Hn.
    unfold fmt_var_at in Hz, Hn. rewrite bool_decide_eq_false_2 in Hz by lia. rewrite bool_decide_eq_true_2 in Hn by done.
    simpl in Hz, Hn. by rewrite <-Hz, <-Hn.
  - intros w v Hin. apply list_elem_of_singleton in Hin as [= -> ->]. done.
  - rewrite Hargs, Hbound. intros w Hw. destruct (Hpub w Hw) as [->|Hw']; [left; by left|by right].
Qed.
End Fit.
End SdkFit.
