(* ===== verification/SdkPhases.v ===== *)
(** * Load and Execute record the same action (libs/sdk/src/lib.rs)

    The predicate of an action is rendered from what its script records at
    Load; an execution runs the script again, with values. This file shows that
    the two runs record the same: the same instructions on the same variables,
    under the same names and timestamps, apart from the captured values. So the
    metadata and the podlang derived from either are the same. *)

From S2P Require Import Prelude Pod2 Models DonState Podlang TxModel Replay TxBuilder Sdk SdkCalls SdkMeta SdkPodlang.

Module SdkPhases.
Import Podlang TxModel Sdk SdkCalls SdkMeta SdkPodlang.
Local Open Scope string_scope.

Section Phases.
Context `{SdkEnv}.

(** ** What a context is without its values *)

Definition erase_cell (x : VarOrValue) : VarOrValue :=
  match x with
  | IsVar v => IsVar (MkVar (v_name v) Unk None (v_key v))
  | IsValue p => IsValue p
  end.

Definition erase_inst (i : Inst) : Inst :=
  match i with
  | IObject io obj class _ => IObject io obj class None
  | IUpdate obj key value _ _ _ => IUpdate obj key value None None None
  | ISet obj kvs _ _ => ISet obj kvs None None
  | IStatement pred rs _ => IStatement pred rs None
  | IIntro pred rs _ _ => IIntro pred rs None None
  | ISubAction action obj _ _ => ISubAction action obj None None
  end.

Definition erase (c : ActionContext) : ActionContext :=
  MkAction (a_name c) (erase_cell <$> cells c) (erase_inst <$> insts c) (vars c) (var_state c) (anon_seq c)
    None (unsafe_block c) [] ∅.

Lemma erase_cell_idemp x : erase_cell (erase_cell x) = erase_cell x.
Proof. by destruct x. Qed.

Abbreviation alike := (fun x x' => erase_cell x = erase_cell x').
Abbreviation any := (fun _ _ => True).

(** ** Two runs in step *)

(** One context at Load, the other at Execute, equal but for the values. *)
Definition related (c c' : ActionContext) : Prop :=
  exe_ctx c = None /\ is_Some (exe_ctx c') /\ erase c = erase c'.

Definition is_var (c : ActionContext) (r : Ref) : Prop := exists v, cells c !! r = Some (IsVar v).

(** [in_step V R f g]: from related contexts in which the cells [V] hold
    variables, when [f] succeeds at Load and [g] at Execute, the contexts are
    related again and the results are related by [R]. *)
Definition in_step {X} (V : list Ref) (R : X -> X -> Prop) (f g : eff ActionContext X) : Prop :=
  forall c c' x x' d d',
    related c c' -> Forall (is_var c') V -> f c = (Ok x, d) -> g c' = (Ok x', d') ->
    R x x' /\ related d d' /\ (forall r, is_var c' r -> is_var d' r).

(** A computation at Execute that changes values only. *)
Definition quiet {X} (V : list Ref) (g : eff ActionContext X) : Prop :=
  forall c x d, is_Some (exe_ctx c) -> Forall (is_var c) V -> g c = (Ok x, d) ->
    is_Some (exe_ctx d) /\ erase d = erase c.

Lemma erase_var c d r : erase_cell <$> cells c = erase_cell <$> cells d -> is_var c r -> is_var d r.
Proof.
  intros He [v Hv]. assert (Hr : (erase_cell <$> cells c) !! r = (erase_cell <$> cells d) !! r) by by rewrite He.
  rewrite !list_lookup_fmap, Hv in Hr. destruct (cells d !! r) as [[v'|]|] eqn:E; try done. by exists v'.
Qed.

Lemma erase_cells c d : erase c = erase d -> erase_cell <$> cells c = erase_cell <$> cells d.
Proof. by intros [=]. Qed.

(** Fields of related contexts. *)
Lemma related_fields c c' :
  related c c' ->
  vars c = vars c' /\ var_state c = var_state c' /\ anon_seq c = anon_seq c' /\ unsafe_block c = unsafe_block c'
  /\ a_name c = a_name c' /\ erase_cell <$> cells c = erase_cell <$> cells c' /\ erase_inst <$> insts c = erase_inst <$> insts c'
  /\ is_exe c = false /\ is_exe c' = true.
Proof.
  intros (Hn & Hs & [= ? ? ? ? ? ? ?]). unfold is_exe. rewrite Hn. split_and!; try done.
  by rewrite bool_decide_eq_true_2.
Qed.

Lemma step_ret {X} V (R : X -> X -> Prop) x x' : R x x' -> in_step V R (eret x) (eret x').
Proof. intros HR c c' y y' d d' Hc HV [= <- <-] [= <- <-]. done. Qed.

Lemma step_bind {X Y} V (R : X -> X -> Prop) (S : Y -> Y -> Prop) f g k k' :
  in_step V R f g -> (forall x x', R x x' -> in_step V S (k x) (k' x')) -> in_step V S (ebind f k) (ebind g k').
Proof.
  intros Hf Hk c c' y y' d d' Hc HV. unfold ebind.
  destruct (f c) as [[x|] e] eqn:Ef; [|done]. destruct (g c') as [[x'|] e'] eqn:Eg; [|done]. intros Hy Hy'.
  destruct (Hf _ _ _ _ _ _ Hc HV Ef Eg) as (HR & Hc' & Hmono).
  destruct (Hk _ _ HR _ _ _ _ _ _ Hc' ltac:(eapply Forall_impl; [exact HV|exact Hmono]) Hy Hy') as (HS & Hd & Hmono').
  split_and!; try done. auto.
Qed.

Lemma step_assoc {X Y Z} V (S : Z -> Z -> Prop) (f g : eff ActionContext X) (k k' : X -> eff ActionContext Y) h h' :
  in_step V S (ebind f (fun x => ebind (k x) h)) (ebind g (fun x => ebind (k' x) h')) ->
  in_step V S (ebind (ebind f k) h) (ebind (ebind g k') h').
Proof.
  intros Hs c c' y y' d d' Hc HV Hy Hy'. apply (Hs c c' y y' d d' Hc HV); unfold ebind in *.
  - by destruct (f c) as [[] ?].
  - by destruct (g c') as [[] ?].
Qed.

Lemma step_lift {X Y} V (S : Y -> Y -> Prop) (r r' : Result X) (k k' : X -> eff ActionContext Y) :
  (forall x x', r = Ok x -> r' = Ok x' -> in_step V S (k x) (k' x')) -> in_step V S (ebind (elift r) k) (ebind (elift r') k').
Proof.
  intros HR c c' y y' d d' Hc HV. unfold ebind, elift. destruct r as [x|]; [|done]. destruct r' as [x'|]; [|done]. by apply HR.
Qed.

Lemma step_throw_l {X} V (R : X -> X -> Prop) e g : in_step V R (ethrow e) g.
Proof. by intros c c' y y' d d' _ _. Qed.

Lemma step_throw_r {X} V (R : X -> X -> Prop) f e : in_step V R f (ethrow e).
Proof. by intros c c' y y' d d' _ _ _. Qed.

Lemma step_get {Y} V (S : Y -> Y -> Prop) (k k' : ActionContext -> eff ActionContext Y) :
  (forall c c', related c c' -> Forall (is_var c') V -> in_step V S (k c) (k' c')) -> in_step V S (ebind eget k) (ebind eget k').
Proof. intros Hk c c' y y' d d' Hc HV. unfold ebind, eget. by apply Hk. Qed.

(** A value only: nothing to do at Load. *)
Lemma step_quiet {X} V (x : X) g : quiet V g -> in_step V any (eret x) g.
Proof.
  intros Hg c c' y y' d d' (Hn & Hs & He) HV [= <- <-] Hy. destruct (Hg _ _ _ Hs HV Hy) as [Hs' He'].
  unfold related. rewrite He'. split_and!; try done. intros r. by apply erase_var, erase_cells.
Qed.

(** Nothing changes at Load. *)
Lemma step_still {X} V (f g : eff ActionContext X) :
  (forall c x d, f c = (Ok x, d) -> d = c) -> quiet V g -> in_step V any f g.
Proof.
  intros Hf Hg c c' y y' d d' Hc HV Hy Hy'. rewrite (Hf _ _ _ Hy). by eapply (step_quiet V y g Hg c c' y y' c d').
Qed.

Lemma step_modify V f :
  (forall c, erase (f c) = f (erase c)) -> (forall c, exe_ctx (f c) = exe_ctx c) -> (forall c, cells (f c) = cells c) ->
  in_step V eq (Sdk.modify f) (Sdk.modify f).
Proof.
  intros Hf Hx Hcs c c' y y' d d' (Hn & Hs & He) HV [= <- <-] [= <- <-]. unfold related, is_var. rewrite !Hx, !Hf, He, Hcs. done.
Qed.

(** Cells. *)
Lemma related_length c c' : related c c' -> length (cells c) = length (cells c').
Proof.
  intros Hc. destruct (related_fields _ _ Hc) as (_ & _ & _ & _ & _ & He & _).
  apply (f_equal length) in He. by rewrite !length_fmap in He.
Qed.

Lemma alike_var x v : erase_cell x = erase_cell (IsVar v) -> exists v', x = IsVar v' /\ v_name v' = v_name v /\ v_key v' = v_key v.
Proof. destruct x as [v'|]; simpl; [|done]. intros [= ? ?]. eauto. Qed.

Lemma erase_add_cell c x : erase (set_cells (app (cells c) [x]) c) = set_cells (app (cells (erase c)) [erase_cell x]) (erase c).
Proof. destruct c. unfold erase. simpl. by rewrite fmap_app. Qed.

Lemma erase_set_cell c r x : erase (set_cells (<[r := x]> (cells c)) c) = set_cells (<[r := erase_cell x]> (cells (erase c))) (erase c).
Proof. destruct c. unfold erase. simpl. by rewrite list_fmap_insert. Qed.

Lemma exe_set_cells l c : exe_ctx (set_cells l c) = exe_ctx c.
Proof. by destruct c. Qed.
Lemma cells_set_cells l c : cells (set_cells l c) = l.
Proof. by destruct c. Qed.

Lemma step_alloc {Y} V (S : Y -> Y -> Prop) x x' (k k' : Ref -> eff ActionContext Y) :
  erase_cell x = erase_cell x' ->
  (forall r, in_step (match x' with IsVar _ => r :: V | IsValue _ => V end) S (k r) (k' r)) ->
  in_step V S (ebind (alloc x) k) (ebind (alloc x') k').
Proof.
  intros Hx Hk c c' y y' d d' Hc HV. unfold ebind, alloc. rewrite (related_length _ _ Hc). intros Hy Hy'.
  assert (Hc' : related (set_cells (app (cells c) [x]) c) (set_cells (app (cells c') [x']) c')).
  { destruct Hc as (Hn & Hs & He). unfold related. rewrite !exe_set_cells, !erase_add_cell, He, Hx. done. }
  assert (Hmono : forall r, is_var c' r -> is_var (set_cells (app (cells c') [x']) c') r).
  { intros r [v Hv]. exists v. rewrite cells_set_cells. by apply lookup_app_l_Some. }
  assert (HV' : Forall (is_var (set_cells (app (cells c') [x']) c'))
    (match x' with IsVar _ => length (cells c') :: V | IsValue _ => V end)).
  { assert (HV' : Forall (is_var (set_cells (app (cells c') [x']) c')) V) by (eapply Forall_impl; [exact HV|exact Hmono]).
    destruct x' as [v'|]; [|exact HV']. constructor; [|exact HV']. exists v'. rewrite cells_set_cells.
    rewrite lookup_app_r, Nat.sub_diag by lia. done. }
  destruct (Hk _ _ _ _ _ _ _ Hc' HV' Hy Hy') as (HS & Hd & Hmono'). split_and!; try done. auto.
Qed.

Lemma step_borrow {Y} V (S : Y -> Y -> Prop) r (k k' : VarOrValue -> eff ActionContext Y) :
  (forall x x', erase_cell x = erase_cell x' ->
     in_step (match x' with IsVar _ => r :: V | IsValue _ => V end) S (k x) (k' x')) ->
  in_step V S (ebind (borrow r) k) (ebind (borrow r) k').
Proof.
  intros Hk c c' y y' d d' Hc HV. unfold ebind, borrow, eread.
  destruct (cells c !! r) as [x|] eqn:Ex; [|done]. destruct (cells c' !! r) as [x'|] eqn:Ex'; [|done]. simpl.
  destruct (related_fields _ _ Hc) as (_ & _ & _ & _ & _ & He & _).
  assert (Hr : (erase_cell <$> cells c) !! r = (erase_cell <$> cells c') !! r) by by rewrite He.
  rewrite !list_lookup_fmap, Ex, Ex' in Hr. injection Hr as Hr. apply (Hk x x' Hr); [done|].
  destruct x' as [v'|]; [|done]. constructor; [by exists v'|done].
Qed.

Lemma step_write V r x x' : erase_cell x = erase_cell x' -> (exists v, x' = IsVar v) ->
  in_step V eq (write r x) (write r x').
Proof.
  intros Hx [v ->] c c' y y' d d' (Hn & Hs & He) HV [= <- <-] [= <- <-]. unfold related.
  rewrite !exe_set_cells, !erase_set_cell, He, Hx. split_and!; try done. intros r' [v' Hv']. unfold is_var. rewrite cells_set_cells.
  destruct (decide (r = r')) as [->|Hne].
  - exists v. apply list_lookup_insert_eq. by eapply lookup_lt_Some.
  - exists v'. by rewrite list_lookup_insert_ne.
Qed.

(** ** Quiet computations *)

Lemma quiet_ret {X} V (x : X) : quiet V (eret x).
Proof. by intros c y d Hs _ [= <- <-]. Qed.

Lemma quiet_lift {X} V (r : Result X) : quiet V (elift r).
Proof. by intros c y d Hs _ [= -> <-]. Qed.

Lemma quiet_throw {X} V e : quiet V (@ethrow ActionContext X e).
Proof. by intros c y d Hs _. Qed.

Lemma quiet_borrow V r : quiet V (borrow r).
Proof. by intros c y d Hs _ [= _ <-]. Qed.

Lemma quiet_get V : quiet V eget.
Proof. by intros c y d Hs _ [= _ <-]. Qed.

Lemma quiet_bind {X Y} V (f : eff ActionContext X) (k : X -> eff ActionContext Y) :
  quiet V f -> (forall x, quiet V (k x)) -> quiet V (ebind f k).
Proof.
  intros Hf Hk c y d Hs HV. unfold ebind. destruct (f c) as [[x|] e] eqn:E; [|done]. intros Hy.
  destruct (Hf _ _ _ Hs HV E) as [Hs' He]. destruct (Hk x _ _ _ Hs' ltac:(eapply Forall_impl; [exact HV|];
    intros r; apply erase_var, erase_cells; by rewrite He) Hy) as [Hs'' He']. split; [done|]. by rewrite He'.
Qed.

Lemma quiet_fold {X Y} V (f : Y -> X -> eff ActionContext Y) y l : (forall y x, quiet V (f y x)) -> quiet V (efold f y l).
Proof.
  intros Hf. revert y. induction l as [|x l IH]; intros y; simpl; [apply quiet_ret|]. by apply quiet_bind.
Qed.

Lemma quiet_on_exe {X} V (f : eff ExeContext X) : quiet V (on_exe f).
Proof.
  intros c y d Hs _. unfold on_exe. destruct (exe_ctx c) as [x|] eqn:E; [|done]. destruct (f x) as [r x'].
  intros [= -> <-]. destruct c. simpl. split; [eauto|done].
Qed.

(** A function that leaves the name and the key of a variable. *)
Definition keeps_shape (f : VarOrValue -> Result VarOrValue) : Prop :=
  forall v x, f (IsVar v) = Ok x -> erase_cell x = erase_cell (IsVar v).

Lemma quiet_update V r f : r ∈ V -> keeps_shape f -> quiet V (update_cell r f).
Proof.
  intros Hr Hf c y d Hs HV. rewrite Forall_forall in HV. destruct (HV r Hr) as [v Hv].
  unfold update_cell, ebind, borrow, eread. rewrite Hv. simpl. destruct (f (IsVar v)) as [x|] eqn:E; [|done]. simpl.
  intros [= <- <-]. rewrite exe_set_cells, erase_set_cell, (Hf _ _ E). split; [done|].
  rewrite list_insert_id; [by destruct c|]. unfold erase. simpl. by rewrite list_lookup_fmap, Hv.
Qed.

Lemma keeps_set_value v : keeps_shape (fun x => Ok (set_value v x)).
Proof. by intros w x [= <-]. Qed.

Lemma keeps_mut_dict f : keeps_shape (fun x => runwrap (mut_dict f x)).
Proof.
  intros v x. unfold mut_dict. simpl. destruct (v_key v) as [key|] eqn:Ek; simpl; [done|].
  destruct (v_value v) as [p|] eqn:Ev; simpl; [|done].
  destruct (expect (as_dictionary p) "is dict") as [d|[]]; simpl; try done. destruct (f d) as [d'|[]]; simpl; try done.
  intros [= <-]. done.
Qed.

Lemma quiet_put V r v : r ∈ V -> quiet V (put_value r v).
Proof. intros Hr. apply quiet_update; [done|apply keeps_set_value]. Qed.

(** ** Variables *)

Lemma step_add_var V n : in_step V eq (add_var n) (add_var n).
Proof.
  apply step_get. intros c c' Hc _. destruct (related_fields _ _ Hc) as (_ & -> & _). case_match; [apply step_throw_l|].
  eapply step_bind; [apply step_modify; by intros []|]. intros _ _ _. apply step_modify; by intros [].
Qed.

Lemma step_assert_unsafe V b : in_step V eq (assert_unsafe b) (assert_unsafe b).
Proof.
  apply step_get. intros c c' Hc _. destruct (related_fields _ _ Hc) as (_ & _ & _ & -> & _).
  case_bool_decide; [by apply step_ret|]. case_match; apply step_throw_l.
Qed.

Lemma step_inc V n : in_step V eq (inc_t_var n) (inc_t_var n).
Proof.
  apply step_get. intros c c' Hc _. destruct (related_fields _ _ Hc) as (_ & -> & _). apply step_lift. intros _ _ _ _.
  apply step_modify; by intros [].
Qed.

Lemma step_push V i i' : erase_inst i = erase_inst i' -> in_step V eq (push_inst i) (push_inst i').
Proof.
  intros Hi c c' y y' d d' (Hn & Hs & He) HV [= <- <-] [= <- <-]. destruct c, c'. unfold related, is_var, erase in *. simpl in *.
  rewrite !fmap_app. simpl. rewrite Hi. split_and!; try done. injection He. intros. congruence.
Qed.

Lemma step_rename V old new : in_step V eq (rename_var old new) (rename_var old new).
Proof.
  unfold rename_var. case_bool_decide; [by apply step_ret|]. apply step_get. intros c c' Hc _.
  destruct (related_fields _ _ Hc) as (-> & -> & _). case_match; [apply step_throw_l|].
  apply step_lift. intros s s' Hs Hs'. rewrite Hs in Hs'. injection Hs' as <-.
  eapply step_bind; [apply step_modify; by intros []|]. intros _ _ _.
  apply step_lift. intros [j n] [j' n'] Hj Hj'. rewrite Hj in Hj'. injection Hj' as <- <-.
  eapply step_bind; [apply step_modify; by intros []|]. intros _ _ _.
  apply step_modify; [|by intros []..]. intros []. unfold erase. simpl. f_equal. rewrite <-!list_fmap_compose.
  apply list_fmap_ext. intros _ [] _; simpl; done.
Qed.

Lemma step_witness {Y} V (S : Y -> Y -> Prop) tag typ typ' (k k' : Ref -> eff ActionContext Y) :
  (forall r, in_step (r :: V) S (k r) (k' r)) -> in_step V S (ebind (new_witness tag typ) k) (ebind (new_witness tag typ') k').
Proof.
  intros Hk. unfold new_witness. apply step_assoc, step_get. intros c c' Hc _.
  destruct (related_fields _ _ Hc) as (_ & -> & -> & -> & _).
  apply step_assoc, step_lift. intros _ _ _ _. apply step_assoc, step_lift. intros [n q] [n' q'] Hn Hn'.
  rewrite Hn in Hn'. injection Hn' as <- <-. apply step_assoc.
  eapply step_bind; [apply step_modify; by intros []|]. intros _ _ _. apply step_assoc.
  eapply step_bind; [apply step_add_var|]. intros _ _ _. apply step_assoc.
  eapply step_bind; [apply step_modify; by intros []|]. intros _ _ _. by apply step_alloc.
Qed.

(** ** Arguments *)

Lemma erased_lookup (cs : list VarOrValue) (r : Ref) : (erase_cell <$> cs) !! r = erase_cell <$> cs !! r.
Proof. apply list_lookup_fmap. Qed.

Fixpoint literal_erased (cs : list VarOrValue) (d : Dyn) {struct d} :
  literal_from_dynamic cs d = literal_from_dynamic (erase_cell <$> cs) d.
Proof.
  destruct d as [|v|t|z|b|l|l|r|]; try reflexivity.
  - cbn [literal_from_dynamic]. f_equal. induction l as [|d l IH]; [done|]. by rewrite (literal_erased cs d), IH.
  - cbn [literal_from_dynamic]. f_equal. induction l as [|[k d] l IH]; [done|]. by rewrite (literal_erased cs d), IH.
  - cbn [literal_from_dynamic]. rewrite erased_lookup. by destruct (cs !! r) as [[]|].
Qed.

Lemma literal_related c c' d : related c c' -> literal_from_dynamic (cells c) d = literal_from_dynamic (cells c') d.
Proof.
  intros Hc. destruct (related_fields _ _ Hc) as (_ & _ & _ & _ & _ & He & _).
  by rewrite (literal_erased (cells c)), He, <-literal_erased.
Qed.

Lemma step_try_ref V d : in_step V eq (try_ref_from_dynamic d) (try_ref_from_dynamic d).
Proof.
  assert (Hlit : in_step V eq (let! c := eget in let! v := elift (literal_from_dynamic (cells c) d) in alloc (IsValue v))
    (let! c := eget in let! v := elift (literal_from_dynamic (cells c) d) in alloc (IsValue v))).
  { apply step_get. intros c c' Hc _. rewrite (literal_related c c' d Hc). apply step_lift. intros v v' Hv Hv'.
    rewrite Hv in Hv'. injection Hv' as <-. intros e e' y y' f f' He HV Hy Hy'.
    apply (step_alloc V eq (IsValue v) (IsValue v) eret eret eq_refl (fun r => step_ret V eq r r eq_refl) e e' y y' f f' He HV);
      unfold ebind; [by rewrite Hy|by rewrite Hy']. }
  destruct d; try exact Hlit. by apply step_ret.
Qed.

Lemma step_validate V d typ : in_step V eq (validate_arg d typ) (validate_arg d typ).
Proof.
  eapply step_bind; [apply step_try_ref|]. intros r _ <-. apply step_borrow. intros x x' Hx.
  apply step_lift. intros _ _ _ _. by apply step_ret.
Qed.

Lemma step_validates V l : in_step V eq (validate_args l) (validate_args l).
Proof.
  induction l as [|[d typ] l IH]; [by apply step_ret|]. simpl. eapply step_bind; [apply step_validate|]. intros r _ <-.
  eapply step_bind; [exact IH|]. intros rs _ <-. by apply step_ret.
Qed.

Lemma step_fold {X Y} V (f : Y -> X -> eff ActionContext Y) y l :
  (forall y x, in_step V eq (f y x) (f y x)) -> in_step V eq (efold f y l) (efold f y l).
Proof.
  intros Hf. revert y. induction l as [|x l IH]; intros y; [by apply step_ret|]. simpl.
  eapply step_bind; [apply Hf|]. by intros y' _ <-.
Qed.

Lemma step_kvs V d : in_step V eq (dynamic_to_kvs d) (dynamic_to_kvs d).
Proof.
  destruct d; try apply step_throw_l. simpl. apply step_lift. intros ps ps' Hp Hp'. rewrite Hp in Hp'. injection Hp' as <-.
  apply step_fold. intros kvs kv. destruct kv as [|[] [|v [|]]]; try apply step_throw_l.
  eapply step_bind; [apply step_try_ref|]. intros r _ <-. by apply step_ret.
Qed.

Lemma step_capture V rs : in_step V any (capture_op_args rs) (capture_op_args rs).
Proof.
  apply step_get. intros c c' Hc _. destruct (related_fields _ _ Hc) as (_ & _ & _ & _ & _ & _ & _ & -> & ->).
  apply step_quiet, quiet_bind; [apply quiet_lift|]. intros l. apply quiet_ret.
Qed.

Lemma step_capture_one V r : in_step V any (capture_op_arg r) (capture_op_arg r).
Proof.
  apply step_get. intros c c' Hc _. destruct (related_fields _ _ Hc) as (_ & _ & _ & _ & _ & _ & _ & -> & ->).
  apply step_quiet, quiet_bind; [apply quiet_borrow|]. intros x. apply quiet_bind; [apply quiet_lift|]. intros a. apply quiet_ret.
Qed.

(** Quietness of the values' computations, piece by piece. *)
Ltac quieten :=
  repeat first
    [ apply quiet_ret | apply quiet_lift | apply quiet_throw | apply quiet_borrow | apply quiet_get | apply quiet_on_exe
    | apply quiet_put; set_solver | apply quiet_update; [set_solver|apply keeps_mut_dict] | apply quiet_fold; intros | apply quiet_bind; [|intros]
    | progress case_match ].

Definition phases (c c' : ActionContext) (Hc : related c c') : is_exe c = false /\ is_exe c' = true :=
  let H := related_fields c c' Hc in
  conj (proj1 (proj2 (proj2 (proj2 (proj2 (proj2 (proj2 (proj2 H)))))))) (proj2 (proj2 (proj2 (proj2 (proj2 (proj2 (proj2 (proj2 H)))))))).

(** A step that only Execute takes. *)
Lemma step_exe {X} V (x : X) (f g : eff ActionContext X) c c' :
  related c c' -> quiet V g -> in_step V any (if is_exe c then f else eret x) (if is_exe c' then g else eret x).
Proof. intros Hc Hg. destruct (phases c c' Hc) as [-> ->]. by apply step_quiet. Qed.

Lemma step_if_exe V f g : quiet V g -> in_step V eq (if_exe f) (if_exe g).
Proof.
  intros Hg. apply step_get. intros c c' Hc _. destruct (phases c c' Hc) as [-> ->].
  intros e e' y y' d d' He HV Hy Hy'. destruct (step_quiet V tt g Hg e e' y y' d d' He HV Hy Hy') as (_ & Hr). by destruct y, y'.
Qed.

(** ** The host calls *)

(** At Load the hashes of the classes are not known yet and no sub-action runs. *)
Context (load_hashes class_hashes : gmap string Hash).
Context (load_sub run_sub : string -> eff ExeContext (Statement * option (VarOrValue * (Value * nat * PDict)))).

Lemma step_then {X Y} V (S : Y -> Y -> Prop) (f g : eff ActionContext X) (k k' : eff ActionContext Y) :
  in_step V any f g -> in_step V S k k' -> in_step V S (f ;! k) (g ;! k').
Proof. intros Hf Hk. eapply step_bind; [exact Hf|]. by intros. Qed.

Lemma step_weaken {X} V (R : X -> X -> Prop) f g : in_step V R f g -> in_step V any f g.
Proof. intros Hf c c' y y' d d' Hc HV Hy Hy'. by destruct (Hf c c' y y' d d' Hc HV Hy Hy') as (_ & Hr). Qed.

Lemma step_obj_io V io class : in_step V any (obj_io load_hashes io class) (obj_io class_hashes io class).
Proof.
  unfold obj_io. apply step_lift. intros _ _ _ _. apply step_alloc; [done|]. intros arg. simpl.
  apply step_then; [apply (step_weaken _ eq), step_assert_unsafe|]. apply step_get. intros c c' Hc _.
  eapply step_bind; [apply step_exe; [done|]; destruct io; quieten|]. intros o o' _.
  apply step_then; [apply (step_weaken _ eq); by apply step_push|]. apply step_then; [apply (step_weaken _ eq), step_inc|].
  by apply step_ret.
Qed.

Lemma keeps_adopt x : keeps_shape (adopt x).
Proof. intros v y. destruct x; simpl; [|done]. by intros [= <-]. Qed.

Lemma step_subaction V action : in_step V any (subaction load_sub action) (subaction run_sub action).
Proof.
  unfold subaction. apply step_then; [apply (step_weaken _ eq), step_assert_unsafe|].
  apply step_alloc; [done|]. intros arg. simpl. apply step_get. intros c c' Hc _. destruct (phases _ _ Hc) as [-> ->].
  eapply (step_bind _ any); [|intros [st so] [st' so'] _].
  - apply step_quiet. apply quiet_bind; [apply quiet_on_exe|]. intros [st [[x placed]|]]; [|apply quiet_ret].
    apply quiet_bind; [apply quiet_update; [set_solver|apply keeps_adopt]|]. intros _. apply quiet_ret.
  - apply step_then; [apply (step_weaken _ eq); by apply step_push|].
    apply step_then; [apply (step_weaken _ eq), step_inc|]. by apply step_ret.
Qed.

Lemma step_native_st V pred rs : in_step V any (native_st pred rs) (native_st pred rs).
Proof.
  unfold native_st. apply step_then; [apply (step_weaken _ eq), step_assert_unsafe|].
  eapply step_bind; [apply step_capture|]. intros o o' _. apply (step_weaken _ eq). by apply step_push.
Qed.

Lemma step_st_call V name ds : in_step V any (st_call name ds) (st_call name ds).
Proof.
  unfold st_call. case_match; [|apply step_throw_l]. case_match. case_bool_decide; [|apply step_throw_l].
  eapply step_bind; [apply step_validates|]. intros rs _ <-. apply step_then; [apply step_native_st|]. by apply step_ret.
Qed.

Lemma step_container_get V lookup container key : in_step V any (container_get lookup container key) (container_get lookup container key).
Proof.
  unfold container_get. eapply step_bind; [apply step_validate|]. intros rc _ <-. apply step_borrow. intros x x' Hx.
  apply step_lift. intros _ _ _ _. eapply step_bind; [apply step_validate|]. intros rk _ <-.
  apply step_then; [apply (step_weaken _ eq), step_assert_unsafe|]. apply step_witness. intros e.
  apply step_get. intros c c' Hc _. destruct (phases _ _ Hc) as [-> ->]. apply step_borrow. intros cx cx' Hcx. apply step_borrow. intros kx kx' Hkx.
  apply step_then.
  - apply step_still.
    + intros d y f. destruct cx as [|cv]; [by intros [= _ <-]|]. destruct kx as [|kv]; [by intros [= _ <-]|]. unfold ebind, elift.
      destruct (container_lookup cv kv); [by intros [= _ <-]|done].
    + do 3 (apply quiet_bind; [apply quiet_lift|intros]). apply quiet_put. destruct kx', cx'; set_solver.
  - eapply step_bind; [apply step_capture|]. intros o o' _. apply step_then; [apply (step_weaken _ eq); by apply step_push|]. by apply step_ret.
Qed.

(** The steps every call is made of. *)
Ltac walk :=
  repeat first
    [ by apply step_ret | apply step_throw_l | apply step_throw_r
    | apply step_then; [apply (step_weaken _ eq), step_assert_unsafe|]
    | apply step_then; [apply (step_weaken _ eq), step_inc|]
    | apply step_then; [apply (step_weaken _ eq); by apply step_push|]
    | eapply step_bind; [apply step_validate|let r := fresh "ref" in intros r _ <-]
    | eapply step_bind; [apply step_try_ref|let r := fresh "ref" in intros r _ <-]
    | eapply step_bind; [apply step_capture|let o := fresh "o" in let o' := fresh "o" in intros o o' _]
    | eapply step_bind; [apply step_capture_one|let o := fresh "o" in let o' := fresh "o" in intros o o' _]
    | let a := fresh "res" in let b := fresh "res" in let e := fresh "Eres" in let e' := fresh "Eres" in
      apply step_lift; intros a b e e' ].

(** A cell known to hold a variable. *)
Lemma step_borrow_var {Y} V (S : Y -> Y -> Prop) r (k k' : VarOrValue -> eff ActionContext Y) :
  r ∈ V ->
  (forall v v', v_name v = v_name v' -> v_key v = v_key v' -> in_step V S (k (IsVar v)) (k' (IsVar v'))) ->
  in_step V S (ebind (borrow r) k) (ebind (borrow r) k').
Proof.
  intros Hr Hk c c' y y' d d' Hc HV Hy Hy'. pose proof HV as HV'. rewrite Forall_forall in HV'. destruct (HV' r Hr) as [v' Hv'].
  destruct (related_fields _ _ Hc) as (_ & _ & _ & _ & _ & He & _).
  assert (Hr' : (erase_cell <$> cells c) !! r = (erase_cell <$> cells c') !! r) by by rewrite He.
  rewrite !list_lookup_fmap, Hv' in Hr'. unfold ebind, borrow, eread in Hy, Hy'. rewrite Hv' in Hy'. simpl in Hr', Hy'.
  destruct (cells c !! r) as [[v|]|]; try done. injection Hr' as Hn Hke. by eapply (Hk v v' Hn Hke c c').
Qed.

Lemma step_intro_vdf V n_iters input : in_step V any (intro_vdf n_iters input) (intro_vdf n_iters input).
Proof.
  unfold intro_vdf. walk. apply step_witness. intros w. apply step_get. intros c c' (Hn & [x Hs] & _) _. rewrite Hn, Hs.
  eapply step_bind; [apply step_quiet; quieten|]. intros ? ? _. walk.
Qed.

Lemma step_intro_lt_eq V lhs rhs : in_step V any (intro_lt_eq_u256 lhs rhs) (intro_lt_eq_u256 lhs rhs).
Proof.
  unfold intro_lt_eq_u256. walk. apply step_get. intros c c' (Hn & [x Hs] & _) _. rewrite Hn, Hs.
  eapply step_bind; [apply step_quiet; quieten|]. intros ? ? _. walk.
Qed.

Lemma step_top_limb V n : in_step V any (top_limb_u256 n) (top_limb_u256 n).
Proof.
  unfold top_limb_u256. walk. apply step_borrow. intros x x' Hx. destruct x as [v|v], x' as [v'|v']; try apply step_throw_l; try done.
  injection Hx as <-. apply step_lift. intros z z' Hz Hz'. rewrite Hz in Hz'. injection Hz' as <-. apply step_alloc; [done|]. intros r. walk.
Qed.

Lemma step_type_check {Y} V (S : Y -> Y -> Prop) r typ (k k' : eff ActionContext Y) :
  in_step V S k k' -> in_step V S (type_check_ref r typ ;! k) (type_check_ref r typ ;! k').
Proof.
  intros Hk. apply step_then; [|exact Hk]. apply step_still.
  - intros c x d. unfold type_check_ref, ebind, borrow, eread, elift. destruct (cells c !! r); [|done]. simpl. by intros [= _ <-].
  - unfold type_check_ref. quieten.
Qed.

Lemma step_set V r kvs : in_step V any (set r kvs) (set r kvs).
Proof.
  unfold set. apply step_type_check. eapply step_bind; [apply step_kvs|]. intros l _ <-. apply step_borrow. intros x x' Hx.
  destruct x as [v|], x' as [v'|]; try done; [|by apply step_ret]. injection Hx as Hn Hk. rewrite <-Hn. walk.
  apply step_get. intros c c' Hc _. walk. eapply step_bind; [apply step_exe; [done|]|].
  - unfold set_fields. quieten.
  - intros ? ? _. walk.
Qed.

Lemma step_update V r key value : in_step V any (update r key value) (update r key value).
Proof.
  unfold update. apply step_type_check. apply step_borrow. intros x x' Hx.
  destruct x as [v|], x' as [v'|]; try done; [|by apply step_ret]. injection Hx as Hn Hk. rewrite <-Hn. walk.
  apply step_get. intros c c' Hc _. eapply step_bind; [apply step_exe; [done|]|].
  - quieten.
  - intros [] [] _. walk.
Qed.

Lemma step_commitment V r : in_step V any (commitment r) (commitment r).
Proof.
  unfold commitment. apply step_borrow. intros x x' Hx. destruct x as [v|], x' as [v'|]; try done.
  injection Hx as Hn Hk. apply step_get. intros c c' Hc _. rewrite <-Hk. destruct (v_key v); [apply step_throw_l|].
  case_match; [|apply step_throw_l]. case_match; [|apply step_throw_r]. apply step_alloc; [simpl; by rewrite Hn|].
  intros r'. walk.
Qed.

Lemma step_entry V r index : in_step V any (entry r index) (entry r index).
Proof.
  unfold entry. apply step_borrow. intros x x' Hx. destruct x as [v|v], x' as [v'|v']; try done.
  - injection Hx as Hn Hk. apply step_then.
    + apply step_still; [|quieten]. intros c x d. destruct (v_typ v); unfold elift; by intros [= _ <-].
    + apply step_then; [|apply step_alloc; [simpl; by rewrite Hn|]; intros r'; walk]. apply step_still; [|quieten].
      intros c x d. destruct (v_value v); [|by intros [= _ <-]]. unfold ebind, elift.
      destruct (try_resolve_entry _ _ _); [by intros [= _ <-]|done].
  - injection Hx as <-. apply step_lift. intros p p' Hp Hp'. rewrite Hp in Hp'. injection Hp' as <-. destruct p as [[a b] e].
    apply step_alloc; [done|]. intros r'. walk.
Qed.

Lemma step_arith V op a b : in_step V any (arg_arith op a b) (arg_arith op a b).
Proof.
  unfold arg_arith. do 2 apply step_type_check. walk. apply step_get. intros c c' Hc _. apply step_alloc; [done|]. intros r. simpl.
  apply step_then; [apply step_exe; [done|]; quieten|]. walk.
Qed.

Lemma step_random V : in_step V any random random.
Proof.
  unfold random. walk. apply step_alloc; [done|]. intros r. simpl.
  apply step_then; [apply (step_weaken _ eq), step_if_exe; quieten|]. walk.
Qed.

Lemma step_action_arg V name : in_step V any (action_arg name) (action_arg name).
Proof.
  unfold action_arg. walk. apply step_get. intros c c' Hc _. destruct (phases _ _ Hc) as [-> ->]. simpl.
  apply step_then; [|by apply step_ret]. case_match; [|by apply step_ret].
  intros e e' y y' d d' (Hn & Hs & He) HV [= <- <-] [= <- <-]. destruct e. unfold related. simpl in *. done.
Qed.

Lemma step_grind V fuel obj key target : in_step V any (pow_obj_grind fuel obj key target) (pow_obj_grind fuel obj key target).
Proof.
  unfold pow_obj_grind. walk. apply step_borrow. intros x x' Hx. apply step_then.
  { destruct x as [v|], x' as [v'|]; try done; [|by apply step_ret]. injection Hx as <- _.
    apply (step_weaken _ eq). apply step_modify; intros []; try done. }
  apply step_alloc; [done|]. intros r. simpl. apply step_get. intros c c' (Hn & [e Hs] & _) _. rewrite Hn, Hs.
  apply step_then; [|by apply step_ret]. apply step_quiet. quieten.
Qed.

Lemma step_unsafe_begin V : in_step V any unsafe_begin unsafe_begin.
Proof.
  apply step_get. intros c c' Hc _. destruct (related_fields _ _ Hc) as (_ & _ & _ & -> & _). case_match; [apply step_throw_l|].
  apply step_then; [apply (step_weaken _ eq), step_modify; by intros []|]. walk.
Qed.

Lemma step_unsafe_end V result : in_step V any (unsafe_end result) (unsafe_end result).
Proof.
  unfold unsafe_end. apply step_then; [apply (step_weaken _ eq), step_modify; by intros []|].
  destruct result; try (by apply step_ret); walk; apply step_borrow; intros x x' Hx; apply step_witness; intros w;
    (apply step_then; [apply (step_weaken _ eq), step_if_exe; quieten|]); apply step_borrow_var; try set_solver; intros u u' Hu Huk;
    (destruct x as [v1|], x' as [v1'|]; try done; [|walk]); injection Hx as -> ->; (case_match; [|walk]);
    (apply step_then; [apply (step_weaken _ eq), step_write; [simpl; by rewrite Hu, Huk|eauto]|]); walk.
Qed.

Lemma step_bind_var V name value : in_step V any (bind_var name value) (bind_var name value).
Proof.
  destruct value; try by apply step_ret. simpl. apply step_get. intros c c' Hc _.
  destruct (related_fields _ _ Hc) as (_ & -> & _ & -> & _). case_match; [by apply step_ret|].
  apply step_borrow. intros x x' Hx. destruct x as [v|], x' as [v'|]; try done; [|by apply step_ret]. injection Hx as -> Hk.
  apply step_then.
  - case_match; [|apply (step_weaken _ eq), step_add_var]. apply step_then; [apply (step_weaken _ eq), step_rename|].
    apply (step_weaken _ eq), step_modify; by intros [].
  - simpl. apply step_lift. intros ? ? [= <-] [= <-].
    apply step_then; [apply (step_weaken _ eq), step_write; [simpl; by rewrite Hk|eauto]|]. walk.
Qed.

Lemma step_state_header V : in_step V any state_header state_header.
Proof.
  unfold state_header. eapply (step_bind _ any).
  - intros c c' y y' d d' Hc HV. unfold etry, add_var, ebind, eget.
    destruct (related_fields _ _ Hc) as (_ & Hs & _). rewrite <-Hs. destruct (var_state c !! "state_header") eqn:E1.
    + intros [= <- <-] [= <- <-]. done.
    + intros Hy Hy'. assert (Hadd := step_add_var V "state_header" c c' tt tt d d' Hc HV).
      unfold add_var, ebind, eget in Hadd. rewrite <-Hs, E1 in Hadd. simpl in Hy, Hy', Hadd.
      injection Hy as _ <-. injection Hy' as _ <-. destruct Hadd as (_ & Hr); [done..|]. done.
  - intros _ _ _. apply step_get. intros c c' Hc _. apply step_alloc; [done|]. intros r. walk.
Qed.

(** ** The two runs of a script *)

(** Assigning through a handle is the one call that can change what Execute
    records: at Load it does nothing, at Execute it overwrites the cell, and a
    cell may hold a literal of the script. *)
Definition no_assign (k : Call) : bool := match k with CAssign _ _ => false | _ => true end.

Lemma step_call V k : no_assign k = true -> in_step V any (call load_hashes load_sub k) (call class_hashes run_sub k).
Proof.
  intros Hk. destruct k; try done; simpl.
  - apply step_obj_io.
  - apply step_subaction.
  - apply step_st_call.
  - apply step_container_get.
  - apply step_intro_vdf.
  - apply step_intro_lt_eq.
  - apply step_top_limb.
  - apply step_set.
  - apply step_update.
  - apply step_commitment.
  - apply step_entry.
  - walk. apply step_arith.
  - apply step_random.
  - apply step_action_arg.
  - apply step_grind.
  - apply step_unsafe_begin.
  - apply step_unsafe_end.
  - apply step_bind_var.
Qed.

Lemma step_calls V ks u u' :
  forallb no_assign ks = true ->
  in_step V any (efold (fun _ k => let! _ := call load_hashes load_sub k in eret tt) u ks)
    (efold (fun _ k => let! _ := call class_hashes run_sub k in eret tt) u' ks).
Proof.
  revert u u'. induction ks as [|k ks IH]; intros u u' Hks; [by apply step_ret|]. simpl in *. apply andb_true_iff in Hks as [Hk Hks].
  eapply (step_bind _ any); [|intros; by apply IH]. eapply step_bind; [by apply step_call|]. intros. by apply step_ret.
Qed.

Lemma step_script ks : forallb no_assign ks = true -> in_step [] any (run_script load_hashes load_sub ks) (run_script class_hashes run_sub ks).
Proof.
  intros Hks. unfold run_script. eapply step_bind; [apply step_state_header|]. intros _ _ _. by apply step_calls.
Qed.
End Phases.
End SdkPhases.
