(* ===== verification/SdkDerive.v ===== *)
(** * What is derived from an action does not depend on its values

    The metadata, the signature and the body of an action's predicate are
    functions of what a context is without its values, so a run at Load and a
    run at Execute derive the same. *)

From S2P Require Import Prelude Pod2 Models DonState Podlang TxModel Replay TxBuilder Sdk SdkCalls SdkMeta SdkPodlang SdkPhases.

Module SdkDerive.
Import Podlang TxModel Sdk SdkCalls SdkMeta SdkPodlang SdkPhases.
Local Open Scope string_scope.

Section Derive.
Context `{SdkEnv} `{PredicateHash}.

Lemma try_fold_fmap {X Y Z} (f : Z -> Y -> Result Z) (g : X -> Y) (h : Z -> X -> Result Z) l z :
  (forall z x, f z (g x) = h z x) -> try_fold f z (g <$> l) = try_fold h z l.
Proof.
  intros Hf. revert z. induction l as [|x l IH]; intros z; [done|]. csimpl. rewrite Hf. destruct (h z x); simpl; auto.
Qed.

Lemma foldl_erased {X Y Z} (f : Z -> Y -> Z) (g : X -> Y) (h : Z -> X -> Z) l z :
  (forall z x, f z (g x) = h z x) -> foldl f z (g <$> l) = foldl h z l.
Proof. intros Hf. revert z. induction l as [|x l IH]; intros z; [done|]. csimpl. by rewrite Hf. Qed.

Lemma try_map_ext {X Y} (f g : X -> Result Y) l : (forall x, f x = g x) -> try_map f l = try_map g l.
Proof. intros Hf. induction l as [|x l IH]; [done|]. simpl. by rewrite Hf, IH. Qed.

(** ** Names *)

Lemma erased_name cs r : cell_name (erase_cell <$> cs) r = cell_name cs r.
Proof. unfold cell_name. rewrite list_lookup_fmap. by destruct (cs !! r) as [[]|]. Qed.

Lemma erased_names cs (rs : list Ref) : omap (cell_name (erase_cell <$> cs)) rs = omap (cell_name cs) rs.
Proof. induction rs as [|r rs IH]; [done|]. csimpl. by rewrite erased_name, IH. Qed.

Lemma erased_inst_vars cs i : inst_vars (erase_cell <$> cs) (erase_inst i) = inst_vars cs i.
Proof. destruct i; cbn -[omap]; rewrite ?erased_names; done. Qed.

Lemma erased_body_vars c : body_referenced_vars (cells (erase c)) (insts (erase c)) = body_referenced_vars (cells c) (insts c).
Proof.
  unfold body_referenced_vars. f_equal. cbn [erase cells insts]. induction (insts c) as [|i l IH]; [done|]. csimpl.
  by rewrite erased_inst_vars, IH.
Qed.

Lemma erased_output_vars c : output_vars (erase c) = output_vars c.
Proof.
  unfold output_vars. f_equal. cbn [erase cells insts]. induction (insts c) as [|i l IH]; [done|]. csimpl. rewrite IH.
  destruct i as [[]| | | | |]; try done. simpl. by rewrite erased_name.
Qed.

Lemma erased_max_ts c : max_ts_per_var (erase c) = max_ts_per_var c.
Proof. unfold max_ts_per_var. by rewrite erased_output_vars. Qed.

Lemma erased_object_ios c : object_ios (erase c) = object_ios c.
Proof.
  unfold object_ios. cbn [erase cells insts]. apply foldl_erased. intros m [] ; try done. simpl. by rewrite erased_name.
Qed.

(** ** Metadata *)

Lemma erased_check_need c cur needs r : check_need (erase c) cur needs r = check_need c cur needs r.
Proof.
  unfold check_need. rewrite erased_object_ios, erased_max_ts. cbn [erase cells]. rewrite list_lookup_fmap.
  by destruct (cells c !! r) as [[]|].
Qed.

Lemma erased_inst_args i : inst_args (erase_inst i) = inst_args i.
Proof. by destruct i. Qed.

Lemma erased_advance cur i : advance cur (erase_inst i) = advance cur i.
Proof. by destruct i. Qed.

Lemma erased_needs c : compute_wildcard_needs (erase c) = compute_wildcard_needs c.
Proof.
  unfold compute_wildcard_needs. rewrite erased_object_ios. cbn [erase insts]. f_equal. apply foldl_erased. intros [cur needs] i.
  unfold need_step. rewrite erased_advance, erased_inst_args. f_equal.
  rewrite <-(list_fmap_id (inst_args i)) at 1. apply foldl_erased. intros. apply erased_check_need.
Qed.

Lemma erased_add_inst prior c t i : add_inst prior (erase c) t (erase_inst i) = add_inst prior c t i.
Proof.
  destruct i; try done; unfold add_inst; cbn [erase_inst]; rewrite ?erased_body_vars; cbn [erase cells]; by rewrite erased_name.
Qed.

(** The arguments of the script are noted at Load only. *)
Definition drop_args (m : ActionMeta) : ActionMeta :=
  let '(MkMeta n k r i o ie oe init mc mv _) := m in MkMeta n k r i o ie oe init mc mv [].

Lemma erased_meta prior c : from_action_ctx prior (erase c) = rmap drop_args (from_action_ctx prior c).
Proof.
  unfold from_action_ctx. cbn [erase a_name var_state args insts].
  rewrite (try_fold_fmap _ erase_inst (add_inst prior c)) by apply erased_add_inst.
  rewrite erased_needs, erased_max_ts. by destruct (try_fold _ _ _).
Qed.

(** ** Podlang *)

Lemma erased_calls metas c : collect_sub_action_calls metas (erase c) = collect_sub_action_calls metas c.
Proof.
  unfold collect_sub_action_calls. cbn [erase cells insts]. f_equal. apply try_fold_fmap. intros [seen calls] []; try done. simpl.
  by rewrite erased_name.
Qed.

Lemma erased_privates m c calls : private_vars m (erase c) calls = private_vars m c calls.
Proof. unfold private_vars, unused_aliases. by rewrite erased_body_vars. Qed.

Lemma erased_alias_pin metas m c call : fmt_alias_pin metas m (erase c) call = fmt_alias_pin metas m c call.
Proof. unfold fmt_alias_pin. by rewrite erased_body_vars. Qed.

Lemma erased_arg m cs stamps r : fmt_arg m (erase_cell <$> cs) stamps r = fmt_arg m cs stamps r.
Proof. unfold fmt_arg. rewrite list_lookup_fmap. by destruct (cs !! r) as [[]|]. Qed.

Lemma erased_inst m cs i s : fmt_inst m (erase_cell <$> cs) (erase_inst i) s = fmt_inst m cs i s.
Proof.
  destruct s as [stamps calls], i as [|?? r| | | |]; try done; simpl.
  - by rewrite erased_arg.
  - destruct (fmt_name _ _ _); [|done]. simpl. f_equal.
    apply try_map_ext. intros [key r]. by rewrite erased_arg.
  - by rewrite (try_map_ext _ (fmt_arg m cs stamps)) by apply erased_arg.
  - by rewrite (try_map_ext _ (fmt_arg m cs stamps)) by apply erased_arg.
Qed.

Lemma erased_insts m cs l s : fmt_insts m (erase_cell <$> cs) (erase_inst <$> l) s = fmt_insts m cs l s.
Proof.
  revert s. induction l as [|i l IH]; intros s; [done|]. csimpl. rewrite erased_inst.
  destruct (fmt_inst m cs i s) as [[ts s']|]; [|done]. simpl. by rewrite IH.
Qed.

Lemma erased_action metas c : fmt_action metas (erase c) = fmt_action metas c.
Proof.
  unfold fmt_action. rewrite erased_calls. cbn [erase a_name]. destruct (expect _ _) as [[j m]|]; [|done]. simpl.
  destruct (collect_sub_action_calls metas c) as [calls|]; [|done]. simpl. rewrite erased_privates.
  rewrite (try_map_ext _ (fmt_alias_pin metas m c)) by apply erased_alias_pin. by rewrite erased_insts.
Qed.

(** C9: Take a script that makes the same host calls at Load and at Execute and
    does not assign through handles. It then records the same in both phases,
    whatever the inputs, the arguments, the random values and the results of its
    sub-actions: when both runs succeed, they give the same metadata but for the
    list of argument names, and the same predicate with the same private
    wildcards. (A script that draws a random value only when an argument is not
    supplied makes other calls at Execute when it is, and is not covered then.) *)
Theorem phases_agree load_hashes class_hashes load_sub run_sub ks name x supplied c c' prior metas :
  forallb no_assign ks = true ->
  run_script load_hashes load_sub ks (ActionContext_new name None) = (Ok tt, c) ->
  run_script class_hashes run_sub ks (set_supplied_args supplied (ActionContext_new name (Some x))) = (Ok tt, c') ->
  rmap drop_args (from_action_ctx prior c) = rmap drop_args (from_action_ctx prior c')
  /\ fmt_action metas c = fmt_action metas c'.
Proof.
  intros Hks Hc Hc'.
  assert (Hs : related (ActionContext_new name None) (set_supplied_args supplied (ActionContext_new name (Some x))))
    by (unfold related; simpl; eauto).
  destruct (step_script load_hashes class_hashes load_sub run_sub ks Hks _ _ _ _ _ _ Hs (Forall_nil_2 _) Hc Hc') as (_ & (_ & _ & He) & _).
  by rewrite <-!erased_meta, <-(erased_action metas c), <-(erased_action metas c'), He.
Qed.
End Derive.
End SdkDerive.
