(* ===== verification/SdkRegistry.v ===== *)
(** * The variables of an action (libs/sdk/src/lib.rs)

    An action keeps its variables in a list, which fixes their positions, and in
    a map, which holds their timestamps. Every host call keeps the two in step,
    and a variable's timestamp counts the instructions that advance it. *)

From S2P Require Import Prelude Pod2 Models DonState Podlang TxModel Replay TxBuilder Sdk SdkCalls SdkMeta SdkAlign.

Module SdkRegistry.
Import Podlang TxModel Sdk SdkCalls SdkMeta SdkAlign.
Local Open Scope string_scope.

(** ** Generated names *)

Lemma anon_name_inj tag a b : anon_name tag a = anon_name tag b -> a = b.
Proof. unfold anon_name. intros Hn. by simplify_eq. Qed.

(** All names that were tried are taken, so with one try more than there are
    names a free one is found. *)
Lemma find_name_tries fuel used tag q : find_name fuel used tag q = None -> Forall (fun i => anon_name tag i ∈ dom used) (seq q fuel).
Proof.
  revert q. induction fuel as [|fuel IH]; intros q; simpl; [constructor|]. destruct (used !! _) eqn:E; [|done]. intros Hf.
  constructor; [by apply elem_of_dom|by apply IH].
Qed.

Lemma find_name_total used tag q : is_Some (find_name (S (size used)) used tag q).
Proof.
  destruct (find_name _ used tag q) eqn:E; [by eexists|]. apply find_name_tries in E.
  assert (Hn : NoDup (anon_name tag <$> seq q (S (size used)))).
  { apply NoDup_fmap_2_strong; [|apply NoDup_seq]. intros. by eapply anon_name_inj. }
  assert (Hs : (list_to_set (anon_name tag <$> seq q (S (size used))) : gset string) ⊆ dom used).
  { intros n Hin. apply elem_of_list_to_set, list_elem_of_fmap in Hin as (i & -> & Hi). rewrite Forall_forall in E. by apply E. }
  apply subseteq_size in Hs. rewrite size_list_to_set, length_fmap, length_seq, size_dom in Hs by done. lia.
Qed.

Lemma find_name_free fuel used tag q n q' : find_name fuel used tag q = Some (n, q') -> used !! n = None.
Proof.
  revert q. induction fuel as [|fuel IH]; intros q; simpl; [done|]. destruct (used !! anon_name tag q) eqn:E; [apply IH|]. by intros [= <- <-].
Qed.

Section Registry.
Context `{SdkEnv}.

(** ** The invariant *)

(** The instructions that advance the chain. *)
Definition on_chain (i : Inst) : bool := match i with IObject _ _ _ _ | ISubAction _ _ _ _ => true | _ => false end.
Definition chain_steps (l : list Inst) : nat := length (filter (fun i => on_chain i = true) l).

(** The instructions that advance the variable [n]. *)
Definition advances (n : string) (l : list Inst) : nat :=
  (updates n l + if bool_decide (n = "chain") then chain_steps l else 0)%nat.

Record registered (c : ActionContext) : Prop := {
  reg_nodup : NoDup (vars c);
  reg_dom n : n ∈ vars c <-> is_Some (var_state c !! n);
  reg_chain : head (vars c) = Some "chain" /\ anonymous <$> var_state c !! "chain" = Some false;
  reg_ts n s : var_state c !! n = Some s -> ts s = advances n (insts c);
  reg_fresh n : var_state c !! n = None -> updates n (insts c) = 0%nat;
}.

Lemma registered_new name x : registered (ActionContext_new name x).
Proof.
  split; simpl; try done.
  - apply NoDup_singleton.
  - intros n. rewrite list_elem_of_singleton, lookup_singleton_is_Some. naive_solver.
  - intros n s. rewrite lookup_singleton_Some. by intros [<- <-].
Qed.

(** Nothing else of a context matters. *)
Lemma registered_ext c d : vars d = vars c -> var_state d = var_state c -> insts d = insts c -> registered c -> registered d.
Proof. intros Hv Hs Hi [? ? ? ? ?]. split; rewrite ?Hv, ?Hs, ?Hi; auto; intros *; rewrite ?Hs, ?Hi; auto. Qed.

(** ** Computations that keep it *)

Definition keeps {X} (f : eff ActionContext X) : Prop := forall c x d, registered c -> f c = (Ok x, d) -> registered d.

Lemma keeps_same {X} (f : eff ActionContext X) :
  (forall c x d, f c = (Ok x, d) -> vars d = vars c /\ var_state d = var_state c /\ insts d = insts c) -> keeps f.
Proof. intros Hf c x d Hc Hd. destruct (Hf _ _ _ Hd) as (? & ? & ?). by eapply registered_ext. Qed.

Lemma keeps_bind {X Y} (f : eff ActionContext X) (k : X -> eff ActionContext Y) :
  keeps f -> (forall x, keeps (k x)) -> keeps (ebind f k).
Proof. intros Hf Hk c y d Hc. unfold ebind. destruct (f c) as [[x|] e] eqn:E; [|done]. intros Hd. eapply Hk; [|done]. by eapply Hf. Qed.

Lemma keeps_ret {X} (x : X) : keeps (eret x).
Proof. apply keeps_same. by intros c y d [= _ <-]. Qed.
Lemma keeps_lift {X} (r : Result X) : keeps (elift r).
Proof. apply keeps_same. by intros c y d [= _ <-]. Qed.
Lemma keeps_throw {X} e : keeps (@ethrow ActionContext X e).
Proof. by intros c y d _. Qed.
Lemma keeps_get : keeps eget.
Proof. apply keeps_same. by intros c y d [= _ <-]. Qed.
Lemma keeps_borrow r : keeps (borrow r).
Proof. apply keeps_same. by intros c y d [= _ <-]. Qed.
Lemma keeps_alloc x : keeps (alloc x).
Proof. apply keeps_same. by intros [] y d [= _ <-]. Qed.
Lemma keeps_write r x : keeps (write r x).
Proof. apply keeps_same. by intros [] y d [= _ <-]. Qed.
Lemma keeps_modify f : (forall c, registered c -> registered (f c)) -> keeps (Sdk.modify f).
Proof. intros Hf c y d Hc [= _ <-]. auto. Qed.
Lemma keeps_on_exe {X} (f : eff ExeContext X) : keeps (on_exe f).
Proof.
  apply keeps_same. intros c y d. unfold on_exe. destruct (exe_ctx c); [|done]. destruct (f _). intros [= _ <-]. by destruct c.
Qed.
Lemma keeps_fold {X Y} (f : Y -> X -> eff ActionContext Y) y l : (forall y x, keeps (f y x)) -> keeps (efold f y l).
Proof. intros Hf. revert y. induction l as [|x l IH]; intros y; simpl; [apply keeps_ret|]. by apply keeps_bind. Qed.

(** ** Changes of the registry *)

Lemma registered_add c n :
  registered c -> var_state c !! n = None ->
  registered (set_vars (app (vars c) [n]) (set_var_state (<[n := VarState_default]> (var_state c)) c)).
Proof.
  intros [Hnd Hdom [Hh Ha] Hts Hf] Hn. assert (Hnc : n <> "chain") by (intros ->; by rewrite Hn in Ha).
  destruct c as [nm cs l vs st q x u a p]. simpl in *. split; simpl.
  - apply NoDup_app. split_and!; [done| |apply NoDup_singleton]. intros y Hy ->%list_elem_of_singleton.
    apply Hdom in Hy as [s Hs]. congruence.
  - intros y. rewrite elem_of_app, list_elem_of_singleton, Hdom, lookup_insert_is_Some.
    destruct (decide (n = y)); tauto || intuition congruence.
  - split; [by destruct vs|]. by rewrite lookup_insert_ne.
  - intros y s [[<- <-]|[Hne Hs]]%lookup_insert_Some; [|by apply Hts]. unfold advances. rewrite Hf by done.
    by rewrite bool_decide_eq_false_2.
  - intros y [? _]%lookup_insert_None. by apply Hf.
Qed.

Lemma keeps_add_var n : keeps (add_var n).
Proof.
  intros c x d Hc. unfold add_var, ebind, eget. destruct (var_state c !! n) eqn:E; [done|]. intros [= _ <-].
  pose proof (registered_add c n Hc E) as Hr. by destruct c.
Qed.

(** Changing what is not the timestamp. *)
Lemma registered_note c n f :
  registered c -> (forall s, ts (f s) = ts s) -> (n = "chain" -> forall s, anonymous s = false -> anonymous (f s) = false) ->
  registered (update_state n f c).
Proof.
  intros [Hnd Hdom [Hh Ha] Hts Hf] Hft Hfa. destruct c as [nm cs l vs st q x u a p]. simpl in *. split; simpl; try done.
  - intros y. rewrite Hdom, lookup_alter. case_decide; [|done]. subst. by rewrite fmap_is_Some.
  - split; [done|]. rewrite lookup_alter. case_decide as Hc; [|done]. subst n.
    destruct (st !! "chain") as [s|]; [|done]. simpl in *. injection Ha as Ha. by rewrite Hfa.
  - intros y s. rewrite lookup_alter. case_decide; [|apply Hts]. subst.
    destruct (st !! y) as [s0|] eqn:E; [|done]. intros [= <-]. rewrite Hft. by apply Hts.
  - intros y. rewrite lookup_alter. case_decide; [|apply Hf]. subst. rewrite fmap_None. apply Hf.
Qed.

(** An instruction with the timestamp it advances. *)
Definition inc (s : VarState) : VarState := MkVarState (anonymous s) (S (ts s)) (dict_read s).

Definition target (i : Inst) : option string :=
  match i with IUpdate obj _ _ _ _ _ => Some obj | IObject _ _ _ _ | ISubAction _ _ _ _ => Some "chain" | _ => None end.

Lemma updates_snoc n l i :
  updates n (app l [i]) = (updates n l + match i with IUpdate obj _ _ _ _ _ => if bool_decide (obj = n) then 1 else 0 | _ => 0 end)%nat.
Proof. unfold updates. rewrite filter_app, length_app. f_equal. rewrite filter_cons, filter_nil. destruct i; simpl; try done. by case_bool_decide. Qed.

Lemma chain_steps_snoc l i : chain_steps (app l [i]) = (chain_steps l + if on_chain i then 1 else 0)%nat.
Proof. unfold chain_steps. rewrite filter_app, length_app. f_equal. rewrite filter_cons, filter_nil. by destruct i. Qed.

Lemma advances_snoc n l i : advances n (app l [i]) = (advances n l + if bool_decide (target i = Some n) then 1 else 0)%nat.
Proof.
  unfold advances. rewrite updates_snoc, chain_steps_snoc.
  destruct (decide (n = "chain")) as [->|Hn]; [rewrite (bool_decide_eq_true_2 ("chain" = "chain")) by done|rewrite (bool_decide_eq_false_2 (n = "chain")) by done];
  destruct i; simpl; repeat case_bool_decide; simplify_eq; try lia.
Qed.

Lemma updates_target n l i : target i <> Some n -> updates n (app l [i]) = updates n l.
Proof. rewrite updates_snoc. destruct i; simpl; try lia. intros Hn. case_bool_decide; [congruence|lia]. Qed.

Lemma registered_push c i : registered c -> target i = None -> registered (set_insts (app (insts c) [i]) c).
Proof.
  intros [Hnd Hdom Hch Hts Hf] Hi. destruct c as [nm cs l vs st q x u a p]. simpl in *. split; simpl; try done.
  - intros n s Hs. rewrite advances_snoc, Hi. rewrite (Hts n s Hs). simpl. lia.
  - intros n Hn. rewrite updates_target by congruence. by apply Hf.
Qed.

Lemma keeps_push i : target i = None -> keeps (push_inst i).
Proof. intros Hi. apply keeps_modify. intros c Hc. by apply registered_push. Qed.

Lemma registered_advance c i n :
  registered c -> target i = Some n -> is_Some (var_state c !! n) ->
  registered (update_state n inc (set_insts (app (insts c) [i]) c)).
Proof.
  intros [Hnd Hdom [Hh Ha] Hts Hf] Hi [s0 Hs0]. destruct c as [nm cs l vs st q x u a p]. simpl in *. split; simpl; try done.
  - intros y. rewrite Hdom, lookup_alter. case_decide; [|done]. subst. by rewrite fmap_is_Some.
  - split; [done|]. rewrite lookup_alter. case_decide; [|done]. subst. by destruct (st !! "chain").
  - intros y s. rewrite advances_snoc, Hi, lookup_alter. case_decide as Hy.
    + subst y. rewrite Hs0, bool_decide_eq_true_2 by done. intros [= <-]. simpl. rewrite (Hts n s0 Hs0). lia.
    + rewrite bool_decide_eq_false_2 by congruence. intros Hs. rewrite (Hts y s Hs). lia.
  - intros y. rewrite lookup_alter. case_decide as Hy; [subst; by rewrite Hs0|]. intros Hn.
    rewrite updates_target by congruence. by apply Hf.
Qed.

Lemma keeps_chain {Y} i (k : eff ActionContext Y) :
  target i = Some "chain" -> keeps k -> keeps (push_inst i ;! inc_t_var "chain" ;! k).
Proof.
  intros Hi Hk c y d Hc. unfold push_inst, inc_t_var, ebind, eget, elift, Sdk.modify.
  destruct (var_state (set_insts (app (insts c) [i]) c) !! "chain") eqn:Ec; [|done]. simpl. apply Hk.
  apply registered_advance; try done. by destruct c; eexists.
Qed.

Lemma keeps_update {Y} n key value o d d' (k : eff ActionContext Y) :
  keeps k -> keeps (inc_t_var n ;! push_inst (IUpdate n key value o d d') ;! k).
Proof.
  intros Hk c y e Hc. unfold push_inst, inc_t_var, ebind, eget, elift, Sdk.modify.
  destruct (var_state c !! n) eqn:Ec; [|done]. simpl. apply Hk.
  pose proof (registered_advance c (IUpdate n key value o d d') n Hc eq_refl ltac:(by eexists)) as Hr. by destruct c.
Qed.

(** ** Renaming *)

Lemma rename_updates old new n l :
  old <> new -> updates new l = 0%nat ->
  updates n (rename_inst old new <$> l) =
    if bool_decide (n = new) then updates old l else if bool_decide (n = old) then 0%nat else updates n l.
Proof.
  intros Hne. induction l as [|i l IH]; [by repeat case_bool_decide|]. csimpl. rewrite !updates_cons. intros Hu.
  assert (Hl : updates new l = 0%nat) by (destruct i; lia). rewrite (IH Hl).
  destruct i; simpl in *; repeat case_bool_decide; simplify_eq; try lia.
Qed.

Lemma rename_chain_steps old new l : chain_steps (rename_inst old new <$> l) = chain_steps l.
Proof.
  unfold chain_steps. induction l as [|i l IH]; [done|]. csimpl. rewrite !filter_cons. destruct i; simpl; rewrite ?IH; done.
Qed.

Lemma registered_rename c old new s i :
  registered c -> old <> new -> old <> "chain" -> var_state c !! new = None -> var_state c !! old = Some s ->
  vars c !! i = Some old ->
  registered (set_insts (rename_inst old new <$> insts c) (set_vars (<[i := new]> (vars c))
    (set_var_state (<[new := s]> (delete old (var_state c))) c))).
Proof.
  intros [Hnd Hdom [Hh Ha] Hts Hf] Hne Hoc Hnew Hold Hi. assert (Hnc : new <> "chain") by (intros ->; by rewrite Hnew in Ha).
  destruct c as [nm cs l vs st q x u a p]. simpl in *. pose proof (Hf new Hnew) as Hzero.
  assert (Hnv : new ∉ vs) by (intros [? Hx]%Hdom; congruence).
  pose proof (lookup_lt_Some _ _ _ Hi) as Hlt. split; simpl.
  - apply NoDup_alt. intros j k y Hj Hk. rewrite list_lookup_insert_Some in Hj, Hk.
    destruct Hj as [(<- & -> & _)|[Hij Hj]], Hk as [(<- & Hy & _)|[Hik Hk]]; try done.
    + exfalso. by apply Hnv, (list_elem_of_lookup_2 _ k).
    + subst y. exfalso. by apply Hnv, (list_elem_of_lookup_2 _ j).
    + by eapply NoDup_lookup.
  - intros n. split.
    + intros [j Hj]%list_elem_of_lookup_1. apply list_lookup_insert_Some in Hj as [(<- & <- & _)|[Hij Hj]].
      * rewrite lookup_insert_eq. eauto.
      * assert (Hn : n <> old) by (intros ->; apply Hij; by eapply NoDup_lookup).
        rewrite lookup_insert_ne; [|intros ->; by apply Hnv, (list_elem_of_lookup_2 _ j)].
        rewrite lookup_delete_ne by done. apply Hdom. by apply (list_elem_of_lookup_2 _ j).
    + destruct (decide (n = new)) as [->|Hn].
      * intros _. apply (list_elem_of_lookup_2 _ i). by apply list_lookup_insert_eq.
      * rewrite lookup_insert_ne, lookup_delete_is_Some by done. intros [Hno Hs]. apply Hdom, list_elem_of_lookup_1 in Hs as [j Hj].
        apply (list_elem_of_lookup_2 _ j). rewrite list_lookup_insert_ne; [done|]. intros <-. congruence.
  - split.
    + destruct vs as [|v vs]; [done|]. destruct i as [|i]; [|done]. simpl in *. congruence.
    + by rewrite lookup_insert_ne, lookup_delete_ne.
  - intros n s'. unfold advances. rewrite rename_chain_steps, rename_updates by done.
    intros [[<- <-]|[Hn Hs]]%lookup_insert_Some.
    + rewrite (bool_decide_eq_true_2 (new = new)), (bool_decide_eq_false_2 (new = "chain")) by done.
      rewrite (Hts old s Hold). unfold advances. by rewrite (bool_decide_eq_false_2 (old = "chain")).
    + apply lookup_delete_Some in Hs as [Hno Hs]. rewrite (bool_decide_eq_false_2 (n = new)), (bool_decide_eq_false_2 (n = old)) by done.
      by apply Hts.
  - intros n [Hn Hnn]%lookup_insert_None. rewrite rename_updates by done. rewrite (bool_decide_eq_false_2 (n = new)) by done.
    case_bool_decide as Hno; [done|]. apply Hf. by rewrite lookup_delete_ne in Hn.
Qed.

Lemma keeps_rename old new :
  forall c x d, registered c -> from_option anonymous false (var_state c !! old) = true ->
    rename_var old new c = (Ok x, d) -> registered d.
Proof.
  intros c x d Hc Ha. unfold rename_var. case_bool_decide as Hne; [by intros [= _ <-]|].
  unfold ebind, eget, elift, Sdk.modify. destruct (var_state c !! new) eqn:En; [done|].
  destruct (var_state c !! old) as [s|] eqn:Eo; [|done]. simpl.
  destruct (list_find (fun v => v = old) (vars c)) as [[i v]|] eqn:Ef; [|done]. simpl. intros [= _ <-].
  apply list_find_Some in Ef as (Hi & -> & _).
  assert (Hoc : old <> "chain"). { intros ->. destruct (reg_chain _ Hc) as [_ Hch]. rewrite Eo in Hch. simpl in *. congruence. }
  pose proof (registered_rename c old new s i Hc Hne Hoc En Eo Hi) as Hr. by destruct c.
Qed.

(** ** The host calls *)

Lemma keeps_assert b : keeps (assert_unsafe b).
Proof. apply keeps_bind; [apply keeps_get|]. intros c. repeat case_match; (apply keeps_ret || apply keeps_throw). Qed.

Lemma keeps_flag b : keeps (Sdk.modify (set_unsafe_block b)).
Proof. apply keeps_modify. intros c Hc. by apply (registered_ext c); destruct c. Qed.

Lemma keeps_seq q : keeps (Sdk.modify (set_anon_seq q)).
Proof. apply keeps_modify. intros c Hc. by apply (registered_ext c); destruct c. Qed.

Lemma keeps_read n : keeps (mark_dict_read n).
Proof. apply keeps_modify. intros c Hc. by apply registered_note. Qed.

Lemma keeps_args l : keeps (Sdk.modify (fun c => set_args (app (args c) l) c)).
Proof. apply keeps_modify. intros c Hc. by apply (registered_ext c); destruct c. Qed.

(** The generated name is new, so it is not the chain's. *)
Lemma keeps_witness tag typ : keeps (new_witness tag typ).
Proof.
  intros c r d Hc. unfold new_witness, ebind at 1, eget at 1, ebind at 1, elift at 1.
  destruct (rassert _ _); [|done]. unfold ebind at 1, elift at 1.
  destruct (find_name_total (var_state c) tag (anon_seq c)) as [[n q] Hn]. rewrite Hn. simpl.
  assert (Hnc : n <> "chain").
  { intros ->. apply find_name_free in Hn. destruct (reg_chain _ Hc) as [_ Ha]. by rewrite Hn in Ha. }
  revert c r d Hc Hn. intros c r d Hc _. revert c r d Hc. apply keeps_bind; [apply keeps_seq|]. intros _.
  apply keeps_bind; [apply keeps_add_var|]. intros _. apply keeps_bind; [|intros; apply keeps_alloc].
  apply keeps_modify. intros c Hc. by apply registered_note.
Qed.

(** One step of a call at a time. *)
Ltac keep :=
  repeat first
    [ apply keeps_ret | apply keeps_lift | apply keeps_throw | apply keeps_get | apply keeps_borrow | apply keeps_alloc
    | apply keeps_write | apply keeps_on_exe | apply keeps_assert | apply keeps_flag | apply keeps_read | apply keeps_args
    | apply keeps_witness | apply keeps_add_var | apply keeps_push; reflexivity
    | apply keeps_chain; [reflexivity|] | apply keeps_update
    | apply keeps_fold; intros | apply keeps_bind; [|intros] | progress case_match ].

Lemma keeps_update_cell r f : keeps (update_cell r f).
Proof. unfold update_cell. keep. Qed.

Lemma keeps_try_ref d : keeps (try_ref_from_dynamic d).
Proof. destruct d; simpl; keep. Qed.

Lemma keeps_validate d typ : keeps (validate_arg d typ).
Proof. unfold validate_arg. apply keeps_bind; [apply keeps_try_ref|]. intros. keep. Qed.

Lemma keeps_validates l : keeps (validate_args l).
Proof. induction l as [|[d typ] l IH]; simpl; [keep|]. apply keeps_bind; [apply keeps_validate|]. intros. apply keeps_bind; [done|]. intros. keep. Qed.

Lemma keeps_kvs d : keeps (dynamic_to_kvs d).
Proof.
  destruct d; simpl; try apply keeps_throw. apply keeps_bind; [apply keeps_lift|]. intros ps. apply keeps_fold. intros kvs kv.
  destruct kv as [|[] [|v [|]]]; try apply keeps_throw. apply keeps_bind; [apply keeps_try_ref|]. intros. keep.
Qed.

Lemma keeps_capture rs : keeps (capture_op_args rs).
Proof. unfold capture_op_args. keep. Qed.
Lemma keeps_capture_one r : keeps (capture_op_arg r).
Proof. unfold capture_op_arg. keep. Qed.

Ltac keep_call :=
  repeat first
    [ progress keep | apply keeps_update_cell | apply keeps_try_ref | apply keeps_validate | apply keeps_validates | apply keeps_kvs
    | apply keeps_capture | apply keeps_capture_one | unfold put_value, if_exe, type_check_ref, native_st, set_fields ].

Context (class_hashes : gmap string Hash) (run_sub : string -> eff ExeContext (Statement * option (VarOrValue * (Value * nat * PDict)))).

Lemma keeps_bind_var name value : keeps (bind_var name value).
Proof.
  destruct value; simpl; try apply keeps_ret. intros c x d Hc. unfold ebind at 1, eget at 1. destruct (unsafe_block c); [by intros [= _ <-]|].
  unfold ebind at 1, borrow, eread. destruct (cells c !! r) as [[v|]|]; simpl; [|by intros [= _ <-]|done].
  destruct (from_option anonymous false (var_state c !! v_name v)) eqn:Ea; simpl.
  - unfold ebind at 1 2. destruct (rename_var (v_name v) name c) as [[u|] e] eqn:Er; [|done].
    pose proof (keeps_rename _ _ _ _ _ Hc Ea Er) as He. unfold Sdk.modify at 1.
    assert (He' : registered (update_state name (fun s => MkVarState false (ts s) (dict_read s)) e)) by (by apply registered_note).
    revert He'. generalize (update_state name (fun s => MkVarState false (ts s) (dict_read s)) e). intros e'.
    intros He' Hd. refine ((_ : keeps _) e' x d He' Hd). keep_call.
  - intros Hd. refine ((_ : keeps _) c x d Hc Hd). keep_call.
Qed.

Lemma call_keeps k : keeps (call class_hashes run_sub k).
Proof.
  destruct k; simpl.
  - unfold obj_io. keep_call.
  - unfold subaction. keep_call.
  - unfold st_call. keep_call.
  - unfold container_get. keep_call.
  - unfold intro_vdf. keep_call.
  - unfold intro_lt_eq_u256. keep_call.
  - unfold top_limb_u256. keep_call.
  - unfold set. keep_call.
  - unfold update. keep_call.
  - unfold commitment. keep_call.
  - unfold entry. keep_call.
  - unfold var_assign, try_value_from_dynamic. keep_call.
  - unfold arg_arith. keep_call.
  - unfold random. keep_call.
  - unfold action_arg. keep_call.
  - unfold pow_obj_grind. keep_call.
  - unfold unsafe_begin. keep_call.
  - unfold unsafe_end. keep_call.
  - apply keeps_bind_var.
Qed.

Lemma keeps_header : keeps state_header.
Proof.
  unfold state_header. apply keeps_bind; [|intros; keep_call]. intros c x d Hc. unfold etry.
  destruct (add_var "state_header" c) as [[u|e] c'] eqn:E; intros Hd; simplify_eq.
  - by eapply (keeps_add_var "state_header" c).
  - unfold add_var, ebind, eget, ethrow in E. destruct (var_state c !! "state_header"); [|done]. by simplify_eq.
Qed.

Lemma keeps_script ks : keeps (run_script class_hashes run_sub ks).
Proof.
  unfold run_script, run_calls. apply keeps_bind; [apply keeps_header|]. intros _. apply keeps_fold. intros _ k.
  apply keeps_bind; [apply call_keeps|]. intros. apply keeps_ret.
Qed.

(** C25: After any script, at Load or at Execute, the list of variables has no
    duplicates and is exactly the variables with a state; the chain comes first;
    a variable's timestamp is the number of updates recorded for it under its
    present name, however often it was renamed, and the chain's is the number of
    objects and sub-actions recorded. *)
Theorem registry_invariant ks name exe supplied c' :
  run_script class_hashes run_sub ks (set_supplied_args supplied (ActionContext_new name exe)) = (Ok tt, c') ->
  NoDup (vars c') /\ (forall n, n ∈ vars c' <-> is_Some (var_state c' !! n)) /\ head (vars c') = Some "chain"
  /\ (forall n s, n <> "chain" -> var_state c' !! n = Some s -> ts s = updates n (insts c'))
  /\ (forall s, var_state c' !! "chain" = Some s -> ts s = updates "chain" (insts c') + chain_steps (insts c'))%nat.
Proof.
  intros Hr. assert (Hc : registered (set_supplied_args supplied (ActionContext_new name exe)))
    by (apply (registered_ext (ActionContext_new name exe)); try done; apply registered_new).
  destruct (keeps_script ks _ tt c' Hc Hr) as [Hnd Hdom [Hh _] Hts _]. split_and!; try done.
  - intros n s Hn Hs. rewrite (Hts n s Hs). unfold advances. rewrite bool_decide_eq_false_2 by done. lia.
  - intros s Hs. by rewrite (Hts _ s Hs).
Qed.

(** Outside [unsafe] a new witness is always made: the search for a free
    generated name ends, and the variable it registers is new. *)
Theorem new_witness_total tag typ c :
  unsafe_block c = false ->
  exists r n c', new_witness tag typ c = (Ok r, c') /\ var_state c !! n = None /\ cell_name (cells c') r = Some n
    /\ is_Some (var_state c' !! n) /\ vars c' = app (vars c) [n].
Proof.
  intros Hu. destruct (find_name_total (var_state c) tag (anon_seq c)) as [[n q] Hn].
  unfold new_witness, ebind, eget, elift, Sdk.modify, alloc, add_var. rewrite Hu, Hn. simpl.
  pose proof (find_name_free _ _ _ _ _ _ Hn) as Hfree. destruct c as [nm cs l vs st q0 x u a p]. simpl in *. unfold ebind, eget. simpl. rewrite Hfree. simpl.
  eexists _, n, _. split; [reflexivity|]. simpl. split_and!; try done.
  - unfold cell_name. by rewrite lookup_app_r, Nat.sub_diag by lia.
  - rewrite lookup_alter_eq, lookup_insert_eq. by eexists.
Qed.
End Registry.
End SdkRegistry.
