(* ===== verification/SdkToy.v ===== *)
(** * A concrete world for the SDK

    Values and introduction pods by which the SDK's definitions evaluate, small
    scripts, and the SDK's theorems applied to them. *)

From S2P Require Import Prelude Pod2 Models DonState Podlang TxModel TxPredicates Replay TxBuilder Sdk SdkCalls SdkMeta SdkPodlang SdkExec SdkPhases SdkDerive SdkAlign SdkRegistry.

Module SdkToy.
Import Podlang TxModel Sdk SdkCalls SdkMeta SdkPodlang SdkExec SdkPhases SdkDerive SdkAlign SdkRegistry Toy ToyPod.
Local Open Scope string_scope.

#[export] Instance toy_values : PodValues := {|
  PVal := Value;
  raw := id;
  from_int := value_of_i64;
  from_bool b := value_of_i64 (if b : bool then 1 else 0)%Z;
  from_str := value_of_str;
  from_raw := id;
  from_dict := dict_commitment;
  from_slots m := array_commitment (omap (fun i => m !! i) (seq 0 (size m)));
  from_set l := set_commitment (list_to_set l);
  as_int := open_i64;
  as_str := open_str;
  as_dictionary := open_dict;
  as_array v := (fun l => map_seq 0 l) <$> open_array v;
  is_untyped _ := false;
  as_container v := match open_dict v, open_array v with None, None => None | _, _ => Some (entry_of v) end;
  pdict_ins d k v := if decide (d !! k = None) then Ok (<[k := v]> d) else Err (Fail "key exists");
  pdict_upd d k v := if decide (d !! k = None) then Err (Fail "key not found") else Ok (<[k := v]> d);
|}.

#[export] Instance toy_env : SdkEnv := {|
  rand_raw_value n := MkHash 9 (Z.of_nat n) 0 0;
  vdf_pod _ n v := Ok (St (Custom (predicate_hash "Vdf")) [Lit (value_of_i64 n); Lit v; Lit v]);
  lt_eq_u256_pod _ a b := Ok (St (Custom (predicate_hash "LtEqU256")) [Lit a; Lit b]);
|}.

(** ** Scripts *)

(** An output with a field, and a mutation with a field read. The state header
    is cell 0, and the object of the first call cell 1. *)
Definition create_calls : list Call :=
  [CObject Output "C"; CVar "p" (DHandle 1); CSet 1 (DArray [DArray [DString "d"; DInt 1]])].
Definition change_calls : list Call :=
  [CObject Mutate "C"; CVar "p" (DHandle 1); CEntry 1 "d"; CStatement "st_equal" [DHandle 2; DInt 1]; CUpdate 1 "d" (DInt 2)].
Definition both_calls : list Call :=
  [CSubaction "M"; CObject Input "C"; CVar "q" (DHandle 2)].

Definition no_sub (a : string) : eff ExeContext (Statement * option (VarOrValue * (Value * nat * PDict))) :=
  ethrow (Panic "no sub-action runs at load").
Definition load_action (name : string) (ks : list Call) : Result unit * ActionContext :=
  run_script ∅ no_sub ks (ActionContext_new name None).
Definition toy_actions : list ActionContext :=
  [snd (load_action "A" create_calls); snd (load_action "M" change_calls); snd (load_action "B" both_calls)].

Definition toy_loader : Loader := match Loader_new toy_actions with Ok l => l | Err _ => MkLoader [] [] end.

Definition toy_b : ActionMeta := default (rekey_meta "C") (l_actions toy_loader !! 2%nat).

Lemma toy_b_listed : l_actions toy_loader !! 2%nat = Some toy_b.
Proof. vm_compute. reflexivity. Qed.

(** [B] inherits the mutation of [M], and its own input follows it. *)
Lemma mutations_paired_witness :
  exists slots, total_mutations toy_b = Ok slots /\ length slots = 1%nat
    /\ Forall2 (fun s r => total_inputs toy_b !! input_index s = Some r /\ total_outputs toy_b !! output_index s = Some r)
         slots (mutated (total_inputs toy_b)).
Proof.
  destruct (mutations_paired toy_actions toy_loader toy_b) as (slots & Hs & Hall).
  - vm_compute. reflexivity.
  - apply elem_of_app. left. apply (list_elem_of_lookup_2 _ 2), toy_b_listed.
  - exists slots. split; [exact Hs|]. split; [|exact Hall]. vm_compute in Hs. injection Hs as <-. reflexivity.
Defined.

Lemma class_branch_found_witness :
  exists class n, list_find (fun c => c_name c = "C") (actions_to_classes (l_actions toy_loader)) = Some class
    /\ object_index_class_st_index (l_actions toy_loader) !! (m_name toy_b, 0%nat) = Some n
    /\ c_actions class.2 !! n = Some (m_name toy_b, 0%nat).
Proof.
  apply (class_branch_found (l_actions toy_loader) toy_b 0%nat (MkObjRef Input "C" "q")).
  - apply (bool_decide_unpack _). vm_compute. exact I.
  - apply (list_elem_of_lookup_2 _ 2), toy_b_listed.
  - vm_compute. reflexivity.
Defined.

(** [M] reads a field of its object before it updates it. *)
Definition toy_m : ActionMeta := default (rekey_meta "C") (l_actions toy_loader !! 1%nat).
Definition toy_m_ctx : ActionContext := snd (load_action "M" change_calls).

Definition toy_read : Inst := IStatement Equal [2%nat; 3%nat] None.
Definition toy_field : Var := MkVar "p" Dict None (Some "d").

Lemma field_reads_never_anchored_twice_witness :
  cells toy_m_ctx !! 2%nat = Some (IsVar toy_field) /\ collapsed_at toy_m "p" 0 = Ok None.
Proof.
  assert (Hc : cells toy_m_ctx !! 2%nat = Some (IsVar toy_field)) by (vm_cast_no_check (eq_refl (Some (IsVar toy_field)))).
  split; [exact Hc|].
  apply (field_reads_never_anchored_twice [default (rekey_meta "C") (l_actions toy_loader !! 0%nat)] toy_m_ctx toy_m
    (take 1 (insts toy_m_ctx)) toy_read (drop 2 (insts toy_m_ctx)) 2 toy_field "d" 1).
  - vm_compute. reflexivity.
  - apply (bool_decide_unpack _). vm_compute. exact I.
  - vm_cast_no_check (eq_refl (insts toy_m_ctx)).
  - left.
  - exact Hc.
  - reflexivity.
  - vm_compute. reflexivity.
Defined.

(** [M] at Load and on an object whose field holds 1. *)
Definition toy_header : DonState.StateHeader :=
  DonState.StateHeader_new 0 0 EMPTY_HASH EMPTY_HASH EMPTY_HASH EMPTY_HASH.
Definition toy_tx : TxBuilder.TxBuilder :=
  TxBuilder.MkBuilder EMPTY_HASH EMPTY_HASH toy_header [] st_none ∅ [] [] 0 ∅.
Definition toy_object : PDict := <["d" := value_of_i64 1]> ∅.
Definition toy_exe : ExeContext := MkExe true toy_tx [toy_object] [] 0.
Definition toy_m_run : Result unit * ActionContext :=
  run_script ∅ no_sub change_calls (set_supplied_args ∅ (ActionContext_new "M" (Some toy_exe))).

Lemma run_ended {S} (p : Result unit * S) : fst p = Ok tt -> p = (Ok tt, snd p).
Proof. by destruct p; simpl; intros ->. Qed.

Lemma phases_agree_witness :
  is_exe (snd toy_m_run) = true /\ fmt_action [toy_m] toy_m_ctx = fmt_action [toy_m] (snd toy_m_run).
Proof.
  split; [vm_compute; reflexivity|].
  apply (phases_agree ∅ ∅ no_sub no_sub change_calls "M" toy_exe ∅ toy_m_ctx (snd toy_m_run) [] [toy_m]).
  - reflexivity.
  - apply run_ended. vm_compute. reflexivity.
  - apply run_ended. vm_compute. reflexivity.
Defined.

(** A looked-up value that is bound, and an object that is updated under its
    name. *)
Definition renamed_calls : list Call :=
  [CObject Mutate "C"; CVar "p" (DHandle 1); CLookup DictLookup (DHandle 1) (DString "d"); CVar "w" (DHandle 3);
   CUpdate 1 "d" (DInt 2)].
Definition toy_renamed : Result unit * ActionContext :=
  run_script ∅ no_sub renamed_calls (set_supplied_args ∅ (ActionContext_new "M" None)).

Lemma registry_invariant_witness :
  vars (snd toy_renamed) = ["chain"; "state_header"; "p"; "w"] /\ NoDup (vars (snd toy_renamed))
  /\ (forall s, var_state (snd toy_renamed) !! "p" = Some s -> ts s = 1%nat)
  /\ (forall s, var_state (snd toy_renamed) !! "chain" = Some s -> ts s = 1%nat).
Proof.
  destruct (registry_invariant ∅ no_sub renamed_calls "M" None ∅ (snd toy_renamed)) as (Hnd & _ & _ & Hts & Hch).
  - apply run_ended. vm_compute. reflexivity.
  - split; [vm_compute; reflexivity|]. split; [exact Hnd|]. split; intros s Hs.
    + rewrite (Hts "p" s ltac:(discriminate) Hs). vm_compute. reflexivity.
    + rewrite (Hch s Hs). vm_compute. reflexivity.
Defined.

Lemma new_witness_total_witness :
  exists r n c', new_witness "get" Unk (snd toy_renamed) = (Ok r, c') /\ var_state (snd toy_renamed) !! n = None
    /\ cell_name (cells c') r = Some n /\ is_Some (var_state c' !! n) /\ vars c' = app (vars (snd toy_renamed)) [n].
Proof. apply (new_witness_total "get" Unk (snd toy_renamed)). vm_compute. reflexivity. Defined.
End SdkToy.
