(* ===== verification/SdkRunToy.v ===== *)
(** * An execution of a concrete action

    The action [M] of the concrete world is executed on an object, and the
    theorem on executions is applied to that run. *)

From S2P Require Import Prelude Pod2 Models DonState Podlang TxModel TxPredicates Replay TxBuilder Sdk SdkCalls SdkMeta SdkPodlang SdkExec SdkAlign SdkFit SdkToy.

Module SdkRunToy.
Import Podlang TxModel Sdk SdkCalls SdkMeta SdkPodlang SdkExec SdkAlign SdkFit Toy ToyPod SdkToy.
Local Open Scope string_scope.

(** The object before and after, and the chain. *)
Definition toy_new : PDict := <["d" := value_of_i64 2]> ∅.
Definition toy_val (n : string) (t : nat) : Value :=
  match n with
  | "p" => match t with O => dict_commitment toy_object | S _ => dict_commitment toy_new end
  | "chain" => MkHash 7 (Z.of_nat t) 0 0
  | _ => header_value toy_header
  end.

Definition toy_ctx : ActionContext := snd toy_m_run.
Definition toy_view : ObjView := MkView Mutate "p" "C" (Some toy_object) toy_new.
Definition toy_records : Records := MkRecords [toy_val "p" 0; toy_val "p" 1] None None.
Definition toy_event : ObjEvent :=
  MkEvent (St (Custom (predicate_hash "TxMutate"))
             (Lit <$> [toy_val "chain" 0; toy_val "chain" 1; toy_val "p" 0; toy_val "p" 1; predicate_hash "IsC"]))
    (TxBuilder.MkHandle 0 0) toy_new toy_view 1.

(** What the run has recorded. *)
Definition toy_insts : list Inst :=
  [IObject Mutate 1 "C" (Some toy_object);
   IStatement Equal [2; 3]%nat (Some [Entry (toy_val "p" 0) (value_of_str "d"); Lit (value_of_i64 1)]);
   IUpdate "p" "d" 4 (Some (Lit (value_of_i64 2))) (Some toy_object) (Some toy_new)].
Definition toy_cells : list VarOrValue :=
  [IsVar (MkVar "state_header" (Arr RECORD_STATE_HEADER) (Some (toy_val "state_header" 0)) None);
   IsVar (MkVar "p" Dict (Some (toy_val "p" 1)) None);
   IsVar (MkVar "p" Dict (Some (toy_val "p" 0)) (Some "d"));
   IsValue (value_of_i64 1); IsValue (value_of_i64 2)].

Lemma toy_ctx_insts : insts toy_ctx = toy_insts.
Proof. vm_cast_no_check (eq_refl toy_insts). Qed.
Lemma toy_ctx_cells : cells toy_ctx = toy_cells.
Proof. vm_cast_no_check (eq_refl toy_cells). Qed.
Lemma toy_ctx_vars : vars toy_ctx = ["chain"; "state_header"; "p"].
Proof. vm_compute. reflexivity. Qed.

Definition toy_meta : ActionMeta :=
  MkMeta "M" ScriptAction [MkObjRef Mutate "C" "p"] [MkObjRef Mutate "C" "p"] [MkObjRef Mutate "C" "p"]
    [MkEntry "p" true] [MkEntry "p" false] None 1
    (<["chain" := 1%nat]> (<["state_header" := 0%nat]> (<["p" := 1%nat]> ∅))) [].
Lemma toy_meta_m : toy_m = toy_meta.
Proof. vm_compute. reflexivity. Qed.

Abbreviation run := (coherent_run [toy_meta] toy_meta toy_ctx toy_records ∅ [toy_view] [toy_event] toy_val (toy_val "state_header" 0)).

Lemma toy_entry n i e : in_entry toy_meta n = Some (i, e) -> n = "p" /\ i = 0%nat.
Proof. unfold in_entry, find_entry. cbn. case_decide as Hd; [|done]. simpl in Hd. by intros [= <- <-]. Qed.

Lemma toy_out_entry n i e : out_entry toy_meta n = Some (i, e) -> n = "p" /\ i = 1%nat.
Proof. unfold out_entry, find_entry. cbn. case_decide as Hd; [|done]. simpl in Hd. by intros [= <- <-]. Qed.

Lemma toy_recorded : recorded toy_meta toy_records toy_val.
Proof.
  split; try done.
  - by intros n i e [-> ->]%toy_entry.
  - intros n i e last [-> ->]%toy_out_entry. vm_compute. by intros [= <-].
Qed.

Lemma toy_body : coherent toy_meta toy_cells toy_val (toy_val "state_header" 0)
  (list_to_map ((fun v => (v, 0%nat)) <$> ["chain"; "state_header"; "p"])) 0 toy_insts.
Proof.
  simpl. split_and!; try done.
  - eexists [_; _], [value_of_i64 1; value_of_i64 1]. split; [done|]. split; [|done]. repeat constructor.
    + eexists. split; [reflexivity|]. split; [reflexivity|]. vm_compute. reflexivity.
    + eexists. split; [reflexivity|]. split; [reflexivity|]. vm_compute. reflexivity.
  - exists (Lit (value_of_i64 2)), toy_object, toy_new, 0%nat, (value_of_i64 2).
    do 3 (split; [reflexivity|]). split; [vm_compute; reflexivity|]. split.
    { eexists. split; [reflexivity|]. split; [reflexivity|]. reflexivity. }
    split; [vm_compute; reflexivity|]. split; vm_compute; reflexivity.
Qed.

Lemma toy_coherent : run.
Proof.
  split; rewrite ?toy_ctx_insts, ?toy_ctx_cells, ?toy_ctx_vars.
  - exists 0%nat. reflexivity.
  - intros calls Hc. assert (Hc' : collect_sub_action_calls [toy_meta] toy_ctx = Ok []) by (vm_compute; reflexivity).
    rewrite Hc' in Hc. injection Hc as <-. apply (bool_decide_unpack _). vm_compute. exact I.
  - exact toy_recorded.
  - split; vm_compute; reflexivity.
  - intros n Hn. repeat (apply elem_of_cons in Hn as [->|Hn]); [by eexists..|by apply elem_of_nil in Hn].
  - left.
  - intros n Hn. csimpl in Hn. unfold no_entries, in_entry, out_entry, initials_entry, find_entry. cbn. 
    rewrite !decide_False by set_solver. done.
  - intros n last Hn Hl. unfold toy_insts. rewrite !updates_cons. change (updates n []) with 0%nat.
    case_bool_decide as Hp; [|lia]. subst n. vm_compute in Hl. injection Hl as <-. lia.
  - reflexivity.
  - exact toy_body.
  - repeat constructor.
  - constructor; [|constructor]. unfold coherent_obj. split_and!; try done. exists 1%nat.
    split; [reflexivity|]. cbn [o_io o_varname]. split; [lia|]. split; [vm_compute; reflexivity|].
    split; [by exists toy_object|]. split; [reflexivity|]. split; [by eexists|]. split; [by eexists|reflexivity].
  - split; [|done]. unfold coherent_event. split_and!; try done. exists 1%nat. split; reflexivity.
Qed.

(** The predicate of [M], as it was rendered at Load. *)
Definition toy_pred : Predicate :=
  match fmt_action [toy_meta] toy_ctx with Ok (P, _) => P | Err _ => MkPred "M" [] AND [] end.
Definition toy_privates : list string := match fmt_action [toy_meta] toy_ctx with Ok (_, l) => l | Err _ => [] end.

Lemma execution_proves_predicate_witness :
  exists sts, action_statements toy_meta toy_records ∅ toy_ctx [toy_view] [toy_event] = Ok sts
    /\ apply_custom_pred [toy_pred] (a_name toy_ctx) [("state_header", toy_val "state_header" 0)] sts
       = Ok (St (Custom (predicate_hash (a_name toy_ctx)))
           (Lit <$> [array_commitment (r_io toy_records); toy_val "state_header" 0; toy_val "chain" 0; toy_val "chain" (chain_max_ts toy_meta)])).
Proof.
  apply (execution_proves_predicate [toy_pred] [toy_meta] toy_meta toy_ctx toy_records ∅ [toy_view] [toy_event] toy_val
    (toy_val "state_header" 0) toy_pred toy_privates).
  - exact toy_coherent.
  - vm_compute. reflexivity.
  - vm_compute. reflexivity.
  - exact (le_n 1).
  - intros w Hw. assert (Hd : bool_decide (Forall (fun w => w = "state_header" \/ w ∈ (p_sts toy_pred ≫= wildcards)) action_public) = true)
      by (vm_compute; reflexivity).
    apply bool_decide_eq_true in Hd. rewrite Forall_forall in Hd. by apply Hd.
Defined.
End SdkRunToy.
