(* ===== verification/SdkFindings.v ===== *)
(** * Scripts that load and cannot be executed (libs/sdk)

    Three scripts that the SDK accepts at Load and that no execution can prove:
    setting an output twice before an update, mutating without an update, and
    reading a field through a handle made before its variable got a name. *)

From S2P Require Import Prelude Pod2 Models DonState Podlang TxModel TxPredicates Replay TxBuilder Sdk SdkCalls SdkMeta SdkPodlang SdkExec SdkAlign SdkToy.

Module SdkFindings.
Import Podlang TxModel Sdk SdkCalls SdkMeta SdkPodlang SdkExec Toy ToyPod SdkToy.
Local Open Scope string_scope.

Definition meta_of (c : ActionContext) : ActionMeta :=
  match from_action_ctx [] c with Ok m => m | Err _ => rekey_meta "C" end.

(** The action's predicate, as rendered at Load. *)
Definition rendered (c : ActionContext) : Result Predicate := rmap fst (fmt_action [meta_of c] c).

Definition execute (name : string) (ks : list Call) (inputs : list PDict) : Result unit * ActionContext :=
  run_script {["C" := EMPTY_HASH]} no_sub ks (ActionContext_new name (Some (MkExe true toy_tx inputs [] 0))).

(** The records and statements of a run, with the statement its transaction
    event has for an object. *)
Definition records_of (m : ActionMeta) (c : ActionContext) : Result Records :=
  let? os := object_views c in
  let? stamped := stamped_outputs os in
  let? io := io_array stamped os in
  Ok (MkRecords io (initials_array m os) None).

Definition event_of (name : string) (c : ActionContext) (args : ObjView -> list Value) (o : ObjView) : ObjEvent :=
  MkEvent (St (Custom (predicate_hash name)) (Lit <$> app [EMPTY_HASH; value_of_i64 1] (args o)))
    (TxBuilder.MkHandle 0 0) (ov_dict o) o 1.

Definition statements (m : ActionMeta) (c : ActionContext) (name : string) (args : gmap string Dictionary -> ObjView -> list Value) :
    Result (list Statement) :=
  let? os := object_views c in
  let? stamped := stamped_outputs os in
  let? r := records_of m c in
  action_statements m r stamped c os (event_of name c (args stamped) <$> os).

Lemma match_args_lookup σ ts l k a b :
  match_args σ ts l = true -> ts !! k = Some a -> l !! k = Some b -> match_arg σ a b = true.
Proof.
  revert l k. induction ts as [|t ts IH]; intros [|x l] [|k]; simpl; try done; intros [Hm Hl]%andb_true_iff.
  - by intros [= <-] [= <-].
  - by apply IH.
Qed.

Lemma instance_lookup P sts σ i t st k a b :
  instance P σ sts = true -> p_sts P !! i = Some t -> sts !! i = Some st -> is_none st = false ->
  t_args t !! k = Some a -> st_args st !! k = Some b -> match_arg σ a b = true.
Proof.
  unfold instance, slots. intros [_ Hall]%andb_true_iff Ht Hst Hn Ha Hb. rewrite forallb_forall in Hall.
  assert (Hin : (t, st) ∈ slots P sts).
  { apply list_elem_of_filter. split; [done|]. apply (list_elem_of_lookup_2 _ i). by rewrite lookup_zip_with, Ht, Hst. }
  apply list_elem_of_In, Hall in Hin. unfold matches in Hin. apply andb_true_iff in Hin as [_ Hin].
  by eapply match_args_lookup.
Qed.

(** The argument [k] of clause [i] and of the statement given for it. *)
Definition clause_arg (P : Predicate) (i k : nat) : option TArg := p_sts P !! i ≫= fun t => t_args t !! k.
Definition given_arg (sts : list Statement) (i k : nat) : option Arg :=
  sts !! i ≫= fun st => if is_none st then None else st_args st !! k.

Lemma instance_arg P sts σ i k a b :
  instance P σ sts = true -> clause_arg P i k = Some a -> given_arg sts i k = Some b -> match_arg σ a b = true.
Proof.
  unfold clause_arg, given_arg. intros Hi (t & Ht & Ha)%bind_Some (st & Hst & Hb)%bind_Some.
  destruct (is_none st) eqn:Hn; [done|]. by eapply instance_lookup.
Qed.

(** A wildcard that two clauses force to different values, and an argument that
    is the entry of a record at another key. *)
Definition clash (P : Predicate) (sts : list Statement) (i j k : nat) : bool :=
  match clause_arg P i k, given_arg sts i k, clause_arg P j k, given_arg sts j k with
  | Some (W w), Some (Lit a), Some (W w'), Some (Lit b) => bool_decide (w = w') && negb (bool_decide (a = b))
  | _, _, _, _ => false
  end.
Definition misplaced (P : Predicate) (sts : list Statement) (i k : nat) : bool :=
  match clause_arg P i k, given_arg sts i k with
  | Some (K _ key), Some (Entry _ key') => negb (bool_decide (key = key'))
  | _, _ => false
  end.

Lemma clash_no_instance P sts i j k σ : clash P sts i j k = true -> instance P σ sts = false.
Proof.
  intros Hc. apply not_true_iff_false. intros Hi. unfold clash in Hc.
  destruct (clause_arg P i k) as [[w| |]|] eqn:E1; try done. destruct (given_arg sts i k) as [[a|]|] eqn:E2; try done.
  destruct (clause_arg P j k) as [[w'| |]|] eqn:E3; try done. destruct (given_arg sts j k) as [[b|]|] eqn:E4; try done.
  apply andb_true_iff in Hc as [Hw%bool_decide_eq_true Hab%negb_true_iff%bool_decide_eq_false]. subst w'. apply Hab.
  pose proof (instance_arg _ _ _ _ _ _ _ Hi E1 E2) as Ha%bool_decide_eq_true.
  pose proof (instance_arg _ _ _ _ _ _ _ Hi E3 E4) as Hb%bool_decide_eq_true. congruence.
Qed.

Lemma misplaced_no_instance P sts i k σ : misplaced P sts i k = true -> instance P σ sts = false.
Proof.
  intros Hc. apply not_true_iff_false. intros Hi. unfold misplaced in Hc.
  destruct (clause_arg P i k) as [[| |w key]|] eqn:E1; try done. destruct (given_arg sts i k) as [[|r key']|] eqn:E2; try done.
  apply negb_true_iff, bool_decide_eq_false in Hc.
  pose proof (instance_arg _ _ _ _ _ _ _ Hi E1 E2) as [_ Ha%bool_decide_eq_true]%andb_true_iff. done.
Qed.

(** Both results are there and the test holds of them. *)
Definition both (rP : Result Predicate) (rs : Result (list Statement)) (f : Predicate -> list Statement -> bool) : bool :=
  match rP, rs with Ok P, Ok sts => f P sts | _, _ => false end.

Lemma both_Ok rP rs f : both rP rs f = true -> exists P sts, rP = Ok P /\ rs = Ok sts /\ f P sts = true.
Proof. destruct rP, rs; simpl; try done. eauto. Qed.

(** ** Setting twice *)

Definition twice_calls : list Call :=
  [CObject Output "C"; CVar "p" (DHandle 1); CSet 1 (DArray [DArray [DString "d"; DInt 1]]);
   CSet 1 (DArray [DArray [DString "e"; DInt 1]]); CUpdate 1 "d" (DInt 2)].
Definition twice_load : ActionContext := snd (load_action "A" twice_calls).
Definition twice_run : ActionContext := snd (execute "A" twice_calls []).
Definition insert_args (stamped : gmap string Dictionary) (o : ObjView) : list Value :=
  [dict_commitment (ov_dict o); dict_commitment (default ∅ (stamped !! ov_var o)); predicate_hash "IsC"].

Abbreviation twice_statements := (statements (meta_of twice_load) twice_run "TxInsert" insert_args).

(** Each set refers to the object with the fields set until then, and the
    predicate names them all by one wildcard: the script loads and runs, and no
    values for the wildcards make its statements an instance of its predicate.
    ([check_settable] lets a second set through.) *)
Theorem repeated_set_cannot_execute :
  fst (load_action "A" twice_calls) = Ok tt /\ fst (execute "A" twice_calls []) = Ok tt
  /\ exists P sts, rendered twice_load = Ok P /\ twice_statements = Ok sts /\ forall σ, instance P σ sts = false.
Proof.
  split; [vm_compute; reflexivity|]. split; [vm_compute; reflexivity|].
  destruct (both_Ok (rendered twice_load) twice_statements (fun P sts => clash P sts 0 1 0)) as (P & sts & HP & Hsts & Hc);
    [vm_compute; reflexivity|].
  exists P, sts. split; [exact HP|]. split; [exact Hsts|]. intros σ. by eapply clash_no_instance.
Qed.

(** ** Mutating without an update *)

Definition still_calls : list Call := [CObject Mutate "C"; CVar "p" (DHandle 1)].
Definition still_load : ActionContext := snd (load_action "A" still_calls).
Definition still_run : ActionContext := snd (execute "A" still_calls [toy_object]).
Definition mutate_args (stamped : gmap string Dictionary) (o : ObjView) : list Value :=
  [dict_commitment (ov_dict o); dict_commitment (ov_dict o); predicate_hash "IsC"].
Abbreviation still_statements := (statements (meta_of still_load) still_run "TxMutate" mutate_args).

(** The object has one timestamp, which the predicate renders as its entry on
    the input side; the executor names the state after by the entry on the
    output side. *)
Theorem unchanged_mutate_cannot_execute :
  fst (load_action "A" still_calls) = Ok tt /\ fst (execute "A" still_calls [toy_object]) = Ok tt
  /\ exists P sts, rendered still_load = Ok P /\ still_statements = Ok sts /\ forall σ, instance P σ sts = false.
Proof.
  split; [vm_compute; reflexivity|]. split; [vm_compute; reflexivity|].
  destruct (both_Ok (rendered still_load) still_statements (fun P sts => misplaced P sts 0 3)) as (P & sts & HP & Hsts & Hc);
    [vm_compute; reflexivity|].
  exists P, sts. split; [exact HP|]. split; [exact Hsts|]. intros σ. by eapply misplaced_no_instance.
Qed.

(** ** A handle made before its variable got a name *)

Definition stale_calls : list Call :=
  [CObject Input "C"; CVar "p" (DHandle 1); CLookup DictLookup (DHandle 1) (DString "d"); CEntry 3 "x";
   CVar "w" (DHandle 3); CStatement "st_equal" [DHandle 4; DInt 1]].
Definition stale_load : ActionContext := snd (load_action "A" stale_calls).

(** Binding the looked-up value renames its variable, but the handle of its
    field keeps the generated name, and rendering the action panics. *)
Theorem stale_field_handle_panics :
  fst (load_action "A" stale_calls) = Ok tt /\ (exists m, from_action_ctx [] stale_load = Ok m)
  /\ rendered stale_load = Err (Panic "key not found").
Proof.
  split; [vm_compute; reflexivity|]. split; [|vm_compute; reflexivity]. eexists. vm_compute. reflexivity.
Qed.
End SdkFindings.
