(* ===== verification/Catalog.v ===== *)
(** * Plugins and the action catalog (libs/driver/src/pexe_catalog.rs and
    catalog.rs, libs/pexe/src/lib.rs, the loading of modules in libs/sdk)

    A plugin is a zip archive with a manifest and a script. The driver unpacks
    the archives of a directory, loads their scripts with the SDK, and lists the
    actions and classes they declare under qualified names. The driver's
    operations ask the catalog for them. *)

From Stdlib Require Import Ascii.
From stdpp Require Import sorting.
From S2P Require Import Prelude Pod2 Models DonState Payload ObjectNames DriverStore Driver Actions DriverObjects Podlang TxModel Replay TxBuilder Sdk SdkCalls SdkMeta SdkPodlang SdkExec.

Module Catalog.
Import Payload ObjectNames Actions.
Local Open Scope string_scope.

(** [map_err] on a returned error; a panic is not caught. *)
Definition map_err {A} (f : string -> string) (c : Result A) : Result A :=
  match c with Err (Fail e) => Err (Fail (f e)) | _ => c end.

(** ** Manifests *)

Record PluginInfo : Type := MkPluginInfo { pi_name : string; pi_version : string; module_hash : Hash }.
Record ManifestClass : Type := MkClassInfo { mc_name : string; mc_emoji : string; mc_description : string }.
Record ManifestAction : Type := MkActionInfo { ma_name : string; ma_emoji : string; ma_description : string; hidden : bool }.
Record Manifest : Type := MkManifest {
  mf_plugin : PluginInfo;
  mf_classes : list ManifestClass;
  mf_actions : list ManifestAction;
}.

(** ** Archives *)

Definition MANIFEST_FILE : string := "manifest.toml".
Definition SCRIPT_FILE : string := "plugin.rhai".
Definition PEXE_EXTENSION : string := "pexe".
Definition MAX_PEXE_BYTES : Z := 8 * 1024 * 1024.
Definition MAX_ENTRY_BYTES : Z := 1024 * 1024.
Definition MAX_ENTRIES : Z := 16.

(** The zip library, UTF-8 and the manifest's parser. An entry is found by its
    name and read as a stream of bytes, of which a prefix can be taken. *)
Class Archives : Type := {
  Zip : Type;
  zip_write : list (string * list byte) -> Result (list byte);
  zip_open : list byte -> Result Zip;
  zip_len : Zip -> Z;
  (** [by_name], then [take(n).read_to_end] *)
  by_name : Zip -> string -> Result (Z -> Result (list byte));
  utf8_bytes : string -> list byte;
  from_utf8 : list byte -> Result string;
  parse_manifest : string -> Result Manifest;
}.

Section Pexe.
Context `{Archives}.

Definition pack (manifest_toml script : string) : Result (list byte) :=
  zip_write [(MANIFEST_FILE, utf8_bytes manifest_toml); (SCRIPT_FILE, utf8_bytes script)].

(** One byte past the limit is read, so that a larger entry shows. *)
Definition read_entry (zip : Zip) (name : string) : Result string :=
  let? file := map_err (fun err => "missing entry " +:+ name +:+ " in pexe: " +:+ err) (by_name zip name) in
  let? out := map_err (fun err => "failed to read " +:+ name +:+ " in pexe: " +:+ err) (file (MAX_ENTRY_BYTES + 1)%Z) in
  if (MAX_ENTRY_BYTES <? Z.of_nat (length out))%Z
  then Err (Fail ("pexe entry " +:+ name +:+ " exceeds the limit (possible decompression bomb)"))
  else map_err (fun err => "entry " +:+ name +:+ " in pexe is not valid UTF-8: " +:+ err) (from_utf8 out).

Definition unpack_raw (bytes : list byte) : Result (string * string) :=
  let? zip := map_err (fun err => "invalid pexe zip: " +:+ err) (zip_open bytes) in
  if (MAX_ENTRIES <? zip_len zip)%Z then Err (Fail "pexe declares too many entries")
  else
    let? manifest_toml := read_entry zip MANIFEST_FILE in
    let? script := read_entry zip SCRIPT_FILE in
    Ok (manifest_toml, script).

Definition unpack (bytes : list byte) : Result (Manifest * string) :=
  let? (manifest_toml, script) := unpack_raw bytes in
  let? manifest := map_err (fun err => "invalid manifest.toml: " +:+ err) (parse_manifest manifest_toml) in
  Ok (manifest, script).

(** A file, read through a reader that stops one byte past the limit. *)
Definition read_pexe_file (contents : list byte) : Result (list byte) :=
  let bytes := take (Z.to_nat (MAX_PEXE_BYTES + 1)) contents in
  if (MAX_PEXE_BYTES <? Z.of_nat (length bytes))%Z then Err (Fail "pexe exceeds limit") else Ok bytes.
End Pexe.

(** ** Loading a module *)

(** The script engine: a compiled script gives the host calls of a function. *)
Class ScriptEngine `{Sdk.PodValues} : Type := {
  compile : string -> Result (string -> Result (list SdkCalls.Call));
}.

(** pod2's compiler of predicate modules, and the text they have. *)
Class ModuleCompiler : Type := {
  CompiledModule : Type;
  podlang_text : list Podlang.Predicate -> string;
  load_module : list Podlang.Predicate -> Result CompiledModule;
  batch_id : CompiledModule -> Hash;
  predicate_ref_hash : CompiledModule -> string -> option Hash;
  rekey_module : CompiledModule;
  rekey_podlang_src : string;
}.

Section Load.
Context `{Env : SdkCalls.SdkEnv} `{PH : Podlang.PredicateHash, !ScriptEngine, !ModuleCompiler}.

Record LoadedModule : Type := MkLoaded {
  lm_actions : list SdkMeta.ActionMeta;
  lm_classes : list SdkMeta.ClassMeta;
  lm_podlang : string;
  lm_module : CompiledModule;
  lm_preds : list Podlang.Predicate;
  lm_index : gmap (string * nat) nat;
  lm_class_hashes : gmap string Hash;
  lm_script : string -> Result (list SdkCalls.Call);
}.


(** No sub-action runs at Load. *)
Definition no_sub (a : string) : eff Sdk.ExeContext (Podlang.Statement * option (Sdk.VarOrValue * (Value * nat * Sdk.PDict))) :=
  ethrow (Panic "exe phase").

Definition load_action (ast : string -> Result (list SdkCalls.Call)) (action : string) : Result Sdk.ActionContext :=
  let? calls := ast action in
  let '(r, c) := SdkCalls.run_script ∅ no_sub calls (Sdk.ActionContext_new action None) in
  rmap (fun _ => c) r.

(** [Loader::module] *)
Definition loader_module (l : SdkMeta.Loader) (handles : list Sdk.ActionContext) (ast : string -> Result (list SdkCalls.Call)) :
    Result LoadedModule :=
  let? preds := runwrap (SdkPodlang.fmt_module l handles) in
  let? module := runwrap (load_module preds) in
  let class_hashes := list_to_map (omap (fun c =>
    (fun h => (SdkMeta.c_name c, h)) <$> predicate_ref_hash module (Sdk.class_predicate_name (SdkMeta.c_name c)))
    (SdkMeta.l_classes l)) in
  Ok (MkLoaded (SdkMeta.module_actions l) (SdkMeta.l_classes l) (podlang_text preds) module preds
    (SdkMeta.object_index_class_st_index (SdkMeta.l_actions l)) class_hashes ast).

Definition load_module_from_src_actions (src : string) (actions : list string) : Result LoadedModule :=
  let? ast := compile src in
  let? handles := try_map (load_action ast) actions in
  let? loader := SdkMeta.Loader_new handles in
  loader_module loader handles ast.

Definition load_module_from_src_manifest (src : string) (manifest : Manifest) : Result LoadedModule :=
  let? m := load_module_from_src_actions src (ma_name <$> mf_actions manifest) in
  rensure (bool_decide ((list_to_set (mc_name <$> mf_classes manifest) : gset string)
                        = list_to_set (SdkMeta.c_name <$> lm_classes m))) "manifest classes are not the module's classes" ;?
  rensure (bool_decide (module_hash (mf_plugin manifest) = batch_id (lm_module m))) "manifest.plugin.module_hash is not the module's hash" ;?
  Ok m.

Definition action_hash (m : LoadedModule) (name : string) : option Hash :=
  '(_, a) ← list_find (fun a => SdkMeta.m_name a = name) (lm_actions m);
  match SdkMeta.m_kind a with
  | SdkMeta.ScriptAction => predicate_ref_hash (lm_module m) (SdkMeta.m_name a)
  | SdkMeta.RekeyAction => predicate_ref_hash rekey_module "Rekey"
  end.

Definition class_hash (m : LoadedModule) (name : string) : option Hash := lm_class_hashes m !! name.

Definition newline : string := String (Ascii.ascii_of_nat 10) EmptyString.
Definition newline_sep : string := newline +:+ "// ---" +:+ newline.

(** ** Predicates in podlang text *)

(** [str::find]: the first position at which [p] occurs. *)
Fixpoint find_sub (p l : list ascii) : option nat :=
  if decide (take (length p) l = p) then Some O
  else match l with [] => None | _ :: l' => S <$> find_sub p l' end.

(** The position of the parenthesis that closes the first one. *)
Fixpoint close_paren (depth : Z) (l : list ascii) : option nat :=
  match l with
  | [] => None
  | c :: l' =>
      if decide (c = "("%char) then S <$> close_paren (depth + 1) l'
      else if decide (c = ")"%char) then
        if (depth - 1 =? 0)%Z then Some O else S <$> close_paren (depth - 1) l'
      else S <$> close_paren depth l'
  end.

Definition extract_predicate (podlang_src name : string) : option string :=
  let src := los podlang_src in
  start ← find_sub (los (name +:+ "(")) src;
  let after_prefix := drop start src in
  combiner_pos ← match find_sub (los "= AND(") after_prefix with
                 | Some p => Some p
                 | None => find_sub (los "= OR(") after_prefix
                 end;
  paren ← find_sub (los "(") (drop combiner_pos after_prefix);
  let open := (combiner_pos + paren)%nat in
  i ← close_paren 0 (drop open after_prefix);
  Some (sol (DriverObjects.trim (take (open + i + 1) after_prefix))).

(** ** The catalog *)

Record Plugin : Type := MkPlugin { pl_path : string; pl_manifest : Manifest; pl_script : string }.

(** All of [ActionSummary]; the driver reads [row_summary]. *)
Record ActionRow : Type := MkRow {
  row_summary : ActionSummary;
  row_emoji : string;
  row_hash : string;
  row_description : string;
  row_source_path : string;
  row_predicate_source : string;
  row_args : list string;
}.

#[global] Instance QualifiedName_countable : Countable QualifiedName.
Proof.
  apply (inj_countable' (fun q => (plugin_name q, name q)) (fun '(p, n) => {| plugin_name := p; name := n |})).
  by intros [].
Defined.

Record PexeCatalog : Type := MkCatalog {
  c_plugins : list Plugin;
  c_actions : list ActionRow;
  actions_by_name : gmap QualifiedName ActionRow;
  action_plugin_idx : gmap QualifiedName nat;
  c_classes : list CatalogClass;
  classes_by_name : gmap QualifiedName CatalogClass;
  classes_by_hash : gmap Hash QualifiedName;
  combined_podlang_src : string;
  mock_proofs : bool;
}.

Definition validate_plugin_name (name : string) : Result unit :=
  match name with
  | EmptyString => Err (Fail "plugin name must be non-empty")
  | _ => if forallb (fun c => Sdk.is_ascii_alphanumeric c || bool_decide (c = "-"%char) || bool_decide (c = "_"%char)) (los name)
         then Ok tt else Err (Fail "plugin name may only contain ASCII letters, digits, '-', and '_'")
  end.

Definition check_plugin_names (plugins : list Plugin) : Result (gset string) :=
  try_fold (fun seen p =>
    let name := pi_name (mf_plugin (pl_manifest p)) in
    map_err (fun err => "invalid plugin name " +:+ name +:+ ": " +:+ err) (validate_plugin_name name) ;?
    rensure (negb (bool_decide (name ∈ seen))) "duplicate plugin name" ;?
    Ok ({[name]} ∪ seen)) ∅ plugins.

(** A map collected from an iterator keeps the last value of a key. *)
Definition collect {K A} `{Countable K} (l : list (K * A)) : gmap K A := foldl (fun m '(k, v) => <[k := v]> m) ∅ l.

Definition class_hash_map (m : LoadedModule) : Result (gmap string Hash) :=
  try_fold (fun hs c => let? h := ok_or (class_hash m (SdkMeta.c_name c)) "class has no compiled hash" in
                        Ok (<[SdkMeta.c_name c := h]> hs)) ∅ (lm_classes m).

(** [produced_by] and [consumed_by] are filled in later. *)
Definition class_entry (plugin_name : string) (m : LoadedModule) (hashes : gmap string Hash) (metas : gmap string ManifestClass)
    (c : SdkMeta.ClassMeta) : Result CatalogClass :=
  let bare := SdkMeta.c_name c in
  let? h := expect (hashes !! bare) "key not found" in
  Ok {| cc_class := {| plugin_name := plugin_name; name := bare |};
        cc_emoji := from_option mc_emoji "📦" (metas !! bare);
        cc_hash := hash_encode_hex h;
        cc_description := from_option mc_description "Unknown class object" (metas !! bare);
        cc_produced_by := []; cc_consumed_by := [];
        cc_predicate_source := default ("Is" +:+ bare +:+ "(state) = OR(...)")
                                 (extract_predicate (lm_podlang m) ("Is" +:+ bare)) |}.

Definition resolve_class (plugin_name : string) (hashes : gmap string Hash) (r : SdkMeta.ActionObjectRef) : Result ClassRef :=
  let? h := ok_or (hashes !! SdkMeta.o_class r) "action references a class which is not declared in this plugin" in
  Ok {| cr_class := {| plugin_name := plugin_name; name := SdkMeta.o_class r |}; cr_hash := hash_encode_hex h |}.

Definition slots_of (s : SdkMeta.MutatedObjectSlots) : Driver.MutatedObjectSlots :=
  {| Driver.input_index := SdkMeta.input_index s; Driver.output_index := SdkMeta.output_index s |}.

(** One action of a plugin: hidden ones are routed but not listed. *)
Definition add_action (p : Plugin) (m : LoadedModule) (hashes : gmap string Hash) (metas : gmap string ManifestAction) (idx : nat)
    (s : gmap QualifiedName nat * list ActionRow) (a : SdkMeta.ActionMeta) : Result (gmap QualifiedName nat * list ActionRow) :=
  let '(by_name, rows) := s in
  let plugin_name := pi_name (mf_plugin (pl_manifest p)) in
  let bare := SdkMeta.m_name a in
  let qname := {| plugin_name := plugin_name; name := bare |} in
  rensure (negb (bool_decide (is_Some (by_name !! qname)))) "internal: duplicate action qualified name" ;?
  let by_name := <[qname := idx]> by_name in
  let meta := metas !! bare in
  let? inputs := try_map (resolve_class plugin_name hashes) (SdkMeta.total_inputs a) in
  let? outputs := try_map (resolve_class plugin_name hashes) (SdkMeta.total_outputs a) in
  if from_option hidden false meta then Ok (by_name, rows)
  else
    let? (source, description) :=
      match SdkMeta.m_kind a with
      | SdkMeta.ScriptAction =>
          Ok (default (bare +:+ "(state) = AND(...)") (extract_predicate (lm_podlang m) bare), "Pexe action")
      | SdkMeta.RekeyAction =>
          let? first := expect (head inputs) "index out of bounds" in
          Ok (rekey_podlang_src, "Replace the key of a " +:+ name (cr_class first) +:+ " object with a fresh random key.")
      end in
    let? slots := SdkMeta.total_mutations a in
    Ok (by_name, app rows
          [MkRow {| as_action := qname; total_inputs := inputs; total_outputs := outputs; as_mutated_objects := slots_of <$> slots |}
             (from_option ma_emoji "⚙️" meta)
             (from_option hash_encode_hex EmptyString (action_hash m bare))
             (from_option ma_description description meta)
             (pl_path p) source (SdkMeta.m_args a)]).

Record Building : Type := MkBuilding {
  b_rows : list ActionRow;
  b_classes : list CatalogClass;
  b_podlang : string;
  b_plugins : list Plugin;
  b_idx : gmap QualifiedName nat;
}.

Definition add_plugin (b : Building) (p : Plugin) : Result Building :=
  let mf := pl_manifest p in
  let plugin_name := pi_name (mf_plugin mf) in
  let? m := map_err (fun err => "failed to load plugin " +:+ plugin_name +:+ ": " +:+ err)
    (load_module_from_src_manifest (pl_script p) mf) in
  let podlang := (if bool_decide (b_podlang b = EmptyString) then EmptyString else b_podlang b +:+ newline_sep)
                 +:+ "// plugin: " +:+ plugin_name +:+ newline +:+ lm_podlang m in
  let? hashes := class_hash_map m in
  let? classes := try_map (class_entry plugin_name m hashes (collect ((fun c => (mc_name c, c)) <$> mf_classes mf))) (lm_classes m) in
  let? (idx, rows) := try_fold (add_action p m hashes (collect ((fun a => (ma_name a, a)) <$> mf_actions mf)) (length (b_plugins b)))
    (b_idx b, b_rows b) (lm_actions m) in
  Ok (MkBuilding rows (app (b_classes b) classes) podlang (app (b_plugins b) [p]) idx).

Definition uses (refs : ActionSummary -> list ClassRef) (class : QualifiedName) (rows : list ActionRow) : list QualifiedName :=
  (fun a => as_action (row_summary a))
    <$> filter (fun a => existsb (fun r => bool_decide (cr_class r = class)) (refs (row_summary a)) = true) rows.

Definition with_users (rows : list ActionRow) (c : CatalogClass) : CatalogClass :=
  {| cc_class := cc_class c; cc_emoji := cc_emoji c; cc_hash := cc_hash c; cc_description := cc_description c;
     cc_produced_by := uses total_outputs (cc_class c) rows; cc_consumed_by := uses total_inputs (cc_class c) rows;
     cc_predicate_source := cc_predicate_source c |}.

(** By name, then by plugin. *)
Definition class_le (a b : CatalogClass) : Prop :=
  if decide (name (cc_class a) = name (cc_class b))
  then String.le (plugin_name (cc_class a)) (plugin_name (cc_class b))
  else String.le (name (cc_class a)) (name (cc_class b)).
#[global] Instance class_le_dec a b : Decision (class_le a b).
Proof. unfold class_le. case_decide; apply _. Defined.

Definition from_plugins (plugins : list Plugin) (mock : bool) : Result PexeCatalog :=
  check_plugin_names plugins ;?
  let? b := try_fold add_plugin (MkBuilding [] [] EmptyString [] ∅) plugins in
  let classes := merge_sort class_le (with_users (b_rows b) <$> b_classes b) in
  Ok (MkCatalog (b_plugins b) (b_rows b) (collect ((fun a => (as_action (row_summary a), a)) <$> b_rows b)) (b_idx b) classes
        (collect ((fun c => (cc_class c, c)) <$> classes))
        (collect (omap (fun c => match decode_hash_hex (cc_hash c) with Ok h => Some (h, cc_class c) | Err _ => None end) classes))
        (b_podlang b) mock).

Definition load_plugin_from_bytes `{Archives} (path : string) (bytes : list byte) : Result Plugin :=
  let? (manifest, script) := map_err (fun err => "failed to unpack pexe " +:+ path +:+ ": " +:+ err) (unpack bytes) in
  Ok (MkPlugin path manifest script).

Definition from_bytes `{Archives} (entries : list (string * list byte)) (mock : bool) : Result PexeCatalog :=
  let? plugins := try_map (fun '(path, bytes) => load_plugin_from_bytes path bytes) entries in
  from_plugins plugins mock.

(** [Path::extension] of a file name. *)
Definition file_extension (file_name : string) : option string :=
  match rsplit_once "."%char (los file_name) with
  | Some (_ :: _, ext) => Some (sol ext)
  | _ => None
  end.

(** The directory as a map from file names to contents or a failed read; [None]
    when it does not exist. *)
Definition discover_plugins `{Archives} (dir : option (gmap string (Result (list byte)))) : Result (list Plugin) :=
  match dir with
  | None => Ok []
  | Some files =>
      let entries := merge_sort DriverStore.name_le
        (map_to_list (filter (fun kv => file_extension (fst kv) = Some PEXE_EXTENSION) files)) in
      try_map (fun '(path, contents) =>
        let? contents := contents in
        let? bytes := read_pexe_file contents in load_plugin_from_bytes path bytes) entries
  end.

(** The directory is readable, and a file reads the same throughout: each
    carries the outcome of its read. *)
Definition load_with `{Archives} (dir : option (gmap string (Result (list byte)))) (mock : bool) : Result PexeCatalog :=
  let? plugins := discover_plugins dir in from_plugins plugins mock.

(** *** The trait [ActionCatalog] *)

Definition catalog_of (cat : PexeCatalog) : ActionCatalog :=
  {| list_actions := row_summary <$> c_actions cat;
     get_action q := row_summary <$> actions_by_name cat !! q;
     list_classes := c_classes cat;
     get_class q := classes_by_name cat !! q |}.

Definition get_class_by_hash (cat : PexeCatalog) (h : Hash) : option CatalogClass :=
  qname ← classes_by_hash cat !! h; classes_by_name cat !! qname.

Definition generated_podlang (cat : PexeCatalog) : option string :=
  if bool_decide (combined_podlang_src cat = EmptyString) then None else Some (combined_podlang_src cat).

(** The plugin that an action is executed with, loaded again. *)
Definition executing_module (cat : PexeCatalog) (action : QualifiedName) : Result LoadedModule :=
  let? idx := ok_or (action_plugin_idx cat !! action) "no plugin provides action" in
  let? p := expect (c_plugins cat !! idx) "index out of bounds" in
  map_err (fun err => "failed to reload plugin for execution: " +:+ err) (load_module_from_src_manifest (pl_script p) (pl_manifest p)).

(** ** Facts about the pieces *)

Lemma map_err_Ok {A} f (c : Result A) a : map_err f c = Ok a <-> c = Ok a.
Proof. destruct c as [|[]]; simpl; split; congruence. Qed.

Lemma rensure_Ok b msg u : rensure b msg = Ok u <-> b = true.
Proof. unfold rensure. destruct b, u; split; done. Qed.

Lemma ok_or_Ok {A} (o : option A) msg a : ok_or o msg = Ok a <-> o = Some a.
Proof. unfold ok_or. destruct o; split; congruence. Qed.

Lemma collect_app {K A} `{Countable K} (l k : list (K * A)) : collect (app l k) = foldl (fun m '(k, v) => <[k := v]> m) (collect l) k.
Proof. apply foldl_app. Qed.

(** Without repeated keys every pair is found. *)
Lemma collect_NoDup {K A} `{Countable K} (l : list (K * A)) k v :
  NoDup (fst <$> l) -> collect l !! k = Some v <-> (k, v) ∈ l.
Proof.
  induction l as [|[k' v'] l IH] using rev_ind; [intros _; unfold collect; simpl; rewrite lookup_empty; set_solver|].
  rewrite fmap_app, NoDup_app. intros (Hl & Hnew & _). rewrite collect_app. simpl.
  rewrite lookup_insert_Some, elem_of_app, list_elem_of_singleton, <-IH by done. split.
  - intros [[-> ->]|[Hne Hv]]; auto.
  - intros [Hv|[= -> ->]]; [|by left]. right. split; [|done]. intros ->.
    apply (Hnew k); [|simpl; set_solver]. apply list_elem_of_fmap. exists (k, v). split; [done|]. by apply IH.
Qed.

(** Names of plugins are different. *)
Lemma check_plugin_names_NoDup plugins seen :
  check_plugin_names plugins = Ok seen -> NoDup ((fun p => pi_name (mf_plugin (pl_manifest p))) <$> plugins)
    /\ Forall (fun p => validate_plugin_name (pi_name (mf_plugin (pl_manifest p))) = Ok tt) plugins.
Proof.
  intros Hc. unfold check_plugin_names in Hc.
  eapply (try_fold_inv _ (fun pre (seen : gset string) => (forall n, n ∈ seen <-> n ∈ (fun p => pi_name (mf_plugin (pl_manifest p))) <$> pre)
    /\ NoDup ((fun p => pi_name (mf_plugin (pl_manifest p))) <$> pre)
    /\ Forall (fun p => validate_plugin_name (pi_name (mf_plugin (pl_manifest p))) = Ok tt) pre)) in Hc as (_ & ? & ?); [done| |].
  - split_and!; [set_solver|constructor|constructor].
  - intros pre p s s' (Hs & Hn & Hv) Hp. inv_ok. apply map_err_Ok in Ha. apply rensure_Ok, negb_true_iff, bool_decide_eq_false in Ha0.
    destruct a. split_and!.
    + intros n. rewrite fmap_app. csimpl. set_solver.
    + rewrite fmap_app. csimpl. apply NoDup_app. split_and!; [done| |apply NoDup_singleton]. set_solver.
    + apply Forall_app. split; [done|]. by repeat constructor.
Qed.

(** ** What loading gives *)

Lemma load_manifest_loader src mf m :
  load_module_from_src_manifest src mf = Ok m ->
  exists handles l, SdkMeta.Loader_new handles = Ok l /\ lm_actions m = SdkMeta.module_actions l /\ lm_classes m = SdkMeta.l_classes l.
Proof.
  unfold load_module_from_src_manifest, load_module_from_src_actions, loader_module. intros Hm. inv_ok. eauto.
Qed.

Lemma loaded_classes_NoDup src mf m : load_module_from_src_manifest src mf = Ok m -> NoDup (SdkMeta.c_name <$> lm_classes m).
Proof.
  intros (handles & l & Hl & _ & ->)%load_manifest_loader. unfold SdkMeta.Loader_new in Hl. inv_ok. apply SdkMeta.classes_NoDup.
Qed.

(** A class reference and the object reference it stands for. *)
Definition refers (pname : string) (hashes : gmap string Hash) (o : SdkMeta.ActionObjectRef) (r : ClassRef) : Prop :=
  cr_class r = {| plugin_name := pname; name := SdkMeta.o_class o |}
  /\ exists h, hashes !! SdkMeta.o_class o = Some h /\ cr_hash r = hash_encode_hex h.

Lemma resolve_refers pname hashes os rs : try_map (resolve_class pname hashes) os = Ok rs -> Forall2 (refers pname hashes) os rs.
Proof.
  rewrite try_map_Ok. intros Hf. eapply Forall2_impl; [exact Hf|]. intros o r Hr. unfold resolve_class in Hr. inv_ok.
  apply ok_or_Ok in Ha. split; [done|]. simpl. eauto.
Qed.

Lemma refers_det pname hashes o r r' : refers pname hashes o r -> refers pname hashes o r' -> r = r'.
Proof. intros (Hc & h & Hh & Ht) (Hc' & h' & Hh' & Ht'). destruct r, r'. simpl in *. congruence. Qed.

(** A listed action, the plugin it comes from and its metadata. *)
Record row_of (p : Plugin) (m : LoadedModule) (row : ActionRow) : Prop := {
  ro_load : load_module_from_src_manifest (pl_script p) (pl_manifest p) = Ok m;
  ro_meta : exists a hashes, a ∈ lm_actions m /\ class_hash_map m = Ok hashes
    /\ as_action (row_summary row) = {| plugin_name := pi_name (mf_plugin (pl_manifest p)); name := SdkMeta.m_name a |}
    /\ Forall2 (refers (pi_name (mf_plugin (pl_manifest p))) hashes) (SdkMeta.total_inputs a) (total_inputs (row_summary row))
    /\ Forall2 (refers (pi_name (mf_plugin (pl_manifest p))) hashes) (SdkMeta.total_outputs a) (total_outputs (row_summary row))
    /\ exists slots, SdkMeta.total_mutations a = Ok slots /\ as_mutated_objects (row_summary row) = slots_of <$> slots;
}.

(** One class of a plugin. *)
Definition class_of (p : Plugin) (m : LoadedModule) (c : CatalogClass) : Prop :=
  exists hashes cm h, load_module_from_src_manifest (pl_script p) (pl_manifest p) = Ok m /\ class_hash_map m = Ok hashes
    /\ cm ∈ lm_classes m /\ hashes !! SdkMeta.c_name cm = Some h
    /\ cc_class c = {| plugin_name := pi_name (mf_plugin (pl_manifest p)); name := SdkMeta.c_name cm |} /\ cc_hash c = hash_encode_hex h.

Abbreviation pname p := (pi_name (mf_plugin (pl_manifest p))).

(** The catalog while it is built: [pre] are the plugins so far. *)
Record building_ok (pre : list Plugin) (b : Building) : Prop := {
  bo_plugins : b_plugins b = pre;
  bo_rows : Forall (fun row => exists idx p m, pre !! idx = Some p /\ row_of p m row
    /\ b_idx b !! as_action (row_summary row) = Some idx) (b_rows b);
  bo_rows_NoDup : NoDup ((fun row => as_action (row_summary row)) <$> b_rows b);
  bo_idx q idx : b_idx b !! q = Some idx -> exists p, pre !! idx = Some p /\ plugin_name q = pname p;
  bo_routes idx p m a : pre !! idx = Some p -> load_module_from_src_manifest (pl_script p) (pl_manifest p) = Ok m -> a ∈ lm_actions m ->
    b_idx b !! {| plugin_name := pname p; name := SdkMeta.m_name a |} = Some idx;
  bo_classes : Forall (fun c => exists p m, p ∈ pre /\ class_of p m c) (b_classes b);
  bo_classes_NoDup : NoDup (cc_class <$> b_classes b);
  bo_complete : Forall (fun p => exists m, load_module_from_src_manifest (pl_script p) (pl_manifest p) = Ok m
    /\ NoDup (SdkMeta.m_name <$> lm_actions m)
    /\ forall cm, cm ∈ lm_classes m -> {| plugin_name := pname p; name := SdkMeta.c_name cm |} ∈ cc_class <$> b_classes b) pre;
}.

Abbreviation qname row := (as_action (row_summary row)).

(** What one plugin's actions add to the rows and the routes. *)
Record added (p : Plugin) (m : LoadedModule) (idx : nat) (l : list SdkMeta.ActionMeta)
    (by_name by_name' : gmap QualifiedName nat) (new : list ActionRow) : Prop := {
  ad_all a : a ∈ l -> by_name' !! {| plugin_name := pname p; name := SdkMeta.m_name a |} = Some idx;
  ad_fresh : NoDup (SdkMeta.m_name <$> l) /\ forall a, a ∈ l -> by_name !! {| plugin_name := pname p; name := SdkMeta.m_name a |} = None;
  ad_rows : Forall (fun row => row_of p m row /\ by_name' !! qname row = Some idx /\ by_name !! qname row = None) new;
  ad_NoDup : NoDup ((fun row => qname row) <$> new);
  ad_keeps q i : by_name !! q = Some i -> by_name' !! q = Some i;
  ad_routes q i : by_name' !! q = Some i -> by_name !! q = Some i \/ i = idx /\ plugin_name q = pname p;
}.

Lemma add_action_added p m hashes metas idx by_name rows a s' :
  load_module_from_src_manifest (pl_script p) (pl_manifest p) = Ok m -> class_hash_map m = Ok hashes -> a ∈ lm_actions m ->
  add_action p m hashes metas idx (by_name, rows) a = Ok s' ->
  exists new, snd s' = app rows new /\ added p m idx [a] by_name (fst s') new.
Proof.
  intros Hm Hh Ha Hadd. unfold add_action in Hadd. inv_ok. apply rensure_Ok, negb_true_iff, bool_decide_eq_false in Ha0.
  rewrite <-eq_None_not_Some in Ha0. set (q := {| plugin_name := _; name := _ |}) in *.
  apply resolve_refers in Ha1, Ha2.
  assert (Hkeep : forall q' i, by_name !! q' = Some i -> <[q := idx]> by_name !! q' = Some i).
  { intros q' i Hq. rewrite lookup_insert_ne; [done|]. intros ->. congruence. }
  assert (Hroute : forall q' i, <[q := idx]> by_name !! q' = Some i -> by_name !! q' = Some i \/ i = idx /\ plugin_name q' = pname p).
  { intros q' i [[<- <-]|[_ Hq]]%lookup_insert_Some; auto. }
  assert (Hall : forall a', a' ∈ [a] -> <[q := idx]> by_name !! {| plugin_name := pname p; name := SdkMeta.m_name a' |} = Some idx).
  { intros a' ->%list_elem_of_singleton. apply lookup_insert_eq. }
  assert (Hfresh : NoDup (SdkMeta.m_name <$> [a])
    /\ forall a', a' ∈ [a] -> by_name !! {| plugin_name := pname p; name := SdkMeta.m_name a' |} = None).
  { split; [apply NoDup_singleton|]. by intros a' ->%list_elem_of_singleton. }
  destruct (from_option hidden false (metas !! _)); inv_ok.
  - exists []. split; [by rewrite app_nil_r|]. split; [done|done|constructor|constructor|done|done].
  - match goal with Hd : (let '(_, _) := ?d in _) = Ok _ |- _ => destruct d as [source description] end. inv_ok.
    eexists [_]. split; [reflexivity|]. split; [done|done| |apply NoDup_singleton|done|done].
    constructor; [|constructor]. simpl. split_and!; [|by apply lookup_insert_eq|done].
    split; [done|]. exists a, hashes. split_and!; try done. simpl. eauto.
Qed.

Lemma add_actions_added p m hashes metas idx l by_name rows s' :
  load_module_from_src_manifest (pl_script p) (pl_manifest p) = Ok m -> class_hash_map m = Ok hashes -> l ⊆ lm_actions m ->
  try_fold (add_action p m hashes metas idx) (by_name, rows) l = Ok s' ->
  exists new, snd s' = app rows new /\ added p m idx l by_name (fst s') new.
Proof.
  intros Hm Hh. revert by_name rows. induction l as [|a l IH]; intros by_name rows Hl Hf; simpl in Hf.
  - inv_ok. exists []. split; [by rewrite app_nil_r|]. split; auto; try constructor; try constructor; set_solver.
  - assert (Hin : a ∈ lm_actions m) by set_solver. assert (Hsub : l ⊆ lm_actions m) by set_solver.
    apply rbind_Ok in Hf as ([by1 rows1] & Ha & Hk).
    destruct (add_action_added _ _ _ _ _ _ _ _ _ Hm Hh Hin Ha) as (new & Hrows & Had). simpl in *.
    destruct (IH by1 rows1 Hsub Hk) as (new' & Hrows' & Had').
    exists (app new new'). split; [by rewrite Hrows', Hrows, (assoc_L app)|]. destruct Had as [Hal [_ Hfr] Hr Hn Hk1 Hro], Had' as [Hal' [Hfn' Hfr'] Hr' Hn' Hk' Hro']. split.
    + intros a' [->|Ha']%elem_of_cons; [apply Hk', Hal; set_solver|by apply Hal'].
    + split.
      * csimpl. constructor; [|done]. intros (a' & Heq & Ha')%list_elem_of_fmap. specialize (Hfr' _ Ha'). rewrite <-Heq in Hfr'.
        rewrite Hal in Hfr' by set_solver. done.
      * intros a' [->|Ha']%elem_of_cons; [apply Hfr; set_solver|]. specialize (Hfr' _ Ha').
        apply eq_None_not_Some. intros [i Hi%Hk1]. congruence.
    + apply Forall_app. split.
      * eapply Forall_impl; [exact Hr|]. intros row (Hx1 & Hx2 & Hx3). auto.
      * eapply Forall_impl; [exact Hr'|]. intros row (Hx1 & Hx2 & Hx3). split_and!; try done.
        destruct (by_name !! qname row) eqn:Eb; [|done]. apply Hk1 in Eb. congruence.
    + rewrite fmap_app. apply NoDup_app. split_and!; try done. intros q (row & -> & Hrow)%list_elem_of_fmap (row' & Heq & Hrow')%list_elem_of_fmap.
      rewrite Forall_forall in Hr, Hr'. destruct (Hr _ Hrow) as (_ & Hinr & _). destruct (Hr' _ Hrow') as (_ & _ & Hnone). congruence.
    + auto.
    + intros q i Hq. destruct (Hro' _ _ Hq) as [Hx|Hx]; auto.
Qed.

(** Classes of one plugin. *)
Lemma class_entries p m hashes metas cs :
  load_module_from_src_manifest (pl_script p) (pl_manifest p) = Ok m -> class_hash_map m = Ok hashes ->
  try_map (class_entry (pname p) m hashes metas) (lm_classes m) = Ok cs ->
  Forall (class_of p m) cs /\ cc_class <$> cs = (fun cm => {| plugin_name := pname p; name := SdkMeta.c_name cm |}) <$> lm_classes m.
Proof.
  intros Hm Hh Hcs. apply try_map_Ok in Hcs.
  assert (Hone : Forall2 (fun cm c => class_of p m c /\ cc_class c = {| plugin_name := pname p; name := SdkMeta.c_name cm |}) (lm_classes m) cs).
  { apply Forall2_same_length_lookup. split; [by eapply Forall2_length|]. intros i cm c Hcm Hc.
    pose proof (Forall2_lookup_lr _ _ _ _ _ _ Hcs Hcm Hc) as He. unfold class_entry in He. inv_ok.
    unfold expect in Ha. destruct (hashes !! SdkMeta.c_name cm) as [h|] eqn:E; [|done]. injection Ha as <-. split; [|done].
    exists hashes, cm, h. split_and!; try done. by eapply list_elem_of_lookup_2. }
  clear Hcs. induction Hone as [|cm c cms cs [Hc Hq] _ [IH1 IH2]]; [split; [constructor|done]|].
  split; [by constructor|]. csimpl. by rewrite Hq, IH2.
Qed.

Lemma add_plugin_ok pre b p b' :
  building_ok pre b -> pname p ∉ (fun p => pname p) <$> pre -> add_plugin b p = Ok b' -> building_ok (app pre [p]) b'.
Proof.
  intros [Hpl Hrows Hnd Hidx Hroutes Hcls Hcnd Hcomp] Hnew Hadd. unfold add_plugin in Hadd.
  apply rbind_Ok in Hadd as (m & Hm%map_err_Ok & Hadd). apply rbind_Ok in Hadd as (hashes & Hh & Hadd).
  apply rbind_Ok in Hadd as (cs & Hcs & Hadd). apply rbind_Ok in Hadd as ([by1 rows1] & Hf & Hadd). injection Hadd as <-.
  destruct (class_entries _ _ _ _ _ Hm Hh Hcs) as [Hco Hcc].
  destruct (add_actions_added _ _ _ _ _ _ _ _ _ Hm Hh (reflexivity _) Hf) as (new & Hrows1 & [Hal [Hfn _] Hr Hn Hk Hro]).
  simpl in *. subst rows1 pre. set (idx := length (b_plugins b)) in *.
  assert (Hlast : app (b_plugins b) [p] !! idx = Some p) by (by apply list_lookup_middle).
  split; simpl.
  - done.
  - apply Forall_app. split.
    + eapply Forall_impl; [exact Hrows|]. intros row (i & p' & m' & Hi & Hro' & Hq). exists i, p', m'. split_and!; auto. by apply lookup_app_l_Some.
    + eapply Forall_impl; [exact Hr|]. intros row (Hx & Hy & _). eauto 6.
  - rewrite fmap_app. apply NoDup_app. split_and!; [done| |done].
    intros q (row & -> & Hrow)%list_elem_of_fmap (row' & Heq & Hrow')%list_elem_of_fmap. rewrite Forall_forall in Hrows, Hr.
    destruct (Hrows _ Hrow) as (? & ? & ? & _ & _ & Hx). destruct (Hr _ Hrow') as (_ & _ & Hy). congruence.
  - intros q i [Hq|[-> Hq]]%Hro; [|eauto]. destruct (Hidx _ _ Hq) as (p' & Hp' & Hn'). exists p'. split; [by apply lookup_app_l_Some|done].
  - intros i p' m' a [Hi|[Hi Hp']]%lookup_app_Some Hm' Ha; [eauto|]. apply list_lookup_singleton_Some in Hp' as [Hz <-].
    assert (i = idx) as -> by (unfold idx; lia). rewrite Hm in Hm'. injection Hm' as <-. auto.
  - apply Forall_app. split.
    + eapply Forall_impl; [exact Hcls|]. intros c (p' & m' & Hp' & Hc). exists p', m'. split; [set_solver|done].
    + eapply Forall_impl; [exact Hco|]. intros c Hc. exists p, m. split; [set_solver|done].
  - rewrite fmap_app, Hcc. apply NoDup_app. split_and!; [done| |].
    + intros q (c & -> & Hc)%list_elem_of_fmap (cm & Heq & _)%list_elem_of_fmap. rewrite Forall_forall in Hcls.
      destruct (Hcls _ Hc) as (p' & m' & Hp' & (? & ? & ? & _ & _ & _ & _ & Hq & _)). apply Hnew, list_elem_of_fmap. exists p'.
      split; [congruence|done].
    + pose proof (loaded_classes_NoDup _ _ _ Hm) as Hnd'.
      change (NoDup ((fun n => {| plugin_name := pname p; name := n |}) ∘ SdkMeta.c_name <$> lm_classes m)). rewrite list_fmap_compose.
      apply NoDup_fmap_2; [|done]. by intros ? ? [=].
  - apply Forall_app. split.
    + eapply Forall_impl; [exact Hcomp|]. intros p' (m' & Hm' & Hnm & Hc). exists m'. split; [done|]. split; [done|]. intros cm Hcm. rewrite fmap_app. set_solver.
    + constructor; [|constructor]. exists m. split; [done|]. split; [done|]. intros cm Hcm. rewrite fmap_app, Hcc. apply elem_of_app. right.
      apply list_elem_of_fmap. eauto.
Qed.
(** ** The finished catalog *)

Lemma collect_elem {K A} `{Countable K} (l : list (K * A)) k v : collect l !! k = Some v -> (k, v) ∈ l.
Proof.
  induction l as [|[k' v'] l IH] using rev_ind; [unfold collect; simpl; by rewrite lookup_empty|].
  rewrite collect_app. simpl. rewrite lookup_insert_Some, elem_of_app, list_elem_of_singleton.
  intros [[-> ->]|[_ Hv]]; auto.
Qed.

(** Pairs made of a value and its own key. *)
Lemma collect_keyed {K A} `{Countable K} (key : A -> K) l a :
  NoDup (key <$> l) -> collect ((fun a => (key a, a)) <$> l) !! key a = Some a <-> a ∈ l.
Proof.
  intros Hn. rewrite collect_NoDup.
  - rewrite list_elem_of_fmap. split; [intros (a' & [= _ ->] & Ha); done|eauto].
  - by rewrite <-list_fmap_compose.
Qed.

Lemma class_hash_map_lookup m hashes c h :
  class_hash_map m = Ok hashes -> hashes !! c = Some h -> class_hash m c = Some h /\ c ∈ SdkMeta.c_name <$> lm_classes m.
Proof.
  intros Hm Hl. unfold class_hash_map in Hm.
  eapply (try_fold_inv _ (fun pre (hs : gmap string Hash) => forall c h, hs !! c = Some h -> class_hash m c = Some h /\ c ∈ SdkMeta.c_name <$> pre)) in Hm.
  - by apply Hm.
  - intros ? ? Hx. by rewrite lookup_empty in Hx.
  - intros pre cm hs hs' Hpre Hs c' h' Hc. inv_ok. apply ok_or_Ok in Ha. rewrite fmap_app. csimpl.
    apply lookup_insert_Some in Hc as [[<- <-]|[_ Hc]]; [set_solver|]. apply Hpre in Hc. set_solver.
  - exact Hl.
Qed.

(** The catalog that a completed building gives. *)
Record finished (plugins : list Plugin) (cat : PexeCatalog) (b : Building) : Prop := {
  fi_building : building_ok plugins b;
  fi_names : NoDup ((fun p => pname p) <$> plugins);
  fi_plugins : c_plugins cat = plugins;
  fi_actions : c_actions cat = b_rows b;
  fi_idx : action_plugin_idx cat = b_idx b;
  fi_by_name : actions_by_name cat = collect ((fun a => (qname a, a)) <$> b_rows b);
  fi_classes : c_classes cat ≡ₚ with_users (b_rows b) <$> b_classes b;
  fi_by_class : classes_by_name cat = collect ((fun c => (cc_class c, c)) <$> c_classes cat);
  fi_by_hash : classes_by_hash cat
    = collect (omap (fun c => match decode_hash_hex (cc_hash c) with Ok h => Some (h, cc_class c) | Err _ => None end) (c_classes cat));
}.

Lemma from_plugins_finished plugins mock cat : from_plugins plugins mock = Ok cat -> exists b, finished plugins cat b.
Proof.
  unfold from_plugins. intros Hc. apply rbind_Ok in Hc as (seen & [Hn _]%check_plugin_names_NoDup & Hc).
  apply rbind_Ok in Hc as (b & Hb & Hc). injection Hc as <-.
  eapply (try_fold_inv _ (fun pre b => NoDup ((fun p => pname p) <$> pre) -> building_ok pre b)) in Hb; [| | |exact Hn].
  - exists b. split; try done; [apply (bo_plugins _ _ Hb)|apply merge_sort_Permutation].
  - intros _. by split; simpl; try constructor; intros *; rewrite ?lookup_empty, ?lookup_nil.
  - intros pre p t t' Hpre Hadd Hnd. rewrite fmap_app, NoDup_app in Hnd. destruct Hnd as (Hnd & Hnew & _).
    eapply add_plugin_ok; [by apply Hpre| |done]. csimpl in Hnew. set_solver.
Qed.

(** The class reference [r] of the catalog for the reference [o] of the SDK. *)
Definition stands_for (cat : PexeCatalog) (m : LoadedModule) (plugin : string) (o : SdkMeta.ActionObjectRef) (r : ClassRef) : Prop :=
  cr_class r = {| plugin_name := plugin; name := SdkMeta.o_class o |}
  /\ exists c h, get_class (catalog_of cat) (cr_class r) = Some c /\ c ∈ list_classes (catalog_of cat) /\ cc_class c = cr_class r
       /\ cc_hash c = cr_hash r /\ class_hash m (SdkMeta.o_class o) = Some h /\ cr_hash r = hash_encode_hex h.

(** A listed action is found under its name and executed with the plugin of
    that name; what it says of classes and slots is what the module says. *)
Record row_consistent (cat : PexeCatalog) (row : ActionRow) : Prop := {
  rc_found : get_action (catalog_of cat) (qname row) = Some (row_summary row);
  rc_module : exists m a, executing_module cat (qname row) = Ok m /\ a ∈ lm_actions m /\ SdkMeta.m_name a = name (qname row)
    /\ Forall2 (stands_for cat m (plugin_name (qname row))) (SdkMeta.total_inputs a) (total_inputs (row_summary row))
    /\ Forall2 (stands_for cat m (plugin_name (qname row))) (SdkMeta.total_outputs a) (total_outputs (row_summary row));
  rc_slots : Forall (fun s => exists r, total_inputs (row_summary row) !! Driver.input_index s = Some r
    /\ total_outputs (row_summary row) !! Driver.output_index s = Some r) (as_mutated_objects (row_summary row));
}.

(** A listed class is found under its name and lists its users. *)
Record class_consistent (cat : PexeCatalog) (c : CatalogClass) : Prop := {
  cl_found : get_class (catalog_of cat) (cc_class c) = Some c;
  cl_produced q : q ∈ cc_produced_by c <-> exists row r, row ∈ c_actions cat /\ qname row = q
    /\ r ∈ total_outputs (row_summary row) /\ cr_class r = cc_class c;
  cl_consumed q : q ∈ cc_consumed_by c <-> exists row r, row ∈ c_actions cat /\ qname row = q
    /\ r ∈ total_inputs (row_summary row) /\ cr_class r = cc_class c;
}.

Lemma uses_spec refs class rows q :
  q ∈ uses refs class rows <-> exists row r, row ∈ rows /\ qname row = q /\ r ∈ refs (row_summary row) /\ cr_class r = class.
Proof.
  unfold uses. rewrite list_elem_of_fmap. setoid_rewrite list_elem_of_filter. setoid_rewrite existsb_exists.
  setoid_rewrite bool_decide_eq_true. setoid_rewrite <-list_elem_of_In. naive_solver.
Qed.

Section Finished.
Context (plugins : list Plugin) (cat : PexeCatalog) (b : Building) (F : finished plugins cat b).

Lemma same_plugin p p' : p ∈ plugins -> p' ∈ plugins -> pname p = pname p' -> p = p'.
Proof.
  intros [i Hi]%list_elem_of_lookup [j Hj]%list_elem_of_lookup Heq. pose proof (fi_names _ _ _ F) as Hn.
  assert (i = j) as <-; [|congruence].
  apply (NoDup_lookup _ _ _ (pname p) Hn); rewrite list_lookup_fmap; [by rewrite Hi|by rewrite Hj, Heq].
Qed.

Lemma listed_classes_NoDup : NoDup (cc_class <$> c_classes cat).
Proof.
  rewrite (fi_classes _ _ _ F). rewrite <-list_fmap_compose. exact (bo_classes_NoDup _ _ (fi_building _ _ _ F)).
Qed.

Lemma listed_class_found c : c ∈ c_classes cat -> get_class (catalog_of cat) (cc_class c) = Some c.
Proof. intros Hc. simpl. rewrite (fi_by_class _ _ _ F). apply collect_keyed; [apply listed_classes_NoDup|done]. Qed.

Lemma refers_stands p m hashes o r :
  p ∈ plugins -> load_module_from_src_manifest (pl_script p) (pl_manifest p) = Ok m -> class_hash_map m = Ok hashes ->
  refers (pname p) hashes o r -> stands_for cat m (pname p) o r.
Proof.
  intros Hp Hm Hh (Hc & h & Ho & Hr). destruct (class_hash_map_lookup _ _ _ _ Hh Ho) as [Hch Hin].
  pose proof (fi_building _ _ _ F) as B. pose proof (bo_complete _ _ B) as Hcomp. rewrite Forall_forall in Hcomp.
  destruct (Hcomp _ Hp) as (m' & Hm' & _ & Hall). rewrite Hm in Hm'. injection Hm' as <-.
  apply list_elem_of_fmap in Hin as (cm & Hcm & Hin). apply Hall, list_elem_of_fmap in Hin as (c & Heq & Hinc).
  pose proof (bo_classes _ _ B) as Hcls. rewrite Forall_forall in Hcls.
  destruct (Hcls _ Hinc) as (p' & m' & Hp' & (hashes' & cm' & h' & Hm' & Hh' & _ & Hl' & Hq & Hx)).
  assert (p' = p) as -> by (apply same_plugin; [done..|congruence]). rewrite Hm in Hm'. injection Hm' as <-.
  rewrite Hh in Hh'. injection Hh' as <-. split; [done|].
  assert (Hlisted : with_users (b_rows b) c ∈ c_classes cat).
  { rewrite (fi_classes _ _ _ F). apply list_elem_of_fmap. eauto. }
  assert (Hname : cc_class (with_users (b_rows b) c) = cr_class r) by (simpl; congruence).
  exists (with_users (b_rows b) c), h. split_and!; try done; [by rewrite <-Hname; apply listed_class_found|].
  simpl. congruence.
Qed.

Lemma routed_module p m a :
  p ∈ plugins -> load_module_from_src_manifest (pl_script p) (pl_manifest p) = Ok m -> a ∈ lm_actions m ->
  executing_module cat {| plugin_name := pname p; name := SdkMeta.m_name a |} = Ok m.
Proof.
  intros [i Hi]%list_elem_of_lookup Hm Ha. unfold executing_module. rewrite (fi_idx _ _ _ F).
  rewrite (bo_routes _ _ (fi_building _ _ _ F) _ _ _ _ Hi Hm Ha). simpl. rewrite (fi_plugins _ _ _ F), Hi. simpl. by rewrite Hm.
Qed.

Lemma loaded_names p m :
  p ∈ plugins -> load_module_from_src_manifest (pl_script p) (pl_manifest p) = Ok m -> NoDup (SdkMeta.m_name <$> lm_actions m).
Proof.
  intros Hp Hm. pose proof (bo_complete _ _ (fi_building _ _ _ F)) as Hcomp. rewrite Forall_forall in Hcomp.
  destruct (Hcomp _ Hp) as (m' & Hm' & Hn & _). congruence.
Qed.

Lemma loaded_slots src mf m a :
  load_module_from_src_manifest src mf = Ok m -> a ∈ lm_actions m ->
  exists slots, SdkMeta.total_mutations a = Ok slots
    /\ Forall (fun s => exists o, SdkMeta.total_inputs a !! SdkMeta.input_index s = Some o
         /\ SdkMeta.total_outputs a !! SdkMeta.output_index s = Some o) slots.
Proof.
  intros (handles & l & Hl & Ha' & _)%load_manifest_loader Ha. rewrite Ha' in Ha.
  pose proof (SdkMeta.module_actions_balanced _ _ Hl) as Hb. rewrite Forall_forall in Hb.
  destruct (SdkMeta.total_mutations_balanced _ (Hb _ Ha)) as (slots & Hs & Hf). exists slots. split; [done|].
  apply Forall_forall. intros s [i Hi]%list_elem_of_lookup. destruct (Forall2_lookup_l _ _ _ _ _ Hf Hi) as (o & _ & Ho). eauto.
Qed.

Lemma listed_row_consistent row : row ∈ c_actions cat -> row_consistent cat row.
Proof.
  intros Hrow. pose proof Hrow as Hb. rewrite (fi_actions _ _ _ F) in Hb. pose proof (fi_building _ _ _ F) as B.
  pose proof (bo_rows _ _ B) as Hrows. rewrite Forall_forall in Hrows.
  destruct (Hrows _ Hb) as (idx & p & m & Hp & [Hm (a & hashes & Ha & Hh & Hq & Hi & Ho & slots & Hs & Hslots)] & _).
  assert (Hin : p ∈ plugins) by (by eapply list_elem_of_lookup_2).
  assert (Hres : forall os rs, Forall2 (refers (pname p) hashes) os rs -> Forall2 (stands_for cat m (pname p)) os rs).
  { intros os rs Hf. eapply Forall2_impl; [exact Hf|]. intros o r. by apply refers_stands. }
  split.
  - simpl. rewrite (fi_by_name _ _ _ F), (proj2 (collect_keyed (fun row => qname row) _ row (bo_rows_NoDup _ _ B)) Hb). done.
  - exists m, a. rewrite Hq. simpl. split_and!; [by apply routed_module|done..|by apply Hres|by apply Hres].
  - rewrite Hslots. apply Forall_fmap. destruct (loaded_slots _ _ _ _ Hm Ha) as (slots' & Hs' & Hf). rewrite Hs in Hs'. injection Hs' as <-.
    eapply Forall_impl; [exact Hf|]. intros s (o & Hio & Hoo). simpl.
    destruct (Forall2_lookup_l _ _ _ _ _ Hi Hio) as (r & Hr & Href). destruct (Forall2_lookup_l _ _ _ _ _ Ho Hoo) as (r' & Hr' & Href').
    exists r. split; [done|]. by rewrite (refers_det _ _ _ _ _ Href Href').
Qed.

Lemma listed_row_names row :
  row ∈ c_actions cat ->
  exists m a, executing_module cat (qname row) = Ok m /\ NoDup (SdkMeta.m_name <$> lm_actions m) /\ a ∈ lm_actions m
    /\ SdkMeta.m_name a = name (qname row)
    /\ Forall2 (stands_for cat m (plugin_name (qname row))) (SdkMeta.total_inputs a) (total_inputs (row_summary row)).
Proof.
  intros Hrow. destruct (rc_module _ _ (listed_row_consistent _ Hrow)) as (m & a & Hm & Ha & Hn & Hi & _). exists m, a. split_and!; try done.
  unfold executing_module in Hm. rewrite (fi_plugins _ _ _ F) in Hm. apply rbind_Ok in Hm as (idx & _ & Hm).
  apply rbind_Ok in Hm as (p & Hp & Hm%map_err_Ok). unfold expect in Hp. destruct (plugins !! idx) as [p'|] eqn:Hidx; [|done].
  injection Hp as ->. eapply loaded_names; [by eapply list_elem_of_lookup_2|done].
Qed.

Lemma listed_class_consistent c : c ∈ c_classes cat -> class_consistent cat c.
Proof.
  intros Hc. pose proof Hc as Hc'. rewrite (fi_classes _ _ _ F) in Hc'. apply list_elem_of_fmap in Hc' as (c0 & Heq & _).
  split; [by apply listed_class_found|intros q; rewrite (fi_actions _ _ _ F); subst c; apply uses_spec..].
Qed.

Lemma found_action_listed q s : get_action (catalog_of cat) q = Some s -> exists row, row ∈ c_actions cat /\ row_summary row = s /\ as_action s = q.
Proof.
  simpl. rewrite (fi_by_name _ _ _ F), (fi_actions _ _ _ F). intros (row & Hr & ->)%fmap_Some.
  apply collect_elem, list_elem_of_fmap in Hr as (row' & [= -> ->] & Hr). eauto.
Qed.

Lemma class_by_hash_listed h c : get_class_by_hash cat h = Some c -> c ∈ c_classes cat /\ decode_hash_hex (cc_hash c) = Ok h.
Proof.
  unfold get_class_by_hash. intros (q & Hq & Hc)%bind_Some. rewrite (fi_by_hash _ _ _ F) in Hq.
  apply collect_elem, list_elem_of_omap in Hq as (c' & Hin & Hx).
  destruct (decode_hash_hex (cc_hash c')) as [h'|] eqn:Hd; [|done]. injection Hx as -> <-.
  pose proof (listed_class_found _ Hin) as Hf. simpl in Hf. rewrite Hc in Hf. injection Hf as ->. done.
Qed.
End Finished.

(** C26: A catalog built from plugins is consistent. Every listed action is
    found under its name and executed with a module that declares it, its class
    references are listed classes with the hash of that module's class, and its
    mutated slots name the same class among inputs and outputs; every action of
    every plugin, hidden ones too, is executed with the module of that plugin;
    every listed class is found under its name and lists exactly the listed
    actions (not the hidden ones) that produce and consume it; a class found by its hash has that hash. *)
Theorem catalog_consistent plugins mock cat :
  from_plugins plugins mock = Ok cat ->
  Forall (row_consistent cat) (c_actions cat)
  /\ Forall (class_consistent cat) (list_classes (catalog_of cat))
  /\ (forall q s, get_action (catalog_of cat) q = Some s -> s ∈ list_actions (catalog_of cat) /\ as_action s = q)
  /\ (forall p m a, p ∈ plugins -> load_module_from_src_manifest (pl_script p) (pl_manifest p) = Ok m -> a ∈ lm_actions m ->
        executing_module cat {| plugin_name := pi_name (mf_plugin (pl_manifest p)); name := SdkMeta.m_name a |} = Ok m)
  /\ (forall h c, get_class_by_hash cat h = Some c -> c ∈ list_classes (catalog_of cat) /\ decode_hash_hex (cc_hash c) = Ok h).
Proof.
  intros (b & F)%from_plugins_finished. split_and!.
  - apply Forall_forall. intros row. by apply (listed_row_consistent _ _ _ F).
  - apply Forall_forall. intros c. by apply (listed_class_consistent _ _ _ F).
  - intros q s (row & Hrow & <- & Hq)%(found_action_listed _ _ _ F). split; [|done]. simpl. apply list_elem_of_fmap. eauto.
  - intros p m a. by apply (routed_module _ _ _ F).
  - intros h c. by apply (class_by_hash_listed _ _ _ F).
Qed.
End Load.
End Catalog.
