(* ===== verification/Plugins.v ===== *)
(** * Packing, installing and executing plugins (libs/pexe/src/lib.rs,
    [install_plugin] and [reload_catalog] of libs/driver/src/driver.rs,
    [execute_action] of libs/driver/src/pexe_catalog.rs)

    A packed plugin unpacks to its sources, an installation that is refused
    leaves the plugins as they were, and an action is executed on objects of
    the classes that the catalog lists for it. *)

From Stdlib Require Import Ascii.
From S2P Require Import Prelude Pod2 Models DonState Payload ObjectNames DriverStore Driver Actions DriverObjects Podlang TxModel Replay TxPredicates TxBuilder Sdk SdkCalls SdkMeta SdkPodlang SdkExec Catalog.

Module Plugins.
Import Payload ObjectNames Actions Catalog.
Local Open Scope string_scope.

(** ** Archives *)

(** What the zip library and UTF-8 promise: an archive holds what was written,
    and a reader gives the prefix it is asked for. *)
Class ArchiveLaws `{Archives} : Prop := {
  utf8_roundtrip s : from_utf8 (utf8_bytes s) = Ok s;
  zip_roundtrip entries bytes : NoDup (fst <$> entries) -> zip_write entries = Ok bytes ->
    exists zip, zip_open bytes = Ok zip /\ zip_len zip = Z.of_nat (length entries)
      /\ forall name data, (name, data) ∈ entries ->
           exists file, by_name zip name = Ok file /\ forall n, (0 <= n)%Z -> file n = Ok (take (Z.to_nat n) data);
}.

Lemma rbind_ret {A B} (a : A) (k : A -> Result B) : rbind (Ok a) k = k a.
Proof. done. Qed.

Section Archive.
Context `{ArchiveLaws}.

Lemma read_entry_written zip name s file :
  by_name zip name = Ok file -> (forall n, (0 <= n)%Z -> file n = Ok (take (Z.to_nat n) (utf8_bytes s))) ->
  read_entry zip name
  = if (MAX_ENTRY_BYTES <? Z.of_nat (length (utf8_bytes s)))%Z
    then Err (Fail ("pexe entry " +:+ name +:+ " exceeds the limit (possible decompression bomb)")) else Ok s.
Proof.
  intros Hf Hread. unfold read_entry. rewrite Hf. simpl map_err. rewrite rbind_ret, Hread by (unfold MAX_ENTRY_BYTES; lia).
  simpl map_err. rewrite rbind_ret, length_take. unfold MAX_ENTRY_BYTES.
  destruct (Z.ltb_spec (1024 * 1024) (Z.of_nat (length (utf8_bytes s)))).
  - rewrite (proj2 (Z.ltb_lt _ _)) by lia. done.
  - rewrite (proj2 (Z.ltb_ge _ _)) by lia. rewrite take_ge by lia. by rewrite utf8_roundtrip.
Qed.

(** A packed plugin unpacks to its manifest and script when both are at
    most 1 MiB of UTF-8, and is refused with an error when one is larger. *)
Theorem pexe_roundtrip manifest_toml script bytes :
  pack manifest_toml script = Ok bytes ->
  if decide (Z.of_nat (length (utf8_bytes manifest_toml)) <= 1024 * 1024 /\ Z.of_nat (length (utf8_bytes script)) <= 1024 * 1024)%Z
  then unpack_raw bytes = Ok (manifest_toml, script)
  else exists msg, unpack_raw bytes = Err (Fail msg).
Proof.
  intros Hp. apply zip_roundtrip in Hp as (zip & Hz & Hlen & Hall); [|by apply (bool_decide_unpack _)].
  unfold unpack_raw. rewrite Hz. simpl map_err. rewrite rbind_ret, Hlen.
  destruct (Hall MANIFEST_FILE (utf8_bytes manifest_toml)) as (f1 & Hf1 & Hr1); [set_solver|].
  destruct (Hall SCRIPT_FILE (utf8_bytes script)) as (f2 & Hf2 & Hr2); [set_solver|].
  match goal with |- context [(MAX_ENTRIES <? ?n)%Z] => change (MAX_ENTRIES <? n)%Z with false end. cbv iota.
  rewrite (read_entry_written _ _ _ _ Hf1 Hr1), (read_entry_written _ _ _ _ Hf2 Hr2). unfold MAX_ENTRY_BYTES.
  repeat case_match; simpl; try done; try (eexists; reflexivity); lia.
Qed.
End Archive.

(** ** Installing *)

(** What the file system does in one installation. A failed write may leave
    any contents. *)
Inductive WriteFault : Type := Written | NotWritten | Torn (contents : list byte).
Record IoFaults : Type := MkFaults {
  backup_fails : bool;
  create_dir_fails : bool;
  write_fault : WriteFault;
  remove_fails : bool;
  restore_fails : bool;
}.

Section Install.
Context `{Archives} `{Env : SdkCalls.SdkEnv} `{PH : Podlang.PredicateHash, !ScriptEngine, !ModuleCompiler}.
Abbreviation Dir := (option (gmap string (Result (list byte)))).

(** The directory of plugins and the catalog in use. *)
Record Shelf : Type := MkShelf { actions_dir : Dir; running : PexeCatalog; shelf_mock : bool }.

Definition set_dir (d : Dir) (s : Shelf) : Shelf := MkShelf d (running s) (shelf_mock s).
Definition files (s : Shelf) : gmap string (Result (list byte)) := default ∅ (actions_dir s).
Definition on_files (f : gmap string (Result (list byte)) -> gmap string (Result (list byte))) (s : Shelf) : Shelf :=
  set_dir (f <$> actions_dir s) s.

Definition file_exists (name : string) : eff Shelf bool := fun s => (Ok (bool_decide (is_Some (files s !! name))), s).
Definition fs_rename (fails : bool) (from to : string) : eff Shelf unit := fun s =>
  match files s !! from with
  | Some c => if fails then (Err (Fail "failed to rename"), s) else (Ok tt, on_files (fun m => <[to := c]> (delete from m)) s)
  | None => (Err (Fail "no such file"), s)
  end.
Definition fs_remove (fails : bool) (name : string) : eff Shelf unit := fun s =>
  if fails then (Err (Fail "failed to remove"), s)
  else match files s !! name with
       | Some _ => (Ok tt, on_files (delete name) s)
       | None => (Err (Fail "no such file"), s)
       end.
Definition create_dir_all (fails : bool) : eff Shelf unit := fun s =>
  if fails then (Err (Fail "failed to create actions dir"), s) else (Ok tt, set_dir (Some (files s)) s).
Definition fs_write (fault : WriteFault) (name : string) (bytes : list byte) : eff Shelf unit := fun s =>
  match fault with
  | Written => (Ok tt, on_files <[name := Ok bytes]> s)
  | NotWritten => (Err (Fail "failed to write"), s)
  | Torn t => (Err (Fail "failed to write"), on_files <[name := Ok t]> s)
  end.

Definition pexe_file (plugin_name : string) : string := plugin_name +:+ "." +:+ PEXE_EXTENSION.
Definition backup_file (plugin_name : string) : string := pexe_file plugin_name +:+ ".bak".

Definition install (io : IoFaults) (bytes : list byte) (plugin_name : string) : eff Shelf string :=
  match plugin_name with
  | EmptyString => ethrow (Fail "plugin name is empty")
  | _ =>
      create_dir_all (create_dir_fails io) ;!
      fs_write (write_fault io) (pexe_file plugin_name) bytes ;!
      eret (pexe_file plugin_name)
  end.

Definition reload_catalog : eff Shelf nat :=
  let! s := eget in
  let! catalog := elift (load_with (actions_dir s) (shelf_mock s)) in
  eput (MkShelf (actions_dir s) catalog (shelf_mock s)) ;!
  eret (length (c_plugins catalog)).

(** Any plugin of the name is moved aside first. *)
Definition move_aside (io : IoFaults) (name : string) : eff Shelf bool :=
  let! backup := file_exists (pexe_file name) in
  (if backup then fs_rename (backup_fails io) (pexe_file name) (backup_file name) else eret tt) ;!
  eret backup.

Definition discard_backup (io : IoFaults) (name : string) (backup : bool) : eff Shelf unit :=
  (if backup then etry (fs_remove (remove_fails io) (backup_file name)) else eret (Ok tt)) ;!
  eret tt.

Definition put_back (io : IoFaults) (name : string) (backup : bool) : eff Shelf unit :=
  etry (fs_remove (remove_fails io) (pexe_file name)) ;!
  (if backup then etry (fs_rename (restore_fails io) (backup_file name) (pexe_file name)) else eret (Ok tt)) ;!
  eret tt.

Definition install_plugin (io : IoFaults) (bytes : list byte) : eff Shelf string :=
  let! (manifest, _) := elift (map_err (fun err => "invalid .pexe archive: " +:+ err) (unpack bytes)) in
  let name := pi_name (mf_plugin manifest) in
  elift (validate_plugin_name name) ;!
  let! backup := move_aside io name in
  let! outcome := etry (install io bytes name ;! reload_catalog) in
  match outcome with
  | Ok _ => discard_backup io name backup ;! eret name
  | Err err =>
      put_back io name backup ;!
      ethrow (Fail ("plugin " +:+ name +:+ " failed to load; previous version left in place: " +:+ err))
  end.

(** *** Which files are plugins *)

Definition is_pexe (file_name : string) : Prop := file_extension file_name = Some PEXE_EXTENSION.
Definition pexes (m : gmap string (Result (list byte))) : gmap string (Result (list byte)) := filter (fun kv => is_pexe (fst kv)) m.

Lemma pexe_file_is_pexe n : n <> EmptyString -> is_pexe (pexe_file n).
Proof.
  intros Hn. unfold is_pexe, file_extension, pexe_file. rewrite los_app. change (los ("." +:+ PEXE_EXTENSION)) with ("."%char :: los PEXE_EXTENSION).
  rewrite rsplit_once_app by (apply (bool_decide_unpack _); done). destruct n as [|a n]; done.
Qed.

Lemma backup_file_not_pexe n : ~ is_pexe (backup_file n).
Proof.
  unfold is_pexe, file_extension, backup_file. rewrite los_app. change (los ".bak") with ("."%char :: los "bak").
  rewrite rsplit_once_app by (apply (bool_decide_unpack _); done). destruct (los (pexe_file n)); done.
Qed.

Lemma pexes_insert k v m : is_pexe k -> pexes (<[k := v]> m) = <[k := v]> (pexes m).
Proof. intros Hk. unfold pexes. by rewrite map_filter_insert_True. Qed.
Lemma pexes_delete k m : pexes (delete k m) = delete k (pexes m).
Proof. apply map_filter_delete. Qed.
Lemma pexes_delete_other k m : ~ is_pexe k -> pexes (delete k m) = pexes m.
Proof. intros Hk. unfold pexes. by apply map_filter_delete_not. Qed.
Lemma pexes_insert_other k v m : ~ is_pexe k -> pexes (<[k := v]> m) = pexes m.
Proof. intros Hk. unfold pexes. rewrite map_filter_insert_False by done. by apply pexes_delete_other. Qed.

(** Only the plugins are loaded, and a missing directory is an empty one. *)
Lemma load_with_pexes d d' mock : pexes (default ∅ d) = pexes (default ∅ d') -> load_with d mock = load_with d' mock.
Proof.
  assert (Hone : forall d, discover_plugins d = discover_plugins (Some (default ∅ d))).
  { intros [m|]; [done|]. unfold discover_plugins. simpl. by rewrite map_filter_empty, map_to_list_empty. }
  intros Hp. unfold load_with. rewrite (Hone d), (Hone d'). unfold discover_plugins.
  unfold pexes, is_pexe in Hp. by rewrite Hp.
Qed.

(** *** The steps of an installation *)

Lemma files_on_files f s : is_Some (actions_dir s) -> files (on_files f s) = f (files s).
Proof. by intros [d Hd]; unfold files, on_files; simpl; rewrite Hd. Qed.

Lemma files_some s name c : files s !! name = Some c -> is_Some (actions_dir s).
Proof. unfold files. destruct (actions_dir s); simpl; [done|]. by rewrite lookup_empty. Qed.

Lemma attempt_spec io bytes name s :
  name <> EmptyString ->
  let '(r, s') := (install io bytes name ;! reload_catalog) s in
  match r with
  | Ok _ => files s' = <[pexe_file name := Ok bytes]> (files s) /\ load_with (actions_dir s') (shelf_mock s) = Ok (running s')
  | Err (Fail _) => running s' = running s /\ delete (pexe_file name) (files s') = delete (pexe_file name) (files s)
  | Err (Panic e) => running s' = running s /\ files s' = <[pexe_file name := Ok bytes]> (files s)
      /\ load_with (actions_dir s') (shelf_mock s) = Err (Panic e)
  end.
Proof.
  intros Hn. unfold install, ebind, create_dir_all, fs_write, reload_catalog, eget, elift, eput, eret.
  destruct name as [|a name]; [done|]. set (dest := pexe_file _).
  destruct (create_dir_fails io); [done|]. destruct (write_fault io) as [| |t]; cbn -[load_with]; [|done|].
  - unfold files. cbn -[load_with]. match goal with |- context [load_with ?d ?b] => destruct (load_with d b) as [cat|[e|e]] eqn:El end; simpl;
      [done| |done]. split; [done|]. by rewrite delete_insert_eq.
  - split; [done|]. unfold files. simpl. by rewrite delete_insert_eq.
Qed.
Lemma move_aside_spec io name s :
  let '(r, s') := move_aside io name s in
  running s' = running s /\ shelf_mock s' = shelf_mock s
  /\ match r with
     | Ok backup => backup = bool_decide (is_Some (files s !! pexe_file name))
               /\ pexes (files s') = delete (pexe_file name) (pexes (files s))
               /\ (backup = true -> files s' !! backup_file name = files s !! pexe_file name)
     | Err (Fail _) => s' = s
     | Err (Panic _) => False
     end.
Proof.
  unfold move_aside, ebind, file_exists, fs_rename, eret. case_bool_decide as Hex; simpl.
  - destruct Hex as [c Hc]. pose proof (files_some _ _ _ Hc) as Hd. rewrite Hc. destruct (backup_fails io); [done|].
    rewrite files_on_files by done. rewrite pexes_insert_other by apply backup_file_not_pexe. rewrite pexes_delete.
    split_and!; try done. intros _. apply lookup_insert_eq.
  - split_and!; try done. symmetry. apply delete_id. unfold pexes. apply map_lookup_filter_None. left. by apply eq_None_not_Some.
Qed.

Lemma discard_backup_spec io name backup s :
  let '(r, s') := discard_backup io name backup s in r = Ok tt /\ running s' = running s /\ pexes (files s') = pexes (files s).
Proof.
  unfold discard_backup, ebind, etry, fs_remove, eret. destruct backup; [|done]. destruct (remove_fails io); [done|].
  destruct (files s !! backup_file name) eqn:Hf; [|done]. split_and!; try done.
  rewrite files_on_files by (by eapply files_some). apply pexes_delete_other, backup_file_not_pexe.
Qed.

(** The plugin that was moved aside is there again. *)
Lemma put_back_spec io name backup c s :
  name <> EmptyString -> (backup = true -> files s !! backup_file name = c) -> backup = bool_decide (is_Some c) ->
  let '(r, s') := put_back io name backup s in
  r = Ok tt /\ running s' = running s
  /\ (remove_fails io = false -> restore_fails io = false ->
      pexes (files s') = match c with Some v => <[pexe_file name := v]> (pexes (files s))
                                    | None => delete (pexe_file name) (pexes (files s)) end).
Proof.
  intros Hn Hb ->. pose proof (pexe_file_is_pexe _ Hn) as Hp. pose proof (backup_file_not_pexe name) as Hnp.
  assert (Hne : pexe_file name <> backup_file name) by congruence.
  unfold put_back, ebind, etry, fs_remove, fs_rename, eret. destruct (remove_fails io).
  { case_bool_decide; [|done]. destruct (files s !! _), (restore_fails io); done. }
  destruct (files s !! pexe_file name) as [v|] eqn:Hv.
  - pose proof (files_some _ _ _ Hv) as Hd. pose proof (files_on_files (delete (pexe_file name)) s Hd) as Hf. case_bool_decide as Hc.
    + specialize (Hb eq_refl). destruct Hc as [w ->]. rewrite Hf, lookup_delete_ne, Hb by done.
      destruct (restore_fails io); [done|]. split_and!; try done. intros _ _.
      rewrite files_on_files, Hf by (simpl; by rewrite fmap_is_Some).
      rewrite pexes_insert, pexes_delete_other, pexes_delete by done. apply insert_delete_eq.
    + apply eq_None_not_Some in Hc as ->. split_and!; try done. intros _ _. by rewrite Hf, pexes_delete.
  - case_bool_decide as Hc.
    + specialize (Hb eq_refl). destruct Hc as [w ->]. rewrite Hb. destruct (restore_fails io); [done|]. split_and!; try done. intros _ _.
      by rewrite files_on_files, pexes_insert, pexes_delete_other by (done || by eapply files_some).
    + apply eq_None_not_Some in Hc as ->. split_and!; try done. intros _ _. symmetry. apply delete_id, map_lookup_filter_None. by left.
Qed.

Lemma validate_plugin_name_nonempty n u : validate_plugin_name n = Ok u -> n <> EmptyString.
Proof. by destruct n. Qed.

(** Files that agree with [m] apart from [k], with [k] as [m] has it. *)
Lemma reinsert k (m m' : gmap string (Result (list byte))) :
  delete k m' = delete k m -> match m !! k with Some v => <[k := v]> m' | None => delete k m' end = m.
Proof.
  intros Hd. destruct (m !! k) as [v|] eqn:Hk; [|rewrite Hd; by apply delete_id].
  by rewrite <-insert_delete_eq, Hd, insert_delete_eq, insert_id.
Qed.

Lemma pexes_lookup k m : is_pexe k -> pexes m !! k = m !! k.
Proof.
  intros Hk. unfold pexes. apply option_eq. intros v. rewrite map_lookup_filter_Some. simpl. tauto.
Qed.

(** C34: Installing a plugin is all or nothing. When it succeeds, the plugin's
    file holds the given bytes, the other plugins are as they were and the
    catalog in use is the one the directory gives. When it is refused, the
    catalog is as it was, and so are all plugin files unless the file system
    fails while they are put back. Only a panic while the plugin is loaded
    leaves the new file behind, and the directory then panics when it is loaded
    again. *)
Theorem install_plugin_atomic io bytes s :
  let '(r, s') := install_plugin io bytes s in
  match r with
  | Ok name => pexes (files s') = <[pexe_file name := Ok bytes]> (pexes (files s))
               /\ load_with (actions_dir s') (shelf_mock s) = Ok (running s')
  | Err (Fail _) => running s' = running s
      /\ (remove_fails io = false -> restore_fails io = false ->
          pexes (files s') = pexes (files s)
          /\ load_with (actions_dir s') (shelf_mock s) = load_with (actions_dir s) (shelf_mock s))
  | Err (Panic e) => s' = s \/ running s' = running s
      /\ (exists name, pexes (files s') = <[pexe_file name := Ok bytes]> (pexes (files s)))
      /\ load_with (actions_dir s') (shelf_mock s) = Err (Panic e)
  end.
Proof.
  unfold install_plugin. unfold ebind at 1, elift at 1.
  destruct (map_err _ (unpack bytes)) as [[manifest script]|[e|e]]; [|done|by left]. set (name := pi_name _).
  unfold ebind at 1, elift at 1. destruct (validate_plugin_name name) as [u|[e|e]] eqn:Hv; [|done|by left].
  apply validate_plugin_name_nonempty in Hv. pose proof (pexe_file_is_pexe _ Hv) as Hp.
  unfold ebind at 1. pose proof (move_aside_spec io name s) as Hb.
  destruct (move_aside io name s) as [[backup|[e|e]] s1]; destruct Hb as (Hr1 & Hm1 & Hb); [|by subst s1|done].
  destruct Hb as (Heq & Hp1 & Hbak). pose proof (attempt_spec io bytes name s1 Hv) as Ha. unfold ebind at 1, etry at 1.
  destruct ((install io bytes name ;! reload_catalog) s1) as [[n|[e|e]] s2]; rewrite ?Hm1 in Ha.
  - destruct Ha as [Hf Hl]. unfold ebind. pose proof (discard_backup_spec io name backup s2) as Hd.
    destruct (discard_backup io name backup s2) as [r s3]. destruct Hd as (-> & Hr & Hps). simpl. split.
    + by rewrite Hps, Hf, pexes_insert, Hp1, insert_delete_eq.
    + rewrite Hr, <-Hl. by apply load_with_pexes.
  - destruct Ha as [Hr Hf]. unfold ebind.
    assert (Hb2 : backup = true -> files s2 !! backup_file name = files s !! pexe_file name).
    { intros Ht. rewrite <-(Hbak Ht). pose proof (backup_file_not_pexe name) as Hnp.
      rewrite <-(lookup_delete_ne (files s2) (pexe_file name)), Hf by congruence. apply lookup_delete_ne. congruence. }
    pose proof (put_back_spec io name backup _ s2 Hv Hb2 Heq) as Hpb.
    destruct (put_back io name backup s2) as [r s3]. destruct Hpb as (-> & Hr3 & Hpb). simpl. split; [congruence|]. intros Hrm Hrs.
    assert (Hsame : pexes (files s3) = pexes (files s)); [|split; [done|by apply load_with_pexes]].
    rewrite (Hpb Hrm Hrs), <-(pexes_lookup (pexe_file name)) by done. apply reinsert.
    rewrite <-pexes_delete, Hf, pexes_delete, Hp1. by rewrite delete_delete_eq.
  - destruct Ha as (Hr & Hf & Hl). right. split_and!; [congruence| |done]. exists name.
    by rewrite Hf, pexes_insert, Hp1, insert_delete_eq.
Qed.
End Install.

(** ** Executing *)

Section Execute.
Context `{Env : SdkCalls.SdkEnv} `{B : !Podlang.Natives, PH : Podlang.PredicateHash, !Podlang.Builder, !Containers}.
Context `{!ScriptEngine, !ModuleCompiler}.

(** [pexe::compile_module_hash] *)
Definition compile_module_hash (manifest : Manifest) (script : string) : Result string :=
  let? m := map_err (fun err => "failed to compile plugin: " +:+ err)
    (load_module_from_src_actions script (ma_name <$> mf_actions manifest)) in
  Ok (hash_encode_hex (batch_id (lm_module m))).

(** The module an [Executor] runs. The scripts of its actions ran at Load. *)
Definition sdk_module (m : LoadedModule) : SdkExec.SdkModule :=
  SdkExec.MkModule (lm_actions m) (lm_classes m) (lm_index m) (lm_class_hashes m)
    (fun a => match lm_script m a with Ok calls => calls | Err _ => [] end).

(** The predicates of the transaction library and those of the module. *)
Definition modules_with (m : LoadedModule) : list Podlang.Predicate := app TxPredicates.modules (lm_preds m).

(** [prove] is pod2's prover, with the pod's verification. *)
Definition action_with_args {Pod} (prove : Podlang.Statement -> Result Pod) (random : Value) (fuel : nat) (m : LoadedModule)
    (mock : bool) (g : TxBuilder.GroundingWitness) (action : string) (inputs : list Sdk.PDict) (args : gmap string Sdk.PVal) :
    Result (Pod * list Dictionary * TxBuilder.Tx) :=
  let? (st, tx, outputs) := SdkExec.build_action (modules_with m) (sdk_module m) random fuel mock g action inputs args in
  let? tx_pod := prove st in
  Ok (tx_pod, outputs, tx).

Definition execute_action {Pod} (prove : Podlang.Statement -> Result Pod) (random : Value) (fuel : nat) (cat : PexeCatalog)
    (action : QualifiedName) (g : TxBuilder.GroundingWitness) (inputs : list Sdk.PDict) (args : gmap string Sdk.PVal) :
    Result (Pod * list Dictionary * TxBuilder.Tx) :=
  let? m := executing_module cat action in
  action_with_args prove random fuel m (mock_proofs cat) g (name action) inputs args.

Lemma found_by_name (l : list SdkMeta.ActionMeta) a :
  NoDup (SdkMeta.m_name <$> l) -> a ∈ l -> exists i, list_find (fun a' => SdkMeta.m_name a' = SdkMeta.m_name a) l = Some (i, a).
Proof.
  intros Hn [i Hi]%list_elem_of_lookup. exists i. apply list_find_Some. split_and!; try done. intros j a' Hj Hlt Heq.
  assert (j = i); [|lia]. apply (NoDup_lookup _ _ _ (SdkMeta.m_name a) Hn); rewrite list_lookup_fmap; [by rewrite Hj, <-Heq|by rewrite Hi].
Qed.

(** The hash that an object has as its type. *)
Definition has_type (d : Sdk.PDict) (h : Hash) : Prop := Sdk.raw <$> d !! "type" = Some h.

(** The check of the inputs, when every class of the action has a hash. *)
Lemma check_inputs_exact m action a inputs hs :
  Forall2 (fun o h => class_hash m (SdkMeta.o_class o) = Some h) (SdkMeta.total_inputs a) hs ->
  match SdkExec.check_inputs (sdk_module m) action a inputs with
  | Ok _ => Forall2 has_type inputs hs
  | Err (Fail _) => True
  | Err (Panic _) => False
  end.
Proof.
  unfold SdkExec.check_inputs. intros Hall. unfold rensure at 1. case_bool_decide as Hlen; [|done]. rewrite rbind_ret.
  rewrite SdkMeta.zip_eq_Ok by done. rewrite rbind_ret. revert inputs Hlen. induction Hall as [|o h os hs Hh _ IH];
    intros [|d inputs] Hlen; try done; [constructor|]. simpl. unfold class_hash in Hh. rewrite Hh. simpl. unfold rensure at 1.
  case_bool_decide as Hd; [|done]. simpl. specialize (IH inputs ltac:(by injection Hlen)).
  destruct (try_fold _ _ _) as [|[]]; [by constructor|done..].
Qed.

(** The SDK refuses to execute a listed action on objects of other classes
    than those the catalog lists, in that order and number: with an error and
    before anything is built. So the SDK's check of the inputs agrees with the
    class references on which the driver selects and checks them. *)
Theorem other_inputs_refused {Pod} plugins mock cat row (prove : _ -> Result Pod) random fuel g inputs args :
  from_plugins plugins mock = Ok cat -> row ∈ c_actions cat ->
  ~ Forall2 (fun d r => exists h, has_type d h /\ cr_hash r = hash_encode_hex h) inputs (total_inputs (row_summary row)) ->
  exists msg, execute_action prove random fuel cat (as_action (row_summary row)) g inputs args = Err (Fail msg).
Proof.
  intros (b & F)%from_plugins_finished Hrow Hne. destruct (listed_row_names _ _ _ F _ Hrow) as (m & a & Hm & Hn & Ha & Hname & Hin).
  assert (Hhs : exists hs, Forall2 (fun o h => class_hash m (SdkMeta.o_class o) = Some h) (SdkMeta.total_inputs a) hs
    /\ Forall2 (fun h r => cr_hash r = hash_encode_hex h) hs (total_inputs (row_summary row))).
  { clear -Hin. induction Hin as [|o r os rs (_ & c & h & _ & _ & _ & _ & Hh & Hr) _ (hs & IH1 & IH2)]; [by exists []|].
    exists (h :: hs). by split; constructor. }
  destruct Hhs as (hs & Hhash & Hhex). unfold execute_action. rewrite Hm, rbind_ret. unfold action_with_args, SdkExec.build_action.
  rewrite <-Hname. destruct (found_by_name _ _ Hn Ha) as [i Hfind]. simpl. rewrite Hfind. simpl.
  pose proof (check_inputs_exact m (SdkMeta.m_name a) a inputs hs Hhash) as Hc.
  destruct (SdkExec.check_inputs _ _ _ _) as [u|[e|e]]; simpl; [exfalso|by eexists|done].
  apply Hne. revert Hhex. clear -Hc. revert inputs Hc. generalize (total_inputs (row_summary row)).
  intros rs inputs Hc. revert rs. induction Hc as [|d h ds hs Hd _ IH]; intros rs Hrs; inversion Hrs; subst; constructor; eauto.
Qed.
End Execute.
End Plugins.
