(* ===== verification/Toys.v ===== *)
(** * Small tools for concrete instances

    A binary form of anything countable, and the value of a computation that is
    known to succeed. *)

From S2P Require Import Prelude.

Module Toys.

Fixpoint pos_to_bytes (p : positive) : list byte :=
  match p with xH => [] | xO p' => x00 :: pos_to_bytes p' | xI p' => x01 :: pos_to_bytes p' end.
Fixpoint bytes_to_pos (l : list byte) : positive :=
  match l with [] => xH | x00 :: l' => xO (bytes_to_pos l') | _ :: l' => xI (bytes_to_pos l') end.

Lemma bytes_to_pos_of p : bytes_to_pos (pos_to_bytes p) = p.
Proof. induction p as [p IH|p IH|]; simpl; [by rewrite IH..|done]. Qed.

Definition byte_at (n : N) : byte := default x00 (Byte.of_N n).
Lemma byte_at_to b : byte_at (Byte.to_N b) = b.
Proof. unfold byte_at. by rewrite Byte.of_to_N. Qed.

Lemma bytes_at_to (data : list byte) : map byte_at (map Byte.to_N data) = data.
Proof. induction data as [|b data IH]; simpl; [done|]. by rewrite byte_at_to, IH. Qed.

Definition get_ok {A} (d : A) (r : Result A) : A := match r with Ok a => a | Err _ => d end.
Lemma is_ok_get {A} (d : A) r : is_ok r = true -> r = Ok (get_ok d r).
Proof. by destruct r. Qed.
End Toys.
