(* ===== verification/PluginsToy.v ===== *)
(** * Plugins that evaluate

    An archive format, a script engine and a compiler by which the catalog's
    definitions run on small plugins, the catalog's theorems applied to them,
    and two behaviours of the code that its comments do not expect. *)

From Stdlib Require Import Ascii.
From S2P Require Import Prelude Pod2 Models DonState Payload ObjectNames DriverStore Driver Actions DriverObjects Podlang TxModel Replay TxPredicates TxBuilder Sdk SdkCalls SdkMeta SdkPodlang SdkExec SdkToy Catalog Plugins Toys.

Module PluginsToy.
Import Payload ObjectNames Actions Podlang Catalog Plugins Toy ToyPod SdkToy Toys.
Local Open Scope string_scope.

(** ** Archives *)

Definition coded (entries : list (string * list byte)) : list (string * list N) := map (fun e => (fst e, map Byte.to_N (snd e))) entries.
Definition decoded (entries : list (string * list N)) : list (string * list byte) := map (fun e => (fst e, map byte_at (snd e))) entries.

Lemma decoded_coded entries : decoded (coded entries) = entries.
Proof.
  unfold decoded, coded. induction entries as [|[n data] l IH]; [done|]. simpl. rewrite IH. f_equal. f_equal. apply bytes_at_to.
Qed.

Definition toy_hidden : ManifestAction := MkActionInfo "M" "m" "changes" true.
Definition toy_manifest (name : string) : Manifest :=
  MkManifest (MkPluginInfo name "0.1.0" (value_of_i64 7)) [MkClassInfo "C" "c" "a class"]
    [MkActionInfo "A" "a" "makes" false; toy_hidden; MkActionInfo "B" "b" "uses" false].

#[export] Instance toy_archives : Archives := {|
  Zip := list (string * list byte);
  zip_write entries := Ok (pos_to_bytes (encode (coded entries)));
  zip_open bytes := match decode (bytes_to_pos bytes) with Some entries => Ok (decoded entries) | None => Err (Fail "invalid zip") end;
  zip_len zip := Z.of_nat (length zip);
  by_name zip name := match list_find (fun e => fst e = name) zip with
                      | Some (_, (_, data)) => Ok (fun n => Ok (take (Z.to_nat n) data))
                      | None => Err (Fail "no such entry")
                      end;
  utf8_bytes := String.list_byte_of_string;
  from_utf8 bytes := Ok (String.string_of_list_byte bytes);
  parse_manifest s := Ok (toy_manifest s);
|}.

#[export] Instance toy_archive_laws : ArchiveLaws.
Proof.
  split; simpl.
  - intros s. by rewrite String.string_of_list_byte_of_string.
  - intros entries bytes Hn [= <-]. exists entries. rewrite bytes_to_pos_of, decode_encode, decoded_coded. split_and!; try done.
    intros name data [i Hi]%list_elem_of_lookup. rewrite (proj2 (list_find_Some _ _ i (name, data))); [eauto|].
    split_and!; try done. intros j [n d] Hj Hlt Heq. simpl in Heq. subst n. assert (j = i); [|lia].
    apply (NoDup_lookup _ _ _ name Hn); rewrite list_lookup_fmap; [by rewrite Hj|by rewrite Hi].
Qed.

Lemma pexe_roundtrip_witness :
  exists bytes, pack "toy" "good" = Ok bytes /\ unpack_raw bytes = Ok ("toy", "good").
Proof.
  exists (pos_to_bytes (encode (coded [(MANIFEST_FILE, utf8_bytes "toy"); (SCRIPT_FILE, utf8_bytes "good")]))). split; [reflexivity|].
  exact (pexe_roundtrip "toy" "good" _ eq_refl).
Defined.

(** ** Modules *)

(** An object that is updated but not bound with [var]. *)
Definition panicking_calls : list SdkCalls.Call :=
  [SdkCalls.CObject Sdk.Output "C"; SdkCalls.CUpdate 1 "d" (Sdk.DInt 1)].

Definition toy_script (a : string) : Result (list SdkCalls.Call) :=
  if decide (a = "A") then Ok create_calls else if decide (a = "M") then Ok change_calls
  else if decide (a = "B") then Ok both_calls else Err (Fail "function not found").

#[export] Instance toy_engine : ScriptEngine := {|
  compile src :=
    if decide (src = "good") then Ok toy_script
    else if decide (src = "bad") then Ok (fun _ => Ok panicking_calls) else Err (Fail "parse error");
|}.

#[export] Instance toy_compiler : ModuleCompiler := {|
  CompiledModule := list Predicate;
  podlang_text preds := String.concat " " ((fun P => p_name P +:+ "(state) = AND()") <$> preds);
  load_module preds := Ok preds;
  batch_id m := value_of_i64 (Z.of_nat (length m));
  predicate_ref_hash m n := (fun _ => predicate_hash n) <$> find_custom_pred_by_name m n;
  rekey_module := TxPredicates.tx_rekey;
  rekey_podlang_src := "Rekey";
|}.

Definition toy_plugin : Plugin := MkPlugin "toy.pexe" (toy_manifest "toy") "good".

Definition toy_catalog : PexeCatalog := get_ok (MkCatalog [] [] ∅ ∅ [] ∅ ∅ EmptyString true) (from_plugins [toy_plugin] true).
Lemma toy_catalog_loads : from_plugins [toy_plugin] true = Ok toy_catalog.
Proof. apply is_ok_get. vm_compute. reflexivity. Qed.

Lemma catalog_consistent_witness :
  length (c_actions toy_catalog) = 3%nat /\ Forall (row_consistent toy_catalog) (c_actions toy_catalog)
  /\ Forall (class_consistent toy_catalog) (list_classes (catalog_of toy_catalog))
  /\ get_action (catalog_of toy_catalog) {| plugin_name := "toy"; name := "M" |} = None
  /\ is_ok (executing_module toy_catalog {| plugin_name := "toy"; name := "M" |}) = true.
Proof.
  destruct (catalog_consistent [toy_plugin] true toy_catalog toy_catalog_loads) as (Hr & Hc & _).
  split; [vm_compute; reflexivity|]. split; [exact Hr|]. split; [exact Hc|]. split; [|vm_compute; reflexivity].
  vm_cast_no_check (eq_refl (@None ActionSummary)).
Defined.

(** Rekeying an object of another class. *)
Definition toy_row : ActionRow :=
  default (MkRow {| as_action := {| plugin_name := EmptyString; name := EmptyString |}; total_inputs := []; total_outputs := []; as_mutated_objects := [] |}
    EmptyString EmptyString EmptyString EmptyString EmptyString []) (c_actions toy_catalog !! 2%nat).
Definition toy_stranger : Sdk.PDict := {["type" := value_of_i64 5]}.
Definition toy_grounding : TxBuilder.GroundingWitness := {|
  TxBuilder.gw_state_header := toy_header; TxBuilder.gw_created_proofs := ∅ |}.

Lemma toy_row_listed : toy_row ∈ c_actions toy_catalog.
Proof. apply (list_elem_of_lookup_2 _ 2). vm_compute. reflexivity. Qed.

Lemma toy_row_wants : map cr_hash (total_inputs (row_summary toy_row)) = [hash_encode_hex (predicate_hash "IsC")].
Proof. vm_compute. reflexivity. Qed.

Lemma other_inputs_refused_witness :
  exists msg, execute_action Ok EMPTY_HASH 3 toy_catalog (as_action (row_summary toy_row)) toy_grounding [toy_stranger] ∅ = Err (Fail msg).
Proof.
  apply (other_inputs_refused [toy_plugin] true toy_catalog toy_row Ok EMPTY_HASH 3 toy_grounding [toy_stranger] ∅).
  - exact toy_catalog_loads.
  - exact toy_row_listed.
  - intros Hf. pose proof toy_row_wants as Hw. destruct (total_inputs (row_summary toy_row)) as [|r rs]; [discriminate|].
    apply Forall2_cons_1 in Hf as [(h & Ht & Hh) _]. injection Hw as Hr _. rewrite Hh in Hr.
    assert (h = value_of_i64 5) as -> by (unfold has_type, toy_stranger in Ht; rewrite lookup_singleton_eq in Ht; by injection Ht).
    apply (f_equal String.length) in Hr. vm_compute in Hr. discriminate.
Defined.

(** ** A plugin that panics when it is loaded stays installed *)

Definition no_faults : IoFaults := MkFaults false false Written false false.
Definition good_pexe : list byte := get_ok [] (pack "toy" "good").
Definition bad_pexe : list byte := get_ok [] (pack "toy" "bad").
Definition good_shelf : Shelf := MkShelf (Some {["toy.pexe" := Ok good_pexe]}) toy_catalog true.

Definition panics {A} (r : Result A) : bool := match r with Err (Panic _) => true | _ => false end.

(** The plugin of the name was loaded before; its replacement is left in its
    place, and the directory cannot be loaded any more. *)
Example panicking_plugin_stays :
  is_ok (load_with (actions_dir good_shelf) true) = true
  /\ (let '(r, s) := install_plugin no_faults bad_pexe good_shelf in
      panics r = true /\ files s !! "toy.pexe" = Some (Ok bad_pexe) /\ panics (load_with (actions_dir s) true) = true).
Proof. vm_compute. done. Qed.

(** ** A predicate is found by a suffix of another's name *)

(** The text of [Pick] is not shown when [UsePick] comes first. *)
Example extract_predicate_takes_suffix :
  extract_predicate ("UsePick(state) = AND(a())" +:+ newline +:+ "Pick(state) = AND(b())") "Pick" = Some "Pick(state) = AND(a())".
Proof. vm_compute. reflexivity. Qed.
End PluginsToy.
