(* ===== verification/ArchiverNames.v ===== *)
(** * Names in the archive (services/archiver/src/node.rs)

    Blobs are files named by index and versioned hash; blocks are directories
    named by slot and by root. The names are written with [format!] and read
    back with [from_str], so both are modelled on characters. *)

From Stdlib Require Import Ascii.
From S2P Require Import Prelude ObjectNames.

Module ArchiverNames.
Import ObjectNames.
Abbreviation B256 := (list byte).

(** ** Numbers and hashes as text *)

Definition digit (n : N) : ascii := ascii_of_N (48 + n).
Definition digit_value (c : ascii) : option N :=
  let n := N_of_ascii c in if ((48 <=? n) && (n <=? 57))%N then Some (n - 48)%N else None.

Fixpoint decimal_from (fuel : nat) (n : N) : list ascii :=
  match fuel with
  | O => []
  | S fuel' => if (n <? 10)%N then [digit n] else decimal_from fuel' (n / 10)%N ++ [digit (n mod 10)]
  end.
(** A number has no more decimal digits than binary ones. *)
Definition decimal (n : N) : list ascii := decimal_from (S (N.to_nat (N.size n))) n.

(** [{:0w}] *)
Definition padded (w : nat) (n : N) : list ascii :=
  let d := decimal n in replicate (w - length d) "0"%char ++ d.

Definition from_digits (l : list ascii) : option N :=
  foldl (fun acc c => a ← acc; d ← digit_value c; Some (10 * a + d)%N) (Some 0%N) l.

(** [usize::from_str] *)
Definition parse_usize (l : list ascii) : Result N :=
  let digits := match l with c :: l' => if decide (c = "+"%char) then l' else l | [] => [] end in
  match digits with
  | [] => Err (Fail "cannot parse integer from empty string")
  | _ =>
      let? n := ok_or (from_digits digits) "invalid digit found in string" in
      if (n <? 2 ^ 64)%N then Ok n else Err (Fail "number too large to fit in target type")
  end.

Definition nibble (n : N) : ascii := if (n <? 10)%N then digit n else ascii_of_N (87 + n).
Definition nibble_value (c : ascii) : option N :=
  let n := N_of_ascii c in
  if ((48 <=? n) && (n <=? 57))%N then Some (n - 48)%N
  else if ((97 <=? n) && (n <=? 102))%N then Some (n - 87)%N
  else if ((65 <=? n) && (n <=? 70))%N then Some (n - 55)%N else None.

Definition hex_byte (b : byte) : list ascii := [nibble (Byte.to_N b / 16)%N; nibble (Byte.to_N b mod 16)%N].
Definition B256_text (h : B256) : list ascii := los "0x" ++ flat_map hex_byte h.

Fixpoint from_hex (l : list ascii) : option (list byte) :=
  match l with
  | [] => Some []
  | a :: b :: l' =>
      hi ← nibble_value a; lo ← nibble_value b; x ← Byte.of_N (16 * hi + lo)%N;
      rest ← from_hex l'; Some (x :: rest)
  | _ => None
  end.

(** [B256::from_str] *)
Definition parse_B256 (l : list ascii) : Result B256 :=
  let digits := match l with
                | a :: b :: l' => if decide (a = "0"%char /\ b = "x"%char) then l' else l
                | _ => l
                end in
  if (length digits =? 64)%nat then ok_or (from_hex digits) "invalid hex" else Err (Fail "invalid string length").

(** ** Names *)

Definition strip_prefix_chars (p l : list ascii) : option (list ascii) :=
  if decide (take (length p) l = p) then Some (drop (length p) l) else None.

Definition blob_file_name (index : N) (vh : B256) : string :=
  sol (los "blob-" ++ padded 2 index ++ los "_" ++ B256_text vh ++ los ".bin").

Definition parse_blob_file_name (file_name : string) : Result (option (N * B256)) :=
  match strip_prefix_chars (los "blob-") (los file_name) ≫= strip_suffix (los ".bin") with
  | None => Ok None
  | Some s =>
      match split_on "_"%char s with
      | [index_str; versioned_hash_str] =>
          let? index := parse_usize index_str in
          let? versioned_hash := parse_B256 versioned_hash_str in
          Ok (Some (index, versioned_hash))
      | _ => Err (Panic "called `Result::unwrap()` on an `Err` value")
      end
  end.

(** The directories of a slot and of a block root, below [by_slot] and
    [by_root]. *)
Record DirPath : Type := MkDir { d_hi : string; d_mid : string; d_lo : string }.
#[global] Instance DirPath_eq_dec : EqDecision DirPath.
Proof. solve_decision. Defined.

Definition slot_dir_from (slot : Z) : DirPath :=
  let slot_hi := (slot / 1000000)%Z in
  let slot_mid := ((slot - slot_hi * 1000000) / 1000)%Z in
  let slot_lo := (slot - slot_hi * 1000000 - slot_mid * 1000)%Z in
  let text n := sol (padded 3 (Z.to_N n)) in
  MkDir (text slot_hi) (text slot_mid) (text slot_lo).

Definition root_dir_from (root : B256) : DirPath :=
  let root_str := B256_text root in
  MkDir (sol (take 5 root_str)) (sol (take 3 (drop 5 root_str))) (sol (drop 8 root_str)).

(** ** Reading back what was written *)

Lemma digit_digit_value n : (n < 10)%N -> digit_value (digit n) = Some n.
Proof.
  intros Hn. unfold digit_value, digit. rewrite N_ascii_embedding by lia.
  replace ((48 <=? 48 + n) && (48 + n <=? 57))%N with true; [f_equal; lia|].
  symmetry. apply andb_true_intro. split; apply N.leb_le; lia.
Qed.

Lemma from_digits_snoc l c : from_digits (l ++ [c]) = (a ← from_digits l; d ← digit_value c; Some (10 * a + d)%N).
Proof. unfold from_digits. by rewrite foldl_app. Qed.

Lemma from_digits_decimal_from fuel n : (n < 2 ^ N.of_nat fuel)%N -> (0 < fuel)%nat -> from_digits (decimal_from fuel n) = Some n.
Proof.
  revert n. induction fuel as [|fuel IH]; intros n Hn Hf; [lia|]. simpl. destruct (N.ltb_spec n 10).
  - unfold from_digits. simpl. by rewrite digit_digit_value.
  - rewrite from_digits_snoc, IH.
    + simpl. rewrite digit_digit_value by (apply N.mod_lt; lia). simpl. f_equal. pose proof (N.div_mod n 10 ltac:(lia)). lia.
    + rewrite Nat2N.inj_succ, N.pow_succ_r' in Hn. apply N.Div0.div_lt_upper_bound. lia.
    + destruct fuel; [|lia]. simpl in Hn. lia.
Qed.

Lemma from_digits_decimal n : from_digits (decimal n) = Some n.
Proof.
  unfold decimal. apply from_digits_decimal_from; [|lia]. rewrite Nat2N.inj_succ, N2Nat.id, N.pow_succ_r'.
  pose proof (N.size_gt n). lia.
Qed.

Lemma from_digits_zeros k l : from_digits (replicate k "0"%char ++ l) = from_digits l.
Proof. unfold from_digits. rewrite foldl_app. f_equal. by induction k. Qed.

Lemma from_digits_padded w n : from_digits (padded w n) = Some n.
Proof. unfold padded. by rewrite from_digits_zeros, from_digits_decimal. Qed.

Lemma padded_inj w n m : padded w n = padded w m -> n = m.
Proof. intros H%(f_equal from_digits). rewrite !from_digits_padded in H. by injection H. Qed.

Lemma decimal_from_chars fuel n c : c ∈ decimal_from fuel n -> is_Some (digit_value c).
Proof.
  revert n. induction fuel as [|fuel IH]; intros n; simpl; [by intros ?%not_elem_of_nil|]. destruct (N.ltb_spec n 10).
  - intros ->%list_elem_of_singleton. rewrite digit_digit_value by done. eauto.
  - intros [Hc| ->%list_elem_of_singleton]%elem_of_app; [eauto|]. rewrite digit_digit_value by (apply N.mod_lt; lia). eauto.
Qed.

Lemma padded_chars w n c : c ∈ padded w n -> is_Some (digit_value c).
Proof.
  unfold padded. intros [[-> _]%elem_of_replicate|Hc]%elem_of_app; [by eexists|by eapply decimal_from_chars].
Qed.

Lemma padded_nonempty w n : padded w n <> [].
Proof.
  unfold padded, decimal. intros [_ Hd]%app_nil. revert Hd. simpl. destruct (n <? 10)%N; [done|]. by intros [_ ?]%app_nil.
Qed.

Lemma parse_usize_padded w n : (n < 2 ^ 64)%N -> parse_usize (padded w n) = Ok n.
Proof.
  intros Hn. unfold parse_usize. pose proof (padded_nonempty w n) as Hne. pose proof (from_digits_padded w n) as Hd.
  pose proof (padded_chars w n) as Hc. destruct (padded w n) as [|c l]; [done|].
  rewrite decide_False by (intros ->; destruct (Hc "+"%char) as [? Hx]; [left|discriminate Hx]).
  rewrite Hd. simpl. apply N.ltb_lt in Hn. by rewrite Hn.
Qed.

Lemma from_hex_byte b l : from_hex (hex_byte b ++ l) = (rest ← from_hex l; Some (b :: rest)).
Proof. destruct b; done. Qed.

Lemma from_hex_text h : from_hex (flat_map hex_byte h) = Some h.
Proof.
  induction h as [|b h IH]; [done|]. change (flat_map hex_byte (b :: h)) with (hex_byte b ++ flat_map hex_byte h).
  by rewrite from_hex_byte, IH.
Qed.

Lemma length_hex h : length (flat_map hex_byte h) = (2 * length h)%nat.
Proof. induction h as [|b h IH]; [done|]. simpl. lia. Qed.

Lemma parse_B256_text h : length h = 32%nat -> parse_B256 (B256_text h) = Ok h.
Proof.
  intros Hl. unfold parse_B256, B256_text. simpl. rewrite length_hex, Hl. simpl. by rewrite from_hex_text.
Qed.

Lemma B256_text_inj : Inj (=) (=) B256_text.
Proof. intros a b [= Heq]. apply (f_equal from_hex) in Heq. rewrite !from_hex_text in Heq. by injection Heq. Qed.

Lemma cut_inj (l k : list ascii) :
  sol (take 5 l) = sol (take 5 k) -> sol (take 3 (drop 5 l)) = sol (take 3 (drop 5 k)) -> sol (drop 8 l) = sol (drop 8 k) -> l = k.
Proof.
  intros H1%sol_inj H2%sol_inj H3%sol_inj. rewrite <-(take_drop 5 l), <-(take_drop 5 k), H1. f_equal.
  rewrite <-(take_drop 3 (drop 5 l)), <-(take_drop 3 (drop 5 k)), H2. f_equal. by rewrite !drop_drop.
Qed.

Lemma root_dir_from_inj : Inj (=) (=) root_dir_from.
Proof.
  intros a b Heq. apply B256_text_inj, cut_inj; [exact (f_equal d_hi Heq)|exact (f_equal d_mid Heq)|exact (f_equal d_lo Heq)].
Qed.

Lemma hex_byte_chars b c : c ∈ hex_byte b -> c <> "_"%char.
Proof. destruct b; intros [->|[->|[]%not_elem_of_nil]%elem_of_cons]%elem_of_cons; done. Qed.

Lemma B256_text_chars h : "_"%char ∉ B256_text h.
Proof.
  unfold B256_text. intros [Hc|Hc]%elem_of_app; [revert Hc; apply (bool_decide_unpack _); done|].
  apply list_elem_of_In, in_flat_map in Hc as (b & _ & Hb%list_elem_of_In). by apply hex_byte_chars in Hb.
Qed.

Lemma split_on_app c l k : c ∉ l -> split_on c (l ++ c :: k) = l :: split_on c k.
Proof.
  induction l as [|a l IH]; intros Hc; simpl; [by rewrite decide_True|].
  apply not_elem_of_cons in Hc as [Ha Hc]. rewrite decide_False by done. by rewrite IH.
Qed.

Lemma strip_prefix_chars_app p l : strip_prefix_chars p (p ++ l) = Some l.
Proof. unfold strip_prefix_chars. rewrite take_app_length, decide_True by done. by rewrite drop_app_length. Qed.

(** ** The order of slots *)

Definition three_digits (n : Z) : string := sol (padded 3 (Z.to_N n)).

Lemma three_digits_step : forallb (fun n => String.leb (three_digits (Z.of_nat n)) (three_digits (Z.of_nat (S n)))) (seq 0 999) = true.
Proof. vm_compute. reflexivity. Qed.

Lemma three_digits_mono a b : (0 <= a <= b)%Z -> (b < 1000)%Z -> String.le (three_digits a) (three_digits b).
Proof.
  intros Hab Hb. replace b with (a + Z.of_nat (Z.to_nat (b - a)))%Z by lia.
  assert (Hk : (a + Z.of_nat (Z.to_nat (b - a)) < 1000)%Z) by lia. revert Hk. generalize (Z.to_nat (b - a)). intros k.
  induction k as [|k IH]; intros Hk; [by rewrite Z.add_0_r|]. transitivity (three_digits (a + Z.of_nat k)); [apply IH; lia|].
  pose proof (proj1 (forallb_forall _ _) three_digits_step (Z.to_nat a + k)%nat) as Hs. rewrite in_seq in Hs. unfold String.le.
  replace (a + Z.of_nat k)%Z with (Z.of_nat (Z.to_nat a + k)) by lia.
  replace (a + Z.of_nat (S k))%Z with (Z.of_nat (S (Z.to_nat a + k))) by lia. rewrite Hs by lia. exact I.
Qed.

Lemma three_digits_inj a b : (0 <= a)%Z -> (0 <= b)%Z -> three_digits a = three_digits b -> a = b.
Proof. intros Ha Hb Heq%sol_inj%padded_inj. lia. Qed.

(** Slots below this bound have three parts of three digits. *)
Definition SLOT_BOUND : Z := 1000000000.

Lemma slot_parts s :
  (0 <= s < SLOT_BOUND)%Z ->
  exists hi mid lo, slot_dir_from s = MkDir (three_digits hi) (three_digits mid) (three_digits lo)
    /\ s = (hi * 1000000 + mid * 1000 + lo)%Z /\ (0 <= hi < 1000)%Z /\ (0 <= mid < 1000)%Z /\ (0 <= lo < 1000)%Z.
Proof.
  unfold SLOT_BOUND. intros Hs. eexists _, _, _. split; [reflexivity|].
  pose proof (Z.div_mod s 1000000 ltac:(lia)) as H1. pose proof (Z.mod_pos_bound s 1000000 ltac:(lia)) as H2.
  replace (s - s / 1000000 * 1000000)%Z with (s mod 1000000)%Z by lia.
  pose proof (Z.div_mod (s mod 1000000) 1000 ltac:(lia)) as H3. pose proof (Z.mod_pos_bound (s mod 1000000) 1000 ltac:(lia)) as H4.
  lia.
Qed.

Lemma slot_dir_from_inj a b :
  (0 <= a < SLOT_BOUND)%Z -> (0 <= b < SLOT_BOUND)%Z -> slot_dir_from a = slot_dir_from b -> a = b.
Proof.
  intros (h & m & l & -> & -> & ? & ? & ?)%slot_parts (h' & m' & l' & -> & -> & ? & ? & ?)%slot_parts Heq.
  injection Heq as Hh%three_digits_inj Hm%three_digits_inj Hl%three_digits_inj; lia.
Qed.

(** A later slot has a later directory: at the first level where the two differ,
    and at that level by the order of names. *)
Lemma slot_dir_order a b :
  (0 <= a <= b)%Z -> (b < SLOT_BOUND)%Z ->
  let p := slot_dir_from a in let q := slot_dir_from b in
  String.le (d_hi p) (d_hi q)
  /\ (d_hi p = d_hi q -> String.le (d_mid p) (d_mid q) /\ (d_mid p = d_mid q -> String.le (d_lo p) (d_lo q))).
Proof.
  intros Hab Hb. destruct (slot_parts a) as (h & m & l & -> & Ha & ? & ? & ?); [unfold SLOT_BOUND in *; lia|].
  destruct (slot_parts b) as (h' & m' & l' & -> & Hb' & ? & ? & ?); [unfold SLOT_BOUND in *; lia|]. simpl.
  split; [apply three_digits_mono; lia|]. intros ->%three_digits_inj; [|lia..].
  split; [apply three_digits_mono; lia|]. intros ->%three_digits_inj; [|lia..]. apply three_digits_mono; lia.
Qed.

(** The name of a blob gives back its index and its versioned hash. *)
Theorem blob_file_name_roundtrip index vh :
  (index < 2 ^ 64)%N -> length vh = 32%nat -> parse_blob_file_name (blob_file_name index vh) = Ok (Some (index, vh)).
Proof.
  intros Hi Hv. unfold parse_blob_file_name, blob_file_name. rewrite los_sol, strip_prefix_chars_app. cbn [mbind option_bind].
  rewrite !(assoc_L (++)), strip_suffix_app. change (los "_") with ["_"%char]. rewrite <-(assoc_L (++)). simpl.
  rewrite split_on_app.
  - rewrite split_on_none by apply B256_text_chars. rewrite parse_usize_padded by done. simpl. by rewrite parse_B256_text.
  - intros Hc. apply padded_chars in Hc as [? Hx]. discriminate Hx.
Qed.
End ArchiverNames.
