(* ===== verification/ArchiverStore.v ===== *)
(** * The archive on disk (services/archiver/src/node.rs, [Store])

    Below [by_root] every block has a directory with its blobs and, once the
    block is complete, its header; below [by_slot] a link leads from the slot to
    that directory. Both are directories of three levels. Every call to the file
    system may fail: a failed write may leave a torn file, and a recursive removal
    that stops may leave some of what it was to remove. A crash is a failure after
    which nothing more is done. *)

From stdpp Require Import sorting.
From S2P Require Import Prelude ObjectNames Archiver Node ArchiverNames.

Module ArchiverStore.
Import Node ArchiverNames.
Abbreviation StoredBlob := Archiver.StoredBlob.

(** ** Directories of three levels *)

Abbreviation Tree A := (gmap string (gmap string (gmap string A))).

Section Trees.
Context {A : Type}.
Implicit Types (t : Tree A) (p : DirPath).

Definition level1 t p : gmap string (gmap string A) := default ∅ (t !! d_hi p).
Definition level2 t p : gmap string A := default ∅ (level1 t p !! d_mid p).
Definition at_path t p : option A := level2 t p !! d_lo p.

(** [create_dir_all] of the directory above [p]. *)
Definition make_parents p t : Tree A := <[d_hi p := <[d_mid p := level2 t p]> (level1 t p)]> t.
Definition put p a t : Tree A := <[d_hi p := <[d_mid p := <[d_lo p := a]> (level2 t p)]> (level1 t p)]> t.

(** Removing [p], the directory above it, or the one above that. *)
Definition cut (level : nat) p t : Tree A :=
  match level with
  | O => alter (alter (delete (d_lo p)) (d_mid p)) (d_hi p) t
  | S O => alter (delete (d_mid p)) (d_hi p) t
  | _ => delete (d_hi p) t
  end.
End Trees.

(** ** The machine *)

Inductive WriteOutcome : Type := Written | NotWritten (m : string) | Torn (data : list byte) (m : string).
(** What is left of a directory: some files, or the directories above it. *)
Inductive RemoveOutcome : Type :=
| Removed
| KeptFiles (names : gset string) (m : string)
| KeptParents (level : nat) (m : string).

Class Machine : Type := {
  Env : Type;
  io : Env -> option string * Env;
  io_write : Env -> WriteOutcome * Env;
  io_remove : Env -> RemoveOutcome * Env;
  header_json : BlockHeader -> list byte;
  parse_header : list byte -> Result BlockHeader;
}.

Abbreviation Files := (gmap string (list byte)).
Record Disk : Type := MkDisk { by_slot : Tree DirPath; by_root : Tree Files }.
Record World `{Machine} : Type := MkWorld { disk : Disk; env : Env }.

Section Store.
Context `{Machine}.

Definition on_env {A} (c : eff Env A) : eff World A := fun w =>
  let '(r, e) := c (env w) in (r, MkWorld _ (disk w) e).
Definition fs_call : eff World unit := on_env (fun e =>
  match io e with (None, e') => (Ok tt, e') | (Some m, e') => (Err (Fail m), e') end).
Definition modify (f : Disk -> Disk) : eff World unit := fun w => (Ok tt, MkWorld _ (f (disk w)) (env w)).
Definition on_slots (f : Tree DirPath -> Tree DirPath) (d : Disk) : Disk := MkDisk (f (by_slot d)) (by_root d).
Definition on_roots (f : Tree Files -> Tree Files) (d : Disk) : Disk := MkDisk (by_slot d) (f (by_root d)).

Definition files_of (d : Disk) (p : DirPath) : option Files := at_path (by_root d) p.

Definition create_root_dir (p : DirPath) : eff World unit :=
  fs_call ;!
  modify (on_roots (fun t => match at_path t p with Some _ => t | None => put p ∅ t end)).

(** A file of a block's directory. *)
Definition write_file (p : DirPath) (name : string) (data : list byte) : eff World unit := fun w =>
  let '(o, e) := io_write (env w) in
  let write x := on_roots (fun t => match at_path t p with Some fs => put p (<[name := x]> fs) t | None => t end) (disk w) in
  match files_of (disk w) p, o with
  | None, _ => (Err (Fail "No such file or directory"), MkWorld _ (disk w) e)
  | Some _, Written => (Ok tt, MkWorld _ (write data) e)
  | Some _, NotWritten m => (Err (Fail m), MkWorld _ (disk w) e)
  | Some _, Torn x m => (Err (Fail m), MkWorld _ (write x) e)
  end.

Definition rename_file (p : DirPath) (from to : string) : eff World unit :=
  fs_call ;!
  let! w := eget in
  match files_of (disk w) p with
  | Some fs =>
      match fs !! from with
      | Some data => modify (on_roots (put p (<[to := data]> (delete from fs))))
      | None => ethrow (Fail "No such file or directory")
      end
  | None => ethrow (Fail "No such file or directory")
  end.

(** How many directories above a block's directory hold nothing else; the
    recursive removal starts there. *)
Definition removal_level {A} (t : Tree A) (p : DirPath) : nat :=
  if bool_decide (size (level2 t p) = 1%nat) then if bool_decide (size (level1 t p) = 1%nat) then 2 else 1 else 0.

Definition remove_dir_all (p : DirPath) : eff World unit := fun w =>
  let '(o, e) := io_remove (env w) in
  let level := removal_level (by_root (disk w)) p in
  match o with
  | Removed => (Ok tt, MkWorld _ (on_roots (cut level p) (disk w)) e)
  | KeptFiles names m =>
      (Err (Fail m), MkWorld _ (on_roots (fun t =>
        match at_path t p with Some fs => put p (filter (fun kv => fst kv ∈ names) fs) t | None => t end) (disk w)) e)
  | KeptParents n m => (Err (Fail m), MkWorld _ (on_roots (cut (Nat.min n level) p) (disk w)) e)
  end.

(** The link is read and removed; what it leads to goes first. *)
Definition delete_block_data (slot_path : DirPath) : eff World bool :=
  fs_call ;!
  let! w := eget in
  match at_path (by_slot (disk w)) slot_path with
  | None => eret false
  | Some root_path =>
      fs_call ;!
      (match files_of (disk w) root_path with
       | Some _ => fs_call ;! remove_dir_all root_path
       | None => eret tt
       end) ;!
      fs_call ;!
      modify (on_slots (cut 0 slot_path)) ;!
      eret true
  end.

(** The last name in the order of a sorted directory. *)
Definition last_name {A} (m : gmap string A) : option string := last (merge_sort String.le (fst <$> map_to_list m)).

(** The descent to the highest slot. *)
Inductive Descent : Type :=
| NoBlocks
| EmptyDir (level : nat) (at_ : DirPath)
| Highest (slot_path : DirPath).

Definition descend (t : Tree DirPath) : Descent :=
  match last_name t with
  | None => NoBlocks
  | Some hi =>
      let l1 := default ∅ (t !! hi) in
      match last_name l1 with
      | None => EmptyDir 2 (MkDir hi EmptyString EmptyString)
      | Some mid =>
          let l2 := default ∅ (l1 !! mid) in
          match last_name l2 with
          | None => EmptyDir 1 (MkDir hi mid EmptyString)
          | Some lo => Highest (MkDir hi mid lo)
          end
      end
  end.

Definition HEADER_FILE : string := "header.json".
Definition header_file (d : Disk) (slot_path : DirPath) : option (list byte) :=
  root_path ← at_path (by_slot d) slot_path; fs ← files_of d root_path; fs !! HEADER_FILE.

Fixpoint last_header (fuel : nat) : eff World (option BlockHeader) :=
  match fuel with
  | O => ethrow (Panic "out of fuel")
  | S fuel' =>
      fs_call ;!
      let! w := eget in
      match descend (by_slot (disk w)) with
      | NoBlocks => eret None
      | EmptyDir level p => fs_call ;! modify (on_slots (cut level p)) ;! last_header fuel'
      | Highest slot_path =>
          fs_call ;!
          match header_file (disk w) slot_path with
          | None => delete_block_data slot_path ;! last_header fuel'
          | Some data => let! header := elift (parse_header data) in eret (Some header)
          end
      end
  end.

(** The names below [by_slot]: every retry removes one. *)
Definition total {A} (f : A -> nat) (m : gmap string A) : nat := sum_list_with (fun kv => f (snd kv)) (map_to_list m).
Definition tree_size {A} (t : Tree A) : nat := total (fun l1 => S (total (fun l2 => S (size l2)) l1)) t.

Definition BYTES_PER_BLOB : Z := 131072.

Definition load_blob (f : string * list byte) : Result (option StoredBlob) :=
  let '(file_name, data) := f in
  let? parsed := parse_blob_file_name file_name in
  match parsed with
  | None => Ok None
  | Some (index, versioned_hash) =>
      rensure (Z.of_nat (length data) =? BYTES_PER_BLOB)%Z "invalid blob length" ;?
      Ok (Some {| Archiver.index := N.to_nat index; Archiver.vh := versioned_hash; Archiver.blob := data |})
  end.

Definition load_blobs_disk (d : Disk) (root : B256) : Result (list StoredBlob) :=
  match files_of d (root_dir_from root) with
  | None => Ok []
  | Some fs =>
      let? blobs := try_map load_blob (map_to_list fs) in
      Ok (merge_sort Archiver.index_le (omap id blobs))
  end.

Definition store_blob (p : DirPath) (b : StoredBlob) : eff World unit :=
  let name := blob_file_name (N.of_nat (Archiver.index b)) (Archiver.vh b) in
  write_file p (name +:+ ".tmp") (Archiver.blob b) ;!
  rename_file p (name +:+ ".tmp") name.

Definition store_blobs_disk (header : BlockHeader) (blobs : list StoredBlob) : eff World unit :=
  let root_dir := root_dir_from (hd_root header) in
  create_root_dir root_dir ;!
  efold (fun _ b => store_blob root_dir b) tt blobs.
End Store.
End ArchiverStore.
