(* ===== verification/ArchiverNode.v ===== *)
(** * Archiving the chain (services/archiver/src/node.rs, [Node], and
    [follow_chain] of services/archiver/src/main.rs)

    Slot by slot, the header of a block is recorded, its filtered blobs are
    fetched and stored, and the header is made visible last. A block whose parent
    is not the last one stored starts a rewind by one block. *)

From stdpp Require Import sorting.
From S2P Require Import Prelude Pod2 ObjectNames Archiver Node ArchiverNames ArchiverStore.

Module ArchiverNode.
Import Node ArchiverNames ArchiverStore.

(** The beacon and the execution client. Polling until an answer is available is
    part of the answer. *)
Class Clients `{Machine} : Type := {
  get_block_header : Z -> eff Env (option BlockHeader);
  get_head_header : eff Env BlockHeader;
  get_block : B256 -> eff Env Block;
  get_execution_block : B256 -> eff Env ExecBlock;
  beacon_get_blobs : B256 -> list B256 -> eff Env (list (list byte));
  kzg_to_versioned_hash : list byte -> B256;
}.

Section Node.
Context `{Clients} (filter_address : list byte) (init_start_slot : Z).

(** ** One block *)

(** Stored blobs are reused, the others fetched and stored. *)
Definition sort_requested (stored : list StoredBlob) (versioned_hashes : list B256) : list StoredBlob * list B256 :=
  (omap (Archiver.find_blob stored) versioned_hashes,
   filter (fun vh => Archiver.find_blob stored vh = None) versioned_hashes).

Definition index_blob (commitments : list (B256 * list byte)) (f : B256 * list byte) : Result StoredBlob :=
  let '(vh, blob) := f in
  let? (index, _) := expect (list_find (fun c => c.1 = vh) commitments) "called `Option::unwrap()` on a `None` value" in
  Ok {| Archiver.index := index; Archiver.vh := vh; Archiver.blob := blob |}.

Definition get_blobs (header : BlockHeader) (commitments : list (B256 * list byte)) (versioned_hashes : list B256) :
    eff World (list StoredBlob) :=
  fs_call ;!
  let! w := eget in
  let! stored := elift (load_blobs_disk (disk w) (hd_root header)) in
  let '(result, missing_vhs) := sort_requested stored versioned_hashes in
  match missing_vhs with
  | [] => eret result
  | _ =>
      let! blobs := on_env (beacon_get_blobs (hd_root header) missing_vhs) in
      elift (rassert (length blobs =? length missing_vhs)%nat "assertion `left == right` failed") ;!
      let! missing_blobs := elift (try_map (index_blob commitments) (zip missing_vhs blobs)) in
      store_blobs_disk header missing_blobs ;!
      eret (result ++ missing_blobs)
  end.

(** Whether a transaction has blobs and goes to the filtered address. *)
Definition is_target (tx : ExecTx) : bool :=
  bool_decide (is_Some (etx_blob_versioned_hashes tx)) && bool_decide (etx_to tx = Some filter_address).

Definition target_hashes (txs : list ExecTx) : list B256 :=
  flat_map (fun tx => default [] (etx_blob_versioned_hashes tx)) (filter (fun tx => is_target tx = true) txs).

Definition process_payload_blobs (header : BlockHeader) (block : Block) : eff World unit :=
  let commitments := (fun c => (kzg_to_versioned_hash c, c)) <$> blob_kzg_commitments block in
  match commitments with
  | [] => eret tt
  | _ =>
      let! execution_block := on_env (get_execution_block (block_hash (execution_payload block))) in
      let! txs := elift (ok_or (eb_transactions execution_block) "the execution block doesn't have txs") in
      let vhs := target_hashes txs in
      match vhs with
      | [] => eret tt
      | _ =>
          let! blobs := get_blobs header commitments vhs in
          elift (rassert (length blobs =? length vhs)%nat "assertion `left == right` failed")
      end
  end.

Definition process_beacon_block_blobs (header : BlockHeader) (prev_block : option BlockAndRoot) : eff World BlockAndRoot :=
  let! block := on_env (get_block (hd_root header)) in
  let processed := {| br_root := hd_root header; br_block := block |} in
  match execution_payload block with
  | Embedded _ => process_payload_blobs header block ;! eret processed
  | Bid _ _ =>
      let! parent_block :=
        match prev_block with
        | Some b => if bool_decide (br_root b = hd_parent_root header) then eret (br_block b)
                    else on_env (get_block (hd_parent_root header))
        | None => on_env (get_block (hd_parent_root header))
        end in
      if builds_on_payload_of block parent_block then
        process_payload_blobs {| hd_root := hd_parent_root header; hd_parent_root := parent_root parent_block;
                                 hd_slot := blk_slot parent_block |} parent_block ;!
        eret processed
      else eret processed
  end.

Definition create_link (slot_path root_path : DirPath) : eff World unit :=
  fs_call ;!
  modify (on_slots (make_parents slot_path)) ;!
  fs_call ;!
  let! w := eget in
  match at_path (by_slot (disk w)) slot_path with
  | Some _ => ethrow (Fail "File exists")
  | None => modify (on_slots (put slot_path root_path))
  end.

Definition HEADER_TMP : string := HEADER_FILE +:+ ".tmp".

Definition process_beacon_block_header (header : BlockHeader) (prev_block : option BlockAndRoot) : eff World BlockAndRoot :=
  let root_dir := root_dir_from (hd_root header) in
  create_link (slot_dir_from (hd_slot header)) root_dir ;!
  create_root_dir root_dir ;!
  write_file root_dir HEADER_TMP (header_json header) ;!
  let! block := process_beacon_block_blobs header prev_block in
  fs_call ;!
  rename_file root_dir HEADER_TMP HEADER_FILE ;!
  eret block.

(** ** Following the chain *)

Record Progress : Type := MkProgress {
  slot : Z;
  head : BlockHeader;
  prev_header : option BlockHeader;
  prev_block : option BlockAndRoot;
}.

Definition load_last_header : eff World (option BlockHeader) :=
  let! w := eget in last_header (S (tree_size (by_slot (disk w)))).

Definition next_slot (prev : option BlockHeader) : Z := from_option (fun h => hd_slot h + 1)%Z init_start_slot prev.

(** The spec is fetched for the log only; that it cannot be had is a failure to
    have the head. *)
Definition start : eff World Progress :=
  let! head := on_env get_head_header in
  let! prev := load_last_header in
  eret (MkProgress (next_slot prev) head prev None).

(** Polling for the head to reach the slot, at most [fuel] times. *)
Fixpoint await_slot (fuel : nat) (s : Z) : eff World (BlockHeader * option BlockHeader) :=
  match fuel with
  | O => ethrow (Fail "still waiting")
  | S fuel' =>
      let! head := on_env get_head_header in
      if (s <? hd_slot head)%Z then
        let! h := on_env (get_block_header s) in eret (head, h)
      else if (s =? hd_slot head)%Z then eret (head, Some head)
      else await_slot fuel' s
  end.

(** Deleting the last stored block: slots without a block are passed over. A
    slot is a [u32]. *)
Fixpoint rewind (fuel : nat) (s : Z) : eff World (option BlockHeader) :=
  match fuel with
  | O => ethrow (Panic "out of fuel")
  | S fuel' =>
      if (s =? 0)%Z then ethrow (Panic "attempt to subtract with overflow")
      else
        let! deleted := delete_block_data (slot_dir_from (s - 1)) in
        let! prev := load_last_header in
        if deleted || bool_decide (prev = None) then eret prev else rewind fuel' (s - 1)
  end.

(** One turn of the loop. *)
Definition visit (fuel : nat) (p : Progress) : eff World Progress :=
  let! (head, some_header) :=
    (if (slot p <=? hd_slot (head p))%Z then
       let! h := on_env (get_block_header (slot p)) in eret (head p, h)
     else await_slot fuel (slot p)) in
  match some_header with
  | None => eret (MkProgress (slot p + 1) head (prev_header p) (prev_block p))
  | Some header =>
      if bool_decide (from_option hd_root (hd_parent_root header) (prev_header p) = hd_parent_root header) then
        let! block := process_beacon_block_header header (prev_block p) in
        eret (MkProgress (slot p + 1) head (Some header) (Some block))
      else
        let! prev := rewind (S (Z.to_nat (slot p))) (slot p) in
        eret (MkProgress (next_slot prev) head prev (prev_block p))
  end.
End Node.
End ArchiverNode.
