(* ===== verification/ArchiverTrees.v ===== *)
(** * Directories of three levels

    How the calls that change the archive's directories change what is found at
    a path, and that the descent finds the highest one. *)

From stdpp Require Import sorting.
From S2P Require Import Prelude Pod2 ObjectNames Archiver Node ArchiverNames ArchiverStore.

Module ArchiverTrees.
Import Node ArchiverNames ArchiverStore.

(** ** Trees *)

Section Trees.
Context {A : Type}.
Implicit Types (t : Tree A) (p q : DirPath).

Lemma path_ext p q : d_hi p = d_hi q -> d_mid p = d_mid q -> d_lo p = d_lo q -> p = q.
Proof. destruct p, q. simpl. congruence. Qed.

Lemma level2_put_mid t p q m :
  level2 (<[d_hi p := <[d_mid p := m]> (level1 t p)]> t) q
  = if decide (d_hi q = d_hi p /\ d_mid q = d_mid p) then m else level2 t q.
Proof.
  unfold level2, level1. destruct (decide (d_hi q = d_hi p)) as [->|Hh].
  - rewrite lookup_insert_eq. simpl. destruct (decide (d_mid q = d_mid p)) as [->|Hm].
    + rewrite lookup_insert_eq, decide_True by done. done.
    + rewrite lookup_insert_ne, decide_False by naive_solver. done.
  - rewrite lookup_insert_ne, decide_False by naive_solver. done.
Qed.

Lemma at_path_put t p q a : at_path (put p a t) q = if decide (q = p) then Some a else at_path t q.
Proof.
  unfold at_path, put. rewrite level2_put_mid. destruct (decide (q = p)) as [->|Hne].
  - by rewrite decide_True, lookup_insert_eq.
  - case_decide as Hd; [|done]. destruct Hd as [Hh Hm]. rewrite lookup_insert_ne.
    + unfold level2, level1. by rewrite Hh, Hm.
    + intros Hl. apply Hne, path_ext; done.
Qed.

Lemma at_path_make_parents t p q : at_path (make_parents p t) q = at_path t q.
Proof.
  unfold at_path, make_parents. rewrite level2_put_mid. case_decide as Hd; [|done]. destruct Hd as [Hh Hm].
  unfold level2, level1. by rewrite Hh, Hm.
Qed.

Lemma level1_alter f t p q :
  level1 (alter f (d_hi p) t) q = if decide (d_hi q = d_hi p /\ is_Some (t !! d_hi p)) then f (level1 t p) else level1 t q.
Proof.
  unfold level1. destruct (decide (d_hi q = d_hi p)) as [->|Hh].
  - rewrite lookup_alter_eq. destruct (t !! d_hi p); simpl; [by rewrite decide_True by eauto|].
    rewrite decide_False; [done|]. by intros [_ [? ?]].
  - rewrite lookup_alter_ne, decide_False by naive_solver. done.
Qed.

Lemma at_path_cut0 t p q : at_path (cut 0 p t) q = if decide (q = p) then None else at_path t q.
Proof.
  unfold at_path, level2, cut. rewrite level1_alter. destruct (decide (q = p)) as [->|Hne].
  - destruct (t !! d_hi p) as [l1|] eqn:Hh.
    + rewrite decide_True by eauto. rewrite lookup_alter_eq. destruct (level1 t p !! d_mid p); simpl; [apply lookup_delete_eq|apply lookup_empty].
    + rewrite decide_False by (by intros [_ [? ?]]). unfold level1. rewrite Hh. simpl. by rewrite lookup_empty.
  - case_decide as Hd; [|done]. destruct Hd as [Hh _]. assert (Hl1 : level1 t q = level1 t p) by (unfold level1; by rewrite Hh).
    rewrite Hl1. destruct (decide (d_mid q = d_mid p)) as [Hm|Hm]; [|by rewrite lookup_alter_ne].
    rewrite Hm, lookup_alter_eq. destruct (level1 t p !! d_mid p) as [l2|]; simpl; [|by rewrite lookup_empty].
    rewrite lookup_delete_ne; [done|]. intros Hl. by apply Hne, path_ext.
Qed.
End Trees.

Lemma only_key {A} (m : gmap string A) k k' : size m = 1%nat -> is_Some (m !! k) -> is_Some (m !! k') -> k' = k.
Proof.
  intros Hs Hk [a' Hk']. destruct (decide (k' = k)) as [|Hne]; [done|]. exfalso.
  apply map_size_delete_Some in Hk. rewrite Hs in Hk. apply map_size_empty_inv in Hk.
  assert (Hd : delete k m !! k' = Some a') by (by rewrite lookup_delete_ne). by rewrite Hk, lookup_empty in Hd.
Qed.

Section Removal.
Context {A : Type}.
Implicit Types (t : Tree A) (p q : DirPath).

Lemma at_path_levels t p a :
  at_path t p = Some a -> t !! d_hi p = Some (level1 t p) /\ level1 t p !! d_mid p = Some (level2 t p).
Proof.
  unfold at_path, level2, level1. destruct (t !! d_hi p) as [l1|]; simpl; [|by rewrite !lookup_empty].
  destruct (l1 !! d_mid p) as [l2|]; simpl; [done|]. by rewrite lookup_empty.
Qed.

(** Removing the directories that hold nothing but [p] removes only [p]. *)
Lemma at_path_cut t p q n a :
  at_path t p = Some a -> (n <= removal_level t p)%nat -> at_path (cut n p t) q = if decide (q = p) then None else at_path t q.
Proof.
  intros Hp Hn. destruct (at_path_levels _ _ _ Hp) as [H1 H2]. unfold removal_level in Hn.
  assert (Hsame : d_hi q = d_hi p -> level1 t q = level1 t p) by (intros Hh; unfold level1; by rewrite Hh).
  assert (Hsame2 : d_hi q = d_hi p -> d_mid q = d_mid p -> level2 t q = level2 t p) by (intros Hh Hm; unfold level2; by rewrite (Hsame Hh), Hm).
  assert (Honly : size (level2 t p) = 1%nat -> d_hi q = d_hi p -> d_mid q = d_mid p -> at_path t q <> None -> q = p).
  { intros Hs Hh Hm Hq. apply path_ext; [done..|]. apply (only_key _ _ _ Hs); [by eexists|]. rewrite <-(Hsame2 Hh Hm). by apply not_eq_None_Some. }
  destruct n as [|[|n]]; [apply at_path_cut0|..].
  - case_bool_decide as Hs; [|lia]. unfold cut. unfold at_path at 1, level2 at 1. rewrite level1_alter.
    destruct (decide (d_hi q = d_hi p)) as [Hh|Hh].
    + rewrite (decide_True (P := d_hi q = d_hi p /\ _)) by (split; [done|by eexists]). destruct (decide (d_mid q = d_mid p)) as [Hm|Hm].
      * rewrite Hm, lookup_delete_eq. simpl. rewrite lookup_empty. destruct (decide (q = p)) as [|Hq]; [done|].
        destruct (at_path t q) eqn:Eq; [|done]. exfalso. by apply Hq, Honly.
      * rewrite lookup_delete_ne, decide_False by (done || by intros ->). unfold at_path, level2. by rewrite (Hsame Hh).
    + rewrite (decide_False (P := d_hi q = d_hi p /\ _)), decide_False by (by intros [? _] || by intros ->). done.
  - case_bool_decide as Hs; [|lia]. case_bool_decide as Hs1; [|lia]. replace n with 0%nat by lia. unfold cut.
    unfold at_path at 1, level2 at 1, level1 at 1. destruct (decide (d_hi q = d_hi p)) as [Hh|Hh].
    + rewrite Hh, lookup_delete_eq. simpl. rewrite !lookup_empty. simpl. rewrite ?lookup_empty. case_decide as Hq; [done|].
      destruct (at_path t q) eqn:Eq; [|done]. exfalso. apply Hq, Honly; [done..| |done].
      destruct (at_path_levels _ _ _ Eq) as [_ H2q]. apply (only_key _ _ _ Hs1); [by eexists|]. rewrite <-(Hsame Hh). by eexists.
    + rewrite lookup_delete_ne by done. rewrite decide_False by (by intros ->). done.
Qed.
End Removal.

(** ** The descent *)

Lemma last_name_None {A} (m : gmap string A) : last_name m = None -> m = ∅.
Proof.
  unfold last_name. intros Hl%last_None. apply map_to_list_empty_iff. destruct (map_to_list m) as [|kv l] eqn:Hm; [done|].
  pose proof (merge_sort_Permutation String.le (fst <$> kv :: l)) as Hp. rewrite Hl in Hp. by apply Permutation_nil_cons in Hp.
Qed.

Lemma last_name_Some {A} (m : gmap string A) k :
  last_name m = Some k -> is_Some (m !! k) /\ forall k', is_Some (m !! k') -> String.le k' k.
Proof.
  unfold last_name. intros Hl. set (l := fst <$> map_to_list m) in *.
  assert (Hin : forall k', k' ∈ merge_sort String.le l <-> is_Some (m !! k')).
  { intros k'. rewrite merge_sort_Permutation. unfold l. rewrite list_elem_of_fmap. split.
    - intros ([k'' a] & -> & Ha%elem_of_map_to_list). by eexists.
    - intros [a Ha%elem_of_map_to_list]. by exists (k', a). }
  pose proof (Sorted_merge_sort String.le l) as Hs. apply Sorted_StronglySorted in Hs; [|by intros ? ? ?; apply transitivity].
  apply last_Some in Hl as [l' Hl]. setoid_rewrite <-Hin. rewrite Hl in *. split; [set_solver|].
  intros k' [Hk'| ->%list_elem_of_singleton]%elem_of_app; [|done]. eapply StronglySorted_app_1_elem_of; [exact Hs|done|set_solver].
Qed.

(** The order in which the descent compares. *)
Definition path_le (q p : DirPath) : Prop :=
  String.le (d_hi q) (d_hi p)
  /\ (d_hi q = d_hi p -> String.le (d_mid q) (d_mid p) /\ (d_mid q = d_mid p -> String.le (d_lo q) (d_lo p))).

Lemma path_le_antisym p q : path_le p q -> path_le q p -> p = q.
Proof.
  intros [Hh Hr] [Hh' Hr']. assert (d_hi p = d_hi q) as Hhi by (by apply (anti_symm String.le)).
  destruct (Hr Hhi) as [Hm Hl], (Hr' (eq_sym Hhi)) as [Hm' Hl']. assert (d_mid p = d_mid q) as Hmid by (by apply (anti_symm String.le)).
  apply path_ext; [done..|]. apply (anti_symm String.le); auto.
Qed.

(** ** Sizes *)

Lemma total_delete {A} (f : A -> nat) (m : gmap string A) k a : m !! k = Some a -> total f m = (f a + total f (delete k m))%nat.
Proof. intros Hk. unfold total. by rewrite <-(map_to_list_delete m k a Hk). Qed.

Lemma total_alter {A} (f : A -> nat) (g : A -> A) (m : gmap string A) k a :
  m !! k = Some a -> (total f (alter g k m) + f a = total f m + f (g a))%nat.
Proof.
  intros Hk. rewrite (total_delete f m k a Hk). rewrite (total_delete f (alter g k m) k (g a)) by (by rewrite lookup_alter_eq, Hk).
  replace (delete k (alter g k m)) with (delete k m); [lia|].
  apply map_eq. intros j. destruct (decide (j = k)) as [->|Hj]; [by rewrite !lookup_delete_eq|].
  by rewrite !lookup_delete_ne, lookup_alter_ne by done.
Qed.

Lemma tree_size_cut0 {A} (t : Tree A) p a : at_path t p = Some a -> (tree_size (cut 0 p t) < tree_size t)%nat.
Proof.
  intros Hp. destruct (at_path_levels _ _ _ Hp) as [H1 H2]. unfold tree_size, cut.
  pose proof (total_alter (fun l1 => S (total (fun l2 => S (size l2)) l1)) (alter (delete (d_lo p)) (d_mid p)) t _ _ H1) as E1.
  pose proof (total_alter (fun l2 => S (size l2)) (delete (d_lo p)) _ _ _ H2) as E2. simpl in *.
  unfold at_path in Hp. rewrite map_size_delete, Hp in E2. simpl in E2.
  assert (size (level2 t p) <> 0%nat) by (rewrite map_size_empty_iff; intros He; by rewrite He, lookup_empty in Hp). lia.
Qed.

(** An empty directory is removed without a trace. *)
Lemma cut2_empty {A} (t : Tree A) p :
  t !! d_hi p = Some ∅ -> (forall q, at_path (cut 2 p t) q = at_path t q) /\ (tree_size (cut 2 p t) < tree_size t)%nat.
Proof.
  intros Hh. split.
  - intros q. unfold at_path, level2, level1, cut. destruct (decide (d_hi q = d_hi p)) as [->|Hq].
    + by rewrite lookup_delete_eq, Hh.
    + by rewrite lookup_delete_ne.
  - unfold tree_size, cut. rewrite (total_delete _ t _ _ Hh). lia.
Qed.

Lemma cut1_empty {A} (t : Tree A) p l1 :
  t !! d_hi p = Some l1 -> l1 !! d_mid p = Some ∅ ->
  (forall q, at_path (cut 1 p t) q = at_path t q) /\ (tree_size (cut 1 p t) < tree_size t)%nat.
Proof.
  intros Hh Hm. assert (Hl1 : level1 t p = l1) by (unfold level1; by rewrite Hh). split.
  - intros q. unfold at_path, level2, cut. rewrite level1_alter. destruct (decide (d_hi q = d_hi p)) as [Hq|Hq].
    + rewrite decide_True by (split; [done|by eexists]). assert (level1 t q = l1) as -> by (unfold level1; by rewrite Hq, Hh). rewrite Hl1.
      destruct (decide (d_mid q = d_mid p)) as [->|Hqm]; [by rewrite lookup_delete_eq, Hm|by rewrite lookup_delete_ne].
    + by rewrite decide_False by naive_solver.
  - unfold tree_size, cut. pose proof (total_alter (fun l1 => S (total (fun l2 => S (size l2)) l1)) (delete (d_mid p)) t _ _ Hh) as E1.
    pose proof (total_delete (fun l2 => S (size l2)) _ _ _ Hm) as E2. simpl in *. lia.
Qed.

Lemma descend_spec (t : Tree DirPath) :
  match descend t with
  | NoBlocks => forall q, at_path t q = None
  | EmptyDir level p => (forall q, at_path (cut level p t) q = at_path t q) /\ (tree_size (cut level p t) < tree_size t)%nat
  | Highest p => is_Some (at_path t p) /\ forall q, is_Some (at_path t q) -> path_le q p
  end.
Proof.
  unfold descend. destruct (last_name t) as [hi|] eqn:E0.
  2: { apply last_name_None in E0 as ->. intros q. unfold at_path, level2, level1. by rewrite !lookup_empty. }
  apply last_name_Some in E0 as [Hh Hhi]. destruct Hh as [l1 Hl1]. rewrite Hl1. simpl.
  destruct (last_name l1) as [mid|] eqn:E1.
  2: { apply last_name_None in E1 as ->. by apply cut2_empty. }
  apply last_name_Some in E1 as [Hm Hmid]. destruct Hm as [l2 Hl2]. rewrite Hl2. simpl.
  destruct (last_name l2) as [lo|] eqn:E2.
  2: { apply last_name_None in E2 as ->. by eapply cut1_empty. }
  apply last_name_Some in E2 as [Hl Hlo]. set (p := MkDir hi mid lo).
  assert (Hp1 : level1 t p = l1) by (unfold level1; simpl; by rewrite Hl1).
  assert (Hp2 : level2 t p = l2) by (unfold level2; by rewrite Hp1; simpl; rewrite Hl2).
  split; [unfold at_path; by rewrite Hp2|]. intros q [r Hq]. destruct (at_path_levels _ _ _ Hq) as [Hq1 Hq2].
  assert (Hh1 : String.le (d_hi q) hi) by (apply Hhi; by eexists). split; [done|]. simpl. intros Hqh.
  assert (Hql1 : level1 t q = l1) by (unfold level1; by rewrite Hqh, Hl1). rewrite Hql1 in Hq2.
  split; [apply Hmid; by eexists|]. intros Hqm. unfold at_path, level2 in Hq. rewrite Hql1, Hqm, Hl2 in Hq. apply Hlo. by eexists.
Qed.
End ArchiverTrees.
