(* ===== verification/ArchiverFacts.v ===== *)
(** * The archive is a chain of complete blocks

    Whatever fails and wherever, the disk holds a chain of complete blocks,
    possibly with one incomplete block on top; starting again removes that one
    and resumes after the last complete block. *)

From Stdlib Require Import Ascii.
From stdpp Require Import sorting.
From S2P Require Import Prelude Pod2 ObjectNames Archiver Node ArchiverNames ArchiverStore ArchiverNode ArchiverTrees.

Module ArchiverFacts.
Import ObjectNames Node ArchiverNames ArchiverStore ArchiverNode ArchiverTrees.

(** ** What the chain holds *)

(** Roots and hashes determine what they are the roots and hashes of. *)
Class Content : Type := {
  header_of : B256 -> BlockHeader;
  block_of : B256 -> Block;
  exec_of : B256 -> ExecBlock;
  blob_of : B256 -> list byte;
}.

Definition known `{Content} (h : BlockHeader) : Prop := header_of (hd_root h) = h /\ (0 <= hd_slot h < SLOT_BOUND)%Z.

(** The versioned hashes of a block's blobs, in the order of its commitments. *)
Definition hashes_of `{Clients, Content} (r : B256) : list B256 :=
  ArchiverNode.kzg_to_versioned_hash <$> blob_kzg_commitments (block_of r).

(** Answers are about what was asked for; a header is written as it is read.
    The transactions of a payload list the hashes of the block's commitments, in
    their order (the check of EIP-4844), and the blobs of hashes asked for in that
    order are answered in it. A block has at most 4096 commitments, and slots
    stay below a billion. *)
Class Honest `{Clients, Content} : Prop := {
  json_roundtrip h : parse_header (header_json h) = Ok h;
  header_answer s e h e' : ArchiverNode.get_block_header s e = (Ok (Some h), e') -> hd_slot h = s /\ known h;
  head_answer e h e' : get_head_header e = (Ok h, e') -> known h;
  block_answer r e b e' : get_block r e = (Ok b, e') -> b = block_of r;
  exec_answer x e b e' : ArchiverNode.get_execution_block x e = (Ok b, e') -> b = exec_of x;
  payload_hashes r txs : eb_transactions (exec_of (block_hash (execution_payload (block_of r)))) = Some txs ->
    flat_map (fun tx => default [] (etx_blob_versioned_hashes tx)) txs = hashes_of r;
  blobs_answer r vhs e bs e' : vhs `sublist_of` hashes_of r ->
    beacon_get_blobs r vhs e = (Ok bs, e') -> length bs = length vhs -> bs = blob_of <$> vhs;
  blob_length vh : Z.of_nat (length (blob_of vh)) = BYTES_PER_BLOB;
  versioned_hash_length c : length (ArchiverNode.kzg_to_versioned_hash c) = 32%nat;
  commitments_bound r : (Z.of_nat (length (blob_kzg_commitments (block_of r))) <= 4096)%Z;
}.

Section Facts.
Context `{Honest} (filter_address : list byte).
Implicit Types (d : Disk) (l : list BlockHeader).

(** ** The invariant *)

(** The place of a versioned hash among the commitments of a block. *)
Definition place (r vh : B256) : option nat :=
  fst <$> list_find (fun c => ArchiverNode.kzg_to_versioned_hash c = vh) (blob_kzg_commitments (block_of r)).

Definition blob_name (i : nat) (vh : B256) : string := blob_file_name (N.of_nat i) vh.
Definition is_blob (p : DirPath) (name : string) (data : list byte) : Prop :=
  exists r vh i, p = root_dir_from r /\ place r vh = Some i /\ name = blob_name i vh /\ data = blob_of vh.
Definition is_tmp_blob (name : string) : Prop := exists i vh, name = blob_name i vh +:+ ".tmp".

Definition good_file (p : DirPath) (name : string) (data : list byte) : Prop :=
  name = HEADER_FILE \/ name = HEADER_TMP \/ is_blob p name data \/ is_tmp_blob name.
Definition good_files d : Prop := forall p fs name data, files_of d p = Some fs -> fs !! name = Some data -> good_file p name data.

(** Blocks that follow each other. *)
Fixpoint linked l : Prop :=
  match l with
  | h :: (h' :: _) as l' => hd_parent_root h' = hd_root h /\ (hd_slot h < hd_slot h')%Z /\ linked l'
  | _ => True
  end.

(** All blocks but the last are complete, and the last one if [done]. *)
Definition completed l (done : bool) : list BlockHeader := if done then l else removelast l.

(** *** Blobs *)

(** The blobs of a block that are to be archived. *)
Definition wanted (b : Block) : list B256 :=
  match blob_kzg_commitments b with
  | [] => []
  | _ => from_option (target_hashes filter_address) [] (eb_transactions (exec_of (block_hash (execution_payload b))))
  end.

Definition stored d (r vh : B256) : Prop :=
  exists fs i, files_of d (root_dir_from r) = Some fs /\ place r vh = Some i /\ fs !! blob_name i vh = Some (blob_of vh).
Definition all_stored d (r : B256) : Prop := forall vh, vh ∈ wanted (block_of r) -> stored d r vh.

(** A block that carries its payload has its blobs archived; one that bids on a
    payload has them archived once the next block builds on it. *)
Definition blobs_archived d l : Prop :=
  forall i h, l !! i = Some h ->
    ((exists x, execution_payload (block_of (hd_root h)) = Embedded x) -> all_stored d (hd_root h))
    /\ forall h', l !! S i = Some h' -> builds_on_payload_of (block_of (hd_root h')) (block_of (hd_root h)) = true ->
        all_stored d (hd_root h).

(** A removal that stops half-way has removed the header. *)
Definition header_first : Prop := forall e names m e', io_remove e = (KeptFiles names m, e') -> HEADER_FILE ∉ names.

Record archive d l (done : bool) : Prop := {
  ar_known : Forall known l;
  ar_linked : linked l;
  ar_links p r : at_path (by_slot d) p = Some r
    <-> exists h, h ∈ l /\ p = slot_dir_from (hd_slot h) /\ r = root_dir_from (hd_root h);
  ar_headers p fs data : files_of d p = Some fs -> fs !! HEADER_FILE = Some data ->
    exists h, h ∈ completed l done /\ p = root_dir_from (hd_root h) /\ data = header_json h;
  ar_completed h : h ∈ completed l done ->
    exists fs, files_of d (root_dir_from (hd_root h)) = Some fs /\ is_Some (fs !! HEADER_FILE);
  ar_files : good_files d;
  ar_blobs : header_first -> blobs_archived d (completed l done);
}.

(** ** Names *)

Lemma blob_name_last i vh : last (los (blob_name i vh)) = Some "n"%char.
Proof. unfold blob_name, blob_file_name. rewrite los_sol, !(assoc_L (++)). by rewrite last_app. Qed.

Lemma tmp_blob_last name : is_tmp_blob name -> last (los name) = Some "p"%char.
Proof. intros (i & vh & ->). rewrite los_app. by rewrite last_app. Qed.

Lemma blob_name_head i vh : los (blob_name i vh) !! 0%nat = Some "b"%char.
Proof. unfold blob_name, blob_file_name. by rewrite los_sol. Qed.

Lemma tmp_blob_head name : is_tmp_blob name -> los name !! 0%nat = Some "b"%char.
Proof. intros (i & vh & ->). rewrite los_app. unfold blob_name, blob_file_name. by rewrite los_sol. Qed.

(** Files that do not count until they are renamed. *)
Definition temp (name : string) : Prop := is_tmp_blob name \/ name = HEADER_TMP.

Lemma header_not_temp : ~ temp HEADER_FILE.
Proof. intros [Ht%tmp_blob_head|Ht]; discriminate Ht. Qed.

Lemma blob_not_temp i vh : ~ temp (blob_name i vh).
Proof.
  pose proof (blob_name_last i vh) as Hl. pose proof (blob_name_head i vh) as Hh. intros [Ht%tmp_blob_last|Ht]; [congruence|].
  rewrite Ht in Hh. discriminate Hh.
Qed.

Lemma blob_not_header i vh : blob_name i vh <> HEADER_FILE.
Proof. intros Heq. pose proof (blob_name_head i vh) as Hh. rewrite Heq in Hh. discriminate Hh. Qed.

Lemma header_tmp_not_tmp_blob : ~ is_tmp_blob HEADER_TMP.
Proof. intros Ht%tmp_blob_head. discriminate Ht. Qed.


(** ** Growing *)

(** Files for which [T] holds come and go; the others stay, and those that are
    new are blobs. *)
Record grows (T : string -> Prop) d d' : Prop := {
  gr_slots : by_slot d' = by_slot d;
  gr_keeps p fs : files_of d p = Some fs ->
    exists fs', files_of d' p = Some fs' /\ forall name data, ~ T name -> fs !! name = Some data -> fs' !! name = Some data;
  gr_new p fs' name data : files_of d' p = Some fs' -> fs' !! name = Some data ->
    (exists fs, files_of d p = Some fs /\ fs !! name = Some data) \/ is_blob p name data \/ T name;
}.

Lemma grows_refl T d : grows T d d.
Proof. split; eauto. Qed.

Lemma grows_trans T d d' d'' : grows T d d' -> grows T d' d'' -> grows T d d''.
Proof.
  intros [S1 K1 N1] [S2 K2 N2]. split; [congruence|..].
  - intros p fs (fs' & Hp' & Hk)%K1. destruct (K2 _ _ Hp') as (fs'' & Hp'' & Hk'). eauto 8.
  - intros p fs name data Hp Hn. destruct (N2 _ _ _ _ Hp Hn) as [(fs' & Hp' & Hn')|?]; eauto.
Qed.

Lemma grows_weaken d d' : grows is_tmp_blob d d' -> grows temp d d'.
Proof.
  intros [S1 K1 N1]. split; [done|..].
  - intros p fs (fs' & Hp' & Hk)%K1. exists fs'. split; [done|]. intros name data Ht. apply Hk. intros ?. apply Ht. by left.
  - intros p fs name data Hp Hn. destruct (N1 _ _ _ _ Hp Hn) as [?|[?|?]]; auto. right. right. by left.
Qed.

Lemma good_temp p name data : temp name -> good_file p name data.
Proof. unfold good_file. intros [?| ->]; auto. Qed.

Lemma grows_good d d' : grows temp d d' -> good_files d -> good_files d'.
Proof.
  intros G Hg p fs name data Hp Hn. destruct (gr_new _ _ _ G _ _ _ _ Hp Hn) as [(fs0 & Hp0 & Hn0)|[Hb|Ht]]; [by eapply Hg| |by apply good_temp].
  unfold good_file. auto.
Qed.

Lemma grows_stored d d' r vh : grows temp d d' -> stored d r vh -> stored d' r vh.
Proof.
  intros G (fs & i & Hp & Hi & Hn). destruct (gr_keeps _ _ _ G _ _ Hp) as (fs' & Hp' & Hk). exists fs', i. split_and!; try done.
  apply Hk; [apply blob_not_temp|done].
Qed.

Lemma grows_archived d d' l : grows temp d d' -> blobs_archived d l -> blobs_archived d' l.
Proof.
  intros G Hb i h Hi. destruct (Hb _ _ Hi) as [He Hn]. split.
  - intros Hx vh Hv. eapply grows_stored; [done|]. by apply He.
  - intros h' Hi' Hbl vh Hv. eapply grows_stored; [done|]. by apply (Hn h').
Qed.

Lemma archive_grows d d' l done : grows temp d d' -> archive d l done -> archive d' l done.
Proof.
  intros G [Hk Hl Hli Hh Hc Hf Hb]. split; try done.
  - intros p r. by rewrite (gr_slots _ _ _ G).
  - intros p fs data Hp Hn. destruct (gr_new _ _ _ G _ _ _ _ Hp Hn) as [(fs0 & Hp0 & Hn0)|[(r & vh & i & _ & _ & Heq & _)|Ht]].
    + by eapply Hh.
    + exfalso. by eapply blob_not_header.
    + exfalso. by apply header_not_temp.
  - intros h Hin. destruct (Hc _ Hin) as (fs & Hp & [data Hd]). destruct (gr_keeps _ _ _ G _ _ Hp) as (fs' & Hp' & Hkeep).
    exists fs'. split; [done|]. exists data. apply Hkeep; [apply header_not_temp|done].
  - by eapply grows_good.
  - intros Hhf. eapply grows_archived; eauto.
Qed.

(** ** Rules *)

(** What a call makes of the disk, whether it returns or fails. *)
Definition runs {A} (P : Disk -> Prop) (c : eff World A) (Q : A -> Disk -> Prop) (F : failure -> Disk -> Prop) : Prop :=
  forall w, P (disk w) -> wp c (fun a w' => Q a (disk w')) (fun f w' => F f (disk w')) w.

Section Rules.
Context {A B : Type}.
Implicit Types (P : Disk -> Prop) (c : eff World A) (F : failure -> Disk -> Prop).

Lemma runs_bind P c (R : A -> Disk -> Prop) (k : A -> eff World B) Q F :
  runs P c R F -> (forall a, runs (R a) (k a) Q F) -> runs P (ebind c k) Q F.
Proof. intros Hc Hk w Hw. apply wp_bind. eapply wp_mono; [by apply Hc| |done]. intros a w' Ha. by apply Hk. Qed.

Lemma runs_weaken P P' c (Q Q' : A -> Disk -> Prop) (F F' : failure -> Disk -> Prop) :
  runs P c Q F -> (forall d, P' d -> P d) -> (forall a d, Q a d -> Q' a d) -> (forall f d, F f d -> F' f d) -> runs P' c Q' F'.
Proof. intros Hc HP HQ HF w Hw. eapply wp_mono; [by apply Hc, HP| |]; simpl; auto. Qed.

Lemma runs_ret P (a : A) Q F : (forall d, P d -> Q a d) -> runs P (eret a) Q F.
Proof. intros Hq w Hw. by apply Hq. Qed.

Lemma runs_throw P f (Q : A -> Disk -> Prop) F : (forall d, P d -> F f d) -> runs P (ethrow f) Q F.
Proof. intros Hf w Hw. by apply Hf. Qed.

Lemma runs_lift P (r : Result A) Q F : (forall d a, P d -> r = Ok a -> Q a d) -> (forall d f, P d -> r = Err f -> F f d) -> runs P (elift r) Q F.
Proof. intros Hq Hf w Hw. unfold wp, elift. destruct r; eauto. Qed.

Lemma runs_get P (k : World -> eff World B) Q F : (forall w, P (disk w) -> runs (fun d => d = disk w) (k w) Q F) -> runs P (ebind eget k) Q F.
Proof. intros Hk w Hw. apply wp_get. by apply (Hk w Hw). Qed.

Lemma runs_pure P (X : Prop) c Q F : (X -> runs P c Q F) -> runs (fun d => P d /\ X) c Q F.
Proof. intros Hc w [Hw Hx]. by apply Hc. Qed.

Lemma runs_on_env P (c : eff Env A) Q F :
  (forall d a e e', P d -> c e = (Ok a, e') -> Q a d) -> (forall d f, P d -> F f d) -> runs P (on_env c) Q F.
Proof. intros Hq Hf w Hw. unfold wp, on_env. destruct (c (env w)) as [[a|f] e'] eqn:Ec; simpl; eauto. Qed.
End Rules.

Lemma runs_fs_call P (F : failure -> Disk -> Prop) : (forall d m, P d -> F (Fail m) d) -> runs P fs_call (fun _ => P) F.
Proof. intros Hf w Hw. unfold wp, fs_call, on_env. destruct (io (env w)) as [[m|] e]; simpl; auto. Qed.

Lemma runs_modify P (f : Disk -> Disk) (Q : unit -> Disk -> Prop) F : (forall d, P d -> Q tt (f d)) -> runs P (modify f) Q F.
Proof. intros Hq w Hw. by apply Hq. Qed.

(** ** Files of a block *)

Lemma files_put d p fs q : files_of (on_roots (put p fs) d) q = if decide (q = p) then Some fs else files_of d q.
Proof. apply at_path_put. Qed.

Lemma files_put_eq d p fs : files_of (on_roots (put p fs) d) p = Some fs.
Proof. by rewrite files_put, decide_True. Qed.

Lemma grows_put (T : string -> Prop) d p fs fs' :
  files_of d p = Some fs ->
  (forall name data, ~ T name -> fs !! name = Some data -> fs' !! name = Some data) ->
  (forall name data, fs' !! name = Some data -> fs !! name = Some data \/ is_blob p name data \/ T name) ->
  grows T d (on_roots (put p fs') d).
Proof.
  intros Hp Hk Hn. split; [done|..].
  - intros q gs Hq. rewrite files_put. case_decide as Hd; [subst q|by eauto]. replace gs with fs by congruence. eauto.
  - intros q gs name data. rewrite files_put. case_decide as Hd; [subst q|by eauto]. intros [= <-] Hg.
    destruct (Hn _ _ Hg) as [?|?]; eauto.
Qed.

Lemma grows_new_dir T d p : files_of d p = None -> grows T d (on_roots (put p ∅) d).
Proof.
  intros Hp. split; [done|..].
  - intros q fs Hq. rewrite files_put, decide_False by congruence. eauto.
  - intros q fs name data. rewrite files_put. case_decide; [|by eauto]. intros [= <-]. by rewrite lookup_empty.
Qed.

Lemma place_bounds r vh i : place r vh = Some i -> (N.of_nat i < 2 ^ 64)%N /\ length vh = 32%nat.
Proof.
  unfold place. intros ([j c] & (Hj & Hc & _)%list_find_Some & ->)%fmap_Some. simpl. split.
  - apply lookup_lt_Some in Hj. pose proof (commitments_bound r). lia.
  - rewrite <-Hc. apply versioned_hash_length.
Qed.

Lemma blob_name_inj r vh i r' vh' i' :
  place r vh = Some i -> place r' vh' = Some i' -> blob_name i vh = blob_name i' vh' -> i = i' /\ vh = vh'.
Proof.
  intros [Hi Hv]%place_bounds [Hi' Hv']%place_bounds Heq%(f_equal parse_blob_file_name). unfold blob_name in Heq.
  rewrite !blob_file_name_roundtrip in Heq by done. injection Heq as Hn ->. split; [lia|done].
Qed.

(** A stored blob has the contents of its hash. *)
Lemma good_blob d r vh i p fs data :
  good_files d -> place r vh = Some i -> files_of d p = Some fs -> fs !! blob_name i vh = Some data -> data = blob_of vh.
Proof.
  intros Hg Hi Hp Hn. destruct (Hg _ _ _ _ Hp Hn) as [Hx|[Hx|[(r' & vh' & i' & _ & Hi' & Hx & ->)|Hx]]].
  - exfalso. by eapply blob_not_header.
  - exfalso. eapply blob_not_temp. right. exact Hx.
  - by destruct (blob_name_inj _ _ _ _ _ _ Hi Hi' Hx) as [_ ->].
  - exfalso. eapply blob_not_temp. left. exact Hx.
Qed.

Lemma runs_write_file P p name data (Q : unit -> Disk -> Prop) F :
  (forall d m, P d -> F (Fail m) d) ->
  (forall d fs x, P d -> files_of d p = Some fs ->
     let d' := on_roots (put p (<[name := x]> fs)) d in (forall m, F (Fail m) d') /\ (x = data -> Q tt d')) ->
  runs P (write_file p name data) Q F.
Proof.
  intros Hf Hw w HP. unfold wp, write_file. destruct (io_write (env w)) as [o e]. destruct (files_of (disk w) p) as [fs|] eqn:Hp; [|by apply Hf].
  assert (Hput : forall x, on_roots (fun t => match at_path t p with Some fs => put p (<[name := x]> fs) t | None => t end) (disk w)
    = on_roots (put p (<[name := x]> fs)) (disk w)) by (intros x; unfold on_roots, files_of in *; by rewrite Hp).
  destruct o as [|m|x m]; rewrite ?Hput; simpl; [by apply (Hw _ _ _ HP Hp)|by apply Hf|by apply (Hw _ _ _ HP Hp)].
Qed.

Lemma runs_rename_file P p from to (Q : unit -> Disk -> Prop) F :
  (forall d m, P d -> F (Fail m) d) ->
  (forall d fs x, P d -> files_of d p = Some fs -> fs !! from = Some x -> Q tt (on_roots (put p (<[to := x]> (delete from fs))) d)) ->
  runs P (rename_file p from to) Q F.
Proof.
  intros Hf Hr. unfold rename_file. eapply runs_bind; [by apply (runs_fs_call P)|]. intros u. apply runs_get. intros w Hw.
  destruct (files_of (disk w) p) as [fs|] eqn:Hp; [|apply runs_throw; intros d ->; by apply Hf].
  destruct (fs !! from) as [x|] eqn:Hx; [|apply runs_throw; intros d ->; by apply Hf].
  apply runs_modify. intros d ->. by apply Hr.
Qed.

Section Storing.
Context (d0 : Disk) (Hgood : good_files d0) (r : B256).
Abbreviation grown d := (grows is_tmp_blob d0 d).

Lemma grown_good d : grown d -> good_files d.
Proof. intros G%grows_weaken. by eapply grows_good. Qed.

Lemma store_blob_spec (P : Disk -> Prop) (b : StoredBlob) :
  place r (Archiver.vh b) = Some (Archiver.index b) -> Archiver.blob b = blob_of (Archiver.vh b) ->
  (forall d d', grown d -> P d -> grows is_tmp_blob d d' -> P d') ->
  runs (fun d => grown d /\ P d) (store_blob (root_dir_from r) b) (fun _ d => (grown d /\ P d) /\ stored d r (Archiver.vh b))
    (fun _ d => grown d).
Proof.
  intros Hpl Hb HP. unfold store_blob. change (blob_file_name (N.of_nat (Archiver.index b)) (Archiver.vh b)) with (blob_name (Archiver.index b) (Archiver.vh b)).
  set (name := blob_name _ _).
  assert (Htmp : is_tmp_blob (name +:+ ".tmp")) by (by eexists _, _).
  set (R := fun d => (grown d /\ P d) /\ exists fs, files_of d (root_dir_from r) = Some fs /\ fs !! (name +:+ ".tmp") = Some (Archiver.blob b)).
  apply (runs_bind _ _ (fun _ => R)).
  - apply runs_write_file; [by intros d m [G _]|]. intros d fs x [G HPd] Hp d'.
    assert (Hg : grows is_tmp_blob d d').
    { apply (grows_put _ _ _ fs); [done|..].
      - intros n y Hn Hy. rewrite lookup_insert_ne; [done|]. by intros <-.
      - intros n y [[<- _]|[_ Hy]]%lookup_insert_Some; auto. }
    assert (G' : grown d') by (by eapply grows_trans). split; [done|]. intros ->. split; [eauto|].
    eexists. split; [apply files_put_eq|apply lookup_insert_eq].
  - intros _. apply runs_rename_file; [by intros d m [[G _] _]|]. intros d fs x [[G HPd] (gs & Hgs & Hx)] Hp Hfrom.
    replace gs with fs in * by congruence. rewrite Hfrom in Hx. injection Hx as ->. rewrite Hb.
    set (fs' := <[name := _]> _). assert (Hg : grows is_tmp_blob d (on_roots (put (root_dir_from r) fs') d)).
    { apply (grows_put _ _ _ fs); [done|..]; unfold fs'.
      - intros n y Hn Hy. destruct (decide (n = name)) as [->|Hne].
        + rewrite lookup_insert_eq. f_equal. symmetry. eapply good_blob; [by apply grown_good|done|done|exact Hy].
        + rewrite lookup_insert_ne, lookup_delete_ne by (done || by intros <-). done.
      - intros n y [[<- <-]|[_ [_ Hy]%lookup_delete_Some]]%lookup_insert_Some; [|by left]. right. left. by eexists _, _, _. }
    split; [split; [by eapply grows_trans|eauto]|]. exists fs', (Archiver.index b). split_and!; [apply files_put_eq|done|apply lookup_insert_eq].
Qed.

Definition matches_hash (b : StoredBlob) : Prop :=
  place r (Archiver.vh b) = Some (Archiver.index b) /\ Archiver.blob b = blob_of (Archiver.vh b).

Lemma store_blobs_spec header bs :
  hd_root header = r -> Forall matches_hash bs ->
  runs (fun d => grown d) (store_blobs_disk header bs) (fun _ d => grown d /\ Forall (fun b => stored d r (Archiver.vh b)) bs) (fun _ d => grown d).
Proof.
  intros Hr Hbs. unfold store_blobs_disk. rewrite Hr. unfold create_root_dir.
  eapply runs_bind; [eapply runs_bind; [by apply (runs_fs_call (fun d => grown d))|intros u; apply (runs_modify _ _ (fun _ d => grown d))]|].
  { intros d G. destruct (files_of d (root_dir_from r)) as [fs|] eqn:Hp; unfold files_of in Hp; unfold on_roots; rewrite Hp; [by destruct d|].
    eapply grows_trans; [exact G|]. by apply grows_new_dir. }
  intros []. assert (Hgen : forall pre, runs (fun d => grown d /\ Forall (fun b => stored d r (Archiver.vh b)) pre)
    (efold (fun _ b => store_blob (root_dir_from r) b) tt bs)
    (fun _ d => grown d /\ Forall (fun b => stored d r (Archiver.vh b)) (pre ++ bs)) (fun _ d => grown d)).
  { induction Hbs as [|b bs [Hb Hc] _ IH]; intros pre; simpl.
    - apply runs_ret. intros d Hd. by rewrite app_nil_r.
    - eapply runs_bind; [apply (store_blob_spec (fun d => Forall (fun b => stored d r (Archiver.vh b)) pre)); [done..|]|].
      + intros d d' _ Hpre Hg. eapply Forall_impl; [exact Hpre|]. intros b' Hs. eapply grows_stored; [by apply grows_weaken|done].
      + intros []. eapply runs_weaken; [apply (IH (pre ++ [b]))| | |done].
        * intros d [[G Hpre] Hs]. split; [done|]. apply Forall_app. auto.
        * intros u d. by rewrite <-(assoc_L (++)). }
  eapply runs_weaken; [apply (Hgen [])|by auto|done|done].
Qed.
End Storing.

(** *** Loading *)

Lemma parse_not_blob name : is_tmp_blob name \/ name = HEADER_FILE \/ name = HEADER_TMP -> parse_blob_file_name name = Ok None.
Proof.
  intros [Ht|[->| ->]]; [|done..]. apply tmp_blob_last in Ht. unfold parse_blob_file_name.
  destruct (strip_prefix_chars (los "blob-") (los name)) as [s|] eqn:Hs; [|done]. cbn [mbind option_bind].
  destruct (strip_suffix (los ".bin") s) as [x|] eqn:Hx; [|done]. exfalso. apply strip_suffix_Some in Hx. subst s.
  unfold strip_prefix_chars in Hs. case_decide; [|done]. injection Hs as Hd.
  rewrite <-(take_drop 5 (los name)), Hd, !last_app in Ht. discriminate Ht.
Qed.

Lemma load_blob_spec d p fs name data :
  good_files d -> files_of d p = Some fs -> fs !! name = Some data ->
  exists o, load_blob (name, data) = Ok o
    /\ match o with
       | None => ~ is_blob p name data
       | Some b => (exists r, p = root_dir_from r /\ matches_hash r b)
                   /\ name = blob_name (Archiver.index b) (Archiver.vh b) /\ data = Archiver.blob b
       end.
Proof.
  intros Hg Hp Hn. pose proof (Hg _ _ _ _ Hp Hn) as Hgf. unfold load_blob.
  assert (Hcase : is_blob p name data \/ ~ is_blob p name data /\ (is_tmp_blob name \/ name = HEADER_FILE \/ name = HEADER_TMP)).
  { assert (Hno : is_tmp_blob name \/ name = HEADER_FILE \/ name = HEADER_TMP -> ~ is_blob p name data).
    { intros Hx (r & vh & i & _ & _ & -> & _). destruct Hx as [Hx|[Hx|Hx]]; [by eapply blob_not_temp; left|by eapply blob_not_header|by eapply blob_not_temp; right]. }
    destruct Hgf as [?|[?|[?|?]]]; auto 6. }
  destruct Hcase as [Hb|[Hb Hx]].
  - destruct Hb as (r & vh & i & -> & Hi & -> & ->). destruct (place_bounds _ _ _ Hi) as [Hlt Hlen]. unfold blob_name.
    rewrite blob_file_name_roundtrip by done. simpl. rewrite blob_length, Z.eqb_refl. simpl. eexists. split; [done|]. simpl.
    rewrite Nat2N.id. split_and!; [by exists r|done|done].
  - rewrite parse_not_blob by done. simpl. eauto.
Qed.

Lemma try_map_total {A B} (f : A -> Result B) (Q : A -> B -> Prop) (l : list A) :
  (forall a, a ∈ l -> exists b, f a = Ok b /\ Q a b) -> exists bs, try_map f l = Ok bs /\ Forall2 Q l bs.
Proof.
  induction l as [|a l IH]; intros Hf; [by exists []|]. destruct (Hf a) as (b & Hb & HQ); [left|]. destruct IH as (bs & Hbs & Hall); [set_solver|].
  exists (b :: bs). simpl. rewrite Hb. simpl. rewrite Hbs. simpl. auto.
Qed.

(** What is loaded is what is stored. *)
Lemma load_blobs_spec d r :
  good_files d -> exists bs, load_blobs_disk d r = Ok bs
    /\ (forall b, b ∈ bs -> matches_hash r b /\ stored d r (Archiver.vh b))
    /\ (forall vh, stored d r vh -> exists b, b ∈ bs /\ Archiver.vh b = vh) /\ Sorted Archiver.index_le bs.
Proof.
  intros Hg. unfold load_blobs_disk. destruct (files_of d (root_dir_from r)) as [fs|] eqn:Hp.
  2: { exists []. split_and!; [done|by intros b ?%not_elem_of_nil| |constructor]. intros vh (fs & i & Hp' & _). congruence. }
  destruct (try_map_total load_blob (fun f o => match o with
    | None => ~ is_blob (root_dir_from r) f.1 f.2
    | Some b => (exists r', root_dir_from r = root_dir_from r' /\ matches_hash r' b)
        /\ f.1 = blob_name (Archiver.index b) (Archiver.vh b) /\ f.2 = Archiver.blob b end) (map_to_list fs)) as (os & -> & Hall).
  { intros [name data] Hin%elem_of_map_to_list. by eapply load_blob_spec. }
  simpl. eexists. split; [done|]. split_and!; [| |apply Sorted_merge_sort; apply _].
  - intros b Hin. rewrite merge_sort_Permutation in Hin. revert Hin. intros (o & [k Hk]%list_elem_of_lookup & Ho)%list_elem_of_omap. simpl in Ho. subst o.
    destruct (Forall2_lookup_r _ _ _ _ _ Hall Hk) as ([name data] & Hf%list_elem_of_lookup_2%elem_of_map_to_list & (r' & <-%root_dir_from_inj & Hb) & Hn & Hd).
    simpl in *. subst name data. split; [done|]. destruct Hb as [Hi Hb]. exists fs, (Archiver.index b). rewrite <-Hb. done.
  - intros vh (fs' & i & Hp' & Hi & Hf). replace fs' with fs in * by congruence.
    pose proof Hf as [k Hk]%elem_of_map_to_list%list_elem_of_lookup. destruct (Forall2_lookup_l _ _ _ _ _ Hall Hk) as (o & Ho & Hcase).
    destruct o as [b|]; [|exfalso; apply Hcase; by eexists _, _, _]. destruct Hcase as ((r' & <-%root_dir_from_inj & [Hb _]) & Hn & _). simpl in Hn.
    exists b. split; [rewrite merge_sort_Permutation; apply list_elem_of_omap; exists (Some b); split; [by eapply list_elem_of_lookup_2|done]|].
    by destruct (blob_name_inj _ _ _ _ _ _ Hi Hb Hn) as [_ ->].
Qed.

(** *** Fetching *)

Definition commitments_of (r : B256) : list (B256 * list byte) :=
  (fun c => (ArchiverNode.kzg_to_versioned_hash c, c)) <$> blob_kzg_commitments (block_of r).

Lemma place_commitments r vh i c : list_find (fun c => c.1 = vh) (commitments_of r) = Some (i, c) -> place r vh = Some i.
Proof.
  unfold commitments_of, place. rewrite list_find_fmap. intros ([j c'] & Hf & Heq)%fmap_Some. injection Heq as -> _.
  change (list_find (fun c => ArchiverNode.kzg_to_versioned_hash c = vh) (blob_kzg_commitments (block_of r)) = Some (j, c')) in Hf.
  by rewrite Hf.
Qed.

Lemma index_blobs_spec r vhs bs :
  try_map (index_blob (commitments_of r)) (zip vhs (blob_of <$> vhs)) = Ok bs ->
  Forall (matches_hash r) bs /\ Archiver.vh <$> bs = vhs.
Proof.
  revert bs. induction vhs as [|vh vhs IH]; intros bs; [by intros [= <-]|]. simpl. intros (b & Hb & Hbs)%rbind_Ok.
  apply rbind_Ok in Hbs as (bs' & Hbs & [= <-]). apply IH in Hbs as [Hall Hv]. unfold index_blob in Hb.
  apply rbind_Ok in Hb as ([i c] & Hi & [= <-]). unfold expect in Hi. destruct (list_find _ _) as [ic|] eqn:Hf; [|done]. injection Hi as ->.
  apply place_commitments in Hf. split; [by constructor|]. csimpl. by rewrite Hv.
Qed.

(** The requests follow the order of the block. *)
Lemma target_hashes_in_order r txs :
  eb_transactions (exec_of (block_hash (execution_payload (block_of r)))) = Some txs ->
  target_hashes filter_address txs `sublist_of` hashes_of r.
Proof.
  intros Ht. rewrite <-(payload_hashes r txs Ht). unfold target_hashes. clear Ht.
  induction txs as [|tx txs IH]; [done|]. rewrite filter_cons. simpl.
  destruct (decide (is_target filter_address tx = true)); simpl; [by apply sublist_app|by apply sublist_inserts_l].
Qed.

Lemma get_blobs_spec d0 header vhs :
  good_files d0 -> vhs `sublist_of` hashes_of (hd_root header) ->
  runs (fun d => d = d0) (ArchiverNode.get_blobs header (commitments_of (hd_root header)) vhs)
    (fun _ d => grows is_tmp_blob d0 d /\ forall vh, vh ∈ vhs -> stored d (hd_root header) vh) (fun _ d => grows is_tmp_blob d0 d).
Proof.
  intros Hg Hord. unfold ArchiverNode.get_blobs. set (r := hd_root header).
  eapply runs_bind; [apply runs_fs_call; intros d m ->; apply grows_refl|]. intros u. apply runs_get. intros w Hw.
  destruct (load_blobs_spec d0 r Hg) as (bs & Hload & Hsound & _). rewrite Hw, Hload.
  eapply runs_bind; [apply (runs_lift _ _ (fun a d => d = d0 /\ a = bs))|].
  { intros d a -> [= <-]. done. }
  { done. }
  intros bs'. destruct (sort_requested bs' vhs) as [result missing] eqn:Hsort. injection Hsort as <- <-.
  assert (Hfound : forall vh, vh ∈ vhs -> vh ∉ filter (fun vh => Archiver.find_blob bs vh = None) vhs -> stored d0 r vh).
  { intros vh Hin Hno. destruct (Archiver.find_blob bs vh) as [b|] eqn:Hf; [|exfalso; apply Hno, list_elem_of_filter; done].
    apply Archiver.find_blob_Some in Hf as [Hb <-]. by apply Hsound. }
  set (missing := filter _ vhs). destruct missing as [|vh0 rest] eqn:Hmiss.
  - apply runs_ret. intros d [-> ->]. split; [apply grows_refl|]. intros vh Hin. apply Hfound; [done|].
    unfold missing in Hmiss. rewrite Hmiss. apply not_elem_of_nil.
  - rewrite <-Hmiss. eapply runs_bind; [apply (runs_on_env _ _ (fun a d => (d = d0 /\ bs' = bs) /\ (length a = length missing -> a = blob_of <$> missing)))|].
    { intros d a e e' Hd He. split; [done|]. eapply blobs_answer; [|exact He].
      etrans; [apply sublist_filter|exact Hord]. }
    { intros d f [-> _]. apply grows_refl. }
    intros blobs. eapply runs_bind; [apply (runs_lift _ _ (fun _ d => (d = d0 /\ bs' = bs) /\ blobs = blob_of <$> missing))|].
    { intros d a [Hd Hl] Ha. split; [done|]. apply Hl. unfold rassert in Ha. destruct (Nat.eqb_spec (length blobs) (length missing)); done. }
    { intros d f [[-> _] _] _. apply grows_refl. }
    intros []. eapply runs_bind; [apply (runs_lift _ _ (fun a d => (d = d0 /\ bs' = bs) /\ Forall (matches_hash r) a /\ Archiver.vh <$> a = missing))|].
    { intros d a [Hd ->] Ha. split; [done|]. by apply index_blobs_spec. }
    { intros d f [[-> _] _] _. apply grows_refl. }
    intros new. intros w1 [[Hd Hb] [Hall Hv]].
    assert (Hgoal : runs (fun d => grows is_tmp_blob d0 d) (store_blobs_disk header new ;! eret (omap (Archiver.find_blob bs') vhs ++ new))
      (fun _ d => grows is_tmp_blob d0 d /\ forall vh, vh ∈ vhs -> stored d r vh) (fun _ d => grows is_tmp_blob d0 d));
      [|apply Hgoal; rewrite Hd; apply grows_refl].
    eapply runs_bind; [by apply store_blobs_spec|]. intros []. apply runs_ret. intros d [G Hst]. split; [done|]. intros vh Hin.
    destruct (decide (vh ∈ missing)) as [Hm|Hm]; [|eapply grows_stored; [by apply grows_weaken|subst bs'; by apply Hfound]].
    rewrite <-Hv in Hm. apply list_elem_of_fmap in Hm as (b & -> & Hb'). rewrite Forall_forall in Hst. by apply Hst.
Qed.

Abbreviation grown_from d0 d := (grows is_tmp_blob d0 d).

Lemma process_payload_blobs_spec d0 header :
  good_files d0 ->
  runs (fun d => d = d0) (process_payload_blobs filter_address header (block_of (hd_root header)))
    (fun _ d => grown_from d0 d /\ all_stored d (hd_root header)) (fun _ d => grown_from d0 d).
Proof.
  intros Hg. set (b := block_of (hd_root header)). unfold process_payload_blobs.
  destruct (blob_kzg_commitments b) as [|c cs] eqn:Hc.
  - apply runs_ret. intros d ->. split; [apply grows_refl|]. intros vh Hin. fold b in Hin. unfold wanted in Hin. rewrite Hc in Hin.
    by apply not_elem_of_nil in Hin.
  - csimpl. change ((ArchiverNode.kzg_to_versioned_hash c, c) :: _) with ((fun c => (ArchiverNode.kzg_to_versioned_hash c, c)) <$> (c :: cs)).
    rewrite <-Hc. change ((fun c => (ArchiverNode.kzg_to_versioned_hash c, c)) <$> blob_kzg_commitments b) with (commitments_of (hd_root header)).
    assert (Hw : wanted b = from_option (target_hashes filter_address) [] (eb_transactions (exec_of (block_hash (execution_payload b)))))
      by (unfold wanted; by rewrite Hc).
    eapply runs_bind; [apply (runs_on_env _ _ (fun x d => d = d0 /\ x = exec_of (block_hash (execution_payload b))))|].
    { intros d x e e' -> He. split; [done|]. by eapply exec_answer. }
    { intros d f ->. apply grows_refl. }
    intros x. eapply runs_bind; [apply (runs_lift _ _ (fun txs d => d = d0 /\ wanted b = target_hashes filter_address txs
      /\ target_hashes filter_address txs `sublist_of` hashes_of (hd_root header)))|].
    { intros d txs [-> ->] Ht. split; [done|]. rewrite Hw. unfold ok_or in Ht. destruct (eb_transactions _) as [txs'|] eqn:Etx; [|done].
      injection Ht as ->. split; [done|]. by apply target_hashes_in_order. }
    { intros d f [-> _] _. apply grows_refl. }
    intros txs. destruct (target_hashes filter_address txs) as [|vh vhs] eqn:Ht.
    { apply runs_ret. intros d (-> & Hwt & _). split; [apply grows_refl|]. intros v Hin. fold b in Hin. rewrite Hwt, Ht in Hin. by apply not_elem_of_nil in Hin. }
    intros w1 (Hd & Hwt & Hord). rewrite Ht in Hord. assert (Hgoal : runs (fun d => d = d0)
      (let! blobs := ArchiverNode.get_blobs header (commitments_of (hd_root header)) (vh :: vhs) in
       elift (rassert (length blobs =? length (vh :: vhs))%nat "assertion `left == right` failed"))
      (fun _ d => grown_from d0 d /\ all_stored d (hd_root header)) (fun _ d => grown_from d0 d)); [|by apply Hgoal].
    eapply runs_bind; [by apply get_blobs_spec|]. intros blobs. apply runs_lift; [|by intros d f [G _] _].
    intros d a [G Hst] _. split; [done|]. intros v Hin. apply Hst. fold b in Hin. by rewrite Hwt, Ht in Hin.
Qed.

Definition known_block (b : BlockAndRoot) : Prop := br_block b = block_of (br_root b).

Lemma process_beacon_block_blobs_spec d0 header prev :
  good_files d0 -> (forall b, prev = Some b -> known_block b) ->
  runs (fun d => d = d0) (process_beacon_block_blobs filter_address header prev)
    (fun br d => grown_from d0 d /\ known_block br
       /\ ((exists x, execution_payload (block_of (hd_root header)) = Embedded x) -> all_stored d (hd_root header))
       /\ (builds_on_payload_of (block_of (hd_root header)) (block_of (hd_parent_root header)) = true -> all_stored d (hd_parent_root header)))
    (fun _ d => grown_from d0 d).
Proof.
  intros Hg Hprev. unfold process_beacon_block_blobs. set (b := block_of (hd_root header)). set (pb := block_of (hd_parent_root header)).
  eapply runs_bind; [apply (runs_on_env _ _ (fun x d => d = d0 /\ x = b))|].
  { intros d x e e' -> He. split; [done|]. by eapply block_answer. }
  { intros d f ->. apply grows_refl. }
  intros x. apply runs_pure. intros ->. destruct (execution_payload b) as [h|h h'] eqn:Hx.
  - assert (Hno : builds_on_payload_of b pb = false) by (unfold builds_on_payload_of; by rewrite Hx).
    assert (Hrun : runs (fun d => d = d0) (process_payload_blobs filter_address header b ;! eret {| br_root := hd_root header; br_block := b |})
      (fun br d => grown_from d0 d /\ known_block br /\ all_stored d (hd_root header)) (fun _ d => grown_from d0 d)).
    { eapply runs_bind; [by apply process_payload_blobs_spec|]. intros []. apply runs_ret. intros d [G Ha]. done. }
    eapply runs_weaken; [exact Hrun|done| |done]. intros br d (G & Hk & Ha). split_and!; try done. by rewrite Hno.
  - assert (Hemb : ~ exists y, Bid h h' = Embedded y) by (by intros [y ?]).
    assert (Hrun : runs (fun d => d = d0)
      (let! parent_block := match prev with
         | Some b => if bool_decide (br_root b = hd_parent_root header) then eret (br_block b) else on_env (get_block (hd_parent_root header))
         | None => on_env (get_block (hd_parent_root header)) end in
       if builds_on_payload_of b parent_block then
         process_payload_blobs filter_address {| hd_root := hd_parent_root header; hd_parent_root := parent_root parent_block;
                                                 hd_slot := blk_slot parent_block |} parent_block ;!
         eret {| br_root := hd_root header; br_block := b |}
       else eret {| br_root := hd_root header; br_block := b |})
      (fun br d => grown_from d0 d /\ known_block br /\ (builds_on_payload_of b pb = true -> all_stored d (hd_parent_root header)))
      (fun _ d => grown_from d0 d)).
    { apply (runs_bind _ _ (fun x d => d = d0 /\ x = pb)).
      - assert (Hask : runs (fun d => d = d0) (on_env (get_block (hd_parent_root header))) (fun x d => d = d0 /\ x = pb) (fun _ d => grown_from d0 d)).
        { apply runs_on_env; [|intros d f ->; apply grows_refl]. intros d y e e' -> He. split; [done|]. by eapply block_answer. }
        destruct prev as [pr|]; [|done]. case_bool_decide as Hr; [|done]. apply runs_ret. intros d ->. split; [done|].
        unfold pb. rewrite <-Hr. by apply Hprev.
      - intros y. apply runs_pure. intros ->. destruct (builds_on_payload_of b pb) eqn:Hbo.
        + set (ph := {| hd_root := hd_parent_root header; hd_parent_root := _; hd_slot := _ |}).
          eapply runs_bind; [by apply (process_payload_blobs_spec d0 ph)|]. intros []. apply runs_ret. intros d [G Ha]. done.
        + apply runs_ret. intros d ->. split_and!; [apply grows_refl|done|done]. }
    eapply runs_weaken; [exact Hrun|done| |done]. intros br d (G & Hk & Ha). split_and!; try done.
Qed.
End Facts.
End ArchiverFacts.
