(* ===== verification/ArchiverChain.v ===== *)
(** * Crash consistency of the archive

    The invariant of [ArchiverFacts.v] holds through every operation of the
    archiver and at every point at which one can fail, so it holds in every state
    that restarting can reach. *)

From Stdlib Require Import Ascii.
From stdpp Require Import sorting.
From S2P Require Import Prelude Pod2 ObjectNames Archiver Node ArchiverNames ArchiverStore ArchiverNode ArchiverTrees ArchiverFacts.

Module ArchiverChain.
Import ObjectNames Node ArchiverNames ArchiverStore ArchiverNode ArchiverTrees ArchiverFacts.

Section Chain.
Context `{Honest} (filter_address : list byte).
Abbreviation archive := (ArchiverFacts.archive filter_address).
Implicit Types (d : Disk) (l : list BlockHeader) (h : BlockHeader).

Definition some_archive d : Prop := exists l done, archive d l done.
Definition failed (f : failure) d : Prop := (exists m, f = Fail m) /\ some_archive d.

(** ** Chains *)

Lemma completed_snoc l h : completed (l ++ [h]) false = l.
Proof. apply removelast_last. Qed.

Lemma linked_snoc l h :
  linked (l ++ [h]) <-> linked l /\ forall x, last l = Some x -> hd_parent_root h = hd_root x /\ (hd_slot x < hd_slot h)%Z.
Proof.
  induction l as [|a l IH]; [simpl; naive_solver|]. destruct l as [|b l].
  - simpl. split; [intros (? & ? & _); split; [done|]; intros x [= <-]; done|]. intros [_ Hx]. by destruct (Hx a eq_refl).
  - change (linked ((a :: b :: l) ++ [h])) with (hd_parent_root b = hd_root a /\ (hd_slot a < hd_slot b)%Z /\ linked ((b :: l) ++ [h])).
    rewrite IH. change (last (a :: b :: l)) with (last (b :: l)). simpl linked at 2. tauto.
Qed.

Lemma linked_before l h h' : linked (l ++ [h]) -> h' ∈ l -> (hd_slot h' < hd_slot h)%Z.
Proof.
  revert h. induction l as [|x l IH] using rev_ind; intros h Hl Hin; [by apply not_elem_of_nil in Hin|].
  apply linked_snoc in Hl as [Hl Hx]. destruct (Hx x) as [_ Hlt]; [by rewrite last_snoc|].
  apply elem_of_app in Hin as [Hin| ->%list_elem_of_singleton]; [|done]. specialize (IH x Hl Hin). lia.
Qed.

Lemma linked_slots_inj l h h' : linked l -> h ∈ l -> h' ∈ l -> hd_slot h = hd_slot h' -> h = h'.
Proof.
  induction l as [|x l IH] using rev_ind; intros Hl Hin Hin' Heq; [by apply not_elem_of_nil in Hin|].
  pose proof (linked_before _ _ h Hl) as Hb. pose proof (linked_before _ _ h' Hl) as Hb'. apply linked_snoc in Hl as [Hl _].
  apply elem_of_app in Hin as [Hin|Hin%list_elem_of_singleton]; apply elem_of_app in Hin' as [Hin'|Hin'%list_elem_of_singleton]; subst; auto.
  - specialize (Hb Hin). lia.
  - specialize (Hb' Hin'). lia.
Qed.

Lemma known_root h h' : known h -> known h' -> hd_root h = hd_root h' -> h = h'.
Proof. intros [Hh _] [Hh' _] Heq. congruence. Qed.

Lemma known_slot h h' : known h -> known h' -> slot_dir_from (hd_slot h) = slot_dir_from (hd_slot h') -> hd_slot h = hd_slot h'.
Proof. intros [_ Hs] [_ Hs']. by apply slot_dir_from_inj. Qed.

Lemma completed_sub l done h : h ∈ completed l done -> h ∈ l.
Proof.
  destruct done; [done|]. simpl. destruct l as [|x l _] using rev_ind; [done|]. rewrite removelast_last. set_solver.
Qed.

Section Archive.
Context d l (done : bool) (Ar : archive d l done).

Lemma ar_known_in h : h ∈ l -> known h.
Proof. pose proof (ar_known _ _ _ _ Ar) as Hk. rewrite Forall_forall in Hk. auto. Qed.

(** The link of a block. *)
Lemma ar_link h : h ∈ l -> at_path (by_slot d) (slot_dir_from (hd_slot h)) = Some (root_dir_from (hd_root h)).
Proof. intros Hin. apply (ar_links _ _ _ _ Ar). eauto. Qed.

(** No link leads from a slot that has no block. *)
Lemma ar_no_link s : (0 <= s < SLOT_BOUND)%Z -> (forall h, h ∈ l -> hd_slot h <> s) -> at_path (by_slot d) (slot_dir_from s) = None.
Proof.
  intros Hs Hno. destruct (at_path _ _) as [r|] eqn:Hp; [|done]. apply (ar_links _ _ _ _ Ar) in Hp as (h & Hin & Hp & _).
  exfalso. destruct (ar_known_in h Hin) as [_ Hk]. by apply (Hno h), slot_dir_from_inj.
Qed.

(** The header file of a block shows whether it is complete. *)
Lemma ar_header_completed h fs : h ∈ l -> files_of d (root_dir_from (hd_root h)) = Some fs -> is_Some (fs !! HEADER_FILE) -> h ∈ completed l done.
Proof.
  intros Hin Hp [data Hd]. destruct (ar_headers _ _ _ _ Ar _ _ _ Hp Hd) as (h' & Hin' & Hr%root_dir_from_inj & _).
  replace h with h'; [done|]. apply known_root; [apply ar_known_in; by eapply completed_sub|by apply ar_known_in|done].
Qed.
End Archive.

(** ** Blobs that stay *)

Lemma stored_mono d d' r vh :
  (forall fs i data, files_of d (root_dir_from r) = Some fs -> fs !! blob_name i vh = Some data ->
     exists fs', files_of d' (root_dir_from r) = Some fs' /\ fs' !! blob_name i vh = Some data) ->
  stored d r vh -> stored d' r vh.
Proof. intros Hk (fs & i & Hp & Hi & Hn). destruct (Hk _ _ _ Hp Hn) as (fs' & Hp' & Hn'). exists fs', i. done. Qed.

Abbreviation blobs_archived := (ArchiverFacts.blobs_archived filter_address).
Abbreviation all_stored := (ArchiverFacts.all_stored filter_address).

Lemma blobs_archived_mono d d' l l' :
  blobs_archived d l' -> l `prefix_of` l' -> (forall h, h ∈ l -> all_stored d (hd_root h) -> all_stored d' (hd_root h)) -> blobs_archived d' l.
Proof.
  intros Hb [k ->] Hs i h Hi. assert (Hin : h ∈ l) by (by eapply list_elem_of_lookup_2).
  destruct (Hb i h) as [He Hn]; [by apply lookup_app_l_Some|]. split; [intros Hx; apply Hs; auto|].
  intros h' Hi' Hbo. apply Hs; [done|]. by apply (Hn h'); [apply lookup_app_l_Some|].
Qed.

(** ** Adding a block *)

Lemma archive_same_paths d t l done :
  (forall p, at_path t p = at_path (by_slot d) p) -> archive d l done -> archive (on_slots (fun _ => t) d) l done.
Proof. intros Ht [Hk Hl Hli Hh Hc Hf Hb]. split; try done. intros p r. simpl. by rewrite Ht. Qed.

(** A block that may follow the chain [l]. *)
Definition follows l h : Prop := known h /\ linked (l ++ [h]).

Lemma archive_push d l h :
  follows l h -> archive d l true ->
  archive (on_slots (put (slot_dir_from (hd_slot h)) (root_dir_from (hd_root h))) d) (l ++ [h]) false.
Proof.
  intros [Hkn Hln] Ar. pose proof Ar as [Hk Hl Hli Hh Hc Hf Hb]. split.
  - apply Forall_app. auto.
  - done.
  - intros p r. simpl. rewrite at_path_put. destruct (decide (p = slot_dir_from (hd_slot h))) as [->|Hp].
    + split; [intros [= <-]; exists h; set_solver|]. intros (h' & Hin & Heq & ->).
      apply elem_of_app in Hin as [Hin| ->%list_elem_of_singleton]; [|done]. exfalso.
      pose proof (linked_before _ _ _ Hln Hin). apply (known_slot h h') in Heq; [lia|done|by eapply ar_known_in].
    + rewrite Hli. split; intros (h' & Hin & Heq & ->); exists h'; (split; [|done]); [set_solver|].
      apply elem_of_app in Hin as [?| ->%list_elem_of_singleton]; done.
  - rewrite completed_snoc. exact Hh.
  - rewrite completed_snoc. exact Hc.
  - exact Hf.
  - rewrite completed_snoc. exact Hb.
Qed.

Lemma create_link_spec l h :
  follows l h ->
  runs (fun d => archive d l true) (create_link (slot_dir_from (hd_slot h)) (root_dir_from (hd_root h)))
    (fun _ d => archive d (l ++ [h]) false) failed.
Proof.
  intros Hfo. assert (Hfail : forall d m, archive d l true -> failed (Fail m) d) by (intros d m Ar; split; [eauto|by exists l, true]).
  unfold create_link. eapply runs_bind; [apply runs_fs_call, Hfail|]. intros u.
  eapply runs_bind; [apply (runs_modify _ _ (fun _ d => archive d l true))|].
  { intros d Ar. apply (archive_same_paths d (make_parents _ (by_slot d))); [|done]. intros p. apply at_path_make_parents. }
  intros v. eapply runs_bind; [apply (runs_fs_call (fun d => archive d l true)), Hfail|]. intros x. apply runs_get. intros w Ar.
  rewrite (ar_no_link _ _ _ Ar).
  - apply runs_modify. intros d ->. by apply archive_push.
  - by destruct Hfo as [[_ ?] _].
  - intros h' Hin. destruct Hfo as [_ Hl]. pose proof (linked_before _ _ _ Hl Hin). lia.
Qed.

(** Once its data is there, the header makes the last block complete. *)
Lemma archive_complete d l h fs :
  archive d (l ++ [h]) false -> files_of d (root_dir_from (hd_root h)) = Some fs -> fs !! HEADER_TMP = Some (header_json h) ->
  ((exists x, execution_payload (block_of (hd_root h)) = Embedded x) -> all_stored d (hd_root h)) ->
  (builds_on_payload_of (block_of (hd_root h)) (block_of (hd_parent_root h)) = true -> all_stored d (hd_parent_root h)) ->
  archive (on_roots (put (root_dir_from (hd_root h)) (<[HEADER_FILE := header_json h]> (delete HEADER_TMP fs))) d) (l ++ [h]) true.
Proof.
  intros Ar Hp Htmp Hemb Hbid. pose proof Ar as [Hk Hl Hli Hh Hc Hf Hb]. rewrite completed_snoc in *. set (d' := on_roots _ d).
  assert (Hst : forall r vh, stored d r vh -> stored d' r vh).
  { intros r vh. apply stored_mono. intros gs i data Hg Hn. unfold d'. rewrite files_put. case_decide as Heq; [|eauto].
    rewrite Heq, Hp in Hg. injection Hg as <-. eexists. split; [done|]. rewrite lookup_insert_ne by (symmetry; apply blob_not_header).
    rewrite lookup_delete_ne; [done|]. intros Heq'. apply (blob_not_temp i vh). right. done. }
  split; [done|done|done|..].
  - intros q gs data. unfold d'. rewrite files_put. case_decide as Hq.
    + intros [= <-]. rewrite lookup_insert_eq. intros [= <-]. exists h. split; [simpl; set_solver|done].
    + intros Hg Hd. destruct (Hh _ _ _ Hg Hd) as (h' & Hin & ?). exists h'. split; [simpl; set_solver|done].
  - intros h' Hin. unfold d'. rewrite files_put. case_decide as Hq; [eexists; split; [done|by rewrite lookup_insert_eq]|].
    apply Hc. apply elem_of_app in Hin as [?| ->%list_elem_of_singleton]; done.
  - intros q gs name data. unfold d'. rewrite files_put. case_decide as Hq; [|by apply Hf]. intros [= <-].
    intros [[<- _]|[_ [_ Hn]%lookup_delete_Some]]%lookup_insert_Some; [by left|]. subst q. by eapply Hf.
  - intros Hhf. change (blobs_archived d' (l ++ [h])). intros i h' Hi. specialize (Hb Hhf). destruct (decide (i < length l)%nat) as [Hlt|Hge].
    + rewrite lookup_app_l in Hi by done. destruct (Hb _ _ Hi) as [He Hn]. split; [intros Hx vh Hv; apply Hst; by apply He|].
      intros h'' Hi'' Hbo vh Hv. apply Hst. destruct (decide (S i < length l)%nat) as [Hlt'|Hge'].
      * rewrite lookup_app_l in Hi'' by done. by apply (Hn h'').
      * assert (Hlast : last l = Some h') by (rewrite last_lookup; by replace (pred (length l)) with i by lia).
        rewrite lookup_app_r in Hi'' by lia. replace (S i - length l)%nat with 0%nat in Hi'' by lia. injection Hi'' as ->.
        apply linked_snoc in Hl as [_ Hpar]. destruct (Hpar _ Hlast) as [Hr _]. rewrite <-Hr in *. by apply Hbid.
    + assert (i = length l) as -> by (apply lookup_lt_Some in Hi; rewrite length_app in Hi; simpl in Hi; lia).
      rewrite lookup_app_r, Nat.sub_diag in Hi by done. injection Hi as <-. split; [intros Hx vh Hv; apply Hst; by apply Hemb|].
      intros h'' Hi''. apply lookup_lt_Some in Hi''. rewrite length_app in Hi''. simpl in Hi''. lia.
Qed.

Lemma runs_at {A} (P : Disk -> Prop) (c : eff World A) Q F : (forall d0, P d0 -> runs (fun d => d = d0) c Q F) -> runs P c Q F.
Proof. intros Hc w Hw. by apply (Hc (disk w)). Qed.

Lemma archive_fails d l done m : archive d l done -> failed (Fail m) d.
Proof. intros Ar. split; [eauto|by exists l, done]. Qed.

Lemma create_root_dir_spec l done p :
  runs (fun d => archive d l done) (create_root_dir p) (fun _ d => archive d l done) failed.
Proof.
  unfold create_root_dir. eapply runs_bind; [apply runs_fs_call; intros d m; apply archive_fails|]. intros u.
  apply runs_modify. intros d Ar. unfold on_roots. destruct (at_path (by_root d) p) as [fs|] eqn:Hp; [by destruct d|].
  eapply archive_grows; [|exact Ar]. by apply grows_new_dir.
Qed.

Definition header_written h d : Prop :=
  exists fs, files_of d (root_dir_from (hd_root h)) = Some fs /\ fs !! HEADER_TMP = Some (header_json h).

Lemma write_header_spec l done h :
  runs (fun d => archive d l done) (write_file (root_dir_from (hd_root h)) HEADER_TMP (header_json h))
    (fun _ d => archive d l done /\ header_written h d) failed.
Proof.
  apply runs_write_file; [intros d m; apply archive_fails|]. intros d fs x Ar Hp d'.
  assert (Ar' : archive d' l done).
  { eapply archive_grows; [|exact Ar]. apply (grows_put _ _ _ fs); [done|..].
    - intros n y Hn Hy. rewrite lookup_insert_ne; [done|]. intros <-. apply Hn. by right.
    - intros n y [[<- _]|[_ Hy]]%lookup_insert_Some; [|by left]. right. right. by right. }
  split; [intros m; by eapply archive_fails|]. intros ->. split; [done|]. eexists. split; [apply files_put_eq|apply lookup_insert_eq].
Qed.

Lemma header_written_grows h d d' : grows is_tmp_blob d d' -> header_written h d -> header_written h d'.
Proof.
  intros G (fs & Hp & Hn). destruct (gr_keeps _ _ _ G _ _ Hp) as (fs' & Hp' & Hk). exists fs'. split; [done|].
  apply Hk; [apply header_tmp_not_tmp_blob|done].
Qed.

(** Archiving a block completes it, or leaves it incomplete on top. *)
Lemma process_header_spec l h prev :
  follows l h -> (forall b, prev = Some b -> known_block b) ->
  runs (fun d => archive d l true) (process_beacon_block_header filter_address h prev)
    (fun br d => archive d (l ++ [h]) true /\ known_block br) (fun _ d => some_archive d).
Proof.
  intros Hfo Hprev. assert (Hfail : forall f d, failed f d -> some_archive d) by (by intros f d [_ ?]).
  unfold process_beacon_block_header. apply (runs_bind _ _ (fun _ d => archive d (l ++ [h]) false)).
  { eapply runs_weaken; [by apply create_link_spec|done|done|exact Hfail]. }
  intros []. apply (runs_bind _ _ (fun _ d => archive d (l ++ [h]) false)).
  { eapply runs_weaken; [apply (create_root_dir_spec (l ++ [h]) false)|done|done|exact Hfail]. }
  intros []. apply (runs_bind _ _ (fun _ d => archive d (l ++ [h]) false /\ header_written h d)).
  { eapply runs_weaken; [apply (write_header_spec (l ++ [h]) false h)|done|done|exact Hfail]. }
  intros []. apply runs_at. intros d0 [Ar Hw].
  assert (Hany : forall d, grows is_tmp_blob d0 d -> archive d (l ++ [h]) false).
  { intros d G. eapply archive_grows; [by apply grows_weaken|exact Ar]. }
  eapply runs_bind.
  { eapply runs_weaken; [apply (process_beacon_block_blobs_spec filter_address d0 h prev); [exact (ar_files _ _ _ _ Ar)|done]|done|intros br d HQ; exact HQ|].
    intros f d G. exists (l ++ [h]), false. auto. }
  intros br. eapply runs_bind; [apply runs_fs_call|].
  { intros d m (G & _). exists (l ++ [h]), false. auto. }
  intros []. eapply runs_bind; [apply (runs_rename_file _ _ _ _ (fun _ d => archive d (l ++ [h]) true /\ known_block br))|].
  { intros d m (G & _). exists (l ++ [h]), false. auto. }
  - intros d fs x (G & Hk & He & Hb) Hp Hx. split; [|done]. destruct (header_written_grows _ _ _ G Hw) as (gs & Hp' & Hj).
    rewrite Hp in Hp'. injection Hp' as <-. rewrite Hx in Hj. injection Hj as ->. apply archive_complete; auto.
  - intros []. by apply runs_ret.
Qed.

(** ** Removing the last block *)

(** The files of the last block change and its header is gone: what is below it
    stays complete. *)
Lemma archive_top_changed d d' l h done :
  archive d (l ++ [h]) done -> by_slot d' = by_slot d ->
  (forall q, q <> root_dir_from (hd_root h) -> files_of d' q = files_of d q) ->
  (forall fs', files_of d' (root_dir_from (hd_root h)) = Some fs' ->
     fs' !! HEADER_FILE = None /\ exists fs, files_of d (root_dir_from (hd_root h)) = Some fs /\ fs' ⊆ fs) ->
  archive d' (l ++ [h]) false.
Proof.
  intros Ar Hs Hq Htop. pose proof Ar as [Hk Hl Hli Hh Hc Hf Hb]. set (p := root_dir_from (hd_root h)) in *.
  assert (Hother : forall h', h' ∈ l -> root_dir_from (hd_root h') <> p).
  { intros h' Hin Heq%root_dir_from_inj. pose proof (linked_before _ _ _ Hl Hin).
    assert (h' = h) by (apply known_root; [eapply ar_known_in; [exact Ar|set_solver]..|done]). subst. lia. }
  assert (Hsub : forall h', h' ∈ l -> h' ∈ completed (l ++ [h]) done) by (intros h' Hin; destruct done; [simpl; set_solver|by rewrite completed_snoc]).
  split; rewrite ?completed_snoc; [done|done|by rewrite Hs|..].
  - intros q fs data Hfs Hd. destruct (decide (q = p)) as [->|Hne]; [by destruct (Htop _ Hfs) as [Hnone _]; congruence|].
    rewrite Hq in Hfs by done. destruct (Hh _ _ _ Hfs Hd) as (h' & Hin & -> & ->). exists h'. split; [|done].
    apply completed_sub, elem_of_app in Hin as [?| ->%list_elem_of_singleton]; done.
  - intros h' Hin. rewrite Hq by auto. auto.
  - intros q fs name data Hfs Hn. destruct (decide (q = p)) as [->|Hne]; [|rewrite Hq in Hfs by done; by eapply Hf].
    destruct (Htop _ Hfs) as [_ (fs0 & Hfs0 & Hs0)]. eapply Hf; [exact Hfs0|]. by eapply lookup_weaken.
  - intros Hhf. eapply blobs_archived_mono; [by apply Hb| |].
    + destruct done; [apply prefix_app_r; done|by rewrite completed_snoc].
    + intros h' Hin Hst vh Hv. eapply stored_mono; [|by apply Hst]. intros fs i data Hfs Hn. rewrite Hq by auto. eauto.
Qed.

(** Without files and link the last block is gone. *)
Lemma archive_pop d l h done :
  archive d (l ++ [h]) done -> files_of d (root_dir_from (hd_root h)) = None ->
  archive (on_slots (cut 0 (slot_dir_from (hd_slot h))) d) l true.
Proof.
  intros Ar0 Hnone. assert (Ar : archive d (l ++ [h]) false).
  { eapply archive_top_changed; [exact Ar0|done|done|]. intros fs Hfs. congruence. }
  pose proof Ar as [Hk Hl Hli Hh Hc Hf Hb]. rewrite completed_snoc in *. apply Forall_app in Hk as Hk'. destruct Hk' as [Hk' _].
  split; try done.
  - by apply linked_snoc in Hl as [? _].
  - intros p r. cbn [by_slot on_slots]. rewrite at_path_cut0. case_decide as Hp.
    + split; [done|]. intros (h' & Hin & Heq & _). exfalso. pose proof (linked_before _ _ _ Hl Hin). subst p.
      apply (known_slot h h') in Heq; [lia|eapply ar_known_in; [exact Ar|set_solver]..].
    + rewrite Hli. split; intros (h' & Hin & -> & ->); exists h'; (split; [|done]); [|set_solver].
      apply elem_of_app in Hin as [?| ->%list_elem_of_singleton]; done.
Qed.

(** A removal that left the header may have lost blobs. *)
Lemma archive_kept_header d d' l p fs fs' done :
  archive d l done -> ~ header_first -> by_slot d' = by_slot d -> (forall q, q <> p -> files_of d' q = files_of d q) ->
  files_of d p = Some fs -> files_of d' p = Some fs' -> fs' ⊆ fs -> (is_Some (fs !! HEADER_FILE) -> is_Some (fs' !! HEADER_FILE)) ->
  archive d' l done.
Proof.
  intros [Hk Hl Hli Hh Hc Hf Hb] Hno Hs Hq Hfs Hfs' Hsub Hkeep. split; [done|done|by rewrite Hs|..].
  - intros q gs data Hg Hd. destruct (decide (q = p)) as [->|Hne]; [|rewrite Hq in Hg by done; by eapply Hh].
    replace gs with fs' in * by congruence. eapply Hh; [exact Hfs|by eapply lookup_weaken].
  - intros h Hin. destruct (Hc _ Hin) as (gs & Hg & Hd). destruct (decide (root_dir_from (hd_root h) = p)) as [Heq|Hne]; [|rewrite Hq by done; eauto].
    rewrite Heq in *. exists fs'. split; [done|]. apply Hkeep. congruence.
  - intros q gs name data Hg Hn. destruct (decide (q = p)) as [->|Hne]; [|rewrite Hq in Hg by done; by eapply Hf].
    replace gs with fs' in * by congruence. eapply Hf; [exact Hfs|by eapply lookup_weaken].
  - done.
Qed.

Lemma remove_dir_all_spec l h done :
  runs (fun d => archive d (l ++ [h]) done /\ is_Some (files_of d (root_dir_from (hd_root h)))) (remove_dir_all (root_dir_from (hd_root h)))
    (fun _ d => archive d (l ++ [h]) false /\ files_of d (root_dir_from (hd_root h)) = None) failed.
Proof.
  set (p := root_dir_from (hd_root h)). intros w [Ar [fs Hfs]]. unfold wp, remove_dir_all. destruct (io_remove (env w)) as [o e] eqn:Hio.
  assert (Hcut : forall n, (n <= removal_level (by_root (disk w)) p)%nat -> forall q,
    files_of (on_roots (cut n p) (disk w)) q = if decide (q = p) then None else files_of (disk w) q).
  { intros n Hn q. by apply (at_path_cut _ _ _ _ fs). }
  assert (Hgone : forall n, (n <= removal_level (by_root (disk w)) p)%nat ->
    archive (on_roots (cut n p) (disk w)) (l ++ [h]) false /\ files_of (on_roots (cut n p) (disk w)) p = None).
  { intros n Hn. split; [|by rewrite (Hcut n Hn), decide_True]. eapply archive_top_changed; [exact Ar|done|..]; fold p.
    - intros q Hq. by rewrite (Hcut n Hn), decide_False.
    - intros gs. by rewrite (Hcut n Hn), decide_True. }
  destruct o as [|names m|n m].
  - by apply Hgone.
  - split; [eauto|]. simpl. unfold files_of in Hfs.
    assert (Hput : on_roots (fun t => match at_path t p with Some fs => put p (filter (fun kv => fst kv ∈ names) fs) t | None => t end) (disk w)
      = on_roots (put p (filter (fun kv => fst kv ∈ names) fs)) (disk w)) by (unfold on_roots; by rewrite Hfs).
    rewrite Hput. clear Hput. set (d' := on_roots _ _).
    assert (Htop : files_of d' p = Some (filter (fun kv => fst kv ∈ names) fs)) by apply files_put_eq.
    assert (Hq : forall q, q <> p -> files_of d' q = files_of (disk w) q) by (intros q Hne; unfold d'; by rewrite files_put, decide_False).
    destruct (decide (HEADER_FILE ∈ names)) as [Hin|Hin].
    + exists (l ++ [h]), done. eapply archive_kept_header; [exact Ar| |done|exact Hq|exact Hfs|exact Htop|apply map_filter_subseteq|].
      * intros Hhf. by apply (Hhf _ _ _ _ Hio).
      * intros [data Hd]. exists data. by apply map_lookup_filter_Some.
    + exists (l ++ [h]), false. eapply archive_top_changed; [exact Ar|done|done|]. fold p. rewrite Htop. intros fs' [= <-]. split.
      * apply map_lookup_filter_None. right. intros x _. done.
      * exists fs. split; [done|]. apply map_filter_subseteq.
  - split; [eauto|]. exists (l ++ [h]), false. apply Hgone. lia.
Qed.

(** [remove_dir_all] does not touch the links. *)
Lemma remove_dir_all_slots p t :
  runs (fun d => by_slot d = t) (remove_dir_all p) (fun _ d => by_slot d = t) (fun _ _ => True).
Proof. intros w Hw. unfold wp, remove_dir_all. by destruct (io_remove (env w)) as [[|names m|n m] e]. Qed.

Lemma runs_and {A} (P P' : Disk -> Prop) (c : eff World A) Q Q' F F' :
  runs P c Q F -> runs P' c Q' F' -> runs (fun d => P d /\ P' d) c (fun a d => Q a d /\ Q' a d) F.
Proof.
  intros Hc Hc' w [Hw Hw']. specialize (Hc w Hw). specialize (Hc' w Hw'). unfold wp in *. by destruct (c w) as [[a|f] w'].
Qed.

Lemma delete_top_spec l h done n :
  runs (fun d => archive d (l ++ [h]) done /\ tree_size (by_slot d) = n) (delete_block_data (slot_dir_from (hd_slot h)))
    (fun b d => b = true /\ archive d l true /\ (tree_size (by_slot d) < n)%nat) failed.
Proof.
  assert (Hfail : forall d m, archive d (l ++ [h]) done /\ tree_size (by_slot d) = n -> failed (Fail m) d) by (intros d m [Ar _]; by eapply archive_fails).
  unfold delete_block_data. eapply runs_bind; [apply runs_fs_call, Hfail|]. intros u. apply runs_get. intros w [Ar Hn].
  assert (Hlink : at_path (by_slot (disk w)) (slot_dir_from (hd_slot h)) = Some (root_dir_from (hd_root h))) by (eapply ar_link; [exact Ar|set_solver]).
  rewrite Hlink. set (p := root_dir_from (hd_root h)) in *. set (t := by_slot (disk w)) in *.
  apply (runs_bind _ _ (fun _ d => d = disk w)); [apply runs_fs_call; intros d m ->; by apply Hfail|]. intros [].
  apply (runs_bind _ _ (fun _ d => (archive d (l ++ [h]) false /\ files_of d p = None) /\ by_slot d = t)).
  { destruct (files_of (disk w) p) as [fs|] eqn:Hfs.
    - apply (runs_bind _ _ (fun _ d => d = disk w)); [apply runs_fs_call; intros d m ->; by apply Hfail|]. intros [].
      eapply runs_weaken; [apply (runs_and _ _ _ _ _ _ _ (remove_dir_all_spec l h done) (remove_dir_all_slots p t))| |done|done].
      intros d ->. split; [split; [done|by eexists]|done].
    - apply runs_ret. intros d ->. split; [split|]; [|done..]. eapply archive_top_changed; [exact Ar|done|done|]. fold p. intros fs'. congruence. }
  intros []. apply (runs_bind _ _ (fun _ d => (archive d (l ++ [h]) false /\ files_of d p = None) /\ by_slot d = t)).
  { apply runs_fs_call. intros d m [[Ar' _] _]. by eapply archive_fails. }
  intros []. apply (runs_bind _ _ (fun _ d => archive d l true /\ (tree_size (by_slot d) < n)%nat)); [|intros []; by apply runs_ret].
  apply runs_modify. intros d [[Ar' Hnone] Ht]. split; [by eapply archive_pop|]. change (tree_size (cut 0 (slot_dir_from (hd_slot h)) (by_slot d)) < n)%nat.
  rewrite Ht, <-Hn. by eapply tree_size_cut0.
Qed.

Lemma delete_absent_spec l done s :
  (0 <= s < SLOT_BOUND)%Z -> (forall h, h ∈ l -> hd_slot h <> s) ->
  runs (fun d => archive d l done) (delete_block_data (slot_dir_from s)) (fun b d => archive d l done /\ b = false) failed.
Proof.
  intros Hs Hno. unfold delete_block_data. eapply runs_bind; [apply runs_fs_call; intros d m; apply archive_fails|]. intros u.
  apply runs_get. intros w Ar. rewrite (ar_no_link _ _ _ Ar) by done. apply runs_ret. by intros d ->.
Qed.

(** ** The last complete block *)

Lemma highest_is_top d l h done p :
  archive d (l ++ [h]) done -> is_Some (at_path (by_slot d) p) -> (forall q, is_Some (at_path (by_slot d) q) -> path_le q p) ->
  p = slot_dir_from (hd_slot h).
Proof.
  intros Ar [r Hr] Hmax. apply (ar_links _ _ _ _ Ar) in Hr as (h' & Hin & -> & _). apply path_le_antisym.
  - pose proof (ar_known_in _ _ _ Ar _ Hin) as [_ Hs']. destruct (ar_known_in _ _ _ Ar h) as [_ Hs]; [set_solver|].
    apply slot_dir_order; [|lia]. split; [lia|]. apply elem_of_app in Hin as [Hin| ->%list_elem_of_singleton]; [|done].
    pose proof (linked_before _ _ _ (ar_linked _ _ _ _ Ar) Hin). lia.
  - apply Hmax. eexists. eapply ar_link; [exact Ar|set_solver].
Qed.

(** An incomplete block has no header file, a complete one its header. *)
Lemma top_header d l h done :
  archive d (l ++ [h]) done -> header_file d (slot_dir_from (hd_slot h)) = if done then Some (header_json h) else None.
Proof.
  intros Ar. unfold header_file. assert (Hin : h ∈ l ++ [h]) by set_solver. rewrite (ar_link _ _ _ Ar _ Hin). cbn [mbind option_bind].
  assert (Hnot : h ∉ l) by (intros Hl; pose proof (linked_before _ _ _ (ar_linked _ _ _ _ Ar) Hl); lia). destruct done.
  - destruct (ar_completed _ _ _ _ Ar h) as (fs & Hp & [data Hd]); [done|]. rewrite Hp. simpl. rewrite Hd. f_equal.
    destruct (ar_headers _ _ _ _ Ar _ _ _ Hp Hd) as (h' & Hin' & Hr%root_dir_from_inj & ->). f_equal.
    apply known_root; [by eapply ar_known_in, completed_sub|by eapply ar_known_in|done].
  - destruct (files_of d (root_dir_from (hd_root h))) as [fs|] eqn:Hp; [|done]. simpl. destruct (fs !! HEADER_FILE) as [data|] eqn:Hd; [|done].
    exfalso. apply Hnot. pose proof (ar_header_completed _ _ _ Ar h fs Hin Hp) as Hc. rewrite completed_snoc in Hc. by apply Hc.
Qed.

Lemma last_header_spec fuel l done :
  runs (fun d => archive d l done /\ (tree_size (by_slot d) < fuel)%nat) (last_header fuel)
    (fun r d => archive d (completed l done) true /\ r = last (completed l done)) failed.
Proof.
  revert l done. induction fuel as [|fuel IH]; intros l done; [intros w [_ Hlt]; lia|]. simpl.
  assert (Hfail : forall d m, archive d l done /\ (tree_size (by_slot d) < S fuel)%nat -> failed (Fail m) d) by (intros d m [Ar _]; by eapply archive_fails).
  eapply runs_bind; [apply runs_fs_call, Hfail|]. intros u. apply runs_get. intros w [Ar Hn]. pose proof (descend_spec (by_slot (disk w))) as Hd.
  destruct (descend (by_slot (disk w))) as [|level p|p].
  - apply runs_ret. intros d ->. destruct l as [|h l _] using rev_ind; [destruct done; (split; [|done]); [done|by destruct Ar; split]|]. exfalso.
    pose proof (ar_link _ _ _ Ar h ltac:(set_solver)) as Hl. by rewrite Hd in Hl.
  - destruct Hd as [Hsame Hlt]. apply (runs_bind _ _ (fun _ d => d = disk w)); [apply runs_fs_call; intros d m ->; by apply Hfail|]. intros [].
    apply (runs_bind _ _ (fun _ d => archive d l done /\ (tree_size (by_slot d) < fuel)%nat)); [|intros []; apply IH].
    apply runs_modify. intros d ->. split; [by apply (archive_same_paths _ (cut level p (by_slot (disk w))))|].
    change (tree_size (cut level p (by_slot (disk w))) < fuel)%nat. lia.
  - destruct Hd as [Hp Hmax]. apply (runs_bind _ _ (fun _ d => d = disk w)); [apply runs_fs_call; intros d m ->; by apply Hfail|]. intros [].
    destruct l as [|h l _] using rev_ind.
    { destruct Hp as [r Hr]. apply (ar_links _ _ _ _ Ar) in Hr as (h & Hin & _). by apply not_elem_of_nil in Hin. }
    rewrite (highest_is_top _ _ _ _ _ Ar Hp Hmax), (top_header _ _ _ _ Ar). destruct done.
    + rewrite json_roundtrip. intros w' Hw. change (archive (disk w') (l ++ [h]) true /\ Some h = last (l ++ [h])). by rewrite last_snoc, Hw.
    + rewrite completed_snoc. apply (runs_bind _ _ (fun _ d => archive d l true /\ (tree_size (by_slot d) < fuel)%nat)); [|intros b; apply (IH l true)].
      eapply runs_weaken; [apply (delete_top_spec l h false (tree_size (by_slot (disk w))))| | |done].
      * by intros d ->.
      * intros b d (_ & Ar' & Hlt). split; [done|]. lia.
Qed.

Lemma load_last_header_spec l done :
  runs (fun d => archive d l done) load_last_header (fun r d => archive d (completed l done) true /\ r = last (completed l done)) failed.
Proof.
  unfold load_last_header. apply runs_get. intros w Ar. eapply runs_weaken; [apply (last_header_spec _ l done)| |done|done].
  intros d ->. split; [done|]. lia.
Qed.
End Chain.
End ArchiverChain.
