(* ===== verification/ArchiverRun.v ===== *)
(** * Following the chain, whatever fails

    The states of the archiver under any sequence of turns, failures, crashes and
    restarts; the archive in each of them, how it is resumed and rewound, and what
    the endpoint serves from it. *)

From stdpp Require Import sorting.
From S2P Require Import Prelude Pod2 ObjectNames Archiver Node ArchiverNames ArchiverStore ArchiverNode ArchiverTrees ArchiverFacts ArchiverChain.

Module ArchiverRun.
Import ObjectNames Node ArchiverNames ArchiverStore ArchiverNode ArchiverTrees ArchiverFacts ArchiverChain.

Section Run.
Context `{Honest} (filter_address : list byte) (init_start_slot : Z).
Abbreviation archive := (ArchiverFacts.archive filter_address).
Abbreviation some_archive := (ArchiverChain.some_archive filter_address).
Abbreviation failed := (ArchiverChain.failed filter_address).
Implicit Types (d : Disk) (l : list BlockHeader) (h : BlockHeader) (p : Progress).

(** ** The states *)

Definition empty_disk : Disk := MkDisk ∅ ∅.

(** The world, and the loop's progress while it runs. A call that fails ends it:
    the process starts it again, or is started again. *)
Inductive reach : World -> option Progress -> Prop :=
| reach_boot e : reach (MkWorld _ empty_disk e) None
| reach_crash w o e : reach w o -> reach (MkWorld _ (disk w) e) None
| reach_start w p w' : reach w None -> start init_start_slot w = (Ok p, w') -> reach w' (Some p)
| reach_not_started w f w' : reach w None -> start init_start_slot w = (Err f, w') -> reach w' None
| reach_visit w p fuel p' w' : reach w (Some p) -> visit filter_address init_start_slot fuel p w = (Ok p', w') -> reach w' (Some p')
| reach_failed w p fuel f w' : reach w (Some p) -> visit filter_address init_start_slot fuel p w = (Err f, w') -> reach w' None.

(** The progress agrees with the archive. *)
Record running d l p : Prop := {
  run_archive : archive d l true;
  run_last : prev_header p = last l;
  run_slot : (0 <= slot p)%Z;
  run_above h : h ∈ l -> (hd_slot h < slot p)%Z;
  run_head : known (ArchiverNode.head p);
  run_block b : prev_block p = Some b -> known_block b;
}.

(** ** The operations *)

Lemma at_path_empty {A} (q : DirPath) : at_path (∅ : Tree A) q = None.
Proof. unfold at_path, level2, level1. by rewrite !lookup_empty. Qed.

Lemma empty_archive : archive empty_disk [] true.
Proof.
  assert (Hnone : forall q, files_of empty_disk q = None) by (intros q; apply at_path_empty).
  split; [constructor|done| | |by intros h ?%not_elem_of_nil| |by intros _ i h ?].
  - intros q r. simpl. rewrite at_path_empty. split; [done|]. by intros (h & ?%not_elem_of_nil & _).
  - intros q fs data Hf. by rewrite Hnone in Hf.
  - intros q fs name data Hf. by rewrite Hnone in Hf.
Qed.

Lemma last_elem l h : last l = Some h -> exists l0, l = l0 ++ [h].
Proof. by intros ?%last_Some. Qed.

Lemma rewind_last_spec fuel l x s :
  (hd_slot x < s <= SLOT_BOUND)%Z -> (Z.to_nat s < fuel)%nat ->
  runs (fun d => archive d (l ++ [x]) true) (rewind fuel s) (fun r d => archive d l true /\ r = last l) failed.
Proof.
  revert s. induction fuel as [|fuel IH]; intros s Hs Hf; [lia|]. simpl.
  apply (runs_weaken (fun d => archive d (l ++ [x]) true /\ known x) _ _ (fun r d => archive d l true /\ r = last l) _ failed); [|intros d Ar; split; [done|by apply (ar_known_in _ _ _ _ Ar); set_solver]|done|done].
  apply runs_pure. intros [_ Hx]. rewrite (proj2 (Z.eqb_neq s 0)) by lia.
  destruct (decide (hd_slot x = s - 1)%Z) as [Heq|Hne].
  - rewrite <-Heq. apply (runs_bind _ _ (fun b d => archive d l true /\ b = true)).
    + intros w Ar. pose proof (delete_top_spec filter_address l x true _ w (conj Ar eq_refl)) as Hd.
      eapply wp_mono; [exact Hd| |done]. by intros b w' (-> & Ar' & _).
    + intros b. apply runs_pure. intros ->. eapply runs_bind; [apply (load_last_header_spec _ l true)|]. intros r. simpl. by apply runs_ret.
  - apply (runs_bind _ _ (fun b d => archive d (l ++ [x]) true /\ b = false)).
    + intros w Ar. apply (delete_absent_spec filter_address (l ++ [x]) true (s - 1)); [lia| |done]. intros h Hin.
      apply elem_of_app in Hin as [Hin| ->%list_elem_of_singleton]; [|done].
      pose proof (linked_before _ _ _ (ar_linked _ _ _ _ Ar) Hin). lia.
    + intros b. apply runs_pure. intros ->. eapply runs_bind; [apply (load_last_header_spec _ (l ++ [x]) true)|]. intros r. simpl.
      apply runs_pure. rewrite last_snoc. intros ->. rewrite bool_decide_false by done. apply IH; lia.
Qed.

(** The header of a slot: what the node answers for it, or the head itself. *)
Lemma await_slot_spec fuel s (P : Disk -> Prop) :
  runs P (await_slot fuel s) (fun r d => P d /\ known (fst r) /\ forall h, snd r = Some h -> hd_slot h = s /\ known h) (fun _ d => P d).
Proof.
  induction fuel as [|fuel IH]; [by apply runs_throw|]. simpl. apply (runs_bind _ _ (fun hd d => P d /\ known hd)).
  { apply runs_on_env; [|done]. intros d h e e' HP Hh. split; [done|]. by eapply head_answer. }
  intros hd. apply runs_pure. intros Hk. destruct (s <? hd_slot hd)%Z eqn:Hlt; [|destruct (s =? hd_slot hd)%Z eqn:Heq; [|exact IH]].
  - apply (runs_bind _ _ (fun o d => P d /\ forall h, o = Some h -> hd_slot h = s /\ known h)).
    + apply runs_on_env; [|done]. intros d o e e' HP Ho. split; [done|]. intros h ->. by eapply header_answer.
    + intros o. apply runs_pure. intros Ho. by apply runs_ret.
  - apply runs_ret. intros d HP. split_and!; [done|done|]. intros h [= <-]. split; [|done]. lia.
Qed.

Lemma find_header_spec fuel p (P : Disk -> Prop) :
  known (ArchiverNode.head p) ->
  runs P (if (slot p <=? hd_slot (ArchiverNode.head p))%Z
          then let! o := on_env (ArchiverNode.get_block_header (slot p)) in eret (ArchiverNode.head p, o) else await_slot fuel (slot p))
    (fun r d => P d /\ known (fst r) /\ forall h, snd r = Some h -> hd_slot h = slot p /\ known h) (fun _ d => P d).
Proof.
  intros Hk. destruct (_ <=? _)%Z; [|apply await_slot_spec].
  apply (runs_bind _ _ (fun o d => P d /\ forall h, o = Some h -> hd_slot h = slot p /\ known h)).
  - apply runs_on_env; [|done]. intros d o e e' HP Ho. split; [done|]. intros h ->. by eapply header_answer.
  - intros o. apply runs_pure. intros Ho. by apply runs_ret.
Qed.

(** The progress after a block, and after a rewind. *)
Lemma running_pushed d l p hd h b :
  running d l p -> forall d', archive d' (l ++ [h]) true -> hd_slot h = slot p -> known hd -> known_block b ->
  running d' (l ++ [h]) (MkProgress (slot p + 1) hd (Some h) (Some b)).
Proof.
  intros [_ _ Hs Ha _ _] d' Ar Hh Hhd Hb. split; simpl; [done|by rewrite last_snoc|lia| |done|by intros ? [= <-]].
  intros x [Hin| ->%list_elem_of_singleton]%elem_of_app; [specialize (Ha _ Hin)|]; lia.
Qed.

Lemma running_resumed d l hd o :
  (0 <= init_start_slot)%Z -> archive d l true -> known hd -> (forall b, o = Some b -> known_block b) ->
  running d l (MkProgress (next_slot init_start_slot (last l)) hd (last l) o).
Proof.
  intros Hi Ar Hhd Ho. split; simpl; try done.
  - destruct (last l) as [h|] eqn:Hl; [|done]. apply last_elem in Hl as [l0 ->]. simpl.
    destruct (ar_known_in _ _ _ _ Ar h) as [_ Hs]; [set_solver|]. lia.
  - intros h Hin. destruct (last l) as [x|] eqn:Hl; [|by apply last_None in Hl as ->; apply not_elem_of_nil in Hin].
    apply last_elem in Hl as [l0 ->]. pose proof (ar_linked _ _ _ _ Ar) as Hln. simpl.
    apply elem_of_app in Hin as [Hin| ->%list_elem_of_singleton]; [|lia]. pose proof (linked_before _ _ _ Hln Hin). lia.
Qed.

Lemma start_spec l done :
  (0 <= init_start_slot)%Z ->
  runs (fun d => archive d l done) (start init_start_slot) (fun p d => running d (completed l done) p) (fun _ d => some_archive d).
Proof.
  intros Hi. unfold start. apply (runs_bind _ _ (fun hd d => archive d l done /\ known hd)).
  { apply runs_on_env; [|intros d f Ar; by exists l, done]. intros d h e e' Ar Hh. split; [done|]. by eapply head_answer. }
  intros hd. apply runs_pure. intros Hhd.
  apply (runs_bind _ _ (fun r d => archive d (completed l done) true /\ r = last (completed l done))).
  { eapply runs_weaken; [apply (load_last_header_spec filter_address l done)|done|done|]. by intros f d [_ ?]. }
  intros r. apply runs_pure. intros ->. apply runs_ret. intros d Ar. by apply running_resumed.
Qed.

Lemma running_follows d l p h :
  running d l p -> known h -> hd_slot h = slot p ->
  from_option hd_root (hd_parent_root h) (prev_header p) = hd_parent_root h -> follows l h.
Proof.
  intros [Ar Hl _ Ha _ _] Hk Hs Hp. split; [done|]. apply linked_snoc. split; [by apply (ar_linked _ _ _ _ Ar)|]. intros x Hx.
  rewrite Hl, Hx in Hp. split; [done|]. rewrite Hs. apply Ha. apply last_elem in Hx as [l0 ->]. set_solver.
Qed.

(** One turn: a slot passed over, a block added, or the last block removed. *)
Definition turn l l' p p' : Prop :=
  l' = l \/ (exists h, l' = l ++ [h] /\ hd_slot h = slot p) \/ (exists x, l = l' ++ [x] /\ slot p' = next_slot init_start_slot (last l')).

Lemma visit_spec fuel l p :
  (0 <= init_start_slot)%Z ->
  runs (fun d => running d l p) (visit filter_address init_start_slot fuel p)
    (fun p' d => exists l', running d l' p' /\ turn l l' p p') (fun _ d => some_archive d).
Proof.
  intros Hi. assert (Hany : forall d, running d l p -> some_archive d) by (intros d [Ar ? ? ? ? ?]; by exists l, true).
  apply (runs_weaken (fun d => running d l p /\ known (ArchiverNode.head p)) _ _ (fun p' d => exists l', running d l' p' /\ turn l l' p p') _ (fun _ d => some_archive d));
    [|intros d R; split; [done|by apply (run_head _ _ _ R)]|done|done].
  apply runs_pure. intros Hhd. unfold visit.
  eapply runs_bind; [eapply runs_weaken; [apply (find_header_spec fuel p (fun d => running d l p)), Hhd|done|done|by auto]|].
  intros [hd [h|]]; simpl; apply runs_pure; intros [Hk Hh].
  2: { apply runs_ret. intros d R. exists l. split; [|by left]. destruct R as [Ar Hl Hs Ha _ Hb]. split; simpl; try done; [lia|].
       intros x Hin. specialize (Ha x Hin). lia. }
  destruct (Hh h eq_refl) as [Hs Hkh]. case_bool_decide as Hp.
  - intros w R. pose proof (running_follows _ _ _ _ R Hkh Hs Hp) as Hfo. revert R.
    pose proof (process_header_spec filter_address l h (prev_block p) Hfo) as Hspec. intros R. apply wp_bind.
    eapply wp_mono; [apply Hspec; [by apply (run_block _ _ _ R)|by apply (run_archive _ _ _ R)]| |done].
    intros b w' [Ar Hb]. exists (l ++ [h]). split; [by eapply running_pushed|]. right. left. by exists h.
  - destruct (last l) as [x|] eqn:Hl.
    2: { intros w R. rewrite (run_last _ _ _ R), Hl in Hp. done. }
    apply last_elem in Hl as [l0 ->]. intros w R. apply wp_bind. destruct Hkh as [_ Hsh].
    assert (Hlt : (hd_slot x < slot p <= SLOT_BOUND)%Z) by (split; [apply (run_above _ _ _ R); set_solver|lia]).
    pose proof (rewind_last_spec (S (Z.to_nat (slot p))) l0 x _ Hlt (Nat.lt_succ_diag_r _) w (run_archive _ _ _ R)) as Hr.
    eapply wp_mono; [exact Hr| |by intros f w' [_ ?]].
    intros r w' [Ar ->]. exists l0. split; [by apply running_resumed; [..|apply (run_block _ _ _ R)]|]. right. right. by exists x.
Qed.

Lemma reach_archive w o :
  (0 <= init_start_slot)%Z -> reach w o ->
  exists l done, archive (disk w) l done /\ forall p, o = Some p -> done = true /\ running (disk w) l p.
Proof.
  intros Hi Hr. induction Hr as [e|w o e Hr IH|w p w' Hr IH Hs|w f w' Hr IH Hs|w p fuel p' w' Hr IH Hv|w p fuel f w' Hr IH Hv].
  - exists [], true. split; [apply empty_archive|done].
  - destruct IH as (l & done & Ar & _). by exists l, done.
  - destruct IH as (l & done & Ar & _). pose proof (start_spec l done Hi w Ar) as Hw. unfold wp in Hw. rewrite Hs in Hw.
    exists (completed l done), true. split; [by apply (run_archive _ _ _ Hw)|]. by intros ? [= <-].
  - destruct IH as (l & done & Ar & _). pose proof (start_spec l done Hi w Ar) as Hw. unfold wp in Hw. rewrite Hs in Hw.
    destruct Hw as (l' & done' & Ar'). by exists l', done'.
  - destruct IH as (l & done & Ar & Hp). destruct (Hp p eq_refl) as [_ R]. pose proof (visit_spec fuel l p Hi w R) as Hw. unfold wp in Hw.
    rewrite Hv in Hw. destruct Hw as (l' & R' & _). exists l', true. split; [by apply (run_archive _ _ _ R')|]. by intros ? [= <-].
  - destruct IH as (l & done & Ar & Hp). destruct (Hp p eq_refl) as [_ R]. pose proof (visit_spec fuel l p Hi w R) as Hw. unfold wp in Hw.
    rewrite Hv in Hw. destruct Hw as (l' & done' & Ar'). by exists l', done'.
Qed.

(** ** Serving *)

(** What a synchronizer reads from this archive. *)
Definition reads_from (C : Chain) d : Prop := forall r vhs, @archiver_get_blobs C r vhs =
  match Archiver.get_blobs (load_blobs_disk d r) vhs with
  | Archiver.Data blobs => Ok blobs
  | Archiver.NotFound e | Archiver.InternalError e => Err (Fail e)
  end.

Definition block_commitments (r : B256) : list (B256 * list byte) :=
  (fun c => (ArchiverNode.kzg_to_versioned_hash c, c)) <$> blob_kzg_commitments (block_of r).

Lemma place_lookup r vh i : place r vh = Some i -> (block_commitments r).*1 !! i = Some vh.
Proof.
  unfold place, block_commitments. intros ([j c] & (Hj & Hc & _)%list_find_Some & ->)%fmap_Some.
  cbn [fst]. rewrite !list_lookup_fmap, Hj. cbn. by rewrite Hc.
Qed.

Lemma archive_serves (C : Chain) d r vhs :
  reads_from C d -> good_files d -> (forall vh, vh ∈ vhs -> stored d r vh) ->
  exists bs, @archived C r (block_commitments r) vhs bs /\ forall b, b ∈ bs -> Archiver.blob b = blob_of (Archiver.vh b).
Proof.
  intros Hc Hg Hst. destruct (load_blobs_spec d r Hg) as (bs & Hl & Hm & Hf & Hs). exists bs. split; [split|].
  - intros xs. by rewrite Hc, Hl.
  - intros b Hb. destruct (Hm _ Hb) as [[Hp _] _]. by apply place_lookup.
  - apply Forall_forall. intros vh (fs & i & _ & Hp & _)%Hst. by apply place_bounds in Hp as [_ ?].
  - intros vh Hv. destruct (Hf vh (Hst _ Hv)) as (b & Hb & Hvh). unfold Archiver.find_blob.
    destruct (list_find_elem_of (fun s => Archiver.vh s = vh) bs b Hb Hvh) as [[i x] ->]. by eexists.
  - intros b Hb. by destruct (Hm _ Hb) as [[_ ?] _].
Qed.

(** ** The claims *)

(** C20: whatever call fails, wherever the process dies and however often it is
    started again, the disk holds a chain of blocks in slot order, each the parent
    of the next, with at most the last one incomplete: exactly they are linked by
    slot, [header.json] exists exactly for the complete ones and holds their
    header, every stored blob has the contents of its hash, and (if an interrupted
    removal loses the header first) the complete blocks have all their blobs. A
    running loop agrees with it: it is above the last block and remembers it. *)
Theorem archive_survives_failures w o :
  (0 <= init_start_slot)%Z -> reach w o ->
  exists l done, archive (disk w) l done /\ forall p, o = Some p -> done = true /\ running (disk w) l p.
Proof. apply reach_archive. Qed.

(** A turn of the loop passes over an empty slot, adds the block of its slot,
    or, on a block with another parent, removes exactly the last block and goes on
    after the one before it; whatever fails, the archive stays one. *)
Theorem turns_follow_the_chain fuel w p :
  (0 <= init_start_slot)%Z -> reach w (Some p) ->
  exists l, running (disk w) l p /\
    match visit filter_address init_start_slot fuel p w with
    | (Ok p', w') => exists l', running (disk w') l' p' /\ turn l l' p p'
    | (Err _, w') => some_archive (disk w')
    end.
Proof.
  intros Hi Hr. destruct (reach_archive _ _ Hi Hr) as (l & done & _ & Hp). destruct (Hp p eq_refl) as [_ R]. exists l. split; [done|].
  by apply (visit_spec fuel l p Hi w R).
Qed.

(** The rewind ends: from any slot above the last block it removes that block
    and returns the one before it, or a call to the file system failed; it neither
    runs below slot 0 nor out of slots. *)
Theorem rewind_removes_last_block l x w s :
  archive (disk w) (l ++ [x]) true -> (hd_slot x < s <= SLOT_BOUND)%Z ->
  match rewind (S (Z.to_nat s)) s w with
  | (Ok prev, w') => prev = last l /\ archive (disk w') l true
  | (Err f, w') => (exists m, f = Fail m) /\ some_archive (disk w')
  end.
Proof.
  intros Ar Hs. pose proof (rewind_last_spec (S (Z.to_nat s)) l x s Hs (Nat.lt_succ_diag_r _) w Ar) as Hr. unfold wp in Hr.
  destruct (rewind _ _ w) as [[prev|f] w']; [|done]. by destruct Hr.
Qed.

(** The payload of the [i]-th block is on the chain: it came with the block, or
    the next block builds on it. *)
Definition payload_known (l : list BlockHeader) (i : nat) (h : BlockHeader) : Prop :=
  (exists x, execution_payload (block_of (hd_root h)) = Embedded x)
  \/ exists h', l !! S i = Some h' /\ builds_on_payload_of (block_of (hd_root h')) (block_of (hd_root h)) = true.

(** C27: a synchronizer that reads from the archive is given every wanted blob of
    a complete block whose payload is on the chain, with the contents of its
    hash, in every state the archiver can be in. This assumes an honest beacon
    node, which answers requests made in the order of the block in that order,
    that an interrupted removal loses the header first, and that no hash is
    repeated among the request and the commitments it stands for. *)
Theorem synchronizer_reads_archive (C : Chain) w o :
  (0 <= init_start_slot)%Z -> header_first -> reads_from C (disk w) -> reach w o ->
  exists l done, archive (disk w) l done /\
    forall i h vhs, completed l done !! i = Some h -> payload_known (completed l done) i h ->
      (forall vh, vh ∈ vhs -> vh ∈ wanted filter_address (block_of (hd_root h))) ->
      NoDup vhs -> NoDup (requested (block_commitments (hd_root h)) vhs) ->
      exists m, @Node.get_blobs C (hd_root h) (block_commitments (hd_root h)) vhs = Ok m
        /\ forall vh, vh ∈ vhs -> m !! vh = Some (blob_of vh).
Proof.
  intros Hi Hhf Hc Hr. destruct (reach_archive _ _ Hi Hr) as (l & done & Ar & _). exists l, done. split; [done|].
  intros i h vhs Hl Hx Hw Hnd Hreq. destruct (ar_blobs _ _ _ _ Ar Hhf _ _ Hl) as [Hemb Hnext].
  assert (all_stored filter_address (disk w) (hd_root h)) as Hall by (destruct Hx as [Hx|(h' & Hl' & Hb)]; [by apply Hemb|by eapply Hnext]).
  destruct (archive_serves C (disk w) (hd_root h) vhs Hc (ar_files _ _ _ _ Ar)) as (bs & Har & Hbs); [by intros vh ?%Hw%Hall|].
  destruct (get_blobs_correct _ _ _ _ Har Hnd Hreq) as (m & Hm & Hb). exists m. split; [done|].
  intros vh (b & Hin & <- & ->)%Hb. by rewrite Hbs.
Qed.
End Run.
End ArchiverRun.
