(* ===== verification/ArchiverToy.v ===== *)
(** * An archiver that evaluates

    A chain of a block with a blob and a block on another branch, archived on a
    machine whose recursive removal ends as given; the archiver's theorems applied
    to it, and what an interrupted removal can leave. *)

From stdpp Require Import sorting.
From S2P Require Import Prelude Pod2 ObjectNames Archiver Node ArchiverNames ArchiverStore ArchiverNode ArchiverTrees ArchiverFacts ArchiverChain ArchiverRun Toys.

Module ArchiverToy.
Import ObjectNames Node ArchiverNames ArchiverStore ArchiverNode ArchiverFacts ArchiverChain ArchiverRun Toys.
Local Open Scope string_scope.

(** ** The chain *)

Definition root_a : B256 := replicate 32 x0a.
Definition root_b : B256 := replicate 32 x0b.
Definition header_a : BlockHeader := {| hd_root := root_a; hd_parent_root := []; hd_slot := 5 |}.
(** On another branch. *)
Definition header_b : BlockHeader := {| hd_root := root_b; hd_parent_root := []; hd_slot := 6 |}.

Definition toy_versioned_hash (c : list byte) : B256 := take 32 (c ++ replicate 32 x00)%list.
Definition hash_a : B256 := toy_versioned_hash [x01].
Definition toy_address : list byte := [x77].
Definition toy_blob : list byte := replicate (Z.to_nat BYTES_PER_BLOB) x07.

#[export] Instance toy_content : Content := {|
  header_of r := if decide (r = root_a) then header_a else header_b;
  block_of r := {| blob_kzg_commitments := if decide (r = root_a) then [[x01]] else []; execution_payload := Embedded r;
                   Node.parent_root := []; blk_slot := 5 |};
  exec_of x := {| eb_number := 1; eb_timestamp := 1;
                  eb_transactions := Some (if decide (x = root_a)
                    then [{| etx_to := Some toy_address; etx_hash := []; etx_blob_versioned_hashes := Some [hash_a] |}] else []) |};
  blob_of _ := toy_blob;
|}.

(** ** The machine *)

Definition coded_header (h : BlockHeader) : list N * list N * Z := (map Byte.to_N (hd_root h), map Byte.to_N (hd_parent_root h), hd_slot h).

Section Machine.
Context (removal : RemoveOutcome).

Definition toy_machine : Machine := {|
  Env := unit;
  io e := (None, e);
  io_write e := (Written, e);
  io_remove e := (removal, e);
  header_json h := pos_to_bytes (encode (coded_header h));
  parse_header data := match decode (bytes_to_pos data) with
                       | Some (r, q, s) => Ok {| hd_root := map byte_at r; hd_parent_root := map byte_at q; hd_slot := s |}
                       | None => Err (Fail "invalid header")
                       end;
|}.

Definition toy_clients : @Clients toy_machine := {|
  get_block_header s := eret (if (s =? 5)%Z then Some header_a else if (s =? 6)%Z then Some header_b else None) : @eff (@Env toy_machine) _;
  get_head_header := eret header_b : @eff (@Env toy_machine) _;
  get_block r := eret (block_of r) : @eff (@Env toy_machine) _;
  get_execution_block x := eret (exec_of x) : @eff (@Env toy_machine) _;
  beacon_get_blobs r vhs := eret (blob_of <$> vhs) : @eff (@Env toy_machine) _;
  kzg_to_versioned_hash := toy_versioned_hash;
|}.

Lemma toy_honest : @Honest toy_machine toy_clients toy_content.
Proof.
  split.
  - intros [r q s]. cbn [parse_header header_json toy_machine]. rewrite bytes_to_pos_of, decode_encode. simpl. by rewrite !bytes_at_to.
  - intros s e h e'. simpl. unfold eret. intros [= Hh <-].
    destruct (Z.eqb_spec s 5); [injection Hh as <-; by subst|]. destruct (Z.eqb_spec s 6); [injection Hh as <-; by subst|done].
  - intros e h e'. simpl. unfold eret. by intros [= <- <-].
  - intros r e b e'. simpl. unfold eret. by intros [= <- <-].
  - intros x e b e'. simpl. unfold eret. by intros [= <- <-].
  - intros r txs. unfold hashes_of, exec_of, block_of, toy_content. simpl. intros [= <-]. by case_decide.
  - intros r vhs e bs e' _. simpl. unfold eret. by intros [= <- <-].
  - intros vh. unfold blob_of, toy_content, toy_blob. rewrite length_replicate. apply Z2Nat.id. unfold BYTES_PER_BLOB. lia.
  - intros c. simpl. unfold toy_versioned_hash. rewrite length_take, length_app, length_replicate. lia.
  - intros r. unfold block_of, toy_content, blob_kzg_commitments. case_decide; simpl; lia.
Qed.

(** ** A run *)

Definition boot : @World toy_machine := @MkWorld toy_machine empty_disk tt.
Definition after_start : Result Progress * World := @start toy_machine toy_clients 5 boot.
Definition no_progress : Progress := MkProgress 0 header_b None None.
Definition turn_of (p : Progress) (w : @World toy_machine) := @visit toy_machine toy_clients toy_address 5 1 p w.
Definition first_turn := turn_of (get_ok no_progress (fst after_start)) (snd after_start).
Definition second_turn := turn_of (get_ok no_progress (fst first_turn)) (snd first_turn).

Lemma started : is_ok (fst after_start) = true.
Proof. vm_compute. reflexivity. Qed.

Lemma archived_a : is_ok (fst first_turn) = true.
Proof. vm_compute. reflexivity. Qed.

Abbreviation toy_reach := (@reach toy_machine toy_clients toy_address 5%Z).

Lemma pair_ok {S A} (a : A) (c : Result A * S) : is_ok (fst c) = true -> c = (Ok (get_ok a (fst c)), snd c).
Proof. destruct c as [r s]. simpl. by intros <-%(is_ok_get a). Qed.

Lemma reach_started : toy_reach (snd after_start) (Some (get_ok no_progress (fst after_start))).
Proof. eapply reach_start; [apply reach_boot|]. apply pair_ok, started. Qed.

Lemma reach_archived : toy_reach (snd first_turn) (Some (get_ok no_progress (fst first_turn))).
Proof. eapply (reach_visit _ _ _ _ 1); [apply reach_started|]. apply pair_ok, archived_a. Qed.

(** The archive holds the first block. *)
Definition process_a := @process_beacon_block_header toy_machine toy_clients toy_address header_a None boot.

Lemma processed_a : is_ok (fst process_a) = true.
Proof. vm_compute. reflexivity. Qed.

Lemma archive_a : @ArchiverFacts.archive toy_machine toy_clients toy_content toy_address (disk (snd process_a)) ([] ++ [header_a])%list true.
Proof.
  pose proof (@process_header_spec _ _ _ toy_honest toy_address [] header_a None) as Hspec.
  assert (Hfo : follows [] header_a) by (split; [split; [done|by vm_compute]|done]).
  specialize (Hspec Hfo ltac:(done) boot (empty_archive toy_address)). unfold wp in Hspec. fold process_a in Hspec.
  pose proof processed_a as Hok. destruct process_a as [[b|f] w']; [|done]. by destruct Hspec.
Qed.
End Machine.

Lemma removed_header_first : @header_first (toy_machine Removed).
Proof. intros e names m e' He. simpl in He. by inversion He. Qed.

(** ** The theorems at this run *)

Abbreviation good := (toy_machine Removed).
Abbreviation good_clients := (toy_clients Removed).
Abbreviation good_archive := (@ArchiverFacts.archive good good_clients toy_content toy_address).

Lemma archive_survives_failures_witness :
  exists l done, good_archive (disk (snd (first_turn Removed))) l done
    /\ forall p, Some (get_ok no_progress (fst (first_turn Removed))) = Some p ->
        done = true /\ @running good good_clients toy_content toy_address (disk (snd (first_turn Removed))) l p.
Proof.
  apply (@archive_survives_failures good good_clients toy_content (toy_honest Removed) toy_address 5); [lia|].
  apply reach_archived.
Defined.

Lemma turns_follow_the_chain_witness :
  exists l, @running good good_clients toy_content toy_address (disk (snd (first_turn Removed))) l (get_ok no_progress (fst (first_turn Removed)))
    /\ match second_turn Removed with
       | (Ok p', w') => exists l', @running good good_clients toy_content toy_address (disk w') l' p'
                          /\ turn 5 l l' (get_ok no_progress (fst (first_turn Removed))) p'
       | (Err _, w') => @some_archive good good_clients toy_content toy_address (disk w')
       end.
Proof.
  apply (@turns_follow_the_chain good good_clients toy_content (toy_honest Removed) toy_address 5 1); [lia|].
  apply reach_archived.
Defined.

Lemma rewind_removes_last_block_witness :
  match @rewind good 7 6 (snd (process_a Removed)) with
  | (Ok prev, w') => prev = None /\ good_archive (disk w') [] true
  | (Err f, w') => (exists m, f = Fail m) /\ @some_archive good good_clients toy_content toy_address (disk w')
  end.
Proof.
  apply (@rewind_removes_last_block good good_clients toy_content (toy_honest Removed) toy_address [] header_a (snd (process_a Removed)) 6).
  - apply archive_a.
  - vm_compute. split; congruence.
Defined.

(** A synchronizer beside the archiver. *)
Definition toy_chain (d : Disk) : Chain := {|
  Node.get_block_header s := Ok None;
  get_beacon_block r := Ok (block_of r);
  Node.get_execution_block x _ := Ok (exec_of x);
  archiver_get_blobs r vhs := match Archiver.get_blobs (load_blobs_disk d r) vhs with
                              | Archiver.Data blobs => Ok blobs
                              | Archiver.NotFound e | Archiver.InternalError e => Err (Fail e)
                              end;
  Node.kzg_to_versioned_hash := toy_versioned_hash;
|}.

Lemma header_a_stored :
  match files_of (disk (snd (first_turn Removed))) (root_dir_from root_a) with
  | Some fs => bool_decide (is_Some (fs !! HEADER_FILE)) | None => false end = true.
Proof. vm_compute. reflexivity. Qed.

(** The wanted blob of the first block. *)
Lemma synchronizer_reads_archive_witness :
  exists m, @Node.get_blobs (toy_chain (disk (snd (first_turn Removed)))) root_a
              (@block_commitments good good_clients toy_content root_a) [hash_a] = Ok m
    /\ m !! hash_a = Some (blob_of hash_a).
Proof.
  destruct (@synchronizer_reads_archive good good_clients toy_content (toy_honest Removed) toy_address 5
    (toy_chain (disk (snd (first_turn Removed)))) (snd (first_turn Removed))
    (Some (get_ok no_progress (fst (first_turn Removed))))) as (l & fin & Ar & Hget);
    [lia|apply removed_header_first|done|apply reach_archived|].
  pose proof header_a_stored as Hst.
  destruct (files_of _ (root_dir_from root_a)) as [fs|] eqn:Hfs; [|discriminate Hst].
  apply bool_decide_eq_true in Hst. destruct Hst as [data Hd].
  destruct (ar_headers _ _ _ _ Ar _ _ _ Hfs Hd) as (h & Hin & Hroot & _). apply root_dir_from_inj in Hroot.
  apply list_elem_of_lookup_1 in Hin. destruct Hin as [i Hi].
  destruct (Hget i h [hash_a] Hi) as (m & Hm & Hb); rewrite <-?Hroot.
  - left. rewrite <-Hroot. exists root_a. reflexivity.
  - intros vh Hv. apply list_elem_of_singleton in Hv. subst vh. left.
  - apply NoDup_singleton.
  - vm_compute. apply NoDup_singleton.
  - exists m. split; [rewrite Hroot; exact Hm|]. apply Hb. left.
Defined.

(** ** Examples *)

(** The second turn finds the block on the other branch and removes the first. *)
Example other_branch_rewinds :
  is_ok (fst (second_turn Removed)) = true /\ prev_header (get_ok no_progress (fst (second_turn Removed))) = None
  /\ slot (get_ok no_progress (fst (second_turn Removed))) = 5%Z.
Proof. split_and!; vm_compute; reflexivity. Qed.

(** A removal that stops after the blobs and before the header: the block counts
    as complete when the archiver starts again, and its blob is not there. *)
Definition stopped : RemoveOutcome := KeptFiles {[HEADER_FILE]} "interrupted".
Definition restarted := @start (toy_machine stopped) (toy_clients stopped) 5 (snd (second_turn stopped)).

Example interrupted_removal_keeps_header :
  is_ok (fst (second_turn stopped)) = false
  /\ prev_header (get_ok no_progress (fst restarted)) = Some header_a
  /\ wanted toy_address (block_of (hd_root header_a)) = [hash_a]
  /\ load_blobs_disk (disk (snd restarted)) (hd_root header_a) = Ok [].
Proof. split_and!; vm_compute; reflexivity. Qed.
End ArchiverToy.
