(* ===== verification/SyncApi.v ===== *)
(** * The synchronizer's API (services/synchronizer/src/api.rs)

    The handlers read the committed log and the Merkle containers while the sync
    loop goes on. Each handler makes one query to the log, a snapshot [t]; the
    containers are read afterwards, when the store may have grown. What the query
    may end with instead is the database's error [pg]. The responses are those of
    libs/wire-types/src/synchronizer.rs. *)

From Stdlib Require Import Ascii.
From S2P Require Import Prelude Pod2 Models Payload DonState ContainerDb StateMachine StateLog Node SyncLoop ObjectNames ArchiverNames.

Module SyncApi.
Import DonState ContainerDb StateMachine.
Local Open Scope Z_scope.

(** ** Responses *)

Inductive StatusCode : Type := BAD_REQUEST | NOT_FOUND | INTERNAL_SERVER_ERROR | SERVICE_UNAVAILABLE.

(** A status with its text, or a handler that panics: its connection is dropped. *)
Inductive ApiError : Type :=
| Status (code : StatusCode) (m : string)
| Dropped (m : string).
Abbreviation Api A := (result ApiError A).

Definition not_initialized : ApiError := Status SERVICE_UNAVAILABLE "synchronizer has not derived its genesis state yet".
Definition internal_error (f : failure) : ApiError := match f with Fail m => Status INTERNAL_SERVER_ERROR m | Panic m => Dropped m end.

Definition internal {A} (r : Result A) : Api A := match r with Ok a => Ok a | Err f => Err (internal_error f) end.
Definition or_else {A} (o : option A) (e : ApiError) : Api A := match o with Some a => Ok a | None => Err e end.

Record StateHeadResponse : Type := MkHead {
  sh_slot : Z;
  sh_state_root : Hash;
  sh_block_number : Z;
  sh_block_hash : list byte;
  sh_created_count : Z;
  sh_nullifier_count : Z;
  sh_state_root_count : Z;
}.

Record ContainsEntry : Type := MkEntry { ce_hash : Hash; ce_present : bool }.

(** The responses about one kind of member have one list of results. *)
Record ContainsResponse : Type := MkContains {
  co_block_number : Z;
  co_block_hash : list byte;
  co_state_root : Hash;
  co_results : list ContainsEntry;
}.

Record MembershipResponse : Type := MkMembership {
  mr_block_number : Z;
  mr_block_hash : list byte;
  mr_state_root : Hash;
  created_results : list ContainsEntry;
  nullifier_results : list ContainsEntry;
}.

Section Handlers.
Context `{Pod2, MerkleStore} (pg : option string).
Implicit Types (t : StateLog.Tables) (d : Db).

Record ObjectProofResponse : Type := MkProof {
  op_commitment : Hash;
  op_present : bool;
  op_index : option Z;
  op_proof : option MerkleProof;
}.

Record GroundingWitnessResponse : Type := MkGrounding {
  gw_state_root : Hash;
  gw_block_number : Z;
  gw_block_timestamp : Z;
  gw_block_hash : Hash;
  gw_created_root : Hash;
  gw_nullifiers_root : Hash;
  gw_prior_state_history_root : Hash;
  gw_created_proofs : list ObjectProofResponse;
}.

(** The one query of a handler. *)
Definition query {A} (r : Result A) : Api A := match pg with Some m => Err (Status INTERNAL_SERVER_ERROR m) | None => internal r end.

(** ** The head *)

Definition get_sync_progress t : Api Z :=
  let? last := query (Ok (StateLog.last_processed_slot t)) in
  or_else last not_initialized.

Definition load_slot_state_at_head t : Api StateLog.SlotState :=
  let? head := query (Ok (StateLog.slot_state_at_head t)) in
  or_else head not_initialized.

Definition state_head_response (s : StateLog.SlotState) : StateHeadResponse :=
  let m := metadata (StateLog.ss_state s) in
  MkHead (StateLog.ss_slot s) (state_root m) (as_i64 (number (block m))) (hash (block m))
    (created_count m) (nullifier_count m) (state_root_count m).

Definition get_state_head t : Api StateHeadResponse :=
  let? head := load_slot_state_at_head t in Ok (state_head_response head).

Inductive BlockHashOrNumber : Type := Number (n : Z) | BlockHash (h : list byte).

(** [slot_state_at_el_block] of state_log_db.rs: the row of an execution block,
    any of them if there are several. *)
Definition at_block (b : BlockHashOrNumber) (c : StateLog.StateCols) : bool :=
  match b with
  | Number n => bool_decide (StateLog.el_block_number c = n)
  | BlockHash h => bool_decide (StateLog.el_block_hash c = h)
  end.

Definition slot_state_at_el_block (b : BlockHashOrNumber) t : option StateLog.SlotState :=
  head (omap (fun '(slot, r) => c ← StateLog.cols r; if at_block b c then Some (StateLog.decode_slot_state_row slot c) else None)
    (map_to_list (StateLog.slots t))).

Definition I64_MAX : Z := 2 ^ 63 - 1.

Definition get_state_by_el (parse_block_id : string -> Result BlockHashOrNumber) (block_id : string) t : Api StateHeadResponse :=
  let? b := match parse_block_id block_id with Ok b => Ok b | Err _ => Err (Status BAD_REQUEST "invalid execution block id") end in
  match b with
  | Number n => if (I64_MAX <? n)%Z then Err (Status BAD_REQUEST "execution block number is out of range") else Ok tt
  | BlockHash _ => Ok tt
  end ;?
  let? s := query (Ok (slot_state_at_el_block b t)) in
  let? s := or_else s (Status NOT_FOUND "no state derived at execution block") in
  Ok (state_head_response s).

(** ** Membership *)

Definition MAX_HASH_QUERY_ITEMS : Z := 256.

Definition ensure_hash_query_limit (count : nat) : Api unit :=
  if MAX_HASH_QUERY_ITEMS <? Z.of_nat count then Err (Status BAD_REQUEST "objectCommitments exceeds maximum item count") else Ok tt.

Definition ensure_membership_query_limit (objects nullifiers : nat) : Api unit :=
  if MAX_HASH_QUERY_ITEMS <? saturating_add_u64 (Z.of_nat objects) (Z.of_nat nullifiers)
  then Err (Status BAD_REQUEST "membership query exceeds maximum total item count") else Ok tt.

(** [slot_state_at_head_with_created_indices]: both from one snapshot. *)
Definition slot_state_at_head_with_created_indices (commitments : list Hash) t : option StateLog.SlotState * gmap Hash Z :=
  (StateLog.slot_state_at_head t, StateLog.created_indices commitments t).

Record Membership : Type := {
  m_head : StateLog.SlotState;
  created_present : list bool;
  nullifier_present : list bool;
}.

Definition load_membership t (d d' : Db) (object_commitments nullifiers : list Hash) : Api Membership :=
  ensure_membership_query_limit (length object_commitments) (length nullifiers) ;?
  let? (head, indices) := query (Ok (slot_state_at_head_with_created_indices object_commitments t)) in
  let? head := or_else head not_initialized in
  let rs := roots (StateLog.ss_state head) in
  let? created := internal (created_exists_for rs object_commitments indices d) in
  let? spent := internal (nullifier_exists_batch rs nullifiers d') in
  Ok {| m_head := head; created_present := created; nullifier_present := spent |}.

Definition contains_entries (hs : list Hash) (present : list bool) : list ContainsEntry := zip_with MkEntry hs present.

Definition head_metadata (m : Membership) : StateMetadata := metadata (StateLog.ss_state (m_head m)).

Definition post_state_object_contains t (d d' : Db) (object_commitments : list Hash) : Api ContainsResponse :=
  let? m := load_membership t d d' object_commitments [] in
  let meta := head_metadata m in
  Ok (MkContains (as_i64 (number (block meta))) (hash (block meta)) (state_root meta)
        (contains_entries object_commitments (created_present m))).

Definition post_state_nullifier_contains t (d d' : Db) (nullifiers : list Hash) : Api ContainsResponse :=
  let? m := load_membership t d d' [] nullifiers in
  let meta := head_metadata m in
  Ok (MkContains (as_i64 (number (block meta))) (hash (block meta)) (state_root meta)
        (contains_entries nullifiers (nullifier_present m))).

Definition post_state_membership t (d d' : Db) (object_commitments nullifiers : list Hash) : Api MembershipResponse :=
  let? m := load_membership t d d' object_commitments nullifiers in
  let meta := head_metadata m in
  Ok (MkMembership (as_i64 (number (block meta))) (hash (block meta)) (state_root meta)
        (contains_entries object_commitments (created_present m)) (contains_entries nullifiers (nullifier_present m))).

(** ** Grounding *)

Definition object_proof (commitment : Hash) (witness : option (Z * MerkleProof)) : ObjectProofResponse :=
  MkProof commitment (bool_decide (is_Some witness)) (fst <$> witness) (snd <$> witness).

Definition post_grounding_witness t d (object_commitments : list Hash) : Api GroundingWitnessResponse :=
  ensure_hash_query_limit (length object_commitments) ;?
  let? (head, indices) := query (Ok (slot_state_at_head_with_created_indices object_commitments t)) in
  let? head := or_else head not_initialized in
  let state := StateLog.ss_state head in
  let? witnesses := internal (prove_created_for (roots state) object_commitments indices d) in
  let h := DonState_state_header state in
  Ok (MkGrounding (state_root (metadata state)) (block_number h) (block_timestamp h) (block_hash h)
        (created_root h) (nullifiers_root h) (prior_state_history_root h)
        (zip_with object_proof object_commitments witnesses)).

(** ** Transactions *)

Definition get_tx_status_by_tx_hash (tx_hash : string) t : Api (list StateLog.TxBlobStatus) :=
  let? h := match ArchiverNames.parse_B256 (ObjectNames.los tx_hash) with Ok h => Ok h | Err _ => Err (Status BAD_REQUEST "invalid transaction hash") end in
  let? blobs := query (StateLog.tx_statuses_by_tx_hash h t) in
  match blobs with [] => Err (Status NOT_FOUND "no committed transaction") | _ => Ok blobs end.

Definition get_tx_status_by_tx_final (tx_final : string) t : Api (list StateLog.TxBlobStatus) :=
  let? h := match Payload.decode_hash_hex tx_final with
            | Ok h => Ok h
            | Err (Fail _) => Err (Status BAD_REQUEST "invalid tx_final")
            | Err (Panic m) => Err (Dropped m)
            end in
  let? blob := query (StateLog.tx_status_by_tx_final h t) in
  match blob with Some blob => Ok [blob] | None => Err (Status NOT_FOUND "no committed blob carries tx_final") end.
End Handlers.

(** ** Answers *)

Section Answers.
Context `{Pod2, MerkleModel} (init_start_slot : Z) (parent_of : list byte -> list byte) (pg : option string).
Context (n : Z) (ns : Node.NodeState) (G : gmap Z Ledger) (Inv : SyncLoop.sync_inv_at init_start_slot parent_of n ns G).
Abbreviation L := (StateLog.head_ledger G).

(** Positions of objects are [i64]. *)
Definition few_objects : Prop := forall s, StateLog.don_state_at_head (Node.log ns) = Some s -> created_count (metadata s) < 2 ^ 63.

Lemma head_rep d s :
  db_le (Node.db ns) d -> StateLog.slot_state_at_head (Node.log ns) = Some s -> state_rep d (Some (StateLog.ss_state s)) L.
Proof.
  intros Hle Hs. eapply state_rep_mono; [exact Hle|]. pose proof (StateLog.head_state_rep _ _ _ (SyncLoop.si_log _ _ _ _ _ Inv)) as Hr.
  unfold StateLog.don_state_at_head in Hr. by rewrite Hs in Hr.
Qed.

Lemma head_few s : few_objects -> StateLog.slot_state_at_head (Node.log ns) = Some s -> Z.of_nat (length (l_created L)) < 2 ^ 63.
Proof.
  intros Hf Hs. pose proof (head_rep (Node.db ns) s ltac:(done) Hs) as Hr. pose proof (sr_created_count _ _ _ Hr) as Hc. simpl in Hc.
  rewrite <-Hc. apply Hf. unfold StateLog.don_state_at_head. by rewrite Hs.
Qed.

Lemma membership_limit objs nulls :
  match ensure_membership_query_limit objs nulls with
  | Ok _ => (objs + nulls <= 256)%nat
  | Err e => exists m, e = Status BAD_REQUEST m /\ (256 < objs + nulls)%nat
  end.
Proof.
  unfold ensure_membership_query_limit, MAX_HASH_QUERY_ITEMS, saturating_add_u64.
  assert (256 < u64_max) by (vm_compute; reflexivity). destruct (Z.ltb_spec 256 (Z.min u64_max (Z.of_nat objs + Z.of_nat nulls))); [|lia].
  eexists. split; [done|]. lia.
Qed.

(** What a failed query says. *)
Definition unavailable (e : ApiError) : Prop :=
  match e with
  | Status INTERNAL_SERVER_ERROR m => pg = Some m \/ fault (Fail m)
  | Status SERVICE_UNAVAILABLE _ => StateLog.slot_state_at_head (Node.log ns) = None
  | Status _ _ => False
  | Dropped m => fault (Panic m)
  end.

Lemma load_membership_spec d d' objs nulls :
  db_le (Node.db ns) d -> db_le (Node.db ns) d' -> few_objects ->
  match load_membership pg (Node.log ns) d d' objs nulls with
  | Ok m => StateLog.slot_state_at_head (Node.log ns) = Some (m_head m)
      /\ created_present m = (fun h => bool_decide (h ∈ l_created L)) <$> objs
      /\ nullifier_present m = (fun h => bool_decide (h ∈ l_nullifiers L)) <$> nulls
  | Err e => (256 < length objs + length nulls)%nat /\ (exists m, e = Status BAD_REQUEST m) \/ unavailable e
  end.
Proof.
  intros Hle Hle' Hf. unfold load_membership. pose proof (membership_limit (length objs) (length nulls)) as Hl.
  destruct (ensure_membership_query_limit _ _) as [u|e]; simpl; [|destruct Hl as (m & -> & Hl); eauto].
  unfold query. destruct pg as [m|] eqn:Hpg; simpl; [right; left; done|].
  destruct (StateLog.slot_state_at_head (Node.log ns)) as [s|] eqn:Hs; simpl; [|right; exact Hs].
  pose proof (created_query d _ L objs _ (head_rep d s Hle Hs) (StateLog.created_indices_complete _ _ _ objs (SyncLoop.si_log _ _ _ _ _ Inv)) (head_few s Hf Hs)) as Hc.
  pose proof (nullifier_query d' _ L nulls (head_rep d' s Hle' Hs)) as Hn.
  destruct (created_exists_for _ _ _ _) as [bs|f]; simpl; [|destruct f; simpl; auto].
  destruct (nullifier_exists_batch _ _ _) as [cs|f]; simpl; [|destruct f; simpl; auto].
  split; [done|]. split; (eapply list_eq_Forall2, Forall2_fmap_r, Forall2_flip, Forall2_impl; [eassumption|]; by intros ? ? ->).
Qed.

Lemma membership_response_spec d d' objs nulls :
  db_le (Node.db ns) d -> db_le (Node.db ns) d' -> few_objects ->
  match post_state_membership pg (Node.log ns) d d' objs nulls with
  | Ok r => exists s, StateLog.slot_state_at_head (Node.log ns) = Some s
      /\ r = MkMembership (as_i64 (number (block (metadata (StateLog.ss_state s))))) (hash (block (metadata (StateLog.ss_state s))))
               (state_root (metadata (StateLog.ss_state s)))
               ((fun h => MkEntry h (bool_decide (h ∈ l_created L))) <$> objs)
               ((fun h => MkEntry h (bool_decide (h ∈ l_nullifiers L))) <$> nulls)
  | Err e => (256 < length objs + length nulls)%nat /\ (exists m, e = Status BAD_REQUEST m) \/ unavailable e
  end.
Proof.
  intros Hle Hle' Hf. pose proof (load_membership_spec d d' objs nulls Hle Hle' Hf) as Hl. unfold post_state_membership.
  destruct (load_membership _ _ _ _ _ _) as [m|e]; [|exact Hl]. destruct Hl as (Hs & Hc & Hn). simpl. exists (m_head m).
  split; [done|]. unfold head_metadata, contains_entries. rewrite Hc, Hn. by rewrite !zip_with_fmap_r, !zip_with_diag.
Qed.

(** One entry of a grounding witness. *)
Definition proof_answers (h : Hash) (p : ObjectProofResponse) : Prop :=
  op_commitment p = h
  /\ match op_index p, op_proof p with
     | Some i, Some _ => op_present p = true /\ l_created L !! Z.to_nat (as_u64 i) = Some h
     | None, None => op_present p = false /\ (h ∉ l_created L \/ faulty)
     | _, _ => False
     end.

Lemma grounding_spec d objs :
  db_le (Node.db ns) d -> few_objects ->
  match post_grounding_witness pg (Node.log ns) d objs with
  | Ok r => exists s, StateLog.slot_state_at_head (Node.log ns) = Some s
      /\ gw_state_root r = state_root (metadata (StateLog.ss_state s))
      /\ gw_state_root r = StateHeader_hash (StateHeader_new (gw_block_number r) (gw_block_timestamp r) (gw_block_hash r)
           (gw_created_root r) (gw_nullifiers_root r) (gw_prior_state_history_root r))
      /\ gw_created_root r = array_commit (arr (l_created L))
      /\ Forall2 proof_answers objs (gw_created_proofs r)
  | Err e => (256 < length objs)%nat /\ (exists m, e = Status BAD_REQUEST m) \/ unavailable e
  end.
Proof.
  intros Hle Hf. unfold post_grounding_witness, ensure_hash_query_limit, MAX_HASH_QUERY_ITEMS.
  destruct (Z.ltb_spec 256 (Z.of_nat (length objs))); simpl; [left; split; [lia|eauto]|].
  unfold query. destruct pg as [m|] eqn:Hpg; simpl; [right; left; done|].
  destruct (StateLog.slot_state_at_head (Node.log ns)) as [s|] eqn:Hs; simpl; [|right; exact Hs].
  pose proof (head_rep d s Hle Hs) as Hr.
  pose proof (prove_query d _ L objs _ Hr (StateLog.created_indices_complete _ _ _ objs (SyncLoop.si_log _ _ _ _ _ Inv)) (head_few s Hf Hs)) as Hp.
  destruct (prove_created_for _ _ _ _) as [ps|f]; simpl; [|destruct f; simpl; auto].
  exists s. destruct (sr_header _ _ _ Hr _ eq_refl) as [Hroot _]. split_and!; [done|done|done|by apply (sr_created_root _ _ _ Hr)|].
  clear -Hp. induction Hp as [|h w objs ps Hw _ IH]; simpl; constructor; [|exact IH]. split; [done|].
  destruct w as [[i pf]|]; simpl; auto.
Qed.

(** A state found by its execution block, with the ledger behind it. *)
Definition state_at (b : BlockHashOrNumber) (s : StateLog.SlotState) : Prop :=
  exists slot row c L', StateLog.slots (Node.log ns) !! slot = Some row /\ StateLog.cols row = Some c /\ at_block b c = true
    /\ G !! slot = Some L' /\ state_rep (Node.db ns) (Some (StateLog.ss_state s)) L' /\ s = StateLog.decode_slot_state_row slot c.

Lemma el_block_spec b :
  match slot_state_at_el_block b (Node.log ns) with
  | Some s => state_at b s
  | None => forall slot row c, StateLog.slots (Node.log ns) !! slot = Some row -> StateLog.cols row = Some c -> at_block b c = false
  end.
Proof.
  unfold slot_state_at_el_block. set (f := fun '(slot, r) => _). destruct (omap f _) as [|s rest] eqn:Ho; simpl.
  - intros slot row c Hrow Hc. destruct (at_block b c) eqn:Hat; [|done]. exfalso.
    assert (Hin : StateLog.decode_slot_state_row slot c ∈ omap f (map_to_list (StateLog.slots (Node.log ns)))).
    { apply list_elem_of_omap. exists (slot, row). split; [by apply elem_of_map_to_list|]. simpl. rewrite Hc. simpl. by rewrite Hat. }
    rewrite Ho in Hin. by apply not_elem_of_nil in Hin.
  - assert (Hin : s ∈ s :: rest) by set_solver. rewrite <-Ho in Hin. apply list_elem_of_omap in Hin as ([slot row] & Hrow & Hx).
    apply elem_of_map_to_list in Hrow. simpl in Hx. destruct (StateLog.cols row) as [c|] eqn:Hc; simpl in Hx; [|done].
    destruct (at_block b c) eqn:Hat; [|done]. injection Hx as <-.
    destruct (proj2 (StateLog.li_dom _ _ _ (SyncLoop.si_log _ _ _ _ _ Inv) slot)) as [L' HL']; [by eauto|].
    exists slot, row, c, L'. split_and!; try done. by eapply StateLog.li_rep; [apply (SyncLoop.si_log _ _ _ _ _ Inv)|..].
Qed.

Lemma by_el_spec parse_block_id block_id :
  match get_state_by_el pg parse_block_id block_id (Node.log ns) with
  | Ok r => exists b s, parse_block_id block_id = Ok b /\ state_at b s /\ r = state_head_response s
  | Err (Status NOT_FOUND _) => exists b, parse_block_id block_id = Ok b /\
      forall slot row c, StateLog.slots (Node.log ns) !! slot = Some row -> StateLog.cols row = Some c -> at_block b c = false
  | Err (Status SERVICE_UNAVAILABLE _) => False
  | Err _ => True
  end.
Proof.
  unfold get_state_by_el. destruct (parse_block_id block_id) as [b|f]; simpl; [|done]. pose proof (el_block_spec b) as Hb.
  unfold query. destruct b as [x|x]; [destruct (I64_MAX <? x); [done|]|]; simpl; (destruct pg as [m|]; simpl; [done|]);
    destruct (slot_state_at_el_block _ _) as [s|]; simpl; eauto.
Qed.
End Answers.

(** ** The claims *)

(** In every state the synchronizer can reach, whatever the sync loop adds to
    the containers while a handler runs, a membership query within the limit is
    answered for every hash exactly as the ledger behind one head state has it,
    with that head's block and root; it is refused as too long only above the
    limit, as not ready only without a state, and fails otherwise only with the
    database or the store. *)
Theorem membership_answers_ledger `{Plonky2, Pod2, MerkleModel, !BlobParser} (db_sync : Db -> Result unit) (init_start_slot : Z)
    (parent_of : list byte -> list byte) (pg : option string) (d0 : Db) (n : Z) (ns : Node.NodeState) (d d' : Db) (objs nulls : list Hash) :
  1 <= init_start_slot < 2 ^ 31 ->
  rtc (SyncLoop.sync_step db_sync init_start_slot parent_of) (SyncLoop.initial init_start_slot d0) (n, ns) ->
  db_le (Node.db ns) d -> db_le (Node.db ns) d' -> few_objects ns ->
  exists G, SyncLoop.sync_inv_at init_start_slot parent_of n ns G /\
    match post_state_membership pg (Node.log ns) d d' objs nulls with
    | Ok r => exists s, StateLog.slot_state_at_head (Node.log ns) = Some s
        /\ r = MkMembership (as_i64 (number (block (metadata (StateLog.ss_state s))))) (hash (block (metadata (StateLog.ss_state s))))
                 (state_root (metadata (StateLog.ss_state s)))
                 ((fun h => MkEntry h (bool_decide (h ∈ l_created (StateLog.head_ledger G)))) <$> objs)
                 ((fun h => MkEntry h (bool_decide (h ∈ l_nullifiers (StateLog.head_ledger G)))) <$> nulls)
    | Err e => (256 < length objs + length nulls)%nat /\ (exists m, e = Status BAD_REQUEST m) \/ unavailable pg ns e
    end.
Proof.
  intros Hi Hr Hle Hle' Hf. destruct (SyncLoop.sync_reachable_inv _ _ _ _ _ _ Hi Hr) as [G Inv]. exists G. split; [done|].
  apply (membership_response_spec _ _ _ _ _ _ Inv _ _ _ _ Hle Hle' Hf).
Qed.

(** In every state the synchronizer can reach, a grounding witness is about one
    head: its fields hash to its state root, its created root commits to the
    created objects of the ledger behind that head, and every requested object has
    one entry, in order, which is present with its true position and a proof, or
    absent if the object was not created (or the store failed to prove it). *)
Theorem grounding_witness_answers `{Plonky2, Pod2, MerkleModel, !BlobParser} (db_sync : Db -> Result unit) (init_start_slot : Z)
    (parent_of : list byte -> list byte) (pg : option string) (d0 : Db) (n : Z) (ns : Node.NodeState) (d : Db) (objs : list Hash) :
  1 <= init_start_slot < 2 ^ 31 ->
  rtc (SyncLoop.sync_step db_sync init_start_slot parent_of) (SyncLoop.initial init_start_slot d0) (n, ns) ->
  db_le (Node.db ns) d -> few_objects ns ->
  exists G, SyncLoop.sync_inv_at init_start_slot parent_of n ns G /\
    match post_grounding_witness pg (Node.log ns) d objs with
    | Ok r => exists s, StateLog.slot_state_at_head (Node.log ns) = Some s
        /\ gw_state_root r = state_root (metadata (StateLog.ss_state s))
        /\ gw_state_root r = StateHeader_hash (StateHeader_new (gw_block_number r) (gw_block_timestamp r) (gw_block_hash r)
             (gw_created_root r) (gw_nullifiers_root r) (gw_prior_state_history_root r))
        /\ gw_created_root r = array_commit (arr (l_created (StateLog.head_ledger G)))
        /\ Forall2 (proof_answers G) objs (gw_created_proofs r)
    | Err e => (256 < length objs)%nat /\ (exists m, e = Status BAD_REQUEST m) \/ unavailable pg ns e
    end.
Proof.
  intros Hi Hr Hle Hf. destruct (SyncLoop.sync_reachable_inv _ _ _ _ _ _ Hi Hr) as [G Inv]. exists G. split; [done|].
  by apply (grounding_spec _ _ _ _ _ _ Inv).
Qed.
End SyncApi.
