(* ===== verification/SyncClient.v ===== *)
(** * The driver's synchronizer client (libs/driver/src/clients)

    [HttpSynchronizerClient] asks the API of [SyncApi.v] over a network: a request
    may get no response, and the synchronizer goes on between two requests. A
    membership query is sent in batches below the server's limit and answered by
    the earliest head among them. *)

From S2P Require Import Prelude Pod2 Models Payload DonState ContainerDb StateMachine StateLog Node SyncLoop ObjectNames DriverStore Driver SyncApi.

Module SyncClient.
Import DonState ContainerDb StateMachine SyncApi.
Import Driver (Membership, created_objects, on_chain_nullifiers, mb_block_number, HASH_BATCH_LIMIT).
Local Open Scope Z_scope.

(** ** Requests *)

(** What a server answered; a body may not decode. *)
Inductive HttpResponse (A : Type) : Type :=
| Success (body : option A)
| Refused (code : StatusCode) (detail : string).
Arguments Success {A} _.
Arguments Refused {A} _ _.

Class Network `{MerkleStore} : Type := {
  Net : Type;
  send_head : eff Net (HttpResponse StateHeadResponse);
  send_tx_status : string -> eff Net (HttpResponse (list StateLog.TxBlobStatus));
  send_grounding : list Hash -> eff Net (HttpResponse GroundingWitnessResponse);
  send_membership : list Hash -> list Hash -> eff Net (HttpResponse MembershipResponse);
  send_state_at : Z -> eff Net (HttpResponse StateHeadResponse);
}.

Section Client.
Context `{Pod2, Network}.

Definition decode_json_response {A} (r : HttpResponse A) : Result A :=
  match r with
  | Success (Some a) => Ok a
  | Success None => Err (Fail "failed to decode")
  | Refused _ detail => Err (Fail detail)
  end.

Definition send_json_request {A} (request : eff Net (HttpResponse A)) : eff Net A :=
  let! response := request in elift (decode_json_response response).

Definition send_optional_json_request {A} (request : eff Net (HttpResponse A)) : eff Net (option A) :=
  let! response := request in
  match response with
  | Refused NOT_FOUND _ => eret None
  | _ => let! a := elift (decode_json_response response) in eret (Some a)
  end.

(** The state root and the block of the head. *)
Definition fetch_head : eff Net (Hash * Z) :=
  let! payload := send_json_request send_head in
  eret (sh_state_root payload, sh_block_number payload).

Record SynchronizerTxStatus : Type := { sx_tx_hash : string; sx_block_number : Z; sx_error : option string }.

(** [hex_text] is [format!("{:#x}")]. *)
Definition fetch_tx_status (hex_text : list byte -> string) (tx_final : Hash) : eff Net (option SynchronizerTxStatus) :=
  let! response := send_optional_json_request (send_tx_status (Payload.encode_hash_hex tx_final)) in
  match response with
  | None => eret None
  | Some blobs =>
      let! blob := elift (ok_or (head blobs) "synchronizer transaction status has no blob") in
      eret (Some {| sx_tx_hash := hex_text (StateLog.tbs_tx_hash blob); sx_block_number := StateLog.tbs_block_number blob;
                    sx_error := StateLog.tbs_error blob |})
  end.

Definition fetch_state_at (block_number : Z) : eff Net (option StateHeadResponse) :=
  send_optional_json_request (send_state_at block_number).

(** ** Grounding *)

Section Collect.
Context {P : Type} (requested : list Hash).

(** The presence and the proofs so far. *)
Definition collect_entry (acc : gmap Hash bool * gmap Hash P) (entry : Hash * bool * option P) : Result (gmap Hash bool * gmap Hash P) :=
  let '(response_presence, created_proofs) := acc in
  let '(commitment, present, proof) := entry in
  if negb (bool_decide (commitment ∈ requested)) then Err (Fail "response contained unexpected object proof")
  else if bool_decide (response_presence !! commitment = Some (negb present)) then Err (Fail "response contained conflicting entries")
  else
    let response_presence := <[commitment := present]> response_presence in
    if present then
      let? proof := ok_or proof "synchronizer reported object present but omitted its array proof" in
      Ok (response_presence, <[commitment := proof]> created_proofs)
    else Ok (response_presence, created_proofs).

Definition collect_created_proofs (entries : list (Hash * bool * option P)) : Result (gmap Hash P) :=
  let? (response_presence, created_proofs) := try_fold collect_entry (∅, ∅) entries in
  if bool_decide (Exists (fun h => response_presence !! h = None) requested) then Err (Fail "response omitted requested object proofs")
  else if bool_decide (Exists (fun h => response_presence !! h = Some false) requested)
  then Err (Fail "input not yet synchronized; wait and retry")
  else Ok created_proofs.
End Collect.

Definition option_zip {A B} (a : option A) (b : option B) : option (A * B) :=
  match a, b with Some a, Some b => Some (a, b) | _, _ => None end.

Definition grounding_entry (p : ObjectProofResponse) : Hash * bool * option (Z * MerkleProof) :=
  (op_commitment p, op_present p, option_zip (op_index p) (op_proof p)).

Definition fetch_grounding_witness (object_commitments : list Hash) : eff Net (StateHeader * gmap Hash (Z * MerkleProof)) :=
  let! payload := send_json_request (send_grounding object_commitments) in
  let h := StateHeader_new (gw_block_number payload) (gw_block_timestamp payload) (gw_block_hash payload)
             (gw_created_root payload) (gw_nullifiers_root payload) (gw_prior_state_history_root payload) in
  elift (rensure (bool_decide (gw_state_root payload = StateHeader_hash h)) "synchronizer grounding witness hash mismatch") ;!
  let! created_proofs := elift (collect_created_proofs object_commitments (grounding_entry <$> gw_created_proofs payload)) in
  eret (h, created_proofs).

(** ** Membership *)

Definition present_hashes (entries : list ContainsEntry) : gset Hash :=
  list_to_set (ce_hash <$> filter (fun e => ce_present e = true) entries).

(** The hashes found so far and the earliest head. *)
Definition add_response (acc : gset Hash * gset Hash * option Z) (payload : MembershipResponse) : gset Hash * gset Hash * option Z :=
  let '(created, nulls, block) := acc in
  (created ∪ present_hashes (created_results payload), nulls ∪ present_hashes (nullifier_results payload),
   Some (match block with Some earliest => Z.min earliest (mr_block_number payload) | None => mr_block_number payload end)).

Fixpoint membership_loop (fuel : nat) (objs nulls : list Hash) (acc : gset Hash * gset Hash * option Z) :
    eff Net (gset Hash * gset Hash * option Z) :=
  match fuel with
  | O => ethrow (Panic "out of fuel")
  | S fuel' =>
      let obj_take := Nat.min (length objs) HASH_BATCH_LIMIT in
      let null_take := Nat.min (length nulls) (HASH_BATCH_LIMIT - obj_take) in
      let! payload := send_json_request (send_membership (take obj_take objs) (take null_take nulls)) in
      let acc := add_response acc payload in
      match drop obj_take objs, drop null_take nulls with
      | [], [] => eret acc
      | objs', nulls' => membership_loop fuel' objs' nulls' acc
      end
  end.

Definition fetch_membership_with_nullifiers (objs nulls : list Hash) : eff Net Membership :=
  let! (created, spent, block) := membership_loop (S (length objs + length nulls)) objs nulls (∅, ∅, None) in
  let! block := elift (expect block "at least one membership request was made") in
  eret {| created_objects := created; on_chain_nullifiers := spent; mb_block_number := block |}.
End Client.

(** ** Client and server *)

(** The server's answer as the client sees it; a dropped connection is no answer. *)
Definition answered {A} (handler : Api A) (r : HttpResponse A) : Prop :=
  match handler with
  | Ok a => r = Success (Some a)
  | Err (Status code m) => r = Refused code m
  | Err (Dropped _) => False
  end.

Section Served.
Context `{Plonky2, Pod2, MerkleModel, !BlobParser, !Network} (db_sync : Db -> Result unit) (init_start_slot : Z)
  (parent_of : list byte -> list byte) (d0 : Db).

Definition reachable (n : Z) (ns : Node.NodeState) : Prop :=
  rtc (SyncLoop.sync_step db_sync init_start_slot parent_of) (SyncLoop.initial init_start_slot d0) (n, ns).

(** The responses come from a synchronizer in a state it can reach, at each request
    another one. *)
Class Served : Prop := {
  served_start : 1 <= init_start_slot < 2 ^ 31;
  served_membership objs nulls e r e' : send_membership objs nulls e = (Ok r, e') ->
    exists pg n ns d d', reachable n ns /\ db_le (Node.db ns) d /\ db_le (Node.db ns) d' /\ few_objects ns
      /\ answered (post_state_membership pg (Node.log ns) d d' objs nulls) r;
  served_grounding objs e r e' : send_grounding objs e = (Ok r, e') ->
    exists pg n ns d, reachable n ns /\ db_le (Node.db ns) d /\ few_objects ns
      /\ answered (post_grounding_witness pg (Node.log ns) d objs) r;
}.

Context `{!Served}.

(** A head the synchronizer had, by its block, with the ledger behind it. *)
Definition head_at (b : Z) (L : Ledger) : Prop :=
  exists n ns G s, reachable n ns /\ SyncLoop.sync_inv_at init_start_slot parent_of n ns G
    /\ StateLog.slot_state_at_head (Node.log ns) = Some s /\ b = as_i64 (number (block (metadata (StateLog.ss_state s))))
    /\ L = StateLog.head_ledger G.

Definition not_above (lo : option Z) (b : Z) : Prop := forall x, lo = Some x -> x <= b.

(** [C] is what of [hs] was found, each at a head not before [lo]. *)
Definition found (mem : Ledger -> Hash -> Prop) (hs : list Hash) (lo : option Z) (C : gset Hash) : Prop :=
  (forall h, h ∈ C -> h ∈ hs)
  /\ forall h, h ∈ hs -> exists b L, head_at b L /\ not_above lo b /\ (h ∈ C <-> mem L h).

Definition earliest (lo : option Z) (b : Z) : option Z := Some (match lo with Some x => Z.min x b | None => b end).

Lemma earliest_above lo b : not_above (earliest lo b) b.
Proof. intros x [= <-]. destruct lo; lia. Qed.

Lemma earliest_old lo b b' x : lo = Some x -> not_above lo b' -> not_above (earliest lo b) b'.
Proof. intros -> Hb y [= <-]. specialize (Hb x eq_refl). lia. Qed.

Lemma found_step mem hs lo C b L batch new :
  (forall h, Decision (mem L h)) -> found mem hs lo C -> (lo = None -> hs = []) -> head_at b L ->
  (forall h, h ∈ new <-> h ∈ batch /\ mem L h) -> found mem (hs ++ batch) (earliest lo b) (C ∪ new).
Proof.
  intros Hdec [Hsub Hf] Hlo Hb Hnew. split; [set_solver|]. intros h Hh. destruct (decide (h ∈ new)) as [Hn|Hn].
  - exists b, L. split_and!; [done|apply earliest_above|]. apply Hnew in Hn as Hm. set_solver.
  - destruct (decide (h ∈ hs)) as [Hin|Hin].
    + destruct (Hf h Hin) as (b' & L' & Hb' & Ha & Hiff). exists b', L'. split_and!; [done| |set_solver].
      destruct lo as [x|]; [by eapply earliest_old|]. rewrite (Hlo eq_refl) in Hin. by apply not_elem_of_nil in Hin.
    + exists b, L. split_and!; [done|apply earliest_above|]. assert (h ∈ batch) by set_solver. set_solver.
Qed.

Lemma present_hashes_spec (f : Hash -> Prop) `{!forall h, Decision (f h)} hs h :
  h ∈ present_hashes ((fun h => MkEntry h (bool_decide (f h))) <$> hs) <-> h ∈ hs /\ f h.
Proof.
  unfold present_hashes. rewrite elem_of_list_to_set, list_elem_of_fmap. split.
  - intros (e & -> & [Hp (x & -> & Hin)%list_elem_of_fmap]%list_elem_of_filter). simpl in *. by apply bool_decide_eq_true in Hp.
  - intros [Hin Hf]. exists (MkEntry h (bool_decide (f h))). split; [done|]. apply list_elem_of_filter. simpl.
    split; [by apply bool_decide_eq_true|]. apply list_elem_of_fmap. by exists h.
Qed.

(** Why a query fails: a request failed, or the server refused it, but not for its
    size. *)
Definition membership_fails (f : failure) : Prop :=
  exists objs nulls e e', send_membership objs nulls e = (Err f, e')
    \/ exists code m, send_membership objs nulls e = (Ok (Refused code m), e') /\ f = Fail m /\ code <> BAD_REQUEST.

Lemma request_spec objs nulls e :
  (length objs + length nulls <= 256)%nat ->
  wp (send_json_request (send_membership objs nulls))
    (fun r _ => exists L, head_at (mr_block_number r) L
       /\ created_results r = (fun h => MkEntry h (bool_decide (h ∈ l_created L))) <$> objs
       /\ nullifier_results r = (fun h => MkEntry h (bool_decide (h ∈ l_nullifiers L))) <$> nulls)
    (fun f _ => membership_fails f) e.
Proof.
  intros Hlim. unfold send_json_request. apply wp_bind. unfold wp at 1.
  destruct (send_membership objs nulls e) as [[r|f] e'] eqn:Hs; [|exists objs, nulls, e, e'; by left].
  destruct (served_membership _ _ _ _ _ Hs) as (pg & n & ns & d & d' & Hr & Hle & Hle' & Hf & Ha).
  destruct (SyncLoop.sync_reachable_inv _ _ _ _ _ _ served_start Hr) as [G Inv].
  pose proof (membership_response_spec _ _ pg _ _ _ Inv d d' objs nulls Hle Hle' Hf) as Hm. unfold answered in Ha.
  destruct (post_state_membership _ _ _ _ _ _) as [resp|[code m|m]]; [subst r|subst r|done].
  - destruct Hm as (s & Hs' & ->). apply wp_lift; [|done]. intros a [= <-]. exists (StateLog.head_ledger G). split_and!; [|done..].
    simpl. exists n, ns, G, s. split_and!; done.
  - apply wp_lift; [done|]. intros f [= <-]. exists objs, nulls, e, e'. right. exists code, m. split_and!; [done..|]. intros ->.
    destruct Hm as [[Hlt _]|Hu]; [lia|done].
Qed.

(** The loop's accumulator after the hashes [po] and [pn]. *)
Definition gathered (po pn : list Hash) (acc : gset Hash * gset Hash * option Z) : Prop :=
  let '(C, N, lo) := acc in
  found (fun L h => h ∈ l_created L) po lo C /\ found (fun L h => h ∈ l_nullifiers L) pn lo N
  /\ match lo with None => po = [] /\ pn = [] | Some b => exists L, head_at b L end.

Lemma gathered_step po pn acc r objs nulls L :
  gathered po pn acc -> head_at (mr_block_number r) L ->
  created_results r = (fun h => MkEntry h (bool_decide (h ∈ l_created L))) <$> objs ->
  nullifier_results r = (fun h => MkEntry h (bool_decide (h ∈ l_nullifiers L))) <$> nulls ->
  gathered (po ++ objs) (pn ++ nulls) (add_response acc r).
Proof.
  destruct acc as [[C N] lo]. intros (Hc & Hn & Hlo) Hb Hcr Hnr. unfold add_response. rewrite Hcr, Hnr. split_and!.
  - eapply (found_step (fun L h => h ∈ l_created L)); [intros h; apply _|done|by intros ->; destruct Hlo|done|]. intros h. apply present_hashes_spec.
  - eapply (found_step (fun L h => h ∈ l_nullifiers L)); [intros h; apply _|done|by intros ->; destruct Hlo|done|]. intros h. apply present_hashes_spec.
  - destruct lo as [x|]; [|by eauto]. destruct (Z.min_spec x (mr_block_number r)) as [[_ ->]|[_ ->]]; eauto.
Qed.

Lemma membership_loop_spec fuel objs nulls po pn acc e :
  (length objs + length nulls < fuel)%nat -> gathered po pn acc ->
  wp (membership_loop fuel objs nulls acc)
    (fun acc' _ => gathered (po ++ objs) (pn ++ nulls) acc' /\ exists b, acc'.2 = Some b) (fun f _ => membership_fails f) e.
Proof.
  revert objs nulls po pn acc e. induction fuel as [|fuel IH]; intros objs nulls po pn acc e Hf Hg; [lia|]. cbn [membership_loop].
  unfold HASH_BATCH_LIMIT. set (k := Nat.min (length objs) 256). set (k' := Nat.min (length nulls) (256 - k)). apply wp_bind.
  eapply wp_mono; [apply request_spec; rewrite !length_take; lia| |done]. intros r e' (L & Hb & Hc & Hn).
  pose proof (gathered_step po pn acc r _ _ L Hg Hb Hc Hn) as Hg'.
  assert (Hsome : exists b, (add_response acc r).2 = Some b) by (destruct acc as [[C N] lo]; simpl; eauto).
  pose proof (take_drop k objs) as Ho. pose proof (take_drop k' nulls) as Hu.
  assert (Hlen : (length (drop k objs) + length (drop k' nulls) < fuel \/ drop k objs = [] /\ drop k' nulls = [])%nat).
  { rewrite !length_drop. destruct (decide (length objs = 0 /\ length nulls = 0)%nat) as [[Hz Hz']|Hne].
    - right. by rewrite !drop_ge by lia.
    - left. lia. }
  assert (Hnext : (length (drop k objs) + length (drop k' nulls) < fuel)%nat ->
    wp (membership_loop fuel (drop k objs) (drop k' nulls) (add_response acc r))
      (fun acc' _ => gathered (po ++ objs) (pn ++ nulls) acc' /\ exists b, acc'.2 = Some b) (fun f _ => membership_fails f) e').
  { intros Hlt. replace (po ++ objs) with ((po ++ take k objs) ++ drop k objs) by (by rewrite <-(assoc_L (++)), take_drop).
    replace (pn ++ nulls) with ((pn ++ take k' nulls) ++ drop k' nulls) by (by rewrite <-(assoc_L (++)), take_drop). by apply IH. }
  destruct (drop k objs) as [|o objs'] eqn:Ed; destruct (drop k' nulls) as [|u nulls'] eqn:Ed'.
  - apply wp_ret. split; [|done]. rewrite app_nil_r in Ho, Hu. by rewrite <-Ho, <-Hu.
  - apply Hnext. by destruct Hlen as [|[_ ?]].
  - apply Hnext. by destruct Hlen as [|[? _]].
  - apply Hnext. by destruct Hlen as [|[? _]].
Qed.

(** *** Proofs *)

Section Proofs.
Context (G : gmap Z Ledger) (requested : list Hash).
Abbreviation L := (StateLog.head_ledger G).

Definition placed (h : Hash) (x : Z * MerkleProof) : Prop := l_created L !! Z.to_nat (as_u64 (fst x)) = Some h.

(** The collected entries of the hashes [hs]. *)
Record collected (hs : list Hash) (acc : gmap Hash bool * gmap Hash (Z * MerkleProof)) : Prop := {
  co_seen h : is_Some (acc.1 !! h) <-> h ∈ hs;
  co_true h : acc.1 !! h = Some true -> is_Some (acc.2 !! h);
  co_false h : acc.1 !! h = Some false -> h ∉ l_created L \/ faulty;
  co_placed h x : acc.2 !! h = Some x -> h ∈ hs /\ placed h x;
}.

Definition not_created : Prop := faulty \/ exists h, h ∈ requested /\ h ∉ l_created L.

Lemma placed_created h x : placed h x -> h ∈ l_created L.
Proof. apply list_elem_of_lookup_2. Qed.

Lemma collect_entry_spec hs acc h p :
  collected hs acc -> h ∈ requested -> proof_answers G h p ->
  match collect_entry requested acc (grounding_entry p) with
  | Ok acc' => collected (hs ++ [h]) acc'
  | Err f => faulty
  end.
Proof.
  intros Hco Hreq [<- Hp]. destruct acc as [pres proofs]. unfold collect_entry, grounding_entry. rewrite bool_decide_true by done. simpl.
  destruct (op_index p) as [i|] eqn:Ei, (op_proof p) as [pf|] eqn:Ep; [|done|done|]; destruct Hp as [-> Hp]; simpl.
  - case_bool_decide as Hconf.
    { destruct (co_false _ _ Hco _ Hconf) as [Hno|]; [|done]. exfalso. apply Hno. by eapply list_elem_of_lookup_2. }
    destruct Hco as [Hs Ht Hfa Hpl]. split; simpl in *.
    + intros h. rewrite lookup_insert_is_Some', Hs, elem_of_app, list_elem_of_singleton. split; intros [?|?]; auto.
    + intros h. rewrite !lookup_insert. case_decide; [by eauto|]. apply Ht.
    + intros h. rewrite lookup_insert. case_decide; [done|]. apply Hfa.
    + intros h x. rewrite lookup_insert. case_decide as Hh; [intros [= <-]; subst h; split; [apply elem_of_app; right; by constructor|done]|].
      intros Hx. destruct (Hpl _ _ Hx). split; [apply elem_of_app; by left|done].
  - case_bool_decide as Hconf.
    { destruct Hp as [Hno|]; [|done]. exfalso. apply Hno. destruct (co_true _ _ Hco _ Hconf) as [x Hx].
      eapply placed_created, (co_placed _ _ Hco _ _ Hx). }
    destruct Hco as [Hs Ht Hfa Hpl]. split; simpl in *.
    + intros h. rewrite lookup_insert_is_Some', Hs, elem_of_app, list_elem_of_singleton. split; intros [?|?]; auto.
    + intros h. rewrite lookup_insert. case_decide; [done|]. apply Ht.
    + intros h. rewrite lookup_insert. case_decide as Hh; [by subst h|]. apply Hfa.
    + intros h x Hx. destruct (Hpl _ _ Hx). split; [apply elem_of_app; by left|done].
Qed.

Lemma collect_fold_spec objs ps hs acc :
  collected hs acc -> (forall h, h ∈ objs -> h ∈ requested) -> Forall2 (proof_answers G) objs ps ->
  match try_fold (collect_entry requested) acc (grounding_entry <$> ps) with
  | Ok acc' => collected (hs ++ objs) acc'
  | Err _ => faulty
  end.
Proof.
  intros Hco Hreq Hall. revert hs acc Hco. induction Hall as [|h p objs ps Hp _ IH]; intros hs acc Hco; simpl; [by rewrite app_nil_r|].
  pose proof (collect_entry_spec hs acc h p Hco (Hreq h ltac:(by constructor)) Hp) as He. destruct (collect_entry _ _ _) as [acc'|f]; simpl; [|done].
  replace (hs ++ h :: objs) with ((hs ++ [h]) ++ objs) by (by rewrite <-(assoc_L (++))). apply IH; [|done]. intros x Hx. apply Hreq. by constructor.
Qed.

Lemma collect_spec ps :
  Forall2 (proof_answers G) requested ps ->
  match collect_created_proofs requested (grounding_entry <$> ps) with
  | Ok m => (forall h, h ∈ requested -> is_Some (m !! h)) /\ forall h x, m !! h = Some x -> h ∈ requested /\ placed h x
  | Err _ => not_created
  end.
Proof.
  intros Hall. assert (Hco : collected [] (∅, ∅)).
  { split; simpl; intros h; [|by rewrite lookup_empty|by rewrite lookup_empty|by intros x; rewrite lookup_empty].
    rewrite lookup_empty. split; [by intros []|by intros ?%not_elem_of_nil]. }
  pose proof (collect_fold_spec requested ps [] (∅, ∅) Hco ltac:(done) Hall) as Hf. unfold collect_created_proofs.
  destruct (try_fold _ _ _) as [[pres m]|f]; simpl in *; [|by left].
  case_bool_decide as Hom.
  { apply Exists_exists in Hom as (h & Hin & Hn). apply (co_seen _ _ Hf) in Hin. simpl in Hin. rewrite Hn in Hin. by destruct Hin. }
  case_bool_decide as Hab.
  { apply Exists_exists in Hab as (h & Hin & Hn). destruct (co_false _ _ Hf _ Hn); [right; eauto|by left]. }
  split; [|by apply (co_placed _ _ Hf)]. intros h Hin. apply (co_true _ _ Hf). simpl.
  assert (Hseen : is_Some (pres !! h)) by (by apply (co_seen _ _ Hf)). destruct Hseen as [[] Hb]; [done|].
  exfalso. apply Hab, Exists_exists. eauto.
Qed.
End Proofs.

(** ** The claims *)

(** C21: the driver's membership query against a synchronizer that goes on between
    its batches: every hash is answered as the ledger behind some head the
    synchronizer had, no such head is before the block number returned, and that
    number is itself one of a head. It fails only because a request failed or
    because the synchronizer was not able to answer, never for the size of a batch. *)
Theorem membership_fetched (objs nulls : list Hash) (e : Net) :
  match fetch_membership_with_nullifiers objs nulls e with
  | (Ok m, _) => found (fun L h => h ∈ l_created L) objs (Some (mb_block_number m)) (created_objects m)
      /\ found (fun L h => h ∈ l_nullifiers L) nulls (Some (mb_block_number m)) (on_chain_nullifiers m)
      /\ exists L, head_at (mb_block_number m) L
  | (Err f, _) => membership_fails f
  end.
Proof.
  assert (Hg : gathered [] [] (∅, ∅, None)) by (split_and!; [split; set_solver..|done|done]).
  pose proof (membership_loop_spec (S (length objs + length nulls)) objs nulls [] [] _ e (Nat.lt_succ_diag_r _) Hg) as Hl.
  unfold fetch_membership_with_nullifiers, ebind at 1. unfold wp in Hl.
  destruct (membership_loop _ _ _ _ e) as [[[[C N] lo]|f] e']; [|exact Hl]. destruct Hl as [(Hc & Hn & Hlo) [b Hb]]. simpl in Hb. subst lo.
  by split_and!.
Qed.

(** C22: the driver's grounding query: what it returns is a header that hashes to the
    state root of a head the synchronizer had, with, for each requested object and
    no other, its position among the created objects the header commits to and a
    proof. Within the limit it fails only because the request failed, the
    synchronizer was not able to answer, or an object was not created there (or
    the store could not prove it). *)
Theorem grounding_fetched (objs : list Hash) (e : Net) :
  (length objs <= 256)%nat ->
  match fetch_grounding_witness objs e with
  | (Ok (h, proofs), _) => exists n ns G s, reachable n ns /\ SyncLoop.sync_inv_at init_start_slot parent_of n ns G
      /\ StateLog.slot_state_at_head (Node.log ns) = Some s /\ StateHeader_hash h = state_root (metadata (StateLog.ss_state s))
      /\ created_root h = array_commit (arr (l_created (StateLog.head_ledger G)))
      /\ (forall c, c ∈ objs -> is_Some (proofs !! c)) /\ forall c x, proofs !! c = Some x -> c ∈ objs /\ placed G c x
  | (Err f, _) => (exists e', send_grounding objs e = (Err f, e'))
      \/ (exists code m e', send_grounding objs e = (Ok (Refused code m), e') /\ f = Fail m /\ code <> BAD_REQUEST)
      \/ exists n ns G, reachable n ns /\ SyncLoop.sync_inv_at init_start_slot parent_of n ns G /\ not_created G objs
  end.
Proof.
  intros Hlim. unfold fetch_grounding_witness, send_json_request, ebind at 1 2 3.
  destruct (send_grounding objs e) as [[r|f] e'] eqn:Hs; [|by eauto].
  destruct (served_grounding _ _ _ _ Hs) as (pg & n & ns & d & Hr & Hle & Hf & Ha).
  destruct (SyncLoop.sync_reachable_inv _ _ _ _ _ _ served_start Hr) as [G Inv].
  pose proof (grounding_spec _ _ pg _ _ _ Inv d objs Hle Hf) as Hm. unfold answered in Ha.
  destruct (post_grounding_witness _ _ _ _) as [resp|[code m|m]]; [subst r|subst r|done].
  - destruct Hm as (s & Hs' & Hroot & Hhash & Hcr & Hall). simpl. rewrite bool_decide_true by done. simpl.
    pose proof (collect_spec G objs _ Hall) as Hc. unfold ebind. destruct (collect_created_proofs _ _) as [proofs|f]; simpl.
    + destruct Hc as [Hc1 Hc2]. exists n, ns, G, s. split_and!; try done. by rewrite <-Hroot.
    + right. right. eauto 6.
  - simpl. right. left. exists code, m, e'. split_and!; [done..|]. intros ->. destruct Hm as [[? _]|?]; [lia|done].
Qed.
End Served.
End SyncClient.
