(* ===== verification/SyncToy.v ===== *)
(** * A synchronizer and a client that evaluate

    A synchronizer that has derived its first state, its API asked directly and
    over a network that always answers. *)

From S2P Require Import Prelude Pod2 Models Payload DonState ContainerDb StateMachine StateLog Node SyncLoop ObjectNames DriverStore Driver SyncApi SyncClient Toys.

Module SyncToy.
Import DonState ContainerDb StateMachine Node SyncApi SyncClient Toys.
Import Driver (created_objects, on_chain_nullifiers, mb_block_number).
Local Open Scope Z_scope.

Definition genesis_payload : CanonicalPayload := {|
  committing_block_root := [x01]; execution_block := sample_block; kzg_blob_commitments := []; target_blob_txs := [] |}.
Definition genesis_context : SlotContext :=
  {| sc_slot := 1; beacon_block_root := [x01]; sc_payload := Some genesis_payload; sc_target_txs := [] |}.

Abbreviation toy_sync := (fun _ : @Db ToyStore.toy_store => Ok tt).
Abbreviation toy_parent := (fun _ : list byte => [x00]).

Definition boot : @NodeState ToyStore.toy_store := @MkNode ToyStore.toy_store StateLog.empty_tables (ToyStore.MkStore ∅ ∅).
Definition first_slot := @SyncLoop.process_present_slot Toy.toy_plonky2 Toy.toy_pod2 ToyStore.toy_store sample_blob_parser
  sample_chain toy_sync 1 1 SyncLoop.sample_header (Ok genesis_context) boot.
Lemma first_slot_ok : is_ok (fst first_slot) = true.
Proof. vm_compute. reflexivity. Qed.

Definition synced : @NodeState ToyStore.toy_store := snd first_slot.
Abbreviation toy_reachable := (@reachable Toy.toy_plonky2 Toy.toy_pod2 ToyStore.toy_store sample_blob_parser toy_sync 1 toy_parent (ToyStore.MkStore ∅ ∅)).

Lemma synced_reachable : toy_reachable 2 synced.
Proof.
  eapply rtc_once, (SyncLoop.step_present _ _ _ sample_chain 1 _ SyncLoop.sample_header (Ok genesis_context) (fst first_slot)).
  - lia.
  - reflexivity.
  - intros ctx [= <-]. split_and!; [done..|]. intros payload txs [= <-] [= <-]. vm_compute. by split_and!.
  - apply surjective_pairing.
  - pose proof first_slot_ok as Hok. destruct (fst first_slot) as [x|f] eqn:Hf; [|done].
    assert (Hx : get_ok 0 (fst first_slot) = 2) by (vm_compute; reflexivity). rewrite Hf in Hx. by simpl in Hx.
Qed.

Lemma synced_few : few_objects synced.
Proof.
  intros s Hs. assert (Hc : created_count <$> (metadata <$> StateLog.don_state_at_head (Node.log synced)) = Some 0) by (vm_compute; reflexivity).
  rewrite Hs in Hc. simpl in Hc. injection Hc as ->. lia.
Qed.

(** ** A network *)

Definition deliver {A} (handler : Api A) : eff unit (HttpResponse A) := fun e =>
  match handler with
  | Ok a => (Ok (Success (Some a)), e)
  | Err (Status code m) => (Ok (Refused code m), e)
  | Err (Dropped m) => (Err (Fail m), e)
  end.

Lemma deliver_answered {A} (handler : Api A) e r e' : deliver handler e = (Ok r, e') -> answered handler r.
Proof. unfold deliver, answered. destruct handler as [a|[]]; by intros [= <- <-]. Qed.

#[export] Instance toy_network : @Network ToyStore.toy_store := {|
  Net := unit;
  send_head := deliver (get_state_head None (Node.log synced));
  send_tx_status h := deliver (@get_tx_status_by_tx_final Toy.toy_pod2 None h (Node.log synced));
  send_grounding objs := deliver (@post_grounding_witness Toy.toy_pod2 ToyStore.toy_store None (Node.log synced) (Node.db synced) objs);
  send_membership objs nulls := deliver (@post_state_membership ToyStore.toy_store None (Node.log synced) (Node.db synced) (Node.db synced) objs nulls);
  send_state_at n := deliver (get_state_by_el None (fun _ => Ok (Number n)) EmptyString (Node.log synced));
|}.

Lemma toy_served : @Served Toy.toy_plonky2 Toy.toy_pod2 ToyStore.toy_store ToyStore.toy_model sample_blob_parser toy_network
  toy_sync 1 toy_parent (ToyStore.MkStore ∅ ∅).
Proof.
  split; [lia|..].
  - intros objs nulls e r e' Ha%deliver_answered. exists None, 2, synced, (Node.db synced), (Node.db synced).
    split_and!; [apply synced_reachable|done|done|apply synced_few|exact Ha].
  - intros objs e r e' Ha%deliver_answered. exists None, 2, synced, (Node.db synced).
    split_and!; [apply synced_reachable|done|apply synced_few|exact Ha].
Qed.

(** ** The theorems here *)

Definition some_hash : Hash := MkHash 1 2 3 4.

Lemma membership_answers_ledger_witness :
  exists G, @SyncLoop.sync_inv_at Toy.toy_pod2 ToyStore.toy_store ToyStore.toy_model 1 toy_parent 2 synced G /\
    match @post_state_membership ToyStore.toy_store None (Node.log synced) (Node.db synced) (Node.db synced) [some_hash] [] with
    | Ok r => exists s, StateLog.slot_state_at_head (Node.log synced) = Some s
        /\ r = MkMembership (as_i64 (number (block (metadata (StateLog.ss_state s))))) (hash (block (metadata (StateLog.ss_state s))))
                 (state_root (metadata (StateLog.ss_state s)))
                 ((fun h => MkEntry h (bool_decide (h ∈ l_created (StateLog.head_ledger G)))) <$> [some_hash])
                 ((fun h => MkEntry h (bool_decide (h ∈ l_nullifiers (StateLog.head_ledger G)))) <$> [])
    | Err e => (256 < 1)%nat /\ (exists m, e = Status BAD_REQUEST m)
        \/ @unavailable ToyStore.toy_store ToyStore.toy_model None synced e
    end.
Proof.
  apply (@membership_answers_ledger Toy.toy_plonky2 Toy.toy_pod2 ToyStore.toy_store ToyStore.toy_model sample_blob_parser
    toy_sync 1 toy_parent None (ToyStore.MkStore ∅ ∅) 2 synced); [lia|apply synced_reachable|done|done|apply synced_few].
Defined.

Lemma grounding_witness_answers_witness :
  exists G, @SyncLoop.sync_inv_at Toy.toy_pod2 ToyStore.toy_store ToyStore.toy_model 1 toy_parent 2 synced G /\
    match @post_grounding_witness Toy.toy_pod2 ToyStore.toy_store None (Node.log synced) (Node.db synced) [] with
    | Ok r => Forall2 (@proof_answers ToyStore.toy_store ToyStore.toy_model G) [] (gw_created_proofs r)
    | Err e => (256 < 0)%nat /\ (exists m, e = Status BAD_REQUEST m)
        \/ @unavailable ToyStore.toy_store ToyStore.toy_model None synced e
    end.
Proof.
  destruct (@grounding_witness_answers Toy.toy_plonky2 Toy.toy_pod2 ToyStore.toy_store ToyStore.toy_model sample_blob_parser
    toy_sync 1 toy_parent None (ToyStore.MkStore ∅ ∅) 2 synced (Node.db synced) []) as (G & Hi & Hg);
    [lia|apply synced_reachable|done|apply synced_few|].
  exists G. split; [exact Hi|]. destruct (post_grounding_witness _ _ _ _); [|exact Hg]. by destruct Hg as (s & _ & _ & _ & _ & Hall).
Defined.

Abbreviation toy_head_at := (@head_at Toy.toy_plonky2 Toy.toy_pod2 ToyStore.toy_store ToyStore.toy_model sample_blob_parser
  toy_sync 1 toy_parent (ToyStore.MkStore ∅ ∅)).
Definition fetched := @fetch_membership_with_nullifiers ToyStore.toy_store toy_network [some_hash] [some_hash] tt.
Definition no_membership : Driver.Membership := {| created_objects := ∅; on_chain_nullifiers := ∅; mb_block_number := 0 |}.

Lemma membership_fetched_witness :
  exists m, fst fetched = Ok m /\ mb_block_number m = 7
    /\ (exists b L, toy_head_at b L /\ not_above (Some 7) b /\ (some_hash ∈ created_objects m <-> some_hash ∈ l_created L)).
Proof.
  assert (Hok : is_ok (fst fetched) = true) by (vm_compute; reflexivity).
  assert (Hb : mb_block_number (get_ok no_membership (fst fetched)) = 7) by (vm_compute; reflexivity).
  pose proof (@membership_fetched Toy.toy_plonky2 Toy.toy_pod2 ToyStore.toy_store ToyStore.toy_model sample_blob_parser toy_network
    toy_sync 1 toy_parent (ToyStore.MkStore ∅ ∅) toy_served [some_hash] [some_hash] tt) as Hm. fold fetched in Hm.
  destruct fetched as [[m|f] e]; simpl in *; [|discriminate Hok]. exists m. destruct Hm as [[_ Hc] _]. rewrite Hb in Hc.
  split; [reflexivity|]. split; [exact Hb|]. apply Hc. by constructor.
Defined.

Definition grounded := @fetch_grounding_witness Toy.toy_pod2 ToyStore.toy_store toy_network [] tt.

Lemma grounding_fetched_witness :
  exists h proofs, fst grounded = Ok (h, proofs)
    /\ exists G, created_root h = @array_commit ToyStore.toy_store ToyStore.toy_model (arr (l_created (StateLog.head_ledger G))).
Proof.
  assert (Hok : is_ok (fst grounded) = true) by (vm_compute; reflexivity).
  pose proof (@grounding_fetched Toy.toy_plonky2 Toy.toy_pod2 ToyStore.toy_store ToyStore.toy_model sample_blob_parser toy_network
    toy_sync 1 toy_parent (ToyStore.MkStore ∅ ∅) toy_served [] tt ltac:(simpl; lia)) as Hm. fold grounded in Hm.
  destruct grounded as [[[h proofs]|f] e]; simpl in *; [|discriminate Hok]. exists h, proofs. split; [reflexivity|].
  destruct Hm as (n & ns & G & s & _ & _ & _ & _ & Hc & _). by exists G.
Defined.
End SyncToy.
