(* ===== verification/Update.v ===== *)
(** * Updating the installation (interfaces/cli/src/update.rs)

    [dobj update] replaces the installed binaries by those of a release: download
    and stage, stop the daemon, swap, validate, restart. Files are maps from names
    to contents; every call to the file system, the network and the daemon may
    fail. The calls of a roll-back have an outcome of their own. The home directory is
    taken to be known. *)

From Stdlib Require Import Ascii.
From S2P Require Import Prelude ObjectNames Actions ArchiverStore.

Module Update.
Import ObjectNames Actions.
Import ArchiverStore (WriteOutcome, Written, NotWritten, Torn).
Local Open Scope string_scope.

(** ** Tags *)

Definition is_digit (a : ascii) : bool := (48 <=? N_of_ascii a)%N && (N_of_ascii a <=? 57)%N.
Definition all_digits (s : list ascii) : bool := negb (bool_decide (s = [])) && forallb is_digit s.

(** [str::split_once] *)
Fixpoint split_once (c : ascii) (l : list ascii) : option (list ascii * list ascii) :=
  match l with
  | [] => None
  | a :: l' => if decide (a = c) then Some ([], l') else '(x, y) ← split_once c l'; Some (a :: x, y)
  end.

Definition CHANNELS : list (list ascii) := [los "rc"; los "alpha"; los "beta"].

Definition tag_parses (tag : list ascii) : bool :=
  match tag with
  | a :: body =>
      let '(core, pre) := match split_once "-"%char body with Some (core, pre) => (core, Some pre) | None => (body, None) end in
      bool_decide (a = "v"%char) && (length (split_on "."%char core) =? 3)%nat && forallb all_digits (split_on "."%char core)
      && match pre with
         | None => true
         | Some pre => match split_once "."%char pre with
                       | Some (channel, n) => bool_decide (channel ∈ CHANNELS) && all_digits n
                       | None => false
                       end
         end
  | [] => false
  end.

Definition validate_release_tag (tag : string) : Result unit := rensure (tag_parses (los tag)) "invalid release tag".

(** The last component of the redirect target. *)
Fixpoint trim_start (c : ascii) (l : list ascii) : list ascii :=
  match l with a :: l' => if decide (a = c) then trim_start c l' else l | [] => [] end.
Definition trim_end (c : ascii) (l : list ascii) : list ascii := rev (trim_start c (rev l)).

Definition parse_tag_from_location (location : string) : Result string :=
  let tag := sol (default [] (last (split_on "/"%char (trim_end "/"%char (los location))))) in
  if bool_decide (tag = EmptyString \/ tag = "latest" \/ tag = "releases")
  then Err (Fail "could not extract a release tag from redirect target") else Ok tag.

(** [PathBuf::join]: an absolute path replaces the base. *)
Definition path_join (base p : string) : string :=
  match los p with "/"%char :: _ => p | _ => base +:+ "/" +:+ p end.
(** The directory of a release, which is removed before it is filled. *)
Definition staging_dir (home target_tag : string) : string := path_join (path_join home "staging") target_tag.

Inductive Ordering : Type := Newer | Same | Older | Unknown.

(** ** The host *)

Inductive HttpResult : Type := NotSent (m : string) | Answered (status : Z) (location : option string) (body : option (list byte)).
Record UpdateCheckCache : Type := MkCache { checked_at : Z; latest : string; last_attempt : Z }.
Record VersionRun : Type := { vr_success : bool; vr_stdout : string }.

Class Host : Type := {
  Env : Type;
  io : Env -> option string * Env;
  io_copy : Env -> WriteOutcome * Env;
  (** The calls of a roll-back. *)
  io_restore : Env -> option string * Env;
  (** What a removal of the staging directory left, and what an extraction wrote,
      when they fail. *)
  io_clear : Env -> option (list (string * string) * string) * Env;
  io_extract : Env -> option (list string * string) * Env;
  http_get : string -> Env -> HttpResult * Env;
  unpack : list byte -> result string (gmap string (list byte));
  canonical_bin : Env -> result string (list string) * Env;
  current_exe : Env -> result string (list string) * Env;
  run_version : list byte -> Env -> result string VersionRun * Env;
  http_alive : Env -> bool * Env;
  daemon_version : Env -> option string * Env;
  stop : Env -> result string unit * Env;
  (** Starting the daemon's binary. *)
  start_binary : option (list byte) -> Env -> result string unit * Env;
  unix_now : Env -> Z * Env;
  Version : Type;
  parse_version : list ascii -> option Version;
  version_compare : Version -> Version -> comparison;
}.

Abbreviation Files := (gmap string (list byte)).
(** The installed binaries, the staging directory of the release with its binaries
    by artifact and name, if there is one, and the cached answer. *)
Record World `{Host} : Type := MkWorld {
  bin : Files;
  staging : option (gmap (string * string) (list byte));
  check_cache : option UpdateCheckCache;
  env : Env;
}.

Section Update.
Context `{Host} (CURRENT_TAG TARGET_TRIPLE EXE_SUFFIX : string).

Definition observe {A} (c : Env -> A * Env) : eff World A := fun w =>
  let '(a, e) := c (env w) in (Ok a, MkWorld _ (bin w) (staging w) (check_cache w) e).
Definition or_fail {A} (r : result string A) : Result A := match r with Ok a => Ok a | Err m => Err (Fail m) end.
Definition call {A} (c : Env -> result string A * Env) : eff World A := let! r := observe c in elift (or_fail r).
Definition outcome (o : Env -> option string * Env) : eff World unit :=
  let! r := observe o in match r with None => eret tt | Some m => ethrow (Fail m) end.
Definition fs_call : eff World unit := outcome io.
Definition on_bin (f : Files -> Files) : eff World unit := fun w => (Ok tt, MkWorld _ (f (bin w)) (staging w) (check_cache w) (env w)).
Definition on_staging f : eff World unit := fun w => (Ok tt, MkWorld _ (bin w) (f (staging w)) (check_cache w) (env w)).

Definition compare_tags (current target : string) : Ordering :=
  let parse tag := parse_version (trim_start "v"%char (los tag)) in
  match parse current, parse target with
  | Some cur, Some tgt => match version_compare tgt cur with Gt => Newer | Eq => Same | Lt => Older end
  | _, _ => Unknown
  end.

(** ** Discovery *)

Definition RELEASES_REPO : string := "0xPARC/digital-objects-network".

Definition fetch_latest_tag : eff World string :=
  let! res := observe (http_get ("https://github.com/" +:+ RELEASES_REPO +:+ "/releases/latest")) in
  match res with
  | NotSent m => ethrow (Fail m)
  | Answered status location _ =>
      if (300 <=? status)%Z && (status <? 400)%Z then
        let! location := elift (ok_or location "redirect carries no Location header") in
        elift (parse_tag_from_location location)
      else ethrow (Fail "no redirect")
  end.

Definition UPDATE_CHECK_INTERVAL_SECS : Z := 24 * 60 * 60.
Definition UPDATE_RETRY_AFTER_FAILURE_SECS : Z := 60 * 60.

Definition within (ts now window : Z) : bool := (saturating_sub_u64 now ts <? window)%Z.
Definition non_empty (tag : string) : option string := if decide (tag = EmptyString) then None else Some tag.

(** A cache that cannot be read is absent; a write may fail, before or after it
    spoiled the file. *)
Definition read_check_cache : eff World (option UpdateCheckCache) :=
  let! r := etry fs_call in
  let! w := eget in
  eret (match r with Ok _ => check_cache w | Err _ => None end).
Definition write_check_cache (c : UpdateCheckCache) : eff World unit := fun w =>
  let '(o, e) := io_copy (env w) in
  (Ok tt, MkWorld _ (bin w) (staging w) (match o with Written => Some c | NotWritten _ => check_cache w | Torn _ _ => None end) e).

Definition fresh (c : UpdateCheckCache) (now : Z) : bool :=
  within (checked_at c) now UPDATE_CHECK_INTERVAL_SECS || within (last_attempt c) now UPDATE_RETRY_AFTER_FAILURE_SECS.

Definition resolve_latest_cached (prefer_cache : bool) : eff World (option string) :=
  let! now := observe unix_now in
  let! cached := read_check_cache in
  if prefer_cache && from_option (fun c => fresh c now) false cached then eret (cached ≫= fun c => non_empty (latest c))
  else
    let! r := etry fetch_latest_tag in
    match r with
    | Ok tag => write_check_cache (MkCache now tag now) ;! eret (Some tag)
    | Err _ =>
        let prev := default (MkCache 0 EmptyString 0) cached in
        write_check_cache (MkCache (checked_at prev) (latest prev) now) ;!
        eret (non_empty (latest prev))
    end.

(** The release a notice is printed for. *)
Definition notify_if_outdated : eff World (option string) :=
  if decide (CURRENT_TAG = "dev") then eret None
  else
    let! latest := resolve_latest_cached true in
    match latest with
    | Some tag => eret (match compare_tags CURRENT_TAG tag with Newer => Some tag | _ => None end)
    | None => eret None
    end.

(** The answer to [--check]. *)
Record CheckReport : Type := { rp_daemon : option string; rp_target : option (string * Ordering) }.

Definition report (version : option string) : eff World CheckReport :=
  let! daemon := observe daemon_version in
  let! target := match version with Some tag => eret (Some tag) | None => resolve_latest_cached false end in
  eret {| rp_daemon := daemon; rp_target := (fun tag => (tag, compare_tags CURRENT_TAG tag)) <$> target |}.

(** ** Download *)

Definition ARTIFACTS : list (string * list string) := [("dobjd", ["dobjd"; "dobj-mcp-proxy"]); ("pexe", ["pexe"]); ("dobj", ["dobj"])].
Definition DOWNLOAD_ATTEMPTS : nat := 3.

Inductive DownloadError : Type := Transient (m : string) | Permanent (m : string).

Definition attempt_download (url : string) : eff World (result DownloadError (list byte)) :=
  let! res := observe (http_get url) in
  eret (match res with
        | NotSent m => Err (Transient m)
        | Answered status _ body =>
            if (400 <=? status)%Z && (status <? 500)%Z then Err (Permanent "download failed")
            else if negb ((200 <=? status)%Z && (status <? 300)%Z) then Err (Transient "unexpected status")
            else match body with Some bytes => Ok bytes | None => Err (Transient "reading body") end
        end).

Fixpoint download_attempts (attempts : nat) (url last_err : string) : eff World (list byte) :=
  match attempts with
  | O => ethrow (Fail last_err)
  | S attempts' =>
      let! r := attempt_download url in
      match r with
      | Ok bytes => eret bytes
      | Err (Permanent m) => ethrow (Fail m)
      | Err (Transient m) => download_attempts attempts' url m
      end
  end.
Definition download_artifact (url : string) : eff World (list byte) := download_attempts DOWNLOAD_ATTEMPTS url EmptyString.

Definition verify_artifact (bytes : list byte) : Result unit := rensure (negb (bool_decide (bytes = []))) "empty artifact".

(** A staged binary: its file below the artifact's directory. *)
Record StagedBinary : Type := { sb_name : string; sb_artifact : string }.

(** [remove_dir_all] of the staging directory may leave some files. *)
Definition clear_staging : eff World unit := fun w =>
  match io_clear (env w) with
  | (None, e) => (Ok tt, MkWorld _ (bin w) None (check_cache w) e)
  | (Some (kept, m), e) => (Err (Fail m), MkWorld _ (bin w) (filter (fun kv => fst kv ∈ kept) <$> staging w) (check_cache w) e)
  end.

(** Extraction writes all files, or some. *)
Definition extract_artifact (artifact : string) (bytes : list byte) : eff World unit :=
  let! files := elift (or_fail (unpack bytes)) in
  fun w =>
    let '(written, r, e) := match io_extract (env w) with
                            | (None, e) => (files, Ok tt, e)
                            | (Some (names, m), e) => (filter (fun kv => fst kv ∈ names) files, Err (Fail m), e)
                            end in
    (r, MkWorld _ (bin w) (Some (kmap (pair artifact) written ∪ default ∅ (staging w))) (check_cache w) e).

Definition staged_file (w : World) (artifact name : string) : option (list byte) := staging w ≫= fun files => files !! (artifact, name).

Definition artifact_url (tag artifact : string) : string :=
  "https://github.com/" +:+ RELEASES_REPO +:+ "/releases/download/" +:+ tag +:+ "/" +:+ artifact +:+ "-" +:+ TARGET_TRIPLE +:+ ".tar.gz".

Definition binary_name (binary : string) : string := binary +:+ EXE_SUFFIX.

Definition stage_binary (artifact : string) (staged : list StagedBinary) (binary : string) : eff World (list StagedBinary) :=
  let name := binary_name binary in
  let! w := eget in
  elift (rensure (bool_decide (is_Some (staged_file w artifact name))) "release artifact does not contain the binary") ;!
  fs_call ;!
  eret (staged ++ [{| sb_name := name; sb_artifact := artifact |}])%list.

Definition stage_artifact (tag : string) (staged : list StagedBinary) (a : string * list string) : eff World (list StagedBinary) :=
  let '(artifact, binaries) := a in
  let! bytes := download_artifact (artifact_url tag artifact) in
  elift (verify_artifact bytes) ;!
  fs_call ;!
  on_staging (fun files => Some (default ∅ files)) ;!
  extract_artifact artifact bytes ;!
  efold (stage_binary artifact) staged binaries.

Definition download_and_stage (tag : string) : eff World (list StagedBinary) :=
  let! w := eget in
  (if decide (staging w = None) then eret tt else clear_staging) ;!
  efold (stage_artifact tag) [] ARTIFACTS.

(** ** Swapping *)

Definition ensure_managed_install : eff World unit :=
  let! b := call canonical_bin in
  let! exe := call current_exe in
  elift (rensure (bool_decide (exe <> [] /\ removelast exe = b)) "not installed by the Digital Objects installer").

Record SwapEntry : Type := MkSwap { installed : string; backup : string; had_previous : bool; installed_new : bool }.

Definition backup_name (name : string) : string := name +:+ ".old".
(** [Path::with_extension("new")] *)
Definition temp_name (name : string) : string :=
  match split_once "."%char (rev (los name)) with
  | Some (_, stem) => if decide (stem = []) then name +:+ ".new" else sol (rev stem) +:+ ".new"
  | None => name +:+ ".new"
  end.

Definition remove_file (name : string) : eff World unit := fs_call ;! on_bin (delete name).
Definition rename_with (call : eff World unit) (from to : string) : eff World unit :=
  call ;!
  let! w := eget in
  match bin w !! from with
  | Some x => on_bin (fun b => <[to := x]> (delete from b))
  | None => ethrow (Fail "No such file or directory")
  end.

(** Moving aside what is installed, up to the first failure. *)
Fixpoint move_aside (journal : list SwapEntry) : eff World (list SwapEntry * option string) :=
  match journal with
  | [] => eret ([], None)
  | entry :: rest =>
      let! w := eget in
      if bool_decide (is_Some (bin w !! installed entry)) then
        etry (remove_file (backup entry)) ;!
        let! r := etry (rename_with fs_call (installed entry) (backup entry)) in
        match r with
        | Err m => eret (entry :: rest, Some m)
        | Ok _ =>
            let! (rest', r) := move_aside rest in
            eret (MkSwap (installed entry) (backup entry) true (installed_new entry) :: rest', r)
        end
      else
        let! (rest', r) := move_aside rest in eret (entry :: rest', r)
  end.

(** A rename out of the staging directory, or a copy and a rename. *)
Definition rename_staged (staged : StagedBinary) (dest : string) : eff World unit :=
  fs_call ;!
  let! w := eget in
  match staged_file w (sb_artifact staged) (sb_name staged) with
  | Some x => on_staging (fmap (delete (sb_artifact staged, sb_name staged))) ;! on_bin (insert dest x)
  | None => ethrow (Fail "No such file or directory")
  end.

Definition copy_staged (staged : StagedBinary) (dest : string) : eff World unit := fun w =>
  let '(o, e) := io_copy (env w) in
  let write x := MkWorld _ (<[dest := x]> (bin w)) (staging w) (check_cache w) e in
  let same := MkWorld _ (bin w) (staging w) (check_cache w) e in
  match staged_file w (sb_artifact staged) (sb_name staged), o with
  | None, _ => (Err (Fail "No such file or directory"), same)
  | Some x, Written => (Ok tt, write x)
  | Some _, NotWritten m => (Err (Fail m), same)
  | Some _, Torn x m => (Err (Fail m), write x)
  end.

Definition install_file (staged : StagedBinary) (dest : string) : eff World unit :=
  let! r := etry (rename_staged staged dest) in
  match r with
  | Ok _ => eret tt
  | Err _ => copy_staged staged (temp_name dest) ;! rename_with fs_call (temp_name dest) dest
  end.

Fixpoint install_all (journal : list SwapEntry) (staged : list StagedBinary) : eff World (list SwapEntry * option string) :=
  match journal, staged with
  | entry :: rest, binary :: staged' =>
      let! r := etry (install_file binary (installed entry)) in
      match r with
      | Err m => eret (journal, Some m)
      | Ok _ =>
          let! (rest', r) := install_all rest staged' in
          eret (MkSwap (installed entry) (backup entry) (had_previous entry) true :: rest', r)
      end
  | _, _ => eret (journal, None)
  end.

Definition restore (entry : SwapEntry) : eff World unit :=
  (if installed_new entry then etry (outcome io_restore ;! on_bin (delete (installed entry))) ;! eret tt else eret tt) ;!
  (if had_previous entry then etry (rename_with (outcome io_restore) (backup entry) (installed entry)) ;! eret tt else eret tt).
Definition rollback (journal : list SwapEntry) : eff World unit := efold (fun _ entry => restore entry) tt (rev journal).

Definition new_journal (staged : list StagedBinary) : list SwapEntry :=
  (fun b => MkSwap (sb_name b) (backup_name (sb_name b)) false false) <$> staged.

Definition swap_binaries (staged : list StagedBinary) : eff World (list SwapEntry) :=
  let! (journal, r) := move_aside (new_journal staged) in
  let! (journal, r) := match r with Some m => eret (journal, Some m) | None => install_all journal staged end in
  match r with
  | None => eret journal
  | Some m => rollback journal ;! ethrow (Fail m)
  end.

(** ** Validation *)

Definition STAMPED_BINARIES : list string := ["dobj"; "dobjd"; "pexe"].

Definition is_whitespace (a : ascii) : bool := bool_decide (a = " "%char) || (9 <=? N_of_ascii a)%N && (N_of_ascii a <=? 13)%N.
Fixpoint tokens_from (l word : list ascii) : list (list ascii) :=
  match l with
  | [] => match word with [] => [] | _ => [rev word] end
  | a :: l' => if is_whitespace a then match word with [] => tokens_from l' [] | _ => rev word :: tokens_from l' [] end
               else tokens_from l' (a :: word)
  end.
(** [str::split_whitespace] of ASCII text. *)
Definition split_whitespace (s : string) : list (list ascii) := tokens_from (los s) [].

Definition version_output_matches (stdout tag : string) : bool := bool_decide (los tag ∈ split_whitespace stdout).

Definition validate_binary (tag : string) (binary : string) : eff World unit :=
  let! w := eget in
  let! content := elift (ok_or (bin w !! binary_name binary) "failed to run --version") in
  let! output := call (run_version content) in
  elift (rensure (vr_success output) "--version failed") ;!
  if bool_decide (binary ∈ STAMPED_BINARIES)
  then elift (rensure (version_output_matches (vr_stdout output) tag) "--version reported another tag")
  else eret tt.

Definition validate_installed (tag : string) : eff World unit :=
  efold (fun _ binary => validate_binary tag binary) tt (flat_map snd ARTIFACTS).

(** ** The update *)

Inductive UpdateResult : Type := Reported (r : CheckReport) | UpToDate | Updated (tag : string).

Definition start_installed : eff World unit :=
  let! w := eget in call (start_binary (bin w !! binary_name "dobjd")).

(** The new daemon did not become healthy: it is stopped, the old one put back. *)
Definition back_out (journal : list SwapEntry) (m : string) : eff World unit :=
  etry (call stop) ;!
  rollback journal ;!
  etry start_installed ;!
  ethrow (Fail m).

Definition restart (journal : list SwapEntry) : eff World unit :=
  let! started := etry start_installed in
  match started with
  | Err m => back_out journal m
  | Ok _ => observe daemon_version ;! eret tt
  end.

Definition swap_and_restart (target_tag : string) (staged : list StagedBinary) (was_running : bool) : eff World UpdateResult :=
  let! journal := swap_binaries staged in
  let! valid := etry (validate_installed target_tag) in
  match valid with
  | Err m =>
      rollback journal ;!
      (if was_running then etry start_installed ;! eret tt else eret tt) ;!
      ethrow (Fail m)
  | Ok _ =>
      (if was_running then restart journal else eret tt) ;!
      etry clear_staging ;!
      eret (Updated target_tag)
  end.

Definition install_release (target_tag : string) : eff World UpdateResult :=
  ensure_managed_install ;!
  let! staged := download_and_stage target_tag in
  let! was_running := observe http_alive in
  (if was_running then call stop else eret tt) ;!
  swap_and_restart target_tag staged was_running.

Definition run (check : bool) (version : option string) (force : bool) : eff World UpdateResult :=
  if check then let! r := report version in eret (Reported r)
  else if decide (CURRENT_TAG = "dev") then ethrow (Fail "this is a dev build; update it by rebuilding, not via dobj update")
  else
    let! target_tag := match version with Some tag => eret tag | None => fetch_latest_tag end in
    elift (validate_release_tag target_tag) ;!
    match compare_tags CURRENT_TAG target_tag, force with
    | Newer, _ | Same, true | Older, true | Unknown, true => install_release target_tag
    | Same, false => eret UpToDate
    | Older, false => ethrow (Fail "older than the installed; pass --force to downgrade")
    | Unknown, false => ethrow (Fail "cannot order; pass --force to install it anyway")
    end.
End Update.
End Update.
