(* ===== verification/UpdateFacts.v ===== *)
(** * An update is all or nothing

    The installed binaries are those of the release, or what they were. *)

From Stdlib Require Import Ascii.
From S2P Require Import Prelude ObjectNames Actions ArchiverStore Update.

Module UpdateFacts.
Import ObjectNames Actions Update.
Import ArchiverStore (WriteOutcome, Written, NotWritten, Torn).

Lemma Forall2_impl_r {A B} (P Q : A -> B -> Prop) l k :
  Forall2 P l k -> (forall x y, y ∈ k -> P x y -> Q x y) -> Forall2 Q l k.
Proof. induction 1 as [|x y l k Hxy _ IH]; intros HQ; constructor; [apply HQ; [by left|done]|]. apply IH. intros a b Hb. apply HQ. by right. Qed.

Section Facts.
Context `{Host} (CURRENT_TAG TARGET_TRIPLE EXE_SUFFIX : string).
Implicit Types (b : Files) (w : World) (e : SwapEntry).

(** ** Calls that do not touch the binaries *)

Definition leaves {A} (c : eff World A) : Prop := forall w, bin (snd (c w)) = bin w.

Lemma leaves_ret {A} (a : A) : leaves (eret a).
Proof. done. Qed.
Lemma leaves_throw {A} f : leaves (ethrow f : eff World A).
Proof. done. Qed.
Lemma leaves_lift {A} (r : Result A) : leaves (elift r).
Proof. by destruct r. Qed.
Lemma leaves_get : leaves eget.
Proof. done. Qed.
Lemma leaves_observe {A} (c : Env -> A * Env) : leaves (observe c).
Proof. intros w. unfold observe. by destruct (c (env w)). Qed.
Lemma leaves_bind {A B} (c : eff World A) (k : A -> eff World B) : leaves c -> (forall a, leaves (k a)) -> leaves (ebind c k).
Proof. intros Hc Hk w. unfold ebind. specialize (Hc w). destruct (c w) as [[a|f] w']; simpl in *; [|done]. by rewrite Hk. Qed.
Lemma leaves_try {A} (c : eff World A) : leaves c -> leaves (etry c).
Proof. intros Hc w. specialize (Hc w). unfold etry. by destruct (c w) as [[a|[m|m]] w']. Qed.
Lemma leaves_fold {A S} (f : S -> A -> eff World S) s l : (forall s a, leaves (f s a)) -> leaves (efold f s l).
Proof. intros Hf. revert s. induction l as [|a l IH]; intros s; [apply leaves_ret|]. simpl. by apply leaves_bind. Qed.
Lemma leaves_staging f : leaves (on_staging f).
Proof. done. Qed.
Lemma leaves_clear : leaves clear_staging.
Proof. intros w. unfold clear_staging. by destruct (io_clear (env w)) as [[[kept m]|] e]. Qed.
Lemma leaves_call {A} (c : Env -> result string A * Env) : leaves (call c).
Proof. apply leaves_bind; [apply leaves_observe|]. intros r. apply leaves_lift. Qed.
Lemma leaves_outcome o : leaves (outcome o).
Proof. apply leaves_bind; [apply leaves_observe|]. by intros [m|]. Qed.
Lemma leaves_fs_call : leaves fs_call.
Proof. apply leaves_outcome. Qed.
Lemma leaves_write_cache c : leaves (write_check_cache c).
Proof. intros w. unfold write_check_cache. by destruct (io_copy (env w)) as [o e]. Qed.

Lemma wp_keeps {A} (c : eff World A) w : leaves c -> wp c (fun _ w' => bin w' = bin w) (fun _ w' => bin w' = bin w) w.
Proof. intros Hc. specialize (Hc w). unfold wp. by destruct (c w) as [[a|f] w']. Qed.

(** ** Rolling back *)

(** The calls of a roll-back succeed. *)
Definition restores : Prop := forall x, fst (io_restore x) = None.

(** What an entry of the journal owns. *)
Definition cells (j : list SwapEntry) : list string := flat_map (fun e => [installed e; backup e]) j.

(** The state before the swap can be had back. *)
Definition undoable b0 b e : Prop :=
  if had_previous e then b !! backup e = b0 !! installed e /\ is_Some (b0 !! installed e)
  else if installed_new e then b0 !! installed e = None else b !! installed e = b0 !! installed e.

Lemma undoable_frame b0 b b' e :
  b' !! installed e = b !! installed e -> b' !! backup e = b !! backup e -> undoable b0 b e -> undoable b0 b' e.
Proof. unfold undoable. intros Hn Ho. by rewrite Hn, Ho. Qed.

Lemma restore_call_spec w : restores -> wp (outcome io_restore) (fun _ w' => bin w' = bin w) (fun _ _ => False) w.
Proof.
  intros Hr. specialize (Hr (env w)). unfold wp, outcome, ebind, observe. destruct (io_restore (env w)) as [o x]. simpl in Hr. by subst o.
Qed.

Lemma restore_spec b0 e w :
  restores -> installed e <> backup e -> undoable b0 (bin w) e ->
  wp (restore e) (fun _ w' => bin w' !! installed e = b0 !! installed e
      /\ forall x, x <> installed e -> x <> backup e -> bin w' !! x = bin w !! x) (fun _ _ => False) w.
Proof.
  intros Hr Hne Hu. unfold restore, undoable in *. apply wp_bind.
  apply (wp_mono _ (fun _ w' => (forall x, x <> installed e -> bin w' !! x = bin w !! x)
    /\ (bin w' !! installed e = if installed_new e then None else bin w !! installed e)) _ (fun _ _ => False)); [|intros [] w1 [Hx Hn]|done].
  - destruct (installed_new e); [|by apply wp_ret]. apply wp_bind, wp_try.
    apply wp_bind. eapply wp_mono; [by apply restore_call_spec| |done]. intros u w1 Hb. unfold wp, on_bin. simpl. rewrite Hb.
    split; [intros x Hx; by rewrite lookup_delete_ne|by rewrite lookup_delete_eq].
  - destruct (had_previous e); [|apply wp_ret; split; [rewrite Hn; by destruct (installed_new e)|intros x Hxn _; by apply Hx]].
    destruct Hu as [Ho [c Hc]]. apply wp_bind, wp_try. unfold rename_with. apply wp_bind.
    eapply wp_mono; [by apply restore_call_spec| |done]. intros u w2 Hb. apply wp_get. rewrite Hb, (Hx (backup e)), Ho, Hc by done.
    unfold wp, on_bin. simpl. rewrite Hb. split; [by rewrite lookup_insert_eq|].
    intros x Hxn Hxo. by rewrite lookup_insert_ne, lookup_delete_ne, Hx by done.
Qed.

Lemma cells_elem j e : e ∈ j -> installed e ∈ cells j /\ backup e ∈ cells j.
Proof. intros Hin. unfold cells. split; apply list_elem_of_In, in_flat_map; exists e; split; [by apply list_elem_of_In|simpl; auto|by apply list_elem_of_In|simpl; auto]. Qed.

Lemma restore_all_spec b0 l w :
  restores -> NoDup (cells l) -> Forall (undoable b0 (bin w)) l ->
  wp (efold (fun _ e => restore e) tt l)
    (fun _ w' => (forall e, e ∈ l -> bin w' !! installed e = b0 !! installed e) /\ forall x, x ∉ cells l -> bin w' !! x = bin w !! x)
    (fun _ _ => False) w.
Proof.
  intros Hr. revert w. induction l as [|e l IH]; intros w Hnd Hall; simpl; [apply wp_ret; split; [by intros e ?%not_elem_of_nil|done]|].
  simpl in Hnd. apply NoDup_cons in Hnd as [Hn Hnd]. apply NoDup_cons in Hnd as [Ho Hnd]. apply not_elem_of_cons in Hn as [Hne Hn].
  apply Forall_cons in Hall as [He Hall]. apply wp_bind. eapply wp_mono; [by apply (restore_spec b0)| |done]. intros [] w1 [Hi Hx].
  eapply wp_mono; [apply IH; [done|]| |done].
  - rewrite Forall_forall in Hall |- *. intros e' Hin. destruct (cells_elem l e' Hin) as [Hi' Ho'].
    eapply undoable_frame; [| |by apply Hall]; apply Hx; congruence.
  - intros [] w2 [Hl Hf]. split.
    + intros e' [->|Hin]%elem_of_cons; [by rewrite (Hf _ Hn)|by apply Hl].
    + intros x Hxc. apply not_elem_of_cons in Hxc as [? Hxc]. apply not_elem_of_cons in Hxc as [? Hxc]. rewrite Hf by done. by apply Hx.
Qed.

Lemma cells_rev j : cells (rev j) ≡ₚ cells j.
Proof. unfold cells. apply Permutation_flat_map. symmetry. apply Permutation_rev. Qed.

Lemma rollback_spec b0 j w :
  restores -> NoDup (cells j) -> Forall (undoable b0 (bin w)) j ->
  wp (rollback j)
    (fun _ w' => (forall e, e ∈ j -> bin w' !! installed e = b0 !! installed e) /\ forall x, x ∉ cells j -> bin w' !! x = bin w !! x)
    (fun _ _ => False) w.
Proof.
  intros Hr Hnd Hall. eapply wp_mono; [apply (restore_all_spec b0); [done|by rewrite cells_rev|by apply Forall_rev]| |done].
  intros [] w' [Hi Hx]. split; [intros e Hin; apply Hi; by rewrite <-Permutation_rev|].
  intros x Hx'. apply Hx. by rewrite cells_rev.
Qed.

(** ** Moving aside *)

Definition fresh_entry e : Prop := had_previous e = false /\ installed_new e = false.
(** Moved aside if there was something. *)
Definition moved b0 b e : Prop :=
  installed_new e = false /\
  if had_previous e then b !! backup e = b0 !! installed e /\ is_Some (b0 !! installed e)
  else b !! installed e = None /\ b0 !! installed e = None.

Lemma moved_undoable b0 b e : moved b0 b e -> undoable b0 b e.
Proof. unfold moved, undoable. intros [-> Hm]. destruct (had_previous e); [done|]. by destruct Hm as [-> ->]. Qed.

Lemma moved_frame b0 b b' e :
  b' !! installed e = b !! installed e -> b' !! backup e = b !! backup e -> moved b0 b e -> moved b0 b' e.
Proof. unfold moved. intros Hn Ho. by rewrite Hn, Ho. Qed.

Lemma fresh_undoable b0 b e : fresh_entry e -> b !! installed e = b0 !! installed e -> undoable b0 b e.
Proof. unfold undoable. by intros [-> ->]. Qed.

Definition same_cells (j j' : list SwapEntry) : Prop := installed <$> j' = installed <$> j /\ backup <$> j' = backup <$> j.

Lemma same_cells_cons e e' j j' :
  same_cells j j' -> installed e' = installed e -> backup e' = backup e -> same_cells (e :: j) (e' :: j').
Proof. intros [Hi Hb] He Ho. split; rewrite !fmap_cons; congruence. Qed.

Lemma same_cells_eq j j' : same_cells j j' -> cells j' = cells j.
Proof.
  revert j. induction j' as [|e' j' IH]; intros [|e j] [Hi Hb]; try done. rewrite !fmap_cons in Hi, Hb. simpl.
  injection Hi as -> Hi. injection Hb as -> Hb. f_equal. f_equal. by apply IH.
Qed.

Lemma rename_spec n o w :
  wp (rename_with fs_call n o) (fun _ w' => is_Some (bin w !! n) /\ bin w' = <[o := default [] (bin w !! n)]> (delete n (bin w)) /\ staging w' = staging w)
    (fun f w' => (exists m, f = Fail m) /\ bin w' = bin w /\ staging w' = staging w) w.
Proof.
  unfold rename_with. apply wp_bind. unfold fs_call, outcome. apply wp_bind. unfold wp at 1, observe. destruct (io (env w)) as [[m|] x]; simpl.
  - unfold wp, ethrow. eauto.
  - apply wp_ret, wp_get. simpl. destruct (bin w !! n) as [c|] eqn:Hn; [unfold wp, on_bin; simpl; eauto|]. unfold wp, ethrow. eauto.
Qed.

Lemma remove_spec n w :
  wp (etry (remove_file n)) (fun _ w' => (forall x, x <> n -> bin w' !! x = bin w !! x) /\ staging w' = staging w) (fun _ _ => False) w.
Proof.
  apply wp_try. unfold remove_file. apply wp_bind. unfold fs_call, outcome. apply wp_bind. unfold wp at 1, observe.
  destruct (io (env w)) as [[m|] x]; simpl; [done|]. apply wp_ret. unfold wp, on_bin. simpl. split; [|done]. intros y Hy. by rewrite lookup_delete_ne.
Qed.

Lemma aside_spec b0 j w :
  NoDup (cells j) -> Forall fresh_entry j -> (forall x, x ∈ cells j -> bin w !! x = b0 !! x) ->
  wp (move_aside j)
    (fun '(j', r) w' => same_cells j j' /\ Forall (undoable b0 (bin w')) j' /\ (r = None -> Forall (moved b0 (bin w')) j')
       /\ (forall x, x ∉ cells j -> bin w' !! x = bin w !! x) /\ staging w' = staging w) (fun _ _ => False) w.
Proof.
  revert w. induction j as [|e j IH]; intros w Hnd Hfr Hag; simpl; [apply wp_ret; by split_and!|].
  simpl in Hnd. apply NoDup_cons in Hnd as [Hn Hnd]. apply NoDup_cons in Hnd as [Ho Hnd]. apply not_elem_of_cons in Hn as [Hne Hn].
  apply Forall_cons in Hfr as [He Hfr]. apply wp_get. case_bool_decide as Hex.
  - apply wp_bind. eapply wp_mono; [apply remove_spec| |done]. intros u w1 [H1 Hst1]. apply wp_bind, wp_try.
    eapply wp_mono; [apply rename_spec| |].
    + intros [] w2 ([c Hc] & H2 & Hst2). rewrite Hc in H2. simpl in H2.
      assert (Hcells : forall x, x <> installed e -> x <> backup e -> bin w2 !! x = bin w !! x).
      { intros x Hx Hx'. rewrite H2, lookup_insert_ne, lookup_delete_ne by done. by apply H1. }
      apply wp_bind. eapply wp_mono; [apply (IH w2); [done|done|]| |done].
      { intros x Hx. rewrite Hcells by congruence. apply Hag. simpl. by do 2 right. }
      intros [j' r] w3 (Hsc & Hu & Hm & Hf & Hst). apply wp_ret.
      assert (Hback : bin w3 !! backup e = b0 !! installed e).
      { rewrite Hf by done. rewrite H2, lookup_insert_eq, <-Hc. rewrite H1 by done. apply Hag. simpl. by left. }
      assert (Hsome : is_Some (b0 !! installed e)) by (by rewrite <-Hag; [|left]).
      split_and!; [by apply same_cells_cons|by constructor| | |congruence].
      * intros Hr. constructor; [|by apply Hm]. destruct He as [_ He]. split; [done|]. done.
      * intros x Hx. apply not_elem_of_cons in Hx as [? Hx]. apply not_elem_of_cons in Hx as [? Hx]. rewrite Hf by done. by apply Hcells.
    + intros f w2 ([m ->] & H2 & Hst2). apply wp_ret. split_and!; [done| |done| |congruence].
      * constructor; [apply fresh_undoable; [done|]; rewrite H2, H1 by done; apply Hag; by left|].
        rewrite Forall_forall in Hfr |- *. intros e' Hin. destruct (cells_elem j e' Hin) as [Hi' Ho'].
        apply fresh_undoable; [by apply Hfr|]. rewrite H2, H1 by congruence. apply Hag. by do 2 right.
      * intros x Hx. apply not_elem_of_cons in Hx as [? Hx]. apply not_elem_of_cons in Hx as [? Hx]. rewrite H2. by apply H1.
  - apply wp_bind. eapply wp_mono; [apply (IH w); [done|done|]| |done].
    { intros x Hx. apply Hag. by do 2 right. }
    intros [j' r] w3 (Hsc & Hu & Hm & Hf & Hst). apply wp_ret.
    assert (Hnone : bin w3 !! installed e = None) by (rewrite Hf by done; by apply eq_None_not_Some).
    assert (H0 : b0 !! installed e = None) by (rewrite <-Hag by (by left); by apply eq_None_not_Some).
    split_and!; [by apply same_cells_cons| | | |done].
    + constructor; [apply fresh_undoable; [done|by rewrite Hnone, H0]|done].
    + intros Hr. constructor; [|by apply Hm]. destruct He as [Hh He]. split; [done|]. by rewrite Hh.
    + intros x Hx. apply not_elem_of_cons in Hx as [? Hx]. apply not_elem_of_cons in Hx as [? Hx]. by apply Hf.
Qed.

(** ** Installing *)

Definition key (s : StagedBinary) : string * string := (sb_artifact s, sb_name s).
Definition source w (s : StagedBinary) : option (list byte) := staged_file w (sb_artifact s) (sb_name s).

Lemma rename_staged_spec s n w :
  wp (rename_staged s n)
    (fun _ w' => is_Some (source w s) /\ bin w' = <[n := default [] (source w s)]> (bin w)
       /\ forall s', key s' <> key s -> source w' s' = source w s')
    (fun f w' => (exists m, f = Fail m) /\ bin w' = bin w /\ forall s', source w' s' = source w s') w.
Proof.
  unfold rename_staged. apply wp_bind. unfold fs_call, outcome. apply wp_bind. unfold wp at 1, observe. destruct (io (env w)) as [[m|] x]; simpl.
  - unfold wp, ethrow. simpl. eauto.
  - apply wp_ret, wp_get. fold (source (MkWorld _ (bin w) (staging w) (check_cache w) x) s).
    change (source (MkWorld _ (bin w) (staging w) (check_cache w) x) s) with (source w s). destruct (source w s) as [c|] eqn:Hs.
    + unfold wp, ebind, on_staging, on_bin. simpl. split_and!; [by eexists|done|]. intros s' Hk. unfold source, staged_file. simpl.
      destruct (staging w) as [files|]; simpl; [|done]. by rewrite lookup_delete_ne by (by intros Hx; apply Hk).
    + unfold wp, ethrow. simpl. eauto.
Qed.

Lemma install_file_spec s n w :
  temp_name n <> n ->
  wp (install_file s n)
    (fun _ w' => is_Some (source w s) /\ bin w' !! n = source w s
       /\ (forall x, x <> n -> x <> temp_name n -> bin w' !! x = bin w !! x) /\ forall s', key s' <> key s -> source w' s' = source w s')
    (fun f w' => (exists m, f = Fail m) /\ forall x, x <> temp_name n -> bin w' !! x = bin w !! x) w.
Proof.
  intros Hne. unfold install_file. apply wp_bind, wp_try. eapply wp_mono; [apply rename_staged_spec| |].
  - intros [] w1 ([c Hc] & Hb & Hs). apply wp_ret. rewrite Hc in Hb. rewrite Hb. split_and!; [by eexists|by rewrite lookup_insert_eq, Hc| |done].
    intros x Hx _. by rewrite lookup_insert_ne.
  - intros f w1 ([m ->] & Hb & Hs). apply wp_bind. unfold wp at 1, copy_staged. destruct (io_copy (env w1)) as [o e].
    fold (source w1 s). rewrite Hs. destruct (source w s) as [c|] eqn:Hc; [|split; [by eexists|]; simpl; by rewrite Hb].
    assert (Hfail : forall y m', (exists m0, Fail m' = Fail m0) /\ forall x, x <> temp_name n -> (<[temp_name n := y]> (bin w1)) !! x = bin w !! x).
    { intros y m'. split; [by eexists|]. intros x Hx. by rewrite lookup_insert_ne, Hb. }
    destruct o as [|m'|y m']; simpl; [|split; [by eexists|]; by rewrite Hb|apply Hfail].
    eapply wp_mono; [apply rename_spec| |].
    + intros [] w2 ([c' Hc'] & Hb2 & Hst). simpl in *. rewrite lookup_insert_eq in Hc', Hb2. simpl in Hb2. rewrite Hb2.
      split_and!; [by eexists|by rewrite lookup_insert_eq| |].
      * intros x Hx Hx'. by rewrite lookup_insert_ne, lookup_delete_ne, lookup_insert_ne, Hb.
      * intros s' _. rewrite <-Hs. unfold source, staged_file. by rewrite Hst.
    + intros f w2 (Hf & Hb2 & _). split; [done|]. intros x Hx. rewrite Hb2. simpl. by rewrite lookup_insert_ne, Hb.
Qed.

(** The temporary names do not collide with anything. *)
Definition temps (j : list SwapEntry) : list string := temp_name <$> (installed <$> j).

Lemma install_all_spec b0 (all : list string) j staged w :
  NoDup (cells j) -> (forall x, x ∈ temps j -> x ∉ all) -> (forall x, x ∈ cells j -> x ∈ all) -> Forall (moved b0 (bin w)) j ->
  length staged = length j -> NoDup (key <$> staged) ->
  wp (install_all j staged)
    (fun '(j', r) w' => same_cells j j' /\ Forall (undoable b0 (bin w')) j'
       /\ (r = None -> Forall2 (fun e s => is_Some (source w s) /\ bin w' !! installed e = source w s) j staged)
       /\ forall x, x ∉ cells j -> x ∉ temps j -> bin w' !! x = bin w !! x) (fun _ _ => False) w.
Proof.
  revert staged w. induction j as [|e j IH]; intros staged w Hnd Ht Hc Hm Hlen Hk; destruct staged as [|s staged]; try done.
  simpl in Hnd. apply NoDup_cons in Hnd as [Hn Hnd]. apply NoDup_cons in Hnd as [Ho Hnd]. apply not_elem_of_cons in Hn as [Hne Hn].
  apply Forall_cons in Hm as [He Hm]. rewrite fmap_cons in Hk. apply NoDup_cons in Hk as [Hk Hks].
  assert (Hall : installed e ∈ all /\ backup e ∈ all) by (split; apply Hc; [by left|right; by left]). destruct Hall as [Hia Hoa].
  assert (Hte : temp_name (installed e) ∉ all) by (apply Ht; unfold temps; rewrite !fmap_cons; by left).
  assert (Hsub : forall x, x ∈ cells j -> x ∈ all) by (intros x Hx; apply Hc; by do 2 right).
  cbn [install_all]. apply wp_bind, wp_try. eapply wp_mono; [apply (install_file_spec s (installed e)); congruence| |].
  - intros [] w1 (Hs & Hb & Hf & Hsrc). apply wp_bind. eapply wp_mono; [apply (IH staged w1); [done| |done| |simpl in Hlen; lia|done]| |done].
    + intros x Hx. apply Ht. unfold temps in *. rewrite !fmap_cons. by right.
    + rewrite Forall_forall in Hm |- *. intros e' Hin. destruct (cells_elem j e' Hin) as [Hi' Ho'].
      eapply moved_frame; [| |by apply Hm]; apply Hf; [congruence| |congruence|]; intros Heq; apply Hte; rewrite <-Heq; by apply Hsub.
    + intros [j' r] w2 (Hsc & Hu & Hr & Hf2). apply wp_ret.
      assert (Hkeep : forall x, x ∈ all -> x ∉ cells j -> bin w2 !! x = bin w1 !! x).
      { intros x Hx Hnx. apply Hf2; [done|]. intros Hin. apply (Ht x); [|done]. unfold temps in *. rewrite !fmap_cons. by right. }
      split_and!; [by apply same_cells_cons| | |].
      * constructor; [|done]. destruct He as [_ He]. unfold undoable. simpl. destruct (had_previous e); [|by destruct He].
        destruct He as [He Hsome]. split; [|done]. rewrite Hkeep by done. rewrite Hf; [done|congruence|]. intros Heq. by apply Hte; rewrite <-Heq.
      * intros Hr'. constructor; [split; [done|]; by rewrite Hkeep|]. specialize (Hr Hr').
        eapply Forall2_impl_r; [exact Hr|]. intros e' s' Hin. cbv beta. rewrite Hsrc; [done|]. intros Heq. apply Hk. rewrite <-Heq. by apply list_elem_of_fmap_2.
      * intros x Hx Hxt. apply not_elem_of_cons in Hx as [? Hx]. apply not_elem_of_cons in Hx as [? Hx]. unfold temps in Hxt. rewrite !fmap_cons in Hxt.
        apply not_elem_of_cons in Hxt as [? Hxt]. rewrite Hf2 by done. by apply Hf.
  - intros f w1 [[m ->] Hf]. apply wp_ret. split_and!; [done| |done|].
    + assert (Hmm : Forall (moved b0 (bin w)) (e :: j)) by (by constructor).
      rewrite Forall_forall in Hmm |- *. intros e' Hin. apply moved_undoable. destruct (cells_elem _ e' Hin) as [Hi' Ho'].
      eapply moved_frame; [| |by apply Hmm]; apply Hf; intros Heq; apply Hte; rewrite <-Heq; by apply Hc.
    + intros x _ Hxt. apply Hf. unfold temps in Hxt. rewrite !fmap_cons in Hxt. by apply not_elem_of_cons in Hxt as [? _].
Qed.

(** ** The swap *)

Definition name_cells (names : list string) : list string := flat_map (fun n => [n; backup_name n]) names.
(** The names of binaries, backups and temporary files do not collide. *)
Definition apart (names : list string) : Prop := NoDup (name_cells names) /\ forall x, x ∈ temp_name <$> names -> x ∉ name_cells names.
(** The files an update may leave beside the binaries. *)
Definition aux (names : list string) : list string := (backup_name <$> names) ++ (temp_name <$> names).

Lemma new_journal_cells staged : cells (new_journal staged) = name_cells (sb_name <$> staged).
Proof. unfold new_journal, cells, name_cells. induction staged as [|s staged IH]; [done|]. rewrite !fmap_cons. simpl. by rewrite IH. Qed.

Lemma new_journal_temps staged : temps (new_journal staged) = temp_name <$> (sb_name <$> staged).
Proof. unfold temps, new_journal. by rewrite <-!list_fmap_compose. Qed.

Lemma new_journal_fresh staged : Forall fresh_entry (new_journal staged).
Proof. unfold new_journal. apply Forall_fmap, Forall_true. by split. Qed.

Lemma same_cells_installed j j' : same_cells j j' -> forall x, x ∈ installed <$> j <-> x ∈ installed <$> j'.
Proof. intros [Hi _] x. by rewrite Hi. Qed.

(** After a roll-back only the files beside the binaries can differ. *)
Lemma rollback_all_spec b0 staged j w :
  restores -> apart (sb_name <$> staged) -> same_cells (new_journal staged) j -> Forall (undoable b0 (bin w)) j ->
  (forall x, x ∉ name_cells (sb_name <$> staged) -> x ∉ temp_name <$> (sb_name <$> staged) -> bin w !! x = b0 !! x) ->
  wp (rollback j) (fun _ w' => forall x, x ∉ aux (sb_name <$> staged) -> bin w' !! x = b0 !! x) (fun _ _ => False) w.
Proof.
  intros Hr [Hnd _] Hsc Hu Hf. pose proof (same_cells_eq _ _ Hsc) as Hc. rewrite new_journal_cells in Hc.
  eapply wp_mono; [apply (rollback_spec b0); [done|by rewrite Hc|done]| |done]. intros [] w' [Hi Hx] x Hxa.
  apply not_elem_of_app in Hxa as [Hb Ht]. destruct (decide (x ∈ sb_name <$> staged)) as [Hin|Hin].
  - assert (Hj : x ∈ installed <$> j).
    { apply (same_cells_installed _ _ Hsc). unfold new_journal. by rewrite <-list_fmap_compose. }
    apply list_elem_of_fmap in Hj as (e & -> & He). by apply Hi.
  - assert (Hnc : x ∉ name_cells (sb_name <$> staged)).
    { intros Hxc. unfold name_cells in Hxc. apply list_elem_of_In, in_flat_map in Hxc as (n & Hn%list_elem_of_In & [Heq|[Heq|[]]]).
      - subst n. done.
      - apply Hb. rewrite <-Heq. by apply list_elem_of_fmap_2. }
    rewrite Hx by (by rewrite Hc). by apply Hf.
Qed.

Lemma swap_spec staged w :
  restores -> apart (sb_name <$> staged) -> NoDup (key <$> staged) ->
  wp (swap_binaries staged)
    (fun j w' => same_cells (new_journal staged) j /\ Forall (undoable (bin w) (bin w')) j
       /\ Forall (fun s => is_Some (source w s) /\ bin w' !! sb_name s = source w s) staged
       /\ forall x, x ∉ name_cells (sb_name <$> staged) -> x ∉ temp_name <$> (sb_name <$> staged) -> bin w' !! x = bin w !! x)
    (fun f w' => (exists m, f = Fail m) /\ forall x, x ∉ aux (sb_name <$> staged) -> bin w' !! x = bin w !! x) w.
Proof.
  intros Hr Hap Hk. pose proof Hap as [Hnd Ht]. unfold swap_binaries. apply wp_bind.
  eapply wp_mono; [apply (aside_spec (bin w)); [by rewrite new_journal_cells|apply new_journal_fresh|done]| |done].
  rewrite new_journal_cells. intros [j r] w1 (Hsc & Hu & Hm & Hf & Hst). apply wp_bind.
  assert (Hsrc : forall s, source w1 s = source w s) by (intros s; unfold source, staged_file; by rewrite Hst).
  pose proof (same_cells_eq _ _ Hsc) as Hc. rewrite new_journal_cells in Hc.
  assert (Hfail : forall j2 m w2, same_cells (new_journal staged) j2 -> Forall (undoable (bin w) (bin w2)) j2 ->
    (forall x, x ∉ name_cells (sb_name <$> staged) -> x ∉ temp_name <$> (sb_name <$> staged) -> bin w2 !! x = bin w !! x) ->
    wp (rollback j2 ;! ethrow (Fail m) : eff World (list SwapEntry)) (fun _ _ => False)
      (fun f w' => (exists m, f = Fail m) /\ forall x, x ∉ aux (sb_name <$> staged) -> bin w' !! x = bin w !! x) w2).
  { intros j2 m w2 Hs2 Hu2 Hf2. apply wp_bind. eapply wp_mono; [by apply (rollback_all_spec (bin w) staged)| |done].
    intros [] w3 Hw3. unfold wp, ethrow. split; [by eexists|done]. }
  destruct r as [m|].
  - apply wp_ret. eapply wp_mono; [apply Hfail; [done|done|]|done|done]. intros x Hx _. by apply Hf.
  - assert (Htj : temps j = temp_name <$> (sb_name <$> staged)).
    { unfold temps. destruct Hsc as [-> _]. unfold new_journal. by rewrite <-!list_fmap_compose. }
    assert (Hlen : length staged = length j).
    { destruct Hsc as [Hi _]. apply (f_equal length) in Hi. rewrite !length_fmap in Hi. unfold new_journal in Hi. by rewrite length_fmap in Hi. }
    eapply wp_mono; [apply (install_all_spec (bin w) (cells j) j staged); [by rewrite Hc|rewrite Htj, Hc; done|done|by apply Hm|done|done]| |done].
    intros [j2 r2] w2 (Hsc2 & Hu2 & Hr2 & Hf2). rewrite Htj, Hc in Hf2.
    assert (Hsc' : same_cells (new_journal staged) j2) by (destruct Hsc as [? ?], Hsc2 as [? ?]; split; congruence).
    assert (Hframe : forall x, x ∉ name_cells (sb_name <$> staged) -> x ∉ temp_name <$> (sb_name <$> staged) -> bin w2 !! x = bin w !! x).
    { intros x Hx Hx'. rewrite Hf2 by done. by apply Hf. }
    destruct r2 as [m|]; [eapply wp_mono; [by apply Hfail|done|done]|]. apply wp_ret. split_and!; try done.
    specialize (Hr2 eq_refl). destruct Hsc as [Hi _]. unfold new_journal in Hi. rewrite <-list_fmap_compose in Hi. simpl in Hi.
    apply Forall_lookup_2. intros i s Hs. destruct (Forall2_lookup_r _ _ _ _ _ Hr2 Hs) as (e & He & Hsome & Hb).
    rewrite Hsrc in Hsome, Hb. split; [done|]. replace (sb_name s) with (installed e); [done|].
    apply (f_equal (fun l => l !! i)) in Hi. rewrite !list_lookup_fmap, He, Hs in Hi. by injection Hi.
Qed.

(** ** Staging *)

(** What the release host served, and what of it a file is. *)
Definition fetched (url : string) (bytes : list byte) : Prop :=
  exists x status location x', http_get url x = (Answered status location (Some bytes), x') /\ (200 <= status < 300)%Z.
Definition released (tag artifact name : string) (content : list byte) : Prop :=
  exists bytes files, fetched (artifact_url TARGET_TRIPLE tag artifact) bytes /\ unpack bytes = Ok files /\ files !! name = Some content.

(** The binaries and the staging directory stay. *)
Definition same_files w w' : Prop := bin w' = bin w /\ staging w' = staging w.
(** A call that fails with an error and leaves the binaries. *)
Definition fails_kept w (f : failure) w' : Prop := (exists m, f = Fail m) /\ bin w' = bin w.

Lemma download_attempts_spec n url m w :
  wp (download_attempts n url m) (fun bytes w' => same_files w w' /\ fetched url bytes) (fails_kept w) w.
Proof.
  revert m w. induction n as [|n IH]; intros m w; simpl; [unfold wp, ethrow; split; [by eexists|done]|].
  apply wp_bind. unfold attempt_download. apply wp_bind. unfold wp at 1, observe. destruct (http_get url (env w)) as [res x] eqn:Hg.
  set (w1 := MkWorld _ (bin w) (staging w) (check_cache w) x).
  assert (Hagain : forall m', wp (download_attempts n url m') (fun bytes w' => same_files w w' /\ fetched url bytes) (fails_kept w) w1) by (intros m'; exact (IH m' w1)).
  apply wp_ret. destruct res as [m'|status location body]; [apply Hagain|].
  destruct (_ && _) eqn:Hclient; [unfold wp, ethrow; split; [by eexists|done]|].
  destruct (negb _) eqn:Hok; [apply Hagain|]. destruct body as [bytes|]; [|apply Hagain]. apply wp_ret. split; [done|].
  exists (env w), status, location, x. split; [done|]. apply negb_false_iff, andb_true_iff in Hok as [?%Z.leb_le ?%Z.ltb_lt]. lia.
Qed.

Lemma fs_call_spec w : wp fs_call (fun _ w' => same_files w w') (fails_kept w) w.
Proof.
  unfold fs_call, outcome. apply wp_bind. unfold wp at 1, observe. destruct (io (env w)) as [[m|] x]; simpl.
  - unfold wp, ethrow. split; [by eexists|done].
  - by apply wp_ret.
Qed.

Lemma extract_spec artifact bytes w :
  wp (extract_artifact artifact bytes)
    (fun _ w' => bin w' = bin w /\ exists files, unpack bytes = Ok files
       /\ staging w' = Some (kmap (pair artifact) files ∪ default ∅ (staging w))) (fails_kept w) w.
Proof.
  unfold extract_artifact. apply wp_bind. destruct (unpack bytes) as [files|m] eqn:Hu; simpl; [|unfold wp; simpl; split; [by eexists|done]].
  unfold wp at 1, elift. unfold wp. destruct (io_extract (env w)) as [[[names m]|] x]; simpl; [split; [by eexists|done]|]. eauto.
Qed.

Lemma staged_after a files old a' n :
  (kmap (pair a) files ∪ old : gmap (string * string) (list byte)) !! (a', n)
  = if decide (a' = a) then match files !! n with Some c => Some c | None => old !! (a, n) end else old !! (a', n).
Proof.
  case_decide as Ha.
  - subst a'. rewrite lookup_union, lookup_kmap by apply _. by destruct (files !! n), (old !! (a, n)).
  - rewrite lookup_union_r; [done|]. apply lookup_kmap_None; [apply _|]. intros i [= Heq _]. congruence.
Qed.

(** The binaries staged so far, of the artifacts [arts]. *)
Definition expected (arts : list (string * list string)) : list (string * string) :=
  flat_map (fun a => (fun x => (fst a, binary_name EXE_SUFFIX x)) <$> snd a) arts.
Record staged_so_far (tag : string) (arts : list (string * list string)) (staged : list StagedBinary) w : Prop := {
  ss_keys : key <$> staged = expected arts;
  ss_source s : s ∈ staged -> exists c, source w s = Some c /\ released tag (sb_artifact s) (sb_name s) c;
  ss_known a n : is_Some (staged_file w a n) -> a ∈ arts.*1;
}.

Lemma expected_snoc arts a bs : expected (arts ++ [(a, bs)]) = expected arts ++ ((fun x => (a, binary_name EXE_SUFFIX x)) <$> bs).
Proof. unfold expected. rewrite flat_map_app. simpl. by rewrite app_nil_r. Qed.

(** While the binaries of an extracted artifact are collected. *)
Lemma stage_binary_spec tag a (files : Files) staged x w :
  (forall n c, files !! n = Some c -> released tag a n c) ->
  (forall n, staged_file w a n = files !! n) ->
  (forall s, s ∈ staged -> exists c, source w s = Some c /\ released tag (sb_artifact s) (sb_name s) c) ->
  wp (stage_binary EXE_SUFFIX a staged x)
    (fun staged' w' => same_files w w' /\ key <$> staged' = (key <$> staged) ++ [(a, binary_name EXE_SUFFIX x)]
       /\ forall s, s ∈ staged' -> exists c, source w' s = Some c /\ released tag (sb_artifact s) (sb_name s) c) (fails_kept w) w.
Proof.
  intros Hrel Hfile Hs. unfold stage_binary. apply wp_get, wp_bind. case_bool_decide as Hsome; [|unfold wp; simpl; split; [by eexists|done]].
  simpl. unfold wp at 1, elift. apply wp_bind. eapply wp_mono; [apply fs_call_spec| |done]. intros u w1 [Hb Hst]. apply wp_ret.
  assert (Hsrc : forall s, source w1 s = source w s) by (intros s; unfold source, staged_file; by rewrite Hst).
  split_and!; [done|by rewrite fmap_app|]. intros s [Hin| ->%list_elem_of_singleton]%elem_of_app; rewrite Hsrc; [by apply Hs|].
  destruct Hsome as [c Hc]. exists c. unfold source. simpl. split; [done|]. apply Hrel. by rewrite <-Hfile.
Qed.

Lemma stage_binaries_spec tag a (files : Files) bs staged w :
  (forall n c, files !! n = Some c -> released tag a n c) ->
  (forall n, staged_file w a n = files !! n) ->
  (forall s, s ∈ staged -> exists c, source w s = Some c /\ released tag (sb_artifact s) (sb_name s) c) ->
  wp (efold (stage_binary EXE_SUFFIX a) staged bs)
    (fun staged' w' => same_files w w' /\ key <$> staged' = (key <$> staged) ++ ((fun x => (a, binary_name EXE_SUFFIX x)) <$> bs)
       /\ forall s, s ∈ staged' -> exists c, source w' s = Some c /\ released tag (sb_artifact s) (sb_name s) c) (fails_kept w) w.
Proof.
  intros Hrel. revert staged w. induction bs as [|x bs IH]; intros staged w Hfile Hs; simpl.
  { apply wp_ret. split_and!; [done|by rewrite app_nil_r|done]. }
  apply wp_bind. eapply wp_mono; [by apply (stage_binary_spec tag a files)| |done]. intros staged1 w1 ([Hb Hst] & Hk & Hs1).
  eapply wp_mono; [apply (IH staged1 w1)| |].
  - intros n. unfold staged_file. rewrite Hst. apply Hfile.
  - done.
  - intros staged2 w2 ([Hb2 Hst2] & Hk2 & Hs2). split_and!; [split; congruence| |done]. rewrite Hk2, Hk. by rewrite <-(assoc_L (++)).
  - intros f w2 [Hf Hb2]. split; [done|]. congruence.
Qed.

Lemma stage_artifact_spec tag arts a bs staged w :
  a ∉ arts.*1 -> staged_so_far tag arts staged w ->
  wp (stage_artifact TARGET_TRIPLE EXE_SUFFIX tag staged (a, bs))
    (fun staged' w' => bin w' = bin w /\ staged_so_far tag (arts ++ [(a, bs)]) staged' w') (fails_kept w) w.
Proof.
  intros Hnew [Hk Hs Hkn]. unfold stage_artifact. apply wp_bind.
  eapply wp_mono; [apply download_attempts_spec| |done]. intros bytes w1 [[Hb1 Hst1] Hfe].
  apply wp_bind, wp_lift; [|intros f Hf; split; [|done]; unfold verify_artifact, rensure in Hf; destruct (negb _); [done|]; injection Hf as <-; by eexists].
  intros u _. apply wp_bind. eapply wp_mono; [apply fs_call_spec| |intros f w2 [Hf Hb2]; split; [done|congruence]]. intros u' w2 [Hb2 Hst2].
  apply wp_bind. unfold wp at 1, on_staging. simpl. set (w3 := MkWorld _ _ _ _ _). apply wp_bind.
  eapply wp_mono; [apply extract_spec| |intros f w4 [Hf Hb4]; split; [done|]; rewrite Hb4; simpl; congruence].
  intros u'' w4 [Hb4 (files & Hu & Hst4)].
  assert (Hfile : forall a' n, staged_file w4 a' n = if decide (a' = a) then files !! n else staged_file w a' n).
  { intros a' n. unfold staged_file. rewrite Hst4. simpl. rewrite staged_after, Hst2, Hst1.
    assert (Hold : forall a' n, default ∅ (staging w) !! (a', n) = staged_file w a' n) by (intros ? ?; unfold staged_file; by destruct (staging w); simpl; rewrite ?lookup_empty).
    case_decide; [|apply Hold]. subst a'. destruct (files !! n); [done|]. rewrite Hold. apply eq_None_not_Some. intros Hx. by apply Hnew, (Hkn a n). }
  eapply wp_mono; [apply (stage_binaries_spec tag a files bs staged w4)| |].
  - intros n c Hc. exists bytes, files. done.
  - intros n. by rewrite Hfile, decide_True.
  - intros s Hin. destruct (Hs s Hin) as (c & Hc & Hr). exists c. split; [|done]. unfold source. rewrite Hfile, decide_False; [done|].
    intros Heq. apply Hnew. rewrite <-Heq. apply (Hkn _ (sb_name s)). unfold source in Hc. by rewrite Hc.
  - intros staged' w5 ([Hb5 Hst5] & Hk5 & Hs5). split; [rewrite Hb5, Hb4; simpl; congruence|]. split.
    + by rewrite Hk5, Hk, expected_snoc.
    + done.
    + intros a' n. unfold staged_file. rewrite Hst5. change (is_Some (staged_file w4 a' n) -> a' ∈ (arts ++ [(a, bs)]).*1). rewrite Hfile, fmap_app.
      case_decide; [intros _; subst; apply elem_of_app; right; by left|]. intros Hx. apply elem_of_app. left. by eapply Hkn.
  - intros f w5 [Hf Hb5]. split; [done|]. rewrite Hb5, Hb4. simpl. congruence.
Qed.

Lemma stage_artifacts_spec tag arts rest staged w :
  NoDup (arts ++ rest).*1 -> staged_so_far tag arts staged w ->
  wp (efold (stage_artifact TARGET_TRIPLE EXE_SUFFIX tag) staged rest)
    (fun staged' w' => bin w' = bin w /\ staged_so_far tag (arts ++ rest) staged' w') (fails_kept w) w.
Proof.
  revert arts staged w. induction rest as [|[a bs] rest IH]; intros arts staged w Hnd Hs; simpl; [apply wp_ret; by rewrite app_nil_r|].
  assert (Hnd' := Hnd). rewrite fmap_app, fmap_cons in Hnd. apply NoDup_app in Hnd as (_ & Hnd & _). apply wp_bind.
  eapply wp_mono; [apply (stage_artifact_spec tag arts); [|done]| |done].
  - intros Hin. apply (Hnd a Hin). by left.
  - intros staged1 w1 [Hb1 Hs1]. replace (arts ++ (a, bs) :: rest) with ((arts ++ [(a, bs)]) ++ rest) in * by (by rewrite <-(assoc_L (++))).
    eapply wp_mono; [by apply IH| |].
    + intros staged2 w2 [Hb2 Hs2]. split; [congruence|done].
    + intros f w2 [Hf Hb2]. split; [done|congruence].
Qed.

Lemma download_and_stage_spec tag w :
  wp (download_and_stage TARGET_TRIPLE EXE_SUFFIX tag)
    (fun staged w' => bin w' = bin w /\ staged_so_far tag ARTIFACTS staged w') (fails_kept w) w.
Proof.
  unfold download_and_stage. apply wp_get, wp_bind.
  apply (wp_mono _ (fun _ w' => bin w' = bin w /\ staging w' = None) _ (fails_kept w)); [| |done].
  - case_decide; [by apply wp_ret|]. unfold wp, clear_staging. destruct (io_clear (env w)) as [[[kept m]|] x]; simpl; [split; [by eexists|done]|done].
  - intros [] w1 [Hb1 Hst1]. eapply wp_mono; [apply (stage_artifacts_spec tag [] ARTIFACTS [] w1)| |].
    + apply (bool_decide_unpack _). vm_compute. exact I.
    + split; [done|by intros s ?%not_elem_of_nil|]. intros a n. unfold staged_file. rewrite Hst1. simpl. by intros [].
    + intros staged w2 [Hb2 Hs2]. split; [congruence|done].
    + intros f w2 [Hf Hb2]. split; [done|congruence].
Qed.
End Facts.

Create HintDb update.
#[export] Hint Resolve leaves_ret leaves_throw leaves_lift leaves_get leaves_observe leaves_call leaves_fs_call leaves_try leaves_fold leaves_staging leaves_clear leaves_write_cache : update.
End UpdateFacts.
