(* ===== verification/UpdateAtomic.v ===== *)
(** * The claims about updates

    An update is all or nothing, and its tag cannot lead out of the staging
    directory. *)

From Stdlib Require Import Ascii.
From S2P Require Import Prelude ObjectNames Actions ArchiverStore Update UpdateFacts.

Module UpdateAtomic.
Import ObjectNames Actions Update UpdateFacts.

Section Atomic.
Context `{Host} (CURRENT_TAG TARGET_TRIPLE EXE_SUFFIX : string).
Implicit Types (w : World).

(** ** Names *)

Definition suffix_ok : Prop := EXE_SUFFIX = EmptyString \/ EXE_SUFFIX = ".exe"%string.
Definition binaries : list string := binary_name EXE_SUFFIX <$> flat_map snd ARTIFACTS.

Lemma binaries_apart : suffix_ok -> apart binaries.
Proof.
  intros Hs. assert (Hf : Forall (fun x => x ∉ name_cells binaries) (temp_name <$> binaries) /\ NoDup (name_cells binaries)).
  { unfold binaries. destruct Hs as [-> | ->]; (split; apply (bool_decide_unpack _); vm_compute; exact I). }
  destruct Hf as [Hf Hnd]. split; [done|]. by apply Forall_forall.
Qed.

Lemma expected_names : snd <$> expected EXE_SUFFIX ARTIFACTS = binaries.
Proof. reflexivity. Qed.

Lemma expected_nodup : suffix_ok -> NoDup (expected EXE_SUFFIX ARTIFACTS).
Proof. intros [-> | ->]; apply (bool_decide_unpack _); vm_compute; exact I. Qed.

(** ** Validation *)

(** A binary ran, and told the tag if it is stamped. *)
Definition validated (tag binary : string) (content : list byte) : Prop :=
  exists x out x', run_version content x = (Ok out, x') /\ vr_success out = true
    /\ (binary ∈ STAMPED_BINARIES -> version_output_matches (vr_stdout out) tag = true).

Lemma wp_call {A} (c : Env -> result string A * Env) w :
  wp (call c) (fun a w' => same_files w w' /\ exists x', c (env w) = (Ok a, x')) (fails_kept w) w.
Proof.
  unfold call. apply wp_bind. unfold wp at 1, observe. destruct (c (env w)) as [[a|m] x']; simpl; unfold wp; simpl; [split; [done|eauto]|].
  split; [by eexists|done].
Qed.

Lemma validate_binary_spec tag x w :
  wp (validate_binary EXE_SUFFIX tag x)
    (fun _ w' => bin w' = bin w /\ exists c, bin w !! binary_name EXE_SUFFIX x = Some c /\ validated tag x c) (fails_kept w) w.
Proof.
  assert (Hfail : forall A (Q : A -> World -> Prop) w1 m, bin w1 = bin w -> wp (elift (Err (Fail m))) Q (fails_kept w) w1).
  { intros A Q w1 m Hb. unfold wp, elift. split; [by eexists|done]. }
  unfold validate_binary. apply wp_get, wp_bind. destruct (bin w !! binary_name EXE_SUFFIX x) as [c|] eqn:Hc; simpl;
    [|by apply Hfail].
  unfold wp at 1, elift. apply wp_bind. eapply wp_mono; [apply wp_call| |done]. intros out w1 [[Hb _] [x' Hx]]. apply wp_bind.
  destruct (vr_success out) eqn:Hok; simpl; [|by apply Hfail]. unfold wp at 1, elift.
  case_bool_decide as Hst.
  - destruct (version_output_matches (vr_stdout out) tag) eqn:Hv; simpl; [|by apply Hfail].
    unfold wp, elift. split; [done|]. exists c. split; [done|]. exists (env w), out, x'. done.
  - apply wp_ret. split; [done|]. exists c. split; [done|]. exists (env w), out, x'. done.
Qed.

Lemma validate_installed_spec tag w :
  wp (validate_installed EXE_SUFFIX tag)
    (fun _ w' => bin w' = bin w /\ forall x, x ∈ flat_map snd ARTIFACTS -> exists c, bin w !! binary_name EXE_SUFFIX x = Some c /\ validated tag x c)
    (fails_kept w) w.
Proof.
  unfold validate_installed. generalize (flat_map snd ARTIFACTS). intros l. revert w. induction l as [|x l IH]; intros w; simpl.
  { apply wp_ret. split; [done|]. by intros x ?%not_elem_of_nil. }
  apply wp_bind. eapply wp_mono; [apply validate_binary_spec| |done]. intros [] w1 [Hb Hx]. eapply wp_mono; [apply IH| |].
  - intros u' w2 [Hb2 Hl]. rewrite Hb in Hb2, Hl. split; [done|]. intros y [->|Hy]%elem_of_cons; auto.
  - intros f w2 [Hf Hb2]. split; [done|]. congruence.
Qed.

(** ** The update *)

Definition unchanged w w' : Prop := forall x, x ∉ aux binaries -> bin w' !! x = bin w !! x.
(** All binaries are those of the release, and were seen to run. *)
Definition replaced (tag : string) w w' : Prop :=
  (forall a bs x, (a, bs) ∈ ARTIFACTS -> x ∈ bs -> exists c, bin w' !! binary_name EXE_SUFFIX x = Some c
     /\ released TARGET_TRIPLE tag a (binary_name EXE_SUFFIX x) c /\ validated tag x c)
  /\ forall x, x ∉ name_cells binaries -> x ∉ temp_name <$> binaries -> bin w' !! x = bin w !! x.

Lemma unchanged_kept w w' : bin w' = bin w -> unchanged w w'.
Proof. intros Hb x _. by rewrite Hb. Qed.

Lemma leaves_start : leaves (start_installed EXE_SUFFIX).
Proof. unfold start_installed. apply leaves_bind; [done|]. intros w. apply leaves_call. Qed.

Lemma swapped_release tag staged w0 w1 w2 :
  staged_so_far TARGET_TRIPLE EXE_SUFFIX tag ARTIFACTS staged w1 ->
  Forall (fun s => is_Some (source w1 s) /\ bin w2 !! sb_name s = source w1 s) staged ->
  (forall x, x ∈ flat_map snd ARTIFACTS -> exists c, bin w2 !! binary_name EXE_SUFFIX x = Some c /\ validated tag x c) ->
  (forall x, x ∉ name_cells binaries -> x ∉ temp_name <$> binaries -> bin w2 !! x = bin w0 !! x) -> replaced tag w0 w2.
Proof.
  intros [Hk Hs _] Hall Hval Hf. split; [|done]. intros a bs x Ha Hx.
  assert (Hx' : x ∈ flat_map snd ARTIFACTS) by (apply list_elem_of_In, in_flat_map; exists (a, bs); split; by apply list_elem_of_In).
  assert (Hin : (a, binary_name EXE_SUFFIX x) ∈ key <$> staged).
  { rewrite Hk. unfold expected. apply list_elem_of_In, in_flat_map. exists (a, bs). split; [by apply list_elem_of_In|]. simpl.
    apply list_elem_of_In. by apply (list_elem_of_fmap_2 (fun x => (a, binary_name EXE_SUFFIX x))). }
  apply list_elem_of_fmap in Hin as (s & Hkey & Hin). injection Hkey as Hka Hkn. destruct (Hs s Hin) as (c & Hc & Hr).
  rewrite Forall_forall in Hall. destruct (Hall s Hin) as [_ Hb]. destruct (Hval x Hx') as (c' & Hc' & Hv). rewrite Hc, <-Hkn, Hc' in Hb. injection Hb as ->.
  exists c. split_and!; [done|by rewrite Hka, Hkn|done].
Qed.

Lemma wp_quiet {A} (c : eff World A) (Q : A -> World -> Prop) (E : failure -> World -> Prop) w :
  leaves c -> (forall a w', bin w' = bin w -> Q a w') -> (forall f w', bin w' = bin w -> E f w') -> wp c Q E w.
Proof. intros Hk HQ HE. eapply wp_mono; [by apply wp_keeps|done|done]. Qed.

(** A call whose error is caught does not panic. *)
Lemma wp_try_quiet {A} (c : eff World A) (Q : result string A -> World -> Prop) (E : failure -> World -> Prop) w :
  leaves c -> (forall w' m, snd (c w) = w' -> fst (c w) <> Err (Panic m)) -> (forall r w', bin w' = bin w -> Q r w') -> wp (etry c) Q E w.
Proof.
  intros Hk Hp HQ. apply wp_try. specialize (Hk w). unfold wp. destruct (c w) as [[a|[m|m]] w'] eqn:Hc; simpl in *; [by apply HQ|by apply HQ|].
  by destruct (Hp w' m eq_refl).
Qed.

Definition update_fails w (f : failure) w' : Prop := (exists m, f = Fail m) /\ unchanged w w'.

Lemma call_no_panic {A} (c : Env -> result string A * Env) w m : fst (call c w) <> Err (Panic m).
Proof. unfold call, ebind, observe. by destruct (c (env w)) as [[a|m'] x]. Qed.

Lemma start_no_panic w m : fst (start_installed EXE_SUFFIX w) <> Err (Panic m).
Proof. unfold start_installed, ebind, eget. apply call_no_panic. Qed.

Section Swapped.
Context (tag : string) (staged : list StagedBinary) (w0 : World).
Context (Hr : restores) (Hsuf : suffix_ok) (Hnames : sb_name <$> staged = binaries) (Hnd : NoDup (key <$> staged)).

(** The journal can undo the swap. *)
Definition can_undo (j : list SwapEntry) w : Prop :=
  same_cells (new_journal staged) j /\ Forall (undoable (bin w0) (bin w)) j
  /\ forall x, x ∉ name_cells binaries -> x ∉ temp_name <$> binaries -> bin w !! x = bin w0 !! x.

Lemma can_undo_kept j w w' : bin w' = bin w -> can_undo j w -> can_undo j w'.
Proof. unfold can_undo. by intros ->. Qed.

Lemma undo_spec j w : can_undo j w -> wp (rollback j) (fun _ w' => unchanged w0 w') (fun _ _ => False) w.
Proof.
  intros (Hsc & Hu & Hf). unfold unchanged. rewrite <-Hnames in *. apply (rollback_all_spec (bin w0) staged); try done.
  rewrite Hnames. by apply binaries_apart.
Qed.

Lemma unchanged_after w w' : bin w' = bin w -> unchanged w0 w -> unchanged w0 w'.
Proof. unfold unchanged. by intros ->. Qed.

Lemma restart_spec j w :
  can_undo j w -> wp (restart EXE_SUFFIX j) (fun _ w' => bin w' = bin w) (update_fails w0) w.
Proof.
  intros Hj. unfold restart. apply wp_bind, wp_try_quiet; [apply leaves_start|intros w' m _; apply start_no_panic|].
  intros [[]|m] w1 Hb1.
  - unfold wp, ebind, observe. by destruct (daemon_version (env w1)) as [v x].
  - unfold back_out. apply wp_bind, wp_try_quiet; [apply leaves_call|intros w' m' _; apply call_no_panic|]. intros r2 w2 Hb2.
    apply wp_bind. eapply wp_mono; [apply undo_spec; eapply can_undo_kept; [|exact Hj]; congruence| |done]. intros [] w3 Hw3.
    apply wp_bind, wp_try_quiet; [apply leaves_start|intros w' m' _; apply start_no_panic|]. intros r4 w4 Hb4. unfold wp, ethrow.
    split; [by eexists|]. by eapply unchanged_after.
Qed.

Lemma clear_no_panic w m : fst (clear_staging w) <> Err (Panic m).
Proof. unfold clear_staging. by destruct (io_clear (env w)) as [[[kept m']|] x]. Qed.

Lemma swap_and_restart_spec was_running w :
  bin w = bin w0 -> staged_so_far TARGET_TRIPLE EXE_SUFFIX tag ARTIFACTS staged w ->
  wp (swap_and_restart EXE_SUFFIX tag staged was_running) (fun o w' => o = Updated tag /\ replaced tag w0 w') (update_fails w0) w.
Proof.
  intros Hw Hst. unfold swap_and_restart. apply wp_bind.
  eapply wp_mono; [apply swap_spec; [done|rewrite Hnames; by apply binaries_apart|done]| |].
  2: { intros f w1 [Hf Hx]. split; [done|]. unfold unchanged. by rewrite Hnames, Hw in Hx. }
  rewrite Hnames, Hw. intros j w1 (Hsc & Hu & Hall & Hf). assert (Hj : can_undo j w1) by done.
  apply wp_bind, wp_try. eapply wp_mono; [apply validate_installed_spec| |].
  - intros [] w2 [Hb2 Hval]. apply wp_bind.
    apply (wp_mono _ (fun _ w' => bin w' = bin w1) _ (update_fails w0)); [| |done].
    + destruct was_running; [|by apply wp_ret]. eapply wp_mono; [apply restart_spec; by eapply can_undo_kept| |done]. intros [] w3 Hb3. congruence.
    + intros [] w3 Hb3. apply wp_bind, wp_try_quiet; [apply leaves_clear|intros w' m _; apply clear_no_panic|]. intros r4 w4 Hb4.
      apply wp_ret. split; [done|]. assert (Hb : bin w4 = bin w1) by congruence.
      eapply (swapped_release tag staged w0 w w4); [done|by rewrite Hb|by rewrite Hb|by rewrite Hb].
  - intros f w2 [[m ->] Hb2]. apply wp_bind. eapply wp_mono; [apply undo_spec; by eapply can_undo_kept| |done]. intros [] w3 Hw3. apply wp_bind.
    apply (wp_mono _ (fun _ w' => bin w' = bin w3) _ (fun _ _ => False)); [| |done].
    + destruct was_running; [|by apply wp_ret]. apply wp_bind, wp_try_quiet; [apply leaves_start|intros w' m' _; apply start_no_panic|]. by intros r w4 Hb4.
    + intros [] w4 Hb4. unfold wp, ethrow. split; [by eexists|]. by eapply unchanged_after.
Qed.
End Swapped.

Lemma install_release_spec tag w :
  restores -> suffix_ok ->
  wp (install_release TARGET_TRIPLE EXE_SUFFIX tag) (fun o w' => o = Updated tag /\ replaced tag w w') (update_fails w) w.
Proof.
  intros Hr Hsuf. assert (Hkept : forall w1 f w', bin w1 = bin w -> fails_kept w1 f w' -> update_fails w f w').
  { intros w1 f w' Hb1 [Hf Hb]. split; [done|]. apply unchanged_kept. congruence. }
  unfold install_release, ensure_managed_install. apply wp_bind, wp_bind.
  eapply wp_mono; [apply wp_call| |intros f w'; by apply Hkept]. intros b w1 [[Hb1 _] _]. apply wp_bind.
  eapply wp_mono; [apply wp_call| |intros f w'; by apply Hkept]. intros exe w2 [[Hb2 _] _]. assert (Hw2 : bin w2 = bin w) by congruence.
  apply wp_lift; [|intros f Hf; apply (Hkept w2); [done|]; split; [|done]; unfold rensure in Hf; case_bool_decide; [done|]; injection Hf as <-; by eexists].
  intros [] _. apply wp_bind. eapply wp_mono; [apply download_and_stage_spec| |intros f w'; by apply Hkept].
  intros staged w3 [Hb3 Hst3]. assert (Hw3 : bin w3 = bin w) by congruence. apply wp_bind.
  unfold wp at 1, observe. destruct (http_alive (env w3)) as [was_running x]. set (w4 := MkWorld _ _ _ _ x). apply wp_bind.
  apply (wp_mono _ (fun _ w' => same_files w4 w') _ (update_fails w)); [| |done].
  { destruct was_running; [|by apply wp_ret]. eapply wp_mono; [apply wp_call|by intros a w' [? _]|intros f w'; by apply Hkept]. }
  intros [] w5 [Hb5 Hst5]. apply swap_and_restart_spec; [done|done|..].
  - rewrite <-expected_names, <-(ss_keys _ _ _ _ _ _ Hst3), <-list_fmap_compose. done.
  - rewrite (ss_keys _ _ _ _ _ _ Hst3). by apply expected_nodup.
  - rewrite Hb5. done.
  - destruct Hst3 as [Hk Hs Hkn]. split; [done|..]; unfold source, staged_file in *; rewrite Hst5; done.
Qed.

(** ** Requests that change nothing *)

Lemma leaves_fetch : leaves fetch_latest_tag.
Proof.
  unfold fetch_latest_tag. apply leaves_bind; [apply leaves_observe|]. intros [m|status location body]; [done|].
  destruct (_ && _); [|done]. apply leaves_bind; [apply leaves_lift|]. intros l. apply leaves_lift.
Qed.

Lemma fetch_no_panic w m : fst (fetch_latest_tag w) <> Err (Panic m).
Proof.
  unfold fetch_latest_tag, ebind, observe. destruct (http_get _ (env w)) as [[m'|status location body] x]; [done|]. destruct (_ && _); [|done].
  unfold elift. destruct location as [l|]; [|done]. simpl. unfold parse_tag_from_location. by case_bool_decide.
Qed.

Lemma report_spec version w : wp (report CURRENT_TAG version) (fun _ w' => bin w' = bin w) (fun _ _ => False) w.
Proof.
  unfold report. apply wp_bind. unfold wp at 1, observe. destruct (daemon_version (env w)) as [v x]. set (w1 := MkWorld _ _ _ _ x).
  apply wp_bind. apply (wp_mono _ (fun _ w' => bin w' = bin w) _ (fun _ _ => False)); [|by intros a w2 Hb2; apply wp_ret|done].
  destruct version as [tag|]; [by apply wp_ret|]. unfold resolve_latest_cached. apply wp_bind. unfold wp at 1, observe.
  destruct (unix_now (env w1)) as [now x2]. set (w2 := MkWorld _ _ _ _ x2). apply wp_bind.
  assert (Hfs : forall w' m, fst (fs_call w') <> Err (Panic m)).
  { intros w' m. unfold fs_call, outcome, ebind, observe. by destruct (io (env w')) as [[m'|] y]. }
  unfold read_check_cache. apply wp_bind, wp_try_quiet; [apply leaves_fs_call|by intros; apply Hfs|]. intros r w3 Hb3. apply wp_get, wp_ret. simpl.
  set (cached := match r with Ok _ => check_cache w3 | Err _ => None end).
  apply wp_bind, wp_try_quiet; [apply leaves_fetch|intros w' m _; apply fetch_no_panic|]. intros r4 w4 Hb4.
  assert (Hwrite : forall c (o : option string), wp (write_check_cache c ;! eret o) (fun _ w' => bin w' = bin w) (fun _ _ => False) w4).
  { intros c o. apply wp_bind. unfold wp at 1, write_check_cache. destruct (io_copy (env w4)) as [o5 x5].
    apply wp_ret. simpl. by rewrite Hb4, Hb3. }
  destruct r4; apply Hwrite.
Qed.

(** ** The claims *)

(** C35: updating is all or nothing, if the calls of a roll-back succeed: when it
    reports an update, every binary of the bundle is the one of that release's
    artifact, was seen to run and to report the tag (where it is stamped), and no
    other file changed but backups and temporary ones; when it fails at any point,
    of the download, the swap, the validation or the restart, or has nothing to do,
    the installed files are what they were. *)
Theorem update_all_or_nothing check version force w :
  restores -> suffix_ok ->
  match run CURRENT_TAG TARGET_TRIPLE EXE_SUFFIX check version force w with
  | (Ok (Updated tag), w') => validate_release_tag tag = Ok tt /\ replaced tag w w'
  | (Ok _, w') => bin w' = bin w
  | (Err f, w') => update_fails w f w'
  end.
Proof.
  intros Hr Hsuf. assert (Hwp : wp (run CURRENT_TAG TARGET_TRIPLE EXE_SUFFIX check version force)
    (fun o w' => match o with Updated tag => validate_release_tag tag = Ok tt /\ replaced tag w w' | _ => bin w' = bin w end) (update_fails w) w).
  { assert (Hthrow : forall w1 m Q, bin w1 = bin w -> wp (ethrow (Fail m) : eff World UpdateResult) Q (update_fails w) w1).
    { intros w1 m Q Hb. unfold wp, ethrow. split; [by eexists|by apply unchanged_kept]. }
    unfold run. destruct check.
    { apply wp_bind. eapply wp_mono; [apply report_spec| |done]. intros r w1 Hb. by apply wp_ret. }
    case_decide; [by apply Hthrow|]. apply wp_bind.
    apply (wp_mono _ (fun _ w' => bin w' = bin w) _ (update_fails w)); [| |done].
    { destruct version as [tag|]; [by apply wp_ret|]. pose proof (leaves_fetch w) as Hk. pose proof (fetch_no_panic w) as Hp. unfold wp.
      destruct (fetch_latest_tag w) as [[a|[m|m]] w']; simpl in *; [done|split; [by eexists|by apply unchanged_kept]|by destruct (Hp m)]. }
    intros tag w1 Hb1. apply wp_bind, wp_lift; [|intros f Hf; unfold validate_release_tag, rensure in Hf; destruct (tag_parses _); [done|];
      injection Hf as <-; split; [by eexists|by apply unchanged_kept]].
    intros [] Hv. assert (Hinst : wp (install_release TARGET_TRIPLE EXE_SUFFIX tag)
      (fun o w' => match o with Updated tag => validate_release_tag tag = Ok tt /\ replaced tag w w' | _ => bin w' = bin w end) (update_fails w) w1).
    { eapply wp_mono; [by apply install_release_spec| |].
      - intros o w2 [-> [Ha Hf]]. split; [done|]. split; [done|]. by rewrite Hb1 in Hf.
      - intros f w2 [Hf Hu]. split; [done|]. unfold unchanged in *. by rewrite Hb1 in Hu. }
    destruct (compare_tags CURRENT_TAG tag), force; try done; try (by apply Hthrow). }
  unfold wp in Hwp. destruct (run _ _ _ _ _ _ w) as [[o|f] w']; [|done]. by destruct o.
Qed.
End Atomic.

(** ** Tags and paths *)

Lemma split_on_chars c l a : a ∈ l -> a = c \/ exists p, p ∈ split_on c l /\ a ∈ p.
Proof.
  induction l as [|x l IH]; [by intros ?%not_elem_of_nil|]. intros Ha. simpl. destruct (decide (x = c)) as [->|Hne].
  - apply elem_of_cons in Ha as [->|Ha]; [by left|]. destruct (IH Ha) as [|(p & Hp & Hap)]; [by left|]. right. exists p. split; [by right|done].
  - destruct (split_on c l) as [|q qs]; apply elem_of_cons in Ha as [->|Ha].
    + right. exists [x]. split; by left.
    + destruct (IH Ha) as [|(p & Hp & _)]; [by left|]. by apply not_elem_of_nil in Hp.
    + right. exists (x :: q). split; by left.
    + destruct (IH Ha) as [|(p & Hp & Hap)]; [by left|]. right. apply elem_of_cons in Hp as [->|Hp].
      * exists (x :: q). split; [by left|by right].
      * exists p. split; [by right|done].
Qed.

Lemma split_once_Some c l x y : split_once c l = Some (x, y) -> l = x ++ c :: y.
Proof.
  revert x y. induction l as [|a l IH]; intros x y; simpl; [done|]. case_decide as Hd; [by intros [= <- <-]; rewrite Hd|].
  destruct (split_once c l) as [[x' y']|]; simpl; [|done]. intros [= <- <-]. simpl. f_equal. by apply IH.
Qed.

Lemma all_digits_chars s a : all_digits s = true -> a ∈ s -> is_digit a = true.
Proof.
  intros [_ Hd]%andb_true_iff Ha. rewrite forallb_forall in Hd. apply Hd. by apply list_elem_of_In.
Qed.

(** The characters of a tag. *)
Definition tag_char (a : ascii) : bool :=
  is_digit a || bool_decide (a ∈ ["v"; "."; "-"; "r"; "c"; "a"; "l"; "p"; "h"; "b"; "e"; "t"]%char).

Lemma digits_tag_char s a : all_digits s = true -> a ∈ s -> tag_char a = true.
Proof. intros Hs Ha. unfold tag_char. by rewrite (all_digits_chars s a Hs Ha). Qed.

Lemma channel_tag_char channel a : channel ∈ CHANNELS -> a ∈ channel -> tag_char a = true.
Proof.
  intros Hc Ha. assert (Hall : Forall (fun ch => Forall (fun a => tag_char a = true) ch) CHANNELS) by (apply (bool_decide_unpack _); vm_compute; exact I).
  rewrite Forall_forall in Hall. specialize (Hall _ Hc). rewrite Forall_forall in Hall. by apply Hall.
Qed.

Lemma core_tag_char core a : forallb all_digits (split_on "."%char core) = true -> a ∈ core -> tag_char a = true.
Proof.
  intros Hall Ha. destruct (split_on_chars "."%char core a Ha) as [->|(p & Hp & Hap)]; [done|].
  rewrite forallb_forall in Hall. apply (digits_tag_char p); [|done]. apply Hall. by apply list_elem_of_In.
Qed.

Lemma tag_chars tag a : tag_parses tag = true -> a ∈ tag -> tag_char a = true.
Proof.
  unfold tag_parses. destruct tag as [|v body]; [done|]. destruct (split_once "-"%char body) as [[core pre]|] eqn:Hs.
  - intros [[[Hv%bool_decide_eq_true _]%andb_true_iff Hcore]%andb_true_iff Hpre]%andb_true_iff [->|Ha]%elem_of_cons; [by rewrite Hv|].
    apply split_once_Some in Hs as ->. apply elem_of_app in Ha as [Ha|[->|Ha]%elem_of_cons]; [by eapply core_tag_char|done|].
    destruct (split_once "."%char pre) as [[channel n]|] eqn:Hp; [|done]. apply andb_true_iff in Hpre as [Hch%bool_decide_eq_true Hn].
    apply split_once_Some in Hp as ->. apply elem_of_app in Ha as [Ha|[->|Ha]%elem_of_cons]; [by eapply channel_tag_char|done|by eapply digits_tag_char].
  - intros [[[Hv%bool_decide_eq_true _]%andb_true_iff Hcore]%andb_true_iff _]%andb_true_iff [->|Ha]%elem_of_cons; [by rewrite Hv|by eapply core_tag_char].
Qed.

Lemma split_on_join c l k : split_on c (l ++ c :: k) = split_on c l ++ split_on c k.
Proof.
  induction l as [|a l IH]; simpl; [by rewrite decide_True|]. case_decide; rewrite IH; [done|].
  destruct (split_on c l) eqn:E; [|done]. exfalso. clear -E. destruct l as [|b l]; simpl in E; [done|]. case_decide; [done|]. by destruct (split_on c l).
Qed.

Lemma components_join base p : components (base +:+ "/" +:+ p) = components base ++ components p.
Proof. unfold components. rewrite !los_app. simpl. by rewrite split_on_join, filter_app. Qed.

(** C36: a tag that passes validation names one directory below the staging
    directory: joined to it, it adds exactly the component of its own name, which is
    not the parent directory, so what is removed there is never outside. *)
Theorem staging_contained home tag :
  validate_release_tag tag = Ok tt ->
  components (staging_dir home tag) = components home ++ [los "staging"; los tag] /\ los tag <> los "..".
Proof.
  unfold validate_release_tag, rensure. destruct (tag_parses (los tag)) eqn:Hp; [intros _|done].
  assert (Hslash : "/"%char ∉ los tag) by (intros Hin; by pose proof (tag_chars _ _ Hp Hin)).
  assert (Hv : exists body, los tag = "v"%char :: body).
  { unfold tag_parses in Hp. destruct (los tag) as [|v body]; [done|]. exists body. destruct (split_once "-"%char body) as [[core pre]|];
      apply andb_true_iff in Hp as [[[Hv%bool_decide_eq_true _]%andb_true_iff _]%andb_true_iff _]; by subst v. }
  destruct Hv as [body Hv]. unfold staging_dir, path_join. rewrite Hv. change (los "staging") with ("s"%char :: los "taging"). cbn [los String.list_ascii_of_string].
  rewrite !components_join, <-(assoc_L (++)). split; [|done]. f_equal. change (components "staging") with [los "staging"]. simpl. f_equal.
  unfold components. rewrite Hv in Hslash |- *. rewrite split_on_none by done. by rewrite filter_cons_True.
Qed.
End UpdateAtomic.
