(* ===== verification/UpdateToy.v ===== *)
(** * An update that evaluates

    A release host with one release, a machine on which nothing fails or the
    installation of the last binary does, and the theorems there. *)

From Stdlib Require Import Ascii.
From S2P Require Import Prelude Pod2 ObjectNames Actions ArchiverStore Update UpdateFacts UpdateAtomic.

Module UpdateToy.
Import ObjectNames Update UpdateFacts UpdateAtomic.
Import ArchiverStore (WriteOutcome, Written, NotWritten, Torn).
Local Open Scope string_scope.

(** The number of calls left before all fail, and whether the daemon runs. *)
Definition ToyEnv : Type := nat * bool.
Definition toy_call (e : ToyEnv) : option string * ToyEnv := match e with (O, r) => (Some "no space left", (O, r)) | (S n, r) => (None, (n, r)) end.

Definition toy_files : gmap string (list byte) :=
  {[ "dobjd" := [x0d]; "dobj-mcp-proxy" := [x0e]; "pexe" := [x0f]; "dobj" := [x10] ]}.

#[export] Instance toy_host : Host := {|
  Env := ToyEnv;
  io := toy_call;
  io_copy n := (NotWritten "no space left", n);
  io_restore n := (None, n);
  io_clear n := (None, n);
  io_extract n := (None, n);
  http_get _ n := (Answered 200 None (Some [x01]), n);
  unpack _ := Ok toy_files;
  canonical_bin n := (Ok ["home"; ".dobj"; "bin"], n);
  current_exe n := (Ok ["home"; ".dobj"; "bin"; "dobj"], n);
  run_version content n := (Ok {| vr_success := true; vr_stdout := "dobj v1.2.0 (toy)" |}, n);
  http_alive n := (snd n, n);
  daemon_version n := (Some "v1.2.0", n);
  stop n := (Ok tt, (fst n, false));
  start_binary _ n := (Ok tt, (fst n, true));
  unix_now n := (0%Z, n);
  Version := list ascii;
  parse_version l := Some l;
  version_compare a b := if decide (a = b) then Eq else Gt;
|}.

Definition old_files : Files := {[ "dobjd" := [x01]; "dobj-mcp-proxy" := [x02]; "dobj" := [x03]; "notes" := [x04] ]}.
Definition toy_world (calls : nat) : World := MkWorld _ old_files None None (calls, true).
Definition toy_run (calls : nat) := run "v1.1.0" "toy" EmptyString false (Some "v1.2.0") false (toy_world calls).

Lemma toy_restores : restores.
Proof. done. Qed.

Lemma update_all_or_nothing_witness :
  match toy_run 100 with
  | (Ok (Updated tag), w') => validate_release_tag tag = Ok tt /\ replaced "toy" EmptyString tag (toy_world 100) w'
  | (Ok _, w') => bin w' = old_files
  | (Err f, w') => update_fails EmptyString (toy_world 100) f w'
  end.
Proof. apply (update_all_or_nothing "v1.1.0" "toy" EmptyString false (Some "v1.2.0") false (toy_world 100)); [exact toy_restores|left; reflexivity]. Defined.

Lemma staging_contained_witness :
  Actions.components (staging_dir "/home/me/.dobj" "v1.2.0-rc.3")
  = app (Actions.components "/home/me/.dobj") [los "staging"; los "v1.2.0-rc.3"].
Proof. apply (staging_contained "/home/me/.dobj" "v1.2.0-rc.3"). vm_compute. reflexivity. Defined.

(** ** Examples *)

Example update_replaces :
  match toy_run 100 with
  | (Ok (Updated tag), w') => bool_decide (tag = "v1.2.0") && bool_decide (bin w' !! "dobj" = Some [x10]) && bool_decide (bin w' !! "notes" = Some [x04])
  | _ => false
  end = true.
Proof. vm_compute. reflexivity. Qed.

(** The calls run out in the middle of the swap. *)
Example failed_update_restores :
  match toy_run 14 with
  | (Err _, w') => bool_decide (filter (fun kv => fst kv ∉ aux (binaries EmptyString)) (bin w') = old_files)
  | _ => false
  end = true.
Proof. vm_compute. reflexivity. Qed.

(** A failed swap does not restart the daemon it stopped, as other failures do. *)
Example failed_swap_leaves_daemon_stopped :
  match toy_run 14 with
  | (Err _, w') => negb (snd (env w' : ToyEnv))
  | _ => false
  end = true.
Proof. vm_compute. reflexivity. Qed.

Example escaping_tags_refused :
  is_ok (validate_release_tag "../..") = false /\ is_ok (validate_release_tag "/etc") = false /\ is_ok (validate_release_tag "v1.2.0") = true.
Proof. split_and!; vm_compute; reflexivity. Qed.
End UpdateToy.
