(* ===== verification/EthClients.v ===== *)
(** * The Ethereum clients (libs/eth-clients)

    Requests to a beacon node, an archiver and an execution node. A request is
    retried while it fails in a way that is worth it and the backoff allows it; an
    answer is a value, nothing, or an error; data a lagging node does not serve yet
    is asked for again. [reqwest], [backoff], [serde]'s derived decoders, [url] and
    alloy's retry policy are the interface [Http]; times are in milliseconds. *)

From Stdlib Require Import Ascii.
From stdpp Require Import sorting.
From S2P Require Import Prelude ObjectNames ArchiverNames Node.

Module EthClients.
Import ObjectNames ArchiverNames.
Import Node (BlockHeader, Block, Embedded, Bid, hd_slot).
Local Open Scope string_scope.
Local Open Scope Z_scope.

(** ** Responses *)

Inductive Json : Type :=
| JNull
| JBool (b : bool)
| JInt (z : Z)
| JFloat (text : string)
| JString (s : string)
| JArray (l : list Json)
| JObject (fields : list (string * Json)).

Inductive NumericOrTextCode : Type := CodeString (s : string) | CodeNumber (n : Z).
Record ErrorResponse : Type := MkErrorResponse { er_code : NumericOrTextCode; er_message : option string }.

Definition ErrorResponse_new (code : Z) (message : string) : ErrorResponse := MkErrorResponse (CodeNumber code) (Some message).

Inductive ClientResponse (T : Type) : Type := Error (e : ErrorResponse) | Success (t : T) | EmptySuccess.
Arguments Error {T} _.
Arguments Success {T} _.
Arguments EmptySuccess {T}.

(** The kinds of failure that [reqwest] tells apart. *)
Record ReqwestError : Type := {
  is_connect : bool;
  is_timeout : bool;
  is_request : bool;
  is_body : bool;
  is_decode : bool;
  rq_text : string;
}.

Inductive ClientError : Type :=
| Reqwest (e : ReqwestError)
| ApiError (e : ErrorResponse)
| Other (m : string)
| UrlParse (m : string)
| SerdeError (m : string)
| NotFound (url : string)
| Empty
| RetryableStatus (url : string) (status : Z) (body : string).

Abbreviation ClientResult := (result ClientError).

Definition into_client_result {T} (self : ClientResponse T) : ClientResult T :=
  match self with
  | Error e => Err (ApiError e)
  | Success t => Ok t
  | EmptySuccess => Err Empty
  end.
Definition is_err {T} (self : ClientResponse T) : bool := match self with Error _ => true | _ => false end.

Definition code_text (c : NumericOrTextCode) : string :=
  match c with
  | CodeString s => s
  | CodeNumber n => if n <? 0 then "-" +:+ sol (decimal (Z.to_N (- n))) else sol (decimal (Z.to_N n))
  end.

(** *** Decoding

    A field of a derived struct: at most once, possibly absent. *)
Definition field (name : string) (fields : list (string * Json)) : option (option Json) :=
  match filter (fun kv => fst kv = name) fields with
  | [] => Some None
  | [(_, v)] => Some (Some v)
  | _ => None
  end.

(** The untagged enum: a string, or else an [i64]. *)
Definition decode_code (j : Json) : option NumericOrTextCode :=
  match j with
  | JString s => Some (CodeString s)
  | JInt z => if (- 2 ^ 63 <=? z) && (z <? 2 ^ 63) then Some (CodeNumber z) else None
  | _ => None
  end.
Definition decode_message (j : option Json) : option (option string) :=
  match j with
  | None | Some JNull => Some None
  | Some (JString s) => Some (Some s)
  | _ => None
  end.

(** A derived struct is read from a map or from a sequence. *)
Definition decode_error_response (j : Json) : option ErrorResponse :=
  match j with
  | JObject fields =>
      code ← field "code" fields; message ← field "message" fields;
      code ← code; code ← decode_code code; message ← decode_message message;
      Some (MkErrorResponse code message)
  | JArray [code] => code ← decode_code code; Some (MkErrorResponse code None)
  | JArray [code; message] => code ← decode_code code; message ← decode_message (Some message); Some (MkErrorResponse code message)
  | _ => None
  end.
Definition encode_error_response (e : ErrorResponse) : Json :=
  JObject [("code", match er_code e with CodeString s => JString s | CodeNumber n => JInt n end);
           ("message", from_option JString JNull (er_message e))].

(** The untagged enum: an error, or else the value expected, or else null. *)
Definition decode_client_response {T} (decode : Json -> option T) (j : Json) : option (ClientResponse T) :=
  match decode_error_response j, decode j, j with
  | Some e, _, _ => Some (Error e)
  | None, Some t, _ => Some (Success t)
  | None, None, JNull => Some EmptySuccess
  | None, None, _ => None
  end.

(** ** Retrying *)

Definition MAX_SERVER_RETRY_DELAY : Z := 60 * 1000.
Definition MIN_SERVER_RETRY_DELAY : Z := 2 * 1000.

Record FailedAttempt (E : Type) : Type := MkFailed { fa_error : E; fa_retryable : bool; fa_retry_after : option Z }.
Arguments MkFailed {E} _ _ _.
Arguments fa_error {E} _.
Arguments fa_retryable {E} _.
Arguments fa_retry_after {E} _.

Definition is_retryable_status (status : Z) : bool := bool_decide (status ∈ [429; 502; 503; 504]).
Definition is_transient_reqwest_error (err : ReqwestError) : bool :=
  is_connect err || is_timeout err || is_request err || is_body err || is_decode err.

(** An answer: its status, the text of its [Retry-After] header, and its body. *)
Record Response : Type := { rs_status : Z; rs_retry_after : option string; rs_text : result ReqwestError string }.

(** What the execution client's transport reports. *)
Inductive TransportError : Type :=
| HttpError (status : Z) (body : string)
| CustomReqwest (e : ReqwestError)
| CustomOther (m : string)
| ErrorResp (code : Z) (message : string)
| OtherRpc (m : string).

Class Http : Type := {
  Env : Type;
  now : Env -> Z;
  sleep : Z -> Env -> Env;
  send : string -> Env -> result ReqwestError Response * Env;
  Backoff : Type;
  reset : Backoff -> Env -> Backoff;
  next_backoff : Backoff -> Env -> option Z * Backoff * Env;
  parse_json : string -> option Json;
  url_join : string -> string -> result string string;
  (** A URL with pairs appended to its query. *)
  extend_pairs : string -> list (string * string) -> string;
  RequestPacket : Type;
  ResponsePacket : Type;
  as_error : ResponsePacket -> option (Z * string);
  rpc_call : RequestPacket -> Env -> result TransportError ResponsePacket * Env;
  should_retry : TransportError -> bool;
  backoff_hint : TransportError -> option Z;
}.

Section Clients.
Context `{Http}.

Section Retry.
Context {T E : Type} (attempt : Env -> result (FailedAttempt E) T * Env).

(** How long a retry waits. *)
Definition retry_delay (failed : FailedAttempt E) (backoff_delay : Z) : Z :=
  match fa_retry_after failed with
  | Some delay => Z.max (Z.min delay MAX_SERVER_RETRY_DELAY) MIN_SERVER_RETRY_DELAY
  | None => backoff_delay
  end.

(** The result, unless the fuel runs out, and the delays logged. *)
Fixpoint retry_loop (fuel : nat) (backoff : Backoff) (e : Env) : option (result E T) * list Z * Env :=
  match fuel with
  | O => (None, [], e)
  | S fuel' =>
      match attempt e with
      | (Ok value, e) => (Some (Ok value), [], e)
      | (Err failed, e) =>
          if negb (fa_retryable failed) then (Some (Err (fa_error failed)), [], e)
          else
            match next_backoff backoff e with
            | (None, _, e) => (Some (Err (fa_error failed)), [], e)
            | (Some backoff_delay, backoff, e) =>
                let delay := retry_delay failed backoff_delay in
                let '(r, delays, e) := retry_loop fuel' backoff (sleep delay e) in
                (r, delay :: delays, e)
            end
      end
  end.
Definition retry (fuel : nat) (backoff : Backoff) (e : Env) : option (result E T) * list Z * Env :=
  retry_loop fuel (reset backoff e) e.
End Retry.

(** ** Fetching *)

Definition from_reqwest (err : ReqwestError) : FailedAttempt ClientError := MkFailed (Reqwest err) (is_transient_reqwest_error err) None.

Definition is_space (a : ascii) : bool := bool_decide (a = " "%char) || (9 <=? N_of_ascii a)%N && (N_of_ascii a <=? 13)%N.
Fixpoint skip_spaces (l : list ascii) : list ascii :=
  match l with a :: l' => if is_space a then skip_spaces l' else l | [] => [] end.
Definition trim (l : list ascii) : list ascii := rev (skip_spaces (rev (skip_spaces l))).

(** The seconds of a [Retry-After] header; a date is ignored. *)
Definition parse_retry_after (value : string) : option Z :=
  match parse_usize (trim (los value)) with Ok secs => Some (Z.of_N secs * 1000) | Err _ => None end.

Definition fetch_text (url : string) (e : Env) : result (FailedAttempt ClientError) (Z * string) * Env :=
  match send url e with
  | (Err err, e) => (Err (from_reqwest err), e)
  | (Ok resp, e) =>
      let status := rs_status resp in
      let retry_after := rs_retry_after resp ≫= parse_retry_after in
      match rs_text resp with
      | Err err => (Err (from_reqwest err), e)
      | Ok text =>
          if is_retryable_status status then (Err (MkFailed (RetryableStatus url status text) true retry_after), e)
          else (Ok (status, text), e)
      end
  end.

Definition read_response {T} (decode : Json -> option T) (url : string) (status : Z) (text : string) : ClientResult T :=
  if status =? 404 then Err (NotFound url)
  else match parse_json text ≫= decode_client_response decode with
       | None => Err (SerdeError "unexpected response")
       | Some response => into_client_result response
       end.

(** [FromStr] of a response; [json_get] does not go through it. *)
Definition client_response_from_str {T} (decode : Json -> option T) (s : string) : option (ClientResponse T) :=
  if decide (s = EmptyString) then Some EmptySuccess else parse_json s ≫= decode_client_response decode.

Definition json_get {T} (decode : Json -> option T) (fuel : nat) (backoff : Backoff) (url : string) (e : Env) : option (ClientResult T) * Env :=
  match retry (fetch_text url) fuel backoff e with
  | (None, _, e) => (None, e)
  | (Some (Err err), _, e) => (Some (Err err), e)
  | (Some (Ok (status, text)), _, e) => (Some (read_response decode url status text), e)
  end.

(** ** The beacon client *)

Inductive BlockId : Type := Head | Finalized | Slot (slot : Z) | Hash (hash : B256).
Inductive Topic : Type := TopicHead | FinalizedCheckpoint.
Definition topic_text (t : Topic) : string := match t with TopicHead => "head" | FinalizedCheckpoint => "finalized_checkpoint" end.

Definition to_detailed_string (id : BlockId) : string :=
  match id with
  | Head => "head"
  | Finalized => "finalized"
  | Slot slot => sol (decimal (Z.to_N slot))
  | Hash hash => sol (B256_text hash)
  end.

(** [u32::from_str] *)
Definition parse_u32 (l : list ascii) : Result Z :=
  let? n := parse_usize l in
  if (n <? 2 ^ 32)%N then Ok (Z.of_N n) else Err (Fail "number too large to fit in target type").

Definition block_id_from_str (s : string) : Result BlockId :=
  if decide (s = "head") then Ok Head
  else if decide (s = "finalized") then Ok Finalized
  else match parse_u32 (los s) with
       | Ok num => Ok (Slot num)
       | Err _ =>
           if decide (take 2 (los s) = los "0x") then
             match parse_B256 (los s) with
             | Ok hash => Ok (Hash hash)
             | Err _ => Err (Fail "Invalid block ID hash")
             end
           else Err (Fail "Invalid block ID")
       end.

Record ExecutionPayloadBid : Type := { bid_parent_block_hash : B256; bid_block_hash : B256; bid_commitments : list (list byte) }.
Inductive BlockBody : Type :=
| Gloas (signed_execution_payload_bid : ExecutionPayloadBid)
| PreGloas (execution_payload_block_hash : B256) (blob_kzg_commitments : list (list byte)).
Record BlockMessage : Type := { bm_body : BlockBody; bm_parent_root : B256; bm_slot : Z }.
Record BlockHeaderData : Type := { bh_root : B256; bh_parent_root : B256; bh_slot : Z }.
Record BlobSidecar : Type := { sc_index : Z; sc_kzg_commitment : list byte; sc_kzg_proof : list byte; sc_blob : list byte }.
Definition sidecar_le (a b : BlobSidecar) : Prop := sc_index a <= sc_index b.
#[global] Instance sidecar_le_dec a b : Decision (sidecar_le a b).
Proof. unfold sidecar_le. apply _. Defined.

Definition block_from (message : BlockMessage) : Block :=
  let '(payload, commitments) :=
    match bm_body message with
    | Gloas bid => (Bid (bid_block_hash bid) (bid_parent_block_hash bid), bid_commitments bid)
    | PreGloas h commitments => (Embedded h, commitments)
    end in
  {| Node.blob_kzg_commitments := commitments; Node.execution_payload := payload;
     Node.parent_root := bm_parent_root message; Node.blk_slot := bm_slot message |}.
Definition header_from (data : BlockHeaderData) : BlockHeader :=
  {| Node.hd_root := bh_root data; Node.hd_parent_root := bh_parent_root data; Node.hd_slot := bh_slot data |}.

(** The client, with the decoders of the responses. *)
Record BeaconClient : Type := {
  base_url : string;
  exp_backoff : Backoff;
  decode_block : Json -> option BlockMessage;
  decode_header : Json -> option BlockHeaderData;
  decode_sidecars : Json -> option (list BlobSidecar);
  decode_blobs : Json -> option (list (list byte));
  decode_spec : Json -> option Z;
}.

Definition result_some {T} (r : ClientResult T) : ClientResult (option T) :=
  match r with
  | Ok r => Ok (Some r)
  | Err (NotFound _) => Ok None
  | Err e => Err e
  end.
Definition map_ok {A B} (f : A -> B) (r : ClientResult A) : ClientResult B := match r with Ok a => Ok (f a) | Err e => Err e end.

Section Beacon.
Context (fuel : nat) (self : BeaconClient).

Definition get {T} (decode : Json -> option T) (path : string) (query : list (string * string)) (e : Env) : option (ClientResult T) * Env :=
  match url_join (base_url self) path with
  | Err m => (Some (Err (UrlParse m)), e)
  | Ok url => json_get decode fuel (exp_backoff self) (match query with [] => url | _ => extend_pairs url query end) e
  end.
Definition returning {A B} (f : ClientResult A -> ClientResult B) (r : option (ClientResult A) * Env) : option (ClientResult B) * Env :=
  (f <$> fst r, snd r).

Definition get_block (block_id : BlockId) (e : Env) : option (ClientResult (option Block)) * Env :=
  returning (fun r => result_some (map_ok block_from r)) (get (decode_block self) ("v2/beacon/blocks/" +:+ to_detailed_string block_id) [] e).

Definition get_block_header (block_id : BlockId) (e : Env) : option (ClientResult (option BlockHeader)) * Env :=
  returning (fun r => result_some (map_ok header_from r)) (get (decode_header self) ("v1/beacon/headers/" +:+ to_detailed_string block_id) [] e).

Definition get_blob_sidecars (block_id : BlockId) (e : Env) : option (ClientResult (list BlobSidecar)) * Env :=
  returning (map_ok (merge_sort sidecar_le)) (get (decode_sidecars self) ("v1/beacon/blob_sidecars/" +:+ to_detailed_string block_id) [] e).

Definition get_blobs (block_id : BlockId) (versioned_hashes : list B256) (e : Env) : option (ClientResult (list (list byte))) * Env :=
  get (decode_blobs self) ("v1/beacon/blobs/" +:+ to_detailed_string block_id)
    ((fun h => ("versioned_hashes", sol (B256_text h))) <$> versioned_hashes) e.

Definition get_spec (e : Env) : option (ClientResult Z) * Env := get (decode_spec self) "v1/config/spec" [] e.

Definition subscribe_to_events (topics : list Topic) : ClientResult string :=
  match url_join (base_url self) ("v1/events?topics=" +:+ String.concat "," (topic_text <$> topics)) with
  | Ok url => Ok url
  | Err m => Err (UrlParse m)
  end.

Inductive BlockIdResolutionError : Type :=
| BlockNotFound (block_id : BlockId)
| FailedBlockIdResolution (block_id : BlockId) (error : ClientError).

Definition resolve_to_slot (id : BlockId) (e : Env) : option (result BlockIdResolutionError Z) * Env :=
  match id with
  | Slot slot => (Some (Ok slot), e)
  | _ =>
      let '(r, e) := get_block_header id e in
      ((fun r => match r with
                 | Err err => Err (FailedBlockIdResolution id err)
                 | Ok (Some header) => Ok (hd_slot header)
                 | Ok None => Err (BlockNotFound id)
                 end) <$> r, e)
  end.
End Beacon.

(** ** The execution client *)

Definition failed_attempt (error : TransportError) : FailedAttempt TransportError :=
  let retryable :=
    match error with
    | HttpError status _ => is_retryable_status status
    | CustomReqwest custom => is_transient_reqwest_error custom
    | CustomOther _ => false
    | _ => should_retry error
    end in
  MkFailed error retryable (backoff_hint error).

Definition execution_attempt (request : RequestPacket) (e : Env) : result (FailedAttempt TransportError) ResponsePacket * Env :=
  match rpc_call request e with
  | (Ok response, e) =>
      match as_error response with
      | None => (Ok response, e)
      | Some (code, message) =>
          let failed := failed_attempt (ErrorResp code message) in
          if fa_retryable failed then (Err failed, e) else (Ok response, e)
      end
  | (Err error, e) => (Err (failed_attempt error), e)
  end.
(** The service's [call]. *)
Definition execution_call (fuel : nat) (backoff : Backoff) (request : RequestPacket) (e : Env) : option (result TransportError ResponsePacket) * Env :=
  let '(r, _, e) := retry (execution_attempt request) fuel backoff e in (r, e).

(** ** Waiting for a lagging node *)

Record AvailabilityPolling : Type := { retries : nat; delay : Z }.
Definition AvailabilityPolling_default : AvailabilityPolling := {| retries := 6; delay := 1000 |}.

Record Unavailable : Type := { ua_what : string; ua_retries : nat }.

(** The causes of an error, which are told apart by their type. *)
Inductive Cause : Type := CClient (e : ClientError) | CTransport (e : TransportError) | CUnavailable (u : Unavailable) | COther (m : string).

Definition is_node_error (chain : list Cause) : bool :=
  existsb (fun cause => match cause with COther _ => false | _ => true end) chain.

Section Polling.
Context {T : Type} (polling : AvailabilityPolling) (what : string) (fetch : Env -> option (result (list Cause) (option T)) * Env).

(** The retries from the given one on. *)
Fixpoint ask_again (left : nat) (e : Env) : option (result (list Cause) T) * Env :=
  match fetch e with
  | (None, e) => (None, e)
  | (Some (Err err), e) => (Some (Err err), e)
  | (Some (Ok (Some value)), e) => (Some (Ok value), e)
  | (Some (Ok None), e) =>
      match left with
      | O => (Some (Err [CUnavailable {| ua_what := what; ua_retries := retries polling |}]), e)
      | S left' => ask_again left' (sleep (delay polling) e)
      end
  end.
Definition fetch_once_available (e : Env) : option (result (list Cause) T) * Env := ask_again (retries polling) e.
End Polling.

(** The archiver's [get_block]: a block that must exist. *)
Definition get_known_block (fuel : nat) (beacon_cli : BeaconClient) (root : B256) (e : Env) : option (result (list Cause) Block) * Env :=
  fetch_once_available AvailabilityPolling_default ("beacon block " +:+ sol (B256_text root))
    (fun e => let '(r, e) := get_block fuel beacon_cli (Hash root) e in
              ((fun r => match r with Ok o => Ok o | Err err => Err [CClient err] end) <$> r, e)) e.
End Clients.
End EthClients.
