(* ===== verification/EthFacts.v ===== *)
(** * Requests end

    What the backoff documents, and what follows: a request is retried a bounded
    number of times, never without a pause, and gives what its last attempt gave;
    asking for a block ends, with the block a node served or an error that makes the
    services start over. *)

From Stdlib Require Import Ascii.
From S2P Require Import Prelude ObjectNames ArchiverNames Node EthClients.

Module EthFacts.
Import ObjectNames ArchiverNames EthClients.
Import Node (Block).
Local Open Scope string_scope.
Local Open Scope Z_scope.

(** The clock does not go back and a sleep lasts as long as asked. The backoff gives
    up once its time has passed, and no interval is shorter than the least one. *)
Class HttpLaws `{Http} : Type := {
  started : Backoff -> Z;
  max_elapsed_time : Backoff -> option Z;
  least_interval : Backoff -> Z;
  clock_sleep d e : 0 <= d -> now e + d <= now (sleep d e);
  clock_send url e : now e <= now (snd (send url e));
  clock_rpc q e : now e <= now (snd (rpc_call q e));
  clock_next b e : now e <= now (snd (next_backoff b e));
  reset_started b e : started (reset b e) = now e;
  reset_kept b e : max_elapsed_time (reset b e) = max_elapsed_time b /\ least_interval (reset b e) = least_interval b;
  next_kept b e : let b' := snd (fst (next_backoff b e)) in
    started b' = started b /\ max_elapsed_time b' = max_elapsed_time b /\ least_interval b' = least_interval b;
  next_gives_up b e m : max_elapsed_time b = Some m -> m < now e - started b -> fst (fst (next_backoff b e)) = None;
  next_least b e d : fst (fst (next_backoff b e)) = Some d -> least_interval b <= d;
}.

Section Facts.
Context `{HttpLaws}.

(** The shortest pause, and the attempts of a request. *)
Definition least_pause (b : Backoff) : Z := Z.min (least_interval b) MIN_SERVER_RETRY_DELAY.
Definition attempts (b : Backoff) (m : Z) : nat := S (S (Z.to_nat (m / least_pause b))).

(** ** Retrying *)

Section Retry.
Context {T E : Type} (attempt : Env -> result (FailedAttempt E) T * Env).
Context (Hclock : forall e, now e <= now (snd (attempt e))).

(** What one attempt gave. *)
Definition attempted (r : result E T) : Prop :=
  match r with
  | Ok v => exists e e', attempt e = (Ok v, e')
  | Err x => exists e e' f, attempt e = (Err f, e') /\ fa_error f = x
  end.

Lemma retry_delay_least (f : FailedAttempt E) b d : least_interval b <= d -> least_pause b <= retry_delay f d.
Proof. unfold least_pause, retry_delay. destruct (fa_retry_after f); lia. Qed.

Lemma retry_loop_ends fuel b e m k :
  max_elapsed_time b = Some m -> 0 < least_pause b -> 0 <= k <= m / least_pause b + 1 ->
  started b + k * least_pause b <= now e -> m / least_pause b + 2 - k <= Z.of_nat fuel ->
  exists r ds e', retry_loop attempt fuel b e = (Some r, ds, e') /\ now e <= now e' /\ attempted r
    /\ Z.of_nat (length ds) + k <= m / least_pause b + 1 /\ Forall (Z.le (least_pause b)) ds.
Proof.
  revert b e k. induction fuel as [|fuel IH]; intros b e k Hm Hu Hk Hs Hf; [lia|]. simpl.
  pose proof (Hclock e) as He. destruct (attempt e) as [[v|f] e1] eqn:Ha; simpl in He.
  { eexists _, _, _. split; [done|]. split_and!; [done|by eexists _, _|simpl; lia|constructor]. }
  destruct (fa_retryable f); simpl; [|eexists _, _, _; split; [done|]; split_and!; [done|by eexists _, _, _|simpl; lia|constructor]].
  pose proof (clock_next b e1) as Hc. pose proof (next_kept b e1) as (Hst & Hmx & Hle). pose proof (next_gives_up b e1 m Hm) as Hg.
  pose proof (next_least b e1) as Hl. destruct (next_backoff b e1) as [[[d|] b'] e2]; simpl in *;
    [|eexists _, _, _; split; [done|]; split_and!; [lia|by eexists _, _, _|simpl; lia|constructor]].
  assert (Hpause : least_pause b' = least_pause b) by (unfold least_pause; by rewrite Hle).
  assert (Hin : now e1 - started b <= m) by (destruct (Z.le_gt_cases (now e1 - started b) m); [done|exfalso; by discriminate Hg; lia]).
  assert (Hkm : k <= m / least_pause b) by (apply Z.div_le_lower_bound; lia).
  pose proof (retry_delay_least f b d (Hl d eq_refl)) as Hd.
  pose proof (clock_sleep (retry_delay f d) e2 ltac:(lia)) as Hsl.
  destruct (IH b' (sleep (retry_delay f d) e2) (k + 1)) as (r & ds & e' & -> & Hn & Hr & Hlen & Hds);
    [by rewrite Hmx|rewrite Hpause; lia..|].
  rewrite Hpause in Hlen, Hds. eexists _, _, _. split; [done|]. split_and!; [lia|done|simpl; lia|by constructor].
Qed.

(** A request ends, with what one attempt gave; it is retried only so often, after
    pauses. *)
Lemma retry_ends fuel b e m :
  max_elapsed_time b = Some m -> 0 <= m -> 0 < least_interval b -> (attempts b m <= fuel)%nat ->
  exists r ds e', retry attempt fuel b e = (Some r, ds, e') /\ now e <= now e' /\ attempted r
    /\ (length ds < attempts b m)%nat /\ Forall (Z.le (least_pause b)) ds.
Proof.
  intros Hm Hm0 Hl Hf. pose proof (reset_kept b e) as [Hmx Hle].
  assert (Hpause : least_pause (reset b e) = least_pause b) by (unfold least_pause; by rewrite Hle).
  assert (Hpos : 0 < least_pause b) by (unfold least_pause, MIN_SERVER_RETRY_DELAY; lia).
  assert (Hq : 0 <= m / least_pause b) by (apply Z.div_pos; lia).
  unfold attempts in *. destruct (retry_loop_ends fuel (reset b e) e m 0) as (r & ds & e' & Hr & Hn & Ha & Hlen & Hds);
    [by rewrite Hmx|rewrite ?Hpause, ?reset_started; lia..|].
  rewrite Hpause in Hlen, Hds. exists r, ds, e'. split_and!; [done|done|done|lia|done].
Qed.
End Retry.

(** ** Fetching *)

Lemma clock_fetch url e : now e <= now (snd (fetch_text url e)).
Proof.
  pose proof (clock_send url e) as Hc. unfold fetch_text. destruct (send url e) as [[resp|err] e1]; [|done].
  destruct (rs_text resp); [|done]. by destruct (is_retryable_status _).
Qed.

(** The node answered, with a status that is not retried. *)
Definition answered (url : string) (status : Z) (text : string) : Prop :=
  exists e resp e', send url e = (Ok resp, e') /\ rs_status resp = status /\ rs_text resp = Ok text /\ is_retryable_status status = false.

Lemma fetch_answered url e status text e' : fetch_text url e = (Ok (status, text), e') -> answered url status text.
Proof.
  unfold fetch_text. destruct (send url e) as [[resp|err] e1] eqn:Hs; [|done]. destruct (rs_text resp) as [t|err] eqn:Ht; [|done].
  destruct (is_retryable_status (rs_status resp)) eqn:Hr; [done|]. intros [= <- <- <-]. by exists e, resp, e1.
Qed.

(** What a request gives. *)
Definition served {T} (decode : Json -> option T) (url : string) (r : ClientResult T) : Prop :=
  match r with
  | Ok t => exists status text j, answered url status text /\ status <> 404 /\ parse_json text = Some j
      /\ decode_error_response j = None /\ decode j = Some t
  | Err (NotFound u) => u = url /\ exists text, answered url 404 text
  | Err _ => True
  end.

Lemma read_served {T} (decode : Json -> option T) url status text :
  answered url status text -> served decode url (read_response decode url status text).
Proof.
  intros Ha. unfold read_response. destruct (Z.eqb_spec status 404) as [->|Hne]; [by split; [|exists text]|].
  destruct (parse_json text) as [j|] eqn:Hj; [|done]. simpl. unfold decode_client_response.
  destruct (decode_error_response j) eqn:He; [done|]. destruct (decode j) as [t|] eqn:Hd; [|by destruct j]. simpl.
  by exists status, text, j.
Qed.

Lemma fetch_error url e f e' u : fetch_text url e = (Err f, e') -> fa_error f <> NotFound u.
Proof.
  unfold fetch_text. destruct (send url e) as [[resp|err] e1]; [|by intros [= <- <-]]. destruct (rs_text resp); [|by intros [= <- <-]].
  destruct (is_retryable_status _); [by intros [= <- <-]|done].
Qed.

Context (fuel : nat) (m : Z).

Lemma json_get_ends {T} (decode : Json -> option T) b url e :
  max_elapsed_time b = Some m -> 0 <= m -> 0 < least_interval b -> (attempts b m <= fuel)%nat ->
  exists r e', json_get decode fuel b url e = (Some r, e') /\ served decode url r.
Proof.
  intros Hm Hm0 Hl Hf. unfold json_get.
  destruct (retry_ends (fetch_text url) (clock_fetch url) fuel b e m) as (r & ds & e' & -> & _ & Hr & _); [done..|].
  destruct r as [[status text]|x]; eexists _, _; (split; [done|]).
  - destruct Hr as (e0 & e1 & Hr). by eapply read_served, fetch_answered.
  - destruct Hr as (e0 & e1 & f & Hr & <-). destruct (fa_error f) eqn:Hx; try done. by edestruct fetch_error.
Qed.

(** ** Asking for a block *)

Section Block.
Context (cli : BeaconClient) (root : B256).
Context (Hm : max_elapsed_time (exp_backoff cli) = Some m) (Hm0 : 0 <= m) (Hl : 0 < least_interval (exp_backoff cli)).
Context (Hf : (attempts (exp_backoff cli) m <= fuel)%nat).

(** The block is one the node served under its root, or the node said it has none. *)
Definition block_served (url : string) (block : Block) : Prop :=
  exists message, served (decode_block cli) url (Ok message) /\ block = block_from message.
Definition block_url : result string string := url_join (base_url cli) ("v2/beacon/blocks/" +:+ sol (B256_text root)).

Definition gives_block (r : ClientResult (option Block)) : Prop :=
  match r with
  | Ok (Some block) => exists url, block_url = Ok url /\ block_served url block
  | Ok None => exists url text, block_url = Ok url /\ answered url 404 text
  | Err _ => True
  end.

Lemma get_block_ends e : exists r e', get_block fuel cli (Hash root) e = (Some r, e') /\ gives_block r.
Proof.
  unfold get_block, get, gives_block, block_served, block_url. cbn [to_detailed_string].
  destruct (url_join _ _) as [url|x]; [|eexists _, _; by split].
  destruct (json_get_ends (decode_block cli) (exp_backoff cli) url e) as (r & e' & -> & Hr); [done..|].
  unfold returning. cbn [fst snd fmap option_fmap option_map]. eexists _, _. split; [done|].
  destruct r as [message|[]]; try done; simpl.
  - exists url. split; [done|]. by exists message.
  - destruct Hr as (_ & text & Hr). by exists url, text.
Qed.

Definition block_outcome (r : result (list Cause) Block) : Prop :=
  match r with
  | Ok block => exists url, block_url = Ok url /\ block_served url block
  | Err err => is_node_error err = true
      /\ forall u, err = [CUnavailable u] -> exists url text, block_url = Ok url /\ answered url 404 text
  end.

Lemma ask_again_ends left polling what e :
  exists r e', ask_again polling what
    (fun e => let '(r, e) := get_block fuel cli (Hash root) e in
              ((fun r => match r with Ok o => Ok o | Err err => Err [CClient err] end) <$> r, e)) left e = (Some r, e') /\ block_outcome r.
Proof.
  revert e. induction left as [|left IH]; intros e; cbn [ask_again]; destruct (get_block_ends e) as (r & e1 & -> & Hr); cbn [fmap option_fmap option_map];
    (destruct r as [[block|]|err]; [by eexists _, _|..]).
  - eexists _, _. split; [done|]. split; [done|]. by intros u _.
  - eexists _, _. split; [done|]. by split.
  - apply IH.
  - eexists _, _. split; [done|]. by split.
Qed.
End Block.
End Facts.

(** ** The claims *)

(** C28: asking for a block ends, however the node answers or fails, if the backoff
    has a time limit and a positive least interval: the fuel of one request, the
    attempts that fit in its time with the shortest pause, is enough. The block is
    decoded from an answer of the node to the request for that root, or the error is
    one on which the services start over; it says the block is not available only if
    the node answered that it has none. *)
Theorem block_request_ends `{HttpLaws} (fuel : nat) (m : Z) (cli : BeaconClient) (root : B256) e :
  max_elapsed_time (exp_backoff cli) = Some m -> 0 <= m -> 0 < least_interval (exp_backoff cli) ->
  (attempts (exp_backoff cli) m <= fuel)%nat ->
  exists r e', get_known_block fuel cli root e = (Some r, e') /\ block_outcome cli root r.
Proof. intros Hm Hm0 Hl Hf. by apply (ask_again_ends fuel m). Qed.

(** The body a server answers an error with reaches the caller as that error. *)
Lemma error_body_arrives `{Http} {T} (decode : Json -> option T) url status text code message :
  0 <= code < 2 ^ 16 -> status <> 404 -> parse_json text = Some (encode_error_response (ErrorResponse_new code message)) ->
  read_response decode url status text = Err (ApiError (ErrorResponse_new code message)).
Proof.
  intros Hc Hs Hj. assert (Hd : decode_error_response (encode_error_response (ErrorResponse_new code message)) = Some (ErrorResponse_new code message)).
  { unfold decode_error_response, encode_error_response, ErrorResponse_new. cbn [er_code er_message from_option].
    change (field "code" _) with (Some (Some (JInt code))). change (field "message" _) with (Some (Some (JString message))).
    cbn [mbind option_bind decode_code]. destruct (Z.leb_spec (- 2 ^ 63) code) as [_|]; [|lia]. by destruct (Z.ltb_spec code (2 ^ 63)) as [_|]; [|lia]. }
  unfold read_response. rewrite Hj. apply Z.eqb_neq in Hs. rewrite Hs. unfold decode_client_response. cbn [mbind option_bind]. by rewrite Hd.
Qed.

Lemma from_digits_none l : foldl (fun acc c => a ← acc; d ← digit_value c; Some (10 * a + d)%N) None l = None.
Proof. by induction l. Qed.
Lemma parse_u32_hash hash : exists x, parse_u32 (B256_text hash) = Err x.
Proof. unfold parse_u32, parse_usize, B256_text, from_digits. simpl. rewrite from_digits_none. by eexists. Qed.

(** Block ids are read back as they were written. *)
Lemma block_id_roundtrip id :
  match id with Slot slot => 0 <= slot < 2 ^ 32 | Hash hash => length hash = 32%nat | _ => True end ->
  block_id_from_str (to_detailed_string id) = Ok id.
Proof.
  destruct id as [| |slot|hash]; intros Hid; [done..| |]; unfold block_id_from_str, to_detailed_string.
  - assert (Hp : parse_u32 (decimal (Z.to_N slot)) = Ok slot).
    { unfold parse_u32. replace (decimal (Z.to_N slot)) with (padded 0 (Z.to_N slot)) by done.
      rewrite parse_usize_padded by lia. cbn [rbind]. destruct (N.ltb_spec (Z.to_N slot) (2 ^ 32)) as [_|]; [|lia].
      by rewrite Z2N.id by lia. }
    assert (Hne : forall t, parse_u32 (los t) <> Ok slot -> sol (decimal (Z.to_N slot)) <> t) by (intros t Ht <-; by rewrite los_sol in Ht).
    by rewrite !decide_False, los_sol, Hp by (by apply Hne).
  - destruct (parse_u32_hash hash) as [x Hp].
    rewrite !decide_False by (intros Heq%(f_equal los); rewrite los_sol in Heq; done).
    rewrite los_sol, Hp. rewrite decide_True by done. by rewrite parse_B256_text.
Qed.
End EthFacts.
