(* ===== verification/EthToy.v ===== *)
(** * A scripted node

    A node that answers from a script, with a backoff of half a second for up to
    five: the requests of [EthFacts.v] on it. *)

From Stdlib Require Import Ascii.
From S2P Require Import Prelude ObjectNames ArchiverNames Node EthClients EthFacts.

Module EthToy.
Import EthClients EthFacts.
Local Open Scope string_scope.
Local Open Scope Z_scope.

Abbreviation Script := (list (result ReqwestError Response)).
Definition dropped : ReqwestError :=
  {| is_connect := true; is_timeout := false; is_request := false; is_body := false; is_decode := false; rq_text := "dropped" |}.

(** The clock and the answers to come; a request takes ten milliseconds. *)
Definition toy_send (url : string) (e : Z * Script) : result ReqwestError Response * (Z * Script) :=
  match snd e with
  | answer :: rest => (answer, (fst e + 10, rest))
  | [] => (Err dropped, (fst e + 10, []))
  end.
Definition toy_next (b : Z) (e : Z * Script) : option Z * Z * (Z * Script) :=
  (if 5000 <? fst e - b then None else Some 500, b, e).

#[local] Instance toy_http : Http := {|
  Env := Z * Script; now := fst; sleep d e := (fst e + d, snd e); send := toy_send;
  Backoff := Z; reset _ e := fst e; next_backoff := toy_next;
  parse_json text := if decide (text = "block") then Some (JInt 7) else if decide (text = "null") then Some JNull else None;
  url_join base path := Ok (base +:+ path); extend_pairs url _ := url;
  RequestPacket := unit; ResponsePacket := unit; as_error _ := None; rpc_call _ e := (Ok tt, e);
  should_retry _ := false; backoff_hint _ := None;
|}.
#[local] Instance toy_laws : @HttpLaws toy_http.
Proof.
  refine (Build_HttpLaws toy_http (fun b : Z => b) (fun _ => Some 5000) (fun _ => 500) _ _ _ _ _ _ _ _ _); simpl.
  - done.
  - intros url [t [|a rest]]; simpl; lia.
  - lia.
  - done.
  - done.
  - done.
  - done.
  - intros b [t l] m [= <-] Hm. unfold toy_next. simpl in *. by destruct (Z.ltb_spec 5000 (t - b)); [|lia].
  - intros b [t l] d. unfold toy_next. simpl. destruct (_ <? _); [done|]. by intros [= <-].
Defined.

Definition cli : BeaconClient :=
  {| base_url := "http://node/eth/"; exp_backoff := 0;
     decode_block j := match j with JInt slot => Some {| bm_body := PreGloas [] []; bm_parent_root := []; bm_slot := slot |} | _ => None end;
     decode_header _ := None; decode_sidecars _ := None; decode_blobs _ := None; decode_spec _ := None |}.
Definition answer (status : Z) (retry_after : option string) (text : string) : result ReqwestError Response :=
  Ok {| rs_status := status; rs_retry_after := retry_after; rs_text := Ok text |}.

(** A lost connection, an overloaded server that asks for ten minutes, and a node that
    does not have the block yet. *)
Definition script : Script := [Err dropped; answer 503 (Some " 600 ") "busy"; answer 404 None "none"; answer 200 None "block"].

Definition block_slot (r : option (result (list Cause) Node.Block) * (Z * Script)) : option Z * Z :=
  (match fst r with Some (Ok block) => Some (Node.blk_slot block) | _ => None end, fst (snd r)).

(** The block is found after half a second, a minute and a second of waiting. *)
Example toy_block : block_slot (get_known_block (attempts (exp_backoff cli) 5000) cli [] (0, script)) = (Some 7, 61540).
Proof. vm_compute. reflexivity. Qed.

(** A server that always asks to come back at once is given up after three pauses. *)
Example toy_impatient :
  match retry (fetch_text "u") (attempts (exp_backoff cli) 5000) (exp_backoff cli) (0, replicate 10 (answer 429 (Some "0") "slow")) with
  | (Some (Err (RetryableStatus _ 429 _)), delays, _) => delays = [2000; 2000; 2000]
  | _ => False
  end.
Proof. vm_compute. reflexivity. Qed.

(** [null] is an empty answer, an empty body none at all. *)
Example toy_empty : read_response (decode_block cli) "u" 200 "null" = Err Empty
  /\ read_response (decode_block cli) "u" 200 EmptyString = Err (SerdeError "unexpected response").
Proof. by vm_compute. Qed.

Lemma block_request_ends_witness :
  exists r e', get_known_block (attempts (exp_backoff cli) 5000) cli [] (0, script) = (Some r, e') /\ block_outcome cli [] r.
Proof. apply (block_request_ends (attempts (exp_backoff cli) 5000) 5000 cli [] (0, script)); [reflexivity|lia|reflexivity|lia]. Defined.
End EthToy.
