(* ===== verification/Circuits.v ===== *)
(** * Circuits of the introduction pods

    What libs/intro-pods uses of plonky2's circuit builder, over the field of
    Goldilocks. A circuit is a check of its inputs that may also read an advice, bits
    the prover chooses. The gates are an interface, [Builder]; [BuilderLaws] says what
    they are documented to constrain. *)

From S2P Require Import Prelude Pod2.

Module Circuits.
Local Open Scope Z_scope.

(** ** Circuits *)

Definition ORDER : Z := 2 ^ 64 - 2 ^ 32 + 1.
Definition in_field (x : Z) : Prop := 0 <= x < ORDER.

Abbreviation Advice := (list (list bool)).
Definition circ (A : Type) : Type := Advice -> option (A * Advice).
Definition cret {A} (a : A) : circ A := fun adv => Some (a, adv).
Definition cbind {A B} (c : circ A) (k : A -> circ B) : circ B := fun adv =>
  match c adv with Some (a, adv') => k a adv' | None => None end.
Definition cassert (b : bool) : circ unit := fun adv => if b then Some (tt, adv) else None.
Notation "'wire' x := c 'in' k" := (cbind c (fun x => k)) (at level 200, x pattern, c at level 100, k at level 200).
Notation "c ;# k" := (cbind c (fun _ => k)) (at level 90, right associativity).

Fixpoint cmap {A B} (f : A -> circ B) (l : list A) : circ (list B) :=
  match l with
  | [] => cret []
  | a :: l' => wire b := f a in wire bs := cmap f l' in cret (b :: bs)
  end.
(** A loop over the limbs of values. *)
Definition for_limbs (f : (Value -> Z) -> circ unit) : circ unit := f limb0 ;# f limb1 ;# f limb2 ;# f limb3.

(** ** Gates *)

Class Builder : Type := {
  is_equal : Z -> Z -> bool;
  not : bool -> bool;
  and : bool -> bool -> bool;
  or : bool -> bool -> bool;
  select : bool -> Z -> Z -> Z;
  add : Z -> Z -> Z;
  sub : Z -> Z -> Z;
  le_sum : list bool -> Z;
  range_check : Z -> nat -> circ unit;
  split_le : Z -> nat -> circ (list bool);
  connect : Z -> Z -> circ unit;
  conditional_assert_eq : bool -> Z -> Z -> circ unit;
}.

(** Little-endian bits. *)
Fixpoint le_value (bits : list bool) : Z :=
  match bits with [] => 0 | b :: bits' => Z.b2z b + 2 * le_value bits' end.
Fixpoint le_bits (n : nat) (x : Z) : list bool :=
  match n with O => [] | S n' => Z.odd x :: le_bits n' (x / 2) end.

(** Any bits with the right sum in the field split a value: 64 bits need not be
    unique. *)
Definition splits (x : Z) (n_bits : nat) : circ (list bool) := fun adv =>
  match adv with
  | bits :: adv' => if (length bits =? n_bits)%nat && (le_value bits mod ORDER =? x) then Some (bits, adv') else None
  | [] => None
  end.

Class BuilderLaws `{Builder} : Prop := {
  is_equal_spec x y : is_equal x y = (x =? y);
  not_spec b : not b = negb b;
  and_spec b c : and b c = b && c;
  or_spec b c : or b c = b || c;
  select_spec b x y : select b x y = if b then x else y;
  add_spec x y : add x y = (x + y) mod ORDER;
  sub_spec x y : sub x y = (x - y) mod ORDER;
  le_sum_spec bits : le_sum bits = le_value bits mod ORDER;
  range_check_spec x n adv : range_check x n adv = cassert ((0 <=? x) && (x <? 2 ^ Z.of_nat n)) adv;
  split_le_spec x n adv : split_le x n adv = splits x n adv;
  connect_spec x y adv : connect x y adv = cassert (x =? y) adv;
  conditional_assert_eq_spec b x y adv : conditional_assert_eq b x y adv = cassert (negb b || (x =? y)) adv;
}.

(** ** Bits *)

Lemma le_value_bounds bits : 0 <= le_value bits < 2 ^ Z.of_nat (length bits).
Proof.
  induction bits as [|b bits IH]; [done|]. cbn [le_value length]. rewrite Nat2Z.inj_succ, Z.pow_succ_r by lia.
  destruct b; simpl Z.b2z; lia.
Qed.

Lemma le_value_app l k : le_value (l ++ k) = le_value l + 2 ^ Z.of_nat (length l) * le_value k.
Proof.
  induction l as [|b l IH]; [cbn; lia|]. cbn [le_value length app]. rewrite IH, Nat2Z.inj_succ, Z.pow_succ_r by lia. lia.
Qed.

Lemma length_le_bits n x : length (le_bits n x) = n.
Proof. revert x. induction n as [|n IH]; intros x; [done|]. cbn. by rewrite IH. Qed.

Lemma le_value_bits n x : 0 <= x < 2 ^ Z.of_nat n -> le_value (le_bits n x) = x.
Proof.
  revert x. induction n as [|n IH]; intros x Hx; [cbn in *; lia|]. cbn [le_bits le_value].
  rewrite Nat2Z.inj_succ, Z.pow_succ_r in Hx by lia. rewrite IH.
  - pose proof (Zdiv2_odd_eqn x) as Hodd. rewrite Z.div2_div in Hodd. destruct (Z.odd x); simpl; lia.
  - split; [apply Z.div_pos; lia|apply Z.div_lt_upper_bound; lia].
Qed.

(** ** Running circuits *)

Lemma cbind_Some {A B} (c : circ A) (k : A -> circ B) adv r :
  cbind c k adv = Some r <-> exists a adv', c adv = Some (a, adv') /\ k a adv' = Some r.
Proof.
  unfold cbind. split.
  - destruct (c adv) as [[a adv']|]; [|done]. intros Hr. by exists a, adv'.
  - by intros (a & adv' & -> & Hr).
Qed.

Lemma cassert_Some b adv r : cassert b adv = Some r <-> b = true /\ r = (tt, adv).
Proof. unfold cassert. destruct b; naive_solver. Qed.

Lemma cmap_Some {A B} (f : A -> circ B) l adv bs rest (R : A -> B -> Prop) :
  (forall a adv b rest, a ∈ l -> f a adv = Some (b, rest) -> R a b) -> cmap f l adv = Some (bs, rest) -> Forall2 R l bs.
Proof.
  revert adv bs. induction l as [|a l IH]; intros adv bs Hf; cbn [cmap].
  - intros [= <- <-]. constructor.
  - intros (b & adv1 & Hb & (bs' & adv2 & Hbs & [= <- <-])%cbind_Some)%cbind_Some.
    constructor; [eapply Hf; [left|exact Hb]|]. apply (IH adv1 _); [|exact Hbs]. intros a' ? ? ? Ha'. apply Hf. by right.
Qed.

Lemma cmap_run {A B} (f : A -> circ B) (g : A -> B) (h : A -> Advice) l rest :
  (forall a rest, a ∈ l -> f a (h a ++ rest) = Some (g a, rest)) ->
  cmap f l (flat_map h l ++ rest) = Some (g <$> l, rest).
Proof.
  induction l as [|a l IH]; intros Hf; [done|]. cbn [cmap flat_map]. rewrite <-app_assoc.
  unfold cbind. rewrite Hf by left. rewrite IH; [done|]. intros a' rest' Ha'. apply Hf. by right.
Qed.

(** A circuit that accepts exactly when a proposition holds. *)
Definition asserts (c : circ unit) (P : Prop) : Prop := forall adv r, c adv = Some r <-> P /\ r = (tt, adv).

Lemma asserts_cassert b : asserts (cassert b) (b = true).
Proof. intros adv r. apply cassert_Some. Qed.

Lemma cbind_asserts {B} c P (k : unit -> circ B) adv r : asserts c P -> cbind c k adv = Some r <-> P /\ k tt adv = Some r.
Proof.
  intros Hc. rewrite cbind_Some. split.
  - intros (u & a & [HP [= -> ->]]%Hc & Hk). done.
  - intros [HP Hk]. exists tt, adv. split; [by apply Hc|done].
Qed.

Lemma asserts_both c c' P Q : asserts c P -> asserts c' Q -> asserts (c ;# c') (P /\ Q).
Proof. intros Hc Hc' adv r. rewrite (cbind_asserts _ _ _ _ _ Hc), (Hc' adv r). naive_solver. Qed.

Lemma asserts_for_limbs (f : (Value -> Z) -> circ unit) (Q : (Value -> Z) -> Prop) :
  (forall limb, asserts (f limb) (Q limb)) -> asserts (for_limbs f) (Q limb0 /\ Q limb1 /\ Q limb2 /\ Q limb3).
Proof. intros Hf. by repeat apply asserts_both. Qed.

Lemma limbs_eq (x y : Value) : limb0 x = limb0 y /\ limb1 x = limb1 y /\ limb2 x = limb2 y /\ limb3 x = limb3 y <-> x = y.
Proof. destruct x, y. simpl. naive_solver. Qed.

Section Gates.
Context `{BuilderLaws}.

Lemma split_le_Some x n adv bits rest :
  split_le x n adv = Some (bits, rest) -> adv = bits :: rest /\ length bits = n /\ x = le_value bits mod ORDER.
Proof.
  rewrite split_le_spec. unfold splits. destruct adv as [|b adv]; [done|]. destruct ((length b =? n)%nat && _) eqn:Hb; [|done].
  apply andb_true_iff in Hb as [Hl%Nat.eqb_eq Hx%Z.eqb_eq]. by intros [= <- <-].
Qed.

Lemma split_le_run x rest : in_field x -> split_le x 64 (le_bits 64 x :: rest) = Some (le_bits 64 x, rest).
Proof.
  intros Hx. rewrite split_le_spec. unfold splits. rewrite length_le_bits, le_value_bits by (unfold in_field, ORDER in Hx; lia).
  rewrite Z.mod_small by done. by rewrite Z.eqb_refl.
Qed.

Lemma asserts_range_check x n : asserts (range_check x n) (0 <= x < 2 ^ Z.of_nat n).
Proof. intros adv r. rewrite range_check_spec, cassert_Some, andb_true_iff, Z.leb_le, Z.ltb_lt. done. Qed.

Lemma asserts_connect x y : asserts (connect x y) (x = y).
Proof. intros adv r. rewrite connect_spec, cassert_Some, Z.eqb_eq. done. Qed.

Lemma asserts_conditional b x y : asserts (conditional_assert_eq b x y) (b = true -> x = y).
Proof. intros adv r. rewrite conditional_assert_eq_spec, cassert_Some. destruct b; cbn [negb orb]; rewrite ?Z.eqb_eq; naive_solver. Qed.

(** Values connected limb by limb. *)
Lemma asserts_connect_value (x y : Value) : asserts (for_limbs (fun limb => connect (limb x) (limb y))) (x = y).
Proof.
  intros adv r. pose proof (asserts_for_limbs _ _ (fun limb => asserts_connect (limb x) (limb y)) adv r) as Hx.
  cbv beta in Hx. by rewrite Hx, limbs_eq.
Qed.
Lemma asserts_conditional_value b (x y : Value) :
  asserts (for_limbs (fun limb => conditional_assert_eq b (limb x) (limb y))) (b = true -> x = y).
Proof.
  intros adv r. pose proof (asserts_for_limbs _ _ (fun limb => asserts_conditional b (limb x) (limb y)) adv r) as Hx.
  cbv beta in Hx. rewrite Hx, <-limbs_eq. naive_solver.
Qed.
End Gates.
End Circuits.
