(* ===== verification/LtEqU256.v ===== *)
(** * The comparison pod (libs/intro-pods/lt-eq-u256-pod)

    [LtEqU256Pod] proves that one 256-bit value is at most another. Its circuit
    splits each limb into bits, checks that they are the canonical ones, and compares
    limbs of 32 bits. The prover and the verifier of plonky2, and the hashes of
    statements, are interfaces. *)

From S2P Require Import Prelude Pod2 Circuits.

Module LtEqU256.
Import Circuits.
Local Open Scope Z_scope.

(** ** Values *)

(** The field elements behind the [u64]s of a value. *)
Definition field_value (v : Value) : Value :=
  MkHash (limb0 v mod ORDER) (limb1 v mod ORDER) (limb2 v mod ORDER) (limb3 v mod ORDER).

(** The number a list of little-endian limbs of [w] bits stands for. *)
Definition limbs_value (w : Z) (l : list Z) : Z := foldr (fun x acc => x + 2 ^ w * acc) 0 l.
Definition u256 (v : Value) : Z := limbs_value 64 (limbs v).

(** ** The circuit *)

Section Gates.
Context `{Builder}.

(** The difference at the highest limbs that are not equal, and whether there is one. *)
Definition lt_eq_step (acc : Z * bool) (limb : Z * Z) : Z * bool :=
  let '(diff, diff_found) := acc in
  let '(lhs_limb, rhs_limb) := limb in
  let limbs_eq := is_equal lhs_limb rhs_limb in
  let limbs_neq := not limbs_eq in
  let diff_not_found := not diff_found in
  let is_first_neq := and limbs_neq diff_not_found in
  let limbs_diff := sub rhs_limb lhs_limb in
  (select is_first_neq limbs_diff diff, or diff_found is_first_neq).

Definition assert_lt_eq (lhs rhs : list Z) : circ unit :=
  let '(diff, _) := foldl lt_eq_step (0, false) (rev (zip lhs rhs)) in
  range_check diff 32.

Definition field_max : list Z := [Z.land (ORDER - 1) 0xffffffff; Z.shiftr (ORDER - 1) 32].

Definition canonical_pair (bits : list bool) : circ (list Z) :=
  let pair := [le_sum (take 32 bits); le_sum (drop 32 bits)] in
  assert_lt_eq pair field_max ;#
  cret pair.

Definition value_to_32b_limbs (v : Value) : circ (list Z) :=
  wire v_64b_limbs := cmap (fun t => split_le t 64) (limbs v) in
  wire v_32b_limbs := cmap canonical_pair v_64b_limbs in
  cret (concat v_32b_limbs).

End Gates.

Record LtEqU256PodInput : Type := { in_vd_root : Hash; in_lhs : Value; in_rhs : Value }.
Record PublicInputs : Type := { statements_root : Hash; vd_root : Hash; is_main : bool }.

(** Hashes of statements: of an introduction statement by its verifier data and
    arguments, and of a leaf of a Merkle tree. *)
Class IntroHashes : Type := {
  intro_statement_hash : Hash -> list Value -> Hash;
  kv_hash : Value -> Value -> Hash;
}.

Section Pod.
Context `{Builder, Pod2, IntroHashes}.

Definition pub_raw_statements_target (lhs rhs : Value) : Hash := intro_statement_hash EMPTY_HASH [lhs; rhs].

Definition add_targets (lhs rhs root : Value) : circ PublicInputs :=
  wire lhs_bits := value_to_32b_limbs lhs in
  wire rhs_bits := value_to_32b_limbs rhs in
  assert_lt_eq lhs_bits rhs_bits ;#
  let st_hash := pub_raw_statements_target lhs rhs in
  let zero_key := EMPTY_HASH in
  cret {| statements_root := kv_hash zero_key st_hash; vd_root := root; is_main := false |}.

(** The circuit with its inputs set. *)
Definition set_targets (input : LtEqU256PodInput) : circ PublicInputs :=
  add_targets (field_value (in_lhs input)) (field_value (in_rhs input)) (in_vd_root input).

(** ** The pod *)

(** The prover and the verifier of the circuit; a proof is made with its public
    inputs. *)
Class LtEqBackend : Type := {
  Proof : Type;
  prove : LtEqU256PodInput -> Result (Proof * PublicInputs);
  verify_proof : Proof -> PublicInputs -> bool;
}.

Context `{LtEqBackend}.

Record LtEqU256Pod : Type := { lhs : Value; rhs : Value; pod_vd_root : Hash; proof : Proof }.

(** The statement's hash, over field elements. *)
Definition pub_raw_statements (lhs rhs : Value) : Hash := intro_statement_hash EMPTY_HASH [field_value lhs; field_value rhs].
Definition single_statement_mt (st : Hash) : Hash := array_commitment [st].

Definition pod_inputs (pod : LtEqU256Pod) : PublicInputs :=
  {| statements_root := single_statement_mt (pub_raw_statements (lhs pod) (rhs pod)); vd_root := pod_vd_root pod; is_main := false |}.
Definition verify (pod : LtEqU256Pod) : Result unit :=
  rensure (verify_proof (proof pod) (pod_inputs pod)) "LtEqU256Pod proof verification failure".

(** The check before proving, from the highest limbs down, on their [u64]s. *)
Fixpoint precheck (pairs : list (Z * Z)) : Result unit :=
  match pairs with
  | [] => Ok tt
  | (lhs_limb, rhs_limb) :: pairs' =>
      if rhs_limb <? lhs_limb then Err (Fail "lhs > rhs in LtEqU256")
      else if lhs_limb <? rhs_limb then Ok tt else precheck pairs'
  end.

(** For the default parameters, which the constructor asserts first. *)
Definition new (root : Hash) (l r : Value) : Result LtEqU256Pod :=
  let? _ := precheck (rev (zip (limbs l) (limbs r))) in
  let? (p, pis) := prove {| in_vd_root := root; in_lhs := l; in_rhs := r |} in
  let? _ := rensure (verify_proof p pis) "proof verification failure" in
  Ok {| lhs := l; rhs := r; pod_vd_root := root; proof := p |}.
End Pod.

(** ** Comparing limbs *)

Section Comparing.
Context `{BuilderLaws}.

Definition small (w x : Z) : Prop := 0 <= x < 2 ^ w.

Lemma limbs_value_app w l k : 0 <= w -> limbs_value w (l ++ k) = limbs_value w l + 2 ^ (w * Z.of_nat (length l)) * limbs_value w k.
Proof.
  intros Hw. induction l as [|x l IH]; [cbn [app length]; change (Z.of_nat 0) with 0; rewrite Z.mul_0_r, Z.pow_0_r; unfold limbs_value; cbn [foldr]; lia|].
  unfold limbs_value in *. cbn [foldr app length].
  rewrite IH, Nat2Z.inj_succ, Z.mul_succ_r, Z.pow_add_r by lia. ring.
Qed.

Lemma limbs_value_bounds w l : 0 <= w -> Forall (small w) l -> 0 <= limbs_value w l < 2 ^ (w * Z.of_nat (length l)).
Proof.
  intros Hw. induction 1 as [|x l Hx _ IH]; [cbn [length]; change (Z.of_nat 0) with 0; rewrite Z.mul_0_r, Z.pow_0_r; unfold limbs_value; cbn [foldr]; lia|]. unfold limbs_value in *. cbn [foldr length].
  rewrite Nat2Z.inj_succ, Z.mul_succ_r, Z.pow_add_r by lia. unfold small in Hx. nia.
Qed.

Lemma lt_eq_found d l : foldl lt_eq_step (d, true) l = (d, true).
Proof.
  induction l as [|[a b] l IH]; [done|]. cbn [foldl lt_eq_step]. rewrite select_spec, !and_spec, or_spec, !not_spec, andb_false_r. done.
Qed.

Lemma sub_small a b : small 32 a -> small 32 b -> a <> b -> (0 <= sub b a < 2 ^ 32 <-> a < b).
Proof.
  rewrite sub_spec. unfold small, ORDER. intros Ha Hb Hne. destruct (Z.lt_ge_cases a b).
  - rewrite Z.mod_small by lia. lia.
  - rewrite <-(Z.mod_unique (b - a) (2 ^ 64 - 2 ^ 32 + 1) (-1) (2 ^ 64 - 2 ^ 32 + 1 + b - a)) by lia. lia.
Qed.

(** The assertion on limbs of 32 bits compares the numbers. *)
Lemma lt_eq_fold_exact (ps : list (Z * Z)) :
  Forall (small 32) ps.*1 -> Forall (small 32) ps.*2 ->
  0 <= fst (foldl lt_eq_step (0, false) (rev ps)) < 2 ^ 32 <-> limbs_value 32 ps.*1 <= limbs_value 32 ps.*2.
Proof.
  induction ps as [|[a b] ps IH] using rev_ind; [done|]. rewrite !fmap_app, !Forall_app. cbn [fmap list_fmap fst snd].
  intros [Hl [Ha _]%Forall_cons] [Hr [Hb _]%Forall_cons]. rewrite rev_unit. cbn [foldl lt_eq_step].
  rewrite !limbs_value_app, !length_fmap by lia. cbn [limbs_value foldr]. rewrite !Z.mul_0_r, !Z.add_0_r.
  pose proof (limbs_value_bounds 32 _ ltac:(lia) Hl) as Hbl. pose proof (limbs_value_bounds 32 _ ltac:(lia) Hr) as Hbr.
  rewrite length_fmap in Hbl, Hbr. rewrite select_spec, and_spec, or_spec, !not_spec, is_equal_spec.
  destruct (Z.eqb_spec a b) as [->|Hne]; cbn [negb andb orb].
  - rewrite IH by done. lia.
  - rewrite lt_eq_found. cbn [fst]. rewrite (sub_small a b Ha Hb Hne). set (p := 2 ^ (32 * Z.of_nat (length ps))) in *. nia.
Qed.

Lemma assert_lt_eq_exact (ls rs : list Z) adv r :
  length ls = length rs -> Forall (small 32) ls -> Forall (small 32) rs ->
  assert_lt_eq ls rs adv = Some r <-> limbs_value 32 ls <= limbs_value 32 rs /\ r = (tt, adv).
Proof.
  intros Hlen Hl Hr. unfold assert_lt_eq. pose proof (lt_eq_fold_exact (zip ls rs)) as Hx.
  rewrite fst_zip, snd_zip in Hx by lia. destruct (foldl _ _ _) as [diff found]. rewrite (asserts_range_check diff 32 adv r). change (Z.of_nat 32) with 32. rewrite Hx by done. done.
Qed.

(** ** Splitting values *)

Lemma field_max_value : limbs_value 32 field_max = ORDER - 1 /\ Forall (small 32) field_max.
Proof. split; [done|]. repeat constructor; vm_compute; done. Qed.

Lemma canonical_pair_exact bits adv r :
  length bits = 64%nat ->
  canonical_pair bits adv = Some r <->
    le_value bits < ORDER /\ r = ([le_value (take 32 bits); le_value (drop 32 bits)], adv).
Proof.
  intros Hlen. pose proof (le_value_bounds (take 32 bits)) as Hlo. pose proof (le_value_bounds (drop 32 bits)) as Hhi.
  rewrite length_take, Hlen in Hlo. rewrite length_drop, Hlen in Hhi. change (Z.of_nat (32 `min` 64)) with 32 in Hlo.
  change (Z.of_nat (64 - 32)) with 32 in Hhi.
  assert (Hsum : le_value bits = le_value (take 32 bits) + 2 ^ 32 * le_value (drop 32 bits)).
  { rewrite <-(take_drop 32 bits) at 1. rewrite le_value_app, length_take, Hlen. done. }
  assert (Hpair : Forall (small 32) [le_value (take 32 bits); le_value (drop 32 bits)]) by (by constructor; [|constructor; [|constructor]]).
  destruct field_max_value as [Hmax Hsmall]. unfold canonical_pair. rewrite !le_sum_spec.
  rewrite !Z.mod_small by (unfold ORDER; lia). rewrite cbind_Some. split.
  - intros (u & adv' & Ha & Hr). apply assert_lt_eq_exact in Ha as [Hle [= -> ->]]; [|done..].
    rewrite Hmax in Hle. cbn [limbs_value foldr] in Hle. split; [lia|]. unfold cret in Hr. congruence.
  - intros [Hlt ->]. eexists tt, adv. split; [|done]. apply assert_lt_eq_exact; [done..|].
    rewrite Hmax. cbn [limbs_value foldr]. split; [lia|done].
Qed.

(** The limbs of a value, by halves. *)
Definition halves (x : Z) : list Z := [x mod 2 ^ 32; x / 2 ^ 32].

Lemma halves_value xs : limbs_value 32 (flat_map halves xs) = limbs_value 64 xs.
Proof.
  induction xs as [|x xs IH]; [done|]. unfold limbs_value in *. cbn [flat_map halves app foldr]. rewrite IH.
  pose proof (Z.div_mod x (2 ^ 32) ltac:(lia)). change (2 ^ 64) with (2 ^ 32 * 2 ^ 32). lia.
Qed.

Lemma halves_small xs : Forall in_field xs -> Forall (small 32) (flat_map halves xs).
Proof.
  induction 1 as [|x xs Hx _ IH]; [done|]. cbn [flat_map halves app]. unfold in_field, ORDER in Hx. constructor; [|constructor; [|done]].
  - apply Z.mod_pos_bound. lia.
  - split; [apply Z.div_pos; lia|]. apply Z.div_lt_upper_bound; lia.
Qed.

Lemma bits_halves bits :
  length bits = 64%nat -> [le_value (take 32 bits); le_value (drop 32 bits)] = halves (le_value bits).
Proof.
  intros Hlen. pose proof (le_value_bounds (take 32 bits)) as Hlo. rewrite length_take, Hlen in Hlo.
  change (Z.of_nat (32 `min` 64)) with 32 in Hlo. unfold halves.
  assert (Hsum : le_value bits = le_value (drop 32 bits) * 2 ^ 32 + le_value (take 32 bits)).
  { rewrite <-(take_drop 32 bits) at 1. rewrite le_value_app, length_take, Hlen. change (Z.of_nat (32 `min` 64)) with 32. lia. }
  rewrite Hsum, Z.div_add_l, (Z.div_small (le_value (take 32 bits))), Z.add_comm, Z.mod_add, Z.mod_small by lia.
  by rewrite Z.add_0_r.
Qed.

(** Whatever bits the prover gives, the limbs are the canonical ones. *)
Lemma value_to_32b_limbs_sound v adv ls rest :
  value_to_32b_limbs v adv = Some (ls, rest) -> Forall in_field (limbs v) /\ ls = flat_map halves (limbs v).
Proof.
  unfold value_to_32b_limbs. intros (bits & adv1 & Hb & (pairs & adv2 & Hp & [= <- <-])%cbind_Some)%cbind_Some.
  apply (cmap_Some _ _ _ _ _ (fun x b => length b = 64%nat /\ x = le_value b mod ORDER)) in Hb;
    [|intros x a b c _ Hs; apply split_le_Some in Hs; naive_solver].
  apply (cmap_Some _ _ _ _ _ (fun b ls => length b = 64%nat -> le_value b < ORDER /\ ls = halves (le_value b))) in Hp;
    [|intros b a ls c _ Hs Hl; apply canonical_pair_exact in Hs as [Hlt [= -> _]]; [|done]; by rewrite bits_halves].
  clear -Hb Hp. revert pairs Hp. induction Hb as [|x b xs bs [Hl ->] _ IH]; intros pairs Hp.
  - apply Forall2_nil_inv_l in Hp as ->. by split; [constructor|].
  - apply Forall2_cons_inv_l in Hp as (ps & pairs' & Hx & Hp & ->). destruct (Hx Hl) as [Hlt ->]. destruct (IH _ Hp) as [Hf Heq].
    pose proof (le_value_bounds b). rewrite Z.mod_small by lia. split; [constructor; [split; lia|done]|].
    cbn [concat flat_map]. by rewrite Heq.
Qed.

(** With the bits that are generated for it, a value is accepted. *)
Definition generated_bits (v : Value) : Advice := le_bits 64 <$> limbs v.

Lemma le_value_field x : in_field x -> le_value (le_bits 64 x) = x.
Proof. unfold in_field, ORDER. intros Hx. apply le_value_bits. change (Z.of_nat 64) with 64. lia. Qed.

Lemma halves_generated xs :
  Forall in_field xs -> concat ((fun b => halves (le_value b)) <$> (le_bits 64 <$> xs)) = flat_map halves xs.
Proof.
  induction 1 as [|x xs Hx _ IH]; [done|]. rewrite !fmap_cons. change (concat (?a :: ?l)) with (a ++ concat l).
  change (flat_map halves (x :: xs)) with (halves x ++ flat_map halves xs). by rewrite IH, le_value_field.
Qed.

Lemma canonical_pair_run x rest :
  in_field x -> canonical_pair (le_bits 64 x) rest = Some (halves (le_value (le_bits 64 x)), rest).
Proof.
  intros Hx. apply canonical_pair_exact; [apply length_le_bits|]. rewrite bits_halves by apply length_le_bits.
  rewrite le_value_field by done. split; [apply Hx|done].
Qed.

Lemma value_to_32b_limbs_complete v rest :
  Forall in_field (limbs v) -> value_to_32b_limbs v (generated_bits v ++ rest) = Some (flat_map halves (limbs v), rest).
Proof.
  intros Hv. rewrite <-(halves_generated _ Hv). rewrite Forall_forall in Hv. unfold value_to_32b_limbs, cbind.
  replace (generated_bits v) with (flat_map (fun x => [le_bits 64 x]) (limbs v)) by done.
  rewrite (cmap_run _ (le_bits 64)) by (intros x rest' Hx; apply split_le_run, Hv, Hx).
  pose proof (cmap_run canonical_pair (fun b => halves (le_value b)) (fun _ => []) (le_bits 64 <$> limbs v) rest) as Hr.
  replace (flat_map (fun _ => []) (le_bits 64 <$> limbs v) ++ rest) with rest in Hr by done. rewrite Hr; [done|].
  intros b rest' (x & -> & Hx)%list_elem_of_fmap. by apply canonical_pair_run, Hv.
Qed.

(** ** The circuit and the check before it *)

Lemma limbs_length v : length (flat_map halves (limbs v)) = 8%nat.
Proof. done. Qed.

Lemma halves_compare l r adv res :
  Forall in_field (limbs l) -> Forall in_field (limbs r) ->
  assert_lt_eq (flat_map halves (limbs l)) (flat_map halves (limbs r)) adv = Some res <-> u256 l <= u256 r /\ res = (tt, adv).
Proof.
  intros Hl Hr. rewrite assert_lt_eq_exact by (by try apply halves_small). by rewrite !halves_value.
Qed.

Lemma precheck_exact (ps : list (Z * Z)) :
  Forall (small 64) ps.*1 -> Forall (small 64) ps.*2 ->
  match precheck (rev ps) with Ok _ => limbs_value 64 ps.*1 <= limbs_value 64 ps.*2 | Err (Fail _) => limbs_value 64 ps.*2 < limbs_value 64 ps.*1 | Err _ => False end.
Proof.
  induction ps as [|[a b] ps IH] using rev_ind; [done|]. rewrite !fmap_app, !Forall_app. cbn [fmap list_fmap fst snd].
  intros [Hl [Ha _]%Forall_cons] [Hr [Hb _]%Forall_cons]. rewrite rev_unit. cbn [precheck].
  rewrite !limbs_value_app, !length_fmap by lia. cbn [limbs_value foldr]. rewrite !Z.mul_0_r, !Z.add_0_r.
  pose proof (limbs_value_bounds 64 _ ltac:(lia) Hl) as Hbl. pose proof (limbs_value_bounds 64 _ ltac:(lia) Hr) as Hbr.
  rewrite length_fmap in Hbl, Hbr. specialize (IH Hl Hr). set (p := 2 ^ (64 * Z.of_nat (length ps))) in *.
  destruct (Z.ltb_spec b a); [nia|]. destruct (Z.ltb_spec a b); [nia|]. assert (a = b) as -> by lia.
  destruct (precheck (rev ps)) as [u|[m|m]]; [lia..|done].
Qed.

Lemma field_value_id v : Forall in_field (limbs v) -> field_value v = v.
Proof. destruct v as [a b c d]. unfold limbs, field_value. rewrite !Forall_cons. simpl. intros (Ha & Hb & Hc & Hd & _). by rewrite !Z.mod_small. Qed.

Lemma in_field_u64 xs : Forall in_field xs -> Forall (small 64) xs.
Proof. intros Hx. apply (Forall_impl _ _ _ Hx). unfold in_field, small, ORDER. lia. Qed.

End Comparing.

(** ** What plonky2 and pod2 promise *)

(** The tree of one statement is a leaf, and statements with one hash are the same. *)
Class IntroHashLaws `{Pod2, IntroHashes} : Prop := {
  single_array_root st : array_commitment [st] = kv_hash EMPTY_HASH st;
  intro_statement_inj vd a b : intro_statement_hash vd a = intro_statement_hash vd b -> a = b;
}.

(** A proof that verifies has a witness behind it; an input whose generated witness
    satisfies the circuit can be proved. *)
Class LtEqBackendLaws `{Builder, Pod2, IntroHashes, LtEqBackend} : Prop := {
  verify_sound p pis : verify_proof p pis = true -> exists l r root adv rest, add_targets l r root adv = Some (pis, rest);
  prove_complete input pis :
    set_targets input (generated_bits (field_value (in_lhs input)) ++ generated_bits (field_value (in_rhs input))) = Some (pis, []) ->
    exists p, prove input = Ok (p, pis) /\ verify_proof p pis = true;
}.

Section Facts.
Context `{Builder, !BuilderLaws, Pod2, IntroHashes, !CommitmentBinding, !IntroHashLaws}.

Lemma add_targets_sound l r root adv pis rest :
  add_targets l r root adv = Some (pis, rest) ->
  u256 l <= u256 r /\ pis = {| statements_root := kv_hash EMPTY_HASH (intro_statement_hash EMPTY_HASH [l; r]); vd_root := root; is_main := false |}.
Proof.
  unfold add_targets. intros (ls & a1 & [Hl ->]%value_to_32b_limbs_sound & (rs & a2 & [Hr ->]%value_to_32b_limbs_sound & (u & a3 & Hc & [= <- _])%cbind_Some)%cbind_Some)%cbind_Some.
  apply halves_compare in Hc as [Hle _]; done.
Qed.

Lemma add_targets_complete l r root :
  Forall in_field (limbs l) -> Forall in_field (limbs r) -> u256 l <= u256 r ->
  add_targets l r root (generated_bits l ++ generated_bits r)
  = Some ({| statements_root := kv_hash EMPTY_HASH (intro_statement_hash EMPTY_HASH [l; r]); vd_root := root; is_main := false |}, []).
Proof.
  intros Hl Hr Hle. unfold add_targets, cbind. rewrite value_to_32b_limbs_complete by done.
  pose proof (value_to_32b_limbs_complete r [] Hr) as Hv. rewrite app_nil_r in Hv. rewrite Hv.
  by rewrite (proj2 (halves_compare l r [] (tt, []) Hl Hr) (conj Hle eq_refl)).
Qed.

Context `{!LtEqBackend, !LtEqBackendLaws}.

Lemma verify_lt_eq pod : verify pod = Ok tt -> u256 (field_value (lhs pod)) <= u256 (field_value (rhs pod)).
Proof.
  unfold verify, rensure. destruct (verify_proof _ _) eqn:Hv; [intros _|done].
  apply verify_sound in Hv as (l & r & root & adv & rest & [Hle Hpis]%add_targets_sound).
  injection Hpis as Hroot _. unfold single_statement_mt in Hroot. rewrite <-single_array_root in Hroot.
  apply array_commitment_inj in Hroot. injection Hroot as Hst. apply intro_statement_inj in Hst. by injection Hst as -> ->.
Qed.

Lemma new_exact root l r :
  Forall in_field (limbs l) -> Forall in_field (limbs r) ->
  match new root l r with
  | Ok pod => u256 l <= u256 r /\ lhs pod = l /\ rhs pod = r /\ verify pod = Ok tt
  | Err (Fail _) => u256 r < u256 l
  | Err (Panic _) => False
  end.
Proof.
  intros Hl Hr. unfold new. pose proof (precheck_exact (zip (limbs l) (limbs r))) as Hp.
  rewrite fst_zip, snd_zip in Hp by done. specialize (Hp (in_field_u64 _ Hl) (in_field_u64 _ Hr)).
  destruct (precheck _) as [u|[m|m]]; cbn [rbind]; [|done..].
  edestruct (prove_complete {| in_vd_root := root; in_lhs := l; in_rhs := r |}) as (p & -> & Hv).
  { unfold set_targets. cbn [in_lhs in_rhs in_vd_root]. rewrite !field_value_id by done. by apply add_targets_complete. }
  cbn [rbind]. rewrite Hv. cbn [rensure rbind lhs rhs]. assert (Hok : verify {| lhs := l; rhs := r; pod_vd_root := root; proof := p |} = Ok tt).
  { unfold verify, pod_inputs, single_statement_mt, pub_raw_statements. simpl. rewrite !field_value_id, single_array_root by done. by rewrite Hv. }
  done.
Qed.
End Facts.

(** ** The claim *)

(** C10: the comparison pod is exact, for a sound and complete proof system and
    hashes without collisions. For values of field elements, a pod is made exactly
    when the left number is at most the right one, it carries both and verifies; and
    whatever pod verifies, however its prover chose the bits, its left number is at
    most its right one. *)
Theorem lt_eq_pod_exact `{Builder, !BuilderLaws, Pod2, IntroHashes, !CommitmentBinding, !IntroHashLaws, !LtEqBackend, !LtEqBackendLaws} :
  (forall root l r, Forall in_field (limbs l) -> Forall in_field (limbs r) ->
     match new root l r with
     | Ok pod => u256 l <= u256 r /\ lhs pod = l /\ rhs pod = r /\ verify pod = Ok tt
     | Err (Fail _) => u256 r < u256 l
     | Err (Panic _) => False
     end)
  /\ forall pod, verify pod = Ok tt -> u256 (field_value (lhs pod)) <= u256 (field_value (rhs pod)).
Proof. split; [intros root l r; apply new_exact|apply verify_lt_eq]. Qed.
End LtEqU256.
