(* ===== verification/Vdf.v ===== *)
(** * The delay pod (libs/intro-pods/vdfpod)

    [VdfPod] proves that an output is the input hashed a number of times, by a chain
    of proofs, each of which verifies the one before it. The recursive prover and
    verifier, and the hashes, are interfaces. The limbs of a value are field elements. *)

From S2P Require Import Prelude Pod2 Circuits LtEqU256.

Module Vdf.
Import Circuits.
Import LtEqU256 (IntroHashes, intro_statement_hash, kv_hash, PublicInputs, statements_root, vd_root, is_main).
Local Open Scope Z_scope.

(** ** The chain *)

(** The public inputs of a link: count, input, output and the verifier data of the
    proof before it. *)
Record Pis : Type := MkPis { pi_count : Z; pi_input : Value; pi_output : Value; pi_vd_hash : Hash }.
Record VerifiedProof : Type := { public_inputs : Pis; verifier_data_hash : Hash }.

Class VdfHashes : Type := {
  hash_value : Value -> Hash;
  (** An integer below 2^32 in one limb. *)
  from_int_lo : Z -> Value;
}.

Record VdfInnerCircuitInput : Type := MkInner { prev_count : Z; count : Z; input : Value; midput : Value; output : Value }.

Section Circuit.
Context `{Builder, VdfHashes}.

Definition build (prev : Z) (inp mid : Value) (verified : VerifiedProof) : circ Pis :=
  let out := hash_value mid in
  let is_basecase := is_equal prev 0 in
  let is_not_basecase := not is_basecase in
  let is_case_1 := is_equal prev 1 in
  let case_0_or_1 := or is_basecase is_case_1 in
  let after_case_1 := not case_0_or_1 in
  let pis := public_inputs verified in
  for_limbs (fun limb => conditional_assert_eq is_basecase (limb inp) (limb mid)) ;#
  connect (pi_count pis) prev ;#
  for_limbs (fun limb =>
    conditional_assert_eq is_not_basecase (limb (pi_input pis)) (limb inp) ;#
    conditional_assert_eq is_not_basecase (limb (pi_output pis)) (limb mid) ;#
    conditional_assert_eq after_case_1 (limb (pi_vd_hash pis)) (limb (verifier_data_hash verified))) ;#
  cret (MkPis (add prev 1) inp out (verifier_data_hash verified)).

(** The circuit with its inputs set, the count and the output among them. *)
Definition set_targets (i : VdfInnerCircuitInput) (verified : VerifiedProof) : circ Pis :=
  wire pis := build (prev_count i) (input i) (midput i) verified in
  connect (pi_count pis) (count i) ;#
  for_limbs (fun limb => connect (limb (pi_output pis)) (limb (output i))) ;#
  cret pis.
End Circuit.

(** ** Proving *)

(** The recursive circuit and the pod's own. A proof goes with its public inputs. *)
Class VdfBackend : Type := {
  VerifierData : Type;
  hash_verifier_data : VerifierData -> Hash;
  recursive_vd : VerifierData;
  RecProof : Type;
  rec_prove : VdfInnerCircuitInput -> RecProof * Pis -> VerifierData -> Result (RecProof * Pis);
  rec_verify : VerifierData -> RecProof * Pis -> bool;
  dummy : VerifierData * (RecProof * Pis);
  PodProof : Type;
  pod_prove : RecProof * Pis -> Hash -> Result (PodProof * PublicInputs);
  pod_verify : PodProof -> PublicInputs -> bool;
}.

Section Pod.
Context `{Builder, Pod2, IntroHashes, VdfHashes, VdfBackend}.

Definition first_inputs (starting_input : Value) : VdfInnerCircuitInput :=
  MkInner 0 1 starting_input starting_input (hash_value starting_input).
Definition next_inputs (i : VdfInnerCircuitInput) : VdfInnerCircuitInput :=
  MkInner (count i) ((count i + 1) mod ORDER) (input i) (output i) (hash_value (output i)).

(** One iteration: prove and verify. *)
Definition prove_link (i : VdfInnerCircuitInput) (p : RecProof * Pis) (vd : VerifierData) : Result (RecProof * Pis) :=
  let? p' := rec_prove i p vd in
  let? _ := rensure (rec_verify recursive_vd p') "proof verification failure" in
  Ok p'.

(** The iterations after the first. *)
Fixpoint prove_links (n : nat) (i : VdfInnerCircuitInput) (p : RecProof * Pis) : Result (VdfInnerCircuitInput * (RecProof * Pis)) :=
  match n with
  | O => Ok (i, p)
  | S n' =>
      let i := next_inputs i in
      let? p := prove_link i p recursive_vd in
      prove_links n' i p
  end.

Definition get_vdf_recursive_circuit_proof (n_iters : nat) (starting_input : Value) : Result (VdfInnerCircuitInput * (RecProof * Pis)) :=
  if (n_iters <? 2)%nat then Err (Fail "n_iters must be equal or greater than 2")
  else
    let i := first_inputs starting_input in
    let? p := prove_link i (snd dummy) (fst dummy) in
    prove_links (n_iters - 1) i p.

(** The pod's circuit: the link verifies, and so did the one before it, with the same
    verifier data. *)
Definition add_targets (p : RecProof * Pis) (root : Hash) : circ PublicInputs :=
  let pis := snd p in
  cassert (rec_verify recursive_vd p) ;#
  for_limbs (fun limb => connect (limb (pi_vd_hash pis)) (limb (hash_verifier_data recursive_vd))) ;#
  let st_hash := intro_statement_hash EMPTY_HASH [from_int_lo (pi_count pis); pi_input pis; pi_output pis] in
  cret {| statements_root := kv_hash EMPTY_HASH st_hash; vd_root := root; is_main := false |}.

Record VdfPod : Type := MkVdfPod { pod_count : Z; pod_input : Value; pod_output : Value; pod_vd_root : Hash; proof : PodProof }.

(** The arguments of the statement; a count that does not fit panics. *)
Definition pub_raw_statements (c : Z) (inp out : Value) : Result (list Value) :=
  if c mod ORDER <? 2 ^ 32 then Ok [value_of_i64 (c mod ORDER); inp; out] else Err (Panic "assertion failed: count < (1 << 32)").
Definition single_statement_mt (args : list Value) : Hash := array_commitment [intro_statement_hash EMPTY_HASH args].

Definition verify (pod : VdfPod) : Result unit :=
  let? args := pub_raw_statements (pod_count pod) (pod_input pod) (pod_output pod) in
  rensure (pod_verify (proof pod) {| statements_root := single_statement_mt args; vd_root := pod_vd_root pod; is_main := false |})
    "VdfPod proof verification failure".

Definition construct (root : Hash) (c : Z) (inp out : Value) (p : RecProof * Pis) : Result VdfPod :=
  let? (pp, pubs) := pod_prove p root in
  let? _ := rensure (pod_verify pp pubs) "proof verification failure" in
  Ok (MkVdfPod c inp out root pp).

(** For the default parameters, which the constructor asserts first. *)
Definition new (root : Hash) (n_iters : nat) (starting_input : Value) : Result VdfPod :=
  let? (last, p) := get_vdf_recursive_circuit_proof n_iters starting_input in
  construct root (count last) (input last) (output last) p.

(** The arguments of a mock pod's statement. *)
Definition new_boxed_mock (n_iters : nat) (inp : Value) : list Value :=
  [value_of_i64 (Z.of_nat n_iters); inp; Nat.iter n_iters hash_value inp].
End Pod.

(** ** What plonky2 and pod2 promise *)

Class VdfBackendLaws `{Builder, Pod2, IntroHashes, VdfHashes, VdfBackend} : Prop := {
  hash_verifier_data_inj a b : hash_verifier_data a = hash_verifier_data b -> a = b;
  (** A link that verifies has a satisfied circuit and a verified proof behind it. *)
  rec_sound p : rec_verify recursive_vd p = true ->
    exists prev inp mid vd p', in_field prev /\ rec_verify vd p' = true
      /\ build prev inp mid {| public_inputs := snd p'; verifier_data_hash := hash_verifier_data vd |} [] = Some (snd p, []);
  rec_complete i p vd pis : in_field (prev_count i) -> rec_verify vd p = true ->
    set_targets i {| public_inputs := snd p; verifier_data_hash := hash_verifier_data vd |} [] = Some (pis, []) ->
    exists q, rec_prove i p vd = Ok (q, pis) /\ rec_verify recursive_vd (q, pis) = true;
  dummy_verifies : rec_verify (fst dummy) (snd dummy) = true;
  dummy_count : pi_count (snd (snd dummy)) = 0;
  pod_sound pp pubs : pod_verify pp pubs = true -> exists p root, add_targets p root [] = Some (pubs, []);
  pod_complete p root pubs : add_targets p root [] = Some (pubs, []) -> exists pp, pod_prove p root = Ok (pp, pubs) /\ pod_verify pp pubs = true;
  (** The two encodings of an integer agree where they are used, and one limb
      holds any field element. *)
  int_lo_agrees c : 0 <= c < 2 ^ 32 -> from_int_lo c = value_of_i64 c;
  int_lo_inj a b : in_field a -> in_field b -> from_int_lo a = from_int_lo b -> a = b;
}.

(** ** Counting *)

Lemma mod_one prev k : in_field prev -> 0 < k < ORDER -> (prev + 1) mod ORDER = k -> prev = k - 1.
Proof.
  unfold in_field. intros Hp Hk Heq. destruct (Z.eq_dec prev (ORDER - 1)) as [->|Hne].
  - replace (ORDER - 1 + 1) with ORDER in Heq by lia. rewrite Z.mod_same in Heq by (unfold ORDER; lia). lia.
  - rewrite Z.mod_small in Heq by lia. lia.
Qed.
Lemma mod_zero prev : in_field prev -> (prev + 1) mod ORDER = 0 -> prev = ORDER - 1.
Proof.
  unfold in_field. intros Hp Heq. destruct (Z.eq_dec prev (ORDER - 1)) as [->|Hne]; [done|]. rewrite Z.mod_small in Heq by lia. lia.
Qed.

Section Facts.
Context `{Builder, !BuilderLaws, Pod2, IntroHashes, VdfHashes, VdfBackend, !CommitmentBinding, !LtEqU256.IntroHashLaws, !VdfBackendLaws}.

(** What a satisfied link says. *)
Lemma build_Some prev inp mid v pis rest :
  build prev inp mid v [] = Some (pis, rest) <->
    (prev = 0 -> inp = mid) /\ pi_count (public_inputs v) = prev
    /\ (prev <> 0 -> pi_input (public_inputs v) = inp /\ pi_output (public_inputs v) = mid)
    /\ (prev <> 0 -> prev <> 1 -> pi_vd_hash (public_inputs v) = verifier_data_hash v)
    /\ pis = MkPis ((prev + 1) mod ORDER) inp (hash_value mid) (verifier_data_hash v) /\ rest = [].
Proof.
  unfold build. rewrite !is_equal_spec, !not_spec, or_spec, add_spec.
  rewrite (cbind_asserts _ _ _ _ _ (asserts_conditional_value _ _ _)), (cbind_asserts _ _ _ _ _ (asserts_connect _ _)).
  rewrite (cbind_asserts _ _ _ _ _ (asserts_for_limbs _ _ (fun limb => asserts_both _ _ _ _ (asserts_conditional _ _ _)
    (asserts_both _ _ _ _ (asserts_conditional _ _ _) (asserts_conditional _ _ _))))).
  unfold cret. pose proof (limbs_eq (pi_input (public_inputs v)) inp). pose proof (limbs_eq (pi_output (public_inputs v)) mid).
  pose proof (limbs_eq (pi_vd_hash (public_inputs v)) (verifier_data_hash v)).
  destruct (Z.eqb_spec prev 0), (Z.eqb_spec prev 1); cbn [negb orb]; naive_solver.
Qed.

Lemma add_targets_Some p root pubs rest :
  add_targets p root [] = Some (pubs, rest) <->
    rec_verify recursive_vd p = true /\ pi_vd_hash (snd p) = hash_verifier_data recursive_vd
    /\ pubs = {| statements_root := kv_hash EMPTY_HASH (intro_statement_hash EMPTY_HASH [from_int_lo (pi_count (snd p)); pi_input (snd p); pi_output (snd p)]);
                 vd_root := root; is_main := false |} /\ rest = [].
Proof.
  unfold add_targets. rewrite (cbind_asserts _ _ _ _ _ (asserts_cassert _)), (cbind_asserts _ _ _ _ _ (asserts_connect_value _ _)).
  unfold cret. naive_solver.
Qed.

(** Every link counts the hashes from the input. *)
Lemma chain_counts k p :
  0 < Z.of_nat k < ORDER -> rec_verify recursive_vd p = true -> pi_count (snd p) = Z.of_nat k ->
  (k = 1%nat \/ pi_vd_hash (snd p) = hash_verifier_data recursive_vd) ->
  pi_output (snd p) = Nat.iter k hash_value (pi_input (snd p)).
Proof.
  revert p. induction k as [|k IH]; intros p Hk Hv Hc Hvd; [lia|].
  apply rec_sound in Hv as (prev & inp & mid & vd & p' & Hprev & Hv' & (Hbase & Hpc & Hlink & Hsame & Hpis & _)%build_Some).
  cbn [public_inputs verifier_data_hash] in *. rewrite Hpis in *. cbn [pi_count pi_input pi_output pi_vd_hash] in *.
  apply mod_one in Hc; [|done..]. change (Nat.iter (S k) hash_value inp) with (hash_value (Nat.iter k hash_value inp)). f_equal. destruct (decide (k = 0%nat)) as [->|Hne].
  - symmetry. apply Hbase. lia.
  - destruct Hvd as [?|Hvd]; [lia|]. apply hash_verifier_data_inj in Hvd as ->. destruct Hlink as [Hi Ho]; [lia|].
    rewrite <-Hi, <-Ho. apply IH; [lia|done|lia|]. destruct (decide (k = 1%nat)); [by left|right]. apply Hsame; lia.
Qed.

Lemma iter_S n x : Nat.iter (S n) hash_value x = hash_value (Nat.iter n hash_value x).
Proof. done. Qed.
Lemma order_pred : exists N, (Z.of_nat N = ORDER - 1 /\ 1 < Z.of_nat N < ORDER) /\ Z.to_nat ORDER = S N.
Proof.
  exists (Z.to_nat (ORDER - 1)). rewrite Z2Nat.id by (unfold ORDER; lia). split; [unfold ORDER; lia|].
  rewrite <-Z2Nat.inj_succ by (unfold ORDER; lia). done.
Qed.

(** The number of hashes behind a count of the field. *)
Definition hashes (c : Z) : nat := Z.to_nat (if c =? 0 then ORDER else c).

Lemma link_counts p :
  rec_verify recursive_vd p = true -> pi_vd_hash (snd p) = hash_verifier_data recursive_vd ->
  in_field (pi_count (snd p)) /\ pi_output (snd p) = Nat.iter (hashes (pi_count (snd p))) hash_value (pi_input (snd p)).
Proof.
  intros Hv Hvd. assert (Hf : in_field (pi_count (snd p))).
  { apply rec_sound in Hv as (prev & inp & mid & vd & p' & _ & _ & (_ & _ & _ & _ & -> & _)%build_Some). apply Z.mod_pos_bound. done. }
  split; [done|]. unfold hashes. destruct (Z.eqb_spec (pi_count (snd p)) 0) as [Hz|Hnz].
  - apply rec_sound in Hv as (prev & inp & mid & vd & p' & Hprev & Hv' & (_ & Hpc & Hlink & Hsame & Hpis & _)%build_Some).
    cbn [public_inputs verifier_data_hash] in *. rewrite Hpis in *. cbn [pi_count pi_input pi_output pi_vd_hash] in *.
    apply mod_zero in Hz; [|done]. apply hash_verifier_data_inj in Hvd as ->.
    destruct order_pred as (N & HN & HS). destruct Hlink as [Hi Ho]; [lia|]. rewrite HS, iter_S. f_equal. rewrite <-Hi, <-Ho.
    apply chain_counts; [lia|done|lia|right]. apply Hsame; lia.
  - unfold in_field in Hf. apply chain_counts; [rewrite Z2Nat.id by lia; lia|done|by rewrite Z2Nat.id by lia|by right].
Qed.

Lemma verify_counts pod (c := pod_count pod mod ORDER) :
  verify pod = Ok tt -> c < 2 ^ 32 /\ pod_output pod = Nat.iter (hashes c) hash_value (pod_input pod).
Proof.
  unfold verify, pub_raw_statements. fold c. intros Hv. assert (Hc : in_field c) by (by apply Z.mod_pos_bound).
  destruct (Z.ltb_spec c (2 ^ 32)) as [Hlt|]; [|done]. cbn [rbind] in Hv.
  unfold rensure in Hv. destruct (pod_verify _ _) eqn:Hp; [|done]. split; [done|].
  apply pod_sound in Hp as (p & root & (Hrec & Hvd & [= Hroot _] & _)%add_targets_Some).
  destruct (link_counts p Hrec Hvd) as [Hf Hout]. unfold single_statement_mt in Hroot. rewrite <-LtEqU256.single_array_root in Hroot.
  apply array_commitment_inj in Hroot. injection Hroot as Hst. apply LtEqU256.intro_statement_inj in Hst. injection Hst as Hcount Hi Ho.
  rewrite <-int_lo_agrees in Hcount by (unfold in_field in Hc; lia). apply int_lo_inj in Hcount; [|done|done]. by rewrite Hi, Ho, Hcount.
Qed.

(** ** Making a pod *)

(** The state of the loop after [k] iterations. *)
Record at_link (k : nat) (inp : Value) (i : VdfInnerCircuitInput) (p : RecProof * Pis) : Prop := {
  al_count : count i = Z.of_nat k;
  al_input : input i = inp;
  al_output : output i = Nat.iter k hash_value inp;
  al_verified : rec_verify recursive_vd p = true;
  al_pis : exists vdh, snd p = MkPis (count i) inp (output i) vdh /\ (k = 1%nat \/ vdh = hash_verifier_data recursive_vd);
}.

Lemma prove_link_ok i p vd pis :
  in_field (prev_count i) -> rec_verify vd p = true -> set_targets i {| public_inputs := snd p; verifier_data_hash := hash_verifier_data vd |} [] = Some (pis, []) ->
  exists q, prove_link i p vd = Ok (q, pis) /\ rec_verify recursive_vd (q, pis) = true.
Proof. intros Hf Hv Hs. destruct (rec_complete i p vd pis Hf Hv Hs) as (q & Hq & Hv'). exists q. unfold prove_link. rewrite Hq. cbn [rbind]. by rewrite Hv'. Qed.

Lemma set_targets_ok i v pis :
  build (prev_count i) (input i) (midput i) v [] = Some (pis, []) -> pi_count pis = count i -> pi_output pis = output i ->
  set_targets i v [] = Some (pis, []).
Proof.
  intros Hb Hc Ho. unfold set_targets. apply cbind_Some. exists pis, []. split; [done|].
  by rewrite (cbind_asserts _ _ _ _ _ (asserts_connect _ _)), (cbind_asserts _ _ _ _ _ (asserts_connect_value _ _)).
Qed.

Lemma first_link inp : exists p, prove_link (first_inputs inp) (snd dummy) (fst dummy) = Ok p /\ at_link 1 inp (first_inputs inp) p.
Proof.
  set (vdh := hash_verifier_data (fst dummy)).
  destruct (prove_link_ok (first_inputs inp) (snd dummy) (fst dummy) (MkPis 1 inp (hash_value inp) vdh)) as (q & Hq & Hv); [done|apply dummy_verifies| |].
  - apply set_targets_ok; [|done|done]. apply build_Some. cbn [first_inputs prev_count input midput public_inputs verifier_data_hash].
    rewrite dummy_count. done.
  - eexists. split; [exact Hq|]. split; [done..|]. exists vdh. split; [done|by left].
Qed.

Lemma next_link k inp i p :
  at_link k inp i p -> 0 < Z.of_nat k -> Z.of_nat k + 1 < ORDER ->
  exists p', prove_link (next_inputs i) p recursive_vd = Ok p' /\ at_link (S k) inp (next_inputs i) p'
    /\ pi_vd_hash (snd p') = hash_verifier_data recursive_vd.
Proof.
  intros [Hc Hi Ho Hv (vdh & Hpis & Hvd)] H0k Hk.
  assert (Hadd : (count i + 1) mod ORDER = Z.of_nat (S k)) by (rewrite Z.mod_small; lia).
  destruct (prove_link_ok (next_inputs i) p recursive_vd (MkPis (Z.of_nat (S k)) inp (hash_value (output i)) (hash_verifier_data recursive_vd)))
    as (q & Hq & Hv'); [unfold in_field; cbn [next_inputs prev_count]; lia|done| |].
  - apply set_targets_ok; [|by rewrite <-Hadd|done]. apply build_Some. cbn [next_inputs prev_count input midput public_inputs verifier_data_hash].
    rewrite Hpis, Hadd, Hi. cbn [pi_count pi_input pi_output pi_vd_hash]. split_and!; [lia|done|done| |done|done].
    intros _ Hne. destruct Hvd as [->|Hvd]; [lia|done].
  - eexists. split; [exact Hq|]. split; [|done].
    split; [by rewrite <-Hadd|done|cbn [next_inputs output]; by rewrite Ho|done|]. exists (hash_verifier_data recursive_vd).
    split; [cbn [snd next_inputs count output]; by rewrite Hadd|by right].
Qed.

Lemma links_ok n k inp i p :
  at_link k inp i p -> 0 < Z.of_nat k -> Z.of_nat (k + n) < ORDER ->
  exists i' p', prove_links n i p = Ok (i', p') /\ at_link (k + n) inp i' p'
    /\ (n <> 0%nat -> pi_vd_hash (snd p') = hash_verifier_data recursive_vd).
Proof.
  revert k i p. induction n as [|n IH]; intros k i p Hl H0k Hk; cbn [prove_links].
  - exists i, p. rewrite Nat.add_0_r. done.
  - destruct (next_link k inp i p Hl H0k ltac:(lia)) as (p1 & -> & Hl1 & Hvd). cbn [rbind].
    destruct (IH (S k) _ _ Hl1 ltac:(lia) ltac:(lia)) as (i' & p' & Hr & Hl' & Hvd'). exists i', p'. rewrite <-Nat.add_succ_comm. split_and!; [done|done|].
    intros _. destruct n; [|by apply Hvd']. cbn [prove_links] in Hr. by injection Hr as <- <-.
Qed.

Lemma new_counts root n inp :
  Z.of_nat n < 2 ^ 32 ->
  match new root n inp with
  | Ok pod => (2 <= n)%nat /\ pod_count pod = Z.of_nat n /\ pod_input pod = inp /\ pod_output pod = Nat.iter n hash_value inp /\ verify pod = Ok tt
      /\ pub_raw_statements (pod_count pod) (pod_input pod) (pod_output pod) = Ok (new_boxed_mock n inp)
  | Err (Fail _) => (n < 2)%nat
  | Err (Panic _) => False
  end.
Proof.
  intros Hn. unfold new, get_vdf_recursive_circuit_proof. destruct (Nat.ltb_spec n 2) as [|Hge]; [done|].
  destruct (first_link inp) as (p & -> & Hl). cbn [rbind].
  destruct (links_ok (n - 1) 1 inp _ _ Hl ltac:(lia) ltac:(unfold ORDER; lia)) as (i' & p' & -> & Hl' & Hvd). cbn [rbind].
  replace (1 + (n - 1))%nat with n in Hl' by lia. specialize (Hvd ltac:(lia)). destruct Hl' as [Hc Hi Ho Hv (vdh & Hpis & _)]. rewrite Hc, Ho in Hpis.
  unfold construct. set (pubs := {| statements_root := kv_hash EMPTY_HASH (intro_statement_hash EMPTY_HASH [from_int_lo (Z.of_nat n); inp; Nat.iter n hash_value inp]);
                                    vd_root := root; is_main := false |}).
  destruct (pod_complete p' root pubs) as (pp & -> & Hpp).
  { apply add_targets_Some. rewrite Hpis in *. done. }
  cbn [rbind]. rewrite Hpp. cbn [rensure rbind pod_count pod_input pod_output]. rewrite Hc, Hi, Ho.
  assert (Hst : pub_raw_statements (Z.of_nat n) inp (Nat.iter n hash_value inp) = Ok (new_boxed_mock n inp)).
  { unfold pub_raw_statements. rewrite Z.mod_small by (unfold ORDER; lia). by destruct (Z.ltb_spec (Z.of_nat n) (2 ^ 32)); [|lia]. }
  split_and!; [done..| |done]. unfold verify. cbn [pod_count pod_input pod_output pod_vd_root proof]. rewrite Hst. cbn [rbind].
  unfold single_statement_mt, new_boxed_mock. rewrite LtEqU256.single_array_root, <-int_lo_agrees by lia. unfold pubs in Hpp. by rewrite Hpp.
Qed.
End Facts.

(** ** The claim *)

(** C11: the delay pod counts hashes, for a sound and complete proof system and
    hashes without collisions. Whatever pod verifies, however the chain behind it was
    made, its output is its input hashed as often as its count says; only a count of
    zero would stand for as many hashes as the field has elements. For fewer than
    2^32 iterations, making a pod succeeds exactly from two iterations on, with a pod
    that verifies and whose statement is that of the mock pod. *)
Theorem vdf_pod_counts `{Builder, !BuilderLaws, Pod2, IntroHashes, VdfHashes, VdfBackend, !CommitmentBinding, !LtEqU256.IntroHashLaws, !VdfBackendLaws} :
  (forall pod, verify pod = Ok tt ->
     pod_count pod mod ORDER < 2 ^ 32
     /\ pod_output pod = Nat.iter (hashes (pod_count pod mod ORDER)) hash_value (pod_input pod))
  /\ forall root n inp, Z.of_nat n < 2 ^ 32 ->
     match new root n inp with
     | Ok pod => (2 <= n)%nat /\ pod_count pod = Z.of_nat n /\ pod_input pod = inp /\ pod_output pod = Nat.iter n hash_value inp
         /\ verify pod = Ok tt /\ pub_raw_statements (pod_count pod) (pod_input pod) (pod_output pod) = Ok (new_boxed_mock n inp)
     | Err (Fail _) => (n < 2)%nat
     | Err (Panic _) => False
     end.
Proof. split; [intros pod; apply verify_counts|intros root n inp; apply new_counts]. Qed.
End Vdf.
