(* ===== verification/IntroToy.v ===== *)
(** * Introduction pods that evaluate

    Proof systems whose proofs are the witnesses themselves, for the circuits of
    [LtEqU256.v] and [Vdf.v]: concrete pods, and the witnesses of their theorems. *)

From S2P Require Import Prelude Pod2 Models Circuits LtEqU256 Vdf.

Module IntroToy.
Import Toy Circuits.
Import LtEqU256 (IntroHashes, PublicInputs, statements_root, vd_root, is_main).
Local Open Scope Z_scope.

#[local] Instance PublicInputs_eq_dec : EqDecision PublicInputs.
Proof. solve_decision. Defined.

#[local] Instance toy_intro_hashes : IntroHashes := {|
  LtEqU256.intro_statement_hash vd args := hash_of (vd, args);
  LtEqU256.kv_hash _ v := array_commitment [v];
|}.
#[local] Instance toy_intro_laws : LtEqU256.IntroHashLaws.
Proof. split; [done|]. intros vd a b Heq%(inj hash_of). by injection Heq. Qed.

(** Gates that evaluate. *)
#[local] Instance toy_builder : Builder := {|
  is_equal := Z.eqb; not := negb; and := andb; or := orb; select b x y := if b then x else y;
  add x y := (x + y) mod ORDER; sub x y := (x - y) mod ORDER; le_sum bits := le_value bits mod ORDER;
  range_check x n := cassert ((0 <=? x) && (x <? 2 ^ Z.of_nat n)); split_le := splits;
  connect x y := cassert (x =? y); conditional_assert_eq b x y := cassert (negb b || (x =? y));
|}.
#[local] Instance toy_builder_laws : BuilderLaws.
Proof. done. Qed.

(** ** Comparison pods *)

Section LtEq.
Import LtEqU256.

(** A witness: the values, the root and the bits. *)
Definition lt_eq_check (w : Value * Value * Hash * Advice) : option PublicInputs :=
  let '(l, r, root, adv) := w in fst <$> add_targets l r root adv.

#[local] Instance toy_lt_eq : LtEqBackend := {|
  Proof := Value * Value * Hash * Advice;
  prove i :=
    let w := (field_value (in_lhs i), field_value (in_rhs i), in_vd_root i,
              generated_bits (field_value (in_lhs i)) ++ generated_bits (field_value (in_rhs i))) in
    match lt_eq_check w with Some pis => Ok (w, pis) | None => Err (Fail "unsatisfied") end;
  verify_proof w pis := bool_decide (lt_eq_check w = Some pis);
|}.
#[local] Instance toy_lt_eq_laws : LtEqBackendLaws.
Proof.
  split.
  - intros [[[l r] root] adv] pis Hv%bool_decide_eq_true. exists l, r, root, adv. unfold lt_eq_check in Hv.
    destruct (add_targets l r root adv) as [[pis' rest]|]; [|done]. exists rest. by injection Hv as ->.
  - intros i pis Hs. unfold set_targets in Hs. unfold prove, toy_lt_eq, lt_eq_check. rewrite Hs. eexists. split; [done|].
    apply bool_decide_eq_true. by rewrite Hs.
Qed.

Definition easy : Value := MkHash 5 0 0 7.
Definition hard : Value := MkHash 4 (ORDER - 1) 0 7.

Lemma easy_in_field : Forall in_field (limbs easy).
Proof. unfold limbs, in_field, ORDER. rewrite !Forall_cons. cbn [easy limb0 limb1 limb2 limb3]. split_and!; try lia. done. Qed.
Lemma hard_in_field : Forall in_field (limbs hard).
Proof. unfold limbs, in_field, ORDER. rewrite !Forall_cons. cbn [hard limb0 limb1 limb2 limb3]. unfold ORDER. split_and!; try lia. done. Qed.

(** The comparison starts at the highest limb. *)
Example toy_compared :
  match new EMPTY_HASH easy hard, new EMPTY_HASH hard easy with
  | Ok pod, Err (Fail _) => verify pod = Ok tt
  | _, _ => False
  end.
Proof. vm_compute. reflexivity. Qed.

(** Bits that are not the canonical ones are refused, though they have the right sum. *)
Example toy_other_bits :
  split_le 1 64 [le_bits 64 (ORDER + 1)] = Some (le_bits 64 (ORDER + 1), []) /\ canonical_pair (le_bits 64 (ORDER + 1)) [] = None.
Proof. vm_compute. done. Qed.

(** The check before proving compares the [u64]s, which need not be canonical: it
    refuses zero against one, which the circuit accepts. *)
Lemma precheck_on_representation :
  u256 (field_value (MkHash ORDER 0 0 0)) = 0 /\ u256 (field_value (MkHash 1 0 0 0)) = 1
  /\ match new EMPTY_HASH (MkHash ORDER 0 0 0) (MkHash 1 0 0 0) with Err (Fail _) => True | _ => False end.
Proof. vm_compute. done. Qed.

Lemma lt_eq_pod_exact_witness :
  match new EMPTY_HASH easy hard with
  | Ok pod => u256 easy <= u256 hard /\ lhs pod = easy /\ rhs pod = hard /\ verify pod = Ok tt
  | Err (Fail _) => u256 hard < u256 easy
  | Err (Panic _) => False
  end.
Proof.
  destruct lt_eq_pod_exact as [Hx _]. exact (Hx EMPTY_HASH easy hard easy_in_field hard_in_field).
Defined.
End LtEq.

(** ** Delay pods *)

Section VdfPods.
Import Vdf.

#[local] Instance Pis_eq_dec : EqDecision Pis.
Proof. solve_decision. Defined.

#[local] Instance toy_vdf_hashes : VdfHashes := {| hash_value v := hash_of v; from_int_lo c := value_of_i64 c |}.

(** A proof: nothing, or a link with its inputs and the proof before it. *)
Inductive Chain : Type := Nothing | Link (prev : Z) (inp mid : Value) (vd : bool) (before : Chain) (pis : Pis).
Definition toy_vd_hash (vd : bool) : Hash := MkHash (if vd then 1 else 2) 0 0 0.

Fixpoint chain_verify (vd : bool) (c : Chain) (pis : Pis) : bool :=
  match c with
  | Nothing => negb vd
  | Link prev inp mid vd' before pis' =>
      vd && bool_decide (in_field prev) && chain_verify vd' before pis'
      && bool_decide (build prev inp mid {| public_inputs := pis'; verifier_data_hash := toy_vd_hash vd' |} [] = Some (pis, []))
  end.

(** The recursive circuit alone, and with the pod's circuit over it. *)
Definition rec_only : VdfBackend := {|
  VerifierData := bool; hash_verifier_data := toy_vd_hash; recursive_vd := true;
  RecProof := Chain; rec_verify vd p := chain_verify vd (fst p) (snd p);
  rec_prove i p vd :=
    match set_targets i {| public_inputs := snd p; verifier_data_hash := toy_vd_hash vd |} [] with
    | Some (pis, _) => Ok (Link (prev_count i) (input i) (midput i) vd (fst p) (snd p), pis)
    | None => Err (Fail "unsatisfied")
    end;
  dummy := (false, (Nothing, MkPis 0 EMPTY_HASH EMPTY_HASH EMPTY_HASH));
  PodProof := unit; pod_prove _ _ := Err (Fail "no pod"); pod_verify _ _ := false;
|}.
Definition vdf_check (w : Chain * Pis * Hash) : option PublicInputs := fst <$> add_targets (H3 := rec_only) (fst w) (snd w) [].
#[local] Instance toy_vdf : VdfBackend := {|
  VerifierData := bool; hash_verifier_data := toy_vd_hash; recursive_vd := true;
  RecProof := Chain; rec_verify := @rec_verify rec_only; rec_prove := @rec_prove rec_only; dummy := @dummy rec_only;
  PodProof := Chain * Pis * Hash;
  pod_prove p root := match vdf_check (p, root) with Some pubs => Ok ((p, root), pubs) | None => Err (Fail "unsatisfied") end;
  pod_verify w pubs := bool_decide (vdf_check w = Some pubs);
|}.

Lemma vdf_check_exact p root pubs : vdf_check (p, root) = Some pubs <-> add_targets p root [] = Some (pubs, []).
Proof.
  unfold vdf_check. change (add_targets (H3 := rec_only) (fst (p, root)) (snd (p, root)) []) with (add_targets (H3 := toy_vdf) p root []).
  destruct (add_targets (H3 := toy_vdf) p root []) as [[pubs' rest]|] eqn:Ha; [|done]. apply add_targets_Some in Ha as (_ & _ & _ & ->). simpl. naive_solver.
Qed.

#[local] Instance toy_vdf_laws : VdfBackendLaws.
Proof.
  split.
  - by intros [] [] ?.
  - intros [[|prev inp mid vd before pis'] pis] Hv; [done|]. simpl in Hv. rewrite !andb_true_iff, !bool_decide_eq_true in Hv.
    destruct Hv as [[Hf Hv] Hb]. by exists prev, inp, mid, vd, (before, pis').
  - intros i p vd pis Hf Hv Hs. change (rec_prove i p vd) with (@rec_prove rec_only i p vd). simpl. simpl in Hs. rewrite Hs. eexists. split; [done|].
    simpl. rewrite !andb_true_iff, !bool_decide_eq_true. split_and!; [done|done|].
    unfold set_targets in Hs. apply cbind_Some in Hs as (x & adv & Hb & Hs). apply (cbind_asserts _ _ _ _ _ (asserts_connect _ _)) in Hs as [_ Hs].
    apply (cbind_asserts _ _ _ _ _ (asserts_connect_value _ _)) in Hs as [_ [= <- ->]]. exact Hb.
  - done.
  - done.
  - intros [p root] pubs Hv%bool_decide_eq_true. exists p, root. by apply vdf_check_exact.
  - intros p root pubs Hv%vdf_check_exact. exists (p, root). simpl. rewrite Hv. split; [done|]. by apply bool_decide_eq_true.
  - done.
  - intros a b _ _ [= ?]. done.
Qed.

(** Three iterations, and why one is refused. *)
Example toy_delayed :
  match new EMPTY_HASH 3 EMPTY_HASH, new EMPTY_HASH 1 EMPTY_HASH with
  | Ok pod, Err (Fail _) => pod_count pod = 3 /\ verify pod = Ok tt
  | _, _ => False
  end.
Proof. vm_compute. done. Qed.

(** Verifying a pod whose count does not fit panics, whatever its proof. *)
Lemma large_count_panics pp : match verify (MkVdfPod (2 ^ 32) EMPTY_HASH EMPTY_HASH EMPTY_HASH pp) with Err (Panic _) => True | _ => False end.
Proof. done. Qed.

Lemma vdf_pod_counts_witness :
  match new EMPTY_HASH 2 EMPTY_HASH with
  | Ok pod => (2 <= 2)%nat /\ pod_count pod = Z.of_nat 2 /\ pod_input pod = EMPTY_HASH /\ pod_output pod = Nat.iter 2 hash_value EMPTY_HASH
      /\ verify pod = Ok tt /\ pub_raw_statements (pod_count pod) (pod_input pod) (pod_output pod) = Ok (new_boxed_mock 2 EMPTY_HASH)
  | Err (Fail _) => (2 < 2)%nat
  | Err (Panic _) => False
  end.
Proof. destruct vdf_pod_counts as [_ Hx]. apply (Hx EMPTY_HASH 2%nat EMPTY_HASH). lia. Defined.
End VdfPods.
End IntroToy.
